(* ===== verification/_CoqProject ===== *)
-Q . S2P
Prelude.v
Coding.v
Slice.v
Logging.v
Comparator.v
FilterPolicy.v
FilterBlock.v
DbFormat.v
WriteBatch.v
VersionEdit.v
Arena.v
Crc32c.v
Env.v
Log.v
Iterator.v
Block.v
SkipList.v
MemTable.v
Format.v
TwoLevel.v
Merger.v
TableBuilder.v
Table.v
FileName.v
Cache.v
CacheClient.v
Version.v
VersionSet.v
Compaction.v
DBIter.v
Snapshot.v
DBImpl.v
CompactionWork.v
DBRead.v
TableCache.v
VirtualFs.v
PosixEnv.v
BTree.v
WriteQueue.v
Recovery.v
