(* ===== verification/Prelude.v ===== *)
(** * LevelDB: a key-value store as a log-structured merge tree

    A verification of the program under [src/LevelDBLib/jni/], the C++ library
    [leveldb] with the changes of this repository (one table number, an in-memory file
    system), as a shallow embedding: each function of the source is a function here, with
    the state it changes passed along.  Paths below are relative to
    [src/LevelDBLib/jni/leveldb/]; the reader needs only the repository.

    ** The program, and where its parts are

    A database is a log of recent writes, a memtable that repeats the log in memory, and
    seven levels of immutable tables with sorted entries.  A manifest, itself a log, says
    which tables belong to the database.

    - Values of the program ([Prelude], [Coding], [Slice], [Logging]).  Bytes are
      [Byte.byte]; [std::string], [Slice] and buffers are lists of bytes; integers are [Z]
      with [u8], [u32], [u64], [usize], [i32] written out where the source wraps around.
      [usize] has 32 bits, as in the builds for Android.
      [util/coding.cpp], [util/logging.cpp], [slice.h], [status.h].
    - Interfaces as classes with laws: [Comparator], [FilterPolicy], [Env] (files),
      [Iterator] (an iterator is a cursor on a list of entries), [TableGetter] of [Version]
      and the operations of tables and files in [DBImpl].  Clients are proved against the
      laws, and the components discharge them, so that the theorems compose.
    - Keys and batches: [DbFormat] ([db/dbformat.cpp]: user key, sequence number and
      type), [WriteBatch] ([db/write_batch.cpp]).
    - The log: [Log] ([db/log_writer.cpp], [db/log_reader.cpp]), with the checksums of
      [Crc32c] ([util/crc32c.cpp]).
    - The memtable: [Arena] ([util/arena.cpp]), [SkipList] ([db/skiplist.h], the stores of
      an insertion one by one, as readers run without a lock), [MemTable].
    - Tables: [Block] ([table/block_builder.cpp], [table/block.cpp]), [FilterBlock],
      [Format] ([table/format.cpp]: handles, footer, reading of blocks), [TableBuilder],
      [TwoLevel], [Table] ([table/table.cpp]).
    - Caches: [Cache] ([util/cache.cpp]: hash table and lists of handles as maps from
      addresses), [CacheClient] (what users of a cache rely on), [TableCache]
      ([db/table_cache.cpp]).
    - The tree: [VersionEdit], [Version] (levels and their search), [VersionSet] (builder,
      manifest, [LogAndApply], [Recover]) and [Compaction] (what to compact), together
      [db/version_set.cpp] and [db/version_edit.cpp].
    - The database, [db/db_impl.cpp], over one environment [E] that holds files and the
      table cache: [DBImpl] (the state that the mutex protects, memtable compaction,
      deletion of obsolete files, scheduling), [CompactionWork] (the loop that merges
      tables), [DBRead] ([Get], iterators, snapshots), [WriteQueue] ([Write] by many
      threads), [Recovery] (opening, recovery, closing, [DestroyDB]), [Snapshot]
      ([db/snapshot.h]), [DBIter] ([db/db_iter.cpp]), [Merger] ([table/merger.cpp]),
      [FileName] ([db/filename.cpp]).
    - The row store beside LevelDB, [../KvDB/]: [BTree], the B-tree and the B+ tree that
      index the rows of a table in memory ([SMDIndexSegment.h]).
    - The environment: [VirtualFs] ([util/PathParser.h], [util/filesystem/]) and [PosixEnv]
      ([util/env_posix.cpp], the build over the file system in memory, and the thread for
      background work).

    ** How code becomes definitions

    A class is a [Record] with the names of its fields, a method a function from the
    record, with results first.  A pointer that is only read is the value it points to;
    where sharing matters (handles of the cache, nodes of the skip list, snapshots,
    files in memory, versions with reference counts) there are addresses and a heap.
    Errors are values of [Status]; [option] and sums are used where the code has a result
    or an error.  An outer [option] is [None] where the code would read or write out of
    bounds, wait without end, or where fuel runs out; the theorems show that it does not
    happen, or a finding says when it does.  Threads are steps: of [SkipList], each store;
    of [WriteQueue] and [PosixEnv], what a thread does between getting a mutex and
    releasing it; in [CompactionWork] and [DBRead] a function [others] says what other
    threads do to the state whenever the mutex is free, and the theorems hold for each
    such function that keeps the promises it is asked for.

    [assert] is taken as in a release build, where it does nothing: the makefiles do not
    say which build is meant, and in the other one some assertions stop programs that the
    theorems are about (they are among the findings of [VersionSet], [CompactionWork] and
    [Recovery]; [LogAndApply_asserts] is the condition of one).  The in-memory build of the
    environment ([BUILD_HADOOP]) is an option of the makefile that is commented out; the
    other one calls the operating system.

    Files that can be written are an interface with laws ([Env.WritableFile]).  What a crash
    would leave of them is asked of [Env.FileStates], which says when a file was synced and
    closed.  [disk_] of [DBImpl] has, by name, the table files that the database has
    written, as they are: opening a file for writing takes the place of the one with its
    name.  All tables of this version of the program have one name, as their number
    is always [FILENUMBER_LDB], 0.  The theorems say what follows from it: the last table
    that was written is the one that is left ([DBImpl.compact_memtable],
    [CompactionWork.compaction_work], [Recovery.recover_log]); the table cache answers every
    number from it ([TableCache.table_cache]); and a version, which knows files by their
    numbers, is recovered from its manifest only when the numbers of a level do not return
    ([VersionSet.manifest_recovery]).  Lemmas show the losses on examples:
    [CompactionWork.outputs_overwritten], [Recovery.first_table_lost],
    [Recovery.empty_batch_deletes_table], [DBImpl.empty_flush_deletes_table],
    [VersionSet.deleted_file_revived], [VersionSet.replaced_file_stays],
    [TableCache.stale_table_answers].  What is proved of versions, levels and iterators
    holds for tables with contents of their own, as the layers above ask for them through
    interfaces.

    ** What is proved

    - Round trips: varints, batches and edits are decoded to what was encoded
      ([VersionEdit.version_edit_roundtrip], and as lemmas [Coding.varint_roundtrip],
      [WriteBatch.write_batch_roundtrip]); a log, cut anywhere,
      gives back a prefix of its records ([Log.log_recovery]); blocks and tables are read
      as they were built ([Block.block_roundtrip], [Table.table_iterator],
      [Table.table_get]); file names are parsed back ([FileName.filename_roundtrip]); files
      in memory keep what is written ([PosixEnv.files_roundtrip]); the manifest restores
      the version set ([VersionSet.manifest_recovery]); a log of batches and a database
      are recovered ([Recovery.recover_log], [Recovery.open_recovers]).
    - Refinement: B-trees, skip list, memtable, cache shards, table cache, merging, two-level and
      database iterators implement a sorted list, a map by sequence number, an abstract
      least-recently-used cache, and cursors ([BTree.btree_index],
      [SkipList.skiplist_insert], [MemTable.memtable_get], [MemTable.memtable_iterator],
      [Cache.lru_shard_refines], [TableCache.table_cache], [Merger.merging_iterator],
      [DBIter.db_iterator], [DBRead.db_new_iterator]).
    - What readers see: [DBRead.db_get], [Version.version_get],
      [MemTable.memtable_batch_atomic], [DBRead.make_input_iterator]; the entries that
      a compaction drops change no read ([CompactionWork.compaction_reads]); what a
      compaction and the flush of a memtable leave ([CompactionWork.compaction_work],
      [DBImpl.compact_memtable], [Compaction.compaction_choice],
      [Compaction.base_level_for_keys], [VersionSet.log_and_apply],
      [Version.overlapping_inputs]).
    - Threads: the calls of [Write] are grouped in order and each returns
      ([WriteQueue.write_queue], [WriteQueue.write_queue_live]); background work is done in
      order ([PosixEnv.background_thread]); every partial state of a skip list is
      well-formed.
    - Invariants, bounds and machine arithmetic: [Cache.shard_invariant],
      [Snapshot.snapshot_list], the lemma [Arena.arena_allocations], [Block.DecodeEntry_bounds],
      [Crc32c.crc32c_correct], [DbFormat.internal_key_order],
      [FilterBlock.filter_block_no_false_negative], [Log.log_reader_sound].

    ** Bounds and fuel

    Loops that are not structural take fuel, and the callers pass an amount that the
    theorems prove to be enough: the length of the bytes or of the list that a loop
    consumes ([Coding], [Log], [Block]), the number of nodes times [kMaxHeight] for searches
    of the skip list, the number of files for the restarts of [GetOverlappingInputs] and for
    searches of a level, 32 doublings of an [int] in [VirtualFs].  Where the caller of the
    source has no such number the theorems hold for any fuel above a bound: the entries of
    the inputs for the loop of a compaction, twice the entries plus one for the loops of the
    database iterator, which move at least one entry in each pass.  Sizes are bounded by
    hypotheses where the source adds 32-bit lengths (blocks, batches, records of less than
    2^32 bytes, files in memory of less than 2^30); sequence numbers are below 2^56, as
    [dbformat.h] requires.

    ** Not modelled

    - The public operations around those above: [CompactRange], [GetProperty] and the
      functions for tests in [db_impl.cpp]; [Put] and [Delete], which call [Write].
    - [db/repair.cpp] and [db/dumpfile.cpp], tools over the parts that are modelled; the
      bindings [db/c.cpp] and [../LevelDBAPI.cpp]; the handles of the application
      ([LevelDB.cpp], [LevelDBFactory.cpp], [../include/]).
    - The rest of the row store [../KvDB/]: records, fields, pages and streams, and the
      saving of indexes to pages and searching them there.
    - Mutexes, conditions and atomic pointers ([port/], [util/mutexlock.h]): they are the
      bounds of the steps of the models.  Weak memory is not modelled.
    - The info log, histograms and times of day; reference counts of [FileMetaData];
      capacities of buffers; Snappy, the allocator, time and the operating system are
      parameters with the laws that the code relies on.
*)

From Stdlib Require Export ZArith Lia Bool Sorting.Sorted.
From Stdlib Require Strings.Byte.
From stdpp Require Export base tactics numbers list gmap strings.

#[global] Open Scope Z_scope.

(** ** Bytes *)

(** [char] buffers, [std::string] and [Slice] contents are lists of bytes. *)
Abbreviation byte := Byte.byte.
Abbreviation bytes := (list Byte.byte).

(** [(unsigned char)b] as an integer. *)
Definition b2z (b : byte) : Z := Z.of_N (Byte.to_N b).

(** Storing an integer in a [char]: the value modulo 256. *)
Definition z2b (z : Z) : byte :=
  match Byte.of_N (Z.to_N (z mod 256)) with
  | Some b => b
  | None => Byte.x00
  end.

(** A string literal of the source as bytes. *)
Definition str (s : String.string) : bytes := String.list_byte_of_string s.
Arguments str s%_string.

Lemma b2z_range b : 0 <= b2z b < 256.
Proof. unfold b2z. pose proof (Byte.to_N_bounded b). lia. Qed.

Lemma z2b_spec z : b2z (z2b z) = z mod 256.
Proof.
  unfold z2b, b2z. pose proof (Z.mod_pos_bound z 256 eq_refl).
  destruct (Byte.of_N _) as [b|] eqn:E.
  - apply Byte.to_of_N in E. lia.
  - apply Byte.of_N_None_iff in E. lia.
Qed.

Lemma z2b_b2z b : z2b (b2z b) = b.
Proof.
  unfold z2b. pose proof (b2z_range b). rewrite Z.mod_small by lia.
  unfold b2z. rewrite N2Z.id, Byte.of_to_N. done.
Qed.

Lemma b2z_inj a b : b2z a = b2z b -> a = b.
Proof. intros E. rewrite <- (z2b_b2z a), <- (z2b_b2z b), E. done. Qed.

Lemma z2b_small z : 0 <= z < 256 -> b2z (z2b z) = z.
Proof. intros. rewrite z2b_spec, Z.mod_small; lia. Qed.

Lemma z2b_mod z : z2b (z mod 256) = z2b z.
Proof. apply b2z_inj. rewrite !z2b_spec, Z.mod_mod; lia. Qed.

#[global] Instance byte_eq_dec : EqDecision byte := Byte.byte_eq_dec.
#[global] Instance byte_countable : Countable byte := inj_countable Byte.to_N Byte.of_N Byte.of_to_N.

(** ** Machine integers *)

(** Unsigned integers of [w] bits are integers of [0 .. 2^w - 1]; an operation
    of the source that can leave the range is followed by the reduction that
    C++ does. *)
Definition u8 (z : Z) : Z := z mod 2 ^ 8.
Definition u32 (z : Z) : Z := z mod 2 ^ 32.
Definition u64 (z : Z) : Z := z mod 2 ^ 64.

(** The value of [z] stored in an [int]: two's complement on 32 bits. *)
Definition i32 (z : Z) : Z := (z + 2 ^ 31) mod 2 ^ 32 - 2 ^ 31.

(** The same on 64 bits. *)
Definition i64 (z : Z) : Z := (z + 2 ^ 63) mod 2 ^ 64 - 2 ^ 63.

(** [size_t] and pointers have 32 bits on the target ([APP_ABI := armeabi]). *)
Definition usize (z : Z) : Z := z mod 2 ^ 32.

(** [size()] of a buffer. *)
Definition size_of {A} (l : list A) : Z := Z.of_nat (length l).

Lemma u8_range z : 0 <= u8 z < 2 ^ 8.
Proof. apply Z.mod_pos_bound. lia. Qed.
Lemma u32_range z : 0 <= u32 z < 2 ^ 32.
Proof. apply Z.mod_pos_bound. lia. Qed.
Lemma u64_range z : 0 <= u64 z < 2 ^ 64.
Proof. apply Z.mod_pos_bound. lia. Qed.
Lemma u8_small z : 0 <= z < 2 ^ 8 -> u8 z = z.
Proof. apply Z.mod_small. Qed.
Lemma u32_small z : 0 <= z < 2 ^ 32 -> u32 z = z.
Proof. apply Z.mod_small. Qed.
Lemma usize_range z : 0 <= usize z < 2 ^ 32.
Proof. apply Z.mod_pos_bound. lia. Qed.
Lemma usize_small z : 0 <= z < 2 ^ 32 -> usize z = z.
Proof. apply Z.mod_small. Qed.
Lemma u64_small z : 0 <= z < 2 ^ 64 -> u64 z = z.
Proof. apply Z.mod_small. Qed.
Lemma i32_small z : - 2 ^ 31 <= z < 2 ^ 31 -> i32 z = z.
Proof. intros. unfold i32. rewrite Z.mod_small; lia. Qed.
Lemma i64_small z : - 2 ^ 63 <= z < 2 ^ 63 -> i64 z = z.
Proof. intros. unfold i64. rewrite Z.mod_small; lia. Qed.
Lemma size_of_nonneg {A} (l : list A) : 0 <= size_of l.
Proof. unfold size_of. lia. Qed.
Lemma size_of_app {A} (l k : list A) : size_of (l ++ k) = size_of l + size_of k.
Proof. unfold size_of. rewrite length_app. lia. Qed.
Lemma size_of_cons {A} (x : A) l : size_of (x :: l) = 1 + size_of l.
Proof. unfold size_of. rewrite length_cons. lia. Qed.

(** A bitwise or (or exclusive or) of parts that share no bit is their sum. *)
Lemma land_disjoint a b k : 0 <= k -> 0 <= a < 2 ^ k -> Z.land a (Z.shiftl b k) = 0.
Proof.
  intros Hk Ha. apply Z.bits_inj'. intros n Hn. rewrite Z.land_spec, Z.bits_0.
  destruct (decide (n < k)).
  - rewrite Z.shiftl_spec_low by lia. apply andb_false_r.
  - rewrite <- (Z.mod_small a (2 ^ k)) by lia.
    rewrite Z.mod_pow2_bits_high by lia. done.
Qed.

Lemma lxor_disjoint_add a b k :
  0 <= k -> 0 <= a < 2 ^ k -> Z.lxor a (Z.shiftl b k) = a + b * 2 ^ k.
Proof.
  intros Hk Ha. rewrite <- Z.shiftl_mul_pow2 by lia.
  symmetry. by apply Z.add_nocarry_lxor, land_disjoint.
Qed.

Lemma lor_disjoint_add a b k :
  0 <= k -> 0 <= a < 2 ^ k -> Z.lor a (Z.shiftl b k) = a + b * 2 ^ k.
Proof.
  intros Hk Ha. rewrite <- lxor_disjoint_add by done. symmetry.
  by apply Z.lxor_lor, land_disjoint.
Qed.

Lemma land_ones_mod a k : 0 <= k -> Z.land a (2 ^ k - 1) = a mod 2 ^ k.
Proof.
  intros. rewrite <- Z.land_ones by done. f_equal.
  rewrite Z.ones_equiv. lia.
Qed.

Lemma land_255 a : Z.land a 255 = a mod 256.
Proof. apply (land_ones_mod a 8). lia. Qed.

Lemma z2b_land_255 a : z2b (Z.land a 255) = z2b a.
Proof. rewrite land_255. apply z2b_mod. Qed.

Lemma shiftr_div a k : 0 <= k -> Z.shiftr a k = a / 2 ^ k.
Proof. intros. apply Z.shiftr_div_pow2. done. Qed.

Lemma lxor_range a b k : 0 <= k -> 0 <= a < 2 ^ k -> 0 <= b < 2 ^ k -> 0 <= Z.lxor a b < 2 ^ k.
Proof.
  intros Hk Ha Hb. assert (E : Z.lxor a b = Z.lxor a b mod 2 ^ k).
  { apply Z.bits_inj'. intros n Hn. destruct (decide (n < k)).
    - by rewrite Z.mod_pow2_bits_low by lia.
    - rewrite Z.mod_pow2_bits_high, Z.lxor_spec by lia.
      rewrite <- (Z.mod_small a (2 ^ k)), <- (Z.mod_small b (2 ^ k)) by lia.
      by rewrite !Z.mod_pow2_bits_high by lia. }
  rewrite E. apply Z.mod_pos_bound. lia.
Qed.

(** ** Little-endian integers *)

(** The bytes of an [n]-byte integer in the memory of a little-endian
    machine, and the integer such bytes hold. *)
Fixpoint le_bytes (n : nat) (v : Z) : bytes :=
  match n with
  | O => []
  | S n => z2b v :: le_bytes n (v / 256)
  end.

Fixpoint le_value (l : bytes) : Z :=
  match l with
  | [] => 0
  | b :: l => b2z b + 256 * le_value l
  end.

Lemma length_le_bytes n v : length (le_bytes n v) = n.
Proof. revert v. induction n; intros; simpl; auto. Qed.

Lemma le_value_range l : 0 <= le_value l < 256 ^ size_of l.
Proof.
  induction l as [|b l IH]; [done|].
  rewrite size_of_cons, Z.pow_add_r by (pose proof (size_of_nonneg l); lia).
  pose proof (b2z_range b). simpl le_value. lia.
Qed.

Lemma le_value_bytes n v : le_value (le_bytes n v) = v mod 256 ^ Z.of_nat n.
Proof.
  revert v. induction n as [|n IH]; intros v; [symmetry; apply Z.mod_1_r|].
  simpl le_value. rewrite IH, z2b_spec, Nat2Z.inj_succ, Z.pow_succ_r by lia.
  rewrite Z.rem_mul_r; lia.
Qed.

Lemma le_bytes_value l : le_bytes (length l) (le_value l) = l.
Proof.
  induction l as [|b l IH]; [done|]. simpl. pose proof (b2z_range b). f_equal.
  - apply b2z_inj. rewrite z2b_spec, Z.mul_comm, Z.mod_add, Z.mod_small; lia.
  - rewrite Z.mul_comm, Z.div_add, Z.div_small by lia. done.
Qed.

(** ** Lists *)

(** [memcpy] of [new] over the buffer [l] at offset [i]. *)
Definition write_at {A} (i : nat) (new l : list A) : list A :=
  take i l ++ new ++ drop (i + length new) l.

Lemma length_write_at {A} i (new l : list A) :
  (i + length new <= length l)%nat -> length (write_at i new l) = length l.
Proof.
  intros. unfold write_at. rewrite !length_app, length_take, length_drop. lia.
Qed.

Lemma take_app_exact {A} n (l k : list A) : n = length l -> take n (l ++ k) = l.
Proof. intros ->. apply take_app_length. Qed.
Lemma drop_app_exact {A} n (l k : list A) : n = length l -> drop n (l ++ k) = k.
Proof. intros ->. apply drop_app_length. Qed.

Lemma StronglySorted_lookup {A} (R : A -> A -> Prop) (l : list A) i j a b :
  StronglySorted R l -> l !! i = Some a -> l !! j = Some b -> (i < j)%nat -> R a b.
Proof.
  intros Hs. revert i j. induction Hs as [|x l Hl IH Hx]; intros [|i] [|j] Hi Hj Hlt; try done; try lia.
  - injection Hi as ->. rewrite Forall_forall in Hx. apply Hx. by eapply list_elem_of_lookup_2.
  - apply (IH i j); [done..|lia].
Qed.

Lemma StronglySorted_of_lookup {A} (R : A -> A -> Prop) (l : list A) :
  (forall i j a b, l !! i = Some a -> l !! j = Some b -> (i < j)%nat -> R a b) -> StronglySorted R l.
Proof.
  induction l as [|x l IH]; intros H; [constructor|]. constructor.
  - apply IH. intros i j a b Hi Hj Hlt. apply (H (S i) (S j)); [done..|lia].
  - rewrite Forall_lookup. intros j b Hj. apply (H O (S j)); [done..|lia].
Qed.

(** ** Hints and tactics *)

Create HintDb leveldb.
Create Rewrite HintDb leveldb.
#[export] Hint Resolve u8_range u32_range u64_range usize_range b2z_range size_of_nonneg
  le_value_range : leveldb.
#[export] Hint Rewrite @length_app @length_cons @length_nil @length_take
  @length_drop @length_replicate length_le_bytes @size_of_app @size_of_cons : leveldb.

(** Arithmetic on lengths: normalise the lengths of list expressions, then
    [lia]. *)
Ltac len :=
  unfold size_of in *; autorewrite with leveldb in *; simpl length in *; lia.

(** [lia] with the defining equations of the divisions and remainders. *)
Ltac dlia := Z.to_euclidean_division_equations; lia.

Lemma sublist_StronglySorted {A} (R : A -> A -> Prop) (l k : list A) :
  sublist l k -> StronglySorted R k -> StronglySorted R l.
Proof.
  induction 1 as [|x l k Hs IH|x l k Hs IH]; intros HS; inversion_clear HS as [|? ? HS' Hx]; [constructor| |auto].
  constructor; [auto|]. rewrite Forall_forall in *. intros y Hy. apply Hx. by eapply elem_of_sublist.
Qed.

Lemma StronglySorted_map {A B} (f : A -> B) (R : B -> B -> Prop) (l : list A) :
  StronglySorted R (map f l) <-> StronglySorted (fun x y => R (f x) (f y)) l.
Proof.
  split.
  - induction l as [|x l IH]; intros H; inversion_clear H as [|? ? H1 H2]; constructor; [by apply IH|].
    by apply Forall_map.
  - induction 1 as [|x l Hs IH Hx]; constructor; [done|]. by apply Forall_map.
Qed.

Section Filter.
Context {A : Type} (P : A -> Prop) `{!forall x, Decision (P x)}.

Lemma filter_all (l : list A) : Forall P l -> filter P l = l.
Proof. induction 1; [done|]. rewrite filter_cons_True by done. by f_equal. Qed.

Lemma filter_none (l : list A) : Forall (fun x => ~ P x) l -> filter P l = [].
Proof. induction 1; [done|]. by rewrite filter_cons_False. Qed.

Lemma filter_ext_in (Q : A -> Prop) `{!forall x, Decision (Q x)} (l : list A) : (forall x, x ∈ l -> P x <-> Q x) -> filter P l = filter Q l.
Proof.
  induction l as [|x l IH]; intros HPQ; [done|]. rewrite !filter_cons, IH by (intros y Hy; apply HPQ; by right).
  pose proof (HPQ x ltac:(left)). by repeat case_decide; try tauto.
Qed.

(** The place of an element among those that satisfy [P]. *)
Lemma filter_lookup (l : list A) j x : l !! j = Some x -> P x -> filter P l !! length (filter P (take j l)) = Some x.
Proof.
  intros Hj HP. assert (E : filter P l = filter P (take j l) ++ x :: filter P (drop (S j) l)).
  { rewrite <- filter_cons_True by done. by rewrite <- filter_app, take_drop_middle. }
  rewrite E. by rewrite list_lookup_middle.
Qed.

Lemma filter_lookup_inv (l : list A) n x : filter P l !! n = Some x -> exists j, l !! j = Some x /\ P x /\ length (filter P (take j l)) = n.
Proof.
  revert n. induction l as [|y l IH]; intros n Hn; [done|]. rewrite filter_cons in Hn. destruct (decide (P y)) as [Hy|Hy].
  - destruct n as [|n]; [injection Hn as <-; by exists O|]. destruct (IH n Hn) as (j & Hj & HP & Hl). exists (S j). cbn [take].
    rewrite filter_cons_True by done. cbn. by rewrite Hl.
  - destruct (IH n Hn) as (j & Hj & HP & Hl). exists (S j). cbn [take]. by rewrite filter_cons_False.
Qed.

Lemma filter_take_le (l : list A) j : (length (filter P (take j l)) <= length (filter P l))%nat.
Proof. assert (E := filter_app P (take j l) (drop j l)). rewrite take_drop in E. rewrite E, length_app. lia. Qed.

Lemma filter_map {B} (f : B -> A) (l : list B) : filter P (map f l) = map f (filter (fun x => P (f x)) l).
Proof. induction l as [|x l IH]; [done|]. cbn [map]. rewrite !filter_cons, IH. by case_decide. Qed.
End Filter.
