(* ===== verification/Coding.v ===== *)
(** * Coding: fixed-width and variable-length integers, length-prefixed strings

    Models [util/coding.cpp] and [util/coding.h].  A [std::string* dst] that is
    appended to is a byte list returned by the function; the pointer interval
    [p, limit) of the [Get...] functions is the byte list from [p] to [limit],
    and the returned pointer is the list that remains ([None] for [NULL]). *)

From S2P Require Import Prelude.

(** The target is little-endian ([APP_ABI := armeabi]); the operations are
    modelled on both branches of the test of [port::kLittleEndian]. *)
Definition kLittleEndian : bool := true.

(** ** Fixed-width integers *)

Definition EncodeFixed32_on (little : bool) (value : Z) : bytes :=
  if little then le_bytes 4 value
  else [ z2b (Z.land value 0xff);
         z2b (Z.land (Z.shiftr value 8) 0xff);
         z2b (Z.land (Z.shiftr value 16) 0xff);
         z2b (Z.land (Z.shiftr value 24) 0xff) ].

Definition EncodeFixed64_on (little : bool) (value : Z) : bytes :=
  if little then le_bytes 8 value
  else [ z2b (Z.land value 0xff);
         z2b (Z.land (Z.shiftr value 8) 0xff);
         z2b (Z.land (Z.shiftr value 16) 0xff);
         z2b (Z.land (Z.shiftr value 24) 0xff);
         z2b (Z.land (Z.shiftr value 32) 0xff);
         z2b (Z.land (Z.shiftr value 40) 0xff);
         z2b (Z.land (Z.shiftr value 48) 0xff);
         z2b (Z.land (Z.shiftr value 56) 0xff) ].

Definition EncodeFixed32 (value : Z) : bytes := EncodeFixed32_on kLittleEndian value.
Definition EncodeFixed64 (value : Z) : bytes := EncodeFixed64_on kLittleEndian value.

Definition PutFixed32 (dst : bytes) (value : Z) : bytes := dst ++ EncodeFixed32 value.
Definition PutFixed64 (dst : bytes) (value : Z) : bytes := dst ++ EncodeFixed64 value.

(** [ptr[i]] read as an unsigned char. *)
Definition uchar_at (ptr : bytes) (i : nat) : Z := b2z (nth i ptr Byte.x00).

Definition DecodeFixed32_on (little : bool) (ptr : bytes) : Z :=
  if little then le_value (take 4 ptr)
  else Z.lor (Z.lor (Z.lor (uchar_at ptr 0)
                           (Z.shiftl (uchar_at ptr 1) 8))
                    (Z.shiftl (uchar_at ptr 2) 16))
             (Z.shiftl (uchar_at ptr 3) 24).

Definition DecodeFixed64_on (little : bool) (ptr : bytes) : Z :=
  if little then le_value (take 8 ptr)
  else let lo := DecodeFixed32_on little ptr in
       let hi := DecodeFixed32_on little (drop 4 ptr) in
       Z.lor (Z.shiftl hi 32) lo.

Definition DecodeFixed32 (ptr : bytes) : Z := DecodeFixed32_on kLittleEndian ptr.
Definition DecodeFixed64 (ptr : bytes) : Z := DecodeFixed64_on kLittleEndian ptr.

(** ** Variable-length integers *)

Definition EncodeVarint32 (v : Z) : bytes :=
  let B := 128 in
  if v <? Z.shiftl 1 7 then [z2b v]
  else if v <? Z.shiftl 1 14 then
    [z2b (Z.lor v B); z2b (Z.shiftr v 7)]
  else if v <? Z.shiftl 1 21 then
    [z2b (Z.lor v B); z2b (Z.lor (Z.shiftr v 7) B); z2b (Z.shiftr v 14)]
  else if v <? Z.shiftl 1 28 then
    [z2b (Z.lor v B); z2b (Z.lor (Z.shiftr v 7) B);
     z2b (Z.lor (Z.shiftr v 14) B); z2b (Z.shiftr v 21)]
  else
    [z2b (Z.lor v B); z2b (Z.lor (Z.shiftr v 7) B);
     z2b (Z.lor (Z.shiftr v 14) B); z2b (Z.lor (Z.shiftr v 21) B);
     z2b (Z.shiftr v 28)].

Definition PutVarint32 (dst : bytes) (v : Z) : bytes := dst ++ EncodeVarint32 v.

(** The [while (v >= B)] loop; [fuel] bounds its iterations. *)
Fixpoint EncodeVarint64_loop (fuel : nat) (v : Z) : bytes :=
  let B := 128 in
  match fuel with
  | O => []
  | S fuel =>
      if v >=? B
      then z2b (Z.lor (Z.land v (B - 1)) B) :: EncodeVarint64_loop fuel (Z.shiftr v 7)
      else [z2b v]
  end.

(** Ten bytes ([char buf[10]]) hold every 64-bit value. *)
Definition EncodeVarint64 (v : Z) : bytes := EncodeVarint64_loop 10 v.

Definition PutVarint64 (dst : bytes) (v : Z) : bytes := dst ++ EncodeVarint64 v.

(** [value.size()] is converted to the [uint32_t] argument of [PutVarint32]. *)
Definition PutLengthPrefixedSlice (dst value : bytes) : bytes :=
  PutVarint32 dst (u32 (size_of value)) ++ value.

Fixpoint VarintLength_loop (fuel : nat) (v len : Z) : Z :=
  match fuel with
  | O => len
  | S fuel => if v >=? 128 then VarintLength_loop fuel (Z.shiftr v 7) (len + 1) else len
  end.
Definition VarintLength (v : Z) : Z := VarintLength_loop 10 v 1.

(** The loop [for (shift = 0; shift <= 28 && p < limit; shift += 7)].  Each
    iteration consumes a byte, so it is structural on the bytes that remain. *)
Fixpoint GetVarint32_loop (p : bytes) (shift result : Z) : option (Z * bytes) :=
  match p with
  | [] => None
  | c :: p =>
      if shift <=? 28 then
        let byte := b2z c in
        if negb (Z.land byte 128 =? 0)
        then GetVarint32_loop p (shift + 7)
               (Z.lor result (u32 (Z.shiftl (Z.land byte 127) shift)))
        else Some (Z.lor result (u32 (Z.shiftl byte shift)), p)
      else None
  end.
Definition GetVarint32PtrFallback (p : bytes) : option (Z * bytes) :=
  GetVarint32_loop p 0 0.

Definition GetVarint32Ptr (p : bytes) : option (Z * bytes) :=
  match p with
  | c :: p' =>
      let result := b2z c in
      if Z.land result 128 =? 0 then Some (result, p')
      else GetVarint32PtrFallback p
  | [] => GetVarint32PtrFallback p
  end.

Definition GetVarint32 (input : bytes) : option (Z * bytes) :=
  match GetVarint32Ptr input with
  | None => None
  | Some (value, q) => Some (value, q)
  end.

Fixpoint GetVarint64_loop (p : bytes) (shift result : Z) : option (Z * bytes) :=
  match p with
  | [] => None
  | c :: p =>
      if shift <=? 63 then
        let byte := b2z c in
        if negb (Z.land byte 128 =? 0)
        then GetVarint64_loop p (shift + 7)
               (Z.lor result (u64 (Z.shiftl (Z.land byte 127) shift)))
        else Some (Z.lor result (u64 (Z.shiftl byte shift)), p)
      else None
  end.
Definition GetVarint64Ptr (p : bytes) : option (Z * bytes) := GetVarint64_loop p 0 0.

Definition GetVarint64 (input : bytes) : option (Z * bytes) :=
  match GetVarint64Ptr input with
  | None => None
  | Some (value, q) => Some (value, q)
  end.

(** The variant on pointers: [if (p + len > limit) return NULL]. *)
Definition GetLengthPrefixedSlicePtr (p : bytes) : option (bytes * bytes) :=
  match GetVarint32Ptr p with
  | None => None
  | Some (len, p) =>
      if len >? size_of p then None
      else Some (take (Z.to_nat len) p, drop (Z.to_nat len) p)
  end.

(** The variant on a [Slice* input], which is advanced past the string. *)
Definition GetLengthPrefixedSlice (input : bytes) : option (bytes * bytes) :=
  match GetVarint32 input with
  | Some (len, input) =>
      if size_of input >=? len
      then Some (take (Z.to_nat len) input, drop (Z.to_nat len) input)
      else None
  | None => None
  end.

(** ** Fixed-width integers: the two byte orders agree, and decoding inverts
    encoding *)

Lemma EncodeFixed32_on_indep little v :
  EncodeFixed32_on little v = le_bytes 4 v.
Proof.
  destruct little; [done|]. unfold EncodeFixed32_on.
  rewrite !z2b_land_255, !shiftr_div by lia. simpl le_bytes.
  rewrite !Z.div_div by lia. done.
Qed.

Lemma EncodeFixed64_on_indep little v :
  EncodeFixed64_on little v = le_bytes 8 v.
Proof.
  destruct little; [done|]. unfold EncodeFixed64_on.
  rewrite !z2b_land_255, !shiftr_div by lia. simpl le_bytes.
  rewrite !Z.div_div by lia. done.
Qed.

Lemma length_EncodeFixed32 v : length (EncodeFixed32 v) = 4%nat.
Proof. apply length_le_bytes. Qed.
Lemma length_EncodeFixed64 v : length (EncodeFixed64 v) = 8%nat.
Proof. apply length_le_bytes. Qed.
#[export] Hint Rewrite length_EncodeFixed32 length_EncodeFixed64 : leveldb.

Lemma EncodeFixed32_le v : EncodeFixed32 v = le_bytes 4 v.
Proof. done. Qed.
Lemma EncodeFixed64_le v : EncodeFixed64 v = le_bytes 8 v.
Proof. done. Qed.
Lemma DecodeFixed32_le p : DecodeFixed32 p = le_value (take 4 p).
Proof. done. Qed.
Lemma DecodeFixed64_le p : DecodeFixed64 p = le_value (take 8 p).
Proof. done. Qed.

Lemma DecodeFixed32_Encode v rest :
  0 <= v < 2 ^ 32 -> DecodeFixed32 (EncodeFixed32 v ++ rest) = v.
Proof.
  intros. rewrite DecodeFixed32_le, EncodeFixed32_le, take_app_exact by done.
  rewrite le_value_bytes. apply Z.mod_small. done.
Qed.

Lemma DecodeFixed64_Encode v rest :
  0 <= v < 2 ^ 64 -> DecodeFixed64 (EncodeFixed64 v ++ rest) = v.
Proof.
  intros. rewrite DecodeFixed64_le, EncodeFixed64_le, take_app_exact by done.
  rewrite le_value_bytes. apply Z.mod_small. done.
Qed.

Lemma le_value_take_range n p : 0 <= le_value (take n p) < 256 ^ Z.of_nat n.
Proof.
  pose proof (le_value_range (take n p)) as H. split; [lia|].
  eapply Z.lt_le_trans; [apply H|]. apply Z.pow_le_mono_r; [lia|]. len.
Qed.

Lemma DecodeFixed32_range p : 0 <= DecodeFixed32 p < 2 ^ 32.
Proof. apply (le_value_take_range 4 p). Qed.
Lemma DecodeFixed64_range p : 0 <= DecodeFixed64 p < 2 ^ 64.
Proof. apply (le_value_take_range 8 p). Qed.
#[export] Hint Resolve DecodeFixed32_range DecodeFixed64_range : leveldb.

Lemma EncodeFixed32_Decode p :
  (4 <= length p)%nat -> EncodeFixed32 (DecodeFixed32 p) = take 4 p.
Proof.
  intros. rewrite DecodeFixed32_le, EncodeFixed32_le.
  replace 4%nat with (length (take 4 p)) at 1 by (rewrite length_take; lia).
  apply le_bytes_value.
Qed.

Lemma uchar_at_range p i : 0 <= uchar_at p i < 256.
Proof. apply b2z_range. Qed.
#[export] Hint Resolve uchar_at_range : leveldb.

(** Loads and shifts of single bytes read what [memcpy] reads. *)
Lemma DecodeFixed32_on_indep little p : DecodeFixed32_on little p = DecodeFixed32 p.
Proof.
  destruct little; [done|]. rewrite DecodeFixed32_le. unfold DecodeFixed32_on.
  pose proof (uchar_at_range p 0). pose proof (uchar_at_range p 1).
  pose proof (uchar_at_range p 2).
  rewrite (lor_disjoint_add _ (uchar_at p 1)), (lor_disjoint_add _ (uchar_at p 2)),
    (lor_disjoint_add _ (uchar_at p 3)) by lia.
  clear. unfold uchar_at.
  do 4 (destruct p as [|? p]; [simpl; change (b2z Byte.x00) with 0; lia|]).
  simpl. lia.
Qed.

Lemma DecodeFixed64_on_indep little p :
  (8 <= length p)%nat -> DecodeFixed64_on little p = DecodeFixed64 p.
Proof.
  intros Hp. destruct little; [done|]. rewrite DecodeFixed64_le. unfold DecodeFixed64_on.
  rewrite !DecodeFixed32_on_indep, Z.lor_comm.
  rewrite lor_disjoint_add by (lia || apply DecodeFixed32_range).
  rewrite !DecodeFixed32_le. do 8 (destruct p as [|? p]; [simpl in Hp; lia|]).
  simpl. lia.
Qed.

(** ** Variable-length integers *)

Lemma land_127 v : Z.land v 127 = v mod 128.
Proof. apply (land_ones_mod v 7). lia. Qed.

Lemma lor_128 v : 0 <= v < 128 -> Z.lor v 128 = v + 128.
Proof. intros. exact (lor_disjoint_add v 1 7 ltac:(lia) ltac:(lia)). Qed.

(** The byte stored for seven bits that are followed by more. *)
Lemma z2b_lor_128 v : z2b (Z.lor v 128) = z2b (v mod 128 + 128).
Proof.
  rewrite <- lor_128 by (apply Z.mod_pos_bound; lia).
  rewrite <- land_127, <- (z2b_land_255 (Z.lor v 128)),
    <- (z2b_land_255 (Z.lor (Z.land v 127) 128)). f_equal.
  apply Z.bits_inj'. intros n Hn. rewrite !Z.land_spec, !Z.lor_spec, !Z.land_spec.
  replace (Z.testbit 255 n) with (Z.testbit 127 n || Z.testbit 128 n)%bool
    by (rewrite <- Z.lor_spec; done).
  repeat destruct (Z.testbit _ _); done.
Qed.

Lemma b2z_more v : b2z (z2b (v mod 128 + 128)) = v mod 128 + 128.
Proof. apply z2b_small. pose proof (Z.mod_pos_bound v 128). lia. Qed.

(** The test of the continuation bit. *)
Lemma land_128_byte b :
  0 <= b < 256 -> (Z.land b 128 =? 0) = (b <? 128).
Proof.
  intros Hb. destruct (Z.ltb_spec b 128).
  - apply Z.eqb_eq. rewrite <- (Z.mod_small b 128) by lia. rewrite <- land_127.
    rewrite <- Z.land_assoc. apply Z.land_0_r.
  - apply Z.eqb_neq. replace b with (Z.lor (b - 128) 128) by (rewrite lor_128; lia).
    intros E. apply (f_equal (fun z => Z.testbit z 7)) in E.
    rewrite Z.land_spec, Z.lor_spec, orb_true_r in E. done.
Qed.

(** One step of the encoding loop. *)
Lemma EncodeVarint64_loop_unfold fuel v :
  0 <= v ->
  EncodeVarint64_loop (S fuel) v =
  if v <? 128 then [z2b v]
  else z2b (v mod 128 + 128) :: EncodeVarint64_loop fuel (v / 128).
Proof.
  intros. cbn [EncodeVarint64_loop]. rewrite Z.geb_leb.
  destruct (Z.leb_spec 128 v), (Z.ltb_spec v 128); try lia; [|done].
  rewrite shiftr_div by lia. f_equal.
  change (128 - 1) with 127. rewrite z2b_lor_128, land_127, Z.mod_mod by lia. done.
Qed.

(** More fuel than a value needs changes nothing. *)
Lemma EncodeVarint64_loop_fuel n m v :
  0 <= v < 128 ^ Z.of_nat n -> (n <= m)%nat -> (0 < n)%nat ->
  EncodeVarint64_loop m v = EncodeVarint64_loop n v.
Proof.
  revert m v. induction n as [|n IH]; intros m v Hv Hm Hn; [lia|].
  destruct m as [|m]; [lia|]. rewrite !EncodeVarint64_loop_unfold by lia.
  destruct (Z.ltb_spec v 128); [done|]. f_equal.
  rewrite Nat2Z.inj_succ, Z.pow_succ_r in Hv by lia.
  destruct n as [|n]; [simpl in Hv; lia|]. apply IH; [|lia..].
  split; [apply Z.div_pos; lia|]. apply Z.div_lt_upper_bound; lia.
Qed.

Lemma div_ltb v b c : 0 < c -> (v / c <? b) = (v <? b * c).
Proof.
  intros. pose proof (Z.div_mod v c). pose proof (Z.mod_pos_bound v c).
  destruct (Z.ltb_spec (v / c) b), (Z.ltb_spec v (b * c)); try done; exfalso; nia.
Qed.

(** The hand-unrolled 32-bit encoder is the loop. *)
Lemma EncodeVarint32_64 v : 0 <= v < 2 ^ 32 -> EncodeVarint32 v = EncodeVarint64 v.
Proof.
  intros Hv. unfold EncodeVarint64.
  rewrite (EncodeVarint64_loop_fuel 5) by lia.
  rewrite !EncodeVarint64_loop_unfold by (repeat apply Z.div_pos; lia).
  rewrite !Z.div_div, !div_ltb by lia. unfold EncodeVarint32.
  rewrite !z2b_lor_128, !shiftr_div by lia.
  change (v <? Z.shiftl 1 7) with (v <? 128). destruct (v <? 128); [done|].
  change (v <? Z.shiftl 1 14) with (v <? 128 * 128). destruct (v <? _); [done|].
  change (v <? Z.shiftl 1 21) with (v <? 128 * (128 * 128)). destruct (v <? _); [done|].
  change (v <? Z.shiftl 1 28) with (v <? 128 * (128 * 128 * 128)).
  destruct (v <? _); [done|].
  destruct (Z.ltb_spec v (128 * (128 * 128 * 128 * 128))); [done|lia].
Qed.

Lemma lor_range a b k :
  0 <= k -> 0 <= a < 2 ^ k -> 0 <= b < 2 ^ k -> 0 <= Z.lor a b < 2 ^ k.
Proof.
  intros Hk Ha Hb. rewrite <- (Z.mod_small a (2 ^ k)), <- (Z.mod_small b (2 ^ k)) by lia.
  rewrite <- !Z.land_ones, <- Z.land_lor_distr_l, Z.land_ones by lia.
  apply Z.mod_pos_bound. lia.
Qed.

(** *** The decoding loop, at both widths *)
Section VarintLoop.
Context (w max_shift : Z) (loop : bytes -> Z -> Z -> option (Z * bytes)).
Context (loop_nil : forall s r, loop [] s r = None).
Context (loop_cons : forall c p s r,
  loop (c :: p) s r =
  if s <=? max_shift then
    if negb (Z.land (b2z c) 128 =? 0)
    then loop p (s + 7) (Z.lor r (Z.shiftl (Z.land (b2z c) 127) s mod 2 ^ w))
    else Some (Z.lor r (Z.shiftl (b2z c) s mod 2 ^ w), p)
  else None).
Context (Hw : 0 <= w) (Hmax : forall s, s < w -> s mod 7 = 0 -> s <= max_shift).

Lemma loop_step_last v s r p :
  0 <= s < w -> s mod 7 = 0 -> 0 <= v < 128 -> 0 <= r < 2 ^ s -> v * 2 ^ s < 2 ^ w ->
  loop (z2b v :: p) s r = Some (r + v * 2 ^ s, p).
Proof using All.
  intros Hs Hs7 Hv Hr Hvw. rewrite loop_cons, z2b_small, land_128_byte by lia.
  destruct (Z.leb_spec s max_shift); [|specialize (Hmax s); lia].
  destruct (Z.ltb_spec v 128); [|lia]. simpl.
  rewrite Z.mod_small by (rewrite Z.shiftl_mul_pow2; lia).
  rewrite lor_disjoint_add by lia. done.
Qed.

Lemma loop_step_more v s r p :
  0 <= s < w -> s mod 7 = 0 -> 0 <= v -> 0 <= r < 2 ^ s -> v * 2 ^ s < 2 ^ w ->
  loop (z2b (v mod 128 + 128) :: p) s r = loop p (s + 7) (r + v mod 128 * 2 ^ s).
Proof using All.
  intros Hs Hs7 Hv Hr Hvw. pose proof (Z.mod_pos_bound v 128).
  assert (v mod 128 <= v) by (apply Z.mod_le; lia).
  rewrite loop_cons, b2z_more, land_128_byte, land_127 by lia.
  destruct (Z.leb_spec s max_shift); [|specialize (Hmax s); lia].
  destruct (Z.ltb_spec (v mod 128 + 128) 128); [lia|]. simpl.
  replace ((v mod 128 + 128) mod 128) with (v mod 128)
    by (rewrite <- Z.add_mod_idemp_r, Z.mod_same, Z.add_0_r, Z.mod_mod; lia).
  assert (0 <= v mod 128 * 2 ^ s <= v * 2 ^ s) by
    (split; [lia|apply Z.mul_le_mono_nonneg_r; lia]).
  rewrite Z.mod_small by (rewrite Z.shiftl_mul_pow2; lia).
  rewrite lor_disjoint_add by lia. done.
Qed.

(** The state after the bytes of the low seven bits. *)
Lemma loop_more_bounds v s r :
  0 <= s -> 128 <= v -> 0 <= r < 2 ^ s -> v * 2 ^ s < 2 ^ w ->
  let r' := r + v mod 128 * 2 ^ s in
  s + 7 < w /\ 0 <= r' < 2 ^ (s + 7) /\ v / 128 * 2 ^ (s + 7) < 2 ^ w /\
  r' + v / 128 * 2 ^ (s + 7) = r + v * 2 ^ s.
Proof using All.
  intros Hs Hv Hr Hvw r'. subst r'. pose proof (Z.mod_pos_bound v 128).
  pose proof (Z.div_mod v 128). rewrite Z.pow_add_r by lia. change (2 ^ 7) with 128.
  assert (s + 7 < w).
  { apply (Z.pow_lt_mono_r_iff 2); [lia..|]. rewrite Z.pow_add_r by lia.
    change (2 ^ 7) with 128. nia. }
  repeat split; nia.
Qed.

Lemma loop_encode fuel v s r rest :
  (0 < fuel)%nat -> 0 <= s < w -> s mod 7 = 0 -> 0 <= v < 128 ^ Z.of_nat fuel ->
  0 <= r < 2 ^ s -> v * 2 ^ s < 2 ^ w ->
  loop (EncodeVarint64_loop fuel v ++ rest) s r = Some (r + v * 2 ^ s, rest).
Proof using All.
  revert v s r. induction fuel as [|fuel IH]; intros v s r Hf Hs Hs7 Hv Hr Hvw; [lia|].
  rewrite EncodeVarint64_loop_unfold by lia. destruct (Z.ltb_spec v 128) as [Hlt|Hge].
  { simpl. apply loop_step_last; lia. }
  simpl. rewrite loop_step_more by lia.
  destruct (loop_more_bounds v s r) as (H1 & H2 & H3 & H4); [lia..|].
  rewrite Nat2Z.inj_succ, Z.pow_succ_r in Hv by lia.
  destruct fuel as [|fuel]; [simpl in Hv; lia|].
  rewrite IH, H4; [done|dlia..| |lia|lia]. split; [apply Z.div_pos; lia|].
  apply Z.div_lt_upper_bound; lia.
Qed.

(** A proper prefix of an encoding is not decoded. *)
Lemma loop_truncated fuel v s r k :
  (0 < fuel)%nat -> 0 <= s < w -> s mod 7 = 0 -> 0 <= v < 128 ^ Z.of_nat fuel ->
  0 <= r < 2 ^ s -> v * 2 ^ s < 2 ^ w ->
  (k < length (EncodeVarint64_loop fuel v))%nat ->
  loop (take k (EncodeVarint64_loop fuel v)) s r = None.
Proof using All.
  revert v s r k. induction fuel as [|fuel IH]; intros v s r k Hf Hs Hs7 Hv Hr Hvw;
    [lia|].
  rewrite EncodeVarint64_loop_unfold by lia. destruct (Z.ltb_spec v 128) as [Hlt|Hge].
  { simpl. intros. replace k with O by lia. apply loop_nil. }
  destruct k as [|k]; [intros _; apply loop_nil|]. simpl. intros Hk.
  rewrite loop_step_more by lia.
  destruct (loop_more_bounds v s r) as (H1 & H2 & H3 & H4); [lia..|].
  rewrite Nat2Z.inj_succ, Z.pow_succ_r in Hv by lia.
  destruct fuel as [|fuel]; [simpl in Hk; lia|].
  apply IH; [dlia..| |lia|lia|lia]. split; [apply Z.div_pos; lia|].
  apply Z.div_lt_upper_bound; lia.
Qed.

(** A decoded value fits in [w] bits and at least a byte was consumed. *)
Lemma loop_result p s r v rest :
  loop p s r = Some (v, rest) -> 0 <= r < 2 ^ w ->
  0 <= v < 2 ^ w /\ exists pre, p = pre ++ rest /\ pre <> [].
Proof using loop_nil loop_cons Hw.
  revert s r. induction p as [|c p IH]; intros s r; [rewrite loop_nil; done|].
  rewrite loop_cons. destruct (s <=? max_shift); [|done].
  assert (forall x, 0 <= x mod 2 ^ w < 2 ^ w) by (intros; apply Z.mod_pos_bound; lia).
  destruct (negb _); intros E Hr.
  - apply IH in E as [? (pre & -> & _)]; [|apply lor_range; auto].
    split; [done|]. exists (c :: pre). done.
  - injection E as <- <-. split; [apply lor_range; auto|]. exists [c]. done.
Qed.
End VarintLoop.

Lemma mod7_32 s : s < 32 -> s mod 7 = 0 -> s <= 28.
Proof. dlia. Qed.

(** The one-byte fast path computes what the loop computes. *)
Lemma GetVarint32Ptr_fallback p : GetVarint32Ptr p = GetVarint32PtrFallback p.
Proof.
  destruct p as [|c p]; [done|]. unfold GetVarint32Ptr, GetVarint32PtrFallback.
  simpl GetVarint32_loop. destruct (Z.land (b2z c) 128 =? 0); [|done]. simpl.
  rewrite Z.lor_0_l, Z.shiftl_0_r, u32_small; [done|]. pose proof (b2z_range c). lia.
Qed.

Lemma GetVarint32_Ptr p : GetVarint32 p = GetVarint32Ptr p.
Proof. unfold GetVarint32. destruct (GetVarint32Ptr p) as [[]|]; done. Qed.
Lemma GetVarint32_eq p : GetVarint32 p = GetVarint32_loop p 0 0.
Proof. rewrite GetVarint32_Ptr, GetVarint32Ptr_fallback. done. Qed.
Lemma GetVarint64_eq p : GetVarint64 p = GetVarint64_loop p 0 0.
Proof. unfold GetVarint64, GetVarint64Ptr. destruct (GetVarint64_loop p 0 0) as [[]|]; done. Qed.

Lemma GetVarint64_Encode v rest :
  0 <= v < 2 ^ 64 -> GetVarint64 (EncodeVarint64 v ++ rest) = Some (v, rest).
Proof.
  intros. rewrite GetVarint64_eq. unfold EncodeVarint64.
  rewrite (loop_encode 64 63 GetVarint64_loop); [f_equal; f_equal|..]; try done; try lia.
Qed.

Lemma GetVarint32_Encode v rest :
  0 <= v < 2 ^ 32 -> GetVarint32 (EncodeVarint32 v ++ rest) = Some (v, rest).
Proof.
  intros. rewrite GetVarint32_eq, EncodeVarint32_64 by done. unfold EncodeVarint64.
  rewrite (loop_encode 32 28 GetVarint32_loop); [f_equal; f_equal|..]; try done; try lia.
  exact mod7_32.
Qed.

Lemma GetVarint32_result p v rest :
  GetVarint32 p = Some (v, rest) ->
  0 <= v < 2 ^ 32 /\ exists pre, p = pre ++ rest /\ pre <> [].
Proof.
  rewrite GetVarint32_eq. intros E. apply (loop_result 32 28 GetVarint32_loop) in E; [exact E|done|done|lia..].
Qed.

Lemma GetVarint64_result p v rest :
  GetVarint64 p = Some (v, rest) ->
  0 <= v < 2 ^ 64 /\ exists pre, p = pre ++ rest /\ pre <> [].
Proof.
  rewrite GetVarint64_eq. intros E. apply (loop_result 64 63 GetVarint64_loop) in E; [exact E|done|done|lia..].
Qed.

Lemma VarintLength_loop_length fuel v len :
  0 <= v < 128 ^ Z.of_nat fuel -> (0 < fuel)%nat ->
  VarintLength_loop fuel v len = len - 1 + size_of (EncodeVarint64_loop fuel v).
Proof.
  revert v len. induction fuel as [|fuel IH]; intros v len Hv Hf; [lia|].
  rewrite EncodeVarint64_loop_unfold by lia. simpl. rewrite Z.geb_leb.
  destruct (Z.leb_spec 128 v), (Z.ltb_spec v 128); try lia; [|len].
  rewrite Nat2Z.inj_succ, Z.pow_succ_r in Hv by lia.
  destruct fuel as [|fuel]; [simpl in Hv; lia|].
  rewrite shiftr_div, IH by (lia || (change (2 ^ 7) with 128; split;
    [apply Z.div_pos; lia|apply Z.div_lt_upper_bound; lia])).
  change (2 ^ 7) with 128. len.
Qed.

Lemma VarintLength_Encode v :
  0 <= v < 2 ^ 64 -> VarintLength v = size_of (EncodeVarint64 v).
Proof.
  intros. unfold VarintLength. rewrite VarintLength_loop_length by lia. unfold EncodeVarint64. lia.
Qed.

(** ** Length-prefixed strings *)

Definition length_prefixed (value : bytes) : bytes :=
  EncodeVarint32 (u32 (size_of value)) ++ value.

Lemma PutLengthPrefixedSlice_app dst value :
  PutLengthPrefixedSlice dst value = dst ++ length_prefixed value.
Proof. unfold PutLengthPrefixedSlice, PutVarint32. by rewrite <- app_assoc. Qed.

Lemma GetLengthPrefixedSlice_put value rest :
  size_of value < 2 ^ 32 ->
  GetLengthPrefixedSlice (length_prefixed value ++ rest) = Some (value, rest).
Proof.
  intros. pose proof (size_of_nonneg value). unfold GetLengthPrefixedSlice, length_prefixed.
  rewrite u32_small, <- app_assoc, GetVarint32_Encode by lia.
  destruct (Z.geb_spec (size_of (value ++ rest)) (size_of value)); [|len].
  unfold size_of. rewrite Nat2Z.id. rewrite take_app_length, drop_app_length. done.
Qed.

(** The two variants read the same strings. *)
Lemma GetLengthPrefixedSlicePtr_eq p :
  GetLengthPrefixedSlicePtr p = GetLengthPrefixedSlice p.
Proof.
  unfold GetLengthPrefixedSlicePtr, GetLengthPrefixedSlice. rewrite GetVarint32_Ptr.
  destruct (GetVarint32Ptr p) as [[len q]|]; [|done].
  destruct (Z.gtb_spec len (size_of q)), (Z.geb_spec (size_of q) len); done || lia.
Qed.

Lemma GetLengthPrefixedSlice_result p s rest :
  GetLengthPrefixedSlice p = Some (s, rest) ->
  exists pre, p = pre ++ s ++ rest /\ pre <> [].
Proof.
  unfold GetLengthPrefixedSlice. destruct (GetVarint32 p) as [[len q]|] eqn:E; [|done].
  apply GetVarint32_result in E as [_ (pre & -> & Hpre)].
  destruct (_ >=? _); [|done]. intros [= <- <-]. exists pre.
  rewrite take_drop. done.
Qed.

(** ** Lengths of encodings *)

Lemma fold_PutFixed32 l dst :
  fold_left PutFixed32 l dst = dst ++ concat (map EncodeFixed32 l).
Proof.
  revert dst. induction l as [|x l IH]; intros dst; simpl; [by rewrite app_nil_r|].
  rewrite IH. unfold PutFixed32. by rewrite <- app_assoc.
Qed.

Lemma length_EncodeVarint32 v : (1 <= length (EncodeVarint32 v) <= 5)%nat.
Proof. unfold EncodeVarint32. repeat case_match; simpl; lia. Qed.

Lemma size_of_EncodeFixed32 v : size_of (EncodeFixed32 v) = 4.
Proof. unfold size_of. by rewrite length_EncodeFixed32. Qed.
Lemma size_of_EncodeFixed64 v : size_of (EncodeFixed64 v) = 8.
Proof. unfold size_of. by rewrite length_EncodeFixed64. Qed.

#[global] Arguments EncodeFixed32 : simpl never.
#[global] Arguments EncodeFixed64 : simpl never.
#[global] Arguments DecodeFixed32 : simpl never.
#[global] Arguments DecodeFixed64 : simpl never.
#[global] Arguments EncodeVarint32 : simpl never.
#[global] Arguments EncodeVarint64 : simpl never.
#[global] Arguments GetVarint32 : simpl never.
#[global] Arguments GetVarint64 : simpl never.
#[global] Arguments GetVarint32Ptr : simpl never.
#[global] Arguments GetLengthPrefixedSlice : simpl never.

(** ** Properties *)

(** Every 64-bit value written by [PutVarint64] after any bytes is read back
    by [GetVarint64] with exactly the following bytes left, and occupies
    [VarintLength] bytes; a 32-bit value is encoded by the unrolled 32-bit
    encoder as by the 64-bit loop, and [GetVarint32], whose one-byte fast path
    agrees with the fallback loop, reads it back. *)
Theorem varint_roundtrip v dst rest :
  0 <= v < 2 ^ 64 ->
  drop (length dst) (PutVarint64 dst v) = EncodeVarint64 v /\
  GetVarint64 (EncodeVarint64 v ++ rest) = Some (v, rest) /\
  size_of (EncodeVarint64 v) = VarintLength v /\
  (v < 2 ^ 32 ->
   drop (length dst) (PutVarint32 dst v) = EncodeVarint64 v /\
   GetVarint32 (EncodeVarint32 v ++ rest) = Some (v, rest) /\
   GetVarint32PtrFallback (EncodeVarint32 v ++ rest) = Some (v, rest)).
Proof.
  intros Hv. unfold PutVarint32, PutVarint64. rewrite !drop_app_length.
  split; [done|]. split; [by apply GetVarint64_Encode|].
  split; [symmetry; by apply VarintLength_Encode|]. intros H32.
  rewrite <- GetVarint32Ptr_fallback, <- GetVarint32_Ptr.
  rewrite GetVarint32_Encode, EncodeVarint32_64 by lia. done.
Qed.

Lemma varint_roundtrip_witness :
  GetVarint64 (EncodeVarint64 300 ++ [Byte.x07]) = Some (300, [Byte.x07]) /\
  EncodeVarint64 300 = [Byte.xac; Byte.x02].
Proof.
  split; [|vm_compute; reflexivity].
  destruct (varint_roundtrip 300 [] [Byte.x07]) as (_ & H & _); [lia|exact H].
Defined.

(** A varint cut short is rejected: no proper prefix of an encoding decodes
    to a value, at either width. *)
Theorem varint_truncated v k :
  0 <= v < 2 ^ 64 ->
  ((k < length (EncodeVarint64 v))%nat -> GetVarint64 (take k (EncodeVarint64 v)) = None) /\
  (v < 2 ^ 32 -> (k < length (EncodeVarint32 v))%nat ->
   GetVarint32 (take k (EncodeVarint32 v)) = None).
Proof.
  intros Hv. split.
  - intros Hk. rewrite GetVarint64_eq.
    apply (loop_truncated 64 63 GetVarint64_loop); try done; lia.
  - intros H32. rewrite EncodeVarint32_64 by lia. intros Hk. rewrite GetVarint32_eq.
    apply (loop_truncated 32 28 GetVarint32_loop); try done; try exact mod7_32; lia.
Qed.

Lemma varint_truncated_witness : GetVarint64 (take 1 (EncodeVarint64 300)) = None.
Proof.
  destruct (varint_truncated 300 1) as [H _]; [lia|].
  apply H. apply Nat.ltb_lt. vm_compute. reflexivity.
Defined.

(** A string appended by [PutLengthPrefixedSlice] is read back by both
    variants of [GetLengthPrefixedSlice], which leave exactly what follows it;
    and whatever bytes the readers accept, the string they return and the bytes
    they leave are a suffix of the input, so a decoder never reads past it. *)
Theorem length_prefixed_roundtrip dst value rest :
  size_of value < 2 ^ 32 ->
  let written := drop (length dst) (PutLengthPrefixedSlice dst value) ++ rest in
  GetLengthPrefixedSlice written = Some (value, rest) /\
  GetLengthPrefixedSlicePtr written = Some (value, rest) /\
  (forall input s rest', GetLengthPrefixedSlice input = Some (s, rest') ->
   exists n, (0 < n)%nat /\ drop n input = s ++ rest').
Proof.
  intros Hv written. subst written. rewrite PutLengthPrefixedSlice_app, drop_app_length.
  rewrite GetLengthPrefixedSlicePtr_eq, GetLengthPrefixedSlice_put by done.
  split; [done|]. split; [done|]. intros input s rest' E.
  apply GetLengthPrefixedSlice_result in E as (pre & -> & Hpre).
  exists (length pre). rewrite drop_app_length. split; [|done]. by destruct pre; [|simpl; lia].
Qed.

Lemma length_prefixed_roundtrip_witness :
  GetLengthPrefixedSlice (PutLengthPrefixedSlice [] (str "key") ++ str "x")
  = Some (str "key", str "x").
Proof.
  destruct (length_prefixed_roundtrip [] (str "key") (str "x")) as (H & _);
    [vm_compute; reflexivity|exact H].
Defined.

(** The fixed-width encodings do not depend on the byte order of the
    machine that runs the code, and decoding inverts encoding, whichever of the
    two branches each side was compiled with; decoding and re-encoding gives the
    four bytes that were read. *)
Theorem fixed_byte_order_independent le le' v rest :
  0 <= v < 2 ^ 64 ->
  EncodeFixed64_on le v = EncodeFixed64_on le' v /\
  EncodeFixed32_on le v = EncodeFixed32_on le' v /\
  DecodeFixed64_on le (EncodeFixed64_on le' v ++ rest) = v /\
  DecodeFixed32_on le (EncodeFixed32_on le' v ++ rest) = u32 v /\
  ((4 <= length rest)%nat -> EncodeFixed32_on le (DecodeFixed32_on le' rest) = take 4 rest).
Proof.
  intros Hv. rewrite !EncodeFixed64_on_indep, !EncodeFixed32_on_indep.
  rewrite DecodeFixed64_on_indep by len. rewrite !DecodeFixed32_on_indep.
  rewrite DecodeFixed64_le, !DecodeFixed32_le, !take_app_exact by done.
  rewrite !le_value_bytes. split_and!; try done.
  - apply Z.mod_small. done.
  - intros. rewrite <- DecodeFixed32_le. by apply EncodeFixed32_Decode.
Qed.

Lemma fixed_byte_order_independent_witness :
  DecodeFixed64_on false (EncodeFixed64_on true 0xdb4775248b80fb57 ++ []) = 0xdb4775248b80fb57.
Proof. apply (fixed_byte_order_independent false true); lia. Defined.
