(* ===== verification/Slice.v ===== *)
(** * Slice: byte strings and their order; Status: results of operations

    Models [include/leveldb/slice.h], [include/leveldb/status.h] and
    [util/status.cpp].  A slice is the byte list it refers to. *)

From S2P Require Import Prelude Coding.

(** ** Slice *)

(** The sign of [memcmp(a, b, n)]; both buffers hold at least [n] bytes. *)
Fixpoint memcmp (a b : bytes) (n : nat) {struct n} : comparison :=
  match n, a, b with
  | S n, x :: a, y :: b =>
      match b2z x ?= b2z y with
      | Eq => memcmp a b n
      | r => r
      end
  | _, _, _ => Eq
  end.

(** [Slice::compare]; only the sign of its result is used. *)
Definition compare (a b : bytes) : comparison :=
  let min_len := if size_of a <? size_of b then length a else length b in
  match memcmp a b min_len with
  | Eq => if size_of a <? size_of b then Lt
          else if size_of a >? size_of b then Gt
          else Eq
  | r => r
  end.

Definition starts_with (s x : bytes) : bool :=
  (size_of s >=? size_of x) &&
  match memcmp s x (length x) with Eq => true | _ => false end.

Definition end_with (s x : bytes) : bool :=
  (size_of s >=? size_of x) &&
  match memcmp (drop (length s - length x) s) x (length x) with
  | Eq => true | _ => false end.

(** [operator==]. *)
Definition slice_eq (x y : bytes) : bool :=
  (size_of x =? size_of y) &&
  match memcmp x y (length x) with Eq => true | _ => false end.

Definition remove_prefix (s : bytes) (n : nat) : bytes := drop n s.

(** ** Status *)

Inductive Code : Type :=
| kOk | kNotFound | kCorruption | kNotSupported | kInvalidArgument | kIOError.

(** [state_]: [NULL], or an array with the length of the message, the code and
    the message. *)
Record State : Type := mkState { state_length : Z; state_code : Code; state_message : bytes }.
Abbreviation Status := (option State).

Definition OK : Status := None.

(** [Status::Status(Code, msg, msg2)]. *)
Definition Status_make (code : Code) (msg msg2 : bytes) : Status :=
  let len1 := u32 (size_of msg) in
  let len2 := u32 (size_of msg2) in
  let size := u32 (len1 + (if len2 =? 0 then 0 else 2 + len2)) in
  Some (mkState size code
    (take (Z.to_nat len1) msg ++
     (if len2 =? 0 then [] else str ": " ++ take (Z.to_nat len2) msg2))).

Definition NotFound (msg msg2 : bytes) : Status := Status_make kNotFound msg msg2.
Definition Corruption (msg msg2 : bytes) : Status := Status_make kCorruption msg msg2.
Definition NotSupported (msg msg2 : bytes) : Status := Status_make kNotSupported msg msg2.
Definition InvalidArgument (msg msg2 : bytes) : Status :=
  Status_make kInvalidArgument msg msg2.
Definition IOError (msg msg2 : bytes) : Status := Status_make kIOError msg msg2.

Definition ok (s : Status) : bool := match s with None => true | Some _ => false end.

Definition code (s : Status) : Code :=
  match s with None => kOk | Some st => state_code st end.

#[global] Instance Code_eq_dec : EqDecision Code.
Proof. solve_decision. Defined.

Definition IsNotFound (s : Status) : bool := bool_decide (code s = kNotFound).
Definition IsCorruption (s : Status) : bool := bool_decide (code s = kCorruption).
Definition IsIOError (s : Status) : bool := bool_decide (code s = kIOError).
Definition IsNotSupportedError (s : Status) : bool := bool_decide (code s = kNotSupported).
Definition IsInvalidArgument (s : Status) : bool := bool_decide (code s = kInvalidArgument).

Definition Status_ToString (s : Status) : bytes :=
  match s with
  | None => str "OK"
  | Some st =>
      let type :=
        match code s with
        | kOk => str "OK"
        | kNotFound => str "NotFound: "
        | kCorruption => str "Corruption: "
        | kNotSupported => str "Not implemented: "
        | kInvalidArgument => str "Invalid argument: "
        | kIOError => str "IO error: "
        end in
      type ++ take (Z.to_nat (state_length st)) (state_message st)
  end.

(** ** The order of slices is the lexicographic order of unsigned bytes *)

(** Reference definition. *)
Fixpoint lex (a b : bytes) : comparison :=
  match a, b with
  | [], [] => Eq
  | [], _ :: _ => Lt
  | _ :: _, [] => Gt
  | x :: a, y :: b =>
      match b2z x ?= b2z y with
      | Eq => lex a b
      | r => r
      end
  end.

Lemma compare_lex a b : compare a b = lex a b.
Proof.
  unfold compare. revert b. induction a as [|x a IH]; intros [|y b]; try done.
  rewrite !size_of_cons. simpl length. simpl lex. specialize (IH b).
  replace (1 + size_of a <? 1 + size_of b) with (size_of a <? size_of b)
    by (destruct (Z.ltb_spec (size_of a) (size_of b)),
      (Z.ltb_spec (1 + size_of a) (1 + size_of b)); done || lia).
  replace (1 + size_of a >? 1 + size_of b) with (size_of a >? size_of b)
    by (destruct (Z.gtb_spec (size_of a) (size_of b)),
      (Z.gtb_spec (1 + size_of a) (1 + size_of b)); done || lia).
  rewrite <- IH. destruct (size_of a <? size_of b); simpl;
    destruct (b2z x ?= b2z y); done.
Qed.

Lemma lex_eq a b : lex a b = Eq <-> a = b.
Proof.
  split; [|intros <-; induction a; simpl; rewrite ?Z.compare_refl; auto].
  revert b. induction a as [|x a IH]; intros [|y b]; simpl; try done.
  destruct (b2z x ?= b2z y) eqn:E; try done. intros H.
  apply Z.compare_eq, b2z_inj in E as ->. f_equal. auto.
Qed.

Lemma compare_eq_iff a b : compare a b = Eq <-> a = b.
Proof. rewrite compare_lex. apply lex_eq. Qed.

Lemma lex_antisym a b : lex b a = CompOpp (lex a b).
Proof.
  revert b. induction a as [|x a IH]; intros [|y b]; simpl; try done.
  rewrite Z.compare_antisym. destruct (b2z x ?= b2z y); simpl; auto.
Qed.

Lemma lex_lt_trans a b c : lex a b = Lt -> lex b c = Lt -> lex a c = Lt.
Proof.
  revert b c. induction a as [|x a IH]; intros [|y b] [|z c]; simpl; try done.
  destruct (Z.compare_spec (b2z x) (b2z y)), (Z.compare_spec (b2z y) (b2z z)),
    (Z.compare_spec (b2z x) (b2z z)); try done; try lia. eauto.
Qed.

(** A shared prefix does not count. *)
Lemma lex_app p a b : lex (p ++ a) (p ++ b) = lex a b.
Proof. induction p; simpl; rewrite ?Z.compare_refl; auto. Qed.

Lemma memcmp_take a b n :
  memcmp a b n = Eq -> (n <= length a)%nat -> (n <= length b)%nat -> take n a = take n b.
Proof.
  revert a b. induction n as [|n IH]; intros [|x a] [|y b]; simpl; try done; try lia.
  destruct (b2z x ?= b2z y) eqn:E; try done. intros.
  apply Z.compare_eq, b2z_inj in E as ->. f_equal. apply IH; [done|lia..].
Qed.

Lemma memcmp_refl a n : memcmp a a n = Eq.
Proof. revert n. induction a; intros [|n]; simpl; rewrite ?Z.compare_refl; auto. Qed.

Lemma memcmp_app_l a c : memcmp (a ++ c) a (length a) = Eq.
Proof. induction a; simpl; rewrite ?Z.compare_refl; auto. Qed.

Lemma starts_with_spec s x : starts_with s x = true <-> exists r, s = x ++ r.
Proof.
  unfold starts_with. rewrite andb_true_iff, Z.geb_le. split.
  - intros [Hl Hm]. destruct (memcmp _ _ _) eqn:E; try done.
    apply memcmp_take in E; [|len..]. rewrite (take_ge x) in E by lia.
    exists (drop (length x) s). rewrite <- (take_drop (length x) s) at 1. by rewrite E.
  - intros [r ->]. rewrite memcmp_app_l. len.
Qed.

Lemma end_with_spec s x : end_with s x = true <-> exists r, s = r ++ x.
Proof.
  unfold end_with. rewrite andb_true_iff, Z.geb_le. split.
  - intros [Hl Hm]. destruct (memcmp _ _ _) eqn:E; try done.
    apply memcmp_take in E; [|len..]. rewrite (take_ge x) in E by lia.
    rewrite take_ge in E by len. exists (take (length s - length x) s).
    rewrite <- (take_drop (length s - length x) s) at 1. by rewrite E.
  - intros [r ->]. rewrite drop_app_exact by len. rewrite memcmp_refl. len.
Qed.

Lemma slice_eq_spec x y : slice_eq x y = true <-> x = y.
Proof.
  unfold slice_eq. rewrite andb_true_iff, Z.eqb_eq. split.
  - intros [Hl Hm]. destruct (memcmp _ _ _) eqn:E; try done.
    apply memcmp_take in E; [|len..]. rewrite !take_ge in E by len. done.
  - intros ->. rewrite memcmp_refl. done.
Qed.

Lemma ok_spec s : ok s = true <-> s = OK.
Proof. destruct s; done. Qed.

(** ** Properties *)

(** [Slice::compare], which compares a common length with [memcmp] and then
    the sizes, is the lexicographic order of unsigned bytes: a total order whose
    equality is the equality of contents ([operator==]). *)
Theorem compare_total_order a b c :
  compare a b = lex a b /\
  (compare a b = Eq <-> a = b) /\ (slice_eq a b = true <-> a = b) /\
  compare b a = CompOpp (compare a b) /\
  (compare a b = Lt -> compare b c = Lt -> compare a c = Lt).
Proof.
  rewrite !compare_lex. split_and!; try done.
  - apply lex_eq.
  - apply slice_eq_spec.
  - apply lex_antisym.
  - apply lex_lt_trans.
Qed.
