(* ===== verification/Logging.v ===== *)
(** * Logging: printing and parsing numbers and strings

    Models [util/logging.cpp].  [snprintf] of the C library is modelled for the
    conversions the source uses: [%llu], [%06llu], [%d] and [%02x]. *)

From S2P Require Import Prelude.

(** ** Number conversions of [snprintf] *)

Definition digit (d : Z) : byte := z2b (0x30 + d).

(** Decimal digits of [v], most significant first; [fuel] digits suffice. *)
Fixpoint decimal_loop (fuel : nat) (v : Z) : bytes :=
  match fuel with
  | O => []
  | S fuel => if v <? 10 then [digit v] else decimal_loop fuel (v / 10) ++ [digit (v mod 10)]
  end.
(** [%llu]: a 64-bit integer has at most twenty digits. *)
Definition print_llu (v : Z) : bytes := decimal_loop 20 v.
(** [%d]. *)
Definition print_d (v : Z) : bytes :=
  if v <? 0 then str "-" ++ print_llu (- v) else print_llu v.
(** [%06llu]. *)
Definition print_06llu (v : Z) : bytes :=
  let s := print_llu v in replicate (6 - length s) (digit 0) ++ s.
(** [%02x] of a byte. *)
Definition hex_digit (d : Z) : byte := if d <? 10 then digit d else z2b (0x61 + (d - 10)).
Definition print_02x (v : Z) : bytes := [hex_digit (v / 16); hex_digit (v mod 16)].

(** ** The operations *)

Definition AppendNumberTo (s : bytes) (num : Z) : bytes := s ++ print_llu num.

Definition AppendEscapedStringTo (s value : bytes) : bytes :=
  fold_left (fun s c =>
    if (0x20 <=? b2z c) && (b2z c <=? 0x7e)  (* c >= ' ' && c <= '~' *)
    then s ++ [c]
    else s ++ (str "\x" ++ print_02x (Z.land (b2z c) 0xff))) value s.

Definition NumberToString (num : Z) : bytes := AppendNumberTo [] num.
Definition EscapeString (value : bytes) : bytes := AppendEscapedStringTo [] value.

Definition kMaxUint64 : Z := 2 ^ 64 - 1.
Definition is_digit (c : byte) : bool := (0x30 <=? b2z c) && (b2z c <=? 0x39).

(** The loop of [ConsumeDecimalNumber]: [inl] the input at which an overflow was
    found, [inr] the final value, the number of digits and the input left. *)
Fixpoint ConsumeDecimal_loop (input : bytes) (v digits : Z) : bytes + (Z * Z * bytes) :=
  match input with
  | [] => inr (v, digits, [])
  | c :: rest =>
      if is_digit c then
        let digits := digits + 1 in
        let delta := b2z c - 0x30 in
        if (v >? kMaxUint64 / 10) || ((v =? kMaxUint64 / 10) && (delta >? kMaxUint64 mod 10))
        then inl input
        else ConsumeDecimal_loop rest (u64 (v * 10 + delta)) digits
      else inr (v, digits, input)
  end.

(** The value stored in [*val] if the function returns [true], and [*in]. *)
Definition ConsumeDecimalNumber (input : bytes) : option Z * bytes :=
  match ConsumeDecimal_loop input 0 0 with
  | inl input => (None, input)
  | inr (v, digits, input) => (if digits >? 0 then Some v else None, input)
  end.

(** ** Decimal numbers *)

(** The number a string of digits denotes. *)
Definition digits_value (acc : Z) (s : bytes) : Z :=
  fold_left (fun v c => v * 10 + (b2z c - 0x30)) s acc.

Lemma digit_value d : 0 <= d < 10 -> b2z (digit d) - 0x30 = d /\ is_digit (digit d) = true.
Proof.
  intros. unfold is_digit, digit. rewrite z2b_small by lia.
  destruct (Z.leb_spec 0x30 (0x30 + d)), (Z.leb_spec (0x30 + d) 0x39); simpl; lia.
Qed.

Lemma is_digit_range c : is_digit c = true -> 0 <= b2z c - 0x30 < 10.
Proof.
  unfold is_digit. intros [?%Z.leb_le ?%Z.leb_le]%andb_prop. lia.
Qed.

Lemma digits_value_app acc s t : digits_value acc (s ++ t) = digits_value (digits_value acc s) t.
Proof. apply fold_left_app. Qed.

Lemma digits_value_mono acc s : Forall (fun c => is_digit c = true) s -> 0 <= acc -> acc <= digits_value acc s.
Proof.
  intros Hs. revert acc. induction Hs as [|c s Hc _ IH]; intros acc Ha; simpl; [lia|].
  apply is_digit_range in Hc. etransitivity; [|apply IH; lia]. lia.
Qed.

Lemma decimal_loop_spec fuel v :
  (0 < fuel)%nat -> 0 <= v < 10 ^ Z.of_nat fuel ->
  Forall (fun c => is_digit c = true) (decimal_loop fuel v) /\
  digits_value 0 (decimal_loop fuel v) = v /\ decimal_loop fuel v <> [].
Proof.
  revert v. induction fuel as [|fuel IH]; intros v Hf Hv; [lia|]. simpl.
  destruct (Z.ltb_spec v 10).
  { destruct (digit_value v) as [H1 H2]; [lia|]. split_and!; [by repeat constructor| |done].
    simpl. lia. }
  rewrite Nat2Z.inj_succ, Z.pow_succ_r in Hv by lia.
  destruct fuel as [|fuel]; [simpl in Hv; lia|].
  destruct (IH (v / 10)) as (H1 & H2 & H3); [lia|dlia|].
  destruct (digit_value (v mod 10)) as [H4 H5]; [dlia|]. split_and!.
  - apply Forall_app. split; [done|by repeat constructor].
  - rewrite digits_value_app, H2. simpl. rewrite H4. dlia.
  - by intros [? ?]%app_nil.
Qed.

Lemma print_llu_spec v :
  0 <= v < 2 ^ 64 ->
  Forall (fun c => is_digit c = true) (print_llu v) /\
  digits_value 0 (print_llu v) = v /\ print_llu v <> [].
Proof. intros. apply decimal_loop_spec; lia. Qed.

(** The loop on digits followed by something else: overflow is detected exactly
    when the number does not fit in 64 bits. *)
Lemma ConsumeDecimal_loop_spec s rest v digits :
  Forall (fun c => is_digit c = true) s ->
  match rest with c :: _ => is_digit c = false | [] => True end ->
  0 <= v <= kMaxUint64 ->
  if digits_value v s <=? kMaxUint64
  then ConsumeDecimal_loop (s ++ rest) v digits = inr (digits_value v s, digits + size_of s, rest)
  else exists input, ConsumeDecimal_loop (s ++ rest) v digits = inl input.
Proof.
  intros Hs Hrest. revert v digits. induction Hs as [|c s Hc Hs IH]; intros v digits Hv; simpl.
  - rewrite (proj2 (Z.leb_le _ _)) by lia. change (size_of (@nil byte)) with 0. rewrite Z.add_0_r.
    destruct rest as [|c rest]; [done|]. simpl. by rewrite Hrest.
  - rewrite Hc. pose proof (is_digit_range _ Hc) as Hd.
    pose proof (digits_value_mono (v * 10 + (b2z c - 48)) s Hs) as Hmono.
    change (kMaxUint64 / 10) with 1844674407370955161 in *.
    change (kMaxUint64 mod 10) with 5 in *.
    destruct (_ || _) eqn:Eo.
    + destruct (Z.leb_spec (digits_value (v * 10 + (b2z c - 48)) s) kMaxUint64) as [Hle|];
        [|by eexists].
      exfalso. unfold kMaxUint64 in *.
      apply orb_prop in Eo as [E%Z.gtb_lt|[E%Z.eqb_eq E'%Z.gtb_lt]%andb_prop]; lia.
    + apply orb_false_elim in Eo as [E1 E2]. rewrite Z.gtb_ltb, Z.ltb_ge in E1.
      assert (v * 10 + (b2z c - 48) <= kMaxUint64).
      { unfold kMaxUint64 in *. apply andb_false_iff in E2 as [E2%Z.eqb_neq|E2]; [lia|].
        rewrite Z.gtb_ltb, Z.ltb_ge in E2. lia. }
      rewrite u64_small by (unfold kMaxUint64 in *; lia).
      specialize (IH (v * 10 + (b2z c - 48)) (digits + 1) ltac:(lia)).
      rewrite size_of_cons, Z.add_assoc. done.
Qed.

(** ** Properties *)

(** Parsing decimal numbers.  For digits [s] followed by a non-digit,
    [ConsumeDecimalNumber] succeeds exactly when there is a digit and the number
    fits in 64 bits, its result is that number and it leaves the rest of the
    input; in particular it inverts [NumberToString]. *)
Theorem ConsumeDecimalNumber_correct s rest :
  Forall (fun c => is_digit c = true) s ->
  match rest with c :: _ => is_digit c = false | [] => True end ->
  (fst (ConsumeDecimalNumber (s ++ rest)) =
     if negb (bool_decide (s = [])) && (digits_value 0 s <? 2 ^ 64)
     then Some (digits_value 0 s) else None) /\
  (digits_value 0 s < 2 ^ 64 -> snd (ConsumeDecimalNumber (s ++ rest)) = rest) /\
  (forall num, 0 <= num < 2 ^ 64 ->
     ConsumeDecimalNumber (NumberToString num ++ rest) = (Some num, rest)).
Proof.
  intros Hs Hrest. assert (Hall : forall s, Forall (fun c => is_digit c = true) s ->
    if digits_value 0 s <? 2 ^ 64
    then ConsumeDecimalNumber (s ++ rest) =
      (if bool_decide (s = []) then None else Some (digits_value 0 s), rest)
    else fst (ConsumeDecimalNumber (s ++ rest)) = None).
  { clear s Hs. intros s Hs.
    pose proof (ConsumeDecimal_loop_spec s rest 0 0 Hs Hrest ltac:(unfold kMaxUint64; lia)) as H.
    unfold ConsumeDecimalNumber, kMaxUint64 in *.
    destruct (Z.leb_spec (digits_value 0 s) (2 ^ 64 - 1)), (Z.ltb_spec (digits_value 0 s) (2 ^ 64));
      try lia; [|by destruct H as [input ->]].
    rewrite H. case_bool_decide as Es; [by subst|].
    destruct (Z.gtb_spec (0 + size_of s) 0); [done|]. destruct s; [done|]. len. }
  split_and!.
  - specialize (Hall s Hs). destruct (Z.ltb_spec (digits_value 0 s) (2 ^ 64)).
    + rewrite Hall. simpl. by case_bool_decide.
    + rewrite Hall. by case_bool_decide.
  - intros Hlt. specialize (Hall s Hs). apply Z.ltb_lt in Hlt. rewrite Hlt in Hall. by rewrite Hall.
  - intros num Hnum. unfold NumberToString, AppendNumberTo. rewrite app_nil_l.
    destruct (print_llu_spec num Hnum) as (H1 & H2 & H3). specialize (Hall _ H1).
    rewrite H2, (proj2 (Z.ltb_lt num (2 ^ 64))), bool_decide_eq_false_2 in Hall by (done || lia).
    done.
Qed.

Lemma ConsumeDecimalNumber_correct_witness :
  ConsumeDecimalNumber (str "18446744073709551615.log") = (Some (2 ^ 64 - 1), str ".log") /\
  fst (ConsumeDecimalNumber (str "18446744073709551616.log")) = None.
Proof.
  split; [vm_compute; reflexivity|].
  destruct (ConsumeDecimalNumber_correct (str "18446744073709551616") (str ".log")) as (H & _).
  - repeat constructor.
  - reflexivity.
  - exact H.
Defined.
