(* ===== verification/Comparator.v ===== *)
(** * Comparator: the interface of key orders, and the bytewise order

    Models [include/leveldb/comparator.h] and [util/comparator.cpp].  A
    comparator is a record of operations; [ComparatorLaws] states what the rest
    of the database relies on, so that its clients are verified for every
    comparator that satisfies the laws. *)

From S2P Require Import Prelude Slice.

(** ** The interface *)

(** [Compare] returns an [int] of which only the sign is used.  The two other
    operations update a [std::string*]; they return its new contents. *)
Record Comparator : Type := mkComparator {
  Name : bytes;
  Compare : bytes -> bytes -> comparison;
  FindShortestSeparator : bytes -> bytes -> bytes;
  FindShortSuccessor : bytes -> bytes
}.

(** [Compare] is a total preorder; a separator is the start key itself or lies
    strictly between it and the limit; a successor is the key itself or above. *)
Class ComparatorLaws (c : Comparator) : Prop := {
  compare_antisym a b : Compare c b a = CompOpp (Compare c a b);
  compare_le_trans a b d :
    Compare c a b <> Gt -> Compare c b d <> Gt -> Compare c a d <> Gt;
  separator_between start limit :
    FindShortestSeparator c start limit = start \/
    (Compare c start (FindShortestSeparator c start limit) = Lt /\
     Compare c (FindShortestSeparator c start limit) limit = Lt);
  successor_above key :
    FindShortSuccessor c key = key \/ Compare c key (FindShortSuccessor c key) = Lt
}.

(** A separator and a successor are short strings: not longer than the key they
    replace. *)
Class ShorteningLaws (c : Comparator) : Prop := {
  separator_short start limit : size_of (FindShortestSeparator c start limit) <= size_of start;
  successor_short key : size_of (FindShortSuccessor c key) <= size_of key
}.

(** ** Consequences of the laws *)

(** Keys that compare equal. *)
Definition key_equiv (c : Comparator) (a b : bytes) : Prop := Compare c a b = Eq.

Section Laws.
Context {c : Comparator} `{ComparatorLaws c}.

Lemma compare_refl a : Compare c a a = Eq.
Proof using All. pose proof (compare_antisym a a). by destruct (Compare c a a). Qed.

Lemma compare_gt_lt a b : Compare c a b = Gt <-> Compare c b a = Lt.
Proof using All. rewrite (compare_antisym a b). by destruct (Compare c a b). Qed.

Lemma compare_eq_sym a b : Compare c a b = Eq <-> Compare c b a = Eq.
Proof using All. rewrite (compare_antisym a b). by destruct (Compare c a b). Qed.

Lemma compare_lt_le_trans a b d :
  Compare c a b = Lt -> Compare c b d <> Gt -> Compare c a d = Lt.
Proof using All.
  intros H1 H2. destruct (Compare c a d) eqn:E; [|done|].
  - exfalso. assert (Compare c b a <> Gt) as H3.
    { apply (compare_le_trans _ d); [done|]. by rewrite (proj1 (compare_eq_sym a d)). }
    rewrite (compare_antisym a b), H1 in H3. done.
  - exfalso. apply compare_gt_lt in E. assert (Compare c b a <> Gt) as H3.
    { apply (compare_le_trans _ d); [done|]. by rewrite E. }
    rewrite (compare_antisym a b), H1 in H3. done.
Qed.

Lemma compare_le_lt_trans a b d :
  Compare c a b <> Gt -> Compare c b d = Lt -> Compare c a d = Lt.
Proof using All.
  intros H1 H2. apply compare_gt_lt. destruct (Compare c d a) eqn:E; [| |done]; exfalso;
    (assert (Compare c d b <> Gt) as H3 by (apply (compare_le_trans _ a); [by rewrite E|done]));
    rewrite (compare_antisym b d), H2 in H3; done.
Qed.

Lemma compare_lt_trans a b d :
  Compare c a b = Lt -> Compare c b d = Lt -> Compare c a d = Lt.
Proof using All. intros H1 H2. apply (compare_lt_le_trans _ b); [done|]. by rewrite H2. Qed.

#[export] Instance key_equiv_equivalence : Equivalence (key_equiv c).
Proof using All.
  split; unfold key_equiv.
  - intros a. apply compare_refl.
  - intros a b. apply compare_eq_sym.
  - intros a b d H1 H2. destruct (Compare c a d) eqn:E; [done|..]; exfalso.
    + assert (Compare c b d = Lt) as E' by
        (apply (compare_le_lt_trans _ a); [by rewrite (proj1 (compare_eq_sym a b))|done]).
      congruence.
    + apply compare_gt_lt in E. assert (Compare c d b = Lt) as E' by
        (apply (compare_lt_le_trans _ a); [done|by rewrite H1]).
      apply compare_gt_lt in E'. congruence.
Qed.

(** Comparison does not tell equivalent keys apart. *)
#[export] Instance Compare_proper :
  Proper (key_equiv c ==> key_equiv c ==> eq) (Compare c).
Proof using All.
  intros a a' Ha b b' Hb. unfold key_equiv in *.
  destruct (Compare c a b) eqn:E; symmetry.
  - change (key_equiv c a' b'). transitivity a; [by symmetry|]. by transitivity b.
  - apply (compare_le_lt_trans _ a); [by rewrite (proj1 (compare_eq_sym a a'))|].
    apply (compare_lt_le_trans _ b); [done|by rewrite Hb].
  - apply compare_gt_lt. apply compare_gt_lt in E.
    apply (compare_le_lt_trans _ b); [by rewrite (proj1 (compare_eq_sym b b'))|].
    apply (compare_lt_le_trans _ a); [done|by rewrite Ha].
Qed.

Lemma compare_not_lt a b : Compare c a b <> Lt <-> Compare c b a <> Gt.
Proof using All. rewrite (compare_antisym a b). by destruct (Compare c a b). Qed.
End Laws.

(** ** The bytewise comparator *)

(** The loop that counts the bytes two strings share, up to [min_length]. *)
Fixpoint common_prefix (a b : bytes) : nat :=
  match a, b with
  | x :: a, y :: b => if Byte.eqb x y then S (common_prefix a b) else O
  | _, _ => O
  end.

Definition Bytewise_FindShortestSeparator (start limit : bytes) : bytes :=
  let min_length := Nat.min (length start) (length limit) in
  let diff_index := common_prefix start limit in
  if (min_length <=? diff_index)%nat then start
  else
    let diff_byte := b2z (nth diff_index start Byte.x00) in
    if (diff_byte <? 0xff) && (diff_byte + 1 <? b2z (nth diff_index limit Byte.x00))
    then take diff_index start ++ [z2b (diff_byte + 1)]
    else start.

(** The loop over [i]; [done] is the part of the key before [i]. *)
Fixpoint Bytewise_FindShortSuccessor_loop (done key : bytes) : bytes :=
  match key with
  | [] => done
  | byte :: key =>
      if negb (b2z byte =? 0xff) then done ++ [z2b (b2z byte + 1)]
      else Bytewise_FindShortSuccessor_loop (done ++ [byte]) key
  end.
Definition Bytewise_FindShortSuccessor (key : bytes) : bytes :=
  Bytewise_FindShortSuccessor_loop [] key.

Definition BytewiseComparator : Comparator := {|
  Name := str "leveldb.BytewiseComparator";
  Compare := compare;
  FindShortestSeparator := Bytewise_FindShortestSeparator;
  FindShortSuccessor := Bytewise_FindShortSuccessor
|}.

(** ** The bytewise comparator satisfies the laws *)

Lemma byte_eqb_eq x y : Byte.eqb x y = true <-> x = y.
Proof. split; [apply Byte.byte_dec_bl|apply Byte.byte_dec_lb]. Qed.

Lemma common_prefix_spec a b :
  exists p a' b', a = p ++ a' /\ b = p ++ b' /\ length p = common_prefix a b /\
    match a', b' with x :: _, y :: _ => x <> y | _, _ => True end.
Proof.
  revert b. induction a as [|x a IH]; intros [|y b]; simpl.
  - exists [], [], []. done.
  - exists [], [], (y :: b). done.
  - exists [], (x :: a), []. done.
  - destruct (Byte.eqb x y) eqn:E.
    + apply byte_eqb_eq in E as <-. destruct (IH b) as (p & a' & b' & -> & -> & Hl & Hd).
      exists (x :: p), a', b'. simpl. auto.
    + exists [], (x :: a), (y :: b). split_and!; try done. intros <-.
      rewrite (proj2 (byte_eqb_eq x x)) in E; done.
Qed.

Lemma common_prefix_le a b : (common_prefix a b <= length a /\ common_prefix a b <= length b)%nat.
Proof. destruct (common_prefix_spec a b) as (p & a' & b' & Ha & Hb & <- & _). subst. len. Qed.

Lemma common_prefix_take a b : take (common_prefix a b) a = take (common_prefix a b) b.
Proof.
  destruct (common_prefix_spec a b) as (p & a' & b' & Ha & Hb & <- & _). subst.
  by rewrite !take_app_length.
Qed.

Lemma Bytewise_separator_between start limit :
  let sep := Bytewise_FindShortestSeparator start limit in
  sep = start \/ (lex start sep = Lt /\ lex sep limit = Lt).
Proof.
  intros sep. subst sep. unfold Bytewise_FindShortestSeparator.
  destruct (common_prefix_spec start limit) as (p & a' & b' & -> & -> & <- & Hd).
  destruct (Nat.leb_spec (Nat.min (length (p ++ a')) (length (p ++ b'))) (length p)) as [|Hl];
    [by left|].
  destruct a' as [|x a']; [len|]. destruct b' as [|y b']; [len|].
  rewrite !app_nth2, !Nat.sub_diag, take_app_length by lia. simpl nth.
  destruct (Z.ltb_spec (b2z x) 0xff), (Z.ltb_spec (b2z x + 1) (b2z y)); simpl; auto.
  right. rewrite !lex_app. pose proof (b2z_range x). simpl.
  rewrite z2b_small by lia. rewrite (proj2 (Z.compare_lt_iff _ _)) by lia.
  rewrite (proj2 (Z.compare_lt_iff _ _)) by lia. done.
Qed.

Lemma Bytewise_successor_loop_above p key :
  let succ := Bytewise_FindShortSuccessor_loop p key in
  succ = p ++ key \/ lex (p ++ key) succ = Lt.
Proof.
  revert p. induction key as [|x key IH]; intros p; simpl; [left; by rewrite app_nil_r|].
  destruct (Z.eqb_spec (b2z x) 0xff); simpl.
  - specialize (IH (p ++ [x])). by rewrite <- app_assoc in IH.
  - right. rewrite lex_app. simpl. pose proof (b2z_range x). rewrite z2b_small by lia.
    by rewrite (proj2 (Z.compare_lt_iff _ _)) by lia.
Qed.

#[export] Instance BytewiseComparator_laws : ComparatorLaws BytewiseComparator.
Proof.
  split; simpl; intros *; rewrite ?compare_lex.
  - apply lex_antisym.
  - destruct (lex a b) eqn:E1, (lex b d) eqn:E2; try done; intros _ _.
    + apply lex_eq in E1 as ->. by rewrite E2.
    + apply lex_eq in E1 as ->. by rewrite E2.
    + apply lex_eq in E2 as <-. by rewrite E1.
    + by rewrite (lex_lt_trans _ _ _ E1 E2).
  - apply Bytewise_separator_between.
  - apply (Bytewise_successor_loop_above [] key).
Qed.

Lemma Bytewise_separator_length start limit :
  (length (Bytewise_FindShortestSeparator start limit) <= length start)%nat.
Proof.
  unfold Bytewise_FindShortestSeparator.
  destruct (Nat.leb_spec (Nat.min (length start) (length limit)) (common_prefix start limit));
    [lia|]. destruct (_ && _); [|lia]. len.
Qed.

Lemma Bytewise_successor_length p key :
  (length (Bytewise_FindShortSuccessor_loop p key) <= length p + length key)%nat.
Proof.
  revert p. induction key as [|x key IH]; intros p; simpl; [lia|].
  destruct (negb _); [len|]. specialize (IH (p ++ [x])). len.
Qed.

Lemma Bytewise_successor_fixed p key :
  Bytewise_FindShortSuccessor_loop p key = p ++ key <-> Forall (fun b => b2z b = 0xff) key.
Proof.
  revert p. induction key as [|x key IH]; intros p; simpl.
  { rewrite app_nil_r. split; auto. }
  rewrite Forall_cons. specialize (IH (p ++ [x])). rewrite <- app_assoc in IH.
  destruct (Z.eqb_spec (b2z x) 0xff); simpl; [tauto|].
  split; [|tauto]. intros E%app_inv_head. injection E as E _. exfalso.
  pose proof (b2z_range x). apply (f_equal b2z) in E. rewrite z2b_small in E; lia.
Qed.

#[export] Instance BytewiseComparator_short : ShorteningLaws BytewiseComparator.
Proof.
  split; unfold size_of.
  - intros start limit. pose proof (Bytewise_separator_length start limit). simpl. lia.
  - intros key. pose proof (Bytewise_successor_length [] key). simpl. unfold Bytewise_FindShortSuccessor in *. simpl in *. lia.
Qed.

(** ** Properties *)

(** The bytewise comparator never makes a separator longer than the start
    key, and the separator [s] of [start < limit] satisfies
    [start <= s < limit]; a successor is no longer than the key and not below
    it, and it is the key itself only when every byte of the key is [0xff]. *)
Theorem bytewise_shortening start limit :
  compare start limit = Lt ->
  let sep := FindShortestSeparator BytewiseComparator start limit in
  let succ := FindShortSuccessor BytewiseComparator start in
  (length sep <= length start)%nat /\ compare start sep <> Gt /\ compare sep limit = Lt /\
  (length succ <= length start)%nat /\ compare start succ <> Gt /\
  (succ = start <-> Forall (fun b => b2z b = 0xff) start).
Proof.
  intros Hlt sep succ.
  assert (Hrefl : compare start start <> Gt)
    by (by rewrite compare_lex, (proj2 (lex_eq _ _) eq_refl)).
  pose proof (separator_between (c := BytewiseComparator) start limit) as Hsep.
  pose proof (successor_above (c := BytewiseComparator) start) as Hsucc.
  change (sep = start \/ (compare start sep = Lt /\ compare sep limit = Lt)) in Hsep.
  change (succ = start \/ compare start succ = Lt) in Hsucc.
  split_and!.
  - apply Bytewise_separator_length.
  - destruct Hsep as [->|[-> _]]; done.
  - destruct Hsep as [->|[_ ->]]; done.
  - apply (Bytewise_successor_length []).
  - destruct Hsucc as [->| ->]; done.
  - apply (Bytewise_successor_fixed []).
Qed.

Lemma bytewise_shortening_witness :
  compare (str "abcdef") (str "abzz") = Lt /\
  compare (FindShortestSeparator BytewiseComparator (str "abcdef") (str "abzz")) (str "abzz") = Lt.
Proof.
  assert (compare (str "abcdef") (str "abzz") = Lt) as H by (vm_compute; reflexivity).
  split; [exact H|]. destruct (bytewise_shortening _ _ H) as (_ & _ & E & _). exact E.
Defined.
