(* ===== verification/FilterPolicy.v ===== *)
(** * FilterPolicy: the interface of key filters, the hash and the Bloom filter

    Models [include/leveldb/filter_policy.h], [util/hash.cpp] and
    [util/bloom.cpp].  [FilterPolicyLaws] is the promise of the header (no false
    negatives, existing contents of [dst] untouched) up to a number of keys for
    which the size computation of the policy does not overflow; the filter block
    and the table reader are verified against it. *)

From Stdlib Require Import Floats.SpecFloat.
From S2P Require Import Prelude Coding.

(** ** The interface *)

(** [CreateFilter(keys, n, dst)] appends to [dst]; the new contents are
    returned. *)
Record FilterPolicy : Type := mkFilterPolicy {
  policy_Name : bytes;
  CreateFilter : list bytes -> bytes -> bytes;
  KeyMayMatch : bytes -> bytes -> bool
}.

Class FilterPolicyLaws (p : FilterPolicy) (max_keys : Z) : Prop := {
  CreateFilter_appends keys dst :
    CreateFilter p keys dst = dst ++ CreateFilter p keys [];
  KeyMayMatch_created keys k :
    k ∈ keys -> size_of keys <= max_keys ->
    KeyMayMatch p k (CreateFilter p keys []) = true
}.

(** ** Hash *)

(** The [while (data + 4 <= limit)] loop: the bytes left and the hash. *)
Fixpoint Hash_loop (data : bytes) (h : Z) {struct data} : bytes * Z :=
  match data with
  | _ :: _ :: _ :: _ :: rest =>
      let m := 0xc6a4a793 in
      let w := DecodeFixed32 data in
      let h := u32 (h + w) in
      let h := u32 (h * m) in
      let h := Z.lxor h (Z.shiftr h 16) in
      Hash_loop rest h
  | _ => (data, h)
  end.

Definition Hash (data : bytes) (n : Z) (seed : Z) : Z :=
  let m := 0xc6a4a793 in
  let r := 24 in
  let h := Z.lxor seed (u32 (n * m)) in
  let '(data, h) := Hash_loop data h in
  let finish h := let h := u32 (h * m) in Z.lxor h (Z.shiftr h r) in
  match data with
  | [d0; d1; d2] =>
      let h := u32 (h + Z.shiftl (b2z d2) 16) in
      let h := u32 (h + Z.shiftl (b2z d1) 8) in
      finish (u32 (h + b2z d0))
  | [d0; d1] =>
      let h := u32 (h + Z.shiftl (b2z d1) 8) in
      finish (u32 (h + b2z d0))
  | [d0] => finish (u32 (h + b2z d0))
  | _ => h
  end.

(** ** Bloom filter *)

Definition BloomHash (key : bytes) : Z := Hash key (size_of key) 0xbc9f1d34.

(** [static_cast<size_t>(bits_per_key * 0.69)] in IEEE double arithmetic. *)
Definition double_0_69 : spec_float :=
  S754_finite false 6214967485771284 (-53).
Definition truncate_double (d : spec_float) : Z :=
  match d with
  | S754_finite false m e => if 0 <=? e then Z.shiftl (Zpos m) e else Z.shiftr (Zpos m) (- e)
  | _ => 0
  end.
Definition probes_of_bits (bits_per_key : Z) : Z :=
  truncate_double
    (SFmul 53 1024 (binary_normalize 53 1024 bits_per_key 0 false) double_0_69).

Record BloomFilterPolicy : Type := mkBloom { bits_per_key_ : Z; k_ : Z }.

Definition BloomFilterPolicy_make (bits_per_key : Z) : BloomFilterPolicy :=
  let k := probes_of_bits bits_per_key in
  let k := if k <? 1 then 1 else k in
  let k := if k >? 30 then 30 else k in
  mkBloom (usize bits_per_key) k.

(** [array[bitpos/8] |= (1 << (bitpos % 8))]. *)
Definition set_bit (array : bytes) (bitpos : Z) : bytes :=
  let i := Z.to_nat (bitpos / 8) in
  <[i := z2b (Z.lor (b2z (nth i array Byte.x00)) (Z.shiftl 1 (bitpos mod 8)))]> array.

(** [(array[bitpos/8] & (1 << (bitpos % 8))) == 0]. *)
Definition bit_is_clear (array : bytes) (bitpos : Z) : bool :=
  Z.land (b2z (nth (Z.to_nat (bitpos / 8)) array Byte.x00))
         (Z.shiftl 1 (bitpos mod 8)) =? 0.

(** [(h >> 17) | (h << 15)]. *)
Definition bloom_delta (h : Z) : Z := Z.lor (Z.shiftr h 17) (u32 (Z.shiftl h 15)).

(** The inner loop of [CreateFilter]: [j] probes remain. *)
Fixpoint add_probes (j : nat) (h delta bits : Z) (array : bytes) : bytes :=
  match j with
  | O => array
  | S j => add_probes j (u32 (h + delta)) delta bits (set_bit array (h mod bits))
  end.

Definition add_key (k bits : Z) (array key : bytes) : bytes :=
  let h := BloomHash key in
  add_probes (Z.to_nat k) h (bloom_delta h) bits array.

Definition Bloom_CreateFilter (p : BloomFilterPolicy) (keys : list bytes) (dst : bytes) : bytes :=
  let n := size_of keys in
  let bits := usize (n * bits_per_key_ p) in
  let bits := if bits <? 64 then 64 else bits in
  let num_bytes := usize (bits + 7) / 8 in
  let bits := usize (num_bytes * 8) in
  let array := replicate (Z.to_nat num_bytes) Byte.x00 ++ [z2b (k_ p)] in
  dst ++ fold_left (add_key (k_ p) bits) keys array.

Fixpoint probe (j : nat) (h delta bits : Z) (array : bytes) : bool :=
  match j with
  | O => true
  | S j =>
      if bit_is_clear array (h mod bits) then false
      else probe j (u32 (h + delta)) delta bits array
  end.

Definition Bloom_KeyMayMatch (key bloom_filter : bytes) : bool :=
  let len := size_of bloom_filter in
  if len <? 2 then false
  else
    let array := bloom_filter in
    let bits := usize ((len - 1) * 8) in
    let k := b2z (nth (Z.to_nat (len - 1)) array Byte.x00) in
    if k >? 30 then true
    else
      let h := BloomHash key in
      probe (Z.to_nat k) h (bloom_delta h) bits array.

Definition NewBloomFilterPolicy (bits_per_key : Z) : FilterPolicy :=
  let p := BloomFilterPolicy_make bits_per_key in
  {| policy_Name := str "leveldb.BuiltinBloomFilter2";
     CreateFilter := Bloom_CreateFilter p;
     KeyMayMatch := Bloom_KeyMayMatch |}.

(** ** Bits of the filter array *)

Lemma land_bit x i : 0 <= i -> (Z.land x (Z.shiftl 1 i) =? 0) = negb (Z.testbit x i).
Proof.
  intros Hi. assert (E : forall n, Z.testbit (Z.shiftl 1 i) n = (0 <=? n) && (n =? i)).
  { intros n. destruct (Z.leb_spec 0 n); [|by rewrite Z.testbit_neg_r].
    rewrite Z.shiftl_1_l, Z.pow2_bits_eqb by done. apply Z.eqb_sym. }
  destruct (Z.testbit x i) eqn:Ex; simpl.
  - apply Z.eqb_neq. intros H. apply (f_equal (fun z => Z.testbit z i)) in H.
    rewrite Z.land_spec, E, Ex, Z.eqb_refl, Z.bits_0 in H.
    by rewrite (proj2 (Z.leb_le 0 i) Hi) in H.
  - apply Z.eqb_eq, Z.bits_inj'. intros n Hn. rewrite Z.land_spec, E, Z.bits_0.
    destruct (Z.eqb_spec n i) as [->|]; [by rewrite Ex|]. by rewrite !andb_false_r.
Qed.

Definition bit_at (array : bytes) (pos : Z) : bool :=
  Z.testbit (b2z (nth (Z.to_nat (pos / 8)) array Byte.x00)) (pos mod 8).

Lemma bit_is_clear_spec array pos : bit_is_clear array pos = negb (bit_at array pos).
Proof. apply land_bit. apply Z.mod_pos_bound. lia. Qed.

Lemma length_set_bit array pos : length (set_bit array pos) = length array.
Proof. apply length_insert. Qed.

Lemma pos_index_inj p q : 0 <= p -> 0 <= q -> Z.to_nat (p / 8) = Z.to_nat (q / 8) -> p / 8 = q / 8.
Proof. intros. pose proof (Z.div_pos p 8). pose proof (Z.div_pos q 8). lia. Qed.

Lemma bit_at_set_bit array pos q :
  0 <= pos < 8 * size_of array -> 0 <= q ->
  bit_at (set_bit array pos) q = (pos =? q) || bit_at array q.
Proof.
  intros Hpos Hq. unfold bit_at, set_bit. rewrite !nth_lookup.
  assert (Z.to_nat (pos / 8) < length array)%nat by (unfold size_of in *; dlia).
  pose proof (Z.mod_pos_bound pos 8). pose proof (Z.mod_pos_bound q 8).
  destruct (decide (Z.to_nat (pos / 8) = Z.to_nat (q / 8))) as [Ei|Ei].
  - rewrite <- Ei, list_lookup_insert_eq by done. simpl. apply pos_index_inj in Ei; [|lia..].
    rewrite z2b_small.
    + rewrite Z.lor_spec, Z.shiftl_1_l, Z.pow2_bits_eqb, orb_comm by lia. f_equal.
      destruct (Z.eqb_spec (pos mod 8) (q mod 8)), (Z.eqb_spec pos q); try done; dlia.
    + apply (lor_range _ _ 8); [lia|apply b2z_range|]. rewrite Z.shiftl_1_l.
      split; [lia|]. apply Z.pow_lt_mono_r; lia.
  - rewrite list_lookup_insert_ne by done.
    destruct (Z.eqb_spec pos q) as [->|]; [done|]. done.
Qed.

Lemma nth_set_bit_above array pos i :
  0 <= pos < 8 * Z.of_nat i -> nth i (set_bit array pos) Byte.x00 = nth i array Byte.x00.
Proof.
  intros. unfold set_bit. rewrite !nth_lookup, list_lookup_insert_ne; [done|]. dlia.
Qed.

(** ** Probes *)

Section Probes.
Context (n : nat) (bits : Z).
Context (Hbits : bits = 8 * Z.of_nat n) (Hpos : 0 < bits).

(** An array of [n] bytes of bits followed by the number of probes [k]. *)
Definition filter_shape (k : byte) (array : bytes) : Prop :=
  length array = S n /\ nth n array Byte.x00 = k.

Lemma filter_shape_set_bit k array h :
  filter_shape k array -> filter_shape k (set_bit array (h mod bits)).
Proof using All.
  intros [Hl Hk]. pose proof (Z.mod_pos_bound h bits). split.
  - by rewrite length_set_bit.
  - by rewrite nth_set_bit_above by lia.
Qed.

Lemma probe_set_bit k j h delta array h' :
  filter_shape k array -> probe j h delta bits array = true ->
  probe j h delta bits (set_bit array (h' mod bits)) = true.
Proof using All.
  intros [Hl _]. revert h. induction j as [|j IH]; intros h; [done|]. simpl.
  rewrite !bit_is_clear_spec, bit_at_set_bit
    by (pose proof (Z.mod_pos_bound h bits); pose proof (Z.mod_pos_bound h' bits); len).
  destruct (bit_at array (h mod bits)); [|done].
  rewrite orb_true_r. simpl. apply IH.
Qed.

Lemma filter_shape_add_probes k j h delta array :
  filter_shape k array -> filter_shape k (add_probes j h delta bits array).
Proof using All.
  revert h array. induction j as [|j IH]; intros h array Hs; [done|]. simpl.
  apply IH. by apply filter_shape_set_bit.
Qed.

Lemma probe_add_probes k j h delta array j' h' delta' :
  filter_shape k array -> probe j h delta bits array = true ->
  probe j h delta bits (add_probes j' h' delta' bits array) = true.
Proof using All.
  revert h' array. induction j' as [|j' IH]; intros h' array Hs Hp; [done|]. simpl.
  apply IH; [by apply filter_shape_set_bit|by apply (probe_set_bit k)].
Qed.

(** The probes of a key succeed once they have been added. *)
Lemma probe_added k j h delta array :
  filter_shape k array -> probe j h delta bits (add_probes j h delta bits array) = true.
Proof using All.
  revert h array. induction j as [|j IH]; intros h array Hs; [done|]. simpl.
  assert (Hs' := filter_shape_set_bit k array h Hs).
  assert (Hp := probe_add_probes k 1 h delta (set_bit array (h mod bits)) j
    (u32 (h + delta)) delta Hs').
  pose proof (Z.mod_pos_bound h bits). destruct Hs as [Hl Hk].
  simpl in Hp. rewrite !bit_is_clear_spec in *.
  rewrite bit_at_set_bit, Z.eqb_refl in Hp by len. simpl in Hp.
  destruct (bit_at _ _); [simpl; by apply IH|by specialize (Hp eq_refl)].
Qed.

Lemma add_keys_probe k kz keys array key :
  filter_shape k array ->
  (key ∈ keys \/ probe (Z.to_nat kz) (BloomHash key) (bloom_delta (BloomHash key)) bits array = true) ->
  let array' := fold_left (add_key kz bits) keys array in
  filter_shape k array' /\
  probe (Z.to_nat kz) (BloomHash key) (bloom_delta (BloomHash key)) bits array' = true.
Proof using All.
  revert array. induction keys as [|x keys IH]; intros array Hs Hor; simpl.
  { destruct Hor as [Hin|Hp]; [by apply not_elem_of_nil in Hin|done]. }
  apply IH; [by apply filter_shape_add_probes|].
  rewrite elem_of_cons in Hor. destruct Hor as [[-> |Hin]|Hp].
  - right. by apply (probe_added k).
  - by left.
  - right. by apply (probe_add_probes k).
Qed.
End Probes.

(** ** The Bloom filter keeps the promise of the interface *)

Lemma k_range bits_per_key : 1 <= k_ (BloomFilterPolicy_make bits_per_key) <= 30.
Proof.
  simpl. destruct (Z.ltb_spec (probes_of_bits bits_per_key) 1); simpl; [lia|].
  destruct (Z.gtb_spec (probes_of_bits bits_per_key) 30); lia.
Qed.

(** The size computation for [n] keys, when it does not wrap. *)
Lemma Bloom_size (n bpk : Z) :
  0 <= n -> 0 <= bpk -> n * bpk <= 2 ^ 32 - 8 ->
  let bits := usize (n * bpk) in
  let bits := if bits <? 64 then 64 else bits in
  let num_bytes := usize (bits + 7) / 8 in
  8 <= num_bytes < 2 ^ 29 /\ usize (num_bytes * 8) = 8 * num_bytes /\ n * bpk <= 8 * num_bytes.
Proof.
  intros Hn Hb Hnb. cbn zeta.
  assert (0 <= n * bpk) by (apply Z.mul_nonneg_nonneg; lia).
  rewrite (usize_small (n * bpk)) by lia.
  destruct (Z.ltb_spec (n * bpk) 64).
  - change (usize (64 + 7) / 8) with 8. change (usize (8 * 8)) with 64. lia.
  - rewrite (usize_small (n * bpk + 7)) by lia.
    assert (8 <= (n * bpk + 7) / 8 < 2 ^ 29) by dlia.
    rewrite usize_small by lia. dlia.
Qed.

Lemma Bloom_KeyMayMatch_created bits_per_key keys key :
  let p := BloomFilterPolicy_make bits_per_key in
  0 <= bits_per_key < 2 ^ 32 -> size_of keys * bits_per_key <= 2 ^ 32 - 8 -> key ∈ keys ->
  Bloom_KeyMayMatch key (Bloom_CreateFilter p keys []) = true.
Proof.
  intros p Hb Hsz Hin. pose proof (k_range bits_per_key) as Hk. fold p in Hk.
  unfold Bloom_CreateFilter. rewrite app_nil_l.
  replace (bits_per_key_ p) with bits_per_key by (symmetry; by apply usize_small).
  destruct (Bloom_size (size_of keys) bits_per_key) as (Hn & Hbits & _); [len|lia|lia|].
  revert Hn Hbits. cbn zeta.
  generalize (usize ((if usize (size_of keys * bits_per_key) <? 64 then 64
     else usize (size_of keys * bits_per_key)) + 7) / 8). intros num Hn ->.
  set (array0 := replicate (Z.to_nat num) Byte.x00 ++ [z2b (k_ p)]).
  assert (Hs : filter_shape (Z.to_nat num) (z2b (k_ p)) array0).
  { unfold array0. split; [len|].
    rewrite app_nth2, length_replicate, Nat.sub_diag by len. done. }
  destruct (add_keys_probe (Z.to_nat num) (8 * num) ltac:(lia) ltac:(lia)
    (z2b (k_ p)) (k_ p) keys array0 key Hs (or_introl Hin)) as [[Hl Hkb] Hp].
  revert Hl Hkb Hp. generalize (fold_left (add_key (k_ p) (8 * num)) keys array0).
  intros array Hl Hkb Hp. unfold Bloom_KeyMayMatch.
  replace (size_of array) with (num + 1) by (unfold size_of; lia).
  destruct (Z.ltb_spec (num + 1) 2); [lia|].
  replace (num + 1 - 1) with num by lia. rewrite Hkb, z2b_small by lia.
  destruct (Z.gtb_spec (k_ p) 30); [done|].
  rewrite usize_small by lia. by rewrite (Z.mul_comm num 8).
Qed.

Lemma length_add_keys k bits keys array :
  length (fold_left (add_key k bits) keys array) = length array.
Proof.
  revert array. induction keys as [|key keys IH]; intros array; [done|]. simpl. rewrite IH.
  unfold add_key. generalize (bloom_delta (BloomHash key)). intros delta.
  generalize (BloomHash key) as h. revert array. induction (Z.to_nat k) as [|j IHj]; intros; [done|].
  simpl. by rewrite IHj, length_set_bit.
Qed.

Lemma size_add_keys k bits keys array :
  size_of (fold_left (add_key k bits) keys array) = size_of array.
Proof. unfold size_of. by rewrite length_add_keys. Qed.

(** For [bits_per_key] as an [int], up to [(2^32 - 8) / bits_per_key] keys. *)
#[export] Instance BloomFilterPolicy_laws bits_per_key :
  0 < bits_per_key < 2 ^ 31 ->
  FilterPolicyLaws (NewBloomFilterPolicy bits_per_key) ((2 ^ 32 - 8) / bits_per_key).
Proof.
  intros Hb. split; [done|]. intros keys k Hin Hsz. apply Bloom_KeyMayMatch_created; [lia| |done].
  pose proof (Z.mul_div_le (2 ^ 32 - 8) bits_per_key). nia.
Qed.

(** The floating-point computation of the number of probes agrees, after the
    clamping, with the rounded-down product by 69/100. *)
Lemma k_exact :
  forallb (fun b => k_ (BloomFilterPolicy_make b) =? Z.max 1 (Z.min 30 (b * 69 / 100)))
    (seqZ 0 1001) = true.
Proof. vm_compute. reflexivity. Qed.

(** ** Properties *)

(** The Bloom filter of any set of keys, appended to any [dst], leaves [dst]
    as it was and matches every one of the keys (no false negative), as long as
    the 32-bit size computation does not wrap; it has at least
    [bits_per_key] bits per key, at least 64 bits, and one byte that records a
    number of probes between 1 and 30. *)
Theorem bloom_no_false_negative bits_per_key keys key dst :
  0 <= bits_per_key < 2 ^ 31 -> size_of keys * bits_per_key <= 2 ^ 32 - 8 -> key ∈ keys ->
  let policy := NewBloomFilterPolicy bits_per_key in
  let filter := drop (length dst) (CreateFilter policy keys dst) in
  CreateFilter policy keys dst = dst ++ filter /\
  KeyMayMatch policy key filter = true /\
  size_of keys * bits_per_key <= 8 * (size_of filter - 1) /\ 9 <= size_of filter.
Proof.
  intros Hb Hsz Hin policy filter.
  assert (Ef : filter = Bloom_CreateFilter (BloomFilterPolicy_make bits_per_key) keys []).
  { unfold filter, policy. simpl. unfold Bloom_CreateFilter. by rewrite drop_app_length. }
  rewrite Ef. split; [done|].
  split; [by apply Bloom_KeyMayMatch_created; [lia|..]|].
  destruct (Bloom_size (size_of keys) bits_per_key) as (H1 & _ & H3); [len|lia|lia|].
  unfold Bloom_CreateFilter. rewrite app_nil_l, size_add_keys.
  replace (bits_per_key_ (BloomFilterPolicy_make bits_per_key)) with bits_per_key
    by (symmetry; apply usize_small; lia).
  cbn zeta in *. revert H1 H3. generalize (usize ((if usize (size_of keys * bits_per_key) <? 64
    then 64 else usize (size_of keys * bits_per_key)) + 7) / 8). intros num H1 H3. len.
Qed.

Lemma bloom_no_false_negative_witness :
  KeyMayMatch (NewBloomFilterPolicy 10) (str "hello")
    (CreateFilter (NewBloomFilterPolicy 10) [str "hello"; str "world"] []) = true /\
  KeyMayMatch (NewBloomFilterPolicy 10) (str "x")
    (CreateFilter (NewBloomFilterPolicy 10) [str "hello"; str "world"] []) = false.
Proof.
  split; [|vm_compute; reflexivity].
  destruct (bloom_no_false_negative 10 [str "hello"; str "world"] (str "hello") [])
    as (_ & H & _); [lia|vm_compute; discriminate|left|exact H].
Defined.

