(* ===== verification/FilterBlock.v ===== *)
(** * FilterBlock: the block of key filters of a table

    Models [table/filter_block.cpp] and [table/filter_block.h] for any filter
    policy: the builder as a record of its fields with one function per method,
    and the reader. *)

From S2P Require Import Prelude Coding FilterPolicy.

(** Generate new filter every 2KB of data. *)
Definition kFilterBaseLg : Z := 11.
Definition kFilterBase : Z := Z.shiftl 1 kFilterBaseLg.

(** [v[i]] on a vector of integers, within its bounds. *)
Definition vec_at (v : list Z) (i : nat) : Z := nth i v 0.

(** ** Builder *)

Record FilterBlockBuilder : Type := mkFilterBlockBuilder {
  keys_ : bytes;
  start_ : list Z;
  result_ : bytes;
  filter_offsets_ : list Z
}.

Definition FilterBlockBuilder_make : FilterBlockBuilder := mkFilterBlockBuilder [] [] [] [].

Section Builder.
Context (policy_ : FilterPolicy).

(** [tmp_keys_[i]] for the flattened keys. *)
Definition tmp_key (keys : bytes) (start : list Z) (i : nat) : bytes :=
  let base := vec_at start i in
  let length := usize (vec_at start (S i) - vec_at start i) in
  take (Z.to_nat length) (drop (Z.to_nat base) keys).

Definition GenerateFilter (b : FilterBlockBuilder) : FilterBlockBuilder :=
  let num_keys := length (start_ b) in
  if (num_keys =? 0)%nat then
    (* Fast path if there are no keys for this filter *)
    mkFilterBlockBuilder (keys_ b) (start_ b) (result_ b)
      (filter_offsets_ b ++ [u32 (size_of (result_ b))])
  else
    let start := start_ b ++ [size_of (keys_ b)] in
    let tmp_keys := map (tmp_key (keys_ b) start) (seq 0 num_keys) in
    let filter_offsets := filter_offsets_ b ++ [u32 (size_of (result_ b))] in
    let result := CreateFilter policy_ tmp_keys (result_ b) in
    mkFilterBlockBuilder [] [] result filter_offsets.

(** [while (filter_index > filter_offsets_.size()) GenerateFilter()]: each
    iteration adds one offset, so the distance bounds the iterations. *)
Fixpoint StartBlock_loop (fuel : nat) (filter_index : Z) (b : FilterBlockBuilder) :
    FilterBlockBuilder :=
  match fuel with
  | O => b
  | S fuel =>
      if filter_index >? size_of (filter_offsets_ b)
      then StartBlock_loop fuel filter_index (GenerateFilter b)
      else b
  end.

Definition StartBlock (block_offset : Z) (b : FilterBlockBuilder) : FilterBlockBuilder :=
  let filter_index := block_offset / kFilterBase in
  StartBlock_loop (Z.to_nat (filter_index - size_of (filter_offsets_ b))) filter_index b.

Definition AddKey (key : bytes) (b : FilterBlockBuilder) : FilterBlockBuilder :=
  mkFilterBlockBuilder (keys_ b ++ key) (start_ b ++ [size_of (keys_ b)])
    (result_ b) (filter_offsets_ b).

(** The builder after [Finish]; its [result_] is the returned slice. *)
Definition Finish (b : FilterBlockBuilder) : FilterBlockBuilder :=
  let b := if (length (start_ b) =? 0)%nat then b else GenerateFilter b in
  let array_offset := u32 (size_of (result_ b)) in
  let result := fold_left PutFixed32 (filter_offsets_ b) (result_ b) in
  let result := PutFixed32 result array_offset in
  mkFilterBlockBuilder (keys_ b) (start_ b) (result ++ [z2b kFilterBaseLg])
    (filter_offsets_ b).

(** ** Reader *)

(** [data_] is [NULL] when the contents are rejected; [offset_] is kept as the
    distance from [data_]. *)
Record FilterBlockReader : Type := mkFilterBlockReader {
  data_ : option bytes;
  offset_ : Z;
  num_ : Z;
  base_lg_ : Z
}.

Definition FilterBlockReader_make (contents : bytes) : FilterBlockReader :=
  let n := size_of contents in
  if n <? 5 then mkFilterBlockReader None 0 0 0
  else
    let base_lg := b2z (nth (Z.to_nat (n - 1)) contents Byte.x00) in
    let last_word := DecodeFixed32 (drop (Z.to_nat (n - 5)) contents) in
    if last_word >? n - 5 then mkFilterBlockReader None 0 0 base_lg
    else mkFilterBlockReader (Some contents) last_word ((n - 5 - last_word) / 4) base_lg.

Definition FilterBlockReader_KeyMayMatch (r : FilterBlockReader) (block_offset : Z)
    (key : bytes) : bool :=
  let index := Z.shiftr block_offset (base_lg_ r) in
  if index <? num_ r then
    let data := default [] (data_ r) in
    let at_offset i := DecodeFixed32 (drop (Z.to_nat (offset_ r + i)) data) in
    let start := at_offset (index * 4) in
    let limit := at_offset (index * 4 + 4) in
    if (start <=? limit) && (limit <=? offset_ r) then
      let filter := take (Z.to_nat (limit - start)) (drop (Z.to_nat start) data) in
      KeyMayMatch policy_ key filter
    else if start =? limit then false
    else true
  else true.

(** ** The calls of a table builder: [(StartBlock AddKey* )* Finish] *)

Definition add_block (b : FilterBlockBuilder) (block : Z * list bytes) : FilterBlockBuilder :=
  fold_left (fun b key => AddKey key b) block.2 (StartBlock block.1 b).

Definition build_filter_block (blocks : list (Z * list bytes)) : bytes :=
  result_ (Finish (fold_left add_block blocks FilterBlockBuilder_make)).
End Builder.

(** ** Offsets of consecutive parts *)

(** The offsets at which the parts of [l] start when they are concatenated
    after [acc] bytes. *)
Fixpoint starts (acc : Z) (l : list bytes) : list Z :=
  match l with
  | [] => []
  | x :: l => acc :: starts (acc + size_of x) l
  end.

Lemma length_starts acc l : length (starts acc l) = length l.
Proof. revert acc. induction l; intros; simpl; auto. Qed.

Lemma starts_app acc l k :
  starts acc (l ++ k) = starts acc l ++ starts (acc + size_of (concat l)) k.
Proof.
  revert acc. induction l as [|x l IH]; intros acc; simpl; [by rewrite Z.add_0_r|].
  rewrite IH. do 3 f_equal. len.
Qed.

(** The [i]-th offset, or the end for [i] past the last part. *)
Lemma starts_nth acc l i :
  (i <= length l)%nat ->
  nth i (starts acc l ++ [acc + size_of (concat l)]) 0 = acc + size_of (concat (take i l)).
Proof.
  revert acc i. induction l as [|x l IH]; intros acc i Hi; simpl in *.
  - by replace i with O by lia.
  - destruct i as [|i]; simpl; [change (size_of (@nil byte)) with 0; lia|].
    rewrite size_of_app, Z.add_assoc, IH by lia. len.
Qed.

Lemma starts_bound acc l z :
  z ∈ starts acc l -> acc <= z <= acc + size_of (concat l).
Proof.
  revert acc. induction l as [|x l IH]; intros acc; simpl; [by intros ?%not_elem_of_nil|].
  rewrite elem_of_cons. intros [->|Hin]; [len|]. apply IH in Hin. len.
Qed.

(** Cutting a concatenation at the offsets of a part gives the part. *)
Lemma concat_part (l : list bytes) (i : nat) (x rest : bytes) :
  l !! i = Some x ->
  take (length x) (drop (length (concat (take i l))) (concat l ++ rest)) = x.
Proof.
  intros Hx. rewrite <- (take_drop_middle l i x) at 2 by done.
  rewrite concat_app, <- !app_assoc, drop_app_length. simpl.
  by rewrite <- app_assoc, take_app_length.
Qed.

Lemma concat_take_S (l : list bytes) (i : nat) (x : bytes) :
  l !! i = Some x -> size_of (concat (take (S i) l)) = size_of (concat (take i l)) + size_of x.
Proof.
  intros Hx. rewrite (take_S_r _ _ x) by done. rewrite concat_app, size_of_app. simpl.
  by rewrite app_nil_r.
Qed.

Lemma size_concat_take (l : list bytes) i : size_of (concat (take i l)) <= size_of (concat l).
Proof.
  rewrite <- (take_drop i l) at 2. rewrite concat_app, size_of_app.
  pose proof (size_of_nonneg (concat (drop i l))). lia.
Qed.

(** ** What the state of a builder stands for *)

Section BuilderSpec.
Context (policy : FilterPolicy) (max_keys : Z) `{FilterPolicyLaws policy max_keys}.

Definition filter_of (keys : list bytes) : bytes :=
  match keys with [] => [] | _ => CreateFilter policy keys [] end.

(** [groups] are the sets of keys of the filters generated so far, [pending]
    the keys of the filter under construction; all the keys [added], in order. *)
Record represents (b : FilterBlockBuilder) (groups : list (list bytes))
    (pending added : list bytes) : Prop := {
  rep_keys : keys_ b = concat pending;
  rep_start : start_ b = starts 0 pending;
  rep_result : result_ b = concat (map filter_of groups);
  rep_offsets : filter_offsets_ b = map u32 (starts 0 (map filter_of groups));
  rep_added : concat groups ++ pending = added
}.

Lemma represents_groups b g p added :
  represents b g p added -> size_of (filter_offsets_ b) = size_of g.
Proof. intros []. rewrite rep_offsets0. unfold size_of. by rewrite length_map, length_starts, length_map. Qed.

Lemma tmp_keys_pending pending :
  size_of (concat pending) < 2 ^ 32 ->
  map (tmp_key (concat pending) (starts 0 pending ++ [size_of (concat pending)]))
    (seq 0 (length pending)) = pending.
Proof.
  intros Hb. apply list_eq. intros i. rewrite list_lookup_fmap.
  destruct (decide (i < length pending)%nat) as [Hi|Hi].
  - rewrite lookup_seq_lt by done. simpl. destruct (lookup_lt_is_Some_2 _ _ Hi) as [x Hx].
    rewrite Hx. f_equal. unfold tmp_key, vec_at.
    rewrite !(starts_nth 0 pending) by lia. rewrite (concat_take_S _ _ x) by done.
    pose proof (size_concat_take pending (S i)). rewrite (concat_take_S _ _ x) in * by done.
    pose proof (size_of_nonneg (concat (take i pending))). pose proof (size_of_nonneg x).
    rewrite usize_small by lia.
    replace (Z.to_nat _) with (length x) by (unfold size_of in *; lia).
    replace (Z.to_nat _) with (length (concat (take i pending))) by (unfold size_of in *; lia).
    rewrite <- (app_nil_r (concat pending)). by apply concat_part.
  - rewrite lookup_seq_ge, lookup_ge_None_2 by lia. done.
Qed.

Lemma GenerateFilter_represents b g p added :
  represents b g p added -> size_of (concat p) < 2 ^ 32 ->
  represents (GenerateFilter policy b) (g ++ [p]) [] added.
Proof using All.
  intros [Hk Hs Hr Ho Ha] Hb. unfold GenerateFilter.
  rewrite Hk, Hs, Hr, Ho, length_starts.
  destruct p as [|k p].
  - split; simpl; rewrite ?map_app, ?starts_app, ?concat_app, ?app_nil_r; simpl;
      rewrite ?app_nil_r; try done.
    + rewrite map_app, Z.add_0_l. done.
    + by rewrite <- Ha, app_nil_r.
  - cbn [length Nat.eqb]. change (S (length p)) with (length (k :: p)).
    rewrite tmp_keys_pending by done. rewrite CreateFilter_appends.
    split; simpl; rewrite ?map_app, ?starts_app, ?concat_app, ?app_nil_r; simpl;
      rewrite ?app_nil_r; try done.
    rewrite map_app, Z.add_0_l. done.
Qed.

Lemma AddKey_represents b g p added k :
  represents b g p added -> represents (AddKey k b) g (p ++ [k]) (added ++ [k]).
Proof.
  intros [Hk Hs Hr Ho Ha]. unfold AddKey. split; simpl; try done.
  - by rewrite Hk, concat_app; simpl; rewrite app_nil_r.
  - by rewrite Hs, Hk, starts_app, Z.add_0_l.
  - by rewrite <- Ha, app_assoc.
Qed.

(** Where a key is: in the filter of a group, or among the pending keys of the
    next one. *)
Definition located (g : list (list bytes)) (p : list bytes) (i : nat) (k : bytes) : Prop :=
  (exists ks, g !! i = Some ks /\ k ∈ ks) \/ (i = length g /\ k ∈ p).

Lemma located_generate g p i k : located g p i k -> located (g ++ [p]) [] i k.
Proof.
  intros [(ks & Hg & Hk)|[-> Hk]]; left.
  - exists ks. split; [|done]. by apply lookup_app_l_Some.
  - exists p. split; [|done]. by rewrite lookup_app_r, Nat.sub_diag by lia.
Qed.

Lemma StartBlock_loop_represents fuel idx b g p added :
  represents b g p added -> size_of (concat added) < 2 ^ 32 -> size_of g <= idx ->
  (Z.to_nat (idx - size_of g) <= fuel)%nat ->
  exists g' p', represents (StartBlock_loop policy fuel idx b) g' p' added /\
    size_of g' = idx /\ (forall i k, located g p i k -> located g' p' i k).
Proof using All.
  revert b g p. induction fuel as [|fuel IH]; intros b g p Hrep Hb Hg Hf; simpl.
  { exists g, p. split_and!; [done|lia|auto]. }
  rewrite (represents_groups _ _ _ _ Hrep).
  destruct (Z.gtb_spec idx (size_of g)) as [Hlt|Hge];
    [|exists g, p; split_and!; [done|lia|auto]].
  assert (size_of (concat p) < 2 ^ 32).
  { destruct Hrep as [_ _ _ _ <-]. rewrite concat_app in Hb. len. }
  destruct (IH (GenerateFilter policy b) (g ++ [p]) []) as (g' & p' & Hrep' & Hg' & Hloc);
    [by apply GenerateFilter_represents|done|len|len|].
  exists g', p'. split_and!; [done|done|]. intros i k Hi. by apply Hloc, located_generate.
Qed.

Lemma add_keys_represents keys b g p added :
  represents b g p added ->
  represents (fold_left (fun b key => AddKey key b) keys b) g (p ++ keys) (added ++ keys).
Proof.
  revert b p added. induction keys as [|k keys IH]; intros b p added Hrep; simpl.
  - by rewrite !app_nil_r.
  - rewrite (cons_middle k p keys), (cons_middle k added keys), !app_assoc.
    by apply IH, AddKey_represents.
Qed.

Definition block_keys (blocks : list (Z * list bytes)) : list bytes := concat (map snd blocks).

Lemma add_blocks_represents blocks b g p added :
  represents b g p added -> size_of (concat (added ++ block_keys blocks)) < 2 ^ 32 ->
  Forall (fun blk => size_of g <= blk.1 / kFilterBase) blocks ->
  StronglySorted (fun x y => x.1 <= y.1) blocks ->
  exists g' p', represents (fold_left (add_block policy) blocks b) g' p'
                  (added ++ block_keys blocks) /\
    (forall i k, located g p i k -> located g' p' i k) /\
    (forall blk k, blk ∈ blocks -> k ∈ blk.2 ->
       located g' p' (Z.to_nat (blk.1 / kFilterBase)) k).
Proof using All.
  revert b g p added. induction blocks as [|[off keys] blocks IH];
    intros b g p added Hrep Hb Hge Hsorted; simpl.
  { exists g, p. unfold block_keys. simpl. rewrite app_nil_r. split_and!; [done|done|].
    by intros blk k ?%not_elem_of_nil. }
  apply Forall_cons in Hge as [Hge1 Hge]. apply StronglySorted_inv in Hsorted as [Hsorted Hle].
  unfold block_keys in *. simpl in *. rewrite app_assoc in Hb |- *.
  destruct (StartBlock_loop_represents
    (Z.to_nat (off / kFilterBase - size_of (filter_offsets_ b))) (off / kFilterBase)
    b g p added) as (g1 & p1 & Hrep1 & Hg1 & Hloc1); [done| |done| |].
  { rewrite !concat_app in Hb. len. }
  { by rewrite (represents_groups _ _ _ _ Hrep). }
  destruct (IH (add_block policy b (off, keys)) g1 (p1 ++ keys) (added ++ keys))
    as (g2 & p2 & Hrep2 & Hloc2 & Hkeys2); [by apply add_keys_represents|done| |done|].
  { rewrite Hg1. eapply Forall_impl; [exact Hle|]. intros blk Hblk. simpl in *.
    apply Z.div_le_mono; [done|lia]. }
  assert (Hp1 : forall i k, located g1 p1 i k -> located g1 (p1 ++ keys) i k).
  { intros i k [?|[? ?]]; [by left|right]. rewrite elem_of_app. auto. }
  exists g2, p2. split_and!; [done|auto|]. intros blk k.
  rewrite elem_of_cons. intros [->|Hblk] Hk; simpl in *; [|by eapply Hkeys2].
  apply Hloc2. right. split; [unfold size_of in *; lia|]. rewrite elem_of_app. auto.
Qed.
End BuilderSpec.

(** ** Reading what [Finish] wrote *)

Lemma length_concat_fixed32 l : length (concat (map EncodeFixed32 l)) = (4 * length l)%nat.
Proof. induction l; simpl; [done|]. len. Qed.

(** Word [i] of an array of fixed32 words. *)
Lemma DecodeFixed32_array l i rest :
  (i < length l)%nat -> Forall (fun z => 0 <= z < 2 ^ 32) l ->
  DecodeFixed32 (drop (4 * i) (concat (map EncodeFixed32 l) ++ rest)) = nth i l 0.
Proof.
  revert i. induction l as [|x l IH]; intros i Hi Hl; simpl in Hi; [lia|].
  apply Forall_cons in Hl as [Hx Hl]. destruct i as [|i].
  - cbn [map concat nth]. rewrite Nat.mul_0_r, drop_0, <- app_assoc. by apply DecodeFixed32_Encode.
  - replace (4 * S i)%nat with (4 + 4 * i)%nat by lia. cbn [map concat]. rewrite <- app_assoc.
    rewrite <- drop_drop, drop_app_exact by (by rewrite length_EncodeFixed32).
    simpl nth. apply IH; [lia|done].
Qed.

Section ReaderSpec.
Context (policy : FilterPolicy) (max_keys : Z) `{FilterPolicyLaws policy max_keys}.

(** The contents of a block with these filters. *)
Definition filter_block (filters : list bytes) : bytes :=
  concat filters ++
  concat (map EncodeFixed32 (starts 0 filters ++ [size_of (concat filters)])) ++
  [z2b kFilterBaseLg].

Lemma map_u32_starts l :
  size_of (concat l) < 2 ^ 32 -> map u32 (starts 0 l) = starts 0 l.
Proof.
  intros Hl. rewrite <- (map_id (starts 0 l)) at 2. apply map_ext_in. intros z Hz.
  apply u32_small. apply list_elem_of_In in Hz. apply starts_bound in Hz. lia.
Qed.

(** The groups once the pending keys have been flushed. *)
Definition final_groups (g : list (list bytes)) (p : list bytes) : list (list bytes) :=
  match p with [] => g | _ => g ++ [p] end.

Lemma flush_represents b g p added :
  represents policy b g p added -> size_of (concat added) < 2 ^ 32 ->
  represents policy (if (length (start_ b) =? 0)%nat then b else GenerateFilter policy b)
    (final_groups g p) [] added.
Proof using All.
  intros Hrep Hb. rewrite (rep_start _ _ _ _ _ Hrep), length_starts.
  destruct p as [|k p]; [done|]. apply (GenerateFilter_represents policy max_keys); [done|].
  destruct Hrep as [_ _ _ _ <-]. rewrite concat_app in Hb. len.
Qed.

Lemma Finish_result b :
  exists offs, let b' := if (length (start_ b) =? 0)%nat then b else GenerateFilter policy b in
  result_ (Finish policy b) = result_ b' ++ offs.
Proof.
  unfold Finish. eexists. cbn zeta. simpl. rewrite fold_PutFixed32. unfold PutFixed32.
  rewrite <- !app_assoc. done.
Qed.

Lemma Finish_represents b g p added :
  represents policy b g p added -> size_of (concat added) < 2 ^ 32 ->
  size_of (result_ (Finish policy b)) < 2 ^ 32 ->
  let filters := map (filter_of policy) (final_groups g p) in
  size_of (concat filters) < 2 ^ 32 /\ result_ (Finish policy b) = filter_block filters.
Proof using All.
  intros Hrep Hb Hsz filters. pose proof (flush_represents _ _ _ _ Hrep Hb) as [_ _ Hr Ho _].
  destruct (Finish_result b) as [offs E]. cbn zeta in E. rewrite E, Hr in Hsz.
  change (concat (map (filter_of policy) (final_groups g p))) with (concat filters) in Hsz, Hr.
  change (map (filter_of policy) (final_groups g p)) with filters in Ho.
  assert (Hf : size_of (concat filters) < 2 ^ 32) by len. split; [done|].
  unfold Finish. simpl. rewrite Ho, Hr.
  rewrite map_u32_starts, u32_small by (done || (split; [apply size_of_nonneg|done])).
  rewrite fold_PutFixed32. unfold PutFixed32, filter_block.
  rewrite map_app, concat_app. cbn [map concat]. by rewrite app_nil_r, <- !app_assoc.
Qed.

Lemma located_final g p i k :
  located g p i k -> exists ks, final_groups g p !! i = Some ks /\ k ∈ ks.
Proof.
  intros Hloc. destruct p as [|x p].
  - destruct Hloc as [?|[_ ?%not_elem_of_nil]]; done.
  - apply located_generate in Hloc as [?|[_ ?%not_elem_of_nil]]; done.
Qed.

Lemma concat_final_groups g p : concat (final_groups g p) = concat g ++ p.
Proof.
  destruct p; simpl; [by rewrite app_nil_r|]. rewrite concat_app. simpl. by rewrite app_nil_r.
Qed.

Lemma elem_size_concat {A} (l : list (list A)) x : x ∈ l -> size_of x <= size_of (concat l).
Proof.
  intros (l1 & l2 & ->)%list_elem_of_split. rewrite concat_app. simpl. len.
Qed.

Lemma filter_block_range filters :
  size_of (concat filters) < 2 ^ 32 ->
  Forall (fun z => 0 <= z < 2 ^ 32) (starts 0 filters ++ [size_of (concat filters)]).
Proof.
  intros Hsz. rewrite Forall_app, Forall_singleton. pose proof (size_of_nonneg (concat filters)).
  split; [|lia]. rewrite Forall_forall. intros z Hz%starts_bound. lia.
Qed.

Lemma filter_block_split filters :
  exists body, filter_block filters =
    body ++ EncodeFixed32 (size_of (concat filters)) ++ [z2b kFilterBaseLg] /\
    size_of body = size_of (concat filters) + 4 * size_of filters.
Proof.
  exists (concat filters ++ concat (map EncodeFixed32 (starts 0 filters))). split.
  - unfold filter_block. rewrite map_app, concat_app. cbn [map concat].
    by rewrite app_nil_r, <- !app_assoc.
  - unfold size_of. rewrite length_app, length_concat_fixed32, length_starts. lia.
Qed.

Lemma FilterBlockReader_make_block filters :
  size_of (concat filters) < 2 ^ 32 ->
  FilterBlockReader_make (filter_block filters) =
  mkFilterBlockReader (Some (filter_block filters)) (size_of (concat filters))
    (size_of filters) kFilterBaseLg.
Proof.
  intros Hsz. destruct (filter_block_split filters) as (body & E & Hbody).
  pose proof (size_of_nonneg (concat filters)). pose proof (size_of_nonneg filters).
  pose proof (length_EncodeFixed32 (size_of (concat filters))) as Hl.
  assert (Hn : size_of (filter_block filters) = size_of body + 5)
    by (rewrite E; unfold size_of at 1 3; rewrite !length_app, Hl; simpl; lia).
  unfold FilterBlockReader_make. rewrite Hn.
  destruct (Z.ltb_spec (size_of body + 5) 5); [lia|].
  replace (nth _ _ _) with (z2b kFilterBaseLg).
  2:{ rewrite E, app_assoc, app_nth2 by (rewrite length_app, Hl; unfold size_of; lia).
      rewrite length_app, Hl. by replace (Z.to_nat _ - _)%nat with O by (unfold size_of; lia). }
  replace (DecodeFixed32 _) with (size_of (concat filters)).
  2:{ rewrite E, drop_app_exact by (unfold size_of; lia).
      by rewrite DecodeFixed32_Encode. }
  destruct (Z.gtb_spec (size_of (concat filters)) (size_of body + 5 - 5)); [lia|].
  rewrite z2b_small by done. f_equal.
  replace (_ - 5 - _) with (size_of filters * 4) by lia. by rewrite Z.div_mul.
Qed.

Lemma KeyMayMatch_block filters i filter key off :
  size_of (concat filters) < 2 ^ 32 -> filters !! i = Some filter ->
  0 <= off -> Z.of_nat i = off / kFilterBase ->
  FilterBlockReader_KeyMayMatch policy (FilterBlockReader_make (filter_block filters)) off key
  = KeyMayMatch policy key filter.
Proof.
  intros Hsz Hi Hoff Hidx. pose proof (filter_block_range _ Hsz) as Hrange.
  rewrite FilterBlockReader_make_block by done. unfold FilterBlockReader_KeyMayMatch. simpl.
  rewrite shiftr_div by done. change (2 ^ kFilterBaseLg) with kFilterBase. rewrite <- Hidx.
  pose proof (lookup_lt_Some _ _ _ Hi).
  destruct (Z.ltb_spec (Z.of_nat i) (size_of filters)); [|unfold size_of in *; lia].
  assert (Hat : forall j, (j <= length filters)%nat ->
    DecodeFixed32 (drop (Z.to_nat (size_of (concat filters) + Z.of_nat j * 4)) (filter_block filters))
    = size_of (concat (take j filters))).
  { intros j Hj. unfold filter_block.
    replace (Z.to_nat _) with (length (concat filters) + 4 * j)%nat by (unfold size_of; lia).
    rewrite <- drop_drop, drop_app_length, DecodeFixed32_array;
      [|rewrite length_app, length_starts; simpl; lia|done].
    rewrite (starts_nth 0) by done. lia. }
  rewrite Hat by lia. replace (Z.of_nat i * 4 + 4) with (Z.of_nat (S i) * 4) by lia.
  rewrite Hat by lia. rewrite (concat_take_S _ _ filter) by done.
  pose proof (size_of_nonneg filter). pose proof (size_concat_take filters (S i)).
  rewrite (concat_take_S _ _ filter) in * by done.
  destruct (Z.leb_spec (size_of (concat (take i filters)))
    (size_of (concat (take i filters)) + size_of filter)); [|lia].
  destruct (Z.leb_spec (size_of (concat (take i filters)) + size_of filter)
    (size_of (concat filters))); [|lia]. simpl. f_equal.
  replace (Z.to_nat _) with (length filter) by (unfold size_of; lia).
  unfold size_of. rewrite Nat2Z.id. by apply concat_part.
Qed.
End ReaderSpec.

(** No false negative. *)
Lemma no_false_negative policy max_keys blocks off keys key
    `{FilterPolicyLaws policy max_keys} :
  StronglySorted (fun x y => x.1 <= y.1) blocks ->
  Forall (fun blk => 0 <= blk.1) blocks ->
  size_of (block_keys blocks) <= max_keys ->
  size_of (concat (block_keys blocks)) < 2 ^ 32 ->
  size_of (build_filter_block policy blocks) < 2 ^ 32 ->
  (off, keys) ∈ blocks -> key ∈ keys ->
  FilterBlockReader_KeyMayMatch policy
    (FilterBlockReader_make (build_filter_block policy blocks)) off key = true.
Proof.
  intros Hsorted Hoffs Hmax Hb32 Hsz Hblk Hkey.
  assert (Hoff : 0 <= off) by (rewrite Forall_forall in Hoffs; by apply (Hoffs (off, keys))).
  assert (Hidx : 0 <= off / kFilterBase) by (by apply Z.div_pos).
  destruct (add_blocks_represents policy max_keys blocks FilterBlockBuilder_make [] [] [])
    as (g & p & Hrep & _ & Hloc); [done|done| |done|].
  { eapply Forall_impl; [exact Hoffs|]. intros blk ?. by apply Z.div_pos. }
  rewrite app_nil_l in Hrep.
  destruct (located_final _ _ _ _ (Hloc _ _ Hblk Hkey)) as (ks & Hks & Hin).
  cbn [fst] in Hks. assert (Hcount : size_of ks <= max_keys).
  { transitivity (size_of (block_keys blocks)); [|done].
    destruct Hrep as [_ _ _ _ <-]. rewrite <- concat_final_groups.
    apply elem_size_concat. by eapply list_elem_of_lookup_2. }
  destruct (Finish_represents policy max_keys _ _ _ _ Hrep Hb32 Hsz) as [Hf E].
  unfold build_filter_block. rewrite E.
  rewrite (KeyMayMatch_block policy _ (Z.to_nat (off / kFilterBase)) (filter_of policy ks));
    [|done|by rewrite list_lookup_fmap, Hks|done|cbn [fst]; lia].
  destruct ks as [|k0 ks]; [by apply not_elem_of_nil in Hin|].
  by apply KeyMayMatch_created.
Qed.

(** ** Properties *)

(** C30: a table's filter block has no false negative.  For any filter policy that
    keeps its promise, when the blocks of a table are added in order of their
    offsets and the sizes fit in 32 bits, the reader opened on the finished block
    answers that a key may be present in the data block at an offset, for every
    key that was added for that block. *)
Theorem filter_block_no_false_negative policy max_keys blocks off keys key
    `{FilterPolicyLaws policy max_keys} :
  StronglySorted (fun x y => x.1 <= y.1) blocks ->
  Forall (fun blk => 0 <= blk.1) blocks ->
  size_of (block_keys blocks) <= max_keys ->
  size_of (concat (block_keys blocks)) < 2 ^ 32 ->
  size_of (build_filter_block policy blocks) < 2 ^ 32 ->
  (off, keys) ∈ blocks -> key ∈ keys ->
  FilterBlockReader_KeyMayMatch policy
    (FilterBlockReader_make (build_filter_block policy blocks)) off key = true.
Proof. by apply no_false_negative. Qed.

Lemma filter_block_no_false_negative_witness :
  let policy := NewBloomFilterPolicy 10 in
  let blocks := [(0, [str "a"; str "b"]); (1000, [str "c"]); (9000, [str "d"; str "e"])] in
  FilterBlockReader_KeyMayMatch policy
    (FilterBlockReader_make (build_filter_block policy blocks)) 9000 (str "e") = true /\
  FilterBlockReader_KeyMayMatch policy
    (FilterBlockReader_make (build_filter_block policy blocks)) 9000 (str "a") = false.
Proof.
  intros policy blocks. split; [|vm_compute; reflexivity].
  pose proof (BloomFilterPolicy_laws 10 ltac:(lia)) as Hlaws.
  apply (filter_block_no_false_negative policy ((2 ^ 32 - 8) / 10) blocks 9000
    [str "d"; str "e"] (str "e")).
  - repeat constructor; simpl; lia.
  - repeat constructor; simpl; lia.
  - vm_compute. discriminate.
  - vm_compute. reflexivity.
  - vm_compute. reflexivity.
  - right. right. left.
  - right. left.
Defined.
