(* ===== verification/DbFormat.v ===== *)
(** * DbFormat: internal keys

    Models [db/dbformat.h] and [db/dbformat.cpp]: user keys tagged with a
    sequence number and a type, their order for any user comparator, lookup
    keys, and the filter policy on internal keys.  The functions are total: on
    keys shorter than eight bytes, where the source asserts, they use the bytes
    there are. *)

From S2P Require Import Prelude Coding Slice Logging Comparator FilterPolicy.

(** ** Constants and types *)

Definition kNumLevels : Z := 7.
Definition kL0_CompactionTrigger : Z := 4.
Definition kL0_SlowdownWritesTrigger : Z := 8.
Definition kL0_StopWritesTrigger : Z := 12.
Definition kMaxMemCompactLevel : Z := 2.
Definition kReadBytesPeriod : Z := 1048576.

Inductive ValueType : Type := kTypeDeletion | kTypeValue.

#[export] Instance ValueType_eq_dec : EqDecision ValueType.
Proof. solve_decision. Defined.

Definition value_type_code (t : ValueType) : Z :=
  match t with kTypeDeletion => 0x0 | kTypeValue => 0x1 end.

Definition kValueTypeForSeek : ValueType := kTypeValue.
Definition kMaxSequenceNumber : Z := Z.shiftl 0x1 56 - 1.

(** The [type] of a parsed key is an unsigned char cast to the enumeration, in
    which other values than the two constants can occur. *)
Record ParsedInternalKey : Type := mkParsedInternalKey {
  user_key : bytes;
  sequence : Z;
  type : Z
}.

Definition InternalKeyEncodingLength (key : ParsedInternalKey) : Z :=
  usize (size_of (user_key key) + 8).

Definition PackSequenceAndType (seq : Z) (t : Z) : Z := Z.lor (u64 (Z.shiftl seq 8)) t.

Definition AppendInternalKey (result : bytes) (key : ParsedInternalKey) : bytes :=
  PutFixed64 (result ++ user_key key) (PackSequenceAndType (sequence key) (type key)).

(** [internal_key.data() + n - 8]. *)
Definition tag_bytes (internal_key : bytes) : bytes :=
  drop (length internal_key - 8) internal_key.

Definition ExtractUserKey (internal_key : bytes) : bytes :=
  take (length internal_key - 8) internal_key.

Definition ExtractValueType (internal_key : bytes) : Z :=
  let num := DecodeFixed64 (tag_bytes internal_key) in Z.land num 0xff.

(** [None] when the function returns [false]; [*result] is not used then. *)
Definition ParseInternalKey (internal_key : bytes) : option ParsedInternalKey :=
  let n := size_of internal_key in
  if n <? 8 then None
  else
    let num := DecodeFixed64 (tag_bytes internal_key) in
    let c := Z.land num 0xff in
    let result := mkParsedInternalKey (ExtractUserKey internal_key) (Z.shiftr num 8) c in
    if c <=? value_type_code kTypeValue then Some result else None.

(** [InternalKey]: its [rep_]. *)
Definition InternalKey_make (user_key : bytes) (s : Z) (t : ValueType) : bytes :=
  AppendInternalKey [] (mkParsedInternalKey user_key s (value_type_code t)).

Definition ParsedInternalKey_DebugString (k : ParsedInternalKey) : bytes :=
  let buf := take 49 (str "' @ " ++ print_llu (sequence k) ++ str " : " ++ print_d (type k)) in
  str "'" ++ EscapeString (user_key k) ++ buf.

Definition InternalKey_DebugString (rep : bytes) : bytes :=
  match ParseInternalKey rep with
  | Some parsed => ParsedInternalKey_DebugString parsed
  | None => str "(bad)" ++ EscapeString rep
  end.

(** ** The comparator of internal keys *)

Section InternalKeyComparator.
Context (user_comparator_ : Comparator).

Definition InternalKey_Compare (akey bkey : bytes) : comparison :=
  match Compare user_comparator_ (ExtractUserKey akey) (ExtractUserKey bkey) with
  | Eq =>
      let anum := DecodeFixed64 (tag_bytes akey) in
      let bnum := DecodeFixed64 (tag_bytes bkey) in
      if anum >? bnum then Lt
      else if anum <? bnum then Gt
      else Eq
  | r => r
  end.

(** The tag put after a shortened user key. *)
Definition seek_tag : Z :=
  PackSequenceAndType kMaxSequenceNumber (value_type_code kValueTypeForSeek).

Definition InternalKey_FindShortestSeparator (start limit : bytes) : bytes :=
  let user_start := ExtractUserKey start in
  let user_limit := ExtractUserKey limit in
  let tmp := FindShortestSeparator user_comparator_ user_start user_limit in
  if (size_of tmp <? size_of user_start) &&
     match Compare user_comparator_ user_start tmp with Lt => true | _ => false end
  then PutFixed64 tmp seek_tag
  else start.

Definition InternalKey_FindShortSuccessor (key : bytes) : bytes :=
  let user_key := ExtractUserKey key in
  let tmp := FindShortSuccessor user_comparator_ user_key in
  if (size_of tmp <? size_of user_key) &&
     match Compare user_comparator_ user_key tmp with Lt => true | _ => false end
  then PutFixed64 tmp seek_tag
  else key.

Definition InternalKeyComparator : Comparator := {|
  Name := str "leveldb.InternalKeyComparator";
  Compare := InternalKey_Compare;
  FindShortestSeparator := InternalKey_FindShortestSeparator;
  FindShortSuccessor := InternalKey_FindShortSuccessor
|}.
End InternalKeyComparator.

(** ** The filter policy on internal keys *)

(** [CreateFilter] overwrites the caller's array of keys with the user keys; its
    only caller clears that array next, so only the filter is modelled. *)
Definition InternalFilterPolicy (user_policy_ : FilterPolicy) : FilterPolicy := {|
  policy_Name := policy_Name user_policy_;
  CreateFilter keys dst := CreateFilter user_policy_ (map ExtractUserKey keys) dst;
  KeyMayMatch key f := KeyMayMatch user_policy_ (ExtractUserKey key) f
|}.

(** ** Lookup keys *)

(** The array a lookup key holds and the distance from [start_] to [kstart_]. *)
Record LookupKey : Type := mkLookupKey { lk_rep : bytes; lk_kstart : nat }.

Definition LookupKey_make (user_key : bytes) (s : Z) : LookupKey :=
  let usize := size_of user_key in
  let prefix := EncodeVarint32 (u32 (usize + 8)) in
  mkLookupKey
    (prefix ++ user_key ++ EncodeFixed64 (PackSequenceAndType s (value_type_code kValueTypeForSeek)))
    (length prefix).

Definition LookupKey_memtable_key (k : LookupKey) : bytes := lk_rep k.
Definition LookupKey_internal_key (k : LookupKey) : bytes := drop (lk_kstart k) (lk_rep k).
Definition LookupKey_user_key (k : LookupKey) : bytes :=
  take (length (lk_rep k) - lk_kstart k - 8) (drop (lk_kstart k) (lk_rep k)).

(** ** Tags *)

Lemma PackSequenceAndType_value seq t :
  0 <= seq <= kMaxSequenceNumber -> 0 <= t < 256 -> PackSequenceAndType seq t = seq * 256 + t.
Proof.
  intros Hs Ht. unfold PackSequenceAndType, kMaxSequenceNumber in *.
  change (Z.shiftl 1 56 - 1) with (2 ^ 56 - 1) in Hs.
  rewrite Z.lor_comm, u64_small by (rewrite Z.shiftl_mul_pow2; lia).
  rewrite lor_disjoint_add by lia. lia.
Qed.

Lemma PackSequenceAndType_range seq t :
  0 <= seq <= kMaxSequenceNumber -> 0 <= t < 256 -> 0 <= PackSequenceAndType seq t < 2 ^ 64.
Proof.
  intros Hs Ht. rewrite PackSequenceAndType_value by done. unfold kMaxSequenceNumber in *.
  change (Z.shiftl 1 56 - 1) with (2 ^ 56 - 1) in Hs. lia.
Qed.

Lemma value_type_code_range t : 0 <= value_type_code t < 2.
Proof. destruct t; simpl; lia. Qed.

(** An internal key: a user key followed by the eight bytes of a tag. *)
Lemma ExtractUserKey_app u tag : length tag = 8%nat -> ExtractUserKey (u ++ tag) = u.
Proof. intros. unfold ExtractUserKey. apply take_app_exact. len. Qed.
Lemma tag_bytes_app u tag : length tag = 8%nat -> tag_bytes (u ++ tag) = tag.
Proof. intros. unfold tag_bytes. apply drop_app_exact. len. Qed.
Lemma ExtractUserKey_PutFixed64 u v : ExtractUserKey (PutFixed64 u v) = u.
Proof. apply ExtractUserKey_app, length_EncodeFixed64. Qed.

Lemma DecodeFixed64_tag_PutFixed64 u v :
  0 <= v < 2 ^ 64 -> DecodeFixed64 (tag_bytes (PutFixed64 u v)) = v.
Proof.
  intros. unfold PutFixed64. rewrite tag_bytes_app by apply length_EncodeFixed64.
  rewrite <- (app_nil_r (EncodeFixed64 v)). by apply DecodeFixed64_Encode.
Qed.

Lemma InternalKey_make_PutFixed64 u s t :
  InternalKey_make u s t = PutFixed64 u (PackSequenceAndType s (value_type_code t)).
Proof. done. Qed.

(** A key is a user key and a tag. *)
Lemma internal_key_split k : ExtractUserKey k ++ tag_bytes k = k.
Proof. apply take_drop. Qed.

Lemma ParseInternalKey_make u s t :
  0 <= s <= kMaxSequenceNumber ->
  ParseInternalKey (InternalKey_make u s t) = Some (mkParsedInternalKey u s (value_type_code t)).
Proof.
  intros Hs. rewrite InternalKey_make_PutFixed64. pose proof (value_type_code_range t) as Ht.
  unfold ParseInternalKey. rewrite ExtractUserKey_PutFixed64, DecodeFixed64_tag_PutFixed64
    by (apply PackSequenceAndType_range; lia).
  rewrite PackSequenceAndType_value, land_255, shiftr_div by lia.
  change (2 ^ 8) with 256.
  replace ((s * 256 + value_type_code t) mod 256) with (value_type_code t) by dlia.
  replace ((s * 256 + value_type_code t) / 256) with s by dlia.
  destruct (Z.ltb_spec (size_of (PutFixed64 u (s * 256 + value_type_code t))) 8).
  - exfalso. unfold PutFixed64 in *. len.
  - destruct t; done.
Qed.

(** ** The internal comparator satisfies the laws of comparators *)

Section InternalLaws.
Context (ucmp : Comparator) `{!ComparatorLaws ucmp}.

Lemma InternalKey_Compare_spec a b :
  InternalKey_Compare ucmp a b =
  match Compare ucmp (ExtractUserKey a) (ExtractUserKey b) with
  | Eq => DecodeFixed64 (tag_bytes b) ?= DecodeFixed64 (tag_bytes a)
  | r => r
  end.
Proof.
  unfold InternalKey_Compare. destruct (Compare ucmp _ _); try done.
  destruct (Z.compare_spec (DecodeFixed64 (tag_bytes b)) (DecodeFixed64 (tag_bytes a))),
    (Z.gtb_spec (DecodeFixed64 (tag_bytes a)) (DecodeFixed64 (tag_bytes b))),
    (Z.ltb_spec (DecodeFixed64 (tag_bytes a)) (DecodeFixed64 (tag_bytes b))); done || lia.
Qed.

Lemma InternalKey_Compare_user_lt a b :
  Compare ucmp (ExtractUserKey a) (ExtractUserKey b) = Lt -> InternalKey_Compare ucmp a b = Lt.
Proof. intros E. unfold InternalKey_Compare. by rewrite E. Qed.

#[export] Instance InternalKeyComparator_laws : ComparatorLaws (InternalKeyComparator ucmp).
Proof using All.
  split; simpl.
  - intros a b. rewrite !InternalKey_Compare_spec.
    rewrite (compare_antisym (ExtractUserKey a) (ExtractUserKey b)).
    destruct (Compare ucmp (ExtractUserKey a) _); simpl; [|done..]. apply Z.compare_antisym.
  - intros a b d. rewrite !InternalKey_Compare_spec. intros H1 H2.
    destruct (Compare ucmp (ExtractUserKey a) (ExtractUserKey b)) eqn:E1;
      [| |done]; destruct (Compare ucmp (ExtractUserKey b) (ExtractUserKey d)) eqn:E2; try done.
    + assert (key_equiv ucmp (ExtractUserKey a) (ExtractUserKey d)) as -> by
        (by transitivity (ExtractUserKey b)). rewrite compare_refl. exact (Z.le_trans _ _ _ H2 H1).
    + assert (Compare ucmp (ExtractUserKey a) (ExtractUserKey d) = Lt) as -> by
        (apply (compare_le_lt_trans _ (ExtractUserKey b)); [by rewrite E1|done]). done.
    + assert (Compare ucmp (ExtractUserKey a) (ExtractUserKey d) = Lt) as -> by
        (apply (compare_lt_le_trans _ (ExtractUserKey b)); [done|by rewrite E2]). done.
    + assert (Compare ucmp (ExtractUserKey a) (ExtractUserKey d) = Lt) as -> by
        (by apply (compare_lt_trans _ (ExtractUserKey b))). done.
  - intros start limit. unfold InternalKey_FindShortestSeparator.
    destruct (_ && _) eqn:E; [right|by left]. apply andb_prop in E as [Hs E].
    destruct (Compare ucmp (ExtractUserKey start) _) eqn:E1; try done.
    destruct (separator_between (c := ucmp) (ExtractUserKey start) (ExtractUserKey limit))
      as [Esep|[_ E2]].
    { rewrite Esep, compare_refl in E1. done. }
    split; apply InternalKey_Compare_user_lt; by rewrite ExtractUserKey_PutFixed64.
  - intros key. unfold InternalKey_FindShortSuccessor.
    destruct (_ && _) eqn:E; [right|by left]. apply andb_prop in E as [Hs E].
    destruct (Compare ucmp (ExtractUserKey key) _) eqn:E1; try done.
    apply InternalKey_Compare_user_lt. by rewrite ExtractUserKey_PutFixed64.
Qed.

Lemma PutFixed64_short key tmp v : size_of tmp < size_of (ExtractUserKey key) -> size_of (PutFixed64 tmp v) <= size_of key.
Proof.
  unfold PutFixed64, ExtractUserKey. rewrite size_of_app, size_of_EncodeFixed64. unfold size_of. rewrite length_take. lia.
Qed.

#[export] Instance InternalKeyComparator_short : ShorteningLaws (InternalKeyComparator ucmp).
Proof.
  split.
  - intros start limit. simpl. unfold InternalKey_FindShortestSeparator. destruct (_ && _) eqn:E; [|lia].
    apply andb_prop in E as [Hs%Z.ltb_lt _]. by apply PutFixed64_short.
  - intros key. simpl. unfold InternalKey_FindShortSuccessor. destruct (_ && _) eqn:E; [|lia].
    apply andb_prop in E as [Hs%Z.ltb_lt _]. by apply PutFixed64_short.
Qed.

(** Entries of one user key are ordered from the newest to the oldest. *)
Lemma InternalKey_Compare_same_user u v a b :
  Compare ucmp u v = Eq -> 0 <= a < 2 ^ 64 -> 0 <= b < 2 ^ 64 ->
  InternalKey_Compare ucmp (PutFixed64 u a) (PutFixed64 v b) = (b ?= a).
Proof.
  intros E Ha Hb. rewrite InternalKey_Compare_spec, !ExtractUserKey_PutFixed64, E.
  by rewrite !DecodeFixed64_tag_PutFixed64.
Qed.
End InternalLaws.

#[export] Instance InternalFilterPolicy_laws p max_keys `{FilterPolicyLaws p max_keys} :
  FilterPolicyLaws (InternalFilterPolicy p) max_keys.
Proof.
  split; simpl.
  - intros. apply CreateFilter_appends.
  - intros keys k Hk Hsz. apply KeyMayMatch_created.
    + apply list_elem_of_fmap. by exists k.
    + unfold size_of in *. by rewrite length_map.
Qed.

Lemma LookupKey_parts u s :
  size_of u + 8 < 2 ^ 32 ->
  LookupKey_internal_key (LookupKey_make u s) = InternalKey_make u s kTypeValue /\
  LookupKey_user_key (LookupKey_make u s) = u /\
  LookupKey_memtable_key (LookupKey_make u s) = length_prefixed (InternalKey_make u s kTypeValue).
Proof.
  intros Hu. unfold LookupKey_internal_key, LookupKey_user_key, LookupKey_memtable_key.
  simpl. rewrite InternalKey_make_PutFixed64. unfold PutFixed64.
  set (tag := EncodeFixed64 _). assert (length tag = 8%nat) as Htag by apply length_EncodeFixed64.
  rewrite drop_app_length. split; [done|]. split.
  - rewrite take_app_exact by len. done.
  - unfold length_prefixed. do 3 f_equal. len.
Qed.

(** ** Properties *)

(** An internal key made of a user key, a sequence number of 56 bits and a
    type parses back to exactly these; bytes shorter than a tag, and tags with an
    unknown type, are rejected. *)
Theorem internal_key_roundtrip u s t :
  0 <= s <= kMaxSequenceNumber ->
  let rep := AppendInternalKey [] (mkParsedInternalKey u s (value_type_code t)) in
  ParseInternalKey rep = Some (mkParsedInternalKey u s (value_type_code t)) /\
  ExtractUserKey rep = u /\ ExtractValueType rep = value_type_code t /\
  size_of rep = size_of u + 8 /\
  (forall k, (length k < 8)%nat -> ParseInternalKey k = None) /\
  (forall c, 1 < c < 256 -> ParseInternalKey (PutFixed64 u (PackSequenceAndType s c)) = None).
Proof.
  intros Hs rep. pose proof (value_type_code_range t) as Ht. split_and!.
  - by apply ParseInternalKey_make.
  - apply ExtractUserKey_PutFixed64.
  - unfold ExtractValueType, rep, AppendInternalKey. simpl.
    rewrite DecodeFixed64_tag_PutFixed64 by (apply PackSequenceAndType_range; lia).
    rewrite PackSequenceAndType_value, land_255 by lia. dlia.
  - unfold rep, AppendInternalKey, PutFixed64. simpl. len.
  - intros k Hk. unfold ParseInternalKey. destruct (Z.ltb_spec (size_of k) 8); [done|len].
  - intros c Hc. unfold ParseInternalKey.
    rewrite DecodeFixed64_tag_PutFixed64 by (apply PackSequenceAndType_range; lia).
    rewrite PackSequenceAndType_value, land_255 by lia.
    replace ((s * 256 + c) mod 256) with c by dlia. simpl.
    destruct (Z.leb_spec c 1); [lia|]. by destruct (_ <? 8).
Qed.

Lemma internal_key_roundtrip_witness :
  ParseInternalKey (InternalKey_make (str "user") 7 kTypeValue)
  = Some (mkParsedInternalKey (str "user") 7 1).
Proof.
  destruct (internal_key_roundtrip (str "user") 7 kTypeValue) as (H & _); [|exact H].
  split; vm_compute; discriminate.
Defined.

(** C29: for any user comparator that satisfies the laws of comparators, the
    internal comparator satisfies them too (total order, separators and
    successors between the keys); keys of different user keys are ordered as the
    user keys, and among the entries of one user key a higher sequence number
    comes first and, with the same sequence number, a higher type, so that seeking the internal key of a lookup at [s] passes
    exactly the entries newer than [s]. *)
Theorem internal_key_order ucmp u v s1 s2 t1 t2 `{!ComparatorLaws ucmp} :
  0 <= s1 <= kMaxSequenceNumber -> 0 <= s2 <= kMaxSequenceNumber ->
  ComparatorLaws (InternalKeyComparator ucmp) /\
  (Compare ucmp u v <> Eq ->
   InternalKey_Compare ucmp (InternalKey_make u s1 t1) (InternalKey_make v s2 t2) = Compare ucmp u v) /\
  (Compare ucmp u v = Eq -> s1 > s2 ->
   InternalKey_Compare ucmp (InternalKey_make u s1 t1) (InternalKey_make v s2 t2) = Lt) /\
  (Compare ucmp u v = Eq -> size_of v + 8 < 2 ^ 32 ->
   (InternalKey_Compare ucmp (InternalKey_make u s1 t1)
      (LookupKey_internal_key (LookupKey_make v s2)) = Lt <-> s1 > s2)) /\
  (Compare ucmp u v = Eq ->
   InternalKey_Compare ucmp (InternalKey_make u s1 t1) (InternalKey_make v s2 t2) =
   match s2 ?= s1 with Eq => value_type_code t2 ?= value_type_code t1 | r => r end).
Proof.
  intros H1 H2. split; [exact _|].
  assert (Hcmp : Compare ucmp u v = Eq -> forall t t',
    InternalKey_Compare ucmp (InternalKey_make u s1 t) (InternalKey_make v s2 t') =
    (s2 * 256 + value_type_code t' ?= s1 * 256 + value_type_code t)).
  { intros E t t'. pose proof (value_type_code_range t). pose proof (value_type_code_range t').
    rewrite !InternalKey_make_PutFixed64, InternalKey_Compare_same_user
      by (done || (apply PackSequenceAndType_range; lia)).
    by rewrite !PackSequenceAndType_value by lia. }
  split_and!.
  - intros E. rewrite InternalKey_Compare_spec, !InternalKey_make_PutFixed64,
      !ExtractUserKey_PutFixed64. by destruct (Compare ucmp u v).
  - intros E Hgt. rewrite Hcmp by done. apply Z.compare_lt_iff.
    pose proof (value_type_code_range t1). pose proof (value_type_code_range t2). lia.
  - intros E Hv. destruct (LookupKey_parts v s2 Hv) as [-> _]. rewrite Hcmp by done.
    rewrite Z.compare_lt_iff. pose proof (value_type_code_range t1). simpl value_type_code at 1.
    lia.
  - intros E. rewrite Hcmp by done. pose proof (value_type_code_range t1). pose proof (value_type_code_range t2).
    destruct (Z.compare_spec s2 s1) as [->|Hlt|Hgt].
    + apply Z.add_compare_mono_l.
    + apply Z.compare_lt_iff. lia.
    + apply Z.compare_gt_iff. lia.
Qed.

Lemma internal_key_order_witness :
  InternalKey_Compare BytewiseComparator (InternalKey_make (str "k") 9 kTypeDeletion)
    (InternalKey_make (str "k") 5 kTypeValue) = Lt /\
  InternalKey_Compare BytewiseComparator (InternalKey_make (str "k") 9 kTypeDeletion)
    (InternalKey_make (str "k") 9 kTypeValue) = Gt.
Proof.
  split.
  2:{ destruct (internal_key_order BytewiseComparator (str "k") (str "k") 9 9 kTypeDeletion kTypeValue) as (_ & _ & _ & _ & H); [split; vm_compute; discriminate..|].
      rewrite H by (vm_compute; reflexivity). reflexivity. }
  destruct (internal_key_order BytewiseComparator (str "k") (str "k") 9 5 kTypeDeletion kTypeValue)
    as (_ & _ & H & _).
  - split; vm_compute; discriminate.
  - split; vm_compute; discriminate.
  - apply H; [vm_compute; reflexivity|lia].
Defined.
