(* ===== verification/WriteBatch.v ===== *)
(** * WriteBatch: the serialized form of a group of updates

    Models [db/write_batch.cpp] and [db/write_batch_internal.h].  A batch is its
    [rep_]; a handler is a pair of state transformers, which [Iterate] applies in
    order. *)

From S2P Require Import Prelude Coding Slice DbFormat.

(** WriteBatch header has an 8-byte sequence number followed by a 4-byte count. *)
Definition kHeader : nat := 12.

Abbreviation WriteBatch := bytes.

(** ** Operations on the representation *)

(** [rep_.clear(); rep_.resize(kHeader)]. *)
Definition Clear : WriteBatch := replicate kHeader Byte.x00.

Definition Count (b : WriteBatch) : Z := i32 (DecodeFixed32 (drop 8 b)).
Definition SetCount (b : WriteBatch) (n : Z) : WriteBatch := write_at 8 (EncodeFixed32 (u32 n)) b.
Definition Sequence (b : WriteBatch) : Z := DecodeFixed64 b.
Definition SetSequence (b : WriteBatch) (seq : Z) : WriteBatch := write_at 0 (EncodeFixed64 seq) b.
Definition Contents (b : WriteBatch) : bytes := b.
Definition ByteSize (b : WriteBatch) : Z := size_of b.
Definition SetContents (b : WriteBatch) (contents : bytes) : WriteBatch := contents.

Definition Put (b : WriteBatch) (key value : bytes) : WriteBatch :=
  let rep := SetCount b (Count b + 1) in
  let rep := rep ++ [z2b (value_type_code kTypeValue)] in
  let rep := PutLengthPrefixedSlice rep key in
  PutLengthPrefixedSlice rep value.

Definition Delete (b : WriteBatch) (key : bytes) : WriteBatch :=
  let rep := SetCount b (Count b + 1) in
  let rep := rep ++ [z2b (value_type_code kTypeDeletion)] in
  PutLengthPrefixedSlice rep key.

Definition Append (dst src : WriteBatch) : WriteBatch :=
  SetCount dst (Count dst + Count src) ++ drop kHeader src.

(** ** Iteration *)

Record Handler (S : Type) : Type := mkHandler {
  handler_Put : bytes -> bytes -> S -> S;
  handler_Delete : bytes -> S -> S
}.
Arguments mkHandler {S}.
Arguments handler_Put {S}.
Arguments handler_Delete {S}.

Section Iterate.
Context {S : Type} (handler : Handler S).

(** The [while (!input.empty())] loop.  An iteration consumes at least the tag
    byte, so the length of the input bounds the iterations.  The result is the
    handler's state with the error returned from the loop, or [found]. *)
Fixpoint Iterate_loop (fuel : nat) (input : bytes) (found : Z) (s : S) : S * (Status + Z) :=
  match fuel, input with
  | _, [] => (s, inr found)
  | O, _ => (s, inr found)
  | Datatypes.S fuel, tag :: input =>
      let found := found + 1 in
      if b2z tag =? value_type_code kTypeValue then
        match GetLengthPrefixedSlice input with
        | Some (key, input) =>
            match GetLengthPrefixedSlice input with
            | Some (value, input) =>
                Iterate_loop fuel input found (handler_Put handler key value s)
            | None => (s, inl (Corruption (str "bad WriteBatch Put") []))
            end
        | None => (s, inl (Corruption (str "bad WriteBatch Put") []))
        end
      else if b2z tag =? value_type_code kTypeDeletion then
        match GetLengthPrefixedSlice input with
        | Some (key, input) => Iterate_loop fuel input found (handler_Delete handler key s)
        | None => (s, inl (Corruption (str "bad WriteBatch Delete") []))
        end
      else (s, inl (Corruption (str "unknown WriteBatch tag") []))
  end.

Definition Iterate (b : WriteBatch) (s : S) : S * Status :=
  if size_of b <? Z.of_nat kHeader
  then (s, Corruption (str "malformed WriteBatch (too small)") [])
  else
    let input := drop kHeader b in
    match Iterate_loop (length input) input 0 s with
    | (s, inl error) => (s, error)
    | (s, inr found) =>
        if negb (found =? Count b)
        then (s, Corruption (str "WriteBatch has wrong count") [])
        else (s, OK)
    end.
End Iterate.

(** ** Insertion into a memtable *)

Section InsertInto.
Context {M : Type} (mem_Add : Z -> ValueType -> bytes -> bytes -> M -> M).

(** The state of a [MemTableInserter] is its [sequence_] and its [mem_]. *)
Definition MemTableInserter : Handler (Z * M) := {|
  handler_Put key value '(sequence, mem) :=
    (u64 (sequence + 1), mem_Add sequence kTypeValue key value mem);
  handler_Delete key '(sequence, mem) :=
    (u64 (sequence + 1), mem_Add sequence kTypeDeletion key [] mem)
|}.

Definition InsertInto (b : WriteBatch) (memtable : M) : M * Status :=
  let '((_, mem), s) := Iterate MemTableInserter b (Sequence b, memtable) in (mem, s).
End InsertInto.

(** ** What a batch stands for *)

Inductive BatchOp : Type := OpPut (key value : bytes) | OpDelete (key : bytes).

Definition apply_op (b : WriteBatch) (op : BatchOp) : WriteBatch :=
  match op with OpPut key value => Put b key value | OpDelete key => Delete b key end.

(** The handler that records its calls. *)
Definition Recorder : Handler (list BatchOp) := {|
  handler_Put key value ops := ops ++ [OpPut key value];
  handler_Delete key ops := ops ++ [OpDelete key]
|}.

(** A handler driven by a list of operations. *)
Definition run_op {S} (h : Handler S) (s : S) (op : BatchOp) : S :=
  match op with
  | OpPut key value => handler_Put h key value s
  | OpDelete key => handler_Delete h key s
  end.

Definition encode_op (op : BatchOp) : bytes :=
  match op with
  | OpPut key value =>
      z2b (value_type_code kTypeValue) :: length_prefixed key ++ length_prefixed value
  | OpDelete key => z2b (value_type_code kTypeDeletion) :: length_prefixed key
  end.

(** The batch with sequence number [seq] and operations [ops]. *)
Definition batch_rep (seq : Z) (ops : list BatchOp) : WriteBatch :=
  EncodeFixed64 seq ++ EncodeFixed32 (u32 (size_of ops)) ++ concat (map encode_op ops).

(** Strings whose sizes fit in the 32-bit length prefix. *)
Definition op_fits (op : BatchOp) : Prop :=
  match op with
  | OpPut key value => size_of key < 2 ^ 32 /\ size_of value < 2 ^ 32
  | OpDelete key => size_of key < 2 ^ 32
  end.

Lemma Clear_rep : Clear = batch_rep 0 [].
Proof. vm_compute. reflexivity. Qed.

Lemma length_batch_rep seq ops : (12 <= length (batch_rep seq ops))%nat.
Proof. unfold batch_rep. len. Qed.

Lemma drop_header_rep seq ops : drop kHeader (batch_rep seq ops) = concat (map encode_op ops).
Proof.
  unfold batch_rep, kHeader. rewrite app_assoc. apply drop_app_exact. len.
Qed.

Lemma Count_rep seq ops : size_of ops < 2 ^ 31 -> Count (batch_rep seq ops) = size_of ops.
Proof.
  intros. unfold Count, batch_rep. rewrite drop_app_exact by len.
  pose proof (size_of_nonneg ops). rewrite u32_small by lia.
  rewrite DecodeFixed32_Encode by lia. apply i32_small. lia.
Qed.

Lemma Sequence_rep seq ops : 0 <= seq < 2 ^ 64 -> Sequence (batch_rep seq ops) = seq.
Proof. intros. by apply DecodeFixed64_Encode. Qed.

Lemma SetCount_rep seq ops n :
  SetCount (batch_rep seq ops) n =
  EncodeFixed64 seq ++ EncodeFixed32 (u32 n) ++ concat (map encode_op ops).
Proof.
  unfold SetCount, write_at, batch_rep. rewrite take_app_exact by len. by do 2 f_equal.
Qed.

Lemma SetSequence_rep seq ops seq' : SetSequence (batch_rep seq ops) seq' = batch_rep seq' ops.
Proof.
  unfold SetSequence, write_at, batch_rep. f_equal.
Qed.

Lemma apply_op_rep seq ops op :
  size_of ops < 2 ^ 31 -> apply_op (batch_rep seq ops) op = batch_rep seq (ops ++ [op]).
Proof.
  intros Hops. assert (SetCount (batch_rep seq ops) (Count (batch_rep seq ops) + 1) ++ encode_op op
    = batch_rep seq (ops ++ [op])) as <-.
  { rewrite Count_rep, SetCount_rep by done. unfold batch_rep.
    rewrite size_of_app, map_app, concat_app, <- !app_assoc. cbn [map concat].
    by rewrite app_nil_r. }
  destruct op; simpl; unfold Put, Delete; rewrite !PutLengthPrefixedSlice_app, <- !app_assoc; done.
Qed.

Lemma apply_ops_rep seq ops ops' :
  size_of ops + size_of ops' <= 2 ^ 31 ->
  fold_left apply_op ops' (batch_rep seq ops) = batch_rep seq (ops ++ ops').
Proof.
  revert ops. induction ops' as [|op ops' IH]; intros ops Hsz; simpl; [by rewrite app_nil_r|].
  rewrite apply_op_rep, IH by len. by rewrite <- app_assoc.
Qed.

Lemma Append_rep seq ops seq' ops' :
  size_of ops < 2 ^ 31 -> size_of ops' < 2 ^ 31 ->
  Append (batch_rep seq ops) (batch_rep seq' ops') = batch_rep seq (ops ++ ops').
Proof.
  intros. unfold Append. rewrite !Count_rep, SetCount_rep, drop_header_rep by done.
  unfold batch_rep. by rewrite size_of_app, map_app, concat_app, <- !app_assoc.
Qed.

(** The loop hands every operation to the handler, in order. *)
Lemma Iterate_loop_ops {S} (h : Handler S) ops fuel found s :
  Forall op_fits ops -> (length (concat (map encode_op ops)) <= fuel)%nat ->
  Iterate_loop h fuel (concat (map encode_op ops)) found s =
  (fold_left (run_op h) ops s, inr (found + size_of ops)).
Proof.
  intros Hfits. revert fuel found s. induction Hfits as [|op ops Hop _ IH]; intros fuel found s Hf.
  - simpl. change (size_of (@nil BatchOp)) with 0. rewrite Z.add_0_r. by destruct fuel.
  - destruct op as [key value|key]; cbn [map concat encode_op app] in *;
      (destruct fuel as [|fuel]; [simpl in Hf; lia|]); cbn [Iterate_loop];
      rewrite !z2b_small by (simpl; lia); simpl (_ =? _); cbn iota;
      rewrite <- ?app_assoc in *; simpl in Hop.
    + rewrite !GetLengthPrefixedSlice_put, IH by (tauto || len).
      simpl. do 2 f_equal. len.
    + rewrite GetLengthPrefixedSlice_put, IH by (tauto || len).
      simpl. do 2 f_equal. len.
Qed.

Lemma Iterate_rep {S} (h : Handler S) seq ops s :
  Forall op_fits ops -> size_of ops < 2 ^ 31 ->
  Iterate h (batch_rep seq ops) s = (fold_left (run_op h) ops s, OK).
Proof.
  intros Hfits Hsz. unfold Iterate. pose proof (length_batch_rep seq ops).
  destruct (Z.ltb_spec (size_of (batch_rep seq ops)) (Z.of_nat kHeader));
    [unfold size_of, kHeader in *; lia|].
  rewrite drop_header_rep, Iterate_loop_ops, Count_rep, Z.add_0_l, Z.eqb_refl by done. done.
Qed.

Lemma Recorder_ops ops acc : fold_left (run_op Recorder) ops acc = acc ++ ops.
Proof.
  revert acc. induction ops as [|op ops IH]; intros acc; simpl; [by rewrite app_nil_r|].
  rewrite IH. destruct op; simpl; by rewrite <- app_assoc.
Qed.

(** On any bytes, the handler sees some list of operations; [found] counts them,
    and more fuel than bytes changes nothing. *)
Lemma Iterate_loop_any {S} (h : Handler S) fuel input found s :
  exists ops, fst (Iterate_loop h fuel input found s) = fold_left (run_op h) ops s /\
    match snd (Iterate_loop h fuel input found s) with
    | inr n => n = found + size_of ops
    | inl e => code e = kCorruption
    end.
Proof.
  revert input found s. induction fuel as [|fuel IH]; intros [|tag input] found s;
    try (exists []; simpl; split; [done|change (size_of (@nil BatchOp)) with 0; lia]).
  simpl. destruct (b2z tag =? 1).
  - destruct (GetLengthPrefixedSlice input) as [[key i1]|]; [|by exists []].
    destruct (GetLengthPrefixedSlice i1) as [[value i2]|]; [|by exists []].
    destruct (IH i2 (found + 1) (handler_Put h key value s)) as (ops & E1 & E2).
    exists (OpPut key value :: ops). split; [done|].
    destruct (snd _); [done|]. rewrite E2. len.
  - destruct (b2z tag =? 0); [|by exists []].
    destruct (GetLengthPrefixedSlice input) as [[key i1]|]; [|by exists []].
    destruct (IH i1 (found + 1) (handler_Delete h key s)) as (ops & E1 & E2).
    exists (OpDelete key :: ops). split; [done|].
    destruct (snd _); [done|]. rewrite E2. len.
Qed.

(** ** Properties *)

(** A batch built by any sequence of [Put] and [Delete] calls after [Clear]
    carries exactly these operations: [Iterate] hands them to any handler in the
    order of the calls and returns OK, [Count] is their number, setting the
    sequence number changes nothing else, and [Append] concatenates two
    batches. *)
Theorem write_batch_roundtrip {S} (h : Handler S) (s : S) ops ops' seq :
  Forall op_fits ops -> Forall op_fits ops' -> size_of ops + size_of ops' < 2 ^ 31 ->
  0 <= seq < 2 ^ 64 ->
  let b := SetSequence (fold_left apply_op ops Clear) seq in
  let b' := fold_left apply_op ops' Clear in
  Iterate h b s = (fold_left (run_op h) ops s, OK) /\
  Iterate Recorder (Append b b') [] = (ops ++ ops', OK) /\
  Count b = size_of ops /\ Sequence b = seq /\ Sequence (Append b b') = seq.
Proof.
  intros Hf Hf' Hsz Hseq b b'. pose proof (size_of_nonneg ops). pose proof (size_of_nonneg ops').
  assert (b = batch_rep seq ops) as ->.
  { subst b. rewrite Clear_rep, apply_ops_rep, SetSequence_rep by len. done. }
  assert (b' = batch_rep 0 ops') as ->.
  { subst b'. rewrite Clear_rep, apply_ops_rep by len. done. }
  rewrite Append_rep, !Iterate_rep, Count_rep, !Sequence_rep, Recorder_ops
    by (done || len || by apply Forall_app). done.
Qed.

Lemma write_batch_roundtrip_witness :
  Iterate Recorder
    (Append (SetSequence (fold_left apply_op [OpPut (str "k") (str "v")] Clear) 5)
       (fold_left apply_op [OpDelete (str "d")] Clear)) []
  = ([OpPut (str "k") (str "v"); OpDelete (str "d")], OK).
Proof.
  destruct (write_batch_roundtrip Recorder [] [OpPut (str "k") (str "v")] [OpDelete (str "d")] 5)
    as (_ & H & _); [..|exact H].
  - repeat constructor.
  - repeat constructor.
  - vm_compute. reflexivity.
  - split; vm_compute; [discriminate|reflexivity].
Defined.

(** [Iterate] never accepts a batch silently truncated or extended: on any
    bytes the handler receives some list of operations, the status is OK or
    Corruption, and OK means that exactly [Count] operations were handed over. *)
Theorem write_batch_count_checked {S} (h : Handler S) (s : S) (b : WriteBatch) :
  exists ops, fst (Iterate h b s) = fold_left (run_op h) ops s /\
    (snd (Iterate h b s) = OK -> size_of ops = Count b) /\
    (snd (Iterate h b s) <> OK -> IsCorruption (snd (Iterate h b s)) = true).
Proof.
  unfold Iterate. destruct (size_of b <? Z.of_nat kHeader); [by exists []|].
  destruct (Iterate_loop_any h (length (drop kHeader b)) (drop kHeader b) 0 s) as (ops & E1 & E2).
  destruct (Iterate_loop _ _ _ _ _) as [s' [e|n]]; simpl in *; exists ops.
  - split; [done|]. destruct e; [|done]. simpl in *. split; [done|].
    intros _. unfold IsCorruption. by apply bool_decide_eq_true_2.
  - destruct (Z.eqb_spec n (Count b)); simpl; [|done]. split_and!; [done|lia|done].
Qed.

(** The entries that the operations of a batch at [seq] become. *)
Definition batch_entry (s : Z) (op : BatchOp) : Z * ValueType * bytes * bytes :=
  match op with
  | OpPut k v => (s, kTypeValue, k, v)
  | OpDelete k => (s, kTypeDeletion, k, [])
  end.
Definition batch_entries (seq : Z) (ops : list BatchOp) : list (Z * ValueType * bytes * bytes) :=
  imap (fun i op => batch_entry (seq + Z.of_nat i) op) ops.

Lemma batch_entries_cons seq op ops :
  batch_entries seq (op :: ops) = batch_entry seq op :: batch_entries (seq + 1) ops.
Proof.
  unfold batch_entries. rewrite imap_cons, Z.add_0_r. f_equal. apply imap_ext. intros i x _. simpl. f_equal. lia.
Qed.

Lemma InsertInto_rep {M} (mem_Add : Z -> ValueType -> bytes -> bytes -> M -> M) ops seq (m : M) :
  Forall op_fits ops -> size_of ops < 2 ^ 31 -> 0 <= seq -> seq + size_of ops <= kMaxSequenceNumber ->
  InsertInto mem_Add (batch_rep seq ops) m =
  (fold_left (fun m e => let '(s, t, k, v) := e in mem_Add s t k v m) (batch_entries seq ops) m, OK).
Proof.
  intros Hf Hsz Hseq Hmax. unfold kMaxSequenceNumber in Hmax.
  change (Z.shiftl 1 56 - 1) with (2 ^ 56 - 1) in Hmax. pose proof (size_of_nonneg ops).
  unfold InsertInto. rewrite Sequence_rep, Iterate_rep by (done || lia).
  assert (Hgen : fold_left (run_op (MemTableInserter mem_Add)) ops (seq, m) =
    (seq + size_of ops, fold_left (fun m e => let '(s, t, k, v) := e in mem_Add s t k v m) (batch_entries seq ops) m)).
  { clear Hf Hsz. revert seq m Hseq Hmax. induction ops as [|op ops IH]; intros seq m Hseq Hmax.
    - cbn. by rewrite Z.add_0_r.
    - rewrite batch_entries_cons, size_of_cons in *. pose proof (size_of_nonneg ops).
      destruct op; cbn [fold_left run_op handler_Put handler_Delete MemTableInserter batch_entry];
        rewrite u64_small, IH by lia; f_equal; lia. }
  by rewrite Hgen.
Qed.

(** [InsertInto] adds the operations of a batch to the memtable in order,
    with consecutive sequence numbers that start at the batch's, a deletion being
    an entry of type [kTypeDeletion] with an empty value. *)
Theorem insert_into_consecutive ops seq :
  Forall op_fits ops -> size_of ops < 2 ^ 31 -> 0 <= seq -> seq + size_of ops <= kMaxSequenceNumber ->
  let record s t k v (mem : list (Z * ValueType * bytes * bytes)) := mem ++ [(s, t, k, v)] in
  let entry s op := match op with
    | OpPut k v => (s, kTypeValue, k, v) | OpDelete k => (s, kTypeDeletion, k, []) end in
  InsertInto record (batch_rep seq ops) [] =
  (imap (fun i op => entry (seq + Z.of_nat i) op) ops, OK).
Proof.
  intros Hf Hsz Hseq Hmax record entry. rewrite InsertInto_rep by done. f_equal.
  assert (Hgen : forall l mem, fold_left (fun m e => let '(s, t, k, v) := e in record s t k v m) l mem = mem ++ l).
  { induction l as [|[[[s t] k] v] l IH]; intros mem; cbn [fold_left]; [by rewrite app_nil_r|].
    rewrite IH. unfold record. by rewrite <- app_assoc. }
  exact (Hgen _ []).
Qed.

Lemma insert_into_consecutive_witness :
  InsertInto (fun s t k v (mem : list (Z * ValueType * bytes * bytes)) => mem ++ [(s, t, k, v)])
    (batch_rep 41 [OpPut (str "a") (str "1"); OpDelete (str "b")]) []
  = ([(41, kTypeValue, str "a", str "1"); (42, kTypeDeletion, str "b", [])], OK).
Proof.
  apply (insert_into_consecutive [OpPut (str "a") (str "1"); OpDelete (str "b")] 41).
  - repeat constructor.
  - vm_compute. reflexivity.
  - lia.
  - vm_compute. discriminate.
Defined.
