(* ===== verification/VersionEdit.v ===== *)
(** * VersionEdit: the records of the manifest

    Models [db/version_edit.h] and [db/version_edit.cpp]: an edit as a record of
    its fields, its setters, and its serialized form. *)

From S2P Require Import Prelude Coding Slice Logging DbFormat.

(** ** Data *)

Record FileMetaData : Type := mkFileMetaData {
  refs : Z;
  allowed_seeks : Z;
  number : Z;
  file_size : Z;
  smallest : bytes;
  largest : bytes
}.

(** [FileMetaData::FileMetaData()], with the fields that are set next. *)
Definition FileMetaData_make (number file_size : Z) (smallest largest : bytes) : FileMetaData :=
  mkFileMetaData 0 (Z.shiftl 1 30) number file_size smallest largest.

Record VersionEdit : Type := mkVersionEdit {
  comparator_ : bytes;
  log_number_ : Z;
  prev_log_number_ : Z;
  next_file_number_ : Z;
  last_sequence_ : Z;
  has_comparator_ : bool;
  has_log_number_ : bool;
  has_prev_log_number_ : bool;
  has_next_file_number_ : bool;
  has_last_sequence_ : bool;
  compact_pointers_ : list (Z * bytes);
  deleted_files_ : list (Z * Z);
  new_files_ : list (Z * FileMetaData)
}.

(** [DeletedFileSet] is a [std::set] of pairs, kept as the sorted list in which
    it is iterated. *)
Definition pair_ltb (a b : Z * Z) : bool :=
  (a.1 <? b.1) || ((a.1 =? b.1) && (a.2 <? b.2)).
Fixpoint set_insert (x : Z * Z) (s : list (Z * Z)) : list (Z * Z) :=
  match s with
  | [] => [x]
  | y :: s' => if pair_ltb x y then x :: s else if pair_ltb y x then y :: set_insert x s' else s
  end.

(** [Clear], which leaves [compact_pointers_] as they are. *)
Definition Clear (e : VersionEdit) : VersionEdit :=
  mkVersionEdit [] 0 0 0 0 false false false false false (compact_pointers_ e) [] [].

(** [VersionEdit::VersionEdit()]: the vectors start empty. *)
Definition VersionEdit_make : VersionEdit :=
  Clear (mkVersionEdit [] 0 0 0 0 false false false false false [] [] []).

Definition SetComparatorName (name : bytes) (e : VersionEdit) : VersionEdit :=
  mkVersionEdit name (log_number_ e) (prev_log_number_ e) (next_file_number_ e) (last_sequence_ e)
    true (has_log_number_ e) (has_prev_log_number_ e) (has_next_file_number_ e)
    (has_last_sequence_ e) (compact_pointers_ e) (deleted_files_ e) (new_files_ e).
Definition SetLogNumber (num : Z) (e : VersionEdit) : VersionEdit :=
  mkVersionEdit (comparator_ e) num (prev_log_number_ e) (next_file_number_ e) (last_sequence_ e)
    (has_comparator_ e) true (has_prev_log_number_ e) (has_next_file_number_ e)
    (has_last_sequence_ e) (compact_pointers_ e) (deleted_files_ e) (new_files_ e).
Definition SetPrevLogNumber (num : Z) (e : VersionEdit) : VersionEdit :=
  mkVersionEdit (comparator_ e) (log_number_ e) num (next_file_number_ e) (last_sequence_ e)
    (has_comparator_ e) (has_log_number_ e) true (has_next_file_number_ e)
    (has_last_sequence_ e) (compact_pointers_ e) (deleted_files_ e) (new_files_ e).
Definition SetNextFile (num : Z) (e : VersionEdit) : VersionEdit :=
  mkVersionEdit (comparator_ e) (log_number_ e) (prev_log_number_ e) num (last_sequence_ e)
    (has_comparator_ e) (has_log_number_ e) (has_prev_log_number_ e) true
    (has_last_sequence_ e) (compact_pointers_ e) (deleted_files_ e) (new_files_ e).
Definition SetLastSequence (seq : Z) (e : VersionEdit) : VersionEdit :=
  mkVersionEdit (comparator_ e) (log_number_ e) (prev_log_number_ e) (next_file_number_ e) seq
    (has_comparator_ e) (has_log_number_ e) (has_prev_log_number_ e) (has_next_file_number_ e)
    true (compact_pointers_ e) (deleted_files_ e) (new_files_ e).
Definition SetCompactPointer (level : Z) (key : bytes) (e : VersionEdit) : VersionEdit :=
  mkVersionEdit (comparator_ e) (log_number_ e) (prev_log_number_ e) (next_file_number_ e)
    (last_sequence_ e) (has_comparator_ e) (has_log_number_ e) (has_prev_log_number_ e)
    (has_next_file_number_ e) (has_last_sequence_ e) (compact_pointers_ e ++ [(level, key)])
    (deleted_files_ e) (new_files_ e).
Definition AddFile (level file file_size : Z) (smallest largest : bytes) (e : VersionEdit) :
    VersionEdit :=
  let f := FileMetaData_make file file_size smallest largest in
  mkVersionEdit (comparator_ e) (log_number_ e) (prev_log_number_ e) (next_file_number_ e)
    (last_sequence_ e) (has_comparator_ e) (has_log_number_ e) (has_prev_log_number_ e)
    (has_next_file_number_ e) (has_last_sequence_ e) (compact_pointers_ e)
    (deleted_files_ e) (new_files_ e ++ [(level, f)]).
Definition DeleteFile (level file : Z) (e : VersionEdit) : VersionEdit :=
  mkVersionEdit (comparator_ e) (log_number_ e) (prev_log_number_ e) (next_file_number_ e)
    (last_sequence_ e) (has_comparator_ e) (has_log_number_ e) (has_prev_log_number_ e)
    (has_next_file_number_ e) (has_last_sequence_ e) (compact_pointers_ e)
    (set_insert (level, file) (deleted_files_ e)) (new_files_ e).

(** ** Serialization *)

(** [enum Tag]; 8 was used for large value refs. *)
Definition kComparator : Z := 1.
Definition kLogNumber : Z := 2.
Definition kNextFileNumber : Z := 3.
Definition kLastSequence : Z := 4.
Definition kCompactPointer : Z := 5.
Definition kDeletedFile : Z := 6.
Definition kNewFile : Z := 7.
Definition kPrevLogNumber : Z := 9.

Definition encode_compact_pointer (dst : bytes) (cp : Z * bytes) : bytes :=
  let dst := PutVarint32 dst kCompactPointer in
  let dst := PutVarint32 dst (u32 cp.1) in
  PutLengthPrefixedSlice dst cp.2.

Definition encode_deleted_file (dst : bytes) (df : Z * Z) : bytes :=
  let dst := PutVarint32 dst kDeletedFile in
  let dst := PutVarint32 dst (u32 df.1) in
  PutVarint64 dst df.2.

Definition encode_new_file (dst : bytes) (nf : Z * FileMetaData) : bytes :=
  let f := nf.2 in
  let dst := PutVarint32 dst kNewFile in
  let dst := PutVarint32 dst (u32 nf.1) in
  let dst := PutVarint64 dst (number f) in
  let dst := PutVarint64 dst (file_size f) in
  let dst := PutLengthPrefixedSlice dst (smallest f) in
  PutLengthPrefixedSlice dst (largest f).

Definition EncodeTo (e : VersionEdit) (dst : bytes) : bytes :=
  let dst := if has_comparator_ e
             then PutLengthPrefixedSlice (PutVarint32 dst kComparator) (comparator_ e) else dst in
  let dst := if has_log_number_ e
             then PutVarint64 (PutVarint32 dst kLogNumber) (log_number_ e) else dst in
  let dst := if has_prev_log_number_ e
             then PutVarint64 (PutVarint32 dst kPrevLogNumber) (prev_log_number_ e) else dst in
  let dst := if has_next_file_number_ e
             then PutVarint64 (PutVarint32 dst kNextFileNumber) (next_file_number_ e) else dst in
  let dst := if has_last_sequence_ e
             then PutVarint64 (PutVarint32 dst kLastSequence) (last_sequence_ e) else dst in
  let dst := fold_left encode_compact_pointer (compact_pointers_ e) dst in
  let dst := fold_left encode_deleted_file (deleted_files_ e) dst in
  fold_left encode_new_file (new_files_ e) dst.

Definition GetInternalKey (input : bytes) : option (bytes * bytes) :=
  GetLengthPrefixedSlice input.

Definition GetLevel (input : bytes) : option (Z * bytes) :=
  match GetVarint32 input with
  | Some (v, input) => if v <? kNumLevels then Some (v, input) else None
  | None => None
  end.

(** One iteration of the loop after the tag: the edit and the input left, or the
    error message. *)
Definition decode_field (tag : Z) (input : bytes) (e : VersionEdit) : bytes + (bytes * VersionEdit) :=
  if tag =? kComparator then
    match GetLengthPrefixedSlice input with
    | Some (s, input) => inr (input, SetComparatorName s e)
    | None => inl (str "comparator name")
    end
  else if tag =? kLogNumber then
    match GetVarint64 input with
    | Some (n, input) => inr (input, SetLogNumber n e)
    | None => inl (str "log number")
    end
  else if tag =? kPrevLogNumber then
    match GetVarint64 input with
    | Some (n, input) => inr (input, SetPrevLogNumber n e)
    | None => inl (str "previous log number")
    end
  else if tag =? kNextFileNumber then
    match GetVarint64 input with
    | Some (n, input) => inr (input, SetNextFile n e)
    | None => inl (str "next file number")
    end
  else if tag =? kLastSequence then
    match GetVarint64 input with
    | Some (n, input) => inr (input, SetLastSequence n e)
    | None => inl (str "last sequence number")
    end
  else if tag =? kCompactPointer then
    match GetLevel input with
    | Some (level, input) =>
        match GetInternalKey input with
        | Some (key, input) => inr (input, SetCompactPointer level key e)
        | None => inl (str "compaction pointer")
        end
    | None => inl (str "compaction pointer")
    end
  else if tag =? kDeletedFile then
    match GetLevel input with
    | Some (level, input) =>
        match GetVarint64 input with
        | Some (number, input) => inr (input, DeleteFile level number e)
        | None => inl (str "deleted file")
        end
    | None => inl (str "deleted file")
    end
  else if tag =? kNewFile then
    match GetLevel input with
    | Some (level, input) =>
        match GetVarint64 input with
        | Some (number, input) =>
            match GetVarint64 input with
            | Some (file_size, input) =>
                match GetInternalKey input with
                | Some (smallest, input) =>
                    match GetInternalKey input with
                    | Some (largest, input) =>
                        inr (input, AddFile level number file_size smallest largest e)
                    | None => inl (str "new-file entry")
                    end
                | None => inl (str "new-file entry")
                end
            | None => inl (str "new-file entry")
            end
        | None => inl (str "new-file entry")
        end
    | None => inl (str "new-file entry")
    end
  else inl (str "unknown tag").

(** [while (msg == NULL && GetVarint32(&input, &tag))]: every iteration consumes
    the bytes of a tag, so the length of the input bounds the iterations.  The
    result is the edit, the input left and the message. *)
Fixpoint DecodeFrom_loop (fuel : nat) (input : bytes) (e : VersionEdit) :
    VersionEdit * bytes * option bytes :=
  match fuel with
  | O => (e, input, None)
  | S fuel =>
      match GetVarint32 input with
      | None => (e, input, None)
      | Some (tag, input) =>
          match decode_field tag input e with
          | inl msg => (e, input, Some msg)
          | inr (input, e) => DecodeFrom_loop fuel input e
          end
      end
  end.

Definition DecodeFrom (src : bytes) (e : VersionEdit) : VersionEdit * Status :=
  let '(e, input, msg) := DecodeFrom_loop (length src) src (Clear e) in
  let msg := match msg with
             | None => if negb (bool_decide (input = [])) then Some (str "invalid tag") else None
             | Some _ => msg
             end in
  (e, match msg with Some msg => Corruption (str "VersionEdit") msg | None => OK end).

Definition DebugString (e : VersionEdit) : bytes :=
  let r := str "VersionEdit {" in
  let nl s := [z2b 0x0a] ++ str s in
  let r := if has_comparator_ e then r ++ nl "  Comparator: " ++ comparator_ e else r in
  let r := if has_log_number_ e
           then AppendNumberTo (r ++ nl "  LogNumber: ") (log_number_ e) else r in
  let r := if has_prev_log_number_ e
           then AppendNumberTo (r ++ nl "  PrevLogNumber: ") (prev_log_number_ e) else r in
  let r := if has_next_file_number_ e
           then AppendNumberTo (r ++ nl "  NextFile: ") (next_file_number_ e) else r in
  let r := if has_last_sequence_ e
           then AppendNumberTo (r ++ nl "  LastSeq: ") (last_sequence_ e) else r in
  let r := fold_left (fun r cp =>
             AppendNumberTo (r ++ nl "  CompactPointer: ") (u64 cp.1) ++ str " " ++
             InternalKey_DebugString cp.2) (compact_pointers_ e) r in
  let r := fold_left (fun r df =>
             AppendNumberTo (AppendNumberTo (r ++ nl "  DeleteFile: ") (u64 df.1) ++ str " ") df.2)
             (deleted_files_ e) r in
  let r := fold_left (fun r nf =>
             let f := nf.2 in
             let r := AppendNumberTo (r ++ nl "  AddFile: ") (u64 nf.1) in
             let r := AppendNumberTo (r ++ str " ") (number f) in
             let r := AppendNumberTo (r ++ str " ") (file_size f) in
             r ++ str " " ++ InternalKey_DebugString (smallest f) ++ str " .. " ++
             InternalKey_DebugString (largest f)) (new_files_ e) r in
  r ++ nl "}" ++ [z2b 0x0a].

(** ** The serialized form as a sequence of fields *)

(** [seg] decodes to the update [f]: wherever it is met, the loop goes on after
    it with the updated edit. *)
Definition decodes (seg : bytes) (f : VersionEdit -> VersionEdit) : Prop :=
  forall rest e fuel, (length (seg ++ rest) <= fuel)%nat ->
  exists fuel', (length rest <= fuel')%nat /\
    DecodeFrom_loop fuel (seg ++ rest) e = DecodeFrom_loop fuel' rest (f e).

Lemma decodes_nil : decodes [] id.
Proof. intros rest e fuel Hf. by exists fuel. Qed.

Lemma decodes_app a b f g : decodes a f -> decodes b g -> decodes (a ++ b) (fun e => g (f e)).
Proof.
  intros Ha Hb rest e fuel Hf. rewrite <- app_assoc in *.
  destruct (Ha (b ++ rest) e fuel Hf) as (fuel1 & H1 & ->).
  destruct (Hb rest (f e) fuel1 H1) as (fuel2 & H2 & ->). by exists fuel2.
Qed.

Lemma decodes_concat {A} (enc : A -> bytes) (f : A -> VersionEdit -> VersionEdit) l :
  (forall x, x ∈ l -> decodes (enc x) (f x)) ->
  decodes (concat (map enc l)) (fun e => fold_left (fun e x => f x e) l e).
Proof.
  induction l as [|x l IH]; intros Hl; [apply decodes_nil|].
  apply (decodes_app (enc x) (concat (map enc l)) (f x)); [apply Hl; left|].
  apply IH. intros y Hy. apply Hl. by right.
Qed.

(** A field: its tag and what follows. *)
Lemma decodes_field tag body f :
  0 <= tag < 2 ^ 32 ->
  (forall rest e, decode_field tag (body ++ rest) e = inr (rest, f e)) ->
  decodes (EncodeVarint32 tag ++ body) f.
Proof.
  intros Htag Hbody rest e fuel Hf.
  assert (EncodeVarint32 tag <> []) as Hne.
  { intros E. pose proof (GetVarint32_Encode tag [] Htag) as H. by rewrite E in H. }
  destruct fuel as [|fuel].
  { destruct (EncodeVarint32 tag); [done|simpl in Hf; lia]. }
  exists fuel. split.
  - destruct (EncodeVarint32 tag); [done|]. simpl in Hf. rewrite !length_app in Hf. lia.
  - cbn [DecodeFrom_loop]. by rewrite <- app_assoc, GetVarint32_Encode, Hbody.
Qed.

Lemma GetLevel_put level rest :
  0 <= level < kNumLevels -> GetLevel (EncodeVarint32 (u32 level) ++ rest) = Some (level, rest).
Proof.
  unfold kNumLevels. intros. unfold GetLevel. rewrite u32_small, GetVarint32_Encode by lia.
  unfold kNumLevels. by rewrite (proj2 (Z.ltb_lt _ _)) by lia.
Qed.

Lemma decodes_comparator name :
  size_of name < 2 ^ 32 ->
  decodes (EncodeVarint32 kComparator ++ length_prefixed name) (SetComparatorName name).
Proof.
  intros. apply decodes_field; [done|]. intros. cbn [decode_field Z.eqb Pos.eqb kComparator].
  unfold decode_field. simpl. by rewrite GetLengthPrefixedSlice_put.
Qed.

Lemma decodes_number tag set n :
  0 <= n < 2 ^ 64 -> 0 <= tag < 2 ^ 32 ->
  (forall input e, decode_field tag input e =
     match GetVarint64 input with
     | Some (n, input) => inr (input, set n e)
     | None => decode_field tag input e
     end) ->
  decodes (EncodeVarint32 tag ++ EncodeVarint64 n) (set n).
Proof.
  intros Hn Htag Hset. apply decodes_field; [done|]. intros.
  by rewrite Hset, GetVarint64_Encode.
Qed.

Definition compact_pointer_ok (cp : Z * bytes) : Prop :=
  0 <= cp.1 < kNumLevels /\ size_of cp.2 < 2 ^ 32.
Definition deleted_file_ok (df : Z * Z) : Prop :=
  0 <= df.1 < kNumLevels /\ 0 <= df.2 < 2 ^ 64.
Definition new_file_ok (nf : Z * FileMetaData) : Prop :=
  0 <= nf.1 < kNumLevels /\ 0 <= number nf.2 < 2 ^ 64 /\ 0 <= file_size nf.2 < 2 ^ 64 /\
  size_of (smallest nf.2) < 2 ^ 32 /\ size_of (largest nf.2) < 2 ^ 32 /\
  refs nf.2 = 0 /\ allowed_seeks nf.2 = Z.shiftl 1 30.

Lemma decodes_compact_pointer cp :
  compact_pointer_ok cp ->
  decodes (encode_compact_pointer [] cp) (SetCompactPointer cp.1 cp.2).
Proof.
  intros [Hl Hs]. unfold encode_compact_pointer. rewrite PutLengthPrefixedSlice_app.
  unfold PutVarint32. rewrite app_nil_l, <- app_assoc.
  apply decodes_field; [done|]. intros. unfold decode_field, GetInternalKey. simpl.
  by rewrite <- app_assoc, GetLevel_put, GetLengthPrefixedSlice_put.
Qed.

Lemma decodes_deleted_file df :
  deleted_file_ok df -> decodes (encode_deleted_file [] df) (DeleteFile df.1 df.2).
Proof.
  intros [Hl Hs]. unfold encode_deleted_file, PutVarint64, PutVarint32.
  rewrite app_nil_l, <- app_assoc. apply decodes_field; [done|].
  intros. unfold decode_field. simpl. by rewrite <- app_assoc, GetLevel_put, GetVarint64_Encode.
Qed.

Lemma decodes_new_file nf :
  new_file_ok nf ->
  decodes (encode_new_file [] nf)
    (AddFile nf.1 (number nf.2) (file_size nf.2) (smallest nf.2) (largest nf.2)).
Proof.
  intros (Hl & Hn & Hf & Hs & Hla & _). unfold encode_new_file.
  rewrite !PutLengthPrefixedSlice_app. unfold PutVarint64, PutVarint32.
  rewrite app_nil_l, <- !app_assoc. apply decodes_field; [done|].
  intros. unfold decode_field, GetInternalKey. simpl.
  by rewrite <- !app_assoc, GetLevel_put, !GetVarint64_Encode, !GetLengthPrefixedSlice_put.
Qed.

(** Encoders append. *)
Lemma fold_encode {A} (enc : bytes -> A -> bytes) l dst :
  (forall d x, enc d x = d ++ enc [] x) ->
  fold_left enc l dst = dst ++ concat (map (enc []) l).
Proof.
  intros Henc. revert dst. induction l as [|x l IH]; intros dst; simpl; [by rewrite app_nil_r|].
  by rewrite IH, Henc, <- app_assoc.
Qed.

(** The fields of an edit: the bytes of each and the update they stand for. *)
Definition opt_field (present : bool) (seg : bytes) (f : VersionEdit -> VersionEdit) :
    list (bytes * (VersionEdit -> VersionEdit)) :=
  if present then [(seg, f)] else [].

Definition number_fields (e : VersionEdit) : list (bytes * (VersionEdit -> VersionEdit)) :=
  opt_field (has_comparator_ e) (EncodeVarint32 kComparator ++ length_prefixed (comparator_ e))
    (SetComparatorName (comparator_ e)) ++
  opt_field (has_log_number_ e) (EncodeVarint32 kLogNumber ++ EncodeVarint64 (log_number_ e))
    (SetLogNumber (log_number_ e)) ++
  opt_field (has_prev_log_number_ e)
    (EncodeVarint32 kPrevLogNumber ++ EncodeVarint64 (prev_log_number_ e))
    (SetPrevLogNumber (prev_log_number_ e)) ++
  opt_field (has_next_file_number_ e)
    (EncodeVarint32 kNextFileNumber ++ EncodeVarint64 (next_file_number_ e))
    (SetNextFile (next_file_number_ e)) ++
  opt_field (has_last_sequence_ e)
    (EncodeVarint32 kLastSequence ++ EncodeVarint64 (last_sequence_ e))
    (SetLastSequence (last_sequence_ e)).

Definition edit_fields (e : VersionEdit) : list (bytes * (VersionEdit -> VersionEdit)) :=
  number_fields e ++
  map (fun cp => (encode_compact_pointer [] cp, SetCompactPointer cp.1 cp.2)) (compact_pointers_ e) ++
  map (fun df => (encode_deleted_file [] df, DeleteFile df.1 df.2)) (deleted_files_ e) ++
  map (fun nf => (encode_new_file [] nf,
    AddFile nf.1 (number nf.2) (file_size nf.2) (smallest nf.2) (largest nf.2))) (new_files_ e).

Lemma EncodeTo_fields e dst : EncodeTo e dst = dst ++ concat (map fst (edit_fields e)).
Proof.
  unfold EncodeTo, edit_fields, number_fields. rewrite !fold_encode by
    (intros; unfold encode_new_file, encode_deleted_file, encode_compact_pointer,
       PutLengthPrefixedSlice, PutVarint64, PutVarint32; by rewrite <- !app_assoc).
  rewrite !map_app, !concat_app, !map_map. cbn [fst].
  rewrite PutLengthPrefixedSlice_app. unfold PutVarint64, PutVarint32, opt_field.
  destruct (has_comparator_ e), (has_log_number_ e), (has_prev_log_number_ e),
    (has_next_file_number_ e), (has_last_sequence_ e); cbn [map concat fst];
    by rewrite ?app_nil_r, <- ?app_assoc.
Qed.

(** ** Rebuilding an edit from its fields *)

(** What the setters establish: absent fields have their cleared values, levels
    and numbers are in range, the deleted files are a sorted set. *)
Record edit_ok (e : VersionEdit) : Prop := {
  ok_comparator : if has_comparator_ e then size_of (comparator_ e) < 2 ^ 32 else comparator_ e = [];
  ok_log : if has_log_number_ e then 0 <= log_number_ e < 2 ^ 64 else log_number_ e = 0;
  ok_prev : if has_prev_log_number_ e then 0 <= prev_log_number_ e < 2 ^ 64 else prev_log_number_ e = 0;
  ok_next : if has_next_file_number_ e then 0 <= next_file_number_ e < 2 ^ 64 else next_file_number_ e = 0;
  ok_seq : if has_last_sequence_ e then 0 <= last_sequence_ e < 2 ^ 64 else last_sequence_ e = 0;
  ok_compact : Forall compact_pointer_ok (compact_pointers_ e);
  ok_deleted : Forall deleted_file_ok (deleted_files_ e);
  ok_sorted : StronglySorted (fun a b => pair_ltb a b = true) (deleted_files_ e);
  ok_new : Forall new_file_ok (new_files_ e)
}.

Lemma pair_ltb_asym a b : pair_ltb a b = true -> pair_ltb b a = false.
Proof. unfold pair_ltb. lia. Qed.
Lemma pair_ltb_trans a b c : pair_ltb a b = true -> pair_ltb b c = true -> pair_ltb a c = true.
Proof. unfold pair_ltb. lia. Qed.

(** Inserting an element above all others puts it last. *)
Lemma set_insert_last x s :
  Forall (fun y => pair_ltb y x = true) s -> set_insert x s = s ++ [x].
Proof.
  induction 1 as [|y s Hy _ IH]; [done|]. simpl. rewrite (pair_ltb_asym _ _ Hy), Hy. by rewrite IH.
Qed.

Lemma set_insert_sorted x s :
  StronglySorted (fun a b => pair_ltb a b = true) s ->
  StronglySorted (fun a b => pair_ltb a b = true) (set_insert x s).
Proof.
  induction s as [|y s IH]; intros Hs; simpl; [by repeat constructor|].
  apply StronglySorted_inv in Hs as Hs'. destruct Hs' as [Hs' Hy].
  destruct (pair_ltb x y) eqn:E1.
  { constructor; [done|]. constructor; [done|]. eapply Forall_impl; [exact Hy|].
    intros z Hz. by eapply pair_ltb_trans. }
  destruct (pair_ltb y x) eqn:E2; [|done]. constructor; [by apply IH|].
  clear -Hy E2. induction Hy as [|z s Hz Hs IH]; simpl; [by repeat constructor|].
  destruct (pair_ltb x z); [by repeat constructor|]. destruct (pair_ltb z x); by constructor.
Qed.

Lemma set_insert_elem x y s : y ∈ set_insert x s <-> y = x \/ y ∈ s.
Proof.
  induction s as [|z s IH]; simpl; [rewrite list_elem_of_singleton, elem_of_nil; tauto|].
  destruct (pair_ltb x z) eqn:E1; [by rewrite elem_of_cons|].
  destruct (pair_ltb z x) eqn:E2; [rewrite !elem_of_cons, IH; tauto|].
  rewrite elem_of_cons. split; [tauto|]. intros [->|]; [|done]. left.
  destruct x, z. unfold pair_ltb in *. simpl in *. f_equal; lia.
Qed.

(** The updates of the vectors and of the set, folded over all elements. *)
Lemma fold_compact l e :
  fold_left (fun e cp => SetCompactPointer cp.1 cp.2 e) l e =
  mkVersionEdit (comparator_ e) (log_number_ e) (prev_log_number_ e) (next_file_number_ e)
    (last_sequence_ e) (has_comparator_ e) (has_log_number_ e) (has_prev_log_number_ e)
    (has_next_file_number_ e) (has_last_sequence_ e) (compact_pointers_ e ++ l)
    (deleted_files_ e) (new_files_ e).
Proof.
  revert e. induction l as [|[level key] l IH]; intros e; simpl.
  - rewrite app_nil_r. by destruct e.
  - rewrite IH. simpl. by rewrite <- app_assoc.
Qed.

Lemma fold_deleted l e :
  StronglySorted (fun a b => pair_ltb a b = true) (deleted_files_ e ++ l) ->
  fold_left (fun e df => DeleteFile df.1 df.2 e) l e =
  mkVersionEdit (comparator_ e) (log_number_ e) (prev_log_number_ e) (next_file_number_ e)
    (last_sequence_ e) (has_comparator_ e) (has_log_number_ e) (has_prev_log_number_ e)
    (has_next_file_number_ e) (has_last_sequence_ e) (compact_pointers_ e)
    (deleted_files_ e ++ l) (new_files_ e).
Proof.
  revert e. induction l as [|[level file] l IH]; intros e Hs; simpl.
  - rewrite app_nil_r. by destruct e.
  - assert (Hlast : set_insert (level, file) (deleted_files_ e) = deleted_files_ e ++ [(level, file)]).
    { apply set_insert_last. apply Forall_forall. intros y Hy.
      clear IH. induction (deleted_files_ e) as [|z s IH]; [by apply not_elem_of_nil in Hy|].
      simpl in Hs. apply StronglySorted_inv in Hs as [Hs Hz].
      apply elem_of_cons in Hy as [->|Hy]; [|by apply IH].
      rewrite Forall_app, Forall_cons in Hz. tauto. }
    rewrite IH; simpl; rewrite Hlast, <- app_assoc; done.
Qed.

Lemma fold_new l e :
  Forall new_file_ok l ->
  fold_left (fun e nf =>
    AddFile nf.1 (number nf.2) (file_size nf.2) (smallest nf.2) (largest nf.2) e) l e =
  mkVersionEdit (comparator_ e) (log_number_ e) (prev_log_number_ e) (next_file_number_ e)
    (last_sequence_ e) (has_comparator_ e) (has_log_number_ e) (has_prev_log_number_ e)
    (has_next_file_number_ e) (has_last_sequence_ e) (compact_pointers_ e)
    (deleted_files_ e) (new_files_ e ++ l).
Proof.
  intros Hl. revert e. induction Hl as [|[level f] l Hf _ IH]; intros e; simpl.
  - rewrite app_nil_r. by destruct e.
  - rewrite IH. simpl. rewrite <- app_assoc. destruct Hf as (_ & _ & _ & _ & _ & Hr & Ha).
    destruct f; simpl in *. subst. done.
Qed.

(** The edit that decoding the fields of [e] into [e0] gives. *)
Definition decoded_into (e0 e : VersionEdit) : VersionEdit :=
  mkVersionEdit (comparator_ e) (log_number_ e) (prev_log_number_ e) (next_file_number_ e)
    (last_sequence_ e) (has_comparator_ e) (has_log_number_ e) (has_prev_log_number_ e)
    (has_next_file_number_ e) (has_last_sequence_ e)
    (compact_pointers_ e0 ++ compact_pointers_ e) (deleted_files_ e) (new_files_ e).

Lemma number_fields_cleared e e0 :
  edit_ok e -> fold_left (fun e f => f.2 e) (number_fields e) (Clear e0) =
  mkVersionEdit (comparator_ e) (log_number_ e) (prev_log_number_ e) (next_file_number_ e)
    (last_sequence_ e) (has_comparator_ e) (has_log_number_ e) (has_prev_log_number_ e)
    (has_next_file_number_ e) (has_last_sequence_ e) (compact_pointers_ e0) [] [].
Proof.
  intros [Hc Hl Hp Hn Hs _ _ _ _]. unfold number_fields, opt_field.
  destruct (has_comparator_ e), (has_log_number_ e), (has_prev_log_number_ e),
    (has_next_file_number_ e), (has_last_sequence_ e); unfold Clear; simpl;
    rewrite ?Hc, ?Hl, ?Hp, ?Hn, ?Hs; done.
Qed.

Lemma fold_fields {A} (enc : A -> bytes) (f : A -> VersionEdit -> VersionEdit) l e :
  fold_left (fun e x => x.2 e) (map (fun x => (enc x, f x)) l) e = fold_left (fun e x => f x e) l e.
Proof. revert e. induction l; intros; simpl; auto. Qed.

Lemma fields_update e e0 :
  edit_ok e -> fold_left (fun e f => f.2 e) (edit_fields e) (Clear e0) = decoded_into e0 e.
Proof.
  intros Hok. unfold edit_fields. rewrite !fold_left_app, number_fields_cleared by done.
  rewrite !fold_fields, fold_compact, fold_deleted, fold_new by apply Hok. done.
Qed.

Lemma number_fields_decode e fld : edit_ok e -> fld ∈ number_fields e -> decodes fld.1 fld.2.
Proof.
  intros [Hc Hl Hp Hn Hs _ _ _ _]. unfold number_fields. rewrite !elem_of_app.
  assert (Hopt : forall b seg f, fld ∈ opt_field b seg f -> b = true /\ fld = (seg, f)).
  { intros [] seg f; simpl; [by intros ->%list_elem_of_singleton|by intros ?%not_elem_of_nil]. }
  intros [H|[H|[H|[H|H]]]]; apply Hopt in H as [E ->]; rewrite E in *; cbn [fst snd].
  { by apply decodes_comparator. }
  all: apply decodes_number; [done|done|]; intros input e'; unfold decode_field; simpl;
    by destruct (GetVarint64 input) as [[]|].
Qed.

Lemma edit_fields_decode e fld : edit_ok e -> fld ∈ edit_fields e -> decodes fld.1 fld.2.
Proof.
  intros Hok. unfold edit_fields. rewrite !elem_of_app.
  intros [H|[H|[H|H]]]; [by apply (number_fields_decode e)|..];
    apply list_elem_of_fmap in H as (x & -> & Hx); cbn [fst snd].
  - apply decodes_compact_pointer. eapply Forall_forall; [apply Hok|done].
  - apply decodes_deleted_file. eapply Forall_forall; [apply Hok|done].
  - apply decodes_new_file. eapply Forall_forall; [apply Hok|done].
Qed.

Lemma DecodeFrom_EncodeTo e e0 : edit_ok e -> DecodeFrom (EncodeTo e []) e0 = (decoded_into e0 e, OK).
Proof.
  intros Hok. rewrite EncodeTo_fields, app_nil_l. unfold DecodeFrom.
  destruct (decodes_concat fst snd (edit_fields e) (fun fld => edit_fields_decode e fld Hok)
    [] (Clear e0) (length (concat (map fst (edit_fields e))))) as (fuel & _ & E).
  { by rewrite app_nil_r. }
  rewrite app_nil_r in E. rewrite E.
  change (fun e x => snd x e) with (fun (e : VersionEdit) (f : bytes * (VersionEdit -> VersionEdit)) => f.2 e).
  rewrite fields_update by done. by destruct fuel.
Qed.

(** The setters keep an edit well formed. *)
Lemma edit_ok_make : edit_ok VersionEdit_make.
Proof. by split; simpl; try constructor. Qed.

Lemma edit_ok_AddFile level file fsize sm la e :
  edit_ok e -> new_file_ok (level, FileMetaData_make file fsize sm la) ->
  edit_ok (AddFile level file fsize sm la e).
Proof. intros [] Hnf. split; simpl; try done. apply Forall_app. by split; [|constructor]. Qed.

Lemma edit_ok_DeleteFile level file e :
  edit_ok e -> deleted_file_ok (level, file) -> edit_ok (DeleteFile level file e).
Proof.
  intros [] Hdf. split; simpl; try done; [|by apply set_insert_sorted].
  rewrite Forall_forall in *. intros x [->|Hx]%set_insert_elem; auto.
Qed.

Lemma edit_ok_SetCompactPointer level key e :
  edit_ok e -> compact_pointer_ok (level, key) -> edit_ok (SetCompactPointer level key e).
Proof. intros [] Hcp. split; simpl; try done. apply Forall_app. by split; [|constructor]. Qed.

(** ** Decoding arbitrary bytes *)

Lemma decode_field_suffix tag input e input' e' :
  decode_field tag input e = inr (input', e') -> exists n, input' = drop n input.
Proof.
  assert (H32 : forall p v q, GetVarint32 p = Some (v, q) -> exists n, q = drop n p).
  { intros p v q (_ & pre & -> & _)%GetVarint32_result. exists (length pre). by rewrite drop_app_length. }
  assert (H64 : forall p v q, GetVarint64 p = Some (v, q) -> exists n, q = drop n p).
  { intros p v q (_ & pre & -> & _)%GetVarint64_result. exists (length pre). by rewrite drop_app_length. }
  assert (HS : forall p v q, GetLengthPrefixedSlice p = Some (v, q) -> exists n, q = drop n p).
  { intros p v q (pre & -> & _)%GetLengthPrefixedSlice_result. exists (length pre + length v)%nat.
    by rewrite <- drop_drop, !drop_app_length. }
  assert (HL : forall p v q, GetLevel p = Some (v, q) -> exists n, q = drop n p).
  { unfold GetLevel. intros p v q E. destruct (GetVarint32 p) as [[v' q']|] eqn:E'; [|done].
    destruct (_ <? _); [|done]. injection E as -> ->. eauto. }
  unfold decode_field, GetInternalKey. intros E.
  repeat (case_match; simplify_eq); repeat match goal with
    | H : GetVarint64 _ = Some _ |- _ => apply H64 in H as [? ->]
    | H : GetLengthPrefixedSlice _ = Some _ |- _ => apply HS in H as [? ->]
    | H : GetLevel _ = Some _ |- _ => apply HL in H as [? ->]
    end; rewrite ?drop_drop; eauto.
Qed.

Lemma DecodeFrom_loop_any fuel input e :
  (length input <= fuel)%nat ->
  let '(e', input', msg) := DecodeFrom_loop fuel input e in
  (exists n, input' = drop n input) /\ (msg = None -> GetVarint32 input' = None).
Proof.
  revert input e. induction fuel as [|fuel IH]; intros input e Hf.
  - destruct input; [|simpl in Hf; lia]. simpl. split; [by exists O|done].
  - cbn [DecodeFrom_loop]. destruct (GetVarint32 input) as [[tag q]|] eqn:E.
    + apply GetVarint32_result in E as (_ & pre & -> & Hpre).
      assert (length q <= fuel)%nat by (destruct pre; [done|]; len).
      assert (Hq : q = drop (length pre) (pre ++ q)) by (by rewrite drop_app_length).
      destruct (decode_field tag q e) as [msg|[q' e']] eqn:E; [split; [by exists (length pre)|done]|].
      apply decode_field_suffix in E as [n ->]. specialize (IH (drop n q) e').
      destruct (DecodeFrom_loop fuel (drop n q) e') as [[e'' input'] msg].
      destruct IH as [[n' ->] Hm]; [len|]. split; [|done].
      exists (length pre + (n + n'))%nat. by rewrite <- !drop_drop, drop_app_length.
    + split; [by exists O|done].
Qed.

(** ** Properties *)

(** C28: decoding an encoded edit gives it back, every field, pointer, deleted
    and added file, with status OK.  Since [Clear] does not clear
    [compact_pointers_], those the decoding edit already had stay in front of the
    decoded ones.  Every edit made by the setters from a fresh one is such an
    edit. *)
Theorem version_edit_roundtrip e e0 :
  edit_ok e ->
  let '(e', s) := DecodeFrom (EncodeTo e []) e0 in
  s = OK /\ compact_pointers_ e' = compact_pointers_ e0 ++ compact_pointers_ e /\
  (compact_pointers_ e0 = [] -> e' = e).
Proof.
  intros Hok. rewrite DecodeFrom_EncodeTo by done. split_and!; [done|done|].
  intros E. unfold decoded_into. rewrite E. by destruct e.
Qed.

Lemma version_edit_roundtrip_witness :
  let e := AddFile 2 7 4096 (InternalKey_make (str "a") 1 kTypeValue)
             (InternalKey_make (str "z") 9 kTypeValue)
             (DeleteFile 1 3 (SetLogNumber 12 (SetComparatorName (str "cmp") VersionEdit_make))) in
  fst (DecodeFrom (EncodeTo e []) VersionEdit_make) = e.
Proof.
  intros e. assert (edit_ok e) as Hok.
  { apply edit_ok_AddFile; [apply edit_ok_DeleteFile|].
    - by split; simpl; try constructor.
    - split; simpl; unfold kNumLevels; lia.
    - repeat split; vm_compute; done. }
  pose proof (version_edit_roundtrip e VersionEdit_make Hok) as H.
  destruct (DecodeFrom (EncodeTo e []) VersionEdit_make) as [e' s].
  destruct H as (_ & _ & H). exact (H eq_refl).
Defined.

(** The edit loop on arbitrary bytes: what it leaves is a suffix of the
    input, its fuel (the number of bytes) is enough, since without a message it
    stops only where no tag can be read; and the status is OK only when the whole
    input was consumed and no field was malformed, Corruption otherwise. *)
Theorem version_edit_decode_total src e :
  let '(e', input, msg) := DecodeFrom_loop (length src) src (Clear e) in
  (exists n, input = drop n src) /\
  (msg = None -> GetVarint32 input = None) /\
  fst (DecodeFrom src e) = e' /\
  (snd (DecodeFrom src e) = OK <-> msg = None /\ input = []) /\
  (snd (DecodeFrom src e) <> OK -> IsCorruption (snd (DecodeFrom src e)) = true).
Proof.
  pose proof (DecodeFrom_loop_any (length src) src (Clear e) ltac:(lia)) as H.
  unfold DecodeFrom. destruct (DecodeFrom_loop _ _ _) as [[e' input] msg].
  destruct H as [Hs Hm]. split_and!; [done|done|done|..].
  - destruct msg as [msg|]; simpl; [split; [done|intros [? ?]; done]|].
    case_bool_decide; simpl; [done|]. split; [done|intros [_ ?]; done].
  - destruct msg as [msg|]; simpl; [done|]. by case_bool_decide.
Qed.
