(* ===== verification/Arena.v ===== *)
(** * Arena: block allocation

    Models [util/arena.h] and [util/arena.cpp]: allocation from blocks of 4096
    bytes, aligned allocation, and the count of the memory in use.  [new char[n]]
    is a parameter: an address for the blocks that are live and a size; when it
    fails it throws, which nothing catches, so only executions in which it
    returns are modelled. *)

From S2P Require Import Prelude.

(** ** The allocator *)

Definition kBlockSize : Z := 4096.

(** [blocks]: the address and the size of each block. *)
Record Arena : Type := mkArena {
  alloc_ptr : Z;
  alloc_bytes_remaining : Z;
  blocks : list (Z * Z);
  memory_usage : Z
}.

Definition Arena_make : Arena := mkArena 0 0 [] 0.

Definition MemoryUsage (a : Arena) : Z := memory_usage a.

Section Allocate.
Context (new_array : list (Z * Z) -> Z -> Z).

(** [sizeof(char* )] is 4. *)
Definition AllocateNewBlock (block_bytes : Z) (a : Arena) : Z * Arena :=
  let result := new_array (blocks a) block_bytes in
  (result, mkArena (alloc_ptr a) (alloc_bytes_remaining a) (blocks a ++ [(result, block_bytes)])
             (usize (MemoryUsage a + block_bytes + 4))).

Definition AllocateFallback (bytes : Z) (a : Arena) : Z * Arena :=
  if bytes >? kBlockSize / 4 then AllocateNewBlock bytes a
  else
    let '(block, a) := AllocateNewBlock kBlockSize a in
    (block, mkArena (block + bytes) (usize (kBlockSize - bytes)) (blocks a) (memory_usage a)).

(** Takes [bytes] of the current block after [slop] bytes. *)
Definition bump (slop bytes : Z) (a : Arena) : Z * Arena :=
  (alloc_ptr a + slop,
   mkArena (alloc_ptr a + (slop + bytes)) (usize (alloc_bytes_remaining a - (slop + bytes)))
     (blocks a) (memory_usage a)).

Definition Allocate (bytes : Z) (a : Arena) : Z * Arena :=
  if bytes <=? alloc_bytes_remaining a then bump 0 bytes a else AllocateFallback bytes a.

Definition AllocateAligned (bytes : Z) (a : Arena) : Z * Arena :=
  let align := 8 in
  let current_mod := Z.land (alloc_ptr a) (align - 1) in
  let slop := if current_mod =? 0 then 0 else align - current_mod in
  let needed := usize (bytes + slop) in
  if needed <=? alloc_bytes_remaining a then bump slop bytes a
  else AllocateFallback bytes a.
End Allocate.

(** ** Runs of allocations *)

Definition disjoint (r s : Z * Z) : Prop := fst r + snd r <= fst s \/ fst s + snd s <= fst r.
Definition inside (r s : Z * Z) : Prop := fst s <= fst r /\ fst r + snd r <= fst s + snd s.

(** What [new char[n]] promises: an address aligned for any object, of memory
    that no live block holds. *)
Class NewLaws (new_array : list (Z * Z) -> Z -> Z) : Prop := {
  new_aligned bs n : new_array bs n mod 8 = 0;
  new_disjoint bs n : Forall (disjoint (new_array bs n, n)) bs
}.

Variant Request : Type := ReqAny (n : Z) | ReqAligned (n : Z).
Definition request_size (r : Request) : Z := match r with ReqAny n => n | ReqAligned n => n end.

Section Runs.
Context (new_array : list (Z * Z) -> Z -> Z) `{!NewLaws new_array}.

Definition serve (r : Request) (a : Arena) : Z * Arena :=
  match r with ReqAny n => Allocate new_array n a | ReqAligned n => AllocateAligned new_array n a end.

(** The addresses a run of requests gets. *)
Fixpoint serve_all (rs : list Request) (a : Arena) : list Z * Arena :=
  match rs with
  | [] => ([], a)
  | r :: rs => let '(p, a) := serve r a in let '(ps, a) := serve_all rs a in (p :: ps, a)
  end.

(** The part of the current block that is free. *)
Definition free (a : Arena) : Z * Z := (alloc_ptr a, alloc_bytes_remaining a).

(** [given]: the ranges given out so far. *)
Record arena_ok (a : Arena) (given : list (Z * Z)) : Prop := {
  ok_free : alloc_bytes_remaining a = 0 \/ Exists (inside (free a)) (blocks a);
  ok_remaining : 0 <= alloc_bytes_remaining a <= kBlockSize;
  ok_given : Forall (fun r : Z * Z => 0 < snd r /\ Exists (inside r) (blocks a) /\ (alloc_bytes_remaining a = 0 \/ disjoint r (free a))) given;
  ok_apart : StronglySorted disjoint given;
  ok_usage : memory_usage a = usize (foldr (fun (b : Z * Z) u => u + (snd b + 4)) 0 (blocks a))
}.

Lemma disjoint_inside r s b : inside r b -> disjoint s b -> disjoint s r.
Proof. unfold inside, disjoint. lia. Qed.

Lemma StronglySorted_snoc {A} (R : A -> A -> Prop) l x :
  StronglySorted R l -> Forall (fun y => R y x) l -> StronglySorted R (l ++ [x]).
Proof.
  induction 1 as [|y l Hl IH Hy]; intros Hx; simpl; [by repeat constructor|].
  inversion_clear Hx. constructor; [by apply IH|]. apply Forall_app. by repeat constructor.
Qed.

Lemma usage_snoc bs b :
  foldr (fun (b : Z * Z) u => u + (snd b + 4)) 0 (bs ++ [b]) = foldr (fun (b : Z * Z) u => u + (snd b + 4)) 0 bs + (snd b + 4).
Proof. induction bs as [|c bs IH]; simpl; [done|]. rewrite IH. lia. Qed.

Lemma NewBlock_ok a given n p a' : arena_ok a given -> AllocateNewBlock new_array n a = (p, a') ->
  arena_ok a' given /\ p mod 8 = 0 /\ blocks a' = blocks a ++ [(p, n)] /\
  Forall (disjoint (p, n)) given /\ (alloc_bytes_remaining a = 0 \/ disjoint (p, n) (free a)) /\
  free a' = free a.
Proof.
  intros [Hf Hr Hg Ha Hu] [= <- <-]. set (p := new_array (blocks a) n). pose proof (new_disjoint (blocks a) n) as Hd.
  change (new_array (blocks a) n) with p in Hd.
  assert (Hin : forall r, Exists (inside r) (blocks a) -> disjoint (p, n) r).
  { intros r Hr'. apply Exists_exists in Hr' as (b & Hb & Hi). eapply disjoint_inside; [done|].
    rewrite Forall_forall in Hd. by apply Hd. }
  split; [|split; [apply new_aligned|split; [done|split; [|split; [|done]]]]].
  - split; cbn [alloc_bytes_remaining blocks memory_usage MemoryUsage alloc_ptr].
    + destruct Hf as [|Hf]; [by left|right]. apply Exists_app. by left.
    + done.
    + eapply Forall_impl; [exact Hg|]. intros r (H1 & H2 & H3). split; [done|]. split; [|done].
      apply Exists_app. by left.
    + done.
    + unfold MemoryUsage. rewrite usage_snoc, Hu. unfold usize. cbn [snd].
      replace (foldr _ 0 (blocks a) mod 2 ^ 32 + n + 4) with (foldr (fun (b : Z * Z) u => u + (snd b + 4)) 0 (blocks a) mod 2 ^ 32 + (n + 4)) by lia.
      by rewrite Zplus_mod_idemp_l.
  - eapply Forall_impl; [exact Hg|]. intros r (_ & H & _). by apply Hin.
  - destruct Hf as [|Hf]; [by left|right]. by apply Hin.
Qed.

Lemma bump_ok a given slop n p a' :
  arena_ok a given -> 0 <= slop -> 0 < n -> slop + n <= alloc_bytes_remaining a -> bump slop n a = (p, a') ->
  arena_ok a' (given ++ [(p, n)]).
Proof.
  intros [Hf Hr Hg Ha Hu] Hs Hn Hle [= <- <-]. unfold kBlockSize in Hr.
  assert (Hlt : 0 < alloc_bytes_remaining a) by lia.
  assert (E : usize (alloc_bytes_remaining a - (slop + n)) = alloc_bytes_remaining a - (slop + n))
    by (apply usize_small; lia).
  destruct Hf as [|Hf]; [lia|]. split; cbn [alloc_bytes_remaining blocks memory_usage alloc_ptr free]; rewrite ?E.
  - right. eapply Exists_impl; [exact Hf|]. intros b. unfold inside, free. simpl. lia.
  - unfold kBlockSize. lia.
  - apply Forall_app. split.
    + eapply Forall_impl; [exact Hg|]. intros r (H1 & H2 & H3). split; [done|]. split; [done|].
      right. destruct H3 as [|H3]; [lia|]. revert H3. unfold disjoint, free. simpl. lia.
    + constructor; [|done]. simpl. split; [done|]. split; [|right; unfold disjoint, free; simpl; lia].
      eapply Exists_impl; [exact Hf|]. intros b. unfold inside, free. simpl. lia.
  - apply StronglySorted_snoc; [done|]. eapply Forall_impl; [exact Hg|]. intros r (H1 & H2 & H3).
    destruct H3 as [|H3]; [lia|]. revert H3. unfold disjoint, free. simpl. lia.
  - done.
Qed.

Lemma Fallback_ok a given n p a' : arena_ok a given -> 0 < n -> AllocateFallback new_array n a = (p, a') ->
  arena_ok a' (given ++ [(p, n)]) /\ p mod 8 = 0.
Proof.
  intros Hok Hn. unfold AllocateFallback. destruct (Z.gtb_spec n (kBlockSize / 4)) as [Hbig|Hsmall].
  - intros E. destruct (NewBlock_ok _ _ _ _ _ Hok E) as (Hok' & Hp & Hb & Hg & Hf & Efree).
    split; [|done]. destruct Hok' as [Hf' Hr' Hg' Ha' Hu'].
    assert (Er : alloc_bytes_remaining a' = alloc_bytes_remaining a) by (by injection Efree).
    split; [exact Hf'|exact Hr'| | |exact Hu'].
    + apply Forall_app. split; [done|]. constructor; [|done]. simpl. split; [done|].
      rewrite Er, Efree, Hb. split; [|done]. apply Exists_app. right. constructor. unfold inside. simpl. lia.
    + apply StronglySorted_snoc; [done|]. eapply Forall_impl; [exact Hg|]. intros r. unfold disjoint. simpl. lia.
  - destruct (AllocateNewBlock new_array kBlockSize a) as [b a1] eqn:E. intros [= <- <-].
    destruct (NewBlock_ok _ _ _ _ _ Hok E) as (Hok' & Hp & Hb & Hg & Hf & Efree).
    split; [|done]. change (kBlockSize / 4) with 1024 in Hsmall. 
    assert (Hok2 : arena_ok (mkArena b kBlockSize (blocks a1) (memory_usage a1)) given).
    { destruct Hok' as [Hf' Hr' Hg' Ha' Hu'].
      split; cbn [alloc_bytes_remaining blocks memory_usage alloc_ptr free]; [|unfold kBlockSize; lia| |done|done].
      - right. rewrite Hb. apply Exists_app. right. constructor. unfold inside, free. simpl. lia.
      - apply Forall_forall. intros r Hr. rewrite Forall_forall in Hg', Hg.
        destruct (Hg' r Hr) as (H1 & H2 & _). split; [done|]. split; [done|]. right.
        generalize (Hg r Hr). unfold disjoint, free. simpl. lia. }
    pose proof (bump_ok _ _ 0 n _ _ Hok2 ltac:(lia) Hn ltac:(cbn; unfold kBlockSize; lia) eq_refl) as H.
    cbn [alloc_ptr alloc_bytes_remaining blocks memory_usage] in H. by rewrite !Z.add_0_r in H.
Qed.

Lemma serve_ok a given r p a' : arena_ok a given -> 0 < request_size r < 2 ^ 31 -> serve r a = (p, a') ->
  arena_ok a' (given ++ [(p, request_size r)]) /\ match r with ReqAny _ => True | ReqAligned _ => p mod 8 = 0 end.
Proof.
  intros Hok Hn. destruct r as [n|n]; cbn [serve request_size] in *.
  - unfold Allocate. destruct (Z.leb_spec n (alloc_bytes_remaining a)); intros E; (split; [|done]).
    + by apply (bump_ok _ _ 0 n _ _ Hok); [lia..|].
    + by destruct (Fallback_ok a given n p a' Hok ltac:(lia) E).
  - unfold AllocateAligned. change (8 - 1) with (2 ^ 3 - 1). rewrite land_ones_mod by lia. change (2 ^ 3) with 8.
    set (slop := if alloc_ptr a mod 8 =? 0 then 0 else 8 - alloc_ptr a mod 8).
    assert (Hs : 0 <= slop < 8 /\ (alloc_ptr a + slop) mod 8 = 0).
    { subst slop. destruct (Z.eqb_spec (alloc_ptr a mod 8) 0) as [E|E]; split; try lia; [by rewrite Z.add_0_r|dlia..]. }
    rewrite usize_small by lia. destruct (Z.leb_spec (n + slop) (alloc_bytes_remaining a)); intros E.
    + split; [apply (bump_ok _ _ slop n _ _ Hok); [lia..|done]|]. injection E as <- <-. apply Hs.
    + apply (Fallback_ok a given n p a' Hok ltac:(lia) E).
Qed.

Lemma serve_all_ok rs : forall a given ps a',
  arena_ok a given -> Forall (fun r => 0 < request_size r < 2 ^ 31) rs -> serve_all rs a = (ps, a') ->
  arena_ok a' (given ++ zip ps (map request_size rs)) /\
  Forall2 (fun r p => match r with ReqAny _ => True | ReqAligned _ => p mod 8 = 0 end) rs ps.
Proof.
  induction rs as [|r rs IH]; intros a given ps a' Hok Hrs; cbn [serve_all].
  - intros [= <- <-]. by rewrite app_nil_r.
  - destruct (serve r a) as [p a1] eqn:E1. destruct (serve_all rs a1) as [ps1 a2] eqn:E2. intros [= <- <-].
    inversion_clear Hrs as [|?? Hr Hrs']. destruct (serve_ok _ _ _ _ _ Hok Hr E1) as [Hok1 Hal].
    destruct (IH _ _ _ _ Hok1 Hrs' E2) as [Hok2 Hals]. rewrite <- app_assoc in Hok2. split; [exact Hok2|by constructor].
Qed.

Lemma make_ok : arena_ok Arena_make [].
Proof. split; cbn; [by left|unfold kBlockSize; lia|constructor|constructor|done]. Qed.
End Runs.

(** Whatever requests of positive sizes below 2^31 an arena serves, the
    ranges it gives out do not overlap and each lies in a block; the addresses of
    the aligned ones are multiples of 8; and [MemoryUsage] is the size of the
    blocks with a pointer for each, modulo 2^32. *)
Theorem arena_allocations new_array `{!NewLaws new_array} rs ps a :
  Forall (fun r => 0 < request_size r < 2 ^ 31) rs -> serve_all new_array rs Arena_make = (ps, a) ->
  let given := zip ps (map request_size rs) in
  StronglySorted disjoint given /\ Forall (fun r => Exists (inside r) (blocks a)) given /\
  Forall2 (fun r p => match r with ReqAny _ => True | ReqAligned _ => p mod 8 = 0 end) rs ps /\
  MemoryUsage a = usize (foldr (fun (b : Z * Z) u => u + (snd b + 4)) 0 (blocks a)).
Proof.
  intros Hrs E. destruct (serve_all_ok new_array rs _ [] _ _ make_ok Hrs E) as [[Hf Hr Hg Ha Hu] Hal].
  split; [done|]. split; [|done]. eapply Forall_impl; [exact Hg|]. tauto.
Qed.

(** Memory in which blocks are put one after the other. *)
Definition next_array (bs : list (Z * Z)) (n : Z) : Z :=
  8 * (foldr (fun (b : Z * Z) m => Z.max (fst b + Z.max 0 (snd b)) m) 8 bs / 8 + 1) + 8 * Z.max 0 (- n).

#[export] Instance next_array_laws : NewLaws next_array.
Proof.
  split; unfold next_array; intros bs n; [dlia|].
  set (m := foldr _ 8 bs). apply Forall_forall. intros b Hb. right. cbn [fst].
  assert (H : fst b + Z.max 0 (snd b) <= m).
  { subst m. induction Hb as [|b c bs Hb IH]; simpl; lia. }
  dlia.
Qed.

Lemma arena_allocations_witness : exists ps a,
  serve_all next_array [ReqAny 13; ReqAligned 20; ReqAny 5000; ReqAligned 4000] Arena_make = (ps, a) /\
  ps = [16; 32; 4120; 56] /\ MemoryUsage a = 4100 + 5004.
Proof.
  eexists _, _. split; [reflexivity|]. split; [vm_compute; reflexivity|].
  destruct (arena_allocations next_array [ReqAny 13; ReqAligned 20; ReqAny 5000; ReqAligned 4000] _ _
    ltac:(repeat constructor) eq_refl) as (_ & _ & _ & H). rewrite H. vm_compute. reflexivity.
Defined.
