(* ===== verification/Env.v ===== *)
(** * Env: what the library asks of a file

    Models the file interfaces of [include/leveldb/env.h] and the helper
    functions of [util/env.cpp].  An implementation of an interface is a type of
    file states with the operations of the interface; what the callers rely on
    is the class of laws.  [Disk] is an implementation with a limited capacity:
    it succeeds and fails; [Handle] knows what a crash would leave of it. *)

From S2P Require Import Prelude Slice.

(** ** The interfaces *)

Class SequentialFile (F : Type) := {
  Read : Z -> F -> Status * bytes * F;
  Skip : Z -> F -> Status * F;
  unread : F -> bytes                  (* what is left to read *)
}.

Class SequentialFileLaws (F : Type) `{!SequentialFile F} := {
  Read_unread n f s d f' : Read n f = (s, d, f') -> unread f = d ++ unread f';
  Read_size n f s d f' : Read n f = (s, d, f') -> 0 <= n -> size_of d <= n;
  Read_short n f s d f' : Read n f = (s, d, f') -> ok s = true -> size_of d < n -> unread f' = [];
  Skip_unread n f s f' : Skip n f = (s, f') -> ok s = true -> unread f' = drop (Z.to_nat n) (unread f)
}.

Class WritableFile (F : Type) := {
  Append : bytes -> F -> Status * F;
  Flush : F -> Status * F;
  Sync : F -> Status * F;
  Close : F -> Status * F;
  written : F -> bytes                 (* what a reader of the file finds *)
}.

Class WritableFileLaws (F : Type) `{!WritableFile F} := {
  Append_ok d f s f' : Append d f = (s, f') -> ok s = true -> written f' = written f ++ d;
  Append_prefix d f s f' : Append d f = (s, f') -> exists e r, d = e ++ r /\ written f' = written f ++ e;
  Flush_written f s f' : Flush f = (s, f') -> written f' = written f;
  Sync_written f s f' : Sync f = (s, f') -> written f' = written f;
  Close_written f s f' : Close f = (s, f') -> written f' = written f
}.

(** What is on the medium whatever happens, and what is closed. *)
Class FileStates (F : Type) `{!WritableFile F} := {
  is_synced : F -> Prop;               (* all that was appended is on the medium *)
  is_closed : F -> Prop;
  Sync_synced f s f' : Sync f = (s, f') -> ok s = true -> is_synced f';
  Close_synced f s f' : Close f = (s, f') -> is_synced f -> is_synced f';
  Close_closed f s f' : Close f = (s, f') -> ok s = true -> is_closed f'
}.

Class RandomAccessFile (F : Type) := {
  ReadAt : Z -> Z -> F -> Status * bytes;      (* offset, n *)
  file_contents : F -> bytes
}.

Class RandomAccessFileLaws (F : Type) `{!RandomAccessFile F} := {
  ReadAt_ok off n f s d : ReadAt off n f = (s, d) -> ok s = true -> 0 <= off -> 0 <= n ->
    d = take (Z.to_nat n) (drop (Z.to_nat off) (file_contents f))
}.

(** ** The helpers of [util/env.cpp] *)

Section Helpers.
Context {F : Type}.

(** The rest of [DoWriteStringToFile] once the file is open.  The file is
    closed by its destructor if it was not closed before; [true]: the file is
    to be deleted. *)
Definition DoWriteStringToFile `{!WritableFile F} (data : bytes) (should_sync : bool) (file : F) :
    Status * F * bool :=
  let '(s, file) := Append data file in
  let '(s, file) := if ok s && should_sync then Sync file else (s, file) in
  let '(s, file) := if ok s then Close file else (s, file) in
  (s, file, negb (ok s)).

Definition kBufferSize : Z := 8192.

(** The loop of [ReadFileToString]; [None] when [fuel] reads are not enough. *)
Fixpoint ReadFileToString_loop `{!SequentialFile F} (fuel : nat) (data : bytes) (file : F) :
    option (Status * bytes) :=
  match fuel with
  | O => None
  | S fuel =>
      let '(s, fragment, file) := Read kBufferSize file in
      if negb (ok s) then Some (s, data)
      else
        let data := data ++ fragment in
        if size_of fragment =? 0 then Some (s, data)
        else ReadFileToString_loop fuel data file
  end.

Definition ReadFileToString `{!SequentialFile F} (file : F) : option (Status * bytes) :=
  ReadFileToString_loop (S (length (unread file))) [] file.
End Helpers.

(** ** A file that can be full, and a file whose medium fails at a position *)

(** Contents and capacity. *)
Record Disk : Type := mkDisk { disk_data : bytes; disk_room : nat }.

#[export] Instance Disk_WritableFile : WritableFile Disk := {|
  Append d f :=
    let n := length d in
    if (n <=? disk_room f)%nat then (OK, mkDisk (disk_data f ++ d) (disk_room f - n))
    else (IOError (str "append") (str "no space"), mkDisk (disk_data f ++ take (disk_room f) d) 0);
  Flush f := (OK, f);
  Sync f := (OK, f);
  Close f := (OK, f);
  written := disk_data
|}.

#[export] Instance Disk_WritableFileLaws : WritableFileLaws Disk.
Proof.
  split; simpl.
  - intros d f s f'. destruct (_ <=? _)%nat; intros [= <- <-]; done.
  - intros d f s f'. destruct (_ <=? _)%nat; intros [= <- <-].
    + exists d, []. by rewrite app_nil_r.
    + exists (take (disk_room f) d), (drop (disk_room f) d). by rewrite take_drop.
  - by intros f s f' [= <- <-].
  - by intros f s f' [= <- <-].
  - by intros f s f' [= <- <-].
Qed.

(** Contents, the number of bytes on the medium, and whether the file is open. *)
Record Handle : Type := mkHandle { h_data : bytes; h_synced : nat; h_open : bool }.

#[export] Instance Handle_WritableFile : WritableFile Handle := {|
  Append d f := (OK, mkHandle (h_data f ++ d) (h_synced f) (h_open f));
  Flush f := (OK, f);
  Sync f := (OK, mkHandle (h_data f) (length (h_data f)) (h_open f));
  Close f := (OK, mkHandle (h_data f) (h_synced f) false);
  written := h_data
|}.

#[export] Instance Handle_WritableFileLaws : WritableFileLaws Handle.
Proof.
  split; simpl; try by intros f s f' [= <- <-].
  - by intros d f s f' [= <- <-].
  - intros d f s f' [= <- <-]. exists d, []. by rewrite app_nil_r.
Qed.

#[export] Instance Handle_FileStates : FileStates Handle.
Proof.
  refine {| is_synced f := h_synced f = length (h_data f); is_closed f := h_open f = false |}.
  all: by intros f s f' [= <- <-].
Defined.

(** The bytes left, and the number of bytes before a read error. *)
Record Tape : Type := mkTape { tape_data : bytes; tape_good : nat }.

#[export] Instance Tape_SequentialFile : SequentialFile Tape := {|
  Read n f :=
    let d := take (Z.to_nat n) (tape_data f) in
    let m := length d in
    if (m <=? tape_good f)%nat then (OK, d, mkTape (drop m (tape_data f)) (tape_good f - m))
    else (IOError (str "read") (str "medium error"), take (tape_good f) d,
          mkTape (drop (tape_good f) (tape_data f)) 0);
  Skip n f := (OK, mkTape (drop (Z.to_nat n) (tape_data f)) (tape_good f - Z.to_nat n));
  unread := tape_data
|}.

#[export] Instance Tape_SequentialFileLaws : SequentialFileLaws Tape.
Proof.
  split; simpl.
  - intros n f s d f'. destruct (Nat.leb_spec (length (take (Z.to_nat n) (tape_data f))) (tape_good f));
      intros [= <- <- <-]; simpl.
    + rewrite length_take. destruct (decide (Z.to_nat n <= length (tape_data f))%nat).
      * rewrite Nat.min_l by done. by rewrite take_drop.
      * rewrite Nat.min_r, drop_all, app_nil_r by lia. by rewrite take_ge by lia.
    + rewrite length_take in *. rewrite take_take, Nat.min_l by lia. by rewrite take_drop.
  - intros n f s d f'. destruct (_ <=? _)%nat; intros [= <- <- <-] ?; len.
  - intros n f s d f'. destruct (_ <=? _)%nat; intros [= <- <- <-]; simpl; [|done].
    intros _ H. unfold size_of in H. rewrite length_take in *.
    rewrite Nat.min_r by lia. apply drop_all.
  - by intros n f s f' [= <- <-].
Qed.

#[export] Instance bytes_RandomAccessFile : RandomAccessFile bytes := {|
  ReadAt off n f :=
    if off <=? size_of f then (OK, take (Z.to_nat n) (drop (Z.to_nat off) f))
    else (IOError (str "read") (str "past the end"), []);
  file_contents f := f
|}.

#[export] Instance bytes_RandomAccessFileLaws : RandomAccessFileLaws bytes.
Proof. split. intros off n f s d; simpl. destruct (_ <=? _); by intros [= <- <-]. Qed.

(** ** Reading back what was written *)

Section ReadBack.
Context {F : Type} `{!SequentialFile F} `{!SequentialFileLaws F}.

Lemma ReadFileToString_loop_spec fuel data (file : F) :
  (length (unread file) < fuel)%nat -> exists s d,
  ReadFileToString_loop fuel data file = Some (s, d) /\
  (ok s = true -> d = data ++ unread file) /\ exists k, d = data ++ take k (unread file).
Proof.
  revert data file. induction fuel as [|fuel IH]; intros data file Hf; [lia|]. simpl.
  destruct (Read kBufferSize file) as [[s d] file'] eqn:E.
  pose proof (Read_unread _ _ _ _ _ E) as Eu.
  destruct (ok s) eqn:Es; simpl.
  2:{ exists s, data. split; [done|]. split; [congruence|]. exists O. by rewrite app_nil_r. }
  destruct (Z.eqb_spec (size_of d) 0) as [Ed|Ed].
  - assert (Eu' : unread file' = []) by (apply (Read_short _ _ _ _ _ E Es); unfold kBufferSize; lia).
    exists s, (data ++ d). split; [done|]. rewrite Eu, Eu', app_nil_r.
    split; [done|]. exists (length d). by rewrite firstn_all.
  - destruct (IH (data ++ d) file') as (s' & d' & E' & Hok & k & Hk).
    { rewrite Eu in Hf. len. }
    exists s', d'. split; [done|]. rewrite Eu. split; [intros H; rewrite (Hok H); by rewrite app_assoc|].
    exists (length d + k)%nat. by rewrite take_app_add, app_assoc, Hk.
Qed.

(** [ReadFileToString] returns; with the whole contents when it succeeds. *)
Lemma ReadFileToString_spec (file : F) : exists s d,
  ReadFileToString file = Some (s, d) /\ (ok s = true -> d = unread file).
Proof.
  destruct (ReadFileToString_loop_spec (S (length (unread file))) [] file) as (s & d & E & H & _); [lia|].
  by exists s, d.
Qed.
End ReadBack.

Section WriteBack.
Context {F : Type} `{!WritableFile F} `{!WritableFileLaws F}.

Lemma DoWriteStringToFile_ok data sync (file : F) s file' del :
  DoWriteStringToFile data sync file = (s, file', del) -> ok s = true ->
  written file' = written file ++ data /\ del = false.
Proof.
  unfold DoWriteStringToFile. destruct (Append data file) as [s1 f1] eqn:E1.
  destruct (if ok s1 && sync then Sync f1 else (s1, f1)) as [s2 f2] eqn:E2.
  destruct (if ok s2 then Close f2 else (s2, f2)) as [s3 f3] eqn:E3.
  intros [= <- <- <-] Hok. rewrite Hok. split; [|done].
  assert (H3 : written f3 = written f2 /\ ok s2 = true).
  { destruct (ok s2) eqn:?; [|congruence]. split; [by apply Close_written in E3|done]. }
  destruct H3 as [-> H3]. assert (H2 : written f2 = written f1 /\ ok s1 = true).
  { destruct (ok s1) eqn:?; simpl in E2; [|congruence]. destruct sync; [|split; congruence].
    split; [by apply Sync_written in E2|done]. }
  destruct H2 as [-> H2]. by apply (Append_ok _ _ _ _ E1).
Qed.
End WriteBack.

(** A string written with [WriteStringToFile] or [WriteStringToFileSync]
    to a new file is what [ReadFileToString] reads from it, when both succeed;
    a failed write asks for the file to be deleted. *)
Theorem write_string_read_back {W R : Type} `{!WritableFile W} `{!WritableFileLaws W}
    `{!SequentialFile R} `{!SequentialFileLaws R} (data : bytes) (sync : bool) (file file' : W)
    (s : Status) (del : bool) (r : R) :
  written file = [] -> DoWriteStringToFile data sync file = (s, file', del) ->
  unread r = written file' ->
  del = negb (ok s) /\ exists s' d, ReadFileToString r = Some (s', d) /\
    (ok s = true -> ok s' = true -> d = data).
Proof.
  intros Ew E Er. destruct (ReadFileToString_spec r) as (s' & d & E' & Hd). split.
  - revert E. unfold DoWriteStringToFile. repeat case_match; congruence.
  - exists s', d. split; [done|]. intros Hs Hs'.
    rewrite (Hd Hs'), Er. destruct (DoWriteStringToFile_ok _ _ _ _ _ _ E Hs) as [-> _].
    by rewrite Ew.
Qed.

Lemma write_string_read_back_witness :
  false = negb (ok OK) /\ exists s' d, ReadFileToString (mkTape (str "hello") 100) = Some (s', d) /\
    (ok OK = true -> ok s' = true -> d = str "hello").
Proof.
  apply (write_string_read_back (str "hello") true (mkDisk [] 10) (mkDisk (str "hello") 5));
    reflexivity.
Defined.
