(* ===== verification/Log.v ===== *)
(** * Log: the write-ahead log

    Models [db/log_format.h], [db/log_writer.cpp] and [db/log_reader.cpp].  A
    [Writer] appends physical records to a [WritableFile]; a [Reader] reads the
    blocks of a [SequentialFile] and reassembles the records.  What the reader
    tells its [Reporter] is the list [reports]. *)

From S2P Require Import Prelude Coding Slice Logging Crc32c Env.

(** ** log_format.h *)

Inductive RecordType : Type := kZeroType | kFullType | kFirstType | kMiddleType | kLastType.

Definition record_type_code (t : RecordType) : Z :=
  match t with kZeroType => 0 | kFullType => 1 | kFirstType => 2 | kMiddleType => 3 | kLastType => 4 end.

Definition kMaxRecordType : Z := record_type_code kLastType.
Definition kBlockSize : Z := 32768.
Definition kHeaderSize : Z := 4 + 2 + 1.

(** ** log_writer.cpp *)

(** [InitTypeCrc]: the array [type_crc_]. *)
Definition InitTypeCrc : list Z := map (fun i => Value [z2b i]) (seqZ 0 (kMaxRecordType + 1)).

Record Writer (F : Type) : Type := mkWriter {
  dest : F;
  block_offset : Z;
  type_crc : list Z
}.
Arguments mkWriter {F}.
Arguments dest {F}.
Arguments block_offset {F}.
Arguments type_crc {F}.

Section Writer.
Context {F : Type} `{!WritableFile F}.

Definition Writer_make (dest : F) : Writer F := mkWriter dest 0 InitTypeCrc.
Definition Writer_reopen (dest : F) (dest_length : Z) : Writer F :=
  mkWriter dest (dest_length mod kBlockSize) InitTypeCrc.

Definition EmitPhysicalRecord (t : RecordType) (ptr : bytes) (w : Writer F) : Status * Writer F :=
  let n := size_of ptr in
  let crc := Extend (nth (Z.to_nat (record_type_code t)) (type_crc w) 0) ptr in
  let crc := Mask crc in
  let buf := EncodeFixed32 crc ++
    [z2b (Z.land n 0xff); z2b (Z.shiftr n 8); z2b (record_type_code t)] in
  let '(s, f) := Append buf (dest w) in
  let '(s, f) :=
    if ok s then
      let '(s, f) := Append ptr f in
      if ok s then Flush f else (s, f)
    else (s, f) in
  (s, mkWriter f (block_offset w + (kHeaderSize + n)) (type_crc w)).

(** The part of an iteration of [AddRecord] that switches to a new block; the
    status of the trailer is dropped. *)
Definition SwitchBlock (w : Writer F) : Writer F :=
  let leftover := kBlockSize - block_offset w in
  if leftover <? kHeaderSize then
    let f := if leftover >? 0
             then snd (Append (take (Z.to_nat leftover) (replicate 6 Byte.x00)) (dest w))
             else dest w in
    mkWriter f 0 (type_crc w)
  else w.

(** The loop of [AddRecord]; [None] when [fuel] iterations are not enough. *)
Fixpoint AddRecord_loop (fuel : nat) (begin : bool) (ptr : bytes) (w : Writer F) :
    option (Status * Writer F) :=
  match fuel with
  | O => None
  | S fuel =>
      let left := size_of ptr in
      let w := SwitchBlock w in
      let avail := kBlockSize - block_offset w - kHeaderSize in
      let fragment_length := if left <? avail then left else avail in
      let end_ := left =? fragment_length in
      let type :=
        if begin && end_ then kFullType
        else if begin then kFirstType
        else if end_ then kLastType
        else kMiddleType in
      let '(s, w) := EmitPhysicalRecord type (take (Z.to_nat fragment_length) ptr) w in
      let ptr := drop (Z.to_nat fragment_length) ptr in
      let left := left - fragment_length in
      if ok s && (left >? 0) then AddRecord_loop fuel false ptr w else Some (s, w)
  end.

(** An iteration that leaves something fills its block, and only the first one
    can find a block with room for a header alone. *)
Definition AddRecord (slice : bytes) (w : Writer F) : option (Status * Writer F) :=
  AddRecord_loop (length slice + 2) true slice w.
End Writer.

(** ** log_reader.cpp *)

Record Reader (F : Type) : Type := mkReader {
  file : F;
  reporter : bool;                       (* reporter_ != NULL *)
  reports : list (Z * Status);           (* the calls of reporter_->Corruption *)
  checksum : bool;
  buffer : bytes;
  eof : bool;
  last_record_offset : Z;
  end_of_buffer_offset : Z;
  initial_offset : Z;
  resyncing : bool
}.
Arguments mkReader {F}.
Arguments file {F}.
Arguments reporter {F}.
Arguments reports {F}.
Arguments checksum {F}.
Arguments buffer {F}.
Arguments eof {F}.
Arguments last_record_offset {F}.
Arguments end_of_buffer_offset {F}.
Arguments initial_offset {F}.
Arguments resyncing {F}.

Definition kEof : Z := kMaxRecordType + 1.
Definition kBadRecord : Z := kMaxRecordType + 2.

Section Reader.
Context {F : Type} `{!SequentialFile F}.

Definition set_buffer (b : bytes) (r : Reader F) : Reader F :=
  mkReader (file r) (reporter r) (reports r) (checksum r) b (eof r) (last_record_offset r)
    (end_of_buffer_offset r) (initial_offset r) (resyncing r).
Definition set_file (f : F) (r : Reader F) : Reader F :=
  mkReader f (reporter r) (reports r) (checksum r) (buffer r) (eof r) (last_record_offset r)
    (end_of_buffer_offset r) (initial_offset r) (resyncing r).
Definition set_reports (l : list (Z * Status)) (r : Reader F) : Reader F :=
  mkReader (file r) (reporter r) l (checksum r) (buffer r) (eof r) (last_record_offset r)
    (end_of_buffer_offset r) (initial_offset r) (resyncing r).
Definition set_eof (e : bool) (r : Reader F) : Reader F :=
  mkReader (file r) (reporter r) (reports r) (checksum r) (buffer r) e (last_record_offset r)
    (end_of_buffer_offset r) (initial_offset r) (resyncing r).
Definition set_last_record_offset (o : Z) (r : Reader F) : Reader F :=
  mkReader (file r) (reporter r) (reports r) (checksum r) (buffer r) (eof r) o
    (end_of_buffer_offset r) (initial_offset r) (resyncing r).
Definition set_end_of_buffer_offset (o : Z) (r : Reader F) : Reader F :=
  mkReader (file r) (reporter r) (reports r) (checksum r) (buffer r) (eof r) (last_record_offset r)
    o (initial_offset r) (resyncing r).
Definition set_resyncing (b : bool) (r : Reader F) : Reader F :=
  mkReader (file r) (reporter r) (reports r) (checksum r) (buffer r) (eof r) (last_record_offset r)
    (end_of_buffer_offset r) (initial_offset r) b.

Definition Reader_make (file : F) (reporter checksum : bool) (initial_offset : Z) : Reader F :=
  mkReader file reporter [] checksum [] false 0 0 initial_offset (initial_offset >? 0).

Definition ReportDrop (dropped : Z) (reason : Status) (r : Reader F) : Reader F :=
  if reporter r &&
     (u64 (end_of_buffer_offset r - size_of (buffer r) - dropped) >=? initial_offset r)
  then set_reports (reports r ++ [(usize dropped, reason)]) r
  else r.

Definition ReportCorruption (dropped : Z) (reason : bytes) (r : Reader F) : Reader F :=
  ReportDrop dropped (Corruption reason []) r.

Definition SkipToInitialBlock (r : Reader F) : bool * Reader F :=
  let offset_in_block := initial_offset r mod kBlockSize in
  let block_start_location := initial_offset r - offset_in_block in
  let block_start_location :=
    if offset_in_block >? kBlockSize - 6 then u64 (block_start_location + kBlockSize)
    else block_start_location in
  let r := set_end_of_buffer_offset block_start_location r in
  if block_start_location >? 0 then
    let '(skip_status, f) := Skip block_start_location (file r) in
    let r := set_file f r in
    if negb (ok skip_status) then (false, ReportDrop block_start_location skip_status r)
    else (true, r)
  else (true, r).

(** [ReadPhysicalRecord] from the parsing of the header on: the result, the new
    value of [*result] and the state. *)
Definition ParsePhysicalRecord (fragment : bytes) (r : Reader F) : Z * bytes * Reader F :=
  let header := buffer r in
  let a := Z.land (uchar_at header 4) 0xff in
  let b := Z.land (uchar_at header 5) 0xff in
  let type := uchar_at header 6 in
  let length := Z.lor a (Z.shiftl b 8) in
  if kHeaderSize + length >? size_of (buffer r) then
    let drop_size := size_of (buffer r) in
    let r := set_buffer [] r in
    if negb (eof r) then
      (kBadRecord, fragment, ReportCorruption drop_size (str "bad record length") r)
    else (kEof, fragment, r)
  else if (type =? 0) && (length =? 0) then (kBadRecord, fragment, set_buffer [] r)
  else if checksum r &&
          negb (Value (take (Z.to_nat (1 + length)) (drop 6 header)) =?
                Unmask (DecodeFixed32 header)) then
    let drop_size := size_of (buffer r) in
    let r := set_buffer [] r in
    (kBadRecord, fragment, ReportCorruption drop_size (str "checksum mismatch") r)
  else
    let r := set_buffer (drop (Z.to_nat (kHeaderSize + length)) header) r in
    if u64 (end_of_buffer_offset r - size_of (buffer r) - kHeaderSize - length)
         <? initial_offset r
    then (kBadRecord, [], r)
    else (type, take (Z.to_nat length) (drop (Z.to_nat kHeaderSize) header), r).

(** The loop of [ReadPhysicalRecord]; after one read it returns, whatever was
    read ([ReadPhysicalRecord_two]). *)
Fixpoint ReadPhysicalRecord_loop (fuel : nat) (fragment : bytes) (r : Reader F) :
    option (Z * bytes * Reader F) :=
  match fuel with
  | O => None
  | S fuel =>
      if size_of (buffer r) <? kHeaderSize then
        if negb (eof r) then
          let r := set_buffer [] r in
          let '(status, data, f) := Read kBlockSize (file r) in
          let r := set_file f (set_buffer data r) in
          let r := set_end_of_buffer_offset
                     (u64 (end_of_buffer_offset r + size_of (buffer r))) r in
          if negb (ok status) then
            let r := set_buffer [] r in
            let r := ReportDrop kBlockSize status r in
            Some (kEof, fragment, set_eof true r)
          else
            let r := if size_of (buffer r) <? kBlockSize then set_eof true r else r in
            ReadPhysicalRecord_loop fuel fragment r
        else Some (kEof, fragment, set_buffer [] r)
      else Some (ParsePhysicalRecord fragment r)
  end.

Definition ReadPhysicalRecord (fragment : bytes) (r : Reader F) : option (Z * bytes * Reader F) :=
  ReadPhysicalRecord_loop 2 fragment r.

(** The locals of [ReadRecord]: [fragment], [scratch],
    [in_fragmented_record], [prospective_record_offset]. *)
Record Locals : Type := mkLocals {
  l_fragment : bytes;
  l_scratch : bytes;
  l_in_fragmented_record : bool;
  l_prospective_record_offset : Z
}.

(** The outcome of an iteration: return [Some record] or [None] (false), or go
    on. *)
Inductive Outcome : Type :=
| Return (record : option bytes)
| Continue (l : Locals).

(** One iteration of the loop of [ReadRecord] after [ReadPhysicalRecord]. *)
Definition HandleRecord (record_type : Z) (l : Locals) (r : Reader F) : Outcome * Reader F :=
  let fragment := l_fragment l in
  let scratch := l_scratch l in
  let in_fragmented_record := l_in_fragmented_record l in
  let prospective := l_prospective_record_offset l in
  let physical_record_offset :=
    u64 (end_of_buffer_offset r - size_of (buffer r) - kHeaderSize - size_of fragment) in
  if resyncing r && (record_type =? record_type_code kMiddleType) then (Continue l, r)
  else if resyncing r && (record_type =? record_type_code kLastType) then
    (Continue l, set_resyncing false r)
  else
  let r := if resyncing r then set_resyncing false r else r in
  if record_type =? record_type_code kFullType then
    let r := if in_fragmented_record && negb (size_of scratch =? 0)
             then ReportCorruption (size_of scratch) (str "partial record without end(1)") r else r in
    (Return (Some fragment), set_last_record_offset physical_record_offset r)
  else if record_type =? record_type_code kFirstType then
    let r := if in_fragmented_record && negb (size_of scratch =? 0)
             then ReportCorruption (size_of scratch) (str "partial record without end(2)") r else r in
    (Continue (mkLocals fragment fragment true physical_record_offset), r)
  else if record_type =? record_type_code kMiddleType then
    if negb in_fragmented_record then
      (Continue l, ReportCorruption (size_of fragment) (str "missing start of fragmented record(1)") r)
    else (Continue (mkLocals fragment (scratch ++ fragment) true prospective), r)
  else if record_type =? record_type_code kLastType then
    if negb in_fragmented_record then
      (Continue l, ReportCorruption (size_of fragment) (str "missing start of fragmented record(2)") r)
    else (Return (Some (scratch ++ fragment)), set_last_record_offset prospective r)
  else if record_type =? kEof then (Return None, r)
  else if record_type =? kBadRecord then
    if in_fragmented_record then
      (Continue (mkLocals fragment [] false prospective),
       ReportCorruption (size_of scratch) (str "error in middle of record") r)
    else (Continue l, r)
  else
    (Continue (mkLocals fragment [] false prospective),
     ReportCorruption (size_of fragment + (if in_fragmented_record then size_of scratch else 0))
       (str "unknown record type " ++ NumberToString record_type) r).

(** The loop of [ReadRecord]; [None] when [fuel] iterations are not enough. *)
Fixpoint ReadRecord_loop (fuel : nat) (l : Locals) (r : Reader F) : option (option bytes * Reader F) :=
  match fuel with
  | O => None
  | S fuel =>
      match ReadPhysicalRecord (l_fragment l) r with
      | None => None
      | Some (record_type, fragment, r) =>
          let l := mkLocals fragment (l_scratch l) (l_in_fragmented_record l)
                     (l_prospective_record_offset l) in
          match HandleRecord record_type l r with
          | (Return record, r) => Some (record, r)
          | (Continue l, r) => ReadRecord_loop fuel l r
          end
      end
  end.

(** An iteration that does not return has consumed bytes. *)
Definition ReadRecord (r : Reader F) : option (option bytes * Reader F) :=
  let '(found, r) :=
    if last_record_offset r <? initial_offset r then SkipToInitialBlock r else (true, r) in
  if negb found then Some (None, r)
  else ReadRecord_loop (S (length (buffer r) + length (unread (file r)))) (mkLocals [] [] false 0) r.

(** [while (reader.ReadRecord(&record, &scratch))], the loop of the clients. *)
Fixpoint ReadAll_loop (fuel : nat) (r : Reader F) : option (list bytes * Reader F) :=
  match fuel with
  | O => None
  | S fuel =>
      match ReadRecord r with
      | None => None
      | Some (None, r) => Some ([], r)
      | Some (Some record, r) =>
          match ReadAll_loop fuel r with
          | None => None
          | Some (records, r) => Some (record :: records, r)
          end
      end
  end.

Definition ReadAll (r : Reader F) : option (list bytes * Reader F) :=
  ReadAll_loop (S (length (buffer r) + length (unread (file r)))) r.
End Reader.

(** ** The format *)

(** The bytes of a physical record. *)
Definition physical_record (t : Z) (d : bytes) : bytes :=
  EncodeFixed32 (Mask (Value (z2b t :: d))) ++
  [z2b (Z.land (size_of d) 0xff); z2b (Z.shiftr (size_of d) 8); z2b t] ++ d.

(** The zeros that a writer at offset [o] of a block puts before a record, and
    the offset of the record. *)
Definition pad (o : Z) : nat := if kBlockSize - o <? kHeaderSize then Z.to_nat (kBlockSize - o) else O.
Definition block_start (o : Z) : Z := if kBlockSize - o <? kHeaderSize then 0 else o.

(** [layout o items out o']: the physical records [items], written from offset
    [o] of a block, are the bytes [out] and end at offset [o']. *)
Inductive layout : Z -> list (Z * bytes) -> bytes -> Z -> Prop :=
| layout_nil o : layout o [] [] o
| layout_cons o t d items out o' :
    1 <= t <= 4 -> block_start o + kHeaderSize + size_of d <= kBlockSize ->
    layout (block_start o + kHeaderSize + size_of d) items out o' ->
    layout o ((t, d) :: items) (replicate (pad o) Byte.x00 ++ physical_record t d ++ out) o'.

(** [assembles items record]: a whole record, or its fragments in order. *)
Inductive tail_assembles : list (Z * bytes) -> bytes -> Prop :=
| tail_last d : tail_assembles [(4, d)] d
| tail_middle d items record :
    tail_assembles items record -> tail_assembles ((3, d) :: items) (d ++ record).
Inductive assembles : list (Z * bytes) -> bytes -> Prop :=
| assembles_full d : assembles [(1, d)] d
| assembles_first d items record :
    tail_assembles items record -> assembles ((2, d) :: items) (d ++ record).

Lemma length_physical_record t d : length (physical_record t d) = (7 + length d)%nat.
Proof. unfold physical_record. rewrite !length_app, length_EncodeFixed32. simpl. lia. Qed.

Lemma size_of_physical_record t d : size_of (physical_record t d) = kHeaderSize + size_of d.
Proof. unfold size_of. rewrite length_physical_record. unfold kHeaderSize. lia. Qed.

Lemma physical_record_eq t d : physical_record t d =
  (EncodeFixed32 (Mask (Value (z2b t :: d))) ++
   [z2b (Z.land (size_of d) 0xff); z2b (Z.shiftr (size_of d) 8); z2b t]) ++ d.
Proof. unfold physical_record. by rewrite <- app_assoc. Qed.
#[local] Opaque physical_record.

Lemma layout_app o l out o1 l' out' o2 :
  layout o l out o1 -> layout o1 l' out' o2 -> layout o (l ++ l') (out ++ out') o2.
Proof.
  induction 1; intros H'; simpl; [done|]. rewrite <- !app_assoc. constructor; auto.
Qed.

(** The end of a block and the start of the next one are the same place. *)
Lemma layout_block_end l out o' : l <> [] -> layout 0 l out o' -> layout kBlockSize l out o'.
Proof. intros Hl H. inversion H; subst; [done|]. by apply (layout_cons kBlockSize). Qed.

Lemma layout_end_range o l out o' : layout o l out o' -> 0 <= o <= kBlockSize -> 0 <= o' <= kBlockSize.
Proof.
  induction 1; intros Ho; [done|]. apply IHlayout. pose proof (size_of_nonneg d).
  unfold block_start, kHeaderSize in *. case_match; lia.
Qed.

Lemma layout_end_mod o l out o' :
  layout o l out o' -> 0 <= o <= kBlockSize -> o' mod kBlockSize = (o + size_of out) mod kBlockSize.
Proof.
  induction 1; intros Ho; [unfold size_of; f_equal; simpl; lia|].
  pose proof (size_of_nonneg d). unfold kBlockSize in *.
  rewrite IHlayout by (unfold block_start, kHeaderSize in *; case_match; lia).
  rewrite !size_of_app, size_of_physical_record. unfold size_of at 3. rewrite length_replicate.
  unfold block_start, pad. destruct (Z.ltb_spec (kBlockSize - o) kHeaderSize) as [Hlt|].
  - unfold kBlockSize in *.
    replace (o + _) with (0 + kHeaderSize + size_of d + size_of out + 1 * 32768) by lia.
    by rewrite Z.mod_add by lia.
  - f_equal. lia.
Qed.

Lemma assembles_nonempty l r : assembles l r -> l <> [].
Proof. by inversion 1. Qed.

(** ** The writer *)

(** A file whose operations always succeed. *)
Class ReliableFile (F : Type) `{!WritableFile F} : Prop := {
  Append_succeeds d f : ok (fst (Append d f)) = true;
  Flush_succeeds f : ok (fst (Flush f)) = true
}.

Lemma type_crc_at t : 0 <= t <= 4 -> nth (Z.to_nat t) InitTypeCrc 0 = Value [z2b t].
Proof.
  intros. assert (t = 0 \/ t = 1 \/ t = 2 \/ t = 3 \/ t = 4) as [->|[->|[->|[->| ->]]]] by lia; done.
Qed.

Lemma Extend_type_crc t d : size_of d + 4 < 2 ^ 32 -> Extend (Value [z2b t]) d = Value (z2b t :: d).
Proof.
  intros. pose proof (size_of_nonneg d). unfold Value.
  assert (size_of [z2b t] = 1) by done.
  assert (size_of (z2b t :: d) = 1 + size_of d) by apply size_of_cons.
  rewrite (Extend_spec 0), (Extend_spec 0) by lia.
  rewrite Extend_spec by (try apply crc32c_reference_range; lia).
  by rewrite crc32c_reference_app.
Qed.

Section WriterProofs.
Context {F : Type} `{!WritableFile F} `{!WritableFileLaws F}.

Lemma EmitPhysicalRecord_ok t d (w w' : Writer F) s :
  type_crc w = InitTypeCrc -> size_of d <= 0xffff ->
  EmitPhysicalRecord t d w = (s, w') ->
  block_offset w' = block_offset w + kHeaderSize + size_of d /\ type_crc w' = InitTypeCrc /\
  (ok s = true -> written (dest w') = written (dest w) ++ physical_record (record_type_code t) d).
Proof.
  intros Ht Hd. unfold EmitPhysicalRecord. rewrite Ht, type_crc_at, Extend_type_crc by (destruct t; simpl; lia).
  destruct (Append _ (dest w)) as [s1 f1] eqn:E1.
  destruct (Append d f1) as [s2 f2] eqn:E2. destruct (Flush f2) as [s3 f3] eqn:E3.
  destruct (ok s1) eqn:Hs1; [destruct (ok s2) eqn:Hs2|]; intros [= <- <-]; simpl;
    (split; [lia|]); (split; [done|]); intros Hs; try congruence.
  apply Flush_written in E3 as ->. apply Append_ok in E2 as ->; [|done].
  apply Append_ok in E1 as ->; [|done]. by rewrite physical_record_eq, <- !app_assoc.
Qed.

(** [AddRecord] returns, with or without an error, and can be called again. *)
Lemma AddRecord_loop_returns fuel begin d (w : Writer F) : type_crc w = InitTypeCrc -> 0 <= block_offset w <= kBlockSize ->
  (length d + (if bool_decide (block_offset w = (kBlockSize - kHeaderSize)%Z) then 2 else 1) <= fuel)%nat ->
  exists s w', AddRecord_loop fuel begin d w = Some (s, w') /\ type_crc w' = InitTypeCrc /\ 0 <= block_offset w' <= kBlockSize.
Proof using WritableFileLaws0.
  revert begin d w. induction fuel as [|fuel IH]; intros begin d w Ht Hb Hf; [case_match; lia|]. cbn [AddRecord_loop].
  assert (Hs : type_crc (SwitchBlock w) = InitTypeCrc /\ 0 <= block_offset (SwitchBlock w) <= kBlockSize - kHeaderSize /\
    (block_offset (SwitchBlock w) = kBlockSize - kHeaderSize -> block_offset w = kBlockSize - kHeaderSize)).
  { unfold SwitchBlock. destruct (Z.ltb_spec (kBlockSize - block_offset w) kHeaderSize); cbn [type_crc block_offset]; unfold kHeaderSize, kBlockSize in *; split; try done; lia. }
  revert Hs. generalize (SwitchBlock w). intros w1 (Ht1 & Hb1 & Hfull). pose proof (size_of_nonneg d). set (avail := kBlockSize - block_offset w1 - kHeaderSize).
  set (n := if size_of d <? avail then size_of d else avail). assert (Hn : n = Z.min (size_of d) avail) by (subst n; destruct (Z.ltb_spec (size_of d) avail); lia). clearbody n.
  assert (Hlen : size_of (take (Z.to_nat n) d) = n) by (unfold size_of, avail in *; rewrite length_take; lia).
  match goal with |- context [EmitPhysicalRecord ?t _ w1] => destruct (EmitPhysicalRecord t (take (Z.to_nat n) d) w1) as [s w2] eqn:EE end.
  apply EmitPhysicalRecord_ok in EE as (Eb & Et & _); [|done|unfold avail, kBlockSize, kHeaderSize in *; lia]. rewrite Hlen in Eb.
  destruct (ok s && (size_of d - n >? 0)) eqn:Eg; [|exists s, w2; split; [done|split; [done|unfold avail, kBlockSize, kHeaderSize in *; lia]]].
  apply andb_true_iff in Eg as [_ Eg]. apply Z.gtb_lt in Eg. apply IH; [done|unfold avail, kBlockSize, kHeaderSize in *; lia|]. rewrite length_drop, Eb. unfold size_of, avail in *.
  rewrite bool_decide_eq_false_2 by (unfold kBlockSize, kHeaderSize in *; lia). destruct (bool_decide_reflect (block_offset w = kBlockSize - kHeaderSize)); unfold kBlockSize, kHeaderSize in *; lia.
Qed.

Lemma AddRecord_total d (w : Writer F) : type_crc w = InitTypeCrc -> 0 <= block_offset w <= kBlockSize ->
  exists s w', AddRecord d w = Some (s, w') /\ type_crc w' = InitTypeCrc /\ 0 <= block_offset w' <= kBlockSize.
Proof using WritableFileLaws0. intros Ht Hb. apply AddRecord_loop_returns; [done|done|case_match; lia]. Qed.

Context `{!ReliableFile F}.

Lemma EmitPhysicalRecord_succeeds t d (w : Writer F) : ok (fst (EmitPhysicalRecord t d w)) = true.
Proof.
  unfold EmitPhysicalRecord. pose proof Append_succeeds as HA. pose proof Flush_succeeds as HF.
  destruct (Append _ (dest w)) as [s1 f1] eqn:E1.
  destruct (Append d f1) as [s2 f2] eqn:E2. destruct (Flush f2) as [s3 f3] eqn:E3.
  pose proof (HA (EncodeFixed32 (Mask (Extend (nth (Z.to_nat (record_type_code t)) (type_crc w) 0) d)) ++
    [z2b (Z.land (size_of d) 0xff); z2b (Z.shiftr (size_of d) 8); z2b (record_type_code t)]) (dest w)) as H1.
  pose proof (HA d f1) as H2. pose proof (HF f2) as H3.
  rewrite E1 in H1. rewrite E2 in H2. rewrite E3 in H3. simpl in *. by rewrite H1, H2.
Qed.

Lemma SwitchBlock_spec (w : Writer F) :
  0 <= block_offset w <= kBlockSize ->
  block_offset (SwitchBlock w) = block_start (block_offset w) /\ type_crc (SwitchBlock w) = type_crc w /\
  written (dest (SwitchBlock w)) = written (dest w) ++ replicate (pad (block_offset w)) Byte.x00.
Proof.
  intros Hb. unfold SwitchBlock, block_start, pad.
  destruct (Z.ltb_spec (kBlockSize - block_offset w) kHeaderSize) as [Hlt|];
    cbn [dest type_crc block_offset].
  2:{ by rewrite app_nil_r. }
  repeat split. destruct (Z.gtb_spec (kBlockSize - block_offset w) 0) as [Hgt|].
  - rewrite take_replicate, Nat.min_l by (unfold kHeaderSize in *; lia).
    destruct (Append _ (dest w)) as [s f] eqn:E. apply (Append_ok _ _ _ _ E).
    by rewrite <- (f_equal fst E : _ = s), Append_succeeds.
  - replace (Z.to_nat _) with O by lia. by rewrite app_nil_r.
Qed.

Lemma EmitPhysicalRecord_spec t d (w : Writer F) :
  type_crc w = InitTypeCrc -> size_of d <= 0xffff ->
  exists s w', EmitPhysicalRecord t d w = (s, w') /\ ok s = true /\ type_crc w' = InitTypeCrc /\
    block_offset w' = block_offset w + kHeaderSize + size_of d /\
    written (dest w') = written (dest w) ++ physical_record (record_type_code t) d.
Proof.
  intros Ht Hd. pose proof (EmitPhysicalRecord_succeeds t d w) as Hs.
  destruct (EmitPhysicalRecord t d w) as [s w'] eqn:E. exists s, w'.
  destruct (EmitPhysicalRecord_ok _ _ _ _ _ Ht Hd E) as (? & ? & Hw).
  repeat split; try done. by apply Hw.
Qed.

Lemma drop_not_nil {A} k (l : list A) : (k < length l)%nat -> drop k l <> [].
Proof. intros Hk E. apply (f_equal length) in E. rewrite length_drop in E. simpl in E. lia. Qed.

(** Enough iterations for [d]: the first one may find room for a header only. *)
Definition iterations (begin : bool) (o : Z) (d : bytes) : nat :=
  length d + (if begin || bool_decide (block_start o + kHeaderSize = kBlockSize) then 2 else 1).

(** What a run of the loop of [AddRecord] appends. *)
Lemma AddRecord_loop_spec fuel begin d (w : Writer F) :
  type_crc w = InitTypeCrc -> 0 <= block_offset w <= kBlockSize -> (begin = false -> d <> []) ->
  (iterations begin (block_offset w) d <= fuel)%nat ->
  exists s w' items out,
    AddRecord_loop fuel begin d w = Some (s, w') /\ ok s = true /\ type_crc w' = InitTypeCrc /\
    layout (block_offset w) items out (block_offset w') /\
    (if begin then assembles items d else tail_assembles items d) /\
    written (dest w') = written (dest w) ++ out.
Proof.
  revert begin d w. unfold iterations.
  induction fuel as [|fuel IH]; intros begin d w Ht Hb Hd Hf; [case_match; lia|].
  cbn [AddRecord_loop]. destruct (SwitchBlock_spec w Hb) as (Eb & Et & Ew).
  rewrite Ht in Et. revert Eb Et Ew. generalize (SwitchBlock w). intros w1 Eb Et Ew. rewrite Eb.
  set (o := block_start (block_offset w)) in *.
  assert (Ho : 0 <= o <= kBlockSize - kHeaderSize).
  { subst o. unfold block_start, kHeaderSize, kBlockSize in *. case_match; lia. }
  pose proof (size_of_nonneg d) as Hd0.
  remember (kBlockSize - o - kHeaderSize) as avail eqn:Ea.
  set (n := if size_of d <? avail then size_of d else avail).
  assert (Hn : n = Z.min (size_of d) avail) by (subst n; destruct (Z.ltb_spec (size_of d) avail); lia).
  clearbody n. assert (Hlen : size_of (take (Z.to_nat n) d) = n).
  { unfold size_of in *. rewrite length_take. lia. }
  match goal with |- context [EmitPhysicalRecord ?t _ w1] =>
    destruct (EmitPhysicalRecord_spec t (take (Z.to_nat n) d) w1 Et) as (s & w' & -> & Hs & Et' & Eb' & Ew');
      [unfold kBlockSize, kHeaderSize in *; lia|] end.
  rewrite Hs, andb_true_l. rewrite Ew in Ew'. rewrite Eb, Hlen in Eb'.
  destruct (Z.gtb_spec (size_of d - n) 0) as [Hmore|Hlast].
  - replace (size_of d =? n) with false in Ew' by (symmetry; apply Z.eqb_neq; lia).
    destruct (IH false (drop (Z.to_nat n) d) w') as (s2 & w2 & items & out & E2 & Hs2 & Et2 & HL & HA & Ew2).
    { done. }
    { rewrite Eb'. unfold kHeaderSize, kBlockSize in *. lia. }
    { intros _. apply drop_not_nil. unfold size_of in *. lia. }
    { rewrite length_drop, Eb'. replace (o + kHeaderSize + n) with kBlockSize by lia.
      rewrite bool_decide_eq_false_2 by done. unfold size_of in *. simpl.
      destruct (decide (avail = 0)); [rewrite bool_decide_eq_true_2, orb_true_r in Hf by lia; lia|].
      destruct (begin || _) in Hf; lia. }
    exists s2, w2, ((record_type_code (if begin then kFirstType else kMiddleType), take (Z.to_nat n) d) :: items),
      (replicate (pad (block_offset w)) Byte.x00 ++
       physical_record (record_type_code (if begin then kFirstType else kMiddleType)) (take (Z.to_nat n) d) ++ out).
    split; [done|]. split; [done|]. split; [done|]. split.
    { apply layout_cons; [destruct begin; simpl; lia|fold o; rewrite Hlen; lia|].
      fold o. rewrite Hlen, <- Eb'. done. }
    split.
    { pose proof (assembles_first (take (Z.to_nat n) d) _ _ HA) as H1.
      pose proof (tail_middle (take (Z.to_nat n) d) _ _ HA) as H2.
      rewrite take_drop in H1, H2. by destruct begin. }
    rewrite Ew2, Ew'. rewrite andb_false_r. destruct begin; by rewrite <- !app_assoc.
  - assert (n = size_of d) as -> by lia. rewrite Z.eqb_refl, andb_true_r in Ew'.
    assert (Hall : take (Z.to_nat (size_of d)) d = d) by (unfold size_of; by rewrite Nat2Z.id, firstn_all).
    rewrite Hall in Ew'.
    exists s, w', [(record_type_code (if begin then kFullType else kLastType), d)],
      (replicate (pad (block_offset w)) Byte.x00 ++
       physical_record (record_type_code (if begin then kFullType else kLastType)) d ++ []).
    split; [done|]. split; [done|]. split; [done|]. split.
    { rewrite Eb'. apply layout_cons; [destruct begin; simpl; lia|fold o; lia|]. apply layout_nil. }
    split; [by destruct begin; constructor|].
    rewrite Ew', app_nil_r. destruct begin; by rewrite <- !app_assoc.
Qed.

(** [AddRecord] appends the physical records of [d]. *)
Lemma AddRecord_spec d (w : Writer F) :
  type_crc w = InitTypeCrc -> 0 <= block_offset w <= kBlockSize ->
  exists s w' items out,
    AddRecord d w = Some (s, w') /\ ok s = true /\ type_crc w' = InitTypeCrc /\
    layout (block_offset w) items out (block_offset w') /\ assembles items d /\
    written (dest w') = written (dest w) ++ out.
Proof.
  intros Ht Hb. apply (AddRecord_loop_spec (length d + 2) true d w Ht Hb); [done|].
  unfold iterations. simpl. lia.
Qed.
End WriterProofs.

(** ** The reader returns *)

Section ReaderProofs.
Context {F : Type} `{!SequentialFile F} `{!SequentialFileLaws F}.

(** What a reader has not consumed. *)
Definition rest (r : Reader F) : bytes := buffer r ++ unread (file r).

Lemma ReportDrop_fields n s (r : Reader F) :
  file (ReportDrop n s r) = file r /\ buffer (ReportDrop n s r) = buffer r /\
  eof (ReportDrop n s r) = eof r /\ resyncing (ReportDrop n s r) = resyncing r /\
  initial_offset (ReportDrop n s r) = initial_offset r /\ checksum (ReportDrop n s r) = checksum r.
Proof. unfold ReportDrop. case_match; done. Qed.

Lemma rest_ReportDrop n s (r : Reader F) : rest (ReportDrop n s r) = rest r.
Proof. unfold rest. by destruct (ReportDrop_fields n s r) as (-> & -> & _). Qed.

(** What a reader keeps. *)
Definition config (r : Reader F) : bool * bool * Z := (reporter r, checksum r, initial_offset r).

Lemma config_ReportDrop n s (r : Reader F) : config (ReportDrop n s r) = config r.
Proof. unfold ReportDrop. case_match; done. Qed.

Lemma config_checksum (r r' : Reader F) : config r' = config r -> checksum r' = checksum r.
Proof. by intros [= _ -> _]. Qed.

(** What a physical record that was accepted is: with the checksums verified,
    what [EmitPhysicalRecord] writes. *)
Definition accepted (t : Z) (d : bytes) (p : bytes) : Prop :=
  exists pre post, p = pre ++ physical_record t d ++ post.

Definition header_length (p : bytes) : Z :=
  Z.lor (Z.land (uchar_at p 4) 0xff) (Z.shiftl (Z.land (uchar_at p 5) 0xff) 8).

Lemma header_length_value p : header_length p = uchar_at p 4 + 256 * uchar_at p 5.
Proof.
  unfold header_length. rewrite !land_255, !Z.mod_small by apply uchar_at_range.
  rewrite lor_disjoint_add by (lia || apply uchar_at_range). lia.
Qed.

Lemma header_length_range p : 0 <= header_length p < 65536.
Proof.
  rewrite header_length_value. pose proof (uchar_at_range p 4). pose proof (uchar_at_range p 5). lia.
Qed.

(** A buffer whose header is right starts with a physical record. *)
Lemma buffer_physical_record p :
  kHeaderSize + header_length p <= size_of p ->
  Value (take (Z.to_nat (1 + header_length p)) (drop 6 p)) = Unmask (DecodeFixed32 p) ->
  p = physical_record (uchar_at p 6) (take (Z.to_nat (header_length p)) (drop 7 p)) ++
      drop (Z.to_nat (kHeaderSize + header_length p)) p.
Proof.
  pose proof (header_length_range p) as Hr. intros Hlen Hcrc.
  assert (Hp : (7 <= length p)%nat) by (unfold size_of, kHeaderSize in *; lia).
  rewrite physical_record_eq.
  destruct p as [|b0 [|b1 [|b2 [|b3 [|b4 [|b5 [|b6 p]]]]]]]; try (simpl in Hp; lia).
  remember (header_length _) as n eqn:En.
  rewrite header_length_value in En. unfold uchar_at in *. cbn [nth drop] in *.
  rewrite ?drop_0.
  unfold size_of, kHeaderSize in *. cbn [length] in *.
  replace (Z.of_nat (length (take (Z.to_nat n) p))) with n by (rewrite length_take; lia).
  rewrite z2b_b2z. replace (Z.to_nat (1 + n)) with (S (Z.to_nat n)) in Hcrc by lia. cbn [take] in Hcrc.
  rewrite Hcrc.
  destruct (Mask_inverse (DecodeFixed32 (b0 :: b1 :: b2 :: b3 :: b4 :: b5 :: b6 :: p))
    (DecodeFixed32_range _)) as [_ ->].
  rewrite EncodeFixed32_Decode by (simpl; lia). cbn [take app].
  pose proof (b2z_range b4). pose proof (b2z_range b5).
  rewrite z2b_land_255. replace (z2b n) with b4 by (apply b2z_inj; rewrite z2b_spec; subst n; dlia).
  replace (z2b (Z.shiftr n 8)) with b5
    by (apply b2z_inj; rewrite z2b_spec, shiftr_div by lia; subst n; change (2 ^ 8) with 256; dlia).
  replace (Z.to_nat (4 + 2 + 1 + n)) with (7 + Z.to_nat n)%nat by lia. cbn [drop Nat.add].
  cbn [app]. by rewrite take_drop.
Qed.

(** ** What a physical read does *)

(** Either it ends the file, or it has consumed bytes; what it consumed is
    before what is left; and an accepted record is a physical record. *)
Lemma ParsePhysicalRecord_spec fragment (r : Reader F) t d r' :
  kHeaderSize <= size_of (buffer r) -> ParsePhysicalRecord fragment r = (t, d, r') ->
  config r' = config r /\
  exists pre, rest r = pre ++ rest r' /\
    (t = kEof \/ pre <> []) /\
    (checksum r = true -> t = kEof \/ t = kBadRecord \/
       exists q, pre = physical_record t d ++ q).
Proof.
  intros Hsz. unfold ParsePhysicalRecord. change (Z.lor (Z.land (uchar_at (buffer r) 4) 255)
    (Z.shiftl (Z.land (uchar_at (buffer r) 5) 255) 8)) with (header_length (buffer r)).
  assert (Hne : buffer r <> []) by (intros E; rewrite E in Hsz; unfold size_of, kHeaderSize in Hsz; simpl in Hsz; lia).
  assert (Hclear : rest r = buffer r ++ rest (set_buffer [] r)) by done.
  destruct (Z.gtb_spec (kHeaderSize + header_length (buffer r)) (size_of (buffer r))) as [|Hlen].
  { destruct (eof _); cbn [negb]; intros [= <- <- <-];
      (split; [unfold ReportCorruption; rewrite ?config_ReportDrop; done|]);
      exists (buffer r); unfold ReportCorruption; rewrite ?rest_ReportDrop; auto. }
  destruct ((uchar_at (buffer r) 6 =? 0) && _).
  { intros [= <- <- <-]. split; [done|]. exists (buffer r). auto. }
  destruct (checksum r && _) eqn:Ec.
  { intros [= <- <- <-]. split; [unfold ReportCorruption; by rewrite config_ReportDrop|].
    exists (buffer r). unfold ReportCorruption. rewrite rest_ReportDrop. auto. }
  assert (Hdrop : rest r = take (Z.to_nat (kHeaderSize + header_length (buffer r))) (buffer r) ++
     rest (set_buffer (drop (Z.to_nat (kHeaderSize + header_length (buffer r))) (buffer r)) r)).
  { unfold rest. simpl. by rewrite app_assoc, take_drop. }
  pose proof (header_length_range (buffer r)) as Hr.
  assert (Hne2 : take (Z.to_nat (kHeaderSize + header_length (buffer r))) (buffer r) <> []).
  { intros E. apply (f_equal length) in E. rewrite length_take in E.
    unfold kHeaderSize, size_of in *. simpl in E. lia. }
  destruct (_ <? _); intros [= <- <- <-]; (split; [done|]); eexists; (split; [exact Hdrop|]); (split; [by right|]);
    intros Hck; [by auto|].
  right. right. exists []. rewrite Hck, andb_true_l in Ec. apply negb_false_iff, Z.eqb_eq in Ec.
  rewrite app_nil_r. eapply app_inv_tail. rewrite take_drop.
  exact (buffer_physical_record _ Hlen Ec).
Qed.

Lemma ReadPhysicalRecord_spec fragment (r : Reader F) : exists t d r',
  ReadPhysicalRecord fragment r = Some (t, d, r') /\
  config r' = config r /\
  exists pre q post, rest r = pre ++ q ++ rest r' /\
    (t = kEof \/ q <> []) /\
    (checksum r = true -> t = kEof \/ t = kBadRecord \/ q = physical_record t d ++ post).
Proof.
  assert (Hparse : forall r0 : Reader F, kHeaderSize <= size_of (buffer r0) -> exists t d r',
    Some (ParsePhysicalRecord fragment r0) = Some (t, d, r') /\ config r' = config r0 /\
    exists pre q post, rest r0 = pre ++ q ++ rest r' /\ (t = kEof \/ q <> []) /\
    (checksum r0 = true -> t = kEof \/ t = kBadRecord \/ q = physical_record t d ++ post)).
  { intros r0 H0. destruct (ParsePhysicalRecord fragment r0) as [[t d] r'] eqn:E.
    destruct (ParsePhysicalRecord_spec _ _ _ _ _ H0 E) as (Hc & pre & E1 & E2 & E3).
    exists t, d, r'. split; [done|]. split; [done|].
    destruct (checksum r0) eqn:Hck.
    - destruct (E3 eq_refl) as [->|[->|[q ->]]]; [exists [], pre, []..|exists [], (physical_record t d ++ q), q];
        (split; [exact E1|]); auto.
    - exists [], pre, []. split; [exact E1|]. split; [done|discriminate]. }
  unfold ReadPhysicalRecord. cbn [ReadPhysicalRecord_loop].
  destruct (Z.ltb_spec (size_of (buffer r)) kHeaderSize) as [Hlt|]; [|by apply Hparse].
  destruct (eof r) eqn:Heof; cbn [negb].
  { eexists kEof, _, _. split; [done|]. split; [done|]. exists (buffer r), [], []. split; [done|auto]. }
  destruct (Read kBlockSize (file (set_buffer [] r))) as [[s data] f] eqn:E.
  pose proof (Read_unread _ _ _ _ _ E) as Eu. cbn [file set_buffer] in Eu.
  destruct (ok s) eqn:Hs; cbn [negb].
  2:{ eexists kEof, _, _. split; [done|].
      match goal with |- context [ReportDrop kBlockSize s ?r0] => set (r1 := r0) end.
      change (config (set_eof true ?x)) with (config x).
      change (rest (set_eof true ?x)) with (rest x). rewrite config_ReportDrop, rest_ReportDrop.
      split; [done|]. exists (buffer r ++ data), [], []. split; [|auto].
      unfold rest at 1. by rewrite Eu, <- app_assoc. }
  cbn [buffer set_file set_buffer set_end_of_buffer_offset].
  match goal with |- context [size_of (buffer ?r0) <? kHeaderSize] => set (r1 := r0) end.
  assert (H1 : buffer r1 = data /\ unread (file r1) = unread f /\ config r1 = config r /\
               (size_of data < kHeaderSize -> eof r1 = true)).
  { subst r1. destruct (Z.ltb_spec (size_of data) kBlockSize); repeat split; intros; simpl.
    unfold kHeaderSize, kBlockSize in *. lia. }
  clearbody r1. destruct H1 as (Hb1 & Hf1 & Hc1 & He1).
  assert (Er : rest r = buffer r ++ rest r1) by (unfold rest; by rewrite Hb1, Hf1, Eu).
  destruct (Z.ltb_spec (size_of (buffer r1)) kHeaderSize) as [Hlt1|Hge1].
  - rewrite Hb1 in Hlt1. rewrite (He1 Hlt1). cbn [negb].
    eexists kEof, _, _. split; [done|]. split; [done|].
    exists (buffer r ++ data), [], []. split; [|auto].
    rewrite Er. unfold rest. rewrite Hb1. by rewrite <- app_assoc.
  - destruct (Hparse r1 Hge1) as (t & d & r' & -> & E1 & pre & q & post & E2 & E3 & E4).
    exists t, d, r'. split; [done|]. split; [congruence|]. rewrite <- (config_checksum _ _ Hc1).
    exists (buffer r ++ pre), q, post. rewrite Er, E2, <- app_assoc. auto.
Qed.

(** ** Records *)

(** [chain p items p']: the physical records [items] lie in [p], in order and
    apart, before its suffix [p']. *)
Inductive chain : bytes -> list (Z * bytes) -> bytes -> Prop :=
| chain_nil pre p : chain (pre ++ p) [] p
| chain_cons pre t d p items p' :
    chain p items p' -> chain (pre ++ physical_record t d ++ p) ((t, d) :: items) p'.

Lemma chain_skip_front pre p l p' : chain p l p' -> chain (pre ++ p) l p'.
Proof. destruct 1; [rewrite app_assoc|rewrite (app_assoc pre)]; by constructor. Qed.

Lemma chain_app p l p' l' p'' : chain p l p' -> chain p' l' p'' -> chain p (l ++ l') p''.
Proof. induction 1; intros H'; simpl; [by apply chain_skip_front|]. constructor; auto. Qed.

Lemma chain_skip p l pre p' : chain p l (pre ++ p') -> chain p l p'.
Proof. intros H. rewrite <- (app_nil_r l). eapply chain_app; [exact H|]. constructor. Qed.

(** Fragments that any end completes to a record that starts with [s]. *)
Definition begun (items : list (Z * bytes)) (s : bytes) : Prop :=
  forall items' s', tail_assembles items' s' -> assembles (items ++ items') (s ++ s').

Lemma begun_first d : begun [(2, d)] d.
Proof. intros items' s' H. by constructor. Qed.

Lemma begun_middle items s d : begun items s -> begun (items ++ [(3, d)]) (s ++ d).
Proof. intros H items' s' H'. rewrite <- !app_assoc. by apply H, tail_middle. Qed.

Lemma begun_last items s d : begun items s -> assembles (items ++ [(4, d)]) (s ++ d).
Proof. intros H. apply H, tail_last. Qed.

(** What is known of the locals of [ReadRecord], when it started with [p]. *)
Definition locals_ok (p : bytes) (l : Locals) (p' : bytes) : Prop :=
  if l_in_fragmented_record l
  then exists items, chain p items p' /\ begun items (l_scratch l)
  else chain p [] p'.

Lemma locals_ok_skip p l pre p' : locals_ok p l (pre ++ p') -> locals_ok p l p'.
Proof.
  unfold locals_ok. case_match; [intros (items & ? & ?); exists items; split; [|done]|];
    by eapply chain_skip.
Qed.

Lemma locals_ok_chain p l p' : locals_ok p l p' -> chain p [] p'.
Proof.
  unfold locals_ok. case_match; [|done]. intros (items & Hc & _). clear -Hc.
  induction Hc; [constructor|]. inversion IHHc as [pre0|]; subst. rewrite !app_assoc. constructor.
Qed.

Lemma HandleRecord_state t l (r : Reader F) out r' :
  HandleRecord t l r = (out, r') -> rest r' = rest r /\ config r' = config r.
Proof.
  unfold HandleRecord, ReportCorruption. intros H.
  repeat (case_match; [|]); injection H as <- <-;
    try (match goal with |- context [set_last_record_offset ?o ?x] =>
           change (rest (set_last_record_offset o x)) with (rest x);
           change (config (set_last_record_offset o x)) with (config x) end);
    rewrite ?rest_ReportDrop, ?config_ReportDrop; done.
Qed.

(** An iteration: what it returns is a record, and what it keeps is a
    beginning of one. *)
Lemma HandleRecord_spec p t d s b o (r : Reader F) p0 :
  locals_ok p (mkLocals d s b o) p0 ->
  (t = kEof \/ t = kBadRecord \/ exists q, p0 = physical_record t d ++ q ++ rest r) ->
  (exists pre, p0 = pre ++ rest r) ->
  match fst (HandleRecord t (mkLocals d s b o) r) with
  | Return None => t = kEof
  | Return (Some record) => exists items, chain p items (rest r) /\ assembles items record
  | Continue l => t <> kEof /\ locals_ok p l (rest r)
  end.
Proof.
  intros Hl Ht [pre Hpre].
  assert (Hl' : locals_ok p (mkLocals d s b o) (rest r)) by (rewrite Hpre in Hl; by eapply locals_ok_skip).
  assert (Hn : chain p [] (rest r)) by (by eapply locals_ok_chain).
  assert (Hrec : t <> kEof -> t <> kBadRecord -> chain p0 [(t, d)] (rest r)).
  { intros. destruct Ht as [|[|[q ->]]]; try done. apply (chain_cons []). constructor. }
  unfold HandleRecord. cbn [l_fragment l_scratch l_in_fragmented_record l_prospective_record_offset].
  destruct (resyncing r && (t =? record_type_code kMiddleType)) eqn:E1.
  { apply andb_prop in E1 as [_ E1%Z.eqb_eq]. subst t. done. }
  destruct (resyncing r && (t =? record_type_code kLastType)) eqn:E2.
  { apply andb_prop in E2 as [_ E2%Z.eqb_eq]. subst t. done. }
  clear E1 E2. unfold record_type_code.
  destruct (Z.eqb_spec t 1) as [->|].
  { cbn [fst]. exists [(1, d)]. split; [|constructor]. rewrite <- (app_nil_l [_]).
    eapply chain_app; [by apply (locals_ok_chain _ _ _ Hl)|]. by apply Hrec. }
  destruct (Z.eqb_spec t 2) as [->|].
  { cbn [fst]. split; [done|]. exists [(2, d)]. split; [|apply begun_first]. rewrite <- (app_nil_l [_]).
    eapply chain_app; [by apply (locals_ok_chain _ _ _ Hl)|]. by apply Hrec. }
  destruct (Z.eqb_spec t 3) as [->|].
  { destruct b; cbn [negb fst]; (split; [done|]); [|done]. destruct Hl as (items & Hc & Hb).
    exists (items ++ [(3, d)]). split; [|by apply begun_middle].
    eapply chain_app; [exact Hc|]. by apply Hrec. }
  destruct (Z.eqb_spec t 4) as [->|].
  { destruct b; cbn [negb fst]; [|done]. destruct Hl as (items & Hc & Hb).
    exists (items ++ [(4, d)]). split; [|by apply begun_last].
    eapply chain_app; [exact Hc|]. by apply Hrec. }
  destruct (Z.eqb_spec t kEof); [done|].
  destruct (Z.eqb_spec t kBadRecord); [|done]. destruct b; done.
Qed.

Lemma ReadRecord_loop_spec fuel p l (r : Reader F) :
  (length (rest r) < fuel)%nat -> (checksum r = true -> locals_ok p l (rest r)) ->
  exists res r', ReadRecord_loop fuel l r = Some (res, r') /\ config r' = config r /\
    (length (rest r') <= length (rest r))%nat /\
    match res with
    | None => True
    | Some record => (length (rest r') < length (rest r))%nat /\
        (checksum r = true -> exists items, chain p items (rest r') /\ assembles items record)
    end.
Proof.
  revert l r. induction fuel as [|fuel IH]; intros l r Hf Hl; [lia|]. cbn [ReadRecord_loop].
  destruct (ReadPhysicalRecord_spec (l_fragment l) r) as (t & d & r1 & -> & Hc1 & pre & q & post & E1 & E2 & E3).
  set (l1 := mkLocals d _ _ _).
  pose proof (HandleRecord_spec p t d (l_scratch l) (l_in_fragmented_record l)
    (l_prospective_record_offset l) r1 (q ++ rest r1)) as HH. fold l1 in HH.
  destruct (HandleRecord t l1 r1) as [out r2] eqn:E. cbn [fst] in HH.
  destruct (HandleRecord_state _ _ _ _ _ E) as [Er Ec].
  assert (HH' : checksum r = true -> match out with
    | Return None => t = kEof
    | Return (Some record) => exists items, chain p items (rest r1) /\ assembles items record
    | Continue l => t <> kEof /\ locals_ok p l (rest r1) end).
  { intros Hck. apply HH.
    - specialize (Hl Hck). rewrite E1 in Hl. apply locals_ok_skip in Hl. exact Hl.
    - destruct (E3 Hck) as [|[| ->]]; auto. right. right. exists post. by rewrite app_assoc.
    - by exists q. }
  assert (Hlen : t = kEof \/ (length (rest r1) < length (rest r))%nat).
  { destruct E2 as [|Hq]; [by left|right]. rewrite E1, !length_app. destruct q; [done|simpl; lia]. }
  assert (Hle : (length (rest r1) <= length (rest r))%nat) by (rewrite E1, !length_app; lia).
  assert (Hout : t = kEof -> out = Return None).
  { intros ->. unfold HandleRecord in E. rewrite !andb_false_r in E. by injection E. }
  destruct out as [[record|]|l2].
  - exists (Some record), r2. rewrite Er. repeat split; [congruence|lia| |].
    + destruct Hlen as [H|]; [by specialize (Hout H)|done].
    + intros Hck. by apply HH'.
  - exists None, r2. rewrite Er. repeat split; [congruence|done].
  - destruct Hlen as [H|Hlen]; [by specialize (Hout H)|].
    destruct (IH l2 r2) as (res & r' & -> & Hc & Hlen' & Hres).
    { rewrite Er. lia. }
    { rewrite Er, (config_checksum r r2) by congruence. intros Hck. by apply HH'. }
    exists res, r'. rewrite (config_checksum r r2) in Hres by congruence. rewrite Ec, Hc1 in *. rewrite Er in *. split; [done|]. split; [done|]. split; [lia|].
    destruct res; [|done]. destruct Hres. split; [lia|done].
Qed.

(** *** Where records are *)

(** The offset of the physical record that was just read, as [HandleRecord] computes it. *)
Definition record_offset (d : bytes) (r : Reader F) : Z := u64 (end_of_buffer_offset r - size_of (buffer r) - kHeaderSize - size_of d).

Lemma ParsePhysicalRecord_offset fragment (r : Reader F) t d r' : kHeaderSize <= size_of (buffer r) -> ParsePhysicalRecord fragment r = (t, d, r') ->
  t = kEof \/ t = kBadRecord \/ initial_offset r' <= record_offset d r'.
Proof.
  intros Hsz. unfold ParsePhysicalRecord. change (Z.lor (Z.land (uchar_at (buffer r) 4) 255) (Z.shiftl (Z.land (uchar_at (buffer r) 5) 255) 8)) with (header_length (buffer r)).
  pose proof (header_length_range (buffer r)) as Hr.
  destruct (Z.gtb_spec (kHeaderSize + header_length (buffer r)) (size_of (buffer r))) as [|Hlen]; [destruct (negb _); intros [= <- <- <-]; auto|].
  destruct (_ && (header_length (buffer r) =? 0)); [intros [= <- <- <-]; auto|]. destruct (checksum r && _); [intros [= <- <- <-]; auto|].
  set (r1 := set_buffer _ r). destruct (Z.ltb_spec (u64 (end_of_buffer_offset r1 - size_of (buffer r1) - kHeaderSize - header_length (buffer r))) (initial_offset r1)) as [|Hge]; intros [= <- <- <-]; [auto|].
  right. right. unfold record_offset. replace (size_of (take _ _)) with (header_length (buffer r)); [done|]. unfold size_of, kHeaderSize in *. rewrite length_take, length_drop. lia.
Qed.

Lemma ReadPhysicalRecord_offset fragment (r : Reader F) t d r' : ReadPhysicalRecord fragment r = Some (t, d, r') ->
  t = kEof \/ t = kBadRecord \/ initial_offset r' <= record_offset d r'.
Proof.
  unfold ReadPhysicalRecord. generalize 2%nat. intros fuel. revert r. induction fuel as [|fuel IH]; intros r; [done|]. cbn [ReadPhysicalRecord_loop].
  destruct (Z.ltb_spec (size_of (buffer r)) kHeaderSize) as [|Hge].
  - destruct (negb (eof r)); [|intros [= <- <- <-]; by left]. destruct (Read _ _) as [[s data] f]. destruct (negb (ok s)); [intros [= <- <- <-]; by left|]. apply IH.
  - intros H. injection H as H. by eapply ParsePhysicalRecord_offset.
Qed.

(** A record that is given is not before the initial offset. *)
Lemma HandleRecord_offset t d s b o (r : Reader F) out r' : (t = kEof \/ t = kBadRecord \/ initial_offset r <= record_offset d r) -> (b = true -> initial_offset r <= o) ->
  HandleRecord t (mkLocals d s b o) r = (out, r') ->
  match out with
  | Return (Some _) => initial_offset r' <= last_record_offset r'
  | Return None => True
  | Continue l => l_in_fragmented_record l = true -> initial_offset r <= l_prospective_record_offset l
  end.
Proof.
  intros Ht Ho. unfold HandleRecord. cbn [l_fragment l_scratch l_in_fragmented_record l_prospective_record_offset]. fold (record_offset d r).
  assert (Hinit : forall n s (x : Reader F), initial_offset (ReportCorruption n s x) = initial_offset x) by (intros n s' x; unfold ReportCorruption, ReportDrop; by case_match).
  assert (Hrec : t = 1 \/ t = 2 -> initial_offset r <= record_offset d r) by (intros Hx; destruct Ht as [->|[->|?]]; [by destruct Hx|by destruct Hx|done]).
  unfold record_type_code. intros H.
  cbv zeta in H. repeat match type of H with (if ?b then _ else _) = _ => destruct b eqn:? end; injection H as <- <-; rewrite ?Z.eqb_eq in *;
    cbn [initial_offset last_record_offset set_last_record_offset l_in_fragmented_record l_prospective_record_offset set_resyncing]; rewrite ?Hinit;
    cbn [initial_offset set_resyncing]; auto; rewrite ?negb_false_iff in *; auto; try done; repeat case_match; rewrite ?Hinit; auto.
Qed.

Lemma ReadRecord_loop_offset fuel : forall l (r : Reader F) record r', (l_in_fragmented_record l = true -> initial_offset r <= l_prospective_record_offset l) ->
  ReadRecord_loop fuel l r = Some (Some record, r') -> initial_offset r' <= last_record_offset r'.
Proof.
  induction fuel as [|fuel IH]; intros [d s b o] r record r' Hl; [done|]. cbn [ReadRecord_loop l_fragment l_scratch l_in_fragmented_record l_prospective_record_offset] in *.
  destruct (ReadPhysicalRecord_spec d r) as (t & d1 & r1 & E & Hc & _). rewrite E. apply ReadPhysicalRecord_offset in E. assert (Hi : initial_offset r1 = initial_offset r) by (by injection Hc).
  destruct (HandleRecord t _ r1) as [out r2] eqn:EH. pose proof (HandleRecord_offset t d1 s b o r1 out r2 E ltac:(by rewrite Hi) EH) as H. apply HandleRecord_state in EH as [_ Hc2].
  assert (Hi2 : initial_offset r2 = initial_offset r1) by (by injection Hc2). destruct out as [[rec|]|l2]; [by intros [= <- <-]|done|]. apply IH. by rewrite Hi2.
Qed.

(** The start of the block that has the initial offset, or of the next one when a record
    cannot start there any more. *)
Definition initial_block (offset : Z) : Z :=
  let o := offset mod kBlockSize in if o >? kBlockSize - 6 then u64 (offset - o + kBlockSize) else offset - o.

(** What is left to read from the first record on. *)
Definition from_start (r : Reader F) : bytes :=
  if last_record_offset r <? initial_offset r then buffer r ++ drop (Z.to_nat (initial_block (initial_offset r))) (unread (file r)) else rest r.

Lemma SkipToInitialBlock_spec (r : Reader F) found r' :
  SkipToInitialBlock r = (found, r') ->
  config r' = config r /\ (found = true -> rest r' = buffer r ++ drop (Z.to_nat (initial_block (initial_offset r))) (unread (file r))).
Proof.
  unfold SkipToInitialBlock. change (if initial_offset r mod kBlockSize >? kBlockSize - 6 then _ else _) with (initial_block (initial_offset r)).
  set (start := initial_block _). cbn [file set_end_of_buffer_offset]. destruct (Z.gtb_spec start 0) as [Hs|Hs].
  2:{ intros [= <- <-]. split; [done|]. intros _. replace (Z.to_nat start) with O by lia. by rewrite drop_0. }
  destruct (Skip start (file r)) as [s f] eqn:E. destruct (ok s) eqn:Eok; intros [= <- <-]; (split; [try rewrite config_ReportDrop; done|]); [|done].
  intros _. unfold rest. cbn [buffer file set_file set_end_of_buffer_offset]. by rewrite (Skip_unread _ _ _ _ E Eok).
Qed.

Lemma from_start_length (r : Reader F) : (length (from_start r) <= length (rest r))%nat.
Proof. unfold from_start, rest. case_match; [|done]. rewrite !length_app, length_drop. lia. Qed.

Lemma ReadRecord_spec (r : Reader F) : exists res r',
  ReadRecord r = Some (res, r') /\ config r' = config r /\
  match res with
  | None => True
  | Some record => (length (rest r') < length (rest r))%nat /\ from_start r' = rest r' /\
      (checksum r = true -> exists items, chain (from_start r) items (rest r') /\ assembles items record)
  end.
Proof.
  unfold ReadRecord. destruct (if _ : bool then _ else _) as [found r1] eqn:E.
  assert (H1 : config r1 = config r /\ (found = true -> rest r1 = from_start r)).
  { unfold from_start. case_match; [by apply SkipToInitialBlock_spec|]. by injection E as <- <-. }
  clear E. destruct H1 as (Ec & El). destruct found; cbn [negb].
  2:{ exists None, r1. auto. }
  specialize (El eq_refl). pose proof (from_start_length r) as Hle. rewrite <- El in *.
  destruct (ReadRecord_loop_spec (S (length (buffer r1) + length (unread (file r1)))) (rest r1)
    (mkLocals [] [] false 0) r1) as (res & r' & E & Hc & Hlen & Hres).
  { unfold rest. rewrite length_app. lia. }
  { intros _. apply (chain_nil []). }
  exists res, r'. split; [exact E|]. split; [congruence|].
  destruct res as [record|]; [|done]. destruct Hres as [H1 H2]. split; [lia|]. split.
  - apply ReadRecord_loop_offset in E; [|done]. unfold from_start. by rewrite (proj2 (Z.ltb_ge _ _)) by lia.
  - intros Hck. apply H2. by rewrite (config_checksum r r1).
Qed.

Lemma ReadAll_loop_spec fuel (r : Reader F) :
  (length (rest r) < fuel)%nat -> exists records r',
  ReadAll_loop fuel r = Some (records, r') /\
  (checksum r = true -> exists itemss q, chain (from_start r) (concat itemss) q /\ Forall2 assembles itemss records).
Proof.
  revert r. induction fuel as [|fuel IH]; intros r Hf; [lia|]. cbn [ReadAll_loop].
  destruct (ReadRecord_spec r) as (res & r1 & -> & Hc & Hres).
  destruct res as [record|].
  2:{ exists [], r1. split; [done|]. intros. exists [], (from_start r). split; [apply (chain_nil [])|constructor]. }
  destruct Hres as (Hlen & Hstart & Hres). destruct (IH r1) as (records & r' & -> & Hrec); [lia|]. rewrite Hstart in Hrec.
  exists (record :: records), r'. split; [done|]. intros Hck.
  destruct (Hres Hck) as (items & Hch & Ha).
  destruct Hrec as (itemss & q & Hch' & Ha'); [by rewrite (config_checksum r r1)|].
  exists (items :: itemss), q. split; [by eapply chain_app|by constructor].
Qed.

Lemma ReadAll_total (r : Reader F) : exists records r', ReadAll r = Some (records, r').
Proof.
  destruct (ReadAll_loop_spec (S (length (buffer r) + length (unread (file r)))) r) as (l & r' & E & _);
    [unfold rest; rewrite length_app; lia|]. by exists l, r'.
Qed.
End ReaderProofs.

(** C18: whatever bytes the log holds, reading it from an initial offset on ends; and with
    the checksums verified every record it gives is made of physical records as
    [EmitPhysicalRecord] writes them, which lie in the log in order, without overlap, from
    the start of the block of the initial offset on, or of the next block when the offset
    is in the last six bytes: a full one, or a first, middle ones and a last. *)
Theorem log_reader_sound {F : Type} `{!SequentialFile F} `{!SequentialFileLaws F} (f : F)
    (reporter checksum : bool) (offset : Z) :
  exists records r', ReadAll (Reader_make f reporter checksum offset) = Some (records, r') /\
    (checksum = true -> 0 <= offset -> exists itemss q,
       chain (drop (Z.to_nat (initial_block offset)) (unread f)) (concat itemss) q /\ Forall2 assembles itemss records).
Proof.
  destruct (ReadAll_loop_spec (S (length (unread f))) (Reader_make f reporter checksum offset)) as (records & r' & E & H); [unfold rest; simpl; lia|].
  exists records, r'. split; [exact E|]. intros Hck Ho. specialize (H Hck). unfold from_start, rest in H. cbn [last_record_offset initial_offset buffer file Reader_make app] in H.
  destruct (Z.ltb_spec 0 offset); [exact H|]. by replace offset with 0 by lia.
Qed.

(** A log of two records that is read from an offset in the first one, and bytes that are
    not a log. *)
Lemma log_reader_sound_witness :
  (exists r', ReadAll (Reader_make (mkTape (physical_record 1 (str "hello") ++ physical_record 1 (str "world")) 1000) true true 5) = Some ([str "world"], r') /\
    exists itemss q, chain (physical_record 1 (str "hello") ++ physical_record 1 (str "world")) (concat itemss) q /\ Forall2 assembles itemss [str "world"]) /\
  exists records r', ReadAll (Reader_make (mkTape (str "not a log, but long enough for a header") 1000) true true 0) = Some (records, r').
Proof.
  split.
  - destruct (log_reader_sound (mkTape (physical_record 1 (str "hello") ++ physical_record 1 (str "world")) 1000) true true 5) as (records & r' & E & H).
    assert (Hr : fst <$> ReadAll (Reader_make (mkTape (physical_record 1 (str "hello") ++ physical_record 1 (str "world")) 1000) true true 5) = Some [str "world"]) by (vm_compute; reflexivity).
    rewrite E in Hr. apply (inj Some) in Hr. cbn [fst] in Hr. subst records. exists r'. split; [exact E|]. destruct (H eq_refl ltac:(lia)) as (itemss & q & H1 & H2). exists itemss, q. split; [exact H1|exact H2].
  - destruct (log_reader_sound (mkTape (str "not a log, but long enough for a header") 1000) true true 0) as (records & r' & E & _). by exists records, r'.
Defined.

(** ** Reading what was written *)

(** A file whose reads succeed. *)
Class ReliableReads (F : Type) `{!SequentialFile F} : Prop := {
  Read_succeeds n f : ok (fst (fst (Read n f))) = true
}.

Section RoundTrip.
Context {F : Type} `{!SequentialFile F} `{!SequentialFileLaws F} `{!ReliableReads F}.

(** The reader is at offset [o] of a block with the bytes [u] to read: its
    buffer is the rest of the block, or the last, partial block of the file. *)
Definition at_offset (o : Z) (u : bytes) (r : Reader F) : Prop :=
  rest r = u /\ initial_offset r = 0 /\ resyncing r = false /\ 0 <= o <= kBlockSize /\
  if eof r then unread (file r) = [] /\ o + size_of (buffer r) < kBlockSize
  else (buffer r = [] /\ o = 0) \/ o + size_of (buffer r) = kBlockSize.

Lemma read_block (r : Reader F) s d f :
  Read kBlockSize (file r) = (s, d, f) ->
  ok s = true /\ unread (file r) = d ++ unread f /\ size_of d <= kBlockSize /\
  (size_of d < kBlockSize -> unread f = []).
Proof.
  intros E. assert (Hs : ok s = true) by (by rewrite <- (Read_succeeds kBlockSize (file r)), E).
  split; [done|]. split; [by apply (Read_unread _ _ _ _ _ E)|].
  split; [by apply (Read_size _ _ _ _ _ E)|]. by apply (Read_short _ _ _ _ _ E).
Qed.

(** What [ReadPhysicalRecord] does before it parses a header: either there is a
    header in the buffer, or it reads the next block. *)
Lemma ReadPhysicalRecord_block fragment (r : Reader F) o u :
  at_offset o u r ->
  (kHeaderSize <= size_of (buffer r) /\ ReadPhysicalRecord fragment r = Some (ParsePhysicalRecord fragment r)) \/
  (size_of (buffer r) < kHeaderSize /\ eof r = true /\
     ReadPhysicalRecord fragment r = Some (kEof, fragment, set_buffer [] r)) \/
  (size_of (buffer r) < kHeaderSize /\ eof r = false /\ exists r1,
     at_offset 0 (drop (length (buffer r)) u) r1 /\ reports r1 = reports r /\
     (eof r1 = false -> size_of (buffer r1) = kBlockSize) /\
     ReadPhysicalRecord fragment r =
       if size_of (buffer r1) <? kHeaderSize then Some (kEof, fragment, set_buffer [] r1)
       else Some (ParsePhysicalRecord fragment r1)).
Proof.
  intros (Eu & Hi & Hrs & Ho & Hb). unfold ReadPhysicalRecord. cbn [ReadPhysicalRecord_loop].
  destruct (Z.ltb_spec (size_of (buffer r)) kHeaderSize) as [Hlt|]; [right|by left].
  destruct (eof r) eqn:He; cbn [negb]; [by left|right]. split; [done|]. split; [done|].
  cbn [file set_buffer]. destruct (Read kBlockSize (file r)) as [[s d] f] eqn:E.
  destruct (read_block _ _ _ _ E) as (Hs & Ed & Hsz & Hshort). rewrite Hs. cbn [negb].
  cbn [buffer set_file set_buffer set_end_of_buffer_offset].
  match goal with |- context [size_of (buffer ?r0) <? kHeaderSize] => set (r1 := r0) end.
  assert (H1 : buffer r1 = d /\ file r1 = f /\ reports r1 = reports r /\ initial_offset r1 = 0 /\
               resyncing r1 = false /\ eof r1 = (size_of d <? kBlockSize)).
  { subst r1. destruct (Z.ltb_spec (size_of d) kBlockSize); simpl; auto 10. }
  clearbody r1. destruct H1 as (Hb1 & Hf1 & Hr1 & Hi1 & Hs1 & He1). exists r1.
  split.
  { unfold at_offset. split; [|repeat split; try done].
    - rewrite <- Eu. unfold rest. rewrite Hb1, Hf1, <- Ed. by rewrite drop_app_length.
    - rewrite He1, Hb1, Hf1. destruct (Z.ltb_spec (size_of d) kBlockSize); [auto|]. right. lia. }
  split; [done|]. split; [rewrite He1, Hb1; destruct (Z.ltb_spec (size_of d) kBlockSize); [done|lia]|].
  destruct (Z.ltb_spec (size_of (buffer r1)) kHeaderSize) as [Hlt1|]; [|done].
  replace (eof r1) with true; [done|]. rewrite He1, <- Hb1. symmetry. apply Z.ltb_lt.
  unfold kHeaderSize, kBlockSize in *. lia.
Qed.

(** The header of a physical record. *)
Lemma physical_record_header t d b :
  1 <= t <= 4 -> size_of d < 65536 ->
  header_length (physical_record t d ++ b) = size_of d /\
  uchar_at (physical_record t d ++ b) 6 = t /\
  DecodeFixed32 (physical_record t d ++ b) = Mask (Value (z2b t :: d)) /\
  drop 6 (physical_record t d ++ b) = z2b t :: d ++ b /\ drop 7 (physical_record t d ++ b) = d ++ b.
Proof.
  intros Ht Hd. pose proof (size_of_nonneg d) as Hd0.
  assert (Hc : DecodeFixed32 (physical_record t d ++ b) = Mask (Value (z2b t :: d))).
  { rewrite physical_record_eq, <- !app_assoc. by apply DecodeFixed32_Encode, u32_range. }
  rewrite Hc, header_length_value, physical_record_eq. unfold uchar_at.
  pose proof (length_EncodeFixed32 (Mask (Value (z2b t :: d)))) as Hlen.
  destruct (EncodeFixed32 _) as [|b0 [|b1 [|b2 [|b3 [|]]]]]; try discriminate Hlen.
  cbn [nth app drop]. rewrite z2b_land_255, !z2b_spec, shiftr_div, drop_0 by lia. change (2 ^ 8) with 256.
  rewrite (Z.mod_small t), (Z.mod_small (_ / 256)) by dlia. split; [dlia|done].
Qed.

(** Parsing a physical record. *)
Lemma ParsePhysicalRecord_record fragment (r : Reader F) t d b :
  buffer r = physical_record t d ++ b -> 1 <= t <= 4 -> size_of d < 65536 -> initial_offset r = 0 ->
  ParsePhysicalRecord fragment r = (t, d, set_buffer b r).
Proof.
  intros Eb Ht Hd Hi. pose proof (size_of_nonneg d) as Hd0. unfold ParsePhysicalRecord.
  destruct (physical_record_header t d b Ht Hd) as (Hl & H6 & Hc & Hd6 & Hd7). rewrite <- Eb in *.
  change (Z.lor (Z.land (uchar_at (buffer r) 4) 255) (Z.shiftl (Z.land (uchar_at (buffer r) 5) 255) 8))
    with (header_length (buffer r)).
  rewrite Hl, H6, Hc, Hd6.
  destruct (Z.gtb_spec (kHeaderSize + size_of d) (size_of (buffer r))) as [Hgt|_].
  { rewrite Eb, size_of_app, size_of_physical_record in Hgt. pose proof (size_of_nonneg b). lia. }
  replace (t =? 0) with false by lia. cbn [andb].
  replace (take (Z.to_nat (1 + size_of d)) (z2b t :: d ++ b)) with (z2b t :: d).
  2:{ replace (Z.to_nat _) with (S (length d)) by (unfold size_of; lia). cbn [take].
      by rewrite take_app_length. }
  assert (Hv : 0 <= Value (z2b t :: d) < 2 ^ 32).
  { apply Extend_range; [rewrite size_of_cons|]; lia. }
  destruct (Mask_inverse _ Hv) as [-> _]. rewrite Z.eqb_refl, andb_false_r.
  replace (initial_offset (set_buffer (drop (Z.to_nat (kHeaderSize + size_of d)) (buffer r)) r)) with 0 by done.
  replace (_ <? 0) with false by (symmetry; apply Z.ltb_ge, u64_range).
  change (Z.to_nat kHeaderSize) with 7%nat. rewrite Hd7.
  replace (Z.to_nat (size_of d)) with (length d) by (unfold size_of; lia). rewrite take_app_length.
  do 2 f_equal. rewrite Eb. apply drop_app_exact. rewrite length_physical_record.
  unfold size_of, kHeaderSize. lia.
Qed.

(** Parsing the beginning of a physical record at the end of the file. *)
Lemma ParsePhysicalRecord_cut fragment (r : Reader F) t d n :
  buffer r = take n (physical_record t d) -> (7 <= n < 7 + length d)%nat -> 1 <= t <= 4 ->
  size_of d < 65536 -> eof r = true ->
  ParsePhysicalRecord fragment r = (kEof, fragment, set_buffer [] r).
Proof.
  intros Eb Hn Ht Hd He. unfold ParsePhysicalRecord.
  change (Z.lor (Z.land (uchar_at (buffer r) 4) 255) (Z.shiftl (Z.land (uchar_at (buffer r) 5) 255) 8))
    with (header_length (buffer r)).
  assert (Hl : header_length (buffer r) = size_of d).
  { destruct (physical_record_header t d [] Ht Hd) as (<- & _). rewrite app_nil_r, Eb, !header_length_value.
    unfold uchar_at. rewrite <- (take_drop n (physical_record t d)) at 3 4.
    rewrite !app_nth1 by (rewrite length_take, length_physical_record; lia). done. }
  rewrite Hl. destruct (Z.gtb_spec (kHeaderSize + size_of d) (size_of (buffer r))) as [_|Hle].
  - change (eof (set_buffer [] r)) with (eof r). by rewrite He.
  - unfold size_of, kHeaderSize in Hle. rewrite Eb, length_take, length_physical_record in Hle. lia.
Qed.

(** A record at the reader's offset. *)
Lemma read_here fragment (r : Reader F) o t d u :
  at_offset o (physical_record t d ++ u) r -> eof r = true \/ o + size_of (buffer r) = kBlockSize ->
  1 <= t <= 4 -> o + kHeaderSize + size_of d <= kBlockSize ->
  kHeaderSize <= size_of (buffer r) /\ exists r', ParsePhysicalRecord fragment r = (t, d, r') /\
    at_offset (o + kHeaderSize + size_of d) u r' /\ reports r' = reports r.
Proof.
  intros (Eu & Hi & Hrs & Ho & Hb) Hcase Ht Hfit. unfold rest in Eu. pose proof (size_of_nonneg d) as Hd0.
  assert (Hbuf : exists b, buffer r = physical_record t d ++ b /\ u = b ++ unread (file r)).
  { destruct (eof r).
    - destruct Hb as [Hb _]. rewrite Hb in *. rewrite app_nil_r in Eu. exists u. by rewrite app_nil_r.
    - destruct Hcase as [|Hcase]; [done|].
      exists (drop (length (physical_record t d)) (buffer r)).
      assert (Hlen : (length (physical_record t d) <= length (buffer r))%nat).
      { rewrite length_physical_record. unfold size_of, kHeaderSize in *. lia. }
      assert (E1 : take (length (physical_record t d)) (buffer r) = physical_record t d).
      { rewrite <- (take_app_le (buffer r) (unread (file r))), Eu by done. apply take_app_length. }
      split; [rewrite <- E1 at 1; by rewrite take_drop|].
      rewrite <- drop_app_le, Eu by done. by rewrite drop_app_length. }
  destruct Hbuf as (b & Eb & ->).
  split. { rewrite Eb, size_of_app, size_of_physical_record. pose proof (size_of_nonneg b). lia. }
  exists (set_buffer b r). split.
  { apply ParsePhysicalRecord_record; try done. unfold kBlockSize, kHeaderSize in *. lia. }
  split; [|done]. unfold at_offset. cbn [file buffer eof initial_offset resyncing set_buffer].
  rewrite Eb, size_of_app, size_of_physical_record in *. unfold kHeaderSize in *.
  repeat split; try done; try lia. destruct (eof r); [split; [tauto|lia]|]. right.
  destruct Hcase; [done|lia].
Qed.

Lemma pad_fits o : (0 < pad o)%nat -> block_start o = 0 /\ Z.of_nat (pad o) = kBlockSize - o /\ kBlockSize - o < kHeaderSize.
Proof. unfold pad, block_start. destruct (Z.ltb_spec (kBlockSize - o) kHeaderSize); lia. Qed.

Lemma pad_room o : kHeaderSize <= kBlockSize - o -> pad o = O /\ block_start o = o.
Proof. unfold pad, block_start. destruct (Z.ltb_spec (kBlockSize - o) kHeaderSize); [lia|done]. Qed.

(** A reader that has to read a block has just the padding left. *)
Lemma at_offset_padding o u (r : Reader F) :
  at_offset o u r -> size_of (buffer r) < kHeaderSize -> eof r = false ->
  length (buffer r) = pad o /\ block_start o = 0.
Proof.
  intros (_ & _ & _ & Ho & Hb) Hlt He. rewrite He in Hb. destruct Hb as [[-> ->]|Hb]; [done|].
  unfold pad, block_start, size_of, kBlockSize in *.
  destruct (Z.ltb_spec (32768 - o) kHeaderSize); [split; [lia|done]|lia].
Qed.

Lemma next_record fragment (r : Reader F) o t d u :
  at_offset o (replicate (pad o) Byte.x00 ++ physical_record t d ++ u) r ->
  1 <= t <= 4 -> block_start o + kHeaderSize + size_of d <= kBlockSize ->
  exists r', ReadPhysicalRecord fragment r = Some (t, d, r') /\
    at_offset (block_start o + kHeaderSize + size_of d) u r' /\ reports r' = reports r.
Proof.
  intros Hat Ht Hfit. pose proof Hat as (Eu & _ & _ & Ho & Hb).
  destruct (ReadPhysicalRecord_block fragment r _ _ Hat) as [[Hge E]|[(Hlt & He & E)|(Hlt & He & r1 & Hat1 & Hr1 & Hfull & E)]].
  - assert (Hroom : kHeaderSize <= kBlockSize - o).
    { destruct (eof r); [lia|]. destruct Hb as [[Hb _]|Hb]; [|lia]. rewrite Hb in Hge. done. }
    destruct (pad_room o Hroom) as [Hp Hs]. rewrite Hp in Hat. rewrite Hs in *.
    destruct (read_here fragment r o t d u Hat) as [_ (r' & E' & H')]; [|done|done|].
    + destruct (eof r); [by left|right]. destruct Hb as [[Hb _]|Hb]; [|done]. rewrite Hb in Hge. done.
    + exists r'. by rewrite E, E'.
  - rewrite He in Hb. destruct Hb as [Hb _]. unfold rest in Eu. rewrite Hb, app_nil_r in Eu.
    rewrite Eu, !size_of_app, size_of_physical_record in Hlt.
    pose proof (size_of_nonneg d). pose proof (size_of_nonneg u).
    pose proof (size_of_nonneg (replicate (pad o) Byte.x00)). lia.
  - destruct (at_offset_padding _ _ _ Hat Hlt He) as [Hp Hs]. rewrite Hs in *.
    rewrite drop_app_exact in Hat1 by (by rewrite length_replicate).
    destruct (read_here fragment r1 0 t d u Hat1) as [Hge (r' & E' & H' & Hr')]; [|done|done|].
    { destruct (eof r1); [by left|right]. by rewrite Hfull. }
    exists r'. rewrite E. destruct (Z.ltb_spec (size_of (buffer r1)) kHeaderSize); [lia|].
    by rewrite E', Hr', Hr1.
Qed.

(** A log that ends before the next record does. *)
Lemma next_record_cut fragment (r : Reader F) o t d u n :
  at_offset o (take n (replicate (pad o) Byte.x00 ++ physical_record t d ++ u)) r ->
  1 <= t <= 4 -> block_start o + kHeaderSize + size_of d <= kBlockSize ->
  (n < pad o + 7 + length d)%nat ->
  exists r', ReadPhysicalRecord fragment r = Some (kEof, fragment, r') /\ reports r' = reports r.
Proof.
  intros Hat Ht Hfit Hn. pose proof Hat as (Eu & _ & _ & Ho & Hb).
  assert (Hd : size_of d < 65536).
  { assert (0 <= block_start o) by (unfold block_start; destruct (_ <? _); lia).
    unfold kHeaderSize, kBlockSize in *. lia. }
  assert (Hlen : (length (rest r) <= n)%nat) by (rewrite Eu, length_take; lia).
  assert (Hbuf : (length (buffer r) <= length (rest r))%nat) by (unfold rest; rewrite length_app; lia).
  destruct (ReadPhysicalRecord_block fragment r _ _ Hat) as [[Hge E]|[(Hlt & He & E)|(Hlt & He & r1 & Hat1 & Hr1 & Hfull & E)]].
  - assert (Hroom : kHeaderSize <= kBlockSize - o).
    { destruct (eof r); [lia|]. destruct Hb as [[Hb _]|Hb]; [|lia]. rewrite Hb in Hge. done. }
    destruct (pad_room o Hroom) as [Hp Hs]. rewrite Hp, Hs in *. cbn [replicate app] in Eu.
    assert (He : eof r = true).
    { destruct (eof r); [done|]. exfalso. destruct Hb as [[Hb _]|Hb]; [rewrite Hb in Hge; done|].
      unfold size_of, kHeaderSize in *. lia. }
    rewrite He in Hb. unfold rest in *. destruct Hb as [Hb _]. rewrite Hb, app_nil_r in *.
    rewrite take_app_le in Eu by (rewrite length_physical_record; lia).
    exists (set_buffer [] r). split; [|done]. rewrite E. f_equal.
    eapply (ParsePhysicalRecord_cut _ _ t d n); try done.
    unfold size_of, kHeaderSize in *. lia.
  - exists (set_buffer [] r). by rewrite E.
  - destruct (at_offset_padding _ _ _ Hat Hlt He) as [Hp Hs]. rewrite Hp, Hs in *.
    rewrite skipn_firstn_comm, drop_app_exact in Hat1 by (by rewrite length_replicate).
    rewrite take_app_le in Hat1 by (rewrite length_physical_record; lia).
    pose proof Hat1 as (Eu1 & _ & _ & _ & Hb1).
    destruct (Z.ltb_spec (size_of (buffer r1)) kHeaderSize) as [|Hge].
    { exists (set_buffer [] r1). by rewrite E, <- Hr1. }
    assert (Hbuf1 : (length (buffer r1) <= n - pad o)%nat).
    { apply (f_equal length) in Eu1. unfold rest in Eu1. rewrite length_app, length_take in Eu1. lia. }
    assert (He1 : eof r1 = true).
    { destruct (eof r1) eqn:He1; [done|]. specialize (Hfull eq_refl).
      unfold size_of, kHeaderSize in *. lia. }
    rewrite He1 in Hb1. destruct Hb1 as [Hb1 _]. unfold rest in Eu1. rewrite Hb1, app_nil_r in Eu1.
    exists (set_buffer [] r1). split; [|done]. rewrite E. f_equal.
    eapply (ParsePhysicalRecord_cut _ _ t d (n - pad o)); try done.
    unfold size_of, kHeaderSize in *. lia.
Qed.

(** ** Reading records *)

Lemma at_offset_fields o u (r r' : Reader F) :
  at_offset o u r -> file r' = file r -> buffer r' = buffer r -> eof r' = eof r ->
  initial_offset r' = initial_offset r -> resyncing r' = resyncing r -> at_offset o u r'.
Proof. unfold at_offset, rest. by intros ? -> -> -> -> ->. Qed.

Lemma layout_size o items out o' : layout o items out o' -> (7 * length items <= length out)%nat.
Proof.
  induction 1; [done|]. rewrite !length_app, length_physical_record. cbn [length]. lia.
Qed.

Lemma read_tail items : forall record o out o' u s off d0 fuel (r : Reader F),
  tail_assembles items record -> layout o items out o' -> at_offset o (out ++ u) r ->
  (length items <= fuel)%nat -> exists r',
  ReadRecord_loop fuel (mkLocals d0 s true off) r = Some (Some (s ++ record), r') /\
  at_offset o' u r' /\ reports r' = reports r.
Proof.
  induction items as [|[t d] items IH]; intros record o out o' u s off d0 fuel r Ha HL Hat Hf; [by inversion Ha|].
  inversion HL as [|? ? ? ? out1 ? Ht Hfit HL']; subst. cbn [length] in Hf.
  destruct fuel as [|fuel]; [lia|]. cbn [ReadRecord_loop l_fragment].
  rewrite <- !app_assoc in Hat.
  destruct (next_record d0 r o t d (out1 ++ u) Hat Ht Hfit) as (r1 & -> & Hat1 & Hr1).
  pose proof Hat1 as (_ & _ & Hrs & _).
  unfold HandleRecord. rewrite Hrs. cbn [andb l_fragment l_scratch l_in_fragmented_record].
  inversion Ha as [|? ? record' Ha']; subst; cbn [Z.eqb Pos.eqb record_type_code negb].
  - inversion HL'; subst. eexists. split; [done|]. split; [|done]. by apply (at_offset_fields _ _ r1).
  - rewrite app_assoc. rewrite <- Hr1. eapply IH; try done. lia.
Qed.

Lemma read_tail_cut items : forall record o out o' s off d0 fuel n (r : Reader F),
  tail_assembles items record -> layout o items out o' -> at_offset o (take n out) r ->
  (n < length out)%nat -> (n < fuel)%nat -> exists r',
  ReadRecord_loop fuel (mkLocals d0 s true off) r = Some (None, r') /\ reports r' = reports r.
Proof.
  induction items as [|[t d] items IH]; intros record o out o' s off d0 fuel n r Ha HL Hat Hn Hf; [by inversion Ha|].
  inversion HL as [|? ? ? ? out1 ? Ht Hfit HL']; subst. cbn [length] in Hf.
  destruct fuel as [|fuel]; [lia|]. cbn [ReadRecord_loop l_fragment].
  destruct (decide (n < pad o + 7 + length d)%nat) as [Hcut|Hcut].
  { destruct (next_record_cut d0 r o t d out1 n Hat Ht Hfit Hcut) as (r1 & -> & Hr1).
    unfold HandleRecord. rewrite !andb_false_r. cbn [Z.eqb record_type_code kEof kMaxRecordType Z.add].
    destruct (resyncing r1); (eexists; split; [done|]); done. }
  assert (Hsz : length (replicate (pad o) Byte.x00 ++ physical_record t d) = (pad o + 7 + length d)%nat).
  { rewrite length_app, length_replicate, length_physical_record. lia. }
  rewrite app_assoc, take_app_ge, <- app_assoc in Hat by lia.
  destruct (next_record d0 r o t d _ Hat Ht Hfit) as (r1 & -> & Hat1 & Hr1).
  pose proof Hat1 as (_ & _ & Hrs & _).
  unfold HandleRecord. rewrite Hrs. cbn [andb l_fragment l_scratch l_in_fragmented_record].
  rewrite app_assoc, length_app in Hn.
  inversion Ha as [|? ? record' Ha']; subst; cbn [Z.eqb Pos.eqb record_type_code negb].
  - inversion HL'; subst. simpl in Hn. lia.
  - rewrite <- Hr1. eapply IH; try done; lia.
Qed.

(** [ReadRecord] from the start of its loop on: nothing is skipped. *)
Lemma ReadRecord_start (r : Reader F) o u :
  at_offset o u r -> exists r1, at_offset o u r1 /\ reports r1 = reports r /\
    ReadRecord r = ReadRecord_loop (S (length u)) (mkLocals [] [] false 0) r1.
Proof.
  intros Hat. pose proof Hat as (Eu & Hi & _). unfold ReadRecord.
  assert (Es : SkipToInitialBlock r = (true, set_end_of_buffer_offset 0 r)).
  { unfold SkipToInitialBlock. by rewrite Hi. }
  assert (El : (length (buffer r) + length (unread (file r)) = length u)%nat).
  { rewrite <- Eu. unfold rest. by rewrite length_app. }
  rewrite Es, Hi, <- El.
  destruct (_ <? 0); [exists (set_end_of_buffer_offset 0 r)|exists r];
    (split; [exact Hat|]); (split; [done|]); done.
Qed.

Lemma ReadRecord_record (r : Reader F) record items o out o' u :
  assembles items record -> layout o items out o' -> at_offset o (out ++ u) r -> exists r',
  ReadRecord r = Some (Some record, r') /\ at_offset o' u r' /\ reports r' = reports r.
Proof.
  intros Ha HL Hat. destruct (ReadRecord_start r _ _ Hat) as (r0 & Hat0 & Hr0 & ->).
  pose proof (layout_size _ _ _ _ HL) as Hsz. rewrite length_app. rewrite <- Hr0. clear Hat Hr0 r.
  inversion HL as [|? t d items1 out1 ? Ht Hfit HL']; subst; [by inversion Ha|].
  cbn [ReadRecord_loop l_fragment]. rewrite <- !app_assoc in Hat0.
  destruct (next_record [] r0 o t d (out1 ++ u) Hat0 Ht Hfit) as (r1 & -> & Hat1 & Hr1).
  pose proof Hat1 as (_ & _ & Hrs & _). unfold HandleRecord. rewrite Hrs.
  cbn [andb l_fragment l_scratch l_in_fragmented_record].
  inversion Ha as [|? ? record' Ha']; subst; cbn [Z.eqb Pos.eqb record_type_code negb].
  - inversion HL'; subst. eexists. split; [done|]. split; [|done]. by apply (at_offset_fields _ _ r1).
  - rewrite <- Hr1. eapply read_tail; try done. cbn [length] in Hsz. lia.
Qed.

Lemma ReadRecord_cut (r : Reader F) record items o out o' n :
  assembles items record -> layout o items out o' -> at_offset o (take n out) r ->
  (n < length out)%nat -> exists r',
  ReadRecord r = Some (None, r') /\ reports r' = reports r.
Proof.
  intros Ha HL Hat Hn. destruct (ReadRecord_start r _ _ Hat) as (r0 & Hat0 & Hr0 & ->).
  rewrite length_take, Nat.min_l by lia. rewrite <- Hr0. clear Hat Hr0 r.
  inversion HL as [|? t d items1 out1 ? Ht Hfit HL']; subst; [by inversion Ha|].
  cbn [ReadRecord_loop l_fragment].
  destruct (decide (n < pad o + 7 + length d)%nat) as [Hcut|Hcut].
  { destruct (next_record_cut [] r0 o t d out1 n Hat0 Ht Hfit Hcut) as (r1 & -> & Hr1).
    unfold HandleRecord. rewrite !andb_false_r. cbn [Z.eqb record_type_code kEof kMaxRecordType Z.add].
    destruct (resyncing r1); (eexists; split; [done|]); done. }
  assert (Hsz : length (replicate (pad o) Byte.x00 ++ physical_record t d) = (pad o + 7 + length d)%nat).
  { rewrite length_app, length_replicate, length_physical_record. lia. }
  rewrite app_assoc, take_app_ge, <- app_assoc in Hat0 by lia.
  destruct (next_record [] r0 o t d _ Hat0 Ht Hfit) as (r1 & -> & Hat1 & Hr1).
  pose proof Hat1 as (_ & _ & Hrs & _). unfold HandleRecord. rewrite Hrs.
  cbn [andb l_fragment l_scratch l_in_fragmented_record].
  rewrite app_assoc, length_app in Hn.
  inversion Ha as [|? ? record' Ha']; subst; cbn [Z.eqb Pos.eqb record_type_code negb].
  - inversion HL'; subst. simpl in Hn. lia.
  - rewrite <- Hr1. eapply read_tail_cut; try done; lia.
Qed.

(** [log_layout o records out o']: [records] written from offset [o]. *)
Inductive log_layout : Z -> list bytes -> bytes -> Z -> Prop :=
| log_layout_nil o : log_layout o [] [] o
| log_layout_cons o record items out o1 records out' o2 :
    assembles items record -> layout o items out o1 -> log_layout o1 records out' o2 ->
    log_layout o (record :: records) (out ++ out') o2.

Lemma log_layout_snoc o records out o1 record items out' o2 :
  log_layout o records out o1 -> assembles items record -> layout o1 items out' o2 ->
  log_layout o (records ++ [record]) (out ++ out') o2.
Proof.
  induction 1; intros; simpl.
  - rewrite <- (app_nil_r out'). eapply log_layout_cons; [done..|]. constructor.
  - rewrite <- app_assoc. eapply log_layout_cons; eauto.
Qed.

Lemma log_layout_size o records out o' : log_layout o records out o' -> (length records <= length out)%nat.
Proof.
  induction 1 as [|o rec items ? ? ? ? ? Ha HL]; [done|]. apply layout_size in HL.
  apply assembles_nonempty in Ha. destruct items; [done|]. rewrite length_app. cbn [length] in *. lia.
Qed.

(** The reader gives [records] and then the end, and reports nothing. *)
Inductive clean_reads : Reader F -> list bytes -> Prop :=
| clean_end r r' : ReadRecord r = Some (None, r') -> reports r' = reports r -> clean_reads r []
| clean_record r record r' records : ReadRecord r = Some (Some record, r') -> reports r' = reports r ->
    clean_reads r' records -> clean_reads r (record :: records).

Lemma ReadAll_clean r records : clean_reads r records -> forall fuel, (length records < fuel)%nat ->
  exists r', ReadAll_loop fuel r = Some (records, r') /\ reports r' = reports r.
Proof.
  induction 1 as [r r' E Hr|r record r' records E Hr _ IH]; intros [|fuel] Hf; cbn [length] in Hf; try lia; cbn [ReadAll_loop]; rewrite E.
  - by exists r'.
  - destruct (IH fuel) as (r2 & -> & Hr2); [lia|]. exists r2. by rewrite Hr2, Hr.
Qed.

(** The whole records are read, and then the end is. *)
Lemma clean_reads_log records : forall o out o1 record items out' o2 n (r : Reader F),
  log_layout o records out o1 -> assembles items record -> layout o1 items out' o2 ->
  (n < length out')%nat -> at_offset o (out ++ take n out') r -> clean_reads r records.
Proof.
  induction records as [|rec records IH]; intros o out o1 record items out' o2 n r HL Ha HL' Hn Hat.
  - inversion HL; subst. destruct (ReadRecord_cut r _ _ _ _ _ n Ha HL' Hat Hn) as (r' & E & Hr). by eapply clean_end.
  - inversion HL; subst. rewrite <- app_assoc in Hat.
    match goal with H1 : assembles _ rec, H2 : layout o _ _ _ |- _ =>
      destruct (ReadRecord_record r _ _ _ _ _ _ H1 H2 Hat) as (r1 & E1 & Hat1 & Hr1) end.
    match goal with H : log_layout _ records _ _ |- _ =>
      eapply clean_record; [exact E1|exact Hr1|exact (IH _ _ _ _ _ _ _ n r1 H Ha HL' Hn Hat1)] end.
Qed.

Lemma Reader_make_at_offset (f : F) reporter checksum :
  at_offset 0 (unread f) (Reader_make f reporter checksum 0).
Proof. repeat split; try done. by left. Qed.
End RoundTrip.

(** ** Sessions of a writer *)

Section Sessions.
Context {W : Type} `{!WritableFile W} `{!WritableFileLaws W} `{!ReliableFile W}.

(** [Written records w]: [w] has written [records] to its file, from empty,
    possibly in several sessions, each of which continues the file of the last
    one; the file may have been synced in between. *)
Inductive Written : list bytes -> Writer W -> Prop :=
| Written_new f : written f = [] -> Written [] (Writer_make f)
| Written_add records w record s w' :
    Written records w -> AddRecord record w = Some (s, w') -> Written (records ++ [record]) w'
| Written_reopen records w f :
    Written records w -> written f = written (dest w) ->
    Written records (Writer_reopen f (size_of (written f)))
| Written_sync records w f :
    Written records w -> written f = written (dest w) ->
    Written records (mkWriter f (block_offset w) (type_crc w)).

(** A layout from the end of a block is a layout from the start of one. *)
Lemma layout_same_place o b items out o' :
  o = b \/ (o = kBlockSize /\ b = 0) -> items <> [] -> layout b items out o' -> layout o items out o'.
Proof. intros [->|[-> ->]] ? ?; [done|by apply layout_block_end]. Qed.

Lemma log_layout_range o records out o' :
  log_layout o records out o' -> 0 <= o <= kBlockSize ->
  0 <= o' <= kBlockSize /\ o' mod kBlockSize = (o + size_of out) mod kBlockSize.
Proof.
  induction 1 as [|o rec items ? ? ? ? ? Ha HL HL' IH]; intros Ho.
  - unfold size_of. simpl. by rewrite Z.add_0_r.
  - destruct IH as [IH1 IH2]; [by apply layout_end_range in HL|]. split; [done|].
    rewrite IH2, size_of_app, Z.add_assoc. apply layout_end_mod in HL; [|done].
    by rewrite Z.add_mod, HL, <- Z.add_mod by done.
Qed.

Lemma Written_layout records w :
  Written records w -> type_crc w = InitTypeCrc /\ 0 <= block_offset w <= kBlockSize /\ exists o,
    log_layout 0 records (written (dest w)) o /\ (o = block_offset w \/ (o = kBlockSize /\ block_offset w = 0)).
Proof.
  induction 1 as [f Hf|records w record s w' _ (Ht & Hb & o & HL & Ho) E|records w f _ (Ht & Hb & o & HL & Ho) Hf|records w f _ (Ht & Hb & o & HL & Ho) Hf].
  - split; [done|]. split; [done|]. exists 0. simpl. rewrite Hf. split; [constructor|by left].
  - destruct (AddRecord_spec record w Ht Hb) as (s1 & w1 & items & out & E1 & _ & Ht1 & HL1 & Ha & Ew).
    rewrite E1 in E. injection E as <- <-. split; [done|]. split; [by apply layout_end_range in HL1|].
    exists (block_offset w1). split; [|by left]. rewrite Ew. eapply log_layout_snoc; [done..|].
    eapply layout_same_place; [done|by eapply assembles_nonempty|done].
  - split; [done|]. unfold Writer_reopen. cbn [block_offset dest].
    pose proof (Z.mod_pos_bound (size_of (written f)) kBlockSize eq_refl).
    split; [unfold kBlockSize in *; lia|]. exists o. rewrite Hf. split; [done|].
    destruct (log_layout_range _ _ _ _ HL) as [Hr Hm]; [done|]. rewrite Z.add_0_l in Hm.
    rewrite <- Hm. destruct (decide (o = kBlockSize)) as [->|]; [by right|left].
    symmetry. apply Z.mod_small. lia.
  - split; [done|]. split; [done|]. exists o. cbn [dest block_offset]. by rewrite Hf.
Qed.
End Sessions.

Lemma Written_clean {W R : Type} `{!WritableFile W} `{!WritableFileLaws W} `{!ReliableFile W}
    `{!SequentialFile R} `{!SequentialFileLaws R} `{!ReliableReads R}
    (records : list bytes) (w : Writer W) (reporter checksum : bool) (f : R) :
  Written records w -> (length records <= length (written (dest w)))%nat /\
  (unread f = written (dest w) -> clean_reads (Reader_make f reporter checksum 0) records) /\
  (forall record s w' n, AddRecord record w = Some (s, w') ->
     size_of (written (dest w)) <= n < size_of (written (dest w')) ->
     unread f = take (Z.to_nat n) (written (dest w')) -> clean_reads (Reader_make f reporter checksum 0) records).
Proof.
  intros HW. destruct (Written_layout _ _ HW) as (Ht & Hb & o & HL & Ho).
  pose proof (Reader_make_at_offset f reporter checksum) as Hat. split; [by eapply log_layout_size|]. split.
  - intros Ef. destruct (AddRecord_spec [] w Ht Hb) as (s & w1 & items & out & _ & _ & _ & HL1 & Ha & _).
    apply (layout_same_place o) in HL1; [|done|by eapply assembles_nonempty].
    apply (clean_reads_log records 0 (written (dest w)) o [] items out _ 0 (Reader_make f reporter checksum 0) HL Ha HL1).
    + apply layout_size in HL1. apply assembles_nonempty in Ha. destruct items; [done|]. cbn [length] in HL1. lia.
    + by rewrite app_nil_r, <- Ef.
  - intros record s w' n E Hn Ef.
    destruct (AddRecord_spec record w Ht Hb) as (s1 & w1 & items & out & E1 & _ & _ & HL1 & Ha & Ew).
    rewrite E1 in E. injection E as <- <-.
    apply (layout_same_place o) in HL1; [|done|by eapply assembles_nonempty].
    rewrite Ew, size_of_app in Hn. unfold size_of in Hn.
    apply (clean_reads_log records 0 (written (dest w)) o record items out _
             (Z.to_nat n - length (written (dest w)))
             (Reader_make f reporter checksum 0) HL Ha HL1); [lia|].
    rewrite <- take_app_ge, <- Ew, <- Ef by lia. done.
Qed.

(** C17: the records that writers have added to a log, in one session or in
    several, are read back, all and in order, and nothing is reported; and when
    the log ends somewhere inside the record that was being written, the
    records before it are read back, and nothing is reported either. *)
Theorem log_recovery {W R : Type} `{!WritableFile W} `{!WritableFileLaws W} `{!ReliableFile W}
    `{!SequentialFile R} `{!SequentialFileLaws R} `{!ReliableReads R}
    (records : list bytes) (w : Writer W) (reporter checksum : bool) (f : R) :
  Written records w ->
  (unread f = written (dest w) -> exists r',
     ReadAll (Reader_make f reporter checksum 0) = Some (records, r') /\ reports r' = []) /\
  (forall record s w' n, AddRecord record w = Some (s, w') ->
     size_of (written (dest w)) <= n < size_of (written (dest w')) ->
     unread f = take (Z.to_nat n) (written (dest w')) -> exists r',
     ReadAll (Reader_make f reporter checksum 0) = Some (records, r') /\ reports r' = []).
Proof.
  intros HW. destruct (Written_clean records w reporter checksum f HW) as (Hl & Hall & Hcut).
  assert (Hread : (length (written (dest w)) <= length (unread f))%nat -> clean_reads (Reader_make f reporter checksum 0) records -> exists r',
     ReadAll (Reader_make f reporter checksum 0) = Some (records, r') /\ reports r' = []).
  { intros Hf Hc. destruct (ReadAll_clean _ _ Hc (S (length (unread f)))) as (r' & E & Hr); [lia|]. by exists r'. }
  split.
  - intros Ef. apply Hread; [by rewrite Ef|by apply Hall].
  - intros record s w' n E Hn Ef. apply Hread; [rewrite Ef, length_take; unfold size_of in Hn; lia|by apply (Hcut record s w' n)].
Qed.

#[export] Instance bytes_WritableFile : WritableFile bytes := {|
  Append d f := (OK, f ++ d); Flush f := (OK, f); Sync f := (OK, f); Close f := (OK, f); written f := f
|}.
#[export] Instance bytes_WritableFileLaws : WritableFileLaws bytes.
Proof.
  split; simpl; intros; simplify_eq; try done. exists d, []. by rewrite app_nil_r.
Qed.
#[export] Instance bytes_ReliableFile : ReliableFile bytes.
Proof. by split. Qed.

#[export] Instance bytes_SequentialFile : SequentialFile bytes := {|
  Read n f := (OK, take (Z.to_nat n) f, drop (Z.to_nat n) f);
  Skip n f := (OK, drop (Z.to_nat n) f);
  unread f := f
|}.
#[export] Instance bytes_SequentialFileLaws : SequentialFileLaws bytes.
Proof.
  split; simpl; intros; simplify_eq; try done.
  - by rewrite take_drop.
  - len.
  - apply drop_ge. len.
Qed.
#[export] Instance bytes_ReliableReads : ReliableReads bytes.
Proof. by split. Qed.

(** The log with the records [hello] and [world], and the log that a crash
    leaves when the third record was being written. *)
Definition sample_writer (records : list bytes) : Writer bytes :=
  fold_left (fun w r => match AddRecord r w with Some (_, w) => w | None => w end) records (Writer_make []).

Lemma log_recovery_witness :
  let w := sample_writer [str "hello"; str "world"] in
  let w' := sample_writer [str "hello"; str "world"; str "again"] in
  (written (dest w) = written (dest w) -> exists r',
     ReadAll (Reader_make (written (dest w)) true true 0) = Some ([str "hello"; str "world"], r') /\ reports r' = []) /\
  (exists r', ReadAll (Reader_make (take 30 (written (dest w'))) true true 0) =
     Some ([str "hello"; str "world"], r') /\ reports r' = []).
Proof.
  intros w w'. assert (HW : Written ([] ++ [str "hello"] ++ [str "world"]) w).
  { rewrite app_assoc. eapply (Written_add _ (sample_writer [str "hello"])); [|vm_compute; reflexivity].
    eapply (Written_add _ (Writer_make [])); [by constructor|vm_compute; reflexivity]. }
  split.
  - exact (proj1 (log_recovery _ _ true true (written (dest w)) HW)).
  - refine (proj2 (log_recovery _ _ true true (take 30 (written (dest w'))) HW) (str "again") OK w' 30 _ _ _);
      [vm_compute; reflexivity|vm_compute; split; congruence|reflexivity].
Defined.
