(* ===== verification/Iterator.v ===== *)
(** * Iterator: the interface of iterators over sorted entries

    Models [include/leveldb/iterator.h], [table/iterator.cpp] and
    [table/iterator_wrapper.h].  An iterator is a type of states with the
    operations of the interface.  [IteratorLaws] is what an iterator promises its
    clients: it behaves as a cursor on a list of entries.  The iterators of
    blocks, mem-tables and levels discharge it, and the merging and two-level
    iterators are verified against it. *)

From S2P Require Import Prelude Slice Comparator.

(** ** The interface *)

Class Iterator (S : Type) := {
  Valid : S -> bool;
  key : S -> bytes;
  value : S -> bytes;
  status : S -> Status;
  SeekToFirst : S -> S;
  SeekToLast : S -> S;
  Seek : bytes -> S -> S;
  Next : S -> S;
  Prev : S -> S
}.

(** ** Cursors *)

(** The position of the first entry whose key is not before [target]. *)
Definition seek_position (c : Comparator) (entries : list (bytes * bytes)) (target : bytes) : option nat :=
  fst <$> list_find (fun e => Compare c (fst e) target <> Lt) entries.

Definition first_position {A} (entries : list A) : option nat :=
  match entries with [] => None | _ => Some O end.
Definition last_position {A} (entries : list A) : option nat :=
  match length entries with O => None | S n => Some n end.
Definition next_position {A} (entries : list A) (i : nat) : option nat :=
  if (S i <? length entries)%nat then Some (S i) else None.
Definition prev_position (i : nat) : option nat := pred <$> (if (i =? 0)%nat then None else Some i).

(** [rep s p]: the state [s] is at position [p] of [entries]; [None]: it is not
    valid.  [Next] and [Prev] are called on valid iterators only, as the
    interface requires; the size of a slice is a [size_t], of 32 bits. *)
Class IteratorLaws {S : Type} `{!Iterator S} (c : Comparator) (entries : list (bytes * bytes))
    (rep : S -> option nat -> Prop) : Prop := {
  rep_valid s p : rep s p -> Valid s = bool_decide (is_Some p);
  rep_entry s i : rep s (Some i) -> entries !! i = Some (key s, value s);
  rep_status s p : rep s p -> ok (status s) = true;
  rep_first s p : rep s p -> rep (SeekToFirst s) (first_position entries);
  rep_last s p : rep s p -> rep (SeekToLast s) (last_position entries);
  rep_seek s p target : size_of target < 2 ^ 32 -> rep s p -> rep (Seek target s) (seek_position c entries target);
  rep_next s i : rep s (Some i) -> rep (Next s) (next_position entries i);
  rep_prev s i : rep s (Some i) -> rep (Prev s) (prev_position i)
}.

(** The state is at a position for some relation that satisfies the laws. *)
Definition cursor {S : Type} `{!Iterator S} (c : Comparator) (entries : list (bytes * bytes)) (s : S) (p : option nat) : Prop :=
  exists rep, IteratorLaws c entries rep /\ rep s p.

#[export] Instance cursor_laws {S : Type} `{!Iterator S} c entries : IteratorLaws (S := S) c entries (cursor c entries).
Proof.
  split; intros s p; [| | | | |intros target Ht| |]; intros (rep & H & Hr).
  - by apply (rep_valid s p Hr).
  - by apply (rep_entry s p Hr).
  - by apply (rep_status s p Hr).
  - exists rep. split; [done|]. by apply (rep_first s p).
  - exists rep. split; [done|]. by apply (rep_last s p).
  - exists rep. split; [done|]. by apply (rep_seek s p).
  - exists rep. split; [done|]. by apply (rep_next s p).
  - exists rep. split; [done|]. by apply (rep_prev s p).
Qed.

(** Entries in increasing order of their keys. *)
Definition sorted_entries (c : Comparator) (entries : list (bytes * bytes)) : Prop :=
  StronglySorted (fun a b => Compare c (fst a) (fst b) = Lt) entries.

Section Positions.
Context (c : Comparator) `{!ComparatorLaws c}.

Lemma sorted_entries_lookup entries i j a b :
  sorted_entries c entries -> entries !! i = Some a -> entries !! j = Some b -> (i < j)%nat ->
  Compare c (fst a) (fst b) = Lt.
Proof using. intros Hs. by apply (StronglySorted_lookup _ _ _ _ _ _ Hs). Qed.

Lemma seek_position_Some entries target i :
  seek_position c entries target = Some i <->
  exists e, entries !! i = Some e /\ Compare c (fst e) target <> Lt /\
    forall j e', entries !! j = Some e' -> (j < i)%nat -> Compare c (fst e') target = Lt.
Proof using.
  unfold seek_position. split.
  - intros ([j e] & E & ->)%fmap_Some. apply list_find_Some in E as (Hi & Hp & Hj). exists e.
    split; [done|]. split; [done|]. intros j' e' H1 H2. specialize (Hj j' e' H1 H2).
    destruct (Compare c (fst e') target); [exfalso; by apply Hj|done|exfalso; by apply Hj].
  - intros (e & Hi & Hp & Hj). apply fmap_Some. exists (i, e). split; [|done].
    apply list_find_Some. split; [done|]. split; [done|]. intros j e' H1 H2 H3. apply H3. by eapply Hj.
Qed.

Lemma seek_position_None entries target :
  seek_position c entries target = None <->
  forall j e, entries !! j = Some e -> Compare c (fst e) target = Lt.
Proof using.
  unfold seek_position. rewrite fmap_None, list_find_None, Forall_lookup. split.
  - intros H j e Hj. specialize (H j e Hj). destruct (Compare c (fst e) target); [exfalso; by apply H|done|exfalso; by apply H].
  - intros H j e Hj Hn. by apply Hn, (H j).
Qed.

Lemma last_position_Some {A} (l : list A) i : last_position l = Some i <-> length l = S i.
Proof using.
  unfold last_position. split; [destruct (length l); [done|by intros [= ->]]|by intros ->].
Qed.

Lemma next_position_Some {A} (l : list A) i : (S i < length l)%nat -> next_position l i = Some (S i).
Proof using. unfold next_position. intros. destruct (Nat.ltb_spec (S i) (length l)); [done|lia]. Qed.

Lemma next_position_None {A} (l : list A) i : (length l <= S i)%nat -> next_position l i = None.
Proof using. unfold next_position. intros. destruct (Nat.ltb_spec (S i) (length l)); [lia|done]. Qed.
End Positions.

(** ** iterator.cpp *)

(** [EmptyIterator]; [key] and [value] may not be called. *)
Record EmptyIterator : Type := mkEmptyIterator { empty_status : Status }.

#[export] Instance EmptyIterator_Iterator : Iterator EmptyIterator := {|
  Valid s := false;
  key s := [];
  value s := [];
  status := empty_status;
  SeekToFirst s := s;
  SeekToLast s := s;
  Seek target s := s;
  Next s := s;
  Prev s := s
|}.

Definition NewEmptyIterator : EmptyIterator := mkEmptyIterator OK.
Definition NewErrorIterator (s : Status) : EmptyIterator := mkEmptyIterator s.

#[export] Instance NewEmptyIterator_laws c :
  IteratorLaws c [] (fun s p => s = NewEmptyIterator /\ p = None).
Proof. split; simpl; intros; destruct_and?; simplify_eq; done. Qed.

(** The clean-up functions of an iterator, run by its destructor: the first one
    registered, then the others from the last one.  [A] is the type of
    registered calls. *)
Section Cleanup.
Context {A : Type}.
Record Cleanup : Type := mkCleanup { first_cleanup : option A; next_cleanups : list A }.
Definition RegisterCleanup (func : A) (c : Cleanup) : Cleanup :=
  match first_cleanup c with
  | None => mkCleanup (Some func) (next_cleanups c)
  | Some f => mkCleanup (Some f) (func :: next_cleanups c)
  end.
Definition run_cleanups (c : Cleanup) : list A :=
  match first_cleanup c with
  | None => []
  | Some f => f :: next_cleanups c
  end.
End Cleanup.

(** ** iterator_wrapper.h *)

Section Wrapper.
Context {S : Type} `{!Iterator S}.

(** The iterator with its cached results; [iter_ == NULL] is [None]. *)
Record IteratorWrapper : Type := mkWrapper { iter : option S; valid_ : bool; key_ : bytes }.

(** [Update]. *)
Definition Update (s : S) (old_key : bytes) : IteratorWrapper :=
  mkWrapper (Some s) (Valid s) (if Valid s then key s else old_key).

Definition Wrapper_Set (i : option S) (w : IteratorWrapper) : IteratorWrapper :=
  match i with
  | None => mkWrapper None false (key_ w)
  | Some s => Update s (key_ w)
  end.

Definition Wrapper_make (i : option S) : IteratorWrapper := Wrapper_Set i (mkWrapper None false []).

Definition wrapper_op (f : S -> S) (w : IteratorWrapper) : IteratorWrapper :=
  match iter w with
  | None => w
  | Some s => Update (f s) (key_ w)
  end.

#[export] Instance IteratorWrapper_Iterator : Iterator IteratorWrapper := {|
  Valid := valid_;
  key := key_;
  value w := match iter w with Some s => value s | None => [] end;
  status w := match iter w with Some s => status s | None => OK end;
  SeekToFirst := wrapper_op SeekToFirst;
  SeekToLast := wrapper_op SeekToLast;
  Seek target := wrapper_op (Seek target);
  Next := wrapper_op Next;
  Prev := wrapper_op Prev
|}.

(** A wrapper is at the position of its iterator, and its cache is right. *)
Definition wrapper_rep (rep : S -> option nat -> Prop) (w : IteratorWrapper) (p : option nat) : Prop :=
  exists s, iter w = Some s /\ rep s p /\ valid_ w = Valid s /\ (valid_ w = true -> key_ w = key s).

Lemma Update_rep rep s k p : rep s p -> wrapper_rep rep (Update s k) p.
Proof using. intros H. exists s. repeat split; [done|]. simpl. by intros ->. Qed.

#[export] Instance IteratorWrapper_laws c entries (rep : S -> option nat -> Prop)
    `{!IteratorLaws c entries rep} :
  IteratorLaws c entries (wrapper_rep rep).
Proof using.
  split; unfold wrapper_rep at 1; simpl; unfold wrapper_op.
  - intros w p (s & _ & Hr & -> & _). by apply rep_valid.
  - intros w i (s & -> & Hr & Hv & Hk). rewrite Hk; [by apply (rep_entry (rep := rep))|].
    rewrite Hv. by rewrite (rep_valid s (Some i)).
  - intros w p (s & -> & Hr & _). by eapply rep_status.
  - intros w p (s & -> & Hr & _). eapply Update_rep, rep_first; done.
  - intros w p (s & -> & Hr & _). eapply Update_rep, rep_last; done.
  - intros w p t Ht (s & -> & Hr & _). eapply Update_rep, rep_seek; done.
  - intros w i (s & -> & Hr & _). eapply Update_rep, rep_next; done.
  - intros w i (s & -> & Hr & _). eapply Update_rep, rep_prev; done.
Qed.
End Wrapper.
Arguments IteratorWrapper : clear implicits.
Arguments Cleanup : clear implicits.

(** ** An iterator over a list *)

(** The simplest implementation: the entries and a position. *)
Section ListIterator.
Context (c : Comparator).
Record ListIterator : Type := mkListIterator { li_entries : list (bytes * bytes); li_pos : option nat }.

Definition li_at (p : option nat) (s : ListIterator) : ListIterator := mkListIterator (li_entries s) p.
Definition li_entry (s : ListIterator) : option (bytes * bytes) := li_pos s ≫= (fun i => li_entries s !! i).

#[export] Instance ListIterator_Iterator : Iterator ListIterator := {|
  Valid s := match li_pos s with Some _ => true | None => false end;
  key s := default [] (fst <$> li_entry s);
  value s := default [] (snd <$> li_entry s);
  status _ := OK;
  SeekToFirst s := li_at (first_position (li_entries s)) s;
  SeekToLast s := li_at (last_position (li_entries s)) s;
  Seek target s := li_at (seek_position c (li_entries s) target) s;
  Next s := li_at (li_pos s ≫= next_position (li_entries s)) s;
  Prev s := li_at (li_pos s ≫= prev_position) s
|}.

#[export] Instance ListIterator_laws `{!ComparatorLaws c} entries : IteratorLaws c entries
  (fun s p => li_entries s = entries /\ li_pos s = p /\ match p with Some i => (i < length entries)%nat | None => True end).
Proof.
  split; cbn.
  - intros s p (_ & -> & _). by destruct p.
  - intros s i (<- & Hp & Hi). unfold li_entry. rewrite Hp. cbn. destruct (lookup_lt_is_Some_2 _ _ Hi) as [[k v] ->]. done.
  - done.
  - intros s p (<- & _). split; [done|]. split; [done|]. unfold first_position. destruct (li_entries s); simpl; [done|lia].
  - intros s p (<- & _). split; [done|]. split; [done|]. destruct (last_position (li_entries s)) eqn:E; [|done].
    apply last_position_Some in E. lia.
  - intros s p target _ (<- & _). split; [done|]. split; [done|]. destruct (seek_position c (li_entries s) target) eqn:E; [|done].
    apply (seek_position_Some c) in E as (e & He & _). by eapply lookup_lt_Some.
  - intros s i (<- & Hp & Hi). cbn in Hi. rewrite Hp. cbn. split; [done|]. split; [done|].
    unfold next_position. destruct (Nat.ltb_spec (S i) (length (li_entries s))); done.
  - intros s i (<- & Hp & Hi). rewrite Hp. cbn. split; [done|]. split; [done|]. destruct i; cbn; [done|lia].
Qed.
End ListIterator.

(** ** Either of two iterators *)

(** A function that returns one class of iterators or another. *)
Section Sum.
Context {A B : Type} `{!Iterator A} `{!Iterator B}.

#[export] Instance sum_Iterator : Iterator (A + B) := {|
  Valid s := match s with inl a => Valid a | inr b => Valid b end;
  key s := match s with inl a => key a | inr b => key b end;
  value s := match s with inl a => value a | inr b => value b end;
  status s := match s with inl a => status a | inr b => status b end;
  SeekToFirst s := match s with inl a => inl (SeekToFirst a) | inr b => inr (SeekToFirst b) end;
  SeekToLast s := match s with inl a => inl (SeekToLast a) | inr b => inr (SeekToLast b) end;
  Seek t s := match s with inl a => inl (Seek t a) | inr b => inr (Seek t b) end;
  Next s := match s with inl a => inl (Next a) | inr b => inr (Next b) end;
  Prev s := match s with inl a => inl (Prev a) | inr b => inr (Prev b) end
|}.

Lemma inl_laws c entries (rep : A -> option nat -> Prop) : IteratorLaws c entries rep ->
  IteratorLaws c entries (fun (s : A + B) p => match s with inl a => rep a p | inr _ => False end).
Proof.
  intros H. split; intros [a|b]; cbn; intros; try done;
    [by eapply rep_valid|by eapply rep_entry|by eapply rep_status|by eapply rep_first|by eapply rep_last
    |by eapply rep_seek|by eapply rep_next|by eapply rep_prev].
Qed.

Lemma inr_laws c entries (rep : B -> option nat -> Prop) : IteratorLaws c entries rep ->
  IteratorLaws c entries (fun (s : A + B) p => match s with inl _ => False | inr b => rep b p end).
Proof.
  intros H. split; intros [a|b]; cbn; intros; try done;
    [by eapply rep_valid|by eapply rep_entry|by eapply rep_status|by eapply rep_first|by eapply rep_last
    |by eapply rep_seek|by eapply rep_next|by eapply rep_prev].
Qed.

Lemma inl_cursor c entries (a : A) p : cursor c entries a p -> cursor c entries (inl a : A + B) p.
Proof. intros (rep & H & Hr). eexists. split; [by apply inl_laws|done]. Qed.

Lemma inr_cursor c entries (b : B) p : cursor c entries b p -> cursor c entries (inr b : A + B) p.
Proof. intros (rep & H & Hr). eexists. split; [by apply inr_laws|done]. Qed.
End Sum.
