(* ===== verification/Block.v ===== *)
(** * Block: the prefix-compressed blocks of tables

    Models [table/block_builder.cpp] and [table/block.cpp].  A builder appends
    entries that share a prefix with the entry before them, and notes restart
    points; an iterator decodes them.  Pointers into the contents of a block are
    offsets. *)

From S2P Require Import Prelude Coding Slice Comparator Iterator.

(** ** block_builder.cpp *)

Record BlockBuilder : Type := mkBlockBuilder {
  bb_buffer : bytes;
  bb_restarts : list Z;
  bb_counter : Z;
  bb_finished : bool;
  bb_last_key : bytes
}.

Definition BlockBuilder_make : BlockBuilder := mkBlockBuilder [] [0] 0 false [].

Definition BlockBuilder_Reset (b : BlockBuilder) : BlockBuilder := mkBlockBuilder [] [0] 0 false [].

Definition CurrentSizeEstimate (b : BlockBuilder) : Z :=
  usize (size_of (bb_buffer b) + size_of (bb_restarts b) * 4 + 4).

Definition BlockBuilder_empty (b : BlockBuilder) : bool := size_of (bb_buffer b) =? 0.

Definition BlockBuilder_Finish (b : BlockBuilder) : bytes * BlockBuilder :=
  let buffer := fold_left PutFixed32 (bb_restarts b) (bb_buffer b) in
  let buffer := PutFixed32 buffer (u32 (size_of (bb_restarts b))) in
  (buffer, mkBlockBuilder buffer (bb_restarts b) (bb_counter b) true (bb_last_key b)).

(** What [Add] appends: the three lengths, the end of the key, the value. *)
Definition put_entry (buffer : bytes) (shared : Z) (key value : bytes) : bytes :=
  let non_shared := size_of key - shared in
  let buffer := PutVarint32 buffer (u32 shared) in
  let buffer := PutVarint32 buffer (u32 non_shared) in
  let buffer := PutVarint32 buffer (u32 (size_of value)) in
  buffer ++ drop (Z.to_nat shared) key ++ value.

Definition BlockBuilder_Add (block_restart_interval : Z) (key value : bytes) (b : BlockBuilder) :
    BlockBuilder :=
  let '(shared, restarts, counter) :=
    if bb_counter b <? block_restart_interval
    then (Z.of_nat (common_prefix (bb_last_key b) key), bb_restarts b, bb_counter b)
    else (0, bb_restarts b ++ [u32 (size_of (bb_buffer b))], 0) in
  let buffer := put_entry (bb_buffer b) shared key value in
  let last_key := take (Z.to_nat shared) (bb_last_key b) ++ drop (Z.to_nat shared) key in
  mkBlockBuilder buffer restarts (counter + 1) (bb_finished b) last_key.

(** ** block.cpp *)

(** [size_] is zero when the contents are too short; [restart_offset_] is then
    not set. *)
Record Block : Type := mkBlock { blk_data : bytes; blk_size : Z; blk_restart_offset : Z }.

Definition NumRestarts (data : bytes) (size : Z) : Z :=
  DecodeFixed32 (drop (Z.to_nat (size - 4)) data).

Definition Block_make (contents : bytes) : Block :=
  let size := size_of contents in
  if size <? 4 then mkBlock contents 0 0
  else
    let max_restarts_allowed := (size - 4) / 4 in
    if NumRestarts contents size >? max_restarts_allowed then mkBlock contents 0 0
    else mkBlock contents size (u32 (size - (1 + NumRestarts contents size) * 4)).

(** [DecodeEntry] on the bytes of [p .. limit]: the three lengths and what
    follows them. *)
Definition DecodeEntry (p : bytes) : option (Z * Z * Z * bytes) :=
  if size_of p <? 3 then None
  else
    let shared := uchar_at p 0 in
    let non_shared := uchar_at p 1 in
    let value_length := uchar_at p 2 in
    let decoded :=
      if Z.lor (Z.lor shared non_shared) value_length <? 128
      then Some (shared, non_shared, value_length, drop 3 p)
      else
        match GetVarint32Ptr p with
        | None => None
        | Some (shared, p) =>
            match GetVarint32Ptr p with
            | None => None
            | Some (non_shared, p) =>
                match GetVarint32Ptr p with
                | None => None
                | Some (value_length, p) => Some (shared, non_shared, value_length, p)
                end
            end
        end in
    match decoded with
    | None => None
    | Some (shared, non_shared, value_length, p) =>
        if u32 (size_of p) <? u32 (non_shared + value_length) then None
        else Some (shared, non_shared, value_length, p)
    end.

(** [Block::Iter]; [value_] is an offset and a length. *)
Record Iter : Type := mkIter {
  it_comparator : Comparator;
  it_data : bytes;
  it_restarts : Z;
  it_num_restarts : Z;
  it_current : Z;
  it_restart_index : Z;
  it_key : bytes;
  it_value_offset : Z;
  it_value_size : Z;
  it_status : Status
}.

Definition Iter_make (c : Comparator) (data : bytes) (restarts num_restarts : Z) : Iter :=
  mkIter c data restarts num_restarts restarts num_restarts [] 0 0 OK.

Definition NextEntryOffset (i : Iter) : Z := u32 (it_value_offset i + it_value_size i).

Definition GetRestartPoint (i : Iter) (index : Z) : Z :=
  DecodeFixed32 (drop (Z.to_nat (it_restarts i + index * 4)) (it_data i)).

Definition SeekToRestartPoint (index : Z) (i : Iter) : Iter :=
  mkIter (it_comparator i) (it_data i) (it_restarts i) (it_num_restarts i) (it_current i)
    index [] (GetRestartPoint i index) 0 (it_status i).

(** No more entries: mark as invalid. *)
Definition Invalidate (i : Iter) : Iter :=
  mkIter (it_comparator i) (it_data i) (it_restarts i) (it_num_restarts i) (it_restarts i)
    (it_num_restarts i) (it_key i) (it_value_offset i) (it_value_size i) (it_status i).

Definition CorruptionError (i : Iter) : Iter :=
  mkIter (it_comparator i) (it_data i) (it_restarts i) (it_num_restarts i) (it_restarts i)
    (it_num_restarts i) [] 0 0 (Corruption (str "bad entry in block") []).

(** [while (restart_index_ + 1 < num_restarts_ &&
            GetRestartPoint(restart_index_ + 1) < current_) ++restart_index_];
    at most [fuel = num_restarts_] steps. *)
Fixpoint advance_restart (fuel : nat) (i : Iter) (index : Z) : Z :=
  match fuel with
  | O => index
  | S fuel =>
      if (index + 1 <? it_num_restarts i) && (GetRestartPoint i (index + 1) <? it_current i)
      then advance_restart fuel i (index + 1) else index
  end.

(** The bytes of [p .. limit]: nothing when [p] is past the limit. *)
Definition region (i : Iter) (p : Z) : bytes :=
  take (Z.to_nat (it_restarts i - p)) (drop (Z.to_nat p) (it_data i)).

Definition set_current (p : Z) (i : Iter) : Iter :=
  mkIter (it_comparator i) (it_data i) (it_restarts i) (it_num_restarts i) p
    (it_restart_index i) (it_key i) (it_value_offset i) (it_value_size i) (it_status i).

Definition ParseNextKey (i : Iter) : bool * Iter :=
  let p := NextEntryOffset i in
  let i := set_current p i in
  if p >=? it_restarts i then (false, Invalidate i)
  else
    match DecodeEntry (region i p) with
    | None => (false, CorruptionError i)
    | Some (shared, non_shared, value_length, q) =>
        if size_of (it_key i) <? shared then (false, CorruptionError i)
        else
          let p := it_restarts i - size_of q in
          let key := take (Z.to_nat shared) (it_key i) ++
                     take (Z.to_nat non_shared) (drop (Z.to_nat p) (it_data i)) in
          (true, mkIter (it_comparator i) (it_data i) (it_restarts i) (it_num_restarts i)
                   (it_current i)
                   (advance_restart (Z.to_nat (it_num_restarts i)) i (it_restart_index i))
                   key (p + non_shared) value_length (it_status i))
    end.

Definition Iter_Valid (i : Iter) : bool := it_current i <? it_restarts i.
Definition Iter_value (i : Iter) : bytes :=
  take (Z.to_nat (it_value_size i)) (drop (Z.to_nat (it_value_offset i)) (it_data i)).

Definition Iter_Next (i : Iter) : Iter := snd (ParseNextKey i).

(** [while (GetRestartPoint(restart_index_) >= original)]; [None]: no more
    entries. *)
Fixpoint Prev_restart (fuel : nat) (i : Iter) (original index : Z) : option Z :=
  match fuel with
  | O => Some index
  | S fuel =>
      if GetRestartPoint i index >=? original then
        if index =? 0 then None else Prev_restart fuel i original (index - 1)
      else Some index
  end.

(** [do {} while (ParseNextKey() && NextEntryOffset() < bound)]; an entry has at
    least three bytes. *)
Fixpoint ParseUntil (fuel : nat) (bound : Z) (i : Iter) : Iter :=
  match fuel with
  | O => i
  | S fuel =>
      let '(more, i) := ParseNextKey i in
      if more && (NextEntryOffset i <? bound) then ParseUntil fuel bound i else i
  end.

Definition Iter_Prev (i : Iter) : Iter :=
  let original := it_current i in
  match Prev_restart (S (Z.to_nat (it_restart_index i))) i original (it_restart_index i) with
  | None => Invalidate i
  | Some index => ParseUntil (S (length (it_data i))) original (SeekToRestartPoint index i)
  end.

(** The binary search of [Seek]; [None]: the block is corrupted. *)
Fixpoint Seek_restart (fuel : nat) (i : Iter) (target : bytes) (left right : Z) : option Z :=
  match fuel with
  | O => Some left
  | S fuel =>
      if left <? right then
        let mid := u32 (left + right + 1) / 2 in
        match DecodeEntry (region i (GetRestartPoint i mid)) with
        | None => None
        | Some (shared, non_shared, value_length, q) =>
            if negb (shared =? 0) then None
            else
              let mid_key := take (Z.to_nat non_shared)
                (drop (Z.to_nat (it_restarts i - size_of q)) (it_data i)) in
              match Compare (it_comparator i) mid_key target with
              | Lt => Seek_restart fuel i target mid right
              | _ => Seek_restart fuel i target left (mid - 1)
              end
        end
      else Some left
  end.

(** The linear search of [Seek]. *)
Fixpoint Seek_linear (fuel : nat) (target : bytes) (i : Iter) : Iter :=
  match fuel with
  | O => i
  | S fuel =>
      let '(more, i) := ParseNextKey i in
      if negb more then i
      else match Compare (it_comparator i) (it_key i) target with
           | Lt => Seek_linear fuel target i
           | _ => i
           end
  end.

Definition Iter_Seek (target : bytes) (i : Iter) : Iter :=
  match Seek_restart (Z.to_nat (it_num_restarts i)) i target 0 (it_num_restarts i - 1) with
  | None => CorruptionError i
  | Some index => Seek_linear (S (length (it_data i))) target (SeekToRestartPoint index i)
  end.

Definition Iter_SeekToFirst (i : Iter) : Iter := snd (ParseNextKey (SeekToRestartPoint 0 i)).

Definition Iter_SeekToLast (i : Iter) : Iter :=
  ParseUntil (S (length (it_data i))) (it_restarts i) (SeekToRestartPoint (it_num_restarts i - 1) i).

#[export] Instance Iter_Iterator : Iterator Iter := {|
  Valid := Iter_Valid;
  key := it_key;
  value := Iter_value;
  status := it_status;
  SeekToFirst := Iter_SeekToFirst;
  SeekToLast := Iter_SeekToLast;
  Seek := Iter_Seek;
  Next := Iter_Next;
  Prev := Iter_Prev
|}.

(** [Block::NewIterator]: an iterator on the entries, or an empty one. *)
Definition NewIterator (cmp : Comparator) (b : Block) : EmptyIterator + Iter :=
  if blk_size b <? 4 then inl (NewErrorIterator (Corruption (str "bad block contents") []))
  else
    let num_restarts := NumRestarts (blk_data b) (blk_size b) in
    if num_restarts =? 0 then inl NewEmptyIterator
    else inr (Iter_make cmp (blk_data b) (blk_restart_offset b) num_restarts).

(** ** The encoding of a list of entries *)

(** An entry: the number of bytes of its key that are shared, its key and its
    value. *)
Abbreviation entry := (nat * bytes * bytes)%type.
Definition e_shared (e : entry) : nat := fst (fst e).
Definition e_key (e : entry) : bytes := snd (fst e).
Definition e_value (e : entry) : bytes := snd e.
Definition e_pair (e : entry) : bytes * bytes := (e_key e, e_value e).
Definition encode_entry (e : entry) : bytes := put_entry [] (Z.of_nat (e_shared e)) (e_key e) (e_value e).
Definition encode_entries (es : list entry) : bytes := concat (map encode_entry es).

(** The offset of entry [k]. *)
Definition offset (es : list entry) (k : nat) : Z := size_of (encode_entries (take k es)).

(** Each entry shares what it says with the entry before it. *)
Fixpoint shares (prev : bytes) (es : list entry) : Prop :=
  match es with
  | [] => True
  | e :: es =>
      (e_shared e <= length prev)%nat /\ (e_shared e <= length (e_key e))%nat /\
      take (e_shared e) prev = take (e_shared e) (e_key e) /\ shares (e_key e) es
  end.

(** [rs]: the entries at restart points, the first one and others after it,
    which share nothing. *)
Record restarts_ok (es : list entry) (rs : list nat) : Prop := {
  rs_first : rs !! O = Some O;
  rs_sorted : StronglySorted lt rs;
  rs_below k r : rs !! k = Some r -> (r < length es)%nat \/ r = O;
  rs_unshared k r e : rs !! k = Some r -> es !! r = Some e -> e_shared e = O
}.

Definition block_data (es : list entry) (rs : list nat) : bytes :=
  encode_entries es ++ concat (map (fun r => EncodeFixed32 (offset es r)) rs) ++
  EncodeFixed32 (size_of rs).

(** ** Entries *)

Lemma put_entry_app buffer s k v : put_entry buffer s k v = buffer ++ put_entry [] s k v.
Proof. unfold put_entry, PutVarint32. by rewrite <- !app_assoc. Qed.

Lemma length_encode_entry e : (3 <= length (encode_entry e))%nat.
Proof.
  unfold encode_entry, put_entry, PutVarint32. rewrite !length_app. cbn [length].
  pose proof (length_EncodeVarint32 (u32 (Z.of_nat (e_shared e)))).
  pose proof (length_EncodeVarint32 (u32 (size_of (e_key e) - Z.of_nat (e_shared e)))).
  pose proof (length_EncodeVarint32 (u32 (size_of (e_value e)))). lia.
Qed.

Lemma encode_entries_app es es' : encode_entries (es ++ es') = encode_entries es ++ encode_entries es'.
Proof. unfold encode_entries. by rewrite map_app, concat_app. Qed.

Lemma offset_full es : offset es (length es) = size_of (encode_entries es).
Proof. unfold offset. by rewrite firstn_all. Qed.

Lemma offset_S es k e : es !! k = Some e -> offset es (S k) = offset es k + size_of (encode_entry e).
Proof.
  intros E. unfold offset. rewrite (take_S_r _ _ e) by done. rewrite encode_entries_app, size_of_app.
  unfold encode_entries at 2. simpl. by rewrite app_nil_r.
Qed.

Lemma offset_lt es i j : (i < j)%nat -> (j <= length es)%nat -> offset es i + 3 <= offset es j.
Proof.
  induction 1 as [|j Hij IH]; intros Hj.
  - destruct (lookup_lt_is_Some_2 es i) as [e E]; [lia|]. rewrite (offset_S _ _ _ E).
    pose proof (length_encode_entry e). unfold size_of. lia.
  - destruct (lookup_lt_is_Some_2 es j) as [e E]; [lia|]. rewrite (offset_S _ _ _ E).
    specialize (IH ltac:(lia)). pose proof (size_of_nonneg (encode_entry e)). lia.
Qed.

Lemma offset_ltb es i j : (i <= length es)%nat -> (j <= length es)%nat ->
  offset es i < offset es j <-> (i < j)%nat.
Proof.
  intros Hi Hj. split; [|intros; pose proof (offset_lt es i j); lia].
  intros H. destruct (decide (i < j)%nat); [done|]. destruct (decide (i = j)) as [->|]; [lia|].
  pose proof (offset_lt es j i). lia.
Qed.

Lemma offset_0 es : offset es 0 = 0.
Proof. done. Qed.

Lemma offset_nonneg es k : 0 <= offset es k.
Proof. apply size_of_nonneg. Qed.

(** ** Decoding an entry *)

Lemma lor_small a b : 0 <= a < 256 -> 0 <= b < 256 -> Z.lor a b < 128 -> a < 128 /\ b < 128.
Proof.
  assert (Hbit : forall x, 0 <= x < 256 -> Z.testbit x 7 = (128 <=? x)).
  { intros x Hx. rewrite Z.testbit_eqb by lia. change (2 ^ 7) with 128.
    destruct (Z.leb_spec 128 x); [apply Z.eqb_eq|apply Z.eqb_neq]; dlia. }
  intros Ha Hb Hlt. assert (Hr : 0 <= Z.lor a b) by (apply Z.lor_nonneg; lia).
  pose proof (Hbit (Z.lor a b) ltac:(lia)) as H. rewrite Z.lor_spec, !Hbit in H by done.
  destruct (Z.leb_spec 128 (Z.lor a b)); [lia|]. apply orb_false_iff in H as [H1 H2].
  apply Z.leb_gt in H1, H2. lia.
Qed.

Lemma GetVarint32Ptr_byte c p : b2z c < 128 -> GetVarint32Ptr (c :: p) = Some (b2z c, p).
Proof.
  intros Hc. unfold GetVarint32Ptr. rewrite land_128_byte by apply b2z_range.
  by replace (b2z c <? 128) with true by lia.
Qed.

(** The fast path gives what the general one does. *)
Lemma DecodeEntry_slow p :
  3 <= size_of p ->
  DecodeEntry p = 
    match GetVarint32Ptr p with None => None | Some (shared, p) =>
    match GetVarint32Ptr p with None => None | Some (non_shared, p) =>
    match GetVarint32Ptr p with None => None | Some (value_length, p) =>
      if u32 (size_of p) <? u32 (non_shared + value_length) then None
      else Some (shared, non_shared, value_length, p) end end end.
Proof.
  intros Hp. unfold DecodeEntry. destruct (Z.ltb_spec (size_of p) 3) as [|_]; [lia|].
  destruct p as [|b0 [|b1 [|b2 p]]]; try (unfold size_of in Hp; simpl in Hp; lia).
  unfold uchar_at. cbn [nth drop].
  pose proof (b2z_range b0). pose proof (b2z_range b1). pose proof (b2z_range b2).
  destruct (Z.ltb_spec (Z.lor (Z.lor (b2z b0) (b2z b1)) (b2z b2)) 128) as [Hlt|_].
  - assert (Hr : 0 <= Z.lor (b2z b0) (b2z b1) < 256) by (by apply (lor_range _ _ 8)).
    apply lor_small in Hlt as [H01 H2']; [|done|done]. apply lor_small in H01 as [H0' H1']; [|done|done].
    by rewrite !GetVarint32Ptr_byte, ?drop_0 by done.
  - destruct (GetVarint32Ptr _) as [[x p1]|]; [|done]. destruct (GetVarint32Ptr p1) as [[y p2]|]; [|done].
    by destruct (GetVarint32Ptr p2) as [[z p3]|].
Qed.

Lemma e_sizes es k e : es !! k = Some e -> 
  offset es k + size_of (drop (e_shared e) (e_key e)) + size_of (e_value e) + 3 <= offset es (S k).
Proof.
  intros E. rewrite (offset_S _ _ _ E). unfold encode_entry, put_entry, PutVarint32.
  cbn [app]. rewrite Nat2Z.id. unfold size_of. rewrite !length_app.
  pose proof (length_EncodeVarint32 (u32 (Z.of_nat (e_shared e)))).
  pose proof (length_EncodeVarint32 (u32 (Z.of_nat (length (e_key e)) - Z.of_nat (e_shared e)))).
  pose proof (length_EncodeVarint32 (u32 (Z.of_nat (length (e_value e))))). lia.
Qed.

(** Decoding an entry that is followed by [rest]. *)
Lemma DecodeEntry_encode e rest :
  (e_shared e <= length (e_key e))%nat -> size_of (e_key e) < 2 ^ 32 ->
  size_of (drop (e_shared e) (e_key e) ++ e_value e ++ rest) < 2 ^ 32 ->
  DecodeEntry (encode_entry e ++ rest) =
  Some (Z.of_nat (e_shared e), size_of (e_key e) - Z.of_nat (e_shared e), size_of (e_value e),
        drop (e_shared e) (e_key e) ++ e_value e ++ rest).
Proof.
  intros Hs Hk Hsz. rewrite DecodeEntry_slow.
  2:{ pose proof (length_encode_entry e). rewrite size_of_app. pose proof (size_of_nonneg rest).
      unfold size_of in *. lia. }
  rewrite !size_of_app in Hsz. pose proof (size_of_nonneg rest). pose proof (size_of_nonneg (e_value e)).
  pose proof (size_of_nonneg (drop (e_shared e) (e_key e))).
  unfold encode_entry, put_entry, PutVarint32. cbn [app]. rewrite <- !app_assoc, Nat2Z.id.
  rewrite <- !GetVarint32_Ptr. rewrite !GetVarint32_Encode by apply u32_range.
  rewrite <- GetVarint32_Ptr, GetVarint32_Encode by apply u32_range.
  rewrite <- GetVarint32_Ptr, GetVarint32_Encode by apply u32_range.
  assert (Hks : size_of (drop (e_shared e) (e_key e)) = size_of (e_key e) - Z.of_nat (e_shared e)).
  { unfold size_of. rewrite length_drop. lia. }
  rewrite !(u32_small (Z.of_nat _)), !(u32_small (size_of _ - _)), !(u32_small (size_of (e_value e)))
    by (unfold size_of in *; lia).
  rewrite !size_of_app, Hks, !u32_small by lia.
  destruct (Z.ltb_spec (size_of (e_key e) - Z.of_nat (e_shared e) + (size_of (e_value e) + size_of rest))
    (size_of (e_key e) - Z.of_nat (e_shared e) + size_of (e_value e))); [lia|done].
Qed.

Lemma encode_entry_split e : exists h, encode_entry e = h ++ drop (e_shared e) (e_key e) ++ e_value e.
Proof.
  unfold encode_entry, put_entry, PutVarint32. rewrite Nat2Z.id. by eexists.
Qed.

Lemma first_position_nil {A} (l : list A) : length l = O -> first_position l = None.
Proof. by destruct l. Qed.
Lemma first_position_cons {A} (l : list A) : length l <> O -> first_position l = Some O.
Proof. by destruct l. Qed.

(** ** The iterator over an encoded list *)

Section BlockIter.
Context (c : Comparator) (es : list entry) (rs : list nat).
Context (Hshares : shares [] es) (Hrs : restarts_ok es rs).
Context (Hsize : size_of (block_data es rs) < 2 ^ 32).
Context (Hkeys : Forall (fun e => size_of (e_key e) < 2 ^ 32) es).



(** What the operations leave alone. *)
Definition on_block (i : Iter) : Prop :=
  it_comparator i = c /\ it_data i = block_data es rs /\ it_restarts i = offset es (length es) /\
  it_num_restarts i = size_of rs /\ it_status i = OK.

(** The restart index is that of a restart point at or before entry [k]. *)
Definition restart_at (i : Iter) (k : nat) : Prop :=
  exists j r, it_restart_index i = Z.of_nat j /\ rs !! j = Some r /\ (r <= k)%nat.

(** The iterator is about to parse entry [k]. *)
Definition ready (i : Iter) (k : nat) : Prop :=
  on_block i /\ (k <= length es)%nat /\ NextEntryOffset i = offset es k /\ restart_at i k /\
  forall e, es !! k = Some e ->
    (e_shared e <= length (it_key i))%nat /\ take (e_shared e) (it_key i) = take (e_shared e) (e_key e).

(** The iterator is at position [p]. *)
Definition iter_rep (i : Iter) (p : option nat) : Prop :=
  on_block i /\
  match p with
  | None => it_current i = offset es (length es)
  | Some k => exists e, es !! k = Some e /\ it_current i = offset es k /\ it_key i = e_key e /\
      Iter_value i = e_value e /\ ready i (S k) /\ restart_at i k
  end.

Lemma shares_lookup k e : es !! k = Some e ->
  (e_shared e <= length (e_key e))%nat /\
  forall p, k = S p -> forall e', es !! p = Some e' ->
    (e_shared e <= length (e_key e'))%nat /\ take (e_shared e) (e_key e') = take (e_shared e) (e_key e).
Proof.
  revert Hshares. generalize (@nil Byte.byte) as prev. clear. revert k.
  induction es as [|e0 l IH]; intros k prev; simpl; [done|].
  intros (H1 & H2 & H3 & H4) E. destruct k as [|k]; [by injection E as <-|].
  destruct (IH k _ H4 E) as [Ha Hb]. split; [done|]. intros p [= <-] e' E'.
  destruct k as [|k]; [|by apply (Hb k eq_refl)]. injection E' as <-. destruct l; [done|].
  injection E as ->. simpl in H4. tauto.
Qed.

Lemma data_size : offset es (length es) + 4 * size_of rs + 4 = size_of (block_data es rs).
Proof.
  unfold block_data. rewrite !size_of_app, <- offset_full.
  assert (E : forall l, size_of (concat (map (fun r => EncodeFixed32 (offset es r)) l)) = 4 * size_of l).
  { induction l as [|r l IH]; [done|]. cbn [map concat].
    rewrite size_of_app, IH, size_of_cons, size_of_EncodeFixed32. lia. }
  rewrite E, size_of_EncodeFixed32. lia.
Qed.

Lemma offset_range k : (k <= (length es))%nat -> 0 <= offset es k < 2 ^ 32.
Proof.
  intros Hk. pose proof (offset_nonneg es k). pose proof data_size.
  pose proof (size_of_nonneg rs). split; [done|].
  destruct (decide (k = (length es))) as [->|]; [lia|]. pose proof (offset_lt es k (length es) ltac:(lia) ltac:(lia)). lia.
Qed.

Lemma drop_concat_fixed {A} (f : A -> Z) (l : list A) j r tail :
  l !! j = Some r -> drop (4 * j) (concat (map (fun x => EncodeFixed32 (f x)) l) ++ tail) =
  EncodeFixed32 (f r) ++ concat (map (fun x => EncodeFixed32 (f x)) (drop (S j) l)) ++ tail.
Proof.
  revert j. induction l as [|x l IH]; intros j E; [done|]. cbn [map concat]. destruct j as [|j].
  - injection E as ->. cbn [drop]. by rewrite drop_0, <- app_assoc.
  - replace (4 * S j)%nat with (4 + 4 * j)%nat by lia. rewrite <- drop_drop, <- app_assoc.
    rewrite (drop_app_exact 4) by (by rewrite length_EncodeFixed32). by apply IH.
Qed.

Lemma GetRestartPoint_at i j r : on_block i -> rs !! j = Some r ->
  GetRestartPoint i (Z.of_nat j) = offset es r.
Proof.
  intros (_ & Hd & Hr & _) Hj. unfold GetRestartPoint. rewrite Hd, Hr. unfold block_data.
  assert (Hrn : (r <= (length es))%nat) by (destruct (rs_below _ _ Hrs _ _ Hj); lia).
  rewrite offset_full.
  replace (Z.to_nat (size_of (encode_entries es) + Z.of_nat j * 4))
    with (length (encode_entries es) + 4 * j)%nat by (unfold size_of; lia).
  rewrite <- drop_drop, drop_app_length, (drop_concat_fixed _ _ _ _ _ Hj).
  apply DecodeFixed32_Encode. by apply offset_range.
Qed.

Lemma region_at i k : on_block i -> (k <= (length es))%nat -> region i (offset es k) = encode_entries (drop k es).
Proof.
  intros (_ & Hd & Hr & _) Hk. unfold region. rewrite Hd, Hr. unfold block_data. rewrite offset_full.
  assert (E : encode_entries es = encode_entries (take k es) ++ encode_entries (drop k es)).
  { by rewrite <- encode_entries_app, take_drop. }
  rewrite E, <- app_assoc. unfold offset. rewrite drop_app_exact by (unfold size_of; lia).
  apply take_app_exact. rewrite size_of_app. unfold size_of. lia.
Qed.

(** The bytes of the entry at [k], where decoding finds them. *)
Lemma DecodeEntry_at i k e : on_block i -> es !! k = Some e ->
  exists q, DecodeEntry (region i (offset es k)) =
    Some (Z.of_nat (e_shared e), size_of (e_key e) - Z.of_nat (e_shared e), size_of (e_value e), q) /\
  drop (Z.to_nat (it_restarts i - size_of q)) (it_data i) =
    drop (e_shared e) (e_key e) ++ e_value e ++ drop (Z.to_nat (offset es (S k))) (it_data i) /\
  it_restarts i - size_of q + (size_of (e_key e) - Z.of_nat (e_shared e)) + size_of (e_value e) =
    offset es (S k).
Proof.
  intros Hb He. pose proof Hb as (_ & Hd & Hr & _).
  assert (Hk : (k < (length es))%nat) by (eapply lookup_lt_Some; exact He).
  destruct (shares_lookup _ _ He) as [Hsh _].
  assert (Hke : size_of (e_key e) < 2 ^ 32) by (rewrite Forall_forall in Hkeys; by eapply Hkeys, list_elem_of_lookup_2).
  rewrite region_at by (done || lia). rewrite (drop_S _ _ _ He).
  unfold encode_entries at 1. cbn [map concat]. fold (encode_entries (drop (S k) es)).
  assert (Hrest : size_of (encode_entries (drop (S k) es)) = offset es (length es) - offset es (S k)).
  { rewrite offset_full. unfold offset. rewrite <- (take_drop (S k) es) at 2.
    rewrite encode_entries_app, size_of_app. lia. }
  pose proof (e_sizes _ _ _ He) as Hes. pose proof (offset_range (length es) ltac:(lia)).
  pose proof (offset_range (S k) ltac:(lia)). pose proof (offset_nonneg es k).
  assert (Hks : size_of (drop (e_shared e) (e_key e)) = size_of (e_key e) - Z.of_nat (e_shared e)).
  { unfold size_of. rewrite length_drop. lia. }
  eexists. split; [apply DecodeEntry_encode; [done..|]|].
  { rewrite !size_of_app, Hrest. lia. }
  rewrite Hr, !size_of_app, Hrest, Hks.
  assert (Eo : offset es (length es) - (size_of (e_key e) - Z.of_nat (e_shared e) + (size_of (e_value e) +
    (offset es (length es) - offset es (S k)))) =
    offset es (S k) - (size_of (e_key e) - Z.of_nat (e_shared e) + size_of (e_value e))) by lia.
  rewrite Eo. split; [|lia].
  rewrite Hd. unfold block_data.
  assert (Ee : encode_entries es = encode_entries (take (S k) es) ++ encode_entries (drop (S k) es))
    by (by rewrite <- encode_entries_app, take_drop).
  assert (E2 : forall t, drop (Z.to_nat (offset es (S k))) (encode_entries (take (S k) es) ++ t) = t).
  { intros t. apply drop_app_exact. unfold offset, size_of. lia. }
  rewrite Ee, <- !app_assoc, E2.
  rewrite (take_S_r _ _ _ He), encode_entries_app. unfold encode_entries at 2. cbn [map concat].
  rewrite app_nil_r. destruct (encode_entry_split e) as [h Hh]. rewrite Hh, <- !app_assoc.
  rewrite app_assoc. apply drop_app_exact.
  rewrite (offset_S _ _ _ He), Hh, !size_of_app, Hks. unfold offset, size_of. rewrite length_app. lia.
Qed.

(** ** Parsing *)

Lemma on_block_set_current p i : on_block i -> on_block (set_current p i).
Proof. done. Qed.

Lemma advance_restart_at i k fuel : forall j r,
  on_block i -> it_current i = offset es k -> (k <= length es)%nat -> rs !! j = Some r -> (r <= k)%nat ->
  exists j' r', advance_restart fuel i (Z.of_nat j) = Z.of_nat j' /\ rs !! j' = Some r' /\ (r' <= k)%nat.
Proof.
  induction fuel as [|fuel IH]; intros j r Hb Hc Hk Hj Hr; [by exists j, r|]. cbn [advance_restart].
  pose proof Hb as (_ & _ & _ & Hn & _). rewrite Hn, Hc.
  destruct (Z.ltb_spec (Z.of_nat j + 1) (size_of rs)) as [Hlt|]; [|by exists j, r].
  replace (Z.of_nat j + 1) with (Z.of_nat (S j)) in * by lia.
  destruct (lookup_lt_is_Some_2 rs (S j)) as [r' Hj']; [unfold size_of in Hlt; lia|].
  rewrite (GetRestartPoint_at _ _ _ Hb Hj'). cbn [andb].
  destruct (Z.ltb_spec (offset es r') (offset es k)) as [Ho|]; [|by exists j, r].
  apply (IH (S j) r'); try done. destruct (rs_below _ _ Hrs _ _ Hj'); [|lia].
  apply offset_ltb in Ho; lia.
Qed.

Lemma ParseNextKey_at i k e : ready i k -> es !! k = Some e -> exists i',
  ParseNextKey i = (true, i') /\ iter_rep i' (Some k).
Proof.
  intros (Hb & Hk & Ho & (j & r & Hj & Hjr & Hrk) & Hsh) He. unfold ParseNextKey. rewrite Ho.
  set (i1 := set_current (offset es k) i). assert (Hb1 : on_block i1) by done.
  pose proof Hb1 as (_ & Hd & Hr & Hn & _).
  assert (Hkn : (k < length es)%nat) by (eapply lookup_lt_Some; exact He).
  destruct (DecodeEntry_at i1 k e Hb1 He) as (q & Eq & Ed & Eo). rewrite Eq.
  replace (offset es k >=? it_restarts i1) with false.
  2:{ rewrite Hr, Z.geb_leb. symmetry. apply Z.leb_gt. pose proof (offset_lt es k (length es)). lia. }
  destruct (Hsh e He) as [Hs1 Hs2]. destruct (shares_lookup _ _ He) as [Hs3 Hs4].
  change (it_key i1) with (it_key i).
  destruct (Z.ltb_spec (size_of (it_key i)) (Z.of_nat (e_shared e))) as [Hlt|_]; [unfold size_of in Hlt; lia|].
  eexists. split; [done|].
  destruct (advance_restart_at i1 k (Z.to_nat (it_num_restarts i1)) j r Hb1 eq_refl Hk Hjr Hrk)
    as (j' & r' & Ej & Hj' & Hr').
  change (it_restart_index i1) with (it_restart_index i). rewrite Hj, Ej.
  assert (Elen : Z.to_nat (size_of (e_key e) - Z.of_nat (e_shared e)) = length (drop (e_shared e) (e_key e))).
  { rewrite length_drop. unfold size_of. lia. }
  rewrite Ed, Elen, take_app_length, Nat2Z.id, Hs2, take_drop.
  pose proof (offset_range (S k) ltac:(lia)) as Hrange.
  pose proof (offset_nonneg es k) as Hk0. pose proof (e_sizes _ _ _ He) as Hes.
  set (p := it_restarts i1 - size_of q) in *.
  assert (Hp : 0 <= p).
  { assert (size_of (drop (e_shared e) (e_key e)) = size_of (e_key e) - Z.of_nat (e_shared e))
      by (unfold size_of; rewrite length_drop; lia). lia. }
  split; [exact Hb|]. exists e. split; [done|]. split; [done|]. split; [done|].
  assert (Hval : take (Z.to_nat (size_of (e_value e)))
     (drop (Z.to_nat (p + (size_of (e_key e) - Z.of_nat (e_shared e)))) (it_data i1)) = e_value e).
  { rewrite Z2Nat.inj_add by (unfold size_of; lia). rewrite <- drop_drop, Ed, Elen, drop_app_length.
    apply take_app_exact. unfold size_of. lia. }
  split; [exact Hval|]. split.
  - split; [exact Hb|]. split; [lia|]. split.
    { unfold NextEntryOffset. cbn [it_value_offset it_value_size]. rewrite u32_small; lia. }
    split; [by exists j', r'; split; [done|split; [done|lia]]|].
    intros e' He'. cbn [it_key]. destruct (shares_lookup _ _ He') as [_ H]. by apply (H k).
  - by exists j', r'.
Qed.

Lemma ParseNextKey_end i : ready i (length es) -> exists i',
  ParseNextKey i = (false, i') /\ iter_rep i' None.
Proof.
  intros (Hb & _ & Ho & _). unfold ParseNextKey. rewrite Ho.
  pose proof Hb as (_ & _ & Hr & _).
  replace (it_restarts (set_current (offset es (length es)) i)) with (offset es (length es)) by done.
  rewrite Z.geb_leb, Z.leb_refl. eexists. split; [done|]. split; [exact Hb|]. exact Hr.
Qed.

Lemma ready_restart i j r : on_block i -> rs !! j = Some r -> ready (SeekToRestartPoint (Z.of_nat j) i) r.
Proof.
  intros Hb Hj. assert (Hr : (r <= length es)%nat) by (destruct (rs_below _ _ Hrs _ _ Hj); lia).
  split; [exact Hb|]. split; [done|]. split.
  { unfold NextEntryOffset. cbn [it_value_offset it_value_size SeekToRestartPoint].
    rewrite (GetRestartPoint_at _ _ _ Hb Hj), Z.add_0_r. apply u32_small. by apply offset_range. }
  split; [by exists j, r|]. intros e He. cbn [it_key SeekToRestartPoint].
  by rewrite (rs_unshared _ _ Hrs _ _ _ Hj He).
Qed.

(** Parsing entries up to [m], the last one before [bound]. *)
Lemma ParseUntil_at m fuel : forall i k, ready i k -> (k <= m < length es)%nat -> (m - k < fuel)%nat ->
  iter_rep (ParseUntil fuel (offset es (S m)) i) (Some m).
Proof.
  induction fuel as [|fuel IH]; intros i k Hready Hkm Hf; [lia|]. cbn [ParseUntil].
  destruct (lookup_lt_is_Some_2 es k) as [e He]; [lia|].
  destruct (ParseNextKey_at _ _ _ Hready He) as (i' & -> & Hrep). cbn [andb].
  pose proof Hrep as (_ & e' & He' & _ & _ & _ & Hready' & _).
  pose proof Hready' as (_ & _ & Ho & _). rewrite Ho.
  destruct (Z.ltb_spec (offset es (S k)) (offset es (S m))) as [Hlt|Hge].
  - apply offset_ltb in Hlt; [|lia..]. apply (IH _ (S k)); [done|lia..].
  - assert (k = m) as ->; [|done]. destruct (decide (k = m)); [done|].
    pose proof (offset_lt es (S k) (S m)). lia.
Qed.

Lemma data_fuel : (length es < S (length (block_data es rs)))%nat.
Proof.
  unfold block_data. rewrite length_app. cut (length es <= length (encode_entries es))%nat; [lia|].
  generalize es. clear. intros es. induction es as [|e es IH]; [done|].
  unfold encode_entries. cbn [map concat length]. rewrite length_app. fold (encode_entries es).
  pose proof (length_encode_entry e). lia.
Qed.

Lemma num_restarts_pos : (0 < length rs)%nat.
Proof. eapply lookup_lt_Some, rs_first, Hrs. Qed.

Lemma rs_lt i j r r' : rs !! i = Some r -> rs !! j = Some r' -> (i < j)%nat -> (r < r')%nat.
Proof.
  apply StronglySorted_lookup. by apply rs_sorted with (es := es).
Qed.

(** ** The operations *)

Lemma on_block_of i p : iter_rep i p -> on_block i.
Proof. by intros [H _]. Qed.

Lemma Iter_make_rep : iter_rep (Iter_make c (block_data es rs) (offset es (length es)) (size_of rs)) None.
Proof. done. Qed.

Lemma SeekToFirst_rep i : on_block i -> iter_rep (Iter_SeekToFirst i) (first_position es).
Proof.
  intros Hb. unfold Iter_SeekToFirst. pose proof (ready_restart i 0 0 Hb (rs_first _ _ Hrs)) as Hready.
  change (Z.of_nat 0) with 0 in Hready.
  destruct (decide (length es = 0%nat)) as [El|El].
  - rewrite first_position_nil by done. rewrite <- El in Hready.
    by destruct (ParseNextKey_end _ Hready) as (i' & -> & H).
  - rewrite first_position_cons by done. destruct (lookup_lt_is_Some_2 es 0) as [e He]; [lia|].
    by destruct (ParseNextKey_at _ _ _ Hready He) as (i' & -> & H).
Qed.

Lemma SeekToLast_rep i : on_block i -> iter_rep (Iter_SeekToLast i) (last_position es).
Proof.
  intros Hb. pose proof Hb as (_ & Hd & Hr & Hn & _). unfold Iter_SeekToLast. rewrite Hr, Hn, Hd.
  pose proof num_restarts_pos. destruct (lookup_lt_is_Some_2 rs (length rs - 1)) as [r Hlast]; [lia|].
  replace (size_of rs - 1) with (Z.of_nat (length rs - 1)) by (unfold size_of; lia).
  pose proof (ready_restart i _ _ Hb Hlast) as Hready.
  destruct (decide (length es = 0%nat)) as [El|El].
  - unfold last_position. rewrite El. destruct (rs_below _ _ Hrs _ _ Hlast) as [|Er]; [lia|].
    replace r with (length es) in Hready by lia. cbn [ParseUntil].
    by destruct (ParseNextKey_end _ Hready) as (i' & -> & H').
  - unfold last_position. destruct (length es) as [|m] eqn:Em; [done|].
    apply (ParseUntil_at m _ _ r Hready).
    + destruct (rs_below _ _ Hrs _ _ Hlast); lia.
    + pose proof data_fuel. lia.
Qed.

Lemma Next_rep i k : iter_rep i (Some k) -> iter_rep (Iter_Next i) (next_position es k).
Proof.
  intros (Hb & e & He & _ & _ & _ & Hready & _). unfold Iter_Next.
  assert (Hk : (k < length es)%nat) by (by eapply lookup_lt_Some).
  destruct (decide (S k = length es)) as [E|].
  - rewrite next_position_None by lia. rewrite E in Hready.
    by destruct (ParseNextKey_end _ Hready) as (i' & -> & H).
  - rewrite next_position_Some by lia. destruct (lookup_lt_is_Some_2 es (S k)) as [e' He']; [lia|].
    by destruct (ParseNextKey_at _ _ _ Hready He') as (i' & -> & H).
Qed.

Lemma Prev_restart_at i k fuel : forall j r,
  on_block i -> (k < length es)%nat -> rs !! j = Some r -> (j < fuel)%nat ->
  match Prev_restart fuel i (offset es k) (Z.of_nat j) with
  | None => k = O
  | Some index => exists j' r', index = Z.of_nat j' /\ rs !! j' = Some r' /\ (r' < k)%nat
  end.
Proof.
  induction fuel as [|fuel IH]; intros j r Hb Hk Hj Hf; [lia|]. cbn [Prev_restart].
  rewrite (GetRestartPoint_at _ _ _ Hb Hj), Z.geb_leb.
  assert (Hr : (r < length es)%nat) by (destruct (rs_below _ _ Hrs _ _ Hj); lia).
  destruct (Z.leb_spec (offset es k) (offset es r)) as [Hle|Hlt].
  - destruct (Z.eqb_spec (Z.of_nat j) 0) as [Hj0|].
    + assert (j = O) as -> by lia. rewrite (rs_first _ _ Hrs) in Hj. injection Hj as <-.
      destruct (decide (k = O)); [done|]. pose proof (offset_lt es 0 k). lia.
    + replace (Z.of_nat j - 1) with (Z.of_nat (j - 1)) by lia.
      destruct (lookup_lt_is_Some_2 rs (j - 1)) as [r' Hj']; [apply lookup_lt_Some in Hj; lia|].
      apply (IH (j - 1)%nat r'); try done. lia.
  - exists j, r. split; [done|]. split; [done|]. apply offset_ltb in Hlt; lia.
Qed.

Lemma Prev_rep i k : iter_rep i (Some k) -> iter_rep (Iter_Prev i) (prev_position k).
Proof.
  intros (Hb & e & He & Hc & _ & _ & _ & (j & r & Ej & Hj & Hrk)). unfold Iter_Prev. rewrite Hc, Ej.
  assert (Hk : (k < length es)%nat) by (by eapply lookup_lt_Some).
  pose proof (Prev_restart_at i k (S (Z.to_nat (Z.of_nat j))) j r Hb Hk Hj ltac:(lia)) as Hp.
  destruct (Prev_restart _ _ _ _) as [index|].
  - destruct Hp as (j' & r' & -> & Hj' & Hr'). unfold prev_position.
    destruct (Nat.eqb_spec k 0); [lia|]. cbn [fmap option_fmap option_map].
    destruct k as [|m]; [lia|]. cbn [pred]. pose proof Hb as (_ & Hd & _). rewrite Hd.
    apply (ParseUntil_at m _ _ r'); [by apply ready_restart|lia|pose proof data_fuel; lia].
  - subst k. pose proof Hb as (_ & _ & Hr & _). split; [exact Hb|exact Hr].
Qed.

(** ** Searching *)

Context `{!ComparatorLaws c} (Hsorted : sorted_entries c (map e_pair es)).

Lemma sorted_keys i j a b : es !! i = Some a -> es !! j = Some b -> (i < j)%nat ->
  Compare c (e_key a) (e_key b) = Lt.
Proof.
  intros Ha Hb. apply (sorted_entries_lookup c (map e_pair es) i j (e_pair a) (e_pair b) Hsorted);
    rewrite list_lookup_fmap; [by rewrite Ha|by rewrite Hb].
Qed.

(** All entries before [k] are below the target. *)
Definition below (target : bytes) (k : nat) : Prop :=
  forall j e, es !! j = Some e -> (j < k)%nat -> Compare c (e_key e) target = Lt.

Lemma Seek_linear_at target fuel : forall i k,
  ready i k -> below target k -> (length es - k < fuel)%nat ->
  iter_rep (Seek_linear fuel target i) (seek_position c (map e_pair es) target).
Proof.
  induction fuel as [|fuel IH]; intros i k Hready Hbelow Hf; [lia|]. cbn [Seek_linear].
  destruct (decide (k = length es)) as [->|Hk].
  - destruct (ParseNextKey_end _ Hready) as (i' & -> & H). cbn [negb].
    replace (seek_position _ _ _) with (@None nat); [done|]. symmetry. apply seek_position_None.
    intros j e Hj. rewrite list_lookup_fmap in Hj. destruct (es !! j) as [e'|] eqn:E; [|done].
    injection Hj as <-. apply (Hbelow j e' E). by eapply lookup_lt_Some.
  - pose proof Hready as (_ & Hk' & _). destruct (lookup_lt_is_Some_2 es k) as [e He]; [lia|].
    destruct (ParseNextKey_at _ _ _ Hready He) as (i' & -> & Hrep). cbn [negb].
    pose proof Hrep as ((Ec & _) & e' & He' & _ & Ek & _ & Hready' & _).
    rewrite He in He'. injection He' as <-. rewrite Ec, Ek.
    assert (Hfound : Compare c (e_key e) target <> Lt -> seek_position c (map e_pair es) target = Some k).
    { intros Hge. apply seek_position_Some. exists (e_pair e). rewrite list_lookup_fmap, He.
      split; [done|]. split; [done|]. intros j e' Hj Hjk. rewrite list_lookup_fmap in Hj.
      destruct (es !! j) as [e''|] eqn:E; [|done]. injection Hj as <-. by apply (Hbelow j). }
    destruct (Compare c (e_key e) target) eqn:Ecmp; [by rewrite Hfound| |by rewrite Hfound].
    apply (IH _ (S k)); [done| |lia]. intros j e' Hj Hjk.
    destruct (decide (j = k)) as [->|]; [congruence|]. apply (Hbelow j e' Hj). lia.
Qed.

Lemma Seek_restart_at i target fuel : forall (lo hi : nat) r,
  on_block i -> rs !! lo = Some r -> below target r -> (lo <= hi < length rs)%nat -> (hi - lo < fuel)%nat ->
  exists j' r', Seek_restart fuel i target (Z.of_nat lo) (Z.of_nat hi) = Some (Z.of_nat j') /\
    rs !! j' = Some r' /\ below target r'.
Proof.
  induction fuel as [|fuel IH]; intros lo hi r Hb Hlo Hbelow Hlh Hf; [lia|]. cbn [Seek_restart].
  destruct (Z.ltb_spec (Z.of_nat lo) (Z.of_nat hi)) as [Hlt|]; [|by exists lo, r].
  pose proof data_size as Hds. pose proof (offset_nonneg es (length es)).
  set (mid := ((lo + hi + 1) / 2)%nat).
  assert (Emid : u32 (Z.of_nat lo + Z.of_nat hi + 1) / 2 = Z.of_nat mid).
  { rewrite u32_small by (unfold size_of in *; lia). subst mid. rewrite Nat2Z.inj_div. f_equal. lia. }
  assert (Hmid : (lo < mid <= hi)%nat) by (subst mid; split; [apply Nat.div_le_lower_bound|apply Nat.Div0.div_le_upper_bound]; lia).
  rewrite Emid. clearbody mid.
  destruct (lookup_lt_is_Some_2 rs mid) as [rm Hrm]; [lia|].
  rewrite (GetRestartPoint_at _ _ _ Hb Hrm).
  assert (Hrm' : (rm < length es)%nat).
  { destruct (rs_below _ _ Hrs _ _ Hrm) as [|Hz]; [done|].
    assert (r < rm)%nat; [|lia]. apply (rs_lt lo mid); [done..|lia]. }
  destruct (lookup_lt_is_Some_2 es rm) as [e He]; [lia|].
  destruct (DecodeEntry_at i rm e Hb He) as (q & -> & Eq & _).
  rewrite (rs_unshared _ _ Hrs _ _ _ Hrm He) in *. cbn [Z.of_nat Z.eqb negb].
  rewrite Eq, drop_0, Z.sub_0_r. unfold size_of. rewrite Nat2Z.id, take_app_length.
  pose proof Hb as (-> & _).
  destruct (Compare c (e_key e) target) eqn:Ecmp.
  1, 3: replace (Z.of_nat mid - 1) with (Z.of_nat (mid - 1)) by lia; apply (IH lo (mid - 1)%nat r); try done; lia.
  apply (IH mid hi rm); try done; [|lia|lia].
  intros j e' Hj Hjr. apply (compare_lt_trans _ (e_key e)); [|done]. by apply (sorted_keys j rm e' e).
Qed.

Lemma Iter_Seek_rep i target : on_block i ->
  iter_rep (Iter_Seek target i) (seek_position c (map e_pair es) target).
Proof.
  intros Hb. pose proof Hb as (_ & Hd & _ & Hn & _). unfold Iter_Seek. rewrite Hd, Hn.
  pose proof num_restarts_pos.
  replace (size_of rs - 1) with (Z.of_nat (length rs - 1)) by (unfold size_of; lia).
  destruct (Seek_restart_at i target (Z.to_nat (size_of rs)) 0 (length rs - 1) 0 Hb (rs_first _ _ Hrs))
    as (j & r & Ej & Hj & Hbelow); [intros ? ? ? ?; lia|lia|unfold size_of; lia|].
  change (Z.of_nat 0) with 0 in Ej. rewrite Ej.
  apply (Seek_linear_at _ _ _ r); [by apply ready_restart|done|pose proof data_fuel; lia].
Qed.

(** The iterator of a block is a cursor on its entries. *)
#[export] Instance Iter_laws : IteratorLaws c (map e_pair es) iter_rep.
Proof.
  assert (Hlen : forall k, next_position es k = next_position (map e_pair es) k).
  { intros k. unfold next_position. by rewrite length_map. }
  split.
  - intros i [k|] (Hb & Hp); pose proof Hb as (_ & _ & Hr & _); unfold Valid, Iter_Iterator, Iter_Valid; rewrite Hr.
    + destruct Hp as (e & He & -> & _). rewrite bool_decide_eq_true_2 by eauto. apply Z.ltb_lt.
      apply lookup_lt_Some in He. pose proof (offset_lt es k (length es)). lia.
    + rewrite Hp, Z.ltb_irrefl. symmetry. apply bool_decide_eq_false_2. by intros [? ?].
  - intros i k (_ & e & He & _ & Ek & Ev & _). rewrite list_lookup_fmap, He.
    unfold key, value, Iter_Iterator. by rewrite Ek, Ev.
  - intros i p ((_ & _ & _ & _ & Hs) & _). unfold status, Iter_Iterator. by rewrite Hs.
  - intros i p H%on_block_of. unfold first_position. pose proof (SeekToFirst_rep i H) as HH.
    unfold first_position in HH. by destruct es.
  - intros i p H%on_block_of. unfold last_position. rewrite length_map. by apply SeekToLast_rep.
  - intros i p target _ H%on_block_of. by apply Iter_Seek_rep.
  - intros i k H. rewrite <- Hlen. by apply Next_rep.
  - intros i k H. by apply Prev_rep.
Qed.
End BlockIter.

(** ** Building a block *)

Section Build.
Context (interval : Z) (Hinterval : 1 <= interval).

Record builder_rep (es : list entry) (rs : list nat) (b : BlockBuilder) : Prop := {
  br_buffer : bb_buffer b = encode_entries es;
  br_restarts : bb_restarts b = map (fun r => u32 (offset es r)) rs;
  br_last_key : bb_last_key b = match last es with Some e => e_key e | None => [] end;
  br_counter : 0 <= bb_counter b /\ (es = [] -> bb_counter b = 0);
  br_shares : shares [] es;
  br_rs : restarts_ok es rs
}.

Lemma builder_make_rep : builder_rep [] [O] BlockBuilder_make.
Proof.
  split; try done. split; try done; [by repeat constructor|]. intros [|k] r; [|done]. intros [= <-]. by right.
Qed.

Lemma shares_snoc prev es e :
  shares prev es -> (e_shared e <= length (match last es with Some e => e_key e | None => prev end))%nat ->
  (e_shared e <= length (e_key e))%nat ->
  take (e_shared e) (match last es with Some e => e_key e | None => prev end) = take (e_shared e) (e_key e) ->
  shares prev (es ++ [e]).
Proof.
  revert prev. induction es as [|x es IH]; intros prev; [by simpl|].
  intros (H1 & H2 & H3 & H4) Ha Hb Hc. cbn [app shares]. repeat split; try done.
  destruct es as [|y es]; [by simpl in *|]. rewrite last_cons_cons in *.
  specialize (IH (e_key x)). destruct (last (y :: es)) eqn:E; [by apply IH|].
  by apply last_None in E.
Qed.

Lemma offset_snoc es e r : (r <= length es)%nat -> offset (es ++ [e]) r = offset es r.
Proof. intros. unfold offset. by rewrite take_app_le. Qed.

Lemma map_offset_snoc es e rs :
  restarts_ok es rs -> map (fun r => u32 (offset (es ++ [e]) r)) rs = map (fun r => u32 (offset es r)) rs.
Proof.
  intros Hrs. apply list_fmap_ext. intros k r Hk. rewrite offset_snoc; [done|].
  destruct (rs_below _ _ Hrs _ _ Hk); lia.
Qed.

Lemma restarts_ok_snoc es rs e : restarts_ok es rs -> (es = [] -> e_shared e = O) -> restarts_ok (es ++ [e]) rs.
Proof.
  intros [H1 H2 H3 H4] He. split; [done|done| |].
  - intros k r Hk. rewrite length_app. destruct (H3 k r Hk); [left; simpl; lia|by right].
  - intros k r e' Hk He'. destruct (H3 k r Hk) as [Hr| ->].
    + rewrite lookup_app_l in He' by done. by eapply H4.
    + destruct es as [|x es]; [by injection He' as <-; apply He|]. by eapply (H4 k O).
Qed.

Lemma restarts_ok_restart es rs e : restarts_ok es rs -> es <> [] -> e_shared e = O ->
  restarts_ok (es ++ [e]) (rs ++ [length es]).
Proof.
  intros [H1 H2 H3 H4] Hne He.
  assert (H0 : (0 < length es)%nat) by (destruct es; [done|simpl; lia]). split.
  - rewrite lookup_app_l; [done|by eapply lookup_lt_Some].
  - clear H1 H4. induction H2 as [|x l Hl IH Hx]; simpl; [by repeat constructor|]. constructor.
    + apply IH. intros k r Hk. by apply (H3 (S k)).
    + rewrite Forall_app. split; [done|]. constructor; [|done]. destruct (H3 O x eq_refl); lia.
  - intros k r Hk. rewrite length_app. simpl. left. apply lookup_app_Some in Hk as [Hk|[_ Hk]].
    + destruct (H3 k r Hk); lia.
    + apply list_elem_of_lookup_2, list_elem_of_singleton in Hk. lia.
  - intros k r e' Hk He'. apply lookup_app_Some in Hk as [Hk|[_ Hk]].
    + destruct (H3 k r Hk) as [Hr| ->]; rewrite lookup_app_l in He' by lia; by eapply H4.
    + apply list_elem_of_lookup_2, list_elem_of_singleton in Hk. subst r.
      rewrite lookup_app_r, Nat.sub_diag in He' by lia. by injection He' as <-.
Qed.

Lemma last_key_empty es : es = [] -> match last es with Some e => e_key e | None => [] end = [].
Proof. by intros ->. Qed.

(** Adding an entry. *)
Lemma builder_Add_rep es rs b key value : builder_rep es rs b ->
  exists s rs', builder_rep (es ++ [(s, key, value)]) rs' (BlockBuilder_Add interval key value b).
Proof.
  intros [Hb Hr Hl [Hc1 Hc2] Hs Hrs]. unfold BlockBuilder_Add.
  destruct (Z.ltb_spec (bb_counter b) interval) as [Hlt|Hge].
  - set (s := common_prefix (bb_last_key b) key). exists s, rs.
    destruct (common_prefix_le (bb_last_key b) key) as [Hle1 Hle2]. fold s in Hle1, Hle2.
    pose proof (common_prefix_take (bb_last_key b) key) as Htake. fold s in Htake. rewrite Nat2Z.id. split; cbn -[u32].
    + rewrite put_entry_app, Hb, encode_entries_app. unfold encode_entries at 3. cbn [map concat].
      by rewrite app_nil_r.
    + by rewrite Hr, map_offset_snoc.
    + rewrite last_snoc. cbn. by rewrite Htake, take_drop.
    + split; [lia|]. by destruct es.
    + apply shares_snoc; [done|rewrite <- ?Hl; done..].
    + apply restarts_ok_snoc; [done|]. intros He. cbn. subst s. by rewrite Hl, last_key_empty.
  - assert (Hne : es <> []) by (intros He; specialize (Hc2 He); lia).
    exists O, (rs ++ [length es]). split; cbn -[u32].
    + rewrite put_entry_app, Hb, encode_entries_app. unfold encode_entries at 3. cbn [map concat].
      by rewrite app_nil_r.
    + rewrite map_app, map_offset_snoc, Hr, Hb by done. cbn [map]. rewrite offset_snoc by done.
      by rewrite offset_full.
    + rewrite last_snoc. cbn. by rewrite drop_0.
    + split; [lia|]. by destruct es.
    + apply shares_snoc; [done|cbn; lia..|done].
    + by apply restarts_ok_restart.
Qed.

Definition build_block (entries : list (bytes * bytes)) : bytes :=
  fst (BlockBuilder_Finish (fold_left (fun b e => BlockBuilder_Add interval (fst e) (snd e) b) entries
    BlockBuilder_make)).

Lemma Adds_rep entries : forall es rs b, builder_rep es rs b -> exists es' rs',
  builder_rep (es ++ es') rs' (fold_left (fun b e => BlockBuilder_Add interval (fst e) (snd e) b) entries b) /\
  map e_pair es' = entries.
Proof.
  induction entries as [|[k v] entries IH]; intros es rs b Hb; simpl.
  - exists [], rs. by rewrite app_nil_r.
  - destruct (builder_Add_rep es rs b k v Hb) as (s & rs' & Hb'). destruct (IH _ _ _ Hb') as (es' & rs2 & H & <-).
    exists ((s, k, v) :: es'), rs2. by rewrite <- app_assoc in H.
Qed.

Lemma build_block_rep entries :
  size_of (build_block entries) < 2 ^ 32 -> exists es rs,
  map e_pair es = entries /\ shares [] es /\ restarts_ok es rs /\ build_block entries = block_data es rs.
Proof.
  destruct (Adds_rep entries [] [O] BlockBuilder_make builder_make_rep) as (es & rs & [Hb Hr _ _ Hs Hrs] & He).
  cbn [app] in *. unfold build_block, BlockBuilder_Finish. cbn [fst].
  rewrite fold_PutFixed32, Hr, Hb, map_map. unfold PutFixed32. rewrite <- app_assoc.
  assert (Hlen : forall f : nat -> Z, size_of (concat (map (fun r => EncodeFixed32 (f r)) rs)) = 4 * size_of rs).
  { intros f. clear. induction rs as [|r rs IH]; [done|]. cbn [map concat].
    rewrite size_of_app, IH, size_of_cons, size_of_EncodeFixed32. lia. }
  assert (Hlm : size_of (map (fun r => u32 (offset es r)) rs) = size_of rs) by (unfold size_of; by rewrite length_map).
  rewrite Hlm. intros Hsz.
  rewrite !size_of_app, Hlen, size_of_EncodeFixed32 in Hsz.
  pose proof (size_of_nonneg (encode_entries es)). pose proof (size_of_nonneg rs).
  exists es, rs. split; [done|]. split; [done|]. split; [done|].
  unfold block_data. rewrite (u32_small (size_of rs)) by lia. f_equal. f_equal.
  f_equal. apply list_fmap_ext. intros k r Hk. rewrite u32_small; [done|].
  pose proof (offset_nonneg es r).
  assert (offset es r <= size_of (encode_entries es)); [|lia]. rewrite <- offset_full.
  destruct (rs_below _ _ Hrs _ _ Hk) as [Hlt| ->]; [pose proof (offset_lt es r (length es)); lia|].
  rewrite offset_0. apply offset_nonneg.
Qed.

(** Opening a block that was built. *)
Lemma Block_make_data es rs cmp :
  restarts_ok es rs -> size_of (block_data es rs) < 2 ^ 32 ->
  NewIterator cmp (Block_make (block_data es rs)) =
  inr (Iter_make cmp (block_data es rs) (offset es (length es)) (size_of rs)).
Proof.
  intros Hrs Hsz. pose proof (data_size es rs) as Hd. pose proof (offset_nonneg es (length es)).
  assert (Hpos : 0 < size_of rs). { pose proof (lookup_lt_Some _ _ _ (rs_first _ _ Hrs)). unfold size_of. lia. }
  assert (Hn : NumRestarts (block_data es rs) (size_of (block_data es rs)) = size_of rs).
  { unfold NumRestarts. unfold block_data at 2. rewrite app_assoc, drop_app_exact.
    - rewrite <- (app_nil_r (EncodeFixed32 _)). apply DecodeFixed32_Encode. lia.
    - unfold block_data. rewrite app_assoc, size_of_app, size_of_EncodeFixed32. unfold size_of. lia. }
  unfold Block_make. rewrite Hn. destruct (Z.ltb_spec (size_of (block_data es rs)) 4); [lia|].
  rewrite Z.gtb_ltb. destruct (Z.ltb_spec ((size_of (block_data es rs) - 4) / 4) (size_of rs)) as [Hlt|_]; [dlia|].
  unfold NewIterator. cbn [blk_size blk_data blk_restart_offset]. rewrite Hn.
  destruct (Z.ltb_spec (size_of (block_data es rs)) 4); [lia|].
  destruct (Z.eqb_spec (size_of rs) 0); [lia|]. do 2 f_equal. rewrite u32_small; lia.
Qed.
End Build.

(** The bytes that an entry can take, with a restart point. *)
Definition entry_cost (e : bytes * bytes) : Z := 19 + size_of (fst e) + size_of (snd e).
Fixpoint entries_cost (es : list (bytes * bytes)) : Z :=
  match es with [] => 0 | e :: es => entry_cost e + entries_cost es end.

Lemma entries_cost_app es es' : entries_cost (es ++ es') = entries_cost es + entries_cost es'.
Proof. induction es as [|e es IH]; [done|]. cbn [app entries_cost]. lia. Qed.

Lemma entries_cost_nonneg es : 0 <= entries_cost es.
Proof.
  induction es as [|e es IH]; [done|]. cbn [entries_cost]. unfold entry_cost.
  pose proof (size_of_nonneg (fst e)). pose proof (size_of_nonneg (snd e)). lia.
Qed.

Lemma entry_cost_le e es : e ∈ es -> entry_cost e <= entries_cost es.
Proof.
  intros He. induction He as [e es|e e' es He IH]; cbn [entries_cost]; [pose proof (entries_cost_nonneg es); lia|].
  unfold entry_cost at 2. pose proof (size_of_nonneg (fst e')). pose proof (size_of_nonneg (snd e')). lia.
Qed.

Lemma BlockBuilder_Add_cost interval k v b :
  size_of (bb_buffer (BlockBuilder_Add interval k v b)) + 4 * size_of (bb_restarts (BlockBuilder_Add interval k v b)) <=
  size_of (bb_buffer b) + 4 * size_of (bb_restarts b) + entry_cost (k, v).
Proof.
  assert (Hput : forall s, size_of (put_entry (bb_buffer b) s k v) <= size_of (bb_buffer b) + 15 + size_of k + size_of v).
  { intros s. rewrite put_entry_app. unfold put_entry, PutVarint32. rewrite !size_of_app.
    pose proof (length_EncodeVarint32 (u32 s)). pose proof (length_EncodeVarint32 (u32 (size_of k - s))).
    pose proof (length_EncodeVarint32 (u32 (size_of v))).
    unfold size_of in *. rewrite length_drop. cbn [length]. lia. }
  unfold BlockBuilder_Add, entry_cost. cbn [fst snd]. destruct (_ <? _); cbn [bb_buffer bb_restarts].
  - pose proof (Hput (Z.of_nat (common_prefix (bb_last_key b) k))). lia.
  - pose proof (Hput 0). rewrite size_of_app. change (size_of [u32 (size_of (bb_buffer b))]) with 1. lia.
Qed.

Lemma build_block_cost interval es : size_of (build_block interval es) <= entries_cost es + 8.
Proof.
  unfold build_block, BlockBuilder_Finish. cbn [fst]. rewrite fold_PutFixed32. unfold PutFixed32.
  rewrite !size_of_app, size_of_EncodeFixed32.
  assert (H4 : forall l, size_of (concat (map EncodeFixed32 l)) = 4 * size_of l).
  { induction l as [|r l IH]; [done|]. cbn [map concat]. rewrite size_of_app, IH, size_of_cons, size_of_EncodeFixed32. lia. }
  rewrite H4.
  assert (H : forall b, let b' := fold_left (fun b e => BlockBuilder_Add interval (fst e) (snd e) b) es b in
    size_of (bb_buffer b') + 4 * size_of (bb_restarts b') <= size_of (bb_buffer b) + 4 * size_of (bb_restarts b) + entries_cost es).
  { induction es as [|[k v] es IH]; intros b; cbn [fold_left entries_cost]; [lia|].
    pose proof (BlockBuilder_Add_cost interval k v b). specialize (IH (BlockBuilder_Add interval k v b)). cbn in *. lia. }
  specialize (H BlockBuilder_make). cbn in H. unfold size_of in H at 3 4. cbn in H. lia.
Qed.

Lemma length_build_block interval entries : 1 <= interval -> size_of (build_block interval entries) < 2 ^ 32 ->
  (length entries <= length (build_block interval entries))%nat.
Proof.
  intros Hi Hsz. destruct (build_block_rep interval Hi entries Hsz) as (es & rs & <- & _ & _ & ->).
  rewrite length_map. pose proof (data_fuel es rs). lia.
Qed.

(** A block that was built opens on a cursor on its entries. *)
Lemma built_block_opens (c : Comparator) `{!ComparatorLaws c} (interval : Z) (entries : list (bytes * bytes)) :
  1 <= interval -> sorted_entries c entries ->
  Forall (fun e => size_of (fst e) < 2 ^ 32) entries -> size_of (build_block interval entries) < 2 ^ 32 ->
  exists it rep, NewIterator c (Block_make (build_block interval entries)) = inr it /\
    IteratorLaws c entries rep /\ rep it None.
Proof.
  intros Hi Hs Hk Hsz. destruct (build_block_rep interval Hi entries Hsz) as (es & rs & He & Hsh & Hrs & Hb).
  rewrite Hb in *. exists (Iter_make c (block_data es rs) (offset es (length es)) (size_of rs)), (iter_rep c es rs).
  split; [by apply Block_make_data|]. rewrite <- He in *. split; [|apply Iter_make_rep].
  apply Iter_laws; try done. rewrite Forall_map in Hk. exact Hk.
Qed.

(** C26: a block built from entries in increasing order of their keys, with any
    restart interval, opens, and its iterator is a cursor on exactly these
    entries: moving either way, and seeking, it is where a cursor on the list
    would be. *)
Theorem block_roundtrip (c : Comparator) `{!ComparatorLaws c} (interval : Z) (entries : list (bytes * bytes)) :
  1 <= interval -> sorted_entries c entries ->
  Forall (fun e => size_of (fst e) < 2 ^ 32) entries -> size_of (build_block interval entries) < 2 ^ 32 ->
  exists it rep, NewIterator c (Block_make (build_block interval entries)) = inr it /\
    IteratorLaws c entries rep /\ rep it None.
Proof. apply built_block_opens. exact _. Qed.

Definition sample_entries : list (bytes * bytes) :=
  [(str "apple", str "1"); (str "apply", str "22"); (str "banana", str ""); (str "band", str "4"); (str "c", str "55")].

Lemma block_roundtrip_witness :
  exists it rep, NewIterator BytewiseComparator (Block_make (build_block 2 sample_entries)) = inr it /\
    IteratorLaws BytewiseComparator sample_entries rep /\ rep it None.
Proof.
  apply (block_roundtrip BytewiseComparator 2 sample_entries).
  - lia.
  - repeat constructor.
  - repeat constructor.
  - vm_compute. reflexivity.
Defined.

(** C39: what [DecodeEntry] accepts is followed by the bytes of the key and the
    value it announces, unless the sum of these two lengths does not fit in 32
    bits: the sum that the check computes wraps around then, as in the witness,
    an entry with [2^32] bytes of contents announced and none there. *)
Theorem DecodeEntry_bounds p shared non_shared value_length q :
  size_of p < 2 ^ 32 -> DecodeEntry p = Some (shared, non_shared, value_length, q) ->
  (exists pre, p = pre ++ q) /\ 0 <= shared < 2 ^ 32 /\ 0 <= non_shared < 2 ^ 32 /\ 0 <= value_length < 2 ^ 32 /\
  (non_shared + value_length <= size_of q \/ 2 ^ 32 <= non_shared + value_length).
Proof.
  intros Hp E. destruct (decide (3 <= size_of p)) as [H3|H3].
  2:{ unfold DecodeEntry in E. destruct (Z.ltb_spec (size_of p) 3); [done|lia]. }
  rewrite DecodeEntry_slow, <- !GetVarint32_Ptr in E by done.
  destruct (GetVarint32 p) as [[x p1]|] eqn:E1; [|done]. rewrite <- !GetVarint32_Ptr in E.
  destruct (GetVarint32 p1) as [[y p2]|] eqn:E2; [|done]. rewrite <- !GetVarint32_Ptr in E.
  destruct (GetVarint32 p2) as [[z p3]|] eqn:E3; [|done].
  apply GetVarint32_result in E1 as (Hx & pre1 & -> & _), E2 as (Hy & pre2 & -> & _), E3 as (Hz & pre3 & -> & _).
  rewrite !size_of_app in Hp. pose proof (size_of_nonneg pre1). pose proof (size_of_nonneg pre2).
  pose proof (size_of_nonneg pre3). pose proof (size_of_nonneg p3).
  rewrite (u32_small (size_of p3)) in E by lia.
  destruct (Z.ltb_spec (size_of p3) (u32 (y + z))) as [|Hle]; [done|]. injection E as <- <- <- <-.
  split; [exists (pre1 ++ pre2 ++ pre3); by rewrite <- !app_assoc|]. repeat split; try lia.
  destruct (decide (2 ^ 32 <= y + z)); [by right|left]. rewrite u32_small in Hle by lia. lia.
Qed.

Lemma DecodeEntry_bounds_witness :
  let p := [Byte.x00; Byte.xff; Byte.xff; Byte.xff; Byte.xff; Byte.x0f; Byte.x01] in
  ((exists pre, p = pre ++ []) /\ 0 <= 0 < 2 ^ 32 /\ 0 <= 2 ^ 32 - 1 < 2 ^ 32 /\ 0 <= 1 < 2 ^ 32 /\
   (2 ^ 32 - 1 + 1 <= size_of (@nil byte) \/ 2 ^ 32 <= 2 ^ 32 - 1 + 1)).
Proof.
  intros p. apply (DecodeEntry_bounds p 0 (2 ^ 32 - 1) 1 []); vm_compute; reflexivity.
Defined.
