(* ===== verification/SkipList.v ===== *)
(** * SkipList: the ordered list of a mem-table

    Models [db/skiplist.h] and [util/random.h].  Nodes live in a heap of
    addresses; the links of a node are its array [next_].  Readers run without a
    lock while one writer inserts: [Insert] is given as the sequence of its
    stores, and its invariant holds after each of them. *)

From S2P Require Import Prelude.

(** ** util/random.h *)

Definition Random_make (s : Z) : Z :=
  let seed := Z.land s 0x7fffffff in
  if (seed =? 0) || (seed =? 2147483647) then 1 else seed.

(** [Next]: the value returned is the new seed. *)
Definition Random_Next (seed : Z) : Z :=
  let M := 2147483647 in
  let A := 16807 in
  let product := u64 (seed * A) in
  let seed := u32 (Z.shiftr product 31 + Z.land product M) in
  if seed >? M then u32 (seed - M) else seed.

Definition Uniform (n seed : Z) : Z * Z := let s := Random_Next seed in (s mod n, s).
Definition OneIn (n seed : Z) : bool * Z := let s := Random_Next seed in (s mod n =? 0, s).
Definition Skewed (max_log seed : Z) : Z * Z :=
  let '(base, seed) := Uniform (max_log + 1) seed in
  Uniform (Z.shiftl 1 base) seed.

(** ** The heap *)

Definition kMaxHeight : nat := 12.
Definition kBranching : Z := 4.

Section SkipList.
Context {K : Type} (compare_ : K -> K -> comparison).

(** The key of the head is not looked at. *)
Record Node : Type := mkNode { n_key : option K; n_next : list (option nat) }.

(** [x->Next(n)]. *)
Definition Next (h : gmap nat Node) (x : nat) (n : nat) : option nat :=
  match h !! x with
  | Some node => default None (n_next node !! n)
  | None => None
  end.

(** [x->SetNext(n, y)]. *)
Definition SetNext (h : gmap nat Node) (x : nat) (n : nat) (y : option nat) : gmap nat Node :=
  alter (fun node => mkNode (n_key node) (<[n := y]> (n_next node))) x h.

Definition key_of (h : gmap nat Node) (x : nat) : option K := h !! x ≫= n_key.

(** [sl_arena]: the next address. *)
Record SkipList : Type := mkSkipList {
  sl_heap : gmap nat Node;
  sl_head : nat;
  sl_max_height : nat;
  sl_rnd : Z;
  sl_arena : nat
}.

(** [NewNode]; the links are not set yet. *)
Definition NewNode (key : option K) (height : nat) (h : gmap nat Node) (arena : nat) : gmap nat Node * nat * nat :=
  (<[arena := mkNode key (replicate height None)]> h, arena, S arena).

Definition SkipList_make : SkipList :=
  let '(h, head, arena) := NewNode None kMaxHeight ∅ O in
  let h := fold_left (fun h i => SetNext h head i None) (seq 0 kMaxHeight) h in
  mkSkipList h head 1 (Random_make 0xdeadbeef) arena.

(** [while (height < kMaxHeight && (rnd_.Next() % kBranching) == 0) height++];
    [fuel] bounds the increments. *)
Fixpoint RandomHeight_loop (fuel : nat) (height : nat) (rnd : Z) : nat * Z :=
  match fuel with
  | O => (height, rnd)
  | S fuel =>
      if (height <? kMaxHeight)%nat then
        let rnd := Random_Next rnd in
        if rnd mod kBranching =? 0 then RandomHeight_loop fuel (S height) rnd else (height, rnd)
      else (height, rnd)
  end.
Definition RandomHeight (rnd : Z) : nat * Z := RandomHeight_loop kMaxHeight 1 rnd.

Definition KeyIsAfterNode (h : gmap nat Node) (key : K) (n : option nat) : bool :=
  match n with
  | None => false
  | Some n => match key_of h n with
              | Some k => match compare_ k key with Lt => true | _ => false end
              | None => false
              end
  end.

(** The loop of the three searches: go right while [after], else down a level;
    the node reached, its successor, and the array [prev].  [None] when [fuel]
    steps are not enough. *)
Fixpoint Search_loop (fuel : nat) (h : gmap nat Node) (after : option nat -> bool) (x level : nat) (prev : list nat) :
    option (nat * option nat * list nat) :=
  match fuel with
  | O => None
  | S fuel =>
      let next := Next h x level in
      match next, after next with
      | Some y, true => Search_loop fuel h after y level prev
      | _, _ =>
          let prev := <[level := x]> prev in
          match level with
          | O => Some (x, next, prev)
          | S level => Search_loop fuel h after x level prev
          end
      end
  end.

(** Each level is walked at most once. *)
Definition search_fuel (s : SkipList) : nat := kMaxHeight * S (size (sl_heap s)).

Definition FindGreaterOrEqual (s : SkipList) (key : K) (prev : list nat) : option (option nat * list nat) :=
  match Search_loop (search_fuel s) (sl_heap s) (KeyIsAfterNode (sl_heap s) key) (sl_head s)
          (sl_max_height s - 1) prev with
  | Some (_, next, prev) => Some (next, prev)
  | None => None
  end.

Definition FindLessThan (s : SkipList) (key : K) : option nat :=
  let after next :=
    match next with
    | None => false
    | Some n => match key_of (sl_heap s) n with
                | Some k => match compare_ k key with Lt => true | _ => false end
                | None => false
                end
    end in
  (fun r => fst (fst r)) <$>
    Search_loop (search_fuel s) (sl_heap s) after (sl_head s) (sl_max_height s - 1) (replicate kMaxHeight O).

Definition FindLast (s : SkipList) : option nat :=
  let after next := match next with None => false | Some _ => true end in
  (fun r => fst (fst r)) <$>
    Search_loop (search_fuel s) (sl_heap s) after (sl_head s) (sl_max_height s - 1) (replicate kMaxHeight O).

(** The two stores of an iteration of the last loop of [Insert]. *)
Definition link_node (x : nat) (prev : list nat) (h : gmap nat Node) (i : nat) : gmap nat Node :=
  let p := prev !!! i in
  let h := SetNext h x i (Next h p i) in
  SetNext h p i (Some x).

(** [prev[i] = head_] for [i] from the height of the list to that of the node. *)
Definition raise_prev (s : SkipList) (height : nat) (prev : list nat) : list nat :=
  fold_left (fun prev i => <[i := sl_head s]> prev) (seq (sl_max_height s) (height - sl_max_height s)) prev.

(** [Insert] up to the [links]-th iteration of its last loop. *)
Definition Insert_upto (links : nat) (s : SkipList) (key : K) : option SkipList :=
  match FindGreaterOrEqual s key (replicate kMaxHeight O) with
  | None => None
  | Some (_, prev) =>
      let '(height, rnd) := RandomHeight (sl_rnd s) in
      let '(prev, max_height) :=
        if (sl_max_height s <? height)%nat then (raise_prev s height prev, height)
        else (prev, sl_max_height s) in
      let '(h, x, arena) := NewNode (Some key) height (sl_heap s) (sl_arena s) in
      let h := fold_left (link_node x prev) (seq 0 (Nat.min links height)) h in
      Some (mkSkipList h (sl_head s) max_height rnd arena)
  end.

Definition Insert (s : SkipList) (key : K) : option SkipList := Insert_upto kMaxHeight s key.

Definition Contains (s : SkipList) (key : K) : option bool :=
  match FindGreaterOrEqual s key [] with
  | None => None
  | Some (Some x, _) =>
      Some match key_of (sl_heap s) x with
           | Some k => match compare_ key k with Eq => true | _ => false end
           | None => false
           end
  | Some (None, _) => Some false
  end.

(** [SkipList::Iterator]: the node it is at. *)
Definition SIterator : Type := option nat.
Definition Iter_Valid (n : SIterator) : bool := match n with None => false | Some _ => true end.
Definition Iter_key (s : SkipList) (n : SIterator) : option K := n ≫= key_of (sl_heap s).
Definition Iter_Next (s : SkipList) (n : SIterator) : SIterator :=
  match n with Some x => Next (sl_heap s) x 0 | None => None end.
Definition Iter_Prev (s : SkipList) (n : SIterator) : option SIterator :=
  match Iter_key s n with
  | None => None
  | Some k => (fun x => if (x =? sl_head s)%nat then None else Some x) <$> FindLessThan s k
  end.
Definition Iter_Seek (s : SkipList) (target : K) : option SIterator :=
  fst <$> FindGreaterOrEqual s target [].
Definition Iter_SeekToFirst (s : SkipList) : SIterator := Next (sl_heap s) (sl_head s) 0.
Definition Iter_SeekToLast (s : SkipList) : option SIterator :=
  (fun x => if (x =? sl_head s)%nat then None else Some x) <$> FindLast s.
End SkipList.
Arguments Node : clear implicits.
Arguments SkipList : clear implicits.

(** ** The generator *)

Lemma Random_make_range s : 1 <= Random_make s < 2147483647.
Proof.
  unfold Random_make. 
  rewrite (land_ones_mod s 31 ltac:(lia) : Z.land s 2147483647 = s mod 2 ^ 31).
  pose proof (Z.mod_pos_bound s (2 ^ 31) ltac:(lia)).
  destruct (Z.eqb_spec (s mod 2 ^ 31) 0), (Z.eqb_spec (s mod 2 ^ 31) 2147483647); cbn [orb]; lia.
Qed.

Lemma Random_Next_lehmer seed :
  1 <= seed < 2147483647 -> Random_Next seed = (16807 * seed) mod 2147483647 /\ 1 <= Random_Next seed < 2147483647.
Proof.
  intros Hs. unfold Random_Next. rewrite (u64_small (seed * 16807)) by lia.
  rewrite (land_ones_mod (seed * 16807) 31 ltac:(lia) : Z.land _ 2147483647 = _ mod 2 ^ 31).
  rewrite shiftr_div by lia.
  set (p := seed * 16807). change (2 ^ 31) with 2147483648.
  assert (Hp : 1 <= p < 2147483648 * 16807) by (subst p; lia).
  assert (Hmod : p mod 2147483647 <> 0).
  { intros E. apply Z.mod_divide in E as [q Hq]; [|lia].
    assert (Hg : (2147483647 | seed)).
    { apply (Z.gauss 2147483647 16807); [exists q; subst p; lia|]. vm_compute. reflexivity. }
    destruct Hg as [k Hk]. assert (k <= 0 \/ 1 <= k) as [|] by lia; lia. }
  replace (16807 * seed) with p by (subst p; lia). clearbody p. clear Hs seed.
  assert (Hsum : 0 <= p / 2147483648 + p mod 2147483648 < 2 ^ 32) by dlia.
  rewrite (u32_small (_ + _)) by done.
  pose proof (Z.div_mod p 2147483647 ltac:(lia)). pose proof (Z.mod_pos_bound p 2147483647 ltac:(lia)).
  pose proof (Z.div_mod p 2147483648 ltac:(lia)). pose proof (Z.mod_pos_bound p 2147483648 ltac:(lia)).
  assert (Hd : p / 2147483648 <= 16807) by (apply Z.lt_succ_r, Z.div_lt_upper_bound; lia).
  rewrite Z.gtb_ltb. destruct (Z.ltb_spec 2147483647 (p / 2147483648 + p mod 2147483648)) as [Hgt|Hle].
  - rewrite u32_small by lia. assert (E : p / 2147483648 + p mod 2147483648 - 2147483647 = p mod 2147483647); [|lia].
    apply (Z.mod_unique _ _ (p / 2147483648 + 1)); lia.
  - assert (E : p / 2147483648 + p mod 2147483648 = p mod 2147483647); [|lia].
    apply (Z.mod_unique _ _ (p / 2147483648)); [|lia]. left. split; [lia|].
    destruct (decide (p / 2147483648 + p mod 2147483648 = 2147483647)) as [E|]; [|lia].
    exfalso. apply Hmod, Z.mod_divide; [lia|]. exists (p / 2147483648 + 1). lia.
Qed.

Lemma RandomHeight_loop_range fuel height rnd :
  (height <= kMaxHeight)%nat ->
  (height <= fst (RandomHeight_loop fuel height rnd) <= kMaxHeight)%nat.
Proof.
  revert height rnd. induction fuel as [|fuel IH]; intros height rnd Hh; cbn [RandomHeight_loop fst]; [lia|].
  destruct (Nat.ltb_spec height kMaxHeight); [|cbn [fst]; lia].
  destruct (_ =? 0); [|cbn [fst]; lia]. specialize (IH (S height) (Random_Next rnd) ltac:(lia)). lia.
Qed.

Lemma RandomHeight_range rnd : (1 <= fst (RandomHeight rnd) <= kMaxHeight)%nat.
Proof. apply RandomHeight_loop_range. unfold kMaxHeight. lia. Qed.

(** ** Lists *)

(** The last node of a path. *)
Fixpoint endpoint (x : nat) (l : list nat) : nat :=
  match l with [] => x | y :: l => endpoint y l end.

Lemma endpoint_snoc x l y : endpoint x (l ++ [y]) = y.
Proof. revert x. induction l; intros; simpl; auto. Qed.

Lemma endpoint_in x l : endpoint x l = x /\ l = [] \/ endpoint x l ∈ l.
Proof.
  revert x. induction l as [|y l IH]; intros x; [by left|right]. simpl.
  destruct (IH y) as [[-> _]|]; [constructor|by constructor].
Qed.

(** A predicate that holds of what comes before what it holds of. *)
Lemma split_sorted {A} (R : A -> A -> Prop) (P : A -> bool) (l : list A) :
  StronglySorted R l -> (forall a b, a ∈ l -> b ∈ l -> R a b -> P b = true -> P a = true) ->
  l = filter (fun a => P a = true) l ++ filter (fun a => P a = false) l.
Proof.
  induction 1 as [|x l Hl IH Hx]; intros Hmono; [done|].
  rewrite !filter_cons. destruct (P x) eqn:E.
  - rewrite decide_True, decide_False by congruence. simpl. f_equal.
    apply IH. intros a b Ha Hb. apply Hmono; by constructor.
  - rewrite decide_False, decide_True by congruence.
    assert (Hnone : forall y, y ∈ l -> P y = false).
    { intros y Hy. destruct (P y) eqn:Ey; [|done]. rewrite Forall_forall in Hx.
      assert (P x = true); [|congruence]. apply (Hmono x y); [constructor|by constructor|by apply Hx|done]. }
    replace (filter (fun a => P a = true) l) with (@nil A).
    2:{ symmetry. clear -Hnone. induction l as [|y l IH]; [done|]. rewrite filter_cons_False, IH; [done| |].
        - intros z Hz. apply Hnone. by constructor.
        - rewrite Hnone by constructor. done. }
    simpl. f_equal. symmetry. clear -Hnone. induction l as [|y l IH]; [done|]. rewrite filter_cons_True, IH; [done| |].
    + intros z Hz. apply Hnone. by constructor.
    + apply Hnone. constructor.
Qed.

Lemma sublist_filter_mono {A} (P : A -> Prop) `{!forall x, Decision (P x)} (l k : list A) :
  sublist l k -> sublist (filter P l) (filter P k).
Proof.
  induction 1 as [|x l k Hs IH|x l k Hs IH]; [constructor| |]; rewrite ?filter_cons; case_decide; auto using sublist_skip, sublist_cons.
Qed.

Lemma head_drop {A} i (l : list A) : head (drop i l) = l !! i.
Proof. revert l. induction i as [|i IH]; intros [|x l]; try done. apply IH. Qed.

(** ** Paths *)

Section Proofs.
Context {K : Type} (compare_ : K -> K -> comparison).

(** What a comparison of keys satisfies. *)
Class KeyOrder : Prop := {
  key_antisym a b : compare_ b a = CompOpp (compare_ a b);
  key_le_trans a b c : compare_ a b <> Gt -> compare_ b c <> Gt -> compare_ a c <> Gt
}.

Fixpoint path (h : gmap nat (Node K)) (i x : nat) (l : list nat) : Prop :=
  match l with
  | [] => Next h x i = None
  | y :: l => Next h x i = Some y /\ path h i y l
  end.

Lemma key_of_SetNext (h : gmap nat (Node K)) x i v y : key_of (SetNext h x i v) y = key_of h y.
Proof.
  unfold key_of, SetNext. destruct (decide (x = y)) as [<-|].
  - rewrite lookup_alter_eq. by destruct (h !! x).
  - by rewrite lookup_alter_ne.
Qed.

(** The height of a node. *)
Definition height_of (h : gmap nat (Node K)) (x : nat) : option nat := (fun node => length (n_next node)) <$> h !! x.

Lemma height_of_SetNext (h : gmap nat (Node K)) x i v y : height_of (SetNext h x i v) y = height_of h y.
Proof.
  unfold height_of, SetNext. destruct (decide (x = y)) as [<-|].
  - rewrite lookup_alter_eq. destruct (h !! x); simpl; [|done]. by rewrite length_insert.
  - by rewrite lookup_alter_ne.
Qed.

Lemma Next_SetNext_eq (h : gmap nat (Node K)) x i v n :
  height_of h x = Some n -> (i < n)%nat -> Next (SetNext h x i v) x i = v.
Proof.
  unfold height_of, Next, SetNext. rewrite lookup_alter_eq. destruct (h !! x) as [node|]; [|done].
  intros [= <-] Hi. simpl. by rewrite list_lookup_insert_eq.
Qed.

Lemma Next_SetNext_ne (h : gmap nat (Node K)) x i v y j : x <> y \/ i <> j -> Next (SetNext h x i v) y j = Next h y j.
Proof.
  unfold Next, SetNext. intros H. destruct (decide (x = y)) as [<-|]; [|by rewrite lookup_alter_ne].
  rewrite lookup_alter_eq. destruct (h !! x) as [node|]; [|done]. simpl.
  by rewrite list_lookup_insert_ne by tauto.
Qed.

Lemma path_SetNext_ne (h : gmap nat (Node K)) x i v j y l : i <> j \/ (x <> y /\ x ∉ l) -> path h j y l -> path (SetNext h x i v) j y l.
Proof.
  revert y. induction l as [|z l IH]; intros y Hne; simpl.
  - intros <-. apply Next_SetNext_ne. destruct Hne as [|[? _]]; tauto.
  - intros [<- Hp]. split.
    + apply Next_SetNext_ne. destruct Hne as [|[? _]]; tauto.
    + apply IH; [|done]. destruct Hne as [|[_ Hin]]; [by left|right].
      rewrite not_elem_of_cons in Hin. destruct Hin. split; [congruence|done].
Qed.

Lemma path_app (h : gmap nat (Node K)) i x l k : path h i x (l ++ k) -> path h i (endpoint x l) k.
Proof. revert x. induction l as [|y l IH]; intros x; simpl; [done|]. intros [_ H]. by apply IH. Qed.

(** Linking the node [x] after the first part of a path. *)
Lemma path_link (h : gmap nat (Node K)) i x0 pre suf x n m :
  path h i x0 (pre ++ suf) -> NoDup (x0 :: pre ++ suf) -> x ∉ x0 :: pre ++ suf ->
  height_of h x = Some n -> (i < n)%nat -> height_of h (endpoint x0 pre) = Some m -> (i < m)%nat ->
  path (SetNext (SetNext h x i (Next h (endpoint x0 pre) i)) (endpoint x0 pre) i (Some x)) i x0 (pre ++ x :: suf).
Proof.
  revert x0. induction pre as [|y pre IH]; intros x0 Hp Hnd Hx Hn Hi Hm Him; cbn [endpoint app] in *.
  - split; [apply (Next_SetNext_eq _ _ _ _ m); [by rewrite height_of_SetNext|done]|].
    rewrite not_elem_of_cons in Hx. destruct Hx as [Hx1 Hx2]. apply NoDup_cons in Hnd as [Hnd1 Hnd2].
    destruct suf as [|z suf]; cbn [path] in *.
    + rewrite Next_SetNext_ne by (by left; congruence). by rewrite (Next_SetNext_eq _ _ _ _ n).
    + destruct Hp as [Hz Hp]. rewrite not_elem_of_cons in Hx2, Hnd1. destruct Hx2, Hnd1. split.
      * rewrite Next_SetNext_ne by (by left; congruence). by rewrite (Next_SetNext_eq _ _ _ _ n).
      * apply path_SetNext_ne; [right; split; congruence|]. apply path_SetNext_ne; [right; split; congruence|done].
  - destruct Hp as [Hy Hp]. rewrite not_elem_of_cons in Hx. destruct Hx as [Hx1 Hx2].
    apply NoDup_cons in Hnd as [Hnd1 Hnd2]. split; [|by apply IH].
    rewrite !Next_SetNext_ne; [done|by left|]. left. intros E. apply Hnd1. rewrite <- E.
    destruct (endpoint_in y pre) as [[-> _]|Hin]; [constructor|]. constructor. apply elem_of_app. by left.
Qed.

(** ** The invariant *)

Definition node_lt (h : gmap nat (Node K)) (a b : nat) : Prop :=
  exists k k', key_of h a = Some k /\ key_of h b = Some k' /\ compare_ k k' = Lt.

(** [ls i]: the nodes of level [i], in order.  Each level is a part of the level
    below; the lowest one is sorted. *)
Record wf (s : SkipList K) (ls : nat -> list nat) : Prop := {
  wf_height : (1 <= sl_max_height s <= kMaxHeight)%nat;
  wf_path i : (i < kMaxHeight)%nat -> path (sl_heap s) i (sl_head s) (ls i);
  wf_sub i : sublist (ls (S i)) (ls i);
  wf_empty i : (sl_max_height s <= i)%nat -> ls i = [];
  wf_node i y : y ∈ ls i -> exists n, height_of (sl_heap s) y = Some n /\ (i < n)%nat;
  wf_head : height_of (sl_heap s) (sl_head s) = Some kMaxHeight;
  wf_head_out : sl_head s ∉ ls O;
  wf_fresh y n : height_of (sl_heap s) y = Some n -> (y < sl_arena s)%nat;
  wf_keys y : y ∈ ls O -> is_Some (key_of (sl_heap s) y);
  wf_sorted : StronglySorted (node_lt (sl_heap s)) (ls O)
}.

(** The keys of the list. *)
Definition keys (s : SkipList K) (ls : nat -> list nat) : list K := omap (key_of (sl_heap s)) (ls O).

Context {Hord : KeyOrder}.

Lemma key_refl k : compare_ k k = Eq.
Proof. pose proof (key_antisym k k). by destruct (compare_ k k). Qed.

Lemma key_lt_trans a b d : compare_ a b = Lt -> compare_ b d = Lt -> compare_ a d = Lt.
Proof.
  intros H1 H2. destruct (compare_ a d) eqn:E; [exfalso|done|exfalso].
  - assert (H3 : compare_ d b <> Gt).
    { apply (key_le_trans _ a); [by rewrite (key_antisym a d), E|by rewrite H1]. }
    rewrite (key_antisym b d), H2 in H3. done.
  - assert (H3 : compare_ a d <> Gt) by (apply (key_le_trans _ b); congruence). congruence.
Qed.

Lemma node_lt_irrefl h a : ~ node_lt h a a.
Proof. intros (k & k' & E & E' & Hlt). rewrite E in E'. injection E' as <-. by rewrite key_refl in Hlt. Qed.

Lemma sorted_NoDup h l : StronglySorted (node_lt h) l -> NoDup l.
Proof.
  induction 1 as [|x l Hl IH Hx]; [constructor|]. constructor; [|done]. intros Hin.
  rewrite Forall_forall in Hx. by apply (node_lt_irrefl h x), Hx.
Qed.

Section Search.
Context (s : SkipList K) (ls : nat -> list nat) (Hwf : wf s ls).

Lemma level_sub i j : (i <= j)%nat -> sublist (ls j) (ls i).
Proof. induction 1 as [|j _ IH]; [done|]. etransitivity; [apply (wf_sub _ _ Hwf)|done]. Qed.

Lemma level_in i y : y ∈ ls i -> y ∈ ls O.
Proof. intros H. eapply elem_of_sublist; [exact H|]. apply level_sub. lia. Qed.

Lemma level_sorted i : StronglySorted (node_lt (sl_heap s)) (ls i).
Proof. eapply sublist_StronglySorted; [apply (level_sub O); lia|apply (wf_sorted _ _ Hwf)]. Qed.

Lemma level_length i : (length (ls i) <= size (sl_heap s))%nat.
Proof.
  transitivity (length (ls O)); [apply sublist_length, level_sub; lia|].
  rewrite <- (size_list_to_set (C := gset nat)) by (eapply sorted_NoDup, (wf_sorted _ _ Hwf)).
  rewrite <- (size_dom (D := gset nat)). apply subseteq_size. intros y Hy%elem_of_list_to_set.
  destruct (wf_node _ _ Hwf _ _ Hy) as (n & Hn & _). unfold height_of in Hn.
  apply fmap_Some in Hn as (node & Hn & _). by apply elem_of_dom_2 in Hn.
Qed.

(** What a search looks for: the end of the nodes where [P] holds, which come
    first. *)
Context (P : nat -> bool) (after : option nat -> bool).
Context (Hafter : forall y, y ∈ ls O -> after (Some y) = P y).
Context (Hmono : forall a b, node_lt (sl_heap s) a b -> P b = true -> P a = true).

Definition before (l : list nat) : list nat := filter (fun y => P y = true) l.
Definition notbefore (l : list nat) : list nat := filter (fun y => P y = false) l.

Lemma level_split i : ls i = before (ls i) ++ notbefore (ls i).
Proof. apply (split_sorted (node_lt (sl_heap s))); [apply level_sorted|]. intros a b _ _. apply Hmono. Qed.

(** Where a level is cut. *)
Lemma level_cut i pre suf :
  ls i = pre ++ suf -> Forall (fun y => P y = true) pre ->
  match suf with [] => True | y :: _ => P y = false end ->
  pre = before (ls i) /\ suf = notbefore (ls i).
Proof.
  intros E Hpre Hsuf. pose proof (level_sorted i) as Hs. rewrite E in *.
  assert (Hall : Forall (fun y => P y = false) suf).
  { destruct suf as [|y suf]; [constructor|]. constructor; [done|].
    assert (Hs' : StronglySorted (node_lt (sl_heap s)) (y :: suf)).
    { eapply sublist_StronglySorted; [|exact Hs]. by apply sublist_inserts_l. }
    inversion_clear Hs' as [|? ? _ Hy]. rewrite Forall_forall in *. intros z Hz.
    destruct (P z) eqn:Ez; [|done]. rewrite <- Hsuf. symmetry. apply (Hmono y z); [by apply Hy|done]. }
  unfold before, notbefore. rewrite !filter_app.
  rewrite (filter_all _ pre Hpre), (filter_all _ suf Hall).
  rewrite (filter_none (fun y => P y = true) suf), (filter_none (fun y => P y = false) pre).
  - by rewrite app_nil_r.
  - eapply Forall_impl; [exact Hpre|]. simpl. congruence.
  - eapply Forall_impl; [exact Hall|]. simpl. congruence.
Qed.

Lemma Search_loop_spec fuel : forall level pre suf prev,
  (level < kMaxHeight)%nat -> ls level = pre ++ suf -> Forall (fun y => P y = true) pre ->
  (S (length suf) + level * S (size (sl_heap s)) <= fuel)%nat ->
  exists prev', Search_loop fuel (sl_heap s) after (endpoint (sl_head s) pre) level prev =
      Some (endpoint (sl_head s) (before (ls O)), head (notbefore (ls O)), prev') /\
    length prev' = length prev /\
    (forall l, (l <= level)%nat -> (l < length prev)%nat ->
       prev' !! l = Some (endpoint (sl_head s) (before (ls l)))) /\
    (forall l, (level < l)%nat -> prev' !! l = prev !! l).
Proof.
  induction fuel as [|fuel IH]; intros level pre suf prev Hlevel E Hpre Hf; [lia|]. cbn [Search_loop].
  pose proof (wf_path _ _ Hwf level Hlevel) as Hpath. rewrite E in Hpath. apply path_app in Hpath.
  assert (Hdown : match suf with [] => True | y :: _ => P y = false end ->
    let prev1 := <[level := endpoint (sl_head s) pre]> prev in
    exists prev', match level with
      | O => Some (endpoint (sl_head s) pre, head suf, prev1)
      | S level => Search_loop fuel (sl_heap s) after (endpoint (sl_head s) pre) level prev1
      end = Some (endpoint (sl_head s) (before (ls O)), head (notbefore (ls O)), prev') /\
    length prev' = length prev /\
    (forall l, (l <= level)%nat -> (l < length prev)%nat ->
       prev' !! l = Some (endpoint (sl_head s) (before (ls l)))) /\
    (forall l, (level < l)%nat -> prev' !! l = prev !! l)).
  { intros Hcut prev1. destruct (level_cut _ _ _ E Hpre Hcut) as [Epre Esuf]. destruct level as [|level].
    - exists prev1. rewrite <- Epre, <- Esuf. split; [done|]. subst prev1. rewrite length_insert.
      split; [done|]. split.
      + intros l Hl Hlen. assert (l = O) as -> by lia. rewrite list_lookup_insert_eq by done. by rewrite Epre.
      + intros l Hl. by rewrite list_lookup_insert_ne by lia.
    - assert (Hnew : exists pre' suf', ls level = pre' ++ suf' /\ Forall (fun y => P y = true) pre' /\
                endpoint (sl_head s) pre' = endpoint (sl_head s) pre).
      { destruct (endpoint_in (sl_head s) pre) as [[Ee ->]|Hin]; [by exists [], (ls level)|].
        set (x := endpoint (sl_head s) pre) in *.
        assert (Hx : x ∈ ls level).
        { eapply elem_of_sublist; [|apply (wf_sub _ _ Hwf)]. rewrite E. apply elem_of_app. by left. }
        apply list_elem_of_split in Hx as (l1 & l2 & El). exists (l1 ++ [x]), l2.
        rewrite <- app_assoc. split; [done|]. rewrite endpoint_snoc. split; [|done].
        rewrite Forall_forall in Hpre. rewrite Forall_app. split; [|by constructor; [apply Hpre|]].
        rewrite Forall_forall. intros y Hy. apply (Hmono y x); [|by apply Hpre].
        pose proof (level_sorted level) as Hs. rewrite El in Hs.
        apply list_elem_of_lookup_1 in Hy as [i Hi].
        apply (StronglySorted_lookup _ _ i (length l1) _ _ Hs).
        - by apply lookup_app_l_Some.
        - rewrite lookup_app_r, Nat.sub_diag by lia. done.
        - by apply lookup_lt_Some in Hi. }
      destruct Hnew as (pre' & suf' & E' & Hpre' & Ee). rewrite <- Ee.
      assert (Hlen : (length suf' <= size (sl_heap s))%nat).
      { pose proof (level_length level) as Hl. rewrite E', length_app in Hl. lia. }
      destruct (IH level pre' suf' prev1) as (prev' & -> & Hl & H1 & H2); [lia|done|done|lia|].
      exists prev'. split; [done|]. subst prev1. rewrite length_insert in *. split; [done|]. split.
      + intros l Hl1 Hl2. destruct (decide (l = S level)) as [->|]; [|apply H1; lia].
        rewrite H2, list_lookup_insert_eq by lia. by rewrite Epre.
      + intros l Hl1. rewrite H2, list_lookup_insert_ne by lia. done. }
  destruct suf as [|y suf]; cbn [path] in Hpath.
  - rewrite Hpath. apply Hdown. done.
  - destruct Hpath as [Hy _]. rewrite Hy.
    assert (Hin : y ∈ ls O). { apply (level_in level). rewrite E. apply elem_of_app. right. constructor. }
    rewrite (Hafter y Hin). destruct (P y) eqn:EP; [|by apply Hdown].
    destruct (IH level (pre ++ [y]) suf prev) as (prev' & E1 & H1); [done|by rewrite <- app_assoc| |cbn [length] in Hf; lia|].
    { apply Forall_app. split; [done|]. by repeat constructor. }
    rewrite endpoint_snoc in E1. by exists prev'.
Qed.

(** The search from the top. *)
Lemma Search_spec prev : exists prev',
  Search_loop (search_fuel s) (sl_heap s) after (sl_head s) (sl_max_height s - 1) prev =
    Some (endpoint (sl_head s) (before (ls O)), head (notbefore (ls O)), prev') /\
  length prev' = length prev /\
  (forall l, (l < sl_max_height s)%nat -> (l < length prev)%nat ->
     prev' !! l = Some (endpoint (sl_head s) (before (ls l)))).
Proof.
  pose proof (wf_height _ _ Hwf) as Hh.
  destruct (Search_loop_spec (search_fuel s) (sl_max_height s - 1) [] (ls (sl_max_height s - 1)) prev)
    as (prev' & E & Hl & H1 & _); [lia|done|constructor| |].
  - unfold search_fuel. pose proof (level_length (sl_max_height s - 1)). unfold kMaxHeight in *. nia.
  - exists prev'. split; [exact E|]. split; [done|]. intros l Hl1 Hl2. apply H1; lia.
Qed.
End Search.

(** ** Inserting *)

(** The nodes before a key. *)
Definition before_key (h : gmap nat (Node K)) (key : K) (y : nat) : bool :=
  KeyIsAfterNode compare_ h key (Some y).

Lemma before_key_mono h key a b : node_lt h a b -> before_key h key b = true -> before_key h key a = true.
Proof.
  intros (k & k' & Ea & Eb & Hlt). unfold before_key, KeyIsAfterNode. rewrite Ea, Eb.
  destruct (compare_ k' key) eqn:E; [done| |done]. intros _. by rewrite (key_lt_trans k k' key).
Qed.

(** A level with the node [x] inserted. *)
Definition ins (P : nat -> bool) (x : nat) (l : list nat) : list nat := before P l ++ x :: notbefore P l.

(** The levels after [links] iterations of the last loop of [Insert]. *)
Definition linked (P : nat -> bool) (x links : nat) (ls : nat -> list nat) (i : nat) : list nat :=
  if decide (i < links)%nat then ins P x (ls i) else ls i.

Lemma linked_lt P x links ls i : (i < links)%nat -> linked P x links ls i = ins P x (ls i).
Proof. intros. unfold linked. by rewrite decide_True. Qed.
Lemma linked_ge P x links ls i : (links <= i)%nat -> linked P x links ls i = ls i.
Proof. intros. unfold linked. rewrite decide_False by lia. done. Qed.

Lemma elem_of_ins P x l y : y ∈ ins P x l <-> y = x \/ y ∈ l.
Proof.
  unfold ins, before, notbefore. rewrite elem_of_app, elem_of_cons, !list_elem_of_filter.
  destruct (P y); intuition congruence.
Qed.

Lemma elem_of_linked P x links ls i y :
  y ∈ linked P x links ls i -> (y = x /\ (i < links)%nat) \/ y ∈ ls i.
Proof.
  unfold linked. case_decide; [|by right]. rewrite elem_of_ins. intros [->|]; [by left|by right].
Qed.

(** The heap in the loop: the links of the levels done are in place, nothing
    else has changed. *)
Lemma links_heap h0 head x prev height ls P : forall links,
  (links <= height <= kMaxHeight)%nat ->
  (forall i, (i < kMaxHeight)%nat -> path h0 i head (ls i)) ->
  (forall i, (i < kMaxHeight)%nat -> NoDup (head :: ls i) /\ (x ∉ head :: ls i) /\ ls i = before P (ls i) ++ notbefore P (ls i)) ->
  (forall i y, y ∈ ls i -> exists n, height_of h0 y = Some n /\ (i < n)%nat) ->
  height_of h0 head = Some kMaxHeight -> height_of h0 x = Some height ->
  (forall i, (i < height)%nat -> prev !! i = Some (endpoint head (before P (ls i)))) ->
  let h := fold_left (link_node x prev) (seq 0 links) h0 in
  (forall y, key_of h y = key_of h0 y) /\ (forall y, height_of h y = height_of h0 y) /\
  (forall i, (i < kMaxHeight)%nat -> path h i head (linked P x links ls i)).
Proof.
  intros links Hl Hpath Hls Hnode Hhead Hx Hprev. induction links as [|links IH].
  { simpl. split; [done|]. split; [done|]. intros i Hi. rewrite linked_ge by lia. by apply Hpath. }
  destruct IH as (Hk & Hh & Hp); [lia|]. rewrite seq_S, fold_left_app. cbn [fold_left Nat.add].
  set (h := fold_left (link_node x prev) (seq 0 links) h0) in *.
  unfold link_node. rewrite (list_lookup_total_correct prev links _ (Hprev links ltac:(lia))).
  set (p := endpoint head (before P (ls links))).
  split; [intros y; by rewrite !key_of_SetNext|]. split; [intros y; by rewrite !height_of_SetNext|].
  intros i Hi. destruct (decide (i = links)) as [->|Hne].
  - destruct (Hls links ltac:(lia)) as (Hnd & Hnx & Hsplit). rewrite linked_lt by lia. unfold ins.
    assert (Hpm : exists m, height_of h p = Some m /\ (links < m)%nat).
    { destruct (endpoint_in head (before P (ls links))) as [[E _]|Hin].
      - exists kMaxHeight. subst p. rewrite E, Hh. split; [done|lia].
      - rewrite Hh. apply Hnode. rewrite Hsplit. apply elem_of_app. by left. }
    destruct Hpm as (m & Hpm & Hm). apply (path_link _ _ _ _ _ _ height m); try done; [|by rewrite <- Hsplit..|by rewrite Hh|lia].
    rewrite <- Hsplit. specialize (Hp links Hi). by rewrite linked_ge in Hp by lia.
  - assert (E : linked P x (S links) ls i = linked P x links ls i).
    { destruct (decide (i < links)%nat); [rewrite !linked_lt by lia|rewrite !linked_ge by lia]; done. }
    rewrite E. apply path_SetNext_ne; [by left|]. apply path_SetNext_ne; [by left|]. by apply Hp.
Qed.

Lemma raise_prev_lookup (s : SkipList K) height prev i :
  (sl_max_height s <= height <= kMaxHeight)%nat -> length prev = kMaxHeight -> (i < height)%nat ->
  raise_prev s height prev !! i = if decide (i < sl_max_height s)%nat then prev !! i else Some (sl_head s).
Proof.
  intros Hh Hl Hi. unfold raise_prev.
  assert (G : forall n prev, length prev = kMaxHeight -> (sl_max_height s + n <= kMaxHeight)%nat ->
    length (fold_left (fun prev i => <[i := sl_head s]> prev) (seq (sl_max_height s) n) prev) = kMaxHeight /\
    fold_left (fun prev i => <[i := sl_head s]> prev) (seq (sl_max_height s) n) prev !! i =
    if decide (sl_max_height s <= i < sl_max_height s + n)%nat then Some (sl_head s) else prev !! i).
  { intros n. induction n as [|n IH]; intros prev' Hl' Hn.
    - simpl. split; [done|]. rewrite decide_False by lia. done.
    - rewrite seq_S, fold_left_app. cbn [fold_left]. destruct (IH prev' Hl' ltac:(lia)) as [IH1 IH2].
      rewrite length_insert. split; [done|].
      destruct (decide (i = sl_max_height s + n)%nat) as [->|Hne].
      + rewrite list_lookup_insert_eq by lia. by rewrite decide_True by lia.
      + rewrite list_lookup_insert_ne, IH2 by lia. repeat case_decide; done || lia. }
  destruct (G (height - sl_max_height s)%nat prev Hl ltac:(lia)) as [_ ->].
  repeat case_decide; done || lia.
Qed.

Lemma keys_before s ls key : wf s ls ->
  omap (key_of (sl_heap s)) (before (before_key (sl_heap s) key) (ls O)) =
    filter (fun k => compare_ k key = Lt) (keys s ls) /\
  omap (key_of (sl_heap s)) (notbefore (before_key (sl_heap s) key) (ls O)) =
    filter (fun k => compare_ k key <> Lt) (keys s ls).
Proof.
  intros Hwf. pose proof (wf_keys _ _ Hwf) as Hk. unfold keys, before, notbefore. revert Hk.
  generalize (ls O). intros l. induction l as [|y l IH]; intros Hk; [done|].
  destruct (Hk y ltac:(constructor)) as [k Ek].
  destruct IH as [IH1 IH2]; [intros z Hz; apply Hk; by constructor|].
  assert (Hb : before_key (sl_heap s) key y = match compare_ k key with Lt => true | _ => false end).
  { unfold before_key, KeyIsAfterNode. by rewrite Ek. }
  assert (Hcons : forall l', omap (key_of (sl_heap s)) (y :: l') = k :: omap (key_of (sl_heap s)) l').
  { intros l'. cbn. by rewrite Ek. }
  rewrite Hcons, !filter_cons. destruct (compare_ k key) eqn:E;
    repeat first [rewrite decide_True by congruence|rewrite decide_False by congruence];
    rewrite ?Hcons; split; try done; by f_equal.
Qed.

Lemma wf_NoDup s ls i : wf s ls -> NoDup (sl_head s :: ls i) /\ (sl_arena s ∉ sl_head s :: ls i).
Proof.
  intros Hwf. split.
  - constructor; [intros H; eapply (wf_head_out _ _ Hwf), level_in; done|].
    eapply sorted_NoDup, level_sorted. done.
  - rewrite not_elem_of_cons. split.
    + intros E. pose proof (wf_fresh _ _ Hwf _ _ (wf_head _ _ Hwf)). lia.
    + intros H. destruct (wf_node _ _ Hwf _ _ H) as (n & Hn & _). pose proof (wf_fresh _ _ Hwf _ _ Hn). lia.
Qed.

(** Levels with a node inserted are still parts of each other. *)
Lemma linked_sub P x links ls i :
  (forall j, sublist (ls (S j)) (ls j)) -> (forall j, ls j = before P (ls j) ++ notbefore P (ls j)) ->
  sublist (linked P x links ls (S i)) (linked P x links ls i).
Proof.
  intros Hsub Hsplit. unfold linked. case_decide; case_decide; try lia; [..|done].
  - unfold ins. apply sublist_app; [by apply sublist_filter_mono|].
    apply sublist_skip. by apply sublist_filter_mono.
  - etransitivity; [apply Hsub|]. rewrite (Hsplit i) at 1. unfold ins.
    apply sublist_app; [done|]. by apply sublist_cons.
Qed.

Lemma ins_sorted h P x l :
  StronglySorted (node_lt h) l -> l = before P l ++ notbefore P l ->
  (forall y, y ∈ l -> P y = true -> node_lt h y x) -> (forall y, y ∈ l -> P y = false -> node_lt h x y) ->
  StronglySorted (node_lt h) (ins P x l).
Proof.
  intros Hs Hsplit Hb Ha. unfold ins.
  assert (Hin : forall y, y ∈ before P l -> y ∈ l /\ P y = true).
  { intros y. unfold before. rewrite list_elem_of_filter. tauto. }
  assert (Hin' : forall y, y ∈ notbefore P l -> y ∈ l /\ P y = false).
  { intros y. unfold notbefore. rewrite list_elem_of_filter. tauto. }
  assert (Hs' : StronglySorted (node_lt h) (x :: notbefore P l)).
  { constructor; [eapply sublist_StronglySorted; [|exact Hs]; rewrite Hsplit at 2; by apply sublist_inserts_l|].
    rewrite Forall_forall. intros y Hy. destruct (Hin' y Hy). auto. }
  assert (Hlt : forall a, a ∈ before P l -> Forall (node_lt h a) (x :: notbefore P l)).
  { intros a Ha'. destruct (Hin a Ha') as [Hal HaP]. rewrite Forall_forall. intros b Hb'.
    apply elem_of_cons in Hb' as [->|Hb']; [auto|]. destruct (Hin' b Hb') as [Hbl HbP].
    destruct (Hb a Hal HaP) as (k & k' & E1 & E2 & E3). destruct (Ha b Hbl HbP) as (k2 & k3 & E4 & E5 & E6).
    rewrite E2 in E4. injection E4 as <-. exists k, k3. repeat split; try done. by apply (key_lt_trans k k'). }
  assert (Hsb : StronglySorted (node_lt h) (before P l)).
  { eapply sublist_StronglySorted; [|exact Hs]. rewrite Hsplit at 2. by apply sublist_inserts_r. }
  clear -Hs' Hlt Hsb. induction Hsb as [|a b Hb IH Hab]; [done|]. simpl. constructor.
  - apply IH. intros c Hc. apply Hlt. by constructor.
  - apply Forall_app. split; [done|]. apply Hlt. constructor.
Qed.

(** The heap once the node is allocated. *)
Lemma NewNode_spec s ls key height :
  wf s ls ->
  let h0 := <[sl_arena s := mkNode (Some key) (replicate height None)]> (sl_heap s) in
  key_of h0 (sl_arena s) = Some key /\ height_of h0 (sl_arena s) = Some height /\
  (forall y, y <> sl_arena s -> key_of h0 y = key_of (sl_heap s) y /\ height_of h0 y = height_of (sl_heap s) y) /\
  (forall i, (i < kMaxHeight)%nat -> path h0 i (sl_head s) (ls i)).
Proof.
  intros Hwf h0. split; [by unfold key_of, h0; rewrite lookup_insert_eq|].
  split. { unfold height_of, h0. rewrite lookup_insert_eq. simpl. by rewrite length_replicate. }
  split. { intros y Hy. unfold key_of, height_of, h0. by rewrite lookup_insert_ne. }
  intros i Hi. pose proof (wf_path _ _ Hwf i Hi) as Hp. destruct (wf_NoDup _ _ i Hwf) as [_ Hx].
  revert Hp Hx. generalize (sl_head s) as x, (ls i) as l. intros x l. revert x.
  assert (Hn : forall y, y <> sl_arena s -> Next h0 y i = Next (sl_heap s) y i).
  { intros y Hy. unfold Next, h0. by rewrite lookup_insert_ne. }
  induction l as [|y l IH]; intros x; cbn [path]; rewrite !not_elem_of_cons.
  - intros Hp [Hx _]. by rewrite Hn.
  - intros [Hp1 Hp2] (Hx & Hy & Hl). split; [by rewrite Hn|]. apply IH; [done|]. by rewrite not_elem_of_cons.
Qed.

(** [Insert], stopped anywhere in its last loop: it finds its place, and the
    list is well formed, with the key as soon as the lowest link is in place. *)
Lemma Insert_upto_spec s ls key links :
  wf s ls -> Forall (fun k => compare_ k key <> Eq) (keys s ls) ->
  exists s' ls', Insert_upto compare_ links s key = Some s' /\ wf s' ls' /\
    keys s' ls' = if decide (links = O) then keys s ls
                  else filter (fun k => compare_ k key = Lt) (keys s ls) ++ key ::
                       filter (fun k => compare_ k key <> Lt) (keys s ls).
Proof.
  intros Hwf Hnew. unfold Insert_upto, FindGreaterOrEqual.
  set (P := before_key (sl_heap s) key).
  assert (HPmono : forall a b, node_lt (sl_heap s) a b -> P b = true -> P a = true).
  { intros a b. apply before_key_mono. }
  destruct (Search_spec s ls Hwf P (KeyIsAfterNode compare_ (sl_heap s) key) ltac:(done) HPmono
    (replicate kMaxHeight O)) as (prev & -> & Hlen & Hprev).
  rewrite length_replicate in Hlen, Hprev.
  pose proof (RandomHeight_range (sl_rnd s)) as Hheight. destruct (RandomHeight (sl_rnd s)) as [height rnd].
  cbn [fst] in Hheight. pose proof (wf_height _ _ Hwf) as Hmax.
  set (max' := if (sl_max_height s <? height)%nat then height else sl_max_height s).
  set (prev' := if (sl_max_height s <? height)%nat then raise_prev s height prev else prev).
  replace (if (sl_max_height s <? height)%nat then (raise_prev s height prev, height) else (prev, sl_max_height s))
    with (prev', max') by (subst max' prev'; by destruct (_ <? _)%nat).
  assert (Hmax' : (sl_max_height s <= max' <= kMaxHeight)%nat /\ (height <= max')%nat).
  { subst max'. destruct (Nat.ltb_spec (sl_max_height s) height); lia. }
  assert (Hprev' : forall i, (i < height)%nat -> prev' !! i = Some (endpoint (sl_head s) (before P (ls i)))).
  { intros i Hi. subst prev'. destruct (Nat.ltb_spec (sl_max_height s) height) as [Hlt|Hge].
    - rewrite raise_prev_lookup by (done || lia). case_decide; [apply Hprev; lia|].
      by rewrite (wf_empty _ _ Hwf i) by lia.
    - apply Hprev; lia. }
  clearbody max' prev'. cbn [NewNode].
  destruct (NewNode_spec s ls key height Hwf) as (Hkx & Hhx & Hold & Hpath0).
  set (h0 := <[sl_arena s := mkNode (Some key) (replicate height None)]> (sl_heap s)) in *.
  set (x := sl_arena s) in *. set (m := Nat.min links height).
  assert (Hsplit : forall i, ls i = before P (ls i) ++ notbefore P (ls i)) by (intros i; by apply (level_split s ls Hwf P HPmono)).
  assert (Hne : forall i y, y ∈ ls i -> y <> x).
  { intros i y Hy ->. destruct (wf_NoDup _ _ i Hwf) as [_ H]. apply H. by constructor. }
  assert (Hheadx : sl_head s <> x) by (destruct (wf_NoDup _ _ 0 Hwf) as [_ H]; rewrite not_elem_of_cons in H; by destruct H).
  destruct (links_heap h0 (sl_head s) x prev' height ls P m) as (Hk & Hh & Hp).
  { lia. } { done. }
  { intros i _. destruct (wf_NoDup _ _ i Hwf). auto. }
  { intros i y Hy. rewrite (proj2 (Hold y (Hne _ _ Hy))). by apply (wf_node _ _ Hwf). }
  { rewrite (proj2 (Hold _ Hheadx)). apply (wf_head _ _ Hwf). }
  { done. } { done. }
  set (h := fold_left (link_node x prev') (seq 0 m) h0) in *.
  assert (Hlt : forall a b, a <> x -> b <> x -> node_lt (sl_heap s) a b -> node_lt h a b).
  { intros a b Ha Hb (k & k' & E1 & E2 & E3). exists k, k'. rewrite !Hk.
    by rewrite (proj1 (Hold a Ha)), (proj1 (Hold b Hb)). }
  assert (Hxlt : forall y, y ∈ ls O -> (P y = true -> node_lt h y x) /\ (P y = false -> node_lt h x y)).
  { intros y Hy. destruct (wf_keys _ _ Hwf y Hy) as [k Ek].
    assert (Hkne : compare_ k key <> Eq).
    { rewrite Forall_forall in Hnew. apply Hnew. unfold keys. apply list_elem_of_omap. by exists y. }
    assert (Eh : key_of h y = Some k) by (rewrite Hk, (proj1 (Hold y (Hne _ _ Hy))); done).
    subst P. unfold before_key, KeyIsAfterNode. rewrite Ek. split.
    - destruct (compare_ k key) eqn:E; try done. intros _. exists k, key. by rewrite (Hk x).
    - destruct (compare_ k key) eqn:E; try done. intros _. exists key, k. rewrite (Hk x).
      repeat split; try done. by rewrite (key_antisym k key), E. }
  eexists _, (linked P x m ls). split; [done|]. split.
  - split; cbn [sl_heap sl_head sl_max_height sl_arena].
    + lia.
    + done.
    + intros i. by apply linked_sub; [apply (wf_sub _ _ Hwf)|].
    + intros i Hi. rewrite linked_ge by lia. apply (wf_empty _ _ Hwf). lia.
    + intros i y Hy. rewrite Hh. destruct (elem_of_linked _ _ _ _ _ _ Hy) as [[-> Hi]|Hy'].
      * exists height. split; [done|]. lia.
      * rewrite (proj2 (Hold y (Hne _ _ Hy'))). by apply (wf_node _ _ Hwf).
    + rewrite Hh, (proj2 (Hold _ Hheadx)). apply (wf_head _ _ Hwf).
    + intros H. destruct (elem_of_linked _ _ _ _ _ _ H) as [[H1 _]|H1]; [done|]. by apply (wf_head_out _ _ Hwf).
    + intros y n. rewrite Hh. destruct (decide (y = x)) as [->|Hy]; [subst x; lia|].
      rewrite (proj2 (Hold y Hy)). intros Hn. pose proof (wf_fresh _ _ Hwf _ _ Hn). subst x. lia.
    + intros y Hy. rewrite Hk. destruct (elem_of_linked _ _ _ _ _ _ Hy) as [[-> Hi]|Hy']; [by rewrite Hkx|].
      rewrite (proj1 (Hold y (Hne _ _ Hy'))). by apply (wf_keys _ _ Hwf).
    + assert (Hs : StronglySorted (node_lt h) (ls O)).
      { pose proof (wf_sorted _ _ Hwf) as Hs. pose proof (Hne O) as Hne0. clear -Hs Hne0 Hlt.
        induction Hs as [|a l Hl IH Ha]; [constructor|]. constructor; [apply IH; intros y Hy; apply Hne0; by constructor|].
        rewrite Forall_forall in *. intros b Hb. apply Hlt; [apply Hne0; constructor|apply Hne0; by constructor|auto]. }
      unfold linked. case_decide; [|done]. apply ins_sorted; [done|done|..]; intros y Hy; by apply Hxlt.
  - unfold keys at 1. cbn [sl_heap]. destruct (keys_before s ls key Hwf) as [E1 E2].
    assert (Hko : forall l : list nat, (forall y, y ∈ l -> y ∈ ls O) -> omap (key_of h) l = omap (key_of (sl_heap s)) l).
    { intros l Hl. induction l as [|y l IH]; [done|]. cbn. rewrite Hk, (proj1 (Hold y (Hne O y (Hl y ltac:(constructor))))).
      rewrite IH by (intros z Hz; apply Hl; by constructor). done. }
    case_decide as Hd.
    + subst links. rewrite linked_ge by (subst m; lia). by apply Hko.
    + rewrite linked_lt by (subst m; lia). unfold ins. rewrite omap_app. cbn [omap list_omap]. rewrite Hk, Hkx.
      fold P in E1, E2. rewrite <- E1, <- E2.
      rewrite !Hko; [done|..]; intros y; unfold before, notbefore; rewrite list_elem_of_filter; tauto.
Qed.

(** ** The empty list *)

Lemma make_wf : wf SkipList_make (fun _ => []).
Proof.
  assert (E : sl_heap (@SkipList_make K) = {[ O := mkNode None (replicate kMaxHeight None) ]}).
  { unfold SkipList_make, NewNode. cbn [sl_heap].
    assert (G : forall l (h : gmap nat (Node K)), h = {[ O := mkNode None (replicate kMaxHeight None) ]} ->
      fold_left (fun h i => SetNext h O i None) l h = h).
    { intros l h ->. induction l as [|i l IH]; [done|]. cbn [fold_left].
      replace (SetNext _ O i None) with ({[ O := mkNode None (replicate kMaxHeight None) ]} : gmap nat (Node K)); [done|].
      unfold SetNext. rewrite alter_singleton_eq. cbn [n_key n_next]. do 2 f_equal. symmetry.
      by rewrite insert_replicate. }
    apply G. done. }
  split; rewrite ?E; try done.
  - unfold kMaxHeight. simpl. lia.
  - intros i Hi. cbn [path]. unfold Next. change (sl_head SkipList_make) with O. rewrite lookup_singleton_eq.
    cbn [n_next]. by rewrite lookup_replicate_2.
  - intros i y Hy. by apply not_elem_of_nil in Hy.
  - apply not_elem_of_nil.
  - intros y n. unfold height_of. intros H. apply fmap_Some in H as (node & H & _).
    apply lookup_singleton_Some in H as [<- _]. change (sl_arena (@SkipList_make K)) with 1%nat. lia.
  - intros y Hy. by apply not_elem_of_nil in Hy.
  - constructor.
Qed.

(** ** Reading *)

Section Read.
Context (s : SkipList K) (ls : nat -> list nat) (Hwf : wf s ls).

Lemma keys_lookup i : keys s ls !! i = ls O !! i ≫= key_of (sl_heap s).
Proof.
  unfold keys. pose proof (wf_keys _ _ Hwf) as Hk. revert i Hk. generalize (ls O). intros l.
  induction l as [|y l IH]; intros i Hk; [done|]. cbn. destruct (Hk y ltac:(constructor)) as [k Ek].
  rewrite Ek. destruct i as [|i]; [done|]. cbn. apply IH. intros z Hz. apply Hk. by constructor.
Qed.

Lemma keys_length : length (keys s ls) = length (ls O).
Proof.
  unfold keys. pose proof (wf_keys _ _ Hwf) as Hk. revert Hk. generalize (ls O). intros l.
  induction l as [|y l IH]; intros Hk; [done|]. cbn. destruct (Hk y ltac:(constructor)) as [k Ek].
  rewrite Ek. cbn. f_equal. apply IH. intros z Hz. apply Hk. by constructor.
Qed.

Lemma keys_sorted : StronglySorted (fun a b => compare_ a b = Lt) (keys s ls).
Proof.
  unfold keys. pose proof (wf_sorted _ _ Hwf) as Hs. induction Hs as [|y l Hl IH Hy]; [constructor|].
  cbn. destruct (key_of (sl_heap s) y) as [k|] eqn:Ek; [|done]. constructor; [done|].
  apply Forall_forall. intros k' Hk'. apply list_elem_of_omap in Hk' as (z & Hz & Ez).
  destruct (proj1 (Forall_forall _ _) Hy z Hz) as (k1 & k2 & E1 & E2 & E3). congruence.
Qed.

(** The nodes of the list in order: where the first one is, and where the next
    one is. *)
Lemma path_lookup h i x l j : path h i x l -> Next h (endpoint x (take j l)) i = l !! j \/ (length l < j)%nat.
Proof.
  revert x j. induction l as [|y l IH]; intros x j; cbn [path].
  - intros H. left. by destruct j.
  - intros [Hy Hp]. destruct j as [|j]; [by left|]. cbn [take endpoint lookup list_lookup].
    destruct (IH y j Hp); [by left|right; simpl; lia].
Qed.

Lemma Iter_SeekToFirst_spec : Iter_SeekToFirst s = ls O !! O.
Proof.
  unfold Iter_SeekToFirst. pose proof (wf_path _ _ Hwf O ltac:(unfold kMaxHeight; lia)) as Hp.
  by destruct (path_lookup _ _ _ _ O Hp) as [H|H]; [|lia].
Qed.

Lemma Iter_Next_spec i y : ls O !! i = Some y -> Iter_Next s (Some y) = ls O !! S i.
Proof.
  intros Hy. unfold Iter_Next. pose proof (wf_path _ _ Hwf O ltac:(unfold kMaxHeight; lia)) as Hp.
  destruct (path_lookup _ _ _ _ (S i) Hp) as [H|H]; [|apply lookup_lt_Some in Hy; lia].
  by rewrite (take_S_r _ _ _ Hy), endpoint_snoc in H.
Qed.

Lemma endpoint_last x l : endpoint x l = match last l with Some y => y | None => x end.
Proof.
  revert x. induction l as [|y l IH]; intros x; [done|]. cbn [endpoint]. rewrite IH.
  destruct l as [|z l]; [done|]. rewrite last_cons_cons. by destruct (last (z :: l)) eqn:E; [|apply last_None in E].
Qed.

(** The node a search ends at, for an iterator: nothing for the head. *)
Lemma endpoint_iter l : (forall y, y ∈ l -> y ∈ ls O) ->
  (if (endpoint (sl_head s) l =? sl_head s)%nat then None else Some (endpoint (sl_head s) l)) = last l.
Proof.
  intros Hl. rewrite endpoint_last. destruct (last l) as [y|] eqn:E; [|by rewrite Nat.eqb_refl].
  destruct (Nat.eqb_spec y (sl_head s)) as [->|]; [|done]. exfalso. apply (wf_head_out _ _ Hwf), Hl.
  by apply last_Some_elem_of.
Qed.

Lemma before_prefix P : before P (ls O) ++ notbefore P (ls O) = ls O ->
  before P (ls O) = take (length (before P (ls O))) (ls O) /\
  notbefore P (ls O) = drop (length (before P (ls O))) (ls O).
Proof. intros E. split; rewrite <- E at 3; [by rewrite take_app_length|by rewrite drop_app_length]. Qed.

Lemma FindGreaterOrEqual_spec target prev : exists prev',
  FindGreaterOrEqual compare_ s target prev = Some (head (notbefore (before_key (sl_heap s) target) (ls O)), prev').
Proof.
  unfold FindGreaterOrEqual.
  destruct (Search_spec s ls Hwf (before_key (sl_heap s) target) (KeyIsAfterNode compare_ (sl_heap s) target)
    ltac:(done) (fun a b => before_key_mono _ target a b) prev) as (prev' & -> & _). by exists prev'.
Qed.

Lemma FindLessThan_spec target :
  FindLessThan compare_ s target = Some (endpoint (sl_head s) (before (before_key (sl_heap s) target) (ls O))).
Proof.
  unfold FindLessThan.
  destruct (Search_spec s ls Hwf (before_key (sl_heap s) target) _ ltac:(intros y Hy; reflexivity)
    (fun a b => before_key_mono _ target a b) (replicate kMaxHeight O)) as (prev' & E & _).
  unfold KeyIsAfterNode in E. unfold before_key in *. rewrite E. done.
Qed.

Lemma cut_at P i :
  (forall a b, node_lt (sl_heap s) a b -> P b = true -> P a = true) ->
  (forall j y, ls O !! j = Some y -> (j < i)%nat -> P y = true) ->
  (forall y, ls O !! i = Some y -> P y = false) ->
  take i (ls O) = before P (ls O) /\ drop i (ls O) = notbefore P (ls O).
Proof.
  intros Hm Hb Ha. apply (level_cut s ls Hwf P Hm O).
  - by rewrite take_drop.
  - apply Forall_lookup. intros j y Hj. apply lookup_take_Some in Hj as [Hj Hlt]. by apply (Hb j).
  - destruct (ls O !! i) as [y|] eqn:E; [rewrite (drop_S _ _ _ E); by apply Ha|].
    by rewrite drop_ge by (by apply lookup_ge_None).
Qed.

(** [Seek] goes to the first key that is not before the target. *)
Lemma Iter_Seek_spec target i :
  (forall j k, keys s ls !! j = Some k -> (j < i)%nat -> compare_ k target = Lt) ->
  (forall k, keys s ls !! i = Some k -> compare_ k target <> Lt) ->
  Iter_Seek compare_ s target = Some (ls O !! i).
Proof.
  intros Hb Ha. unfold Iter_Seek. destruct (FindGreaterOrEqual_spec target []) as (prev' & ->).
  cbn [fmap option_fmap option_map fst]. f_equal.
  destruct (cut_at (before_key (sl_heap s) target) i) as [_ <-].
  - intros a b. apply before_key_mono.
  - intros j y Hj Hlt. destruct (wf_keys _ _ Hwf y) as [k Ek]; [by eapply list_elem_of_lookup_2|].
    unfold before_key, KeyIsAfterNode. rewrite Ek.
    assert (E : compare_ k target = Lt) by (apply (Hb j); [rewrite keys_lookup, Hj; done|done]). by rewrite E.
  - intros y Hj. destruct (wf_keys _ _ Hwf y) as [k Ek]; [by eapply list_elem_of_lookup_2|].
    unfold before_key, KeyIsAfterNode. rewrite Ek. specialize (Ha k).
    rewrite keys_lookup, Hj in Ha. specialize (Ha Ek). by destruct (compare_ k target).
  - by rewrite head_drop.
Qed.

Lemma Iter_Prev_spec i y : ls O !! i = Some y ->
  Iter_Prev compare_ s (Some y) = Some (match i with O => None | S j => ls O !! j end).
Proof.
  intros Hy. destruct (wf_keys _ _ Hwf y) as [k Ek]; [by eapply list_elem_of_lookup_2|].
  unfold Iter_Prev, Iter_key. cbn [mbind option_bind]. rewrite Ek, FindLessThan_spec.
  cbn [fmap option_fmap option_map]. f_equal.
  rewrite endpoint_iter by (intros z; unfold before; rewrite list_elem_of_filter; tauto).
  destruct (cut_at (before_key (sl_heap s) k) i) as [<- _].
  - intros a b. apply before_key_mono.
  - intros j z Hj Hlt. unfold before_key, KeyIsAfterNode.
    destruct (StronglySorted_lookup _ _ _ _ _ _ (wf_sorted _ _ Hwf) Hj Hy Hlt) as (k1 & k2 & E1 & E2 & E3).
    rewrite E1. rewrite Ek in E2. injection E2 as <-. by rewrite E3.
  - intros z Hz. rewrite Hy in Hz. injection Hz as <-. unfold before_key, KeyIsAfterNode.
    by rewrite Ek, key_refl.
  - destruct i as [|i]; [done|]. destruct (lookup_lt_is_Some_2 (ls O) i) as [z Hz]; [apply lookup_lt_Some in Hy; lia|].
    by rewrite (take_S_r _ _ _ Hz), last_snoc, Hz.
Qed.

Lemma Iter_SeekToLast_spec : Iter_SeekToLast s = Some (last (ls O)).
Proof.
  unfold Iter_SeekToLast, FindLast.
  destruct (Search_spec s ls Hwf (fun _ => true) (fun next => match next with None => false | Some _ => true end)
    ltac:(done) ltac:(done) (replicate kMaxHeight O)) as (prev' & -> & _).
  cbn [fmap option_fmap option_map fst]. unfold before. rewrite filter_all by (by apply Forall_true).
  f_equal. by apply endpoint_iter.
Qed.

Lemma Contains_spec key : Contains compare_ s key = Some (bool_decide (Exists (fun k => compare_ k key = Eq) (keys s ls))).
Proof.
  unfold Contains. destruct (FindGreaterOrEqual_spec key []) as (prev' & ->).
  set (P := before_key (sl_heap s) key).
  pose proof (level_split s ls Hwf P (fun a b => before_key_mono _ key a b) O) as Hsplit.
  destruct (before_prefix P (eq_sym Hsplit)) as [_ E]. set (i := length (before P (ls O))) in *.
  assert (Hbefore : forall j k, keys s ls !! j = Some k -> (j < i)%nat -> compare_ k key = Lt).
  { intros j k Hj Hlt. rewrite keys_lookup in Hj. destruct (ls O !! j) as [y|] eqn:Ey; [|done]. cbn in Hj.
    rewrite Hsplit, lookup_app_l in Ey by done. apply list_elem_of_lookup_2 in Ey.
    unfold before in Ey. apply list_elem_of_filter in Ey as [HP _]. subst P.
    unfold before_key, KeyIsAfterNode in HP. rewrite Hj in HP. by destruct (compare_ k key). }
  rewrite E, head_drop. destruct (ls O !! i) as [y|] eqn:Ey.
  - destruct (wf_keys _ _ Hwf y) as [k Ek]; [by eapply list_elem_of_lookup_2|]. rewrite Ek.
    assert (Hk : keys s ls !! i = Some k) by (by rewrite keys_lookup, Ey).
    f_equal. symmetry. destruct (compare_ key k) eqn:Ecmp.
    + apply bool_decide_eq_true_2. rewrite Exists_exists. exists k. split; [by eapply list_elem_of_lookup_2|].
      by rewrite (key_antisym key k), Ecmp.
    + apply bool_decide_eq_false_2. rewrite Exists_exists. intros (k' & Hin & Heq).
      apply list_elem_of_lookup_1 in Hin as [j Hj]. destruct (decide (j < i)%nat); [by rewrite (Hbefore j k') in Heq|].
      destruct (decide (j = i)) as [->|].
      * rewrite Hk in Hj. injection Hj as <-. rewrite (key_antisym key k), Ecmp in Heq. done.
      * pose proof (StronglySorted_lookup _ _ i j _ _ keys_sorted Hk Hj ltac:(lia)) as Hlt. cbn in Hlt.
        by rewrite (key_antisym key k'), (key_lt_trans key k k' Ecmp Hlt) in Heq.
    + exfalso. assert (HP : P y = true) by (subst P; unfold before_key, KeyIsAfterNode; by rewrite Ek, (key_antisym key k), Ecmp).
      assert (Hin : y ∈ notbefore P (ls O)).
      { rewrite E. apply list_elem_of_lookup. exists O. by rewrite lookup_drop, Nat.add_0_r. }
      unfold notbefore in Hin. apply list_elem_of_filter in Hin as [? _]. congruence.
  - f_equal. symmetry. apply bool_decide_eq_false_2. rewrite Exists_exists. intros (k' & Hin & Heq).
    apply list_elem_of_lookup_1 in Hin as [j Hj]. rewrite (Hbefore j k' Hj) in Heq; [done|].
    apply lookup_lt_Some in Hj. rewrite keys_length in Hj. apply lookup_ge_None in Ey. lia.
Qed.
End Read.

(** ** The list as a sorted list of keys *)

Definition represents (s : SkipList K) (l : list K) : Prop := exists ls, wf s ls /\ keys s ls = l.

(** The sorted list with a key more. *)
Definition insert_key (key : K) (l : list K) : list K :=
  filter (fun k => compare_ k key = Lt) l ++ key :: filter (fun k => compare_ k key <> Lt) l.

Lemma represents_make : represents SkipList_make [].
Proof. exists (fun _ => []). split; [apply make_wf|done]. Qed.

Lemma Insert_upto_represents s l key links :
  represents s l -> Forall (fun k => compare_ k key <> Eq) l ->
  exists s', Insert_upto compare_ links s key = Some s' /\
    represents s' (if decide (links = O) then l else insert_key key l).
Proof.
  intros (ls & Hwf & <-) Hl. destruct (Insert_upto_spec s ls key links Hwf Hl) as (s' & ls' & E & Hwf' & Hk).
  exists s'. split; [done|]. by exists ls'.
Qed.
End Proofs.

(** C23: a list that represents the sorted keys [l] takes a key that is not
    there: [Insert] returns, and the list then represents [l] with the key in
    its place.  Stopped after any number of its links, it represents [l] before
    the lowest link is stored and the new keys after it: a reader that runs
    meanwhile finds one or the other.  [Contains] answers by the keys. *)
Theorem skiplist_insert {K : Type} (compare_ : K -> K -> comparison) {Hord : KeyOrder compare_}
    (s : SkipList K) (l : list K) (key : K) :
  represents compare_ s l -> Forall (fun k => compare_ k key <> Eq) l ->
  (exists s', Insert compare_ s key = Some s' /\ represents compare_ s' (insert_key compare_ key l) /\
     Contains compare_ s' key = Some true) /\
  (forall links, exists s', Insert_upto compare_ links s key = Some s' /\
     let l' := if decide (links = O) then l else insert_key compare_ key l in
     represents compare_ s' l' /\ StronglySorted (fun a b => compare_ a b = Lt) l' /\
     forall k, Contains compare_ s' k = Some (bool_decide (Exists (fun k' => compare_ k' k = Eq) l'))).
Proof.
  intros Hr Hl. assert (Hall : forall links, exists s', Insert_upto compare_ links s key = Some s' /\
     let l' := if decide (links = O) then l else insert_key compare_ key l in
     represents compare_ s' l' /\ StronglySorted (fun a b => compare_ a b = Lt) l' /\
     forall k, Contains compare_ s' k = Some (bool_decide (Exists (fun k' => compare_ k' k = Eq) l'))).
  { intros links. destruct (Insert_upto_represents compare_ s l key links Hr Hl) as (s' & E & Hr').
    exists s'. split; [done|]. cbn zeta. split; [done|]. destruct Hr' as (ls & Hwf & <-).
    split; [by apply keys_sorted|]. intros k. by apply Contains_spec. }
  split; [|done]. destruct (Hall kMaxHeight) as (s' & E & H1 & _ & H3). exists s'. split; [exact E|].
  rewrite decide_False in * by done. split; [done|]. rewrite H3. f_equal. apply bool_decide_eq_true_2.
  rewrite Exists_exists. exists key. split; [|by apply key_refl].
  unfold insert_key. apply elem_of_app. right. constructor.
Qed.

#[export] Instance Z_KeyOrder : KeyOrder Z.compare.
Proof.
  split; intros; [by rewrite Z.compare_antisym|].
  rewrite Z.compare_le_iff in *. lia.
Qed.

Lemma skiplist_insert_witness :
  (exists s', Insert Z.compare SkipList_make 5 = Some s' /\ represents Z.compare s' (insert_key Z.compare 5 []) /\
     Contains Z.compare s' 5 = Some true) /\
  (forall links, exists s', Insert_upto Z.compare links SkipList_make 5 = Some s' /\
     let l' := if decide (links = O) then [] else insert_key Z.compare 5 [] in
     represents Z.compare s' l' /\ StronglySorted (fun a b => Z.compare a b = Lt) l' /\
     forall k, Contains Z.compare s' k = Some (bool_decide (Exists (fun k' => Z.compare k' k = Eq) l'))).
Proof.
  apply (skiplist_insert Z.compare SkipList_make [] 5); [|constructor].
  exact (represents_make Z.compare).
Defined.

(** An iterator on the list of [l] is at position [i]. *)
Definition cursor {K} (compare_ : K -> K -> comparison) (s : SkipList K) (l : list K) (n : SIterator) (i : nat) : Prop :=
  exists ls, wf compare_ s ls /\ keys s ls = l /\ n = ls O !! i.

(** An iterator is a cursor on the keys: [SeekToFirst], [SeekToLast] and
    [Seek] return, the first at position 0, the second at the last position, the
    third at the first key that is not before the target; [Next] and [Prev] move
    by one, and [Prev] at the first key makes the iterator invalid. *)
Theorem skiplist_iterator {K : Type} (compare_ : K -> K -> comparison) {Hord : KeyOrder compare_}
    (s : SkipList K) (l : list K) :
  represents compare_ s l ->
  cursor compare_ s l (Iter_SeekToFirst s) 0 /\
  (exists n, Iter_SeekToLast s = Some n /\ cursor compare_ s l n (length l - 1)) /\
  (forall target i, (forall j k, l !! j = Some k -> (j < i)%nat -> compare_ k target = Lt) ->
     (forall k, l !! i = Some k -> compare_ k target <> Lt) ->
     exists n, Iter_Seek compare_ s target = Some n /\ cursor compare_ s l n i) /\
  (forall n i, cursor compare_ s l n i -> Iter_key s n = l !! i /\ Iter_Valid n = bool_decide (is_Some (l !! i))) /\
  (forall n i, cursor compare_ s l n i -> (i < length l)%nat ->
     cursor compare_ s l (Iter_Next s n) (S i) /\
     exists n', Iter_Prev compare_ s n = Some n' /\ match i with O => n' = None | S j => cursor compare_ s l n' j end).
Proof.
  intros (ls & Hwf & <-). rewrite (keys_length compare_ s ls Hwf). split; [|split; [|split; [|split]]].
  - exists ls. split; [done|]. split; [done|]. by eapply Iter_SeekToFirst_spec.
  - exists (last (ls O)). split; [by eapply Iter_SeekToLast_spec|]. exists ls. split; [done|]. split; [done|].
    by rewrite last_lookup, Nat.sub_1_r.
  - intros target i Hb Ha. exists (ls O !! i). split; [by apply Iter_Seek_spec|]. by exists ls.
  - intros n i (ls' & Hwf' & Hk & ->). rewrite <- Hk, (keys_lookup compare_ s ls' Hwf'). split; [done|].
    destruct (ls' O !! i) as [y|] eqn:Ey; cbn.
    + destruct (wf_keys _ _ _ Hwf' y) as [k Ek]; [by eapply list_elem_of_lookup_2|].
      rewrite Ek. by rewrite bool_decide_eq_true_2.
    + done.
  - intros n i (ls' & Hwf' & Hk & ->) Hi. rewrite <- (keys_length compare_ s ls Hwf), <- Hk, (keys_length compare_ s ls' Hwf') in Hi.
    destruct (lookup_lt_is_Some_2 _ _ Hi) as [y Hy]. rewrite Hy. split.
    + exists ls'. split; [done|]. split; [done|]. by eapply Iter_Next_spec.
    + eexists. split; [by eapply Iter_Prev_spec|]. destruct i as [|i]; [done|]. by exists ls'.
Qed.

Definition sample_list : SkipList Z :=
  default SkipList_make (fold_left (fun s k => s ≫= fun s => Insert Z.compare s k) [5; 3; 9] (Some SkipList_make)).

Lemma sample_represents : represents Z.compare sample_list [3; 5; 9].
Proof.
  assert (H : forall s l k, represents Z.compare s l -> Forall (fun k' => Z.compare k' k <> Eq) l ->
    represents Z.compare (default s (Insert Z.compare s k)) (insert_key Z.compare k l)).
  { intros s l k Hr Hl. destruct (Insert_upto_represents Z.compare s l k kMaxHeight Hr Hl) as (s' & E & Hr').
    unfold Insert. by rewrite E. }
  assert (H1 := H _ _ 5 (represents_make Z.compare) ltac:(constructor)).
  assert (H2 := H _ _ 3 H1 ltac:(by repeat constructor)).
  assert (H3 := H _ _ 9 H2 ltac:(by repeat constructor)).
  vm_compute in H3 |- *. exact H3.
Qed.

Lemma skiplist_iterator_witness :
  cursor Z.compare sample_list [3; 5; 9] (Iter_SeekToFirst sample_list) 0 /\
  (exists n, Iter_Seek Z.compare sample_list 4 = Some n /\ cursor Z.compare sample_list [3; 5; 9] n 1).
Proof.
  destruct (skiplist_iterator Z.compare sample_list [3; 5; 9] sample_represents) as (H1 & _ & H3 & _).
  split; [exact H1|]. apply (H3 4 1%nat).
  - intros [|j] k Hj Hlt; [injection Hj as <-; reflexivity|lia].
  - intros k [= <-]. discriminate.
Defined.

(** The generator steps through [16807 * seed mod (2^31 - 1)] without a
    division and stays in [1, 2^31 - 2]; the height of a node is in [1, 12],
    whatever it draws. *)
Theorem random_height_bounds seed :
  1 <= seed < 2 ^ 31 - 1 ->
  Random_Next seed = (16807 * seed) mod (2 ^ 31 - 1) /\ 1 <= Random_Next seed < 2 ^ 31 - 1 /\
  (1 <= fst (RandomHeight seed) <= kMaxHeight)%nat /\ 1 <= Random_make seed < 2 ^ 31 - 1.
Proof.
  intros Hs. destruct (Random_Next_lehmer seed Hs) as [E H]. split; [exact E|]. split; [exact H|].
  split; [apply RandomHeight_range|apply Random_make_range].
Qed.

Lemma random_height_bounds_witness :
  Random_Next 2147483646 = (16807 * 2147483646) mod (2 ^ 31 - 1) /\ 1 <= Random_Next 2147483646 < 2 ^ 31 - 1 /\
  (1 <= fst (RandomHeight 2147483646) <= kMaxHeight)%nat /\ 1 <= Random_make 2147483646 < 2 ^ 31 - 1.
Proof. apply (random_height_bounds 2147483646). lia. Defined.
