(* ===== verification/MemTable.v ===== *)
(** * MemTable: the table of recent writes

    Models [db/memtable.h] and [db/memtable.cpp]: entries of length-prefixed
    internal keys and values in a skip list, in memory of an arena.  A
    [const char*] into the arena is the bytes from there on.  The searches of the
    skip list return an option, [None] when they run out of fuel, which the
    theorems exclude. *)

From S2P Require Import Prelude Coding Slice Comparator DbFormat WriteBatch Arena Iterator.
From S2P Require SkipList.

(** ** Encoded entries *)

(** [GetVarint32Ptr(p, p + 5, &len)] and the bytes from the end of the varint;
    on a corrupted entry, which the source excludes, [Slice(NULL, len)]. *)
Definition GetLengthPrefixedSlice (data : bytes) : bytes * bytes :=
  match GetVarint32Ptr (take 5 data) with
  | Some (len, q) =>
      let p := drop (length (take 5 data) - length q) data in
      (take (Z.to_nat len) p, drop (Z.to_nat len) p)
  | None => ([], [])
  end.

Definition EncodeKey (target : bytes) : bytes :=
  PutVarint32 [] (u32 (size_of target)) ++ target.

Record MemTable : Type := mkMemTable {
  refs_ : Z;
  arena_ : Arena;
  table_ : SkipList.SkipList bytes
}.

(** [Unref] gives [None] when it deletes the table. *)
Definition Ref (m : MemTable) : MemTable := mkMemTable (refs_ m + 1) (arena_ m) (table_ m).
Definition Unref (m : MemTable) : option MemTable :=
  let refs := refs_ m - 1 in
  if refs <=? 0 then None else Some (mkMemTable refs (arena_ m) (table_ m)).

Definition ApproximateMemoryUsage (m : MemTable) : Z := MemoryUsage (arena_ m).

Section MemTable.
Context (new_array : list (Z * Z) -> Z -> Z) (comparator : Comparator).

(** [MemTable::KeyComparator]; [comparator] is the user's. *)
Definition KeyComparator (aptr bptr : bytes) : comparison :=
  InternalKey_Compare comparator (fst (GetLengthPrefixedSlice aptr)) (fst (GetLengthPrefixedSlice bptr)).

(** [sizeof(Node) + sizeof(port::AtomicPointer) * (height - 1)]. *)
Definition node_size (height : nat) : Z := 8 + 4 * (Z.of_nat height - 1).

Definition MemTable_make : MemTable :=
  let '(_, arena) := AllocateAligned new_array (node_size SkipList.kMaxHeight) Arena_make in
  mkMemTable 0 arena SkipList.SkipList_make.

(** The bytes that [Add] writes to [buf]. *)
Definition encode_entry (s : Z) (type : ValueType) (key value : bytes) : bytes :=
  let internal_key_size := usize (size_of key + 8) in
  EncodeVarint32 internal_key_size ++ key ++
  EncodeFixed64 (Z.lor (u64 (Z.shiftl s 8)) (value_type_code type)) ++
  EncodeVarint32 (u32 (size_of value)) ++ value.

Definition encoded_len (key value : bytes) : Z :=
  let internal_key_size := usize (size_of key + 8) in
  usize (VarintLength internal_key_size + internal_key_size + VarintLength (size_of value) + size_of value).

Definition Add (s : Z) (type : ValueType) (key value : bytes) (m : MemTable) : option MemTable :=
  let '(_, arena) := Allocate new_array (encoded_len key value) (arena_ m) in
  let height := fst (SkipList.RandomHeight (SkipList.sl_rnd (table_ m))) in
  let '(_, arena) := AllocateAligned new_array (node_size height) arena in
  table ← SkipList.Insert KeyComparator (table_ m) (encode_entry s type key value);
  Some (mkMemTable (refs_ m) arena table).

(** What [Get] does with the entry that its search finds, of a user key: the
    result, [*value] and [*s], which the caller initialised. *)
Definition read_entry (user_key entry : bytes) (value : bytes) (s : Status) : bool * bytes * Status :=
  match GetVarint32Ptr (take 5 entry) with
  | Some (key_length, q) =>
      let key_ptr := drop (length (take 5 entry) - length q) entry in
      let user_length := Z.to_nat (usize (key_length - 8)) in
      match Compare comparator (take user_length key_ptr) user_key with
      | Eq =>
          let tag := DecodeFixed64 (drop user_length key_ptr) in
          let t := Z.land tag 0xff in
          if t =? value_type_code kTypeValue then
            (true, fst (GetLengthPrefixedSlice (drop (Z.to_nat key_length) key_ptr)), s)
          else if t =? value_type_code kTypeDeletion then (true, value, NotFound [] [])
          else (false, value, s)
      | _ => (false, value, s)
      end
  | None => (false, value, s)
  end.

Definition Get (key : LookupKey) (m : MemTable) (value : bytes) (s : Status) : option (bool * bytes * Status) :=
  let memkey := LookupKey_memtable_key key in
  iter ← SkipList.Iter_Seek KeyComparator (table_ m) memkey;
  Some match SkipList.Iter_key (table_ m) iter with
       | Some entry => read_entry (LookupKey_user_key key) entry value s
       | None => (false, value, s)
       end.

(** ** Iterators *)

Record MemTableIterator : Type := mkMemTableIterator {
  list_ : SkipList.SkipList bytes;
  iter_ : SkipList.SIterator
}.

Definition NewIterator (m : MemTable) : MemTableIterator := mkMemTableIterator (table_ m) None.

(** An iterator stays where it is when a search runs out of fuel. *)
Definition move (it : MemTableIterator) (n : option SkipList.SIterator) : MemTableIterator :=
  mkMemTableIterator (list_ it) (default (iter_ it) n).

Definition MemTableIterator_key (it : MemTableIterator) : bytes :=
  match SkipList.Iter_key (list_ it) (iter_ it) with
  | Some entry => fst (GetLengthPrefixedSlice entry)
  | None => []
  end.

Definition MemTableIterator_value (it : MemTableIterator) : bytes :=
  match SkipList.Iter_key (list_ it) (iter_ it) with
  | Some entry => fst (GetLengthPrefixedSlice (snd (GetLengthPrefixedSlice entry)))
  | None => []
  end.

#[export] Instance MemTableIterator_Iterator : Iterator MemTableIterator := {|
  Valid it := SkipList.Iter_Valid (iter_ it);
  key := MemTableIterator_key;
  value := MemTableIterator_value;
  status _ := OK;
  SeekToFirst it := move it (Some (SkipList.Iter_SeekToFirst (list_ it)));
  SeekToLast it := move it (SkipList.Iter_SeekToLast (list_ it));
  Seek k it := move it (SkipList.Iter_Seek KeyComparator (list_ it) (EncodeKey k));
  Next it := move it (Some (SkipList.Iter_Next (list_ it) (iter_ it)));
  Prev it := move it (SkipList.Iter_Prev KeyComparator (list_ it) (iter_ it))
|}.
End MemTable.

(** ** Reading entries back *)

(** The pointer past a varint at the start of an entry. *)
Lemma GetVarint32Ptr_entry v rest : 0 <= v < 2 ^ 32 ->
  exists q, GetVarint32Ptr (take 5 (EncodeVarint32 v ++ rest)) = Some (v, q) /\
    drop (length (take 5 (EncodeVarint32 v ++ rest)) - length q) (EncodeVarint32 v ++ rest) = rest.
Proof.
  intros Hv. pose proof (length_EncodeVarint32 v) as Hl.
  rewrite take_app_ge by lia. exists (take (5 - length (EncodeVarint32 v)) rest).
  rewrite <- GetVarint32_Ptr, GetVarint32_Encode by done. split; [done|].
  apply drop_app_exact. rewrite length_app. lia.
Qed.

Lemma GetLengthPrefixedSlice_entry v rest : size_of v < 2 ^ 32 ->
  GetLengthPrefixedSlice (length_prefixed v ++ rest) = (v, rest).
Proof.
  intros Hv. pose proof (size_of_nonneg v). unfold GetLengthPrefixedSlice, length_prefixed.
  rewrite <- app_assoc. destruct (GetVarint32Ptr_entry (u32 (size_of v)) (v ++ rest) (u32_range _)) as (q & -> & ->).
  rewrite u32_small by lia. unfold size_of. rewrite Nat2Z.id. by rewrite take_app_length, drop_app_length.
Qed.

Lemma EncodeKey_eq target : EncodeKey target = length_prefixed target.
Proof. done. Qed.

(** ** Entries *)

Record entry : Type := mkEntry { e_seq : Z; e_type : ValueType; e_key : bytes; e_value : bytes }.

#[export] Instance entry_eq_dec : EqDecision entry.
Proof. solve_decision. Defined.

Definition fits (e : entry) : Prop :=
  0 <= e_seq e <= kMaxSequenceNumber /\ size_of (e_key e) + 8 < 2 ^ 32 /\ size_of (e_value e) < 2 ^ 32.
Definition internal_key (e : entry) : bytes := InternalKey_make (e_key e) (e_seq e) (e_type e).
Definition e_pair (e : entry) : bytes * bytes := (internal_key e, e_value e).
Definition encode (e : entry) : bytes := encode_entry (e_seq e) (e_type e) (e_key e) (e_value e).

Lemma encode_eq e : fits e -> encode e = length_prefixed (internal_key e) ++ length_prefixed (e_value e).
Proof.
  intros (Hs & Hk & Hv). pose proof (size_of_nonneg (e_key e)). pose proof (size_of_nonneg (e_value e)).
  unfold encode, encode_entry, internal_key.
  rewrite InternalKey_make_PutFixed64. unfold length_prefixed, PutFixed64, PackSequenceAndType.
  rewrite size_of_app, size_of_EncodeFixed64, usize_small, !u32_small by lia. by rewrite <- !app_assoc.
Qed.

Lemma size_internal_key e : fits e -> size_of (internal_key e) = size_of (e_key e) + 8.
Proof.
  intros _. unfold internal_key. rewrite InternalKey_make_PutFixed64. unfold PutFixed64. by rewrite size_of_app, size_of_EncodeFixed64.
Qed.

Lemma entry_key e : fits e -> GetLengthPrefixedSlice (encode e) = (internal_key e, length_prefixed (e_value e)).
Proof.
  intros Hf. rewrite encode_eq by done. apply GetLengthPrefixedSlice_entry.
  rewrite size_internal_key by done. apply Hf.
Qed.

Lemma entry_value e : fits e ->
  fst (GetLengthPrefixedSlice (snd (GetLengthPrefixedSlice (encode e)))) = e_value e.
Proof.
  intros Hf. rewrite entry_key by done. cbn [snd]. rewrite <- (app_nil_r (length_prefixed (e_value e))).
  by rewrite GetLengthPrefixedSlice_entry by apply Hf.
Qed.

(** The size that [Add] allocates is that of the entry it writes. *)
Lemma encoded_len_eq e : fits e -> size_of (e_key e) + size_of (e_value e) < 2 ^ 32 - 32 ->
  encoded_len (e_key e) (e_value e) = size_of (encode e).
Proof.
  intros (Hs & Hk & Hv) Hsz. unfold encoded_len, encode, encode_entry.
  pose proof (size_of_nonneg (e_key e)). pose proof (size_of_nonneg (e_value e)).
  rewrite (usize_small (size_of (e_key e) + 8)) by lia. rewrite (u32_small (size_of (e_value e))) by lia.
  rewrite !VarintLength_Encode by lia.
  rewrite <- (EncodeVarint32_64 (size_of (e_key e) + 8)), <- (EncodeVarint32_64 (size_of (e_value e))) by lia.
  rewrite !size_of_app, size_of_EncodeFixed64.
  pose proof (length_EncodeVarint32 (size_of (e_key e) + 8)). pose proof (length_EncodeVarint32 (size_of (e_value e))).
  unfold usize. rewrite Z.mod_small by (unfold size_of in *; lia). lia.
Qed.

(** ** The table as a list of entries in order *)

Section Table.
Context (comparator : Comparator) `{!ComparatorLaws comparator}.

Abbreviation ikc := (InternalKeyComparator comparator).
Abbreviation kcmp := (KeyComparator comparator).

#[export] Instance KeyComparator_order : SkipList.KeyOrder kcmp.
Proof.
  split.
  - intros a b. apply (compare_antisym (c := ikc)).
  - intros a b c. apply (compare_le_trans (c := ikc)).
Qed.

Definition cmp (a b : entry) : comparison := InternalKey_Compare comparator (internal_key a) (internal_key b).

Lemma KeyComparator_encode a b : fits a -> fits b -> kcmp (encode a) (encode b) = cmp a b.
Proof. intros Ha Hb. unfold KeyComparator. by rewrite !entry_key. Qed.

Definition mem_rep (m : MemTable) (es : list entry) : Prop :=
  Forall fits es /\ SkipList.represents kcmp (table_ m) (map encode es).

Definition insert_entry (e : entry) (es : list entry) : list entry :=
  filter (fun a => cmp a e = Lt) es ++ e :: filter (fun a => cmp a e <> Lt) es.

Lemma insert_entry_perm e es : insert_entry e es ≡ₚ e :: es.
Proof. unfold insert_entry. rewrite <- Permutation_middle. f_equiv. apply filter_app_complement. Qed.

Lemma map_encode_filter (P : bytes -> Prop) (Q : entry -> Prop) `{!forall x, Decision (P x)} `{!forall x, Decision (Q x)} es :
  Forall (fun e => P (encode e) <-> Q e) es -> filter P (map encode es) = map encode (filter Q es).
Proof.
  induction 1 as [|e es He Hes IH]; [done|]. cbn [map]. rewrite !filter_cons.
  destruct (decide (P (encode e))), (decide (Q e)); try tauto; cbn [map]; by rewrite IH.
Qed.

Lemma insert_key_encode e es : fits e -> Forall fits es ->
  SkipList.insert_key kcmp (encode e) (map encode es) = map encode (insert_entry e es).
Proof.
  intros He Hes. unfold SkipList.insert_key, insert_entry. rewrite map_app. cbn [map].
  rewrite (map_encode_filter _ (fun a => cmp a e = Lt)), (map_encode_filter _ (fun a => cmp a e <> Lt)); [done| |];
    (eapply Forall_impl; [exact Hes|]); intros a Ha; simpl; by rewrite KeyComparator_encode.
Qed.

Lemma make_rep new_array : mem_rep (MemTable_make new_array) [].
Proof.
  split; [constructor|]. unfold MemTable_make. destruct (AllocateAligned _ _ _). apply SkipList.represents_make.
Qed.

Lemma table_Add_rep new_array m es e : mem_rep m es -> fits e -> Forall (fun a => cmp a e <> Eq) es ->
  exists m', Add new_array comparator (e_seq e) (e_type e) (e_key e) (e_value e) m = Some m' /\
    mem_rep m' (insert_entry e es).
Proof.
  intros [Hes Hr] He Hne. unfold Add. destruct (Allocate _ _ _) as [p a1]. destruct (AllocateAligned _ _ _) as [p' a2].
  destruct (SkipList.Insert_upto_represents kcmp (table_ m) (map encode es) (encode e) SkipList.kMaxHeight Hr) as (t & E & Ht).
  { apply Forall_forall. intros x Hx. apply list_elem_of_fmap in Hx as (a & -> & Ha).
    rewrite Forall_forall in Hne, Hes. rewrite KeyComparator_encode by auto. by apply Hne. }
  change (encode_entry (e_seq e) (e_type e) (e_key e) (e_value e)) with (encode e).
  unfold SkipList.Insert. rewrite E. eexists. split; [reflexivity|]. split.
  - rewrite insert_entry_perm. by constructor.
  - rewrite decide_False, insert_key_encode in Ht by done. exact Ht.
Qed.

(** The entries of a table are in the order of the internal comparator. *)
Lemma rep_sorted m es : mem_rep m es -> StronglySorted (fun a b => cmp a b = Lt) es.
Proof.
  intros [Hes (ls & Hwf & Hk)]. pose proof (SkipList.keys_sorted _ _ _ Hwf) as Hs. rewrite Hk in Hs.
  clear Hk Hwf. induction es as [|e es IH]; [constructor|]. cbn [map] in Hs.
  inversion_clear Hs as [|?? Hs' He]. apply Forall_cons in Hes as [Hfe Hfes]. constructor; [by apply IH|].
  apply Forall_forall. intros a Ha. rewrite Forall_forall in He. rewrite Forall_forall in Hfes.
  rewrite <- KeyComparator_encode by auto. apply He. apply list_elem_of_fmap. by exists a.
Qed.

(** ** Reading *)

(** Where a search for an internal key ends. *)
Lemma table_Seek_rep t ls es target i : SkipList.wf kcmp t ls -> SkipList.keys t ls = map encode es -> Forall fits es ->
  size_of target < 2 ^ 32 ->
  (forall j e, es !! j = Some e -> (j < i)%nat -> InternalKey_Compare comparator (internal_key e) target = Lt) ->
  (forall e, es !! i = Some e -> InternalKey_Compare comparator (internal_key e) target <> Lt) ->
  SkipList.Iter_Seek kcmp t (length_prefixed target) = Some (ls O !! i).
Proof.
  intros Hwf Hk Hes Hsz Hb Ha.
  assert (Hcmp : forall e, fits e -> kcmp (encode e) (length_prefixed target) = InternalKey_Compare comparator (internal_key e) target).
  { intros e He. unfold KeyComparator. rewrite entry_key by done.
    rewrite <- (app_nil_r (length_prefixed target)). by rewrite GetLengthPrefixedSlice_entry. }
  rewrite Forall_lookup in Hes. apply (SkipList.Iter_Seek_spec kcmp t ls Hwf); rewrite Hk.
  - intros j k Hj Hlt. apply list_lookup_fmap_Some in Hj as (e & -> & He).
    rewrite Hcmp by eauto. by apply (Hb j).
  - intros k Hj. apply list_lookup_fmap_Some in Hj as (e & -> & He).
    rewrite Hcmp by eauto. by apply Ha.
Qed.

(** The entry of a user key that a read at [s] returns: the one with the highest
    sequence number not above [s]. *)
Definition visible (u : bytes) (s : Z) (e : entry) : bool :=
  match Compare comparator (e_key e) u with Eq => e_seq e <=? s | _ => false end.
Definition newest (u : bytes) (s : Z) (es : list entry) : option entry :=
  fold_left (fun acc e =>
    if visible u s e && match acc with None => true | Some a => e_seq a <? e_seq e end then Some e else acc) es None.

(** What [Get] answers then. *)
Definition outcome (r : option entry) (value : bytes) (s : Status) : bool * bytes * Status :=
  match r with
  | None => (false, value, s)
  | Some e => match e_type e with
              | kTypeValue => (true, e_value e, s)
              | kTypeDeletion => (true, value, NotFound [] [])
              end
  end.

Definition is_newest (u : bytes) (s : Z) (es : list entry) (r : option entry) : Prop :=
  match r with
  | Some e => e ∈ es /\ visible u s e = true /\ forall a, a ∈ es -> visible u s a = true -> e_seq a <= e_seq e
  | None => forall a, a ∈ es -> visible u s a = false
  end.

Lemma newest_is_newest u s es : is_newest u s es (newest u s es).
Proof.
  unfold newest. induction es as [|e es IH] using rev_ind; [intros a Ha; by apply elem_of_nil in Ha|].
  rewrite fold_left_app. cbn [fold_left]. set (r := fold_left _ es None) in *.
  destruct (visible u s e) eqn:Hv; cbn [andb].
  - destruct r as [a|]; cbn in IH |- *.
    + destruct IH as (Ha & Hva & Hm). destruct (Z.ltb_spec (e_seq a) (e_seq e)); cbn;
        (split; [set_solver|]; split; [done|]; intros b Hb Hvb; apply elem_of_app in Hb as [Hb|Hb];
         [specialize (Hm b Hb Hvb); lia|apply list_elem_of_singleton in Hb as ->; lia]).
    + split; [set_solver|]. split; [done|]. intros b Hb Hvb. apply elem_of_app in Hb as [Hb|Hb];
        [by rewrite IH in Hvb|apply list_elem_of_singleton in Hb as ->; lia].
  - destruct r as [a|]; cbn in IH |- *.
    + destruct IH as (Ha & Hva & Hm). split; [set_solver|]. split; [done|]. intros b Hb Hvb.
      apply elem_of_app in Hb as [Hb|Hb]; [by apply Hm|apply list_elem_of_singleton in Hb as ->; congruence].
    + intros b Hb. apply elem_of_app in Hb as [Hb|Hb]; [by apply IH|by apply list_elem_of_singleton in Hb as ->].
Qed.

(** No two entries of a user key have the same sequence number. *)
Definition distinct (es : list entry) : Prop :=
  forall a b, a ∈ es -> b ∈ es -> Compare comparator (e_key a) (e_key b) = Eq -> e_seq a = e_seq b -> a = b.

Lemma visible_eq u s e : visible u s e = true <-> Compare comparator (e_key e) u = Eq /\ e_seq e <= s.
Proof.
  unfold visible. destruct (Compare comparator (e_key e) u); rewrite ?Z.leb_le; split; try done; intros []; done.
Qed.

Lemma is_newest_perm u s es es' r : es ≡ₚ es' -> is_newest u s es r -> is_newest u s es' r.
Proof.
  intros Hp. destruct r as [e|]; cbn.
  - intros (He & Hv & Hm). rewrite Hp in He. split; [done|]. split; [done|]. intros a Ha. apply Hm. by rewrite Hp.
  - intros Hn a Ha. apply Hn. by rewrite Hp.
Qed.

Lemma is_newest_unique u s es es' r r' :
  distinct es -> es ≡ₚ es' -> is_newest u s es r -> is_newest u s es' r' -> r = r'.
Proof.
  intros Hd Hp Hr Hr'. destruct r as [e|], r' as [e'|]; cbn in *; [f_equal| | |done].
  - destruct Hr as (He & Hv & Hm), Hr' as (He' & Hv' & Hm'). rewrite <- Hp in He'.
    pose proof (Hm e' He' Hv'). assert (e_seq e <= e_seq e') by (apply Hm'; by rewrite <- ?Hp).
    apply visible_eq in Hv as [Hk _], Hv' as [Hk' _]. apply Hd; [done..| |lia].
    change (key_equiv comparator (e_key e) (e_key e')). transitivity u; [done|by symmetry].
  - destruct Hr as (He & Hv & _). rewrite Hr' in Hv; [done|by rewrite <- Hp].
  - destruct Hr' as (He & Hv & _). rewrite Hr in Hv; [done|by rewrite Hp].
Qed.

Lemma cmp_lookup e u s : fits e -> 0 <= s <= kMaxSequenceNumber ->
  InternalKey_Compare comparator (internal_key e) (InternalKey_make u s kTypeValue) =
  match Compare comparator (e_key e) u with
  | Eq => (s * 256 + 1 ?= e_seq e * 256 + value_type_code (e_type e))
  | r => r
  end.
Proof.
  intros (Hs & _) Hs'. pose proof (value_type_code_range (e_type e)).
  rewrite InternalKey_Compare_spec. unfold internal_key. rewrite !InternalKey_make_PutFixed64, !ExtractUserKey_PutFixed64.
  rewrite !DecodeFixed64_tag_PutFixed64 by (apply PackSequenceAndType_range; simpl; lia).
  by rewrite !PackSequenceAndType_value by (simpl; lia).
Qed.

Lemma entry_parts e : fits e -> exists q,
  GetVarint32Ptr (take 5 (encode e)) = Some (size_of (e_key e) + 8, q) /\
  drop (length (take 5 (encode e)) - length q) (encode e) = internal_key e ++ length_prefixed (e_value e).
Proof.
  intros Hf. rewrite encode_eq by done. unfold length_prefixed at 1 3 5. rewrite <- !app_assoc.
  destruct (GetVarint32Ptr_entry (u32 (size_of (internal_key e))) (internal_key e ++ length_prefixed (e_value e)) (u32_range _)) as (q & E & E').
  exists q. rewrite E, E'. split; [|done]. rewrite size_internal_key by done.
  destruct Hf as (_ & Hk & _). pose proof (size_of_nonneg (e_key e)). by rewrite u32_small by lia.
Qed.

(** The order of two entries bounds their user keys and sequence numbers. *)
Lemma cmp_user a b : cmp a b = Lt -> Compare comparator (e_key a) (e_key b) <> Gt.
Proof.
  unfold cmp, internal_key. rewrite InternalKey_Compare_spec, !InternalKey_make_PutFixed64, !ExtractUserKey_PutFixed64.
  by destruct (Compare comparator (e_key a) (e_key b)).
Qed.

Lemma cmp_same_user a b : fits a -> fits b -> Compare comparator (e_key a) (e_key b) = Eq ->
  cmp a b = (e_seq b * 256 + value_type_code (e_type b) ?= e_seq a * 256 + value_type_code (e_type a)).
Proof.
  intros (Ha & _) (Hb & _) E. unfold cmp, internal_key. rewrite !InternalKey_make_PutFixed64.
  pose proof (value_type_code_range (e_type a)). pose proof (value_type_code_range (e_type b)).
  rewrite InternalKey_Compare_same_user by (done || apply PackSequenceAndType_range; lia).
  by rewrite !PackSequenceAndType_value by lia.
Qed.

Lemma cmp_seq a b : fits a -> fits b -> Compare comparator (e_key a) (e_key b) = Eq -> cmp a b = Lt -> e_seq b <= e_seq a.
Proof.
  intros Ha Hb E H. rewrite cmp_same_user in H by done. rewrite Z.compare_lt_iff in H.
  pose proof (value_type_code_range (e_type a)). pose proof (value_type_code_range (e_type b)). lia.
Qed.

Lemma read_entry_encode e u value st : fits e ->
  read_entry comparator u (encode e) value st =
  match Compare comparator (e_key e) u with Eq => outcome (Some e) value st | _ => (false, value, st) end.
Proof.
  intros Hf. unfold read_entry. destruct (entry_parts e Hf) as (q & -> & ->). cbv zeta.
  pose proof (size_internal_key e Hf) as Hsz. destruct Hf as (Hs & Hk & Hv). pose proof (size_of_nonneg (e_key e)).
  rewrite usize_small by lia. replace (Z.to_nat (size_of (e_key e) + 8 - 8)) with (length (e_key e)) by (unfold size_of; lia).
  rewrite (drop_app_exact (Z.to_nat (size_of (e_key e) + 8))) by (rewrite <- Hsz; unfold size_of; by rewrite Nat2Z.id).
  unfold internal_key. rewrite InternalKey_make_PutFixed64. unfold PutFixed64. rewrite <- app_assoc.
  rewrite take_app_length, drop_app_length, DecodeFixed64_Encode by
    (apply PackSequenceAndType_range; [done|destruct (e_type e); simpl; lia]).
  destruct (Compare comparator (e_key e) u); try done.
  rewrite PackSequenceAndType_value by (done || destruct (e_type e); simpl; lia).
  rewrite land_255. unfold outcome. rewrite <- (app_nil_r (length_prefixed (e_value e))), GetLengthPrefixedSlice_entry by done.
  destruct (e_type e); cbn [value_type_code].
  - by replace ((e_seq e * 256 + 0) mod 256) with 0 by dlia.
  - by replace ((e_seq e * 256 + 1) mod 256) with 1 by dlia.
Qed.

Abbreviation target u s := (InternalKey_make u s kTypeValue).

(** In entries in order, the first one not before the lookup key at [s] is the newest
    visible one of the user key, if it has this user key; else there is none. *)
Lemma found_newest u s es i : Forall fits es -> StronglySorted (fun a b => cmp a b = Lt) es -> 0 <= s <= kMaxSequenceNumber ->
  (forall j e, es !! j = Some e -> (j < i)%nat -> InternalKey_Compare comparator (internal_key e) (target u s) = Lt) ->
  (forall e, es !! i = Some e -> InternalKey_Compare comparator (internal_key e) (target u s) <> Lt) ->
  is_newest u s es (e ← es !! i; match Compare comparator (e_key e) u with Eq => Some e | _ => None end).
Proof.
  intros Hes Hsort Hs Hb Ha. rewrite Forall_lookup in Hes.
  assert (Hbefore : forall a, a ∈ es -> visible u s a = true -> exists j, es !! j = Some a /\ (i <= j)%nat).
  { intros a Hin Hv. apply list_elem_of_lookup_1 in Hin as [j Hj]. exists j. split; [done|].
    destruct (decide (i <= j)%nat) as [|n]; [done|exfalso]. specialize (Hb j a Hj ltac:(lia)).
    rewrite cmp_lookup in Hb by eauto. apply visible_eq in Hv as [Hv1 Hv2]. rewrite Hv1 in Hb.
    rewrite Z.compare_lt_iff in Hb. pose proof (value_type_code_range (e_type a)). lia. }
  destruct (es !! i) as [e|] eqn:Ei; cbn [mbind option_bind].
  2: { intros a Hin. destruct (visible u s a) eqn:Hv; [|done].
       destruct (Hbefore a Hin Hv) as (j & Hj & Hle). apply lookup_ge_None in Ei. apply lookup_lt_Some in Hj. lia. }
  assert (Hfe : fits e) by eauto. specialize (Ha e eq_refl). rewrite cmp_lookup in Ha by done.
  destruct (Compare comparator (e_key e) u) eqn:Ecmp.
  - split; [by eapply list_elem_of_lookup_2|]. split.
    + apply visible_eq. split; [done|]. pose proof (value_type_code_range (e_type e)).
      rewrite Z.compare_lt_iff in Ha. lia.
    + intros a Hin Hv. destruct (Hbefore a Hin Hv) as (j & Hj & Hle). apply visible_eq in Hv as [Hv _].
      destruct (decide (j = i)) as [->|]; [rewrite Ei in Hj; by injection Hj as ->|].
      pose proof (StronglySorted_lookup _ _ _ _ _ _ Hsort Ei Hj ltac:(lia)) as Hlt.
      apply (cmp_seq e a Hfe); [by eauto| |done].
      change (key_equiv comparator (e_key e) (e_key a)). transitivity u; [done|by symmetry].
  - done.
  - intros a Hin. destruct (visible u s a) eqn:Hv; [exfalso|done].
    destruct (Hbefore a Hin Hv) as (j & Hj & Hle). apply visible_eq in Hv as [Hv _].
    destruct (decide (j = i)) as [->|]; [rewrite Ei in Hj; injection Hj as ->; congruence|].
    pose proof (StronglySorted_lookup _ _ _ _ _ _ Hsort Ei Hj ltac:(lia)) as Hlt. pose proof (cmp_user e a Hlt) as Hle'.
    apply Hle'. apply compare_gt_lt. apply (compare_le_lt_trans _ u); [by rewrite Hv|]. by apply compare_gt_lt.
Qed.

Lemma Get_rep m es u s value st : mem_rep m es -> size_of u + 8 < 2 ^ 32 -> 0 <= s <= kMaxSequenceNumber ->
  exists r, Get comparator (LookupKey_make u s) m value st = Some (outcome r value st) /\ is_newest u s es r.
Proof.
  intros Hm Hu Hs. pose proof (rep_sorted m es Hm) as Hsort. destruct Hm as [Hes (ls & Hwf & Hk)].
  destruct (LookupKey_parts u s Hu) as (_ & Huk & Hmk).
  assert (Htsz : size_of (target u s) < 2 ^ 32) by (rewrite InternalKey_make_PutFixed64; unfold PutFixed64; by rewrite size_of_app, size_of_EncodeFixed64).
  set (P := fun e => InternalKey_Compare comparator (internal_key e) (target u s) <> Lt).
  set (i := match list_find P es with Some (i, _) => i | None => length es end).
  assert (Hb : forall j e, es !! j = Some e -> (j < i)%nat -> InternalKey_Compare comparator (internal_key e) (target u s) = Lt).
  { intros j e Hj Hlt. destruct (decide (P e)) as [HP|HP]; [exfalso|by apply dec_stable in HP].
    unfold i in Hlt. destruct (list_find P es) as [[k x]|] eqn:E.
    - apply list_find_Some in E as (_ & _ & H). by apply (H j e).
    - apply list_find_None in E. rewrite Forall_lookup in E. by apply (E j e). }
  assert (Ha : forall e, es !! i = Some e -> P e).
  { intros e Hi. unfold i in Hi. destruct (list_find P es) as [[k x]|] eqn:E.
    - apply list_find_Some in E as (Hx & HP & _). congruence.
    - by rewrite lookup_ge_None_2 in Hi. }
  pose proof (found_newest u s es i Hes Hsort Hs Hb Ha) as Hnew.
  unfold Get. rewrite Hmk, Huk, (table_Seek_rep (table_ m) ls es (target u s) i Hwf Hk Hes Htsz Hb Ha).
  cbn [mbind option_bind]. unfold SkipList.Iter_key. rewrite <- (SkipList.keys_lookup _ _ _ Hwf), Hk, list_lookup_fmap.
  eexists. split; [|exact Hnew]. destruct (es !! i) as [e|] eqn:Ei; cbn [fmap option_fmap option_map mbind option_bind]; [|done].
  assert (Hfe : fits e) by (rewrite Forall_lookup in Hes; eauto).
  rewrite (read_entry_encode e u value st Hfe). by destruct (Compare comparator (e_key e) u).
Qed.

(** ** Adding entries *)

Definition add_entry (new_array : list (Z * Z) -> Z -> Z) (m : option MemTable) (e : entry) : option MemTable :=
  m ← m; Add new_array comparator (e_seq e) (e_type e) (e_key e) (e_value e) m.
Definition add_all (new_array : list (Z * Z) -> Z -> Z) (es : list entry) (m : option MemTable) : option MemTable := fold_left (add_entry new_array) es m.

Lemma distinct_perm es es' : es ≡ₚ es' -> distinct es -> distinct es'.
Proof. intros Hp Hd a b Ha Hb. rewrite <- Hp in Ha, Hb. by apply Hd. Qed.

Lemma add_all_rep new_array es : forall es0 m, mem_rep m es0 -> Forall fits es -> NoDup (es0 ++ es) -> distinct (es0 ++ es) ->
  exists m' es', add_all new_array es (Some m) = Some m' /\ mem_rep m' es' /\ es' ≡ₚ es0 ++ es.
Proof.
  induction es as [|e es IH]; intros es0 m Hm Hf Hnd Hd.
  - exists m, es0. rewrite app_nil_r. done.
  - apply Forall_cons in Hf as [Hfe Hf].
    destruct (table_Add_rep new_array m es0 e Hm Hfe) as (m1 & E1 & Hm1).
    { apply Forall_forall. intros a Ha Hc. destruct Hm as [Hes0 _]. rewrite Forall_forall in Hes0.
      assert (Hk : Compare comparator (e_key a) (e_key e) = Eq).
      { unfold cmp, internal_key in Hc. rewrite InternalKey_Compare_spec, !InternalKey_make_PutFixed64, !ExtractUserKey_PutFixed64 in Hc.
        by destruct (Compare comparator (e_key a) (e_key e)). }
      rewrite (cmp_same_user a e (Hes0 a Ha) Hfe Hk) in Hc. apply Z.compare_eq in Hc.
      pose proof (value_type_code_range (e_type a)). pose proof (value_type_code_range (e_type e)).
      assert (a = e) as -> by (apply Hd; [apply elem_of_app; by left|apply elem_of_app; right; constructor|done|lia]).
      apply NoDup_app in Hnd as (_ & Hnd & _). apply (Hnd e Ha). constructor. }
    assert (Hp : insert_entry e es0 ++ es ≡ₚ es0 ++ e :: es).
    { rewrite insert_entry_perm. simpl. apply Permutation_middle. }
    destruct (IH _ m1 Hm1 Hf) as (m' & es' & E & Hm' & Hp').
    + by rewrite Hp.
    + by eapply distinct_perm; [symmetry; exact Hp|].
    + exists m', es'. split; [|split; [done|by rewrite Hp', Hp]].
      change (add_all new_array es (Add new_array comparator (e_seq e) (e_type e) (e_key e) (e_value e) m) = Some m'). by rewrite E1.
Qed.

Lemma Get_newest m es es' u s value st : mem_rep m es' -> es' ≡ₚ es -> distinct es ->
  size_of u + 8 < 2 ^ 32 -> 0 <= s <= kMaxSequenceNumber ->
  Get comparator (LookupKey_make u s) m value st = Some (outcome (newest u s es) value st).
Proof.
  intros Hm Hp Hd Hu Hs. destruct (Get_rep m es' u s value st Hm Hu Hs) as (r & -> & Hr).
  do 2 f_equal. eapply (is_newest_unique u s es' es); [|done|exact Hr|apply newest_is_newest].
  by eapply distinct_perm; [symmetry|].
Qed.

(** ** Batches *)

Definition of_tuple (e : Z * ValueType * bytes * bytes) : entry :=
  let '(s, t, k, v) := e in mkEntry s t k v.
Definition batch (seq : Z) (ops : list BatchOp) : list entry := map of_tuple (batch_entries seq ops).
Definition op_key (op : BatchOp) : bytes := match op with OpPut k _ => k | OpDelete k => k end.

Lemma batch_cons seq op ops : batch seq (op :: ops) = of_tuple (batch_entry seq op) :: batch (seq + 1) ops.
Proof. unfold batch. by rewrite batch_entries_cons. Qed.

Lemma batch_entry_parts seq op :
  e_seq (of_tuple (batch_entry seq op)) = seq /\ e_key (of_tuple (batch_entry seq op)) = op_key op.
Proof. by destruct op. Qed.

Lemma batch_seq seq ops e : e ∈ batch seq ops -> seq <= e_seq e < seq + size_of ops.
Proof.
  revert seq. induction ops as [|op ops IH]; intros seq; [intros H; by apply elem_of_nil in H|].
  rewrite batch_cons, elem_of_cons, size_of_cons. pose proof (size_of_nonneg ops).
  intros [->|H']; [destruct (batch_entry_parts seq op) as [-> _]; lia|]. apply IH in H'. lia.
Qed.

Lemma batch_fits seq ops : 0 <= seq -> seq + size_of ops <= kMaxSequenceNumber ->
  Forall op_fits ops -> Forall (fun op => size_of (op_key op) + 8 < 2 ^ 32) ops -> Forall fits (batch seq ops).
Proof.
  revert seq. induction ops as [|op ops IH]; intros seq Hs Hmax Hf Hk; [constructor|].
  rewrite batch_cons. rewrite size_of_cons in Hmax. pose proof (size_of_nonneg ops).
  apply Forall_cons in Hf as [Hfo Hf], Hk as [Hko Hk]. constructor; [|apply IH; [lia|lia|done|done]].
  destruct op; cbn in *; unfold fits; cbn; (split; [lia|]; split; [done|]); [apply Hfo|done].
Qed.

(** The sequence numbers of a batch are new and tell its entries apart. *)
Lemma batch_apart es seq ops : NoDup es -> distinct es -> Forall (fun e => e_seq e < seq) es ->
  NoDup (es ++ batch seq ops) /\ distinct (es ++ batch seq ops).
Proof.
  revert es seq. induction ops as [|op ops IH]; intros es seq Hnd Hd Hlt; [by rewrite app_nil_r|].
  rewrite batch_cons. set (e := of_tuple (batch_entry seq op)). destruct (batch_entry_parts seq op) as [Hs _].
  fold e in Hs. rewrite Forall_forall in Hlt. replace (es ++ e :: batch (seq + 1) ops) with ((es ++ [e]) ++ batch (seq + 1) ops)
    by (by rewrite <- app_assoc). apply IH.
  - apply NoDup_app. split; [done|]. split; [|apply NoDup_singleton]. intros a Ha Hin.
    apply list_elem_of_singleton in Hin as ->. specialize (Hlt e Ha). lia.
  - intros a b Ha Hb Hk Hseq. apply elem_of_app in Ha, Hb. rewrite !list_elem_of_singleton in Ha, Hb.
    destruct Ha as [Ha| ->], Hb as [Hb| ->]; [by apply Hd| | |done].
    + specialize (Hlt a Ha). lia.
    + specialize (Hlt b Hb). lia.
  - apply Forall_app. split; [|constructor; [lia|constructor]]. apply Forall_forall. intros a Ha. specialize (Hlt a Ha). lia.
Qed.

(** The last operation of a batch on a user key. *)
Definition last_op (u : bytes) (ops : list BatchOp) : option BatchOp :=
  last (filter (fun op => Compare comparator (op_key op) u = Eq) ops).

(** [newest] on entries that come later. *)
Lemma newest_app_old u s es new : Forall (fun e => s < e_seq e) new -> newest u s (es ++ new) = newest u s es.
Proof.
  intros Hn. unfold newest. rewrite fold_left_app. generalize (fold_left (fun acc e => if visible u s e && match acc with None => true | Some a => e_seq a <? e_seq e end then Some e else acc) es None).
  induction Hn as [|e new He Hn IH]; intros r; [done|]. cbn [fold_left].
  assert (Hv : visible u s e = false).
  { destruct (visible u s e) eqn:E; [|done]. apply visible_eq in E as [_ E]. lia. }
  rewrite Hv. apply IH.
Qed.

Definition op_outcome (op : BatchOp) (value : bytes) (s : Status) : bool * bytes * Status :=
  match op with OpPut _ v => (true, v, s) | OpDelete _ => (true, value, NotFound [] []) end.

Lemma newest_app_batch u s es seq ops value st :
  Forall (fun e => e_seq e < seq) es -> seq + size_of ops <= s + 1 ->
  outcome (newest u s (es ++ batch seq ops)) value st =
  match last_op u ops with
  | Some op => op_outcome op value st
  | None => outcome (newest u s es) value st
  end.
Proof.
  revert es seq. induction ops as [|op ops IH]; intros es seq Hes Hs; [by rewrite app_nil_r|].
  rewrite batch_cons. set (e := of_tuple (batch_entry seq op)). destruct (batch_entry_parts seq op) as [Hse Hke].
  fold e in Hse, Hke. rewrite size_of_cons in Hs. pose proof (size_of_nonneg ops).
  replace (es ++ e :: batch (seq + 1) ops) with ((es ++ [e]) ++ batch (seq + 1) ops) by (by rewrite <- app_assoc).
  rewrite IH; [| |lia].
  2: { apply Forall_app. split; [|constructor; [lia|constructor]]. eapply Forall_impl; [exact Hes|]. simpl. lia. }
  unfold last_op. rewrite filter_cons. unfold newest at 1. rewrite fold_left_app. fold (newest u s es). cbn [fold_left].
  assert (Hn : match newest u s es with None => true | Some a => e_seq a <? e_seq e end = true).
  { pose proof (newest_is_newest u s es) as H'. destruct (newest u s es) as [a|]; [|done]. destruct H' as [Ha _].
    rewrite Forall_forall in Hes. specialize (Hes a Ha). apply Z.ltb_lt. lia. }
  rewrite Hn, andb_true_r. destruct (decide (Compare comparator (op_key op) u = Eq)) as [Hk|Hk].
  - rewrite last_cons. destruct (last (filter _ ops)); [done|].
    assert (Hv : visible u s e = true) by (apply visible_eq; rewrite Hke; split; [done|lia]).
    rewrite Hv. unfold e. by destruct op.
  - destruct (last (filter _ ops)); [done|].
    assert (Hv : visible u s e = false).
    { destruct (visible u s e) eqn:E; [|done]. apply visible_eq in E as [E _]. by rewrite Hke in E. }
    by rewrite Hv.
Qed.

(** [InsertInto] adds the entries of the batch. *)
Lemma InsertInto_batch new_array seq ops (m : option MemTable) :
  Forall op_fits ops -> size_of ops < 2 ^ 31 -> 0 <= seq -> seq + size_of ops <= kMaxSequenceNumber ->
  InsertInto (fun s t k v m => m ≫= Add new_array comparator s t k v) (batch_rep seq ops) m =
  (add_all new_array (batch seq ops) m, OK).
Proof.
  intros. rewrite InsertInto_rep by done. f_equal. unfold batch, add_all. generalize (batch_entries seq ops). intros l.
  revert m. induction l as [|[[[s t] k] v] l IH]; intros m; [done|]. cbn [map fold_left of_tuple]. by rewrite IH.
Qed.

(** ** Iterators *)

Definition iterator_rep (m : MemTable) (es : list entry) (it : MemTableIterator) (p : option nat) : Prop :=
  exists ls, SkipList.wf kcmp (table_ m) ls /\ SkipList.keys (table_ m) ls = map encode es /\
    list_ it = table_ m /\ iter_ it = p ≫= (fun i => ls O !! i) /\
    match p with Some i => (i < length es)%nat | None => True end.

Section Iterate.
Context (m : MemTable) (es : list entry) (Hm : mem_rep m es).

Lemma rep_length ls : SkipList.wf kcmp (table_ m) ls -> SkipList.keys (table_ m) ls = map encode es ->
  length (ls O) = length es.
Proof. intros Hwf Hk. by rewrite <- (SkipList.keys_length _ _ _ Hwf), Hk, length_map. Qed.

Lemma rep_key ls i e : SkipList.wf kcmp (table_ m) ls -> SkipList.keys (table_ m) ls = map encode es ->
  es !! i = Some e -> ls O !! i ≫= SkipList.key_of (SkipList.sl_heap (table_ m)) = Some (encode e).
Proof. intros Hwf Hk He. by rewrite <- (SkipList.keys_lookup _ _ _ Hwf), Hk, list_lookup_fmap, He. Qed.

Lemma NewIterator_rep : iterator_rep m es (NewIterator m) None.
Proof. destruct Hm as [_ (ls & Hwf & Hk)]. by exists ls. Qed.

Lemma move_rep ls it n p : SkipList.wf kcmp (table_ m) ls -> SkipList.keys (table_ m) ls = map encode es ->
  list_ it = table_ m -> n = Some (p ≫= (fun i => ls O !! i)) ->
  match p with Some i => (i < length es)%nat | None => True end -> iterator_rep m es (move it n) p.
Proof. intros Hwf Hk Hl -> Hp. by exists ls. Qed.

Lemma Iterator_Seek ls it p target : SkipList.wf kcmp (table_ m) ls -> SkipList.keys (table_ m) ls = map encode es ->
  list_ it = table_ m -> size_of target < 2 ^ 32 -> iterator_rep m es it p ->
  iterator_rep m es (Seek (Iterator := MemTableIterator_Iterator comparator) target it) (seek_position ikc (map e_pair es) target).
Proof.
  intros Hwf Hk Hl Hsz Hit. destruct Hm as [Hes _]. apply (move_rep ls); [done..| |]; rewrite ?Hl, ?EncodeKey_eq.
  - destruct (seek_position ikc (map e_pair es) target) as [i|] eqn:E; cbn [mbind option_bind].
    + apply (seek_position_Some ikc) in E as (x & Hx & Ha & Hb). apply list_lookup_fmap_Some in Hx as (e & -> & He).
      apply (table_Seek_rep (table_ m) ls es); [done..| |].
      * intros j e' Hj Hlt. apply (Hb j (e_pair e')); [by rewrite list_lookup_fmap, Hj|done].
      * intros e' He'. rewrite He in He'. injection He' as <-. done.
    + rewrite (table_Seek_rep (table_ m) ls es target (length es)); [|done..| |].
      * by rewrite lookup_ge_None_2 by (by rewrite (rep_length ls Hwf Hk)).
      * intros j e Hj _. pose proof (proj1 (seek_position_None ikc _ _) E j (e_pair e)) as H'. apply H'.
        by rewrite list_lookup_fmap, Hj.
      * intros e He. by rewrite lookup_ge_None_2 in He.
  - destruct (seek_position ikc (map e_pair es) target) as [i|] eqn:E; [|done].
    apply (seek_position_Some ikc) in E as (x & Hx & _). apply lookup_lt_Some in Hx. by rewrite length_map in Hx.
Qed.

#[local] Instance MemTableIterator_laws :
  IteratorLaws (Iterator0 := MemTableIterator_Iterator comparator) ikc (map e_pair es) (iterator_rep m es).
Proof.
  split.
  - intros it p (ls & Hwf & Hk & Hl & Hi & Hp). cbn. rewrite Hi. destruct p as [i|]; cbn; [|done].
    rewrite <- (rep_length ls Hwf Hk) in Hp. apply lookup_lt_is_Some_2 in Hp as [x ->]. done.
  - intros it i (ls & Hwf & Hk & Hl & Hi & Hp). destruct (lookup_lt_is_Some_2 _ _ Hp) as [e He].
    destruct Hm as [Hes _]. rewrite Forall_lookup in Hes. specialize (Hes i e He).
    rewrite list_lookup_fmap, He. cbn. unfold MemTableIterator_key, MemTableIterator_value, SkipList.Iter_key.
    cbn [mbind option_bind] in Hi. rewrite Hl, Hi, (rep_key ls i e Hwf Hk He), entry_value, entry_key by done. done.
  - done.
  - intros it p (ls & Hwf & Hk & Hl & _). pose proof (rep_length ls Hwf Hk) as Hlen. apply (move_rep ls); [done..| |].
    + rewrite Hl, (SkipList.Iter_SeekToFirst_spec kcmp _ ls Hwf). f_equal.
      destruct es as [|e es']; cbn in Hlen |- *; [|done]. by destruct (ls O).
    + destruct es; cbn; [done|lia].
  - intros it p (ls & Hwf & Hk & Hl & _). pose proof (rep_length ls Hwf Hk) as Hlen. unfold last_position.
    rewrite length_map. apply (move_rep ls); [done..| |].
    + rewrite Hl, (SkipList.Iter_SeekToLast_spec kcmp _ ls Hwf), last_lookup, Hlen. f_equal.
      destruct (length es) as [|n]; [|done]. by destruct (ls O).
    + destruct (length es) as [|n]; [done|lia].
  - intros it p target Hsz Hit. pose proof Hit as (ls & Hwf & Hk & Hl & _). by eapply Iterator_Seek.
  - intros it i (ls & Hwf & Hk & Hl & Hi & Hp). pose proof (rep_length ls Hwf Hk) as Hlen.
    unfold next_position. rewrite length_map. cbn [mbind option_bind] in Hi.
    apply (move_rep ls); [done..| |destruct (Nat.ltb_spec (S i) (length es)); [done|done]].
    rewrite <- Hlen in Hp. destruct (lookup_lt_is_Some_2 _ _ Hp) as [x Hx].
    rewrite Hl, Hi, Hx, (SkipList.Iter_Next_spec kcmp _ ls Hwf i x Hx). f_equal.
    destruct (Nat.ltb_spec (S i) (length es)); [done|]. apply lookup_ge_None_2. lia.
  - intros it i (ls & Hwf & Hk & Hl & Hi & Hp). pose proof (rep_length ls Hwf Hk) as Hlen.
    cbn [mbind option_bind] in Hi. apply (move_rep ls); [done..| |destruct i; cbn; [done|lia]].
    rewrite <- Hlen in Hp. destruct (lookup_lt_is_Some_2 _ _ Hp) as [x Hx].
    rewrite Hl, Hi, Hx, (SkipList.Iter_Prev_spec kcmp _ ls Hwf i x Hx). by destruct i.
Qed.
End Iterate.

Lemma memtable_cursor m es : mem_rep m es ->
  cursor (Iterator0 := MemTableIterator_Iterator comparator) ikc (map e_pair es) (NewIterator m) None.
Proof. intros Hm. exists (iterator_rep m es). split; [by apply MemTableIterator_laws|by apply NewIterator_rep]. Qed.

Lemma sorted_pairs es : StronglySorted (fun a b => cmp a b = Lt) es -> sorted_entries ikc (map e_pair es).
Proof. induction 1 as [|e es Hs IH He]; [constructor|]. cbn [map]. constructor; [done|]. rewrite Forall_map. exact He. Qed.

(** Entries that are all different can be put in order. *)
Lemma sort_entries es : Forall fits es -> NoDup es -> distinct es -> exists es', es' ≡ₚ es /\ StronglySorted (fun a b => cmp a b = Lt) es'.
Proof.
  intros Hf Hnd Hd. destruct (add_all_rep next_array es [] _ (make_rep next_array) Hf Hnd Hd) as (m & es' & _ & Hm & Hp).
  exists es'. split; [done|by eapply rep_sorted].
Qed.
End Table.

(** Distinct entries, decided. *)
Lemma distinct_decide (ucmp : Comparator) (es : list entry) :
  forallb (fun a => forallb (fun b => bool_decide (a = b) || negb (match Compare ucmp (e_key a) (e_key b) with Eq => true | _ => false end && (e_seq a =? e_seq b))) es) es = true -> distinct ucmp es.
Proof.
  intros H a b Ha Hb Hc Hs. rewrite forallb_forall in H. specialize (H a (proj1 (list_elem_of_In _ _) Ha)). rewrite forallb_forall in H. specialize (H b (proj1 (list_elem_of_In _ _) Hb)).
  rewrite Hc, Hs, Z.eqb_refl, orb_false_r in H. by apply bool_decide_eq_true in H.
Qed.

(** ** Properties *)

(** C21: entries added to a new table in any order, no two of them with the same
    user key and sequence number, are read back: [Add] returns every time, and
    [Get] of a lookup key at a sequence number answers with the newest entry of
    the user key that is not above it: its value, [NotFound] for a deletion, or
    that there is none. *)
Theorem memtable_get new_array comparator `{!ComparatorLaws comparator} es u s :
  Forall fits es -> NoDup es -> distinct comparator es ->
  size_of u + 8 < 2 ^ 32 -> 0 <= s <= kMaxSequenceNumber ->
  exists m, add_all comparator new_array es (Some (MemTable_make new_array)) = Some m /\
    forall value st, Get comparator (LookupKey_make u s) m value st = Some (outcome (newest comparator u s es) value st).
Proof.
  intros Hf Hnd Hd Hu Hs.
  destruct (add_all_rep comparator new_array es [] _ (make_rep comparator new_array) Hf Hnd Hd) as (m & es' & E & Hm & Hp).
  exists m. split; [done|]. intros value st. by eapply Get_newest.
Qed.

(** C20: a write batch is atomic for the readers of the table: after [InsertInto]
    of a batch whose sequence numbers follow those of the entries that are there,
    a read at an earlier sequence number answers as before, and a read at the
    last one of the batch, or later, answers with the last operation of the batch
    on its user key, and as before when there is none. *)
Theorem memtable_batch_atomic new_array comparator `{!ComparatorLaws comparator} es seq ops u :
  Forall fits es -> NoDup es -> distinct comparator es -> Forall (fun e => e_seq e < seq) es ->
  Forall op_fits ops -> Forall (fun op => size_of (op_key op) + 8 < 2 ^ 32) ops ->
  size_of ops < 2 ^ 31 -> 0 <= seq -> seq + size_of ops <= kMaxSequenceNumber -> size_of u + 8 < 2 ^ 32 ->
  exists m m', add_all comparator new_array es (Some (MemTable_make new_array)) = Some m /\
    InsertInto (fun s t k v m => m ≫= Add new_array comparator s t k v) (batch_rep seq ops) (Some m) = (Some m', OK) /\
    forall s value st, 0 <= s <= kMaxSequenceNumber ->
      let before := Get comparator (LookupKey_make u s) m value st in
      let after := Get comparator (LookupKey_make u s) m' value st in
      (s < seq -> after = before) /\
      (seq + size_of ops <= s + 1 ->
       after = match last_op comparator u ops with
               | Some op => Some (op_outcome op value st)
               | None => before
               end).
Proof.
  intros Hf Hnd Hd Hlt Hops Hkeys Hsz Hseq Hmax Hu.
  destruct (add_all_rep comparator new_array es [] _ (make_rep comparator new_array) Hf Hnd Hd) as (m & es1 & E & Hm & Hp).
  destruct (batch_apart comparator es seq ops Hnd Hd Hlt) as [Hnd' Hd']. simpl in Hp.
  destruct (add_all_rep comparator new_array (batch seq ops) es1 m Hm) as (m' & es2 & E' & Hm' & Hp').
  - by apply batch_fits.
  - by rewrite Hp.
  - eapply distinct_perm; [|exact Hd']. by rewrite Hp.
  - exists m, m'. split; [done|]. split; [by rewrite InsertInto_batch, E'|]. intros s value st Hs before after.
    unfold before, after. rewrite (Get_newest comparator m es es1 u s value st Hm Hp Hd Hu Hs).
    rewrite (Get_newest comparator m' (es ++ batch seq ops) es2 u s value st Hm') by (done || by rewrite Hp', Hp).
    split; intros H.
    + rewrite newest_app_old; [done|]. apply Forall_forall. intros e He. apply batch_seq in He. lia.
    + rewrite newest_app_batch by done. by destruct (last_op comparator u ops).
Qed.

(** C22: the iterator of a table is a cursor on its entries in the order of the
    internal comparator, from which it starts out invalid. *)
Theorem memtable_iterator new_array comparator `{!ComparatorLaws comparator} es :
  Forall fits es -> NoDup es -> distinct comparator es ->
  exists m entries rep, add_all comparator new_array es (Some (MemTable_make new_array)) = Some m /\
    entries ≡ₚ map e_pair es /\ sorted_entries (InternalKeyComparator comparator) entries /\
    IteratorLaws (Iterator0 := MemTableIterator_Iterator comparator) (InternalKeyComparator comparator) entries rep /\
    rep (NewIterator m) None.
Proof.
  intros Hf Hnd Hd.
  destruct (add_all_rep comparator new_array es [] _ (make_rep comparator new_array) Hf Hnd Hd) as (m & es' & E & Hm & Hp).
  exists m, (map e_pair es'), (iterator_rep comparator m es'). split; [done|].
  split; [change (map e_pair es' ≡ₚ map e_pair es); by rewrite Hp|]. split.
  - apply sorted_pairs. by eapply rep_sorted.
  - split; [by apply MemTableIterator_laws|by apply NewIterator_rep].
Qed.

(** Two writes of a key, in an order that is not that of their numbers, and a
    deletion of another one. *)
Definition sample_writes : list entry :=
  [mkEntry 7 kTypeValue (str "k") (str "new"); mkEntry 3 kTypeValue (str "k") (str "old");
   mkEntry 5 kTypeDeletion (str "d") []].

Lemma sample_writes_ok : Forall fits sample_writes /\ NoDup sample_writes /\ distinct BytewiseComparator sample_writes.
Proof.
  split; [|split].
  - repeat constructor; vm_compute; discriminate.
  - apply (bool_decide_unpack (NoDup sample_writes)). vm_compute. exact I.
  - intros a b Ha Hb. unfold sample_writes in Ha, Hb. rewrite !elem_of_cons, elem_of_nil in Ha, Hb.
    destruct Ha as [-> |[-> |[-> |[]]]], Hb as [-> |[-> |[-> |[]]]]; cbn; intros; (done || (exfalso; done)).
Qed.

Lemma memtable_get_witness : exists m,
  add_all BytewiseComparator next_array sample_writes (Some (MemTable_make next_array)) = Some m /\
  Get BytewiseComparator (LookupKey_make (str "k") 6) m [] OK = Some (true, str "old", OK).
Proof.
  destruct sample_writes_ok as (H1 & H2 & H3).
  destruct (memtable_get next_array BytewiseComparator sample_writes (str "k") 6 H1 H2 H3) as (m & E & H).
  - reflexivity.
  - split; [lia|]. vm_compute. discriminate.
  - exists m. split; [exact E|]. rewrite H. vm_compute. reflexivity.
Defined.

Lemma memtable_batch_atomic_witness : exists m m',
  add_all BytewiseComparator next_array sample_writes (Some (MemTable_make next_array)) = Some m /\
  InsertInto (fun s t k v m => m ≫= Add next_array BytewiseComparator s t k v)
    (batch_rep 8 [OpDelete (str "k"); OpPut (str "d") (str "x")]) (Some m) = (Some m', OK) /\
  Get BytewiseComparator (LookupKey_make (str "k") 9) m' [] OK = Some (true, [], NotFound [] []).
Proof.
  destruct sample_writes_ok as (H1 & H2 & H3).
  destruct (memtable_batch_atomic next_array BytewiseComparator sample_writes 8
    [OpDelete (str "k"); OpPut (str "d") (str "x")] (str "k") H1 H2 H3) as (m & m' & E & E' & H).
  - repeat constructor.
  - repeat constructor.
  - repeat constructor.
  - reflexivity.
  - lia.
  - vm_compute. discriminate.
  - reflexivity.
  - exists m, m'. split; [exact E|]. split; [exact E'|].
    assert (Hs : 0 <= 9 <= kMaxSequenceNumber) by (split; [lia|vm_compute; discriminate]).
    destruct (H 9 [] OK Hs) as [_ H4]. rewrite H4; [vm_compute; reflexivity|vm_compute; discriminate].
Defined.

Lemma memtable_iterator_witness : exists m entries rep,
  add_all BytewiseComparator next_array sample_writes (Some (MemTable_make next_array)) = Some m /\
  entries ≡ₚ map e_pair sample_writes /\
  IteratorLaws (Iterator0 := MemTableIterator_Iterator BytewiseComparator) (InternalKeyComparator BytewiseComparator) entries rep /\
  rep (NewIterator m) None.
Proof.
  destruct sample_writes_ok as (H1 & H2 & H3).
  destruct (memtable_iterator next_array BytewiseComparator sample_writes H1 H2 H3) as (m & es & rep & E & Hp & _ & Hl & Hr).
  exists m, es, rep. split; [exact E|]. split; [exact Hp|]. split; [exact Hl|exact Hr].
Defined.
