(* ===== verification/Format.v ===== *)
(** * Format: the layout of table files

    Models [table/format.h], [table/format.cpp] and the Snappy functions of
    [port/port_posix.h]: block handles, the footer, and the reading of a block
    with its type and checksum.  The Snappy library is a parameter: the functions
    of the port call it when the build defines [SNAPPY] and fail otherwise. *)

From S2P Require Import Prelude Coding Slice Crc32c Env.

(** ** Block handles *)

Definition kMaxEncodedLength : nat := 10 + 10.

Record BlockHandle : Type := mkBlockHandle { offset_ : Z; size_ : Z }.

Definition BlockHandle_make : BlockHandle := mkBlockHandle (2 ^ 64 - 1) (2 ^ 64 - 1).

Definition BlockHandle_EncodeTo (dst : bytes) (h : BlockHandle) : bytes :=
  PutVarint64 (PutVarint64 dst (offset_ h)) (size_ h).

(** The status, the rest of the input and the handle: what was read before an
    error stays. *)
Definition BlockHandle_DecodeFrom (input : bytes) (h : BlockHandle) : Status * bytes * BlockHandle :=
  match GetVarint64 input with
  | None => (Corruption (str "bad block handle") [], input, h)
  | Some (offset, input) =>
      match GetVarint64 input with
      | None => (Corruption (str "bad block handle") [], input, mkBlockHandle offset (size_ h))
      | Some (size, input) => (OK, input, mkBlockHandle offset size)
      end
  end.

(** ** The footer *)

Definition kEncodedLength : nat := 2 * kMaxEncodedLength + 8.
Definition kTableMagicNumber : Z := 0xdb4775248b80fb57.
Definition kBlockTrailerSize : Z := 5.

Record Footer : Type := mkFooter { metaindex_handle : BlockHandle; index_handle : BlockHandle }.

Definition Footer_make : Footer := mkFooter BlockHandle_make BlockHandle_make.

(** [std::string::resize]. *)
Definition resize (n : nat) (s : bytes) : bytes := take n s ++ replicate (n - length s) (z2b 0).

Definition Footer_EncodeTo (dst : bytes) (f : Footer) : bytes :=
  let dst := BlockHandle_EncodeTo dst (metaindex_handle f) in
  let dst := BlockHandle_EncodeTo dst (index_handle f) in
  let dst := resize (2 * kMaxEncodedLength) dst in
  let dst := PutFixed32 dst (Z.land kTableMagicNumber 0xffffffff) in
  PutFixed32 dst (Z.shiftr kTableMagicNumber 32).

Definition Footer_DecodeFrom (input : bytes) (f : Footer) : Status * bytes * Footer :=
  let magic_ptr := drop (kEncodedLength - 8) input in
  let magic_lo := DecodeFixed32 magic_ptr in
  let magic_hi := DecodeFixed32 (drop 4 magic_ptr) in
  let magic := Z.lor (u64 (Z.shiftl magic_hi 32)) magic_lo in
  if negb (magic =? kTableMagicNumber) then
    (Corruption (str "not an sstable (bad magic number)") [], input, f)
  else
    let '(result, rest, meta) := BlockHandle_DecodeFrom input (metaindex_handle f) in
    if negb (ok result) then (result, rest, mkFooter meta (index_handle f))
    else
      let '(result, rest, index) := BlockHandle_DecodeFrom rest (index_handle f) in
      (result, if ok result then drop 8 magic_ptr else rest, mkFooter meta index).

(** ** Reading a block *)

Record BlockContents : Type := mkContents { data : bytes; cachable : bool; heap_allocated : bool }.

Variant CompressionType : Type := kNoCompression | kSnappyCompression.
Definition compression_code (t : CompressionType) : Z :=
  match t with kNoCompression => 0x0 | kSnappyCompression => 0x1 end.

(** The Snappy library: [RawCompress] with [MaxCompressedLength],
    [GetUncompressedLength] and [RawUncompress]. *)
Record SnappyLib : Type := mkSnappy {
  snappy_compress : bytes -> bytes;
  snappy_length : bytes -> option Z;
  snappy_uncompress : bytes -> option bytes
}.

(** Uncompressing what was compressed gives it back. *)
Class SnappyLaws (l : SnappyLib) : Prop := {
  snappy_length_ok p : snappy_length l (snappy_compress l p) = Some (size_of p);
  snappy_uncompress_ok p : snappy_uncompress l (snappy_compress l p) = Some p
}.

Section ReadBlock.
(** [None]: the build does not define [SNAPPY]. *)
Context (snappy : option SnappyLib).

Definition Snappy_Compress (input : bytes) : option bytes :=
  match snappy with Some l => Some (snappy_compress l input) | None => None end.
Definition Snappy_GetUncompressedLength (input : bytes) : option Z :=
  match snappy with Some l => snappy_length l input | None => None end.
Definition Snappy_Uncompress (input : bytes) : option bytes :=
  match snappy with Some l => snappy_uncompress l input | None => None end.

(** What [ReadBlock] does with the [n + 5] bytes that it read; [in_buf]: the
    file put them in the buffer it was given. *)
Definition check_block (verify_checksums in_buf : bool) (n : Z) (contents : bytes) : Status * BlockContents :=
  let none := mkContents [] false false in
  let block := take (Z.to_nat n) contents in
  let crc := Unmask (DecodeFixed32 (drop (Z.to_nat (n + 1)) contents)) in
  let actual := Value (take (Z.to_nat (n + 1)) contents) in
  if verify_checksums && negb (actual =? crc) then (Corruption (str "block checksum mismatch") [], none)
  else
    let type := b2z (nth (Z.to_nat n) contents (z2b 0)) in
    if type =? compression_code kNoCompression then
      (OK, mkContents block in_buf in_buf)
    else if type =? compression_code kSnappyCompression then
      match Snappy_GetUncompressedLength block with
      | None => (Corruption (str "corrupted compressed block contents") [], none)
      | Some ulength =>
          match Snappy_Uncompress block with
          | None => (Corruption (str "corrupted compressed block contents") [], none)
          | Some ubuf => (OK, mkContents (take (Z.to_nat ulength) ubuf) true true)
          end
      end
    else (Corruption (str "bad block type") [], none).

Definition ReadBlock {F} `{!RandomAccessFile F} (in_buf verify_checksums : bool) (handle : BlockHandle) (file : F) :
    Status * BlockContents :=
  let none := mkContents [] false false in
  let n := usize (size_ handle) in
  let '(s, contents) := ReadAt (offset_ handle) (usize (n + kBlockTrailerSize)) file in
  if negb (ok s) then (s, none)
  else if negb (size_of contents =? usize (n + kBlockTrailerSize)) then
    (Corruption (str "truncated block read") [], none)
  else check_block verify_checksums in_buf n contents.
End ReadBlock.

(** ** Block handles and footers are read back *)

Definition handle_ok (h : BlockHandle) : Prop := 0 <= offset_ h < 2 ^ 64 /\ 0 <= size_ h < 2 ^ 64.

Definition encode_handle (h : BlockHandle) : bytes := EncodeVarint64 (offset_ h) ++ EncodeVarint64 (size_ h).

Lemma BlockHandle_EncodeTo_eq dst h : BlockHandle_EncodeTo dst h = dst ++ encode_handle h.
Proof. unfold BlockHandle_EncodeTo, PutVarint64, encode_handle. by rewrite <- app_assoc. Qed.

Lemma BlockHandle_Decode h h0 rest : handle_ok h -> BlockHandle_DecodeFrom (encode_handle h ++ rest) h0 = (OK, rest, h).
Proof.
  intros [Ho Hs]. unfold BlockHandle_DecodeFrom, encode_handle. rewrite <- app_assoc, !GetVarint64_Encode by done.
  by destruct h.
Qed.

Lemma length_EncodeVarint64_loop fuel v : (length (EncodeVarint64_loop fuel v) <= fuel)%nat.
Proof.
  revert v. induction fuel as [|fuel IH]; intros v; [simpl; lia|]. cbn [EncodeVarint64_loop].
  specialize (IH (Z.shiftr v 7)). destruct (_ >=? _); simpl; lia.
Qed.

Lemma length_encode_handle h : (length (encode_handle h) <= kMaxEncodedLength)%nat.
Proof.
  unfold encode_handle, EncodeVarint64, kMaxEncodedLength. rewrite length_app.
  pose proof (length_EncodeVarint64_loop 10 (offset_ h)). pose proof (length_EncodeVarint64_loop 10 (size_ h)). lia.
Qed.

(** The bytes between the handles and the magic number. *)
Definition footer_padding (f : Footer) : bytes :=
  replicate (2 * kMaxEncodedLength - length (encode_handle (metaindex_handle f) ++ encode_handle (index_handle f))) (z2b 0).

Lemma Footer_EncodeTo_eq f :
  Footer_EncodeTo [] f = encode_handle (metaindex_handle f) ++ encode_handle (index_handle f) ++ footer_padding f ++
    EncodeFixed32 (kTableMagicNumber mod 2 ^ 32) ++ EncodeFixed32 (kTableMagicNumber / 2 ^ 32) /\
  length (encode_handle (metaindex_handle f) ++ encode_handle (index_handle f) ++ footer_padding f) = 40%nat.
Proof.
  unfold Footer_EncodeTo, PutFixed32, footer_padding. rewrite !BlockHandle_EncodeTo_eq, app_nil_l.
  set (hs := encode_handle (metaindex_handle f) ++ encode_handle (index_handle f)).
  assert (Hl : (length hs <= 40)%nat).
  { subst hs. rewrite length_app. pose proof (length_encode_handle (metaindex_handle f)).
    pose proof (length_encode_handle (index_handle f)). unfold kMaxEncodedLength in *. lia. }
  unfold resize. rewrite take_ge by (unfold kMaxEncodedLength; lia). split.
  - rewrite <- !app_assoc. unfold hs. by rewrite <- !app_assoc.
  - rewrite app_assoc. fold hs. rewrite length_app, length_replicate. unfold kMaxEncodedLength. lia.
Qed.

Lemma length_Footer f : length (Footer_EncodeTo [] f) = kEncodedLength.
Proof.
  destruct (Footer_EncodeTo_eq f) as [-> Hl]. rewrite !app_assoc. rewrite app_assoc in Hl.
  rewrite length_app, length_EncodeFixed32, length_app, length_EncodeFixed32, Hl. done.
Qed.

(** The magic number as [DecodeFrom] assembles it. *)
Definition magic_of (input : bytes) : Z :=
  let p := drop (kEncodedLength - 8) input in
  Z.lor (u64 (Z.shiftl (DecodeFixed32 (drop 4 p)) 32)) (DecodeFixed32 p).

Lemma magic_of_footer f rest : magic_of (Footer_EncodeTo [] f ++ rest) = kTableMagicNumber.
Proof.
  destruct (Footer_EncodeTo_eq f) as [-> Hl]. unfold magic_of.
  rewrite <- !app_assoc. rewrite (app_assoc _ (footer_padding f)), (app_assoc _ (_ ++ footer_padding f)).
  rewrite drop_app_exact by (rewrite Hl; done). rewrite DecodeFixed32_Encode by (vm_compute; split; congruence).
  rewrite drop_app_exact by (by rewrite length_EncodeFixed32).
  rewrite DecodeFixed32_Encode by (vm_compute; split; congruence). vm_compute. reflexivity.
Qed.

Lemma Footer_DecodeFrom_bad input f : magic_of input <> kTableMagicNumber ->
  exists s rest f', Footer_DecodeFrom input f = (s, rest, f') /\ code s = kCorruption /\ f' = f.
Proof.
  intros Hm. unfold Footer_DecodeFrom. fold (magic_of input).
  destruct (Z.eqb_spec (magic_of input) kTableMagicNumber); [done|]. cbn [negb]. eexists _, _, _. split; [reflexivity|].
  split; done.
Qed.

Lemma Footer_Decode f f0 rest : handle_ok (metaindex_handle f) -> handle_ok (index_handle f) ->
  Footer_DecodeFrom (Footer_EncodeTo [] f ++ rest) f0 = (OK, rest, f).
Proof.
  intros Hm Hi. unfold Footer_DecodeFrom. fold (magic_of (Footer_EncodeTo [] f ++ rest)).
  rewrite magic_of_footer, Z.eqb_refl. cbn [negb].
  rewrite drop_drop, drop_app_exact by (by rewrite length_Footer).
  destruct (Footer_EncodeTo_eq f) as [-> _]. rewrite <- !app_assoc.
  rewrite BlockHandle_Decode by done. cbn [ok negb OK]. rewrite BlockHandle_Decode by done. cbn. by destruct f.
Qed.

(** ** Blocks are read back *)

(** The five bytes that [TableBuilder::WriteRawBlock] puts after a block. *)
Definition block_trailer (type : CompressionType) (contents : bytes) : bytes :=
  let trailer0 := z2b (compression_code type) in
  let crc := Value contents in
  let crc := Extend crc [trailer0] in
  trailer0 :: EncodeFixed32 (Mask crc).

Lemma length_block_trailer t c : length (block_trailer t c) = 5%nat.
Proof. unfold block_trailer. by rewrite length_cons, length_EncodeFixed32. Qed.

Lemma Value_range p : size_of p + 3 < 2 ^ 32 -> 0 <= Value p < 2 ^ 32.
Proof. intros. by apply Extend_range. Qed.

Lemma Value_snoc p b : size_of p + 4 < 2 ^ 32 -> Extend (Value p) [b] = Value (p ++ [b]).
Proof.
  intros. pose proof (size_of_nonneg p). unfold Value. rewrite (Extend_spec 0 p) by lia.
  rewrite Extend_spec; [|len|by apply crc32c_reference_range].
  rewrite Extend_spec by len. apply crc32c_reference_app.
Qed.

(** What the bytes of a block of a type hold. *)
Definition block_holds (snappy : option SnappyLib) (type : CompressionType) (block contents : bytes) : Prop :=
  match type with
  | kNoCompression => contents = block
  | kSnappyCompression => Snappy_GetUncompressedLength snappy block = Some (size_of contents) /\
                          Snappy_Uncompress snappy block = Some contents
  end.

Section CheckBlock.
Context (snappy : option SnappyLib) (type : CompressionType) (block contents : bytes).
Context (Hsz : size_of block + 5 < 2 ^ 32) (Hc : block_holds snappy type block contents).

Lemma check_block_ok verify in_buf : exists c,
  check_block snappy verify in_buf (size_of block) (block ++ block_trailer type block) = (OK, c) /\ data c = contents.
Proof.
  unfold check_block, block_trailer. pose proof (size_of_nonneg block) as Hn.
  replace (Z.to_nat (size_of block)) with (length block) by (unfold size_of; lia).
  replace (Z.to_nat (size_of block + 1)) with (S (length block)) by (unfold size_of; lia).
  rewrite take_app_length, nth_middle.
  assert (E : forall x l, take (S (length block)) (block ++ x :: l) = block ++ [x]).
  { intros x l. rewrite (take_app_ge block) by lia. by replace (S (length block) - length block)%nat with 1%nat by lia. }
  assert (E' : forall x l, drop (S (length block)) (block ++ x :: l) = l).
  { intros x l. rewrite (drop_app_ge block) by lia. by replace (S (length block) - length block)%nat with 1%nat by lia. }
  assert (Hv : 0 <= Value (block ++ [z2b (compression_code type)]) < 2 ^ 32) by (apply Value_range; len).
  rewrite E, E', <- (app_nil_r (EncodeFixed32 _)), DecodeFixed32_Encode by apply Mask_range.
  rewrite Value_snoc, (proj1 (Mask_inverse _ Hv)), Z.eqb_refl, andb_false_r by lia.
  destruct type; cbn [compression_code]; rewrite z2b_small by lia; cbn [Z.eqb].
  - eexists. split; [reflexivity|]. symmetry. exact Hc.
  - destruct Hc as [H1 H2]. rewrite H1, H2. eexists. split; [reflexivity|]. cbn [data].
    apply take_ge. unfold size_of. lia.
Qed.
End CheckBlock.

(** What [check_block] accepts with checksums: a block of one of the two types,
    with the checksum of its bytes and type, that holds the result. *)
Lemma check_block_sound snappy in_buf n contents c : 0 <= n -> size_of contents = n + 5 -> n + 5 < 2 ^ 32 ->
  check_block snappy true in_buf n contents = (OK, c) ->
  exists type block, contents = block ++ block_trailer type block /\ size_of block = n /\
    (type = kNoCompression -> data c = block) /\
    (type = kSnappyCompression -> exists l u, Snappy_GetUncompressedLength snappy block = Some l /\
       Snappy_Uncompress snappy block = Some u /\ data c = take (Z.to_nat l) u).
Proof.
  intros Hn Hsz Hlt.
  assert (exists block b crc, contents = block ++ b :: crc /\ size_of block = n /\ length crc = 4%nat) as (block & b & crc & -> & Hb & Hcrc).
  { destruct (drop (Z.to_nat n) contents) as [|b crc] eqn:E.
    - apply (f_equal length) in E. rewrite length_drop in E. unfold size_of in Hsz. simpl in E. lia.
    - exists (take (Z.to_nat n) contents), b, crc. rewrite <- E, take_drop. split; [done|].
      apply (f_equal length) in E. rewrite length_drop in E. unfold size_of in *. simpl in E. rewrite length_take. lia. }
  unfold check_block.
  replace (Z.to_nat n) with (length block) by (unfold size_of in *; lia).
  replace (Z.to_nat (n + 1)) with (S (length block)) by (unfold size_of in *; lia).
  rewrite take_app_length, nth_middle, (take_app_ge block), (drop_app_ge block) by lia.
  replace (S (length block) - length block)%nat with 1%nat by lia.
  change (take 1 (b :: crc)) with [b]. change (drop 1 (b :: crc)) with crc.
  destruct (Z.eqb_spec (Value (block ++ [b])) (Unmask (DecodeFixed32 crc))) as [Ev|]; [|cbn; discriminate]. cbn [negb andb].
  assert (Hd : crc = EncodeFixed32 (Mask (Value (block ++ [b])))).
  { rewrite Ev, (proj2 (Mask_inverse (DecodeFixed32 crc) (DecodeFixed32_range crc))).
    rewrite EncodeFixed32_Decode by lia. by rewrite take_ge by lia. }
  assert (Ht : forall t, b2z b = compression_code t -> b :: crc = block_trailer t block).
  { intros t Et. unfold block_trailer. rewrite <- Et, z2b_b2z, Value_snoc by lia. by rewrite Hd. }
  cbn [compression_code]. destruct (Z.eqb_spec (b2z b) 0) as [E0|].
  - intros [= <-]. exists kNoCompression, block. rewrite (Ht kNoCompression E0). done.
  - destruct (Z.eqb_spec (b2z b) 1) as [E1|]; [|discriminate].
    destruct (Snappy_GetUncompressedLength snappy block) as [l|] eqn:El; [|discriminate].
    destruct (Snappy_Uncompress snappy block) as [u|] eqn:Eu; [|discriminate]. intros [= <-].
    exists kSnappyCompression, block. rewrite (Ht kSnappyCompression E1).
    split; [done|]. split; [done|]. split; [done|]. intros _. by exists l, u.
Qed.

Section ReadBack.
Context {F : Type} `{!RandomAccessFile F} `{!RandomAccessFileLaws F} (snappy : option SnappyLib).

Lemma ReadBlock_ok (file : F) in_buf verify pre block type contents post :
  file_contents file = pre ++ block ++ block_trailer type block ++ post -> size_of block + 5 < 2 ^ 32 ->
  block_holds snappy type block contents ->
  ok (fst (ReadAt (size_of pre) (size_of block + 5) file)) = true -> exists c,
  ReadBlock snappy in_buf verify (mkBlockHandle (size_of pre) (size_of block)) file = (OK, c) /\ data c = contents.
Proof.
  intros Hf Hsz Hc. unfold ReadBlock. cbn [size_ offset_]. pose proof (size_of_nonneg block).
  unfold kBlockTrailerSize. rewrite !usize_small by (rewrite ?usize_small; lia).
  destruct (ReadAt _ _ file) as [s d] eqn:E. cbn [fst]. intros Hok. rewrite Hok. cbn [negb].
  assert (Hd : d = block ++ block_trailer type block).
  { rewrite (ReadAt_ok _ _ _ _ _ E Hok (size_of_nonneg pre) ltac:(lia)), Hf.
    rewrite (drop_app_exact (Z.to_nat (size_of pre))) by (unfold size_of; by rewrite Nat2Z.id).
    rewrite (app_assoc block). apply take_app_exact. rewrite length_app, length_block_trailer. unfold size_of. lia. }
  rewrite Hd. replace (size_of (block ++ block_trailer type block)) with (size_of block + 5)
    by (unfold size_of; rewrite length_app, length_block_trailer; lia).
  rewrite Z.eqb_refl. cbn [negb]. by apply check_block_ok.
Qed.

Lemma ReadBlock_sound (file : F) in_buf handle c :
  usize (size_ handle) + 5 < 2 ^ 32 -> 0 <= offset_ handle ->
  ReadBlock snappy in_buf true handle file = (OK, c) -> exists type block post,
  drop (Z.to_nat (offset_ handle)) (file_contents file) = block ++ block_trailer type block ++ post /\
  size_of block = usize (size_ handle) /\
  (type = kNoCompression -> data c = block) /\
  (type = kSnappyCompression -> exists l u, Snappy_GetUncompressedLength snappy block = Some l /\
     Snappy_Uncompress snappy block = Some u /\ data c = take (Z.to_nat l) u).
Proof.
  intros Hsz Ho. unfold ReadBlock, kBlockTrailerSize. pose proof (usize_range (size_ handle)) as Hr.
  rewrite (usize_small (usize (size_ handle) + 5)) by lia.
  destruct (ReadAt _ _ file) as [s d] eqn:E. destruct (ok s) eqn:Hok; [|cbn; intros [= -> _]; done]. cbn [negb].
  destruct (Z.eqb_spec (size_of d) (usize (size_ handle) + 5)) as [Hd|]; [|cbn; discriminate]. cbn [negb].
  intros Hc. destruct (check_block_sound snappy in_buf _ d c (proj1 Hr) Hd Hsz Hc) as (type & block & -> & Hb & H1 & H2).
  exists type, block, (drop (Z.to_nat (usize (size_ handle) + 5)) (drop (Z.to_nat (offset_ handle)) (file_contents file))).
  split; [|done]. rewrite app_assoc, (ReadAt_ok _ _ _ _ _ E Hok Ho ltac:(lia)). by rewrite take_drop.
Qed.
End ReadBack.

(** ** Properties *)

(** A footer is 48 bytes that decode to its two handles, with what follows
    left in the input; handles, whatever follows them, decode to themselves; and
    bytes with another magic number are rejected as a corruption. *)
Theorem footer_roundtrip (f f0 : Footer) (rest : bytes) :
  handle_ok (metaindex_handle f) -> handle_ok (index_handle f) ->
  length (Footer_EncodeTo [] f) = kEncodedLength /\
  Footer_DecodeFrom (Footer_EncodeTo [] f ++ rest) f0 = (OK, rest, f) /\
  (forall h, BlockHandle_DecodeFrom (BlockHandle_EncodeTo [] (index_handle f) ++ rest) h = (OK, rest, index_handle f)) /\
  (forall input, DecodeFixed32 (drop 40 input) + 2 ^ 32 * DecodeFixed32 (drop 44 input) <> kTableMagicNumber ->
     exists s rest' f', Footer_DecodeFrom input f0 = (s, rest', f') /\ code s = kCorruption).
Proof.
  intros Hm Hi. split; [apply length_Footer|]. split; [by apply Footer_Decode|]. split.
  - intros h. rewrite BlockHandle_EncodeTo_eq. by apply BlockHandle_Decode.
  - intros input Hne. destruct (Footer_DecodeFrom_bad input f0) as (s & rest' & f' & E & Hs & _).
    + unfold magic_of. change (kEncodedLength - 8)%nat with 40%nat. rewrite drop_drop. change (40 + 4)%nat with 44%nat.
      pose proof (DecodeFixed32_range (drop 40 input)). pose proof (DecodeFixed32_range (drop 44 input)).
      rewrite Z.lor_comm, u64_small by (rewrite Z.shiftl_mul_pow2; lia). rewrite lor_disjoint_add by lia. lia.
    + by exists s, rest', f'.
Qed.

Lemma footer_roundtrip_witness :
  Footer_DecodeFrom (Footer_EncodeTo [] (mkFooter (mkBlockHandle 100 8) (mkBlockHandle 113 4096)) ++ str "x") Footer_make =
  (OK, str "x", mkFooter (mkBlockHandle 100 8) (mkBlockHandle 113 4096)).
Proof.
  apply (footer_roundtrip (mkFooter (mkBlockHandle 100 8) (mkBlockHandle 113 4096)) Footer_make (str "x"));
    split; split; (reflexivity || discriminate).
Defined.

(** A block stored with its type and the masked checksum of both is read
    back, with or without checksum verification, compressed (when the library
    inverts its compression) or not; and what a verified read accepts is a block
    stored with its type and a matching checksum, never other bytes. *)
Theorem block_read_back {F : Type} `{!RandomAccessFile F} `{!RandomAccessFileLaws F} (snappy : option SnappyLib)
    (file : F) (in_buf : bool) :
  (forall verify pre block type contents post,
     file_contents file = pre ++ block ++ block_trailer type block ++ post -> size_of block + 5 < 2 ^ 32 ->
     block_holds snappy type block contents ->
     ok (fst (ReadAt (size_of pre) (size_of block + 5) file)) = true -> exists c,
     ReadBlock snappy in_buf verify (mkBlockHandle (size_of pre) (size_of block)) file = (OK, c) /\ data c = contents) /\
  (forall handle c,
     usize (size_ handle) + 5 < 2 ^ 32 -> 0 <= offset_ handle ->
     ReadBlock snappy in_buf true handle file = (OK, c) -> exists type block post,
     drop (Z.to_nat (offset_ handle)) (file_contents file) = block ++ block_trailer type block ++ post /\
     size_of block = usize (size_ handle) /\ (type = kNoCompression -> data c = block)).
Proof.
  split.
  - intros. by eapply ReadBlock_ok.
  - intros handle c Hsz Ho Hr. destruct (ReadBlock_sound _ _ _ _ _ Hsz Ho Hr) as (t & b & p & H1 & H2 & H3 & _).
    by exists t, b, p.
Qed.

(** A library that stores the length first. *)
Definition trivial_snappy : SnappyLib := {|
  snappy_compress p := EncodeVarint64 0 ++ p;
  snappy_length p := Some (size_of p - 1);
  snappy_uncompress p := Some (drop 1 p)
|}.

#[export] Instance trivial_snappy_laws : SnappyLaws trivial_snappy.
Proof.
  split; intros p; cbn [trivial_snappy snappy_compress snappy_length snappy_uncompress];
    (change (EncodeVarint64 0) with [z2b 0]); cbn [app]; [|done]. rewrite size_of_cons. f_equal. lia.
Qed.

Lemma block_read_back_witness : exists c,
  ReadBlock (Some trivial_snappy) true true (mkBlockHandle 3 6)
    (str "abc" ++ snappy_compress trivial_snappy (str "block") ++
     block_trailer kSnappyCompression (snappy_compress trivial_snappy (str "block")) ++ str "rest") = (OK, c) /\
  data c = str "block".
Proof.
  destruct (block_read_back (Some trivial_snappy)
    (str "abc" ++ snappy_compress trivial_snappy (str "block") ++
     block_trailer kSnappyCompression (snappy_compress trivial_snappy (str "block")) ++ str "rest") true) as [H _].
  apply (H true (str "abc") (snappy_compress trivial_snappy (str "block")) kSnappyCompression (str "block") (str "rest")).
  - reflexivity.
  - reflexivity.
  - split; [exact (snappy_length_ok (l := trivial_snappy) (str "block"))|exact (snappy_uncompress_ok (l := trivial_snappy) (str "block"))].
  - vm_compute. reflexivity.
Defined.
