(* ===== verification/TwoLevel.v ===== *)
(** * TwoLevel: the iterator of an index of blocks

    Models [table/two_level_iterator.cpp].  The index iterator gives a handle for
    each block; [block_function] makes the iterator of a block.  The theorem is
    proved against [IteratorLaws] of both: the two-level iterator is a cursor on
    the entries of the blocks one after the other. *)

From S2P Require Import Prelude Slice Comparator Iterator.

Section TwoLevel.
Context {I D : Type} `{!Iterator I} `{!Iterator D}.

(** [block_function_] applied to its [arg] and options. *)
Context (block_function : bytes -> D).

(** The loops over blocks stop after at most [fuel] of them. *)
Context (fuel : nat).

Record TwoLevelIterator : Type := mkTwoLevel {
  status_ : Status;
  index_iter : IteratorWrapper I;
  data_iter : IteratorWrapper D;
  data_block_handle : bytes
}.

Definition NewTwoLevelIterator (index : I) : TwoLevelIterator :=
  mkTwoLevel OK (Wrapper_make (Some index)) (Wrapper_make None) [].

Definition set_index (w : IteratorWrapper I) (t : TwoLevelIterator) : TwoLevelIterator :=
  mkTwoLevel (status_ t) w (data_iter t) (data_block_handle t).
Definition set_data (w : IteratorWrapper D) (t : TwoLevelIterator) : TwoLevelIterator :=
  mkTwoLevel (status_ t) (index_iter t) w (data_block_handle t).

Definition SaveError (s : Status) (t : TwoLevelIterator) : TwoLevelIterator :=
  if ok (status_ t) && negb (ok s) then mkTwoLevel s (index_iter t) (data_iter t) (data_block_handle t) else t.

Definition SetDataIterator (d : option D) (t : TwoLevelIterator) : TwoLevelIterator :=
  let t := match iter (data_iter t) with Some _ => SaveError (status (data_iter t)) t | None => t end in
  set_data (Wrapper_Set d (data_iter t)) t.

Definition InitDataBlock (t : TwoLevelIterator) : TwoLevelIterator :=
  if negb (Valid (index_iter t)) then SetDataIterator None t
  else
    let handle := value (index_iter t) in
    if match iter (data_iter t) with Some _ => true | None => false end &&
       match compare handle (data_block_handle t) with Eq => true | _ => false end
    then t
    else
      let iter := block_function handle in
      SetDataIterator (Some iter) (mkTwoLevel (status_ t) (index_iter t) (data_iter t) handle).

(** [if (data_iter_.iter() != NULL) data_iter_.f()]. *)
Definition on_data (f : IteratorWrapper D -> IteratorWrapper D) (t : TwoLevelIterator) : TwoLevelIterator :=
  match iter (data_iter t) with Some _ => set_data (f (data_iter t)) t | None => t end.

(** [data_iter_.iter() == NULL || !data_iter_.Valid()]. *)
Definition data_done (t : TwoLevelIterator) : bool :=
  match iter (data_iter t) with Some _ => negb (Valid (data_iter t)) | None => true end.

Fixpoint SkipForward_loop (fuel : nat) (t : TwoLevelIterator) : TwoLevelIterator :=
  match fuel with
  | O => t
  | S fuel =>
      if data_done t then
        if negb (Valid (index_iter t)) then SetDataIterator None t
        else
          let t := set_index (Next (index_iter t)) t in
          let t := InitDataBlock t in
          SkipForward_loop fuel (on_data SeekToFirst t)
      else t
  end.
Definition SkipEmptyDataBlocksForward : TwoLevelIterator -> TwoLevelIterator := SkipForward_loop fuel.

Fixpoint SkipBackward_loop (fuel : nat) (t : TwoLevelIterator) : TwoLevelIterator :=
  match fuel with
  | O => t
  | S fuel =>
      if data_done t then
        if negb (Valid (index_iter t)) then SetDataIterator None t
        else
          let t := set_index (Prev (index_iter t)) t in
          let t := InitDataBlock t in
          SkipBackward_loop fuel (on_data SeekToLast t)
      else t
  end.
Definition SkipEmptyDataBlocksBackward : TwoLevelIterator -> TwoLevelIterator := SkipBackward_loop fuel.

Definition TwoLevel_Seek (target : bytes) (t : TwoLevelIterator) : TwoLevelIterator :=
  let t := InitDataBlock (set_index (Seek target (index_iter t)) t) in
  SkipEmptyDataBlocksForward (on_data (Seek target) t).

Definition TwoLevel_SeekToFirst (t : TwoLevelIterator) : TwoLevelIterator :=
  let t := InitDataBlock (set_index (SeekToFirst (index_iter t)) t) in
  SkipEmptyDataBlocksForward (on_data SeekToFirst t).

Definition TwoLevel_SeekToLast (t : TwoLevelIterator) : TwoLevelIterator :=
  let t := InitDataBlock (set_index (SeekToLast (index_iter t)) t) in
  SkipEmptyDataBlocksBackward (on_data SeekToLast t).

Definition TwoLevel_Next (t : TwoLevelIterator) : TwoLevelIterator :=
  SkipEmptyDataBlocksForward (set_data (Next (data_iter t)) t).
Definition TwoLevel_Prev (t : TwoLevelIterator) : TwoLevelIterator :=
  SkipEmptyDataBlocksBackward (set_data (Prev (data_iter t)) t).

Definition TwoLevel_status (t : TwoLevelIterator) : Status :=
  if negb (ok (status (index_iter t))) then status (index_iter t)
  else if match iter (data_iter t) with Some _ => negb (ok (status (data_iter t))) | None => false end
  then status (data_iter t)
  else status_ t.

#[export] Instance TwoLevel_Iterator : Iterator TwoLevelIterator := {|
  Valid t := Valid (data_iter t);
  key t := key (data_iter t);
  value t := value (data_iter t);
  status := TwoLevel_status;
  SeekToFirst := TwoLevel_SeekToFirst;
  SeekToLast := TwoLevel_SeekToLast;
  Seek := TwoLevel_Seek;
  Next := TwoLevel_Next;
  Prev := TwoLevel_Prev
|}.

(** ** The entries of the blocks *)

Context (c : Comparator) `{!ComparatorLaws c}.
Context (index : list (bytes * bytes)) (irep : I -> option nat -> Prop) `{!IteratorLaws c index irep}.

(** The entries of the block of a handle, and what relates its iterator to
    them. *)
Context (contents : bytes -> list (bytes * bytes)) (drep : bytes -> D -> option nat -> Prop).
Context (Hlaws : forall h, h ∈ map snd index -> IteratorLaws c (contents h) (drep h)).
Context (Hnew : forall h, h ∈ map snd index -> drep h (block_function h) None).
Context (Hfuel : (length index + 1 < fuel)%nat).

(** The first [i] blocks one after the other. *)
Definition upto (i : nat) : list (bytes * bytes) := concat (map (fun e => contents (snd e)) (take i index)).
Definition all_entries : list (bytes * bytes) := concat (map (fun e => contents (snd e)) index).

(** An index key is at or after the keys of its block and before those of the
    blocks that follow. *)
Context (Hupper : forall i k h e, index !! i = Some (k, h) -> e ∈ contents h -> Compare c (fst e) k <> Gt).
Context (Hlower : forall i j k h k' h' e, index !! i = Some (k, h) -> index !! j = Some (k', h') -> (i < j)%nat ->
  e ∈ contents h' -> Compare c k (fst e) = Lt).

Lemma upto_S i k h : index !! i = Some (k, h) -> upto (S i) = upto i ++ contents h.
Proof. intros Hi. unfold upto. rewrite (take_S_r _ _ _ Hi), map_app, concat_app. cbn. by rewrite app_nil_r. Qed.

Lemma upto_all : upto (length index) = all_entries.
Proof. unfold upto. by rewrite take_ge. Qed.

Lemma upto_split i : all_entries = upto i ++ concat (map (fun e => contents (snd e)) (drop i index)).
Proof. unfold upto, all_entries. by rewrite <- concat_app, <- map_app, take_drop. Qed.

Definition off (i : nat) : nat := length (upto i).
Definition total : nat := length all_entries.

Lemma off_S i k h : index !! i = Some (k, h) -> off (S i) = (off i + length (contents h))%nat.
Proof. intros Hi. unfold off. by rewrite (upto_S i k h Hi), length_app. Qed.

Lemma off_end i : (length index <= i)%nat -> off i = total.
Proof. intros Hi. unfold off, total. rewrite <- upto_all. unfold upto. by rewrite !take_ge by lia. Qed.

Lemma off_le i : (off i <= total)%nat.
Proof. unfold off, total. rewrite (upto_split i), length_app. lia. Qed.

Lemma entry_at i k h j : index !! i = Some (k, h) -> (j < length (contents h))%nat ->
  all_entries !! (off i + j)%nat = contents h !! j.
Proof.
  intros Hi Hj. rewrite (upto_split (S i)), (upto_S i k h Hi), <- app_assoc. unfold off.
  rewrite lookup_app_r by lia. rewrite lookup_app_l by lia. f_equal. lia.
Qed.

Lemma handle_in i k h : index !! i = Some (k, h) -> h ∈ map snd index.
Proof. intros Hi. apply list_elem_of_fmap. exists (k, h). split; [done|]. by eapply list_elem_of_lookup_2. Qed.

(** ** The states *)

Definition at_data (t : TwoLevelIterator) (h : bytes) (q : option nat) : Prop :=
  data_block_handle t = h /\ h ∈ map snd index /\ wrapper_rep (drep h) (data_iter t) q.

Definition no_data (t : TwoLevelIterator) : Prop := iter (data_iter t) = None /\ valid_ (data_iter t) = false.

(** Any state: the status is good, the index is somewhere, and so is the data,
    if there is any. *)
Definition loose (t : TwoLevelIterator) : Prop :=
  ok (status_ t) = true /\ (exists q, wrapper_rep irep (index_iter t) q) /\
  (no_data t \/ exists h q, at_data t h q).

Definition two_rep (t : TwoLevelIterator) (p : option nat) : Prop :=
  loose t /\
  match p with
  | None => no_data t
  | Some p => exists i k h j, wrapper_rep irep (index_iter t) (Some i) /\ index !! i = Some (k, h) /\
      at_data t h (Some j) /\ (j < length (contents h))%nat /\ p = (off i + j)%nat
  end.

Lemma at_data_status t h q : at_data t h q -> ok (status (data_iter t)) = true.
Proof.
  intros (_ & Hh & Hr). pose proof (Hlaws h Hh).
  by apply (rep_status (IteratorLaws := IteratorWrapper_laws c (contents h) (drep h)) _ _ Hr).
Qed.

Lemma SetDataIterator_loose d t : ok (status_ t) = true -> (no_data t \/ exists h q, at_data t h q) ->
  SetDataIterator d t = set_data (Wrapper_Set d (data_iter t)) t.
Proof.
  intros Hs Hd. unfold SetDataIterator. destruct (iter (data_iter t)) eqn:E; [|done].
  destruct Hd as [[Hn _]|(h & q & Hd)]; [congruence|]. unfold SaveError.
  rewrite (at_data_status t h q Hd), andb_false_r. done.
Qed.

Lemma InitDataBlock_None t : loose t -> wrapper_rep irep (index_iter t) None ->
  InitDataBlock t = set_data (Wrapper_Set None (data_iter t)) t.
Proof.
  intros (Hs & _ & Hd) Hi. unfold InitDataBlock.
  rewrite (rep_valid (IteratorLaws := IteratorWrapper_laws c index irep) _ _ Hi). cbn [negb bool_decide].
  rewrite bool_decide_eq_false_2 by (by intros [? ?]). by apply SetDataIterator_loose.
Qed.

Lemma InitDataBlock_Some t i k h : loose t -> wrapper_rep irep (index_iter t) (Some i) -> index !! i = Some (k, h) ->
  ok (status_ (InitDataBlock t)) = true /\ index_iter (InitDataBlock t) = index_iter t /\
  exists q, at_data (InitDataBlock t) h q.
Proof.
  intros (Hs & _ & Hd) Hi He. unfold InitDataBlock.
  rewrite (rep_valid (IteratorLaws := IteratorWrapper_laws c index irep) _ _ Hi), bool_decide_eq_true_2 by eauto.
  assert (Hv : value (index_iter t) = h).
  { pose proof (rep_entry (IteratorLaws := IteratorWrapper_laws c index irep) _ _ Hi). congruence. }
  rewrite Hv. cbn [negb].
  destruct (match iter (data_iter t) with Some _ => true | None => false end && _) eqn:E.
  - apply andb_prop in E as [E1 E2]. destruct (compare h (data_block_handle t)) eqn:Ec; [|done..].
    apply compare_eq_iff in Ec as ->. split; [done|]. split; [done|].
    destruct Hd as [[Hn _]|(h' & q & Hd)]; [by rewrite Hn in E1|]. exists q. pose proof Hd as (-> & _). exact Hd.
  - set (t1 := mkTwoLevel _ _ _ h).
    assert (E1 : SetDataIterator (Some (block_function h)) t1 = set_data (Wrapper_Set (Some (block_function h)) (data_iter t)) t1).
    { unfold SetDataIterator. cbn [data_iter t1]. destruct (iter (data_iter t)) eqn:E2; [|done].
      destruct Hd as [[Hn _]|(h' & q & Hd)]; [congruence|]. unfold SaveError.
      by rewrite (at_data_status t h' q Hd), andb_false_r. }
    rewrite E1. split; [done|]. split; [done|]. exists None. split; [done|]. pose proof (handle_in i k h He) as Hin.
    split; [done|]. by apply Update_rep, Hnew.
Qed.

(** The data iterator moves. *)
Lemma on_data_at (f : IteratorWrapper D -> IteratorWrapper D) t h q q' : at_data t h q ->
  wrapper_rep (drep h) (f (data_iter t)) q' ->
  on_data f t = set_data (f (data_iter t)) t /\ at_data (set_data (f (data_iter t)) t) h q'.
Proof.
  intros (Hb & Hh & Hr) Hf. pose proof Hr as (s & Es & _). unfold on_data. rewrite Es. split; [done|].
  split; [done|]. by split.
Qed.

Lemma no_data_set t : no_data (set_data (Wrapper_Set None (data_iter t)) t).
Proof. done. Qed.

Lemma at_data_done t h q : at_data t h q -> data_done t = negb (bool_decide (is_Some q)).
Proof.
  intros (_ & Hh & Hr). pose proof Hr as (s & Es & _). unfold data_done. rewrite Es. f_equal.
  pose proof (Hlaws h Hh). apply (rep_valid (IteratorLaws := IteratorWrapper_laws c (contents h) (drep h)) _ _ Hr).
Qed.

Lemma no_data_done t : no_data t -> data_done t = true.
Proof. intros [E _]. unfold data_done. by rewrite E. Qed.

Lemma index_valid t q : wrapper_rep irep (index_iter t) q -> Valid (index_iter t) = bool_decide (is_Some q).
Proof. apply (rep_valid (IteratorLaws := IteratorWrapper_laws c index irep)). Qed.

(** The index has ended: so does the loop. *)
Lemma Skip_end t (loop : nat -> TwoLevelIterator -> TwoLevelIterator) n :
  (loop = SkipForward_loop \/ loop = SkipBackward_loop) -> (0 < n)%nat ->
  ok (status_ t) = true -> wrapper_rep irep (index_iter t) None -> no_data t -> two_rep (loop n t) None.
Proof.
  intros Hl Hn Hs Hi Hd. assert (E : loop n t = SetDataIterator None t).
  { destruct n as [|n]; [lia|]. destruct Hl as [-> | ->]; cbn [SkipForward_loop SkipBackward_loop];
      rewrite (no_data_done t Hd), (index_valid t None Hi); by rewrite bool_decide_eq_false_2 by (by intros [? ?]). }
  rewrite E, SetDataIterator_loose by (done || by left). split; [|apply no_data_set].
  split; [done|]. split; [by exists None|]. by left.
Qed.

(** The first entry of block [i] or, when it has none, of a later one. *)
Definition first_from (i : nat) : option nat := if (off i <? total)%nat then Some (off i) else None.

Lemma first_block i k h : index !! i = Some (k, h) ->
  match first_position (contents h) with Some j => Some (off i + j)%nat | None => first_from (S i) end = first_from i.
Proof.
  intros He. unfold first_position, first_from. pose proof (off_S i k h He) as Ho. pose proof (off_le (S i)).
  destruct (contents h) as [|e es]; simpl in Ho; [by rewrite Ho, Nat.add_0_r|].
  destruct (Nat.ltb_spec (off i) total); [by rewrite Nat.add_0_r|lia].
Qed.

Lemma SkipForward_spec n t i k h q :
  (length index < n + i)%nat -> ok (status_ t) = true -> wrapper_rep irep (index_iter t) (Some i) ->
  index !! i = Some (k, h) -> at_data t h q -> (forall j, q = Some j -> (j < length (contents h))%nat) ->
  two_rep (SkipForward_loop n t) (match q with Some j => Some (off i + j)%nat | None => first_from (S i) end).
Proof.
  revert t i k h q. induction n as [|n IH]; intros t i k h q Hn Hs Hi He Hd Hj.
  { apply lookup_lt_Some in He. lia. }
  cbn [SkipForward_loop]. rewrite (at_data_done t h q Hd). destruct q as [j|].
  { rewrite bool_decide_eq_true_2 by eauto. cbn [negb]. split; [split; [done|split; [by exists (Some i)|right; by exists h, (Some j)]]|].
    exists i, k, h, j. split; [done|]. split; [done|]. split; [done|]. split; [by apply Hj|done]. }
  rewrite bool_decide_eq_false_2 by (by intros [? ?]). cbn [negb].
  rewrite (index_valid t _ Hi), bool_decide_eq_true_2 by eauto. cbn [negb].
  pose proof (rep_next (IteratorLaws := IteratorWrapper_laws c index irep) _ _ Hi) as Hnext.
  set (t1 := set_index (Next (index_iter t)) t).
  assert (Hl1 : loose t1).
  { split; [done|]. split; [by eexists|]. right. by exists h, None. }
  destruct (index !! S i) as [[k' h']|] eqn:He'.
  - pose proof (lookup_lt_Some _ _ _ He') as Hlt. rewrite next_position_Some in Hnext by done.
    destruct (InitDataBlock_Some t1 (S i) k' h' Hl1 Hnext He') as (Hs2 & Hi2 & q2 & Hd2).
    set (t2 := InitDataBlock t1) in *. pose proof Hd2 as (_ & Hin & Hr2). pose proof (Hlaws h' Hin).
    pose proof (rep_first (IteratorLaws := IteratorWrapper_laws c (contents h') (drep h')) _ _ Hr2) as Hf.
    destruct (on_data_at SeekToFirst t2 h' _ _ Hd2 Hf) as [-> Hd3].
    rewrite <- (first_block (S i) k' h' He').
    apply (IH _ (S i) k' h'); [lia|exact Hs2| |done|done|].
    + cbn [index_iter set_data]. rewrite Hi2. exact Hnext.
    + intros j Hj'. unfold first_position in Hj'. destruct (contents h'); [done|]. injection Hj' as <-. simpl. lia.
  - apply lookup_ge_None in He'. rewrite next_position_None in Hnext by done.
    rewrite (InitDataBlock_None t1 Hl1 Hnext). unfold first_from. rewrite (off_end (S i)), Nat.ltb_irrefl by done.
    apply (Skip_end _ SkipForward_loop); [by left|apply lookup_lt_Some in He; lia|done|done|done].
Qed.

(** The last entry of the blocks before [i]. *)
Definition last_upto (i : nat) : option nat := match off i with O => None | S p => Some p end.

Lemma last_block i k h : index !! i = Some (k, h) ->
  match last_position (contents h) with Some j => Some (off i + j)%nat | None => last_upto i end = last_upto (S i).
Proof.
  intros He. unfold last_position, last_upto. rewrite (off_S i k h He).
  destruct (length (contents h)) as [|m]; [by rewrite Nat.add_0_r|]. by rewrite Nat.add_succ_r.
Qed.

Lemma SkipBackward_spec n t i k h q :
  (i + 1 < n)%nat -> ok (status_ t) = true -> wrapper_rep irep (index_iter t) (Some i) ->
  index !! i = Some (k, h) -> at_data t h q -> (forall j, q = Some j -> (j < length (contents h))%nat) ->
  two_rep (SkipBackward_loop n t) (match q with Some j => Some (off i + j)%nat | None => last_upto i end).
Proof.
  revert t i k h q. induction n as [|n IH]; intros t i k h q Hn Hs Hi He Hd Hj; [lia|].
  cbn [SkipBackward_loop]. rewrite (at_data_done t h q Hd). destruct q as [j|].
  { rewrite bool_decide_eq_true_2 by eauto. cbn [negb]. split; [split; [done|split; [by exists (Some i)|right; by exists h, (Some j)]]|].
    exists i, k, h, j. split; [done|]. split; [done|]. split; [done|]. split; [by apply Hj|done]. }
  rewrite bool_decide_eq_false_2 by (by intros [? ?]). cbn [negb].
  rewrite (index_valid t _ Hi), bool_decide_eq_true_2 by eauto. cbn [negb].
  pose proof (rep_prev (IteratorLaws := IteratorWrapper_laws c index irep) _ _ Hi) as Hprev.
  set (t1 := set_index (Prev (index_iter t)) t).
  assert (Hl1 : loose t1).
  { split; [done|]. split; [by eexists|]. right. by exists h, None. }
  destruct i as [|i].
  - rewrite (InitDataBlock_None t1 Hl1 Hprev).
    apply (Skip_end _ SkipBackward_loop); [by right|lia|done|done|done].
  - pose proof (lookup_lt_Some _ _ _ He) as Hlt. destruct (lookup_lt_is_Some_2 index i ltac:(lia)) as [[k' h'] He'].
    change (prev_position (S i)) with (Some i) in Hprev.
    destruct (InitDataBlock_Some t1 i k' h' Hl1 Hprev He') as (Hs2 & Hi2 & q2 & Hd2).
    set (t2 := InitDataBlock t1) in *. pose proof Hd2 as (_ & Hin & Hr2). pose proof (Hlaws h' Hin).
    pose proof (rep_last (IteratorLaws := IteratorWrapper_laws c (contents h') (drep h')) _ _ Hr2) as Hf.
    destruct (on_data_at SeekToLast t2 h' _ _ Hd2 Hf) as [-> Hd3].
    rewrite <- (last_block i k' h' He').
    apply (IH _ i k' h'); [lia|exact Hs2| |done|done|].
    + cbn [index_iter set_data]. rewrite Hi2. exact Hprev.
    + intros j Hj'. apply last_position_Some in Hj'. lia.
Qed.

Lemma on_data_none (f : IteratorWrapper D -> IteratorWrapper D) t : no_data t -> on_data f t = t.
Proof. intros [E _]. unfold on_data. by rewrite E. Qed.

(** The block of an entry. *)
Lemma entry_block n p e : (p < off n)%nat -> all_entries !! p = Some e ->
  exists i k h, (i < n)%nat /\ index !! i = Some (k, h) /\ e ∈ contents h.
Proof.
  induction n as [|n IH]; intros Hp He; [unfold off in Hp; simpl in Hp; lia|].
  destruct (decide (p < off n)%nat) as [Hlt|Hge].
  - destruct (IH Hlt He) as (i & k & h & Hi & H). exists i, k, h. split; [lia|done].
  - destruct (index !! n) as [[k h]|] eqn:E.
    + exists n, k, h. split; [lia|]. split; [done|]. rewrite (off_S n k h E) in Hp.
      rewrite <- (Nat.sub_add (off n) p), Nat.add_comm, (entry_at n k h) in He by (done || lia).
      by eapply list_elem_of_lookup_2.
    + apply lookup_ge_None in E. rewrite (off_end (S n)) in Hp by lia. rewrite (off_end n) in Hge by lia. lia.
Qed.

Lemma entry_later i p e : (off i <= p)%nat -> all_entries !! p = Some e ->
  exists j k h, (i <= j)%nat /\ index !! j = Some (k, h) /\ e ∈ contents h.
Proof.
  intros Hp He. rewrite (upto_split i), lookup_app_r in He by done.
  apply list_elem_of_lookup_2 in He. apply list_elem_of_In, in_concat in He as (l & Hl & Hin).
  apply in_map_iff in Hl as ([k h] & <- & Hkh). apply list_elem_of_In, list_elem_of_lookup_1 in Hkh as [j Hj].
  rewrite lookup_drop in Hj. exists (i + j)%nat, k, h. split; [lia|]. split; [done|]. by apply list_elem_of_In.
Qed.

Lemma seek_two target i k h : index !! i = Some (k, h) -> seek_position c index target = Some i ->
  match seek_position c (contents h) target with Some j => Some (off i + j)%nat | None => first_from (S i) end =
  seek_position c all_entries target.
Proof.
  intros He Hseek. apply (seek_position_Some c) in Hseek as (e0 & He0 & Hge & Hbefore).
  rewrite He in He0. injection He0 as <-. cbn [fst] in Hge.
  assert (Hlow : forall p e, (p < off i)%nat -> all_entries !! p = Some e -> Compare c (fst e) target = Lt).
  { intros p e Hp Hpe. destruct (entry_block i p e Hp Hpe) as (i' & k' & h' & Hi' & Hin' & Hmem).
    apply (compare_le_lt_trans _ k'); [by eapply Hupper|]. by apply (Hbefore i' (k', h')). }
  symmetry. destruct (seek_position c (contents h) target) as [j|] eqn:Ej.
  - apply (seek_position_Some c) in Ej as (e & Hj & Hne & Hbj). apply (seek_position_Some c). exists e.
    pose proof (lookup_lt_Some _ _ _ Hj) as Hlt. split; [by rewrite (entry_at i k h)|]. split; [done|].
    intros p e' Hp Hlt'. destruct (decide (p < off i)%nat) as [|Hn]; [by apply (Hlow p)|].
    replace p with (off i + (p - off i))%nat in Hp by lia. rewrite (entry_at i k h) in Hp by (done || lia).
    apply (Hbj (p - off i)%nat); [done|lia].
  - assert (Hall : forall p e, (p < off (S i))%nat -> all_entries !! p = Some e -> Compare c (fst e) target = Lt).
    { intros p e Hp Hpe. destruct (decide (p < off i)%nat) as [|Hn]; [by apply (Hlow p)|].
      rewrite (off_S i k h He) in Hp. replace p with (off i + (p - off i))%nat in Hpe by lia.
      rewrite (entry_at i k h) in Hpe by (done || lia).
      by apply (proj1 (seek_position_None c _ _) Ej (p - off i)%nat). }
    unfold first_from. destruct (Nat.ltb_spec (off (S i)) total) as [Hlt|Hge'].
    + destruct (lookup_lt_is_Some_2 all_entries (off (S i)) Hlt) as [e Hpe]. apply (seek_position_Some c).
      exists e. split; [done|]. split; [|intros p e' H1 H2; by apply (Hall p)].
      destruct (entry_later (S i) _ e (le_n _) Hpe) as (j & k' & h' & Hij & Hj & Hmem). intros Hl. apply Hge.
      apply (compare_lt_trans _ (fst e)); [|done]. by eapply (Hlower i j k h k' h' e).
    + apply (seek_position_None c). intros p e Hpe. apply (Hall p); [|done].
      apply lookup_lt_Some in Hpe. unfold total in Hge'. lia.
Qed.

Lemma seek_two_None target : seek_position c index target = None -> seek_position c all_entries target = None.
Proof.
  intros Hn. apply (seek_position_None c). intros p e Hp.
  pose proof (lookup_lt_Some _ _ _ Hp) as Hlt. fold total in Hlt. rewrite <- (off_end (length index)) in Hlt by done.
  destruct (entry_block _ p e Hlt Hp) as (i & k & h & _ & Hi & Hmem).
  apply (compare_le_lt_trans _ k); [by eapply Hupper|]. by apply (proj1 (seek_position_None c _ _) Hn i (k, h)).
Qed.

(** A search: the index goes to a position, and the data iterator of its block
    to another. *)
Lemma search_forward t (fi : IteratorWrapper I -> IteratorWrapper I) (fd : IteratorWrapper D -> IteratorWrapper D) qi
    (qd : bytes -> option nat) :
  loose t -> wrapper_rep irep (fi (index_iter t)) qi ->
  (forall w h q, h ∈ map snd index -> wrapper_rep (drep h) w q -> wrapper_rep (drep h) (fd w) (qd h)) ->
  (forall h j, h ∈ map snd index -> qd h = Some j -> (j < length (contents h))%nat) ->
  let t' := on_data fd (InitDataBlock (set_index (fi (index_iter t)) t)) in
  match qi with
  | None => ok (status_ t') = true /\ wrapper_rep irep (index_iter t') None /\ no_data t'
  | Some i => forall k h, index !! i = Some (k, h) ->
      ok (status_ t') = true /\ wrapper_rep irep (index_iter t') (Some i) /\ at_data t' h (qd h)
  end.
Proof.
  intros (Hs & Hi & Hd) Hfi Hfd Hqd t'. subst t'. set (t1 := set_index (fi (index_iter t)) t).
  assert (Hl : loose t1) by (split; [done|]; split; [by exists qi|done]). destruct qi as [i|].
  - intros k h He. destruct (InitDataBlock_Some t1 i k h Hl Hfi He) as (Hs2 & Hi2 & q2 & Hd2).
    pose proof Hd2 as (_ & Hin & Hr2). destruct (on_data_at fd _ h _ _ Hd2 (Hfd _ h q2 Hin Hr2)) as [-> Hd3].
    split; [done|]. split; [cbn [index_iter set_data]; by rewrite Hi2|done].
  - rewrite (InitDataBlock_None t1 Hl Hfi), on_data_none by apply no_data_set. done.
Qed.

Lemma seek_position_lt target (l : list (bytes * bytes)) j : seek_position c l target = Some j -> (j < length l)%nat.
Proof. intros H. apply (seek_position_Some c) in H as (e & He & _). by eapply lookup_lt_Some. Qed.

Lemma TwoLevel_Seek_rep t target : size_of target < 2 ^ 32 -> loose t ->
  two_rep (TwoLevel_Seek target t) (seek_position c all_entries target).
Proof.
  intros Ht Hl. pose proof Hl as (_ & [q Hq] & _).
  pose proof (rep_seek (IteratorLaws := IteratorWrapper_laws c index irep) _ _ target Ht Hq) as Hi.
  pose proof (search_forward t (Seek target) (Seek target) _ (fun h => seek_position c (contents h) target) Hl Hi) as H.
  cbn beta in H. unfold TwoLevel_Seek, SkipEmptyDataBlocksForward.
  destruct (seek_position c index target) as [i|] eqn:E.
  - pose proof (seek_position_lt _ _ _ E) as Hlt. destruct (lookup_lt_is_Some_2 index i Hlt) as [[k h] He].
    destruct (H) with (k := k) (h := h) as (Hs' & Hi' & Hd'); [|intros; by eapply seek_position_lt|done|].
    + intros w h' q' Hin Hw. pose proof (Hlaws h' Hin).
      by apply (rep_seek (IteratorLaws := IteratorWrapper_laws c (contents h') (drep h')) w q').
    + rewrite <- (seek_two target i k h He E). apply (SkipForward_spec fuel _ i k h); [lia|done..|].
      intros j. apply seek_position_lt.
  - rewrite (seek_two_None target E). destruct H as (Hs' & Hi' & Hd'); [|intros; by eapply seek_position_lt|].
    + intros w h' q' Hin Hw. pose proof (Hlaws h' Hin).
      by apply (rep_seek (IteratorLaws := IteratorWrapper_laws c (contents h') (drep h')) w q').
    + apply (Skip_end _ SkipForward_loop); [by left|lia|done..].
Qed.

Lemma TwoLevel_SeekToFirst_rep t : loose t -> two_rep (TwoLevel_SeekToFirst t) (first_position all_entries).
Proof.
  intros Hl. pose proof Hl as (_ & [q Hq] & _).
  pose proof (rep_first (IteratorLaws := IteratorWrapper_laws c index irep) _ _ Hq) as Hi.
  pose proof (search_forward t SeekToFirst SeekToFirst _ (fun h => first_position (contents h)) Hl Hi) as H.
  cbn beta in H. unfold TwoLevel_SeekToFirst, SkipEmptyDataBlocksForward.
  assert (Hfd : forall w h q, h ∈ map snd index -> wrapper_rep (drep h) w q ->
    wrapper_rep (drep h) (SeekToFirst w) (first_position (contents h))).
  { intros w h' q' Hin Hw. pose proof (Hlaws h' Hin).
    by apply (rep_first (IteratorLaws := IteratorWrapper_laws c (contents h') (drep h')) w q'). }
  assert (Hlt : forall h j, h ∈ map snd index -> first_position (contents h) = Some j -> (j < length (contents h))%nat).
  { intros h j _. unfold first_position. destruct (contents h); [done|]. intros [= <-]. simpl. lia. }
  specialize (H Hfd Hlt). replace (first_position all_entries) with (first_from 0).
  2: { unfold first_position, first_from, total, off, upto. simpl. by destruct all_entries. }
  destruct (index !! 0%nat) as [[k h]|] eqn:He.
  - assert (E : first_position index = Some O) by (by destruct index). rewrite E in H.
    destruct (H k h He) as (Hs' & Hi' & Hd'). rewrite <- (first_block 0 k h He).
    apply (SkipForward_spec fuel _ 0 k h); [lia|done..|]. intros j. apply Hlt. by apply (handle_in 0 k).
  - assert (E : first_position index = None) by (by destruct index). rewrite E in H. destruct H as (Hs' & Hi' & Hd').
    unfold first_from. rewrite (off_end 0) by (by apply lookup_ge_None). rewrite Nat.ltb_irrefl.
    apply (Skip_end _ SkipForward_loop); [by left|lia|done..].
Qed.

Lemma TwoLevel_SeekToLast_rep t : loose t -> two_rep (TwoLevel_SeekToLast t) (last_position all_entries).
Proof.
  intros Hl. pose proof Hl as (_ & [q Hq] & _).
  pose proof (rep_last (IteratorLaws := IteratorWrapper_laws c index irep) _ _ Hq) as Hi.
  pose proof (search_forward t SeekToLast SeekToLast _ (fun h => last_position (contents h)) Hl Hi) as H.
  cbn beta in H. unfold TwoLevel_SeekToLast, SkipEmptyDataBlocksBackward.
  assert (Hfd : forall w h q, h ∈ map snd index -> wrapper_rep (drep h) w q ->
    wrapper_rep (drep h) (SeekToLast w) (last_position (contents h))).
  { intros w h' q' Hin Hw. pose proof (Hlaws h' Hin).
    by apply (rep_last (IteratorLaws := IteratorWrapper_laws c (contents h') (drep h')) w q'). }
  assert (Hlt : forall h j, h ∈ map snd index -> last_position (contents h) = Some j -> (j < length (contents h))%nat).
  { intros h j _ E. apply last_position_Some in E. lia. }
  specialize (H Hfd Hlt). replace (last_position all_entries) with (last_upto (length index)).
  2: { unfold last_position, last_upto. by rewrite (off_end (length index)) by done. }
  destruct (last_position index) as [i|] eqn:E.
  - apply last_position_Some in E as Hlen. destruct (lookup_lt_is_Some_2 index i ltac:(lia)) as [[k h] He].
    destruct (H k h He) as (Hs' & Hi' & Hd'). rewrite Hlen, <- (last_block i k h He).
    apply (SkipBackward_spec fuel _ i k h); [lia|done..|]. intros j. apply Hlt. by apply (handle_in i k).
  - destruct H as (Hs' & Hi' & Hd').
    assert (Hlen : length index = O) by (unfold last_position in E; by destruct (length index)).
    rewrite Hlen. apply (Skip_end _ SkipBackward_loop); [by right|lia|done..].
Qed.

Lemma TwoLevel_Next_rep t p : two_rep t (Some p) -> two_rep (TwoLevel_Next t) (next_position all_entries p).
Proof.
  intros [(Hs & _) (i & k & h & j & Hi & He & (Hb & Hin & Hr) & Hj & ->)]. pose proof (Hlaws h Hin).
  pose proof (rep_next (IteratorLaws := IteratorWrapper_laws c (contents h) (drep h)) _ _ Hr) as Hn.
  replace (next_position all_entries (off i + j)) with
    (match next_position (contents h) j with Some j => Some (off i + j)%nat | None => first_from (S i) end).
  - apply (SkipForward_spec fuel _ i k h); [lia|done|done|done| |].
    + split; [done|]. by split.
    + intros j' Hj'. unfold next_position in Hj'. destruct (Nat.ltb_spec (S j) (length (contents h))); [|done].
      by injection Hj' as <-.
  - pose proof (off_S i k h He) as Ho. pose proof (off_le (S i)). unfold next_position, first_from. fold total.
    destruct (Nat.ltb_spec (S j) (length (contents h))), (Nat.ltb_spec (S (off i + j)) total);
      try (destruct (Nat.ltb_spec (off (S i)) total)); try lia; f_equal; lia.
Qed.

Lemma TwoLevel_Prev_rep t p : two_rep t (Some p) -> two_rep (TwoLevel_Prev t) (prev_position p).
Proof.
  intros [(Hs & _) (i & k & h & j & Hi & He & (Hb & Hin & Hr) & Hj & ->)]. pose proof (Hlaws h Hin).
  pose proof (rep_prev (IteratorLaws := IteratorWrapper_laws c (contents h) (drep h)) _ _ Hr) as Hn.
  pose proof (lookup_lt_Some _ _ _ He) as Hlt.
  replace (prev_position (off i + j)) with
    (match prev_position j with Some j => Some (off i + j)%nat | None => last_upto i end).
  - apply (SkipBackward_spec fuel _ i k h); [lia|done|done|done| |].
    + split; [done|]. by split.
    + intros j' Hj'. destruct j as [|j]; [done|]. injection Hj' as <-. lia.
  - unfold last_upto. destruct j as [|j]; [rewrite Nat.add_0_r; by destruct (off i)|]. by rewrite Nat.add_succ_r.
Qed.

Lemma TwoLevel_loose_status t : loose t -> ok (TwoLevel_status t) = true.
Proof.
  intros (Hs & [q Hq] & Hd). unfold TwoLevel_status.
  rewrite (rep_status (IteratorLaws := IteratorWrapper_laws c index irep) _ _ Hq). cbn [negb].
  destruct (iter (data_iter t)) eqn:E; [|done]. destruct Hd as [[Hn _]|(h & q' & Hd)]; [congruence|].
  by rewrite (at_data_status t h q' Hd).
Qed.

#[export] Instance TwoLevel_laws : IteratorLaws c all_entries two_rep.
Proof.
  split.
  - intros t [p|] [Hl Hp]; cbn.
    + destruct Hp as (i & k & h & j & _ & _ & (_ & Hin & Hr) & _). pose proof (Hlaws h Hin).
      apply (rep_valid (IteratorLaws := IteratorWrapper_laws c (contents h) (drep h)) _ _ Hr).
    + apply Hp.
  - intros t p [Hl (i & k & h & j & _ & He & (_ & Hin & Hr) & Hj & ->)]. pose proof (Hlaws h Hin).
    rewrite (entry_at i k h j He Hj).
    apply (rep_entry (IteratorLaws := IteratorWrapper_laws c (contents h) (drep h)) _ _ Hr).
  - intros t p [Hl _]. by apply TwoLevel_loose_status.
  - intros t p [Hl _]. by apply TwoLevel_SeekToFirst_rep.
  - intros t p [Hl _]. by apply TwoLevel_SeekToLast_rep.
  - intros t p target Hsz [Hl _]. by apply TwoLevel_Seek_rep.
  - intros t p. apply TwoLevel_Next_rep.
  - intros t p. apply TwoLevel_Prev_rep.
Qed.

Lemma NewTwoLevel_rep (s : I) : irep s None -> two_rep (NewTwoLevelIterator s) None.
Proof.
  intros Hi. split; [|done]. split; [done|]. split; [exists None; by apply Update_rep|by left].
Qed.
End TwoLevel.

(** A two-level iterator whose index and blocks are cursors. *)
Lemma NewTwoLevelIterator_rep {I D : Type} `{!Iterator I} `{!Iterator D} (block_function : bytes -> D) (fuel : nat)
    (c : Comparator) `{!ComparatorLaws c} (index : list (bytes * bytes)) (irep : I -> option nat -> Prop)
    `{!IteratorLaws c index irep} (contents : bytes -> list (bytes * bytes)) (drep : bytes -> D -> option nat -> Prop) (s : I) :
  (forall h, h ∈ map snd index -> IteratorLaws c (contents h) (drep h) /\ drep h (block_function h) None) ->
  (forall i k h e, index !! i = Some (k, h) -> e ∈ contents h -> Compare c (fst e) k <> Gt) ->
  (forall i j k h k' h' e, index !! i = Some (k, h) -> index !! j = Some (k', h') -> (i < j)%nat ->
     e ∈ contents h' -> Compare c k (fst e) = Lt) ->
  (length index + 1 < fuel)%nat -> irep s None ->
  exists rep, IteratorLaws (Iterator0 := TwoLevel_Iterator block_function fuel) c
    (concat (map (fun e => contents (snd e)) index)) rep /\
    rep (NewTwoLevelIterator s) None.
Proof.
  intros Hb Hupper Hlower Hfuel Hs. exists (two_rep index irep contents drep).
  assert (H1 : forall h, h ∈ map snd index -> IteratorLaws c (contents h) (drep h)) by (intros h Hh; by apply Hb).
  assert (H2 : forall h, h ∈ map snd index -> drep h (block_function h) None) by (intros h Hh; by apply Hb).
  split; [by apply TwoLevel_laws|by apply NewTwoLevel_rep].
Qed.

(** ** Properties *)

(** When the index iterator is a cursor on an index, the iterator of each
    block a cursor on the entries of the block, and every index key separates its
    block from the later ones, the two-level iterator is a cursor on the entries
    of all the blocks in order, empty blocks skipped, and starts out invalid.
    [fuel] bounds the blocks that are skipped. *)
Theorem two_level_iterator {I D : Type} `{!Iterator I} `{!Iterator D} (block_function : bytes -> D) (fuel : nat)
    (c : Comparator) `{!ComparatorLaws c} (index : list (bytes * bytes)) (irep : I -> option nat -> Prop)
    `{!IteratorLaws c index irep} (contents : bytes -> list (bytes * bytes)) (drep : bytes -> D -> option nat -> Prop) (s : I) :
  (forall h, h ∈ map snd index -> IteratorLaws c (contents h) (drep h) /\ drep h (block_function h) None) ->
  (forall i k h e, index !! i = Some (k, h) -> e ∈ contents h -> Compare c (fst e) k <> Gt) ->
  (forall i j k h k' h' e, index !! i = Some (k, h) -> index !! j = Some (k', h') -> (i < j)%nat ->
     e ∈ contents h' -> Compare c k (fst e) = Lt) ->
  (length index + 1 < fuel)%nat -> irep s None ->
  exists rep, IteratorLaws (Iterator0 := TwoLevel_Iterator block_function fuel) c
    (concat (map (fun e => contents (snd e)) index)) rep /\
    rep (NewTwoLevelIterator s) None.
Proof. intros. by eapply NewTwoLevelIterator_rep. Qed.

(** Three blocks, the second of them empty. *)
Definition sample_blocks (h : bytes) : list (bytes * bytes) :=
  if bool_decide (h = str "1") then [(str "a", str "x"); (str "b", str "y")]
  else if bool_decide (h = str "3") then [(str "d", str "z")] else [].
Definition sample_index : list (bytes * bytes) := [(str "b", str "1"); (str "c", str "2"); (str "e", str "3")].

#[local] Instance bytewise_list : Iterator ListIterator := ListIterator_Iterator BytewiseComparator.

Lemma two_level_iterator_witness : exists rep,
  IteratorLaws (Iterator0 := TwoLevel_Iterator (fun h => mkListIterator (sample_blocks h) None) 5)
    BytewiseComparator [(str "a", str "x"); (str "b", str "y"); (str "d", str "z")] rep /\
  rep (NewTwoLevelIterator (mkListIterator sample_index None)) None.
Proof.
  apply (two_level_iterator (fun h => mkListIterator (sample_blocks h) None) 5
    BytewiseComparator sample_index
    (fun s p => li_entries s = sample_index /\ li_pos s = p /\ match p with Some i => (i < length sample_index)%nat | None => True end)
    sample_blocks
    (fun h s p => li_entries s = sample_blocks h /\ li_pos s = p /\ match p with Some i => (i < length (sample_blocks h))%nat | None => True end)).
  - intros h _. split; [apply ListIterator_laws; exact _|done].
  - intros i k h e Hi He.
    assert (H : Forall (fun kh : bytes * bytes => Forall (fun e : bytes * bytes =>
      Compare BytewiseComparator (fst e) (fst kh) <> Gt) (sample_blocks (snd kh))) sample_index)
      by (repeat constructor; vm_compute; discriminate).
    rewrite Forall_lookup in H. specialize (H i _ Hi). rewrite Forall_forall in H. by apply H.
  - intros i j k h k' h' e Hi Hj Hlt He.
    assert (H : StronglySorted (fun kh kh' : bytes * bytes => Forall (fun e : bytes * bytes =>
      Compare BytewiseComparator (fst kh) (fst e) = Lt) (sample_blocks (snd kh'))) sample_index)
      by (repeat constructor; vm_compute; reflexivity).
    pose proof (StronglySorted_lookup _ _ _ _ _ _ H Hi Hj Hlt) as H'. rewrite Forall_forall in H'. by apply H'.
  - simpl. lia.
  - done.
Defined.
