(* ===== verification/Merger.v ===== *)
(** * Merger: the iterator that merges sorted iterators

    Models [table/merger.cpp].  The children are iterators with cached keys; the
    current one is an index.  The theorem is proved against [IteratorLaws] of the
    children. *)

From stdpp Require sorting.
From S2P Require Import Prelude Slice Comparator Iterator.

Section Merger.
Context {S : Type} `{!Iterator S} (comparator_ : Comparator).

Variant Direction : Type := kForward | kReverse.

Record MergingIterator : Type := mkMerging {
  children_ : list (IteratorWrapper S);
  current_ : option nat;
  direction_ : Direction
}.

Definition Merging_make (children : list S) : MergingIterator :=
  mkMerging (map (fun s => Wrapper_make (Some s)) children) None kForward.

(** The loops go over the children from number [i] on; [smallest] and [largest]
    come with their numbers. *)
Fixpoint FindSmallest_loop (children : list (IteratorWrapper S)) (i : nat) (smallest : option (nat * IteratorWrapper S)) :
    option (nat * IteratorWrapper S) :=
  match children with
  | [] => smallest
  | child :: children =>
      let smallest :=
        if Valid child then
          match smallest with
          | None => Some (i, child)
          | Some (_, s) =>
              match Compare comparator_ (key child) (key s) with Lt => Some (i, child) | _ => smallest end
          end
        else smallest in
      FindSmallest_loop children (i + 1)%nat smallest
  end.
Definition FindSmallest (children : list (IteratorWrapper S)) : option nat :=
  fst <$> FindSmallest_loop children 0 None.

Fixpoint FindLargest_loop (children : list (IteratorWrapper S)) (i : nat) : option (nat * IteratorWrapper S) :=
  match children with
  | [] => None
  | child :: children =>
      let largest := FindLargest_loop children (i + 1)%nat in
      if Valid child then
        match largest with
        | None => Some (i, child)
        | Some (_, l) =>
            match Compare comparator_ (key child) (key l) with Gt => Some (i, child) | _ => largest end
        end
      else largest
  end.
Definition FindLargest (children : list (IteratorWrapper S)) : option nat :=
  fst <$> FindLargest_loop children 0.

Definition Merging_child (m : MergingIterator) : option (IteratorWrapper S) := current_ m ≫= (fun i => children_ m !! i).
Definition Merging_key (m : MergingIterator) : bytes := match Merging_child m with Some w => key w | None => [] end.
Definition Merging_value (m : MergingIterator) : bytes := match Merging_child m with Some w => value w | None => [] end.

(** The children after [FindSmallest] or [FindLargest]. *)
Definition smallest_first (children : list (IteratorWrapper S)) : MergingIterator :=
  mkMerging children (FindSmallest children) kForward.
Definition largest_first (children : list (IteratorWrapper S)) : MergingIterator :=
  mkMerging children (FindLargest children) kReverse.

Definition Merging_SeekToFirst (m : MergingIterator) : MergingIterator := smallest_first (map SeekToFirst (children_ m)).
Definition Merging_SeekToLast (m : MergingIterator) : MergingIterator := largest_first (map SeekToLast (children_ m)).
Definition Merging_Seek (target : bytes) (m : MergingIterator) : MergingIterator :=
  smallest_first (map (Seek target) (children_ m)).

(** [f] on the children other than the current one. *)
Definition on_others (f : IteratorWrapper S -> IteratorWrapper S) (m : MergingIterator) : list (IteratorWrapper S) :=
  imap (fun i child => if bool_decide (current_ m = Some i) then child else f child) (children_ m).
Definition on_current (f : IteratorWrapper S -> IteratorWrapper S) (m : MergingIterator) (children : list (IteratorWrapper S)) :
    list (IteratorWrapper S) :=
  match current_ m with Some i => alter f i children | None => children end.

(** Positions a child after [key], resp. before it. *)
Definition seek_after (key' : bytes) (child : IteratorWrapper S) : IteratorWrapper S :=
  let child := Seek key' child in
  if Valid child && match Compare comparator_ key' (key child) with Eq => true | _ => false end
  then Next child else child.
Definition seek_before (key' : bytes) (child : IteratorWrapper S) : IteratorWrapper S :=
  let child := Seek key' child in
  if Valid child then Prev child else SeekToLast child.

Definition Merging_Next (m : MergingIterator) : MergingIterator :=
  let children := match direction_ m with
                  | kForward => children_ m
                  | kReverse => on_others (seek_after (Merging_key m)) m
                  end in
  smallest_first (on_current Next m children).

Definition Merging_Prev (m : MergingIterator) : MergingIterator :=
  let children := match direction_ m with
                  | kReverse => children_ m
                  | kForward => on_others (seek_before (Merging_key m)) m
                  end in
  largest_first (on_current Prev m children).

Fixpoint Merging_status_loop (children : list (IteratorWrapper S)) (s : Status) : Status :=
  match children with
  | [] => s
  | child :: children =>
      let s := status child in
      if negb (ok s) then s else Merging_status_loop children s
  end.

#[export] Instance Merging_Iterator : Iterator MergingIterator := {|
  Valid m := match current_ m with Some _ => true | None => false end;
  key := Merging_key;
  value := Merging_value;
  status m := Merging_status_loop (children_ m) OK;
  SeekToFirst := Merging_SeekToFirst;
  SeekToLast := Merging_SeekToLast;
  Seek := Merging_Seek;
  Next := Merging_Next;
  Prev := Merging_Prev
|}.

(** No iterator, the only one, or a merging iterator. *)
Definition NewMergingIterator (list : list S) : EmptyIterator + S + MergingIterator :=
  match list with
  | [] => inl (inl NewEmptyIterator)
  | [s] => inl (inr s)
  | _ => inr (Merging_make list)
  end.

(** ** The smallest and the largest child *)

Context `{!ComparatorLaws comparator_}.

Definition all_above (k : bytes) (ws : list (IteratorWrapper S)) : Prop :=
  Forall (fun w => Valid w = true -> Compare comparator_ k (key w) = Lt) ws.
Definition all_below (k : bytes) (ws : list (IteratorWrapper S)) : Prop :=
  Forall (fun w => Valid w = true -> Compare comparator_ (key w) k = Lt) ws.

Lemma FindSmallest_loop_above ws : forall i n w, all_above (key w) ws ->
  FindSmallest_loop ws i (Some (n, w)) = Some (n, w).
Proof.
  induction ws as [|w' ws IH]; intros i n w Hf; [done|]. apply Forall_cons in Hf as [Hw Hf]. cbn [FindSmallest_loop].
  destruct (Valid w') eqn:E; [|by apply IH].
  assert (Compare comparator_ (key w') (key w) = Gt) as -> by (by apply compare_gt_lt, Hw). by apply IH.
Qed.

Lemma FindSmallest_loop_spec pre w post : forall i s,
  Valid w = true -> all_above (key w) pre -> all_above (key w) post ->
  match s with Some (_, s) => Compare comparator_ (key w) (key s) = Lt | None => True end ->
  FindSmallest_loop (pre ++ w :: post) i s = Some ((i + length pre)%nat, w).
Proof.
  induction pre as [|w' pre IH]; intros i s Hv Hpre Hpost Hs; cbn [app FindSmallest_loop length].
  - rewrite Hv, Nat.add_0_r. destruct s as [[n s]|]; [rewrite Hs|]; by apply FindSmallest_loop_above.
  - apply Forall_cons in Hpre as [Hw Hpre]. replace (i + Datatypes.S (length pre))%nat with (i + 1 + length pre)%nat by lia.
    apply IH; [done..|]. destruct (Valid w') eqn:E; [|done]. destruct s as [[n s]|]; [|by apply Hw].
    destruct (Compare comparator_ (key w') (key s)); [done|by apply Hw|done].
Qed.

Lemma FindSmallest_loop_None ws : forall i, Forall (fun w => Valid w = false) ws -> FindSmallest_loop ws i None = None.
Proof.
  induction ws as [|w ws IH]; intros i Hf; [done|]. apply Forall_cons in Hf as [Hw Hf]. cbn [FindSmallest_loop].
  rewrite Hw. by apply IH.
Qed.

Lemma FindLargest_loop_below ws : forall i k, all_below k ws ->
  match FindLargest_loop ws i with Some (_, l) => Compare comparator_ (key l) k = Lt | None => True end.
Proof.
  induction ws as [|w ws IH]; intros i k Hf; [done|]. apply Forall_cons in Hf as [Hw Hf]. cbn [FindLargest_loop].
  specialize (IH (i + 1)%nat k Hf). destruct (Valid w) eqn:E; [|done].
  destruct (FindLargest_loop ws (i + 1)) as [[n l]|]; [|by apply Hw].
  destruct (Compare comparator_ (key w) (key l)); [done|done|by apply Hw].
Qed.

Lemma FindLargest_loop_spec pre w post : forall i,
  Valid w = true -> all_below (key w) pre -> all_below (key w) post ->
  FindLargest_loop (pre ++ w :: post) i = Some ((i + length pre)%nat, w).
Proof.
  induction pre as [|w' pre IH]; intros i Hv Hpre Hpost; cbn [app FindLargest_loop length].
  - rewrite Hv, Nat.add_0_r. pose proof (FindLargest_loop_below post (i + 1) (key w) Hpost) as H.
    destruct (FindLargest_loop post (i + 1)) as [[n l]|]; [|done].
    assert (Compare comparator_ (key w) (key l) = Gt) as -> by (by apply compare_gt_lt). done.
  - apply Forall_cons in Hpre as [Hw Hpre]. rewrite IH by done.
    replace (i + Datatypes.S (length pre))%nat with (i + 1 + length pre)%nat by lia.
    destruct (Valid w') eqn:E; [|done]. by rewrite (Hw eq_refl).
Qed.

Lemma FindLargest_loop_None ws : forall i, Forall (fun w => Valid w = false) ws -> FindLargest_loop ws i = None.
Proof.
  induction ws as [|w ws IH]; intros i Hf; [done|]. apply Forall_cons in Hf as [Hw Hf]. cbn [FindLargest_loop].
  rewrite Hw. by apply IH.
Qed.

(** Where the others are above, or below, the child [i]. *)
Lemma split_others {A} (P : A -> Prop) (ws : list A) i w : ws !! i = Some w ->
  (forall j x, ws !! j = Some x -> j <> i -> P x) ->
  exists pre post, ws = pre ++ w :: post /\ length pre = i /\ Forall P pre /\ Forall P post.
Proof.
  intros Hi Hp. exists (take i ws), (drop (Datatypes.S i) ws). split; [by rewrite take_drop_middle|].
  pose proof (lookup_lt_Some _ _ _ Hi). split; [rewrite length_take; lia|]. split; apply Forall_lookup; intros j x Hj.
  - apply lookup_take_Some in Hj as [Hj Hlt]. apply (Hp j); [done|lia].
  - rewrite lookup_drop in Hj. apply (Hp _ x Hj). lia.
Qed.

Lemma FindSmallest_spec ws i w : ws !! i = Some w -> Valid w = true ->
  (forall j x, ws !! j = Some x -> j <> i -> Valid x = true -> Compare comparator_ (key w) (key x) = Lt) ->
  FindSmallest ws = Some i.
Proof.
  intros Hi Hv Hp. destruct (split_others _ ws i w Hi Hp) as (pre & post & -> & <- & H1 & H2).
  unfold FindSmallest. by rewrite FindSmallest_loop_spec.
Qed.

Lemma FindLargest_spec ws i w : ws !! i = Some w -> Valid w = true ->
  (forall j x, ws !! j = Some x -> j <> i -> Valid x = true -> Compare comparator_ (key x) (key w) = Lt) ->
  FindLargest ws = Some i.
Proof.
  intros Hi Hv Hp. destruct (split_others _ ws i w Hi Hp) as (pre & post & -> & <- & H1 & H2).
  unfold FindLargest. by rewrite FindLargest_loop_spec.
Qed.

(** ** The merged entries *)

(** The entries of the children, each with its sorted list, and all of them in
    order: no two keys compare equal. *)
Context (ls : list (list (bytes * bytes))) (merged : list (bytes * bytes)) (crep : nat -> S -> option nat -> Prop).
Context (Hlaws : forall i l, ls !! i = Some l -> IteratorLaws comparator_ l (crep i)).
Context (Hsorted : Forall (sorted_entries comparator_) ls).
Context (Hmsorted : sorted_entries comparator_ merged) (Hperm : merged ≡ₚ concat ls).
Context (Hsizes : Forall (fun e => size_of (fst e) < 2 ^ 32) merged).

(** In a sorted list of entries, the position of the first one that comes in
    [merged] at [p] or later, and that of the last one before [p]. *)
Definition from (p : nat) (l : list (bytes * bytes)) : option nat :=
  fst <$> list_find (fun e => e ∈ drop p merged) l.
Definition before (p : nat) (l : list (bytes * bytes)) : option nat :=
  match from p l with Some i => prev_position i | None => last_position l end.

Lemma merged_lt p q x y : merged !! p = Some x -> merged !! q = Some y -> (p < q)%nat -> Compare comparator_ (fst x) (fst y) = Lt.
Proof. intros Hx Hy Hlt. by apply (sorted_entries_lookup comparator_ merged p q). Qed.

Lemma merged_drop p x e : merged !! p = Some x -> e ∈ merged -> (e ∈ drop p merged <-> Compare comparator_ (fst e) (fst x) <> Lt).
Proof.
  intros Hx He. apply list_elem_of_lookup_1 in He as [q Hq]. split.
  - intros Hd. apply list_elem_of_lookup_1 in Hd as [d Hd]. rewrite lookup_drop in Hd. destruct d as [|d].
    + rewrite Nat.add_0_r in Hd. rewrite Hx in Hd. injection Hd as ->. by rewrite compare_refl.
    + intros Hl. pose proof (merged_lt p (p + Datatypes.S d) x e Hx Hd ltac:(lia)) as H.
      apply compare_gt_lt in H. congruence.
  - intros Hc. destruct (decide (p <= q)%nat).
    + apply list_elem_of_lookup. exists (q - p)%nat. rewrite lookup_drop. by replace (p + (q - p))%nat with q by lia.
    + exfalso. apply Hc. apply (merged_lt q p); [done|done|lia].
Qed.

Lemma child_merged i l e : ls !! i = Some l -> e ∈ l -> e ∈ merged.
Proof.
  intros Hl He. rewrite Hperm. apply list_elem_of_In, in_concat. exists l. split; apply list_elem_of_In; [|done].
  by eapply list_elem_of_lookup_2.
Qed.

Lemma merged_NoDup : NoDup merged.
Proof.
  apply NoDup_alt. intros i j x Hi Hj. destruct (Nat.lt_trichotomy i j) as [H|[H|H]]; [exfalso|done|exfalso].
  - pose proof (merged_lt i j x x Hi Hj H) as Hc. by rewrite compare_refl in Hc.
  - pose proof (merged_lt j i x x Hj Hi H) as Hc. by rewrite compare_refl in Hc.
Qed.

(** An entry is in one child only. *)
Lemma child_unique i j l l' e : ls !! i = Some l -> ls !! j = Some l' -> e ∈ l -> e ∈ l' -> i = j.
Proof.
  pose proof merged_NoDup as Hnd. rewrite Hperm in Hnd. clear -Hnd. revert i j. induction ls as [|l0 ls' IH]; intros i j Hi Hj He He'; [done|].
  cbn [concat] in Hnd. apply NoDup_app in Hnd as (_ & Hd & Hnd).
  assert (Hin : forall n l, ls' !! n = Some l -> e ∈ l -> e ∈ concat ls').
  { intros n l1 Hn Hl1. apply list_elem_of_In, in_concat. exists l1. split; apply list_elem_of_In; [|done]. by eapply list_elem_of_lookup_2. }
  destruct i as [|i], j as [|j]; [done| | |].
  - injection Hi as ->. exfalso. by apply (Hd e), (Hin j l').
  - injection Hj as ->. exfalso. by apply (Hd e), (Hin i l).
  - f_equal. by apply IH.
Qed.

(** Every entry of [merged] is in a child. *)
Lemma merged_child e : e ∈ merged -> exists i l j, ls !! i = Some l /\ l !! j = Some e.
Proof.
  rewrite Hperm. intros He. apply list_elem_of_In, in_concat in He as (l & Hl & He).
  apply list_elem_of_In, list_elem_of_lookup_1 in Hl as [i Hi]. apply list_elem_of_In, list_elem_of_lookup_1 in He as [j Hj].
  by exists i, l, j.
Qed.

(** ** Positions of the children *)

Lemma in_drop p q e : merged !! q = Some e -> (e ∈ drop p merged <-> (p <= q)%nat).
Proof.
  intros Hq. split.
  - intros He. apply list_elem_of_lookup_1 in He as [d Hd]. rewrite lookup_drop in Hd.
    rewrite (NoDup_lookup _ _ _ _ merged_NoDup Hq Hd). lia.
  - intros Hle. apply list_elem_of_lookup. exists (q - p)%nat. rewrite lookup_drop.
    by replace (p + (q - p))%nat with q by lia.
Qed.

Lemma list_find_ext_in {A} (P Q : A -> Prop) `{!forall x, Decision (P x)} `{!forall x, Decision (Q x)} (l : list A) :
  (forall x, x ∈ l -> P x <-> Q x) -> list_find P l = list_find Q l.
Proof.
  induction l as [|x l IH]; intros Hext; [done|]. cbn [list_find].
  assert (Hx : P x <-> Q x) by (apply Hext; constructor).
  destruct (decide (P x)), (decide (Q x)); try tauto. rewrite IH; [done|]. intros y Hy. apply Hext. by constructor.
Qed.

Section Child.
Context (n : nat) (l : list (bytes * bytes)) (Hl : ls !! n = Some l).

(** The place in [merged] of an entry of the child. *)
Lemma child_index j e : l !! j = Some e -> exists q, merged !! q = Some e.
Proof. intros Hj. apply list_elem_of_lookup_1, (child_merged n l); [done|]. by eapply list_elem_of_lookup_2. Qed.

Lemma child_order j j' q q' e e' : l !! j = Some e -> l !! j' = Some e' -> merged !! q = Some e -> merged !! q' = Some e' ->
  (j < j')%nat -> (q < q')%nat.
Proof.
  intros Hj Hj' Hq Hq' Hlt. rewrite Forall_lookup in Hsorted.
  pose proof (sorted_entries_lookup comparator_ l j j' e e' (Hsorted n l Hl) Hj Hj' Hlt) as Hc.
  destruct (Nat.lt_trichotomy q q') as [|[->|Hgt]]; [done|exfalso|exfalso].
  - rewrite Hq in Hq'. injection Hq' as ->. by rewrite compare_refl in Hc.
  - pose proof (merged_lt q' q e' e Hq' Hq Hgt) as Hc'. apply compare_gt_lt in Hc'. congruence.
Qed.

Lemma from_Some p j : from p l = Some j <->
  exists e, l !! j = Some e /\ e ∈ drop p merged /\ forall j' e', l !! j' = Some e' -> (j' < j)%nat -> e' ∉ drop p merged.
Proof.
  unfold from. split.
  - intros ([i e] & E & ->)%fmap_Some. apply list_find_Some in E as (H1 & H2 & H3). by exists e.
  - intros (e & H1 & H2 & H3). apply fmap_Some. exists (j, e). split; [|done]. by apply list_find_Some.
Qed.

Lemma from_None p : from p l = None <-> forall j e, l !! j = Some e -> e ∉ drop p merged.
Proof. unfold from. rewrite fmap_None, list_find_None, Forall_lookup. done. Qed.

Lemma from_entry p j x : merged !! p = Some x -> l !! j = Some x -> from p l = Some j.
Proof.
  intros Hp Hj. apply from_Some. exists x. split; [done|]. split; [by apply (in_drop p p)|].
  intros j' e' Hj' Hlt Hin. destruct (child_index j' e' Hj') as [q Hq].
  apply (in_drop p q) in Hin; [|done]. pose proof (child_order j' j q p e' x Hj' Hj Hq Hp Hlt). lia.
Qed.

Lemma from_S p x : merged !! p = Some x -> x ∉ l -> from (Datatypes.S p) l = from p l.
Proof.
  intros Hp Hx. unfold from. f_equal. apply list_find_ext_in. intros e He.
  assert (Hne : e <> x) by (by intros ->). apply list_elem_of_lookup_1 in He as [j Hj].
  destruct (child_index j e Hj) as [q Hq]. rewrite !(in_drop _ q e Hq).
  split; [lia|]. intros Hle. assert (p <> q) by (intros ->; congruence). lia.
Qed.

Lemma from_next p j x : merged !! p = Some x -> l !! j = Some x -> next_position l j = from (Datatypes.S p) l.
Proof.
  intros Hp Hj. unfold next_position. symmetry.
  assert (Hno : forall j' e', l !! j' = Some e' -> (j' <= j)%nat -> e' ∉ drop (Datatypes.S p) merged).
  { intros j' e' Hj' Hle Hin. destruct (child_index j' e' Hj') as [q Hq]. apply (in_drop _ q) in Hin; [|done].
    destruct (decide (j' = j)) as [->|].
    - rewrite Hj in Hj'. injection Hj' as <-. rewrite (NoDup_lookup _ _ _ _ merged_NoDup Hq Hp) in Hin. lia.
    - pose proof (child_order j' j q p e' x Hj' Hj Hq Hp ltac:(lia)). lia. }
  destruct (Nat.ltb_spec (Datatypes.S j) (length l)) as [Hlt|Hge].
  - destruct (lookup_lt_is_Some_2 l (Datatypes.S j) Hlt) as [e He]. apply from_Some. exists e. split; [done|]. split.
    + destruct (child_index _ e He) as [q Hq]. apply (in_drop _ q e Hq).
      pose proof (child_order j (Datatypes.S j) p q x e Hj He Hp Hq ltac:(lia)). lia.
    + intros j' e' Hj' Hlt'. apply (Hno j' e' Hj'). lia.
  - apply from_None. intros j' e' Hj'. apply (Hno j' e' Hj'). apply lookup_lt_Some in Hj'. lia.
Qed.

Lemma from_0 : from 0 l = first_position l.
Proof.
  destruct (l !! O) as [e|] eqn:E.
  - replace (first_position l) with (Some O) by (by destruct l). apply from_Some. exists e. split; [done|].
    split; [|intros; lia]. destruct (child_index 0 e E) as [q Hq]. apply (in_drop 0 q e Hq). lia.
  - destruct l; [done|discriminate].
Qed.

Lemma from_end : from (length merged) l = None.
Proof. apply from_None. intros j e _. rewrite drop_all. apply not_elem_of_nil. Qed.

Lemma from_seek target : seek_position comparator_ l target = from (default (length merged) (seek_position comparator_ merged target)) l.
Proof.
  unfold seek_position at 1. unfold from. f_equal. apply list_find_ext_in. intros e He.
  apply list_elem_of_lookup_1 in He as [j Hj]. destruct (child_index j e Hj) as [q Hq]. rewrite (in_drop _ q e Hq).
  destruct (seek_position comparator_ merged target) as [p|] eqn:E; simpl default.
  - apply (seek_position_Some comparator_) in E as (x & Hx & Hge & Hb). split.
    + intros Hc. destruct (decide (p <= q)%nat) as [|Hn]; [done|]. exfalso. apply Hc. apply (Hb q e Hq). lia.
    + intros Hle Hc. destruct (decide (p = q)) as [->|]; [congruence|].
      apply Hge. apply (compare_lt_trans _ (fst e)); [|done]. apply (merged_lt p q); [done..|lia].
  - pose proof (proj1 (seek_position_None comparator_ _ _) E q e Hq) as Hc. pose proof (lookup_lt_Some _ _ _ Hq).
    split; [congruence|lia].
Qed.

Lemma before_entry p j x : merged !! p = Some x -> l !! j = Some x -> before (Datatypes.S p) l = Some j.
Proof.
  intros Hp Hj. unfold before. rewrite <- (from_next p j x Hp Hj). unfold next_position.
  pose proof (lookup_lt_Some _ _ _ Hj). destruct (Nat.ltb_spec (Datatypes.S j) (length l)); [done|].
  apply last_position_Some. lia.
Qed.

Lemma before_prev p j x : merged !! p = Some x -> l !! j = Some x -> before p l = prev_position j.
Proof. intros Hp Hj. unfold before. by rewrite (from_entry p j x Hp Hj). Qed.

Lemma before_S p x : merged !! p = Some x -> x ∉ l -> before (Datatypes.S p) l = before p l.
Proof. intros Hp Hx. unfold before. by rewrite (from_S p x). Qed.

Lemma before_end : before (length merged) l = last_position l.
Proof. unfold before. by rewrite from_end. Qed.

Lemma before_in p j : before p l = Some j -> exists e q, l !! j = Some e /\ merged !! q = Some e /\ (q < p)%nat.
Proof.
  unfold before. intros H.
  assert (Hj : exists e, l !! j = Some e /\ e ∉ drop p merged).
  { destruct (from p l) as [i|] eqn:E.
    - apply from_Some in E as (e & He & _ & Hno). destruct i as [|i]; [done|]. injection H as <-.
      pose proof (lookup_lt_Some _ _ _ He). destruct (lookup_lt_is_Some_2 l i ltac:(lia)) as [e' He'].
      exists e'. split; [done|]. apply (Hno i e' He'). lia.
    - apply last_position_Some in H. destruct (lookup_lt_is_Some_2 l j ltac:(lia)) as [e' He'].
      exists e'. split; [done|]. by apply (proj1 (from_None p) E j). }
  destruct Hj as (e & He & Hno). destruct (child_index j e He) as [q Hq]. exists e, q. split; [done|]. split; [done|].
  rewrite (in_drop p q e Hq) in Hno. lia.
Qed.

Lemma from_in p j : from p l = Some j -> exists e q, l !! j = Some e /\ merged !! q = Some e /\ (p <= q)%nat.
Proof.
  intros H. apply from_Some in H as (e & He & Hin & _). destruct (child_index j e He) as [q Hq].
  exists e, q. split; [done|]. split; [done|]. by apply (in_drop p q e Hq).
Qed.
End Child.

(** ** States *)

Definition child_rep (i : nat) : IteratorWrapper S -> option nat -> Prop := wrapper_rep (crep i).

(** Each child somewhere. *)
Definition children_ok (ws : list (IteratorWrapper S)) : Prop :=
  length ws = length ls /\ forall i w, ws !! i = Some w -> exists q, child_rep i w q.

(** Each child of its list at a position that depends on the list. *)
Definition all_at (f : list (bytes * bytes) -> option nat) (ws : list (IteratorWrapper S)) : Prop :=
  length ws = length ls /\ forall i w l, ws !! i = Some w -> ls !! i = Some l -> child_rep i w (f l).

Definition merge_rep (m : MergingIterator) (pos : option nat) : Prop :=
  children_ok (children_ m) /\
  match pos with
  | None => current_ m = None
  | Some p => exists i w l j x, current_ m = Some i /\ children_ m !! i = Some w /\ ls !! i = Some l /\
      l !! j = Some x /\ merged !! p = Some x /\ child_rep i w (Some j) /\
      forall i' w' l', i' <> i -> children_ m !! i' = Some w' -> ls !! i' = Some l' ->
        child_rep i' w' (match direction_ m with kForward => from p l' | kReverse => before p l' end)
  end.

Lemma wrapper_laws i l : ls !! i = Some l -> IteratorLaws comparator_ l (child_rep i).
Proof. intros Hl. pose proof (Hlaws i l Hl). apply IteratorWrapper_laws. exact _. Qed.

Lemma child_list ws i (w : IteratorWrapper S) : length ws = length ls -> ws !! i = Some w -> exists l, ls !! i = Some l.
Proof. intros Hlen Hi. apply lookup_lt_is_Some_2. rewrite <- Hlen. by eapply lookup_lt_Some. Qed.

Lemma all_at_ok f ws : all_at f ws -> children_ok ws.
Proof.
  intros [Hlen H]. split; [done|]. intros i w Hi. destruct (child_list ws i w Hlen Hi) as [l Hl]. eauto.
Qed.

Lemma child_key i w l j e : ls !! i = Some l -> child_rep i w (Some j) -> l !! j = Some e -> Valid w = true /\ key w = fst e.
Proof.
  intros Hl Hw Hj. pose proof (wrapper_laws i l Hl) as L. split; [by rewrite (rep_valid (IteratorLaws := L) w _ Hw)|].
  pose proof (rep_entry (IteratorLaws := L) w j Hw) as He. rewrite Hj in He. by injection He as ->.
Qed.

Lemma child_valid i w l q : ls !! i = Some l -> child_rep i w q -> Valid w = true -> exists j, q = Some j.
Proof.
  intros Hl Hw Hv. pose proof (wrapper_laws i l Hl) as L. rewrite (rep_valid (IteratorLaws := L) w _ Hw) in Hv.
  apply bool_decide_eq_true_1 in Hv as [j ->]. by exists j.
Qed.

(** All the children at their first entry from [p] on: the smallest one is the
    child of entry [p]. *)
Lemma smallest_first_rep ws p : all_at (from p) ws -> (p <= length merged)%nat ->
  merge_rep (smallest_first ws) (if (p <? length merged)%nat then Some p else None).
Proof.
  intros Ha Hp. pose proof (all_at_ok _ _ Ha) as Hok. destruct Ha as [Hlen Ha]. split; [done|].
  destruct (Nat.ltb_spec p (length merged)) as [Hlt|Hge].
  - destruct (lookup_lt_is_Some_2 merged p Hlt) as [x Hx].
    destruct (merged_child x) as (i & l & j & Hl & Hj); [by eapply list_elem_of_lookup_2|].
    destruct (lookup_lt_is_Some_2 ws i) as [w Hw]; [rewrite Hlen; by eapply lookup_lt_Some|].
    pose proof (Ha i w l Hw Hl) as Hr. rewrite (from_entry i l Hl p j x Hx Hj) in Hr.
    destruct (child_key i w l j x Hl Hr Hj) as [Hv Hk].
    exists i, w, l, j, x. split; [|split; [done|split; [done|split; [done|split; [done|split; [done|]]]]]].
    + cbn [current_ smallest_first]. apply (FindSmallest_spec ws i w Hw Hv). intros i' w' Hw' Hne Hv'.
      destruct (child_list ws i' w' Hlen Hw') as [l' Hl']. pose proof (Ha i' w' l' Hw' Hl') as Hr'.
      destruct (child_valid i' w' l' _ Hl' Hr' Hv') as [j' Ej]. rewrite Ej in Hr'.
      destruct (from_in i' l' Hl' p j' Ej) as (e & q & He & Hq & Hle).
      destruct (child_key i' w' l' j' e Hl' Hr' He) as [_ Hk']. rewrite Hk, Hk'.
      apply (merged_lt p q); [done..|]. destruct (decide (p = q)) as [->|]; [|lia]. exfalso. apply Hne.
      rewrite Hx in Hq. injection Hq as <-. apply (child_unique i' i l' l x); [done..| |]; by eapply list_elem_of_lookup_2.
    + intros i' w' l' _ Hw' Hl'. by apply Ha.
  - cbn [current_ smallest_first]. unfold FindSmallest. rewrite FindSmallest_loop_None; [done|].
    apply Forall_lookup. intros i w Hw. destruct (child_list ws i w Hlen Hw) as [l Hl].
    destruct (Valid w) eqn:Hv; [exfalso|done]. destruct (child_valid i w l _ Hl (Ha i w l Hw Hl) Hv) as [j Ej].
    replace p with (length merged) in Ej by lia. by rewrite from_end in Ej.
Qed.

Lemma largest_first_rep ws p : all_at (before p) ws -> (p <= length merged)%nat ->
  merge_rep (largest_first ws) (match p with O => None | Datatypes.S p => Some p end).
Proof.
  intros Ha Hp. pose proof (all_at_ok _ _ Ha) as Hok. destruct Ha as [Hlen Ha]. split; [done|].
  destruct p as [|p].
  - cbn [current_ largest_first]. unfold FindLargest. rewrite FindLargest_loop_None; [done|].
    apply Forall_lookup. intros i w Hw. destruct (child_list ws i w Hlen Hw) as [l Hl].
    destruct (Valid w) eqn:Hv; [exfalso|done]. destruct (child_valid i w l _ Hl (Ha i w l Hw Hl) Hv) as [j Ej].
    destruct (before_in i l Hl O j Ej) as (_ & q & _ & _ & Hq). lia.
  - destruct (lookup_lt_is_Some_2 merged p ltac:(lia)) as [x Hx].
    destruct (merged_child x) as (i & l & j & Hl & Hj); [by eapply list_elem_of_lookup_2|].
    destruct (lookup_lt_is_Some_2 ws i) as [w Hw]; [rewrite Hlen; by eapply lookup_lt_Some|].
    pose proof (Ha i w l Hw Hl) as Hr. rewrite (before_entry i l Hl p j x Hx Hj) in Hr.
    destruct (child_key i w l j x Hl Hr Hj) as [Hv Hk].
    assert (Hother : forall i' l', i' <> i -> ls !! i' = Some l' -> x ∉ l').
    { intros i' l' Hne Hl' Hin. apply Hne. apply (child_unique i' i l' l x); [done..|]. by eapply list_elem_of_lookup_2. }
    exists i, w, l, j, x. split; [|split; [done|split; [done|split; [done|split; [done|split; [done|]]]]]].
    + cbn [current_ largest_first]. apply (FindLargest_spec ws i w Hw Hv). intros i' w' Hw' Hne Hv'.
      destruct (child_list ws i' w' Hlen Hw') as [l' Hl']. pose proof (Ha i' w' l' Hw' Hl') as Hr'.
      destruct (child_valid i' w' l' _ Hl' Hr' Hv') as [j' Ej]. rewrite Ej in Hr'.
      destruct (before_in i' l' Hl' _ j' Ej) as (e & q & He & Hq & Hle).
      destruct (child_key i' w' l' j' e Hl' Hr' He) as [_ Hk']. rewrite Hk, Hk'.
      apply (merged_lt q p); [done..|]. destruct (decide (q = p)) as [->|]; [|lia]. exfalso.
      rewrite Hx in Hq. injection Hq as <-. apply (Hother i' l' Hne Hl'). by eapply list_elem_of_lookup_2.
    + intros i' w' l' Hne Hw' Hl'. cbn [direction_ largest_first].
      rewrite <- (before_S i' l' Hl' p x Hx) by (by apply (Hother i')). by apply Ha.
Qed.

(** ** The operations *)

(** An operation on all the children. *)
Lemma all_at_map (g : IteratorWrapper S -> IteratorWrapper S) f ws :
  children_ok ws -> (forall i w l q, ls !! i = Some l -> child_rep i w q -> child_rep i (g w) (f l)) -> all_at f (map g ws).
Proof.
  intros [Hlen Hok] Hg. split; [by rewrite length_map|]. intros i w l Hi Hl.
  apply list_lookup_fmap_Some in Hi as (w0 & -> & Hi). destruct (Hok i w0 Hi) as [q Hq]. by apply (Hg i w0 l q).
Qed.

Lemma Merging_SeekToFirst_rep m : children_ok (children_ m) -> merge_rep (Merging_SeekToFirst m) (first_position merged).
Proof.
  intros Hok. replace (first_position merged) with (if (0 <? length merged)%nat then Some O else None) by (by destruct merged).
  apply smallest_first_rep; [|lia]. apply all_at_map; [done|]. intros i w l q Hl Hw.
  rewrite (from_0 i l Hl). apply (rep_first (IteratorLaws := wrapper_laws i l Hl) w q Hw).
Qed.

Lemma Merging_SeekToLast_rep m : children_ok (children_ m) -> merge_rep (Merging_SeekToLast m) (last_position merged).
Proof.
  intros Hok. unfold last_position. apply (largest_first_rep _ (length merged)); [|done]. apply all_at_map; [done|].
  intros i w l q Hl Hw. rewrite before_end. apply (rep_last (IteratorLaws := wrapper_laws i l Hl) w q Hw).
Qed.

Lemma Merging_Seek_rep m target : size_of target < 2 ^ 32 -> children_ok (children_ m) ->
  merge_rep (Merging_Seek target m) (seek_position comparator_ merged target).
Proof.
  intros Hsz Hok. pose proof (smallest_first_rep (map (Seek target) (children_ m))
    (default (length merged) (seek_position comparator_ merged target))) as H.
  assert (Hlt : forall p, seek_position comparator_ merged target = Some p -> (p < length merged)%nat).
  { intros p E. apply (seek_position_Some comparator_) in E as (e & He & _). by eapply lookup_lt_Some. }
  assert (Ha : all_at (from (default (length merged) (seek_position comparator_ merged target))) (map (Seek target) (children_ m))).
  { apply all_at_map; [done|]. intros i w l q Hl Hw. rewrite <- (from_seek i l Hl).
    apply (rep_seek (IteratorLaws := wrapper_laws i l Hl) w q target Hsz Hw). }
  specialize (H Ha). destruct (seek_position comparator_ merged target) as [p|]; simpl default in H.
  - specialize (Hlt p eq_refl). destruct (Nat.ltb_spec p (length merged)); [|lia]. apply H. lia.
  - rewrite Nat.ltb_irrefl in H. by apply H.
Qed.

Lemma seek_self p x : merged !! p = Some x -> seek_position comparator_ merged (fst x) = Some p.
Proof.
  intros Hp. apply (seek_position_Some comparator_). exists x. split; [done|]. split; [by rewrite compare_refl|].
  intros j e Hj Hlt. by apply (merged_lt j p).
Qed.

Lemma Seek_child i w q l p x : ls !! i = Some l -> merged !! p = Some x -> child_rep i w q ->
  child_rep i (Seek (fst x) w) (from p l).
Proof.
  intros Hl Hp Hw. pose proof (rep_seek (IteratorLaws := wrapper_laws i l Hl) w q (fst x)) as H.
  rewrite (from_seek i l Hl), (seek_self p x Hp) in H. apply H; [|done].
  rewrite Forall_lookup in Hsizes. by apply (Hsizes p).
Qed.

Lemma seek_after_rep i w q l p x : ls !! i = Some l -> merged !! p = Some x -> x ∉ l -> child_rep i w q ->
  child_rep i (seek_after (fst x) w) (from p l).
Proof.
  intros Hl Hp Hx Hw. pose proof (Seek_child i w q l p x Hl Hp Hw) as Hs. unfold seek_after.
  destruct (Valid (Seek (fst x) w)) eqn:Hv; [|done]. destruct (child_valid i _ l _ Hl Hs Hv) as [j Ej]. rewrite Ej in Hs.
  destruct (from_in i l Hl p j Ej) as (e & q' & He & Hq & Hle). destruct (child_key i _ l j e Hl Hs He) as [_ Hk].
  rewrite Hk. assert (Hne : p <> q').
  { intros ->. rewrite Hp in Hq. injection Hq as <-. apply Hx. by eapply list_elem_of_lookup_2. }
  rewrite (merged_lt p q' x e Hp Hq) by lia. cbn [andb]. by rewrite Ej.
Qed.

Lemma seek_before_rep i w q l p x : ls !! i = Some l -> merged !! p = Some x -> child_rep i w q ->
  child_rep i (seek_before (fst x) w) (before p l).
Proof.
  intros Hl Hp Hw. pose proof (Seek_child i w q l p x Hl Hp Hw) as Hs. unfold seek_before, before.
  rewrite (rep_valid (IteratorLaws := wrapper_laws i l Hl) _ _ Hs). destruct (from p l) as [j|].
  - rewrite bool_decide_eq_true_2 by eauto. apply (rep_prev (IteratorLaws := wrapper_laws i l Hl) _ _ Hs).
  - rewrite bool_decide_eq_false_2 by (by intros [? ?]). apply (rep_last (IteratorLaws := wrapper_laws i l Hl) _ _ Hs).
Qed.

(** The current child moves; the others are where [f] says. *)
Lemma all_at_current f g ws i w l :
  length ws = length ls -> ws !! i = Some w -> ls !! i = Some l -> child_rep i (g w) (f l) ->
  (forall i' w' l', i' <> i -> ws !! i' = Some w' -> ls !! i' = Some l' -> child_rep i' w' (f l')) ->
  all_at f (alter g i ws).
Proof.
  intros Hlen Hw Hl Hg Ho. split; [by rewrite length_alter|]. intros i' w' l' Hi' Hl'.
  destruct (decide (i' = i)) as [->|Hne].
  - rewrite list_lookup_alter_eq, Hw in Hi'. injection Hi' as <-. rewrite Hl in Hl'. by injection Hl' as <-.
  - rewrite list_lookup_alter_ne in Hi' by done. by apply (Ho i').
Qed.

Lemma on_others_lookup g m i w : current_ m = Some i -> children_ m !! i = Some w ->
  length (on_others g m) = length (children_ m) /\ on_others g m !! i = Some w /\
  forall i' w', i' <> i -> on_others g m !! i' = Some w' -> exists w0, children_ m !! i' = Some w0 /\ w' = g w0.
Proof.
  intros Hc Hw. unfold on_others. split; [by rewrite length_imap|]. split.
  - rewrite list_lookup_imap, Hw. cbn. by rewrite bool_decide_eq_true_2.
  - intros i' w' Hne H. rewrite list_lookup_imap in H. destruct (children_ m !! i') as [w0|]; [|done]. cbn in H.
    rewrite bool_decide_eq_false_2 in H by congruence. injection H as <-. by exists w0.
Qed.

(** Another child does not hold the current entry. *)
Lemma not_in_other i l j x i' l' : ls !! i = Some l -> l !! j = Some x -> i' <> i -> ls !! i' = Some l' -> x ∉ l'.
Proof.
  intros Hl Hj Hne Hl' Hin. apply Hne. apply (child_unique i' i l' l x); [done..|]. by eapply list_elem_of_lookup_2.
Qed.

Lemma Merging_key_at m i w : current_ m = Some i -> children_ m !! i = Some w -> Merging_key m = key w.
Proof. intros Hc Hw. unfold Merging_key, Merging_child. rewrite Hc. cbn. by rewrite Hw. Qed.

Lemma Merging_Next_rep m p : merge_rep m (Some p) -> merge_rep (Merging_Next m) (next_position merged p).
Proof.
  intros [[Hlen Hok] (i & w & l & j & x & Hc & Hw & Hl & Hj & Hx & Hr & Ho)].
  destruct (child_key i w l j x Hl Hr Hj) as [_ Hk]. pose proof (lookup_lt_Some _ _ _ Hx) as Hlt.
  pose proof (rep_next (IteratorLaws := wrapper_laws i l Hl) w j Hr) as Hn. rewrite (from_next i l Hl p j x Hx Hj) in Hn.
  unfold next_position, Merging_Next, on_current. rewrite Hc, (Merging_key_at m i w Hc Hw), Hk.
  apply (smallest_first_rep _ (Datatypes.S p)); [|lia].
  destruct (direction_ m).
  - apply (all_at_current _ _ _ i w l); [done..|]. intros i' w' l' Hne Hw' Hl'.
    rewrite (from_S i' l' Hl' p x Hx) by (by apply (not_in_other i l j x i')). by apply Ho.
  - destruct (on_others_lookup (seek_after (fst x)) m i w Hc Hw) as (Hlen' & Hw1 & Ho').
    apply (all_at_current _ _ _ i w l); [congruence|done..|]. intros i' w' l' Hne Hw' Hl'.
    destruct (Ho' i' w' Hne Hw') as (w0 & Hw0 & ->). pose proof (not_in_other i l j x i' l' Hl Hj Hne Hl') as Hx'.
    rewrite (from_S i' l' Hl' p x Hx Hx'). destruct (Hok i' w0 Hw0) as [q Hq]. by apply (seek_after_rep i' w0 q l').
Qed.

Lemma Merging_Prev_rep m p : merge_rep m (Some p) -> merge_rep (Merging_Prev m) (prev_position p).
Proof.
  intros [[Hlen Hok] (i & w & l & j & x & Hc & Hw & Hl & Hj & Hx & Hr & Ho)].
  destruct (child_key i w l j x Hl Hr Hj) as [_ Hk]. pose proof (lookup_lt_Some _ _ _ Hx) as Hlt.
  pose proof (rep_prev (IteratorLaws := wrapper_laws i l Hl) w j Hr) as Hn. rewrite <- (before_prev i l Hl p j x Hx Hj) in Hn.
  unfold Merging_Prev, on_current. rewrite Hc, (Merging_key_at m i w Hc Hw), Hk.
  replace (prev_position p) with (match p with O => None | Datatypes.S p => Some p end) by (by destruct p).
  apply largest_first_rep; [|lia]. destruct (direction_ m).
  - destruct (on_others_lookup (seek_before (fst x)) m i w Hc Hw) as (Hlen' & Hw1 & Ho').
    apply (all_at_current _ _ _ i w l); [congruence|done..|]. intros i' w' l' Hne Hw' Hl'.
    destruct (Ho' i' w' Hne Hw') as (w0 & Hw0 & ->). destruct (Hok i' w0 Hw0) as [q Hq]. by apply (seek_before_rep i' w0 q l').
  - apply (all_at_current _ _ _ i w l); [done..|]. intros i' w' l' Hne Hw' Hl'. by apply Ho.
Qed.

Lemma Merging_status_ok ws : children_ok ws -> ok (Merging_status_loop ws OK) = true.
Proof.
  intros [Hlen Hok]. assert (Hall : Forall (fun w : IteratorWrapper S => ok (status w) = true) ws).
  { apply Forall_lookup. intros i w Hw. destruct (child_list ws i w Hlen Hw) as [l Hl]. destruct (Hok i w Hw) as [q Hq].
    apply (rep_status (IteratorLaws := wrapper_laws i l Hl) w q Hq). }
  clear Hlen Hok. assert (Hgen : forall s, ok s = true -> ok (Merging_status_loop ws s) = true); [|by apply Hgen].
  induction Hall as [|w ws Hw Hall IH]; intros s Hs; [done|]. cbn [Merging_status_loop]. rewrite Hw. by apply IH.
Qed.

Lemma Merging_laws : IteratorLaws comparator_ merged merge_rep.
Proof.
  split.
  - intros m [p|] [_ H]; cbn; [|by rewrite H]. destruct H as (i & w & l & j & x & -> & _). done.
  - intros m p [_ (i & w & l & j & x & Hc & Hw & Hl & Hj & Hx & Hr & _)].
    pose proof (rep_entry (IteratorLaws := wrapper_laws i l Hl) w j Hr) as He. rewrite Hj in He.
    rewrite Hx, He. unfold key, value, Merging_Iterator, Merging_key, Merging_value, Merging_child. rewrite Hc.
    unfold mbind, option_bind. by rewrite Hw.
  - intros m p [H _]. by apply Merging_status_ok.
  - intros m p [H _]. by apply Merging_SeekToFirst_rep.
  - intros m p [H _]. by apply Merging_SeekToLast_rep.
  - intros m p target Hsz [H _]. by apply Merging_Seek_rep.
  - apply Merging_Next_rep.
  - apply Merging_Prev_rep.
Qed.

Lemma Merging_make_rep children : length children = length ls ->
  (forall i s, children !! i = Some s -> crep i s None) -> merge_rep (Merging_make children) None.
Proof.
  intros Hlen Hs. split; [|done]. split; [by cbn; rewrite length_map|]. intros i w Hw.
  apply list_lookup_fmap_Some in Hw as (s & -> & Hi). exists None. by apply Update_rep, Hs.
Qed.
End Merger.
Arguments MergingIterator : clear implicits.

(** The iterator over any number of children. *)
Lemma NewMergingIterator_rep {S : Type} `{!Iterator S} (c : Comparator) `{!ComparatorLaws c} (children : list S)
    (ls : list (list (bytes * bytes))) (merged : list (bytes * bytes)) (crep : nat -> S -> option nat -> Prop) :
  length children = length ls -> (forall i l, ls !! i = Some l -> IteratorLaws c l (crep i)) ->
  (forall i s, children !! i = Some s -> crep i s None) -> Forall (sorted_entries c) ls ->
  sorted_entries c merged -> merged ≡ₚ concat ls -> Forall (fun e => size_of (fst e) < 2 ^ 32) merged ->
  exists rep : EmptyIterator + S + MergingIterator S -> option nat -> Prop,
    IteratorLaws (Iterator0 := sum_Iterator (Iterator1 := Merging_Iterator c)) c merged rep /\
    rep (NewMergingIterator children) None.
Proof.
  intros Hlen Hlaws Hnew Hls Hm Hp Hsz. destruct children as [|s [|s' children]], ls as [|l [|l' ls]]; try done.
  - apply Permutation_nil_r in Hp as ->.
    eexists. split; [apply inl_laws, inl_laws, (NewEmptyIterator_laws c)|done].
  - assert (merged = l) as ->.
    { cbn [concat] in Hp. rewrite app_nil_r in Hp. apply Forall_cons in Hls as [Hl _].
      eapply (sorting.StronglySorted_unique_strong (fun a b : bytes * bytes => Compare c (fst a) (fst b) = Lt)); [|exact Hm|exact Hl|exact Hp].
      intros x y _ _ Hxy Hyx. apply compare_gt_lt in Hyx. congruence. }
    eexists. split; [apply inl_laws, inr_laws, (Hlaws O l); done|]. by apply (Hnew O).
  - eexists. split; [apply inr_laws; by apply (Merging_laws c (l :: l' :: ls) merged crep)|]. cbn. by apply Merging_make_rep.
Qed.

(** The same for children that are cursors. *)
Lemma NewMergingIterator_cursor {S : Type} `{!Iterator S} (c : Comparator) `{!ComparatorLaws c} (children : list S)
    (ls : list (list (bytes * bytes))) (merged : list (bytes * bytes)) :
  Forall2 (fun s l => cursor c l s None) children ls -> Forall (sorted_entries c) ls ->
  sorted_entries c merged -> merged ≡ₚ concat ls -> Forall (fun e => size_of (fst e) < 2 ^ 32) merged ->
  cursor (Iterator0 := sum_Iterator (Iterator1 := Merging_Iterator c)) c merged (NewMergingIterator children) None.
Proof.
  intros Hch Hls Hm Hp Hsz. apply (NewMergingIterator_rep c children ls merged (fun i s p => cursor c (default [] (ls !! i)) s p)); try done.
  - by eapply Forall2_length.
  - intros i l Hl. rewrite Hl. apply cursor_laws.
  - intros i s Hs. destruct (Forall2_lookup_l _ _ _ _ _ Hch Hs) as (l & Hl & Hr). by rewrite Hl.
Qed.

(** ** Properties *)

(** C27: when the children are cursors on sorted lists whose keys all differ, the
    iterator that merges them is a cursor on the sorted list of all their
    entries, in both directions and with any changes of direction, for no child,
    one or several; it starts out invalid. *)
Theorem merging_iterator {S : Type} `{!Iterator S} (c : Comparator) `{!ComparatorLaws c} (children : list S)
    (ls : list (list (bytes * bytes))) (merged : list (bytes * bytes)) (crep : nat -> S -> option nat -> Prop) :
  length children = length ls -> (forall i l, ls !! i = Some l -> IteratorLaws c l (crep i)) ->
  (forall i s, children !! i = Some s -> crep i s None) -> Forall (sorted_entries c) ls ->
  sorted_entries c merged -> merged ≡ₚ concat ls -> Forall (fun e => size_of (fst e) < 2 ^ 32) merged ->
  exists rep : EmptyIterator + S + MergingIterator S -> option nat -> Prop,
    IteratorLaws (Iterator0 := sum_Iterator (Iterator1 := Merging_Iterator c)) c merged rep /\
    rep (NewMergingIterator children) None.
Proof. intros. by eapply NewMergingIterator_rep. Qed.

#[local] Instance bytewise_list : Iterator ListIterator := ListIterator_Iterator BytewiseComparator.

Definition merge_left : list (bytes * bytes) := [(str "a", str "1"); (str "d", str "4")].
Definition merge_right : list (bytes * bytes) := [(str "b", str "2"); (str "c", str "3")].

Lemma merging_iterator_witness : exists rep : EmptyIterator + ListIterator + MergingIterator ListIterator -> option nat -> Prop,
  IteratorLaws (Iterator0 := sum_Iterator (Iterator1 := Merging_Iterator BytewiseComparator)) BytewiseComparator
    [(str "a", str "1"); (str "b", str "2"); (str "c", str "3"); (str "d", str "4")] rep /\
  rep (NewMergingIterator [mkListIterator merge_left None; mkListIterator merge_right None]) None.
Proof.
  apply (merging_iterator BytewiseComparator _ [merge_left; merge_right] _
    (fun i s p => let entries := match i with O => merge_left | _ => merge_right end in
       li_entries s = entries /\ li_pos s = p /\ match p with Some i => (i < length entries)%nat | None => True end)).
  - reflexivity.
  - intros [|[|i]] l; [..|done]; intros [= <-]; apply ListIterator_laws; exact _.
  - intros [|[|i]] s; [..|done]; intros [= <-]; done.
  - repeat constructor; vm_compute; reflexivity.
  - repeat constructor; vm_compute; reflexivity.
  - cbn. apply perm_skip. symmetry. apply (Permutation_cons_append [_; _]).
  - repeat constructor.
Defined.
