(* ===== verification/TableBuilder.v ===== *)
(** * TableBuilder: writing a table file

    Models [table/table_builder.cpp] on any writable file: data blocks with
    checksums, the index whose keys are shortened, the filter block, the
    metaindex and the footer.  The main lemma describes the file that [Finish]
    leaves when no write fails. *)

From S2P Require Import Prelude Coding Slice Comparator Env Format Iterator FilterPolicy.
From stdpp Require sorting.
From S2P Require Block FilterBlock.
Import Block(BlockBuilder, BlockBuilder_make, BlockBuilder_Reset, BlockBuilder_Add, BlockBuilder_Finish,
  BlockBuilder_empty, CurrentSizeEstimate, build_block).

(** ** The options of a table *)

Record Options : Type := mkOptions {
  comparator : Comparator;
  block_size : Z;
  block_restart_interval : Z;
  compression : CompressionType;
  filter_policy : option FilterPolicy;
  paranoid_checks : bool
}.

(** ** The builder *)

Section TableBuilder.
Context {W : Type} `{!WritableFile W} (snappy : option SnappyLib).

(** The index block has the options with a restart interval of 1; the buffer for
    compressed contents is empty between the operations. *)
Record Rep : Type := mkRep {
  options : Options;
  file : W;
  offset : Z;
  status_ : Status;
  data_block : BlockBuilder;
  index_block : BlockBuilder;
  last_key : bytes;
  num_entries : Z;
  closed : bool;
  filter_block : option (FilterPolicy * FilterBlock.FilterBlockBuilder);
  pending_index_entry : bool;
  pending_handle : BlockHandle
}.

(** [r->filter_block->f()] when there is a filter block, which keeps the policy it
    was made with. *)
Definition on_filter (f : FilterPolicy -> FilterBlock.FilterBlockBuilder -> FilterBlock.FilterBlockBuilder) (r : Rep) :
    option (FilterPolicy * FilterBlock.FilterBlockBuilder) :=
  match filter_block r with
  | Some (policy, b) => Some (policy, f policy b)
  | None => None
  end.

Definition Rep_make (opt : Options) (f : W) : Rep :=
  mkRep opt f 0 OK BlockBuilder_make BlockBuilder_make [] 0 false
    (match filter_policy opt with None => None | Some policy => Some (policy, FilterBlock.FilterBlockBuilder_make) end)
    false BlockHandle_make.

Definition set_filter (b : option (FilterPolicy * FilterBlock.FilterBlockBuilder)) (r : Rep) : Rep :=
  mkRep (options r) (file r) (offset r) (status_ r) (data_block r) (index_block r) (last_key r) (num_entries r)
    (closed r) b (pending_index_entry r) (pending_handle r).

Definition TableBuilder_make (opt : Options) (f : W) : Rep :=
  let r := Rep_make opt f in
  set_filter (on_filter (fun policy => FilterBlock.StartBlock policy 0) r) r.

(** [same_comparator]: the two pointers to comparators are equal. *)
Definition ChangeOptions (same_comparator : bool) (opt : Options) (r : Rep) : Status * Rep :=
  if negb same_comparator then
    (InvalidArgument (str "changing comparator while building table") [], r)
  else
    (OK, mkRep opt (file r) (offset r) (status_ r) (data_block r) (index_block r) (last_key r) (num_entries r)
           (closed r) (filter_block r) (pending_index_entry r) (pending_handle r)).

(** The file, the status and the offset after writing. *)
Definition set_written (f : W) (s : Status) (off : Z) (r : Rep) : Rep :=
  mkRep (options r) f off s (data_block r) (index_block r) (last_key r) (num_entries r)
    (closed r) (filter_block r) (pending_index_entry r) (pending_handle r).

Definition WriteRawBlock (block_contents : bytes) (type : CompressionType) (r : Rep) : BlockHandle * Rep :=
  let handle := mkBlockHandle (offset r) (size_of block_contents) in
  let '(s, f) := Append block_contents (file r) in
  if ok s then
    let '(s, f) := Append (block_trailer type block_contents) f in
    (handle, set_written f s (if ok s then u64 (offset r + (size_of block_contents + kBlockTrailerSize)) else offset r) r)
  else (handle, set_written f s (offset r) r).

(** The contents and the type that a finished block is stored with. *)
Definition choose_compression (type : CompressionType) (raw : bytes) : bytes * CompressionType :=
  match type with
  | kNoCompression => (raw, type)
  | kSnappyCompression =>
      match Snappy_Compress snappy raw with
      | Some compressed =>
          if size_of compressed <? size_of raw - size_of raw / 8 then (compressed, type)
          else (raw, kNoCompression)
      | None => (raw, kNoCompression)
      end
  end.

(** The block is reset afterwards. *)
Definition WriteBlock (block : BlockBuilder) (r : Rep) : BlockHandle * BlockBuilder * Rep :=
  let '(raw, block) := BlockBuilder_Finish block in
  let '(block_contents, type) := choose_compression (compression (options r)) raw in
  let '(handle, r) := WriteRawBlock block_contents type r in
  (handle, BlockBuilder_Reset block, r).

Definition rep_ok (r : Rep) : bool := ok (status_ r).

Definition set_data (block : BlockBuilder) (handle : BlockHandle) (r : Rep) : Rep :=
  mkRep (options r) (file r) (offset r) (status_ r) block (index_block r) (last_key r) (num_entries r)
    (closed r) (filter_block r) (pending_index_entry r) handle.

Definition set_pending (r : Rep) : Rep :=
  mkRep (options r) (file r) (offset r) (status_ r) (data_block r) (index_block r) (last_key r) (num_entries r)
    (closed r) (filter_block r) true (pending_handle r).

Definition TableBuilder_Flush (r : Rep) : Rep :=
  if negb (rep_ok r) then r
  else if BlockBuilder_empty (data_block r) then r
  else
    let '(handle, block, r) := WriteBlock (data_block r) r in
    let r := set_data block handle r in
    let r := if rep_ok r
             then let '(s, f) := Flush (file r) in set_written f s (offset r) (set_pending r)
             else r in
    set_filter (on_filter (fun policy => FilterBlock.StartBlock policy (offset r)) r) r.

(** The pending index entry goes into the index with the key [separator]. *)
Definition add_index_entry (separator : bytes) (r : Rep) : Rep :=
  let handle_encoding := BlockHandle_EncodeTo [] (pending_handle r) in
  mkRep (options r) (file r) (offset r) (status_ r) (data_block r)
    (BlockBuilder_Add 1 separator handle_encoding (index_block r)) separator (num_entries r)
    (closed r) (filter_block r) false (pending_handle r).

Definition TableBuilder_Add (key value : bytes) (r : Rep) : Rep :=
  if negb (rep_ok r) then r
  else
    let r := if pending_index_entry r
             then add_index_entry (FindShortestSeparator (comparator (options r)) (last_key r) key) r
             else r in
    let r := set_filter (on_filter (fun _ => FilterBlock.AddKey key) r) r in
    let r := mkRep (options r) (file r) (offset r) (status_ r)
               (BlockBuilder_Add (block_restart_interval (options r)) key value (data_block r))
               (index_block r) key (num_entries r + 1) (closed r) (filter_block r) (pending_index_entry r)
               (pending_handle r) in
    if CurrentSizeEstimate (data_block r) >=? block_size (options r) then TableBuilder_Flush r else r.

Definition set_closed (r : Rep) : Rep :=
  mkRep (options r) (file r) (offset r) (status_ r) (data_block r) (index_block r) (last_key r) (num_entries r)
    true (filter_block r) (pending_index_entry r) (pending_handle r).

Definition set_index (block : BlockBuilder) (r : Rep) : Rep :=
  mkRep (options r) (file r) (offset r) (status_ r) (data_block r) block (last_key r) (num_entries r)
    (closed r) (filter_block r) (pending_index_entry r) (pending_handle r).

(** [filter_block->Finish()] and the block it writes. *)
Definition write_filter (r : Rep) : BlockHandle * Rep :=
  match filter_block r with
  | Some (policy, b) =>
      if rep_ok r then
        let b := FilterBlock.Finish policy b in
        WriteRawBlock (FilterBlock.result_ b) kNoCompression (set_filter (Some (policy, b)) r)
      else (BlockHandle_make, r)
  | None => (BlockHandle_make, r)
  end.

(** The metaindex block has at most one entry, the filter's. *)
Definition write_metaindex (filter_block_handle : BlockHandle) (r : Rep) : BlockHandle * Rep :=
  if rep_ok r then
    let meta_index_block :=
      match filter_block r, filter_policy (options r) with
      | Some _, Some policy =>
          BlockBuilder_Add (block_restart_interval (options r)) (str "filter." ++ policy_Name policy)
            (BlockHandle_EncodeTo [] filter_block_handle) BlockBuilder_make
      | _, _ => BlockBuilder_make
      end in
    let '(handle, _, r) := WriteBlock meta_index_block r in (handle, r)
  else (BlockHandle_make, r).

Definition write_index (r : Rep) : BlockHandle * Rep :=
  if rep_ok r then
    let r := if pending_index_entry r
             then add_index_entry (FindShortSuccessor (comparator (options r)) (last_key r)) r
             else r in
    let '(handle, block, r) := WriteBlock (index_block r) r in
    (handle, set_index block r)
  else (BlockHandle_make, r).

Definition write_footer (metaindex index : BlockHandle) (r : Rep) : Rep :=
  if rep_ok r then
    let footer_encoding := Footer_EncodeTo [] (mkFooter metaindex index) in
    let '(s, f) := Append footer_encoding (file r) in
    set_written f s (if ok s then u64 (offset r + size_of footer_encoding) else offset r) r
  else r.

Definition TableBuilder_Finish (r : Rep) : Status * Rep :=
  let r := set_closed (TableBuilder_Flush r) in
  let '(filter_block_handle, r) := write_filter r in
  let '(metaindex_block_handle, r) := write_metaindex filter_block_handle r in
  let '(index_block_handle, r) := write_index r in
  let r := write_footer metaindex_block_handle index_block_handle r in
  (status_ r, r).

Definition Abandon (r : Rep) : Rep := set_closed r.
Definition NumEntries (r : Rep) : Z := u64 (num_entries r).
Definition FileSize (r : Rep) : Z := offset r.
End TableBuilder.
Arguments Rep : clear implicits.

(** ** What a builder has written *)

(** A builder of blocks after some entries. *)
Definition add_entries (interval : Z) (es : list (bytes * bytes)) : BlockBuilder :=
  fold_left (fun b e => BlockBuilder_Add interval (fst e) (snd e) b) es BlockBuilder_make.

Lemma add_entries_snoc interval es k v :
  BlockBuilder_Add interval k v (add_entries interval es) = add_entries interval (es ++ [(k, v)]).
Proof. unfold add_entries. by rewrite fold_left_app. Qed.

Lemma add_entries_empty interval es : 1 <= interval -> BlockBuilder_empty (add_entries interval es) = true <-> es = [].
Proof.
  intros Hi. destruct (Block.Adds_rep interval Hi es [] [O] BlockBuilder_make Block.builder_make_rep) as (es' & rs & [Hb _ _ _ _ _] & He).
  cbn [app] in Hb. unfold add_entries, BlockBuilder_empty. rewrite Hb, Z.eqb_eq, <- He.
  destruct es' as [|e es']; [done|]. unfold Block.encode_entries. cbn [map concat]. rewrite size_of_app.
  pose proof (Block.length_encode_entry e). pose proof (size_of_nonneg (concat (map Block.encode_entry es'))).
  unfold size_of in *. split; [intros ?; exfalso; lia|done].
Qed.

Section Layout.
Context (snappy : option SnappyLib) (opt : Options).

(** A finished block with its trailer. *)
Definition disk (raw : bytes) : bytes :=
  let '(contents, type) := choose_compression snappy (compression opt) raw in contents ++ block_trailer type contents.
Definition stored_size (raw : bytes) : Z := size_of (fst (choose_compression snappy (compression opt) raw)).

Definition raw_block (es : list (bytes * bytes)) : bytes := build_block (block_restart_interval opt) es.

Fixpoint handles (o : Z) (blocks : list (list (bytes * bytes))) : list BlockHandle :=
  match blocks with
  | [] => []
  | es :: blocks => mkBlockHandle (u64 o) (stored_size (raw_block es)) :: handles (o + size_of (disk (raw_block es))) blocks
  end.

Definition data_area (blocks : list (list (bytes * bytes))) : bytes := concat (map (fun es => disk (raw_block es)) blocks).

Definition index_entries (keys : list bytes) (blocks : list (list (bytes * bytes))) : list (bytes * bytes) :=
  zip keys (map encode_handle (handles 0 blocks)).

(** The calls on the filter block: the offset and the keys of each block. *)
Fixpoint filter_blocks (o : Z) (blocks : list (list (bytes * bytes))) : list (Z * list bytes) :=
  match blocks with
  | [] => []
  | es :: blocks => (u64 o, map fst es) :: filter_blocks (o + size_of (disk (raw_block es))) blocks
  end.

Definition filter_state (policy : FilterPolicy) (blocks : list (list (bytes * bytes))) : FilterBlock.FilterBlockBuilder :=
  fold_left (FilterBlock.add_block policy) (filter_blocks 0 blocks) FilterBlock.FilterBlockBuilder_make.

Lemma disk_size raw : size_of (disk raw) = stored_size raw + kBlockTrailerSize.
Proof.
  unfold disk, stored_size. destruct (choose_compression snappy (compression opt) raw) as [c t]. cbn [fst].
  rewrite size_of_app. unfold size_of at 2. by rewrite length_block_trailer.
Qed.

Lemma data_area_app bs bs' : data_area (bs ++ bs') = data_area bs ++ data_area bs'.
Proof. unfold data_area. by rewrite map_app, concat_app. Qed.

Lemma data_area_1 es : data_area [es] = disk (raw_block es).
Proof. unfold data_area. cbn. apply app_nil_r. Qed.

Lemma data_area_cons es bs : size_of (data_area (es :: bs)) = size_of (disk (raw_block es)) + size_of (data_area bs).
Proof. unfold data_area. cbn [map concat]. apply size_of_app. Qed.

Lemma handles_snoc o bs es :
  handles o (bs ++ [es]) = handles o bs ++ [mkBlockHandle (u64 (o + size_of (data_area bs))) (stored_size (raw_block es))].
Proof.
  revert o. induction bs as [|b bs IH]; intros o; [cbn; by rewrite Z.add_0_r|].
  cbn [app handles filter_blocks]. by rewrite IH, data_area_cons, Z.add_assoc.
Qed.

Lemma handles_lookup o bs i h : handles o bs !! i = Some h <-> exists es, bs !! i = Some es /\
  h = mkBlockHandle (u64 (o + size_of (data_area (take i bs)))) (stored_size (raw_block es)).
Proof.
  revert o i. induction bs as [|b bs IH]; intros o i; [split; [done|by intros (? & ? & _)]|]. destruct i as [|i]; cbn [handles lookup list_lookup take].
  - change (size_of (data_area [])) with 0. rewrite Z.add_0_r. split; [intros [= <-]; by exists b|by intros (es & [= <-] & ->)].
  - rewrite IH, data_area_cons, Z.add_assoc. done.
Qed.

Lemma length_handles o bs : length (handles o bs) = length bs.
Proof. revert o. induction bs as [|b bs IH]; intros o; cbn; [done|]. by rewrite IH. Qed.

Lemma filter_blocks_snoc o bs es :
  filter_blocks o (bs ++ [es]) = filter_blocks o bs ++ [(u64 (o + size_of (data_area bs)), map fst es)].
Proof.
  revert o. induction bs as [|b bs IH]; intros o; [cbn; by rewrite Z.add_0_r|].
  cbn [app handles filter_blocks]. by rewrite IH, data_area_cons, Z.add_assoc.
Qed.

Lemma filter_blocks_lookup o bs i off ks : filter_blocks o bs !! i = Some (off, ks) <-> exists es, bs !! i = Some es /\
  off = u64 (o + size_of (data_area (take i bs))) /\ ks = map fst es.
Proof.
  revert o i. induction bs as [|b bs IH]; intros o i; [split; [done|by intros (? & ? & _)]|]. destruct i as [|i]; cbn [filter_blocks lookup list_lookup take].
  - change (size_of (data_area [])) with 0. rewrite Z.add_0_r. split; [intros [= <- <-]; by exists b|by intros (es & [= <-] & -> & ->)].
  - rewrite IH, data_area_cons, Z.add_assoc. done.
Qed.

Lemma filter_block_keys o bs : FilterBlock.block_keys (filter_blocks o bs) = map fst (concat bs).
Proof.
  unfold FilterBlock.block_keys. revert o. induction bs as [|b bs IH]; intros o; [done|]. cbn [filter_blocks map concat snd].
  by rewrite IH, map_app.
Qed.

(** [StartBlock] for a block that has no key yet, and [AddKey]. *)
Lemma filter_state_start policy bs :
  FilterBlock.StartBlock policy (u64 (size_of (data_area bs))) (filter_state policy bs) = filter_state policy (bs ++ [[]]).
Proof. unfold filter_state. rewrite filter_blocks_snoc, fold_left_app, Z.add_0_l. done. Qed.

Lemma filter_state_key policy bs es e :
  FilterBlock.AddKey (fst e) (filter_state policy (bs ++ [es])) = filter_state policy (bs ++ [es ++ [e]]).
Proof.
  unfold filter_state. rewrite !filter_blocks_snoc, !fold_left_app. cbn [fold_left]. unfold FilterBlock.add_block.
  cbn [fst snd]. by rewrite map_app, fold_left_app.
Qed.

Lemma u64_add a b : u64 (u64 a + b) = u64 (a + b).
Proof. unfold u64. apply Zplus_mod_idemp_l. Qed.

(** A key of the index, or of a list of entries, is at or after the entries of a
    block, or before them. *)
Definition above (key : bytes) (es : list (bytes * bytes)) : Prop := Forall (fun e => Compare (comparator opt) (fst e) key <> Gt) es.
Definition below (key : bytes) (es : list (bytes * bytes)) : Prop := Forall (fun e => Compare (comparator opt) key (fst e) = Lt) es.

(** How the index key of a block is made: from its last entry, and from the first
    entry of what follows, if there is one. *)
Definition made_of (next : option (list (bytes * bytes))) (key : bytes) (es : list (bytes * bytes)) : Prop :=
  exists e, last es = Some e /\
    match next ≫= head with
    | Some e' => key = FindShortestSeparator (comparator opt) (fst e) (fst e')
    | None => key = FindShortSuccessor (comparator opt) (fst e)
    end.

(** What the index keys are: each one separates its block from what follows. *)
Record separators (keys : list bytes) (blocks : list (list (bytes * bytes))) (rest : list (bytes * bytes)) : Prop := {
  sep_above i key es : keys !! i = Some key -> blocks !! i = Some es -> above key es;
  sep_below i j key es : keys !! i = Some key -> blocks !! j = Some es -> (i < j)%nat -> below key es;
  sep_rest i key : keys !! i = Some key -> below key rest;
  sep_made i key es : keys !! i = Some key -> blocks !! i = Some es -> made_of ((blocks ++ [rest]) !! S i) key es
}.

Section Built.
Context {W : Type} `{!WritableFile W} `{!WritableFileLaws W}.
Context `{!ComparatorLaws (comparator opt)} (Hinterval : 1 <= block_restart_interval opt).

(** The builder has written the blocks, and [cur] is in the data block. *)
Record built (r : Rep W) (blocks : list (list (bytes * bytes))) (cur : list (bytes * bytes)) (keys : list bytes) : Prop := {
  b_options : options r = opt;
  b_file : written (file r) = data_area blocks;
  b_offset : offset r = u64 (size_of (data_area blocks));
  b_data : data_block r = add_entries (block_restart_interval opt) cur;
  b_index : index_block r = add_entries 1 (index_entries keys blocks);
  b_pending : length blocks = (length keys + if pending_index_entry r then 1 else 0)%nat;
  b_handle : pending_index_entry r = true -> cur = [] /\ last (handles 0 blocks) = Some (pending_handle r);
  b_last e : last (concat blocks ++ cur) = Some e -> pending_index_entry r = true \/ cur <> [] -> last_key r = fst e;
  b_filter : filter_block r = (fun policy => (policy, filter_state policy (blocks ++ [cur]))) <$> filter_policy opt;
  b_nonempty : Forall (fun es => es <> []) blocks;
  b_fresh : pending_index_entry r = false -> cur = [] -> blocks = [];
  b_separators : separators keys blocks cur
}.

Lemma built_make (f : W) : written f = [] -> built (TableBuilder_make opt f) [] [] [].
Proof.
  intros Hf. unfold TableBuilder_make, Rep_make, on_filter. cbn [options filter_policy filter_block].
  split; cbn [set_filter options file offset data_block index_block pending_index_entry filter_block]; try done.
  by destruct (filter_policy opt).
Qed.

(** ** Writing blocks *)

Lemma WriteRawBlock_ok contents type (r : Rep W) h r' : WriteRawBlock contents type r = (h, r') -> rep_ok r' = true ->
  h = mkBlockHandle (offset r) (size_of contents) /\ exists f s,
  r' = set_written f s (u64 (offset r + size_of (contents ++ block_trailer type contents))) r /\ ok s = true /\
  written f = written (file r) ++ contents ++ block_trailer type contents.
Proof.
  unfold WriteRawBlock. destruct (Append contents (file r)) as [s f] eqn:E1. destruct (ok s) eqn:Hs.
  2:{ intros [= <- <-] Hok. unfold rep_ok in Hok. cbn in Hok. congruence. }
  destruct (Append _ f) as [s2 f2] eqn:E2. intros [= <- <-] Hok. unfold rep_ok in Hok. cbn in Hok. rewrite Hok.
  split; [done|]. exists f2, s2. split; [|split; [done|]].
  - do 2 f_equal. rewrite size_of_app. unfold size_of at 3. by rewrite length_block_trailer.
  - by rewrite (Append_ok _ _ _ _ E2 Hok), (Append_ok _ _ _ _ E1 Hs), <- app_assoc.
Qed.

Lemma WriteBlock_ok interval es (r : Rep W) h b r' : options r = opt ->
  WriteBlock snappy (add_entries interval es) r = (h, b, r') -> rep_ok r' = true ->
  h = mkBlockHandle (offset r) (stored_size (build_block interval es)) /\ b = BlockBuilder_make /\ exists f s,
  r' = set_written f s (u64 (offset r + size_of (disk (build_block interval es)))) r /\ ok s = true /\
  written f = written (file r) ++ disk (build_block interval es).
Proof.
  intros Ho. unfold WriteBlock. destruct (BlockBuilder_Finish (add_entries interval es)) as [raw b0] eqn:Ef.
  assert (build_block interval es = raw) as -> by (unfold build_block, add_entries in *; by rewrite Ef).
  rewrite Ho. unfold disk, stored_size. destruct (choose_compression _ _ raw) as [contents type].
  destruct (WriteRawBlock contents type r) as [h0 r0] eqn:Ew. intros [= <- <- <-] Hok.
  destruct (WriteRawBlock_ok _ _ _ _ _ Ew Hok) as [-> Hf]. done.
Qed.

(** ** The keys of the index *)

Lemma index_entries_snoc keys blocks h key : length blocks = S (length keys) -> last (handles 0 blocks) = Some h ->
  index_entries (keys ++ [key]) blocks = index_entries keys blocks ++ [(key, encode_handle h)].
Proof.
  intros Hlen Hl. unfold index_entries. destruct blocks as [|b blocks _] using rev_ind; [done|].
  rewrite handles_snoc in *. rewrite last_snoc in Hl. injection Hl as <-. rewrite length_app in Hlen. cbn in Hlen.
  rewrite map_app, zip_with_app by (rewrite length_map, length_handles; lia). f_equal.
  by rewrite zip_with_app_r, length_map, length_handles, drop_ge, take_ge, app_nil_r by lia.
Qed.

(** ** Separators *)

Lemma lt_entries x y es1 es2 : sorted_entries (comparator opt) (es1 ++ es2) -> x ∈ es1 -> y ∈ es2 ->
  Compare (comparator opt) (fst x) (fst y) = Lt.
Proof.
  intros Hs [i Hi]%list_elem_of_lookup [j Hj]%list_elem_of_lookup.
  apply (sorted_entries_lookup (comparator opt) _ i (length es1 + j) x y Hs).
  - by apply lookup_app_l_Some.
  - rewrite lookup_app_r by lia. by replace (length es1 + j - length es1)%nat with j by lia.
  - apply lookup_lt_Some in Hi. lia.
Qed.

(** What is before an entry is before the entries after it. *)
Lemma below_trans key (x : bytes * bytes) es : Compare (comparator opt) key (fst x) = Lt ->
  (forall e, e ∈ es -> Compare (comparator opt) (fst x) (fst e) = Lt) -> below key es.
Proof. intros Hk Hx. unfold below. rewrite Forall_forall. intros e He. eapply compare_lt_trans; [done|by apply Hx]. Qed.

Lemma made_of_eq n n' key es : n ≫= head = n' ≫= head -> made_of n key es -> made_of n' key es.
Proof. unfold made_of. by intros ->. Qed.

(** The first entry of what follows a block does not change when more is added
    after it. *)
Lemma next_head (blocks : list (list (bytes * bytes))) rest rest' i : (i < length blocks)%nat \/ head rest = head rest' ->
  (blocks ++ [rest]) !! i ≫= head = (blocks ++ [rest']) !! i ≫= head.
Proof.
  intros H. destruct (decide (i < length blocks)%nat) as [Hi|Hi]; [by rewrite !lookup_app_l by done|].
  rewrite !lookup_app_r by lia. destruct H as [|H]; [lia|]. by destruct (i - length blocks)%nat.
Qed.

Lemma sep_flush keys blocks cur : separators keys blocks cur -> length keys = length blocks -> separators keys (blocks ++ [cur]) [].
Proof.
  intros [Ha Hb Hr Hm] Hlen. split.
  - intros i key es Hi He. pose proof (lookup_lt_Some _ _ _ Hi). rewrite lookup_app_l in He by lia. by eapply Ha.
  - intros i j key es Hi He Hlt. apply lookup_app_Some in He as [He|[Hj He]]; [by eapply Hb|].
    apply list_elem_of_lookup_2, list_elem_of_singleton in He as ->. by eapply Hr.
  - intros. by constructor.
  - intros i key es Hi He. pose proof (lookup_lt_Some _ _ _ Hi). rewrite lookup_app_l in He by lia.
    eapply made_of_eq; [|by apply Hm]. by rewrite (lookup_app_l (blocks ++ [cur])) by (rewrite length_app; cbn; lia).
Qed.

Lemma sep_add keys blocks cur e : separators keys blocks cur -> length keys = length blocks -> (cur = [] -> blocks = []) ->
  sorted_entries (comparator opt) (cur ++ [e]) -> separators keys blocks (cur ++ [e]).
Proof.
  intros [Ha Hb Hr Hm] Hlen Hne Hs. split; [done..| |].
  2:{ intros i key es Hi He. eapply made_of_eq; [|by apply Hm]. apply next_head. pose proof (lookup_lt_Some _ _ _ He).
      destruct cur as [|x cur]; [rewrite Hne in * by done; simpl in *; lia|by right]. }
  intros i key Hi. apply Forall_app. split; [by eapply Hr|].
  destruct cur as [|x cur]; [rewrite Hne in Hlen by done; by destruct keys|].
  specialize (Hr i key Hi). apply Forall_cons in Hr as [Hx _]. apply (below_trans key x); [done|].
  intros y Hy. apply (lt_entries x y (x :: cur) [e]); [done|left|done].
Qed.

(** What holds of the keys and the blocks, and of a new key and the last block. *)
Lemma keys_snoc (P : nat -> bytes -> list (bytes * bytes) -> Prop) keys blocks es key :
  (forall i key es', keys !! i = Some key -> (blocks ++ [es]) !! i = Some es' -> P i key es') ->
  length blocks = length keys -> P (length keys) key es ->
  forall i k es', (keys ++ [key]) !! i = Some k -> (blocks ++ [es]) !! i = Some es' -> P i k es'.
Proof.
  intros Ha Hlen HP i k b Hi Hb'. apply lookup_app_Some in Hi as [Hi|[Hi1 Hi]]; [by eapply Ha|].
  apply list_lookup_singleton_Some in Hi as [Hi0 <-]. rewrite lookup_app_r in Hb' by lia.
  apply list_lookup_singleton_Some in Hb' as [_ <-]. by replace i with (length keys) by lia.
Qed.

(** A key at or after the last entry. *)
Lemma last_above es (last_e : bytes * bytes) key : last es = Some last_e -> sorted_entries (comparator opt) es ->
  Compare (comparator opt) (fst last_e) key <> Gt -> above key es.
Proof.
  intros [es' ->]%last_Some Hs Hkey. unfold above. rewrite Forall_forall. intros x Hx. apply (compare_le_trans _ (fst last_e)); [|done].
  apply elem_of_app in Hx as [Hx|Hx].
  - by rewrite (lt_entries x last_e es' [last_e] Hs Hx) by left.
  - apply list_elem_of_singleton in Hx as ->. by rewrite compare_refl.
Qed.

Lemma sep_new keys blocks es (last_e : bytes * bytes) e : separators keys (blocks ++ [es]) [] -> length blocks = length keys -> last es = Some last_e ->
  sorted_entries (comparator opt) (es ++ [e]) ->
  separators (keys ++ [FindShortestSeparator (comparator opt) (fst last_e) (fst e)]) (blocks ++ [es]) [e].
Proof.
  intros [Ha Hb Hr Hm] Hlen Hl Hs. set (key := FindShortestSeparator _ _ _). pose proof Hl as [es' ->]%last_Some.
  assert (Hle : Compare (comparator opt) (fst last_e) (fst e) = Lt).
  { apply (lt_entries last_e e (es' ++ [last_e]) [e]); [done|apply elem_of_app; right; left|left]. }
  pose proof (separator_between (c := comparator opt) (fst last_e) (fst e)) as Hkey. fold key in Hkey.
  split.
  - apply (keys_snoc (fun _ => above)); [done..|]. apply (last_above _ last_e); [done| |].
    + by apply sorting.StronglySorted_app_1_l in Hs.
    + destruct Hkey as [->|[Hk _]]; [by rewrite compare_refl|by rewrite Hk].
  - intros i j k b Hi Hb' Hlt. apply lookup_app_Some in Hi as [Hi|[Hi1 Hi]]; [by eapply Hb|].
    apply lookup_lt_Some in Hb'. rewrite length_app in Hb'. cbn in Hb'. lia.
  - intros i k Hi. constructor; [|done]. apply lookup_app_Some in Hi as [Hi|[_ Hi]].
    + apply (compare_lt_trans _ (fst last_e)); [|done].
      assert (Hbl : below k (es' ++ [last_e])).
      { apply (Hb i (length blocks) k _ Hi); [by rewrite lookup_app_r, Nat.sub_diag|]. apply lookup_lt_Some in Hi. lia. }
      unfold below in Hbl. rewrite Forall_forall in Hbl. apply Hbl, elem_of_app. right. left.
    + apply list_elem_of_lookup_2, list_elem_of_singleton in Hi as ->. destruct Hkey as [->|[_ Hk]]; done.
  - apply (keys_snoc (fun i => made_of (((blocks ++ [es' ++ [last_e]]) ++ [[e]]) !! S i))); [|done|].
    + intros i k b Hi Hb'. eapply made_of_eq; [|by apply Hm]. apply next_head. left. pose proof (lookup_lt_Some _ _ _ Hi).
      rewrite length_app. cbn. lia.
    + exists last_e. split; [done|]. rewrite lookup_app_r by (rewrite length_app; cbn; lia).
      by rewrite length_app, Hlen, Nat.add_comm, Nat.sub_diag.
Qed.

Lemma sep_last keys blocks es (last_e : bytes * bytes) : separators keys (blocks ++ [es]) [] -> length blocks = length keys -> last es = Some last_e ->
  sorted_entries (comparator opt) es -> separators (keys ++ [FindShortSuccessor (comparator opt) (fst last_e)]) (blocks ++ [es]) [].
Proof.
  intros [Ha Hb Hr Hm] Hlen Hl Hs. split.
  - apply (keys_snoc (fun _ => above)); [done..|]. apply (last_above _ last_e); [done..|].
    destruct (successor_above (c := comparator opt) (fst last_e)) as [->|Hk]; [by rewrite compare_refl|by rewrite Hk].
  - intros i j k b Hi Hb' Hlt. apply lookup_app_Some in Hi as [Hi|[Hi1 Hi]]; [by eapply Hb|].
    apply lookup_lt_Some in Hb'. rewrite length_app in Hb'. cbn in Hb'. lia.
  - intros. by constructor.
  - apply (keys_snoc (fun i => made_of (((blocks ++ [es]) ++ [[]]) !! S i))); [done..|]. exists last_e. split; [done|].
    rewrite lookup_app_r by (rewrite length_app; cbn; lia). by rewrite length_app, Hlen, Nat.add_comm, Nat.sub_diag.
Qed.

(** ** The operations *)

Lemma last_concat {A} (ls : list (list A)) l x : last (concat (ls ++ [l])) = Some x -> l <> [] -> last l = Some x.
Proof.
  rewrite concat_app. cbn. rewrite app_nil_r. intros Hl Hne. destruct l as [|y l _] using rev_ind; [done|].
  rewrite app_assoc, last_snoc in Hl. by rewrite last_snoc.
Qed.

(** [Flush] on a data block that has entries. *)
Lemma Flush_built (r : Rep W) blocks cur keys : built r blocks cur keys -> cur <> [] -> rep_ok (TableBuilder_Flush snappy r) = true ->
  built (TableBuilder_Flush snappy r) (blocks ++ [cur]) [] keys /\ num_entries (TableBuilder_Flush snappy r) = num_entries r.
Proof.
  intros [Ho Hf Hoff Hd Hi Hp Hh Hl Hfi Hne Hfr Hs] Hcur. unfold TableBuilder_Flush.
  destruct (rep_ok r) eqn:Hok; [|cbn [negb]; congruence]. cbn [negb].
  assert (He : BlockBuilder_empty (data_block r) = false).
  { rewrite Hd. apply not_true_iff_false. by rewrite add_entries_empty. }
  rewrite He. destruct (WriteBlock snappy (data_block r) r) as [[h b] r1] eqn:Ew. rewrite Hd in Ew.
  assert (Hpe : pending_index_entry r = false).
  { destruct (pending_index_entry r); [|done]. by destruct (Hh eq_refl) as [-> _]. }
  destruct (rep_ok (set_data b h r1)) eqn:Hok1.
  2:{ cbn. unfold rep_ok in *. cbn in *. congruence. }
  destruct (WriteBlock_ok _ _ _ _ _ _ Ho Ew Hok1) as (-> & -> & f & s & -> & Hs1 & Hw).
  destruct (Flush (file (set_data _ _ _))) as [s2 f2] eqn:Ef. cbn in Ef. intros _.
  rewrite Hpe, Nat.add_0_r in Hp. split; [|done].
  split; cbn [set_filter set_written set_pending set_data options file offset status_ data_block index_block last_key
    pending_index_entry pending_handle filter_block].
  - done.
  - rewrite (Flush_written _ _ _ Ef), Hw, Hf. by rewrite data_area_app, data_area_1.
  - by rewrite data_area_app, size_of_app, Hoff, u64_add, data_area_1.
  - done.
  - rewrite Hi. unfold index_entries. f_equal. rewrite handles_snoc, map_app.
    by rewrite zip_with_app_r, length_map, length_handles, drop_ge, take_ge, app_nil_r by lia.
  - rewrite length_app. cbn. lia.
  - intros _. split; [done|]. rewrite handles_snoc, last_snoc, Hoff, Z.add_0_l. done.
  - intros e He' _. apply Hl; [|by right]. rewrite app_nil_r in He'. rewrite concat_app in He'. cbn in He'. by rewrite app_nil_r in He'.
  - unfold on_filter, set_written, set_pending, set_data. cbn [filter_block offset]. rewrite Hfi. destruct (filter_policy opt) as [policy|]; [|done]. cbn. do 2 f_equal.
    rewrite Hoff, u64_add. by rewrite <- filter_state_start, data_area_app, size_of_app, data_area_1.
  - by apply Forall_app_2; [|constructor].
  - done.
  - by apply sep_flush.
Qed.

(** The index entry of the block before, when it is pending. *)
Lemma index_built (r : Rep W) blocks cur keys separator e : built r blocks cur keys -> pending_index_entry r = true ->
  sorted_entries (comparator opt) (concat blocks ++ [e]) ->
  (forall last_e, last (concat blocks) = Some last_e -> separator = FindShortestSeparator (comparator opt) (fst last_e) (fst e)) ->
  cur = [] /\ index_block (add_index_entry separator r) = add_entries 1 (index_entries (keys ++ [separator]) blocks) /\
  length blocks = length (keys ++ [separator]) /\ separators (keys ++ [separator]) blocks [e].
Proof.
  intros [Ho Hf Hoff Hd Hi Hp Hh Hl Hfi Hne Hfr Hs] Hpe He Hsep. rewrite Hpe in Hp. destruct (Hh Hpe) as [-> Hlast].
  assert (Hlen : length blocks = S (length keys)) by lia. split; [done|]. split; [|split].
  - unfold add_index_entry. cbn [index_block]. rewrite Hi, BlockHandle_EncodeTo_eq, add_entries_snoc, (index_entries_snoc _ _ (pending_handle r)) by done. done.
  - rewrite length_app. cbn. lia.
  - destruct blocks as [|es blocks _] using rev_ind; [cbn in Hlen; congruence|]. apply Forall_app in Hne as [_ Hne]. apply Forall_cons in Hne as [Hne _].
    destruct (last es) as [last_e|] eqn:El; [|apply last_None in El; by destruct (Hne El)].
    assert (Hlc : last (concat (blocks ++ [es])) = Some last_e).
    { rewrite concat_app. cbn. by rewrite app_nil_r, last_app, El. }
    rewrite length_app in Hlen. cbn in Hlen. rewrite (Hsep last_e Hlc). apply sep_new; [done|lia|done|].
    rewrite concat_app in He. cbn in He. rewrite app_nil_r, <- app_assoc in He. by apply sorting.StronglySorted_app_1_r in He.
Qed.

Lemma Add_built (r : Rep W) blocks cur keys k v : built r blocks cur keys ->
  sorted_entries (comparator opt) (concat blocks ++ cur ++ [(k, v)]) ->
  rep_ok (TableBuilder_Add snappy k v r) = true -> exists blocks' cur' keys',
  built (TableBuilder_Add snappy k v r) blocks' cur' keys' /\ concat blocks' ++ cur' = concat blocks ++ cur ++ [(k, v)] /\
  num_entries (TableBuilder_Add snappy k v r) = num_entries r + 1.
Proof.
  intros Hb Hs. pose proof Hb as [Ho Hf Hoff Hd Hi Hp Hh Hl Hfi Hne Hfr Hsep]. unfold TableBuilder_Add.
  destruct (rep_ok r) eqn:Hok; [|cbn [negb]; congruence]. cbn [negb].
  set (r1 := if pending_index_entry r then _ else r). set (r2 := set_filter _ r1).
  set (r3 := mkRep _ _ _ _ _ _ _ _ _ _ _ _).
  assert (Hb3 : exists keys', built r3 blocks (cur ++ [(k, v)]) keys').
  { assert (Hr1 : options r1 = opt /\ file r1 = file r /\ offset r1 = offset r /\ data_block r1 = data_block r /\
      filter_block r1 = filter_block r /\ pending_index_entry r1 = false /\ exists keys', length blocks = length keys' /\
      index_block r1 = add_entries 1 (index_entries keys' blocks) /\ separators keys' blocks (cur ++ [(k, v)])).
    { subst r1. destruct (pending_index_entry r) eqn:Hpe.
      - repeat (split; [done|]). destruct (Hh eq_refl) as [-> _]. rewrite app_nil_l in *.
        destruct (index_built r blocks [] keys (FindShortestSeparator (comparator (options r)) (last_key r) k) (k, v) Hb Hpe)
          as (_ & H1 & H2 & H3); [done| |by eexists].
        intros e He. by rewrite Ho, (Hl e) by (rewrite ?app_nil_r; tauto).
      - repeat (split; [done|]). exists keys. rewrite Nat.add_0_r in Hp. split; [done|]. split; [done|].
        apply sep_add; [done..|by apply Hfr|by apply sorting.StronglySorted_app_1_r in Hs]. }
    destruct Hr1 as (H1 & H2 & H3 & H4 & H5 & H6 & keys' & H7 & H8 & H9). exists keys'.
    assert (H2f : options r2 = opt /\ file r2 = file r /\ offset r2 = offset r /\ data_block r2 = data_block r /\
      index_block r2 = index_block r1 /\ pending_index_entry r2 = false) by done.
    destruct H2f as (G1 & G2 & G3 & G4 & G5 & G6).
    split; cbn [r3 options file offset status_ data_block index_block last_key pending_index_entry pending_handle filter_block]; try congruence.
    - by rewrite G1, G4, Hd, add_entries_snoc.
    - rewrite G6. lia.
    - intros e He _. rewrite app_assoc, last_snoc in He. by injection He as <-.
    - change (filter_block r2) with (on_filter (fun _ => FilterBlock.AddKey k) r1). unfold on_filter. rewrite H5, Hfi.
      destruct (filter_policy opt) as [policy|]; [|done]. cbn. do 2 f_equal. apply (filter_state_key policy blocks cur (k, v)).
    - by destruct cur. }
  destruct Hb3 as [keys' Hb3].
  assert (Hn : num_entries r3 = num_entries r + 1) by (subst r3 r2 r1; by destruct (pending_index_entry r)).
  destruct (_ >=? _).
  - intros Hok3. destruct (Flush_built r3 _ _ _ Hb3) as [Hbf Hnf]; [by destruct cur|done|].
    exists (blocks ++ [cur ++ [(k, v)]]), [], keys'. split; [done|]. split; [|lia].
    rewrite concat_app. cbn. by rewrite !app_nil_r.
  - intros _. by exists blocks, (cur ++ [(k, v)]), keys'.
Qed.

(** ** Adding all the entries *)

Definition add_all (es : list (bytes * bytes)) (r : Rep W) : Rep W :=
  fold_left (fun r e => TableBuilder_Add snappy (fst e) (snd e) r) es r.

Lemma Add_sticky k v (r : Rep W) : rep_ok r = false -> TableBuilder_Add snappy k v r = r.
Proof. intros H. unfold TableBuilder_Add. by rewrite H. Qed.

Lemma add_all_sticky es (r : Rep W) : rep_ok r = false -> add_all es r = r.
Proof.
  intros H. unfold add_all. induction es as [|e es IH]; [done|]. cbn [fold_left]. by rewrite Add_sticky.
Qed.

Lemma add_all_built es : forall (r : Rep W) blocks cur keys, built r blocks cur keys ->
  sorted_entries (comparator opt) (concat blocks ++ cur ++ es) -> rep_ok (add_all es r) = true -> exists blocks' cur' keys',
  built (add_all es r) blocks' cur' keys' /\ concat blocks' ++ cur' = concat blocks ++ cur ++ es /\
  num_entries (add_all es r) = num_entries r + size_of es.
Proof.
  induction es as [|[k v] es IH]; intros r blocks cur keys Hb Hs Hok.
  { exists blocks, cur, keys. rewrite !app_nil_r. cbn. split; [done|]. split; [done|]. unfold size_of. cbn. lia. }
  cbn [add_all fold_left fst snd] in *. fold (add_all es (TableBuilder_Add snappy k v r)) in *.
  destruct (rep_ok (TableBuilder_Add snappy k v r)) eqn:Hok1.
  2:{ rewrite add_all_sticky in Hok by done. congruence. }
  assert (Es : concat blocks ++ cur ++ (k, v) :: es = (concat blocks ++ cur ++ [(k, v)]) ++ es) by (by rewrite <- !app_assoc).
  rewrite Es in *. destruct (Add_built r blocks cur keys k v Hb) as (b1 & c1 & k1 & Hb1 & Ec & Hn1); [by apply sorting.StronglySorted_app_1_l in Hs|done|].
  destruct (IH _ _ _ _ Hb1) as (b2 & c2 & k2 & Hb2 & E2 & Hn2); [by rewrite app_assoc, Ec|done|].
  exists b2, c2, k2. split; [done|]. rewrite E2, app_assoc, Ec. split; [done|]. rewrite size_of_cons. lia.
Qed.
End Built.

(** ** The file of a finished table *)

Definition filter_key (policy : FilterPolicy) : bytes := str "filter." ++ policy_Name policy.
Definition filter_contents (policy : FilterPolicy) (blocks : list (list (bytes * bytes))) : bytes :=
  FilterBlock.build_filter_block policy (filter_blocks 0 (blocks ++ [[]])).
Definition filter_part (blocks : list (list (bytes * bytes))) : bytes :=
  match filter_policy opt with
  | Some policy => filter_contents policy blocks ++ block_trailer kNoCompression (filter_contents policy blocks)
  | None => []
  end.
Definition filter_handle (policy : FilterPolicy) (blocks : list (list (bytes * bytes))) : BlockHandle :=
  mkBlockHandle (u64 (size_of (data_area blocks))) (size_of (filter_contents policy blocks)).
Definition meta_entries (blocks : list (list (bytes * bytes))) : list (bytes * bytes) :=
  match filter_policy opt with
  | Some policy => [(filter_key policy, encode_handle (filter_handle policy blocks))]
  | None => []
  end.
Definition meta_raw (blocks : list (list (bytes * bytes))) : bytes := raw_block (meta_entries blocks).
Definition index_raw (keys : list bytes) (blocks : list (list (bytes * bytes))) : bytes := build_block 1 (index_entries keys blocks).

(** What is before the metaindex block. *)
Definition before_meta (blocks : list (list (bytes * bytes))) : bytes := data_area blocks ++ filter_part blocks.
Definition table_footer (keys : list bytes) (blocks : list (list (bytes * bytes))) : Footer :=
  mkFooter
    (mkBlockHandle (u64 (size_of (before_meta blocks))) (stored_size (meta_raw blocks)))
    (mkBlockHandle (u64 (size_of (before_meta blocks ++ disk (meta_raw blocks)))) (stored_size (index_raw keys blocks))).
Definition table_file (keys : list bytes) (blocks : list (list (bytes * bytes))) : bytes :=
  before_meta blocks ++ disk (meta_raw blocks) ++ disk (index_raw keys blocks) ++
  Footer_EncodeTo [] (table_footer keys blocks).

Section Finish.
Context {W : Type} `{!WritableFile W} `{!WritableFileLaws W}.
Context `{!ComparatorLaws (comparator opt)} (Hinterval : 1 <= block_restart_interval opt).

(** A step of [Finish] adds bytes to the file, and leaves the index alone. *)
Record extends (r r' : Rep W) (d : bytes) : Prop := {
  e_ok : rep_ok r = true;
  e_options : options r' = options r;
  e_file : written (file r') = written (file r) ++ d;
  e_offset : offset r' = u64 (offset r + size_of d);
  e_index : index_block r' = index_block r;
  e_pending : pending_index_entry r' = pending_index_entry r;
  e_handle : pending_handle r' = pending_handle r;
  e_last : last_key r' = last_key r;
  e_entries : num_entries r' = num_entries r;
  e_closed : closed r' = closed r
}.

(** The builder before the metaindex is written: what it knows of the filter. *)
Definition filter_known (r : Rep W) : Prop := is_Some (filter_block r) <-> is_Some (filter_policy opt).

Lemma write_filter_ok (r : Rep W) blocks h r' : options r = opt -> offset r = u64 (size_of (data_area blocks)) ->
  filter_block r = (fun policy => (policy, filter_state policy (blocks ++ [[]]))) <$> filter_policy opt ->
  write_filter r = (h, r') -> rep_ok r' = true ->
  extends r r' (filter_part blocks) /\ filter_known r' /\
  forall policy, filter_policy opt = Some policy -> h = filter_handle policy blocks.
Proof.
  intros Ho Hoff Hfb. unfold write_filter, filter_part, filter_known. rewrite Hfb.
  destruct (filter_policy opt) as [policy|] eqn:Ep; cbn [fmap option_fmap option_map].
  - destruct (rep_ok r) eqn:Hok; [|intros [= <- <-]; congruence]. intros Ew Hok'.
    destruct (WriteRawBlock_ok _ _ _ _ _ Ew Hok') as (-> & f & s & -> & _ & Hw).
    split; [by split|]. split; [done|]. intros policy' [= <-]. unfold filter_handle. by rewrite <- Hoff.
  - intros [= <- <-] Hok. split; [split; try done|].
    + by rewrite app_nil_r.
    + rewrite Z.add_0_r, Hoff. symmetry. apply u64_small, u64_range.
    + split; [|done]. rewrite Hfb. split; intros [? [=]].
Qed.

Lemma write_metaindex_ok (r : Rep W) blocks fh h r' : options r = opt -> filter_known r ->
  offset r = u64 (size_of (before_meta blocks)) ->
  (forall policy, filter_policy opt = Some policy -> fh = filter_handle policy blocks) ->
  write_metaindex snappy fh r = (h, r') -> rep_ok r' = true ->
  extends r r' (disk (meta_raw blocks)) /\ h = metaindex_handle (table_footer [] blocks).
Proof.
  intros Ho Hk Hoff Hfh. unfold write_metaindex, filter_known in *. rewrite Ho.
  destruct (rep_ok r) eqn:Hok; [|intros [= <- <-]; congruence].
  assert (Em : match filter_block r, filter_policy opt with
      | Some _, Some policy => BlockBuilder_Add (block_restart_interval opt) (str "filter." ++ policy_Name policy)
          (BlockHandle_EncodeTo [] fh) BlockBuilder_make
      | _, _ => BlockBuilder_make end = add_entries (block_restart_interval opt) (meta_entries blocks)).
  { unfold meta_entries. destruct (filter_policy opt) as [policy|], (filter_block r) as [b|]; try done.
    - by rewrite (Hfh policy eq_refl), BlockHandle_EncodeTo_eq.
    - by destruct (proj2 Hk (ex_intro _ policy eq_refl)). }
  rewrite Em. destruct (WriteBlock _ _ r) as [[h0 b] r0] eqn:Ew. intros [= <- <-] Hok'.
  destruct (WriteBlock_ok _ _ _ _ _ _ Ho Ew Hok') as (-> & _ & f & s & -> & _ & Hw).
  split; [by split|]. rewrite Hoff. unfold table_footer. cbn [metaindex_handle]. unfold meta_raw, raw_block. done.
Qed.

(** The index: what is pending goes in first. *)
Lemma write_index_ok (r : Rep W) r0 blocks cur keys h r' : built r0 blocks cur keys -> cur = [] -> options r = opt ->
  sorted_entries (comparator opt) (concat blocks) ->
  index_block r = index_block r0 -> pending_index_entry r = pending_index_entry r0 -> pending_handle r = pending_handle r0 ->
  last_key r = last_key r0 ->
  offset r = u64 (size_of (before_meta blocks ++ disk (meta_raw blocks))) ->
  write_index snappy r = (h, r') -> rep_ok r' = true ->
  exists keys', length keys' = length blocks /\ separators keys' blocks [] /\
  rep_ok r = true /\ written (file r') = written (file r) ++ disk (index_raw keys' blocks) /\
  offset r' = u64 (offset r + size_of (disk (index_raw keys' blocks))) /\ h = index_handle (table_footer keys' blocks) /\
  num_entries r' = num_entries r /\ closed r' = closed r.
Proof.
  intros Hb -> Ho Hsorted Hei Hep Heh Hel Hoff. unfold write_index. rewrite Ho.
  destruct (rep_ok r) eqn:Hok; [|intros [= <- <-]; congruence].
  set (r1 := if pending_index_entry r then _ else r). pose proof Hb as [_ _ _ _ Hi Hp Hh Hl _ Hne Hfr Hs].
  assert (H1 : exists keys', index_block r1 = add_entries 1 (index_entries keys' blocks) /\ length keys' = length blocks /\
    separators keys' blocks []).
  { subst r1. rewrite Hep, Hel. destruct (pending_index_entry r0) eqn:Hpe.
    - set (key := FindShortSuccessor _ _). exists (keys ++ [key]). destruct (Hh eq_refl) as [_ Hlast].
      assert (Hlen : length blocks = S (length keys)) by lia.
      split; [|split].
      + unfold add_index_entry. cbn [index_block]. by rewrite Hei, Hi, Heh, BlockHandle_EncodeTo_eq, add_entries_snoc,
          (index_entries_snoc _ _ (pending_handle r0)).
      + rewrite length_app. cbn. lia.
      + destruct blocks as [|es blocks _] using rev_ind; [done|]. apply Forall_app in Hne as [_ Hne].
        apply Forall_cons in Hne as [Hne _]. rewrite length_app in Hlen. cbn in Hlen.
        destruct (last es) as [last_e|] eqn:El; [|apply last_None in El; by destruct (Hne El)].
        assert (Hk : last_key r0 = fst last_e).
        { apply Hl; [|by left]. rewrite concat_app. cbn. by rewrite !app_nil_r, last_app, El. }
        subst key. rewrite Hk. apply sep_last; [done|lia|done|].
        rewrite concat_app in Hsorted. cbn in Hsorted. rewrite app_nil_r in Hsorted. by apply sorting.StronglySorted_app_1_r in Hsorted.
    - exists keys. rewrite Hei, Hi. split; [done|]. split; [lia|]. done. }
  destruct H1 as (keys' & Hi' & Hlen' & Hs'). rewrite Hi'.
  assert (H2 : options r1 = opt /\ offset r1 = offset r /\ file r1 = file r /\ num_entries r1 = num_entries r /\ closed r1 = closed r)
    by (subst r1; by destruct (pending_index_entry r)).
  destruct H2 as (Ho1 & Hoff1 & Hf1 & Hn1 & Hc1).
  destruct (WriteBlock _ _ r1) as [[h0 b] r2] eqn:Ew. intros [= <- <-] Hok'.
  destruct (WriteBlock_ok _ _ _ _ _ _ Ho1 Ew Hok') as (-> & _ & f & s & -> & _ & Hw).
  exists keys'. split; [done|]. split; [done|]. split; [done|]. cbn [set_index set_written file options]. cbn.
  by rewrite Hw, Hf1, Hoff1, Hoff, Hn1, Hc1.
Qed.

Lemma write_footer_ok m i (r : Rep W) : rep_ok (write_footer m i r) = true ->
  rep_ok r = true /\ written (file (write_footer m i r)) = written (file r) ++ Footer_EncodeTo [] (mkFooter m i) /\
  offset (write_footer m i r) = u64 (offset r + size_of (Footer_EncodeTo [] (mkFooter m i))).
Proof.
  unfold write_footer. destruct (rep_ok r) eqn:Hok; [|congruence]. destruct (Append _ (file r)) as [s f] eqn:E.
  intros Hs. unfold rep_ok in Hs. cbn in Hs. cbn [set_written file offset]. rewrite Hs. split; [done|]. split; [|done].
  by rewrite (Append_ok _ _ _ _ E Hs).
Qed.

Lemma write_footer_entries m i (r : Rep W) : num_entries (write_footer m i r) = num_entries r /\ closed (write_footer m i r) = closed r.
Proof. unfold write_footer. destruct (rep_ok r); [|done]. by destruct (Append _ _). Qed.

(** The last data block is flushed. *)
Lemma Flush_all (r : Rep W) blocks cur keys : built r blocks cur keys -> rep_ok (TableBuilder_Flush snappy r) = true ->
  exists blocks', built (TableBuilder_Flush snappy r) blocks' [] keys /\ concat blocks' = concat blocks ++ cur /\
  num_entries (TableBuilder_Flush snappy r) = num_entries r.
Proof.
  intros Hb Hok. destruct cur as [|e cur].
  - exists blocks. rewrite app_nil_r. unfold TableBuilder_Flush in *. destruct (rep_ok r); [|done]. cbn [negb] in *.
    by rewrite (b_data _ _ _ _ Hb) in *.
  - destruct (Flush_built Hinterval r _ _ _ Hb) as [Hf Hn]; [done|done|]. exists (blocks ++ [e :: cur]). split; [done|]. split; [|done].
    rewrite concat_app. cbn. by rewrite app_nil_r.
Qed.

(** [Finish] leaves a table file, when no write has failed. *)
Lemma Finish_built (r : Rep W) blocks cur keys s r' : built r blocks cur keys ->
  sorted_entries (comparator opt) (concat blocks ++ cur) -> TableBuilder_Finish snappy r = (s, r') -> ok s = true ->
  exists blocks' keys', concat blocks' = concat blocks ++ cur /\ Forall (fun es => es <> []) blocks' /\
  length keys' = length blocks' /\ separators keys' blocks' [] /\
  written (file r') = table_file keys' blocks' /\ offset r' = u64 (size_of (table_file keys' blocks')) /\
  num_entries r' = num_entries r /\ closed r' = true.
Proof.
  intros Hb Hsorted. unfold TableBuilder_Finish.
  set (r0 := set_closed (TableBuilder_Flush snappy r)).
  destruct (write_filter r0) as [fh r1] eqn:E1. destruct (write_metaindex snappy fh r1) as [mh r2] eqn:E2.
  destruct (write_index snappy r2) as [ih r3] eqn:E3. intros [= <- <-] Hok4.
  destruct (write_footer_ok mh ih r3 Hok4) as (Hok3 & Hw4 & Ho4). destruct (write_footer_entries mh ih r3) as [Hn4 Hc4].
  assert (Hok2 : rep_ok r2 = true).
  { unfold write_index in E3. destruct (rep_ok r2) eqn:E; [done|]. injection E3 as <- <-. congruence. }
  assert (Hok1 : rep_ok r1 = true).
  { unfold write_metaindex in E2. destruct (rep_ok r1) eqn:E; [done|]. injection E2 as <- <-. congruence. }
  assert (Hok0 : rep_ok r0 = true).
  { unfold write_filter in E1. destruct (rep_ok r0) eqn:E; [done|].
    destruct (filter_block r0) as [[? ?]|]; injection E1 as <- <-; congruence. }
  destruct (Flush_all r _ _ _ Hb Hok0) as (blocks' & Hb0 & Ec & Hn0).
  pose proof Hb0 as [Go Gf Goff _ _ _ _ _ Gfi Gne _ _]. rewrite <- Ec in *.
  destruct (write_filter_ok r0 blocks' fh r1 Go Goff Gfi E1 Hok1) as ([_ Fo Ff Foff Fi Fp Fh Fl Fn Fc] & Fk & Fhandle).
  assert (Fo' : options r1 = opt) by (rewrite Fo; exact Go).
  assert (Foff' : offset r1 = u64 (size_of (before_meta blocks'))).
  { rewrite Foff. unfold before_meta. rewrite size_of_app. change (offset r0) with (offset (TableBuilder_Flush snappy r)). by rewrite Goff, u64_add. }
  destruct (write_metaindex_ok r1 blocks' fh mh r2) as ([_ Mo Mf Moff Mi Mp Mh Ml Mn Mc] & Ehm); [done..|].
  assert (Moff' : offset r2 = u64 (size_of (before_meta blocks' ++ disk (meta_raw blocks')))).
  { by rewrite Moff, Foff', u64_add, size_of_app. }
  destruct (write_index_ok r2 (TableBuilder_Flush snappy r) blocks' [] keys ih r3) as (keys' & Hlen & Hsep & _ & Iw & Ioff & Eih & In & Ic);
    [done|done|congruence|done|by rewrite Mi, Fi|by rewrite Mp, Fp|by rewrite Mh, Fh|by rewrite Ml, Fl|done..|].
  exists blocks', keys'. split; [done|]. split; [done|]. split; [done|]. split; [done|].
  assert (Ef : mkFooter mh ih = table_footer keys' blocks') by (by rewrite Ehm, Eih).
  rewrite Ef in *. split; [|split; [|split]].
  - rewrite Hw4, Iw, Mf, Ff. change (file r0) with (file (TableBuilder_Flush snappy r)). rewrite Gf.
    unfold table_file, before_meta. by rewrite <- !app_assoc.
  - rewrite Ho4, Ioff, u64_add, Moff', <- Z.add_assoc, u64_add. unfold table_file. by rewrite !size_of_app, !Z.add_assoc.
  - rewrite Hn4, In, Mn, Fn. exact Hn0.
  - by rewrite Hc4, Ic, Mc, Fc.
Qed.
End Finish.
End Layout.

(** After an error [Finish] writes nothing. *)
Lemma Finish_sticky {W : Type} `{!WritableFile W} (snappy : option SnappyLib) (r : Rep W) : rep_ok r = false ->
  fst (TableBuilder_Finish snappy r) = status_ r /\ snd (TableBuilder_Finish snappy r) = set_closed r.
Proof.
  intros Hr. unfold TableBuilder_Finish, TableBuilder_Flush. rewrite Hr. cbn [negb].
  assert (H0 : rep_ok (set_closed r) = false) by done.
  assert (E1 : write_filter (set_closed r) = (BlockHandle_make, set_closed r)).
  { unfold write_filter. rewrite H0. by destruct (filter_block (set_closed r)) as [[? ?]|]. }
  rewrite E1. unfold write_metaindex. rewrite H0. unfold write_index. rewrite H0. unfold write_footer. by rewrite H0.
Qed.

(** ** Properties *)

(** The contents of a table file of some entries: blocks that are not empty, an
    index that separates them, and the rest at the offsets that its handles say. *)
Definition is_table (snappy : option SnappyLib) (opt : Options) (entries : list (bytes * bytes)) (contents : bytes) : Prop :=
  exists blocks keys, concat blocks = entries /\ Forall (fun es => es <> []) blocks /\ length keys = length blocks /\
  separators opt keys blocks [] /\ contents = table_file snappy opt keys blocks.

Lemma builder_writes {W : Type} `{!WritableFile W} `{!WritableFileLaws W} (snappy : option SnappyLib) (opt : Options)
    `{!ComparatorLaws (comparator opt)} (entries : list (bytes * bytes)) (w : W) s r :
  1 <= block_restart_interval opt -> sorted_entries (comparator opt) entries -> written w = [] ->
  TableBuilder_Finish snappy (add_all snappy entries (TableBuilder_make opt w)) = (s, r) -> ok s = true ->
  is_table snappy opt entries (written (file r)) /\ FileSize r = u64 (size_of (written (file r))) /\
  NumEntries r = u64 (size_of entries) /\ closed r = true.
Proof.
  intros Hi Hs Hw Hf Hok.
  assert (Hok0 : rep_ok (add_all snappy entries (TableBuilder_make opt w)) = true).
  { destruct (rep_ok _) eqn:E; [done|]. destruct (Finish_sticky snappy _ E) as [E1 _]. rewrite Hf in E1. cbn [fst] in E1. unfold rep_ok in E. congruence. }
  destruct (add_all_built snappy opt Hi entries (TableBuilder_make opt w) [] [] [] (built_make snappy opt w Hw) Hs Hok0)
    as (blocks & cur & keys & Hb & Ec & Hn).
  cbn [concat app] in Ec. rewrite <- Ec in Hs.
  destruct (Finish_built snappy opt Hi _ _ _ _ s r Hb Hs Hf Hok) as (blocks' & keys' & E1 & E2 & E3 & E4 & E5 & E6 & E7 & E8).
  split; [|split; [|split]].
  - exists blocks', keys'. rewrite E1, Ec. done.
  - unfold FileSize. by rewrite E6, E5.
  - unfold NumEntries. by rewrite E7, Hn.
  - done.
Qed.

(** When [Finish] answers that all is well, the file of a builder to which
    entries were added in increasing order is a table file of exactly these
    entries, its size and their number are those the builder reports; after a
    failed write the builder adds nothing more, and [Finish] returns the error. *)
Theorem table_builder_writes {W : Type} `{!WritableFile W} `{!WritableFileLaws W} (snappy : option SnappyLib) (opt : Options)
    `{!ComparatorLaws (comparator opt)} (entries : list (bytes * bytes)) (w : W) s r :
  1 <= block_restart_interval opt -> sorted_entries (comparator opt) entries -> written w = [] ->
  TableBuilder_Finish snappy (add_all snappy entries (TableBuilder_make opt w)) = (s, r) ->
  (ok s = true ->
   is_table snappy opt entries (written (file r)) /\ FileSize r = u64 (size_of (written (file r))) /\
   NumEntries r = u64 (size_of entries) /\ closed r = true) /\
  (forall r0 : Rep W, rep_ok r0 = false -> (forall es, add_all snappy es r0 = r0) /\ TableBuilder_Flush snappy r0 = r0 /\
   TableBuilder_Finish snappy r0 = (status_ r0, set_closed r0)).
Proof.
  intros Hi Hs Hw Hf. split; [intros Hok; by eapply builder_writes|].
  intros r0 Hr. split; [intros es; by apply add_all_sticky|]. split.
  - unfold TableBuilder_Flush. by rewrite Hr.
  - destruct (Finish_sticky snappy r0 Hr) as [E1 E2]. destruct (TableBuilder_Finish snappy r0) as [s' r']. cbn in *. congruence.
Qed.

Definition sample_options : Options :=
  mkOptions BytewiseComparator 12 2 kNoCompression (Some (NewBloomFilterPolicy 10)) true.
Definition sample_entries : list (bytes * bytes) :=
  [(str "apple", str "1"); (str "apply", str "22"); (str "banana", str ""); (str "band", str "4"); (str "c", str "55")].
Definition sample_builder : Status * Rep Disk :=
  TableBuilder_Finish None (add_all None sample_entries (TableBuilder_make sample_options (mkDisk [] 1000))).

Lemma table_builder_writes_witness :
  is_table None sample_options sample_entries (written (file (snd sample_builder))) /\
  FileSize (snd sample_builder) = u64 (size_of (written (file (snd sample_builder)))) /\
  NumEntries (snd sample_builder) = u64 (size_of sample_entries) /\ closed (snd sample_builder) = true.
Proof.
  apply (table_builder_writes None sample_options sample_entries (mkDisk [] 1000) (fst sample_builder) (snd sample_builder)).
  - cbn. lia.
  - repeat constructor.
  - reflexivity.
  - unfold sample_builder. by destruct (TableBuilder_Finish _ _).
  - vm_compute. reflexivity.
Defined.
