(* ===== verification/Table.v ===== *)
(** * Table: reading a table file

    Models [table/table.cpp]: opening a table, reading its filter, the iterator
    over its entries, lookups and approximate offsets.  The block cache is its
    [Lookup] function; a call returns the block it inserts.  The theorems are about
    the files that [TableBuilder] writes. *)

From stdpp Require sorting.
From S2P Require Import Prelude Coding Slice Comparator Env Format Iterator FilterPolicy TwoLevel TableBuilder.
From S2P Require Block FilterBlock.
Import Block(Block, Block_make, NewIterator, Iter, Iter_Iterator, build_block, entry_cost, entries_cost, entries_cost_app, entries_cost_nonneg, entry_cost_le).
#[local] Existing Instance Iter_Iterator.
Import FilterBlock(FilterBlockReader, FilterBlockReader_make, FilterBlockReader_KeyMayMatch).

Record ReadOptions : Type := mkReadOptions { verify_checksums : bool; fill_cache : bool }.
Definition ReadOptions_make : ReadOptions := mkReadOptions false true.

(** The function registered to run when an iterator over a block is deleted. *)
Variant BlockCleanup : Type := DeleteBlock | ReleaseBlock.

Section Table.
Context {F : Type} `{!RandomAccessFile F} (snappy : option SnappyLib).

(** [in_buf]: reads put their bytes in the buffer they are given, as [pread] does
    and a file mapped in memory does not. *)
Context (in_buf : bool).

(** [Lookup] of the block cache, if there is one, and the id it gives the table. *)
Context (block_cache : option (bytes -> option Block)) (new_id : Z).

Record Table : Type := mkTable {
  options : Options;
  file : F;
  cache_id : Z;
  filter : option FilterBlockReader;
  metaindex_handle_ : BlockHandle;
  index_block : Block
}.

Definition paranoid_options (opt : Options) : ReadOptions :=
  if paranoid_checks opt then mkReadOptions true (fill_cache ReadOptions_make) else ReadOptions_make.

Definition set_filter (f : FilterBlockReader) (t : Table) : Table :=
  mkTable (options t) (file t) (cache_id t) (Some f) (metaindex_handle_ t) (index_block t).

Definition ReadFilter (filter_handle_value : bytes) (t : Table) : Table :=
  let '(s, _, filter_handle) := BlockHandle_DecodeFrom filter_handle_value BlockHandle_make in
  if negb (ok s) then t
  else
    let opt := paranoid_options (options t) in
    let '(s, block) := ReadBlock snappy in_buf (verify_checksums opt) filter_handle (file t) in
    if negb (ok s) then t else set_filter (FilterBlockReader_make (data block)) t.

Definition ReadMeta (footer : Footer) (t : Table) : Table :=
  match filter_policy (options t) with
  | None => t
  | Some policy =>
      let opt := paranoid_options (options t) in
      let '(s, contents) := ReadBlock snappy in_buf (verify_checksums opt) (metaindex_handle footer) (file t) in
      if negb (ok s) then t
      else
        let meta := Block_make (data contents) in
        let key_ := str "filter." ++ policy_Name policy in
        let iter := Seek key_ (NewIterator BytewiseComparator meta) in
        if Valid iter && slice_eq (key iter) key_ then ReadFilter (value iter) t else t
  end.

Definition Open (options : Options) (file : F) (size : Z) : Status * option Table :=
  if size <? Z.of_nat kEncodedLength then (Corruption (str "file is too short to be an sstable") [], None)
  else
    let '(s, footer_input) := ReadAt (size - Z.of_nat kEncodedLength) (Z.of_nat kEncodedLength) file in
    if negb (ok s) then (s, None)
    else
      let '(s, _, footer) := Footer_DecodeFrom footer_input Footer_make in
      if negb (ok s) then (s, None)
      else
        let opt := paranoid_options options in
        let '(s, contents) := ReadBlock snappy in_buf (verify_checksums opt) (index_handle footer) file in
        if negb (ok s) then (s, None)
        else
          let rep := mkTable options file (match block_cache with Some _ => new_id | None => 0 end) None
                       (metaindex_handle footer) (Block_make (data contents)) in
          (s, Some (ReadMeta footer rep)).

(** [cache_key_buffer]: the table's id and the offset of the block. *)
Definition cache_key (t : Table) (handle : BlockHandle) : bytes :=
  EncodeFixed64 (cache_id t) ++ EncodeFixed64 (offset_ handle).

(** The iterator, its clean-up, and what goes into the cache. *)
Definition BlockReader (t : Table) (opt : ReadOptions) (index_value : bytes) :
    (EmptyIterator + Iter) * option BlockCleanup * option (bytes * Block) :=
  let '(s, _, handle) := BlockHandle_DecodeFrom index_value BlockHandle_make in
  let '(s, block, cached, inserted) :=
    if negb (ok s) then (s, None, false, None)
    else
      match block_cache with
      | Some Lookup =>
          match Lookup (cache_key t handle) with
          | Some block => (s, Some block, true, None)
          | None =>
              let '(s, contents) := ReadBlock snappy in_buf (verify_checksums opt) handle (file t) in
              if ok s then
                let block := Block_make (data contents) in
                if cachable contents && fill_cache opt
                then (s, Some block, true, Some (cache_key t handle, block))
                else (s, Some block, false, None)
              else (s, None, false, None)
          end
      | None =>
          let '(s, contents) := ReadBlock snappy in_buf (verify_checksums opt) handle (file t) in
          if ok s then (s, Some (Block_make (data contents)), false, None) else (s, None, false, None)
      end in
  match block with
  | Some block =>
      (NewIterator (comparator (options t)) block, Some (if cached then ReleaseBlock else DeleteBlock), inserted)
  | None => (inl (NewErrorIterator s), None, inserted)
  end.

(** [BlockReader] as the function of a two-level iterator. *)
Definition block_iterator (t : Table) (opt : ReadOptions) (index_value : bytes) : EmptyIterator + Iter :=
  fst (fst (BlockReader t opt index_value)).

(** An entry of the index takes at least three bytes, so that its size bounds the
    blocks that the iterator can skip. *)
Definition block_fuel (t : Table) : nat := S (S (length (Block.blk_data (index_block t)))).

Definition TableIterator : Type := TwoLevelIterator (I := EmptyIterator + Iter) (D := EmptyIterator + Iter).

Definition Table_NewIterator (t : Table) : TableIterator :=
  NewTwoLevelIterator (NewIterator (comparator (options t)) (index_block t)).

Definition TableIterator_Iterator (t : Table) (opt : ReadOptions) : Iterator TableIterator :=
  TwoLevel_Iterator (block_iterator t opt) (block_fuel t).

(** The filter excludes the key from the block of the handle. *)
Definition filtered (t : Table) (handle_value k : bytes) : bool :=
  match filter t, filter_policy (options t) with
  | Some filter, Some policy =>
      let '(s, _, handle) := BlockHandle_DecodeFrom handle_value BlockHandle_make in
      ok s && negb (FilterBlockReader_KeyMayMatch policy filter (offset_ handle) k)
  | _, _ => false
  end.

Definition InternalGet {A} (opt : ReadOptions) (k : bytes) (arg : A) (saver : A -> bytes -> bytes -> A) (t : Table) : Status * A :=
  let iiter := Seek k (NewIterator (comparator (options t)) (index_block t)) in
  let '(s, arg) :=
    if Valid iiter then
      if filtered t (value iiter) k then (OK, arg)
      else
        let block_iter := Seek k (block_iterator t opt (value iiter)) in
        let arg := if Valid block_iter then saver arg (key block_iter) (value block_iter) else arg in
        (status block_iter, arg)
    else (OK, arg) in
  (if ok s then status iiter else s, arg).

Definition ApproximateOffsetOf (k : bytes) (t : Table) : Z :=
  let index_iter := Seek k (NewIterator (comparator (options t)) (index_block t)) in
  if Valid index_iter then
    let '(s, _, handle) := BlockHandle_DecodeFrom (value index_iter) BlockHandle_make in
    if ok s then offset_ handle else offset_ (metaindex_handle_ t)
  else offset_ (metaindex_handle_ t).
End Table.
Arguments Table : clear implicits.

(** ** The blocks of a table file *)

(** The laws of the compression library, when there is one. *)
Definition snappy_ok (snappy : option SnappyLib) : Prop := match snappy with Some l => SnappyLaws l | None => True end.

(** Every read inside the file succeeds. *)
Definition readable {F : Type} `{!RandomAccessFile F} (file : F) : Prop :=
  forall off n, 0 <= off -> 0 <= n -> off + n <= size_of (file_contents file) -> ok (fst (ReadAt off n file)) = true.

(** The memory that the blocks of the entries and their index can take. *)
Definition table_cost (entries : list (bytes * bytes)) : Z := entries_cost entries + 20 * size_of entries + 8.

Lemma disk_split snappy opt raw : snappy_ok snappy -> exists block type,
  disk snappy opt raw = block ++ block_trailer type block /\ stored_size snappy opt raw = size_of block /\
  block_holds snappy type block raw /\ size_of block <= size_of raw.
Proof.
  intros Hs. unfold disk, stored_size, choose_compression.
  assert (Hno : exists block type, raw ++ block_trailer kNoCompression raw = block ++ block_trailer type block /\
    size_of raw = size_of block /\ block_holds snappy type block raw /\ size_of block <= size_of raw).
  { exists raw, kNoCompression. repeat split. lia. }
  destruct (compression opt); [exact Hno|]. destruct snappy as [l|]; cbn [Snappy_Compress]; [|exact Hno].
  destruct (Z.ltb_spec (size_of (snappy_compress l raw)) (size_of raw - size_of raw / 8)) as [Hlt|]; [|exact Hno].
  exists (snappy_compress l raw), kSnappyCompression. split; [done|]. split; [done|]. cbn in Hs. split.
  - split; [exact (snappy_length_ok raw)|exact (snappy_uncompress_ok raw)].
  - pose proof (size_of_nonneg raw). cbn [fst]. dlia.
Qed.

Section Opened.
Context {F : Type} `{!RandomAccessFile F} `{!RandomAccessFileLaws F} (snappy : option SnappyLib) (in_buf : bool).
Context (block_cache : option (bytes -> option Block)) (new_id : Z) (opt : Options).
Context `{!ComparatorLaws (comparator opt)} `{!ShorteningLaws (comparator opt)} (Hinterval : 1 <= block_restart_interval opt) (Hsnappy : snappy_ok snappy).
Context (keys : list bytes) (blocks : list (list (bytes * bytes))).
Context (Hnonempty : Forall (fun es => es <> []) blocks) (Hlen : length keys = length blocks) (Hsep : separators opt keys blocks []).
Context (Hsorted : sorted_entries (comparator opt) (concat blocks)) (Hcost : table_cost (concat blocks) + 5 < 2 ^ 32).
Context (fl : F) (Hfile : file_contents fl = table_file snappy opt keys blocks) (Hsize : size_of (file_contents fl) < 2 ^ 32).
Context (Hread : readable fl).

(** Reading a block of the file. *)
Lemma ReadBlock_disk pre raw post verify : file_contents fl = pre ++ disk snappy opt raw ++ post -> size_of raw + 5 < 2 ^ 32 ->
  exists c, ReadBlock snappy in_buf verify (mkBlockHandle (size_of pre) (stored_size snappy opt raw)) fl = (OK, c) /\ data c = raw.
Proof.
  intros Hf Hraw. destruct (disk_split snappy opt raw Hsnappy) as (block & type & Ed & Es & Hh & Hle). rewrite Es.
  rewrite Ed, <- app_assoc in Hf. apply (ReadBlock_ok snappy fl in_buf verify pre block type raw post); [done|lia|done|].
  apply Hread; [apply size_of_nonneg|pose proof (size_of_nonneg block); lia|]. rewrite Hf, !size_of_app.
  unfold size_of at 5. rewrite length_block_trailer. pose proof (size_of_nonneg post). lia.
Qed.

(** ** Sizes *)

Lemma block_cost_le i es : blocks !! i = Some es -> entries_cost es + 20 * size_of es <= entries_cost (concat blocks) + 20 * size_of (concat blocks).
Proof.
  intros Hi. rewrite <- (take_drop_middle blocks i es Hi). rewrite concat_app. cbn [concat]. rewrite !entries_cost_app, !size_of_app.
  pose proof (entries_cost_nonneg (concat (take i blocks))). pose proof (entries_cost_nonneg (concat (drop (S i) blocks))).
  pose proof (size_of_nonneg (concat (take i blocks))). pose proof (size_of_nonneg (concat (drop (S i) blocks))). lia.
Qed.

Lemma raw_block_size i es : blocks !! i = Some es -> size_of (raw_block opt es) + 5 < 2 ^ 32.
Proof.
  intros Hi. pose proof (block_cost_le i es Hi). unfold raw_block.
  pose proof (Block.build_block_cost (block_restart_interval opt) es). pose proof (size_of_nonneg es). unfold table_cost in *. lia.
Qed.

Lemma entry_key_size e : e ∈ concat blocks -> size_of (fst e) < 2 ^ 32.
Proof.
  intros He. pose proof (entry_cost_le e _ He). unfold entry_cost, table_cost in *.
  pose proof (size_of_nonneg (snd e)). pose proof (size_of_nonneg (concat blocks)). lia.
Qed.

Lemma length_index_entries : length (index_entries snappy opt keys blocks) = length blocks.
Proof. unfold index_entries. rewrite length_zip_with, length_map, length_handles. lia. Qed.
(** ** The index *)

Definition index : list (bytes * bytes) := index_entries snappy opt keys blocks.

(** The handle of a data block. *)
Definition block_handle (i : nat) (es : list (bytes * bytes)) : BlockHandle :=
  mkBlockHandle (u64 (size_of (data_area snappy opt (take i blocks)))) (stored_size snappy opt (raw_block opt es)).

Lemma index_lookup i k h : index !! i = Some (k, h) <-> exists es, keys !! i = Some k /\ blocks !! i = Some es /\
  h = encode_handle (block_handle i es).
Proof.
  unfold index, index_entries. rewrite lookup_zip_with_Some. split.
  - intros (k' & h' & [= <- <-] & Hk & Hh). apply list_lookup_fmap_Some in Hh as (hd & -> & Hh).
    apply handles_lookup in Hh as (es & He & ->). by exists es.
  - intros (es & Hk & He & ->). eexists k, _. split; [done|]. split; [done|]. apply list_lookup_fmap_Some.
    eexists. split; [reflexivity|]. apply handles_lookup. by exists es.
Qed.

Lemma key_short i k es : keys !! i = Some k -> blocks !! i = Some es -> exists e, e ∈ es /\ size_of k <= size_of (fst e).
Proof.
  intros Hk He. destruct (sep_made _ _ _ _ Hsep i k es Hk He) as (e & [es' ->]%last_Some & Hm).
  exists e. split; [apply elem_of_app; right; left|].
  destruct (_ ≫= head); rewrite Hm; [apply separator_short|apply successor_short].
Qed.

Lemma index_cost : entries_cost index <= entries_cost (concat blocks) + 20 * size_of (concat blocks).
Proof.
  unfold index, index_entries. generalize 0 as o. pose proof key_short as Hshort. revert Hlen Hshort. clear.
  revert keys. induction blocks as [|es bs IH]; intros keys Hlen Hshort o; [by destruct keys|].
  destruct keys as [|k ks]; [done|]. cbn [handles map zip_with entries_cost concat].
  rewrite entries_cost_app, size_of_app. injection Hlen as Hlen. specialize (IH ks Hlen (fun i => Hshort (S i)) (o + size_of (disk snappy opt (raw_block opt es)))).
  destruct (Hshort O k es eq_refl eq_refl) as (e & He & Hk). pose proof (entry_cost_le e es He).
  unfold entry_cost in *. cbn [fst snd]. pose proof (length_encode_handle (mkBlockHandle (u64 o) (stored_size snappy opt (raw_block opt es)))).
  assert (1 <= size_of es) by (destruct es; [by apply not_elem_of_nil in He|unfold size_of; cbn [length]; lia]).
  pose proof (size_of_nonneg (snd e)). unfold kMaxEncodedLength in *. unfold size_of in *. lia.
Qed.

Lemma index_raw_size : size_of (index_raw snappy opt keys blocks) + 5 < 2 ^ 32.
Proof.
  pose proof index_cost. pose proof (Block.build_block_cost 1 index). unfold index_raw, table_cost in *. fold index. lia.
Qed.

Lemma in_block i es e : blocks !! i = Some es -> e ∈ es -> e ∈ concat blocks.
Proof. intros Hi He. apply list_elem_of_In, in_concat. exists es. split; apply list_elem_of_In; [by eapply list_elem_of_lookup_2|done]. Qed.

Lemma index_sorted : sorted_entries (comparator opt) index.
Proof.
  apply StronglySorted_of_lookup. intros i j [k h] [k' h'] Hi Hj Hlt.
  apply index_lookup in Hi as (es & Hk & He & _), Hj as (es' & Hk' & He' & _). cbn [fst].
  destruct es' as [|e es']; [rewrite Forall_lookup in Hnonempty; by destruct (Hnonempty j _ He')|].
  pose proof (sep_below _ _ _ _ Hsep _ _ _ _ Hk He' Hlt) as Hb. pose proof (sep_above _ _ _ _ Hsep _ _ _ Hk' He') as Ha.
  apply Forall_cons in Hb as [Hb _]. apply Forall_cons in Ha as [Ha _]. by eapply compare_lt_le_trans.
Qed.

Lemma index_keys : Forall (fun e => size_of (fst e) < 2 ^ 32) index.
Proof.
  rewrite Forall_lookup. intros i [k h] Hi. apply index_lookup in Hi as (es & Hk & He & _).
  destruct (key_short _ _ _ Hk He) as (e & Hin & Hle). pose proof (entry_key_size e (in_block _ _ _ He Hin)). cbn [fst]. lia.
Qed.

(** A block that was built is a cursor. *)
Lemma cursor_of_built (c : Comparator) `{!ComparatorLaws c} interval es : 1 <= interval -> sorted_entries c es ->
  Forall (fun e => size_of (fst e) < 2 ^ 32) es -> size_of (build_block interval es) < 2 ^ 32 ->
  cursor c es (NewIterator c (Block_make (build_block interval es))) None.
Proof.
  intros Hi Hs Hk Hsz. destruct (Block.built_block_opens c interval es Hi Hs Hk Hsz) as (it & rep & -> & Hl & Hr).
  eexists. split; [by apply inr_laws|]. exact Hr.
Qed.

Lemma index_cursor : cursor (comparator opt) index (NewIterator (comparator opt) (Block_make (index_raw snappy opt keys blocks))) None.
Proof.
  pose proof index_raw_size. unfold index_raw in *. fold index in *. apply cursor_of_built; [done|lia|apply index_sorted|apply index_keys|lia].
Qed.

Lemma block_sorted i es : blocks !! i = Some es -> sorted_entries (comparator opt) es.
Proof.
  intros Hi. pose proof Hsorted as Hs. rewrite <- (take_drop_middle blocks i es Hi) in Hs. rewrite concat_app in Hs.
  apply sorting.StronglySorted_app_1_r in Hs. by apply sorting.StronglySorted_app_1_l in Hs.
Qed.

Lemma block_cursor i es : blocks !! i = Some es ->
  cursor (comparator opt) es (NewIterator (comparator opt) (Block_make (raw_block opt es))) None.
Proof.
  intros Hi. pose proof (raw_block_size i es Hi). apply cursor_of_built; [done|done|by apply (block_sorted i)| |unfold raw_block in *; lia].
  rewrite Forall_forall. intros e He. apply entry_key_size. by apply (in_block i es).
Qed.

(** ** Opening *)

Context (Hname : forall policy, filter_policy opt = Some policy -> size_of (policy_Name policy) + 100 < 2 ^ 32).

(** Offsets in the file are not reduced. *)
Lemma u64_prefix pre post : file_contents fl = pre ++ post -> u64 (size_of pre) = size_of pre.
Proof.
  intros Hf. apply u64_small. rewrite Hf, size_of_app in Hsize. pose proof (size_of_nonneg pre). pose proof (size_of_nonneg post). lia.
Qed.

Definition the_filter : option FilterBlockReader :=
  (fun policy => FilterBlockReader_make (filter_contents snappy opt policy blocks)) <$> filter_policy opt.

(** The table that [Open] makes of the file. *)
Definition opened : Table F :=
  mkTable opt fl (match block_cache with Some _ => new_id | None => 0 end) the_filter
    (metaindex_handle (table_footer snappy opt keys blocks)) (Block_make (index_raw snappy opt keys blocks)).

Lemma stored_size_range raw : size_of raw < 2 ^ 32 -> 0 <= stored_size snappy opt raw < 2 ^ 64.
Proof.
  intros. destruct (disk_split snappy opt raw Hsnappy) as (block & type & _ & -> & _ & Hle).
  pose proof (size_of_nonneg block). lia.
Qed.

Lemma meta_cost : size_of (meta_raw snappy opt blocks) + 5 < 2 ^ 32.
Proof.
  unfold meta_raw, raw_block. pose proof (Block.build_block_cost (block_restart_interval opt) (meta_entries snappy opt blocks)) as Hb.
  unfold meta_entries, filter_key in *. destruct (filter_policy opt) as [policy|] eqn:Ep; cbn [entries_cost] in Hb; [|lia].
  unfold entry_cost in Hb. cbn [fst snd] in Hb. rewrite size_of_app in Hb. change (size_of (str "filter.")) with 7 in Hb.
  pose proof (Hname policy eq_refl). pose proof (length_encode_handle (filter_handle snappy opt policy blocks)) as Hl.
  assert (size_of (encode_handle (filter_handle snappy opt policy blocks)) <= 20) by (unfold kMaxEncodedLength, size_of in *; lia).
  lia.
Qed.

Lemma filter_split policy : filter_policy opt = Some policy ->
  file_contents fl = data_area snappy opt blocks ++ filter_contents snappy opt policy blocks ++
    block_trailer kNoCompression (filter_contents snappy opt policy blocks) ++ disk snappy opt (meta_raw snappy opt blocks) ++
    disk snappy opt (index_raw snappy opt keys blocks) ++ Footer_EncodeTo [] (table_footer snappy opt keys blocks).
Proof. intros Hp. rewrite Hfile. unfold table_file, before_meta, filter_part. rewrite Hp. by rewrite <- !app_assoc. Qed.

Lemma filter_size policy : filter_policy opt = Some policy -> size_of (filter_contents snappy opt policy blocks) + 5 < 2 ^ 32.
Proof.
  intros Hp. pose proof (filter_split policy Hp) as Hf. apply (f_equal size_of) in Hf. rewrite !size_of_app in Hf.
  pose proof (length_Footer (table_footer snappy opt keys blocks)) as Hl. unfold kEncodedLength, kMaxEncodedLength in Hl.
  unfold size_of in *. lia.
Qed.

Lemma ReadFilter_ok policy t : filter_policy opt = Some policy -> file t = fl ->
  ReadFilter snappy in_buf (encode_handle (filter_handle snappy opt policy blocks)) t =
  set_filter (FilterBlockReader_make (filter_contents snappy opt policy blocks)) t.
Proof.
  intros Hp Ht. pose proof (filter_split policy Hp) as Hf. pose proof (filter_size policy Hp) as Hsz. unfold ReadFilter.
  rewrite <- (app_nil_r (encode_handle _)), BlockHandle_Decode.
  2:{ unfold handle_ok, filter_handle. cbn [size_ offset_]. split; [apply u64_range|]. pose proof (size_of_nonneg (filter_contents snappy opt policy blocks)). lia. }
  cbn [ok OK negb code]. unfold filter_handle. rewrite (u64_prefix _ _ Hf), Ht.
  destruct (ReadBlock_ok snappy fl in_buf (verify_checksums (paranoid_options (options t))) (data_area snappy opt blocks)
    (filter_contents snappy opt policy blocks) kNoCompression _ _ Hf Hsz eq_refl) as (c & E & Ec).
  { apply Hread; [apply size_of_nonneg|pose proof (size_of_nonneg (filter_contents snappy opt policy blocks)); lia|].
    rewrite Hf. unfold size_of. rewrite !length_app, length_block_trailer. lia. }
  rewrite E. change (ok OK) with true. cbn [negb]. by rewrite Ec.
Qed.

Lemma slice_eq_refl a : slice_eq a a = true.
Proof. by apply slice_eq_spec. Qed.

(** The metaindex block has the filter's entry, at which [Seek] arrives. *)
Lemma meta_cursor policy : filter_policy opt = Some policy ->
  let iter := Seek (filter_key policy) (NewIterator BytewiseComparator (Block_make (meta_raw snappy opt blocks))) in
  Valid iter = true /\ key iter = filter_key policy /\ value iter = encode_handle (filter_handle snappy opt policy blocks).
Proof.
  intros Hp iter. pose proof meta_cost as Hc. pose proof (Hname policy Hp) as Hn.
  assert (Hk : size_of (filter_key policy) < 2 ^ 32) by (unfold filter_key; rewrite size_of_app; change (size_of (str "filter.")) with 7; lia).
  assert (Hm : cursor BytewiseComparator (meta_entries snappy opt blocks)
    (NewIterator BytewiseComparator (Block_make (meta_raw snappy opt blocks))) None).
  { apply cursor_of_built; [exact _|done| | |unfold meta_raw, raw_block in *; lia]; unfold meta_entries; rewrite Hp; by repeat constructor. }
  pose proof (rep_seek _ _ (filter_key policy) Hk Hm) as Hs. fold iter in Hs.
  assert (Ep : seek_position BytewiseComparator (meta_entries snappy opt blocks) (filter_key policy) = Some O).
  { apply (seek_position_Some BytewiseComparator). eexists. unfold meta_entries. rewrite Hp. split; [done|].
    split; [cbn [fst]; by rewrite compare_refl|]. intros j e _ Hj. lia. }
  rewrite Ep in Hs. split; [by rewrite (rep_valid _ _ Hs)|].
  pose proof (rep_entry _ _ Hs) as He. unfold meta_entries in He. rewrite Hp in He. injection He as Ek Ev. by split.
Qed.

Lemma ReadMeta_ok t : options t = opt -> file t = fl -> filter t = None ->
  ReadMeta snappy in_buf (table_footer snappy opt keys blocks) t = mkTable (options t) (file t) (cache_id t) the_filter (metaindex_handle_ t) (index_block t).
Proof.
  intros Ho Ht Hf. unfold ReadMeta, the_filter. rewrite Ho. case_eq (filter_policy opt); [intros policy Ep|intros Ep].
  2:{ rewrite Ht, <- Hf, <- Ht, <- Ho at 1. by destruct t. }
  unfold table_footer at 1. cbn [metaindex_handle].
  assert (Es : file_contents fl = before_meta snappy opt blocks ++ disk snappy opt (meta_raw snappy opt blocks) ++
    disk snappy opt (index_raw snappy opt keys blocks) ++ Footer_EncodeTo [] (table_footer snappy opt keys blocks)) by done.
  rewrite (u64_prefix _ _ Es), Ht.
  destruct (ReadBlock_disk _ _ _ (verify_checksums (paranoid_options opt)) Es meta_cost) as (c & E & Ec). rewrite E, Ec.
  change (ok OK) with true. cbn [negb]. destruct (meta_cursor policy Ep) as (Hv & Hk & Hval).
  change (str "filter." ++ policy_Name policy) with (filter_key policy). rewrite Hv, Hk, Hval, slice_eq_refl. cbn [andb].
  rewrite (ReadFilter_ok policy t Ep Ht). unfold set_filter. by rewrite Ho, Ht.
Qed.

Lemma Open_ok : Open snappy in_buf block_cache new_id opt fl (size_of (file_contents fl)) = (OK, Some opened).
Proof.
  set (ft := table_footer snappy opt keys blocks).
  assert (Ef : file_contents fl = (before_meta snappy opt blocks ++ disk snappy opt (meta_raw snappy opt blocks) ++
    disk snappy opt (index_raw snappy opt keys blocks)) ++ Footer_EncodeTo [] ft).
  { rewrite Hfile. unfold table_file. by rewrite <- !app_assoc. }
  assert (Ei : file_contents fl = (before_meta snappy opt blocks ++ disk snappy opt (meta_raw snappy opt blocks)) ++
    disk snappy opt (index_raw snappy opt keys blocks) ++ Footer_EncodeTo [] ft).
  { rewrite Hfile. unfold table_file. by rewrite <- !app_assoc. }
  pose proof (length_Footer ft) as Hlf.
  set (pre := before_meta _ _ _ ++ _ ++ _) in Ef. unfold Open.
  assert (Hs : size_of (file_contents fl) = size_of pre + Z.of_nat kEncodedLength).
  { rewrite Ef, size_of_app. f_equal. unfold size_of. by rewrite Hlf. }
  destruct (Z.ltb_spec (size_of (file_contents fl)) (Z.of_nat kEncodedLength)) as [|_]; [pose proof (size_of_nonneg pre); lia|].
  replace (size_of (file_contents fl) - Z.of_nat kEncodedLength) with (size_of pre) by lia.
  assert (Hok : ok (fst (ReadAt (size_of pre) (Z.of_nat kEncodedLength) fl)) = true).
  { apply Hread; [apply size_of_nonneg|lia|lia]. }
  destruct (ReadAt _ _ fl) as [s d] eqn:Er. cbn [fst] in Hok. rewrite Hok. cbn [negb].
  assert (Hd : d = Footer_EncodeTo [] ft).
  { rewrite (ReadAt_ok _ _ _ _ _ Er Hok (size_of_nonneg pre) ltac:(lia)), Ef.
    rewrite drop_app_exact by (unfold size_of; by rewrite Nat2Z.id). rewrite take_ge by (rewrite Hlf; lia). done. }
  rewrite Hd, <- (app_nil_r (Footer_EncodeTo [] ft)), Footer_Decode.
  2,3: split; cbn [ft table_footer metaindex_handle index_handle offset_ size_]; [apply u64_range|apply stored_size_range].
  2:{ pose proof meta_cost. lia. } 2:{ pose proof index_raw_size. lia. }
  change (ok OK) with true. cbn [negb]. unfold ft at 1. unfold table_footer at 1. cbn [index_handle].
  rewrite (u64_prefix _ _ Ei).
  destruct (ReadBlock_disk _ _ _ (verify_checksums (paranoid_options opt)) Ei index_raw_size) as (c & E & Ec). rewrite E, Ec.
  change (ok OK) with true. cbn [negb]. by rewrite ReadMeta_ok.
Qed.

(** ** Reading the data blocks *)

(** A cached block is what a verified read of its handle gives. *)
Definition cache_coherent (t : Table F) : Prop :=
  forall Lookup handle block c, block_cache = Some Lookup -> Lookup (cache_key t handle) = Some block ->
    ReadBlock snappy in_buf true handle (file t) = (OK, c) -> block = Block_make (data c).

(** The same for the blocks of the table. *)
Definition blocks_cached : Prop :=
  forall Lookup i es block, block_cache = Some Lookup -> blocks !! i = Some es -> Lookup (cache_key opened (block_handle i es)) = Some block ->
    block = Block_make (raw_block opt es).


Lemma block_split i es : blocks !! i = Some es -> exists post,
  file_contents fl = data_area snappy opt (take i blocks) ++ disk snappy opt (raw_block opt es) ++ post.
Proof.
  intros Hi. eexists. rewrite Hfile. unfold table_file, before_meta. rewrite <- (take_drop_middle blocks i es Hi) at 1.
  rewrite data_area_app. change (es :: drop (S i) blocks) with ([es] ++ drop (S i) blocks).
  rewrite data_area_app, data_area_1, <- !app_assoc. reflexivity.
Qed.

Lemma block_handle_ok i es : blocks !! i = Some es -> handle_ok (block_handle i es).
Proof.
  intros Hi. split; [apply u64_range|]. apply stored_size_range. pose proof (raw_block_size i es Hi). lia.
Qed.

Lemma block_handle_decode i es rest : blocks !! i = Some es ->
  BlockHandle_DecodeFrom (encode_handle (block_handle i es) ++ rest) BlockHandle_make = (OK, rest, block_handle i es).
Proof. intros Hi. apply BlockHandle_Decode. by apply (block_handle_ok i es). Qed.

Lemma ReadBlock_data i es verify : blocks !! i = Some es -> exists c, ReadBlock snappy in_buf verify (block_handle i es) fl = (OK, c) /\ data c = raw_block opt es.
Proof.
  intros Hi. destruct (block_split i es Hi) as [post Hf]. unfold block_handle. rewrite (u64_prefix _ _ Hf). eapply ReadBlock_disk; [exact Hf|by apply (raw_block_size i)].
Qed.

Lemma coherent_blocks : cache_coherent opened -> blocks_cached.
Proof.
  intros Hc Lookup i es block Hl Hi E. destruct (ReadBlock_data i es true Hi) as (c & Ec & Ed). by rewrite (Hc _ _ _ _ Hl E Ec), Ed.
Qed.

Context (Hcache : blocks_cached) (ro : ReadOptions).

Lemma block_iterator_ok i es : blocks !! i = Some es ->
  block_iterator snappy in_buf block_cache opened ro (encode_handle (block_handle i es)) =
  NewIterator (comparator opt) (Block_make (raw_block opt es)).
Proof.
  intros Hi. unfold block_iterator, BlockReader. rewrite <- (app_nil_r (encode_handle _)), block_handle_decode by done.
  change (ok OK) with true. cbn [negb]. pose proof Hcache as Hcc. unfold blocks_cached in Hcc. change (file opened) with fl in *.
  destruct (ReadBlock_data i es (verify_checksums ro) Hi) as (c & Ec & Ed).
  destruct block_cache as [Lookup|].
  - destruct (Lookup (cache_key opened (block_handle i es))) as [b|] eqn:El.
    + cbn [fst]. by rewrite (Hcc _ _ _ _ eq_refl Hi El).
    + rewrite Ec. change (ok OK) with true. cbn [fst]. by destruct (cachable c && fill_cache ro); cbn [fst]; rewrite Ed.
  - rewrite Ec. change (ok OK) with true. cbn [fst]. by rewrite Ed.
Qed.

(** The entries of the block of a handle. *)
Fixpoint assoc (h : bytes) (l : list (bytes * list (bytes * bytes))) : list (bytes * bytes) :=
  match l with
  | [] => []
  | (h', es) :: l => if decide (h = h') then es else assoc h l
  end.
Definition contents_of (h : bytes) : list (bytes * bytes) := assoc h (zip (map encode_handle (handles snappy opt 0 blocks)) blocks).

Lemma assoc_lookup l i h es : NoDup (map fst l) -> l !! i = Some (h, es) -> assoc h l = es.
Proof.
  revert i. induction l as [|[h' es'] l IH]; intros i; [done|]. cbn [map fst assoc]. intros [Hn Hd]%NoDup_cons Hi. destruct i as [|i].
  - injection Hi as -> ->. by rewrite decide_True.
  - rewrite decide_False; [by apply (IH i)|]. intros ->. apply Hn. apply list_elem_of_fmap. exists (h', es). split; [done|].
    by eapply list_elem_of_lookup_2.
Qed.

Lemma encode_handle_inj h h' : handle_ok h -> handle_ok h' -> encode_handle h = encode_handle h' -> h = h'.
Proof.
  intros H H' E. pose proof (BlockHandle_Decode h BlockHandle_make [] H) as E1. rewrite E, BlockHandle_Decode in E1 by done.
  by injection E1.
Qed.

Lemma block_offset_lt i j es es' : blocks !! i = Some es -> blocks !! j = Some es' -> (i < j)%nat ->
  offset_ (block_handle i es) < offset_ (block_handle j es').
Proof.
  intros Hi Hj Hlt. unfold block_handle. cbn [offset_]. destruct (block_split i es Hi) as [p1 H1]. destruct (block_split j es' Hj) as [p2 H2].
  rewrite (u64_prefix _ _ H1), (u64_prefix _ _ H2).
  rewrite <- (take_drop (S i) (take j blocks)), data_area_app, size_of_app, take_take, Nat.min_l by lia.
  rewrite (take_S_r _ _ es) by done. rewrite data_area_app, size_of_app, data_area_1, disk_size. unfold kBlockTrailerSize.
  pose proof (raw_block_size i es Hi). pose proof (stored_size_range (raw_block opt es) ltac:(lia)).
  pose proof (size_of_nonneg (data_area snappy opt (drop (S i) (take j blocks)))). lia.
Qed.

Lemma block_offset_inj i j es es' : blocks !! i = Some es -> blocks !! j = Some es' ->
  offset_ (block_handle i es) = offset_ (block_handle j es') -> i = j.
Proof.
  intros Hi Hj E. destruct (Nat.lt_trichotomy i j) as [Hl|[->|Hl]]; [|done|].
  - pose proof (block_offset_lt i j es es' Hi Hj Hl). lia.
  - pose proof (block_offset_lt j i es' es Hj Hi Hl). lia.
Qed.

Lemma block_handle_distinct i j es es' : blocks !! i = Some es -> blocks !! j = Some es' ->
  encode_handle (block_handle i es) = encode_handle (block_handle j es') -> i = j.
Proof.
  intros Hi Hj E. apply encode_handle_inj in E; [|by apply block_handle_ok..]. apply (block_offset_inj i j es es' Hi Hj). by rewrite E.
Qed.

Lemma contents_of_block i es : blocks !! i = Some es -> contents_of (encode_handle (block_handle i es)) = es.
Proof.
  intros Hi. unfold contents_of. apply (assoc_lookup _ i).
  - rewrite fst_zip by (rewrite length_map, length_handles; lia). apply NoDup_alt. intros a b h Ha Hb.
    apply list_lookup_fmap_Some in Ha as (ha & -> & Ha), Hb as (hb & E & Hb).
    apply handles_lookup in Ha as (ea & Hea & ->), Hb as (eb & Heb & ->). by apply (block_handle_distinct a b ea eb).
  - apply lookup_zip_with_Some. exists (encode_handle (block_handle i es)), es. split; [done|]. split; [|done].
    apply list_lookup_fmap_Some. eexists. split; [reflexivity|]. apply handles_lookup. by exists es.
Qed.

Lemma index_contents : map (fun e => contents_of (snd e)) index = blocks.
Proof.
  apply list_eq. intros i. destruct (blocks !! i) as [es|] eqn:Hi.
  - destruct (lookup_lt_is_Some_2 keys i) as [k Hk]; [rewrite Hlen; by eapply lookup_lt_Some|].
    apply list_lookup_fmap_Some. exists (k, encode_handle (block_handle i es)). split; [cbn [snd]; symmetry; by apply contents_of_block|].
    apply index_lookup. by exists es.
  - apply lookup_ge_None. rewrite length_map. unfold index. rewrite length_index_entries. by apply lookup_ge_None.
Qed.

(** ** The iterator *)

Lemma entries_above i k h e : index !! i = Some (k, h) -> e ∈ contents_of h -> Compare (comparator opt) (fst e) k <> Gt.
Proof.
  intros (es & Hk & He & ->)%index_lookup. rewrite (contents_of_block i es He). intros Hin.
  pose proof (sep_above _ _ _ _ Hsep _ _ _ Hk He) as Ha. unfold above in Ha. rewrite Forall_forall in Ha. by apply Ha.
Qed.

Lemma entries_below i j k h k' h' e : index !! i = Some (k, h) -> index !! j = Some (k', h') -> (i < j)%nat -> e ∈ contents_of h' ->
  Compare (comparator opt) k (fst e) = Lt.
Proof.
  intros (es & Hk & He & _)%index_lookup (es' & Hk' & He' & ->)%index_lookup Hlt. rewrite (contents_of_block j es' He'). intros Hin.
  pose proof (sep_below _ _ _ _ Hsep _ _ _ _ Hk He' Hlt) as Hb. unfold below in Hb. rewrite Forall_forall in Hb. by apply Hb.
Qed.

Lemma data_cursor h : h ∈ map snd index ->
  cursor (comparator opt) (contents_of h) (block_iterator snappy in_buf block_cache opened ro h) None.
Proof.
  intros ([k h'] & -> & Hin)%list_elem_of_fmap. apply list_elem_of_lookup in Hin as [i Hi].
  apply index_lookup in Hi as (es & Hk & He & ->). cbn [snd]. rewrite (contents_of_block i es He), (block_iterator_ok i es He).
  by apply (block_cursor i).
Qed.

Lemma block_fuel_enough : (length index + 1 < block_fuel opened)%nat.
Proof.
  unfold block_fuel. pose proof index_raw_size as Hsz. cbn [opened index_block].
  assert (E : Block.blk_data (Block_make (index_raw snappy opt keys blocks)) = index_raw snappy opt keys blocks).
  { unfold Block_make. destruct (_ <? 4); [done|]. by destruct (_ >? _). }
  rewrite E. unfold index_raw in *. fold index in *.
  pose proof (Block.length_build_block 1 index ltac:(lia) ltac:(lia)). lia.
Qed.

Lemma NewIterator_cursor :
  cursor (Iterator0 := TableIterator_Iterator snappy in_buf block_cache opened ro) (comparator opt) (concat blocks)
    (Table_NewIterator opened) None.
Proof.
  exists (two_rep index (cursor (comparator opt) index) contents_of (fun h => cursor (comparator opt) (contents_of h))). split.
  - rewrite <- index_contents. apply TwoLevel_laws; try exact _.
    + exact data_cursor.
    + exact block_fuel_enough.
    + exact entries_above.
    + exact entries_below.
  - apply NewTwoLevel_rep. exact index_cursor.
Qed.

(** ** Lookups *)

Context (max_keys : Z) (Hpolicy : forall policy, filter_policy opt = Some policy -> FilterPolicyLaws policy max_keys).
Context (Hmax : size_of (concat blocks) <= max_keys).

Lemma keys_cost es : size_of (concat (map fst es)) <= entries_cost es.
Proof.
  induction es as [|e es IH]; [done|]. cbn [map concat entries_cost]. rewrite size_of_app. unfold entry_cost.
  pose proof (size_of_nonneg (snd e)). lia.
Qed.

Lemma filter_offset i : (i <= length blocks)%nat ->
  u64 (size_of (data_area snappy opt (take i (blocks ++ [[]])))) = size_of (data_area snappy opt (take i blocks)).
Proof.
  intros Hi. rewrite take_app_le by done. eapply u64_prefix. rewrite Hfile. unfold table_file, before_meta.
  rewrite <- (take_drop i blocks) at 1. by rewrite data_area_app, <- !app_assoc.
Qed.

(** The filter never excludes a key of the block. *)
Lemma filter_may_match policy i es e : filter_policy opt = Some policy -> blocks !! i = Some es -> e ∈ es ->
  FilterBlockReader_KeyMayMatch policy (FilterBlockReader_make (filter_contents snappy opt policy blocks))
    (offset_ (block_handle i es)) (fst e) = true.
Proof.
  intros Hp Hi He. pose proof (filter_size policy Hp) as Hsz. pose proof (lookup_lt_Some _ _ _ Hi) as Hlt.
  assert (Hoff : forall j off ks, filter_blocks snappy opt 0 (blocks ++ [[]]) !! j = Some (off, ks) ->
    off = size_of (data_area snappy opt (take j blocks))).
  { intros j off ks (es' & Hj & -> & _)%filter_blocks_lookup. rewrite Z.add_0_l. apply filter_offset.
    apply lookup_lt_Some in Hj. rewrite length_app in Hj. cbn in Hj. lia. }
  pose proof (Hpolicy policy Hp) as Hl.
  apply (FilterBlock.no_false_negative policy max_keys (filter_blocks snappy opt 0 (blocks ++ [[]])) _ (map fst es)).
  - exact Hl.
  - apply StronglySorted_of_lookup. intros a b [o1 k1] [o2 k2] Ha Hb Hab. cbn [fst]. rewrite (Hoff _ _ _ Ha), (Hoff _ _ _ Hb).
    rewrite <- (take_drop a (take b blocks)), take_take, Nat.min_l, data_area_app, size_of_app by lia.
    pose proof (size_of_nonneg (data_area snappy opt (drop a (take b blocks)))). lia.
  - rewrite Forall_lookup. intros j [o k] Hj. rewrite (Hoff _ _ _ Hj). apply size_of_nonneg.
  - rewrite filter_block_keys, concat_app. cbn. rewrite app_nil_r. unfold size_of. rewrite length_map. exact Hmax.
  - rewrite filter_block_keys, concat_app. cbn. rewrite app_nil_r. pose proof (keys_cost (concat blocks)). unfold table_cost in *.
    pose proof (size_of_nonneg (concat blocks)). lia.
  - unfold filter_contents in *. lia.
  - apply (list_elem_of_lookup_2 _ i). apply filter_blocks_lookup. exists es. split; [by apply lookup_app_l_Some|]. split; [|done].
    unfold block_handle. cbn [offset_]. by rewrite take_app_le by lia.
  - apply list_elem_of_fmap. by exists e.
Qed.

(** The search of the index, and of the block it finds. *)
Lemma seek_block k i key h : index !! i = Some (key, h) -> seek_position (comparator opt) index k = Some i ->
  match seek_position (comparator opt) (contents_of h) k with
  | Some j => exists n e, contents_of h !! j = Some e /\ seek_position (comparator opt) (concat blocks) k = Some n /\ concat blocks !! n = Some e
  | None => forall n, seek_position (comparator opt) (concat blocks) k = Some n -> exists es' e, blocks !! S i = Some (e :: es') /\
      concat blocks !! n = Some e
  end.
Proof.
  intros Hi Hs. pose proof (seek_two (block_fuel opened) (comparator opt) index contents_of block_fuel_enough entries_above entries_below k i key h Hi Hs) as E.
  unfold all_entries in E. rewrite index_contents in E.
  destruct (seek_position (comparator opt) (contents_of h) k) as [j|] eqn:Ej.
  - apply (seek_position_Some (comparator opt)) in Ej as (e & He & _). exists (off index contents_of i + j)%nat, e. split; [done|]. split; [done|].
    rewrite <- index_contents. change (concat _) with (all_entries index contents_of).
    rewrite (entry_at (block_fuel opened) index contents_of block_fuel_enough i key h j Hi); [done|]. by eapply lookup_lt_Some.
  - intros n Hn. rewrite Hn in E. unfold first_from in E. destruct (Nat.ltb_spec (off index contents_of (S i)) (total index contents_of)) as [Hlt|]; [|done].
    injection E as <-.
    assert (Hlb : (S i < length blocks)%nat).
    { destruct (decide (S i < length blocks)%nat); [done|]. rewrite (off_end (block_fuel opened) index contents_of block_fuel_enough) in Hlt; [lia|]. unfold index. rewrite length_index_entries. lia. }
    destruct (lookup_lt_is_Some_2 blocks (S i) Hlb) as [es' He'].
    destruct (lookup_lt_is_Some_2 keys (S i)) as [key' Hk']; [lia|].
    pose proof Hnonempty as Hne. rewrite Forall_lookup in Hne. specialize (Hne _ _ He'). destruct es' as [|e es']; [done|]. exists es', e. split; [done|].
    assert (Hi' : index !! S i = Some (key', encode_handle (block_handle (S i) (e :: es')))) by (apply index_lookup; by exists (e :: es')).
    pose proof (entry_at (block_fuel opened) index contents_of block_fuel_enough (S i) _ _ 0 Hi') as Ea. rewrite (contents_of_block _ _ He') in Ea.
    rewrite Nat.add_0_r in Ea. unfold all_entries in Ea. rewrite index_contents in Ea. apply Ea. cbn. lia.
Qed.

Lemma KeyMayMatch_mono policy r off k k' : (forall f, KeyMayMatch policy k' f = true -> KeyMayMatch policy k f = true) ->
  FilterBlockReader_KeyMayMatch policy r off k' = true -> FilterBlockReader_KeyMayMatch policy r off k = true.
Proof.
  intros H. unfold FilterBlockReader_KeyMayMatch. destruct (_ <? _); [|done].
  destruct (_ && _); [apply H|done].
Qed.

Lemma filtered_false k i key es e : index !! i = Some (key, encode_handle (block_handle i es)) -> blocks !! i = Some es -> e ∈ es ->
  (forall policy, filter_policy opt = Some policy -> forall f, KeyMayMatch policy (fst e) f = true -> KeyMayMatch policy k f = true) ->
  filtered opened (encode_handle (block_handle i es)) k = false.
Proof.
  intros Hi He Hin Hk. unfold filtered. cbn [filter options opened the_filter]. unfold the_filter.
  case_eq (filter_policy opt); [intros policy Hp|done]. cbn [fmap option_fmap option_map].
  rewrite <- (app_nil_r (encode_handle _)), block_handle_decode by done. change (ok OK) with true. cbn [andb].
  rewrite (KeyMayMatch_mono policy _ _ k (fst e)); [done|by apply Hk|]. by apply (filter_may_match policy i es e).
Qed.

(** The iterator over the index after a search. *)
Lemma index_seek k : size_of k < 2 ^ 32 ->
  let iiter := Seek k (NewIterator (comparator (options opened)) (index_block opened)) in
  cursor (comparator opt) index iiter (seek_position (comparator opt) index k).
Proof. intros Hk iiter. by apply (rep_seek _ _ k Hk index_cursor). Qed.

(** No separator of a key before [k] and of the limit is at or after [k]. *)
Definition unseparated (k limit : bytes) : Prop :=
  forall a, Compare (comparator opt) a k = Lt -> Compare (comparator opt) (FindShortestSeparator (comparator opt) a limit) k = Lt.

Lemma InternalGet_ok {A} k (arg : A) saver : size_of k < 2 ^ 32 -> exists s arg',
  InternalGet snappy in_buf block_cache ro k arg saver opened = (s, arg') /\ ok s = true /\
  (arg' = arg \/ exists n k' v', seek_position (comparator opt) (concat blocks) k = Some n /\ concat blocks !! n = Some (k', v') /\
     arg' = saver arg k' v') /\
  (forall n k' v', seek_position (comparator opt) (concat blocks) k = Some n -> concat blocks !! n = Some (k', v') ->
     unseparated k k' ->
     (forall policy, filter_policy opt = Some policy -> forall f, KeyMayMatch policy k' f = true -> KeyMayMatch policy k f = true) ->
     arg' = saver arg k' v').
Proof.
  intros Hk. unfold InternalGet. pose proof (index_seek k Hk) as Hc. set (iiter := Seek k _) in *. cbn [options opened comparator] in iiter, Hc.
  rewrite (rep_valid _ _ Hc). pose proof (rep_status _ _ Hc) as Hst.
  destruct (seek_position (comparator opt) index k) as [i|] eqn:Ei.
  2:{ rewrite bool_decide_eq_false_2 by (by intros [? ?]). exists (status iiter), arg. split; [done|]. split; [done|].
      split; [by left|]. intros n k' v' Hn.
      pose proof (seek_two_None (block_fuel opened) (comparator opt) index contents_of block_fuel_enough entries_above k Ei) as E.
      unfold all_entries in E. rewrite index_contents in E. congruence. }
  rewrite bool_decide_eq_true_2 by eauto. pose proof (rep_entry _ _ Hc) as Hi.
  set (key0 := key iiter) in Hi. set (h := value iiter) in Hi |- *. pose proof (seek_block k i key0 h Hi Ei) as Hsb.
  pose proof Hi as (es & Hkey & He & Eh)%index_lookup. rewrite Eh in *. rewrite (contents_of_block i es He) in Hsb.
  assert (Hmade : forall n k' v', seek_position (comparator opt) (concat blocks) k = Some n -> concat blocks !! n = Some (k', v') ->
    unseparated k k' -> seek_position (comparator opt) es k <> None).
  { intros n k' v' Hn Hl Hu Ej. rewrite Ej in Hsb. destruct (Hsb n Hn) as (es' & e & He' & Hl'). rewrite Hl in Hl'. injection Hl' as <-.
    destruct (sep_made _ _ _ _ Hsep i key0 es Hkey He) as (el & Hlast & Hm).
    assert (Hlt : Compare (comparator opt) (fst el) k = Lt).
    { apply (proj1 (seek_position_None (comparator opt) _ _) Ej (pred (length es)) el). by rewrite <- last_lookup. }
    apply (seek_position_Some (comparator opt)) in Ei as ([k0 h0] & Hi0 & Hge & _). rewrite Hi in Hi0. injection Hi0 as <- _. cbn [fst] in Hge.
    rewrite lookup_app_l in Hm by (by eapply lookup_lt_Some). rewrite He' in Hm. cbn [mbind option_bind head] in Hm. subst key0.
    rewrite Hm in Hge. by apply Hge, Hu. }
  destruct (filtered opened (encode_handle (block_handle i es)) k) eqn:Ef.
  { exists (status iiter), arg. split; [done|]. split; [done|]. split; [by left|]. intros n k' v' Hn Hl Hu Hp.
    pose proof (Hmade n k' v' Hn Hl Hu) as Hne. destruct (seek_position (comparator opt) es k) as [j|]; [|done].
    destruct Hsb as (n' & e & Hje & Hn' & Hl'). rewrite Hn in Hn'. injection Hn' as <-. rewrite Hl in Hl'. injection Hl' as <-.
    rewrite (filtered_false k i key0 es (k', v') Hi He) in Ef; [done|by eapply list_elem_of_lookup_2|done]. }
  pose proof (data_cursor (encode_handle (block_handle i es))) as Hd. rewrite (contents_of_block i es He) in Hd.
  specialize (Hd ltac:(apply list_elem_of_fmap; eexists; split; [|by eapply list_elem_of_lookup_2]; done)).
  apply (rep_seek _ _ k Hk) in Hd. set (biter := Seek k (block_iterator _ _ _ _ _ _)) in *.
  rewrite (rep_valid _ _ Hd), (rep_status _ _ Hd).
  destruct (seek_position (comparator opt) es k) as [j|].
  - rewrite bool_decide_eq_true_2 by eauto. destruct Hsb as (n & [k' v'] & Hje & Hn & Hl).
    pose proof (rep_entry _ _ Hd) as He2. rewrite Hje in He2.
    assert (key biter = k' /\ value biter = v') as [-> ->] by (split; congruence).
    eexists _, _. split; [reflexivity|]. split; [done|]. split; [right; by exists n, k', v'|].
    intros n2 k2 v2 Hn2 Hl2 _ _. rewrite Hn in Hn2. injection Hn2 as <-. rewrite Hl in Hl2. by injection Hl2 as <- <-.
  - rewrite bool_decide_eq_false_2 by (by intros [? ?]). eexists _, _. split; [reflexivity|]. split; [done|]. split; [by left|].
    intros n k' v' Hn Hl Hu _. by destruct (Hmade n k' v' Hn Hl Hu).
Qed.

(** ** Approximate offsets *)

Lemma ApproximateOffsetOf_eq k : size_of k < 2 ^ 32 ->
  ApproximateOffsetOf k opened =
  match seek_position (comparator opt) index k with
  | Some i => size_of (data_area snappy opt (take i blocks))
  | None => size_of (before_meta snappy opt blocks)
  end.
Proof.
  intros Hk. unfold ApproximateOffsetOf. pose proof (index_seek k Hk) as Hc. set (iiter := Seek k _) in *.
  rewrite (rep_valid _ _ Hc).
  assert (Hm : offset_ (metaindex_handle_ opened) = size_of (before_meta snappy opt blocks)).
  { cbn [opened metaindex_handle_]. unfold table_footer. cbn [metaindex_handle offset_]. eapply u64_prefix. exact Hfile. }
  destruct (seek_position (comparator opt) index k) as [i|] eqn:Ei.
  - rewrite bool_decide_eq_true_2 by eauto. pose proof (rep_entry _ _ Hc) as Hi.
    set (key0 := key iiter) in Hi. set (h := value iiter) in Hi |- *. apply index_lookup in Hi as (es & _ & He & ->).
    rewrite <- (app_nil_r (encode_handle _)), block_handle_decode by done. change (ok OK) with true. cbn iota.
    unfold block_handle. cbn [offset_]. destruct (block_split i es He) as [post Hf]. eapply u64_prefix. exact Hf.
  - by rewrite bool_decide_eq_false_2 by (by intros [? ?]).
Qed.

Lemma seek_position_mono l k k' i : seek_position (comparator opt) l k' = Some i -> Compare (comparator opt) k k' <> Gt ->
  exists j, seek_position (comparator opt) l k = Some j /\ (j <= i)%nat.
Proof.
  intros Hi Hle. apply (seek_position_Some (comparator opt)) in Hi as (e & He & Hge & _).
  assert (Hk : Compare (comparator opt) (fst e) k <> Lt).
  { intros Hlt. apply Hge. by eapply compare_lt_le_trans. }
  destruct (seek_position (comparator opt) l k) as [j|] eqn:Ej.
  - exists j. split; [done|]. destruct (decide (j <= i)%nat); [done|].
    apply (seek_position_Some (comparator opt)) in Ej as (e' & _ & _ & Hb). exfalso. apply Hk, (Hb i e He). lia.
  - exfalso. apply Hk. by apply (proj1 (seek_position_None (comparator opt) _ _) Ej i e).
Qed.

Lemma ApproximateOffsetOf_mono k k' : size_of k < 2 ^ 32 -> size_of k' < 2 ^ 32 -> Compare (comparator opt) k k' <> Gt ->
  0 <= ApproximateOffsetOf k opened <= ApproximateOffsetOf k' opened /\ ApproximateOffsetOf k' opened <= size_of (file_contents fl).
Proof.
  intros Hk Hk' Hle. rewrite !ApproximateOffsetOf_eq by done.
  assert (Hpre : forall i j, (i <= j)%nat -> size_of (data_area snappy opt (take i blocks)) <= size_of (data_area snappy opt (take j blocks))).
  { intros i j Hij. rewrite <- (take_drop i (take j blocks)), take_take, Nat.min_l, data_area_app, size_of_app by done.
    pose proof (size_of_nonneg (data_area snappy opt (drop i (take j blocks)))). lia. }
  assert (Hall : forall i, size_of (data_area snappy opt (take i blocks)) <= size_of (before_meta snappy opt blocks)).
  { intros i. unfold before_meta. rewrite <- (take_drop i blocks) at 2. rewrite data_area_app, !size_of_app.
    pose proof (size_of_nonneg (data_area snappy opt (drop i blocks))). pose proof (size_of_nonneg (filter_part snappy opt blocks)). lia. }
  assert (Hf : size_of (before_meta snappy opt blocks) <= size_of (file_contents fl)).
  { rewrite Hfile. unfold table_file. rewrite size_of_app. match goal with |- context [_ + size_of ?l] => pose proof (size_of_nonneg l) end. lia. }
  destruct (seek_position (comparator opt) index k') as [i'|] eqn:Ei'.
  - destruct (seek_position_mono index k k' i' Ei' Hle) as (i & -> & Hii). pose proof (Hpre i i' Hii). pose proof (Hall i').
    pose proof (size_of_nonneg (data_area snappy opt (take i blocks))). lia.
  - destruct (seek_position (comparator opt) index k) as [i|]; [pose proof (Hall i); pose proof (size_of_nonneg (data_area snappy opt (take i blocks)))
      |pose proof (size_of_nonneg (before_meta snappy opt blocks))]; lia.
Qed.
End Opened.

(** ** Properties *)

(** A file that holds a table of some entries, and what reading it relies on: the
    laws of the comparator, of the compression and of the filter policy, sizes of
    32 bits, and reads that succeed. *)
Record good_table {F : Type} `{!RandomAccessFile F} (snappy : option SnappyLib) (opt : Options) (entries : list (bytes * bytes))
    (file : F) : Prop := {
  gt_interval : 1 <= block_restart_interval opt;
  gt_snappy : snappy_ok snappy;
  gt_sorted : sorted_entries (comparator opt) entries;
  gt_cost : table_cost entries + 5 < 2 ^ 32;
  gt_file : is_table snappy opt entries (file_contents file);
  gt_size : size_of (file_contents file) < 2 ^ 32;
  gt_readable : readable file;
  gt_name policy : filter_policy opt = Some policy -> size_of (policy_Name policy) + 100 < 2 ^ 32
}.

(** C24: a table file opens, and its iterator is a cursor on the entries that the
    table was built from, wherever blocks end, with or without compression, filter
    and block cache; approximate offsets grow with the key and stay in the file. *)
Theorem table_iterator {F : Type} `{!RandomAccessFile F} `{!RandomAccessFileLaws F} (snappy : option SnappyLib) (in_buf : bool)
    (block_cache : option (bytes -> option Block)) (new_id : Z) (opt : Options)
    `{!ComparatorLaws (comparator opt)} `{!ShorteningLaws (comparator opt)} (entries : list (bytes * bytes)) (fl : F) :
  good_table snappy opt entries fl -> exists t,
  Open snappy in_buf block_cache new_id opt fl (size_of (file_contents fl)) = (OK, Some t) /\
  (cache_coherent snappy in_buf block_cache t -> forall ro,
   cursor (Iterator0 := TableIterator_Iterator snappy in_buf block_cache t ro) (comparator opt) entries (Table_NewIterator t) None) /\
  (forall k k', size_of k < 2 ^ 32 -> size_of k' < 2 ^ 32 -> Compare (comparator opt) k k' <> Gt ->
   0 <= ApproximateOffsetOf k t <= ApproximateOffsetOf k' t /\ ApproximateOffsetOf k' t <= size_of (file_contents fl)).
Proof.
  intros [Hi Hsn Hs Hc (blocks & keys & <- & Hne & Hl & Hsep & Hf) Hsz Hr Hn].
  exists (opened snappy block_cache new_id opt keys blocks fl). split; [by apply Open_ok|]. split.
  - intros Hcc ro. apply NewIterator_cursor; try done. by apply (coherent_blocks snappy in_buf).
  - intros k k' Hk Hk' Hle. by apply ApproximateOffsetOf_mono.
Qed.

(** C25: a lookup in a table file succeeds and hands at most one entry to the saver, the
    first one at or after the key; it hands it this entry whenever the filter
    policy takes the two keys for the same and no separator can come between them,
    as for a key of the table or for internal keys of one user key. *)
Theorem table_get {F : Type} `{!RandomAccessFile F} `{!RandomAccessFileLaws F} (snappy : option SnappyLib) (in_buf : bool)
    (block_cache : option (bytes -> option Block)) (new_id : Z) (opt : Options)
    `{!ComparatorLaws (comparator opt)} `{!ShorteningLaws (comparator opt)} (entries : list (bytes * bytes)) (fl : F) (max_keys : Z) t :
  good_table snappy opt entries fl -> (forall policy, filter_policy opt = Some policy -> FilterPolicyLaws policy max_keys) ->
  size_of entries <= max_keys ->
  Open snappy in_buf block_cache new_id opt fl (size_of (file_contents fl)) = (OK, Some t) ->
  cache_coherent snappy in_buf block_cache t ->
  forall (A : Type) (saver : A -> bytes -> bytes -> A) (arg : A) (k : bytes) ro, size_of k < 2 ^ 32 -> exists s arg',
  InternalGet snappy in_buf block_cache ro k arg saver t = (s, arg') /\ ok s = true /\
  (arg' = arg \/ exists n k' v', seek_position (comparator opt) entries k = Some n /\ entries !! n = Some (k', v') /\
     arg' = saver arg k' v') /\
  (forall n k' v', seek_position (comparator opt) entries k = Some n -> entries !! n = Some (k', v') ->
     unseparated opt k k' ->
     (forall policy, filter_policy opt = Some policy -> forall f, KeyMayMatch policy k' f = true -> KeyMayMatch policy k f = true) ->
     arg' = saver arg k' v').
Proof.
  intros [Hi Hsn Hs Hc (blocks & keys & <- & Hne & Hl & Hsep & Hf) Hsz Hr Hn] Hp Hmax Ho Hcc A saver arg k ro Hk.
  assert (t = opened snappy block_cache new_id opt keys blocks fl) as ->.
  { rewrite (Open_ok snappy in_buf block_cache new_id opt Hi Hsn keys blocks) in Ho by done. by injection Ho. }
  eapply InternalGet_ok; try done. by apply (coherent_blocks snappy in_buf).
Qed.

(** ** Examples *)

Definition sample_file : bytes := Eval vm_compute in written (TableBuilder.file (snd sample_builder)).

Lemma sample_good : good_table None sample_options sample_entries sample_file.
Proof.
  split.
  - cbn. lia.
  - done.
  - repeat constructor.
  - vm_compute. reflexivity.
  - destruct (builder_writes None sample_options sample_entries (mkDisk [] 1000) (fst sample_builder) (snd sample_builder)) as [H _];
      [cbn; lia|repeat constructor|reflexivity|unfold sample_builder; by destruct (TableBuilder_Finish _ _)|vm_compute; reflexivity|].
    exact H.
  - vm_compute. reflexivity.
  - intros off n H1 H2 H3. cbn [ReadAt bytes_RandomAccessFile]. cbn [file_contents bytes_RandomAccessFile] in H3.
    destruct (Z.leb_spec off (size_of sample_file)); [done|lia].
  - intros policy [= <-]. vm_compute. reflexivity.
Qed.

Lemma good_opens {F : Type} `{!RandomAccessFile F} `{!RandomAccessFileLaws F} (snappy : option SnappyLib) (in_buf : bool)
    (block_cache : option (bytes -> option Block)) (new_id : Z) (opt : Options)
    `{!ComparatorLaws (comparator opt)} `{!ShorteningLaws (comparator opt)} (entries : list (bytes * bytes)) (fl : F) :
  good_table snappy opt entries fl -> exists t,
  Open snappy in_buf block_cache new_id opt fl (size_of (file_contents fl)) = (OK, Some t).
Proof.
  intros [Hi Hsn Hs Hc (blocks & keys & <- & Hne & Hl & Hsep & Hf) Hsz Hr Hn].
  exists (opened snappy block_cache new_id opt keys blocks fl). by apply Open_ok.
Qed.

Lemma table_iterator_witness : exists t, Open None true None 0 sample_options sample_file (size_of sample_file) = (OK, Some t) /\
  cursor (Iterator0 := TableIterator_Iterator None true None t ReadOptions_make) BytewiseComparator sample_entries (Table_NewIterator t) None /\
  ApproximateOffsetOf (str "a") t <= ApproximateOffsetOf (str "b") t <= size_of sample_file.
Proof.
  destruct (table_iterator None true None 0 sample_options sample_entries sample_file sample_good) as (t & Ho & Hc & Ha).
  exists t. split; [exact Ho|]. split.
  - apply Hc. intros Lookup handle block c. discriminate.
  - destruct (Ha (str "a") (str "b")) as [H1 H2]; [reflexivity|reflexivity|vm_compute; discriminate|].
    split; [apply H1|exact H2].
Defined.

Lemma table_get_witness : exists t, Open None true None 0 sample_options sample_file (size_of sample_file) = (OK, Some t) /\
  exists s, InternalGet (A := option (bytes * bytes)) None true None ReadOptions_make (str "band") None (fun _ k v => Some (k, v)) t = (s, Some (str "band", str "4")) /\
  ok s = true.
Proof.
  destruct (good_opens None true None 0 sample_options sample_entries sample_file sample_good) as [t Ho].
  exists t. split; [exact Ho|].
  assert (Hp : forall policy, filter_policy sample_options = Some policy -> FilterPolicyLaws policy ((2 ^ 32 - 8) / 10)).
  { intros policy [= <-]. apply BloomFilterPolicy_laws. lia. }
  assert (Hcc : cache_coherent None true None t) by (intros Lookup handle block c; discriminate).
  destruct (table_get None true None 0 sample_options sample_entries sample_file ((2 ^ 32 - 8) / 10) t sample_good Hp
    ltac:(vm_compute; discriminate) Ho Hcc (option (bytes * bytes)) (fun _ k v => Some (k, v)) None (str "band") ReadOptions_make
    ltac:(reflexivity)) as (s & arg' & E & Hs & _ & H).
  exists s. split; [|exact Hs]. rewrite E. f_equal. apply (H 3%nat).
  - vm_compute. reflexivity.
  - reflexivity.
  - intros a Ha. change (comparator sample_options) with BytewiseComparator in *. destruct (separator_between (c := BytewiseComparator) a (str "band")) as [->|[_ H2]]; [exact Ha|exact H2].
  - done.
Defined.
