(* ===== verification/FileName.v ===== *)
(** * FileName: the names of the files of a database

    Models [db/filename.h], [db/filename.cpp] and the functions on file names at
    the end of [util/logging.cpp].  Names are built with [snprintf] in a buffer of
    1024 bytes, and parsed back from the directory's listing. *)

From S2P Require Import Prelude Coding Slice Logging.

Variant FileType : Type :=
  kLogFile | kDBLockFile | kTableFile | kDescriptorFile | kCurrentFile | kTempFile | kInfoLogFile.

Definition FILENUMBER_LDB : Z := 0.
Definition FILENUMBER_MANIFEST : Z := 1.

(** ** Building names *)

(** [s.data()] as a C string: up to the first zero byte. *)
Fixpoint c_str (s : bytes) : bytes :=
  match s with
  | [] => []
  | b :: s => if b2z b =? 0 then [] else b :: c_str s
  end.

(** [snprintf(buf, 1024, ...)] and the string made of [buf]. *)
Definition snprintf_buf (s : bytes) : bytes := take 1023 s.

Definition dot : bytes := str ".".

Definition MakeFileName_number (dbpath name : bytes) (number : Z) (suffix : bytes) : bytes :=
  snprintf_buf (c_str dbpath ++ c_str name ++ dot ++ print_06llu number ++ dot ++ suffix).
Definition MakeFileName (dbpath dbname suffix : bytes) : bytes :=
  snprintf_buf (c_str dbpath ++ c_str dbname ++ dot ++ suffix).
Definition MakeFileName_short (dbname suffix : bytes) : bytes := snprintf_buf (c_str dbname ++ dot ++ suffix).

Definition LogFileName (dbpath dbname : bytes) (number : Z) : bytes := MakeFileName_number dbpath dbname number (str "log").
Definition TableFileName (dbpath dbname : bytes) (number : Z) : bytes :=
  if number =? FILENUMBER_LDB then MakeFileName dbpath dbname (str "ldb")
  else MakeFileName_number dbpath dbname number (str "ldb").
Definition SSTTableFileName (dbpath dbname : bytes) (number : Z) : bytes := MakeFileName_number dbpath dbname number (str "sst").
Definition DescriptorFileName (dbpath dbname : bytes) (number : Z) : bytes := MakeFileName dbpath dbname (str "manifest").
Definition DescriptorFileName_short (dbname : bytes) (number : Z) : bytes := MakeFileName_short dbname (str "manifest").
Definition CurrentFileName (dbpath dbname : bytes) : bytes := MakeFileName dbpath dbname (str "current").
Definition LockFileName (dbpath dbname : bytes) : bytes := MakeFileName dbpath dbname (str "lock").
Definition TempFileName (dbpath dbname : bytes) (number : Z) : bytes := MakeFileName_number dbpath dbname number (str "dbtmp").
Definition InfoLogFileName (dbpath dbname : bytes) : bytes := MakeFileName dbpath dbname (str "lg").
Definition OldInfoLogFileName (dbpath dbname : bytes) : bytes := MakeFileName dbpath dbname (str "oldlg").

(** It does nothing: the manifest has a fixed name. *)
Definition SetCurrentFile (dbpath dbname : bytes) (descriptor_number : Z) : Status := OK.

(** ** Parsing names *)

Definition is_dot (b : byte) : bool := b2z b =? 0x2e.

(** [find_first_of('.')] and [find_last_of('.')]; [None] is [npos]. *)
Definition find_first_dot (s : bytes) : option nat := fst <$> list_find (fun b => is_dot b = true) s.
Definition find_last_dot (s : bytes) : option nat :=
  match find_first_dot (rev s) with
  | Some i => Some (length s - 1 - i)%nat
  | None => None
  end.

(** [length() - 1] is an unsigned number; [npos] is the largest one. *)
Definition after_last_dot (s : bytes) : option bytes :=
  match find_last_dot s with
  | None => None
  | Some dotPos =>
      if (dotPos <=? 0)%nat || (length s - 1 <=? dotPos)%nat then None
      else Some (take (length s - 1) (drop (dotPos + 1) s))
  end.

Definition GetFileSuffix (filename : bytes) : option bytes := after_last_dot filename.
Definition parseFileName (path : bytes) : option bytes := after_last_dot path.

(** The loop of [GetFileNumber]; [None]: an overflow. *)
Fixpoint GetFileNumber_loop (s : bytes) (v digits : Z) : option (Z * Z) :=
  match s with
  | [] => Some (v, digits)
  | c :: s =>
      if is_digit c then
        let delta := b2z c - 0x30 in
        if (v >? kMaxUint64 / 10) || ((v =? kMaxUint64 / 10) && (delta >? kMaxUint64 mod 10)) then None
        else GetFileNumber_loop s (u64 (v * 10 + delta)) (digits + 1)
      else Some (v, digits)
  end.

(** The value stored, if any, and the result. *)
Definition GetFileNumber (filename : bytes) : option Z * bool :=
  match find_first_dot filename with
  | None => (None, false)
  | Some index =>
      match GetFileNumber_loop (drop (index + 1) filename) 0 0 with
      | None => (None, false)
      | Some (v, digits) => (Some v, digits >? 0)
      end
  end.

(** [fname.substr(0, fname.find_first_of('.') + 1)]: with no dot the position is
    [npos + 1], that is 0. *)
Definition up_to_first_dot (fname : bytes) : bytes :=
  match find_first_dot fname with Some i => take (i + 1) fname | None => [] end.

Definition after_first_dot (fname : bytes) : bytes :=
  match find_first_dot fname with Some i => drop (i + 1) fname | None => fname end.

(** The number and the type, or [None] when the function returns [false]. *)
Definition ParseFileName (dbpath fname : bytes) : option (Z * FileType) :=
  match GetFileSuffix fname with
  | None => None
  | Some suffix =>
      if slice_eq suffix (str "current") then Some (0, kCurrentFile)
      else if slice_eq suffix (str "lock") then Some (0, kDBLockFile)
      else if slice_eq suffix (str "lg") || slice_eq suffix (str "oldlg") then Some (0, kInfoLogFile)
      else if slice_eq suffix (str "manifest") then
        if negb (slice_eq (up_to_first_dot fname ++ str "manifest") fname) then None
        else Some (1, kDescriptorFile)
      else if slice_eq suffix (str "ldb") then
        if negb (slice_eq (up_to_first_dot fname ++ str "ldb") fname) then None
        else Some (FILENUMBER_LDB, kTableFile)
      else
        match fst (ConsumeDecimalNumber (after_first_dot fname)) with
        | None => None
        | Some num =>
            if slice_eq suffix (str "log") then Some (num, kLogFile)
            else if slice_eq suffix (str "sst") || slice_eq suffix (str "ldb") then Some (num, kTableFile)
            else if slice_eq suffix (str "dbtmp") then Some (num, kTempFile)
            else None
        end
  end.

(** ** Lemmas *)

(** A name of a database: not empty, without dot nor zero byte, not too long. *)
Record good_name (dbname : bytes) : Prop := {
  gn_nonempty : dbname <> [];
  gn_bytes : Forall (fun b => is_dot b = false /\ b2z b <> 0) dbname;
  gn_length : (length dbname <= 900)%nat
}.

Lemma c_str_good dbname : good_name dbname -> c_str dbname = dbname.
Proof.
  intros [_ H _]. induction H as [|b s [_ Hb] _ IH]; [done|]. cbn [c_str]. destruct (Z.eqb_spec (b2z b) 0); [done|]. by rewrite IH.
Qed.

Lemma find_first_dot_app s t : Forall (fun b => is_dot b = false) s -> find_first_dot (s ++ dot ++ t) = Some (length s).
Proof.
  intros Hs. unfold find_first_dot. rewrite fmap_Some. exists (length s, z2b 0x2e). split; [|done]. apply list_find_Some.
  split; [|split; [reflexivity|]].
  - change (dot ++ t) with (z2b 0x2e :: t). by apply list_lookup_middle.
  - intros j y Hj Hlt. rewrite lookup_app_l in Hj by done. rewrite Forall_lookup in Hs. by rewrite (Hs j y Hj).
Qed.

Lemma find_last_dot_app s t : Forall (fun b => is_dot b = false) t -> find_last_dot (s ++ dot ++ t) = Some (length s).
Proof.
  intros Ht. unfold find_last_dot. rewrite !rev_app_distr, <- app_assoc. change (rev dot) with dot.
  rewrite find_first_dot_app by (by apply Forall_rev). f_equal. rewrite length_rev, !length_app. simpl. lia.
Qed.

Lemma after_last_dot_app s t : s <> [] -> t <> [] -> Forall (fun b => is_dot b = false) t -> after_last_dot (s ++ dot ++ t) = Some t.
Proof.
  intros Hs Ht Hd. unfold after_last_dot. rewrite find_last_dot_app by done.
  assert (0 < length s)%nat by (destruct s; [done|simpl; lia]). assert (0 < length t)%nat by (destruct t; [done|simpl; lia]).
  destruct (Nat.leb_spec (length s) 0); [lia|]. rewrite !length_app. simpl length.
  destruct (Nat.leb_spec (length s + (1 + length t) - 1) (length s)); [lia|]. cbn [orb]. f_equal.
  rewrite (app_assoc s), drop_app_exact by (rewrite length_app; simpl; lia). apply take_ge. lia.
Qed.

Lemma digits_no_dot s : Forall (fun c => is_digit c = true) s -> Forall (fun b => is_dot b = false) s.
Proof.
  intros Hs. eapply Forall_impl; [exact Hs|]. intros c Hc. apply is_digit_range in Hc. unfold is_dot. apply Z.eqb_neq. lia.
Qed.

Lemma print_06llu_spec n : 0 <= n < 2 ^ 64 ->
  Forall (fun c => is_digit c = true) (print_06llu n) /\ digits_value 0 (print_06llu n) = n /\ print_06llu n <> [] /\
  (length (print_06llu n) <= 26)%nat.
Proof.
  intros Hn. destruct (print_llu_spec n Hn) as (H1 & H2 & H3). unfold print_06llu.
  assert (Hz : forall k, Forall (fun c => is_digit c = true) (replicate k (digit 0)) /\ digits_value 0 (replicate k (digit 0)) = 0).
  { induction k as [|k [IH1 IH2]]; [done|]. split; [by constructor|]. cbn [replicate]. exact IH2. }
  destruct (Hz (6 - length (print_llu n))%nat) as [Hz1 Hz2]. split; [by apply Forall_app|]. split.
  - by rewrite digits_value_app, Hz2.
  - split; [by intros [_ ?]%app_nil|]. rewrite length_app, length_replicate.
    assert (Hl : forall fuel v, (length (decimal_loop fuel v) <= fuel)%nat).
    { induction fuel as [|fuel IH]; intros v; [done|]. cbn [decimal_loop]. destruct (v <? 10); [simpl; lia|].
      rewrite length_app. specialize (IH (v / 10)). simpl. lia. }
    pose proof (Hl 20%nat n). unfold print_llu. lia.
Qed.

Lemma ConsumeDecimalNumber_06 n rest : 0 <= n < 2 ^ 64 -> match rest with c :: _ => is_digit c = false | [] => True end ->
  ConsumeDecimalNumber (print_06llu n ++ rest) = (Some n, rest).
Proof.
  intros Hn Hr. destruct (print_06llu_spec n Hn) as (H1 & H2 & H3 & _). unfold ConsumeDecimalNumber.
  pose proof (ConsumeDecimal_loop_spec (print_06llu n) rest 0 0 H1 Hr ltac:(done)) as H. rewrite H2 in H.
  rewrite (proj2 (Z.leb_le n kMaxUint64)) in H by (unfold kMaxUint64; lia). rewrite H.
  destruct (print_06llu n); [done|]. rewrite size_of_cons. pose proof (size_of_nonneg l).
  destruct (Z.gtb_spec (0 + (1 + size_of l)) 0); [done|lia].
Qed.

(** What the parser computes on the two shapes of names. *)
Lemma MakeFileName_parts dbname suffix : good_name dbname -> (length suffix <= 20)%nat -> suffix <> [] -> Forall (fun b => is_dot b = false) suffix ->
  let f := MakeFileName [] dbname suffix in
  f = dbname ++ dot ++ suffix /\ GetFileSuffix f = Some suffix /\ up_to_first_dot f = dbname ++ dot /\ after_first_dot f = suffix.
Proof.
  intros Hg Hl Hs Hd f. pose proof Hg as [Hne Hb Hlen].
  assert (Ef : f = dbname ++ dot ++ suffix).
  { unfold f, MakeFileName, snprintf_buf. rewrite (c_str_good _ Hg). apply take_ge. rewrite !length_app. simpl. lia. }
  assert (Hbd : Forall (fun b => is_dot b = false) dbname) by (eapply Forall_impl; [exact Hb|by intros b [? _]]).
  rewrite Ef. split; [done|]. split; [by apply after_last_dot_app|]. unfold up_to_first_dot, after_first_dot.
  rewrite find_first_dot_app by done. rewrite app_assoc. split.
  - apply take_app_exact. rewrite length_app. simpl. lia.
  - apply drop_app_exact. rewrite length_app. simpl. lia.
Qed.

Lemma MakeFileName_number_parts dbname n suffix : good_name dbname -> 0 <= n < 2 ^ 64 -> (length suffix <= 20)%nat -> suffix <> [] ->
  Forall (fun b => is_dot b = false) suffix ->
  let f := MakeFileName_number [] dbname n suffix in
  f = dbname ++ dot ++ print_06llu n ++ dot ++ suffix /\ GetFileSuffix f = Some suffix /\ up_to_first_dot f = dbname ++ dot /\
  fst (ConsumeDecimalNumber (after_first_dot f)) = Some n.
Proof.
  intros Hg Hn Hl Hs Hd f. pose proof Hg as [Hne Hb Hlen]. destruct (print_06llu_spec n Hn) as (Hp1 & Hp2 & Hp3 & Hp4).
  assert (Ef : f = dbname ++ dot ++ print_06llu n ++ dot ++ suffix).
  { unfold f, MakeFileName_number, snprintf_buf. rewrite (c_str_good _ Hg). apply take_ge. rewrite !length_app. simpl. lia. }
  assert (Hbd : Forall (fun b => is_dot b = false) dbname) by (eapply Forall_impl; [exact Hb|by intros b [? _]]).
  rewrite Ef. split; [done|]. split.
  { replace (dbname ++ dot ++ print_06llu n ++ dot ++ suffix) with ((dbname ++ dot ++ print_06llu n) ++ dot ++ suffix) by (by rewrite <- !app_assoc).
    apply after_last_dot_app; [|done|done]. by intros [? _]%app_nil. }
  unfold up_to_first_dot, after_first_dot. rewrite find_first_dot_app by done. rewrite (app_assoc dbname dot). split.
  - apply take_app_exact. rewrite length_app. simpl. lia.
  - rewrite drop_app_exact by (rewrite length_app; simpl; lia). by rewrite ConsumeDecimalNumber_06.
Qed.

Lemma slice_eq_same a : slice_eq a a = true.
Proof. by apply slice_eq_spec. Qed.
Lemma slice_eq_other a b : a <> b -> slice_eq a b = false.
Proof. intros H. destruct (slice_eq a b) eqn:E; [by apply slice_eq_spec in E|done]. Qed.

(** Parse a name made with a suffix. *)
Ltac number_name H s := destruct (H s) as (E1 & E2 & E3 & E4); [simpl; lia|done|by repeat constructor|];
  unfold ParseFileName; rewrite E2.

(** ** Properties *)

(** C40: the names that the library gives to the files of a database are parsed
    back to their types and numbers, except those of numbered tables with the
    suffix [ldb], which [ParseFileName] rejects: the only [ldb] name it knows is that
    of table 0, and it gives the manifest the number 1. *)
Theorem filename_roundtrip (dbname : bytes) (n : Z) : good_name dbname -> 0 <= n < 2 ^ 64 ->
  ParseFileName [] (LogFileName [] dbname n) = Some (n, kLogFile) /\
  ParseFileName [] (SSTTableFileName [] dbname n) = Some (n, kTableFile) /\
  ParseFileName [] (TempFileName [] dbname n) = Some (n, kTempFile) /\
  ParseFileName [] (TableFileName [] dbname n) = (if n =? 0 then Some (0, kTableFile) else None) /\
  ParseFileName [] (DescriptorFileName [] dbname n) = Some (FILENUMBER_MANIFEST, kDescriptorFile) /\
  ParseFileName [] (CurrentFileName [] dbname) = Some (0, kCurrentFile) /\
  ParseFileName [] (LockFileName [] dbname) = Some (0, kDBLockFile) /\
  ParseFileName [] (InfoLogFileName [] dbname) = Some (0, kInfoLogFile) /\
  ParseFileName [] (OldInfoLogFileName [] dbname) = Some (0, kInfoLogFile).
Proof.
  intros Hg Hn.
  assert (Hnum : forall s, (length (str s) <= 20)%nat -> str s <> [] -> Forall (fun b => is_dot b = false) (str s) -> _)
    by exact (fun s => MakeFileName_number_parts dbname n (str s) Hg Hn).
  assert (Hplain : forall s, (length (str s) <= 20)%nat -> str s <> [] -> Forall (fun b => is_dot b = false) (str s) -> _)
    by exact (fun s => MakeFileName_parts dbname (str s) Hg).
  cbv beta zeta in Hnum, Hplain.
  unfold LogFileName, SSTTableFileName, TempFileName, TableFileName, DescriptorFileName, CurrentFileName, LockFileName,
    InfoLogFileName, OldInfoLogFileName.
  repeat apply conj.
  - number_name Hnum "log"%string. rewrite E4. reflexivity.
  - number_name Hnum "sst"%string. rewrite E4. reflexivity.
  - number_name Hnum "dbtmp"%string. rewrite E4. reflexivity.
  - change FILENUMBER_LDB with 0. destruct (Z.eqb_spec n 0) as [->|Hn0].
    + number_name Hplain "ldb"%string. rewrite E3, E1, <- !app_assoc, (slice_eq_same (dbname ++ _)). reflexivity.
    + number_name Hnum "ldb"%string. rewrite E3, E1, <- !app_assoc, (slice_eq_other (dbname ++ dot ++ str "ldb")); [reflexivity|].
      intros E. apply app_inv_head, app_inv_head, (f_equal length) in E.
      destruct (print_06llu_spec n Hn) as (_ & _ & Hp & _). destruct (print_06llu n); [done|].
      cbn [app length] in E. rewrite length_app in E. simpl in E. lia.
  - number_name Hplain "manifest"%string. rewrite E3, E1, <- !app_assoc, (slice_eq_same (dbname ++ _)). reflexivity.
  - number_name Hplain "current"%string. reflexivity.
  - number_name Hplain "lock"%string. reflexivity.
  - number_name Hplain "lg"%string. reflexivity.
  - number_name Hplain "oldlg"%string. reflexivity.
Qed.

Lemma filename_roundtrip_witness :
  ParseFileName [] (LogFileName [] (str "poi") 12) = Some (12, kLogFile) /\
  ParseFileName [] (TableFileName [] (str "poi") 12) = None.
Proof.
  destruct (filename_roundtrip (str "poi") 12) as (H1 & _ & _ & H2 & _).
  - split; [done|by repeat constructor|simpl; lia].
  - lia.
  - split; [exact H1|exact H2].
Defined.
