(* ===== verification/Cache.v ===== *)
(** * Cache: the least-recently-used cache

    Models [util/cache.cpp].  Handles are addresses; their fields [next] and [prev],
    which link them in a circular list around the dummy handle [lru_], are two maps
    from addresses, the other fields a third one.  A chain of the hash table is the
    list of its handles.  The deleters that run are returned. *)

From S2P Require Import Prelude Coding Slice FilterPolicy.

Section LRUCache.
Context {V : Type}.

Abbreviation addr := nat.

(** [&lru_]. *)
Definition lru_ : addr := O.

(** The handle without its links; [deleter] is called on [key()] and [value]. *)
Record LRUHandle : Type := mkHandle {
  value : V;
  charge : Z;
  key : bytes;
  refs : Z;
  hash : Z
}.

Abbreviation Heap := (gmap addr LRUHandle).

(** ** The hash table *)

Record HandleTable : Type := mkTable { elems_ : Z; list_ : list (list addr) }.

(** [hash & (length_ - 1)]. *)
Definition bucket_of (length_ hash : Z) : nat := Z.to_nat (Z.land hash (length_ - 1)).

(** [FindPointer] stops at this handle. *)
Definition matches (h : Heap) (k : bytes) (hs : Z) (a : addr) : bool :=
  match h !! a with Some e => (hash e =? hs) && slice_eq k (key e) | None => false end.

Fixpoint chain_find (h : Heap) (k : bytes) (hs : Z) (chain : list addr) : option addr :=
  match chain with
  | [] => None
  | a :: chain => if matches h k hs a then Some a else chain_find h k hs chain
  end.

(** [e] in the place of the handle that matches, or at the end. *)
Fixpoint chain_insert (h : Heap) (k : bytes) (hs : Z) (e : addr) (chain : list addr) : list addr :=
  match chain with
  | [] => [e]
  | a :: chain => if matches h k hs a then e :: chain else a :: chain_insert h k hs e chain
  end.

Fixpoint chain_remove (h : Heap) (k : bytes) (hs : Z) (chain : list addr) : list addr :=
  match chain with
  | [] => []
  | a :: chain => if matches h k hs a then chain else a :: chain_remove h k hs chain
  end.

Definition length_ (t : HandleTable) : Z := size_of (list_ t).
Definition chain (t : HandleTable) (hs : Z) : list addr := nth (bucket_of (length_ t) hs) (list_ t) [].

Definition Table_Lookup (h : Heap) (k : bytes) (hs : Z) (t : HandleTable) : option addr := chain_find h k hs (chain t hs).

(** [while (new_length < elems_) new_length *= 2]: 29 doublings reach [2^31]. *)
Fixpoint new_length (fuel : nat) (n elems : Z) : Z :=
  match fuel with
  | O => n
  | S fuel => if n <? elems then new_length fuel (n * 2) elems else n
  end.

Definition hash_of (h : Heap) (a : addr) : Z := match h !! a with Some e => hash e | None => 0 end.

(** A handle goes to the front of its new chain. *)
Definition rehash (h : Heap) (n : Z) (chains : list (list addr)) (a : addr) : list (list addr) :=
  alter (cons a) (bucket_of n (hash_of h a)) chains.

Definition Resize (h : Heap) (t : HandleTable) : HandleTable :=
  let n := new_length 29 4 (elems_ t) in
  mkTable (elems_ t) (fold_left (fun chains chain => fold_left (rehash h n) chain chains) (list_ t)
      (replicate (Z.to_nat n) [])).

Definition HandleTable_make : HandleTable := Resize ∅ (mkTable 0 []).

Definition Table_Insert (h : Heap) (a : addr) (k : bytes) (hs : Z) (t : HandleTable) : option addr * HandleTable :=
  let old := Table_Lookup h k hs t in
  let t' := mkTable (elems_ t) (alter (chain_insert h k hs a) (bucket_of (length_ t) hs) (list_ t)) in
  match old with
  | Some _ => (old, t')
  | None =>
      let t' := mkTable (u32 (elems_ t + 1)) (list_ t') in
      (old, if elems_ t' >? length_ t' then Resize h t' else t')
  end.

Definition Table_Remove (h : Heap) (k : bytes) (hs : Z) (t : HandleTable) : option addr * HandleTable :=
  let result := Table_Lookup h k hs t in
  match result with
  | Some _ => (result, mkTable (u32 (elems_ t - 1)) (alter (chain_remove h k hs) (bucket_of (length_ t) hs) (list_ t)))
  | None => (result, t)
  end.

(** ** One shard *)

Record LRUCache : Type := mkLRU {
  capacity_ : Z;
  usage_ : Z;
  handles : Heap;
  next : gmap addr addr;
  prev : gmap addr addr;
  table_ : HandleTable
}.

Definition LRUCache_make : LRUCache :=
  mkLRU 0 0 ∅ {[ lru_ := lru_ ]} {[ lru_ := lru_ ]} HandleTable_make.

Definition SetCapacity (capacity : Z) (c : LRUCache) : LRUCache :=
  mkLRU capacity (usage_ c) (handles c) (next c) (prev c) (table_ c).

(** [a->next] and [a->prev]. *)
Definition next_of (c : LRUCache) (a : addr) : addr := default lru_ (next c !! a).
Definition prev_of (c : LRUCache) (a : addr) : addr := default lru_ (prev c !! a).

Definition set_links (nx pv : gmap addr addr) (c : LRUCache) : LRUCache :=
  mkLRU (capacity_ c) (usage_ c) (handles c) nx pv (table_ c).
Definition set_table (t : HandleTable) (c : LRUCache) : LRUCache :=
  mkLRU (capacity_ c) (usage_ c) (handles c) (next c) (prev c) t.

Definition LRU_Remove (e : addr) (c : LRUCache) : LRUCache :=
  let pv := <[next_of c e := prev_of c e]> (prev c) in
  let p := default lru_ (pv !! e) in
  set_links (<[p := next_of c e]> (next c)) pv c.

Definition LRU_Append (e : addr) (c : LRUCache) : LRUCache :=
  let nx := <[e := lru_]> (next c) in
  let p := prev_of c lru_ in
  let pv := <[e := p]> (prev c) in
  let nx := <[p := e]> nx in
  set_links nx (<[default lru_ (nx !! e) := e]> pv) c.

Definition set_refs (r : Z) (e : LRUHandle) : LRUHandle := mkHandle (value e) (charge e) (key e) r (hash e).

(** The deleter's call, if this was the last reference. *)
Definition Unref (a : addr) (c : LRUCache) : list (bytes * V) * LRUCache :=
  match handles c !! a with
  | None => ([], c)
  | Some e =>
      let e := set_refs (u32 (refs e - 1)) e in
      if refs e <=? 0 then
        ([(key e, value e)],
         mkLRU (capacity_ c) (usize (usage_ c - charge e)) (delete a (handles c)) (delete a (next c)) (delete a (prev c)) (table_ c))
      else
        ([], mkLRU (capacity_ c) (usage_ c) (<[a := e]> (handles c)) (next c) (prev c) (table_ c))
  end.

Definition Lookup (k : bytes) (hs : Z) (c : LRUCache) : option addr * LRUCache :=
  match Table_Lookup (handles c) k hs (table_ c) with
  | None => (None, c)
  | Some a =>
      let c := mkLRU (capacity_ c) (usage_ c) (alter (fun e => set_refs (u32 (refs e + 1)) e) a (handles c)) (next c) (prev c) (table_ c) in
      (Some a, LRU_Append a (LRU_Remove a c))
  end.

Definition Release (a : addr) (c : LRUCache) : list (bytes * V) * LRUCache := Unref a c.

(** [while (usage_ > capacity_ && lru_.next != &lru_)]; a step takes a handle out of
    the list. *)
Fixpoint evict (fuel : nat) (c : LRUCache) : list (bytes * V) * LRUCache :=
  match fuel with
  | O => ([], c)
  | S fuel =>
      if (usage_ c >? capacity_ c) && negb (next_of c lru_ =? lru_)%nat then
        let old := next_of c lru_ in
        let c := LRU_Remove old c in
        let c := match handles c !! old with
                 | Some e => set_table (snd (Table_Remove (handles c) (key e) (hash e) (table_ c))) c
                 | None => c
                 end in
        let '(d, c) := Unref old c in
        let '(ds, c) := evict fuel c in (d ++ ds, c)
      else ([], c)
  end.

(** [malloc] gives an address that is not in use. *)
Definition Insert (k : bytes) (hs : Z) (v : V) (charge : Z) (c : LRUCache) : addr * list (bytes * V) * LRUCache :=
  let e := fresh (dom (next c)) in
  let c := mkLRU (capacity_ c) (usage_ c) (<[e := mkHandle v charge k 2 hs]> (handles c)) (next c) (prev c) (table_ c) in
  let c := LRU_Append e c in
  let c := mkLRU (capacity_ c) (usize (usage_ c + charge)) (handles c) (next c) (prev c) (table_ c) in
  let '(old, t) := Table_Insert (handles c) e k hs (table_ c) in
  let c := set_table t c in
  let '(d, c) := match old with Some old => Unref old (LRU_Remove old c) | None => ([], c) end in
  let '(ds, c) := evict (size (next c)) c in
  (e, d ++ ds, c).

Definition Erase (k : bytes) (hs : Z) (c : LRUCache) : list (bytes * V) * LRUCache :=
  let '(e, t) := Table_Remove (handles c) k hs (table_ c) in
  let c := set_table t c in
  match e with
  | Some e => Unref e (LRU_Remove e c)
  | None => ([], c)
  end.

Fixpoint Prune_loop (fuel : nat) (e : addr) (c : LRUCache) : list (bytes * V) * LRUCache :=
  match fuel with
  | O => ([], c)
  | S fuel =>
      if (e =? lru_)%nat then ([], c)
      else
        let nxt := next_of c e in
        let '(d, c) :=
          match handles c !! e with
          | Some h =>
              if refs h =? 1 then
                let c := set_table (snd (Table_Remove (handles c) (key h) (hash h) (table_ c))) c in
                Unref e (LRU_Remove e c)
              else ([], c)
          | None => ([], c)
          end in
        let '(ds, c) := Prune_loop fuel nxt c in (d ++ ds, c)
  end.

Definition Prune (c : LRUCache) : list (bytes * V) * LRUCache := Prune_loop (size (next c)) (next_of c lru_) c.

Definition LRU_TotalCharge (c : LRUCache) : Z := usage_ c.

(** ~LRUCache. *)
Fixpoint destroy_loop (fuel : nat) (e : addr) (c : LRUCache) : list (bytes * V) * LRUCache :=
  match fuel with
  | O => ([], c)
  | S fuel =>
      if (e =? lru_)%nat then ([], c)
      else
        let nxt := next_of c e in
        let '(d, c) := Unref e c in
        let '(ds, c) := destroy_loop fuel nxt c in (d ++ ds, c)
  end.
Definition LRUCache_destroy (c : LRUCache) : list (bytes * V) := fst (destroy_loop (size (next c)) (next_of c lru_) c).
End LRUCache.
Arguments LRUHandle : clear implicits.
Arguments LRUCache : clear implicits.
Abbreviation Heap V := (gmap nat (LRUHandle V)).

(** ** The sixteen shards *)

Definition kNumShardBits : Z := 4.
Definition kNumShards : Z := Z.shiftl 1 kNumShardBits.

Record ShardedLRUCache (V : Type) : Type := mkSharded { shard_ : list (LRUCache V); last_id_ : Z }.
Arguments mkSharded {V}.
Arguments shard_ {V}.
Arguments last_id_ {V}.

(** A handle pointer leads to its hash; the address is that of its shard's heap. *)
Record Handle : Type := mkHandlePtr { h_hash : Z; h_addr : nat }.

Section ShardedCache.
Context {V : Type}.

Definition HashSlice (s : bytes) : Z := Hash s (size_of s) 0.

Definition Shard (hash : Z) : nat := Z.to_nat (Z.shiftr hash (32 - kNumShardBits)).

Definition NewLRUCache (capacity : Z) : ShardedLRUCache V :=
  let per_shard := usize (capacity + (kNumShards - 1)) / kNumShards in
  mkSharded (replicate (Z.to_nat kNumShards) (SetCapacity per_shard LRUCache_make)) 0.

(** Runs an operation of the shard of the hash. *)
Definition on_shard {R} (hash : Z) (none : R) (op : LRUCache V -> R * LRUCache V) (c : ShardedLRUCache V) : R * ShardedLRUCache V :=
  match shard_ c !! Shard hash with
  | Some sh => let '(r, sh) := op sh in (r, mkSharded (<[Shard hash := sh]> (shard_ c)) (last_id_ c))
  | None => (none, c)
  end.

Definition Sharded_Insert (k : bytes) (v : V) (charge : Z) (c : ShardedLRUCache V) : option Handle * list (bytes * V) * ShardedLRUCache V :=
  let hash := HashSlice k in
  on_shard hash (None, []) (fun sh => let '(a, ds, sh) := Insert k hash v charge sh in ((Some (mkHandlePtr hash a), ds), sh)) c.

Definition Sharded_Lookup (k : bytes) (c : ShardedLRUCache V) : option Handle * ShardedLRUCache V :=
  let hash := HashSlice k in
  on_shard hash None (fun sh => let '(a, sh) := Lookup k hash sh in (mkHandlePtr hash <$> a, sh)) c.

Definition Sharded_Release (h : Handle) (c : ShardedLRUCache V) : list (bytes * V) * ShardedLRUCache V :=
  on_shard (h_hash h) [] (Release (h_addr h)) c.

Definition Sharded_Erase (k : bytes) (c : ShardedLRUCache V) : list (bytes * V) * ShardedLRUCache V :=
  let hash := HashSlice k in on_shard hash [] (Erase k hash) c.

Definition Value (h : Handle) (c : ShardedLRUCache V) : option V :=
  sh ← shard_ c !! Shard (h_hash h); value <$> handles sh !! h_addr h.

Definition NewId (c : ShardedLRUCache V) : Z * ShardedLRUCache V :=
  let id := u64 (last_id_ c + 1) in (id, mkSharded (shard_ c) id).

Fixpoint Prune_shards (l : list (LRUCache V)) : list (bytes * V) * list (LRUCache V) :=
  match l with
  | [] => ([], [])
  | sh :: l => let '(d, sh) := Prune sh in let '(ds, l) := Prune_shards l in (d ++ ds, sh :: l)
  end.
Definition Sharded_Prune (c : ShardedLRUCache V) : list (bytes * V) * ShardedLRUCache V :=
  let '(ds, l) := Prune_shards (shard_ c) in (ds, mkSharded l (last_id_ c)).

Definition TotalCharge (c : ShardedLRUCache V) : Z :=
  fold_left (fun total sh => usize (total + LRU_TotalCharge sh)) (shard_ c) 0.
End ShardedCache.

(** ** Linked lists *)

(** The links lead from [a] through [l] to [b], and back. *)
Fixpoint path (nx pv : gmap nat nat) (a : nat) (l : list nat) (b : nat) : Prop :=
  match l with
  | [] => nx !! a = Some b /\ pv !! b = Some a
  | x :: l => nx !! a = Some x /\ pv !! x = Some a /\ path nx pv x l b
  end.

Lemma links_app nx pv a l1 x l2 b : path nx pv a (l1 ++ x :: l2) b <-> path nx pv a l1 x /\ path nx pv x l2 b.
Proof. revert a. induction l1 as [|y l1 IH]; intros a; cbn [app path]; [tauto|]. rewrite IH. tauto. Qed.

Lemma path_next nx pv a l b : path nx pv a l b -> nx !! a = Some (hd b l).
Proof. destruct l; cbn; tauto. Qed.

Lemma path_prev nx pv a l b : path nx pv a l b -> pv !! b = Some (List.last l a).
Proof.
  revert a. induction l as [|x l IH]; intros a; cbn [path]; [by intros [_ ?]|]. intros (_ & _ & H). rewrite (IH _ H).
  destruct l as [|y l]; [done|]. cbn. f_equal. clear. revert y. induction l as [|z l IH]; intros y; [done|]. cbn. apply (IH z).
Qed.

(** Maps that agree on the links of a path. *)
Lemma path_ext nx pv nx' pv' a l b : (forall y, y = a \/ y ∈ l -> nx' !! y = nx !! y) -> (forall y, y = b \/ y ∈ l -> pv' !! y = pv !! y) ->
  path nx pv a l b -> path nx' pv' a l b.
Proof.
  revert a. induction l as [|x l IH]; intros a Hn Hp; cbn [path].
  - intros [H1 H2]. rewrite (Hn a), (Hp b) by tauto. done.
  - intros (H1 & H2 & H3). rewrite (Hn a), (Hp x) by (set_solver). split; [done|]. split; [done|]. apply IH; [set_solver|set_solver|done].
Qed.

Lemma path_member nx pv a l b y : path nx pv a l b -> y ∈ l -> is_Some (nx !! y) /\ is_Some (pv !! y).
Proof.
  revert a. induction l as [|x l IH]; intros a; [set_solver|]. intros (H1 & H2 & H3) [->|Hy]%elem_of_cons.
  - split; [|by exists a]. destruct l; cbn in H3; destruct_and?; eauto.
  - by apply (IH x).
Qed.

(** Taking [e] out. *)
Lemma path_unlink nx pv l1 e l2 : NoDup (lru_ :: l1 ++ e :: l2) -> path nx pv lru_ (l1 ++ e :: l2) lru_ ->
  let n := hd lru_ l2 in let p := List.last l1 lru_ in
  nx !! e = Some n /\ pv !! e = Some p /\ path (<[p := n]> nx) (<[n := p]> pv) lru_ (l1 ++ l2) lru_ /\
  e <> p /\ e <> n.
Proof.
  intros Hnd Hp n p. apply links_app in Hp as [H1 H2].
  assert (He : e <> lru_ /\ e ∉ l1 /\ e ∉ l2).
  { apply NoDup_cons in Hnd as [Ha Hb]. apply NoDup_app in Hb as (_ & Hb & Hc). apply NoDup_cons in Hc as [Hc _].
    split; [set_solver|]. split; [intros Hin; by apply (Hb e Hin); left|done]. }
  destruct He as (He0 & He1 & He2).
  pose proof (path_next _ _ _ _ _ H2) as Hn. pose proof (path_prev _ _ _ _ _ H1) as Hpv. fold n in Hn. fold p in Hpv.
  assert (Hep : e <> p) by (unfold p; destruct l1 as [|x l1 _] using rev_ind; [done|]; rewrite List.last_last; set_solver).
  assert (Hen : e <> n) by (unfold n; destruct l2; [done|cbn; set_solver]).
  split; [done|]. split; [done|]. split; [|done].
  assert (Hnd' : NoDup (lru_ :: l1 ++ l2)).
  { apply NoDup_cons in Hnd as [Ha Hb]. apply NoDup_app in Hb as (Hb & Hc & Hd). apply NoDup_cons in Hd as [_ Hd].
    apply NoDup_cons. split; [set_solver|]. apply NoDup_app. split; [done|]. split; [set_solver|done]. }
  unfold n, p in *. clear Hn Hpv n p.
  destruct l1 as [|p l1 _] using rev_ind; destruct l2 as [|n l2]; cbn [app hd] in *.
  - cbn [List.last path]. by rewrite !lookup_insert_eq.
  - cbn [List.last path] in *. rewrite !lookup_insert_eq. destruct H2 as (_ & _ & H2). split; [done|]. split; [done|].
    eapply path_ext; [| |exact H2]; intros y Hy; apply lookup_insert_ne; apply NoDup_cons in Hnd' as [Ha Hb]; apply NoDup_cons in Hb as [Hb _]; set_solver.
  - rewrite List.last_last in *. rewrite app_nil_r in *. apply links_app in H1 as [H1 _]. rewrite links_app. split.
    + eapply path_ext; [| |exact H1]; intros y Hy; apply lookup_insert_ne; apply NoDup_cons in Hnd' as [Ha Hb]; apply NoDup_app in Hb as (_ & Hb & _); set_solver.
    + cbn [path]. by rewrite !lookup_insert_eq.
  - rewrite List.last_last in *. rewrite <- app_assoc in *. cbn [app] in *. apply links_app in H1 as [H1 _]. destruct H2 as (_ & _ & H2).
    apply NoDup_cons in Hnd' as [Ha Hb]. apply NoDup_app in Hb as (_ & Hb & Hc). apply NoDup_cons in Hc as [Hc Hd]. apply NoDup_cons in Hd as [Hd _].
    rewrite links_app. cbn [path]. rewrite !lookup_insert_eq. split; [|split; [done|split; [done|]]].
    + eapply path_ext; [| |exact H1]; intros y Hy; apply lookup_insert_ne; set_solver.
    + eapply path_ext; [| |exact H2]; intros y Hy; apply lookup_insert_ne; set_solver.
Qed.

(** Putting [e] at the end, as the code orders the writes. *)
Lemma path_append nx pv l e : NoDup (lru_ :: l) -> e <> lru_ -> e ∉ l -> path nx pv lru_ l lru_ ->
  let p := List.last l lru_ in
  pv !! lru_ = Some p /\
  path (<[p := e]> (<[e := lru_]> nx)) (<[lru_ := e]> (<[e := p]> pv)) lru_ (l ++ [e]) lru_ /\ e <> p.
Proof.
  intros Hnd He Hel Hp p. pose proof (path_prev _ _ _ _ _ Hp) as Hpv. fold p in Hpv. split; [done|].
  unfold p in *. clear Hpv p. apply NoDup_cons in Hnd as [Ha Hb].
  destruct l as [|p l _] using rev_ind.
  - cbn [List.last app path] in *. rewrite !lookup_insert_eq, !(lookup_insert_ne _ lru_ e), !lookup_insert_eq by congruence. done.
  - rewrite List.last_last. apply links_app in Hp as [H1 H2]. cbn [path] in H2. apply NoDup_app in Hb as (Hb & Hc & _).
    assert (p <> lru_ /\ p <> e /\ p ∉ l) as (Hp1 & Hp2 & Hp3) by (split; [|split]; set_solver).
    rewrite <- app_assoc. cbn [app]. rewrite links_app. cbn [path].
    rewrite !lookup_insert_eq, !(lookup_insert_ne _ p) by congruence. rewrite ?(lookup_insert_ne _ e), ?(lookup_insert_ne _ lru_), ?lookup_insert_eq by congruence. split; [|done]. split; [|done].
    eapply path_ext; [| |exact H1]; intros y Hy; rewrite !lookup_insert_ne; try done; set_solver.
Qed.

(** ** The hash table *)

Lemma alter_split {A} (f : A -> A) i (l : list A) x : l !! i = Some x -> alter f i l = take i l ++ f x :: drop (S i) l.
Proof.
  revert i. induction l as [|y l IH]; intros [|i] Hx; try done.
  - injection Hx as ->. cbn. by rewrite drop_0.
  - cbn. f_equal. by apply IH.
Qed.

Section TableSpec.
Context {V : Type}.
Implicit Types h : Heap V.

(** The handle has this key and this hash. *)
Definition keyed h (a : nat) (k : bytes) (hs : Z) : Prop := exists e, h !! a = Some e /\ hash e = hs /\ key e = k.

Lemma matches_spec h k hs a : matches h k hs a = true <-> keyed h a k hs.
Proof.
  unfold matches, keyed. destruct (h !! a) as [e|]; [|split; [done|by intros (e & ? & _)]].
  rewrite andb_true_iff, Z.eqb_eq, slice_eq_spec. split.
  - intros [H1 H2]. by exists e.
  - intros (e' & [= <-] & H1 & H2). done.
Qed.

Lemma keyed_fun h a k hs k' hs' : keyed h a k hs -> keyed h a k' hs' -> k = k' /\ hs = hs'.
Proof. intros (e & He & <- & <-) (e' & He' & <- & <-). rewrite He in He'. by injection He' as <-. Qed.

Lemma chain_find_spec h k hs ch :
  match chain_find h k hs ch with
  | Some a => exists l1 l2, ch = l1 ++ a :: l2 /\ keyed h a k hs /\
      (forall e, chain_insert h k hs e ch = l1 ++ e :: l2) /\ chain_remove h k hs ch = l1 ++ l2
  | None => (forall a, a ∈ ch -> ~ keyed h a k hs) /\ (forall e, chain_insert h k hs e ch = ch ++ [e])
  end.
Proof.
  induction ch as [|a ch IH]; cbn [chain_find chain_insert chain_remove]; [split; [set_solver|done]|].
  destruct (matches h k hs a) eqn:E.
  - exists [], ch. split; [done|]. split; [by apply matches_spec|done].
  - assert (Hn : ~ keyed h a k hs) by (rewrite <- matches_spec; congruence).
    destruct (chain_find h k hs ch) as [b|].
    + destruct IH as (l1 & l2 & -> & Hb & Hi & Hr). exists (a :: l1), l2. split; [done|]. split; [done|].
      split; [intros e; by rewrite Hi|by rewrite Hr].
    + destruct IH as [Hnone Hi]. split; [set_solver|]. intros e. by rewrite Hi.
Qed.

Definition power_of_two (n : Z) : Prop := exists k : nat, (2 <= k <= 31)%nat /\ n = 2 ^ Z.of_nat k.

Lemma bucket_of_lt n hs : power_of_two n -> (bucket_of n hs < Z.to_nat n)%nat.
Proof.
  intros (k & Hk & ->). unfold bucket_of. rewrite land_ones_mod by lia.
  pose proof (Z.mod_pos_bound hs (2 ^ Z.of_nat k) ltac:(lia)). lia.
Qed.

Lemma new_length_power fuel n elems : power_of_two n -> n * 2 ^ Z.of_nat fuel <= 2 ^ 31 -> power_of_two (new_length fuel n elems).
Proof.
  revert n. induction fuel as [|fuel IH]; intros n Hn Hle; cbn [new_length]; [done|]. destruct (n <? elems); [|done].
  rewrite Nat2Z.inj_succ, Z.pow_succ_r in Hle by lia. apply IH; [|lia].
  destruct Hn as (k & Hk & ->). exists (S k). rewrite Nat2Z.inj_succ, Z.pow_succ_r by lia. split; [|lia]. split; [lia|].
  assert (2 ^ Z.of_nat k * 2 <= 2 ^ 31).
  { pose proof (Z.pow_pos_nonneg 2 (Z.of_nat fuel) ltac:(lia) ltac:(lia)).
    pose proof (Z.pow_pos_nonneg 2 (Z.of_nat k) ltac:(lia) ltac:(lia)). nia. }
  destruct (decide (S k <= 31)%nat); [done|]. assert (k = 31%nat) by lia. subst k. lia.
Qed.

(** Every handle is in the chain of its hash. *)
Definition chains_ok h (n : Z) (chains : list (list nat)) : Prop :=
  size_of chains = n /\
  forall i ch a, chains !! i = Some ch -> a ∈ ch -> exists e, h !! a = Some e /\ bucket_of n (hash e) = i.

Record table_ok h (t : HandleTable) (l : list nat) : Prop := {
  to_length : power_of_two (length_ t);
  to_elems : elems_ t = size_of l;
  to_chains : chains_ok h (length_ t) (list_ t);
  to_perm : concat (list_ t) ≡ₚ l;
  to_unique a b k hs : a ∈ l -> b ∈ l -> keyed h a k hs -> keyed h b k hs -> a = b
}.

Lemma chains_ok_alter h n chains i f ch : chains_ok h n chains -> chains !! i = Some ch ->
  (forall a, a ∈ f ch -> a ∈ ch \/ exists e, h !! a = Some e /\ bucket_of n (hash e) = i) -> chains_ok h n (alter f i chains).
Proof.
  intros [Hl Hc] Hi Hf. split; [unfold size_of in *; by rewrite length_alter|]. intros j ch' a Hj Ha.
  destruct (decide (i = j)) as [<-|Hne].
  - rewrite list_lookup_alter_eq, Hi in Hj. injection Hj as <-. destruct (Hf a Ha) as [Hin|H]; [by eapply Hc|done].
  - rewrite list_lookup_alter_ne in Hj by done. by eapply Hc.
Qed.

Lemma chain_lookup h t l hs : table_ok h t l -> list_ t !! bucket_of (length_ t) hs = Some (chain t hs).
Proof.
  intros [Hl _ _ _ _]. pose proof (bucket_of_lt _ hs Hl) as Hb. unfold chain. destruct (lookup_lt_is_Some_2 (list_ t) (bucket_of (length_ t) hs)) as [ch Hch].
  { unfold length_, size_of in *. lia. }
  rewrite Hch. by rewrite (nth_lookup_Some _ _ _ _ Hch).
Qed.

Lemma concat_middle {A} (chains : list (list A)) i ch : chains !! i = Some ch ->
  concat chains = concat (take i chains) ++ ch ++ concat (drop (S i) chains).
Proof. intros Hi. rewrite <- (take_drop_middle chains i ch Hi) at 1. by rewrite concat_app. Qed.

Lemma concat_alter {A} (chains : list (list A)) f i ch : chains !! i = Some ch ->
  concat (alter f i chains) = concat (take i chains) ++ f ch ++ concat (drop (S i) chains).
Proof. intros Hi. rewrite (alter_split f i chains ch Hi), concat_app. done. Qed.

Lemma in_chain h t l a k hs : table_ok h t l -> a ∈ l -> keyed h a k hs -> a ∈ chain t hs.
Proof.
  intros Ht Ha (e & He & Hh & _). pose proof Ht as [_ _ [_ Hc] Hp _]. rewrite <- Hp in Ha.
  apply list_elem_of_In, in_concat in Ha as (ch & Hch%list_elem_of_In & Hin%list_elem_of_In).
  apply list_elem_of_lookup in Hch as [i Hi]. destruct (Hc i ch a Hi Hin) as (e' & He' & Hb). rewrite He in He'. injection He' as <-.
  rewrite Hh in Hb. subst i. rewrite (chain_lookup h t l hs Ht) in Hi. by injection Hi as ->.
Qed.

Lemma Table_Lookup_spec h t l k hs : table_ok h t l ->
  match Table_Lookup h k hs t with
  | Some a => a ∈ l /\ keyed h a k hs
  | None => forall a, a ∈ l -> ~ keyed h a k hs
  end.
Proof.
  intros Ht. unfold Table_Lookup. pose proof (chain_find_spec h k hs (chain t hs)) as Hf. destruct (chain_find _ _ _ _) as [a|].
  - destruct Hf as (l1 & l2 & E & Hk & _). split; [|done]. rewrite <- (to_perm _ _ _ Ht).
    rewrite (concat_middle _ _ _ (chain_lookup h t l hs Ht)), E. set_solver.
  - intros a Ha Hk. apply (proj1 Hf a); [|done]. by eapply in_chain.
Qed.
End TableSpec.

Section TableUpdate.
Context {V : Type}.
Implicit Types h : Heap V.

Lemma table_ok_perm h t l l' : l ≡ₚ l' -> table_ok h t l -> table_ok h t l'.
Proof.
  intros Hl [H1 H2 H3 H4 H5]. split; [done| |done|by rewrite H4|].
  - rewrite H2. unfold size_of. by rewrite Hl.
  - intros a b k hs Ha Hb. apply H5; by rewrite Hl.
Qed.

(** What the table sees of the handles. *)
Definition same_keys h h' (l : list nat) : Prop := forall a, a ∈ l -> forall k hs, keyed h' a k hs <-> keyed h a k hs.

Lemma table_ok_ext h h' t l : same_keys h h' l -> table_ok h t l -> table_ok h' t l.
Proof.
  intros Hs [H1 H2 [H3 H3'] H4 H5]. split; [done|done| |done|].
  - split; [done|]. intros i ch a Hi Ha. destruct (H3' i ch a Hi Ha) as (e & He & Hb).
    assert (Hal : a ∈ l). { rewrite <- H4. apply list_elem_of_In, in_concat. exists ch. split; apply list_elem_of_In; [by eapply list_elem_of_lookup_2|done]. }
    assert (Hk : keyed h' a (key e) (hash e)) by (apply (Hs a Hal); by exists e). destruct Hk as (e' & He' & Hh & _). exists e'. by rewrite Hh.
  - intros a b k hs Ha Hb Ka Kb. apply (H5 a b k hs Ha Hb); by apply Hs.
Qed.

Lemma fold_concat {A B} (f : B -> A -> B) (ls : list (list A)) (b : B) : fold_left (fun b l => fold_left f l b) ls b = fold_left f (concat ls) b.
Proof. revert b. induction ls as [|l ls IH]; intros b; [done|]. cbn. rewrite IH. symmetry. apply fold_left_app. Qed.

Lemma rehash_fold h n (l : list nat) chains : power_of_two n -> (forall a, a ∈ l -> is_Some (h !! a)) -> chains_ok h n chains ->
  chains_ok h n (fold_left (rehash h n) l chains) /\ concat (fold_left (rehash h n) l chains) ≡ₚ l ++ concat chains.
Proof.
  intros Hn. revert chains. induction l as [|a l IH]; intros chains Hl Hc; [done|]. cbn [fold_left].
  destruct (Hl a ltac:(left)) as [e He]. assert (Hb : hash_of h a = hash e) by (unfold hash_of; by rewrite He).
  pose proof (bucket_of_lt n (hash e) Hn) as Hlt. destruct (lookup_lt_is_Some_2 chains (bucket_of n (hash e))) as [ch Hch].
  { destruct Hc as [Hc _]. unfold size_of in Hc. lia. }
  assert (Hc' : chains_ok h n (rehash h n chains a)).
  { unfold rehash. rewrite Hb. eapply chains_ok_alter; [done|done|]. intros b [->|Hin]%elem_of_cons; [right; eauto|by left]. }
  destruct (IH _ (fun b Hb => Hl b ltac:(by right)) Hc') as [H1 H2]. split; [done|]. rewrite H2.
  unfold rehash. rewrite Hb, (concat_alter _ _ _ _ Hch), (concat_middle _ _ _ Hch). cbn [app]. solve_Permutation.
Qed.

Lemma concat_empty {A} n : concat (replicate n (@nil A)) = [].
Proof. by induction n. Qed.

Lemma power_of_two_4 : power_of_two 4.
Proof. exists 2%nat. split; [lia|done]. Qed.

Lemma Resize_spec h t l : size_of l <= 2 ^ 31 -> (forall a, a ∈ l -> is_Some (h !! a)) -> elems_ t = size_of l -> concat (list_ t) ≡ₚ l ->
  (forall a b k hs, a ∈ l -> b ∈ l -> keyed h a k hs -> keyed h b k hs -> a = b) -> table_ok h (Resize h t) l.
Proof.
  intros Hs Hl He Hp Hu. unfold Resize. set (n := new_length 29 4 (elems_ t)).
  assert (Hn : power_of_two n) by (apply new_length_power; [apply power_of_two_4|vm_compute; congruence]).
  rewrite fold_concat. destruct (rehash_fold h n (concat (list_ t)) (replicate (Z.to_nat n) [])) as [H1 H2]; [done|intros a; rewrite Hp; apply Hl| |].
  { split; [unfold size_of; rewrite length_replicate; destruct Hn as (k & _ & ->); lia|]. intros i ch a Hi Ha.
    apply lookup_replicate in Hi as [-> _]. by apply not_elem_of_nil in Ha. }
  assert (E : forall x, length_ (mkTable x (fold_left (rehash h n) (concat (list_ t)) (replicate (Z.to_nat n) []))) = n) by (intros x; exact (proj1 H1)).
  split; rewrite ?E; try done. cbn [list_]. rewrite H2, concat_empty, app_nil_r. done.
Qed.

Lemma table_members h t l a : table_ok h t l -> a ∈ l -> is_Some (h !! a).
Proof.
  intros [_ _ [_ Hc] Hp _] Ha. rewrite <- Hp in Ha. apply list_elem_of_In, in_concat in Ha as (ch & Hch%list_elem_of_In & Hin%list_elem_of_In).
  apply list_elem_of_lookup in Hch as [i Hi]. destruct (Hc i ch a Hi Hin) as (e & He & _). eauto.
Qed.

Lemma HandleTable_make_ok h : table_ok h (HandleTable_make (V := V)) [].
Proof.
  apply (table_ok_ext ∅ h); [intros a Ha; by apply not_elem_of_nil in Ha|]. unfold HandleTable_make. apply Resize_spec; [done|intros a Ha; by apply not_elem_of_nil in Ha|done|done|].
  intros a b k hs Ha. by apply not_elem_of_nil in Ha.
Qed.

Lemma Table_Remove_spec h t l1 a l2 k hs : table_ok h t (l1 ++ a :: l2) -> NoDup (l1 ++ a :: l2) -> keyed h a k hs ->
  size_of (l1 ++ a :: l2) < 2 ^ 32 ->
  exists t', Table_Remove h k hs t = (Some a, t') /\ table_ok h t' (l1 ++ l2).
Proof.
  intros Ht Hnd Hk Hs. unfold Table_Remove. pose proof (Table_Lookup_spec h t _ k hs Ht) as Hl. unfold Table_Lookup in *.
  pose proof (chain_find_spec h k hs (chain t hs)) as Hf. destruct (chain_find _ _ _ _) as [b|]; [|exfalso; apply (Hl a); [set_solver|done]].
  destruct Hl as [Hb Hkb]. assert (b = a) as -> by (apply (to_unique _ _ _ Ht b a k hs); [done|set_solver|done|done]).
  eexists. split; [reflexivity|]. destruct Hf as (c1 & c2 & Ec & _ & _ & Er). pose proof (chain_lookup h t _ hs Ht) as Hch.
  pose proof Ht as [H1 H2 H3 H4 H5].
  assert (E : forall x f, length_ (mkTable x (alter f (bucket_of (length_ t) hs) (list_ t))) = length_ t) by (intros x f; unfold length_, size_of; cbn [list_]; by rewrite length_alter).
  split; rewrite ?E; [done| | | |].
  - cbn [elems_]. rewrite H2. unfold size_of in *. rewrite !length_app in *. cbn [length] in *. rewrite u32_small by lia. lia.
  - eapply chains_ok_alter; [done|done|]. rewrite Er, Ec. intros b Hb'. left. set_solver.
  - cbn [list_]. rewrite (concat_alter _ _ _ _ Hch), Er. rewrite (concat_middle _ _ _ Hch), Ec in H4.
    apply (Permutation_cons_inv (a := a)). transitivity (l1 ++ a :: l2); [rewrite <- H4|]; solve_Permutation.
  - intros x y k' hs' Hx Hy. apply H5; set_solver.
Qed.

Lemma Table_Insert_spec h t l e k hs : table_ok h t l -> NoDup l -> e ∉ l -> keyed h e k hs -> size_of l < 2 ^ 31 ->
  match Table_Insert h e k hs t with
  | (Some o, t') => exists l1 l2, l = l1 ++ o :: l2 /\ keyed h o k hs /\ table_ok h t' ((l1 ++ l2) ++ [e])
  | (None, t') => (forall a, a ∈ l -> ~ keyed h a k hs) /\ table_ok h t' (l ++ [e])
  end.
Proof.
  intros Ht Hnd He Hk Hs. unfold Table_Insert. pose proof (Table_Lookup_spec h t _ k hs Ht) as Hl. unfold Table_Lookup in *.
  pose proof (chain_find_spec h k hs (chain t hs)) as Hf. pose proof (chain_lookup h t _ hs Ht) as Hch. pose proof Ht as [H1 H2 H3 H4 H5].
  assert (E : forall x f, length_ (mkTable x (alter f (bucket_of (length_ t) hs) (list_ t))) = length_ t) by (intros x f; unfold length_, size_of; cbn [list_]; by rewrite length_alter).
  assert (Hbe : exists e', h !! e = Some e' /\ bucket_of (length_ t) (hash e') = bucket_of (length_ t) hs) by (destruct Hk as (e' & He' & <- & _); eauto).
  destruct (chain_find h k hs (chain t hs)) as [o|].
  - destruct Hl as [Ho Hko]. apply list_elem_of_split in Ho as (l1 & l2 & ->). exists l1, l2. split; [done|]. split; [done|].
    destruct Hf as (c1 & c2 & Ec & _ & Ei & _). specialize (Ei e).
    assert (Hx : forall x, x ∈ (l1 ++ l2) ++ [e] -> x = e \/ x ∈ l1 ++ o :: l2 /\ x <> o).
    { intros x Hx. apply elem_of_app in Hx as [Hx|Hx]; [right|left; set_solver]. split; [set_solver|]. intros ->. apply NoDup_app in Hnd as (_ & Hd & Hn).
      apply NoDup_cons in Hn as [Hn _]. apply elem_of_app in Hx as [Hx|Hx]; [|done]. by apply (Hd o Hx); left. }
    split; rewrite ?E; [done| | | |].
    + cbn [elems_]. rewrite H2. unfold size_of. rewrite !length_app. cbn [length]. lia.
    + eapply chains_ok_alter; [done|done|]. rewrite Ei, Ec. intros b Hb. apply elem_of_app in Hb as [Hb|[->|Hb]%elem_of_cons]; [left; set_solver|by right|left; set_solver].
    + cbn [list_]. rewrite (concat_alter _ _ _ _ Hch), Ei. rewrite (concat_middle _ _ _ Hch), Ec in H4.
      apply (Permutation_cons_inv (a := o)). transitivity (e :: (l1 ++ o :: l2)); [rewrite <- H4|]; solve_Permutation.
    + intros x y k' hs' Hxl Hyl Kx Ky. destruct (Hx x Hxl) as [->|[Hx1 Hx2]], (Hx y Hyl) as [->|[Hy1 Hy2]]; [done| | |by apply (H5 x y k' hs')].
      * destruct (keyed_fun _ _ _ _ _ _ Hk Kx) as [<- <-]. exfalso. apply Hy2. by apply (H5 y o k hs); [|set_solver|done|done].
      * destruct (keyed_fun _ _ _ _ _ _ Hk Ky) as [<- <-]. exfalso. apply Hx2. by apply (H5 x o k hs); [|set_solver|done|done].
  - destruct Hf as [_ Ei]. specialize (Ei e). set (t1 := mkTable (u32 (elems_ t + 1)) _).
    assert (H0 : elems_ t1 = size_of (l ++ [e])). { cbn. rewrite H2. unfold size_of in *. rewrite length_app. cbn [length]. rewrite u32_small by lia. lia. }
    assert (Hp : concat (list_ t1) ≡ₚ l ++ [e]).
    { cbn [list_ t1]. rewrite (concat_alter _ _ _ _ Hch), Ei. rewrite (concat_middle _ _ _ Hch) in H4. rewrite <- H4. solve_Permutation. }
    assert (Hu : forall a b k' hs', a ∈ l ++ [e] -> b ∈ l ++ [e] -> keyed h a k' hs' -> keyed h b k' hs' -> a = b).
    { intros x y k' hs' Hx Hy Kx Ky. apply elem_of_app in Hx as [Hx|Hx%list_elem_of_singleton], Hy as [Hy|Hy%list_elem_of_singleton]; subst.
      - by apply (H5 x y k' hs').
      - destruct (keyed_fun _ _ _ _ _ _ Hk Ky) as [<- <-]. by destruct (Hl x Hx).
      - destruct (keyed_fun _ _ _ _ _ _ Hk Kx) as [<- <-]. by destruct (Hl y Hy).
      - done. }
    destruct (elems_ t1 >? length_ t1).
    + split; [done|]. apply Resize_spec; try done; [unfold size_of in *; rewrite length_app; cbn [length]; lia|]. intros a Ha. apply elem_of_app in Ha as [Ha|Ha%list_elem_of_singleton]; [by eapply table_members|].
      subst a. destruct Hk as (? & ? & _). eauto.
    + split; [done|]. assert (E1 : length_ t1 = length_ t) by exact (E 0 (chain_insert h k hs e)).
      split; [by rewrite E1|done| |done|done]. rewrite E1. cbn [list_ t1]. eapply chains_ok_alter; [done|done|]. rewrite Ei. intros b Hb. apply elem_of_app in Hb as [Hb|Hb%list_elem_of_singleton]; [by left|subst; by right].
Qed.
End TableUpdate.

(** ** What a shard promises

    The entries that are in memory, those of the list from the oldest to the newest, and
    the handles that callers hold. *)

Section LRUSpec.
Context {V : Type}.

Record Entry : Type := mkEntry { e_key : bytes; e_hash : Z; e_value : V; e_charge : Z }.

Record LRU : Type := mkSpec { order : list nat; entries : gmap nat Entry; held : list nat; cap : Z }.

Definition set_order (l : list nat) (s : LRU) : LRU := mkSpec l (entries s) (held s) (cap s).
Definition set_held (l : list nat) (s : LRU) : LRU := mkSpec (order s) (entries s) l (cap s).
Definition set_entries (m : gmap nat Entry) (s : LRU) : LRU := mkSpec (order s) m (held s) (cap s).

Definition spec_usage (s : LRU) : Z := usize (map_fold (fun _ e n => e_charge e + n) 0 (entries s)).

Definition has (s : LRU) (k : bytes) (hs : Z) (a : nat) : bool :=
  match entries s !! a with Some e => (e_hash e =? hs) && slice_eq k (e_key e) | None => false end.
Definition spec_find (k : bytes) (hs : Z) (s : LRU) : option nat := find (has s k hs) (order s).

Definition without (a : nat) (l : list nat) : list nat := filter (fun b => b <> a) l.

(** An entry that is neither in the list nor held goes, and its deleter runs. *)
Definition collect (a : nat) (s : LRU) : list (bytes * V) * LRU :=
  if decide (a ∈ order s \/ a ∈ held s) then ([], s)
  else match entries s !! a with
       | Some e => ([(e_key e, e_value e)], set_entries (delete a (entries s)) s)
       | None => ([], s)
       end.

Definition spec_drop (a : nat) (s : LRU) : list (bytes * V) * LRU := collect a (set_order (without a (order s)) s).

Fixpoint remove_one (a : nat) (l : list nat) : list nat :=
  match l with
  | [] => []
  | b :: l => if decide (a = b) then l else b :: remove_one a l
  end.

Definition spec_release (a : nat) (s : LRU) : list (bytes * V) * LRU := collect a (set_held (remove_one a (held s)) s).

Definition spec_lookup (k : bytes) (hs : Z) (s : LRU) : option nat * LRU :=
  match spec_find k hs s with
  | None => (None, s)
  | Some a => (Some a, mkSpec (without a (order s) ++ [a]) (entries s) (a :: held s) (cap s))
  end.

Definition spec_erase (k : bytes) (hs : Z) (s : LRU) : list (bytes * V) * LRU :=
  match spec_find k hs s with
  | None => ([], s)
  | Some a => spec_drop a s
  end.

(** From the oldest on, while the shard is over its capacity. *)
Fixpoint spec_evict (l : list nat) (s : LRU) : list (bytes * V) * LRU :=
  match l with
  | [] => ([], s)
  | a :: l =>
      if spec_usage s >? cap s then
        let '(d, s) := spec_drop a s in let '(ds, s) := spec_evict l s in (d ++ ds, s)
      else ([], s)
  end.

Definition spec_insert (a : nat) (k : bytes) (hs : Z) (v : V) (charge : Z) (s : LRU) : list (bytes * V) * LRU :=
  let old := spec_find k hs s in
  let s := mkSpec (order s ++ [a]) (<[a := mkEntry k hs v charge]> (entries s)) (a :: held s) (cap s) in
  let '(d, s) := match old with Some o => spec_drop o s | None => ([], s) end in
  let '(ds, s) := spec_evict (order s) s in (d ++ ds, s).

(** The entries of the list that nobody holds go. *)
Fixpoint spec_prune (l : list nat) (s : LRU) : list (bytes * V) * LRU :=
  match l with
  | [] => ([], s)
  | a :: l =>
      let '(d, s) := if decide (a ∈ held s) then ([], s) else spec_drop a s in
      let '(ds, s) := spec_prune l s in (d ++ ds, s)
  end.

Definition entry_of (e : LRUHandle V) : Entry := mkEntry (key e) (hash e) (value e) (charge e).

Definition count (l : list nat) (a : nat) : Z := Z.of_nat (count_occ Nat.eq_dec l a).

(** The shard's references: one of the list, one of every handle held. *)
Definition references (s : LRU) (a : nat) : Z := (if decide (a ∈ order s) then 1 else 0) + count (held s) a.

(** [lt] are the handles in the table. *)
Record represents (c : LRUCache V) (lt : list nat) (s : LRU) : Prop := {
  re_path : path (next c) (prev c) lru_ (order s) lru_;
  re_order : NoDup (lru_ :: order s);
  re_table : table_ok (handles c) (table_ c) lt;
  re_nodup : NoDup lt;
  re_listed a : a ∈ lt -> a ∈ order s \/ a ∈ held s;
  re_entries : entries s = entry_of <$> handles c;
  re_refs a e : handles c !! a = Some e -> refs e = references s a /\ 0 < refs e < 2 ^ 32;
  re_live a : a ∈ order s \/ a ∈ held s -> is_Some (handles c !! a);
  re_links a : is_Some (handles c !! a) -> is_Some (next c !! a) /\ a <> lru_;
  re_usage : usage_ c = spec_usage s;
  re_capacity : capacity_ c = cap s
}.

Lemma without_absent a l : a ∉ l -> without a l = l.
Proof.
  intros Ha. induction l as [|b l IH]; [done|]. apply not_elem_of_cons in Ha as [Hb Ha]. unfold without in *.
  rewrite filter_cons_True by congruence. by rewrite IH.
Qed.

Lemma without_split a l1 l2 : NoDup (l1 ++ a :: l2) -> without a (l1 ++ a :: l2) = l1 ++ l2.
Proof.
  intros (_ & Hd & [Ha _]%NoDup_cons)%NoDup_app. assert (a ∉ l1) by (intros Hx; apply (Hd a Hx); left).
  pose proof (without_absent a l1) as H1. pose proof (without_absent a l2 Ha) as H2. unfold without in *.
  rewrite filter_app, filter_cons_False by tauto. by rewrite H1, H2.
Qed.

Lemma elem_of_without a b l : b ∈ without a l <-> b ∈ l /\ b <> a.
Proof. unfold without. rewrite list_elem_of_filter. tauto. Qed.

Lemma count_cons a l b : count (a :: l) b = (if decide (a = b) then 1 else 0) + count l b.
Proof. unfold count. cbn [count_occ]. destruct (Nat.eq_dec a b), (decide (a = b)); try done; lia. Qed.

Lemma count_pos l a : 0 < count l a <-> a ∈ l.
Proof. unfold count. rewrite list_elem_of_In, (count_occ_In Nat.eq_dec). lia. Qed.

Lemma count_nonneg l a : 0 <= count l a <= size_of l.
Proof. unfold count, size_of. pose proof (count_occ_bound Nat.eq_dec a l). lia. Qed.

Lemma remove_one_spec a l : a ∈ l -> forall b, count (a :: remove_one a l) b = count l b.
Proof.
  induction l as [|x l IH]; intros Ha b; [by apply not_elem_of_nil in Ha|]. cbn [remove_one]. destruct (decide (a = x)) as [->|Hne]; [done|].
  apply elem_of_cons in Ha as [?|Ha]; [done|]. specialize (IH Ha b). rewrite !count_cons in *. lia.
Qed.

Lemma length_remove_one a l : a ∈ l -> length l = S (length (remove_one a l)).
Proof.
  induction l as [|x l IH]; intros Ha; [by apply not_elem_of_nil in Ha|]. cbn [remove_one]. destruct (decide (a = x)) as [->|Hne]; [done|].
  apply elem_of_cons in Ha as [?|Ha]; [done|]. cbn. by rewrite <- IH.
Qed.

Lemma elem_of_count l l' a : count l a = count l' a -> a ∈ l <-> a ∈ l'.
Proof. intros H. by rewrite <- !count_pos, H. Qed.

(** [held] only matters up to order. *)
Lemma represents_held c lt s l : represents c lt s -> (forall a, count l a = count (held s) a) ->
  represents c lt (set_held l s).
Proof.
  intros [] Hc. split; try done.
  - intros a Ha. cbn. rewrite (elem_of_count _ _ _ (Hc a)). by apply re_listed0.
  - intros a e He. unfold references. cbn. rewrite Hc. by apply re_refs0.
  - intros a Ha. apply re_live0. cbn in Ha. by rewrite <- (elem_of_count _ _ _ (Hc a)).
Qed.

Lemma usage_delete a e (m : gmap nat Entry) : m !! a = Some e ->
  map_fold (fun _ e n => e_charge e + n) 0 m = e_charge e + map_fold (fun _ e n => e_charge e + n) 0 (delete a m).
Proof. intros H. apply (map_fold_delete_L (fun _ e n => e_charge e + n)); [intros; lia|done]. Qed.

Lemma usage_insert a e (m : gmap nat Entry) : m !! a = None ->
  map_fold (fun _ e n => e_charge e + n) 0 (<[a := e]> m) = e_charge e + map_fold (fun _ e n => e_charge e + n) 0 m.
Proof. intros H. apply (map_fold_insert_L (fun _ e n => e_charge e + n)); [intros; lia|done]. Qed.
End LRUSpec.
Arguments Entry : clear implicits.
Arguments LRU : clear implicits.

(** ** The shard keeps its promise *)

Section Refinement.
Context {V : Type}.
Implicit Types (c : LRUCache V) (s : LRU V).

Lemma entry_lookup c lt s a e : represents c lt s -> handles c !! a = Some e -> entries s !! a = Some (entry_of e).
Proof. intros Hr He. by rewrite (re_entries _ _ _ Hr), lookup_fmap, He. Qed.

Lemma has_keyed c lt s k hs a : represents c lt s -> has s k hs a = true <-> keyed (handles c) a k hs.
Proof.
  intros Hr. rewrite <- matches_spec. unfold has, matches. rewrite (re_entries _ _ _ Hr), lookup_fmap.
  by destruct (handles c !! a).
Qed.

(** [Unref], where the reference that goes is one of [held]. *)
Lemma Unref_spec c lt s a l : represents c lt s -> held s = a :: l -> (a ∈ lt -> a ∈ order s \/ a ∈ l) ->
  exists c', Unref a c = (fst (collect a (set_held l s)), c') /\ represents c' lt (snd (collect a (set_held l s))).
Proof.
  intros Hr Hh Hlt. pose proof Hr as [H1 H2 H3 H4 H5 H6 H7 H8 H9 H10 H11].
  destruct (H8 a) as [e He]; [right; rewrite Hh; left|]. destruct (H7 a e He) as [Hrefs Hpos].
  assert (Hra : references s a = references (set_held l s) a + 1).
  { unfold references. cbn. rewrite Hh, count_cons, (decide_True (P := a = a)) by done. lia. }
  assert (Hrb : forall b, b <> a -> references s b = references (set_held l s) b).
  { intros b Hne. unfold references. cbn. rewrite Hh, count_cons, (decide_False (P := a = b)) by congruence. lia. }
  assert (Hin : (a ∈ order s \/ a ∈ l) <-> 0 < references (set_held l s) a).
  { unfold references. cbn. pose proof (count_pos l a). pose proof (count_nonneg l a). destruct (decide (a ∈ order s)); intuition lia. }
  assert (Hu : u32 (refs e - 1) = references (set_held l s) a) by (rewrite u32_small; lia).
  unfold Unref, collect. rewrite He. cbn [refs set_refs key value charge order held set_held entries]. rewrite Hu. destruct (decide _) as [Hd|Hd].
  - rewrite (proj2 (Z.leb_gt _ _)) by (by apply Hin). eexists. split; [reflexivity|]. cbn [fst snd]. split; try done.
    + eapply table_ok_ext; [|exact H3]. intros b _ k hs. unfold keyed. cbn [handles]. destruct (decide (b = a)) as [->|Hne].
      * rewrite lookup_insert_eq, He. split; intros (? & [= <-] & ? & ?); (eexists; split; [reflexivity|done]).
      * by rewrite lookup_insert_ne by done.
    + intros b Hb. cbn. destruct (decide (b = a)) as [->|Hne]; [by apply Hlt|]. apply H5 in Hb. rewrite Hh in Hb. set_solver.
    + cbn. rewrite H6. apply map_eq. intros b. rewrite !lookup_fmap. destruct (decide (b = a)) as [->|Hne]; [by rewrite lookup_insert_eq, He|by rewrite lookup_insert_ne].
    + intros b e' He'. cbn [handles] in He'. destruct (decide (b = a)) as [->|Hne].
      * rewrite lookup_insert_eq in He'. injection He' as <-. cbn [refs set_refs]. split; [done|]. split; [by apply Hin|lia].
      * rewrite lookup_insert_ne in He' by done. rewrite <- Hrb by done. by apply H7.
    + intros b Hb'. cbn [handles]. apply lookup_insert_is_Some'. right. apply H8. cbn in Hb'. rewrite Hh. set_solver.
    + intros b Hb'. cbn [handles next] in *. apply lookup_insert_is_Some' in Hb' as [<-|Hb']; [apply H9; eauto|by apply H9].
  - assert (H0 : references (set_held l s) a = 0).
    { assert (~ 0 < references (set_held l s) a) by (rewrite <- Hin; exact Hd). unfold references in *. pose proof (count_nonneg (held (set_held l s)) a). destruct (decide (a ∈ order (set_held l s))); lia. }
    assert (Ha : a ∉ order s /\ a ∉ l) by tauto. rewrite (proj2 (Z.leb_le _ _)) by lia. rewrite (entry_lookup _ _ _ _ _ Hr He).
    eexists. split; [reflexivity|]. cbn [fst snd]. split; try done.
    + eapply path_ext; [| |exact H1]; intros y Hy; cbn [next prev]; apply lookup_delete_ne; intros <-;
        (destruct Hy as [Hy|Hy]; [subst; by destruct (proj2 (H9 lru_ ltac:(eauto)))|tauto]).
    + eapply table_ok_ext; [|exact H3]. intros b Hb' k hs. unfold keyed. cbn [handles]. by rewrite lookup_delete_ne by (intros ->; apply Hlt in Hb'; tauto).
    + intros b Hb. cbn. destruct (decide (b = a)) as [->|Hne]; [by apply Hlt|]. apply H5 in Hb. rewrite Hh in Hb. set_solver.
    + cbn. by rewrite H6, fmap_delete.
    + intros b e' He'. cbn [handles] in He'. apply lookup_delete_Some in He' as [Hne He']. cbn. change (references (set_entries _ _) b) with (references (set_held l s) b).
      rewrite <- Hrb by done. by apply H7.
    + intros b Hb'. cbn [handles order held set_entries set_held] in *. rewrite lookup_delete_ne by (intros ->; tauto). apply H8. rewrite Hh. set_solver.
    + intros b Hb'. cbn [handles next] in *. destruct (decide (b = a)) as [->|Hne]; [rewrite lookup_delete_eq in Hb'; by destruct Hb'|].
      rewrite lookup_delete_ne in Hb' by congruence. rewrite lookup_delete_ne by congruence. by apply H9.
    + cbn. rewrite H10. unfold spec_usage. cbn. rewrite (usage_delete a (entry_of e)) by (by apply (entry_lookup c lt)). cbn [e_charge entry_of].
      unfold usize. rewrite Zminus_mod_idemp_l. f_equal. lia.
Qed.
(** [LRU_Remove]: the list's reference becomes one that the caller drops. *)
Lemma LRU_Remove_spec c lt s a : represents c lt s -> a ∈ order s ->
  represents (LRU_Remove a c) lt (mkSpec (without a (order s)) (entries s) (a :: held s) (cap s)).
Proof.
  intros Hr Ha. pose proof Hr as [H1 H2 H3 H4 H5 H6 H7 H8 H9 H10 H11].
  destruct (list_elem_of_split _ _ Ha) as (l1 & l2 & E). rewrite E in H1, H2. destruct (path_unlink _ _ _ _ _ H2 H1) as (Hn & Hp & Hpath & Hap & Han).
  rewrite E, without_split by (by apply NoDup_cons in H2 as [_ H2]). unfold LRU_Remove, next_of, prev_of. rewrite Hn, Hp. cbn [default from_option id].
  rewrite lookup_insert_ne, Hp by congruence. cbn [default from_option id].
  assert (Hm : forall b, b ∈ l1 ++ l2 <-> b ∈ order s /\ b <> a).
  { intros b. rewrite <- elem_of_without, E, without_split; [done|]. by apply NoDup_cons in H2 as [_ H2]. }
  assert (Hr' : forall b, references (mkSpec (l1 ++ l2) (entries s) (a :: held s) (cap s)) b = references s b).
  { intros b. unfold references. cbn [order held]. rewrite count_cons. pose proof (Hm b). destruct (decide (b ∈ l1 ++ l2)), (decide (b ∈ order s)), (decide (a = b)); subst; try lia; naive_solver. }
  split; cbn [order entries held cap set_links handles table_ next prev usage_ capacity_]; try done.
  - apply NoDup_cons in H2 as [Hb Hc]. apply NoDup_cons. split; [set_solver|]. apply NoDup_app in Hc as (Hc & Hd & [_ Hf]%NoDup_cons).
    apply NoDup_app. split; [done|]. split; [set_solver|done].
  - intros b Hb. rewrite Hm. destruct (decide (b = a)) as [->|Hne]; [right; left|]. apply H5 in Hb. set_solver.
  - intros b e He. rewrite Hr'. by apply H7.
  - intros b Hb. apply H8. set_solver.
  - intros b Hb. destruct (H9 b Hb) as [Hx Hy]. split; [|done]. by apply lookup_insert_is_Some'; right.
Qed.

Lemma drop_spec c lt s a : represents c lt s -> a ∈ order s -> a ∉ lt ->
  exists c', Unref a (LRU_Remove a c) = (fst (spec_drop a s), c') /\ represents c' lt (snd (spec_drop a s)).
Proof.
  intros Hr Ha Hlt. destruct (Unref_spec _ _ _ a (held s) (LRU_Remove_spec _ _ _ _ Hr Ha) eq_refl ltac:(done)) as (c' & E & Hc').
  exists c'. by destruct s.
Qed.

(** [LRU_Append] of a handle that is not in the list takes over one of the references. *)
Lemma LRU_Append_spec c lt s a l : represents c lt s -> a ∉ order s -> held s = a :: l ->
  represents (LRU_Append a c) lt (mkSpec (order s ++ [a]) (entries s) l (cap s)).
Proof.
  intros Hr Ha Hh. pose proof Hr as [H1 H2 H3 H4 H5 H6 H7 H8 H9 H10 H11].
  destruct (H8 a) as [e He]; [right; rewrite Hh; left|]. destruct (H9 a ltac:(eauto)) as [_ Hal].
  destruct (path_append _ _ _ a H2 Hal Ha H1) as (Hp & Hpath & Hap). unfold LRU_Append, next_of, prev_of. rewrite Hp. cbn [default from_option id].
  rewrite lookup_insert_ne, lookup_insert_eq by congruence. cbn [default from_option id].
  assert (Hr' : forall b, references (mkSpec (order s ++ [a]) (entries s) l (cap s)) b = references s b).
  { intros b. unfold references. cbn [order held]. rewrite Hh, count_cons. assert (b ∈ order s ++ [a] <-> b ∈ order s \/ a = b) by set_solver.
    destruct (decide (b ∈ order s ++ [a])), (decide (b ∈ order s)), (decide (a = b)); subst; try lia; naive_solver. }
  split; cbn [order entries held cap set_links handles table_ next prev usage_ capacity_]; try done.
  - apply NoDup_cons in H2 as [Hb Hc]. apply NoDup_cons. split; [set_solver|]. apply NoDup_app. split; [done|]. split; [set_solver|apply NoDup_singleton].
  - intros b Hb. apply H5 in Hb. rewrite Hh in Hb. set_solver.
  - intros b e' He'. rewrite Hr'. by apply H7.
  - intros b Hb. apply H8. rewrite Hh. set_solver.
  - intros b Hb. destruct (H9 b Hb) as [Hx Hy]. split; [|done]. rewrite !lookup_insert_is_Some'. tauto.
Qed.
End Refinement.

Section Operations.
Context {V : Type}.
Implicit Types (c : LRUCache V) (s : LRU V).

(** Between operations the table holds the list. *)
Definition shard_ok c s : Prop := represents c (order s) s.

Lemma find_first {A} (f : A -> bool) l1 a l2 : (forall x, x ∈ l1 -> f x = false) -> f a = true -> find f (l1 ++ a :: l2) = Some a.
Proof. intros H1 Ha. induction l1 as [|x l1 IH]; cbn; [by rewrite Ha|]. rewrite (H1 x) by left. apply IH. intros y Hy. apply H1. by right. Qed.

Lemma find_nothing {A} (f : A -> bool) l : (forall x, x ∈ l -> f x = false) -> find f l = None.
Proof. intros H. induction l as [|x l IH]; [done|]. cbn. rewrite (H x) by left. apply IH. intros y Hy. apply H. by right. Qed.

Lemma spec_find_keyed c lt s k hs a : represents c lt s -> lt ≡ₚ order s -> a ∈ order s -> keyed (handles c) a k hs -> spec_find k hs s = Some a.
Proof.
  intros Hr Hp Ha Hk. unfold spec_find. destruct (find (has s k hs) (order s)) as [b|] eqn:E.
  - apply find_some in E as [Hb%list_elem_of_In Hh]. rewrite (has_keyed _ _ _ _ _ _ Hr) in Hh. f_equal.
    apply (to_unique _ _ _ (re_table _ _ _ Hr) b a k hs); rewrite ?Hp; done.
  - pose proof (find_none _ _ E a (proj1 (list_elem_of_In _ _) Ha)) as Hh. apply (has_keyed _ _ _ _ _ _ Hr) in Hk. congruence.
Qed.

Lemma spec_find_none c lt s k hs : represents c lt s -> (forall a, a ∈ order s -> ~ keyed (handles c) a k hs) -> spec_find k hs s = None.
Proof.
  intros Hr Hn. apply find_nothing. intros a Ha. apply not_true_is_false. rewrite (has_keyed _ _ _ _ _ _ Hr). by apply Hn.
Qed.

Lemma represents_table c lt lt' s t : represents c lt s -> table_ok (handles c) t lt' -> NoDup lt' -> (forall a, a ∈ lt' -> a ∈ order s \/ a ∈ held s) ->
  represents (set_table t c) lt' s.
Proof. intros [] Ht Hnd Hin. by split. Qed.

Lemma table_find c s k hs : shard_ok c s -> Table_Lookup (handles c) k hs (table_ c) = spec_find k hs s.
Proof.
  intros Hr. pose proof (Table_Lookup_spec (handles c) (table_ c) _ k hs (re_table _ _ _ Hr)) as Hl. destruct (Table_Lookup _ _ _ _) as [a|]; symmetry.
  - destruct Hl. by eapply spec_find_keyed.
  - by eapply spec_find_none.
Qed.

Lemma shard_order c lt s : represents c lt s -> lt ≡ₚ order s -> shard_ok c s.
Proof. intros Hr Hp. pose proof Hr as []. split; try done; [by apply (table_ok_perm _ _ lt)|by rewrite <- Hp|by left]. Qed.

(** One more reference, for the caller. *)
Lemma more_refs c lt s a e : represents c lt s -> a ∈ order s -> handles c !! a = Some e -> size_of (held s) < 2 ^ 31 ->
  represents (mkLRU (capacity_ c) (usage_ c) (alter (fun e => set_refs (u32 (refs e + 1)) e) a (handles c)) (next c) (prev c) (table_ c))
    lt (mkSpec (order s) (entries s) (a :: held s) (cap s)).
Proof.
  intros Hr Ha He Hs. pose proof Hr as [H1 H2 H3 H4 H5 H6 H7 H8 H9 H10 H11]. destruct (H7 a e He) as [Hrefs Hb].
  assert (Hc : references s a <= 1 + 2 ^ 31) by (unfold references; pose proof (count_nonneg (held s) a); destruct (decide _); lia).
  split; cbn [order entries held cap handles table_ next prev usage_ capacity_]; try done.
  - eapply table_ok_ext; [|exact H3]. intros b _ k hs. unfold keyed. destruct (decide (b = a)) as [->|Hne].
    + rewrite lookup_alter_eq, He. split; intros (x & [= <-] & ? & ?); (eexists; split; [reflexivity|done]).
    + by rewrite lookup_alter_ne by done.
  - intros b Hb'. apply H5 in Hb'. set_solver.
  - rewrite H6. apply map_eq. intros b. rewrite !lookup_fmap. destruct (decide (b = a)) as [->|Hne]; [by rewrite lookup_alter_eq, He|by rewrite lookup_alter_ne].
  - intros b e' He'. unfold references. cbn [order held]. rewrite count_cons. destruct (decide (b = a)) as [->|Hne].
    + rewrite lookup_alter_eq, He in He'. injection He' as <-. cbn [refs set_refs]. rewrite (decide_True (P := a = a)) by done.
      unfold references in Hrefs, Hc. rewrite u32_small by lia. destruct (decide (a ∈ order s)); lia.
    + rewrite lookup_alter_ne in He' by done. rewrite (decide_False (P := a = b)) by congruence. by apply H7.
  - intros b Hb'. rewrite lookup_alter_is_Some. apply H8. set_solver.
  - intros b Hb'. rewrite lookup_alter_is_Some in Hb'. by apply H9.
Qed.

Lemma Lookup_refines c s k hs : shard_ok c s -> size_of (held s) < 2 ^ 31 ->
  exists c', Lookup k hs c = (fst (spec_lookup k hs s), c') /\ shard_ok c' (snd (spec_lookup k hs s)).
Proof.
  intros Hr Hs. unfold Lookup, spec_lookup. rewrite (table_find c s k hs Hr). destruct (spec_find k hs s) as [a|] eqn:E; [|by exists c].
  assert (Ha : a ∈ order s) by (apply find_some in E as [Ha _]; by apply list_elem_of_In).
  destruct (re_live _ _ _ Hr a ltac:(by left)) as [e He]. eexists. split; [reflexivity|]. cbn [fst snd].
  pose proof (LRU_Remove_spec _ _ _ _ (more_refs _ _ _ _ _ Hr Ha He Hs) Ha) as H1. cbn [order entries held cap] in H1.
  eapply shard_order; [eapply (LRU_Append_spec _ _ _ a _ H1); [cbn [order]; rewrite elem_of_without; tauto|done]|]. cbn [order].
  destruct (list_elem_of_split _ _ Ha) as (l1 & l2 & El). rewrite El, without_split; [solve_Permutation|].
  rewrite <- El. by apply NoDup_cons_1_2 with lru_, re_order with c (order s).
Qed.

Lemma Release_refines c s a : shard_ok c s -> a ∈ held s ->
  exists c', Release a c = (fst (spec_release a s), c') /\ shard_ok c' (snd (spec_release a s)).
Proof.
  intros Hr Ha. pose proof (represents_held _ _ _ (a :: remove_one a (held s)) Hr (remove_one_spec a _ Ha)) as H1.
  destruct (Unref_spec _ _ _ a (remove_one a (held s)) H1 eq_refl) as (c' & E & Hc'); [by left|]. exists c'. split; [exact E|].
  eapply shard_order; [exact Hc'|]. unfold spec_release, collect. destruct (decide _); [done|]. cbn. by destruct (entries s !! a).
Qed.

Lemma spec_drop_order a s : order (snd (spec_drop a s)) = without a (order s).
Proof. unfold spec_drop, collect. destruct (decide _); [done|]. by destruct (_ !! _). Qed.

Lemma order_nodup c lt s : represents c lt s -> NoDup (order s).
Proof. intros Hr. by apply NoDup_cons_1_2 with lru_, re_order with c lt. Qed.

(** Out of the table and out of the list. *)
Lemma forget_spec c s a e : shard_ok c s -> a ∈ order s -> handles c !! a = Some e -> size_of (order s) < 2 ^ 32 ->
  exists t c', Table_Remove (handles c) (key e) (hash e) (table_ c) = (Some a, t) /\
    Unref a (LRU_Remove a (set_table t c)) = (fst (spec_drop a s), c') /\ shard_ok c' (snd (spec_drop a s)).
Proof.
  intros Hr Ha He Hs. pose proof (order_nodup _ _ _ Hr) as Hnd. destruct (list_elem_of_split _ _ Ha) as (l1 & l2 & El).
  assert (Ew : without a (order s) = l1 ++ l2) by (rewrite El in *; by apply without_split).
  destruct (Table_Remove_spec (handles c) (table_ c) l1 a l2 (key e) (hash e)) as (t & Et & Ht); try (rewrite <- El); [exact (re_table _ _ _ Hr)|done|by exists e|done|].
  rewrite <- Ew in Ht. exists t. destruct (drop_spec (set_table t c) (without a (order s)) s a) as (c' & E & Hc').
  - apply (represents_table c (order s)); [done|done|by apply NoDup_filter|]. intros b Hb. left. by apply elem_of_without in Hb as [Hb _].
  - done.
  - rewrite elem_of_without. tauto.
  - exists c'. split; [done|]. split; [done|]. eapply shard_order; [exact Hc'|]. by rewrite spec_drop_order.
Qed.

Lemma Erase_refines c s k hs : shard_ok c s -> size_of (order s) < 2 ^ 32 ->
  exists c', Erase k hs c = (fst (spec_erase k hs s), c') /\ shard_ok c' (snd (spec_erase k hs s)).
Proof.
  intros Hr Hs. unfold Erase, spec_erase. pose proof (table_find c s k hs Hr) as Hf. destruct (spec_find k hs s) as [a|] eqn:E.
  - apply find_some in E as [Ha%list_elem_of_In Hh]. apply (has_keyed _ _ _ _ _ _ Hr) in Hh as (e & He & <- & <-).
    destruct (forget_spec c s a e Hr Ha He Hs) as (t & c' & Et & Eu & Hc'). rewrite Et. by exists c'.
  - unfold Table_Remove. rewrite Hf. exists c. split; [|done]. cbn [fst]. by destruct c.
Qed.

Lemma next_of_path c a l b : path (next c) (prev c) a l b -> next_of c a = hd b l.
Proof. intros H. unfold next_of. by rewrite (path_next _ _ _ _ _ H). Qed.

Lemma list_fuel c lt s : represents c lt s -> (length (order s) <= size (next c))%nat.
Proof.
  intros Hr. rewrite <- (size_list_to_set (C := gset nat)) by (by eapply order_nodup). rewrite <- size_dom.
  apply subseteq_size. intros a Ha%elem_of_list_to_set. apply elem_of_dom. by destruct (path_member _ _ _ _ _ a (re_path _ _ _ Hr) Ha).
Qed.

Lemma head_not_dummy c lt s a l1 l2 : represents c lt s -> order s = l1 ++ a :: l2 -> a <> lru_ /\ next_of c a = hd lru_ l2.
Proof.
  intros Hr E. pose proof (re_path _ _ _ Hr) as Hp. pose proof (re_order _ _ _ Hr) as Hn. rewrite E in *. split.
  - intros ->. apply NoDup_cons in Hn as [Hn _]. set_solver.
  - apply links_app in Hp as [_ Hp]. by eapply next_of_path.
Qed.

Lemma spec_drop_held a s : held (snd (spec_drop a s)) = held s.
Proof. unfold spec_drop, collect. destruct (decide _); [done|]. by destruct (_ !! _). Qed.

Lemma evict_refines fuel c s : shard_ok c s -> (length (order s) <= fuel)%nat -> size_of (order s) < 2 ^ 32 ->
  exists c', evict fuel c = (fst (spec_evict (order s) s), c') /\ shard_ok c' (snd (spec_evict (order s) s)).
Proof.
  revert c s. induction fuel as [|fuel IH]; intros c s Hr Hf Hs.
  { exists c. destruct s as [[|a l] m hd cp]; [done|cbn in Hf; lia]. }
  cbn [evict]. rewrite (next_of_path _ _ _ _ (re_path _ _ _ Hr)), (re_usage _ _ _ Hr), (re_capacity _ _ _ Hr). pose proof (order_nodup _ _ _ Hr) as Hnd.
  destruct (order s) as [|a l] eqn:El; cbn [hd spec_evict]; [rewrite andb_false_r; by exists c|].
  destruct (head_not_dummy c _ s a [] l Hr El) as [Ha _]. rewrite (proj2 (Nat.eqb_neq a lru_) Ha). cbn [negb]. rewrite andb_true_r.
  destruct (spec_usage s >? cap s); [|by exists c]. assert (Hin : a ∈ order s) by (rewrite El; left). destruct (re_live _ _ _ Hr a ltac:(by left)) as [e He].
  rewrite <- El in Hs. destruct (forget_spec c s a e Hr Hin He Hs) as (t & c' & Et & Eu & Hc').
  assert (Eo : order (snd (spec_drop a s)) = l) by (rewrite spec_drop_order, El; by apply (without_split a [] l)).
  change (handles (LRU_Remove a c)) with (handles c). rewrite He. change (table_ (LRU_Remove a c)) with (table_ c). rewrite Et. cbn [snd].
  change (set_table t (LRU_Remove a c)) with (LRU_Remove a (set_table t c)). rewrite Eu. destruct (spec_drop a s) as [d s']. cbn [fst snd] in *. subst l.
  destruct (IH c' s' Hc') as (c'' & E'' & Hc''); [cbn in Hf; lia|rewrite El in Hs; unfold size_of in *; cbn [length] in Hs; lia|].
  rewrite E''. exists c''. by destruct (spec_evict (order s') s') as [ds s''].
Qed.

Lemma unheld_refs c lt s a e : represents c lt s -> a ∈ order s -> handles c !! a = Some e -> (refs e =? 1) = negb (bool_decide (a ∈ held s)).
Proof.
  intros Hr Ha He. destruct (re_refs _ _ _ Hr a e He) as [-> _]. unfold references. rewrite decide_True by done. pose proof (count_pos (held s) a) as Hp.
  pose proof (count_nonneg (held s) a). destruct (bool_decide_reflect (a ∈ held s)) as [p|p]; cbn [negb];
    [apply Z.eqb_neq; apply Hp in p; lia|apply Z.eqb_eq].
  destruct (decide (0 < count (held s) a)) as [Hx|Hx]; [by apply Hp in Hx|lia].
Qed.

Lemma Prune_refines fuel c s pre l : shard_ok c s -> order s = pre ++ l -> (length l <= fuel)%nat -> size_of (order s) < 2 ^ 32 ->
  exists c', Prune_loop fuel (hd lru_ l) c = (fst (spec_prune l s), c') /\ shard_ok c' (snd (spec_prune l s)).
Proof.
  revert c s pre l. induction fuel as [|fuel IH]; intros c s pre l Hr El Hf Hs.
  { destruct l; [by exists c|cbn in Hf; lia]. }
  destruct l as [|a l]; [by exists c|]. cbn [Prune_loop hd spec_prune]. destruct (head_not_dummy c _ s a pre l Hr El) as [Ha Hn].
  rewrite (proj2 (Nat.eqb_neq a lru_) Ha), Hn. assert (Hin : a ∈ order s) by (rewrite El; set_solver). destruct (re_live _ _ _ Hr a ltac:(by left)) as [e He].
  rewrite He, (unheld_refs _ _ _ _ _ Hr Hin He). cbn in Hf. destruct (bool_decide_reflect (a ∈ held s)) as [Hh|Hh]; cbn [negb].
  - rewrite decide_True by done. destruct (IH c s (pre ++ [a]) l Hr) as (c' & E & Hc'); [by rewrite <- app_assoc|lia|done|].
    rewrite E. exists c'. by destruct (spec_prune l s).
  - rewrite decide_False by done. destruct (forget_spec c s a e Hr Hin He Hs) as (t & c' & Et & Eu & Hc'). rewrite Et. cbn [snd]. rewrite Eu.
    assert (Eo : order (snd (spec_drop a s)) = pre ++ l).
    { rewrite spec_drop_order, El. apply without_split. rewrite <- El. by eapply order_nodup. }
    destruct (spec_drop a s) as [d s']. cbn [fst snd] in *. destruct (IH c' s' pre l Hc' Eo) as (c'' & E'' & Hc''); [lia| |].
    { rewrite Eo. rewrite El in Hs. unfold size_of in *. rewrite length_app in *. cbn in Hs. lia. }
    rewrite E''. exists c''. by destruct (spec_prune l s').
Qed.

(** The new handle with its two references, in the list. *)
Lemma new_handle c s k hs v ch : shard_ok c s -> size_of (held s) < 2 ^ 31 ->
  let a := fresh (dom (next c)) in
  let c1 := LRU_Append a (mkLRU (capacity_ c) (usage_ c) (<[a := mkHandle v ch k 2 hs]> (handles c)) (next c) (prev c) (table_ c)) in
  handles c !! a = None /\ a ∉ order s /\
  represents (mkLRU (capacity_ c1) (usize (usage_ c1 + ch)) (handles c1) (next c1) (prev c1) (table_ c1)) (order s)
    (mkSpec (order s ++ [a]) (<[a := mkEntry k hs v ch]> (entries s)) (a :: held s) (cap s)).
Proof.
  intros Hr Hs a c1. pose proof Hr as [H1 H2 H3 H4 H5 H6 H7 H8 H9 H10 H11].
  assert (Hfr : next c !! a = None) by (apply not_elem_of_dom, is_fresh).
  assert (Ha : a ∉ order s) by (intros Hx; destruct (path_member _ _ _ _ _ _ H1 Hx) as [[? ?] _]; congruence).
  assert (Hal : a <> lru_) by (intros E; rewrite E, (path_next _ _ _ _ _ H1) in Hfr; congruence).
  assert (Hh : handles c !! a = None) by (apply eq_None_not_Some; intros Hx; destruct (H9 _ Hx) as [[? ?] _]; congruence).
  assert (Hheld : a ∉ held s) by (intros Hx; destruct (H8 a ltac:(by right)) as [? ?]; congruence).
  split; [done|]. split; [done|].
  set (c2 := mkLRU (capacity_ c) (usize (usage_ c + ch)) (<[a := mkHandle v ch k 2 hs]> (handles c)) (<[a := lru_]> (next c)) (prev c) (table_ c)).
  assert (E : mkLRU (capacity_ c1) (usize (usage_ c1 + ch)) (handles c1) (next c1) (prev c1) (table_ c1) = LRU_Append a c2).
  { unfold c1, c2, LRU_Append, set_links. cbn. by rewrite insert_insert_eq. }
  rewrite E. refine (LRU_Append_spec c2 (order s) (mkSpec (order s) (<[a := mkEntry k hs v ch]> (entries s)) (a :: a :: held s) (cap s)) a (a :: held s) _ Ha eq_refl).
  assert (Hc : forall b, count (a :: a :: held s) b = if decide (b = a) then 2 else count (held s) b).
  { intros b. rewrite !count_cons. destruct (decide (b = a)) as [->|Hne]; [rewrite decide_True by done|by rewrite decide_False by congruence].
    pose proof (count_pos (held s) a). pose proof (count_nonneg (held s) a). destruct (decide (count (held s) a = 0)); [lia|]. exfalso. apply Hheld, count_pos. lia. }
  split; cbn [order entries held cap c2 handles table_ next prev usage_ capacity_]; try done.
  - eapply path_ext; [| |exact H1]; intros y Hy; [|done]. apply lookup_insert_ne. intros <-. destruct Hy as [->|Hy]; done.
  - eapply table_ok_ext; [|exact H3]. intros b Hb k' hs'. unfold keyed. by rewrite lookup_insert_ne by (intros ->; done).
  - intros b Hb. by left.
  - by rewrite H6, fmap_insert.
  - intros b e He. unfold references. cbn [order held]. rewrite Hc. destruct (decide (b = a)) as [->|Hne].
    + rewrite lookup_insert_eq in He. injection He as <-. cbn [refs]. rewrite decide_False by done. lia.
    + rewrite lookup_insert_ne in He by done. by apply H7.
  - intros b Hb. rewrite lookup_insert_is_Some'. destruct (decide (a = b)) as [<-|Hne]; [by left|right]. apply H8. set_solver.
  - intros b Hb. rewrite lookup_insert_is_Some' in Hb. rewrite lookup_insert_is_Some'. destruct (decide (a = b)) as [<-|Hne]; [split; [by left|done]|]. destruct Hb as [?|Hb]; [done|].
    destruct (H9 b Hb). tauto.
  - unfold spec_usage. cbn. rewrite usage_insert by (by rewrite H6, lookup_fmap, Hh). cbn [e_charge]. rewrite H10. unfold spec_usage, usize.
    rewrite Zplus_mod_idemp_l. f_equal. lia.
Qed.

Lemma keyed_insert (h : Heap V) a e b k hs : b <> a -> keyed (<[a := e]> h) b k hs <-> keyed h b k hs.
Proof. intros Hne. unfold keyed. by rewrite lookup_insert_ne. Qed.

Lemma Insert_refines c s k hs v ch : shard_ok c s -> size_of (held s) < 2 ^ 31 -> size_of (order s) + 1 < 2 ^ 31 ->
  let a := fresh (dom (next c)) in
  exists c', Insert k hs v ch c = (a, fst (spec_insert a k hs v ch s), c') /\ shard_ok c' (snd (spec_insert a k hs v ch s)) /\ entries s !! a = None.
Proof.
  intros Hr Hs Ho a. destruct (new_handle c s k hs v ch Hr Hs) as (Hh & Ha & H2). fold a in Hh, Ha, H2. unfold Insert. fold a.
  set (c2 := mkLRU _ (usize _) _ _ _ _) in H2 |- *. set (s2 := mkSpec _ _ _ _) in H2.
  assert (Eh : handles c2 = <[a := mkHandle v ch k 2 hs]> (handles c)) by done.
  assert (Hk : keyed (handles c2) a k hs) by (rewrite Eh; eexists; rewrite lookup_insert_eq; split; [reflexivity|done]).
  assert (Hother : forall b, b ∈ order s -> keyed (handles c2) b k hs <-> keyed (handles c) b k hs).
  { intros b Hb. rewrite Eh. apply keyed_insert. by intros ->. }
  pose proof (order_nodup _ _ _ Hr) as Hnd.
  pose proof (Table_Insert_spec (handles c2) (table_ c2) (order s) a k hs (re_table _ _ _ H2) Hnd Ha Hk ltac:(lia)) as Ht.
  assert (He : entries s !! a = None) by (by rewrite (re_entries _ _ _ Hr), lookup_fmap, Hh).
  assert (Hnd2 : NoDup (order s ++ [a])) by (apply NoDup_app; split; [done|]; split; [set_solver|apply NoDup_singleton]).
  assert (Hstep : forall t, table_ (set_table t c2) = t) by done.
  destruct (Table_Insert (handles c2) a k hs (table_ c2)) as [old t]. unfold spec_insert. fold s2.
  assert (Hdrop : exists d c3, match old with Some o => Unref o (LRU_Remove o (set_table t c2)) | None => ([], set_table t c2) end = (d, c3) /\
     match spec_find k hs s with Some o => spec_drop o s2 | None => ([], s2) end = (d, snd (match spec_find k hs s with Some o => spec_drop o s2 | None => ([], s2) end)) /\
     shard_ok c3 (snd (match spec_find k hs s with Some o => spec_drop o s2 | None => ([], s2) end)) /\
     size_of (order (snd (match spec_find k hs s with Some o => spec_drop o s2 | None => ([], s2) end))) < 2 ^ 32).
  { destruct old as [o|].
    - destruct Ht as (l1 & l2 & El & Hko & Ht). assert (Hin : o ∈ order s) by (rewrite El; set_solver). rewrite (spec_find_keyed c _ s k hs o Hr) by (try done; by apply Hother).
      assert (Hna : o <> a) by (intros ->; done).
      assert (Ew : without o (order s ++ [a]) = (l1 ++ l2) ++ [a]) by (rewrite El, <- !app_assoc; apply (without_split o l1 (l2 ++ [a])); rewrite El, <- app_assoc in Hnd2; exact Hnd2).
      destruct (drop_spec (set_table t c2) ((l1 ++ l2) ++ [a]) s2 o) as (c3 & E3 & Hc3).
      + apply (represents_table c2 (order s)); [done|done| |]; rewrite <- Ew; [by apply NoDup_filter|]. intros b [Hb _]%elem_of_without. by left.
      + cbn. set_solver.
      + rewrite <- Ew, elem_of_without. tauto.
      + exists (fst (spec_drop o s2)), c3. split; [done|]. split; [by destruct (spec_drop o s2)|]. split.
        * eapply shard_order; [exact Hc3|]. rewrite spec_drop_order. cbn [order s2]. by rewrite Ew.
        * rewrite spec_drop_order. cbn [order s2]. rewrite Ew. rewrite El in Ho. unfold size_of in *. rewrite !length_app in *. cbn [length] in *. lia.
    - destruct Ht as [Hn Ht]. rewrite (spec_find_none c _ s k hs Hr) by (intros b Hb Hkb; apply (Hn b Hb); by apply Hother).
      exists [], (set_table t c2). split; [done|]. split; [done|]. cbn [snd]. split.
      + apply (represents_table c2 (order s)); [done|done|done|]. intros b Hb. by left.
      + cbn. unfold size_of in *. rewrite length_app. cbn [length]. lia. }
  destruct Hdrop as (d & c3 & -> & -> & H3 & Hs3). set (s3 := snd _) in *.
  destruct (evict_refines (size (next c3)) c3 s3 H3 (list_fuel _ _ _ H3) Hs3) as (c4 & -> & H4).
  exists c4. destruct (spec_evict (order s3) s3) as [ds s4]. done.
Qed.

Lemma shard_prune c s : shard_ok c s -> size_of (order s) < 2 ^ 32 ->
  exists c', Prune c = (fst (spec_prune (order s) s), c') /\ shard_ok c' (snd (spec_prune (order s) s)).
Proof.
  intros Hr Hs. unfold Prune. rewrite (next_of_path _ _ _ _ (re_path _ _ _ Hr)). by apply (Prune_refines _ c s [] (order s)); [| |eapply list_fuel|].
Qed.

Lemma new_shard cap : shard_ok (SetCapacity cap LRUCache_make) (mkSpec [] ∅ [] cap).
Proof.
  split; cbn [order entries held]; [done|apply NoDup_singleton|apply HandleTable_make_ok|by apply NoDup_nil| | | | | |done|done].
  all: try set_solver. intros a Ha. destruct Ha as [e He]. cbn in He. by rewrite lookup_empty in He.
Qed.
End Operations.

(** ** Properties *)

Section Reachable.
Context {V : Type}.

(** What clients do with a shard: they hold the handles that [Insert] and [Lookup] gave
    them, and release only those.  The bounds are those of the memory: fewer than
    2^31 entries and handles, and charges whose sum a [size_t] holds. *)
Inductive shard_step : LRUCache V * list nat -> LRUCache V * list nat -> Prop :=
| step_insert c hd k hs v ch a ds c' :
    elems_ (table_ c) + 1 < 2 ^ 31 -> size_of hd < 2 ^ 31 -> 0 <= ch -> usage_ c + ch < 2 ^ 32 ->
    Insert k hs v ch c = (a, ds, c') -> shard_step (c, hd) (c', a :: hd)
| step_lookup c hd k hs r c' : size_of hd < 2 ^ 31 -> Lookup k hs c = (r, c') ->
    shard_step (c, hd) (c', match r with Some a => a :: hd | None => hd end)
| step_release c hd a ds c' : a ∈ hd -> Release a c = (ds, c') -> shard_step (c, hd) (c', remove_one a hd)
| step_erase c hd k hs ds c' : Erase k hs c = (ds, c') -> shard_step (c, hd) (c', hd)
| step_prune c hd ds c' : Prune c = (ds, c') -> shard_step (c, hd) (c', hd).

Definition shard_reachable (capacity : Z) (c : LRUCache V) (hd : list nat) : Prop :=
  rtc shard_step (SetCapacity capacity LRUCache_make, []) (c, hd).

Definition total (s : LRU V) : Z := map_fold (fun _ e n => e_charge e + n) 0 (entries s).

(** What a reachable shard represents: sizes in range, and within its capacity unless
    every entry in memory is held. *)
Record spec_ok (capacity : Z) (s : LRU V) : Prop := {
  so_cap : cap s = capacity;
  so_charges a e : entries s !! a = Some e -> 0 <= e_charge e;
  so_total : total s < 2 ^ 32;
  so_size : size_of (order s) < 2 ^ 31;
  so_bound : total s <= capacity \/ order s = []
}.

Lemma total_nonneg (m : gmap nat (Entry V)) : (forall a e, m !! a = Some e -> 0 <= e_charge e) -> 0 <= map_fold (fun _ e n => e_charge e + n) 0 m.
Proof.
  induction m as [|a e m Hm _ IH] using map_first_key_ind; intros H; [done|]. rewrite usage_insert by done.
  pose proof (H a e (lookup_insert_eq _ _ _)). assert (0 <= map_fold (fun _ e n => e_charge e + n) 0 m); [|lia].
  apply IH. intros b e' Hb. apply (H b). rewrite lookup_insert_ne; [done|]. intros ->. congruence.
Qed.

Lemma total_mono (m' m : gmap nat (Entry V)) : m' ⊆ m -> (forall a e, m !! a = Some e -> 0 <= e_charge e) ->
  map_fold (fun _ e n => e_charge e + n) 0 m' <= map_fold (fun _ e n => e_charge e + n) 0 m.
Proof.
  revert m. induction m' as [|a e m' Hm _ IH] using map_first_key_ind; intros m Hsub H; [by apply total_nonneg|].
  assert (Ha : m !! a = Some e) by (by eapply lookup_weaken; [apply lookup_insert_eq|]).
  rewrite usage_insert, (usage_delete a e m) by done. assert (map_fold (fun _ e n => e_charge e + n) 0 m' <= map_fold (fun _ e n => e_charge e + n) 0 (delete a m)); [|lia].
  apply IH; [|intros b e' [_ Hb]%lookup_delete_Some; by eapply H]. apply map_subseteq_spec. intros b e' Hb.
  assert (b <> a) by (intros ->; congruence). rewrite lookup_delete_ne by done. eapply lookup_weaken; [|exact Hsub]. by rewrite lookup_insert_ne.
Qed.

(** Entries go, others stay as they are. *)
Record shrinks (s s' : LRU V) : Prop := {
  sh_entries : entries s' ⊆ entries s;
  sh_order : (length (order s') <= length (order s))%nat;
  sh_held : held s' = held s;
  sh_cap : cap s' = cap s
}.

Lemma shrinks_refl s : shrinks s s.
Proof. by split. Qed.

Lemma shrinks_trans s1 s2 s3 : shrinks s1 s2 -> shrinks s2 s3 -> shrinks s1 s3.
Proof. intros [] []. split; [by etransitivity|lia|congruence|congruence]. Qed.

Lemma spec_ok_shrinks capacity s s' : spec_ok capacity s -> shrinks s s' -> spec_ok capacity s'.
Proof.
  intros [H1 H2 H3 H4 H5] [S1 S2 S3 S4]. assert (Ht : total s' <= total s) by (by apply total_mono). unfold size_of in *.
  split; [congruence| |lia|unfold size_of; lia|].
  - intros a e He. apply (H2 a). by eapply lookup_weaken.
  - destruct H5 as [H5|H5]; [left; lia|right]. rewrite H5 in S2. cbn in S2. destruct (order s'); [done|cbn in S2; lia].
Qed.

Lemma collect_shrinks a s : shrinks s (snd (collect a s)).
Proof. unfold collect. destruct (decide _); [by split|]. destruct (_ !! _); [|by split]. split; try done. apply delete_subseteq. Qed.

Lemma spec_drop_shrinks a s : shrinks s (snd (spec_drop a s)).
Proof.
  eapply shrinks_trans; [|apply collect_shrinks]. split; try done. cbn. apply length_filter.
Qed.

Lemma spec_usage_total s : (forall a e, entries s !! a = Some e -> 0 <= e_charge e) -> total s < 2 ^ 32 -> spec_usage s = total s.
Proof. intros H1 H2. apply usize_small. split; [by apply total_nonneg|done]. Qed.

Lemma spec_evict_ok l s : order s = l -> NoDup l -> (forall a e, entries s !! a = Some e -> 0 <= e_charge e) -> total s < 2 ^ 32 ->
  let s' := snd (spec_evict l s) in shrinks s s' /\ (total s' <= cap s' \/ order s' = []).
Proof.
  revert s. induction l as [|a l IH]; intros s El Hnd Hc Ht; [split; [by split|by right]|]. cbn [spec_evict].
  pose proof (spec_usage_total s Hc Ht) as Hu. destruct (Z.gtb_spec (spec_usage s) (cap s)) as [Hgt|Hle]; cbn [snd]; [|split; [by split|left; lia]].
  pose proof (spec_drop_shrinks a s) as Hs. assert (Eo : order (snd (spec_drop a s)) = l) by (rewrite spec_drop_order, El; by apply (without_split a [] l)).
  destruct (spec_drop a s) as [d s1]. cbn [snd] in *. apply NoDup_cons in Hnd as [_ Hnd].
  assert (Hc1 : forall b e, entries s1 !! b = Some e -> 0 <= e_charge e) by (intros b e Hb; apply (Hc b); eapply lookup_weaken; [done|apply Hs]).
  assert (Ht1 : total s1 < 2 ^ 32) by (pose proof (total_mono _ _ (sh_entries _ _ Hs) Hc); unfold total in *; lia).
  destruct (IH s1 Eo Hnd Hc1 Ht1) as [S1 S2]. destruct (spec_evict l s1) as [ds s2]. cbn [snd] in *. split; [by eapply shrinks_trans|done].
Qed.

Lemma spec_prune_shrinks l s : shrinks s (snd (spec_prune l s)).
Proof.
  revert s. induction l as [|a l IH]; intros s; [by split|]. cbn [spec_prune]. destruct (decide (a ∈ held s)).
  - pose proof (IH s). by destruct (spec_prune l s).
  - pose proof (spec_drop_shrinks a s) as Hs. destruct (spec_drop a s) as [d s1]. pose proof (IH s1) as H1. destruct (spec_prune l s1). by eapply shrinks_trans.
Qed.

(** The state in which an insertion starts to evict. *)
Definition inserted (a : nat) (k : bytes) (hs : Z) (v : V) (ch : Z) (s : LRU V) : LRU V :=
  mkSpec (order s ++ [a]) (<[a := mkEntry k hs v ch]> (entries s)) (a :: held s) (cap s).

Lemma spec_insert_cases a k hs v ch s :
  exists s1, shrinks (inserted a k hs v ch s) s1 /\ snd (spec_insert a k hs v ch s) = snd (spec_evict (order s1) s1) /\
    order s1 = match spec_find k hs s with Some o => without o (order s ++ [a]) | None => order s ++ [a] end.
Proof.
  unfold spec_insert. fold (inserted a k hs v ch s). destruct (spec_find k hs s) as [o|].
  - pose proof (spec_drop_shrinks o (inserted a k hs v ch s)) as Hs. pose proof (spec_drop_order o (inserted a k hs v ch s)) as Ho.
    destruct (spec_drop o _) as [d s1]. exists s1. split; [done|]. split; [by destruct (spec_evict _ s1)|done].
  - exists (inserted a k hs v ch s). split; [by split|]. split; [by destruct (spec_evict _ _)|done].
Qed.

Lemma spec_insert_ok capacity a k hs v ch s : spec_ok capacity s -> NoDup (order s) -> a ∉ order s -> entries s !! a = None ->
  size_of (order s) + 1 < 2 ^ 31 -> 0 <= ch -> total s + ch < 2 ^ 32 ->
  spec_ok capacity (snd (spec_insert a k hs v ch s)) /\ shrinks (inserted a k hs v ch s) (snd (spec_insert a k hs v ch s)).
Proof.
  intros [H1 H2 H3 H4 H5] Hnd Ha He Hs Hch Ht. destruct (spec_insert_cases a k hs v ch s) as (s1 & S1 & -> & Eo).
  assert (Hn1 : NoDup (order s1)).
  { assert (NoDup (order s ++ [a])) by (apply NoDup_app; split; [done|]; split; [set_solver|apply NoDup_singleton]).
    rewrite Eo. destruct (spec_find k hs s); [by apply NoDup_filter|done]. }
  assert (Hc0 : forall b e, entries (inserted a k hs v ch s) !! b = Some e -> 0 <= e_charge e).
  { intros b e Hb. cbn in Hb. apply lookup_insert_Some in Hb as [[<- <-]|[_ Hb]]; [done|by eapply H2]. }
  assert (Hc1 : forall b e, entries s1 !! b = Some e -> 0 <= e_charge e).
  { intros b e Hb. apply (Hc0 b). eapply lookup_weaken; [done|apply S1]. }
  assert (Ht1 : total s1 < 2 ^ 32).
  { pose proof (total_mono _ _ (sh_entries _ _ S1) Hc0) as Hm. unfold total in *. cbn in Hm. rewrite usage_insert in Hm by done. cbn in Hm. lia. }
  destruct (spec_evict_ok _ s1 eq_refl Hn1 Hc1 Ht1) as [S2 Hb]. pose proof (shrinks_trans _ _ _ S1 S2) as S. set (s2 := snd _) in *. split; [|done].
  pose proof (total_mono _ _ (sh_entries _ _ S2) Hc1) as Hm. split.
  - rewrite (sh_cap _ _ S). done.
  - intros b e Hb'. apply (Hc1 b). eapply lookup_weaken; [done|apply S2].
  - unfold total in *. lia.
  - pose proof (sh_order _ _ S) as Hl. cbn in Hl. rewrite length_app in Hl. cbn in Hl. unfold size_of in *. lia.
  - rewrite <- H1. replace (cap s) with (cap s2) by (by rewrite (sh_cap _ _ S)). done.
Qed.

Lemma without_length a l : NoDup l -> a ∈ l -> length (without a l ++ [a]) = length l.
Proof. intros Hnd (l1 & l2 & ->)%list_elem_of_split. rewrite without_split by done. rewrite !length_app. cbn. lia. Qed.

Lemma spec_lookup_ok capacity c s k hs : shard_ok c s -> spec_ok capacity s -> spec_ok capacity (snd (spec_lookup k hs s)).
Proof.
  intros Hr [H1 H2 H3 H4 H5]. unfold spec_lookup. destruct (spec_find k hs s) as [a|] eqn:E; [|by split]. cbn [snd].
  apply find_some in E as [Ha%list_elem_of_In _]. pose proof (without_length a (order s) (order_nodup _ _ _ Hr) Ha) as Hl.
  split; cbn [cap entries order]; try done; [unfold size_of in *; rewrite Hl; done|]. destruct H5 as [H5|H5]; [by left|]. rewrite H5 in Ha. by apply not_elem_of_nil in Ha.
Qed.

Lemma held_live (c : LRUCache V) (s : LRU V) x : shard_ok c s -> x ∈ held s -> is_Some (entries s !! x).
Proof. intros Hr Hx. rewrite (re_entries _ _ _ Hr), lookup_fmap, fmap_is_Some. apply (re_live _ _ _ Hr). by right. Qed.

Lemma keep_held (c : LRUCache V) (s : LRU V) c1 s1 : shard_ok c s -> shard_ok c1 s1 ->
  shrinks s s1 \/ (exists a k hs v ch, entries s !! a = None /\ shrinks (inserted a k hs v ch s) s1) \/ entries s1 ⊆ entries s ->
  forall x, x ∈ held s -> x ∈ held s1 -> entries s1 !! x = entries s !! x.
Proof.
  intros Hr Hr1 H x Hx Hx1. destruct (held_live _ _ x Hr1 Hx1) as [e He]. rewrite He. destruct H as [H|[(a & k & hs & v & ch & Ha & H)|H]].
  - symmetry. eapply lookup_weaken; [done|apply H].
  - pose proof (lookup_weaken _ _ _ _ He (sh_entries _ _ H)) as Hw. cbn in Hw. apply lookup_insert_Some in Hw as [[-> _]|[_ Hw]]; [|done].
    destruct (held_live _ _ _ Hr Hx). congruence.
  - symmetry. by eapply lookup_weaken.
Qed.

(** A step keeps the invariant, and the entry of a handle that is held before and after. *)
Lemma step_ok capacity c hd c' hd' s : shard_step (c, hd) (c', hd') -> shard_ok c s -> held s = hd -> spec_ok capacity s ->
  exists s', shard_ok c' s' /\ held s' = hd' /\ spec_ok capacity s' /\
    forall a, a ∈ hd -> a ∈ hd' -> entries s' !! a = entries s !! a.
Proof.
  intros Hstep Hr Hh Hs.
  assert (Helems : elems_ (table_ c) = size_of (order s)) by apply (to_elems _ _ _ (re_table _ _ _ Hr)).
  assert (Husage : usage_ c = total s) by (rewrite (re_usage _ _ _ Hr); apply spec_usage_total; apply Hs).
  assert (Hsize : size_of (order s) < 2 ^ 32) by (pose proof (so_size _ _ Hs); lia).
  assert (Hkeep : forall (c1 : LRUCache V) (s1 : LRU V), shard_ok c1 s1 -> shrinks s s1 \/ (exists a k hs v ch, entries s !! a = None /\ shrinks (inserted a k hs v ch s) s1) \/ entries s1 ⊆ entries s ->
     forall x, x ∈ hd -> x ∈ held s1 -> entries s1 !! x = entries s !! x) by (rewrite <- Hh; intros c1 s1; by apply (keep_held c s)).
  inversion Hstep as [? ? k hs v ch a ds ? B1 B2 B3 B4 E | ? ? k hs r ? B1 E | ? ? a ds ? Ha E | ? ? k hs ds ? E | ? ? ds ? E]; subst.
  - destruct (Insert_refines c s k hs v ch Hr B2 ltac:(lia)) as (c1 & E1 & H1 & He). rewrite E in E1. injection E1 as -> -> ->.
    set (a := fresh (dom (next c))) in *. destruct (new_handle c s k hs v ch Hr B2) as (_ & Ha & _).
    destruct (spec_insert_ok capacity a k hs v ch s Hs (order_nodup _ _ _ Hr) Ha He) as [H2 H3]; [lia|done|lia|].
    exists (snd (spec_insert a k hs v ch s)). split; [done|]. split; [by rewrite (sh_held _ _ H3)|]. split; [done|]. intros x Hx Hx'.
    apply (Hkeep c1); [done| |done|by rewrite (sh_held _ _ H3)]. right. left. by exists a, k, hs, v, ch.
  - destruct (Lookup_refines c s k hs Hr B1) as (c1 & E1 & H1). rewrite E in E1. injection E1 as -> ->.
    exists (snd (spec_lookup k hs s)). split; [done|]. split; [unfold spec_lookup; by destruct (spec_find k hs s)|]. split; [by eapply spec_lookup_ok|].
    intros x _ _. unfold spec_lookup. by destruct (spec_find k hs s).
  - destruct (Release_refines c s a Hr Ha) as (c1 & E1 & H1). rewrite E in E1. injection E1 as -> ->. unfold spec_release in *.
    pose proof (collect_shrinks a (set_held (remove_one a (held s)) s)) as Hsh. exists (snd (collect a (set_held (remove_one a (held s)) s))). split; [done|].
    split; [by rewrite (sh_held _ _ Hsh)|]. split; [apply (spec_ok_shrinks _ (set_held (remove_one a (held s)) s)); [destruct Hs; by split|done]|].
    intros x Hx Hx'. apply (Hkeep c1); [done| |done|by rewrite (sh_held _ _ Hsh)]. right. right. apply Hsh.
  - destruct (Erase_refines c s k hs Hr Hsize) as (c1 & E1 & H1). rewrite E in E1. injection E1 as -> ->.
    assert (Hsh : shrinks s (snd (spec_erase k hs s))) by (unfold spec_erase; destruct (spec_find k hs s); [apply spec_drop_shrinks|by split]).
    exists (snd (spec_erase k hs s)). split; [done|]. split; [apply Hsh|]. split; [by eapply spec_ok_shrinks|]. intros x Hx Hx'. apply (Hkeep c1); [done|by left|done|by rewrite (sh_held _ _ Hsh)].
  - destruct (shard_prune c s Hr Hsize) as (c1 & E1 & H1). rewrite E in E1. injection E1 as -> ->. pose proof (spec_prune_shrinks (order s) s) as Hsh.
    exists (snd (spec_prune (order s) s)). split; [done|]. split; [apply Hsh|]. split; [by eapply spec_ok_shrinks|]. intros x Hx Hx'. apply (Hkeep c1); [done|by left|done|by rewrite (sh_held _ _ Hsh)].
Qed.
End Reachable.

Section Sharded.
Context {V : Type}.
Implicit Types (s : LRU V) (c : ShardedLRUCache V).

Lemma find_in s k hs a : spec_find k hs s = Some a -> a ∈ order s /\ has s k hs a = true.
Proof. intros E. apply find_some in E as [Ha%list_elem_of_In H]. done. Qed.

Lemma spec_evict_suffix l s : order s = l -> NoDup l -> exists n, order (snd (spec_evict l s)) = drop n l.
Proof.
  revert s. induction l as [|a l IH]; intros s El Hnd; [by exists O|]. cbn [spec_evict]. destruct (_ >? _); [|by exists O].
  assert (Eo : order (snd (spec_drop a s)) = l) by (rewrite spec_drop_order, El; by apply (without_split a [] l)).
  destruct (spec_drop a s) as [d s1]. cbn [snd] in *. apply NoDup_cons in Hnd as [_ Hnd]. destruct (IH s1 Eo Hnd) as [n Hn]. exists (S n).
  by destruct (spec_evict l s1).
Qed.

Lemma spec_evict_entries l s : entries (snd (spec_evict l s)) ⊆ entries s.
Proof.
  revert s. induction l as [|a l IH]; intros s; [done|]. cbn [spec_evict]. destruct (_ >? _); [|done].
  pose proof (sh_entries _ _ (spec_drop_shrinks a s)) as H1. destruct (spec_drop a s) as [d s1]. pose proof (IH s1) as H2.
  destruct (spec_evict l s1). cbn [snd] in *. by etransitivity.
Qed.

(** The new handle is found, or nothing is left in the list. *)
Lemma spec_insert_find (sh : LRUCache V) (s : LRU V) a k hs v ch : NoDup (order s) -> a ∉ order s -> spec_find k hs s <> Some a ->
  let s' := snd (spec_insert a k hs v ch s) in shard_ok sh s' ->
  (spec_find k hs s' = Some a /\ entries s' !! a = Some (mkEntry k hs v ch)) \/ (spec_find k hs s' = None /\ order s' = []).
Proof.
  intros Hnd Ha Hne s' Hr. destruct (spec_insert_cases a k hs v ch s) as (s1 & S1 & E & Eo). fold s' in E.
  assert (Hlast : exists l, order s1 = l ++ [a] /\ NoDup (l ++ [a])).
  { assert (Hn : NoDup (order s ++ [a])) by (apply NoDup_app; split; [done|]; split; [set_solver|apply NoDup_singleton]).
    destruct (spec_find k hs s) as [o|]; [|by exists (order s)]. exists (without o (order s)). rewrite Eo.
    assert (Ew : without o (order s ++ [a]) = without o (order s) ++ [a]).
    { unfold without. rewrite filter_app. f_equal. apply (filter_cons_True (fun b => b <> o)). congruence. }
    split; [done|]. rewrite <- Ew. by apply NoDup_filter. }
  destruct Hlast as (l & El & Hn). destruct (spec_evict_suffix (order s1) s1 eq_refl ltac:(by rewrite El)) as [n Hd]. rewrite <- E, El in Hd.
  destruct (decide (n <= length l)%nat) as [Hle|Hgt].
  - left. rewrite drop_app_le in Hd by done. assert (Hin : a ∈ order s') by (rewrite Hd; set_solver).
    destruct (re_live _ _ _ Hr a ltac:(by left)) as [e He]. pose proof (entry_lookup _ _ _ _ _ Hr He) as Hent.
    assert (Hw : entries s' !! a = Some (mkEntry k hs v ch)).
    { rewrite Hent. rewrite E in Hent. pose proof (spec_evict_entries (order s1) s1) as Hsub.
      assert (Hx : entries (inserted a k hs v ch s) !! a = Some (entry_of e)) by (eapply lookup_weaken; [exact Hent|]; etransitivity; [exact Hsub|apply S1]).
      cbn in Hx. by rewrite lookup_insert_eq in Hx. }
    split; [|done]. eapply spec_find_keyed; [exact Hr|done|done|]. apply (has_keyed _ _ _ _ _ _ Hr). unfold has. rewrite Hw. cbn.
    by rewrite Z.eqb_refl, (proj2 (slice_eq_spec k k) eq_refl).
  - right. assert (Ho : order s' = []) by (rewrite Hd; apply drop_ge; rewrite length_app; cbn; lia). split; [|done]. unfold spec_find. by rewrite Ho.
Qed.
End Sharded.

(** The hash is a 32-bit word, so its shard is one of the sixteen. *)
Lemma word_shift a k : 0 <= k -> 0 <= a < 2 ^ 32 -> 0 <= Z.shiftr a k < 2 ^ 32.
Proof.
  intros Hk Ha. rewrite Z.shiftr_div_pow2 by done. pose proof (Z.pow_pos_nonneg 2 k ltac:(lia) Hk).
  split; [apply Z.div_pos; lia|]. apply Z.div_lt_upper_bound; nia.
Qed.

Lemma Hash_loop_range data h : 0 <= h < 2 ^ 32 -> 0 <= snd (Hash_loop data h) < 2 ^ 32.
Proof.
  assert (forall n data h, (length data <= n)%nat -> 0 <= h < 2 ^ 32 -> 0 <= snd (Hash_loop data h) < 2 ^ 32) as H; [|by eapply H].
  clear. induction n as [|n IH]; intros data h Hl Hh; [by destruct data; [|cbn in Hl; lia]|].
  destruct data as [|b0 [|b1 [|b2 [|b3 rest]]]]; try done. change (Hash_loop (b0 :: b1 :: b2 :: b3 :: rest) h) with
    (let w := DecodeFixed32 (b0 :: b1 :: b2 :: b3 :: rest) in let h := u32 (u32 (h + w) * 0xc6a4a793) in Hash_loop rest (Z.lxor h (Z.shiftr h 16))).
  cbv zeta. apply IH; [cbn in Hl; lia|]. apply lxor_range; [lia|apply u32_range|]. apply word_shift; [lia|apply u32_range].
Qed.

Lemma Hash_range data n seed : 0 <= seed < 2 ^ 32 -> 0 <= Hash data n seed < 2 ^ 32.
Proof.
  intros Hs. unfold Hash. pose proof (Hash_loop_range data (Z.lxor seed (u32 (n * 0xc6a4a793)))) as H.
  destruct (Hash_loop _ _) as [rest h]. cbn [snd] in H.
  assert (Hf : forall x, 0 <= Z.lxor (u32 x) (Z.shiftr (u32 x) 24) < 2 ^ 32).
  { intros x. apply lxor_range; [lia|apply u32_range|]. apply word_shift; [lia|apply u32_range]. }
  assert (Hh : 0 <= h < 2 ^ 32) by (apply H, lxor_range; [lia|done|apply u32_range]).
  destruct rest as [|? [|? [|? [|? ?]]]]; try apply Hf; done.
Qed.

Lemma Shard_lt hash : 0 <= hash < 2 ^ 32 -> (Shard hash < 16)%nat.
Proof.
  intros H. unfold Shard, kNumShardBits. rewrite Z.shiftr_div_pow2 by lia. change (2 ^ (32 - 4)) with (2 ^ 28).
  assert (hash / 2 ^ 28 < 16) by (apply Z.div_lt_upper_bound; lia). assert (0 <= hash / 2 ^ 28) by (apply Z.div_pos; lia). lia.
Qed.

Section Gone.
Context {V : Type}.

Lemma spec_evict_held l (s : LRU V) : held (snd (spec_evict l s)) = held s.
Proof.
  revert s. induction l as [|a l IH]; intros s; [done|]. cbn [spec_evict]. destruct (_ >? _); [|done].
  pose proof (spec_drop_held a s) as H1. destruct (spec_drop a s) as [d s1]. pose proof (IH s1) as H2.
  destruct (spec_evict l s1). cbn [snd] in *. congruence.
Qed.

Lemma spec_erase_find (sh : LRUCache V) s k hs : shard_ok sh s -> spec_find k hs (snd (spec_erase k hs s)) = None.
Proof.
  intros Hr. unfold spec_erase. destruct (spec_find k hs s) as [a|] eqn:E; [|done].
  destruct (spec_find k hs (snd (spec_drop a s))) as [b|] eqn:Eb; [|done]. exfalso. apply find_in in E as [Ha Hha]. apply find_in in Eb as [Hb Hhb].
  rewrite spec_drop_order, elem_of_without in Hb. destruct Hb as [Hb Hne]. apply Hne. apply (has_keyed _ _ _ _ _ _ Hr) in Hha.
  apply (to_unique _ _ _ (re_table _ _ _ Hr) b a k hs); [done|done| |done]. apply (has_keyed _ _ _ _ _ _ Hr). unfold has in *.
  destruct (entries (snd (spec_drop a s)) !! b) as [e|] eqn:Ee; [|done].
  by rewrite (lookup_weaken _ _ _ _ Ee (sh_entries _ _ (spec_drop_shrinks a s))).
Qed.
End Gone.

Section Properties.
Context {V : Type}.

(** The sixteen shards represent [ss]. *)
Record sharded_ok (c : ShardedLRUCache V) (ss : list (LRU V)) : Prop := {
  sd_count : length (shard_ c) = 16%nat;
  sd_shards : Forall2 shard_ok (shard_ c) ss
}.

Lemma new_sharded_ok capacity :
  sharded_ok (NewLRUCache capacity) (replicate 16 (mkSpec [] ∅ [] (usize (capacity + 15) / 16))).
Proof. split; [done|]. apply Forall2_replicate, new_shard. Qed.

(** The shard of a key, and what an operation on it gives. *)
Lemma on_shard_spec {R} c ss k (none : R) op : sharded_ok c ss ->
  exists sh s, shard_ c !! Shard (HashSlice k) = Some sh /\ ss !! Shard (HashSlice k) = Some s /\ shard_ok sh s /\
    forall r sh' s', op sh = (r, sh') -> shard_ok sh' s' ->
      exists c', on_shard (HashSlice k) none op c = (r, c') /\ shard_ c' !! Shard (HashSlice k) = Some sh' /\
        sharded_ok c' (<[Shard (HashSlice k) := s']> ss).
Proof.
  intros [Hl Hf]. pose proof (Shard_lt (HashSlice k) (Hash_range k (size_of k) 0 ltac:(lia))) as Hlt.
  destruct (lookup_lt_is_Some_2 (shard_ c) (Shard (HashSlice k))) as [sh Hsh]; [lia|].
  destruct (Forall2_lookup_l _ _ _ _ _ Hf Hsh) as (s & Hs & Hok). exists sh, s. split; [done|]. split; [done|]. split; [done|].
  intros r sh' s' E Hok'. unfold on_shard. rewrite Hsh, E. eexists. split; [reflexivity|]. cbn [shard_]. split; [apply list_lookup_insert_eq; lia|].
  split; cbn [shard_]; [by rewrite length_insert|]. by apply Forall2_insert.
Qed.

Lemma reachable_ok capacity (c : LRUCache V) hd : 0 <= capacity -> shard_reachable capacity c hd ->
  exists s, shard_ok c s /\ held s = hd /\ spec_ok capacity s.
Proof.
  intros Hcap Hreach. refine (rtc_ind_r (fun p => exists s, shard_ok (fst p) s /\ held s = snd p /\ spec_ok capacity s) _ _ _ _ Hreach).
  - exists (mkSpec [] ∅ [] capacity). split; [apply new_shard|]. split; [done|]. split; try done. by left.
  - intros [c1 hd1] [c2 hd2] _ Hstep (s & Hr & Hh & Hs). destruct (step_ok _ _ _ _ _ _ Hstep Hr Hh Hs) as (s' & Hr' & Hh' & Hs' & _). by exists s'.
Qed.

Lemma insert_then_lookup (c : ShardedLRUCache V) ss k v ch : sharded_ok c ss ->
  (forall s, s ∈ ss -> size_of (held s) + 1 < 2 ^ 31 /\ size_of (order s) + 1 < 2 ^ 31) ->
  exists h ds c1, Sharded_Insert k v ch c = (Some h, ds, c1) /\
    ((exists c2, Sharded_Lookup k c1 = (Some h, c2) /\ Value h c2 = Some v) \/
     (fst (Sharded_Lookup k c1) = None /\ exists ss' s', sharded_ok c1 ss' /\ ss' !! Shard (h_hash h) = Some s' /\ order s' = [])).
Proof.
  intros Hok Hb. set (hs := HashSlice k).
  destruct (on_shard_spec c ss k (None, []) (fun sh => let '(a, ds, sh) := Insert k hs v ch sh in ((Some (mkHandlePtr hs a), ds), sh)) Hok)
    as (sh & s & Hsh & Hs & Hr & Hop).
  destruct (Hb s (list_elem_of_lookup_2 _ _ _ Hs)) as [Hb1 Hb2].
  destruct (Insert_refines sh s k hs v ch Hr ltac:(lia) Hb2) as (sh1 & E1 & Hr1 & Hnone).
  destruct (new_handle sh s k hs v ch Hr ltac:(lia)) as (_ & Ha & _). set (a := fresh (dom (next sh))) in *.
  destruct (Hop (Some (mkHandlePtr hs a), fst (spec_insert a k hs v ch s)) sh1 _ ltac:(by rewrite E1) Hr1) as (c1 & Ec & Hc1 & Hok1).
  exists (mkHandlePtr hs a), (fst (spec_insert a k hs v ch s)), c1. split; [exact Ec|].
  assert (Hfa : spec_find k hs s <> Some a) by (intros E; apply find_in in E as [E _]; done).
  pose proof (spec_insert_find sh1 s a k hs v ch (order_nodup _ _ _ Hr) Ha Hfa Hr1) as Hfind.
  set (s1 := snd (spec_insert a k hs v ch s)) in *.
  assert (Hheld : size_of (held s1) < 2 ^ 31).
  { destruct (spec_insert_cases a k hs v ch s) as (s0 & S0 & E0 & _). unfold s1. rewrite E0, spec_evict_held, (sh_held _ _ S0). cbn. unfold size_of in *. cbn. lia. }
  destruct (Lookup_refines sh1 s1 k hs Hr1 Hheld) as (sh2 & E2 & Hr2).
  destruct (on_shard_spec c1 _ k None (fun sh => let '(a, sh) := Lookup k hs sh in (mkHandlePtr hs <$> a, sh)) Hok1) as (sh1' & s1' & Hsh1 & _ & _ & Hop1).
  fold hs in Hsh1, Hc1. rewrite Hc1 in Hsh1. injection Hsh1 as <-.
  destruct (Hop1 (mkHandlePtr hs <$> fst (spec_lookup k hs s1)) sh2 _ ltac:(by rewrite E2) Hr2) as (c2 & Ec2 & Hc2 & Hok2).
  destruct Hfind as [[Hf He]|[Hf Ho]].
  - left. exists c2. unfold Sharded_Lookup. fold hs in Ec2 |- *. rewrite Ec2. unfold spec_lookup in *. rewrite Hf in *. split; [done|].
    unfold Value. cbn [h_hash h_addr]. fold hs in Hc2. rewrite Hc2. cbn [mbind option_bind].
    cbn [snd] in Hr2. pose proof (re_entries _ _ _ Hr2) as Hx. cbn [entries] in Hx. rewrite Hx, lookup_fmap in He.
    destruct (handles sh2 !! a) as [e|]; [|done]. injection He as _ _ Hv _. cbn. by rewrite Hv.
  - right. unfold Sharded_Lookup. fold hs in Ec2 |- *. rewrite Ec2. unfold spec_lookup. rewrite Hf. split; [done|].
    exists (<[Shard hs := s1]> ss), s1. split; [exact Hok1|]. split; [|done]. apply list_lookup_insert_eq. by eapply lookup_lt_Some.
Qed.

Lemma erase_then_lookup (c : ShardedLRUCache V) ss k : sharded_ok c ss ->
  (forall s, s ∈ ss -> size_of (held s) + 1 < 2 ^ 31 /\ size_of (order s) + 1 < 2 ^ 31) ->
  fst (Sharded_Lookup k (snd (Sharded_Erase k c))) = None.
Proof.
  intros Hok Hb. set (hs := HashSlice k). destruct (on_shard_spec c ss k [] (Erase k hs) Hok) as (sh & s & Hsh & Hs & Hr & Hop).
  destruct (Hb s (list_elem_of_lookup_2 _ _ _ Hs)) as [Hb1 Hb2].
  destruct (Erase_refines sh s k hs Hr ltac:(lia)) as (sh1 & E1 & Hr1). destruct (Hop _ sh1 _ E1 Hr1) as (c1 & Ec & Hc1 & Hok1).
  set (s1 := snd (spec_erase k hs s)) in *. unfold Sharded_Erase. fold hs in Ec |- *. rewrite Ec. cbn [snd].
  assert (Hh : held s1 = held s) by (unfold s1, spec_erase; destruct (spec_find k hs s); [apply spec_drop_held|done]).
  destruct (Lookup_refines sh1 s1 k hs Hr1 ltac:(rewrite Hh; lia)) as (sh2 & E2 & Hr2).
  destruct (on_shard_spec c1 _ k None (fun sh => let '(a, sh) := Lookup k hs sh in (mkHandlePtr hs <$> a, sh)) Hok1) as (sh1' & s1' & Hsh1 & _ & _ & Hop1).
  fold hs in Hsh1, Hc1. rewrite Hc1 in Hsh1. injection Hsh1 as <-.
  destruct (Hop1 (mkHandlePtr hs <$> fst (spec_lookup k hs s1)) sh2 _ ltac:(by rewrite E2) Hr2) as (c2 & Ec2 & _).
  unfold Sharded_Lookup. fold hs in Ec2 |- *. rewrite Ec2. unfold spec_lookup. by rewrite (spec_erase_find sh s k hs Hr : spec_find k hs s1 = None).
Qed.

(** C37: each operation of a shard (the hash table of chains, the circular list of
    handles and the reference counts) does what the abstract cache does: the same
    results, the same deleter calls in the same order, and a state that represents
    the abstract one; the loops that evict and prune take as many steps as they
    need.  The abstract cache looks entries up by key and hash, keeps the entries of
    the list in the order of their last use, evicts the oldest while it is over its
    capacity, and drops an entry when it is neither in the list nor held. *)
Theorem lru_shard_refines (c : LRUCache V) (s : LRU V) : shard_ok c s -> size_of (held s) < 2 ^ 31 -> size_of (order s) + 1 < 2 ^ 31 ->
  (forall k hs, exists c', Lookup k hs c = (fst (spec_lookup k hs s), c') /\ shard_ok c' (snd (spec_lookup k hs s))) /\
  (forall k hs v ch, let a := fresh (dom (next c)) in exists c',
    Insert k hs v ch c = (a, fst (spec_insert a k hs v ch s), c') /\ shard_ok c' (snd (spec_insert a k hs v ch s)) /\ entries s !! a = None) /\
  (forall a, a ∈ held s -> exists c', Release a c = (fst (spec_release a s), c') /\ shard_ok c' (snd (spec_release a s))) /\
  (forall k hs, exists c', Erase k hs c = (fst (spec_erase k hs s), c') /\ shard_ok c' (snd (spec_erase k hs s))) /\
  (exists c', Prune c = (fst (spec_prune (order s) s), c') /\ shard_ok c' (snd (spec_prune (order s) s))).
Proof.
  intros Hr Hh Ho. split; [intros k hs; by apply Lookup_refines|]. split; [intros k hs v ch; by apply Insert_refines|].
  split; [intros a Ha; by apply Release_refines|]. split; [intros k hs; apply Erase_refines; [done|lia]|]. apply shard_prune; [done|lia].
Qed.

(** C38: whatever its clients do with a shard, as long as they release only handles
    that they hold, its list, table, reference counts and usage stay consistent, every
    handle held is in memory, and the charges add up to at most the capacity unless
    only held entries are left; an entry stays the same while its handle is held. *)
Theorem shard_invariant capacity (c : LRUCache V) hd : 0 <= capacity -> shard_reachable capacity c hd ->
  exists s, shard_ok c s /\ held s = hd /\ (usage_ c <= capacity \/ order s = []) /\
    (forall a, a ∈ hd -> is_Some (handles c !! a)) /\
    forall c' hd', shard_step (c, hd) (c', hd') -> forall a, a ∈ hd -> a ∈ hd' ->
      entry_of <$> handles c' !! a = entry_of <$> handles c !! a.
Proof.
  intros Hcap Hreach. destruct (reachable_ok capacity c hd Hcap Hreach) as (s & Hr & Hh & Hs). exists s. split; [done|]. split; [done|]. split; [|split].
  - rewrite (re_usage _ _ _ Hr), spec_usage_total by apply Hs. apply Hs.
  - intros a Ha. apply (re_live _ _ _ Hr). right. by rewrite Hh.
  - intros c' hd' Hstep a Ha Ha'. destruct (step_ok _ _ _ _ _ _ Hstep Hr Hh Hs) as (s' & Hr' & _ & _ & He).
    specialize (He a Ha Ha'). by rewrite (re_entries _ _ _ Hr), (re_entries _ _ _ Hr'), !lookup_fmap in He.
Qed.

(** After an insertion into the cache a lookup of the key gives the new handle,
    which leads to the value, unless its shard evicted everything in its list; after
    [Erase] a lookup gives nothing. *)
Theorem cache_insert_lookup (c : ShardedLRUCache V) ss k v ch : sharded_ok c ss ->
  (forall s, s ∈ ss -> size_of (held s) + 1 < 2 ^ 31 /\ size_of (order s) + 1 < 2 ^ 31) ->
  (exists h ds c1, Sharded_Insert k v ch c = (Some h, ds, c1) /\
    ((exists c2, Sharded_Lookup k c1 = (Some h, c2) /\ Value h c2 = Some v) \/
     (fst (Sharded_Lookup k c1) = None /\ exists ss' s', sharded_ok c1 ss' /\ ss' !! Shard (h_hash h) = Some s' /\ order s' = []))) /\
  fst (Sharded_Lookup k (snd (Sharded_Erase k c))) = None.
Proof.
  intros Hok Hb. split; [by apply (insert_then_lookup c ss)|by apply (erase_then_lookup c ss)].
Qed.
End Properties.

(** A shard of capacity 3 in which two insertions and a lookup were made. *)
Definition example_shard : LRUCache Z :=
  let c := SetCapacity 3 LRUCache_make in
  let '(_, _, c) := Insert (str "a") 7 10 1 c in let '(_, _, c) := Insert (str "b") 7 20 1 c in snd (Lookup (str "a") 7 c).

Example example_eviction : fst (Lookup (str "b") 7 (snd (Insert (str "c") 9 30 2 example_shard))) = None.
Proof. vm_compute. reflexivity. Qed.

Lemma lru_shard_refines_witness : exists c', Insert (V := Z) (str "a") 7 10 1 (SetCapacity 3 LRUCache_make) = (1%nat, [], c').
Proof.
  destruct (lru_shard_refines (V := Z) (SetCapacity 3 LRUCache_make) _ (new_shard 3) eq_refl eq_refl) as (_ & Hi & _).
  destruct (Hi (str "a") 7 10 1) as (c' & E & _). exists c'. exact E.
Defined.

Lemma shard_invariant_witness : exists c' (s : LRU Z), shard_reachable 3 c' [1%nat] /\ shard_ok c' s /\ held s = [1%nat].
Proof.
  set (c' := snd (Insert (V := Z) (str "a") 7 10 1 (SetCapacity 3 LRUCache_make))).
  assert (H : shard_reachable 3 c' [1%nat]).
  { eapply rtc_l; [|apply rtc_refl]. change [1%nat] with (1%nat :: []). eapply (step_insert _ _ (str "a") 7 10 1); done. }
  destruct (shard_invariant 3 c' [1%nat] ltac:(lia) H) as (s & H1 & H2 & _). by exists c', s.
Defined.

Lemma cache_insert_lookup_witness : fst (Sharded_Lookup (str "k") (snd (Sharded_Erase (str "k") (NewLRUCache (V := Z) 1000)))) = None.
Proof.
  refine (proj2 (cache_insert_lookup _ _ (str "k") 1 1 (new_sharded_ok 1000) _)).
  intros s (-> & _)%elem_of_replicate. done.
Defined.
