(* ===== verification/CacheClient.v ===== *)
(** * CacheClient: what the clients of the cache rely on

    The table cache keeps open tables and the tables keep their blocks in caches
    ([Cache]).  A client puts in values of which a predicate of key and value holds, and
    finds only such values, whatever was evicted meanwhile; it gives back the handles
    that it was given.  [n] bounds the handles that are held of a shard. *)

From S2P Require Import Prelude Coding Slice FilterPolicy Cache.

Section Client.
Context {V : Type} (P : bytes -> V -> Prop) (capacity max_charge : Z).
Implicit Types (s : LRU V) (c : ShardedLRUCache V).

Record shard_good (n : Z) s : Prop := {
  sg_ok : spec_ok capacity s;
  sg_held : size_of (held s) <= n;
  sg_entries a e : entries s !! a = Some e -> P (e_key e) (e_value e) /\ 1 <= e_charge e <= max_charge
}.

Definition cached (n : Z) c : Prop := exists ss, sharded_ok c ss /\ Forall (shard_good n) ss.

Lemma cached_weaken n m c : cached n c -> n <= m -> cached m c.
Proof. intros (ss & H1 & H2) Hm. exists ss. split; [done|]. eapply Forall_impl; [exact H2|]. intros s []. split; [done|lia|done]. Qed.

Lemma total_size (m : gmap nat (Entry V)) : (forall a e, m !! a = Some e -> 1 <= e_charge e <= max_charge) -> Z.of_nat (size m) <= map_fold (fun _ e n => e_charge e + n) 0 m <= max_charge * Z.of_nat (size m).
Proof.
  induction m as [|a e m Hm _ IH] using map_first_key_ind; intros H; [rewrite map_fold_empty, map_size_empty; lia|]. rewrite usage_insert, map_size_insert_None, Nat2Z.inj_succ, Z.mul_succ_r by done.
  pose proof (H a e (lookup_insert_eq _ _ _)). assert (Z.of_nat (size m) <= map_fold (fun _ e n => e_charge e + n) 0 m <= max_charge * Z.of_nat (size m)); [|lia].
  apply IH. intros b e' Hb. apply (H b). rewrite lookup_insert_ne; [done|]. intros ->. congruence.
Qed.

Lemma listed_or_held (sh : LRUCache V) s a : shard_ok sh s -> a ∈ order s \/ a ∈ held s <-> a ∈ dom (entries s).
Proof.
  intros Hr. rewrite elem_of_dom, (re_entries _ _ _ Hr), lookup_fmap, fmap_is_Some. split; [apply (re_live _ _ _ Hr)|].
  intros [e He]. destruct (re_refs _ _ _ Hr a e He) as [H1 H2]. unfold references in H1. destruct (decide (a ∈ order s)); [by left|right].
  apply count_pos. lia.
Qed.

(** As every charge is at least 1, the capacity bounds the number of entries. *)
Lemma order_bound n (sh : LRUCache V) s : 0 <= capacity -> shard_ok sh s -> shard_good n s -> size_of (order s) <= capacity.
Proof.
  intros Hc Hr [Hok _ He]. destruct (so_bound _ _ Hok) as [Hb|Hb]; [|unfold size_of; rewrite Hb; cbn; lia].
  assert (Hsz : Z.of_nat (size (entries s)) <= total s) by (apply total_size; intros a e Ha; by apply (He a)).
  assert (Hl : (length (order s) <= size (entries s))%nat).
  { rewrite <- size_dom. assert (Hn : NoDup (order s)) by (by eapply order_nodup). rewrite <- (size_list_to_set (C := gset nat) (order s)) by done.
    apply subseteq_size. intros a Ha%elem_of_list_to_set. apply (listed_or_held sh s a Hr). by left. }
  unfold size_of. lia.
Qed.

(** What is in use is within the capacity, or held. *)
Lemma in_use_bound n (sh : LRUCache V) s : 0 <= max_charge -> shard_ok sh s -> shard_good n s -> total s <= Z.max capacity (max_charge * n).
Proof.
  intros Hc Hr [Hok Hh He]. destruct (so_bound _ _ Hok) as [Hb|Hb]; [lia|].
  assert (Hsz : total s <= max_charge * Z.of_nat (size (entries s))) by (apply total_size; intros a e Ha; by apply (He a)).
  assert (Hl : (size (entries s) <= length (held s))%nat).
  { rewrite <- size_dom. apply submseteq_length, NoDup_submseteq; [apply NoDup_elements|]. intros a Ha%elem_of_elements.
    apply (listed_or_held sh s a Hr) in Ha. rewrite Hb in Ha. destruct Ha as [Ha|Ha]; [by apply not_elem_of_nil in Ha|done]. }
  unfold size_of in *. assert (max_charge * Z.of_nat (size (entries s)) <= max_charge * n) by (apply Z.mul_le_mono_nonneg_l; lia). lia.
Qed.

Lemma good_shrinks n s s' : shard_good n s -> shrinks s s' -> shard_good n s'.
Proof.
  intros [H1 H2 H3] Hs. split; [by eapply spec_ok_shrinks|by rewrite (sh_held _ _ Hs)|]. intros a e Ha. apply (H3 a). eapply lookup_weaken; [done|apply Hs].
Qed.

Lemma good_held n m s l : shard_good n s -> size_of l <= m -> shard_good m (set_held l s).
Proof. intros [[] ? ?] Hl. split; [by split|done|done]. Qed.

Lemma remove_first a l : remove_one a (a :: l) = l.
Proof. cbn. by rewrite decide_True. Qed.

(** A handle that was just given is given back. *)
Lemma release_first (sh : LRUCache V) s n a l : shard_ok sh s -> held s = a :: l -> size_of l <= n -> shard_good (n + 1) s ->
  exists ds sh' s', Release a sh = (ds, sh') /\ shard_ok sh' s' /\ shard_good n s'.
Proof.
  intros Hr Hh Hl Hg. destruct (Release_refines sh s a Hr) as (sh' & E & Hr'); [rewrite Hh; left|]. eexists _, sh', _. split; [exact E|]. split; [exact Hr'|].
  unfold spec_release. rewrite Hh, remove_first. eapply good_shrinks; [|apply collect_shrinks]. by eapply good_held.
Qed.

(** The value of a handle of the shard of its key. *)
Lemma value_of c k sh s a e : shard_ c !! Shard (HashSlice k) = Some sh -> shard_ok sh s -> entries s !! a = Some e -> Value (mkHandlePtr (HashSlice k) a) c = Some (e_value e).
Proof.
  intros Hc Hr He. unfold Value. cbn [h_hash h_addr]. rewrite Hc. cbn [mbind option_bind]. rewrite (re_entries _ _ _ Hr), lookup_fmap in He.
  destruct (handles sh !! a) as [x|]; [|done]. by injection He as <-.
Qed.

Lemma release_shard c ss i k sh s n a l : sharded_ok c ss -> Forall (shard_good n) (delete i ss) -> i = Shard (HashSlice k) ->
  shard_ c !! i = Some sh -> ss !! i = Some s -> shard_ok sh s -> held s = a :: l -> size_of l <= n -> shard_good (n + 1) s ->
  cached n (snd (Sharded_Release (mkHandlePtr (HashSlice k) a) c)).
Proof.
  intros Hok Hf -> Hsh Hs Hr Hh Hl Hg. destruct (release_first sh s n a l Hr Hh Hl Hg) as (ds & sh' & s' & E & Hr' & Hg').
  destruct (on_shard_spec c ss k [] (Release a) Hok) as (sh0 & s0 & Hsh0 & Hs0 & _ & Hop). rewrite Hsh in Hsh0. injection Hsh0 as <-.
  destruct (Hop ds sh' s' E Hr') as (c' & Ec & _ & Hok'). unfold Sharded_Release. cbn [h_hash h_addr]. rewrite Ec. exists (<[Shard (HashSlice k) := s']> ss). split; [exact Hok'|].
  rewrite insert_take_drop by (by eapply lookup_lt_Some). rewrite delete_take_drop in Hf. apply Forall_app in Hf as [H1 H2]. apply Forall_app. by split; [|constructor].
Qed.

Lemma good_delete n ss i : Forall (shard_good n) ss -> Forall (shard_good n) (delete i ss).
Proof. rewrite delete_take_drop. intros H. apply Forall_app. split; [by apply Forall_take|by apply Forall_drop]. Qed.

Lemma delete_of_insert {A} (i : nat) (x : A) (l : list A) : delete i (<[i := x]> l) = delete i l.
Proof. revert i. induction l as [|y l IH]; intros [|i]; [done..|]. cbn. f_equal. apply IH. Qed.

Lemma good_insert n m ss i s : Forall (shard_good n) ss -> n <= m -> shard_good m s -> Forall (shard_good m) (<[i := s]> ss).
Proof.
  intros H Hm Hs. apply Forall_insert; [|done]. eapply Forall_impl; [exact H|]. intros s' []. split; [done|lia|done].
Qed.

Lemma find_keyed (sh : LRUCache V) s k hs a : shard_ok sh s -> spec_find k hs s = Some a -> exists e, entries s !! a = Some e /\ e_key e = k.
Proof.
  intros Hr Ha. apply find_in in Ha as [_ Ha]. unfold has in Ha. destruct (entries s !! a) as [e|]; [|done]. apply andb_true_iff in Ha as [_ Ha%slice_eq_spec]. by exists e.
Qed.

(** A lookup finds nothing, or a handle of a value that was put in under the key. *)
Lemma cached_lookup n c k : cached n c -> n + 1 < 2 ^ 31 ->
  (exists c', Sharded_Lookup k c = (None, c') /\ cached n c') \/
  (exists h c' v, Sharded_Lookup k c = (Some h, c') /\ Value h c' = Some v /\ P k v /\ cached (n + 1) c' /\ cached n (snd (Sharded_Release h c'))).
Proof.
  intros (ss & Hok & Hg) Hn. set (hs := HashSlice k).
  destruct (on_shard_spec c ss k None (fun sh => let '(a, sh) := Lookup k hs sh in (mkHandlePtr hs <$> a, sh)) Hok) as (sh & s & Hsh & Hs & Hr & Hop).
  assert (Hgs : shard_good n s) by (rewrite Forall_forall in Hg; by eapply Hg, list_elem_of_lookup_2).
  destruct (Lookup_refines sh s k hs Hr ltac:(pose proof (sg_held _ _ Hgs); lia)) as (sh' & E & Hr').
  destruct (Hop _ sh' _ ltac:(by rewrite E) Hr') as (c' & Ec & Hc' & Hok'). unfold Sharded_Lookup. fold hs in Ec |- *. rewrite Ec.
  assert (Hok1 : spec_ok capacity (snd (spec_lookup k hs s))) by (eapply spec_lookup_ok; [exact Hr|apply Hgs]).
  unfold spec_lookup in *. destruct (spec_find k hs s) as [a|] eqn:Ea; cbn [fst snd fmap option_fmap option_map] in *.
  - right. destruct (find_keyed sh s k hs a Hr Ea) as (e & He & Hk). exists (mkHandlePtr hs a), c', (e_value e).
    assert (Hg' : shard_good (n + 1) (mkSpec (without a (order s) ++ [a]) (entries s) (a :: held s) (cap s))).
    { split; [done|cbn [held]; rewrite size_of_cons; pose proof (sg_held _ _ Hgs); lia|apply Hgs]. }
    split; [done|]. split; [by eapply value_of|]. split; [rewrite <- Hk; by eapply (sg_entries _ _ Hgs)|]. split.
    + eexists. split; [exact Hok'|]. eapply good_insert; [done|lia|done].
    + eapply (release_shard c' _ (Shard hs) k); [exact Hok'| |done|exact Hc'| |exact Hr'|reflexivity|apply Hgs|done].
      * rewrite delete_of_insert. by apply good_delete.
      * apply list_lookup_insert_eq. by eapply lookup_lt_Some.
  - left. exists c'. split; [done|]. eexists. split; [exact Hok'|]. by eapply good_insert.
Qed.

(** A value that is put in is there while its handle is held. *)
Lemma cached_insert n c k v ch : cached n c -> n + 1 < 2 ^ 31 -> 0 <= capacity < 2 ^ 31 - 1 -> Z.max capacity (max_charge * n) + max_charge < 2 ^ 32 ->
  P k v -> 1 <= ch <= max_charge ->
  exists h ds c', Sharded_Insert k v ch c = (Some h, ds, c') /\ Value h c' = Some v /\ cached (n + 1) c' /\ cached n (snd (Sharded_Release h c')).
Proof.
  intros (ss & Hok & Hg) Hn Hcap Hmax HP Hch. set (hs := HashSlice k).
  destruct (on_shard_spec c ss k (None, []) (fun sh => let '(a, ds, sh) := Insert k hs v ch sh in ((Some (mkHandlePtr hs a), ds), sh)) Hok) as (sh & s & Hsh & Hs & Hr & Hop).
  assert (Hgs : shard_good n s) by (rewrite Forall_forall in Hg; by eapply Hg, list_elem_of_lookup_2).
  pose proof (order_bound n sh s ltac:(lia) Hr Hgs) as Ho. pose proof (sg_held _ _ Hgs) as Hh. pose proof (in_use_bound n sh s ltac:(lia) Hr Hgs) as Ht.
  destruct (Insert_refines sh s k hs v ch Hr ltac:(lia) ltac:(lia)) as (sh' & E & Hr' & He). destruct (new_handle sh s k hs v ch Hr ltac:(lia)) as (_ & Ha & _).
  set (a := fresh (dom (next sh))) in *.
  destruct (spec_insert_ok capacity a k hs v ch s (sg_ok _ _ Hgs) (order_nodup _ _ _ Hr) Ha He ltac:(lia) ltac:(lia) ltac:(lia)) as [Hok1 Hs1].
  destruct (Hop (Some (mkHandlePtr hs a), fst (spec_insert a k hs v ch s)) sh' _ ltac:(by rewrite E) Hr') as (c' & Ec & Hc' & Hok').
  set (s' := snd (spec_insert a k hs v ch s)) in *. assert (Hheld : held s' = a :: held s) by apply (sh_held _ _ Hs1).
  assert (Hsub : entries s' ⊆ <[a := mkEntry k hs v ch]> (entries s)) by apply Hs1.
  assert (Hentry : entries s' !! a = Some (mkEntry k hs v ch)).
  { assert (Hin : a ∈ dom (entries s')) by (apply (listed_or_held sh' s' a Hr'); right; rewrite Hheld; left). apply elem_of_dom in Hin as [e Hin].
    rewrite Hin. f_equal. pose proof (lookup_weaken _ _ _ _ Hin Hsub) as H. rewrite lookup_insert_eq in H. by injection H. }
  assert (Hg' : shard_good (n + 1) s').
  { split; [done|rewrite Hheld, size_of_cons; lia|]. intros b e Hb. apply (lookup_weaken _ _ _ _ Hb) in Hsub. apply lookup_insert_Some in Hsub as [[_ <-]|[_ Hb']]; [done|by apply (sg_entries _ _ Hgs b)]. }
  exists (mkHandlePtr hs a), (fst (spec_insert a k hs v ch s)), c'. split; [exact Ec|]. split; [by eapply (value_of c' k sh' s' a _ Hc' Hr' Hentry)|]. split.
  - eexists. split; [exact Hok'|]. eapply good_insert; [done|lia|done].
  - eapply (release_shard c' _ (Shard hs) k); [exact Hok'| |done|exact Hc'| |exact Hr'|exact Hheld|apply Hgs|done].
    + rewrite delete_of_insert. by apply good_delete.
    + apply list_lookup_insert_eq. by eapply lookup_lt_Some.
Qed.

Lemma cached_erase n c k : cached n c -> 0 <= capacity < 2 ^ 31 -> cached n (snd (Sharded_Erase k c)).
Proof.
  intros (ss & Hok & Hg) Hcap. destruct (on_shard_spec c ss k [] (Erase k (HashSlice k)) Hok) as (sh & s & Hsh & Hs & Hr & Hop).
  assert (Hgs : shard_good n s) by (rewrite Forall_forall in Hg; by eapply Hg, list_elem_of_lookup_2).
  pose proof (order_bound n sh s ltac:(lia) Hr Hgs) as Ho.
  destruct (Erase_refines sh s k (HashSlice k) Hr ltac:(lia)) as (sh1 & E1 & Hr1). destruct (Hop _ sh1 _ E1 Hr1) as (c1 & Ec & Hc1 & Hok1).
  unfold Sharded_Erase. rewrite Ec. eexists. split; [exact Hok1|]. eapply good_insert; [exact Hg|lia|]. eapply good_shrinks; [exact Hgs|].
  unfold spec_erase. destruct (spec_find k (HashSlice k) s); [apply spec_drop_shrinks|by split].
Qed.

(** A key that was erased is not found. *)
Lemma cached_erased n c k : cached n c -> n + 1 < 2 ^ 31 -> 0 <= capacity < 2 ^ 31 - 1 -> fst (Sharded_Lookup k (snd (Sharded_Erase k c))) = None.
Proof.
  intros (ss & Hok & Hg) Hn Hcap. apply (erase_then_lookup c ss k Hok). intros s Hs. rewrite Forall_forall in Hg. pose proof (Hg s Hs) as Hgs. pose proof (sg_held _ _ Hgs).
  destruct Hok as [_ Hshards]. apply list_elem_of_lookup in Hs as [i Hi]. destruct (Forall2_lookup_r _ _ _ _ _ Hshards Hi) as (sh & _ & Hr).
  pose proof (order_bound n sh s ltac:(lia) Hr Hgs). lia.
Qed.

Lemma cached_id n c : cached n c -> cached n (snd (NewId c)).
Proof. intros (ss & [H1 H2] & Hg). exists ss. split; [|done]. by split. Qed.
End Client.

Lemma cached_new {V} (P : bytes -> V -> Prop) capacity max_charge : 0 <= capacity -> capacity + 15 < 2 ^ 32 ->
  cached P ((capacity + 15) / 16) max_charge 0 (NewLRUCache capacity).
Proof.
  intros H1 H2. exists (replicate 16 (mkSpec [] ∅ [] (usize (capacity + 15) / 16))). split; [apply new_sharded_ok|]. apply Forall_replicate.
  rewrite usize_small by lia. split; [split; cbn; try done; by right|done|]. intros a e. cbn. by rewrite lookup_empty.
Qed.
