(* ===== verification/Version.v ===== *)
(** * Version: the levels of table files and their search

    Models the parts of [db/version_set.h] and [db/version_set.cpp] that read a
    [Version]: the search of a level, its iterators, [Get], the statistics of seeks
    and the overlap queries.  A [FileMetaData*] is an address together with the
    fields that never change; [allowed_seeks], which reads change, is a map from
    addresses. *)

From Stdlib Require Import SpecFloat.
From stdpp Require Import sorting.
From S2P Require Import Prelude Coding Slice Logging Comparator DbFormat VersionEdit MemTable Iterator Table.

Record FilePtr : Type := mkFilePtr { f_addr : nat; f_meta :> FileMetaData }.

#[global] Instance FileMetaData_eq_dec : EqDecision FileMetaData.
Proof. solve_decision. Defined.
#[global] Instance FilePtr_eq_dec : EqDecision FilePtr.
Proof. solve_decision. Defined.

(** [double] *)
Definition double : Type := spec_float.
Definition double_of_Z (z : Z) : double := binary_normalize 53 1024 z 0 false.

Record Version : Type := mkVersion {
  files_ : list (list FilePtr);
  file_to_compact_ : option FilePtr;
  file_to_compact_level_ : Z;
  compaction_score_ : double;
  compaction_level_ : Z
}.

(** A new [Version]: no files in the seven levels. *)
Definition Version_make : Version :=
  mkVersion (replicate (Z.to_nat kNumLevels) []) None (-1) (double_of_Z (-1)) (-1).

Definition level_files (v : Version) (level : Z) : list FilePtr := nth (Z.to_nat level) (files_ v) [].

Definition levels : list Z := map Z.of_nat (seq 0 (Z.to_nat kNumLevels)).

Definition kTargetFileSize : Z := 2 * 1048576.
Definition kMaxGrandParentOverlapBytes : Z := 10 * kTargetFileSize.

Definition TotalFileSize (files : list FilePtr) : Z := fold_left (fun sum (f : FilePtr) => i64 (sum + file_size f)) files 0.

Section Search.
Context (ucmp : Comparator).

(** ** The search of a level *)

Fixpoint FindFile_loop (fuel : nat) (files : list FilePtr) (key : bytes) (left right : Z) : Z :=
  match fuel with
  | O => right
  | S fuel =>
      if left <? right then
        let mid := u32 (left + right) / 2 in
        match (files !! Z.to_nat mid : option FilePtr) with
        | Some f =>
            match InternalKey_Compare ucmp (largest f) key with
            | Lt => FindFile_loop fuel files key (mid + 1) right
            | _ => FindFile_loop fuel files key left mid
            end
        | None => right
        end
      else right
  end.

(** The interval gets shorter with each step. *)
Definition FindFile (files : list FilePtr) (key : bytes) : Z :=
  FindFile_loop (length files) files key 0 (u32 (size_of files)).

(** A NULL [user_key] is [None]. *)
Definition AfterFile (user_key : option bytes) (f : FilePtr) : bool :=
  match user_key with
  | Some k => match Compare ucmp k (ExtractUserKey (largest f)) with Gt => true | _ => false end
  | None => false
  end.

Definition BeforeFile (user_key : option bytes) (f : FilePtr) : bool :=
  match user_key with
  | Some k => match Compare ucmp k (ExtractUserKey (smallest f)) with Lt => true | _ => false end
  | None => false
  end.

Definition SomeFileOverlapsRange (disjoint_sorted_files : bool) (files : list FilePtr) (smallest_user_key largest_user_key : option bytes) : bool :=
  if negb disjoint_sorted_files then
    existsb (fun f : FilePtr => negb (AfterFile smallest_user_key f || BeforeFile largest_user_key f)) files
  else
    let index := match smallest_user_key with
                 | Some k => FindFile files (InternalKey_make k kMaxSequenceNumber kValueTypeForSeek)
                 | None => 0
                 end in
    match (files !! Z.to_nat index : option FilePtr) with
    | None => false
    | Some f => negb (BeforeFile largest_user_key f)
    end.

Definition OverlapInLevel (v : Version) (level : Z) (smallest_user_key largest_user_key : option bytes) : bool :=
  SomeFileOverlapsRange (level >? 0) (level_files v level) smallest_user_key largest_user_key.

(** *** The iterator over the files of a level *)

Record LevelFileNumIterator : Type := mkLevelIter { flist_ : list FilePtr; index_ : Z }.

Definition LevelFileNumIterator_make (flist : list FilePtr) : LevelFileNumIterator := mkLevelIter flist (size_of flist).

Definition current_file (it : LevelFileNumIterator) : option FilePtr := flist_ it !! Z.to_nat (index_ it).

#[global] Instance LevelFileNumIterator_Iterator : Iterator LevelFileNumIterator := {|
  Valid it := index_ it <? size_of (flist_ it);
  key it := match current_file it with Some f => largest f | None => [] end;
  value it := match current_file it with Some f => PutFixed64 (PutFixed64 [] (number f)) (file_size f) | None => [] end;
  status it := OK;
  SeekToFirst it := mkLevelIter (flist_ it) 0;
  SeekToLast it := mkLevelIter (flist_ it) (match flist_ it with [] => 0 | _ => size_of (flist_ it) - 1 end);
  Seek target it := mkLevelIter (flist_ it) (FindFile (flist_ it) target);
  Next it := mkLevelIter (flist_ it) (u32 (index_ it + 1));
  Prev it := mkLevelIter (flist_ it) (if index_ it =? 0 then size_of (flist_ it) else index_ it - 1)
|}.

(** ** Overlapping files *)

(** One pass over the files: [inr] is the range with which the search restarts. *)
Fixpoint overlap_scan (level : Z) (user_begin user_end : option bytes) (files inputs : list FilePtr) :
    list FilePtr + option bytes * option bytes :=
  match files with
  | [] => inl inputs
  | f :: files =>
      let file_start := ExtractUserKey (smallest f) in
      let file_limit := ExtractUserKey (largest f) in
      if match user_begin with Some b => match Compare ucmp file_limit b with Lt => true | _ => false end | None => false end then
        overlap_scan level user_begin user_end files inputs
      else if match user_end with Some e => match Compare ucmp file_start e with Gt => true | _ => false end | None => false end then
        overlap_scan level user_begin user_end files inputs
      else if level =? 0 then
        if match user_begin with Some b => match Compare ucmp file_start b with Lt => true | _ => false end | None => false end then
          inr (Some file_start, user_end)
        else if match user_end with Some e => match Compare ucmp file_limit e with Gt => true | _ => false end | None => false end then
          inr (user_begin, Some file_limit)
        else overlap_scan level user_begin user_end files (inputs ++ [f])
      else overlap_scan level user_begin user_end files (inputs ++ [f])
  end.

Fixpoint overlap_restart (fuel : nat) (level : Z) (user_begin user_end : option bytes) (files : list FilePtr) : option (list FilePtr) :=
  match fuel with
  | O => None
  | S fuel =>
      match overlap_scan level user_begin user_end files [] with
      | inl inputs => Some inputs
      | inr (b, e) => overlap_restart fuel level b e files
      end
  end.

(** A restart makes a file's end the end of the range: there are at most two for each
    file.  [begin] and [end_] are internal keys, [None] for NULL. *)
Definition overlap_fuel (files : list FilePtr) : nat := S (2 * length files).

Definition GetOverlappingInputs (v : Version) (level : Z) (begin end_ : option bytes) : option (list FilePtr) :=
  let files := level_files v level in
  overlap_restart (overlap_fuel files) level (ExtractUserKey <$> begin) (ExtractUserKey <$> end_) files.

(** [while (level < config::kMaxMemCompactLevel)] *)
Fixpoint PickLevel_loop (fuel : nat) (v : Version) (smallest_user_key largest_user_key start limit : bytes) (level : Z) : option Z :=
  match fuel with
  | O => None
  | S fuel =>
      if level <? kMaxMemCompactLevel then
        if OverlapInLevel v (level + 1) (Some smallest_user_key) (Some largest_user_key) then Some level
        else if level + 2 <? kNumLevels then
          overlaps ← GetOverlappingInputs v (level + 2) (Some start) (Some limit);
          if TotalFileSize overlaps >? kMaxGrandParentOverlapBytes then Some level
          else PickLevel_loop fuel v smallest_user_key largest_user_key start limit (level + 1)
        else PickLevel_loop fuel v smallest_user_key largest_user_key start limit (level + 1)
      else Some level
  end.

Definition PickLevelForMemTableOutput (v : Version) (smallest_user_key largest_user_key : bytes) : option Z :=
  if negb (OverlapInLevel v 0 (Some smallest_user_key) (Some largest_user_key)) then
    let start := InternalKey_make smallest_user_key kMaxSequenceNumber kValueTypeForSeek in
    let limit := InternalKey_make largest_user_key 0 kTypeDeletion in
    PickLevel_loop 3 v smallest_user_key largest_user_key start limit 0
  else Some 0.

(** ** Reads *)

(** The files of level 0 that may hold the key, newest first. *)
Definition NewestFirst (a b : FilePtr) : Prop := number b <= number a.
#[global] Instance NewestFirst_dec a b : Decision (NewestFirst a b) := decide (number b <= number a).

Definition in_range (user_key : bytes) (f : FilePtr) : bool :=
  match Compare ucmp user_key (ExtractUserKey (smallest f)) with
  | Lt => false
  | _ => match Compare ucmp user_key (ExtractUserKey (largest f)) with Gt => false | _ => true end
  end.

Definition level0_candidates (files : list FilePtr) (user_key : bytes) : list FilePtr :=
  merge_sort NewestFirst (base.filter (fun f : FilePtr => in_range user_key f = true) files).

(** The file of another level that may hold the key. *)
Definition level_candidate (files : list FilePtr) (user_key internal_key : bytes) : list FilePtr :=
  match (files !! Z.to_nat (FindFile files internal_key) : option FilePtr) with
  | None => []
  | Some f => match Compare ucmp user_key (ExtractUserKey (smallest f)) with Lt => [] | _ => [f] end
  end.

Definition candidates (v : Version) (level : Z) (user_key internal_key : bytes) : list FilePtr :=
  if level =? 0 then level0_candidates (level_files v level) user_key
  else level_candidate (level_files v level) user_key internal_key.
End Search.

Record GetStats : Type := mkGetStats { seek_file : option FilePtr; seek_file_level : Z }.

Module SaverState.
Inductive t : Type := kNotFound | kFound | kDeleted | kCorrupt.
End SaverState.

Record Saver : Type := mkSaver { state : SaverState.t; s_value : bytes }.

Definition SaveValue (ucmp : Comparator) (ukey : bytes) (s : Saver) (ikey v : bytes) : Saver :=
  match ParseInternalKey ikey with
  | None => mkSaver SaverState.kCorrupt (s_value s)
  | Some parsed_key =>
      match Compare ucmp (user_key parsed_key) ukey with
      | Eq => if type parsed_key =? value_type_code kTypeValue then mkSaver SaverState.kFound v
              else mkSaver SaverState.kDeleted (s_value s)
      | _ => s
      end
  end.

(** What [Version] needs of the table cache: [Get] of a file's number and size. *)
Class TableGetter (C : Type) := {
  Cache_Get {A : Type} : ReadOptions -> Z -> Z -> bytes -> A -> (A -> bytes -> bytes -> A) -> C -> Status * A * C
}.

Section Reads.
Context (ucmp : Comparator) {C : Type} `{!TableGetter C}.

(** The locals of [Get] that outlive a file. *)
Record GetState : Type := mkGetState {
  g_value : bytes;
  g_stats : GetStats;
  last_file_read : option (FilePtr * Z);
  g_cache : C
}.

(** The loop over the files of a level; [Some]: [Get] returns. *)
Fixpoint Get_files (options : ReadOptions) (ukey ikey : bytes) (level : Z) (files : list FilePtr) (g : GetState) : option Status * GetState :=
  match files with
  | [] => (None, g)
  | f :: files =>
      let stats := match last_file_read g, seek_file (g_stats g) with
                   | Some (lf, ll), None => mkGetStats (Some lf) ll
                   | _, _ => g_stats g
                   end in
      let '(s, saver, cache) := Cache_Get options (number f) (file_size f) ikey (mkSaver SaverState.kNotFound (g_value g)) (SaveValue ucmp ukey) (g_cache g) in
      let g := mkGetState (s_value saver) stats (Some (f, level)) cache in
      if negb (ok s) then (Some s, g)
      else match state saver with
           | SaverState.kNotFound => Get_files options ukey ikey level files g
           | SaverState.kFound => (Some s, g)
           | SaverState.kDeleted => (Some (NotFound [] []), g)
           | SaverState.kCorrupt => (Some (Corruption (str "corrupted key for ") ukey), g)
           end
  end.

Fixpoint Get_levels (options : ReadOptions) (ukey ikey : bytes) (v : Version) (ls : list Z) (g : GetState) : Status * GetState :=
  match ls with
  | [] => (NotFound [] [], g)
  | level :: ls =>
      match Get_files options ukey ikey level (candidates ucmp v level ukey ikey) g with
      | (Some s, g) => (s, g)
      | (None, g) => Get_levels options ukey ikey v ls g
      end
  end.

(** [Version::Get] *)
Definition Get (options : ReadOptions) (k : LookupKey) (v : Version) (value : bytes) (cache : C) : Status * bytes * GetStats * C :=
  let '(s, g) := Get_levels options (LookupKey_user_key k) (LookupKey_internal_key k) v levels
    (mkGetState value (mkGetStats None (-1)) None cache) in
  (s, g_value g, g_stats g, g_cache g).
End Reads.

(** ** Statistics of seeks *)

(** [allowed_seeks] of the files. *)
Definition Seeks : Type := gmap nat Z.

Definition set_file_to_compact (f : FilePtr) (level : Z) (v : Version) : Version :=
  mkVersion (files_ v) (Some f) level (compaction_score_ v) (compaction_level_ v).

Definition UpdateStats (stats : GetStats) (v : Version) (seeks : Seeks) : bool * Version * Seeks :=
  match seek_file stats with
  | Some f =>
      let n := i32 (default 0 (seeks !! f_addr f) - 1) in
      let seeks := <[f_addr f := n]> seeks in
      match file_to_compact_ v with
      | None => if n <=? 0 then (true, set_file_to_compact f (seek_file_level stats) v, seeks) else (false, v, seeks)
      | Some _ => (false, v, seeks)
      end
  | None => (false, v, seeks)
  end.

Section Samples.
Context (ucmp : Comparator).

(** [func] gets the level and the file, and tells whether to go on. *)
Fixpoint each_file {A} (func : A -> Z -> FilePtr -> A * bool) (level : Z) (files : list FilePtr) (arg : A) : A * bool :=
  match files with
  | [] => (arg, true)
  | f :: files => let '(arg, go_on) := func arg level f in if go_on then each_file func level files arg else (arg, false)
  end.

Fixpoint each_level {A} (v : Version) (ukey ikey : bytes) (func : A -> Z -> FilePtr -> A * bool) (ls : list Z) (arg : A) : A :=
  match ls with
  | [] => arg
  | level :: ls =>
      let '(arg, go_on) := each_file func level (candidates ucmp v level ukey ikey) arg in
      if go_on then each_level v ukey ikey func ls arg else arg
  end.

Definition ForEachOverlapping {A} (ukey ikey : bytes) (arg : A) (func : A -> Z -> FilePtr -> A * bool) (v : Version) : A :=
  each_level v ukey ikey func levels arg.

(** [State::Match] on the statistics and [matches]. *)
Definition Match (st : GetStats * Z) (level : Z) (f : FilePtr) : (GetStats * Z) * bool :=
  let matches := snd st + 1 in
  (if matches =? 1 then (mkGetStats (Some f) level, matches) else (fst st, matches), matches <? 2).

Definition RecordReadSample (ikey : bytes) (v : Version) (seeks : Seeks) : bool * Version * Seeks :=
  match ParseInternalKey ikey with
  | None => (false, v, seeks)
  | Some parsed =>
      let '(stats, matches) := ForEachOverlapping (user_key parsed) ikey (mkGetStats None (-1), 0) Match v in
      if matches >=? 2 then UpdateStats stats v seeks else (false, v, seeks)
  end.
End Samples.

(** ** Version::DebugString *)

Definition file_string (f : FilePtr) : bytes :=
  str " " ++ NumberToString (number f) ++ str ":" ++ NumberToString (file_size f) ++ str "[" ++
  InternalKey_DebugString (smallest f) ++ str " .. " ++ InternalKey_DebugString (largest f) ++ str "]" ++ [z2b 10].

Definition Version_DebugString (v : Version) : bytes :=
  concat (map (fun level => str "--- level " ++ NumberToString level ++ str " ---" ++ [z2b 10] ++
    concat (map file_string (level_files v level))) levels).

(** ** The search of a level *)

Section Laws.
Context (ucmp : Comparator) `{!ComparatorLaws ucmp}.

Abbreviation icmp := (InternalKeyComparator ucmp).

(** The largest keys of the files, which the search compares. *)
Definition by_largest (files : list FilePtr) : Prop :=
  StronglySorted (fun f g : FilePtr => Compare icmp (largest f) (largest g) = Lt) files.

(** What [LevelFileNumIterator] yields. *)
Definition file_entry (f : FilePtr) : bytes * bytes := (largest f, PutFixed64 (PutFixed64 [] (number f)) (file_size f)).

(** [n] is the position of the first file whose largest key is not before [key]. *)
Definition first_file (files : list FilePtr) (key : bytes) (n : nat) : Prop :=
  (n <= length files)%nat /\
  (forall i (f : FilePtr), files !! i = Some f -> (i < n)%nat -> Compare icmp (largest f) key = Lt) /\
  (forall (f : FilePtr), files !! n = Some f -> Compare icmp (largest f) key <> Lt).

Lemma first_file_seek files key n : first_file files key n ->
  seek_position icmp (map file_entry files) key = if (n <? length files)%nat then Some n else None.
Proof.
  intros (Hn & Hb & Ha). destruct (Nat.ltb_spec n (length files)) as [Hlt|Hge].
  - destruct (lookup_lt_is_Some_2 files n Hlt) as [f Hf]. apply seek_position_Some. exists (file_entry f).
    split; [by rewrite list_lookup_fmap, Hf|]. split; [by apply Ha|]. intros j e Hj Hlt'.
    apply list_lookup_fmap_Some in Hj as (g & -> & Hg). by apply (Hb j).
  - apply seek_position_None. intros j e Hj. apply list_lookup_fmap_Some in Hj as (g & -> & Hg). apply (Hb j); [done|].
    apply lookup_lt_Some in Hg. lia.
Qed.

Lemma FindFile_loop_spec fuel files key left right : by_largest files -> size_of files < 2 ^ 31 ->
  0 <= left <= right -> right <= size_of files -> right - left <= Z.of_nat fuel ->
  (forall i (f : FilePtr), files !! i = Some f -> Z.of_nat i < left -> Compare icmp (largest f) key = Lt) ->
  (forall i (f : FilePtr), files !! i = Some f -> right <= Z.of_nat i -> Compare icmp (largest f) key <> Lt) ->
  exists n, FindFile_loop ucmp fuel files key left right = Z.of_nat n /\ first_file files key n.
Proof.
  intros Hs Hsz. revert left right. induction fuel as [|fuel IH]; intros left right Hl Hr Hf Hb Ha; cbn [FindFile_loop].
  all: assert (Hend : left = right -> exists n, right = Z.of_nat n /\ first_file files key n) by
    (intros ->; exists (Z.to_nat right); split; [lia|]; split; [unfold size_of in *; lia|]; split;
      [intros i f Hi Hlt; apply (Hb i f Hi); lia|intros f Hi; apply (Ha _ f Hi); lia]).
  - apply Hend. lia.
  - destruct (Z.ltb_spec left right) as [Hlt|Hge]; [|apply Hend; lia].
    rewrite u32_small by lia. set (mid := (left + right) / 2). assert (Hm : left <= mid < right) by (unfold mid; dlia).
    destruct (lookup_lt_is_Some_2 files (Z.to_nat mid)) as [f Hfm]; [unfold size_of in *; lia|]. rewrite Hfm.
    assert (Hle : forall i (g : FilePtr), files !! i = Some g -> Z.of_nat i <= mid -> Compare icmp (largest g) (largest f) <> Gt).
    { intros i g Hi Hle. destruct (decide (i = Z.to_nat mid)) as [->|Hne]; [rewrite Hfm in Hi; injection Hi as <-; by rewrite compare_refl|].
      by rewrite (StronglySorted_lookup _ _ _ _ _ _ Hs Hi Hfm ltac:(lia)). }
    assert (Hge : forall i (g : FilePtr), files !! i = Some g -> mid <= Z.of_nat i -> Compare icmp (largest f) (largest g) <> Gt).
    { intros i g Hi Hge. destruct (decide (i = Z.to_nat mid)) as [->|Hne]; [rewrite Hfm in Hi; injection Hi as <-; by rewrite compare_refl|].
      by rewrite (StronglySorted_lookup _ _ _ _ _ _ Hs Hfm Hi ltac:(lia)). }
    change (InternalKey_Compare ucmp (largest f) key) with (Compare icmp (largest f) key).
    destruct (Compare icmp (largest f) key) eqn:E; apply IH; try lia; try done.
    + intros i g Hi Hmi. specialize (Hge i g Hi Hmi). intros Hc. pose proof (compare_le_lt_trans _ _ _ Hge Hc). congruence.
    + intros i g Hi Hmi. specialize (Hle i g Hi ltac:(lia)). by apply (compare_le_lt_trans _ (largest f)).
    + intros i g Hi Hmi. specialize (Hge i g Hi Hmi). intros Hc. pose proof (compare_le_lt_trans _ _ _ Hge Hc). congruence.
Qed.

Lemma FindFile_spec files key : by_largest files -> size_of files < 2 ^ 31 ->
  exists n, FindFile ucmp files key = Z.of_nat n /\ first_file files key n.
Proof.
  intros Hs Hsz. unfold FindFile. pose proof (size_of_nonneg files). rewrite u32_small by lia.
  apply FindFile_loop_spec; try done; try (unfold size_of in *; lia).
  intros i f Hi Hle. apply lookup_lt_Some in Hi. unfold size_of in Hle. lia.
Qed.

Definition level_rep (files : list FilePtr) (it : LevelFileNumIterator) (p : option nat) : Prop :=
  flist_ it = files /\ match p with Some i => index_ it = Z.of_nat i /\ (i < length files)%nat | None => size_of files <= index_ it end.

Lemma LevelFileNumIterator_laws files : by_largest files -> size_of files < 2 ^ 31 ->
  IteratorLaws (Iterator0 := LevelFileNumIterator_Iterator ucmp) icmp (map file_entry files) (level_rep files).
Proof.
  intros Hs Hsz. unfold size_of in Hsz. split; intros [fl ix] p; unfold level_rep; cbn [flist_ index_].
  - intros (-> & Hp). cbn [Valid LevelFileNumIterator_Iterator flist_ index_]. destruct p as [i|]; [destruct Hp as [-> Hp]; apply Z.ltb_lt; unfold size_of; lia|apply Z.ltb_ge; exact Hp].
  - intros (-> & -> & Hp). cbn. unfold current_file. cbn [flist_ index_]. rewrite Nat2Z.id, list_lookup_fmap.
    by destruct (lookup_lt_is_Some_2 files p Hp) as [f ->].
  - done.
  - intros (-> & _). split; [done|]. destruct files; cbn; [done|split; lia].
  - intros (-> & _). split; [done|]. unfold last_position. rewrite length_map. destruct files; cbn; [done|]. unfold size_of. cbn. split; lia.
  - intros target Ht (-> & _). split; [done|]. cbn [Seek LevelFileNumIterator_Iterator flist_ index_].  destruct (FindFile_spec files target Hs ltac:(unfold size_of; lia)) as (n & -> & Hn).
    rewrite (first_file_seek _ _ _ Hn). destruct (Nat.ltb_spec n (length files)); [done|unfold size_of; lia].
  - intros (-> & -> & Hp). split; [done|]. cbn [Next LevelFileNumIterator_Iterator flist_ index_]. unfold next_position. rewrite length_map, u32_small by lia.
    destruct (Nat.ltb_spec (S p) (length files)); [split; lia|unfold size_of; lia].
  - intros (-> & -> & Hp). split; [done|]. destruct p as [|p]; [exact (Z.le_refl _)|]. cbn -[Z.of_nat]. destruct (Z.eqb_spec (Z.of_nat (S p)) 0); [lia|]. split; lia.
Qed.

(** ** Overlapping files *)

(** The user keys of a file lie in order between its bounds, which are internal keys. *)
Definition valid_key (k : bytes) : Prop := is_Some (ParseInternalKey k).

Definition file_ok (f : FilePtr) : Prop :=
  valid_key (smallest f) /\ valid_key (largest f) /\ Compare icmp (smallest f) (largest f) <> Gt.

(** The files of a level other than 0: in order, without overlap. *)
Definition disjoint_files (files : list FilePtr) : Prop :=
  StronglySorted (fun f g : FilePtr => Compare icmp (largest f) (smallest g) = Lt) files.

Definition level_ok (files : list FilePtr) : Prop := Forall file_ok files /\ disjoint_files files.

Lemma level_by_largest files : level_ok files -> by_largest files.
Proof.
  intros [Hf Hs]. induction Hs as [|f files Hs IH Hlt]; [constructor|]. apply Forall_cons in Hf as [Hf0 Hf].
  constructor; [by apply IH|]. apply Forall_forall. intros g Hg. rewrite Forall_forall in Hlt, Hf.
  apply (compare_lt_le_trans _ (smallest g)); [by apply Hlt|]. by apply Hf.
Qed.

(** No user key of the file is in the range, whose absent bounds are infinite. *)
Definition outside (lo hi : option bytes) (f : FilePtr) : Prop :=
  match lo with Some k => Compare ucmp (ExtractUserKey (largest f)) k = Lt | None => False end \/
  match hi with Some k => Compare ucmp k (ExtractUserKey (smallest f)) = Lt | None => False end.

Lemma AfterFile_spec k f : AfterFile ucmp k f = true <-> match k with Some k => Compare ucmp (ExtractUserKey (largest f)) k = Lt | None => False end.
Proof.
  unfold AfterFile. destruct k as [k|]; [|done]. rewrite <- compare_gt_lt. by destruct (Compare ucmp k _).
Qed.

Lemma BeforeFile_spec k f : BeforeFile ucmp k f = true <-> match k with Some k => Compare ucmp k (ExtractUserKey (smallest f)) = Lt | None => False end.
Proof. unfold BeforeFile. destruct k as [k|]; [|done]. by destruct (Compare ucmp k _). Qed.

Lemma not_outside lo hi f : negb (AfterFile ucmp lo f || BeforeFile ucmp hi f) = true <-> ~ outside lo hi f.
Proof. unfold outside. rewrite negb_true_iff, orb_false_iff, <- !not_true_iff_false, AfterFile_spec, BeforeFile_spec. tauto. Qed.

Lemma internal_user_le a b : Compare icmp a b <> Gt -> Compare ucmp (ExtractUserKey a) (ExtractUserKey b) <> Gt.
Proof. change (Compare icmp) with (InternalKey_Compare ucmp). rewrite InternalKey_Compare_spec. by destruct (Compare ucmp (ExtractUserKey a) (ExtractUserKey b)). Qed.

Lemma valid_tag k : valid_key k -> DecodeFixed64 (tag_bytes k) <= 2 ^ 64 - 255.
Proof.
  intros [p Hp]. unfold ParseInternalKey in Hp. destruct (_ <? 8); [done|]. destruct (Z.leb_spec (Z.land (DecodeFixed64 (tag_bytes k)) 255) (value_type_code kTypeValue)) as [Hc|]; [|done].
  rewrite land_255 in Hc. cbn in Hc. assert (Hr : DecodeFixed64 (tag_bytes k) < 2 ^ 64) by apply DecodeFixed64_range. dlia.
Qed.

(** The seek key of a user key comes before every internal key of it. *)
Lemma seek_key_least u k : valid_key k ->
  Compare icmp k (InternalKey_make u kMaxSequenceNumber kValueTypeForSeek) = Lt <-> Compare ucmp (ExtractUserKey k) u = Lt.
Proof.
  intros Hk. change (Compare icmp) with (InternalKey_Compare ucmp). rewrite InternalKey_Compare_spec, InternalKey_make_PutFixed64, ExtractUserKey_PutFixed64.
  destruct (Compare ucmp (ExtractUserKey k) u); [|done..]. split; [|done]. intros Hc. exfalso.
  rewrite DecodeFixed64_tag_PutFixed64 in Hc by (apply PackSequenceAndType_range; by vm_compute). rewrite Z.compare_lt_iff in Hc.
  pose proof (valid_tag k Hk). change (PackSequenceAndType kMaxSequenceNumber (value_type_code kValueTypeForSeek)) with (2 ^ 64 - 255) in Hc. lia.
Qed.

Lemma not_outside_cons lo hi f : ~ outside lo hi f -> match lo with Some k => Compare ucmp (ExtractUserKey (largest f)) k <> Lt | None => True end.
Proof. unfold outside. destruct lo; tauto. Qed.

Lemma disjoint_user files i j (f g : FilePtr) : level_ok files -> files !! i = Some f -> files !! j = Some g -> (i <= j)%nat ->
  Compare ucmp (ExtractUserKey (smallest f)) (ExtractUserKey (smallest g)) <> Gt.
Proof.
  intros [Hf Hs] Hi Hj Hle. destruct (decide (i = j)) as [->|Hne].
  - rewrite Hi in Hj. injection Hj as ->. by rewrite compare_refl.
  - apply internal_user_le. pose proof (StronglySorted_lookup _ _ _ _ _ _ Hs Hi Hj ltac:(lia)) as Hlt. rewrite Forall_lookup in Hf.
    destruct (Hf i f Hi) as (_ & _ & Hfg). by rewrite (compare_le_lt_trans _ _ _ Hfg Hlt).
Qed.

Lemma sorted_overlap files lo hi : level_ok files -> size_of files < 2 ^ 31 ->
  SomeFileOverlapsRange ucmp true files lo hi = true <-> exists f, f ∈ files /\ ~ outside lo hi f.
Proof.
  intros Hok Hsz. cbn [SomeFileOverlapsRange negb]. set (index := match lo with Some _ => _ | None => 0 end).
  assert (Hi : exists n, index = Z.of_nat n /\ (forall i (f : FilePtr), files !! i = Some f -> (i < n)%nat -> outside lo hi f) /\
     (forall (f : FilePtr), files !! n = Some f -> match lo with Some k => Compare ucmp (ExtractUserKey (largest f)) k <> Lt | None => True end)).
  { destruct lo as [k|]; [|exists O; split; [done|]; split; [intros; lia|done]].
    destruct (FindFile_spec files (InternalKey_make k kMaxSequenceNumber kValueTypeForSeek) (level_by_largest _ Hok) Hsz) as (n & Hn & _ & Hb & Ha).
    assert (Hv : forall i (f : FilePtr), files !! i = Some f -> valid_key (largest f)).
    { intros i f Hi. destruct Hok as [Hf _]. rewrite Forall_lookup in Hf. by destruct (Hf i f Hi) as (_ & ? & _). }
    exists n. split; [done|]. split.
    - intros i f Hi Hlt. left. apply seek_key_least; [by eapply Hv|by eapply Hb].
    - intros f Hf Hc. apply (Ha f Hf). apply seek_key_least; [by eapply Hv|done]. }
  destruct Hi as (n & -> & Hb & Ha). rewrite Nat2Z.id. destruct (files !! n : option FilePtr) as [f|] eqn:Hn.
  - rewrite negb_true_iff, <- not_true_iff_false, BeforeFile_spec. split.
    + intros Hh. exists f. split; [by eapply list_elem_of_lookup_2|]. intros [Ho|Ho]; [|by apply Hh].
      specialize (Ha f eq_refl). by destruct lo.
    + intros (g & Hg & Hno) Hh. apply Hno. apply list_elem_of_lookup_1 in Hg as [j Hj]. destruct (decide (j < n)%nat) as [Hlt|Hge]; [by apply (Hb j)|].
      right. destruct hi as [h|]; [|done]. apply (compare_lt_le_trans _ (ExtractUserKey (smallest f))); [done|]. eapply disjoint_user; [done|exact Hn|exact Hj|lia].
  - split; [done|]. intros (g & Hg & Hno). exfalso. apply Hno. apply list_elem_of_lookup_1 in Hg as [j Hj]. apply (Hb j g Hj).
    apply lookup_lt_Some in Hj. apply lookup_ge_None in Hn. lia.
Qed.

Lemma overlap_spec sorted files lo hi : (sorted = true -> level_ok files) -> size_of files < 2 ^ 31 ->
  SomeFileOverlapsRange ucmp sorted files lo hi = true <-> exists f, f ∈ files /\ ~ outside lo hi f.
Proof.
  intros Hok Hsz. destruct sorted; [by apply sorted_overlap; [apply Hok|]|]. cbn [SomeFileOverlapsRange negb].
  rewrite existsb_exists. split.
  - intros (f & Hf & Ho). exists f. rewrite list_elem_of_In. split; [done|by apply not_outside].
  - intros (f & Hf & Ho). exists f. rewrite <- list_elem_of_In. split; [done|by apply not_outside].
Qed.
End Laws.

(** *** GetOverlappingInputs *)

Section Overlaps.
Context (ucmp : Comparator) `{!ComparatorLaws ucmp}.

Abbreviation start f := (ExtractUserKey (smallest (f_meta f))).
Abbreviation limit f := (ExtractUserKey (largest (f_meta f))).

#[global] Instance outside_dec lo hi f : Decision (outside ucmp lo hi f).
Proof. unfold outside. destruct lo, hi; apply _. Defined.

(** The files that the range touches. *)
Definition overlapping (lo hi : option bytes) (files : list FilePtr) : list FilePtr :=
  base.filter (fun f => ~ outside ucmp lo hi f) files.

Lemma elem_overlapping lo hi files f : f ∈ overlapping lo hi files <-> f ∈ files /\ ~ outside ucmp lo hi f.
Proof. unfold overlapping. rewrite list_elem_of_filter. tauto. Qed.

(** The range covers the user keys of the file. *)
Definition covers (lo hi : option bytes) (f : FilePtr) : Prop :=
  match lo with Some k => Compare ucmp (start f) k <> Lt | None => True end /\
  match hi with Some k => Compare ucmp k (limit f) <> Lt | None => True end.

(** The range of a restart: one of its ends becomes that of the file. *)
Definition widened (f : FilePtr) (lo hi lo' hi' : option bytes) : Prop :=
  (exists k, lo = Some k /\ Compare ucmp (start f) k = Lt /\ lo' = Some (start f) /\ hi' = hi) \/
  (exists k, hi = Some k /\ Compare ucmp k (limit f) = Lt /\ hi' = Some (limit f) /\ lo' = lo).

Lemma overlap_scan_spec level lo hi files inputs :
  match overlap_scan ucmp level lo hi files inputs with
  | inl r => r = inputs ++ overlapping lo hi files /\ (level = 0 -> forall f, f ∈ files -> ~ outside ucmp lo hi f -> covers lo hi f)
  | inr (lo', hi') => level = 0 /\ exists f, f ∈ files /\ ~ outside ucmp lo hi f /\ widened f lo hi lo' hi'
  end.
Proof.
  revert inputs. induction files as [|f files IH]; intros inputs; cbn [overlap_scan].
  { split; [by rewrite app_nil_r|]. intros _ f Hf. by apply not_elem_of_nil in Hf. }
  set (b1 := match lo with Some b => match Compare ucmp (limit f) b with Lt => true | _ => false end | None => false end).
  set (b2 := match hi with Some e => match Compare ucmp (start f) e with Gt => true | _ => false end | None => false end).
  set (b3 := match lo with Some b => match Compare ucmp (start f) b with Lt => true | _ => false end | None => false end).
  set (b4 := match hi with Some e => match Compare ucmp (limit f) e with Gt => true | _ => false end | None => false end).
  assert (H12 : b1 || b2 = true <-> outside ucmp lo hi f).
  { unfold b1, b2, outside. rewrite orb_true_iff. apply ZifyClasses.or_morph.
    - destruct lo as [l|]; [|done]. by destruct (Compare ucmp (limit f) l).
    - destruct hi as [h|]; [|done]. rewrite <- compare_gt_lt. by destruct (Compare ucmp (start f) h). }
  assert (Hout : forall g, outside ucmp lo hi f -> g ∈ f :: files -> ~ outside ucmp lo hi g -> g ∈ files) by (intros g Ho [->|Hg]%elem_of_cons Hn; done).
  assert (Hskip : outside ucmp lo hi f -> overlapping lo hi (f :: files) = overlapping lo hi files).
  { intros Ho. unfold overlapping. by rewrite filter_cons_False by tauto. }
  assert (Htake : ~ outside ucmp lo hi f -> forall i, i ++ overlapping lo hi (f :: files) = (i ++ [f]) ++ overlapping lo hi files).
  { intros Ho i. unfold overlapping. rewrite filter_cons_True by done. by rewrite <- app_assoc. }
  destruct b1 eqn:E1; [|destruct b2 eqn:E2]; try (specialize (IH inputs); rewrite Hskip by (by apply H12); destruct (overlap_scan _ _ _ _ _ _) as [r|[lo' hi']];
    [destruct IH as [-> IH]; split; [done|]; intros H0 g Hg Hn; apply IH; [done|apply Hout; [by apply H12|done|done]|done]
    |destruct IH as (H0 & g & Hg & Hn & Hw); split; [done|]; exists g; split; [by right|done]]).
  assert (Hno : ~ outside ucmp lo hi f) by (rewrite <- H12; done). rewrite (Htake Hno).
  destruct (Z.eqb_spec level 0) as [->|Hl].
  - destruct b3 eqn:E3; [|destruct b4 eqn:E4].
    + split; [done|]. exists f. split; [left|]. split; [done|]. left. unfold b3 in E3. destruct lo as [l|]; [|done]. exists l. by destruct (Compare ucmp (start f) l).
    + split; [done|]. exists f. split; [left|]. split; [done|]. right. unfold b4 in E4. destruct hi as [h|]; [|done]. exists h. rewrite <- compare_gt_lt. by destruct (Compare ucmp (limit f) h).
    + specialize (IH (inputs ++ [f])). destruct (overlap_scan _ _ _ _ _ _) as [r|[lo' hi']].
      * destruct IH as [-> IH]. split; [done|]. intros _ g [->|Hg]%elem_of_cons Hn; [|by apply IH]. unfold b3, b4 in *. split.
        -- destruct lo as [l|]; [|done]. by destruct (Compare ucmp (start f) l).
        -- destruct hi as [h|]; [|done]. rewrite <- compare_gt_lt. by destruct (Compare ucmp (limit f) h).
      * destruct IH as (_ & g & Hg & Hn & Hw). split; [done|]. exists g. split; [by right|done].
  - specialize (IH (inputs ++ [f])). destruct (overlap_scan _ _ _ _ _ _) as [r|[lo' hi']]; [|by destruct IH].
    destruct IH as [-> _]. split; [done|]. intros; lia.
Qed.

(** The files that stick out of the range on each side: a restart leaves fewer. *)
Definition left_of (lo : option bytes) (f : FilePtr) : bool :=
  match lo with Some k => match Compare ucmp (start f) k with Lt => true | _ => false end | None => false end.
Definition right_of (hi : option bytes) (f : FilePtr) : bool :=
  match hi with Some k => match Compare ucmp k (limit f) with Lt => true | _ => false end | None => false end.
Definition sticking (lo hi : option bytes) (files : list FilePtr) : nat :=
  (length (base.filter (left_of lo) files) + length (base.filter (right_of hi) files))%nat.

Lemma filter_fewer {A} (P Q : A -> bool) (l : list A) : (forall x, Q x -> P x) -> (length (base.filter Q l) <= length (base.filter P l))%nat.
Proof.
  intros H. induction l as [|x l IH]; [done|]. rewrite !filter_cons. destruct (decide (Q x)) as [HQ|HQ], (decide (P x)) as [HP|HP]; cbn [length]; try lia.
  exfalso. apply HP. by apply H.
Qed.

Lemma filter_fewer_strict {A} (P Q : A -> bool) (l : list A) x : (forall x, Q x -> P x) -> x ∈ l -> P x -> ~ Q x -> (length (base.filter Q l) < length (base.filter P l))%nat.
Proof.
  intros H (l1 & l2 & ->)%list_elem_of_split HP HQ. rewrite !filter_app, !filter_cons, decide_False, decide_True, !length_app by done. cbn [length].
  pose proof (filter_fewer P Q l1 H). pose proof (filter_fewer P Q l2 H). lia.
Qed.

Lemma widened_sticking f lo hi lo' hi' files : f ∈ files -> widened f lo hi lo' hi' -> (sticking lo' hi' files < sticking lo hi files)%nat.
Proof.
  intros Hf [(k & -> & Hk & -> & ->)|(k & -> & Hk & -> & ->)]; unfold sticking.
  - assert (length (base.filter (left_of (Some (start f))) files) < length (base.filter (left_of (Some k)) files))%nat; [|lia].
    apply (filter_fewer_strict _ _ _ f); [|done| |]; unfold left_of.
    + intros g Hg. destruct (Compare ucmp (start g) (start f)) eqn:E; try done. by rewrite (compare_lt_trans _ _ _ E Hk).
    + by rewrite Hk.
    + rewrite compare_refl. by intros [].
  - assert (length (base.filter (right_of (Some (limit f))) files) < length (base.filter (right_of (Some k)) files))%nat; [|lia].
    apply (filter_fewer_strict _ _ _ f); [|done| |]; unfold right_of.
    + intros g Hg. destruct (Compare ucmp (limit f) (limit g)) eqn:E; try done. by rewrite (compare_lt_trans _ _ _ Hk E).
    + by rewrite Hk.
    + rewrite compare_refl. by intros [].
Qed.

Lemma sticking_bound lo hi files : (sticking lo hi files <= 2 * length files)%nat.
Proof. unfold sticking. pose proof (length_filter (left_of lo) files). pose proof (length_filter (right_of hi) files). lia. Qed.

(** Files share a user key, by their bounds. *)
Definition touch (f g : FilePtr) : Prop := ~ outside ucmp (Some (start f)) (Some (limit f)) g.

(** The least set of files that has those that touch the range and is closed. *)
Definition closed (files : list FilePtr) (S : FilePtr -> Prop) : Prop := forall f g, S f -> g ∈ files -> touch f g -> S g.

Lemma widened_overlap f lo hi lo' hi' files S : widened f lo hi lo' hi' -> f ∈ files -> ~ outside ucmp lo hi f ->
  (forall g, g ∈ files -> Compare ucmp (start g) (limit g) <> Gt) ->
  (forall g, g ∈ files -> ~ outside ucmp lo hi g -> ~ outside ucmp lo' hi' g) /\
  (closed files S -> (forall g, g ∈ files -> ~ outside ucmp lo hi g -> S g) -> forall g, g ∈ files -> ~ outside ucmp lo' hi' g -> S g).
Proof.
  intros Hw Hf Hno Hord. split.
  - intros g Hg Hn Ho. apply Hn. clear Hn. destruct Hw as [(k & -> & Hk & -> & ->)|(k & -> & Hk & -> & ->)]; destruct Ho as [Ho|Ho]; unfold outside; auto.
    + left. by apply (compare_lt_trans _ (start f)).
    + right. by apply (compare_lt_trans _ (limit f)).
  - intros Hcl HS g Hg Hn. destruct (decide (outside ucmp lo hi g)) as [Ho|]; [|by apply HS]. apply (Hcl f g); [by apply HS|done|].
    pose proof (Hord g Hg) as Hog. pose proof (Hord f Hf) as Hof. unfold touch, outside in *.
    destruct Hw as [(k & -> & Hk & -> & ->)|(k & -> & Hk & -> & ->)].
    + assert (Hlk : Compare ucmp (limit g) k = Lt) by tauto. intros [Hc|Hc]; [by apply Hn; left|]. apply Hno. left.
      apply (compare_lt_trans _ (start g)); [done|]. by apply (compare_le_lt_trans _ (limit g)).
    + assert (Hlk : Compare ucmp k (start g) = Lt) by tauto. intros [Hc|Hc]; [|by apply Hn; right]. apply Hno. right.
      apply (compare_lt_trans _ (start g)); [done|]. by apply (compare_le_lt_trans _ (limit g)).
Qed.

Lemma overlap_restart_spec level fuel lo hi files : (level = 0 -> forall g, g ∈ files -> Compare ucmp (start g) (limit g) <> Gt) ->
  (sticking lo hi files < fuel)%nat ->
  exists r lo' hi', overlap_restart ucmp fuel level lo hi files = Some r /\ r = overlapping lo' hi' files /\
    (level <> 0 -> lo' = lo /\ hi' = hi) /\
    (level = 0 -> (forall f, f ∈ r -> covers lo' hi' f) /\ (forall g, g ∈ files -> ~ outside ucmp lo hi g -> g ∈ r) /\
      forall S, closed files S -> (forall g, g ∈ files -> ~ outside ucmp lo hi g -> S g) -> forall g, g ∈ r -> S g).
Proof.
  intros Hord. revert lo hi. induction fuel as [|fuel IH]; intros lo hi Hlt; [lia|]. cbn [overlap_restart].
  pose proof (overlap_scan_spec level lo hi files []) as Hsc. destruct (overlap_scan _ _ _ _ _ _) as [r|[lo1 hi1]].
  - destruct Hsc as [-> Hc]. exists (overlapping lo hi files), lo, hi. split; [done|]. split; [done|]. split; [done|]. intros H0.
    split; [intros f [Hf Hn]%elem_overlapping; by apply Hc|]. split; [intros g Hg Hn; by apply elem_overlapping|].
    intros S _ HS g [Hg Hn]%elem_overlapping. by apply HS.
  - destruct Hsc as (H0 & f & Hf & Hn & Hw). pose proof (widened_sticking _ _ _ _ _ _ Hf Hw) as Hs.
    destruct (IH lo1 hi1 ltac:(lia)) as (r & lo' & hi' & E & Er & _ & Hr). exists r, lo', hi'. split; [done|]. split; [done|]. split; [done|].
    intros _. destruct (Hr H0) as (Hr1 & Hr2 & Hr3). split; [done|]. split.
    + intros g Hg Hng. apply Hr2; [done|]. by apply (widened_overlap f lo hi lo1 hi1 files (fun _ => True) Hw Hf Hn (Hord H0)).
    + intros S Hcl HS. apply Hr3; [done|]. by apply (widened_overlap f lo hi lo1 hi1 files S Hw Hf Hn (Hord H0)).
Qed.

Lemma GetOverlappingInputs_spec v level begin end_ :
  (level = 0 -> forall g, g ∈ level_files v level -> Compare ucmp (start g) (limit g) <> Gt) ->
  let touched g := g ∈ level_files v level /\ ~ outside ucmp (ExtractUserKey <$> begin) (ExtractUserKey <$> end_) g in
  exists inputs, GetOverlappingInputs ucmp v level begin end_ = Some inputs /\ inputs `sublist_of` level_files v level /\
    (forall g, touched g -> g ∈ inputs) /\
    (level <> 0 -> forall g, g ∈ inputs -> touched g) /\
    (level = 0 -> closed (level_files v level) (fun g => g ∈ inputs) /\
       forall S, closed (level_files v level) S -> (forall g, touched g -> S g) -> forall g, g ∈ inputs -> S g).
Proof.
  intros Hord touched. unfold GetOverlappingInputs, overlap_fuel. set (files := level_files v level) in *.
  destruct (overlap_restart_spec level (S (2 * length files)) (ExtractUserKey <$> begin) (ExtractUserKey <$> end_) files Hord) as
    (r & lo & hi & E & Er & Hn0 & H0); [pose proof (sticking_bound (ExtractUserKey <$> begin) (ExtractUserKey <$> end_) files); lia|].
  exists r. split; [done|]. split; [rewrite Er; apply sublist_filter|]. destruct (Z.eq_dec level 0) as [Hl|Hl].
  - destruct (H0 Hl) as (Hc & Hall & Hleast). split; [intros g [Hg Hng]; by apply Hall|]. split; [done|]. intros _. split.
    + intros f g Hf Hg Ht. destruct (Hc f Hf) as [Hcl Hch]. rewrite Er. apply elem_overlapping. split; [done|]. intros Ho. apply Ht. destruct Ho as [Ho|Ho].
      * left. destruct lo as [k|]; [|done]. by apply (compare_lt_le_trans _ k); [|apply compare_not_lt].
      * right. destruct hi as [k|]; [|done]. apply (compare_le_lt_trans _ k); [by apply compare_not_lt|done].
    + intros S Hcl HS. apply Hleast; [done|]. intros g Hg Hng. by apply HS.
  - destruct (Hn0 Hl) as [-> ->]. subst r. split; [intros g [Hg Hng]; by apply elem_overlapping|]. split; [intros _ g Hg; by apply elem_overlapping|done].
Qed.
End Overlaps.

(** ** Get *)

(** What the table cache promises: [Get] of a file gives the saver at most one entry, the
    first at or after the key, and gives it that one if its user key is the key's.
    [readable] are the states of the cache in which this holds, [contents] the entries
    of the file with a number and a size. *)
Class TableGetterLaws (C : Type) `{!TableGetter C} (ucmp : Comparator) (readable : C -> Prop)
    (contents : Z -> Z -> option (list (bytes * bytes))) : Prop := {
  cache_get A ro n size kvs k (arg : A) saver c : readable c -> contents n size = Some kvs -> size_of k < 2 ^ 32 ->
    exists s arg' c', Cache_Get ro n size k arg saver c = (s, arg', c') /\ readable c' /\
      (ok s = true ->
        (arg' = arg \/ exists i k' v', seek_position (InternalKeyComparator ucmp) kvs k = Some i /\ kvs !! i = Some (k', v') /\ arg' = saver arg k' v') /\
        (forall i k' v', seek_position (InternalKeyComparator ucmp) kvs k = Some i -> kvs !! i = Some (k', v') ->
          Compare ucmp (ExtractUserKey k') (ExtractUserKey k) = Eq -> arg' = saver arg k' v'))
}.

Section GetLaws.
Context (ucmp : Comparator) `{!ComparatorLaws ucmp}.
Context {C : Type} `{!TableGetter C} (readable : C -> Prop) (contents : Z -> Z -> option (list (bytes * bytes)))
  `{!TableGetterLaws C ucmp readable contents}.

Abbreviation icmp := (InternalKeyComparator ucmp).

(** The entries of the files. *)
Context (es : FilePtr -> list entry).

(** A file holds its entries, in order, between its smallest and largest keys. *)
Record file_holds (f : FilePtr) : Prop := {
  fh_contents : contents (number f) (file_size f) = Some (map e_pair (es f));
  fh_fits : Forall fits (es f);
  fh_sorted : StronglySorted (fun a b => cmp ucmp a b = Lt) (es f);
  fh_ok : file_ok ucmp f;
  fh_largest : exists e, e ∈ es f /\ internal_key e = largest f;
  fh_bounds e : e ∈ es f -> Compare icmp (smallest f) (internal_key e) <> Gt /\ Compare icmp (internal_key e) (largest f) <> Gt
}.

(** Every entry of [a] is newer than those of [b] of the same user key. *)
Definition newer (a b : list entry) : Prop :=
  forall e e', e ∈ a -> e' ∈ b -> Compare ucmp (e_key e) (e_key e') = Eq -> e_seq e' < e_seq e.

(** The order in which the files of a version are newer: level by level, and in level 0
    by their numbers. *)
Record version_ok (v : Version) : Prop := {
  vo_levels : length (files_ v) = 7%nat;
  vo_size l : size_of (level_files v l) < 2 ^ 31;
  vo_files l f : f ∈ level_files v l -> file_holds f;
  vo_sorted l : 0 < l -> disjoint_files ucmp (level_files v l);
  vo_recent l l' (f g : FilePtr) : 0 <= l < l' -> f ∈ level_files v l -> g ∈ level_files v l' -> newer (es f) (es g);
  vo_recent0 (f g : FilePtr) : f ∈ level_files v 0 -> g ∈ level_files v 0 -> number g < number f -> newer (es f) (es g);
  vo_numbers : NoDup (map (fun f : FilePtr => number f) (level_files v 0))
}.

Definition level_entries (v : Version) (l : Z) : list entry := concat (map es (level_files v l)).
Definition version_entries (v : Version) : list entry := concat (map (level_entries v) levels).

(** *** One file *)

(** What the saver holds after a file with these entries. *)
Definition saved (r : option entry) (value : bytes) : Saver :=
  match r with
  | None => mkSaver SaverState.kNotFound value
  | Some e => match e_type e with
              | kTypeValue => mkSaver SaverState.kFound (e_value e)
              | kTypeDeletion => mkSaver SaverState.kDeleted value
              end
  end.

Lemma SaveValue_entry u e value : fits e ->
  SaveValue ucmp u (mkSaver SaverState.kNotFound value) (internal_key e) (e_value e) =
  saved (match Compare ucmp (e_key e) u with Eq => Some e | _ => None end) value.
Proof.
  intros (Hs & _). unfold SaveValue, internal_key. rewrite ParseInternalKey_make by done. cbn [user_key type].
  destruct (Compare ucmp (e_key e) u); try done. unfold saved. by destruct (e_type e).
Qed.

Lemma size_target u s : size_of u + 8 < 2 ^ 32 -> size_of (InternalKey_make u s kTypeValue) < 2 ^ 32.
Proof. intros Hu. rewrite InternalKey_make_PutFixed64. unfold PutFixed64. by rewrite size_of_app, size_of_EncodeFixed64. Qed.

Lemma file_get f u s ro value c : file_holds f -> readable c -> size_of u + 8 < 2 ^ 32 -> 0 <= s <= kMaxSequenceNumber ->
  exists st sv c', Cache_Get ro (number f) (file_size f) (InternalKey_make u s kTypeValue) (mkSaver SaverState.kNotFound value) (SaveValue ucmp u) c = (st, sv, c') /\
    readable c' /\ (ok st = true -> exists r, sv = saved r value /\ is_newest ucmp u s (es f) r).
Proof.
  intros [Hc Hf Hsort _ _ _] Hr Hu Hs. set (t := InternalKey_make u s kTypeValue).
  destruct (cache_get _ ro _ _ _ t (mkSaver SaverState.kNotFound value) (SaveValue ucmp u) c Hr Hc (size_target u s Hu)) as (st & sv & c' & E & Hr' & Hok).
  exists st, sv, c'. split; [done|]. split; [done|]. intros H. destruct (Hok H) as [Hmay Hmust]. clear Hok.
  set (i := match seek_position icmp (map e_pair (es f)) t with Some i => i | None => length (es f) end).
  assert (Hpos : seek_position icmp (map e_pair (es f)) t = if (i <? length (es f))%nat then Some i else None).
  { unfold i. destruct (seek_position _ _ _) as [j|] eqn:Ej; [|by rewrite Nat.ltb_irrefl].
    apply seek_position_Some in Ej as (x & Hx & _). apply lookup_lt_Some in Hx. rewrite length_map in Hx. by apply Nat.ltb_lt in Hx as ->. }
  assert (Hnew : is_newest ucmp u s (es f) (e ← es f !! i; match Compare ucmp (e_key e) u with Eq => Some e | _ => None end)).
  { apply found_newest; [done..| |].
    - intros j e Hj Hlt. assert (Hje : map e_pair (es f) !! j = Some (e_pair e)) by (by rewrite list_lookup_fmap, Hj).
      destruct (Nat.ltb_spec i (length (es f))) as [Hi|Hi].
      + apply seek_position_Some in Hpos as (x & _ & _ & Hb). exact (Hb j _ Hje Hlt).
      + apply seek_position_None with (j := j) (e := e_pair e) in Hpos; done.
    - intros e Hi. rewrite (proj2 (Nat.ltb_lt _ _) (lookup_lt_Some _ _ _ Hi)) in Hpos. apply seek_position_Some in Hpos as (x & Hx & Hn & _).
      rewrite list_lookup_fmap, Hi in Hx. injection Hx as <-. exact Hn. }
  eexists. split; [|exact Hnew]. destruct (es f !! i) as [e|] eqn:Ei; cbn [mbind option_bind].
  - assert (Hfe : fits e) by (rewrite Forall_lookup in Hf; eauto). rewrite (proj2 (Nat.ltb_lt _ _) (lookup_lt_Some _ _ _ Ei)) in Hpos.
    assert (Hie : map e_pair (es f) !! i = Some (internal_key e, e_value e)) by (by rewrite list_lookup_fmap, Ei).
    rewrite <- (SaveValue_entry u e value Hfe). destruct (Compare ucmp (e_key e) u) eqn:Ec.
    + apply (Hmust i); [done|done|]. unfold t, internal_key. rewrite !InternalKey_make_PutFixed64. by rewrite !ExtractUserKey_PutFixed64.
    + destruct Hmay as [->|(i' & k' & v' & Hi' & Hk' & ->)]; [by rewrite SaveValue_entry, Ec|]. rewrite Hpos in Hi'. injection Hi' as <-. rewrite Hie in Hk'. by injection Hk' as <- <-.
    + destruct Hmay as [->|(i' & k' & v' & Hi' & Hk' & ->)]; [by rewrite SaveValue_entry, Ec|]. rewrite Hpos in Hi'. injection Hi' as <-. rewrite Hie in Hk'. by injection Hk' as <- <-.
  - destruct Hmay as [->|(i' & k' & v' & Hi' & Hk' & _)]; [done|]. exfalso. rewrite Hpos in Hi'. destruct (Nat.ltb_spec i (length (es f))) as [Hlt|]; [|done].
    apply lookup_ge_None in Ei. lia.
Qed.

(** *** The files of a level *)

Lemma visible_target u s e : fits e -> 0 <= s <= kMaxSequenceNumber -> visible ucmp u s e = true ->
  Compare icmp (internal_key e) (InternalKey_make u s kTypeValue) <> Lt.
Proof.
  intros Hf Hs [Hk Hle]%visible_eq. change (Compare icmp) with (InternalKey_Compare ucmp). rewrite cmp_lookup, Hk by done. rewrite Z.compare_lt_iff.
  pose proof (value_type_code_range (e_type e)). lia.
Qed.

Lemma newest_older u s a b r : newer a b -> is_newest ucmp u s a (Some r) -> is_newest ucmp u s (a ++ b) (Some r).
Proof.
  intros Hn (Hr & Hv & Hm). split; [set_solver|]. split; [done|]. intros e [He|He]%elem_of_app Hve; [by apply Hm|].
  apply visible_eq in Hv as [Hv _], Hve as [Hve _]. pose proof (Hn r e Hr He) as H. assert (Compare ucmp (e_key r) (e_key e) = Eq); [|lia || (apply Z.lt_le_incl; auto)].
  change (key_equiv ucmp (e_key r) (e_key e)). transitivity u; [done|by symmetry].
Qed.

Lemma newest_none u s a b r : is_newest ucmp u s a None -> is_newest ucmp u s b r -> is_newest ucmp u s (a ++ b) r.
Proof.
  intros Ha Hb. destruct r as [r|].
  - destruct Hb as (Hr & Hv & Hm). split; [set_solver|]. split; [done|]. intros e [He|He]%elem_of_app Hve; [|by apply Hm]. by rewrite (Ha e He) in Hve.
  - intros e [He|He]%elem_of_app; [by apply Ha|by apply Hb].
Qed.

(** Files without a visible entry do not count. *)
Lemma newest_restrict u s fs fs' r : (forall f, f ∈ fs -> f ∈ fs') ->
  (forall f e, f ∈ fs' -> f ∉ fs -> e ∈ es f -> visible ucmp u s e = false) ->
  is_newest ucmp u s (concat (map es fs)) r -> is_newest ucmp u s (concat (map es fs')) r.
Proof.
  intros Hsub Hno.
  assert (Hin : forall fs e, e ∈ concat (map es fs) <-> exists f, f ∈ fs /\ e ∈ es f).
  { intros fs0 e. rewrite list_elem_of_In, in_concat. setoid_rewrite in_map_iff. split.
    - intros (x & (f & <- & Hf) & He). exists f. by rewrite !list_elem_of_In.
    - intros (f & Hf & He). exists (es f). rewrite <- !list_elem_of_In. split; [|done]. exists f. by rewrite <- list_elem_of_In. }
  assert (Hvis : forall e, e ∈ concat (map es fs') -> visible ucmp u s e = true -> e ∈ concat (map es fs)).
  { intros e (f & Hf & He)%Hin Hv. apply Hin. exists f. destruct (decide (f ∈ fs)) as [|Hn]; [done|]. by rewrite (Hno f e Hf Hn He) in Hv. }
  destruct r as [r|].
  - intros (Hr & Hv & Hm). split; [|split; [done|]].
    + apply Hin in Hr as (f & Hf & Hr). apply Hin. exists f. auto.
    + intros e He Hve. apply Hm; [by apply Hvis|done].
  - intros Hn e He. destruct (visible ucmp u s e) eqn:Hve; [|done]. by rewrite (Hn e (Hvis e He Hve)) in Hve.
Qed.

Lemma key_in_range f e u : file_holds f -> e ∈ es f -> Compare ucmp (e_key e) u = Eq ->
  Compare ucmp (ExtractUserKey (smallest f)) u <> Gt /\ Compare ucmp u (ExtractUserKey (largest f)) <> Gt.
Proof.
  intros Hf He Hk. destruct (fh_bounds f Hf e He) as [H1 H2]. apply (internal_user_le ucmp) in H1, H2.
  assert (Hu : ExtractUserKey (internal_key e) = e_key e) by (unfold internal_key; by rewrite InternalKey_make_PutFixed64, ExtractUserKey_PutFixed64).
  rewrite Hu in H1, H2. split.
  - apply (compare_le_trans _ (e_key e)); [done|]. by rewrite Hk.
  - apply (compare_le_trans _ (e_key e)); [|done]. apply compare_eq_sym in Hk. by rewrite Hk.
Qed.

Lemma level0_newest files u s r : Forall file_holds files ->
  is_newest ucmp u s (concat (map es (level0_candidates ucmp files u))) r -> is_newest ucmp u s (concat (map es files)) r.
Proof.
  intros Hf. rewrite Forall_forall in Hf.
  assert (Hmem : forall f, f ∈ level0_candidates ucmp files u <-> in_range ucmp u f = true /\ f ∈ files).
  { intros f. unfold level0_candidates. rewrite merge_sort_Permutation, list_elem_of_filter. done. }
  apply newest_restrict; [intros f H; by apply Hmem|]. intros f e Hin Hno He. destruct (visible ucmp u s e) eqn:Hv; [|done]. exfalso. apply Hno, Hmem. split; [|done].
  apply visible_eq in Hv as [Hk _]. destruct (key_in_range f e u (Hf f Hin) He Hk) as [H1 H2]. unfold in_range.
  assert (Compare ucmp u (ExtractUserKey (smallest f)) <> Lt) by (rewrite <- compare_gt_lt; done).
  by destruct (Compare ucmp u (ExtractUserKey (smallest f))), (Compare ucmp u (ExtractUserKey (largest f))).
Qed.

(** Entries of the files of a level are in order. *)
Lemma level_order files i j (f g : FilePtr) a b : Forall file_holds files -> disjoint_files ucmp files -> files !! i = Some f -> files !! j = Some g -> (i < j)%nat ->
  a ∈ es f -> b ∈ es g -> cmp ucmp a b = Lt.
Proof.
  intros Hf Hd Hi Hj Hlt Ha Hb. rewrite Forall_lookup in Hf. destruct (fh_bounds f (Hf i f Hi) a Ha) as [_ H1]. destruct (fh_bounds g (Hf j g Hj) b Hb) as [H2 _].
  pose proof (StronglySorted_lookup _ _ _ _ _ _ Hd Hi Hj Hlt) as H. unfold cmp. change (InternalKey_Compare ucmp) with (Compare icmp).
  apply (compare_lt_le_trans _ (smallest g)); [|done]. by apply (compare_le_lt_trans _ (largest f)).
Qed.

(** A visible entry of a later file: the file found has a newer one. *)
Lemma later_seen (f g : FilePtr) e u s t files n j : t = InternalKey_make u s kTypeValue -> 0 <= s <= kMaxSequenceNumber ->
  Forall file_holds files -> disjoint_files ucmp files -> files !! n = Some f -> files !! j = Some g -> (n <= j)%nat ->
  Compare icmp (largest f) t <> Lt -> e ∈ es g -> visible ucmp u s e = true ->
  exists e0, e0 ∈ es f /\ visible ucmp u s e0 = true /\ e_seq e <= e_seq e0.
Proof.
  intros -> Hs Hf Hd Hn Hj Hle Ha He Hv. pose proof Hf as Hf'. rewrite Forall_lookup in Hf'.
  destruct (decide (n = j)) as [->|Hne]; [rewrite Hn in Hj; injection Hj as <-; by exists e|].
  destruct (fh_largest f (Hf' n f Hn)) as (l & Hl & El). pose proof (fh_fits f (Hf' n f Hn)) as Hfit. rewrite Forall_forall in Hfit. specialize (Hfit l Hl).
  pose proof (fh_fits g (Hf' j g Hj)) as Hfg. rewrite Forall_forall in Hfg. specialize (Hfg e He).
  pose proof (level_order files n j f g l e Hf Hd Hn Hj ltac:(lia) Hl He) as Hlt. pose proof Hv as [Hk Hseq]%visible_eq.
  rewrite <- El in Ha. change (Compare icmp) with (InternalKey_Compare ucmp) in Ha. rewrite cmp_lookup in Ha by done.
  assert (Hkl : Compare ucmp (e_key l) u = Eq).
  { pose proof (cmp_user ucmp l e Hlt) as Hu. destruct (Compare ucmp (e_key l) u) eqn:E; [done|done|]. exfalso. apply Hu.
    apply compare_gt_lt. apply compare_gt_lt in E. by apply (compare_le_lt_trans _ u); [rewrite Hk|]. }
  rewrite Hkl in Ha. exists l. split; [done|]. split.
  - apply visible_eq. split; [done|]. rewrite Z.compare_lt_iff in Ha. pose proof (value_type_code_range (e_type l)). lia.
  - apply (cmp_seq ucmp l e Hfit Hfg); [|done]. change (key_equiv ucmp (e_key l) (e_key e)). transitivity u; [done|by symmetry].
Qed.

Lemma level_newest files u s r : Forall file_holds files -> disjoint_files ucmp files -> size_of files < 2 ^ 31 -> 0 <= s <= kMaxSequenceNumber ->
  is_newest ucmp u s (concat (map es (level_candidate ucmp files u (InternalKey_make u s kTypeValue)))) r ->
  is_newest ucmp u s (concat (map es files)) r.
Proof.
  intros Hf Hd Hsz Hs. set (t := InternalKey_make u s kTypeValue).
  assert (Hok : level_ok ucmp files) by (split; [eapply Forall_impl; [exact Hf|]; intros f H; apply H|done]).
  destruct (FindFile_spec ucmp files t (level_by_largest ucmp _ Hok) Hsz) as (n & En & _ & Hb & Ha).
  unfold level_candidate. rewrite En, Nat2Z.id. pose proof Hf as Hf'. rewrite Forall_lookup in Hf'.
  assert (Hbefore : forall j (g : FilePtr) e, files !! j = Some g -> e ∈ es g -> visible ucmp u s e = true -> (n <= j)%nat).
  { intros j g e Hj He Hv. destruct (decide (n <= j)%nat) as [|Hlt]; [done|exfalso]. specialize (Hb j g Hj ltac:(lia)).
    destruct (fh_bounds g (Hf' j g Hj) e He) as [_ H2]. apply (visible_target u s e); [|done|done|].
    - pose proof (fh_fits g (Hf' j g Hj)) as Hfit. rewrite Forall_forall in Hfit. by apply Hfit.
    - by apply (compare_le_lt_trans _ (largest g)). }
  destruct (files !! n : option FilePtr) as [f|] eqn:Hn.
  2: { apply newest_restrict; [set_solver|]. intros g e Hg _ He. destruct (visible ucmp u s e) eqn:Hv; [|done]. apply list_elem_of_lookup_1 in Hg as [j Hj].
       pose proof (Hbefore j g e Hj He Hv). apply lookup_ge_None in Hn. apply lookup_lt_Some in Hj. lia. }
  assert (Hfin : f ∈ files) by (by eapply list_elem_of_lookup_2).
  destruct (Compare ucmp u (ExtractUserKey (smallest f))) eqn:Es.
  2: { apply newest_restrict; [set_solver|]. intros g e Hg _ He. destruct (visible ucmp u s e) eqn:Hv; [exfalso|done]. apply list_elem_of_lookup_1 in Hg as [j Hj].
       pose proof (Hbefore j g e Hj He Hv) as Hle. apply visible_eq in Hv as [Hk _]. destruct (key_in_range g e u (Hf' j g Hj) He Hk) as [H1 _].
       pose proof (disjoint_user ucmp files n j f g Hok Hn Hj Hle) as H2. pose proof (compare_lt_le_trans _ _ _ Es (compare_le_trans _ _ _ H2 H1)) as H3.
       by rewrite compare_refl in H3. }
  all: change (concat (map es [f])) with (es f ++ []); rewrite app_nil_r; intros Hr.
  all: assert (Hlater : forall j (g : FilePtr) e, files !! j = Some g -> e ∈ es g -> visible ucmp u s e = true -> exists e0, e0 ∈ es f /\ visible ucmp u s e0 = true /\ e_seq e <= e_seq e0) by
    (intros j g e Hj He Hv; pose proof (Hbefore j g e Hj He Hv) as Hle; apply (later_seen f g e u s t files n j); (done || by apply Ha)).
  all: assert (Hin : forall e, e ∈ concat (map es files) -> exists j (g : FilePtr), files !! j = Some g /\ e ∈ es g) by
    (intros e He; apply list_elem_of_In, in_concat in He as (x & (g & <- & Hg)%in_map_iff & He); apply list_elem_of_In in Hg, He; apply list_elem_of_lookup_1 in Hg as [j Hj]; eauto).
  all: destruct r as [r|];
    [destruct Hr as (Hr & Hv & Hm); split; [apply list_elem_of_In, in_concat; exists (es f); rewrite <- !list_elem_of_In; split; [apply list_elem_of_fmap_2; done|done]|]; split; [done|];
     intros e He Hve; apply Hin in He as (j & g & Hj & He); destruct (Hlater j g e Hj He Hve) as (e0 & He0 & Hv0 & Hle); specialize (Hm e0 He0 Hv0); lia
    |intros e He; destruct (visible ucmp u s e) eqn:Hve; [exfalso|done]; apply Hin in He as (j & g & Hj & He); destruct (Hlater j g e Hj He Hve) as (e0 & He0 & Hv0 & _);
     by rewrite (Hr e0 He0) in Hv0].
Qed.

(** *** The search *)

(** The status that the table cache gave for a file, an error. *)
Definition read_failed (s : Status) : Prop :=
  ok s = false /\ exists f k ro value u c sv c', file_holds f /\
    Cache_Get ro (number f) (file_size f) k (mkSaver SaverState.kNotFound value) (SaveValue ucmp u) c = (s, sv, c').

(** What [Get] answers. *)
Definition answer (r : option entry) (value : bytes) (s : Status) (value' : bytes) : Prop :=
  match r with
  | None => s = NotFound [] [] /\ value' = value
  | Some e => match e_type e with
              | kTypeValue => ok s = true /\ value' = e_value e
              | kTypeDeletion => s = NotFound [] [] /\ value' = value
              end
  end.

Lemma Get_files_spec ro u s level fs g : Forall file_holds fs -> StronglySorted (fun f g => newer (es f) (es g)) fs ->
  readable (g_cache g) -> size_of u + 8 < 2 ^ 32 -> 0 <= s <= kMaxSequenceNumber ->
  exists r g', Get_files ucmp ro u (InternalKey_make u s kTypeValue) level fs g = (r, g') /\ readable (g_cache g') /\
    match r with
    | Some st => read_failed st \/ exists e, is_newest ucmp u s (concat (map es fs)) (Some e) /\ answer (Some e) (g_value g) st (g_value g')
    | None => is_newest ucmp u s (concat (map es fs)) None /\ g_value g' = g_value g
    end.
Proof.
  intros Hf Hs Hr Hu Hseq. revert g Hr. induction Hs as [|f fs Hs IH Hnew]; intros g Hr; cbn [Get_files].
  { exists None, g. split; [done|]. split; [done|]. split; [|done]. intros e He. by apply not_elem_of_nil in He. }
  apply Forall_cons in Hf as [Hf0 Hf]. destruct (file_get f u s ro (g_value g) (g_cache g) Hf0 Hr Hu Hseq) as (st & sv & c' & E & Hr' & Hok).
  rewrite E. set (stats := match last_file_read g with Some _ => _ | None => _ end).
  destruct (ok st) eqn:Est; cbn [negb].
  2: { eexists (Some st), _. split; [reflexivity|]. split; [done|]. left. split; [done|]. exists f, (InternalKey_make u s kTypeValue), ro, (g_value g), u, (g_cache g), sv, c'. done. }
  destruct (Hok eq_refl) as (r & -> & Hnr). destruct r as [e|].
  - assert (Hall : is_newest ucmp u s (concat (map es (f :: fs))) (Some e)).
    { cbn [map concat]. apply newest_older; [|done]. intros a b Ha Hb. apply list_elem_of_In, in_concat in Hb as (x & (h & <- & Hh)%in_map_iff & Hb).
      rewrite Forall_forall in Hnew. apply (Hnew h); [by apply list_elem_of_In|done|by apply list_elem_of_In]. }
    unfold saved. destruct (e_type e) eqn:Et; cbn [state s_value].
    + eexists (Some _), _. split; [reflexivity|]. split; [done|]. right. exists e. split; [done|]. unfold answer. by rewrite Et.
    + eexists (Some _), _. split; [reflexivity|]. split; [done|]. right. exists e. split; [done|]. unfold answer. by rewrite Et.
  - cbn [saved state s_value]. destruct (IH Hf (mkGetState (g_value g) stats (Some (f, level)) c') Hr') as (r & g' & -> & Hg' & Hres).
    exists r, g'. split; [done|]. split; [done|]. cbn [g_value] in Hres. cbn [map concat]. destruct r as [st'|].
    + destruct Hres as [Hres|(e & He & Ha)]; [by left|right]. exists e. split; [by apply newest_none|done].
    + destruct Hres as [Hn Hv]. split; [by apply newest_none|done].
Qed.

Lemma level_files_recent v u : version_ok v -> StronglySorted (fun f g => newer (es f) (es g)) (level0_candidates ucmp (level_files v 0) u).
Proof.
  intros Hv. unfold level0_candidates. set (fs := base.filter _ _).
  assert (Hsub : forall f, f ∈ fs -> f ∈ level_files v 0) by (intros f Hf; apply list_elem_of_filter in Hf; tauto).
  assert (Hnum : NoDup (map (fun f : FilePtr => number f) (merge_sort NewestFirst fs))).
  { rewrite (Permutation_map _ (merge_sort_Permutation _ fs)). eapply sublist_NoDup; [apply (vo_numbers v Hv)|]. apply (fmap_sublist (fun f : FilePtr => number f)), sublist_filter. }
  assert (Hs : StronglySorted NewestFirst (merge_sort NewestFirst fs)).
  { apply StronglySorted_merge_sort; [intros a b c Hab Hbc; unfold NewestFirst in *; lia|intros a b; unfold NewestFirst; lia]. }
  assert (Hin : forall f, f ∈ merge_sort NewestFirst fs -> f ∈ level_files v 0) by (intros f Hf; rewrite merge_sort_Permutation in Hf; by apply Hsub).
  induction Hs as [|f l Hs IH Hle]; [constructor|]. cbn [map] in Hnum. apply NoDup_cons in Hnum as [Hn Hnum]. constructor.
  - apply IH; [done|]. intros g Hg. apply Hin. by right.
  - apply Forall_forall. intros g Hg. rewrite Forall_forall in Hle. specialize (Hle g Hg). unfold NewestFirst in Hle.
    apply (vo_recent0 v Hv); [apply Hin; left|apply Hin; by right|]. assert (number g <> number f); [|lia]. intros E. apply Hn. rewrite <- E. by apply (list_elem_of_fmap_2 (fun f : FilePtr => number f)).
Qed.

Lemma Get_levels_spec ro u s v ls g : version_ok v -> readable (g_cache g) -> size_of u + 8 < 2 ^ 32 -> 0 <= s <= kMaxSequenceNumber ->
  StronglySorted Z.lt ls -> Forall (fun l => 0 <= l) ls ->
  exists st g', Get_levels ucmp ro u (InternalKey_make u s kTypeValue) v ls g = (st, g') /\ readable (g_cache g') /\
    (read_failed st \/ exists r, is_newest ucmp u s (concat (map (level_entries v) ls)) r /\ answer r (g_value g) st (g_value g')).
Proof.
  intros Hv Hr Hu Hs Hls Hpos. revert g Hr. induction Hls as [|l ls Hls IH Hlt]; intros g Hr; cbn [Get_levels].
  { eexists _, g. split; [reflexivity|]. split; [done|]. right. exists None. split; [|done]. intros e He. by apply not_elem_of_nil in He. }
  apply Forall_cons in Hpos as [Hp Hpos]. set (cands := candidates ucmp v l u (InternalKey_make u s kTypeValue)).
  assert (Hfh : Forall file_holds (level_files v l)) by (apply Forall_forall; intros f Hf; by apply (vo_files v Hv l)).
  assert (Hsub : forall f, f ∈ cands -> f ∈ level_files v l).
  { unfold cands, candidates. intros f. destruct (Z.eqb_spec l 0) as [->|Hne].
    - unfold level0_candidates. rewrite merge_sort_Permutation, list_elem_of_filter. tauto.
    - unfold level_candidate. destruct (level_files v l !! _ : option FilePtr) as [h|] eqn:E; [|intros H; by apply not_elem_of_nil in H]. intros H. assert (f = h) as ->.
      { destruct (Compare ucmp u _); [by apply list_elem_of_singleton in H|by apply not_elem_of_nil in H|by apply list_elem_of_singleton in H]. }
      by eapply list_elem_of_lookup_2. }
  assert (Hsorted : StronglySorted (fun f g => newer (es f) (es g)) cands).
  { unfold cands, candidates. destruct (Z.eqb_spec l 0) as [->|Hne]; [by apply level_files_recent|]. unfold level_candidate. destruct (_ !! _); [|constructor].
    destruct (Compare ucmp u _); repeat constructor. }
  assert (Hlevel : forall r, is_newest ucmp u s (concat (map es cands)) r -> is_newest ucmp u s (level_entries v l) r).
  { intros r. unfold cands, candidates, level_entries. destruct (Z.eqb_spec l 0) as [->|Hne]; [by apply level0_newest|].
    apply level_newest; [done|apply (vo_sorted v Hv); lia|apply (vo_size v Hv)|done]. }
  destruct (Get_files_spec ro u s l cands g) as (r & g' & -> & Hr' & Hres); try done.
  { apply Forall_forall. intros f Hf. apply (vo_files v Hv l). by apply Hsub. }
  destruct r as [st|].
  - exists st, g'. split; [done|]. split; [done|]. destruct Hres as [Hres|(e & He & Ha)]; [by left|right]. exists (Some e). split; [|done].
    cbn [map concat]. apply newest_older; [|by apply Hlevel]. intros a b Ha' Hb. apply list_elem_of_In, in_concat in Hb as (x & (l' & <- & Hl')%in_map_iff & Hb).
    unfold level_entries in Ha', Hb. apply list_elem_of_In, in_concat in Ha' as (x & (f & <- & Hf)%in_map_iff & Ha'). apply in_concat in Hb as (x & (h & <- & Hh)%in_map_iff & Hb).
    rewrite Forall_forall in Hlt. apply list_elem_of_In in Hl', Hf, Hh, Ha', Hb. specialize (Hlt l' Hl'). by apply (vo_recent v Hv l l' f h).
  - destruct Hres as [Hn Hval]. destruct (IH Hpos g' Hr') as (st & g2 & -> & Hr2 & Hres2). exists st, g2. split; [done|]. split; [done|].
    destruct Hres2 as [Hres2|(r & He & Ha)]; [by left|right]. exists r. rewrite Hval in Ha. split; [|done]. cbn [map concat]. apply newest_none; [by apply Hlevel|done].
Qed.

Lemma Version_Get_spec ro u s v value c : version_ok v -> readable c -> size_of u + 8 < 2 ^ 32 -> 0 <= s <= kMaxSequenceNumber ->
  exists st value' stats c', Get ucmp ro (LookupKey_make u s) v value c = (st, value', stats, c') /\ readable c' /\
    (read_failed st \/ exists r, is_newest ucmp u s (version_entries v) r /\ answer r value st value').
Proof.
  intros Hv Hr Hu Hs. unfold Get. destruct (LookupKey_parts u s Hu) as (Hik & Huk & _). rewrite Hik, Huk.
  destruct (Get_levels_spec ro u s v levels (mkGetState value (mkGetStats None (-1)) None c) Hv Hr Hu Hs) as (st & g & -> & Hg & Hres).
  - unfold levels. vm_compute. repeat constructor.
  - unfold levels. vm_compute. repeat constructor; discriminate.
  - by exists st, (g_value g), (g_stats g), (g_cache g).
Qed.
End GetLaws.

(** ** The level of a new table *)

Section Pick.
Context (ucmp : Comparator) `{!ComparatorLaws ucmp}.

(** The levels are as the searches need them. *)
Definition searchable (v : Version) : Prop :=
  (forall l, size_of (level_files v l) < 2 ^ 31) /\ (forall l, 0 < l -> level_ok ucmp (level_files v l)).

Definition untouched (v : Version) (l : Z) (lo hi : option bytes) : Prop := forall f, f ∈ level_files v l -> outside ucmp lo hi f.

Lemma OverlapInLevel_spec v l lo hi : searchable v -> OverlapInLevel ucmp v l lo hi = false <-> untouched v l lo hi.
Proof.
  intros [Hs Hok]. unfold OverlapInLevel. rewrite <- not_true_iff_false, (overlap_spec ucmp (l >? 0) _ lo hi (fun E => Hok l ltac:(apply Z.gtb_lt in E; lia)) (Hs l)).
  split.
  - intros Hn f Hf. destruct (decide (outside ucmp lo hi f)); [done|]. exfalso. apply Hn. by exists f.
  - intros Hu (f & Hf & Ho). by apply Ho, Hu.
Qed.

Lemma PickLevel_loop_spec v lo hi start limit fuel level : searchable v -> 0 <= level <= 2 -> 2 - level < Z.of_nat fuel ->
  (forall l, 0 <= l <= level -> untouched v l (Some lo) (Some hi)) ->
  exists r, PickLevel_loop ucmp fuel v lo hi start limit level = Some r /\ level <= r <= 2 /\ forall l, 0 <= l <= r -> untouched v l (Some lo) (Some hi).
Proof.
  intros Hv. revert level. induction fuel as [|fuel IH]; intros level Hl Hf Hu; [lia|]. cbn [PickLevel_loop]. unfold kMaxMemCompactLevel.
  destruct (Z.ltb_spec level 2) as [Hlt|Hge]; [|exists level; split; [done|]; split; [lia|done]].
  destruct (OverlapInLevel ucmp v (level + 1) (Some lo) (Some hi)) eqn:Eo; [exists level; split; [done|]; split; [lia|done]|].
  apply OverlapInLevel_spec in Eo; [|done]. assert (H2 : level + 2 <? kNumLevels = true) by (apply Z.ltb_lt; unfold kNumLevels; lia). rewrite H2.
  destruct (GetOverlappingInputs_spec ucmp v (level + 2) (Some start) (Some limit)) as (r & Er & _); [intros; lia|].
  rewrite Er. cbn [mbind option_bind]. destruct (_ >? _); [exists level; split; [done|]; split; [lia|done]|].
  destruct (IH (level + 1)) as (r' & Er' & Hr' & Hu'); [lia|lia| |exists r'; split; [done|]; split; [lia|done]].
  intros l Hl'. destruct (Z.eq_dec l (level + 1)) as [->|]; [done|]. apply Hu. lia.
Qed.
End Pick.

(** ** A table cache of lists *)

(** For examples: the entries of the tables by number and size. *)
Record Tables : Type := mkTables { tables_comparator : Comparator; tables : list (Z * Z * list (bytes * bytes)) }.

Definition tables_find (n size : Z) (t : Tables) : option (list (bytes * bytes)) :=
  snd <$> (find (fun x => (fst (fst x) =? n) && (snd (fst x) =? size)) (tables t)).

#[global] Instance Tables_getter : TableGetter Tables := {|
  Cache_Get A ro n size k arg saver t :=
    match tables_find n size t with
    | None => (IOError (str "no table") [], arg, t)
    | Some kvs =>
        match seek_position (InternalKeyComparator (tables_comparator t)) kvs k ≫= (fun i => kvs !! i) with
        | Some (k', v') => (OK, saver arg k' v', t)
        | None => (OK, arg, t)
        end
    end
|}.

#[global] Instance Tables_laws t : TableGetterLaws Tables (tables_comparator t) (fun t' => t' = t) (fun n size => tables_find n size t).
Proof.
  split. intros A ro n size kvs k arg saver c -> Hc _. cbn [Cache_Get Tables_getter]. rewrite Hc.
  destruct (seek_position _ kvs k) as [i|] eqn:Ei; cbn [mbind option_bind].
  - destruct (kvs !! i) as [[k' v']|] eqn:Ek.
    + exists OK, (saver arg k' v'), t. split; [done|]. split; [done|]. intros _. split; [right; by exists i, k', v'|].
      intros i' k1 v1 [= <-] Hk1 _. rewrite Ek in Hk1. by injection Hk1 as <- <-.
    + exists OK, arg, t. split; [done|]. split; [done|]. intros _. split; [by left|]. intros i' k1 v1 [= <-] Hk1 _. congruence.
  - exists OK, arg, t. split; [done|]. split; [done|]. intros _. split; [by left|]. intros i' k1 v1 Hi'. done.
Qed.

(** ** Properties *)

(** C35: a version whose files hold their entries in order between their bounds, whose
    levels above 0 do not overlap and in which the entries of a file are newer than
    those of the same user keys in later files (of higher levels, or of level 0 with
    smaller numbers) answers a lookup at a sequence number with the newest entry of
    the key, among all its files, that is not above it: the value, or [NotFound] for a
    deletion or when there is none; otherwise it passes on the error that reading one
    of the files gave. *)
Theorem version_get (ucmp : Comparator) `{!ComparatorLaws ucmp} {C : Type} `{!TableGetter C} (readable : C -> Prop)
    (contents : Z -> Z -> option (list (bytes * bytes))) `{!TableGetterLaws C ucmp readable contents} (es : FilePtr -> list entry)
    ro u s v value c :
  version_ok ucmp contents es v -> readable c -> size_of u + 8 < 2 ^ 32 -> 0 <= s <= kMaxSequenceNumber ->
  exists st value' stats c', Get ucmp ro (LookupKey_make u s) v value c = (st, value', stats, c') /\ readable c' /\
    (read_failed ucmp contents es st \/ exists r, is_newest ucmp u s (version_entries es v) r /\ answer r value st value').
Proof. intros Hv Hr Hu Hs. exact (Version_Get_spec ucmp readable contents es ro u s v value c Hv Hr Hu Hs). Qed.

(** C36: [GetOverlappingInputs] returns, after at most twice as many restarts as the
    level has files.  It keeps the order of the level; above level 0 it gives exactly
    the files with a user key in the range; in level 0 it gives the least set that has
    these files and, with a file, every file that shares a user key with it. *)
Theorem overlapping_inputs (ucmp : Comparator) `{!ComparatorLaws ucmp} (v : Version) (level : Z) (begin end_ : option bytes) :
  (forall f : FilePtr, f ∈ level_files v level -> Compare ucmp (ExtractUserKey (smallest f)) (ExtractUserKey (largest f)) <> Gt) ->
  let touched (f : FilePtr) := f ∈ level_files v level /\ ~ outside ucmp (ExtractUserKey <$> begin) (ExtractUserKey <$> end_) f in
  exists inputs, GetOverlappingInputs ucmp v level begin end_ = Some inputs /\ inputs `sublist_of` level_files v level /\
    (forall f, touched f -> f ∈ inputs) /\ (level <> 0 -> forall f, f ∈ inputs -> touched f) /\
    (level = 0 -> closed ucmp (level_files v level) (fun f => f ∈ inputs) /\
       forall S, closed ucmp (level_files v level) S -> (forall f, touched f -> S f) -> forall f, f ∈ inputs -> S f).
Proof. intros Hord. by apply GetOverlappingInputs_spec. Qed.

(** The binary search of a level gives the first file that does not end before the
    key, so that the iterator over the files of a level is a cursor over their largest
    keys; the overlap test, by binary search or file by file, tells whether a file has
    a user key in the range. *)
Theorem level_search (ucmp : Comparator) `{!ComparatorLaws ucmp} (files : list FilePtr) : level_ok ucmp files -> size_of files < 2 ^ 31 ->
  (forall key, FindFile ucmp files key = Z.of_nat (default (length files) (seek_position (InternalKeyComparator ucmp) (map file_entry files) key))) /\
  IteratorLaws (Iterator0 := LevelFileNumIterator_Iterator ucmp) (InternalKeyComparator ucmp) (map file_entry files) (level_rep files) /\
  forall sorted lo hi, SomeFileOverlapsRange ucmp sorted files lo hi = true <-> exists f : FilePtr, f ∈ files /\ ~ outside ucmp lo hi f.
Proof.
  intros Hok Hsz. pose proof (level_by_largest ucmp files Hok) as Hb. split; [|split].
  - intros key. destruct (FindFile_spec ucmp files key Hb Hsz) as (n & -> & Hn). rewrite (first_file_seek ucmp files key n Hn).
    destruct (Nat.ltb_spec n (length files)); [done|]. cbn. destruct Hn as [Hle _]. lia.
  - by apply LevelFileNumIterator_laws.
  - intros sorted lo hi. by apply overlap_spec.
Qed.

(** A table made of a memtable goes to a level such that neither it nor any level
    before it has a file that shares a user key with the table's range; it goes to
    level 0 when a file of level 0 does. *)
Theorem memtable_output_level (ucmp : Comparator) `{!ComparatorLaws ucmp} (v : Version) (smallest_user_key largest_user_key : bytes) :
  searchable ucmp v ->
  exists level, PickLevelForMemTableOutput ucmp v smallest_user_key largest_user_key = Some level /\ 0 <= level <= kMaxMemCompactLevel /\
    (level = 0 \/ forall l, 0 <= l <= level -> untouched ucmp v l (Some smallest_user_key) (Some largest_user_key)).
Proof.
  intros Hv. unfold PickLevelForMemTableOutput. destruct (OverlapInLevel ucmp v 0 _ _) eqn:E; cbn [negb].
  - exists 0. split; [done|]. split; [done|by left].
  - apply (OverlapInLevel_spec ucmp v 0 _ _ Hv) in E. cbv zeta.
    match goal with |- context [PickLevel_loop _ _ _ _ _ ?start ?limit _] =>
      destruct (PickLevel_loop_spec ucmp v smallest_user_key largest_user_key start limit 3 0 Hv) as (r & Er & Hr & Hu) end; [lia|lia| |].
    { intros l Hl. by replace l with 0 by lia. }
    exists r. split; [exact Er|]. split; [exact Hr|by right].
Qed.

(** Two files of level 0 and one of level 1. *)
Definition sample_tables : list (list entry) := [
  [mkEntry 7 kTypeValue (str "b") (str "new"); mkEntry 8 kTypeDeletion (str "c") []];
  [mkEntry 5 kTypeValue (str "a") (str "1"); mkEntry 4 kTypeValue (str "b") (str "old")];
  [mkEntry 2 kTypeValue (str "a") (str "0"); mkEntry 1 kTypeValue (str "c") (str "2"); mkEntry 3 kTypeValue (str "d") (str "3")]].
Definition sample_entries_of (n : Z) : list entry := nth (Z.to_nat (3 - n)) sample_tables [].
Definition sample_file (n : Z) : FilePtr :=
  let keys := map internal_key (sample_entries_of n) in
  mkFilePtr (Z.to_nat n) (FileMetaData_make n 100 (hd [] keys) (List.last keys [])).
Definition sample_version : Version :=
  mkVersion [[sample_file 2; sample_file 3]; [sample_file 1]; []; []; []; []; []] None (-1) (double_of_Z (-1)) (-1).
Definition sample_cache : Tables :=
  mkTables BytewiseComparator (map (fun n => (n, 100, map e_pair (sample_entries_of n))) [1; 2; 3]).

Example sample_reads :
  map (fun k => fst (fst (Get BytewiseComparator ReadOptions_make (LookupKey_make (str k) 100) sample_version [] sample_cache)))
    ["a"; "b"; "c"; "d"; "e"]%string =
  [(OK, str "1"); (OK, str "new"); (NotFound [] [], []); (OK, str "3"); (NotFound [] [], [])].
Proof. vm_compute. reflexivity. Qed.

Lemma sample_level l f : f ∈ level_files sample_version l -> (l <= 0 /\ (f = sample_file 2 \/ f = sample_file 3)) \/ (l = 1 /\ f = sample_file 1).
Proof.
  unfold level_files. cbn [files_ sample_version]. destruct (Z_le_gt_dec l 0) as [Hl|Hl].
  - replace (Z.to_nat l) with O by lia. cbn [nth]. set_solver.
  - destruct (Z.eq_dec l 1) as [->|Hne]; [cbn; set_solver|]. intros Hf. exfalso.
    assert (E : exists n, Z.to_nat l = S (S n)) by (exists (Z.to_nat (l - 2)); lia). destruct E as [n E]. rewrite E in Hf. cbn [nth] in Hf.
    do 5 (destruct n as [|n]; [by apply not_elem_of_nil in Hf|]; cbn [nth] in Hf). by destruct n; apply not_elem_of_nil in Hf.
Qed.

Definition sample_contents (n size : Z) : option (list (bytes * bytes)) := tables_find n size sample_cache.
Definition sample_es (f : FilePtr) : list entry := sample_entries_of (number f).

Lemma sample_holds n : n ∈ [1; 2; 3] -> file_holds BytewiseComparator sample_contents sample_es (sample_file n).
Proof.
  intros Hn. assert (n = 1 \/ n = 2 \/ n = 3) as Hd by set_solver. clear Hn.
  assert (Hfits : Forall fits (sample_entries_of n)) by (destruct Hd as [-> | [-> | ->]]; repeat constructor; vm_compute; congruence).
  assert (Hsort : Forall (fun p => cmp BytewiseComparator (fst p) (snd p) = Lt) (zip (sample_entries_of n) (drop 1 (sample_entries_of n)))).
  { destruct Hd as [-> | [-> | ->]]; repeat constructor. }
  split.
  - destruct Hd as [-> | [-> | ->]]; vm_compute; reflexivity.
  - by destruct Hd as [-> | [-> | ->]].
  - destruct Hd as [-> | [-> | ->]]; repeat constructor.
  - destruct Hd as [-> | [-> | ->]]; (split; [vm_compute; eauto|split; [vm_compute; eauto|vm_compute; congruence]]).
  - exists (List.last (sample_entries_of n) (mkEntry 0 kTypeValue [] [])). split; [|by destruct Hd as [-> | [-> | ->]]].
    apply list_elem_of_In. destruct Hd as [-> | [-> | ->]]; vm_compute; auto 10.
  - intros e He. destruct Hd as [-> | [-> | ->]]; unfold sample_es in He; cbn in He; repeat (apply elem_of_cons in He as [->|He]; [split; vm_compute; congruence|]); by apply not_elem_of_nil in He.
Qed.

Lemma sample_version_ok : version_ok BytewiseComparator sample_contents sample_es sample_version.
Proof.
  assert (Hnew : forall a b, Forall (fun e => Forall (fun e' => match Compare BytewiseComparator (e_key e) (e_key e') with Eq => e_seq e' <? e_seq e | _ => true end = true) b) a ->
      newer BytewiseComparator a b).
  { intros a b H e e' He He' Hk. rewrite Forall_forall in H. specialize (H e He). rewrite Forall_forall in H. specialize (H e' He'). rewrite Hk in H. by apply Z.ltb_lt in H. }
  split.
  - done.
  - intros l. unfold level_files. assert (length (nth (Z.to_nat l) (files_ sample_version) []) <= 2)%nat; [|unfold size_of; lia].
    generalize (Z.to_nat l). intros n. do 8 (destruct n as [|n]; [vm_compute; lia|]). by destruct n; vm_compute; lia.
  - intros l f [[_ [-> | ->]]|[_ ->]]%sample_level; apply sample_holds; set_solver.
  - intros l Hl. unfold disjoint_files. destruct (Z.eq_dec l 1) as [->|Hne]; [cbn; repeat constructor|].
    destruct (level_files sample_version l) as [|f fs] eqn:E; [constructor|]. exfalso. destruct (sample_level l f) as [[? _]|[? _]]; [rewrite E; left|lia|lia].
  - intros l l' f g Hl [[Hl1 Hf]|[-> ->]]%sample_level [[Hl2 Hg]|[-> ->]]%sample_level; try lia.
    destruct Hf as [-> | ->]; apply Hnew; vm_compute; repeat constructor.
  - intros f g [[_ Hf]|[? _]]%sample_level [[_ Hg]|[? _]]%sample_level Hn; try lia. destruct Hf as [-> | ->], Hg as [-> | ->]; try (vm_compute in Hn; done).
    apply Hnew; vm_compute; repeat constructor.
  - cbn. apply NoDup_cons. split; [set_solver|apply NoDup_singleton].
Qed.

#[global] Instance sample_laws : TableGetterLaws Tables BytewiseComparator (fun c => c = sample_cache) sample_contents := Tables_laws sample_cache.

Lemma version_get_witness : exists st value' stats c', Get BytewiseComparator ReadOptions_make (LookupKey_make (str "b") 100) sample_version [] sample_cache = (st, value', stats, c') /\
  c' = sample_cache.
Proof.
  destruct (version_get BytewiseComparator (fun c => c = sample_cache) sample_contents sample_es ReadOptions_make (str "b") 100 sample_version [] sample_cache
    sample_version_ok eq_refl) as (st & value' & stats & c' & E & Hc & _); [by vm_compute|by vm_compute|]. by exists st, value', stats, c'.
Defined.

Lemma overlapping_inputs_witness : exists inputs, GetOverlappingInputs BytewiseComparator sample_version 0 (Some (smallest (sample_file 2))) None = Some inputs /\ sample_file 3 ∈ inputs.
Proof.
  destruct (overlapping_inputs BytewiseComparator sample_version 0 (Some (smallest (sample_file 2))) None) as (inputs & E & _ & Hall & _).
  - intros f [[_ [-> | ->]]|[? _]]%sample_level; [vm_compute; congruence..|lia].
  - exists inputs. split; [exact E|]. apply Hall. split; [cbn; set_solver|]. intros [Ho|Ho]; vm_compute in Ho; done.
Defined.

Lemma sample_searchable : searchable BytewiseComparator sample_version.
Proof.
  destruct sample_version_ok as [_ Hs Hf Hd _ _ _]. split; [done|]. intros l Hl. split; [|by apply Hd]. apply Forall_forall. intros f Hin. by apply (Hf l f Hin).
Qed.

Lemma level_search_witness : SomeFileOverlapsRange BytewiseComparator true [sample_file 1] (Some (str "b")) None = true.
Proof.
  apply (level_search BytewiseComparator [sample_file 1]); [exact (proj2 sample_searchable 1 eq_refl)|done|].
  exists (sample_file 1). split; [left|]. intros [Ho|Ho]; vm_compute in Ho; done.
Defined.

Lemma memtable_output_level_witness : exists level, PickLevelForMemTableOutput BytewiseComparator sample_version (str "x") (str "y") = Some level /\ 0 <= level <= kMaxMemCompactLevel.
Proof.
  destruct (memtable_output_level BytewiseComparator sample_version (str "x") (str "y") sample_searchable) as (level & E & H & _). by exists level.
Defined.
