(* ===== verification/VersionSet.v ===== *)
(** * VersionSet: the current version and its manifest

    Models the rest of [db/version_set.cpp] except compactions: [Builder], which applies
    edits to a version, and [VersionSet] with its list of live versions, its counters
    and its manifest.  An environment hands out files: [inl] is the error with which it
    fails.  [assert]s and messages of the info log are left out. *)

From Stdlib Require Import SpecFloat.
From stdpp Require Import sorting.
From S2P Require Import Prelude Coding Slice Logging Comparator DbFormat VersionEdit Iterator Env Log FileName Version.

(** What the version set asks of an [Env]. *)
Class EnvFiles (E W R : Type) := {
  NewWritableFile : bytes -> E -> (Status + W) * E;
  NewAppendableFile : bytes -> E -> (Status + W) * E;
  NewSequentialFile : bytes -> E -> (Status + R) * E;
  GetFileSize : bytes -> E -> Status + Z;
  EnvDeleteFile : bytes -> E -> Status * E
}.

(** ** The builder *)

(** [added_files] is a [std::set] ordered by [BySmallestKey]. *)
Record LevelState : Type := mkLevelState { ls_deleted : gset Z; ls_added : list FilePtr }.

Record Builder : Type := mkBuilder { base_ : Version; levels_ : list LevelState }.

Section BuilderOps.
Context (ucmp : Comparator).

Definition BySmallestKey (f1 f2 : FilePtr) : bool :=
  match InternalKey_Compare ucmp (smallest f1) (smallest f2) with
  | Lt => true
  | Gt => false
  | Eq => number f1 <? number f2
  end.

Fixpoint FileSet_insert (f : FilePtr) (s : list FilePtr) : list FilePtr :=
  match s with
  | [] => [f]
  | g :: s' => if BySmallestKey f g then f :: s else if BySmallestKey g f then g :: FileSet_insert f s' else s
  end.

Definition Builder_make (base : Version) : Builder :=
  mkBuilder base (replicate (Z.to_nat kNumLevels) (mkLevelState ∅ [])).

Definition on_level (level : Z) (f : LevelState -> LevelState) (b : Builder) : Builder :=
  mkBuilder (base_ b) (alter f (Z.to_nat level) (levels_ b)).

Definition apply_deleted (b : Builder) (df : Z * Z) : Builder :=
  on_level (fst df) (fun l => mkLevelState ({[ snd df ]} ∪ ls_deleted l) (ls_added l)) b.

(** [f->allowed_seeks = (f->file_size / 16384)], at least 100. *)
Definition allowed_seeks_of (file_size : Z) : Z :=
  let n := i32 (file_size / 16384) in if n <? 100 then 100 else n.

(** The new file is at the address [a]. *)
Definition new_file (a : nat) (f : FileMetaData) : FilePtr :=
  mkFilePtr a (mkFileMetaData 1 (allowed_seeks_of (file_size f)) (number f) (file_size f) (smallest f) (largest f)).

Definition apply_new (b : Builder) (a : nat) (nf : Z * FileMetaData) : Builder :=
  let f := new_file a (snd nf) in
  on_level (fst nf) (fun l => mkLevelState (ls_deleted l ∖ {[ number f ]}) (FileSet_insert f (ls_added l))) b.

(** [upper_bound]: the files of [base] that are not after [f], and the others. *)
Fixpoint upper_bound (f : FilePtr) (base : list FilePtr) : list FilePtr * list FilePtr :=
  match base with
  | [] => ([], [])
  | g :: base' => if BySmallestKey f g then ([], base) else let '(a, b) := upper_bound f base' in (g :: a, b)
  end.

Definition MaybeAddFile (deleted : gset Z) (files : list FilePtr) (f : FilePtr) : list FilePtr :=
  if bool_decide (number f ∈ deleted) then files else files ++ [f].

Fixpoint SaveTo_level (deleted : gset Z) (base added files : list FilePtr) : list FilePtr :=
  match added with
  | [] => fold_left (MaybeAddFile deleted) base files
  | f :: added =>
      let '(smaller, base) := upper_bound f base in
      let files := fold_left (MaybeAddFile deleted) smaller files in
      SaveTo_level deleted base added (MaybeAddFile deleted files f)
  end.

Definition SaveTo (b : Builder) (v : Version) : Version :=
  mkVersion (zip_with (fun base l => SaveTo_level (ls_deleted l) base (ls_added l) []) (files_ (base_ b)) (levels_ b))
    (file_to_compact_ v) (file_to_compact_level_ v) (compaction_score_ v) (compaction_level_ v).
End BuilderOps.

(** ** Finalize *)

Fixpoint MaxBytes_loop (fuel : nat) (result : double) (level : Z) : double :=
  match fuel with
  | O => result
  | S fuel => if level >? 1 then MaxBytes_loop fuel (SFmul 53 1024 result (double_of_Z 10)) (level - 1) else result
  end.
Definition MaxBytesForLevel (level : Z) : double := MaxBytes_loop (Z.to_nat level) (double_of_Z 10485760) level.

Definition MaxFileSizeForLevel (level : Z) : Z := kTargetFileSize.

Definition level_score (v : Version) (level : Z) : double :=
  if level =? 0 then SFdiv 53 1024 (double_of_Z (size_of (level_files v level))) (double_of_Z kL0_CompactionTrigger)
  else
    let level_bytes := u64 (TotalFileSize (level_files v level)) in
    SFdiv 53 1024 (double_of_Z level_bytes) (MaxBytesForLevel level).

Definition best_of (v : Version) (best : Z * double) (level : Z) : Z * double :=
  let score := level_score v level in if SFltb (snd best) score then (level, score) else best.

(** The last level is never compacted. *)
Definition Finalize (v : Version) : Version :=
  let '(best_level, best_score) := fold_left (best_of v) (map Z.of_nat (seq 0 (Z.to_nat (kNumLevels - 1)))) (-1, double_of_Z (-1)) in
  mkVersion (files_ v) (file_to_compact_ v) (file_to_compact_level_ v) best_score best_level.

(** ** The set *)

(** A version in the list, with its references. *)
Record VersionNode : Type := mkNode { v_id : nat; v_refs : Z; v_version : Version }.

Record VersionSet (W : Type) : Type := mkVersionSet {
  dbpath_ : bytes;
  dbname_ : bytes;
  vs_next_file_number_ : Z;
  manifest_file_number_ : Z;
  vs_last_sequence_ : Z;
  vs_log_number_ : Z;
  vs_prev_log_number_ : Z;
  descriptor_log_ : option (Writer W);       (* with its [descriptor_file_] *)
  versions_ : list VersionNode;              (* from [dummy_versions_.next_] on *)
  current_ : nat;
  compact_pointer_ : list bytes;
  seeks_ : Seeks;
  unused : nat                               (* addresses from here on are free *)
}.
Arguments mkVersionSet {W}.
Arguments dbpath_ {W}.
Arguments dbname_ {W}.
Arguments vs_next_file_number_ {W}.
Arguments manifest_file_number_ {W}.
Arguments vs_last_sequence_ {W}.
Arguments vs_log_number_ {W}.
Arguments vs_prev_log_number_ {W}.
Arguments descriptor_log_ {W}.
Arguments versions_ {W}.
Arguments current_ {W}.
Arguments compact_pointer_ {W}.
Arguments seeks_ {W}.
Arguments unused {W}.

Section Set_.
Context {W : Type}.
Implicit Types vs : VersionSet W.

Definition set_versions (l : list VersionNode) (cur : nat) vs : VersionSet W :=
  mkVersionSet (dbpath_ vs) (dbname_ vs) (vs_next_file_number_ vs) (manifest_file_number_ vs) (vs_last_sequence_ vs)
    (vs_log_number_ vs) (vs_prev_log_number_ vs) (descriptor_log_ vs) l cur (compact_pointer_ vs) (seeks_ vs) (unused vs).
Definition set_numbers (next manifest last log prev_log : Z) vs : VersionSet W :=
  mkVersionSet (dbpath_ vs) (dbname_ vs) next manifest last log prev_log (descriptor_log_ vs)
    (versions_ vs) (current_ vs) (compact_pointer_ vs) (seeks_ vs) (unused vs).
Definition set_descriptor (d : option (Writer W)) vs : VersionSet W :=
  mkVersionSet (dbpath_ vs) (dbname_ vs) (vs_next_file_number_ vs) (manifest_file_number_ vs) (vs_last_sequence_ vs)
    (vs_log_number_ vs) (vs_prev_log_number_ vs) d (versions_ vs) (current_ vs) (compact_pointer_ vs) (seeks_ vs) (unused vs).
Definition set_compact_pointer (l : list bytes) vs : VersionSet W :=
  mkVersionSet (dbpath_ vs) (dbname_ vs) (vs_next_file_number_ vs) (manifest_file_number_ vs) (vs_last_sequence_ vs)
    (vs_log_number_ vs) (vs_prev_log_number_ vs) (descriptor_log_ vs) (versions_ vs) (current_ vs) l (seeks_ vs) (unused vs).
Definition set_seeks (m : Seeks) (n : nat) vs : VersionSet W :=
  mkVersionSet (dbpath_ vs) (dbname_ vs) (vs_next_file_number_ vs) (manifest_file_number_ vs) (vs_last_sequence_ vs)
    (vs_log_number_ vs) (vs_prev_log_number_ vs) (descriptor_log_ vs) (versions_ vs) (current_ vs) (compact_pointer_ vs) m n.

(** *** Live versions *)

Definition Version_Ref (id : nat) vs : VersionSet W :=
  set_versions (map (fun n => if (v_id n =? id)%nat then mkNode (v_id n) (i32 (v_refs n + 1)) (v_version n) else n) (versions_ vs)) (current_ vs) vs.

(** The version that loses its last reference leaves the list. *)
Definition Version_Unref (id : nat) vs : VersionSet W :=
  let dropped := map (fun n => if (v_id n =? id)%nat then mkNode (v_id n) (i32 (v_refs n - 1)) (v_version n) else n) (versions_ vs) in
  set_versions (filter (fun n => ~ (v_id n = id /\ v_refs n = 0)) dropped) (current_ vs) vs.

(** [v] at a free address; NULL is not the address of a version. *)
Definition AppendVersion (v : Version) vs : VersionSet W :=
  let id := unused vs in
  let vs := Version_Unref (current_ vs) vs in
  set_seeks (seeks_ vs) (S id) (set_versions (versions_ vs ++ [mkNode id 1 v]) id vs).

Definition current (vs : VersionSet W) : Version :=
  match find (fun n => (v_id n =? current_ vs)%nat) (versions_ vs) with
  | Some n => v_version n
  | None => Version_make
  end.

Definition VersionSet_make (dbpath dbname : bytes) : VersionSet W :=
  AppendVersion Version_make (mkVersionSet dbpath dbname 2 0 0 0 0 None [] 0 (replicate (Z.to_nat kNumLevels) []) ∅ 1).

Definition AddLiveFiles (live : gset Z) vs : gset Z :=
  fold_left (fun live n => fold_left (fun live level =>
    fold_left (fun live (f : FilePtr) => {[ number f ]} ∪ live) (level_files (v_version n) level) live) levels live) (versions_ vs) live.

(** *** Counters *)

Definition NewFileNumber vs : Z * VersionSet W :=
  (vs_next_file_number_ vs, set_numbers (u64 (vs_next_file_number_ vs + 1)) (manifest_file_number_ vs) (vs_last_sequence_ vs) (vs_log_number_ vs) (vs_prev_log_number_ vs) vs).
Definition ReuseFileNumber (file_number : Z) vs : VersionSet W :=
  if vs_next_file_number_ vs =? u64 (file_number + 1) then
    set_numbers file_number (manifest_file_number_ vs) (vs_last_sequence_ vs) (vs_log_number_ vs) (vs_prev_log_number_ vs) vs
  else vs.
Definition VersionSet_SetLastSequence (s : Z) vs : VersionSet W :=
  set_numbers (vs_next_file_number_ vs) (manifest_file_number_ vs) s (vs_log_number_ vs) (vs_prev_log_number_ vs) vs.
Definition MarkFileNumberUsed (n : Z) vs : VersionSet W :=
  if vs_next_file_number_ vs <=? n then
    set_numbers (u64 (n + 1)) (manifest_file_number_ vs) (vs_last_sequence_ vs) (vs_log_number_ vs) (vs_prev_log_number_ vs) vs
  else vs.

Definition NumLevelFiles (level : Z) vs : Z := i32 (size_of (level_files (current vs) level)).
Definition NumLevelBytes (level : Z) vs : Z := TotalFileSize (level_files (current vs) level).
Definition NeedsCompaction vs : bool :=
  SFleb (double_of_Z 1) (compaction_score_ (current vs)) || match file_to_compact_ (current vs) with Some _ => true | None => false end.

Definition LevelSummary vs : bytes :=
  take 99 (str "files[" ++ concat (map (fun level => str " " ++ print_d (NumLevelFiles level vs)) levels) ++ str " ]").

(** [Apply]: the edit's compaction pointers, deleted files and new files. *)
Definition Builder_Apply (ucmp : Comparator) (edit : VersionEdit) (b : Builder) vs : Builder * VersionSet W :=
  let vs := set_compact_pointer (fold_left (fun l cp => <[Z.to_nat (fst cp) := snd cp]> l) (compact_pointers_ edit) (compact_pointer_ vs)) vs in
  let b := fold_left apply_deleted (deleted_files_ edit) b in
  fold_left (fun bv nf =>
    let '(b, vs) := bv in
    let a := unused vs in
    (apply_new ucmp b a nf, set_seeks (<[a := allowed_seeks_of (file_size (snd nf))]> (seeks_ vs)) (S a) vs)) (new_files_ edit) (b, vs).
End Set_.

(** ** The manifest *)

Section Manifest.
Context (ucmp : Comparator).
Context {E W R : Type} `{!EnvFiles E W R} `{!WritableFile W} `{!SequentialFile R}.

Abbreviation VersionSet := (VersionSet W).

Definition snapshot_edit (vs : VersionSet) : VersionEdit :=
  let edit := SetComparatorName (Name ucmp) VersionEdit_make in
  let edit := fold_left (fun edit level =>
      match nth (Z.to_nat level) (compact_pointer_ vs) [] with [] => edit | key => SetCompactPointer level key edit end) levels edit in
  fold_left (fun edit level =>
      fold_left (fun edit (f : FilePtr) => AddFile level (number f) (file_size f) (smallest f) (largest f) edit)
        (level_files (current vs) level) edit) levels edit.

Definition WriteSnapshot (log : Writer W) (vs : VersionSet) : option (Status * Writer W) :=
  AddRecord (EncodeTo (snapshot_edit vs) []) log.

(** The fields that [LogAndApply] fills in. *)
Definition complete_edit (edit : VersionEdit) (vs : VersionSet) : VersionEdit :=
  let edit := if has_log_number_ edit then edit else SetLogNumber (vs_log_number_ vs) edit in
  let edit := if has_prev_log_number_ edit then edit else SetPrevLogNumber (vs_prev_log_number_ vs) edit in
  let edit := SetNextFile (vs_next_file_number_ vs) edit in
  SetLastSequence (vs_last_sequence_ vs) edit.

(** The descriptor log, made if there is none: the status, the log and whether the
    manifest is new. *)
Definition open_manifest (vs : VersionSet) (env : E) : option (Status * option (Writer W) * bool * E) :=
  match descriptor_log_ vs with
  | Some log => Some (OK, Some log, false, env)
  | None =>
      match NewWritableFile (DescriptorFileName (dbpath_ vs) (dbname_ vs) (manifest_file_number_ vs)) env with
      | (inl s, env) => Some (s, None, true, env)
      | (inr file, env) =>
          '(s, log) ← WriteSnapshot (Writer_make file) vs;
          Some (s, Some log, true, env)
      end
  end.

(** The new record, written and synced. *)
Definition write_edit (edit : VersionEdit) (s : Status) (log : option (Writer W)) : option (Status * option (Writer W)) :=
  match log with
  | Some log =>
      if ok s then
        '(s, log) ← AddRecord (EncodeTo edit []) log;
        if ok s then let '(s, f) := Sync (dest log) in Some (s, Some (mkWriter f (block_offset log) (type_crc log)))
        else Some (s, Some log)
      else Some (s, Some log)
  | None => Some (s, None)
  end.

(** The assertions at the start of [LogAndApply]; a release build does not check them. *)
Definition LogAndApply_asserts (edit : VersionEdit) (vs : VersionSet) : bool :=
  if has_log_number_ edit then (vs_log_number_ vs <=? log_number_ edit) && (log_number_ edit <? vs_next_file_number_ vs) else true.

(** [None] does not happen: [AddRecord] returns.  The mutex is released while the
    manifest is written; no other thread calls [LogAndApply] meanwhile. *)
Definition LogAndApply (edit : VersionEdit) (vs : VersionSet) (env : E) : option (Status * VersionSet * E) :=
  let edit := complete_edit edit vs in
  let '(b, vs) := Builder_Apply ucmp edit (Builder_make (current vs)) vs in
  let v := Finalize (SaveTo ucmp b Version_make) in
  '(s, log, new_manifest, env) ← open_manifest vs env;
  '(s, log) ← write_edit edit s log;
  let s := if ok s && new_manifest then SetCurrentFile (dbpath_ vs) (dbname_ vs) (manifest_file_number_ vs) else s in
  if ok s then
    let vs := AppendVersion v (set_descriptor log vs) in
    Some (s, set_numbers (vs_next_file_number_ vs) (manifest_file_number_ vs) (vs_last_sequence_ vs) (log_number_ edit) (prev_log_number_ edit) vs, env)
  else if new_manifest then
    let '(_, env) := EnvDeleteFile (DescriptorFileName (dbpath_ vs) (dbname_ vs) (manifest_file_number_ vs)) env in
    Some (s, set_descriptor None vs, env)
  else Some (s, set_descriptor log vs, env).

(** The descriptor's name already starts with [dbpath_]. *)
Definition ReuseManifest (reuse_logs : bool) (dscname : bytes) (vs : VersionSet) (env : E) : bool * VersionSet * E :=
  if negb reuse_logs then (false, vs, env)
  else
    match GetFileSize (dbpath_ vs ++ dscname) env with
    | inl _ => (false, vs, env)
    | inr manifest_size =>
        if manifest_size >=? kTargetFileSize then (false, vs, env)
        else
          match NewAppendableFile (dbpath_ vs ++ dscname) env with
          | (inl _, env) => (false, vs, env)
          | (inr file, env) =>
              let vs := set_descriptor (Some (Writer_reopen file manifest_size)) vs in
              (true, set_numbers (vs_next_file_number_ vs) 1 (vs_last_sequence_ vs) (vs_log_number_ vs) (vs_prev_log_number_ vs) vs, env)
          end
    end.

(** *** Recover *)

(** The numbers that the edits give. *)
Record Recovered : Type := mkRecovered {
  rec_log_number : option Z;
  rec_prev_log_number : option Z;
  rec_next_file : option Z;
  rec_last_sequence : option Z
}.

Definition note_numbers (edit : VersionEdit) (r : Recovered) : Recovered :=
  mkRecovered (if has_log_number_ edit then Some (log_number_ edit) else rec_log_number r)
    (if has_prev_log_number_ edit then Some (prev_log_number_ edit) else rec_prev_log_number r)
    (if has_next_file_number_ edit then Some (next_file_number_ edit) else rec_next_file r)
    (if has_last_sequence_ edit then Some (last_sequence_ edit) else rec_last_sequence r).

(** [LogReporter]: the first corruption becomes the status. *)
Definition with_reports (s : Status) (old : nat) (reports : list (Z * Status)) : Status :=
  if ok s then match drop old reports with (_, s') :: _ => s' | [] => s end else s.

(** The body of the loop. *)
Definition recover_record (record : bytes) (s : Status) (b : Builder) (vs : VersionSet) (nums : Recovered) : Status * Builder * VersionSet * Recovered :=
  let '(edit, s) := DecodeFrom record VersionEdit_make in
  let s := if ok s && has_comparator_ edit && negb (slice_eq (comparator_ edit) (Name ucmp))
           then InvalidArgument (comparator_ edit ++ str " does not match existing comparator ") (Name ucmp) else s in
  let '(b, vs) := if ok s then Builder_Apply ucmp edit b vs else (b, vs) in
  (s, b, vs, note_numbers edit nums).

Fixpoint Recover_loop (fuel : nat) (reader : Reader R) (s : Status) (b : Builder) (vs : VersionSet) (nums : Recovered) :
    option (Status * Builder * VersionSet * Recovered) :=
  match fuel with
  | O => None
  | S fuel =>
      '(record, reader') ← ReadRecord reader;
      let s := with_reports s (length (reports reader)) (reports reader') in
      match record with
      | Some record =>
          if ok s then
            let '(s, b, vs, nums) := recover_record record s b vs nums in
            Recover_loop fuel reader' s b vs nums
          else Some (s, b, vs, nums)
      | None => Some (s, b, vs, nums)
      end
  end.

Definition Recover_numbers (s : Status) (nums : Recovered) : Status :=
  if negb (ok s) then s
  else match rec_next_file nums, rec_log_number nums, rec_last_sequence nums with
       | None, _, _ => Corruption (str "no meta-nextfile entry in descriptor") []
       | _, None, _ => Corruption (str "no meta-lognumber entry in descriptor") []
       | _, _, None => Corruption (str "no last-sequence-number entry in descriptor") []
       | _, _, _ => s
       end.

(** The status, [*save_manifest] if it is set, and the set. *)
Definition Recover (reuse_logs : bool) (vs : VersionSet) (env : E) : option (Status * bool * VersionSet * E) :=
  let dscname := DescriptorFileName (dbpath_ vs) (dbname_ vs) 1 in
  match NewSequentialFile dscname env with
  | (inl s, env) => Some (s, false, vs, env)
  | (inr file, env) =>
      '(s, b, vs, nums) ← Recover_loop (S (length (unread file))) (Reader_make file true true 0) OK (Builder_make (current vs)) vs
        (mkRecovered None None None None);
      let log_number := default 0 (rec_log_number nums) in
      let prev_log_number := default 0 (rec_prev_log_number nums) in
      let next_file := default 0 (rec_next_file nums) in
      let vs := if ok s then MarkFileNumberUsed log_number (MarkFileNumberUsed prev_log_number vs) else vs in
      let s := Recover_numbers s nums in
      if ok s then
        let v := Finalize (SaveTo ucmp b Version_make) in
        let vs := AppendVersion v vs in
        let vs := set_numbers (u64 (next_file + 1)) next_file (default 0 (rec_last_sequence nums)) log_number prev_log_number vs in
        let '(reused, vs, env) := ReuseManifest reuse_logs dscname vs env in
        Some (s, negb reused, vs, env)
      else Some (s, false, vs, env)
  end.
End Manifest.

(** *** Sizes of the levels *)

Section Sizes.
Context (ucmp : Comparator) {W : Type}.
Implicit Types vs : VersionSet W.

(** [MaxNextLevelOverlappingBytes], file by file. *)
Definition MaxNextLevelOverlappingBytes vs : option Z :=
  let v := current vs in
  fold_left (fun result level =>
    fold_left (fun result (f : FilePtr) =>
      result ← result;
      overlaps ← GetOverlappingInputs ucmp v (level + 1) (Some (smallest f)) (Some (largest f));
      let sum := TotalFileSize overlaps in
      Some (if sum >? result then sum else result)) (level_files v level) result)
    (map Z.of_nat (seq 1 (Z.to_nat (kNumLevels - 2)))) (Some 0).

(** The offset of a key in the table with a number and a size: 0 when it cannot be
    opened. *)
Context {C : Type} (table_offset : Z -> Z -> bytes -> C -> Z * C).

(** The loop over a level's files, left by [break] above level 0. *)
Fixpoint level_offset (level : Z) (ikey : bytes) (files : list FilePtr) (result : Z) (cache : C) : Z * C :=
  match files with
  | [] => (result, cache)
  | f :: files =>
      match InternalKey_Compare ucmp (largest f) ikey with
      | Gt =>
          match InternalKey_Compare ucmp (smallest f) ikey with
          | Gt => if level >? 0 then (result, cache) else level_offset level ikey files result cache
          | _ =>
              let '(o, cache) := table_offset (number f) (file_size f) ikey cache in
              level_offset level ikey files (u64 (result + o)) cache
          end
      | _ => level_offset level ikey files (u64 (result + file_size f)) cache
      end
  end.

Definition VersionSet_ApproximateOffsetOf (v : Version) (ikey : bytes) (cache : C) : Z * C :=
  fold_left (fun rc level => level_offset level ikey (level_files v level) (fst rc) (snd rc)) levels (0, cache).
End Sizes.

(** ** What the builder saves *)

Section BuilderLaws.
Context (ucmp : Comparator) `{!ComparatorLaws ucmp}.

Abbreviation icmp := (InternalKeyComparator ucmp).

Definition before (f g : FilePtr) : Prop := BySmallestKey ucmp f g = true.

(** Neither file is before the other. *)
Definition same_place (f g : FilePtr) : Prop := Compare icmp (smallest f) (smallest g) = Eq /\ number f = number g.

Lemma before_spec f g : before f g <-> Compare icmp (smallest f) (smallest g) = Lt \/ (Compare icmp (smallest f) (smallest g) = Eq /\ number f < number g).
Proof.
  unfold before, BySmallestKey. change (InternalKey_Compare ucmp) with (Compare icmp).
  destruct (Compare icmp (smallest f) (smallest g)); rewrite ?Z.ltb_lt; intuition congruence.
Qed.

Lemma before_irreflexive f : ~ before f f.
Proof. rewrite before_spec, compare_refl. intros [?|[_ ?]]; [done|lia]. Qed.

Lemma before_trans f g h : before f g -> before g h -> before f h.
Proof.
  rewrite !before_spec. intros [H1|[H1 N1]] [H2|[H2 N2]].
  - left. by apply (compare_lt_trans _ (smallest g)).
  - left. apply (compare_lt_le_trans _ (smallest g)); [done|by rewrite H2].
  - left. apply (compare_le_lt_trans _ (smallest g)); [by rewrite H1|done].
  - right. split; [|lia]. change (key_equiv icmp (smallest f) (smallest h)). by transitivity (smallest g).
Qed.

Lemma before_total f g : before f g \/ before g f \/ same_place f g.
Proof.
  rewrite !before_spec. unfold same_place. destruct (Compare icmp (smallest f) (smallest g)) eqn:E; [|auto|].
  - apply compare_eq_sym in E as E'. rewrite E'. destruct (Z.lt_trichotomy (number f) (number g)) as [|[|]]; auto.
  - apply compare_gt_lt in E. auto.
Qed.

Lemma not_before f g : BySmallestKey ucmp f g = false <-> before g f \/ same_place f g.
Proof.
  rewrite <- not_true_iff_false. fold (before f g). split.
  - intros H. destruct (before_total f g) as [?|?]; [done|done].
  - intros [H|H] Hb; [by apply (before_irreflexive f), before_trans with g|]. apply before_spec in Hb. destruct H as [H1 H2]. rewrite H1 in Hb.
    destruct Hb as [?|[_ ?]]; [done|lia].
Qed.

Definition in_order (l : list FilePtr) : Prop := StronglySorted before l.

Lemma FileSet_insert_spec f s : in_order s ->
  in_order (FileSet_insert ucmp f s) /\ (forall g, g ∈ FileSet_insert ucmp f s -> g = f \/ g ∈ s) /\ (forall g, g ∈ s -> g ∈ FileSet_insert ucmp f s) /\
  (f ∈ FileSet_insert ucmp f s \/ exists g, g ∈ s /\ same_place f g).
Proof.
  induction 1 as [|g s Hs IH Hlt]; cbn [FileSet_insert].
  - split; [repeat constructor|]. split; [set_solver|]. split; [set_solver|]. left. left.
  - destruct (BySmallestKey ucmp f g) eqn:E1; [|destruct (BySmallestKey ucmp g f) eqn:E2].
    + split; [|set_solver]. constructor; [by constructor|]. constructor; [done|]. eapply Forall_impl; [exact Hlt|]. intros h Hh. by apply before_trans with g.
    + destruct IH as (H1 & H2 & H3 & H4). split; [|split; [set_solver|split; [set_solver|]]].
      * constructor; [done|]. apply Forall_forall. intros h Hh. rewrite Forall_forall in Hlt. destruct (H2 h Hh) as [->|Hin]; [done|by apply Hlt].
      * destruct H4 as [H4|(h & Hh & He)]; [left; by right|right; exists h; split; [by right|done]].
    + split; [by constructor|]. split; [auto|]. split; [auto|]. right. exists g. split; [left|]. apply not_before in E1 as [E1|E1]; [congruence|done].
Qed.

Lemma upper_bound_spec f base : in_order base ->
  let '(a, b) := upper_bound ucmp f base in base = a ++ b /\ Forall (fun g => ~ before f g) a /\ Forall (before f) b.
Proof.
  induction 1 as [|g base Hs IH Hlt]; cbn [upper_bound]; [done|]. destruct (BySmallestKey ucmp f g) eqn:E.
  - split; [done|]. split; [constructor|]. constructor; [done|]. eapply Forall_impl; [exact Hlt|]. intros h Hh. by apply before_trans with g.
  - destruct (upper_bound ucmp f base) as [a b]. destruct IH as (-> & H1 & H2). split; [done|]. split; [|done]. constructor; [|done]. by rewrite <- not_true_iff_false in E.
Qed.

Definition kept (deleted : gset Z) (l : list FilePtr) : list FilePtr := base.filter (fun f : FilePtr => number f ∉ deleted) l.

Lemma fold_MaybeAddFile deleted l files : fold_left (MaybeAddFile deleted) l files = files ++ kept deleted l.
Proof.
  revert files. induction l as [|f l IH]; intros files; [by rewrite app_nil_r|]. cbn [fold_left]. rewrite IH. unfold MaybeAddFile, kept.
  destruct (decide (number f ∈ deleted)) as [H|H].
  - rewrite bool_decide_true by done. by rewrite filter_cons_False by tauto.
  - rewrite bool_decide_false by done. rewrite filter_cons_True by done. by rewrite <- app_assoc.
Qed.

Fixpoint merged (base added : list FilePtr) : list FilePtr :=
  match added with
  | [] => base
  | f :: added => let '(a, b) := upper_bound ucmp f base in a ++ f :: merged b added
  end.

Lemma SaveTo_level_merged deleted base added files : SaveTo_level ucmp deleted base added files = files ++ kept deleted (merged base added).
Proof.
  revert base files. induction added as [|f added IH]; intros base files; cbn [SaveTo_level merged]; [apply fold_MaybeAddFile|].
  destruct (upper_bound ucmp f base) as [a b]. rewrite IH, fold_MaybeAddFile. change (MaybeAddFile deleted ?l f) with (fold_left (MaybeAddFile deleted) [f] l).
  rewrite fold_MaybeAddFile, <- !app_assoc. unfold kept. by rewrite filter_app, filter_cons, (filter_cons _ f (merged b added)); destruct (decide _).
Qed.

Lemma merged_perm base added : in_order base -> merged base added ≡ₚ base ++ added.
Proof.
  revert base. induction added as [|f added IH]; intros base Hb; cbn [merged]; [by rewrite app_nil_r|].
  pose proof (upper_bound_spec f base Hb) as Hu. destruct (upper_bound ucmp f base) as [a b]. destruct Hu as (-> & _ & _).
  apply StronglySorted_app in Hb as (_ & _ & Hb). rewrite IH by done. solve_Permutation.
Qed.

Lemma merged_order base added : in_order base -> in_order added -> (forall f g, f ∈ added -> g ∈ base -> ~ same_place f g) -> in_order (merged base added).
Proof.
  intros Hb Ha. revert base Hb. induction Ha as [|f added Ha IH Hlt]; intros base Hb Hd; cbn [merged]; [done|].
  pose proof (upper_bound_spec f base Hb) as Hu. destruct (upper_bound ucmp f base) as [a b]. destruct Hu as (-> & H1 & H2).
  apply StronglySorted_app in Hb as (Hab & Hsa & Hsb). rewrite Forall_forall in Hlt, H1, H2.
  assert (Haf : forall g, g ∈ a -> before g f).
  { intros g Hg. specialize (H1 g Hg). destruct (before_total f g) as [?|[?|Hsp]]; [done|done|]. exfalso. apply (Hd f g); [left|set_solver|done]. }
  apply StronglySorted_app. split; [|split; [done|]].
  - intros x y Hx [->|Hy]%elem_of_cons; [by apply Haf|]. rewrite merged_perm in Hy by done. apply elem_of_app in Hy as [Hy|Hy]; [by apply Hab|].
    apply before_trans with f; [by apply Haf|by apply Hlt].
  - constructor; [apply IH; [done|]; intros x y Hx Hy; apply Hd; [by right|set_solver]|]. apply Forall_forall. intros y Hy. rewrite merged_perm in Hy by done.
    apply elem_of_app in Hy as [Hy|Hy]; [by apply H2|by apply Hlt].
Qed.
End BuilderLaws.

(** ** Replaying edits *)

Section Replay.
Context (ucmp : Comparator) `{!ComparatorLaws ucmp}.

(** What a manifest records of a file, as [Apply] reads it back. *)
Definition norm (f : FileMetaData) : FileMetaData :=
  mkFileMetaData 1 (allowed_seeks_of (file_size f)) (number f) (file_size f) (smallest f) (largest f).

Definition numbers (l : list FilePtr) : list Z := map (fun f : FilePtr => number f) l.
Definition metas (l : list FilePtr) : list FileMetaData := map (fun f : FilePtr => norm f) l.

(** What an edit does to level [n]. *)
Definition edit_deleted (n : nat) (e : VersionEdit) : list Z := map snd (base.filter (fun df => Z.to_nat (fst df) = n) (deleted_files_ e)).
Definition edit_new (n : nat) (e : VersionEdit) : list FileMetaData := map snd (base.filter (fun nf => Z.to_nat (fst nf) = n) (new_files_ e)).

Lemma apply_deleted_level dfs b n : base_ (fold_left apply_deleted dfs b) = base_ b /\ length (levels_ (fold_left apply_deleted dfs b)) = length (levels_ b) /\
  forall st, levels_ b !! n = Some st ->
    levels_ (fold_left apply_deleted dfs b) !! n = Some (mkLevelState (list_to_set (map snd (base.filter (fun df => Z.to_nat (fst df) = n) dfs)) ∪ ls_deleted st) (ls_added st)).
Proof.
  revert b. induction dfs as [|[l m] dfs IH]; intros b; cbn [fold_left].
  - split; [done|]. split; [done|]. intros [D A] Hst. rewrite Hst. cbn. do 2 f_equal. set_solver.
  - destruct (IH (apply_deleted b (l, m))) as (H1 & H2 & H3). split; [done|]. split; [rewrite H2; cbn; by rewrite length_alter|].
    intros st Hst. rewrite filter_cons. cbn [fst]. destruct (decide (Z.to_nat l = n)) as [<-|Hne].
    + erewrite H3; [|cbn; rewrite list_lookup_alter_eq, Hst; reflexivity]. cbn. do 2 f_equal. set_solver.
    + apply H3. cbn. by rewrite list_lookup_alter_ne.
Qed.

Definition insert_files (fs : list FilePtr) (l : list FilePtr) : list FilePtr := fold_left (fun l f => FileSet_insert ucmp f l) fs l.

Definition apply_news {W} (nfs : list (Z * FileMetaData)) (bv : Builder * VersionSet W) : Builder * VersionSet W :=
  fold_left (fun bv nf =>
    let '(b, vs) := bv in
    let a := unused vs in
    (apply_new ucmp b a nf, set_seeks (<[a := allowed_seeks_of (file_size (snd nf))]> (seeks_ vs)) (S a) vs)) nfs bv.

Lemma apply_new_level {W} nfs b (vs : VersionSet W) n : base_ (fst (apply_news nfs (b, vs))) = base_ b /\ length (levels_ (fst (apply_news nfs (b, vs)))) = length (levels_ b) /\
  forall st, levels_ b !! n = Some st -> exists fs, metas fs = map norm (map snd (base.filter (fun nf => Z.to_nat (fst nf) = n) nfs)) /\
    levels_ (fst (apply_news nfs (b, vs))) !! n = Some (mkLevelState (ls_deleted st ∖ list_to_set (numbers fs)) (insert_files fs (ls_added st))).
Proof.
  revert b vs. induction nfs as [|[l m] nfs IH]; intros b vs; cbn [apply_news fold_left].
  - split; [done|]. split; [done|]. intros [D A] Hst. exists []. split; [done|]. cbn. rewrite Hst. do 2 f_equal. set_solver.
  - set (vs' := set_seeks _ _ vs). change (fold_left _ nfs ?bv) with (apply_news nfs bv).
    destruct (IH (apply_new ucmp b (unused vs) (l, m)) vs') as (H1 & H2 & H3). split; [done|]. split; [rewrite H2; cbn; by rewrite length_alter|].
    intros st Hst. rewrite filter_cons. cbn [fst]. destruct (decide (Z.to_nat l = n)) as [<-|Hne].
    + destruct (H3 (mkLevelState (ls_deleted st ∖ {[ number m ]}) (FileSet_insert ucmp (new_file (unused vs) m) (ls_added st)))) as (fs & Hfs & E).
      { cbn. rewrite list_lookup_alter_eq, Hst. reflexivity. }
      exists (new_file (unused vs) m :: fs). split; [cbn; by rewrite <- Hfs|]. rewrite E. cbn. do 2 f_equal. set_solver.
    + apply H3. cbn. by rewrite list_lookup_alter_ne.
Qed.

Lemma Builder_Apply_level {W} e b (vs : VersionSet W) n : let b' := fst (Builder_Apply ucmp e b vs) in
  base_ b' = base_ b /\ length (levels_ b') = length (levels_ b) /\
  forall st, levels_ b !! n = Some st -> exists fs, metas fs = map norm (edit_new n e) /\
    levels_ b' !! n = Some (mkLevelState ((list_to_set (edit_deleted n e) ∪ ls_deleted st) ∖ list_to_set (numbers fs)) (insert_files fs (ls_added st))).
Proof.
  cbv zeta. unfold Builder_Apply. set (vs1 := set_compact_pointer _ vs). change (fold_left _ (new_files_ e) ?bv) with (apply_news (new_files_ e) bv).
  destruct (apply_deleted_level (deleted_files_ e) b n) as (D1 & D2 & D3). set (b1 := fold_left apply_deleted _ _) in *.
  destruct (apply_new_level (new_files_ e) b1 vs1 n) as (N1 & N2 & N3). split; [by rewrite N1|]. split; [by rewrite N2|].
  intros st Hst. destruct (N3 _ (D3 st Hst)) as (fs & Hfs & E). exists fs. split; [done|]. rewrite E. done.
Qed.

Lemma in_order_nodup l : in_order ucmp l -> NoDup l.
Proof.
  induction 1 as [|f l Hs IH Hlt]; [constructor|]. apply NoDup_cons. split; [|done]. intros Hin. rewrite Forall_forall in Hlt. by apply (before_irreflexive ucmp f), Hlt.
Qed.

(** No two files are at the same place of the order: what [FileSet_insert] takes for one
    file. *)
Definition separate (l : list FileMetaData) : Prop := StronglySorted (fun f g => ~ same_place ucmp (mkFilePtr 0 f) (mkFilePtr 0 g)) l.

Lemma same_place_sym f g : same_place ucmp f g -> same_place ucmp g f.
Proof. intros [H1 H2]. split; [by apply compare_eq_sym|done]. Qed.

Lemma separate_app l l' : separate (l ++ l') <-> (forall f g, f ∈ l -> g ∈ l' -> ~ same_place ucmp (mkFilePtr 0 f) (mkFilePtr 0 g)) /\ separate l /\ separate l'.
Proof. apply StronglySorted_app. Qed.

Lemma separate_perm l l' : l ≡ₚ l' -> separate l -> separate l'.
Proof.
  unfold separate. intros Hp. induction Hp as [|f l l' Hp IH|f g l|l1 l2 l3 _ IH1 _ IH2]; intros H; [done| | |by auto].
  - apply StronglySorted_inv in H as [H1 H2]. constructor; [by apply IH|]. by rewrite <- Hp.
  - apply StronglySorted_inv in H as [H1 H2]. apply StronglySorted_inv in H1 as [H1 H3]. apply Forall_cons in H2 as [H2 H4].
    constructor; [by constructor|]. constructor; [|done]. intros Hs. by apply H2, same_place_sym.
Qed.

Lemma separate_sub l l' : sublist l l' -> separate l' -> separate l.
Proof. apply sublist_StronglySorted. Qed.

(** Files that are separate are all inserted. *)
Lemma insert_files_spec fs l : in_order ucmp l -> separate (metas (l ++ fs)) ->
  in_order ucmp (insert_files fs l) /\ insert_files fs l ≡ₚ l ++ fs.
Proof.
  revert l. induction fs as [|f fs IH]; intros l Hl Hn; cbn [insert_files fold_left]; [rewrite app_nil_r; done|]. fold (insert_files fs).
  destruct (FileSet_insert_spec ucmp f l Hl) as (H1 & H2 & H3 & H4).
  assert (Hsep : forall g, g ∈ l -> ~ same_place ucmp g f).
  { intros g Hg. unfold metas in Hn. rewrite map_app in Hn. apply separate_app in Hn as (Hd & _ & _). intros Hs. apply (Hd (norm g) (norm f)); [by apply (list_elem_of_fmap_2 (fun f : FilePtr => norm f))|left|exact Hs]. }
  assert (Hself : same_place ucmp f f) by (split; [apply compare_refl|done]).
  assert (Hf : f ∉ l) by (intros Hf; by apply (Hsep f Hf)).
  assert (Hin : f ∈ FileSet_insert ucmp f l) by (destruct H4 as [H4|(g & Hg & Hs)]; [done|]; by destruct (Hsep g Hg (same_place_sym _ _ Hs))).
  assert (Hp : FileSet_insert ucmp f l ≡ₚ f :: l).
  { apply NoDup_Permutation; [by eapply in_order_nodup|apply NoDup_cons; split; [done|by eapply in_order_nodup]|]. intros x. split; [intros [->|Hx]%H2; [left|by right]|intros [->|Hx]%elem_of_cons; [done|by apply H3]]. }
  destruct (IH _ H1) as [I1 I2].
  { eapply separate_perm; [|exact Hn]. unfold metas. apply Permutation_map. rewrite Hp. solve_Permutation. }
  split; [done|]. change (fold_left _ fs _) with (insert_files fs (FileSet_insert ucmp f l)). rewrite I2, Hp. solve_Permutation.
Qed.

Lemma in_order_sublist l l' : l `sublist_of` l' -> in_order ucmp l' -> in_order ucmp l.
Proof. apply sublist_StronglySorted. Qed.

Definition before_meta (f g : FileMetaData) : Prop := before ucmp (mkFilePtr 0 f) (mkFilePtr 0 g).

Lemma in_order_metas l : in_order ucmp l <-> StronglySorted before_meta (metas l).
Proof.
  unfold in_order, metas. by rewrite StronglySorted_map.
Qed.

(** Two lists in order with the same files are equal, up to the addresses. *)
Lemma in_order_unique l l' : in_order ucmp l -> in_order ucmp l' -> metas l ≡ₚ metas l' -> metas l = metas l'.
Proof.
  rewrite !in_order_metas. intros H H' Hp. eapply StronglySorted_unique_strong; [|exact H|exact H'|exact Hp].
  intros f g _ _ H1 H2. exfalso. apply (before_irreflexive ucmp (mkFilePtr 0 f)). by eapply before_trans.
Qed.

(** The specification of an edit: the files of a level before and after it. *)
Definition keep (D : gset Z) (l : list FileMetaData) : list FileMetaData := base.filter (fun f => number f ∉ D) l.
(** A number that is deleted and added again stays: [Apply] takes it back from the deleted
    ones. *)
Definition edit_gone (n : nat) (e : VersionEdit) : gset Z := list_to_set (edit_deleted n e) ∖ list_to_set (map number (edit_new n e)).
Definition edit_level (n : nat) (e : VersionEdit) (fs : list FileMetaData) : list FileMetaData :=
  keep (edit_gone n e) fs ++ map norm (edit_new n e).

Lemma metas_kept D l : metas (kept D l) = keep D (metas l).
Proof. unfold metas, keep, kept. by rewrite filter_map. Qed.

Lemma metas_app l l' : metas (l ++ l') = metas l ++ metas l'.
Proof. apply map_app. Qed.

Lemma metas_perm l l' : l ≡ₚ l' -> metas l ≡ₚ metas l'.
Proof. apply Permutation_map. Qed.

Lemma numbers_metas l : numbers l = map number (metas l).
Proof. unfold numbers, metas. by rewrite map_map. Qed.

Lemma elem_of_numbers (f : FilePtr) l : f ∈ l -> number f ∈ numbers l.
Proof. apply (list_elem_of_fmap_2 (fun f : FilePtr => number f)). Qed.

Lemma numbers_new n e news : metas news = map norm (edit_new n e) -> numbers news = map number (edit_new n e).
Proof. intros H. rewrite numbers_metas, H, map_map. done. Qed.

(** Deleting files and then adding others, none with a number that was deleted before. *)
Lemma kept_step n e D l news : metas news = map norm (edit_new n e) -> D ## list_to_set (map number (edit_new n e)) ->
  metas (kept ((list_to_set (edit_deleted n e) ∪ D) ∖ list_to_set (numbers news)) (l ++ news)) = edit_level n e (metas (kept D l)).
Proof.
  intros Hn Hd. unfold edit_level, edit_gone. rewrite <- (numbers_new n e news Hn) in *. rewrite <- Hn, <- metas_kept, <- metas_app. unfold kept. rewrite filter_app. f_equal. f_equal.
  - rewrite list_filter_filter. apply filter_ext_in. intros f _. set_solver.
  - apply filter_all. apply Forall_forall. intros f Hf. apply elem_of_numbers in Hf. set_solver.
Qed.

Definition files_after (n : nat) (es : list VersionEdit) : list FileMetaData := fold_left (fun fs e => edit_level n e fs) es [].
Definition added (n : nat) (es : list VersionEdit) : list FileMetaData := concat (map (fun e => map norm (edit_new n e)) es).

(** The numbers that are deleted at a level while edits are replayed. *)
Definition deleted_step (n : nat) (D : gset Z) (e : VersionEdit) : gset Z := (list_to_set (edit_deleted n e) ∪ D) ∖ list_to_set (map number (edit_new n e)).
Definition deleted_after (n : nat) (es : list VersionEdit) : gset Z := fold_left (deleted_step n) es ∅.
Fixpoint no_return (n : nat) (D : gset Z) (es : list VersionEdit) : Prop :=
  match es with
  | [] => True
  | e :: es => D ## list_to_set (map number (edit_new n e)) /\ no_return n (deleted_step n D e) es
  end.

(** The files that are added to a level are apart in the order, and none of them has a
    number that an earlier edit deleted there. *)
Definition fresh (es : list VersionEdit) : Prop := forall n, separate (added n es) /\ no_return n ∅ es.

Lemma added_snoc n es e : added n (es ++ [e]) = added n es ++ map norm (edit_new n e).
Proof. unfold added. rewrite map_app, concat_app. cbn. by rewrite app_nil_r. Qed.

Lemma no_return_app n D es es' : no_return n D (es ++ es') <-> no_return n D es /\ no_return n (fold_left (deleted_step n) es D) es'.
Proof. revert D. induction es as [|e es IH]; intros D; cbn [app no_return fold_left]; [tauto|]. rewrite IH. tauto. Qed.

Lemma fresh_prefix es es' : fresh (es ++ es') -> fresh es.
Proof.
  intros H n. destruct (H n) as [H1 H2]. unfold added in *. rewrite map_app, concat_app in H1. apply separate_app in H1 as (_ & H1 & _). by apply no_return_app in H2 as [H2 _].
Qed.

Lemma fresh_snoc n es e : fresh (es ++ [e]) -> separate (added n es ++ map norm (edit_new n e)) /\ deleted_after n es ## list_to_set (map number (edit_new n e)).
Proof. intros H. destruct (H n) as [H1 H2]. rewrite added_snoc in H1. apply no_return_app in H2 as [_ [H2 _]]. done. Qed.

Lemma files_after_snoc n es e : files_after n (es ++ [e]) = edit_level n e (files_after n es).
Proof. unfold files_after. by rewrite fold_left_app. Qed.

Lemma files_after_added n es : sublist (files_after n es) (added n es).
Proof.
  induction es as [|e es IH] using rev_ind; [done|]. rewrite files_after_snoc, added_snoc. unfold edit_level, keep. apply sublist_app; [|done]. etransitivity; [apply sublist_filter|done].
Qed.

Lemma edit_level_perm n e l l' : l ≡ₚ l' -> edit_level n e l ≡ₚ edit_level n e l'.
Proof. intros H. unfold edit_level, keep. by rewrite H. Qed.

(** Level [n] of a builder that has applied [es], from no files. *)
Record replayed (n : nat) (es : list VersionEdit) (st : LevelState) : Prop := {
  rp_order : in_order ucmp (ls_added st);
  rp_added : metas (ls_added st) ≡ₚ added n es;
  rp_deleted : ls_deleted st = deleted_after n es;
  rp_files : metas (kept (ls_deleted st) (ls_added st)) ≡ₚ files_after n es
}.

Lemma replayed_step n es st e news : replayed n es st -> fresh (es ++ [e]) -> metas news = map norm (edit_new n e) ->
  replayed n (es ++ [e]) (mkLevelState ((list_to_set (edit_deleted n e) ∪ ls_deleted st) ∖ list_to_set (numbers news)) (insert_files news (ls_added st))).
Proof.
  intros [H1 H2 H3 H4] Hfr Hnews. apply (fresh_snoc n) in Hfr as [Hsep Hd].
  destruct (insert_files_spec news (ls_added st) H1) as [I1 I2]; [rewrite metas_app, Hnews; eapply separate_perm; [|exact Hsep]; by rewrite H2|].
  split; cbn [ls_added ls_deleted]; [done|..].
  - rewrite added_snoc, <- Hnews, <- H2, <- metas_app. by apply metas_perm.
  - rewrite (numbers_new n e news Hnews), H3. unfold deleted_after. by rewrite fold_left_app.
  - rewrite <- H3 in Hd. rewrite files_after_snoc, <- (edit_level_perm n e _ _ H4), <- (kept_step n e (ls_deleted st) (ls_added st) news Hnews Hd).
    apply metas_perm. unfold kept. by rewrite I2.
Qed.

(** The level of a version to which [e] is applied alone. *)
Lemma saved_level n e fs news : in_order ucmp fs -> separate (metas fs ++ map norm (edit_new n e)) -> metas news = map norm (edit_new n e) ->
  let fs' := SaveTo_level ucmp ((list_to_set (edit_deleted n e) ∪ ∅) ∖ list_to_set (numbers news)) fs (insert_files news []) [] in
  in_order ucmp fs' /\ metas fs' ≡ₚ edit_level n e (metas fs).
Proof.
  intros Hfs Hn Hnews. cbv zeta. rewrite SaveTo_level_merged by done. cbn [app]. rewrite <- Hnews in Hn. apply separate_app in Hn as (Hd & _ & Hn).
  destruct (insert_files_spec news []) as [I1 I2]; [constructor|done|]. cbn [app] in I2. split.
  - eapply in_order_sublist; [apply sublist_filter|]. apply merged_order; [done..|]. intros f g Hf Hg Hs. rewrite I2 in Hf.
    apply (Hd (norm g) (norm f)); [by apply (list_elem_of_fmap_2 (fun f : FilePtr => norm f))..|]. by apply same_place_sym.
  - pose proof (kept_step n e ∅ fs news Hnews ltac:(apply disjoint_empty_l)) as Hk.
    replace (kept ∅ fs) with fs in Hk by (symmetry; apply filter_all, Forall_forall; set_solver).
    rewrite <- Hk. apply metas_perm. unfold kept. by rewrite merged_perm, I2.
Qed.

(** A version whose levels have the files that [es] leave. *)
Definition tracks (es : list VersionEdit) (v : Version) : Prop :=
  length (files_ v) = Z.to_nat kNumLevels /\
  forall n fs, files_ v !! n = Some fs -> in_order ucmp fs /\ metas fs ≡ₚ files_after n es.

(** A builder that has applied [es], from no files. *)
Definition builds (es : list VersionEdit) (b : Builder) : Prop :=
  files_ (base_ b) = replicate (Z.to_nat kNumLevels) [] /\ length (levels_ b) = Z.to_nat kNumLevels /\
  forall n st, levels_ b !! n = Some st -> replayed n es st.

Lemma tracks_unique es v v' : tracks es v -> tracks es v' -> map metas (files_ v) = map metas (files_ v').
Proof.
  intros [L1 H1] [L2 H2]. apply list_eq. intros n. rewrite !list_lookup_fmap.
  destruct (files_ v !! n) as [fs|] eqn:E1, (files_ v' !! n) as [fs'|] eqn:E2; cbn.
  - destruct (H1 n fs E1) as [O1 P1], (H2 n fs' E2) as [O2 P2]. f_equal. apply in_order_unique; [done..|]. by rewrite P1, P2.
  - apply lookup_lt_Some in E1. apply lookup_ge_None in E2. lia.
  - apply lookup_lt_Some in E2. apply lookup_ge_None in E1. lia.
  - done.
Qed.

Lemma builds_make v : files_ v = replicate (Z.to_nat kNumLevels) [] -> builds [] (Builder_make v).
Proof.
  intros Hv. split; [done|]. split; [done|]. intros n st [-> _]%lookup_replicate. split; [constructor|done|done|done].
Qed.

Lemma builds_step {W} es b e (vs : VersionSet W) : builds es b -> fresh (es ++ [e]) -> builds (es ++ [e]) (fst (Builder_Apply ucmp e b vs)).
Proof.
  intros (H1 & H2 & H3) Hfr. destruct (Builder_Apply_level e b vs 0) as (E1 & E2 & _). split; [by rewrite E1|]. split; [by rewrite E2|].
  intros n st' Hst'. destruct (Builder_Apply_level e b vs n) as (_ & _ & E3).
  assert (Hn : (n < length (levels_ b))%nat) by (rewrite <- E2; by apply lookup_lt_Some in Hst').
  destruct (lookup_lt_is_Some_2 (levels_ b) n Hn) as [st Hst]. destruct (E3 st Hst) as (news & Hnews & E).
  rewrite E in Hst'. injection Hst' as <-. apply replayed_step; [by apply H3|done|done].
Qed.

Lemma SaveTo_lookup b v n fs : files_ (SaveTo ucmp b v) !! n = Some fs ->
  exists base st, files_ (base_ b) !! n = Some base /\ levels_ b !! n = Some st /\ fs = SaveTo_level ucmp (ls_deleted st) base (ls_added st) [].
Proof. cbn. intros (base & st & -> & H1 & H2)%lookup_zip_with_Some. eauto. Qed.

Lemma Finalize_files v : files_ (Finalize v) = files_ v.
Proof. unfold Finalize. by destruct (fold_left _ _ _). Qed.

Lemma builds_tracks es b : builds es b -> tracks es (Finalize (SaveTo ucmp b Version_make)).
Proof.
  intros (H1 & H2 & H3). unfold tracks. rewrite Finalize_files. split; [cbn; rewrite length_zip_with, H1, H2; done|].
  intros n fs (base & st & Hb & Hst & ->)%SaveTo_lookup. rewrite H1 in Hb. apply lookup_replicate in Hb as [-> _].
  destruct (H3 n st Hst) as [R1 R2 R3]. rewrite SaveTo_level_merged by done. cbn [app].
  assert (Hm : merged ucmp [] (ls_added st) = ls_added st) by (clear; induction (ls_added st) as [|f l IH]; [done|]; cbn; by rewrite IH).
  rewrite Hm. split; [|done]. eapply in_order_sublist; [apply sublist_filter|done].
Qed.

(** Each level of a version to which an edit is applied. *)
Lemma saved_lookup {W} e v (vs : VersionSet W) n fs : length (files_ v) = Z.to_nat kNumLevels -> files_ v !! n = Some fs -> in_order ucmp fs ->
  separate (metas fs ++ map norm (edit_new n e)) ->
  exists fs', files_ (Finalize (SaveTo ucmp (fst (Builder_Apply ucmp e (Builder_make v) vs)) Version_make)) !! n = Some fs' /\
    in_order ucmp fs' /\ metas fs' ≡ₚ edit_level n e (metas fs).
Proof.
  intros Hl Hfs Ho Hn. rewrite Finalize_files. destruct (Builder_Apply_level e (Builder_make v) vs n) as (E1 & _ & E3).
  destruct (E3 (mkLevelState ∅ [])) as (news & Hnews & E).
  { apply lookup_replicate. split; [done|]. apply lookup_lt_Some in Hfs. lia. }
  exists (SaveTo_level ucmp ((list_to_set (edit_deleted n e) ∪ ∅) ∖ list_to_set (numbers news)) fs (insert_files news []) []). split.
  - cbn [files_ SaveTo]. rewrite E1. cbn [Builder_make base_]. apply lookup_zip_with_Some. exists fs. eexists. split; [|split; [done|exact E]]. done.
  - by apply saved_level.
Qed.

Lemma tracks_step {W} es v e (vs : VersionSet W) : tracks es v -> fresh (es ++ [e]) ->
  tracks (es ++ [e]) (Finalize (SaveTo ucmp (fst (Builder_Apply ucmp e (Builder_make v) vs)) Version_make)).
Proof.
  intros [H1 H2] Hfr. assert (Hlen : length (files_ (Finalize (SaveTo ucmp (fst (Builder_Apply ucmp e (Builder_make v) vs)) Version_make))) = Z.to_nat kNumLevels).
  { rewrite Finalize_files. cbn [files_ SaveTo]. destruct (Builder_Apply_level e (Builder_make v) vs 0) as (E1 & E2 & _).
    rewrite length_zip_with, E1, E2. cbn [Builder_make base_ levels_]. rewrite length_replicate. lia. }
  split; [exact Hlen|]. intros n fs' Hfs'. destruct (lookup_lt_is_Some_2 (files_ v) n) as [fs Hfs]; [apply lookup_lt_Some in Hfs'; lia|].
  destruct (H2 n fs Hfs) as [O P]. apply (fresh_snoc n) in Hfr as [Hsep _].
  destruct (saved_lookup e v vs n fs H1 Hfs O) as (fs2 & E & S1 & S2).
  { eapply separate_perm; [by rewrite P|]. eapply separate_sub; [|exact Hsep]. apply sublist_app; [apply files_after_added|done]. }
  rewrite E in Hfs'. injection Hfs' as <-. split; [done|]. rewrite files_after_snoc, S2. by apply edit_level_perm.
Qed.

(** *** Versions in the list *)

(** The addresses of the versions are not free. *)
Definition nodes_below {W} (vs : VersionSet W) : Prop := Forall (fun n => (v_id n < unused vs)%nat) (versions_ vs).

Lemma find_snoc_fresh (l : list VersionNode) id n v : Forall (fun n => (v_id n < id)%nat) l ->
  find (fun n => (v_id n =? id)%nat) (l ++ [mkNode id n v]) = Some (mkNode id n v).
Proof.
  induction 1 as [|m l Hm Hl IH]; cbn; [by rewrite Nat.eqb_refl|]. by rewrite (proj2 (Nat.eqb_neq _ _)) by lia.
Qed.

Lemma nodes_below_Unref {W} id (vs : VersionSet W) : nodes_below vs -> nodes_below (Version_Unref id vs).
Proof.
  unfold nodes_below. cbn. rewrite !Forall_forall. intros Hn n [_ Hin]%list_elem_of_filter.
  apply list_elem_of_fmap in Hin as (m & -> & Hm). apply Hn in Hm. by destruct (_ =? _)%nat.
Qed.

Lemma AppendVersion_spec {W} v (vs : VersionSet W) : nodes_below vs -> current (AppendVersion v vs) = v /\ nodes_below (AppendVersion v vs).
Proof.
  intros Hn. apply (nodes_below_Unref (current_ vs)) in Hn as Hn'. unfold AppendVersion. cbv zeta. unfold nodes_below in *.
  set (vs' := Version_Unref _ vs) in *. change (unused vs') with (unused vs) in Hn'.
  split.
  - unfold current. cbn [current_ set_seeks set_versions versions_]. by rewrite find_snoc_fresh.
  - cbn [unused set_seeks set_versions versions_]. apply Forall_app. split; [eapply Forall_impl; [exact Hn'|]; intros m Hm; cbv beta in *; lia|]. constructor; [cbn; lia|constructor].
Qed.

Lemma Builder_Apply_set {W} e b (vs : VersionSet W) : let vs' := snd (Builder_Apply ucmp e b vs) in
  current vs' = current vs /\ versions_ vs' = versions_ vs /\ (unused vs <= unused vs')%nat /\ descriptor_log_ vs' = descriptor_log_ vs /\
  dbpath_ vs' = dbpath_ vs /\ dbname_ vs' = dbname_ vs /\ manifest_file_number_ vs' = manifest_file_number_ vs /\
  vs_next_file_number_ vs' = vs_next_file_number_ vs /\ vs_last_sequence_ vs' = vs_last_sequence_ vs /\
  vs_log_number_ vs' = vs_log_number_ vs /\ vs_prev_log_number_ vs' = vs_prev_log_number_ vs.
Proof.
  cbv zeta. unfold Builder_Apply. change (fold_left _ (new_files_ e) ?bv) with (apply_news (new_files_ e) bv). generalize (fold_left apply_deleted (deleted_files_ e) b). clear b. intros b.
  set (l := fold_left _ (compact_pointers_ e) _). clearbody l.
  assert (H : forall nfs b (vs1 : VersionSet W), let vs' := snd (apply_news nfs (b, vs1)) in
    exists m n, (unused vs1 <= n)%nat /\ vs' = set_seeks m n vs1).
  { clear. induction nfs as [|nf nfs IH]; intros b vs1; cbv zeta; cbn [apply_news fold_left].
    - exists (seeks_ vs1), (unused vs1). split; [done|]. by destruct vs1.
    - change (fold_left _ nfs ?bv) with (apply_news nfs bv). destruct (IH (apply_new ucmp b (unused vs1) nf) (set_seeks (<[unused vs1:=allowed_seeks_of (file_size (snd nf))]> (seeks_ vs1)) (S (unused vs1)) vs1)) as (m & n & Hn & ->).
      exists m, n. split; [cbn in Hn; lia|done]. }
  destruct (H (new_files_ e) b (set_compact_pointer l vs)) as (m & n & Hn & ->). cbn in Hn. split_and!; try done.
Qed.
End Replay.

(** ** Writing and reading a manifest *)

(** What the set relies on: a new file is empty, and a file that cannot be made has an
    error. *)
Class EnvFilesLaws (E W R : Type) `{!EnvFiles E W R} `{!WritableFile W} : Prop := {
  NewWritableFile_error name env s env' : NewWritableFile name env = (inl s, env') -> ok s = false;
  NewWritableFile_empty name env f env' : NewWritableFile name env = (inr f, env') -> written f = []
}.

Section ManifestLaws.
Context (ucmp : Comparator) `{!ComparatorLaws ucmp}.
Context {E W R : Type} `{!EnvFiles E W R} `{!WritableFile W} `{!SequentialFile R}.
Context `{!EnvFilesLaws E W R} `{!WritableFileLaws W} `{!ReliableFile W} `{!SequentialFileLaws R} `{!ReliableReads R}.

Abbreviation VersionSet := (VersionSet W).

(** An edit that is written and read back whole, of a database with this comparator. *)
Definition recordable (e : VersionEdit) : Prop := edit_ok e /\ (has_comparator_ e = true -> comparator_ e = Name ucmp).

Definition encoded (e : VersionEdit) : bytes := EncodeTo e [].

(** *** Reading *)

Definition replay (es : list VersionEdit) (bv : Builder * VersionSet) : Builder * VersionSet :=
  fold_left (fun bv e => Builder_Apply ucmp e (fst bv) (snd bv)) es bv.

Lemma decoded_make e : decoded_into VersionEdit_make e = e.
Proof. by destruct e. Qed.

Lemma recover_record_edit e b (vs : VersionSet) nums : recordable e ->
  recover_record ucmp (encoded e) OK b vs nums = (OK, fst (Builder_Apply ucmp e b vs), snd (Builder_Apply ucmp e b vs), note_numbers e nums).
Proof.
  intros [Hok Hc]. unfold recover_record, encoded. rewrite DecodeFrom_EncodeTo, decoded_make by done.
  assert (Hq : ok OK && has_comparator_ e && negb (slice_eq (comparator_ e) (Name ucmp)) = false).
  { destruct (has_comparator_ e); [|done]. rewrite (proj2 (slice_eq_spec _ _)); [done|by apply Hc]. }
  rewrite Hq. change (ok OK) with true. cbv iota. by destruct (Builder_Apply ucmp e b vs).
Qed.

Lemma with_reports_same s (l : list (Z * Status)) : with_reports s (length l) l = s.
Proof. unfold with_reports. rewrite drop_all. by destruct (ok s). Qed.

Lemma Recover_loop_clean es : Forall recordable es -> forall fuel (r : Reader R) b (vs : VersionSet) nums,
  clean_reads r (map encoded es) -> (length es < fuel)%nat ->
  Recover_loop ucmp fuel r OK b vs nums = Some (OK, fst (replay es (b, vs)), snd (replay es (b, vs)), fold_left (fun nums e => note_numbers e nums) es nums).
Proof.
  induction 1 as [|e es He _ IH]; intros [|fuel] r b vs nums Hr Hf; cbn [length] in Hf; try lia; cbn [Recover_loop map] in *.
  - inversion Hr as [? r' Er Hrep|]; subst. rewrite Er. cbn [mbind option_bind]. by rewrite Hrep, with_reports_same.
  - inversion Hr as [|? rec r' recs Er Hrep Hr']; subst. rewrite Er. cbn [mbind option_bind]. rewrite Hrep, with_reports_same. cbn [ok].
    rewrite recover_record_edit by done. rewrite IH; [|done|lia]. cbn [replay fold_left fst snd]. by destruct (Builder_Apply ucmp e b vs).
Qed.

Lemma replay_builds es0 es b (vs : VersionSet) : builds ucmp es0 b -> fresh ucmp (es0 ++ es) -> builds ucmp (es0 ++ es) (fst (replay es (b, vs))).
Proof.
  revert es0 b vs. induction es as [|e es IH]; intros es0 b vs Hb Hfr; [by rewrite app_nil_r|]. rewrite cons_middle, app_assoc in *.
  cbn [replay fold_left fst snd]. rewrite (surjective_pairing (Builder_Apply ucmp e b vs)). apply IH; [|done]. apply builds_step; [done|done|]. by eapply fresh_prefix.
Qed.

(** What a run of edits leaves of a set: the lists of versions and the counters stay. *)
Lemma replay_set es b (vs : VersionSet) : let vs' := snd (replay es (b, vs)) in
  versions_ vs' = versions_ vs /\ (unused vs <= unused vs')%nat /\ dbpath_ vs' = dbpath_ vs /\ dbname_ vs' = dbname_ vs /\ descriptor_log_ vs' = descriptor_log_ vs.
Proof.
  revert b vs. induction es as [|e es IH]; intros b vs; [done|]. cbn [replay fold_left fst snd].
  rewrite (surjective_pairing (Builder_Apply ucmp e b vs)). destruct (IH (fst (Builder_Apply ucmp e b vs)) (snd (Builder_Apply ucmp e b vs))) as (H1 & H2 & H5 & H6 & H7).
  destruct (Builder_Apply_set ucmp e b vs) as (_ & H3 & H4 & D1 & D2 & D3 & _). cbv zeta in *. split_and!; [by etrans|by etrans|by etrans|by etrans|by etrans].
Qed.

(** *** Writing *)

Lemma open_manifest_ok (vs : VersionSet) env s log new_manifest env' : open_manifest ucmp vs env = Some (s, log, new_manifest, env') -> ok s = true ->
  (descriptor_log_ vs = log /\ is_Some log) \/
  (descriptor_log_ vs = None /\ exists l, log = Some l /\ Written [encoded (snapshot_edit ucmp vs)] l).
Proof.
  unfold open_manifest. intros Ho Hs. destruct (descriptor_log_ vs) as [l|]; [left; injection Ho as <- <- <- <-; eauto|right; split; [done|]].
  destruct (NewWritableFile _ env) as [[s'|f] env1] eqn:Ef.
  - injection Ho as <- <- <- <-. apply NewWritableFile_error in Ef. congruence.
  - unfold WriteSnapshot in Ho. destruct (AddRecord _ _) as [[s1 l]|] eqn:Ea; [|done]. cbn in Ho. injection Ho as <- <- <- <-.
    exists l. split; [done|]. change [encoded (snapshot_edit ucmp vs)] with ([] ++ [encoded (snapshot_edit ucmp vs)]).
    eapply Written_add; [|exact Ea]. apply Written_new. by apply NewWritableFile_empty in Ef.
Qed.

Lemma write_edit_ok e s log s' log' : write_edit e s log = Some (s', log') -> ok s' = true ->
  ok s = true /\ forall l, log = Some l -> exists l', log' = Some l' /\ forall records, Written records l -> Written (records ++ [encoded e]) l'.
Proof.
  unfold write_edit. intros Hw Hs. destruct log as [l|]; [|injection Hw as <- <-; done].
  destruct (ok s) eqn:Eok; [|injection Hw as <- <-; congruence]. split; [done|]. intros l0 [= <-].
  destruct (AddRecord _ l) as [[s1 l1]|] eqn:Ea; [|done]. cbn [mbind option_bind] in Hw.
  destruct (ok s1) eqn:Es1; [|injection Hw as <- <-; congruence]. destruct (Sync (dest l1)) as [s2 f] eqn:Ef. injection Hw as <- <-.
  eexists. split; [done|]. intros records HW. apply Sync_written in Ef. apply Written_sync; [by eapply Written_add|done].
Qed.

(** The set to which [LogAndApply] applies its edit, and the version that it makes. *)
Definition applied (edit : VersionEdit) (vs : VersionSet) : Builder * VersionSet := Builder_Apply ucmp (complete_edit edit vs) (Builder_make (current vs)) vs.
Definition next_version (edit : VersionEdit) (vs : VersionSet) : Version := Finalize (SaveTo ucmp (fst (applied edit vs)) Version_make).
Definition snapshot (edit : VersionEdit) (vs : VersionSet) : VersionEdit := snapshot_edit ucmp (snd (applied edit vs)).

Lemma LogAndApply_spec edit (vs : VersionSet) env s vs' env' : LogAndApply ucmp edit vs env = Some (s, vs', env') -> nodes_below vs ->
  nodes_below vs' /\ vs_next_file_number_ vs' = vs_next_file_number_ vs /\ vs_last_sequence_ vs' = vs_last_sequence_ vs /\
  if ok s then
    let e := complete_edit edit vs in
    current vs' = next_version edit vs /\ vs_log_number_ vs' = log_number_ e /\ vs_prev_log_number_ vs' = prev_log_number_ e /\
    exists l', descriptor_log_ vs' = Some l' /\
      (forall l records, descriptor_log_ vs = Some l -> Written records l -> Written (records ++ [encoded e]) l') /\
      (descriptor_log_ vs = None -> Written [encoded (snapshot edit vs); encoded e] l')
  else current vs' = current vs /\ vs_log_number_ vs' = vs_log_number_ vs /\ vs_prev_log_number_ vs' = vs_prev_log_number_ vs.
Proof.
  unfold LogAndApply. cbv zeta. fold (applied edit vs). intros HL Hn.
  pose proof (Builder_Apply_set ucmp (complete_edit edit vs) (Builder_make (current vs)) vs) as Hset. cbv zeta in Hset. fold (applied edit vs) in Hset.
  unfold snapshot, next_version. destruct (applied edit vs) as [b vs1]. cbn [fst snd] in *. destruct Hset as (C1 & C2 & C3 & C4 & _ & _ & _ & C5 & C6 & C7 & C8).
  assert (Hn1 : nodes_below vs1).
  { unfold nodes_below in *. rewrite C2. eapply Forall_impl; [exact Hn|]. intros m Hm. cbv beta in *. lia. }
  destruct (open_manifest ucmp vs1 env) as [[[[s1 log1] nm] env1]|] eqn:Eo; [|done]. cbn [mbind option_bind] in HL.
  destruct (write_edit _ s1 log1) as [[s2 log2]|] eqn:Ew; [|done]. cbn [mbind option_bind] in HL.
  set (s3 := if ok s2 && nm then _ else s2) in HL. assert (Hs3 : ok s3 = true -> ok s2 = true) by (subst s3; destruct (ok s2) eqn:E2; cbn [andb]; congruence). clearbody s3.
  destruct (ok s3) eqn:Es3.
  - injection HL as <- <- <-. rewrite Es3. destruct (AppendVersion_spec (Finalize (SaveTo ucmp b Version_make)) (set_descriptor log2 vs1)) as [A1 A2]; [done|].
    destruct (write_edit_ok _ _ _ _ _ Ew (Hs3 eq_refl)) as [Hok Hrec]. destruct (open_manifest_ok _ _ _ _ _ _ Eo Hok) as [(D1 & l & Hl)|(D1 & l & Hl & HW)].
    + destruct (Hrec l Hl) as (l' & -> & HW). split_and!; [exact A2|done|done|exact A1|done|done|]. exists l'. split; [done|].
      rewrite C4, Hl in D1. rewrite D1. split; [|done]. intros l0 records [= <-]. apply HW.
    + destruct (Hrec l Hl) as (l' & -> & HW'). split_and!; [exact A2|done|done|exact A1|done|done|]. exists l'. split; [done|].
      rewrite C4 in D1. rewrite D1. split; [done|]. intros _. exact (HW' _ HW).
  - destruct nm.
    + destruct (EnvDeleteFile _ env1) as [s4 env2]. injection HL as <- <- <-. rewrite Es3. done.
    + injection HL as <- <- <-. rewrite Es3. done.
Qed.

(** *** The snapshot *)

Definition recorded_file (f : FilePtr) : FileMetaData := FileMetaData_make (number f) (file_size f) (smallest f) (largest f).

Lemma fold_AddFile level (l : list FilePtr) e : let e' := fold_left (fun edit (f : FilePtr) => AddFile level (number f) (file_size f) (smallest f) (largest f) edit) l e in
  new_files_ e' = new_files_ e ++ map (fun f => (level, recorded_file f)) l /\ deleted_files_ e' = deleted_files_ e.
Proof.
  cbv zeta. revert e. induction l as [|f l IH]; intros e; cbn [fold_left map]; [by rewrite app_nil_r|].
  destruct (IH (AddFile level (number f) (file_size f) (smallest f) (largest f) e)) as [-> ->]. cbn. by rewrite <- app_assoc.
Qed.

Lemma fold_pointers (vs : VersionSet) ls e :
  let e' := fold_left (fun edit level => match nth (Z.to_nat level) (compact_pointer_ vs) [] with [] => edit | key => SetCompactPointer level key edit end) ls e in
  new_files_ e' = new_files_ e /\ deleted_files_ e' = deleted_files_ e.
Proof.
  cbv zeta. revert e. induction ls as [|x ls IH]; intros e; [done|]. cbn [fold_left].
  destruct (nth (Z.to_nat x) (compact_pointer_ vs) []); [apply IH|]. match goal with |- context [fold_left _ ls ?e1] => destruct (IH e1) as [-> ->] end. done.
Qed.

Lemma fold_level_files v ls e :
  let e' := fold_left (fun edit level => fold_left (fun edit (f : FilePtr) => AddFile level (number f) (file_size f) (smallest f) (largest f) edit) (level_files v level) edit) ls e in
  new_files_ e' = new_files_ e ++ concat (map (fun level => map (fun f => (level, recorded_file f)) (level_files v level)) ls) /\ deleted_files_ e' = deleted_files_ e.
Proof.
  cbv zeta. revert e. induction ls as [|x ls IH]; intros e; cbn [fold_left map concat]; [by rewrite app_nil_r|].
  destruct (fold_AddFile x (level_files v x) e) as [F1 F2]. match goal with |- context [fold_left _ ls ?e2] => destruct (IH e2) as [-> ->] end.
  rewrite F1, F2. by rewrite <- app_assoc.
Qed.

Lemma snapshot_files (vs : VersionSet) :
  new_files_ (snapshot_edit ucmp vs) = concat (map (fun level => map (fun f => (level, recorded_file f)) (level_files (current vs) level)) levels) /\
  deleted_files_ (snapshot_edit ucmp vs) = [].
Proof.
  unfold snapshot_edit. cbv zeta. match goal with |- context [fold_left _ levels ?e1] => match e1 with fold_left _ levels ?e2 =>
    destruct (fold_pointers vs levels e2) as [P1 P2]; destruct (fold_level_files (current vs) levels e1) as [L1 L2] end end.
  cbv zeta in *. rewrite L1, L2, P1, P2. done.
Qed.

Lemma snapshot_level n (vs : VersionSet) : (n < Z.to_nat kNumLevels)%nat -> edit_new n (snapshot_edit ucmp vs) = map recorded_file (nth n (files_ (current vs)) []).
Proof.
  intros Hn. unfold edit_new. rewrite (proj1 (snapshot_files vs)).
  assert (Hone : forall x l, map snd (base.filter (fun nf => Z.to_nat (fst nf) = n) (map (fun f : FilePtr => (x, recorded_file f)) l)) =
    if decide (Z.to_nat x = n) then map recorded_file l else []).
  { intros x l. rewrite filter_map. cbn [fst]. case_decide; [rewrite filter_all by (by apply Forall_true); by rewrite map_map|].
    by rewrite filter_none by (by apply Forall_true). }
  assert (Hs : forall m k, map snd (base.filter (fun nf => Z.to_nat (fst nf) = n) (concat (map (fun level => map (fun f : FilePtr => (level, recorded_file f)) (nth (Z.to_nat level) (files_ (current vs)) [])) (map Z.of_nat (seq k m))))) =
    if decide (k <= n < k + m)%nat then map recorded_file (nth n (files_ (current vs)) []) else []).
  { clear Hn. induction m as [|m IH]; intros k; cbn [seq map concat]; [by rewrite decide_False by lia|].
    rewrite filter_app, map_app, Hone, IH, Nat2Z.id. repeat case_decide; subst; try lia; rewrite ?app_nil_r; done. }
  unfold levels, level_files. rewrite Hs, decide_True by lia. done.
Qed.

Lemma snapshot_tracks (vs : VersionSet) : length (files_ (current vs)) = Z.to_nat kNumLevels -> Forall (in_order ucmp) (files_ (current vs)) ->
  tracks ucmp [snapshot_edit ucmp vs] (current vs).
Proof.
  intros Hl Ho. split; [done|]. intros n fs Hfs. split; [by eapply Forall_lookup_1|]. unfold files_after. cbn [fold_left]. unfold edit_level.
  rewrite snapshot_level by (rewrite <- Hl; by eapply lookup_lt_Some). rewrite (nth_lookup_Some _ _ _ _ Hfs), map_map. done.
Qed.

(** *** Runs of a set *)

(** [Logged es vs]: the set has written [es] to its manifest, starting with a snapshot
    of the version it had; between the edits its counters change and versions other
    than the current one are referenced and released. *)
Inductive Logged : list VersionEdit -> VersionSet -> Prop :=
| Logged_first vs edit env s vs' env' :
    nodes_below vs -> length (files_ (current vs)) = Z.to_nat kNumLevels -> Forall (in_order ucmp) (files_ (current vs)) -> descriptor_log_ vs = None ->
    LogAndApply ucmp edit vs env = Some (s, vs', env') -> ok s = true ->
    Logged [snapshot edit vs; complete_edit edit vs] vs'
| Logged_next es vs edit env s vs' env' :
    Logged es vs -> LogAndApply ucmp edit vs env = Some (s, vs', env') -> ok s = true -> Logged (es ++ [complete_edit edit vs]) vs'
| Logged_counters es vs next manifest last :
    Logged es vs -> Logged es (set_numbers next manifest last (vs_log_number_ vs) (vs_prev_log_number_ vs) vs)
| Logged_seeks es vs seeks free :
    Logged es vs -> (unused vs <= free)%nat -> Logged es (set_seeks seeks free vs)
| Logged_ref es vs id : Logged es vs -> Logged es (Version_Ref id vs)
| Logged_unref es vs id : Logged es vs -> id <> current_ vs -> Logged es (Version_Unref id vs).

(** What is true of the set in such a run. *)
Definition logged_ok (es : list VersionEdit) (vs : VersionSet) : Prop :=
  nodes_below vs /\ (exists log, descriptor_log_ vs = Some log /\ Written (map encoded es) log) /\
  (fresh ucmp es -> tracks ucmp es (current vs)) /\
  exists es0 e, es = es0 ++ [e] /\ has_log_number_ e = true /\ has_prev_log_number_ e = true /\ has_next_file_number_ e = true /\ has_last_sequence_ e = true /\
    vs_log_number_ vs = log_number_ e /\ vs_prev_log_number_ vs = prev_log_number_ e.

Lemma complete_edit_fields edit (vs : VersionSet) : let e := complete_edit edit vs in
  has_log_number_ e = true /\ has_prev_log_number_ e = true /\ has_next_file_number_ e = true /\ has_last_sequence_ e = true.
Proof. unfold complete_edit. destruct edit as [? ? ? ? ? ? [] [] ? ? ? ? ?]; done. Qed.

Lemma find_map_ref (f : VersionNode -> VersionNode) id (l : list VersionNode) : (forall n, v_id (f n) = v_id n /\ v_version (f n) = v_version n) ->
  v_version <$> find (fun n => (v_id n =? id)%nat) (map f l) = v_version <$> find (fun n => (v_id n =? id)%nat) l.
Proof.
  intros Hf. induction l as [|m l IH]; [done|]. cbn [map find]. rewrite (proj1 (Hf m)). destruct (_ =? _)%nat; [|done]. cbn. by rewrite (proj2 (Hf m)).
Qed.

Lemma current_version (vs : VersionSet) : current vs = default Version_make (v_version <$> find (fun n => (v_id n =? current_ vs)%nat) (versions_ vs)).
Proof. unfold current. by destruct (find _ _). Qed.

Lemma current_Ref id (vs : VersionSet) : current (Version_Ref id vs) = current vs.
Proof. rewrite !current_version. cbn. rewrite find_map_ref; [done|]. intros n. by destruct (_ =? _)%nat. Qed.

Lemma find_filter_other (P : VersionNode -> Prop) `{!forall n, Decision (P n)} id (l : list VersionNode) : (forall n, v_id n = id -> P n) ->
  find (fun n => (v_id n =? id)%nat) (base.filter P l) = find (fun n => (v_id n =? id)%nat) l.
Proof.
  intros HP. induction l as [|m l IH]; [done|]. rewrite filter_cons. cbn [find]. destruct (Nat.eqb_spec (v_id m) id) as [He|He].
  - rewrite decide_True by auto. cbn. by rewrite (proj2 (Nat.eqb_eq _ _) He).
  - case_decide; [cbn; by rewrite (proj2 (Nat.eqb_neq _ _) He)|done].
Qed.

Lemma current_Unref id (vs : VersionSet) : id <> current_ vs -> current (Version_Unref id vs) = current vs.
Proof.
  intros Hid. rewrite !current_version. cbn. rewrite find_filter_other by (intros n Hn [Hn' _]; congruence).
  rewrite find_map_ref; [done|]. intros n. by destruct (_ =? _)%nat.
Qed.

Lemma Logged_ok es vs : Logged es vs -> logged_ok es vs.
Proof.
  induction 1 as [vs edit env s vs' env' Hn Hl Ho Hd HL Hs|es vs edit env s vs' env' _ (Hn & (log & Hd & HW) & Ht & _) HL Hs
    |es vs next manifest last _ IH|es vs seeks free _ (Hn & IH) Hfree|es vs id _ (Hn & Hd & Ht & He)|es vs id _ (Hn & Hd & Ht & He) Hid].
  - destruct (LogAndApply_spec edit vs env s vs' env' HL Hn) as (Hn' & _ & _ & Hr). rewrite Hs in Hr. destruct Hr as (Hc & Hlog & Hprev & l' & Hl' & _ & HW).
    split; [done|]. split; [exists l'; split; [done|by apply HW]|]. split.
    + intros Hfr. rewrite Hc. apply (tracks_step ucmp [snapshot edit vs]); [|done]. pose proof (snapshot_tracks (snd (applied edit vs))) as Hst.
      replace (current (snd (applied edit vs))) with (current vs) in Hst by (symmetry; apply Builder_Apply_set). by apply Hst.
    + exists [snapshot edit vs], (complete_edit edit vs). split; [done|]. destruct (complete_edit_fields edit vs) as (? & ? & ? & ?). by split_and!.
  - destruct (LogAndApply_spec edit vs env s vs' env' HL Hn) as (Hn' & _ & _ & Hr). rewrite Hs in Hr. destruct Hr as (Hc & Hlog & Hprev & l' & Hl' & HW' & _).
    split; [done|]. split; [exists l'; split; [done|rewrite map_app; by eapply HW']|]. split.
    + intros Hfr. rewrite Hc. apply (tracks_step ucmp es (current vs) (complete_edit edit vs) vs); [|exact Hfr]. apply Ht. by eapply fresh_prefix.
    + exists es, (complete_edit edit vs). split; [done|]. destruct (complete_edit_fields edit vs) as (? & ? & ? & ?). by split_and!.
  - exact IH.
  - split; [eapply Forall_impl; [exact Hn|]; intros m Hm; cbn in *; lia|exact IH].
  - split; [|split; [done|split; [by rewrite current_Ref|done]]]. unfold nodes_below in *. cbn. apply Forall_map. eapply Forall_impl; [exact Hn|].
    intros m Hm. by destruct (_ =? _)%nat.
  - split; [by apply nodes_below_Unref|split; [done|split; [by rewrite current_Unref|done]]].
Qed.

(** *** Recovery *)

Lemma fold_note_last es0 e nums : has_log_number_ e = true -> has_prev_log_number_ e = true -> has_next_file_number_ e = true -> has_last_sequence_ e = true ->
  fold_left (fun nums e => note_numbers e nums) (es0 ++ [e]) nums =
  mkRecovered (Some (log_number_ e)) (Some (prev_log_number_ e)) (Some (next_file_number_ e)) (Some (last_sequence_ e)).
Proof. intros H1 H2 H3 H4. rewrite fold_left_app. cbn. unfold note_numbers. by rewrite H1, H2, H3, H4. Qed.

Lemma ReuseManifest_set reuse_logs dscname (vs : VersionSet) env : let '(reused, vs', env') := ReuseManifest reuse_logs dscname vs env in
  current vs' = current vs /\ vs_next_file_number_ vs' = vs_next_file_number_ vs /\ vs_last_sequence_ vs' = vs_last_sequence_ vs /\
  vs_log_number_ vs' = vs_log_number_ vs /\ vs_prev_log_number_ vs' = vs_prev_log_number_ vs /\
  (nodes_below vs -> nodes_below vs') /\ dbpath_ vs' = dbpath_ vs /\ dbname_ vs' = dbname_ vs /\
  (forall s, GetFileSize (dbpath_ vs ++ dscname) env = inl s -> reused = false /\ vs' = vs /\ env' = env).
Proof.
  unfold ReuseManifest. destruct reuse_logs; [|done]. cbn [negb]. destruct (GetFileSize _ env); [done|]. destruct (_ >=? _); [done|].
  by destruct (NewAppendableFile _ env) as [[s|f] env1].
Qed.

Lemma Recover_spec reuse_logs es0 e (vs : VersionSet) env file env' (log : Writer W) :
  let es := es0 ++ [e] in let e_last := e in
  Forall recordable es -> fresh ucmp es -> has_log_number_ e = true -> has_prev_log_number_ e = true -> has_next_file_number_ e = true -> has_last_sequence_ e = true ->
  Written (map encoded es) log -> files_ (current vs) = replicate (Z.to_nat kNumLevels) [] -> nodes_below vs ->
  NewSequentialFile (DescriptorFileName (dbpath_ vs) (dbname_ vs) 1) env = (inr file, env') -> unread file = written (dest log) ->
  exists save vs' env'', Recover ucmp reuse_logs vs env = Some (OK, save, vs', env'') /\ tracks ucmp es (current vs') /\
    vs_next_file_number_ vs' = u64 (next_file_number_ e_last + 1) /\ vs_last_sequence_ vs' = last_sequence_ e_last /\
    vs_log_number_ vs' = log_number_ e_last /\ vs_prev_log_number_ vs' = prev_log_number_ e_last /\
    nodes_below vs' /\ dbpath_ vs' = dbpath_ vs /\ dbname_ vs' = dbname_ vs /\
    (forall s, GetFileSize (dbpath_ vs ++ DescriptorFileName (dbpath_ vs) (dbname_ vs) 1) env' = inl s -> save = true /\ env'' = env' /\ descriptor_log_ vs' = descriptor_log_ vs).
Proof.
  cbv zeta. intros Hrec Hfr H1 H2 H3 H4 HW Hv Hn Hopen Hunread. unfold Recover. cbv zeta. rewrite Hopen.
  destruct (Written_clean (map encoded (es0 ++ [e])) log true true file HW) as (Hlen & Hclean & _). specialize (Hclean Hunread). rewrite length_map, <- Hunread in Hlen.
  rewrite (Recover_loop_clean (es0 ++ [e]) Hrec _ _ _ _ _ Hclean) by lia. cbn [mbind option_bind]. rewrite fold_note_last by done.
  cbn [rec_log_number rec_prev_log_number rec_next_file rec_last_sequence default from_option id Recover_numbers].
  change (ok OK) with true. cbn [negb]. change (ok OK) with true. cbv iota.
  pose proof (replay_builds [] (es0 ++ [e]) (Builder_make (current vs)) vs (builds_make ucmp _ Hv) Hfr) as Hb. cbn [app] in Hb.
  destruct (replay_set (es0 ++ [e]) (Builder_make (current vs)) vs) as (R1 & R2 & R3 & R4 & R5). destruct (replay _ _) as [b vs1]. cbn [fst snd] in *.
  set (vs2 := MarkFileNumberUsed _ (MarkFileNumberUsed _ vs1)).
  assert (Hm : versions_ vs2 = versions_ vs1 /\ unused vs2 = unused vs1 /\ dbpath_ vs2 = dbpath_ vs1 /\ dbname_ vs2 = dbname_ vs1 /\ descriptor_log_ vs2 = descriptor_log_ vs1) by (subst vs2; unfold MarkFileNumberUsed; by repeat case_match).
  destruct Hm as (M1 & M2 & M3 & M4 & M5).
  assert (Hn2 : nodes_below vs2).
  { unfold nodes_below in *. rewrite M1, M2, R1. eapply Forall_impl; [exact Hn|]. intros m Hm'. cbv beta in *. lia. }
  destruct (AppendVersion_spec (Finalize (SaveTo ucmp b Version_make)) vs2 Hn2) as [A1 A2].
  match goal with |- context [ReuseManifest reuse_logs ?d ?v ?en] => pose proof (ReuseManifest_set reuse_logs d v en) as Hreuse; destruct (ReuseManifest reuse_logs d v en) as [[reused vs3] env3] end.
  destruct Hreuse as (C & N1 & N2 & N3 & N4 & N5 & N6 & N7 & N8). exists (negb reused), vs3, env3. split; [done|]. split; [|split_and!; [done..|by apply N5|by rewrite N6; cbn; congruence|by rewrite N7; cbn; congruence|]].
  2:{ intros s Hs. destruct (N8 s) as (E1 & E2 & E3); [cbn; by rewrite M3, R3|]. rewrite E1, E2, E3. split; [done|]. split; [done|]. cbn. congruence. }
  rewrite C. change (tracks ucmp (es0 ++ [e]) (current (AppendVersion (Finalize (SaveTo ucmp b Version_make)) vs2))). rewrite A1. by apply builds_tracks.
Qed.

(** *** The sets after an edit *)

Lemma complete_edit_level n edit (vs : VersionSet) l : edit_level n (complete_edit edit vs) l = edit_level n edit l.
Proof. unfold complete_edit. by destruct edit as [? ? ? ? ? ? [] [] ? ? ? ? ?]. Qed.

Lemma complete_edit_new n edit (vs : VersionSet) : edit_new n (complete_edit edit vs) = edit_new n edit.
Proof. unfold complete_edit. by destruct edit as [? ? ? ? ? ? [] [] ? ? ? ? ?]. Qed.

(** A writer that a record can be added to, also after an error. *)
Definition log_ready (w : Writer W) : Prop := type_crc w = InitTypeCrc /\ 0 <= block_offset w <= kBlockSize.

Lemma Written_ready (w : Writer W) records : Written records w -> log_ready w.
Proof. intros HW. by destruct (Written_layout _ _ HW) as (Ht & Hb & _). Qed.

Lemma LogAndApply_returns edit (vs : VersionSet) env : (forall log, descriptor_log_ vs = Some log -> log_ready log) ->
  is_Some (LogAndApply ucmp edit vs env).
Proof.
  intros Hlog. unfold LogAndApply. cbv zeta. pose proof (Builder_Apply_set ucmp (complete_edit edit vs) (Builder_make (current vs)) vs) as (_ & _ & _ & C & _).
  destruct (Builder_Apply _ _ _ vs) as [b vs1]. cbn [snd] in C.
  assert (Ho : exists s log nm env', open_manifest ucmp vs1 env = Some (s, log, nm, env') /\ forall l, log = Some l -> log_ready l).
  { unfold open_manifest. rewrite C. destruct (descriptor_log_ vs) as [l|]; [do 4 eexists; split; [done|by intros ? [= <-]; auto]|].
    destruct (NewWritableFile _ env) as [[s|f] env1] eqn:Ef; [do 4 eexists; split; [done|done]|].
    unfold WriteSnapshot. destruct (AddRecord_total (EncodeTo (snapshot_edit ucmp vs1) []) (Writer_make f) eq_refl ltac:(by split)) as (s & l & Ea & Hl).
    rewrite Ea. do 4 eexists. split; [done|]. by intros ? [= <-]. }
  destruct Ho as (s & log & nm & env1 & -> & Hl). cbn [mbind option_bind].
  assert (Hw : is_Some (write_edit (complete_edit edit vs) s log)).
  { unfold write_edit. destruct log as [l|]; [|eauto]. destruct (ok s); [|eauto]. destruct (Hl l eq_refl) as [Ht Hb].
    destruct (AddRecord_total (EncodeTo (complete_edit edit vs) []) l Ht Hb) as (s1 & l1 & -> & _). cbn. destruct (ok s1); [|eauto]. destruct (Sync _). eauto. }
  destruct Hw as [[s2 log2] ->]. cbn [mbind option_bind]. destruct (ok (if ok s2 && nm then _ else s2)); [eauto|]. destruct nm; [|eauto]. destruct (EnvDeleteFile _ _). eauto.
Qed.
End ManifestLaws.

(** ** Levels without overlap *)

Section Disjoint.
Context (ucmp : Comparator) `{!ComparatorLaws ucmp}.

Abbreviation icmp := (InternalKeyComparator ucmp).

(** Two files of a level have no key in common, unless they are the same. *)
Definition apart (l : list FileMetaData) : Prop := forall i j f g, l !! i = Some f -> l !! j = Some g -> i <> j ->
  Compare icmp (largest f) (smallest g) = Lt \/ Compare icmp (largest g) (smallest f) = Lt.

Definition bounds_ok (f : FileMetaData) : Prop := valid_key (smallest f) /\ valid_key (largest f) /\ Compare icmp (smallest f) (largest f) <> Gt.

Lemma apart_perm l l' : l ≡ₚ l' -> apart l -> apart l'.
Proof.
  intros Hp Ha i j f g Hi Hj Hne. symmetry in Hp. apply Permutation_inj in Hp as (_ & p & Hinj & Hp). rewrite Hp in Hi, Hj. apply (Ha (p i) (p j) f g Hi Hj). intros He. by apply Hinj in He.
Qed.

Lemma in_order_apart l : in_order ucmp l -> Forall bounds_ok (metas l) -> apart (metas l) -> level_ok ucmp l.
Proof.
  intros Ho Hb Ha. assert (Hb' : forall f : FilePtr, f ∈ l -> bounds_ok f).
  { intros f Hf. rewrite Forall_forall in Hb. apply (Hb (norm f)). by apply (list_elem_of_fmap_2 (fun f : FilePtr => norm f)). }
  split; [apply Forall_forall; exact Hb'|]. apply StronglySorted_of_lookup. intros i j f g Hi Hj Hij.
  pose proof (StronglySorted_lookup _ _ i j f g Ho Hi Hj Hij) as Hbf. apply before_spec in Hbf.
  assert (Hle : Compare icmp (smallest f) (smallest g) <> Gt) by (destruct Hbf as [->|[-> _]]; done).
  destruct (Ha i j (norm f) (norm g)) as [H|H]; [by unfold metas; rewrite list_lookup_fmap, Hi|by unfold metas; rewrite list_lookup_fmap, Hj|lia|exact H|].
  exfalso. destruct (Hb' g) as (_ & _ & Hg); [by eapply list_elem_of_lookup_2|].
  assert (Hlt : Compare icmp (smallest g) (smallest f) = Lt) by (by apply (compare_le_lt_trans _ (largest g))). apply compare_gt_lt in Hlt. congruence.
Qed.
End Disjoint.

(** ** Theorems *)

(** C31: a set that has written edits to its manifest, from a snapshot on, is recovered,
    provided that the files that are added to a level are apart in the order of the level
    and that none of them has a number that an earlier edit of the manifest deleted from
    that level: a new set that reads what was written has the same files, level by level
    and in the same order, the same log numbers and, for its last sequence number, the one
    that the last edit recorded, and its next file number is above the one in that edit. *)
Theorem manifest_recovery (ucmp : Comparator) `{!ComparatorLaws ucmp} {E W R : Type} `{!EnvFiles E W R} `{!WritableFile W} `{!SequentialFile R}
    `{!EnvFilesLaws E W R} `{!WritableFileLaws W} `{!ReliableFile W} `{!SequentialFileLaws R} `{!ReliableReads R}
    reuse_logs es (vs : VersionSet W) dbpath dbname env file env' log :
  Logged ucmp es vs -> Forall (recordable ucmp) es -> fresh ucmp es ->
  NewSequentialFile (DescriptorFileName dbpath dbname 1) env = (inr file, env') -> descriptor_log_ vs = Some log -> unread file = written (dest log) ->
  exists save vs' env'' es0 e, Recover ucmp reuse_logs (VersionSet_make dbpath dbname) env = Some (OK, save, vs', env'') /\ es = es0 ++ [e] /\
    map metas (files_ (current vs')) = map metas (files_ (current vs)) /\
    vs_log_number_ vs' = vs_log_number_ vs /\ vs_prev_log_number_ vs' = vs_prev_log_number_ vs /\
    vs_last_sequence_ vs' = last_sequence_ e /\ vs_next_file_number_ vs' = u64 (next_file_number_ e + 1).
Proof.
  intros HL Hrec Hfr Hopen Hlog Hunread. destruct (Logged_ok ucmp es vs HL) as (_ & (log' & Hlog' & HW) & Ht & es0 & e & -> & H1 & H2 & H3 & H4 & N1 & N2).
  rewrite Hlog in Hlog'. injection Hlog' as <-.
  destruct (Recover_spec ucmp reuse_logs es0 e (VersionSet_make dbpath dbname) env file env' log Hrec Hfr H1 H2 H3 H4 HW) as (save & vs' & env'' & E1 & T & R1 & R2 & R3 & R4 & _);
    [done|by repeat constructor|done|done|].
  exists save, vs', env'', es0, e. split; [done|]. split; [done|]. split; [exact (tracks_unique ucmp _ _ _ T (Ht Hfr))|]. by rewrite N1, N2.
Qed.

(** C32: [LogAndApply], in a build without assertions, returns, whether or not the writes to the manifest succeed.  When it
    succeeds, the files of each level of the current version are those before, without the
    ones that the edit deletes and does not add again, and with the new ones, in the order
    of their smallest keys, provided that no two of them have the same smallest key and
    number; and when these files do not overlap, the level is one that can be searched.  A
    file with a number that the edit both deletes from a level and adds to it stays.  When
    it fails, the current version and all counters are as before. *)
Theorem log_and_apply (ucmp : Comparator) `{!ComparatorLaws ucmp} {E W R : Type} `{!EnvFiles E W R} `{!WritableFile W}
    `{!EnvFilesLaws E W R} `{!WritableFileLaws W} edit (vs : VersionSet W) (env : E) :
  nodes_below vs -> (forall log, descriptor_log_ vs = Some log -> log_ready log) -> length (files_ (current vs)) = Z.to_nat kNumLevels ->
  exists s vs' env', LogAndApply ucmp edit vs env = Some (s, vs', env') /\
    vs_next_file_number_ vs' = vs_next_file_number_ vs /\ vs_last_sequence_ vs' = vs_last_sequence_ vs /\
    if ok s then
      (forall n fs, files_ (current vs) !! n = Some fs -> in_order ucmp fs -> separate ucmp (metas fs ++ map norm (edit_new n edit)) ->
       exists fs', files_ (current vs') !! n = Some fs' /\ in_order ucmp fs' /\ metas fs' ≡ₚ edit_level n edit (metas fs) /\
         (Forall (bounds_ok ucmp) (metas fs') -> apart ucmp (edit_level n edit (metas fs)) -> level_ok ucmp fs')) /\
      vs_log_number_ vs' = (if has_log_number_ edit then log_number_ edit else vs_log_number_ vs) /\
      vs_prev_log_number_ vs' = (if has_prev_log_number_ edit then prev_log_number_ edit else vs_prev_log_number_ vs)
    else current vs' = current vs /\ vs_log_number_ vs' = vs_log_number_ vs /\ vs_prev_log_number_ vs' = vs_prev_log_number_ vs.
Proof.
  intros Hn Hlog Hlen. destruct (LogAndApply_returns ucmp edit vs env Hlog) as [[[s vs'] env'] HL]. exists s, vs', env'. split; [done|].
  destruct (LogAndApply_spec ucmp edit vs env s vs' env' HL Hn) as (_ & H1 & H2 & H3). split; [done|]. split; [done|].
  destruct (ok s); [|done]. destruct H3 as (Hc & Hl & Hp & _). split.
  - intros n fs Hfs Ho Hsep. rewrite Hc.
    destruct (saved_lookup ucmp (complete_edit edit vs) (current vs) vs n fs Hlen Hfs Ho) as (fs' & E' & O' & P'); [by rewrite complete_edit_new|].
    rewrite complete_edit_level in P'. exists fs'. split; [done|]. split; [done|]. split; [done|].
    intros Hb Ha. apply (in_order_apart ucmp fs' O' Hb). by apply (apart_perm ucmp (edit_level n edit (metas fs))).
  - unfold complete_edit in Hl, Hp. destruct edit as [? ? ? ? ? ? [] [] ? ? ? ? ?]; done.
Qed.

(** *** An example *)

(** A directory with one file, the manifest. *)
#[export] Instance bytes_EnvFiles : EnvFiles bytes bytes bytes := {|
  NewWritableFile _ env := (inr [], []);
  NewAppendableFile _ env := (inr env, env);
  NewSequentialFile _ env := (inr env, env);
  GetFileSize _ env := inr (size_of env);
  EnvDeleteFile _ _ := (OK, [])
|}.
#[export] Instance bytes_EnvFilesLaws : EnvFilesLaws bytes bytes bytes.
Proof. split; [done|]. cbn. intros name env f env' [= <- _]. done. Qed.

Definition sample_edits : list VersionEdit :=
  let key k n := InternalKey_make (str k) n kTypeValue in [
    AddFile 0 4 100 (key "a" 5) (key "m" 9) (SetLogNumber 3 (SetComparatorName (Name BytewiseComparator) VersionEdit_make));
    AddFile 2 6 200 (key "x" 2) (key "z" 3) (AddFile 1 5 150 (key "a" 5) (key "k" 9) (DeleteFile 0 4 (SetCompactPointer 0 (key "m" 9) VersionEdit_make)))].

Definition first_edit : VersionEdit := nth 0 sample_edits VersionEdit_make.
Definition second_edit : VersionEdit := nth 1 sample_edits VersionEdit_make.

Definition apply_edit (e : VersionEdit) (vs : VersionSet bytes) : VersionSet bytes :=
  match LogAndApply BytewiseComparator e vs [] with Some (_, vs, _) => vs | None => vs end.

(** A new database, and the set after each of the edits; a file number is given out in
    between. *)
Definition new_set : VersionSet bytes := VersionSet_make (str "/db/") (str "test").
Definition first_set : VersionSet bytes := snd (NewFileNumber (apply_edit first_edit new_set)).
Definition second_set : VersionSet bytes := apply_edit second_edit first_set.
Definition sample_log : list VersionEdit :=
  [snapshot BytewiseComparator first_edit new_set; complete_edit first_edit new_set; complete_edit second_edit first_set].
Definition sample_manifest : Writer bytes := default (Writer_make []) (descriptor_log_ second_set).

Lemma first_logged : Logged BytewiseComparator (take 2 sample_log) first_set.
Proof.
  apply Logged_counters.
  apply (Logged_first BytewiseComparator new_set first_edit [] OK (apply_edit first_edit new_set) []);
    [by repeat constructor|reflexivity|by repeat constructor|reflexivity|vm_compute; reflexivity|reflexivity].
Qed.

Lemma sample_logged : Logged BytewiseComparator sample_log second_set.
Proof.
  apply (Logged_next BytewiseComparator (take 2 sample_log) first_set second_edit [] OK second_set []);
    [exact first_logged|vm_compute; reflexivity|reflexivity].
Qed.

#[local] Instance compact_pointer_ok_dec cp : Decision (compact_pointer_ok cp).
Proof. unfold compact_pointer_ok. apply _. Defined.
#[local] Instance deleted_file_ok_dec df : Decision (deleted_file_ok df).
Proof. unfold deleted_file_ok. apply _. Defined.
#[local] Instance new_file_ok_dec nf : Decision (new_file_ok nf).
Proof. unfold new_file_ok. apply _. Defined.

Lemma edit_ok_decide e :
  bool_decide (has_comparator_ e = true /\ size_of (comparator_ e) < 2 ^ 32 \/ has_comparator_ e = false /\ comparator_ e = []) &&
  forallb (fun x : bool * Z => if fst x then bool_decide (0 <= snd x < 2 ^ 64) else snd x =? 0)
    [(has_log_number_ e, log_number_ e); (has_prev_log_number_ e, prev_log_number_ e); (has_next_file_number_ e, next_file_number_ e); (has_last_sequence_ e, last_sequence_ e)] &&
  bool_decide (Forall compact_pointer_ok (compact_pointers_ e)) && bool_decide (Forall deleted_file_ok (deleted_files_ e)) &&
  bool_decide (StronglySorted (fun a b => pair_ltb a b = true) (deleted_files_ e)) && bool_decide (Forall new_file_ok (new_files_ e)) = true -> edit_ok e.
Proof.
  rewrite !andb_true_iff, !bool_decide_eq_true. cbn [forallb fst snd]. rewrite !andb_true_iff. intros (((((Hc & H1 & H2 & H3 & H4 & _) & H5) & H6) & H7) & H8).
  split; try done; [by destruct Hc as [[-> ?]|[-> ?]]|..]; match goal with |- if ?b then _ else _ => destruct b end;
    (rewrite ?bool_decide_eq_true, ?Z.eqb_eq in *; done).
Qed.

Lemma sample_recordable : Forall (recordable BytewiseComparator) sample_log.
Proof.
  repeat (apply Forall_cons; split); [..|constructor]; (split; [apply edit_ok_decide; vm_compute; reflexivity|vm_compute; done]).
Qed.

Lemma sample_fresh : fresh BytewiseComparator sample_log.
Proof.
  assert (H : Forall (fun n => (length (added n sample_log) <= 1)%nat /\ no_return n ∅ sample_log) (seq 0 7)) by (repeat constructor; vm_compute; try lia; set_solver).
  assert (Hsep : forall l, (length l <= 1)%nat -> separate BytewiseComparator l) by (intros [|f [|g l]]; cbn; [constructor|repeat constructor|lia]).
  intros n. destruct (decide (n < 7)%nat) as [Hn|Hn].
  - rewrite Forall_forall in H. destruct (H n) as [H1 H2]; [apply elem_of_seq; lia|]. split; [by apply Hsep|done].
  - do 7 (destruct n as [|n]; [lia|]). split; [apply Hsep; vm_compute; lia|]. vm_compute. set_solver.
Qed.

Lemma manifest_recovery_witness : exists save vs' env'',
  Recover (W := bytes) (R := bytes) BytewiseComparator true (VersionSet_make (str "/db/") (str "test")) (written (dest sample_manifest)) = Some (OK, save, vs', env'') /\
  map metas (files_ (current vs')) = map metas (files_ (current second_set)) /\ vs_next_file_number_ vs' = 4.
Proof.
  destruct (manifest_recovery (R := bytes) BytewiseComparator true sample_log second_set (str "/db/") (str "test")
    (written (dest sample_manifest)) (written (dest sample_manifest)) (written (dest sample_manifest)) sample_manifest)
    as (save & vs' & env'' & es0 & e & E1 & E2 & E3 & _ & _ & _ & E4);
    [exact sample_logged|exact sample_recordable|exact sample_fresh|reflexivity|vm_compute; reflexivity|reflexivity|].
  exists save, vs', env''. split; [exact E1|]. split; [exact E3|]. rewrite E4. 
  apply (app_inj_tail (take 2 sample_log)) in E2 as [_ <-]. vm_compute. reflexivity.
Defined.

Lemma log_and_apply_witness : exists fs', files_ (current second_set) !! 1%nat = Some fs' /\ level_ok BytewiseComparator fs' /\ length fs' = 1%nat.
Proof.
  destruct (log_and_apply (R := bytes) BytewiseComparator second_edit first_set (@nil Byte.byte)) as (s & vs' & env' & E1 & _ & _ & H).
  - by repeat constructor.
  - intros log Hlog. destruct (Logged_ok BytewiseComparator _ _ first_logged) as (_ & (log' & Hlog' & HW) & _).
    rewrite Hlog in Hlog'. injection Hlog' as <-. by eapply Written_ready.
  - vm_compute. reflexivity.
  - assert (E2 : LogAndApply (R := bytes) BytewiseComparator second_edit first_set (@nil Byte.byte) = Some (OK, second_set, [])) by (vm_compute; reflexivity).
    rewrite E2 in E1. apply (inj Some) in E1. apply pair_equal_spec in E1 as [E1 _]. apply pair_equal_spec in E1 as [<- <-].
    change (ok OK) with true in H. destruct H as [H _].
    destruct (H 1%nat []) as (fs' & F1 & _ & F2 & F3); [vm_compute; reflexivity|constructor|repeat constructor|].
    assert (E3 : files_ (current second_set) !! 1%nat = Some [new_file 4 (nth 0 (edit_new 1 second_edit) (mkFileMetaData 0 0 0 0 [] []))]) by (vm_compute; reflexivity).
    rewrite E3 in F1. apply (inj Some) in F1 as <-. exists [new_file 4 (nth 0 (edit_new 1 second_edit) (mkFileMetaData 0 0 0 0 [] []))]. split; [exact E3|].
    split; [|reflexivity]. apply F3.
    + apply Forall_singleton. split; [|split]; [eexists; vm_compute; reflexivity..|vm_compute; done].
    + replace (edit_level 1 second_edit (metas [])) with [norm (nth 0 (edit_new 1 second_edit) (mkFileMetaData 0 0 0 0 [] []))] by (vm_compute; reflexivity).
      intros [|i] [|j] f g Hi Hj Hne; [by destruct Hne|discriminate Hj|discriminate Hi|discriminate Hi].
Defined.

(** *** One number for all tables *)

(** The edits of a database that gives all tables the number 0: a table is written to level
    0, compacted to level 1, and another is written to level 0. *)
Definition zero_edits : list VersionEdit :=
  let key k n := InternalKey_make (str k) n kTypeValue in [
    AddFile 0 0 100 (key "a" 5) (key "m" 9) VersionEdit_make;
    AddFile 1 0 100 (key "a" 5) (key "m" 9) (DeleteFile 0 0 VersionEdit_make);
    AddFile 0 0 100 (key "c" 12) (key "n" 14) VersionEdit_make].
Definition zero_set : VersionSet bytes := fold_left (fun vs e => apply_edit e vs) zero_edits new_set.
Definition sizes (vs : VersionSet bytes) : list nat := map (fun fs => length fs) (take 2 (files_ (current vs))).

(** The table that was deleted from level 0 is there again when the manifest is read: the
    later one took its number back from the deleted ones. *)
Lemma deleted_file_revived : sizes zero_set = [1; 1]%nat /\
  exists s save vs env, Recover (W := bytes) (R := bytes) BytewiseComparator true (VersionSet_make (str "/db/") (str "test")) (written (dest (default (Writer_make []) (descriptor_log_ zero_set)))) =
    Some (s, save, vs, env) /\ ok s = true /\ sizes vs = [2; 1]%nat.
Proof. split; [vm_compute; reflexivity|]. do 4 eexists. split; [vm_compute; reflexivity|]. by split; vm_compute. Qed.

(** An edit that deletes number 0 from level 1 and adds it there, as a compaction into level
    1 does, leaves the old table. *)
Lemma replaced_file_stays : let key k n := InternalKey_make (str k) n kTypeValue in
  sizes (apply_edit (AddFile 1 0 100 (key "a" 7) (key "z" 9) (DeleteFile 1 0 (DeleteFile 0 0 VersionEdit_make))) zero_set) = [0; 2]%nat.
Proof. vm_compute. reflexivity. Qed.
