(* ===== verification/Compaction.v ===== *)
(** * Compaction: what to compact

    Models the compactions of [db/version_set.cpp]: the choice of their input files
    ([PickCompaction], [CompactRange], [SetupOtherInputs]) and the questions that the
    compaction loop asks of a [Compaction].  The outer [option] is [None] where the code
    would read outside a vector; it never does, and every loop ends. *)

From Stdlib Require Import SpecFloat.
From stdpp Require Import sorting.
From S2P Require Import Prelude Coding Slice Comparator DbFormat VersionEdit Iterator Version VersionSet.

(** The version whose files a compaction reads is kept with its address: the files of a
    version do not change. *)
Record Compaction : Type := mkCompaction {
  level_ : Z;
  max_output_file_size_ : Z;
  input_version_ : option (nat * Version);
  edit_ : VersionEdit;
  inputs_ : list FilePtr * list FilePtr;
  grandparents_ : list FilePtr;
  grandparent_index_ : nat;
  seen_key_ : bool;
  overlapped_bytes_ : Z;
  level_ptrs_ : list nat
}.

Definition Compaction_make (level : Z) : Compaction :=
  mkCompaction level (MaxFileSizeForLevel level) None VersionEdit_make ([], []) [] 0 false 0 (replicate (Z.to_nat kNumLevels) 0%nat).

Definition kExpandedCompactionByteSizeLimit : Z := 25 * kTargetFileSize.

Section Choice.
Context (ucmp : Comparator).

(** Keys from [files], starting with those of the first. *)
Fixpoint GetRange_loop (files : list FilePtr) (range : bytes * bytes) : bytes * bytes :=
  match files with
  | [] => range
  | f :: files =>
      let s := match InternalKey_Compare ucmp (smallest f) (fst range) with Lt => smallest f | _ => fst range end in
      let l := match InternalKey_Compare ucmp (largest f) (snd range) with Gt => largest f | _ => snd range end in
      GetRange_loop files (s, l)
  end.

Definition GetRange (inputs : list FilePtr) : bytes * bytes :=
  match inputs with
  | [] => ([], [])
  | f :: files => GetRange_loop files (smallest f, largest f)
  end.

Definition GetRange2 (inputs1 inputs2 : list FilePtr) : bytes * bytes := GetRange (inputs1 ++ inputs2).

Context {W : Type}.
Implicit Types vs : VersionSet W.

(** The files of [level] and of [level + 1] once the first are expanded, if that takes
    no more files of [level + 1]. *)
Definition expand (v : Version) (level : Z) (inputs : list FilePtr * list FilePtr) : option (list FilePtr * list FilePtr) :=
  match snd inputs with
  | [] => Some inputs
  | _ =>
      let '(all_start, all_limit) := GetRange2 (fst inputs) (snd inputs) in
      expanded0 ← GetOverlappingInputs ucmp v level (Some all_start) (Some all_limit);
      let inputs1_size := TotalFileSize (snd inputs) in
      let expanded0_size := TotalFileSize expanded0 in
      if (size_of expanded0 >? size_of (fst inputs)) && (i64 (inputs1_size + expanded0_size) <? kExpandedCompactionByteSizeLimit) then
        let '(new_start, new_limit) := GetRange expanded0 in
        expanded1 ← GetOverlappingInputs ucmp v (level + 1) (Some new_start) (Some new_limit);
        Some (if size_of expanded1 =? size_of (snd inputs) then (expanded0, expanded1) else inputs)
      else Some inputs
  end.

Definition SetupOtherInputs (c : Compaction) vs : option (Compaction * VersionSet W) :=
  let v := current vs in
  let level := level_ c in
  let '(smallest, largest) := GetRange (fst (inputs_ c)) in
  inputs1 ← GetOverlappingInputs ucmp v (level + 1) (Some smallest) (Some largest);
  inputs ← expand v level (fst (inputs_ c), inputs1);
  let largest := snd (GetRange (fst inputs)) in
  let '(all_start, all_limit) := GetRange2 (fst inputs) (snd inputs) in
  grandparents ← (if level + 2 <? kNumLevels then GetOverlappingInputs ucmp v (level + 2) (Some all_start) (Some all_limit) else Some []);
  Some (mkCompaction level (max_output_file_size_ c) (input_version_ c) (SetCompactPointer level largest (edit_ c)) inputs grandparents
          (grandparent_index_ c) (seen_key_ c) (overlapped_bytes_ c) (level_ptrs_ c),
        set_compact_pointer (<[Z.to_nat level := largest]> (compact_pointer_ vs)) vs).

Definition set_inputs0 (files : list FilePtr) (c : Compaction) : Compaction :=
  mkCompaction (level_ c) (max_output_file_size_ c) (input_version_ c) (edit_ c) (files, snd (inputs_ c)) (grandparents_ c)
    (grandparent_index_ c) (seen_key_ c) (overlapped_bytes_ c) (level_ptrs_ c).
Definition set_input_version (v : option (nat * Version)) (c : Compaction) : Compaction :=
  mkCompaction (level_ c) (max_output_file_size_ c) v (edit_ c) (inputs_ c) (grandparents_ c)
    (grandparent_index_ c) (seen_key_ c) (overlapped_bytes_ c) (level_ptrs_ c).

(** The compaction reads the current version. *)
Definition with_current (c : Compaction) vs : Compaction * VersionSet W :=
  (set_input_version (Some (current_ vs, current vs)) c, Version_Ref (current_ vs) vs).

(** The first file that ends after [compact_pointer_[level]], or the first of all. *)
Definition next_file (pointer : bytes) (files : list FilePtr) : option FilePtr :=
  match find (fun f : FilePtr => match pointer with [] => true | _ => match InternalKey_Compare ucmp (largest f) pointer with Gt => true | _ => false end end) files with
  | Some f => Some f
  | None => head files
  end.

(** The level and the file where the compaction starts, if one is needed. *)
Definition pick_start vs : option (option (Z * FilePtr)) :=
  let v := current vs in
  if SFleb (double_of_Z 1) (compaction_score_ v) then
    f ← next_file (nth (Z.to_nat (compaction_level_ v)) (compact_pointer_ vs) []) (level_files v (compaction_level_ v));
    Some (Some (compaction_level_ v, f))
  else
    match file_to_compact_ v with
    | Some f => Some (Some (file_to_compact_level_ v, f))
    | None => Some None
    end.

Definition PickCompaction vs : option (option Compaction * VersionSet W) :=
  start ← pick_start vs;
  match start with
  | None => Some (None, vs)
  | Some (level, f) =>
      let '(c, vs) := with_current (set_inputs0 [f] (Compaction_make level)) vs in
      inputs0 ← (if level =? 0 then
                   let '(smallest, largest) := GetRange [f] in
                   GetOverlappingInputs ucmp (current vs) 0 (Some smallest) (Some largest)
                 else Some [f]);
      '(c, vs) ← SetupOtherInputs (set_inputs0 inputs0 c) vs;
      Some (Some c, vs)
  end.

(** The files up to the one with which they reach [limit] bytes. *)
Fixpoint limit_inputs (limit total : Z) (files : list FilePtr) : list FilePtr :=
  match files with
  | [] => []
  | f :: files =>
      let total := u64 (total + file_size f) in
      f :: (if total >=? limit then [] else limit_inputs limit total files)
  end.

Definition CompactRange (level : Z) (begin end_ : option bytes) vs : option (option Compaction * VersionSet W) :=
  inputs ← GetOverlappingInputs ucmp (current vs) level begin end_;
  match inputs with
  | [] => Some (None, vs)
  | _ =>
      let inputs := if level >? 0 then limit_inputs (MaxFileSizeForLevel level) 0 inputs else inputs in
      let '(c, vs) := with_current (Compaction_make level) vs in
      '(c, vs) ← SetupOtherInputs (set_inputs0 inputs c) vs;
      Some (Some c, vs)
  end.
End Choice.

(** ** Questions *)

Definition num_input_files (which : bool) (c : Compaction) : Z := i32 (size_of (if which then snd (inputs_ c) else fst (inputs_ c))).

Definition IsTrivialMove (c : Compaction) : bool :=
  (num_input_files false c =? 1) && (num_input_files true c =? 0) && (TotalFileSize (grandparents_ c) <=? kMaxGrandParentOverlapBytes).

Definition AddInputDeletions (c : Compaction) (edit : VersionEdit) : VersionEdit :=
  let edit := fold_left (fun edit (f : FilePtr) => DeleteFile (level_ c) (number f) edit) (fst (inputs_ c)) edit in
  fold_left (fun edit (f : FilePtr) => DeleteFile (level_ c + 1) (number f) edit) (snd (inputs_ c)) edit.

Definition set_level_ptrs (l : list nat) (c : Compaction) : Compaction :=
  mkCompaction (level_ c) (max_output_file_size_ c) (input_version_ c) (edit_ c) (inputs_ c) (grandparents_ c)
    (grandparent_index_ c) (seen_key_ c) (overlapped_bytes_ c) l.
Definition set_grandparents (index : nat) (seen : bool) (bytes : Z) (c : Compaction) : Compaction :=
  mkCompaction (level_ c) (max_output_file_size_ c) (input_version_ c) (edit_ c) (inputs_ c) (grandparents_ c)
    index seen bytes (level_ptrs_ c).

Section Questions.
Context (ucmp : Comparator).

(** The files of one level that are left, from [ptr] on: whether the key is in a file
    and the new index. *)
Fixpoint level_has_key (user_key : bytes) (files : list FilePtr) (ptr : nat) : bool * nat :=
  match files with
  | [] => (false, ptr)
  | f :: files =>
      match Compare ucmp user_key (ExtractUserKey (largest f)) with
      | Gt => level_has_key user_key files (S ptr)
      | _ => (match Compare ucmp user_key (ExtractUserKey (smallest f)) with Lt => false | _ => true end, ptr)
      end
  end.

(** The loop over the levels, which stops at the first that has the key. *)
Fixpoint base_level_loop (v : Version) (user_key : bytes) (lvls : list Z) (ptrs : list nat) : bool * list nat :=
  match lvls with
  | [] => (true, ptrs)
  | lvl :: lvls =>
      let p := nth (Z.to_nat lvl) ptrs 0%nat in
      let '(found, p) := level_has_key user_key (drop p (level_files v lvl)) p in
      let ptrs := <[Z.to_nat lvl := p]> ptrs in
      if found then (false, ptrs) else base_level_loop v user_key lvls ptrs
  end.

Definition levels_above (level : Z) : list Z := base.filter (fun l => level < l) levels.

Definition IsBaseLevelForKey (user_key : bytes) (c : Compaction) : option (bool * Compaction) :=
  '(_, v) ← input_version_ c;
  let '(r, ptrs) := base_level_loop v user_key (levels_above (level_ c + 1)) (level_ptrs_ c) in
  Some (r, set_level_ptrs ptrs c).

(** The grandparents that are left, the index and the bytes. *)
Fixpoint pass_grandparents (internal_key : bytes) (seen : bool) (files : list FilePtr) (index : nat) (bytes : Z) : nat * Z :=
  match files with
  | [] => (index, bytes)
  | f :: files =>
      match InternalKey_Compare ucmp internal_key (largest f) with
      | Gt => pass_grandparents internal_key seen files (S index) (if seen then i64 (bytes + file_size f) else bytes)
      | _ => (index, bytes)
      end
  end.

Definition ShouldStopBefore (internal_key : bytes) (c : Compaction) : bool * Compaction :=
  let '(index, bytes) := pass_grandparents internal_key (seen_key_ c) (drop (grandparent_index_ c) (grandparents_ c)) (grandparent_index_ c) (overlapped_bytes_ c) in
  if bytes >? kMaxGrandParentOverlapBytes then (true, set_grandparents index true 0 c)
  else (false, set_grandparents index true bytes c).
End Questions.

Definition ReleaseInputs {W} (c : Compaction) (vs : VersionSet W) : Compaction * VersionSet W :=
  match input_version_ c with
  | Some (id, _) => (set_input_version None c, Version_Unref id vs)
  | None => (c, vs)
  end.

(** ** The inputs of a compaction *)

Section ChoiceLaws.
Context (ucmp : Comparator) `{!ComparatorLaws ucmp} {W : Type}.
Implicit Types vs : VersionSet W.

Abbreviation icmp := (InternalKeyComparator ucmp).
Abbreviation start f := (ExtractUserKey (smallest (f_meta f))).
Abbreviation limit f := (ExtractUserKey (largest (f_meta f))).

(** The files' bounds are in order. *)
Definition bounded (v : Version) : Prop := forall level (f : FilePtr), f ∈ level_files v level -> Compare icmp (smallest f) (largest f) <> Gt.

(** The range covers the files, and its ends are theirs. *)
Definition range_of (files : list FilePtr) (range : bytes * bytes) : Prop :=
  (exists f : FilePtr, f ∈ files /\ fst range = smallest f) /\ (exists f : FilePtr, f ∈ files /\ snd range = largest f) /\
  forall f : FilePtr, f ∈ files -> Compare icmp (fst range) (smallest f) <> Gt /\ Compare icmp (largest f) (snd range) <> Gt.

Lemma least_of x s : let m := match Compare icmp x s with Lt => x | _ => s end in (m = x \/ m = s) /\ Compare icmp m x <> Gt /\ Compare icmp m s <> Gt.
Proof.
  cbv zeta. destruct (Compare icmp x s) eqn:Hx; (split; [tauto|]); rewrite compare_refl; split; try done.
  - apply compare_eq_sym in Hx. by rewrite Hx.
  - by rewrite Hx.
  - apply compare_gt_lt in Hx. by rewrite Hx.
Qed.

Lemma greatest_of x l : let m := match Compare icmp x l with Gt => x | _ => l end in (m = x \/ m = l) /\ Compare icmp x m <> Gt /\ Compare icmp l m <> Gt.
Proof.
  cbv zeta. destruct (Compare icmp x l) eqn:Hx; (split; [tauto|]); rewrite compare_refl; split; try done; rewrite ?Hx; try done.
  apply compare_gt_lt in Hx. by rewrite Hx.
Qed.

Lemma range_add files range (f : FilePtr) : range_of files range ->
  range_of (f :: files) (match InternalKey_Compare ucmp (smallest f) (fst range) with Lt => smallest f | _ => fst range end,
                         match InternalKey_Compare ucmp (largest f) (snd range) with Gt => largest f | _ => snd range end).
Proof.
  intros ((f1 & Hf1 & E1) & (f2 & Hf2 & E2) & Hall). destruct range as [s l]. cbn [fst snd] in *.
  destruct (least_of (smallest f) s) as (M1 & M2 & M3), (greatest_of (largest f) l) as (N1 & N2 & N3). change (Compare icmp) with (InternalKey_Compare ucmp) in *.
  set (m := match InternalKey_Compare ucmp (smallest f) s with Lt => _ | _ => _ end) in *. set (n := match InternalKey_Compare ucmp (largest f) l with Gt => _ | _ => _ end) in *.
  split; [|split]; cbn [fst snd].
  - destruct M1 as [->| ->]; [exists f; split; [left|done]|exists f1; split; [by right|done]].
  - destruct N1 as [->| ->]; [exists f; split; [left|done]|exists f2; split; [by right|done]].
  - intros g [->|Hg]%elem_of_cons; [done|]. destruct (Hall g Hg) as [H1 H2].
    split; [by apply (compare_le_trans _ s)|by apply (compare_le_trans _ l)].
Qed.

Lemma GetRange_loop_spec files rest range : range_of files range -> range_of (files ++ rest) (GetRange_loop ucmp rest range).
Proof.
  revert files range. induction rest as [|f rest IH]; intros files range Hr; cbn [GetRange_loop]; [by rewrite app_nil_r|].
  apply (range_add files range f) in Hr. apply IH in Hr. destruct Hr as (H1 & H2 & H3).
  assert (Hel : forall g, g ∈ (f :: files) ++ rest <-> g ∈ files ++ f :: rest) by (intros g; set_solver).
  split; [destruct H1 as (g & Hg & E); exists g; by rewrite <- Hel|]. split; [destruct H2 as (g & Hg & E); exists g; by rewrite <- Hel|].
  intros g Hg. apply H3. by rewrite Hel.
Qed.

Lemma GetRange_spec files : files <> [] -> range_of files (GetRange ucmp files).
Proof.
  destruct files as [|f files]; [done|]. intros _. apply (GetRange_loop_spec [f]). split; [|split]; [exists f; split; [left|done]..|].
  intros g ->%list_elem_of_singleton. cbn [fst snd]. by rewrite !compare_refl.
Qed.

Definition in_user_range (range : bytes * bytes) (g : FilePtr) : Prop := ~ outside ucmp (Some (ExtractUserKey (fst range))) (Some (ExtractUserKey (snd range))) g.

Lemma range_user files range (f : FilePtr) : range_of files range -> f ∈ files ->
  Compare ucmp (ExtractUserKey (fst range)) (start f) <> Gt /\ Compare ucmp (limit f) (ExtractUserKey (snd range)) <> Gt.
Proof. intros (_ & _ & H) [H1 H2]%H. split; by apply internal_user_le. Qed.

(** A file that shares a user key with one of the files is in their range. *)
Lemma range_touch files range (f g : FilePtr) : range_of files range -> f ∈ files -> touch ucmp f g -> in_user_range range g.
Proof.
  intros Hr Hf Ht Ho. destruct (range_user files range f Hr Hf) as [H1 H2]. apply Ht. destruct Ho as [Ho|Ho]; [left|right].
  - by apply (compare_lt_le_trans _ (ExtractUserKey (fst range))).
  - by apply (compare_le_lt_trans _ (ExtractUserKey (snd range))).
Qed.

Lemma bounded_touch v level (f : FilePtr) : bounded v -> f ∈ level_files v level -> touch ucmp f f.
Proof. intros Hb Hf. apply Hb, internal_user_le in Hf. intros [Ho|Ho]; by apply compare_gt_lt in Ho. Qed.

(** What the two lists of inputs are: files of the level, with all that share a user key
    with them if it is level 0, and exactly the files of the next level in their range. *)
Record inputs_ok (v : Version) (level : Z) (inputs : list FilePtr * list FilePtr) : Prop := {
  in_some : fst inputs <> [];
  in_level : fst inputs `sublist_of` level_files v level;
  in_closed : level = 0 -> closed ucmp (level_files v level) (fun f => f ∈ fst inputs);
  in_next : snd inputs `sublist_of` level_files v (level + 1);
  in_next_all : forall g, g ∈ snd inputs <-> g ∈ level_files v (level + 1) /\ in_user_range (GetRange ucmp (fst inputs)) g
}.

Lemma overlaps_level v level begin end_ : bounded v ->
  let touched g := g ∈ level_files v level /\ in_user_range (begin, end_) g in
  exists inputs, GetOverlappingInputs ucmp v level (Some begin) (Some end_) = Some inputs /\ inputs `sublist_of` level_files v level /\
    (forall g, touched g -> g ∈ inputs) /\ (level <> 0 -> forall g, g ∈ inputs -> touched g) /\
    (level = 0 -> closed ucmp (level_files v level) (fun g => g ∈ inputs)).
Proof.
  intros Hb. destruct (GetOverlappingInputs_spec ucmp v level (Some begin) (Some end_)) as (inputs & E & H1 & H2 & H3 & H4).
  - intros _ g Hg. by apply internal_user_le, (Hb level).
  - exists inputs. split; [done|]. split; [done|]. split; [done|]. split; [done|]. intros H0. by apply H4.
Qed.

Lemma inputs_ok_next v level inputs0 inputs1 : 0 <= level -> inputs0 <> [] -> inputs0 `sublist_of` level_files v level ->
  (level = 0 -> closed ucmp (level_files v level) (fun f => f ∈ inputs0)) -> bounded v ->
  GetOverlappingInputs ucmp v (level + 1) (Some (fst (GetRange ucmp inputs0))) (Some (snd (GetRange ucmp inputs0))) = Some inputs1 ->
  inputs_ok v level (inputs0, inputs1).
Proof.
  intros Hl Hne Hs Hc Hb E. destruct (overlaps_level v (level + 1) (fst (GetRange ucmp inputs0)) (snd (GetRange ucmp inputs0)) Hb) as (inputs & E' & H1 & H2 & H3 & _).
  rewrite E' in E. injection E as <-. rewrite <- surjective_pairing in *. split; [done|done|done|done|]. intros g. cbn [fst snd]. split; [apply H3; lia|apply H2].
Qed.

Lemma expand_spec v level inputs : 0 <= level -> bounded v -> inputs_ok v level inputs ->
  exists inputs', expand ucmp v level inputs = Some inputs' /\ inputs_ok v level inputs' /\ forall f, f ∈ fst inputs -> f ∈ fst inputs'.
Proof.
  intros Hl Hb Hok. unfold expand. destruct inputs as [inputs0 inputs1]. cbn [fst snd]. pose proof (in_some _ _ _ Hok) as Hne. cbn [fst] in Hne.
  destruct inputs1 as [|f1 inputs1]; [by exists (inputs0, [])|]. set (in1 := f1 :: inputs1) in *.
  unfold GetRange2. pose proof (GetRange_spec (inputs0 ++ in1)) as Hr. destruct (GetRange ucmp (inputs0 ++ in1)) as [s l]. specialize (Hr ltac:(by destruct inputs0)).
  destruct (overlaps_level v level s l Hb) as (expanded0 & E & H1 & H2 & _ & H4). rewrite E. cbn [mbind option_bind].
  destruct ((size_of expanded0 >? size_of inputs0) && _); [|by exists (inputs0, in1)].
  destruct (GetRange ucmp expanded0) as [s' l'] eqn:Er'. destruct (overlaps_level v (level + 1) s' l' Hb) as (expanded1 & E' & _). rewrite E'. cbn [mbind option_bind].
  destruct (_ =? _); [|by exists (inputs0, in1)]. exists (expanded0, expanded1). split; [done|].
  assert (Hin : forall f, f ∈ inputs0 -> f ∈ expanded0).
  { intros f Hf. assert (Hfl : f ∈ level_files v level) by (eapply elem_of_sublist; [exact Hf|apply (in_level _ _ _ Hok)]).
    apply H2. split; [done|]. apply (range_touch (inputs0 ++ in1) (s, l) f); [done|apply elem_of_app; by left|by apply (bounded_touch v level)]. }
  split; [|done]. apply inputs_ok_next; [done| |done|done|done|by rewrite Er'].
  destruct inputs0 as [|f0 inputs0]; [done|]. intros ->. specialize (Hin f0 ltac:(left)). by apply elem_of_nil in Hin.
Qed.

(** Files of the level after the next that share a user key with an input. *)
Definition grandparents_ok (v : Version) (c : Compaction) : Prop :=
  grandparents_ c `sublist_of` level_files v (level_ c + 2) /\
  forall f g : FilePtr, f ∈ fst (inputs_ c) ++ snd (inputs_ c) -> g ∈ level_files v (level_ c + 2) -> touch ucmp f g -> g ∈ grandparents_ c.

Lemma SetupOtherInputs_spec c0 vs : let v := current vs in let level := level_ c0 in
  0 <= level -> length (files_ v) = Z.to_nat kNumLevels -> bounded v -> fst (inputs_ c0) <> [] -> fst (inputs_ c0) `sublist_of` level_files v level ->
  (level = 0 -> closed ucmp (level_files v level) (fun f => f ∈ fst (inputs_ c0))) ->
  exists c, SetupOtherInputs ucmp c0 vs =
      Some (c, set_compact_pointer (<[Z.to_nat level := snd (GetRange ucmp (fst (inputs_ c)))]> (compact_pointer_ vs)) vs) /\
    level_ c = level /\ inputs_ok v level (inputs_ c) /\ (forall f, f ∈ fst (inputs_ c0) -> f ∈ fst (inputs_ c)) /\ grandparents_ok v c /\
    input_version_ c = input_version_ c0 /\ edit_ c = SetCompactPointer level (snd (GetRange ucmp (fst (inputs_ c)))) (edit_ c0) /\
    (seen_key_ c, grandparent_index_ c, overlapped_bytes_ c, level_ptrs_ c) = (seen_key_ c0, grandparent_index_ c0, overlapped_bytes_ c0, level_ptrs_ c0).
Proof.
  cbv zeta. intros Hl Hlen Hb Hne Hs Hc. unfold SetupOtherInputs. cbv zeta. rewrite (surjective_pairing (GetRange ucmp (fst (inputs_ c0)))).
  destruct (overlaps_level (current vs) (level_ c0 + 1) (fst (GetRange ucmp (fst (inputs_ c0)))) (snd (GetRange ucmp (fst (inputs_ c0)))) Hb) as (inputs1 & E1 & _).
  rewrite E1. cbn [mbind option_bind]. pose proof (inputs_ok_next (current vs) (level_ c0) (fst (inputs_ c0)) inputs1 Hl Hne Hs Hc Hb E1) as Hok.
  destruct (expand_spec (current vs) (level_ c0) (fst (inputs_ c0), inputs1) Hl Hb Hok) as (inputs & E2 & Hok' & Hin). rewrite E2. cbn [mbind option_bind fst] in *.
  unfold GetRange2. pose proof (GetRange_spec (fst inputs ++ snd inputs)) as Hr. destruct (GetRange ucmp (fst inputs ++ snd inputs)) as [s l].
  specialize (Hr ltac:(intros [E _]%app_eq_nil; by apply (in_some _ _ _ Hok'))).
  assert (Hg : exists gs, (if level_ c0 + 2 <? kNumLevels then GetOverlappingInputs ucmp (current vs) (level_ c0 + 2) (Some s) (Some l) else Some []) = Some gs /\
    gs `sublist_of` level_files (current vs) (level_ c0 + 2) /\ forall g, g ∈ level_files (current vs) (level_ c0 + 2) -> in_user_range (s, l) g -> g ∈ gs).
  { destruct (Z.ltb_spec (level_ c0 + 2) kNumLevels) as [Hlt|Hge].
    - destruct (overlaps_level (current vs) (level_ c0 + 2) s l Hb) as (gs & E & G1 & G2 & _). exists gs. split; [done|]. split; [done|]. intros g Hg Hu. by apply G2.
    - exists []. split; [done|]. unfold level_files. rewrite nth_overflow by lia. split; [done|]. by intros g ?%elem_of_nil. }
  destruct Hg as (gs & -> & G1 & G2). cbn [mbind option_bind]. match goal with |- exists c, Some (?c', _) = _ /\ _ => exists c' end. split; [reflexivity|]. cbn [level_ inputs_ grandparents_ input_version_ edit_ seen_key_ grandparent_index_ overlapped_bytes_ level_ptrs_].
  split; [done|]. split; [done|]. split; [done|]. split; [|done]. split; [done|]. cbn [level_ inputs_ grandparents_]. intros f g Hf Hg Ht.
  apply G2; [done|]. by apply (range_touch _ (s, l) f g Hr).
Qed.

(** *** The choice *)

(** What a compaction of the version [v] at the address [id] is: it has inputs, of a
    level that is not the last, and has not been asked anything. *)
Record compaction_ok (id : nat) (v : Version) (c : Compaction) : Prop := {
  co_inputs : inputs_ok v (level_ c) (inputs_ c);
  co_level : 0 <= level_ c /\ level_ c + 1 < kNumLevels;
  co_version : input_version_ c = Some (id, v);
  co_grandparents : grandparents_ok v c;
  co_pointer : compact_pointers_ (edit_ c) = [(level_ c, snd (GetRange ucmp (fst (inputs_ c))))];
  co_start : seen_key_ c = false /\ grandparent_index_ c = 0%nat /\ overlapped_bytes_ c = 0 /\ level_ptrs_ c = replicate (Z.to_nat kNumLevels) 0%nat
}.

(** The set after the choice: one more reference to the current version, and the pointer
    of the level moved to the end of the inputs. *)
Definition chosen (c : Compaction) vs : VersionSet W :=
  set_compact_pointer (<[Z.to_nat (level_ c) := snd (GetRange ucmp (fst (inputs_ c)))]> (compact_pointer_ vs)) (Version_Ref (current_ vs) vs).

(** Where a compaction can start in a version. *)
Record choosable (v : Version) : Prop := {
  ch_levels : length (files_ v) = Z.to_nat kNumLevels;
  ch_bounded : bounded v;
  ch_score : SFleb (double_of_Z 1) (compaction_score_ v) = true -> 0 <= compaction_level_ v /\ compaction_level_ v + 1 < kNumLevels /\ level_files v (compaction_level_ v) <> [];
  ch_seek : forall f, file_to_compact_ v = Some f -> 0 <= file_to_compact_level_ v /\ file_to_compact_level_ v + 1 < kNumLevels /\ f ∈ level_files v (file_to_compact_level_ v)
}.

Lemma next_file_spec pointer files : files <> [] -> exists f, next_file ucmp pointer files = Some f /\ f ∈ files.
Proof.
  intros Hne. unfold next_file. destruct (find _ files) as [f|] eqn:Ef; [exists f; split; [done|]; by apply find_some in Ef as [Hin%list_elem_of_In _]|].
  destruct files as [|f files]; [done|]. exists f. split; [done|left].
Qed.

Lemma pick_start_spec vs : choosable (current vs) -> exists start, pick_start ucmp vs = Some start /\ (start = None <-> NeedsCompaction vs = false) /\
  forall level f, start = Some (level, f) -> 0 <= level /\ level + 1 < kNumLevels /\ f ∈ level_files (current vs) level.
Proof.
  intros Hch. unfold pick_start, NeedsCompaction. cbv zeta. destruct (SFleb _ _) eqn:Es; cbn [orb].
  - destruct (ch_score _ Hch Es) as (H1 & H2 & H3). destruct (next_file_spec (nth (Z.to_nat (compaction_level_ (current vs))) (compact_pointer_ vs) []) _ H3) as (f & -> & Hf).
    cbn [mbind option_bind]. eexists. split; [done|]. split; [done|]. by intros level f' [= <- <-].
  - destruct (file_to_compact_ (current vs)) as [f|] eqn:Ef; eexists; (split; [done|]); (split; [done|]); [|done].
    intros level f' [= <- <-]. by apply (ch_seek _ Hch).
Qed.

Lemma setup_ok level inputs0 vs : choosable (current vs) -> 0 <= level /\ level + 1 < kNumLevels -> inputs0 <> [] -> inputs0 `sublist_of` level_files (current vs) level ->
  (level = 0 -> closed ucmp (level_files (current vs) level) (fun f => f ∈ inputs0)) ->
  exists c, SetupOtherInputs ucmp (set_inputs0 inputs0 (set_input_version (Some (current_ vs, current vs)) (Compaction_make level))) (Version_Ref (current_ vs) vs) = Some (c, chosen c vs) /\
    level_ c = level /\ compaction_ok (current_ vs) (current vs) c /\ forall f, f ∈ inputs0 -> f ∈ fst (inputs_ c).
Proof.
  intros Hch Hl Hne Hs Hc. set (c0 := set_inputs0 _ _).
  destruct (SetupOtherInputs_spec c0 (Version_Ref (current_ vs) vs)) as (c & E & L & I1 & I2 & G & V & D & Hst); rewrite ?current_Ref in *; try apply Hch; try done; [by destruct Hl|].
  exists c. split; [rewrite E; unfold chosen; rewrite L; done|]. split; [done|]. split; [|done].
  injection Hst as S1 S2 S3 S4. split; rewrite ?L; try done.
  by rewrite D.
Qed.

Lemma CompactRange_inputs level inputs : exists k, (if level >? 0 then limit_inputs (MaxFileSizeForLevel level) 0 inputs else inputs) = take k inputs /\
  (inputs <> [] -> (0 < k)%nat) /\ (level = 0 -> take k inputs = inputs).
Proof.
  assert (H : forall lim total l, exists k, limit_inputs lim total l = take k l /\ (l <> [] -> (0 < k)%nat)).
  { intros lim total l. revert total. induction l as [|f l IH]; intros total; [by exists O|]. cbn [limit_inputs]. destruct (_ >=? _); [exists 1%nat; split; [done|lia]|].
    destruct (IH (u64 (total + file_size f))) as (k & -> & _). exists (S k). split; [done|lia]. }
  destruct (Z.gtb_spec level 0); [destruct (H (MaxFileSizeForLevel level) 0 inputs) as (k & ? & ?); exists k; split; [done|split; [done|intros; lia]]|].
  exists (length inputs). rewrite firstn_all. split; [done|]. split; [|done]. by destruct inputs; cbn; [|lia].
Qed.
End ChoiceLaws.

(** *** Scores *)

(** A score of at least 1 is that of a level with files, which is not the last. *)
Lemma Finalize_score v : SFleb (double_of_Z 1) (compaction_score_ (Finalize v)) = true ->
  0 <= compaction_level_ (Finalize v) /\ compaction_level_ (Finalize v) + 1 < kNumLevels /\ level_files (Finalize v) (compaction_level_ (Finalize v)) <> [].
Proof.
  assert (Hfold : forall ls b, (b = (-1, double_of_Z (-1)) \/ (0 <= fst b < 6 /\ snd b = level_score v (fst b))) -> Forall (fun l => 0 <= l < 6) ls ->
    let r := fold_left (best_of v) ls b in r = (-1, double_of_Z (-1)) \/ (0 <= fst r < 6 /\ snd r = level_score v (fst r))).
  { induction ls as [|l ls IH]; intros b Hb Hls; [done|]. apply Forall_cons in Hls as [Hl Hls]. cbn [fold_left]. apply IH; [|done].
    unfold best_of. destruct (SFltb _ _); [by right|done]. }
  specialize (Hfold (map Z.of_nat (seq 0 6)) _ (or_introl eq_refl)). cbv zeta in Hfold. specialize (Hfold ltac:(by repeat constructor)).
  unfold Finalize. change (Z.to_nat (kNumLevels - 1)) with 6%nat. destruct (fold_left _ _ _) as [l s]. cbn [fst snd compaction_score_ compaction_level_] in *.
  intros Hs. destruct Hfold as [[= -> ->]|[Hl ->]]; [vm_compute in Hs; done|]. split; [lia|]. split; [unfold kNumLevels; lia|].
  change (level_files (mkVersion (files_ v) (file_to_compact_ v) (file_to_compact_level_ v) (level_score v l) l) l) with (level_files v l). intros He.
  assert (Hcases : l = 0 \/ l = 1 \/ l = 2 \/ l = 3 \/ l = 4 \/ l = 5) by lia.
  unfold level_score in Hs. rewrite He in Hs. clear Hl He. destruct Hcases as [->|[->|[->|[->|[->| ->]]]]]; vm_compute in Hs; done.
Qed.

(** ** Keys of deeper levels *)

Section BaseLevel.
Context (ucmp : Comparator) `{!ComparatorLaws ucmp}.

Abbreviation start f := (ExtractUserKey (smallest (f_meta f))).
Abbreviation limit f := (ExtractUserKey (largest (f_meta f))).

(** The file's user keys may include the key. *)
Definition holds_key (user_key : bytes) (f : FilePtr) : Prop := Compare ucmp (start f) user_key <> Gt /\ Compare ucmp user_key (limit f) <> Gt.

#[global] Instance holds_key_dec k f : Decision (holds_key k f).
Proof. unfold holds_key. apply _. Defined.

(** The reference for [IsBaseLevelForKey]: no file of the levels holds the key. *)
Definition base_level (v : Version) (level : Z) (user_key : bytes) : bool :=
  bool_decide (Forall (fun l => Forall (fun f => ~ holds_key user_key f) (level_files v l)) (levels_above (level + 1))).

(** The files of a level before index [p] end before the key. *)
Definition passed (files : list FilePtr) (user_key : bytes) (p : nat) : Prop := Forall (fun f => Compare ucmp (limit f) user_key = Lt) (take p files).

Lemma passed_later files k k' p : passed files k p -> Compare ucmp k k' <> Gt -> passed files k' p.
Proof. intros H Hk. eapply Forall_impl; [exact H|]. intros f Hf. cbv beta in *. by apply (compare_lt_le_trans _ k). Qed.

(** The user keys of the files' ends do not decrease. *)
Definition user_sorted (files : list FilePtr) : Prop := StronglySorted (fun f g => Compare ucmp (limit f) (start g) <> Gt) files /\ Forall (fun f => Compare ucmp (start f) (limit f) <> Gt) files.

Lemma level_has_key_spec k files p : user_sorted files -> let '(found, n) := level_has_key ucmp k files p in
  (found = true <-> Exists (holds_key k) files) /\ (p <= n)%nat /\ passed files k (n - p).
Proof.
  intros [Hs Hb]. revert p Hb. induction Hs as [|f files Hs IH Hlt]; intros p Hb; cbn [level_has_key].
  - rewrite Nat.sub_diag. split; [|split; [done|constructor]]. split; [done|by intros ?%Exists_nil].
  - apply Forall_cons in Hb as [Hf Hb].
    assert (Hhere : Compare ucmp k (limit f) <> Gt -> (match Compare ucmp k (start f) with Lt => false | _ => true end = true <-> Exists (holds_key k) (f :: files)) /\
      (p <= p)%nat /\ passed (f :: files) k (p - p)).
    { intros Hk. rewrite Nat.sub_diag. split; [|split; [done|constructor]]. rewrite Exists_cons. destruct (Compare ucmp k (start f)) eqn:E2.
      - split; [|done]. intros _. left. split; [|done]. apply compare_eq_sym in E2. by rewrite E2.
      - split; [done|]. intros [[H1 _]|He]; [by apply compare_gt_lt in E2|]. apply Exists_exists in He as (g & Hg & H1 & _).
        rewrite Forall_forall in Hlt. specialize (Hlt g Hg). exfalso. apply H1, compare_gt_lt.
        apply (compare_lt_le_trans _ (start f)); [done|]. by apply (compare_le_trans _ (limit f)).
      - split; [|done]. intros _. left. split; [|done]. apply compare_gt_lt in E2. by rewrite E2. }
    destruct (Compare ucmp k (limit f)) eqn:E1; [by apply Hhere|by apply Hhere|]. clear Hhere.
    specialize (IH (S p) Hb). destruct (level_has_key ucmp k files (S p)) as [found n]. destruct IH as (H1 & H2 & H3). apply compare_gt_lt in E1.
    split; [|split; [lia|]].
    + rewrite H1, Exists_cons. split; [by right|]. intros [[_ H]|H]; [by apply compare_gt_lt in E1|done].
    + replace (n - p)%nat with (S (n - S p)) by lia. unfold passed. cbn [take]. by constructor.
Qed.

Lemma user_sorted_drop p files : user_sorted files -> user_sorted (drop p files).
Proof.
  intros [H1 H2]. rewrite <- (take_drop p files) in H1, H2. apply StronglySorted_app in H1 as (_ & _ & H1). by apply Forall_app in H2 as [_ H2].
Qed.

Lemma passed_exists k files p : passed files k p -> Exists (holds_key k) (drop p files) <-> Exists (holds_key k) files.
Proof.
  intros Hp. rewrite <- (take_drop p files) at 2. rewrite Exists_app. split; [by right|]. intros [H|H]; [|done]. exfalso.
  apply Exists_exists in H as (f & Hf & _ & H). unfold passed in Hp. rewrite Forall_forall in Hp. apply H, compare_gt_lt. by apply Hp.
Qed.

(** The pointers of a compaction that has been asked about keys up to [k]. *)
Definition pointers_ok (v : Version) (lvls : list Z) (k : bytes) (ptrs : list nat) : Prop :=
  length ptrs = Z.to_nat kNumLevels /\ forall l, l ∈ lvls -> passed (level_files v l) k (nth (Z.to_nat l) ptrs 0%nat).

Lemma base_level_loop_spec v all k : Forall (fun l => 0 <= l < kNumLevels /\ user_sorted (level_files v l)) all ->
  forall lvls ptrs, (forall l, l ∈ lvls -> l ∈ all) -> pointers_ok v all k ptrs -> let '(r, ptrs') := base_level_loop ucmp v k lvls ptrs in
  (r = true <-> Forall (fun l => Forall (fun f => ~ holds_key k f) (level_files v l)) lvls) /\ pointers_ok v all k ptrs'.
Proof.
  intros Hall. induction lvls as [|l lvls IH]; intros ptrs Hin Hp; cbn [base_level_loop]; [done|].
  rewrite Forall_forall in Hall. destruct (Hall l) as [Hl Hus]; [apply Hin; left|]. destruct Hp as [Hlen Hp]. pose proof (Hp l ltac:(apply Hin; left)) as Hpl.
  set (p := nth (Z.to_nat l) ptrs 0%nat) in *. pose proof (level_has_key_spec k (drop p (level_files v l)) p (user_sorted_drop p _ Hus)) as Hk.
  destruct (level_has_key ucmp k (drop p (level_files v l)) p) as [found n]. destruct Hk as (K1 & K2 & K3). rewrite passed_exists in K1 by done.
  assert (Hp' : pointers_ok v all k (<[Z.to_nat l := n]> ptrs)).
  { split; [by rewrite length_insert|]. intros l' Hl'. destruct (decide (Z.to_nat l' = Z.to_nat l)) as [E|E].
    - rewrite E. rewrite (nth_lookup_Some _ _ _ n) by (apply list_lookup_insert_eq; rewrite Hlen; lia). destruct (Hall l' Hl') as [Hl0 _]. apply Z2Nat.inj in E as ->; [|lia..].
      unfold passed. replace n with (p + (n - p))%nat by lia. rewrite <- take_take_drop. apply Forall_app. by split.
    - rewrite nth_lookup, list_lookup_insert_ne by done. rewrite <- nth_lookup. by apply Hp. }
  destruct found.
  - split; [|done]. split; [done|]. intros HF. apply Forall_cons in HF as [HF _]. destruct (proj1 (Exists_exists _ _) (proj1 K1 eq_refl)) as (f & Hf & H).
    rewrite Forall_forall in HF. by destruct (HF f Hf).
  - specialize (IH (<[Z.to_nat l := n]> ptrs) (fun l' Hl' => Hin l' (list_elem_of_further _ _ _ Hl')) Hp'). destruct (base_level_loop ucmp v k lvls _) as [r ptrs']. destruct IH as [IH1 IH2].
    split; [|done]. rewrite IH1, Forall_cons. split; [|tauto]. intros HF. split; [|done]. apply Forall_forall. intros f Hf Hh. assert (Ht : false = true) by (apply K1, Exists_exists; by exists f). done.
Qed.

(** The answers to a run of questions. *)
Fixpoint base_level_run (keys : list bytes) (c : Compaction) : option (list bool) :=
  match keys with
  | [] => Some []
  | k :: keys =>
      '(r, c) ← IsBaseLevelForKey ucmp k c;
      rs ← base_level_run keys c;
      Some (r :: rs)
  end.

Lemma levels_above_range level l : l ∈ levels_above level -> level < l /\ 0 <= l < kNumLevels.
Proof.
  unfold levels_above, levels. intros [Hl Hin]%list_elem_of_filter. apply list_elem_of_fmap in Hin as (n & -> & Hn). apply elem_of_seq in Hn. unfold kNumLevels in *. lia.
Qed.

Lemma base_level_run_spec id v keys : forall c, input_version_ c = Some (id, v) -> (forall l, level_ c + 1 < l -> user_sorted (level_files v l)) ->
  StronglySorted (fun a b => Compare ucmp a b <> Gt) keys ->
  match keys with [] => True | k :: _ => pointers_ok v (levels_above (level_ c + 1)) k (level_ptrs_ c) end ->
  base_level_run keys c = Some (map (base_level v (level_ c)) keys).
Proof.
  induction keys as [|k keys IH]; intros c Hv Hus Hs Hp; [done|]. cbn [base_level_run]. unfold IsBaseLevelForKey. rewrite Hv. cbn [mbind option_bind].
  assert (Hall : Forall (fun l => 0 <= l < kNumLevels /\ user_sorted (level_files v l)) (levels_above (level_ c + 1))).
  { apply Forall_forall. intros l [H1 H2]%levels_above_range. split; [done|]. by apply Hus. }
  pose proof (base_level_loop_spec v (levels_above (level_ c + 1)) k Hall (levels_above (level_ c + 1)) (level_ptrs_ c) (fun l H => H) Hp) as Hb.
  destruct (base_level_loop _ _ _ _ _) as [r ptrs]. destruct Hb as [Hr [Hlen Hp']]. inversion Hs as [|? ? Hs' Hk]; subst.
  cbn [mbind option_bind]. rewrite (IH (set_level_ptrs ptrs c)); [| done|done|done|].
  - cbn [mbind option_bind map]. do 2 f_equal. unfold base_level. destruct r; symmetry; [apply bool_decide_eq_true; by apply Hr|].
    apply bool_decide_eq_false. intros HF. by apply Hr in HF.
  - destruct keys as [|k' keys]; [done|]. apply Forall_cons in Hk as [Hk _]. split; [done|]. intros l Hl. by apply (passed_later _ k), Hk; apply Hp'.
Qed.
End BaseLevel.

(** ** Theorems *)

Lemma PickCompaction_spec (ucmp : Comparator) `{!ComparatorLaws ucmp} {W : Type} (vs : VersionSet W) : choosable ucmp (current vs) ->
  exists r, PickCompaction ucmp vs = Some r /\
    if NeedsCompaction vs then exists c, r = (Some c, chosen ucmp c vs) /\ compaction_ok ucmp (current_ vs) (current vs) c else r = (None, vs).
Proof.
  intros Hch.
  destruct (pick_start_spec ucmp vs Hch) as (start & E & Hn & Hs). unfold PickCompaction. rewrite E. cbn [mbind option_bind]. destruct start as [[level f]|].
  2:{ rewrite (proj1 Hn eq_refl). eauto. }
  destruct (NeedsCompaction vs); [|destruct Hn as [_ Hn]; discriminate Hn; done]. destruct (Hs level f eq_refl) as (L1 & L2 & Hf).
  unfold with_current. set (v1 := Version_Ref (current_ vs) vs) in *. assert (Hc1 : current v1 = current vs) by apply current_Ref.
  assert (Hin : exists inputs0, (if level =? 0 then let '(smallest, largest) := GetRange ucmp [f] in GetOverlappingInputs ucmp (current v1) 0 (Some smallest) (Some largest) else Some [f]) = Some inputs0 /\
    inputs0 <> [] /\ inputs0 `sublist_of` level_files (current vs) level /\ (level = 0 -> closed ucmp (level_files (current vs) level) (fun f => f ∈ inputs0))).
  { destruct (Z.eqb_spec level 0) as [->|Hne].
    - rewrite Hc1. destruct (overlaps_level ucmp (current vs) 0 (smallest f) (largest f) (ch_bounded _ _ Hch)) as (inputs & E' & H1 & H2 & _ & H4).
      exists inputs. split; [exact E'|]. split; [|done]. intros ->. apply (elem_of_nil f), H2. split; [done|]. by apply (bounded_touch ucmp (current vs) 0 f), Hf; apply Hch.
    - exists [f]. split; [done|]. split; [done|]. split; [|done]. apply list_elem_of_split in Hf as (a & b & ->). by apply sublist_inserts_l, sublist_skip, sublist_nil_l. }
  destruct Hin as (inputs0 & -> & I1 & I2 & I3). cbn [mbind option_bind].
  destruct (setup_ok ucmp level inputs0 vs Hch (conj L1 L2) I1 I2 I3) as (c & E' & _ & Hc & _).
  change (set_inputs0 inputs0 (set_input_version _ _)) with (set_inputs0 inputs0 (set_input_version (Some (current_ vs, current vs)) (Compaction_make level))). unfold v1. rewrite E'. eauto.
Qed.

Lemma CompactRange_spec (ucmp : Comparator) `{!ComparatorLaws ucmp} {W : Type} (vs : VersionSet W) : choosable ucmp (current vs) ->
  forall level begin end_, 0 <= level /\ level + 1 < kNumLevels -> exists r, CompactRange ucmp level begin end_ vs = Some r /\
    ((r = (None, vs) /\ forall f, f ∈ level_files (current vs) level -> outside ucmp (ExtractUserKey <$> begin) (ExtractUserKey <$> end_) f) \/
     exists c, r = (Some c, chosen ucmp c vs) /\ level_ c = level /\ compaction_ok ucmp (current_ vs) (current vs) c).
Proof.
  intros Hch.
  intros level begin end_ Hl. unfold CompactRange.
  destruct (GetOverlappingInputs_spec ucmp (current vs) level begin end_) as (inputs & E & H1 & H2 & H3 & H4); [intros _ g Hg; by apply internal_user_le, (ch_bounded _ _ Hch level)|].
  rewrite E. cbn [mbind option_bind]. destruct inputs as [|f0 inputs].
  { eexists. split; [done|]. left. split; [done|]. intros f Hf. destruct (decide (outside ucmp (ExtractUserKey <$> begin) (ExtractUserKey <$> end_) f)) as [|Ho]; [done|]. by destruct (proj1 (elem_of_nil f) (H2 f (conj Hf Ho))). }
  cbv zeta. destruct (CompactRange_inputs level (f0 :: inputs)) as (k & -> & K1 & K2). unfold with_current.
  destruct (setup_ok ucmp level (take k (f0 :: inputs)) vs Hch Hl) as (c & E' & L & Hc & _).
  + specialize (K1 ltac:(done)). by destruct k; [lia|].
  + etrans; [apply sublist_take|done].
  + intros H0. rewrite (K2 H0). by apply H4.
  + rewrite E'. cbn [mbind option_bind]. eauto 10.
Qed.

(** C33: [PickCompaction] and [CompactRange] return, and read no vector outside its
    bounds.  [PickCompaction] gives a compaction exactly when one is needed, and
    [CompactRange] exactly when a file of the level touches the range.  The inputs are
    files of the level, with every file of level 0 that shares a user key with one of
    them if it is that level, and exactly the files of the next level in the range of
    these; every file two levels down that shares a user key with an input is a
    grandparent.  The current version gains a reference, and the next compaction of the
    level starts where this one ends. *)
Theorem compaction_choice (ucmp : Comparator) `{!ComparatorLaws ucmp} {W : Type} (vs : VersionSet W) : choosable ucmp (current vs) ->
  (exists r, PickCompaction ucmp vs = Some r /\
     if NeedsCompaction vs then exists c, r = (Some c, chosen ucmp c vs) /\ compaction_ok ucmp (current_ vs) (current vs) c else r = (None, vs)) /\
  forall level begin end_, 0 <= level /\ level + 1 < kNumLevels -> exists r, CompactRange ucmp level begin end_ vs = Some r /\
    ((r = (None, vs) /\ forall f, f ∈ level_files (current vs) level -> outside ucmp (ExtractUserKey <$> begin) (ExtractUserKey <$> end_) f) \/
     exists c, r = (Some c, chosen ucmp c vs) /\ level_ c = level /\ compaction_ok ucmp (current_ vs) (current vs) c).
Proof. intros Hch. split; [by apply PickCompaction_spec|]. intros level begin end_ Hl. by apply CompactRange_spec. Qed.

(** C34: asked about user keys in order, from the start, [IsBaseLevelForKey] answers
    each time whether no file below the level of the outputs has the key in its range,
    although it moves each level's pointer only forward. *)
Theorem base_level_for_keys (ucmp : Comparator) `{!ComparatorLaws ucmp} (id : nat) (v : Version) (c : Compaction) (keys : list bytes) :
  compaction_ok ucmp id v c -> (forall l, level_ c + 1 < l -> user_sorted ucmp (level_files v l)) -> StronglySorted (fun a b => Compare ucmp a b <> Gt) keys ->
  base_level_run ucmp keys c = Some (map (base_level ucmp v (level_ c)) keys).
Proof.
  intros Hc Hus Hs. apply (base_level_run_spec ucmp id v); [apply Hc|done|done|]. destruct keys as [|k keys]; [done|].
  destruct (co_start _ _ _ _ Hc) as (_ & _ & _ & ->). split; [done|]. intros l _. rewrite nth_lookup. unfold passed.
  destruct (replicate _ _ !! _) as [n|] eqn:E; [apply lookup_replicate in E as [-> _]|]; constructor.
Qed.

(** *** An example *)

(** The sample version, with a seek compaction of its first file. *)
Definition sample_seek : Version := mkVersion (files_ sample_version) (Some (sample_file 2)) 0 (double_of_Z (-1)) (-1).
Definition sample_vs : VersionSet bytes := AppendVersion sample_seek (VersionSet_make (str "/db/") (str "test")).

Lemma sample_choosable : choosable BytewiseComparator (current sample_vs).
Proof.
  change (current sample_vs) with sample_seek. split; [done| | |].
  - intros l f Hf. assert (Hb : Forall (Forall (fun f : FilePtr => Compare (InternalKeyComparator BytewiseComparator) (smallest f) (largest f) <> Gt)) (files_ sample_seek)) by (repeat constructor; vm_compute; done).
    unfold level_files in Hf. rewrite nth_lookup in Hf. destruct (files_ sample_seek !! Z.to_nat l) as [fs|] eqn:E; [|by apply elem_of_nil in Hf].
    rewrite Forall_lookup in Hb. specialize (Hb _ _ E). rewrite Forall_forall in Hb. by apply Hb.
  - intros H. vm_compute in H. done.
  - intros f [= <-]. split; [done|]. split; [done|]. left.
Qed.

Lemma compaction_choice_witness : exists c, PickCompaction BytewiseComparator sample_vs = Some (Some c, chosen BytewiseComparator c sample_vs) /\
  inputs_ c = ([sample_file 2; sample_file 3], [sample_file 1]).
Proof.
  destruct (proj1 (compaction_choice BytewiseComparator sample_vs sample_choosable)) as (r & E & H).
  change (NeedsCompaction sample_vs) with true in H. destruct H as (c & -> & _). exists c. split; [exact E|].
  apply (f_equal (fun r => match r with Some (Some c, _) => inputs_ c | _ => ([], []) end)) in E. rewrite <- E. vm_compute. reflexivity.
Defined.

Definition sample_compaction : Compaction := match PickCompaction BytewiseComparator sample_vs with Some (Some c, _) => c | _ => Compaction_make 0 end.

Lemma sample_compaction_ok : compaction_ok BytewiseComparator (current_ sample_vs) (current sample_vs) sample_compaction.
Proof.
  destruct (PickCompaction_spec BytewiseComparator sample_vs sample_choosable) as (r & E & H).
  change (NeedsCompaction sample_vs) with true in H. destruct H as (c & -> & H).
  assert (Hc : c = sample_compaction) by (unfold sample_compaction; by rewrite E). by subst c.
Qed.

Lemma sample_deep_sorted l : level_ sample_compaction + 1 < l -> user_sorted BytewiseComparator (level_files (current sample_vs) l).
Proof.
  intros Hl. assert (He : level_files (current sample_vs) l = []); [|rewrite He; split; constructor].
  change (level_ sample_compaction) with 0 in Hl. change (current sample_vs) with sample_seek. unfold level_files. rewrite nth_lookup.
  destruct (files_ sample_seek !! Z.to_nat l) as [fs|] eqn:Ef; [|done]. assert (Hn : (2 <= Z.to_nat l)%nat) by lia.
  destruct (Z.to_nat l) as [|[|n]]; [lia|lia|]. assert (Hall : Forall (fun fs => fs = []) (drop 2 (files_ sample_seek))) by (vm_compute; repeat constructor).
  rewrite Forall_lookup in Hall. by apply (Hall n).
Qed.

(** The same with files two and three levels down. *)
Definition deep_file (n : nat) (a b : string) : FilePtr := mkFilePtr n (FileMetaData_make (Z.of_nat n) 100 (InternalKey_make (str a) 1 kTypeValue) (InternalKey_make (str b) 1 kTypeValue)).
Definition deep_seek : Version :=
  mkVersion (take 2 (files_ sample_version) ++ [[deep_file 7 "a" "b"; deep_file 8 "d" "f"]; [deep_file 9 "m" "p"]; []; []; []]) (Some (sample_file 2)) 0 (double_of_Z (-1)) (-1).
Definition deep_vs : VersionSet bytes := AppendVersion deep_seek (VersionSet_make (str "/db/") (str "test")).

Lemma deep_choosable : choosable BytewiseComparator (current deep_vs).
Proof.
  change (current deep_vs) with deep_seek. split; [done| | |].
  - intros l f Hf. assert (Hb : Forall (Forall (fun f : FilePtr => Compare (InternalKeyComparator BytewiseComparator) (smallest f) (largest f) <> Gt)) (files_ deep_seek)) by (repeat constructor; vm_compute; done).
    unfold level_files in Hf. rewrite nth_lookup in Hf. destruct (files_ deep_seek !! Z.to_nat l) as [fs|] eqn:E; [|by apply elem_of_nil in Hf].
    rewrite Forall_lookup in Hb. specialize (Hb _ _ E). rewrite Forall_forall in Hb. by apply Hb.
  - intros H. vm_compute in H. done.
  - intros f [= <-]. split; [done|]. split; [done|]. left.
Qed.

Lemma deep_levels_sorted l : 0 + 1 < l -> user_sorted BytewiseComparator (level_files deep_seek l).
Proof.
  intros Hl. assert (Hall : Forall (user_sorted BytewiseComparator) (drop 2 (files_ deep_seek))) by (repeat (apply Forall_cons; split); [..|constructor]; split; repeat constructor; vm_compute; done).
  unfold level_files. rewrite nth_lookup. destruct (files_ deep_seek !! Z.to_nat l) as [fs|] eqn:Ef; [|split; constructor].
  rewrite Forall_lookup in Hall. apply (Hall (Z.to_nat l - 2)%nat). rewrite lookup_drop. by replace (2 + (Z.to_nat l - 2))%nat with (Z.to_nat l) by lia.
Qed.

Lemma base_level_for_keys_witness : exists c, PickCompaction BytewiseComparator deep_vs = Some (Some c, chosen BytewiseComparator c deep_vs) /\
  base_level_run BytewiseComparator [str "a"; str "c"; str "c"; str "e"; str "n"; str "q"] c = Some [false; true; true; false; false; true].
Proof.
  destruct (PickCompaction_spec BytewiseComparator deep_vs deep_choosable) as (r & E & H).
  change (NeedsCompaction deep_vs) with true in H. destruct H as (c & -> & H). exists c. split; [exact E|].
  assert (Hl : level_ c = 0) by (apply (f_equal (fun r => match r with Some (Some c, _) => level_ c | _ => 0 end)) in E; rewrite <- E; vm_compute; reflexivity).
  rewrite (base_level_for_keys BytewiseComparator (current_ deep_vs) (current deep_vs) c); [rewrite Hl; vm_compute; reflexivity|exact H|rewrite Hl; exact deep_levels_sorted|repeat constructor; vm_compute; done].
Defined.

(** Two files of a level above 0 may end and start with the same user key: the first is
    then chosen alone, although it holds the newer of the entries. *)
Definition boundary_file (n : nat) : FilePtr :=
  let key k s := InternalKey_make (str k) s kTypeValue in
  mkFilePtr n (if (n =? 1)%nat then FileMetaData_make 1 100 (key "a" 9) (key "b" 8) else FileMetaData_make 2 100 (key "b" 7) (key "c" 6)).
Definition boundary_version : Version := mkVersion [[]; [boundary_file 1; boundary_file 2]; []; []; []; []; []] (Some (boundary_file 1)) 1 (double_of_Z (-1)) (-1).
Definition boundary_vs : VersionSet bytes := AppendVersion boundary_version (VersionSet_make (str "/db/") (str "test")).

Lemma boundary_file_left : level_ok BytewiseComparator (level_files boundary_version 1) /\ touch BytewiseComparator (boundary_file 1) (boundary_file 2) /\
  exists c vs, PickCompaction BytewiseComparator boundary_vs = Some (Some c, vs) /\ fst (inputs_ c) = [boundary_file 1].
Proof.
  split; [split|split].
  - repeat constructor; (eexists; vm_compute; reflexivity) || (vm_compute; done).
  - repeat constructor; vm_compute; done.
  - intros [H|H]; vm_compute in H; done.
  - eexists _, _. split; [vm_compute; reflexivity|vm_compute; reflexivity].
Qed.
