(* ===== verification/DBIter.v ===== *)
(** * DBIter: the iterator of a database

    Models [db/db_iter.cpp]: over an iterator of internal keys, the entries of user
    keys as of a sequence number.  The calls of [db_->RecordReadSample] are kept in
    [samples_], the last first.  The capacity of [saved_value_] is not modelled: a string
    that is swapped for an empty one is an empty string. *)

From S2P Require Import Prelude Coding Slice Comparator DbFormat SkipList MemTable Iterator.

Inductive Direction : Type := kForward | kReverse.

Record DBIter (S : Type) : Type := mkDBIter {
  iter_ : S;
  sequence_ : Z;
  status_ : Status;
  saved_key_ : bytes;
  saved_value_ : bytes;
  direction_ : Direction;
  dvalid_ : bool;
  rnd_ : Z;
  bytes_counter_ : Z;
  samples_ : list bytes
}.
Arguments mkDBIter {S}.
Arguments iter_ {S}.
Arguments sequence_ {S}.
Arguments status_ {S}.
Arguments saved_key_ {S}.
Arguments saved_value_ {S}.
Arguments direction_ {S}.
Arguments dvalid_ {S}.
Arguments rnd_ {S}.
Arguments bytes_counter_ {S}.
Arguments samples_ {S}.

Section Fields.
Context {S : Type}.
Implicit Types d : DBIter S.

Definition with_iter (i : S) d : DBIter S :=
  mkDBIter i (sequence_ d) (status_ d) (saved_key_ d) (saved_value_ d) (direction_ d) (dvalid_ d) (rnd_ d) (bytes_counter_ d) (samples_ d).
Definition with_status (s : Status) d : DBIter S :=
  mkDBIter (iter_ d) (sequence_ d) s (saved_key_ d) (saved_value_ d) (direction_ d) (dvalid_ d) (rnd_ d) (bytes_counter_ d) (samples_ d).
Definition with_saved (k v : bytes) d : DBIter S :=
  mkDBIter (iter_ d) (sequence_ d) (status_ d) k v (direction_ d) (dvalid_ d) (rnd_ d) (bytes_counter_ d) (samples_ d).
Definition with_direction (x : Direction) d : DBIter S :=
  mkDBIter (iter_ d) (sequence_ d) (status_ d) (saved_key_ d) (saved_value_ d) x (dvalid_ d) (rnd_ d) (bytes_counter_ d) (samples_ d).
Definition with_valid (b : bool) d : DBIter S :=
  mkDBIter (iter_ d) (sequence_ d) (status_ d) (saved_key_ d) (saved_value_ d) (direction_ d) b (rnd_ d) (bytes_counter_ d) (samples_ d).
Definition with_sampling (rnd counter : Z) (samples : list bytes) d : DBIter S :=
  mkDBIter (iter_ d) (sequence_ d) (status_ d) (saved_key_ d) (saved_value_ d) (direction_ d) (dvalid_ d) rnd counter samples.

Definition SaveKey (k : bytes) d : DBIter S := with_saved k (saved_value_ d) d.
Definition ClearSavedKey d : DBIter S := with_saved [] (saved_value_ d) d.
Definition ClearSavedValue d : DBIter S := with_saved (saved_key_ d) [] d.
End Fields.

(** *** Sampling *)

Definition RandomPeriod (rnd : Z) : Z * Z := Uniform (2 * kReadBytesPeriod) rnd.

(** The loop that makes the counter non-negative, with a sample each time. *)
Fixpoint sample_loop (fuel : nat) (k : bytes) (rnd counter : Z) (samples : list bytes) : Z * Z * list bytes :=
  match fuel with
  | O => (rnd, counter, samples)
  | S fuel =>
      if counter <? 0 then
        let '(gap, rnd) := RandomPeriod rnd in sample_loop fuel k rnd (i32 (counter + gap)) (k :: samples)
      else (rnd, counter, samples)
  end.

Definition sample_fuel (counter : Z) : nat := S (2 * Z.to_nat (- counter)).

Section DBIterOps.
Context (user_comparator : Comparator) {S : Type} `{!Iterator S}.
Implicit Types d : DBIter S.

(** The loops over entries end after at most [fuel] of them. *)
Context (fuel : nat).

Definition ParseKey d : option ParsedInternalKey * DBIter S :=
  let k := key (iter_ d) in
  let n := i32 (usize (size_of k + size_of (value (iter_ d)))) in
  let counter := i32 (bytes_counter_ d - n) in
  let '(rnd, counter, samples) := sample_loop (sample_fuel counter) k (rnd_ d) counter (samples_ d) in
  let d := with_sampling rnd counter samples d in
  match ParseInternalKey k with
  | None => (None, with_status (Corruption (str "corrupted internal key in DBIter") []) d)
  | Some ikey => (Some ikey, d)
  end.

(** [skip] is [saved_key_] in every call. *)
Fixpoint FindNextUserEntry (fuel : nat) (skipping : bool) d : DBIter S :=
  match fuel with
  | O => d
  | Datatypes.S fuel =>
      let '(ikey, d) := ParseKey d in
      let next skipping d :=
        let d := with_iter (Next (iter_ d)) d in
        if Valid (iter_ d) then FindNextUserEntry fuel skipping d else with_valid false (ClearSavedKey d) in
      match ikey with
      | Some ikey =>
          if sequence ikey <=? sequence_ d then
            if type ikey =? value_type_code kTypeDeletion then next true (SaveKey (user_key ikey) d)
            else if skipping && match Compare user_comparator (user_key ikey) (saved_key_ d) with Gt => false | _ => true end then next skipping d
            else ClearSavedKey (with_valid true d)
          else next skipping d
      | None => next skipping d
      end
  end.

(** [value_type] is whether the last entry seen is a value. *)
Fixpoint FindPrev_loop (fuel : nat) (is_value : bool) d : bool * DBIter S :=
  match fuel with
  | O => (is_value, d)
  | Datatypes.S fuel =>
      if Valid (iter_ d) then
        let '(ikey, d) := ParseKey d in
        let prev is_value d := FindPrev_loop fuel is_value (with_iter (Prev (iter_ d)) d) in
        match ikey with
        | Some ikey =>
            if sequence ikey <=? sequence_ d then
              if is_value && match Compare user_comparator (user_key ikey) (saved_key_ d) with Lt => true | _ => false end then (is_value, d)
              else if type ikey =? value_type_code kTypeDeletion then prev false (with_saved [] [] d)
              else prev true (with_saved (ExtractUserKey (key (iter_ d))) (value (iter_ d)) d)
            else prev is_value d
        | None => prev is_value d
        end
      else (is_value, d)
  end.

Definition FindPrevUserEntry d : DBIter S :=
  let '(is_value, d) := FindPrev_loop fuel false d in
  if is_value then with_valid true d
  else with_direction kForward (with_valid false (with_saved [] [] d)).

Definition DBIter_Next d : DBIter S :=
  match direction_ d with
  | kReverse =>
      let d := with_direction kForward d in
      let d := with_iter (if Valid (iter_ d) then Next (iter_ d) else SeekToFirst (iter_ d)) d in
      if Valid (iter_ d) then FindNextUserEntry fuel true d
      else ClearSavedKey (with_valid false d)
  | kForward => FindNextUserEntry fuel true (SaveKey (ExtractUserKey (key (iter_ d))) d)
  end.

(** The scan backwards until the key changes; [None] when it leaves the iterator. *)
Fixpoint back_loop (fuel : nat) d : option (DBIter S) * DBIter S :=
  match fuel with
  | O => (None, d)
  | Datatypes.S fuel =>
      let d := with_iter (Prev (iter_ d)) d in
      if Valid (iter_ d) then
        match Compare user_comparator (ExtractUserKey (key (iter_ d))) (saved_key_ d) with
        | Lt => (Some d, d)
        | _ => back_loop fuel d
        end
      else (None, d)
  end.

Definition DBIter_Prev d : DBIter S :=
  match direction_ d with
  | kForward =>
      let d := SaveKey (ExtractUserKey (key (iter_ d))) d in
      match back_loop fuel d with
      | (Some d, _) => FindPrevUserEntry (with_direction kReverse d)
      | (None, d) => with_saved [] [] (with_valid false d)
      end
  | kReverse => FindPrevUserEntry d
  end.

Definition DBIter_Seek (target : bytes) d : DBIter S :=
  let d := with_direction kForward d in
  let saved := InternalKey_make target (sequence_ d) kValueTypeForSeek in
  let d := with_saved saved [] d in
  let d := with_iter (Seek saved (iter_ d)) d in
  if Valid (iter_ d) then FindNextUserEntry fuel false d else with_valid false d.

Definition DBIter_SeekToFirst d : DBIter S :=
  let d := ClearSavedValue (with_direction kForward d) in
  let d := with_iter (SeekToFirst (iter_ d)) d in
  if Valid (iter_ d) then FindNextUserEntry fuel false d else with_valid false d.

Definition DBIter_SeekToLast d : DBIter S :=
  let d := ClearSavedValue (with_direction kReverse d) in
  FindPrevUserEntry (with_iter (SeekToLast (iter_ d)) d).

Definition DBIter_Iterator : Iterator (DBIter S) := {|
  Valid := dvalid_;
  key d := match direction_ d with kForward => ExtractUserKey (key (iter_ d)) | kReverse => saved_key_ d end;
  value d := match direction_ d with kForward => value (iter_ d) | kReverse => saved_value_ d end;
  status d := if ok (status_ d) then status (iter_ d) else status_ d;
  SeekToFirst := DBIter_SeekToFirst;
  SeekToLast := DBIter_SeekToLast;
  Seek := DBIter_Seek;
  Next := DBIter_Next;
  Prev := DBIter_Prev
|}.
End DBIterOps.

Definition NewDBIterator {S : Type} (internal_iter : S) (sequence seed : Z) : DBIter S :=
  let '(counter, rnd) := RandomPeriod (Random_make seed) in
  mkDBIter internal_iter sequence OK [] [] kForward false rnd counter [].

(** ** What the iterator shows *)

Section View.
Context (ucmp : Comparator) `{!ComparatorLaws ucmp}.
Context (s : Z) (es : list entry).
Context (Hfits : Forall fits es) (Hsorted : StronglySorted (fun a b => cmp ucmp a b = Lt) es) (Hdistinct : distinct ucmp es).

(** The entry that a read of its user key gives is a value, this one. *)
Definition live (e : entry) : bool :=
  bool_decide (newest ucmp (e_key e) s es = Some e) && match e_type e with kTypeValue => true | kTypeDeletion => false end.

(** The user keys and values that can be read at [s], in order. *)
Definition user_entry (e : entry) : bytes * bytes := (e_key e, e_value e).
Definition user_view : list (bytes * bytes) := map user_entry (base.filter (fun e => live e = true) es).

Lemma keys_in_order i j a b : es !! i = Some a -> es !! j = Some b -> (i <= j)%nat -> Compare ucmp (e_key a) (e_key b) <> Gt.
Proof using Hsorted ComparatorLaws0.
  intros Ha Hb Hij. destruct (decide (i = j)) as [->|]; [rewrite Ha in Hb; injection Hb as ->; by rewrite compare_refl|].
  apply cmp_user. exact (StronglySorted_lookup _ _ i j a b Hsorted Ha Hb ltac:(lia)).
Qed.

Lemma newer_first i j a b : es !! i = Some a -> es !! j = Some b -> (i < j)%nat -> Compare ucmp (e_key a) (e_key b) = Eq -> e_seq b < e_seq a.
Proof using Hsorted Hfits Hdistinct ComparatorLaws0.
  intros Ha Hb Hij Hk. rewrite Forall_lookup in Hfits.
  assert (Hlt : cmp ucmp a b = Lt) by exact (StronglySorted_lookup _ _ i j a b Hsorted Ha Hb Hij).
  pose proof (cmp_seq ucmp a b (Hfits _ _ Ha) (Hfits _ _ Hb) Hk Hlt) as Hle.
  destruct (Z.eq_dec (e_seq a) (e_seq b)) as [E|]; [|lia]. exfalso.
  assert (Hab : a = b) by (apply Hdistinct; [by eapply list_elem_of_lookup_2|by eapply list_elem_of_lookup_2|done|done]). subst b.
  unfold cmp in Hlt. change (Compare (InternalKeyComparator ucmp) (internal_key a) (internal_key a) = Lt) in Hlt. by rewrite compare_refl in Hlt.
Qed.

(** Position [j] has a live entry: nothing before it hides it. *)
Definition Live (j : nat) : Prop := exists e, es !! j = Some e /\ e_type e = kTypeValue /\ e_seq e <= s /\
  forall k a, (k < j)%nat -> es !! k = Some a -> Compare ucmp (e_key a) (e_key e) = Eq -> s < e_seq a.

Lemma live_at j e : es !! j = Some e -> live e = true <-> Live j.
Proof using Hsorted Hfits Hdistinct ComparatorLaws0.
  intros He. unfold live. rewrite andb_true_iff, bool_decide_eq_true. split.
  - intros [Hn Ht]. pose proof (newest_is_newest ucmp (e_key e) s es) as Hnew. rewrite Hn in Hnew. destruct Hnew as (_ & Hv & Hm).
    apply visible_eq in Hv as [_ Hle]. exists e. split; [done|]. split; [by destruct (e_type e)|]. split; [done|]. intros k a Hk Ha Hc.
    pose proof (newer_first k j a e Ha He Hk Hc). destruct (Z.le_gt_cases (e_seq a) s) as [Hs|]; [|done].
    assert (e_seq a <= e_seq e); [|lia]. apply Hm; [by eapply list_elem_of_lookup_2|]. by apply visible_eq.
  - intros (e' & He' & Ht & Hle & Hno). rewrite He in He'. injection He' as <-. split; [|by rewrite Ht].
    refine (is_newest_unique ucmp (e_key e) s es es _ _ Hdistinct (reflexivity es) (newest_is_newest ucmp (e_key e) s es) _). split; [by eapply list_elem_of_lookup_2|].
    split; [by apply visible_eq; rewrite compare_refl|]. intros a Ha Hv. apply list_elem_of_lookup in Ha as [k Hk]. apply visible_eq in Hv as [Hc Hs].
    destruct (Nat.lt_trichotomy k j) as [Hlt|[->|Hgt]].
    + specialize (Hno k a Hlt Hk Hc). lia.
    + rewrite He in Hk. injection Hk as ->. lia.
    + pose proof (newer_first j k e a He Hk Hgt (proj1 (compare_eq_sym _ _) Hc)). lia.
Qed.

(** *** Positions in the view *)

Definition rank (j : nat) : nat := length (base.filter (fun e => live e = true) (take j es)).

Lemma rank_S j e : es !! j = Some e -> rank (S j) = (rank j + if live e then 1 else 0)%nat.
Proof using. intros He. unfold rank. rewrite (take_S_r _ _ _ He), filter_app, length_app, filter_cons. destruct (live e) eqn:El; case_decide; try done; congruence. Qed.

Lemma rank_same i j : (i <= j)%nat -> (forall k e, (i <= k < j)%nat -> es !! k = Some e -> live e = false) -> rank j = rank i.
Proof using.
  intros Hij. induction Hij as [|j Hij IH]; intros H; [done|]. destruct (es !! j) as [e|] eqn:He.
  - rewrite (rank_S j e He), (H j e) by (done || lia). rewrite IH; [lia|]. intros k e' Hk. apply H. lia.
  - apply lookup_ge_None in He. replace (rank (S j)) with (rank j) by (unfold rank; by rewrite !take_ge by lia). apply IH. intros k e' Hk. apply H. lia.
Qed.

Lemma view_at j e : es !! j = Some e -> live e = true -> user_view !! rank j = Some (user_entry e).
Proof using.
  intros He Hl. unfold user_view, rank. rewrite list_lookup_fmap. by erewrite filter_lookup.
Qed.

Lemma view_length : length user_view = rank (length es).
Proof using. unfold user_view, rank. by rewrite length_map, firstn_all. Qed.

Lemma rank_le j : (rank j <= length user_view)%nat.
Proof using.
  unfold user_view, rank. rewrite length_map. apply filter_take_le.
Qed.
End View.

(** ** The iterator *)

(** Two draws in a row are not both zero, so that the sampling loop ends. *)
Lemma two_gaps seed : 1 <= seed < 2147483647 ->
  let '(g1, s1) := RandomPeriod seed in let '(g2, s2) := RandomPeriod s1 in 0 <= g1 < 2 ^ 21 /\ 0 <= g2 < 2 ^ 21 /\ 1 <= g1 + g2 /\ 1 <= s1 < 2147483647 /\ 1 <= s2 < 2147483647.
Proof.
  intros Hs. unfold RandomPeriod, Uniform. change (2 * kReadBytesPeriod) with (2 ^ 21). destruct (Random_Next_lehmer seed Hs) as [_ H1].
  set (s1 := Random_Next seed) in *. destruct (Random_Next_lehmer s1 H1) as [E2 H2].
  pose proof (Z.mod_pos_bound s1 (2 ^ 21) ltac:(lia)). pose proof (Z.mod_pos_bound (Random_Next s1) (2 ^ 21) ltac:(lia)).
  cut (1 <= s1 mod 2 ^ 21 + Random_Next s1 mod 2 ^ 21); [lia|]. destruct (Z.eq_dec (s1 mod 2 ^ 21) 0) as [E|]; [|lia].
  assert (Hall : forallb (fun k => 1 <=? (16807 * (Z.of_nat k * 2 ^ 21)) mod 2147483647 mod 2 ^ 21) (seq 1 1023) = true) by (vm_compute; reflexivity).
  rewrite forallb_forall in Hall. pose proof (Z.div_mod s1 (2 ^ 21) ltac:(lia)). specialize (Hall (Z.to_nat (s1 / 2 ^ 21))).
  assert (Hd : 1 <= s1 / 2 ^ 21 < 1024) by (split; [|apply Z.div_lt_upper_bound]; lia).
  rewrite Z2Nat.id in Hall by lia. rewrite E2. replace s1 with (s1 / 2 ^ 21 * 2 ^ 21) at 2 by lia.
  assert (1 <= (16807 * (s1 / 2 ^ 21 * 2 ^ 21)) mod 2147483647 mod 2 ^ 21) by (apply Z.leb_le, Hall, in_seq; lia). lia.
Qed.

Lemma sample_loop_ends k n : forall seed counter samples, 1 <= seed < 2147483647 -> - 2 ^ 31 <= counter < 2 ^ 31 -> (2 * Z.to_nat (- counter) <= n)%nat ->
  let '(seed', counter', _) := sample_loop (S n) k seed counter samples in 0 <= counter' < 2 ^ 31 /\ 1 <= seed' < 2147483647.
Proof.
  induction n as [n IH] using (well_founded_induction lt_wf). intros seed counter samples Hseed Hc Hn. cbn [sample_loop].
  destruct (Z.ltb_spec counter 0) as [Hneg|]; [|lia]. destruct n as [|[|n]]; [lia|lia|].
  pose proof (two_gaps seed Hseed) as Hg. destruct (RandomPeriod seed) as [g1 s1] eqn:E1. destruct (RandomPeriod s1) as [g2 s2] eqn:E2. destruct Hg as (G1 & G2 & G3 & S1 & S2).
  rewrite i32_small by lia. cbn [sample_loop]. destruct (Z.ltb_spec (counter + g1) 0) as [Hneg1|]; [|lia]. rewrite E2, i32_small by lia.
  apply (IH n); [lia|done|lia|lia].
Qed.

Lemma i32_range z : - 2 ^ 31 <= i32 z < 2 ^ 31.
Proof. unfold i32. pose proof (Z.mod_pos_bound (z + 2 ^ 31) (2 ^ 32) ltac:(lia)). lia. Qed.

Section IterLaws.
Context (ucmp : Comparator) `{!ComparatorLaws ucmp} {S : Type} `{!Iterator S}.
Context (s : Z) (es : list entry) (rep : S -> option nat -> Prop) `{!IteratorLaws (InternalKeyComparator ucmp) (map e_pair es) rep}.
Context (Hfits : Forall fits es) (Hsorted : StronglySorted (fun a b => cmp ucmp a b = Lt) es) (Hdistinct : distinct ucmp es) (Hseq : 0 <= s <= kMaxSequenceNumber).
Implicit Types d : DBIter S.

Abbreviation Live := (Live ucmp s es).

(** The iterator reads at [s], has seen no corrupted key, and its sampling is in range. *)
Definition settled d : Prop :=
  sequence_ d = s /\ status_ d = OK /\ 1 <= rnd_ d < 2147483647 /\ 0 <= bytes_counter_ d < 2 ^ 31.

Definition parsed (e : entry) : ParsedInternalKey := mkParsedInternalKey (e_key e) (e_seq e) (value_type_code (e_type e)).

Lemma rep_at i p : rep i (Some p) -> exists e, es !! p = Some e /\ key i = internal_key e /\ value i = e_value e /\ fits e.
Proof using All.
  intros Hr. pose proof (rep_entry i p Hr) as He. apply list_lookup_fmap_Some in He as (e & E & He). exists e. rewrite Forall_lookup in Hfits.
  split; [done|]. unfold e_pair in E. injection E as -> ->. split; [done|]. split; [done|]. by apply (Hfits p).
Qed.

Lemma ExtractUserKey_internal e : ExtractUserKey (internal_key e) = e_key e.
Proof. unfold internal_key. by rewrite InternalKey_make_PutFixed64, ExtractUserKey_PutFixed64. Qed.

(** Parsing the key of an entry only moves the sampling. *)
Lemma ParseKey_entry d p e : settled d -> rep (iter_ d) (Some p) -> es !! p = Some e ->
  exists d', ParseKey d = (Some (parsed e), d') /\ settled d' /\ iter_ d' = iter_ d /\ saved_key_ d' = saved_key_ d /\ saved_value_ d' = saved_value_ d /\
    direction_ d' = direction_ d /\ dvalid_ d' = dvalid_ d.
Proof using All.
  intros (H1 & H2 & H3 & H4) Hr He. destruct (rep_at _ _ Hr) as (e' & He' & Hk & _ & Hf). rewrite He in He'. injection He' as <-.
  unfold ParseKey. rewrite Hk. set (c := i32 (bytes_counter_ d - _)). pose proof (i32_range (bytes_counter_ d - i32 (usize (size_of (internal_key e) + size_of (value (iter_ d)))))) as Hc. fold c in Hc.
  pose proof (sample_loop_ends (internal_key e) (2 * Z.to_nat (- c)) (rnd_ d) c (samples_ d) H3 Hc (Nat.le_refl _)) as Hl. unfold sample_fuel.
  destruct (sample_loop _ _ _ _ _) as [[rnd counter] samples]. destruct Hl as [L1 L2]. unfold internal_key at 1. rewrite ParseInternalKey_make by apply Hf.
  eexists. split; [reflexivity|]. split; [|done]. done.
Qed.

Lemma rep_next_at i p : rep i (Some p) -> if Valid (Next i) then rep (Next i) (Some (p + 1)%nat) /\ (p + 1 < length es)%nat else rep (Next i) None /\ (length es <= p + 1)%nat.
Proof using All.
  intros Hr. pose proof (rep_next i p Hr) as Hn. pose proof (rep_valid _ _ Hn) as Hv. unfold next_position in *. rewrite length_map in *.
  rewrite Hv. replace (p + 1)%nat with (Datatypes.S p) by lia. destruct (Nat.ltb_spec (Datatypes.S p) (length es)); cbn; auto.
Qed.

Lemma rep_prev_at i p : rep i (Some p) -> match p with O => Valid (Prev i) = false /\ rep (Prev i) None | Datatypes.S q => Valid (Prev i) = true /\ rep (Prev i) (Some q) end.
Proof using All.
  intros Hr. pose proof (rep_prev i p Hr) as Hn. pose proof (rep_valid _ _ Hn) as Hv. destruct p as [|q]; cbn in Hn, Hv; auto.
Qed.

(** *** Forwards *)

(** The outcome of a search forwards: the first live entry from [p] on, or the end. *)
Definition found_forward (p : nat) (x : Direction) d : Prop := settled d /\ direction_ d = x /\
  ((exists j, (p <= j)%nat /\ Live j /\ (forall k, (p <= k < j)%nat -> ~ Live k) /\ rep (iter_ d) (Some j) /\ dvalid_ d = true) \/
   ((forall k, (p <= k)%nat -> ~ Live k) /\ rep (iter_ d) None /\ dvalid_ d = false)).

(** What the search knows of the entries before [p] when it gets there: those that can
    be read hide the later ones of their keys, and what is hidden is not live. *)
Definition hidden (p : nat) (skipping : bool) (skip : bytes) : Prop :=
  (forall k j a b, (k < p)%nat -> (p <= j)%nat -> es !! k = Some a -> es !! j = Some b -> Compare ucmp (e_key a) (e_key b) = Eq -> e_seq a <= s ->
     skipping = true /\ Compare ucmp (e_key b) skip <> Gt) /\
  (skipping = true -> forall j b, (p <= j)%nat -> es !! j = Some b -> Compare ucmp (e_key b) skip <> Gt -> ~ Live j).

Lemma found_later p x d : ~ Live p -> found_forward (p + 1) x d -> found_forward p x d.
Proof using.
  intros Hp (H1 & H2 & H3). split; [done|]. split; [done|]. destruct H3 as [(j & Hj & HL & Hno & H3)|(Hno & H3)].
  - left. exists j. split; [lia|]. split; [done|]. split; [|done]. intros k Hk. destruct (decide (k = p)) as [->|]; [done|]. apply Hno. lia.
  - right. split; [|done]. intros k Hk. destruct (decide (k = p)) as [->|]; [done|]. apply Hno. lia.
Qed.

Lemma live_here p e : es !! p = Some e -> Live p -> e_type e = kTypeValue /\ e_seq e <= s /\
  forall k a, (k < p)%nat -> es !! k = Some a -> Compare ucmp (e_key a) (e_key e) = Eq -> s < e_seq a.
Proof using. intros He (e' & He' & H). rewrite He in He'. by injection He' as <-. Qed.

(** One step of the search leaves an entry that is not live. *)
Lemma hidden_step p e skipping skip skipping' skip' : es !! p = Some e -> hidden p skipping skip ->
  (e_seq e <= s -> skipping' = true /\ Compare ucmp (e_key e) skip' <> Gt /\ (e_type e = kTypeDeletion \/ (skipping = true /\ Compare ucmp (e_key e) skip <> Gt))) ->
  (s < e_seq e \/ e_type e = kTypeValue -> skipping' = skipping /\ skip' = skip) ->
  (e_seq e <= s -> e_type e = kTypeDeletion -> skip' = e_key e) ->
  ~ Live p /\ hidden (p + 1) skipping' skip'.
Proof using All.
  intros He [Hh1 Hh2] Hvis Hsame Hdel.
  assert (Hlt : forall j b, (p < j)%nat -> es !! j = Some b -> Compare ucmp (e_key e) (e_key b) <> Gt) by (intros j b Hj Hb; apply (keys_in_order ucmp es Hsorted p j e b); [done|done|lia]).
  split.
  - intros HL. destruct (live_here p e He HL) as (Ht & Hs & _). destruct (Hvis Hs) as (_ & _ & [Hd|[Hsk Hle]]); [congruence|].
    by apply (Hh2 Hsk p e ltac:(lia) He Hle).
  - destruct (Z.le_gt_cases (e_seq e) s) as [Hs|Hs].
    + destruct (Hvis Hs) as (-> & Hle & Hcase). split.
      * intros k j a b Hk Hj Ha Hb Hc Hsa. split; [done|]. destruct (decide (k = p)) as [->|Hne].
        { rewrite He in Ha. injection Ha as <-. apply compare_eq_sym in Hc. by apply (compare_le_trans _ (e_key e)); [rewrite Hc|]. }
        destruct (e_type e) eqn:Ht.
        { rewrite (Hdel Hs eq_refl). apply (compare_le_trans _ (e_key a)); [apply compare_eq_sym in Hc; by rewrite Hc|]. apply (keys_in_order ucmp es Hsorted k p); [done|done|lia]. }
        destruct (Hsame ltac:(by right)) as [E ->]. apply (Hh1 k j a b); [lia|lia|done..].
      * intros _ j b Hj Hb Hle'. destruct (e_type e) eqn:Ht.
        { rewrite (Hdel Hs eq_refl) in Hle'. intros HL. destruct (live_here j b Hb HL) as (_ & _ & Hno). specialize (Hno p e ltac:(lia) He).
          assert (Hc : Compare ucmp (e_key e) (e_key b) = Eq).
          { specialize (Hlt j b ltac:(lia) Hb). destruct (Compare ucmp (e_key e) (e_key b)) eqn:E; [done| |done]. by apply compare_gt_lt in E. }
          specialize (Hno Hc). lia. }
        destruct (Hsame ltac:(by right)) as [E ->]. apply (Hh2 (eq_sym E) j b); [lia|done|done].
    + destruct (Hsame ltac:(by left)) as [-> ->]. split.
      * intros k j a b Hk Hj Ha Hb Hc Hsa. destruct (decide (k = p)) as [->|Hne]; [rewrite He in Ha; injection Ha as <-; lia|]. apply (Hh1 k j a b); [lia|lia|done..].
      * intros Hsk j b Hj. apply (Hh2 Hsk j b). lia.
Qed.

Lemma type_deletion e : (type (parsed e) =? value_type_code kTypeDeletion) = match e_type e with kTypeDeletion => true | kTypeValue => false end.
Proof. cbn [parsed type]. by destruct (e_type e). Qed.

(** The search, once it is past the entry at [p]. *)
Lemma next_step fuel p q x d skipping : settled d -> direction_ d = x -> rep (iter_ d) (Some p) -> (p + 1 <= q)%nat ->
  (forall d', settled d' -> direction_ d' = x -> rep (iter_ d') (Some (p + 1)%nat) -> saved_key_ d' = saved_key_ d -> (p + 1 < length es)%nat ->
     found_forward q x (FindNextUserEntry ucmp fuel skipping d')) ->
  let d' := with_iter (Next (iter_ d)) d in
  found_forward q x (if Valid (iter_ d') then FindNextUserEntry ucmp fuel skipping d' else with_valid false (ClearSavedKey d')).
Proof using All.
  intros Hd Hx Hr Hq IH. cbv zeta. cbn [iter_ with_iter]. pose proof (rep_next_at _ _ Hr) as Hn. destruct (Valid (Next (iter_ d))).
  - destruct Hn as [Hn Hlen]. by apply IH.
  - destruct Hn as [Hn Hlen]. split; [done|]. split; [done|]. right. split; [|done]. intros k Hk (e & He & _). apply lookup_lt_Some in He. lia.
Qed.

Lemma FindNext_spec fuel : forall p x d skipping, (length es - p < fuel)%nat -> settled d -> direction_ d = x -> rep (iter_ d) (Some p) ->
  hidden p skipping (saved_key_ d) -> found_forward p x (FindNextUserEntry ucmp fuel skipping d).
Proof using All.
  induction fuel as [|fuel IH]; intros p x d skipping Hf Hd Hx Hr Hh; [lia|]. destruct (rep_at _ _ Hr) as (e & He & _). cbn [FindNextUserEntry].
  destruct (ParseKey_entry d p e Hd Hr He) as (d1 & E & Hd1 & I1 & K1 & V1 & D1 & B1). rewrite E. cbv zeta. rewrite <- I1 in Hr. rewrite <- K1 in Hh.
  assert (Hx1 : direction_ d1 = x) by congruence. pose proof (proj1 Hd1) as Hs1. rewrite Hs1. cbn [parsed sequence user_key]. change (mkParsedInternalKey _ _ _) with (parsed e).
  assert (Hlp : (p < length es)%nat) by (by apply lookup_lt_Some in He).
  destruct (Z.leb_spec (e_seq e) s) as [Hs|Hs].
  - rewrite type_deletion. destruct (e_type e) eqn:Ht.
    + destruct (hidden_step p e skipping (saved_key_ d1) true (e_key e) He Hh) as [Hno Hh']; [|intros [?|?]; [lia|congruence]|done|].
      { intros _. split; [done|]. split; [by rewrite compare_refl|by left]. }
      apply found_later; [done|]. apply (next_step fuel p (p + 1) x (SaveKey (e_key e) d1) true); [done|done|done|lia|]. intros d' Hd' Hx' Hr' Hk' Hl'. apply IH; [lia|done|done|done|]. by rewrite Hk'.
    + destruct (skipping && _) eqn:Eh.
      * apply andb_true_iff in Eh as [-> Eh]. assert (Hle : Compare ucmp (e_key e) (saved_key_ d1) <> Gt) by (by destruct (Compare ucmp (e_key e) (saved_key_ d1))).
        destruct (hidden_step p e true (saved_key_ d1) true (saved_key_ d1) He Hh) as [Hno Hh']; [intros _; auto|done|by rewrite Ht|].
        apply found_later; [done|]. apply (next_step fuel p (p + 1) x d1 true); [done|done|done|lia|]. intros d' Hd' Hx' Hr' Hk' Hl'. apply IH; [lia|done|done|done|]. by rewrite Hk'.
      * split; [done|]. split; [done|]. left. exists p. split; [done|]. split; [|split; [intros k Hk; lia|done]]. exists e. split; [done|]. split; [done|]. split; [done|].
        intros k a Hk Ha Hc. destruct (Z.le_gt_cases (e_seq a) s) as [Hsa|]; [|done]. exfalso.
        destruct (proj1 Hh k p a e Hk (Nat.le_refl _) Ha He Hc Hsa) as [-> Hle]. by destruct (Compare ucmp (e_key e) (saved_key_ d1)).
  - destruct (hidden_step p e skipping (saved_key_ d1) skipping (saved_key_ d1) He Hh) as [Hno Hh']; [lia|done|lia|].
    apply found_later; [done|]. apply (next_step fuel p (p + 1) x d1 skipping); [done|done|done|lia|]. intros d' Hd' Hx' Hr' Hk' Hl'. apply IH; [lia|done|done|done|]. by rewrite Hk'.
Qed.

(** *** Backwards *)

(** What the search knows when it gets to the entry before [p], from [p0] on: the last
    entry that it could read, at [c], is the only one that may be live, and it is if no
    entry before [p] can be read and has its key. *)
Definition candidate (p p0 : nat) (is_value : bool) (k v : bytes) : Prop :=
  if is_value then
    exists c e, (p <= c < p0)%nat /\ es !! c = Some e /\ e_type e = kTypeValue /\ e_seq e <= s /\ k = e_key e /\ v = e_value e /\
      (forall j, (p <= j < p0)%nat -> Live j -> j = c) /\ (forall j a, (p <= j < c)%nat -> es !! j = Some a -> s < e_seq a)
  else (forall j, (p <= j < p0)%nat -> ~ Live j).

(** The iterator is before the live entry at [c], and only entries that cannot be read
    lie in between. *)
Definition before_entry (c : nat) d : Prop :=
  exists q, rep (iter_ d) q /\ (match q with Some q => (q < c)%nat /\ exists a b, es !! q = Some a /\ es !! c = Some b /\ Compare ucmp (e_key a) (e_key b) = Lt | None => True end) /\
    forall j a, (match q with Some q => q < j | None => True end)%nat -> (j < c)%nat -> es !! j = Some a -> s < e_seq a.

(** The outcome of a search backwards: the last live entry before [p0], or the end. *)
Definition found_backward (p0 : nat) (r : bool * DBIter S) : Prop := settled (snd r) /\ direction_ (snd r) = kReverse /\
  if fst r then exists c e, (c < p0)%nat /\ es !! c = Some e /\ Live c /\ (forall k, (c < k < p0)%nat -> ~ Live k) /\ before_entry c (snd r) /\
    saved_key_ (snd r) = e_key e /\ saved_value_ (snd r) = e_value e
  else (forall k, (k < p0)%nat -> ~ Live k) /\ exists q, rep (iter_ (snd r)) q.

(** An entry that can be read replaces the candidate, unless the candidate is a value of
    a later key. *)
Lemma candidate_step p p0 e is_value k v : es !! p = Some e -> (p < p0)%nat -> candidate (Datatypes.S p) p0 is_value k v -> e_seq e <= s ->
  (is_value = true -> Compare ucmp (e_key e) k <> Lt) ->
  candidate p p0 (match e_type e with kTypeValue => true | kTypeDeletion => false end) (e_key e) (e_value e).
Proof using All.
  intros He Hp Hc Hs Hk.
  assert (Hno : forall j, (Datatypes.S p <= j < p0)%nat -> ~ Live j).
  { destruct is_value; [|exact Hc]. destruct Hc as (c & b & Hcp & Hb & Ht & Hsb & -> & -> & Honly & _). specialize (Hk eq_refl). intros j Hj HL.
    rewrite (Honly j Hj HL) in HL. destruct (live_here c b Hb HL) as (_ & _ & Hh). specialize (Hh p e ltac:(lia) He).
    assert (Hle : Compare ucmp (e_key e) (e_key b) <> Gt) by (apply (keys_in_order ucmp es Hsorted p c); [done|done|lia]).
    assert (Compare ucmp (e_key e) (e_key b) = Eq) as Heq by (by destruct (Compare ucmp (e_key e) (e_key b))). specialize (Hh Heq). lia. }
  destruct (e_type e) eqn:Ht.
  - intros j Hj HL. destruct (decide (j = p)) as [->|]; [|by apply (Hno j); [lia|]]. destruct (live_here p e He HL). congruence.
  - exists p, e. split; [lia|]. split; [done|]. split; [done|]. split; [done|]. split; [done|]. split; [done|]. split; [|intros j a Hj; lia].
    intros j Hj HL. destruct (decide (j = p)) as [|]; [done|]. exfalso. by apply (Hno j); [lia|].
Qed.

Lemma candidate_skip p p0 e is_value k v : es !! p = Some e -> (p < p0)%nat -> candidate (Datatypes.S p) p0 is_value k v -> s < e_seq e -> candidate p p0 is_value k v.
Proof using.
  intros He Hp Hc Hs. assert (Hnl : ~ Live p) by (intros HL; destruct (live_here p e He HL) as (_ & ? & _); lia). destruct is_value.
  - destruct Hc as (c & b & Hcp & Hb & Ht & Hsb & Hk & Hv & Honly & Hinv). exists c, b. split; [lia|]. do 5 (split; [done|]). split.
    + intros j Hj HL. destruct (decide (j = p)) as [->|]; [done|]. apply Honly; [lia|done].
    + intros j a Hj Ha. destruct (decide (j = p)) as [->|]; [rewrite He in Ha; by injection Ha as <-|]. apply (Hinv j); [lia|done].
  - intros j Hj HL. destruct (decide (j = p)) as [->|]; [done|]. by apply (Hc j); [lia|].
Qed.

(** A candidate is live when nothing before [p] has its key and can be read. *)
Lemma candidate_live p p0 k v : candidate p p0 true k v ->
  (forall j a, (j < p)%nat -> es !! j = Some a -> e_seq a <= s -> Compare ucmp (e_key a) k = Lt) ->
  exists c e, (p <= c < p0)%nat /\ es !! c = Some e /\ Live c /\ (forall j, (c < j < p0)%nat -> ~ Live j) /\ k = e_key e /\ v = e_value e /\
    forall j a, (p <= j < c)%nat -> es !! j = Some a -> s < e_seq a.
Proof using All.
  intros (c & e & Hcp & He & Ht & Hs & -> & -> & Honly & Hinv) Hno. exists c, e. split; [done|]. split; [done|]. split.
  - exists e. split; [done|]. split; [done|]. split; [done|]. intros j a Hj Ha Hc. destruct (Z.le_gt_cases (e_seq a) s) as [Hsa|]; [|done]. exfalso.
    destruct (decide (j < p)%nat) as [Hjp|]; [specialize (Hno j a Hjp Ha Hsa); congruence|]. specialize (Hinv j a ltac:(lia) Ha). lia.
  - split; [|done]. intros j Hj HL. specialize (Honly j ltac:(lia) HL). lia.
Qed.

(** The iterator is at the entry before [p], or off the list when there is none. *)
Definition just_before (p : nat) (i : S) : Prop := rep i (match p with O => None | Datatypes.S q => Some q end).

Lemma just_before_prev p i : rep i (Some p) -> just_before p (Prev i).
Proof using All. intros Hr. pose proof (rep_prev_at _ _ Hr) as Hp. destruct p; by destruct Hp. Qed.

Lemma FindPrev_spec fuel : forall p p0 d is_value, (p < fuel)%nat -> (p <= p0)%nat -> settled d -> direction_ d = kReverse -> just_before p (iter_ d) ->
  candidate p p0 is_value (saved_key_ d) (saved_value_ d) -> found_backward p0 (FindPrev_loop ucmp fuel is_value d).
Proof using All.
  induction fuel as [|fuel IH]; intros p p0 d is_value Hf Hp0 Hd Hx Hr Hc; [lia|]. cbn [FindPrev_loop]. unfold just_before in Hr. pose proof (rep_valid _ _ Hr) as Hv.
  rewrite Hv. destruct p as [|p]; cbn [bool_decide is_Some] in *.
  - change (bool_decide (is_Some (@None nat))) with false. cbv iota. split; [done|]. split; [done|]. cbn [fst snd]. destruct is_value.
    + destruct (candidate_live 0 p0 _ _ Hc) as (c & e & Hcp & He & HL & Hno & Hk & Hval & Hinv); [lia|]. exists c, e. split; [lia|]. do 3 (split; [done|]). split; [|done].
      exists None. split; [done|]. split; [done|]. intros j a _ Hj Ha. apply (Hinv j); [lia|done].
    + split; [intros j Hj; apply Hc; lia|by exists None].
  - change (bool_decide (is_Some (Some p))) with true. cbv iota. destruct (rep_at _ _ Hr) as (e & He & Hkey & Hvalue & _).
    destruct (ParseKey_entry d p e Hd Hr He) as (d1 & E & Hd1 & I1 & K1 & V1 & D1 & B1). rewrite E. rewrite <- I1 in *. rewrite <- K1, <- V1 in Hc. assert (Hx1 : direction_ d1 = kReverse) by congruence.
    rewrite (proj1 Hd1). change (sequence (parsed e)) with (e_seq e). change (user_key (parsed e)) with (e_key e). destruct (Z.leb_spec (e_seq e) s) as [Hs|Hs].
    + destruct (is_value && match Compare ucmp (e_key e) (saved_key_ d1) with Lt => true | _ => false end) eqn:Eb.
      * apply andb_true_iff in Eb as [-> Eb]. assert (Hlt : Compare ucmp (e_key e) (saved_key_ d1) = Lt) by (by destruct (Compare ucmp (e_key e) (saved_key_ d1))).
        split; [done|]. split; [done|]. cbn [fst snd]. destruct (candidate_live (Datatypes.S p) p0 _ _ Hc) as (c & b & Hcp & Hb & HL & Hno & Hk & Hval & Hinv).
        { intros j a Hj Ha _. apply (compare_le_lt_trans _ (e_key e)); [apply (keys_in_order ucmp es Hsorted j p); [done|done|lia]|done]. }
        exists c, b. split; [lia|]. do 3 (split; [done|]). split; [|done]. exists (Some p). split; [done|]. split.
        { split; [lia|]. exists e, b. split; [done|]. split; [done|]. by rewrite <- Hk. }
        intros j a Hj1 Hj2 Ha. apply (Hinv j); [lia|done].
      * assert (Hge : is_value = true -> Compare ucmp (e_key e) (saved_key_ d1) <> Lt) by (intros ->; cbn in Eb; by destruct (Compare ucmp (e_key e) (saved_key_ d1))).
        pose proof (candidate_step p p0 e is_value _ _ He ltac:(lia) Hc Hs Hge) as Hc'. pose proof (just_before_prev p (iter_ d1) Hr) as Hjb.
        rewrite type_deletion, Hkey, Hvalue, ExtractUserKey_internal. destruct (e_type e); apply (IH p p0); try done; lia.
    + apply (IH p p0); [lia|lia|done|done|by apply just_before_prev|]. by apply (candidate_skip p p0 e).
Qed.

(** *** The positions of the iterator *)

(** [dbiter_rep d p]: the iterator is at position [p] of the view. *)
Definition dbiter_rep d (p : option nat) : Prop := settled d /\ (exists q, rep (iter_ d) q) /\
  match p with
  | None => dvalid_ d = false
  | Some n => dvalid_ d = true /\ exists c e, es !! c = Some e /\ Live c /\ n = rank ucmp s es c /\
      match direction_ d with
      | kForward => rep (iter_ d) (Some c)
      | kReverse => before_entry c d /\ saved_key_ d = e_key e /\ saved_value_ d = e_value e
      end
  end.

Abbreviation view := (user_view ucmp s es).
Abbreviation place := (rank ucmp s es).

Lemma Live_live j e : es !! j = Some e -> live ucmp s es e = true <-> Live j.
Proof using Hsorted Hfits Hdistinct ComparatorLaws0. by apply live_at. Qed.

Lemma not_Live j e : es !! j = Some e -> ~ Live j -> live ucmp s es e = false.
Proof using Hsorted Hfits Hdistinct ComparatorLaws0. intros He Hn. apply not_true_iff_false. by rewrite (Live_live j e He). Qed.

(** The first live entry from [p] on is at the position of [p] in the view, and there is
    none just when that is its end. *)
Lemma first_live p j : (p <= j)%nat -> (forall k, (p <= k < j)%nat -> ~ Live k) -> place j = place p.
Proof using Hsorted Hfits Hdistinct ComparatorLaws0. intros Hp Hno. apply rank_same; [done|]. intros k e Hk He. apply (not_Live k e He). by apply Hno. Qed.

Lemma rank_live j : Live j -> place (Datatypes.S j) = Datatypes.S (place j) /\ (place j < length view)%nat.
Proof using Hsorted Hfits Hdistinct ComparatorLaws0.
  intros HL. destruct (HL) as (e & He & _). pose proof (rank_S ucmp s es j e He) as Hr. rewrite (proj2 (Live_live j e He) HL) in Hr.
  split; [lia|]. pose proof (rank_le ucmp s es (Datatypes.S j)). lia.
Qed.

Lemma rank_end p : (forall k, (p <= k)%nat -> ~ Live k) -> place p = length view.
Proof using Hsorted Hfits Hdistinct ComparatorLaws0.
  intros Hno. rewrite view_length. destruct (decide (p <= length es)%nat) as [Hp|Hp].
  - symmetry. apply first_live; [done|]. intros k Hk. apply Hno. lia.
  - unfold rank. rewrite (take_ge es p), firstn_all by lia. done.
Qed.

(** What a search forwards from [p] finds is the position of [p] in the view. *)
Definition position_of (p : nat) : option nat := if decide (place p < length view)%nat then Some (place p) else None.

Lemma found_forward_rep p d : found_forward p kForward d -> dbiter_rep d (position_of p).
Proof using All.
  intros (Hd & Hx & Hcase). unfold position_of. destruct Hcase as [(j & Hj & HL & Hno & Hr & Hv)|(Hno & Hr & Hv)].
  - rewrite <- (first_live p j Hj Hno), decide_True by (by apply rank_live). split; [done|]. split; [eauto|]. split; [done|].
    destruct (HL) as (e & He & _). exists j, e. rewrite Hx. done.
  - rewrite rank_end, decide_False by (done || lia). split; [done|]. split; [eauto|done].
Qed.

(** What a search backwards from [p0] finds is the position before. *)
Lemma found_backward_rep p0 r : found_backward p0 r -> (p0 <= length es)%nat ->
  dbiter_rep (let '(is_value, d) := r in if is_value then with_valid true d else with_direction kForward (with_valid false (with_saved [] [] d)))
    (match place p0 with O => None | Datatypes.S n => Some n end).
Proof using All.
  destruct r as [is_value d]. intros (Hd & Hx & Hcase) Hlen. cbn [fst snd] in *. destruct is_value.
  - destruct Hcase as (c & e & Hc & He & HL & Hno & Hb & Hk & Hval).
    rewrite (first_live (Datatypes.S c) p0), (proj1 (rank_live c HL)) by (lia || (intros k Hk'; apply Hno; lia)).
    split; [done|]. split; [destruct Hb as (q & Hq & _); by exists q|]. split; [done|]. exists c, e. cbn [direction_ with_valid]. rewrite Hx. done.
  - destruct Hcase as (Hno & q & Hq). rewrite (first_live 0 p0) by (lia || (intros k Hk'; apply Hno; lia)). split; [done|]. split; [by exists q|done].
Qed.

(** *** The laws *)

Lemma rank_mono i j : (i <= j)%nat -> (place i <= place j)%nat.
Proof using. intros Hij. unfold rank. replace (take i es) with (take i (take j es)) by (rewrite take_take; f_equal; lia). apply filter_take_le. Qed.

Lemma view_source n x : view !! n = Some x -> exists k e, es !! k = Some e /\ Live k /\ place k = n /\ x = user_entry e.
Proof using Hsorted Hfits Hdistinct ComparatorLaws0.
  intros Hx. unfold user_view in Hx. apply list_lookup_fmap_Some in Hx as (e & -> & He). apply filter_lookup_inv in He as (k & Hk & Hl & Hn).
  exists k, e. split; [done|]. split; [by apply (Live_live k e Hk)|done].
Qed.

(** The search forwards from [p], where the iterator is, or past the end. *)
Lemma db_search_forward fuel p d d0 skipping : (length es < fuel)%nat -> settled d -> direction_ d = kForward ->
  rep (iter_ d) (if decide (p < length es)%nat then Some p else None) -> hidden p skipping (saved_key_ d) ->
  settled d0 -> iter_ d0 = iter_ d -> dvalid_ d0 = false ->
  dbiter_rep (if Valid (iter_ d) then FindNextUserEntry ucmp fuel skipping d else d0) (position_of p).
Proof using All.
  intros Hf Hd Hx Hr Hh Hd0 Hi0 Hv0. rewrite (rep_valid _ _ Hr). case_decide as Hp.
  - rewrite bool_decide_true by eauto. apply found_forward_rep, (FindNext_spec fuel p); [lia|done..].
  - rewrite bool_decide_false by (by intros []). unfold position_of. rewrite rank_end, decide_False by (lia || (intros k Hk (e & He & _); apply lookup_lt_Some in He; lia)).
    split; [done|]. split; [|done]. rewrite Hi0. eauto.
Qed.

(** The search from the live entry at [c], to go past it. *)
Lemma search_past fuel c e d : (length es < fuel)%nat -> settled d -> direction_ d = kForward -> rep (iter_ d) (Some c) -> es !! c = Some e -> Live c ->
  saved_key_ d = e_key e -> found_forward (c + 1) kForward (FindNextUserEntry ucmp fuel true d).
Proof using All.
  intros Hf Hd Hx Hr He HL Hk. destruct fuel as [|fuel]; [lia|]. destruct (live_here c e He HL) as (Ht & Hs & _). cbn [FindNextUserEntry].
  destruct (ParseKey_entry d c e Hd Hr He) as (d1 & E & Hd1 & I1 & K1 & V1 & D1 & B1). rewrite E. cbv zeta. rewrite (proj1 Hd1).
  change (sequence (parsed e)) with (e_seq e). change (user_key (parsed e)) with (e_key e). rewrite (proj2 (Z.leb_le _ _) Hs), type_deletion, Ht, K1, Hk, compare_refl.
  cbn [andb]. apply (next_step fuel c (c + 1) kForward d1 true); [done|congruence|by rewrite I1|lia|]. intros d' Hd' Hx' Hr' Hk' Hl'.
  apply FindNext_spec; [lia|done|done|done|]. rewrite Hk', K1, Hk. split.
  - intros k j a b Hkc Hj Ha Hb Hc Hsa. split; [done|]. apply (compare_le_trans _ (e_key a)); [apply compare_eq_sym in Hc; by rewrite Hc|].
    apply (keys_in_order ucmp es Hsorted k c); [done|done|lia].
  - intros _ j b Hj Hb Hle HLj. destruct (live_here j b Hb HLj) as (_ & _ & Hno). specialize (Hno c e ltac:(lia) He).
    assert (Hle' : Compare ucmp (e_key e) (e_key b) <> Gt) by (apply (keys_in_order ucmp es Hsorted c j); [done|done|lia]).
    assert (Compare ucmp (e_key e) (e_key b) = Eq) as Hc.
    { destruct (Compare ucmp (e_key e) (e_key b)) eqn:E'; [done| |done]. by apply compare_gt_lt in E'. }
    specialize (Hno Hc). lia.
Qed.

(** Entries that cannot be read are passed over. *)
Lemma search_over fuel c e n : forall p d, (p + n = c)%nat -> (length es + n < fuel)%nat -> settled d -> direction_ d = kForward -> rep (iter_ d) (Some p) ->
  (forall j a, (p <= j < c)%nat -> es !! j = Some a -> s < e_seq a) -> es !! c = Some e -> Live c -> saved_key_ d = e_key e ->
  found_forward (c + 1) kForward (FindNextUserEntry ucmp fuel true d).
Proof using All.
  revert fuel. induction n as [|n IH]; intros fuel p d Hpn Hf Hd Hx Hr Hun He HL Hk.
  - replace p with c in * by lia. by apply (search_past fuel c e); [lia|..].
  - destruct fuel as [|fuel]; [lia|]. destruct (rep_at _ _ Hr) as (a & Ha & _). cbn [FindNextUserEntry].
    destruct (ParseKey_entry d p a Hd Hr Ha) as (d1 & E & Hd1 & I1 & K1 & V1 & D1 & B1). rewrite E. cbv zeta. rewrite (proj1 Hd1).
    change (sequence (parsed a)) with (e_seq a). destruct (Z.leb_spec (e_seq a) s) as [Hle|_]; [specialize (Hun p a ltac:(lia) Ha); lia|].
    apply (next_step fuel p (c + 1) kForward d1 true); [done|congruence|by rewrite I1|lia|]. intros d' Hd' Hx' Hr' Hk' _.
    apply (IH fuel (p + 1)%nat); [lia|lia|done|done|done| |done|done|congruence]. intros j b Hj. apply Hun. lia.
Qed.

(** *** Back over the entries of a key *)

Lemma back_spec fuel k : forall p d, (p < fuel)%nat -> settled d -> rep (iter_ d) (Some p) -> saved_key_ d = k ->
  match back_loop ucmp fuel d with
  | (Some d', _) => settled d' /\ exists j, (j < p)%nat /\ rep (iter_ d') (Some j) /\ forall i a, (j < i < p)%nat -> es !! i = Some a -> Compare ucmp (e_key a) k <> Lt
  | (None, d') => settled d' /\ rep (iter_ d') None /\ forall i a, (i < p)%nat -> es !! i = Some a -> Compare ucmp (e_key a) k <> Lt
  end.
Proof using All.
  induction fuel as [|fuel IH]; intros p d Hf Hd Hr Hk; [lia|]. cbn [back_loop]. cbv zeta. cbn [iter_ with_iter saved_key_].
  pose proof (rep_prev_at _ _ Hr) as Hp. destruct p as [|q]; destruct Hp as [-> Hp].
  - split; [done|]. split; [done|]. intros i a Hi. lia.
  - destruct (rep_at _ _ Hp) as (e & He & -> & _). rewrite ExtractUserKey_internal, Hk. destruct (Compare ucmp (e_key e) k) eqn:E; [|split; [done|]; exists q; split; [lia|]; split; [done|]; intros i a Hi; lia|].
    all: assert (Hne : Compare ucmp (e_key e) k <> Lt) by congruence.
    all: specialize (IH q (with_iter (Prev (iter_ d)) d) ltac:(lia) Hd Hp Hk).
    all: assert (Hext : forall P : nat -> Prop, (forall i a, P i -> (i < q)%nat -> es !! i = Some a -> Compare ucmp (e_key a) k <> Lt) ->
           forall i a, P i -> (i < Datatypes.S q)%nat -> es !! i = Some a -> Compare ucmp (e_key a) k <> Lt) by
         (intros P HP i a Hi Hlt Ha; destruct (decide (i = q)) as [->|]; [rewrite He in Ha; by injection Ha as <-|apply (HP i a); [done|lia|done]]).
    all: destruct (back_loop ucmp fuel _) as [[d'|] d'']; [destruct IH as (H1 & j & Hj & H2 & H3)|destruct IH as (H1 & H2 & H3)].
    all: split; [done|].
    all: try (exists j; split; [lia|]; split; [done|]; intros i a Hi Ha; apply (Hext (fun i => j < i)%nat) with i; [intros i' a' ? ?; apply H3; lia|lia|lia|done]).
    all: split; [done|]; intros i a Hi Ha; apply (Hext (fun _ => True)) with i; [intros i' a' _ ?; by apply H3|done|lia|done].
Qed.

(** Only entries of its own key come between a live entry and those of smaller keys. *)
Lemma place_back c e j : es !! c = Some e -> Live c -> (j <= c)%nat ->
  (forall i a, (j <= i < c)%nat -> es !! i = Some a -> Compare ucmp (e_key a) (e_key e) <> Lt \/ s < e_seq a) -> place j = place c.
Proof using Hsorted Hfits Hdistinct ComparatorLaws0.
  intros He HL Hj Hno. symmetry. apply first_live; [done|]. intros i Hi HLi. destruct (HLi) as (a & Ha & _ & Hs & _).
  destruct (Hno i a Hi Ha) as [Hge|]; [|lia]. destruct (live_here c e He HL) as (_ & _ & Hh). specialize (Hh i a ltac:(lia) Ha).
  assert (Hle : Compare ucmp (e_key a) (e_key e) <> Gt) by (apply (keys_in_order ucmp es Hsorted i c); [done|done|lia]).
  assert (Compare ucmp (e_key a) (e_key e) = Eq) as Hc by (by destruct (Compare ucmp (e_key a) (e_key e))). specialize (Hh Hc). lia.
Qed.

Lemma FindPrev_rep fuel j d : (j < fuel)%nat -> (j <= length es)%nat -> settled d -> direction_ d = kReverse -> just_before j (iter_ d) ->
  dbiter_rep (FindPrevUserEntry ucmp fuel d) (match place j with O => None | Datatypes.S n => Some n end).
Proof using All.
  intros Hf Hj Hd Hx Hr. unfold FindPrevUserEntry. apply (found_backward_rep j); [|done]. apply (FindPrev_spec fuel j j); [done|done|done|done|done|]. intros i Hi. lia.
Qed.

Lemma first_seen i q : rep i q -> rep (SeekToFirst i) (if decide (0 < length es)%nat then Some O else None).
Proof using All. intros Hr. pose proof (rep_first i q Hr) as Hf. destruct es; cbn in *; done. Qed.

Lemma seek_bounds target i : size_of target + 8 < 2 ^ 32 ->
  (forall k a, (k < i)%nat -> es !! k = Some a -> Compare (InternalKeyComparator ucmp) (internal_key a) (InternalKey_make target s kValueTypeForSeek) = Lt) ->
  forall k a, (k < i)%nat -> es !! k = Some a -> e_seq a <= s -> Compare ucmp (e_key a) target = Lt.
Proof using All.
  intros Ht Hb k a Hk Ha Hs. specialize (Hb k a Hk Ha). rewrite Forall_lookup in Hfits. change kValueTypeForSeek with kTypeValue in Hb.
  change (InternalKey_Compare ucmp (internal_key a) (InternalKey_make target s kTypeValue) = Lt) in Hb. rewrite (cmp_lookup ucmp a target s (Hfits _ _ Ha) Hseq) in Hb.
  destruct (Compare ucmp (e_key a) target); [|done|done]. rewrite Z.compare_lt_iff in Hb. pose proof (value_type_code_range (e_type a)). lia.
Qed.

(** *** The operations *)

Context (fuel : nat) (Hfuel : (length es + length es + 1 < fuel)%nat).

#[local] Instance dbiter : Iterator (DBIter S) := DBIter_Iterator ucmp fuel.

Lemma dbiter_valid d p : dbiter_rep d p -> Valid d = bool_decide (is_Some p).
Proof using All. intros (_ & _ & H). destruct p as [n|]; [destruct H as [H _]|]; exact H. Qed.

Lemma dbiter_entry d n : dbiter_rep d (Some n) -> view !! n = Some (key d, value d).
Proof using All.
  intros (_ & _ & _ & c & e & He & HL & -> & H). rewrite (view_at ucmp s es c e He) by (by apply (Live_live c e He)). cbn [key value dbiter DBIter_Iterator].
  destruct (direction_ d).
  - destruct (rep_at _ _ H) as (e' & He' & -> & -> & _). rewrite He in He'. injection He' as <-. by rewrite ExtractUserKey_internal.
  - by destruct H as (_ & -> & ->).
Qed.

Lemma dbiter_status d p : dbiter_rep d p -> ok (status d) = true.
Proof using All. intros ((_ & Hs & _) & (q & Hq) & _). cbn [status dbiter DBIter_Iterator]. rewrite Hs. change (ok OK) with true. exact (rep_status _ q Hq). Qed.

Lemma position_of_0 : position_of 0 = first_position view.
Proof using All. unfold position_of, first_position. change (place 0) with O. destruct view; cbn; case_decide; (done || lia). Qed.

Lemma position_of_live c : Live c -> position_of (c + 1) = next_position view (place c).
Proof using All.
  intros HL. unfold position_of, next_position. replace (c + 1)%nat with (Datatypes.S c) by lia. destruct (rank_live c HL) as [-> _].
  destruct (Nat.ltb_spec (Datatypes.S (place c)) (length view)); case_decide; (done || lia).
Qed.

Lemma hidden_0 sk : hidden 0 false sk.
Proof using All. split; [intros; lia|done]. Qed.

Lemma dbiter_first d p : dbiter_rep d p -> dbiter_rep (SeekToFirst d) (first_position view).
Proof using All.
  intros (Hd & (q & Hq) & _). rewrite <- position_of_0. cbn [SeekToFirst dbiter DBIter_Iterator]. unfold DBIter_SeekToFirst. cbv zeta.
  apply db_search_forward; try done; [lia| |apply hidden_0]. by apply (first_seen _ q).
Qed.

Lemma dbiter_last d p : dbiter_rep d p -> dbiter_rep (SeekToLast d) (last_position view).
Proof using All.
  intros (Hd & (q & Hq) & _). unfold last_position. rewrite view_length. cbn [SeekToLast dbiter DBIter_Iterator]. unfold DBIter_SeekToLast. cbv zeta.
  apply FindPrev_rep; try done; [lia|]. pose proof (rep_last _ q Hq) as Hl. unfold last_position in Hl. rewrite length_map in Hl. exact Hl.
Qed.

Lemma dbiter_next d n : dbiter_rep d (Some n) -> dbiter_rep (Next d) (next_position view n).
Proof using All.
  intros (Hd & _ & Hv & c & e & He & HL & -> & H). rewrite <- position_of_live by done. cbn [Next dbiter DBIter_Iterator]. unfold DBIter_Next. pose proof (lookup_lt_Some _ _ _ He) as Hc.
  destruct (direction_ d) eqn:Ex.
  - destruct (rep_at _ _ H) as (e' & He' & -> & _). rewrite He in He'. injection He' as <-. rewrite ExtractUserKey_internal.
    apply found_forward_rep, (search_past fuel c e); try done. lia.
  - destruct H as ((q & Hq & Hqc & Hun) & Hk & _). cbv zeta. cbn [iter_ with_direction with_iter]. rewrite (rep_valid _ _ Hq).
    set (i := if bool_decide (is_Some q) then Next (iter_ d) else SeekToFirst (iter_ d)).
    assert (Hi : exists j, rep i (Some j) /\ (j <= c)%nat /\ forall k a, (j <= k < c)%nat -> es !! k = Some a -> s < e_seq a).
    { subst i. destruct q as [q|].
      - destruct Hqc as [Hqc _]. pose proof (rep_next _ _ Hq) as Hn. rewrite next_position_Some in Hn by (rewrite length_map; lia).
        exists (Datatypes.S q). split; [exact Hn|]. split; [lia|]. intros k a Hk' Ha. apply (Hun k a); [lia|lia|done].
      - exists O. pose proof (first_seen _ _ Hq) as Hf. rewrite decide_True in Hf by lia. split; [exact Hf|]. split; [lia|]. intros k a Hk' Ha. apply (Hun k a); [done|lia|done]. }
    destruct Hi as (j & Hj & Hjc & Hun'). rewrite (rep_valid _ _ Hj). change (bool_decide (is_Some (Some j))) with true. cbv iota.
    apply found_forward_rep, (search_over fuel c e (c - j) j); try done; lia.
Qed.

Lemma prev_of n : prev_position n = match n with O => None | Datatypes.S m => Some m end.
Proof. by destruct n. Qed.

Lemma dbiter_prev d n : dbiter_rep d (Some n) -> dbiter_rep (Prev d) (prev_position n).
Proof using All.
  intros (Hd & _ & Hv & c & e & He & HL & -> & H). rewrite prev_of. cbn [Prev dbiter DBIter_Iterator]. unfold DBIter_Prev. pose proof (lookup_lt_Some _ _ _ He) as Hc.
  destruct (direction_ d) eqn:Ex.
  - destruct (rep_at _ _ H) as (e' & He' & -> & _). rewrite He in He'. injection He' as <-. rewrite ExtractUserKey_internal. cbv zeta.
    pose proof (back_spec fuel (e_key e) c (SaveKey (e_key e) d) ltac:(lia) Hd H eq_refl) as Hb. destruct (back_loop ucmp fuel _) as [[d'|] d''].
    + destruct Hb as (Hd' & j & Hj & Hr & Hge). rewrite <- (place_back c e (Datatypes.S j) He HL) by (lia || (intros i a Hi Ha; left; apply (Hge i a); [lia|done])).
      apply FindPrev_rep; try done; lia.
    + destruct Hb as (Hd' & Hr & Hge). rewrite <- (place_back c e 0 He HL) by (lia || (intros i a Hi Ha; left; apply (Hge i a); [lia|done])).
      split; [done|]. split; [by exists None|done].
  - destruct H as ((q & Hq & Hqc & Hun) & Hk & _). destruct q as [q|].
    + destruct Hqc as [Hqc _]. rewrite <- (place_back c e (Datatypes.S q) He HL) by (lia || (intros i a Hi Ha; right; apply (Hun i a); [lia|lia|done])).
      apply FindPrev_rep; try done; lia.
    + rewrite <- (place_back c e 0 He HL) by (lia || (intros i a Hi Ha; right; apply (Hun i a); [done|lia|done])).
      apply FindPrev_rep; try done; lia.
Qed.

(** The first position of the view from the place of [i] on, when the entries before [i]
    that can be read are of smaller keys and the others are not. *)
Lemma seek_view i target :
  (forall k a, (k < i)%nat -> es !! k = Some a -> e_seq a <= s -> Compare ucmp (e_key a) target = Lt) ->
  (forall k a, (i <= k)%nat -> es !! k = Some a -> Compare ucmp (e_key a) target <> Lt) ->
  position_of i = seek_position ucmp view target.
Proof using All.
  intros Hb Ha. symmetry. unfold position_of.
  assert (Hbefore : forall n x, view !! n = Some x -> (n < place i)%nat -> Compare ucmp (fst x) target = Lt).
  { intros n x Hx Hn. destruct (view_source n x Hx) as (k & e & He & HL & Hk & ->). destruct (live_here k e He HL) as (_ & Hs & _). apply (Hb k e); [|done|done].
    destruct (decide (k < i)%nat) as [|Hge]; [done|]. pose proof (rank_mono i k ltac:(lia)). lia. }
  case_decide as Hp.
  - apply (seek_position_Some ucmp). destruct (lookup_lt_is_Some_2 _ _ Hp) as [x Hx]. exists x. split; [done|]. split; [|intros j y Hy Hj; by apply (Hbefore j)].
    destruct (view_source _ x Hx) as (k & e & He & HL & Hk & ->). apply (Ha k e); [|done].
    destruct (decide (i <= k)%nat) as [|Hlt]; [done|]. pose proof (rank_mono (Datatypes.S k) i ltac:(lia)) as Hm. rewrite (proj1 (rank_live k HL)) in Hm. lia.
  - apply (seek_position_None ucmp). intros j y Hy. apply (Hbefore j y Hy). apply lookup_lt_Some in Hy. lia.
Qed.

Lemma dbiter_seek d p target : size_of target + 8 < 2 ^ 32 -> dbiter_rep d p -> dbiter_rep (Seek target d) (seek_position ucmp view target).
Proof using All.
  intros Ht (Hd & (q & Hq) & _). cbn [Seek dbiter DBIter_Iterator]. unfold DBIter_Seek. cbv zeta. change (sequence_ (with_direction kForward d)) with (sequence_ d). rewrite (proj1 Hd).
  set (saved := InternalKey_make target s kValueTypeForSeek).
  assert (Hsz : size_of saved < 2 ^ 32) by (subst saved; rewrite InternalKey_make_PutFixed64; unfold PutFixed64; by rewrite size_of_app, size_of_EncodeFixed64).
  pose proof (rep_seek _ q saved Hsz Hq) as Hr.
  assert (Hi : exists i, seek_position (InternalKeyComparator ucmp) (map e_pair es) saved = (if decide (i < length es)%nat then Some i else None) /\
    (forall k a, (k < i)%nat -> es !! k = Some a -> Compare (InternalKeyComparator ucmp) (internal_key a) saved = Lt) /\
    (forall k a, (i <= k)%nat -> es !! k = Some a -> Compare (InternalKeyComparator ucmp) (internal_key a) saved <> Lt)).
  { destruct (seek_position _ _ saved) as [i|] eqn:E.
    - exists i. apply (seek_position_Some (InternalKeyComparator ucmp)) in E as (x & Hx & Hge & Hlt). apply list_lookup_fmap_Some in Hx as (e & -> & He).
      rewrite decide_True by (by eapply lookup_lt_Some). split; [done|]. split.
      + intros k a Hk Ha. apply (Hlt k (e_pair a)); [by rewrite list_lookup_fmap, Ha|done].
      + intros k a Hk Ha Hl. apply Hge. destruct (decide (i = k)) as [->|]; [rewrite He in Ha; by injection Ha as ->|].
        apply (compare_le_lt_trans _ (internal_key a)); [|done].
        assert (Hlt' : cmp ucmp e a = Lt) by exact (StronglySorted_lookup _ _ i k e a Hsorted He Ha ltac:(lia)).
        change (cmp ucmp e a <> Gt). congruence.
    - exists (length es). rewrite decide_False by lia. split; [done|]. split; [|intros k a Hk Ha; apply lookup_lt_Some in Ha; lia].
      intros k a _ Ha. apply (proj1 (seek_position_None (InternalKeyComparator ucmp) _ _) E k (e_pair a)). by rewrite list_lookup_fmap, Ha. }
  destruct Hi as (i & Ei & Hb & Ha). rewrite Ei in Hr. rewrite <- (seek_view i target).
  - apply (db_search_forward fuel i); try done; [lia|]. split; [|done]. intros k j a b Hk Hj Hka Hjb Hc Hsa. exfalso.
    assert (Hlt : Compare ucmp (e_key a) target = Lt) by (by apply (seek_bounds target i Ht Hb k a)). 
    apply (Ha j b Hj Hjb). assert (Hbt : Compare ucmp (e_key b) target = Lt) by (apply (compare_le_lt_trans _ (e_key a)); [by apply compare_eq_sym in Hc; rewrite Hc|done]).
    rewrite Forall_lookup in Hfits. change (InternalKey_Compare ucmp (internal_key b) (InternalKey_make target s kTypeValue) = Lt). by rewrite (cmp_lookup ucmp b target s (Hfits _ _ Hjb) Hseq), Hbt.
  - intros k a Hk Hka Hs. by apply (seek_bounds target i Ht Hb k a).
  - intros k a Hk Hka Hlt. apply (Ha k a Hk Hka). rewrite Forall_lookup in Hfits.
    change (InternalKey_Compare ucmp (internal_key a) (InternalKey_make target s kTypeValue) = Lt). by rewrite (cmp_lookup ucmp a target s (Hfits _ _ Hka) Hseq), Hlt.
Qed.

Lemma NewDBIterator_rep i q seed : rep i q -> dbiter_rep (NewDBIterator i s seed) None.
Proof using All.
  intros Hr. unfold NewDBIterator. pose proof (Random_make_range seed) as H. unfold RandomPeriod, Uniform. change (2 * kReadBytesPeriod) with (2 ^ 21).
  pose proof (proj2 (Random_Next_lehmer (Random_make seed) H)) as H'. pose proof (Z.mod_pos_bound (Random_Next (Random_make seed)) (2 ^ 21) ltac:(lia)).
  split; [|split; [by exists q|done]]. split; [done|]. split; [done|]. split; [exact H'|]. cbn [bytes_counter_]. lia.
Qed.
End IterLaws.

(** An iterator over [entries], whose [Seek] takes targets of less than [limit] bytes. *)
Record user_cursor {S : Type} `{!Iterator S} (c : Comparator) (entries : list (bytes * bytes)) (limit : Z) (rep : S -> option nat -> Prop) : Prop := {
  uc_valid d p : rep d p -> Valid d = bool_decide (is_Some p);
  uc_entry d n : rep d (Some n) -> entries !! n = Some (key d, value d);
  uc_status d p : rep d p -> ok (status d) = true;
  uc_first d p : rep d p -> rep (SeekToFirst d) (first_position entries);
  uc_last d p : rep d p -> rep (SeekToLast d) (last_position entries);
  uc_seek d p target : size_of target < limit -> rep d p -> rep (Seek target d) (seek_position c entries target);
  uc_next d n : rep d (Some n) -> rep (Next d) (next_position entries n);
  uc_prev d n : rep d (Some n) -> rep (Prev d) (prev_position n)
}.

Lemma newest_same_key ucmp `{!ComparatorLaws ucmp} u s es e : Compare ucmp (e_key e) u = Eq -> newest ucmp u s es = newest ucmp (e_key e) s es.
Proof.
  intros Hc. assert (Hvis : forall a, visible ucmp u s a = visible ucmp (e_key e) s a).
  { intros a. apply eq_true_iff_eq. rewrite !visible_eq. assert (key_equiv ucmp (e_key e) u) as Hu by done.
    split; intros [H1 H2]; (split; [|done]); [change (key_equiv ucmp (e_key a) (e_key e)); transitivity u; [done|by symmetry]|
      change (key_equiv ucmp (e_key a) u); by transitivity (e_key e)]. }
  unfold newest. generalize (@None entry). induction es as [|a es IH]; intros acc; [done|]. cbn [fold_left]. by rewrite Hvis, IH.
Qed.

(** The view has the values that can be read, in the order of their keys. *)
Lemma user_view_spec ucmp `{!ComparatorLaws ucmp} s es : Forall fits es -> StronglySorted (fun a b => cmp ucmp a b = Lt) es -> distinct ucmp es ->
  sorted_entries ucmp (user_view ucmp s es) /\
  forall u v, (exists u', (u', v) ∈ user_view ucmp s es /\ Compare ucmp u' u = Eq) <-> exists e, newest ucmp u s es = Some e /\ e_type e = kTypeValue /\ e_value e = v.
Proof.
  intros Hfits Hsorted Hdistinct. split.
  - apply StronglySorted_of_lookup. intros i j a b Ha Hb Hij.
    destruct (view_source ucmp s es Hfits Hsorted Hdistinct i a Ha) as (k & x & Hk & HLk & <- & ->), (view_source ucmp s es Hfits Hsorted Hdistinct j b Hb) as (l & y & Hl & HLl & <- & ->).
    assert (Hkl : (k < l)%nat) by (destruct (decide (k < l)%nat); [done|]; pose proof (rank_mono ucmp s es l k ltac:(lia)); lia). cbn [fst user_entry].
    pose proof (keys_in_order ucmp es Hsorted k l x y Hk Hl ltac:(lia)) as Hle. destruct (Compare ucmp (e_key x) (e_key y)) eqn:E; [exfalso|done|done].
    destruct (live_here ucmp s es k x Hk HLk) as (_ & Hs & _), (live_here ucmp s es l y Hl HLl) as (_ & _ & Hno). specialize (Hno k x Hkl Hk E). lia.
  - intros u v. pose proof (newest_same_key ucmp u s es) as Hmove.
    split.
    + intros (u' & Hin & Hc). apply list_elem_of_fmap in Hin as (e & [= -> ->] & He). apply list_elem_of_filter in He as [Hl He]. exists e. rewrite (Hmove e Hc).
      unfold live in Hl. apply andb_true_iff in Hl as [Hl Ht]. apply bool_decide_eq_true in Hl. split; [done|]. split; [by destruct (e_type e)|done].
    + intros (e & Hn & Ht & <-). pose proof (newest_is_newest ucmp u s es) as Hi. rewrite Hn in Hi. destruct Hi as (He & Hv & _). apply visible_eq in Hv as [Hc _].
      exists (e_key e). split; [|done]. apply list_elem_of_fmap. exists e. split; [done|]. apply list_elem_of_filter. split; [|done].
      unfold live. rewrite <- (Hmove e Hc), Hn, Ht, andb_true_r. by apply bool_decide_eq_true.
Qed.

(** A database iterator over an internal one. *)
Lemma NewDBIterator_view (ucmp : Comparator) `{!ComparatorLaws ucmp} {S : Type} `{!Iterator S} (s : Z) (es : list entry) (rep : S -> option nat -> Prop)
    `{!IteratorLaws (InternalKeyComparator ucmp) (map e_pair es) rep} (fuel : nat) :
  Forall fits es -> StronglySorted (fun a b => cmp ucmp a b = Lt) es -> distinct ucmp es -> 0 <= s <= kMaxSequenceNumber -> (length es + length es + 1 < fuel)%nat ->
  let view := user_view ucmp s es in
  (exists rep' : DBIter S -> option nat -> Prop, user_cursor (Iterator0 := DBIter_Iterator ucmp fuel) ucmp view (2 ^ 32 - 8) rep' /\
     forall i q seed, rep i q -> rep' (NewDBIterator i s seed) None) /\
  sorted_entries ucmp view /\
  forall u v, (exists u', (u', v) ∈ view /\ Compare ucmp u' u = Eq) <-> exists e, newest ucmp u s es = Some e /\ e_type e = kTypeValue /\ e_value e = v.
Proof.
  intros Hfits Hsorted Hdistinct Hs Hfuel view. split; [|by apply user_view_spec].
  exists (dbiter_rep ucmp s es rep). split; [|intros i q seed Hr; by eapply NewDBIterator_rep]. split.
  - by eapply dbiter_valid.
  - by eapply dbiter_entry.
  - by eapply dbiter_status.
  - by eapply dbiter_first.
  - by eapply dbiter_last.
  - intros d p target Ht. eapply dbiter_seek; try done. lia.
  - by eapply dbiter_next.
  - by eapply dbiter_prev.
Qed.

(** C16: An iterator of the database, over an internal iterator on sorted entries, goes
    over the values that reads at its sequence number give, in the order of their user
    keys, in both directions and with changes of direction, and its searches and its
    sampling end. *)
Theorem db_iterator (ucmp : Comparator) `{!ComparatorLaws ucmp} {S : Type} `{!Iterator S} (s : Z) (es : list entry) (rep : S -> option nat -> Prop)
    `{!IteratorLaws (InternalKeyComparator ucmp) (map e_pair es) rep} (fuel : nat) :
  Forall fits es -> StronglySorted (fun a b => cmp ucmp a b = Lt) es -> distinct ucmp es -> 0 <= s <= kMaxSequenceNumber -> (length es + length es + 1 < fuel)%nat ->
  let view := user_view ucmp s es in
  (exists rep' : DBIter S -> option nat -> Prop, user_cursor (Iterator0 := DBIter_Iterator ucmp fuel) ucmp view (2 ^ 32 - 8) rep' /\
     forall i q seed, rep i q -> rep' (NewDBIterator i s seed) None) /\
  sorted_entries ucmp view /\
  forall u v, (exists u', (u', v) ∈ view /\ Compare ucmp u' u = Eq) <-> exists e, newest ucmp u s es = Some e /\ e_type e = kTypeValue /\ e_value e = v.
Proof. intros. by apply NewDBIterator_view. Qed.

(** Reads at 6: the deletion of a and the newer values of b and c are not seen. *)
Definition sample_list : list entry := [
  mkEntry 9 kTypeDeletion (str "a") []; mkEntry 5 kTypeValue (str "a") (str "1"); mkEntry 7 kTypeValue (str "b") (str "2"); mkEntry 3 kTypeValue (str "b") (str "3");
  mkEntry 8 kTypeValue (str "c") (str "4"); mkEntry 4 kTypeDeletion (str "d") []; mkEntry 2 kTypeValue (str "d") (str "5"); mkEntry 1 kTypeValue (str "e") (str "6")].

#[local] Instance internal_list : Iterator ListIterator := ListIterator_Iterator (InternalKeyComparator BytewiseComparator).

Definition sample_rep (i : ListIterator) (p : option nat) : Prop :=
  li_entries i = map e_pair sample_list /\ li_pos i = p /\ match p with Some n => (n < length (map e_pair sample_list))%nat | None => True end.

#[local] Instance sample_laws : IteratorLaws (InternalKeyComparator BytewiseComparator) (map e_pair sample_list) sample_rep := ListIterator_laws _ _.

#[local] Instance sample_db : Iterator (DBIter ListIterator) := DBIter_Iterator BytewiseComparator 20.
Definition sample_start : DBIter ListIterator := NewDBIterator (mkListIterator (map e_pair sample_list) None) 6 301.
Definition shown (d : DBIter ListIterator) : option (bytes * bytes) := if Valid d then Some (key d, value d) else None.

Lemma db_iterator_witness :
  (exists rep' : DBIter ListIterator -> option nat -> Prop, user_cursor BytewiseComparator (user_view BytewiseComparator 6 sample_list) (2 ^ 32 - 8) rep' /\ rep' sample_start None) /\
  user_view BytewiseComparator 6 sample_list = [(str "a", str "1"); (str "b", str "3"); (str "e", str "6")] /\
  shown (Seek (str "b") sample_start) = Some (str "b", str "3") /\ shown (Prev (Next (Prev (Seek (str "b") sample_start)))) = Some (str "a", str "1") /\
  shown (Next (SeekToLast sample_start)) = None.
Proof.
  split; [|repeat split; vm_compute; reflexivity].
  destruct (db_iterator BytewiseComparator (S := ListIterator) 6 sample_list sample_rep 20) as [(rep' & Hc & Hn) _].
  - repeat constructor; vm_compute; discriminate.
  - repeat constructor; vm_compute; reflexivity.
  - assert (H : forallb (fun a => forallb (fun b => bool_decide (a = b) || negb (bool_decide (Compare BytewiseComparator (e_key a) (e_key b) = Eq) && (e_seq a =? e_seq b))) sample_list) sample_list = true) by (vm_compute; reflexivity).
    intros a b Ha Hb Hc Hs. rewrite forallb_forall in H. specialize (H a (proj1 (list_elem_of_In _ _) Ha)). rewrite forallb_forall in H. specialize (H b (proj1 (list_elem_of_In _ _) Hb)).
    rewrite (bool_decide_true _ Hc), Hs, Z.eqb_refl, orb_false_r in H. by apply bool_decide_eq_true in H.
  - split; [lia|vm_compute; discriminate].
  - vm_compute. lia.
  - exists rep'. split; [exact Hc|]. apply (Hn _ None). by repeat split.
Defined.
