(* ===== verification/Snapshot.v ===== *)
(** * Snapshot: the snapshots that are in use

    Models [db/snapshot.h]: the doubly-linked circular list of the sequence numbers that
    readers hold, with its nodes as addresses. *)

From stdpp Require Import sorting.
From S2P Require Import Prelude.
From S2P Require Cache.
Import Cache(lru_, path, path_next, path_prev, path_unlink, path_append, path_ext, path_member).

(** The dummy head has the address [lru_]; [unused_] is the next address of [new]. *)
Record SnapshotList : Type := mkSnapshots {
  next_ : gmap nat nat;
  prev_ : gmap nat nat;
  number_ : gmap nat Z;
  unused_ : nat
}.

Definition SnapshotList_make : SnapshotList := mkSnapshots {[ lru_ := lru_ ]} {[ lru_ := lru_ ]} ∅ 1.

Section Operations.
Implicit Types l : SnapshotList.

Definition next_of l (a : nat) : nat := default lru_ (next_ l !! a).
Definition prev_of l (a : nat) : nat := default lru_ (prev_ l !! a).

Definition empty l : bool := (next_of l lru_ =? lru_)%nat.
Definition oldest l : nat := next_of l lru_.
Definition newest_snapshot l : nat := prev_of l lru_.

Definition New (seq : Z) l : nat * SnapshotList :=
  let s := unused_ l in
  let nx := <[s := lru_]> (next_ l) in
  let pv := <[s := prev_of l lru_]> (prev_ l) in
  let nx := <[default lru_ (pv !! s) := s]> nx in
  let pv := <[default lru_ (nx !! s) := s]> pv in
  (s, mkSnapshots nx pv (<[s := seq]> (number_ l)) (S s)).

Definition Delete (s : nat) l : SnapshotList :=
  let nx := <[prev_of l s := next_of l s]> (next_ l) in
  let pv := <[default lru_ (nx !! s) := prev_of l s]> (prev_ l) in
  mkSnapshots (delete s nx) (delete s pv) (delete s (number_ l)) (unused_ l).

(** [snapshots_.oldest()->number_] where there is one. *)
Definition oldest_number l : option Z := if empty l then None else number_ l !! oldest l.
End Operations.

(** ** The list *)

(** [l] links the snapshots [ss], in order: each an address and its number. *)
Record snapshots (l : SnapshotList) (ss : list (nat * Z)) : Prop := {
  sn_path : path (next_ l) (prev_ l) lru_ (map fst ss) lru_;
  sn_nodup : NoDup (lru_ :: map fst ss);
  sn_number a n : (a, n) ∈ ss -> number_ l !! a = Some n;
  sn_unused a : a ∈ lru_ :: map fst ss -> (a < unused_ l)%nat
}.

Lemma snapshots_make : snapshots SnapshotList_make [].
Proof. split; cbn; [done|by apply NoDup_singleton|set_solver|intros a ->%list_elem_of_singleton; unfold lru_; lia]. Qed.

Lemma New_spec l ss seq : snapshots l ss -> let '(s, l') := New seq l in s = unused_ l /\ snapshots l' (ss ++ [(s, seq)]).
Proof.
  intros [Hp Hnd Hn Hu]. unfold New. cbv zeta. split; [done|]. set (s := unused_ l) in *.
  assert (Hs : s ∉ lru_ :: map fst ss) by (intros H; specialize (Hu s H); lia).
  destruct (path_append (next_ l) (prev_ l) (map fst ss) s Hnd ltac:(set_solver) ltac:(set_solver) Hp) as (Hpv & Hp' & Hne). set (p := List.last (map fst ss) lru_) in *.
  unfold prev_of. rewrite Hpv. cbn [default id]. rewrite lookup_insert_eq. cbn [default id].
  rewrite (lookup_insert_ne _ p s) by congruence. rewrite lookup_insert_eq. cbn [default id].
  split; cbn [next_ prev_ number_ unused_].
  - by rewrite map_app.
  - rewrite map_app. cbn [map fst]. rewrite app_comm_cons. apply NoDup_app. split; [done|]. split; [set_solver|by apply NoDup_singleton].
  - intros a n Ha. apply elem_of_app in Ha as [Ha|Ha%list_elem_of_singleton].
    + rewrite lookup_insert_ne; [by apply Hn|]. intros <-. apply Hs. right. apply list_elem_of_fmap. by exists (s, n).
    + injection Ha as -> ->. by rewrite lookup_insert_eq.
  - intros a Ha. rewrite map_app, app_comm_cons in Ha. apply elem_of_app in Ha as [Ha|Ha]; [specialize (Hu a Ha); lia|].
    apply list_elem_of_singleton in Ha as ->. cbn. lia.
Qed.

Lemma Delete_spec l ss s n ss' : snapshots l (ss ++ (s, n) :: ss') -> snapshots (Delete s l) (ss ++ ss').
Proof.
  intros [Hp Hnd Hn Hu]. rewrite map_app in *. cbn [map fst] in *.
  destruct (path_unlink (next_ l) (prev_ l) (map fst ss) s (map fst ss') Hnd Hp) as (Hnx & Hpv & Hp' & Hne & Hne'). unfold Delete, next_of, prev_of. cbv zeta. rewrite Hnx, Hpv. cbn [default id].
  rewrite lookup_insert_ne by congruence. rewrite Hnx. cbn [default id].
  apply NoDup_cons in Hnd as [H0 Hnd]. apply NoDup_app in Hnd as (N1 & N2 & N3). apply NoDup_cons in N3 as [N3 N4].
  assert (Hs : s ∉ lru_ :: map fst ss ++ map fst ss') by set_solver. split; cbn [next_ prev_ number_ unused_].
  - rewrite map_app. eapply path_ext; [| |exact Hp']; intros y Hy; apply lookup_delete_ne; intros <-; apply Hs; set_solver.
  - rewrite map_app. apply NoDup_cons. split; [set_solver|]. apply NoDup_app. split; [done|]. split; [set_solver|done].
  - intros a m Ha. rewrite lookup_delete_ne; [apply Hn; set_solver|]. intros <-. apply Hs. right. rewrite <- map_app. apply list_elem_of_fmap. by exists (s, m).
  - intros a Ha. rewrite map_app in Ha. apply Hu. set_solver.
Qed.

Lemma empty_spec l ss : snapshots l ss -> empty l = match ss with [] => true | _ => false end.
Proof.
  intros [Hp Hnd _ _]. unfold empty, next_of. rewrite (path_next _ _ _ _ _ Hp). cbn [default id]. destruct ss as [|[a n] ss]; [done|]. cbn [map fst hd] in *.
  apply Nat.eqb_neq. intros ->. apply NoDup_cons in Hnd as [H _]. apply H. by left.
Qed.

Lemma oldest_number_spec l ss : snapshots l ss -> oldest_number l = match ss with [] => None | (_, n) :: _ => Some n end.
Proof.
  intros Hs. unfold oldest_number. rewrite (empty_spec l ss Hs). destruct ss as [|[a n] ss]; [done|]. unfold oldest, next_of.
  rewrite (path_next _ _ _ _ _ (sn_path _ _ Hs)). cbn [map fst hd default id]. apply (sn_number _ _ Hs). by left.
Qed.

(** ** Reachable lists *)

(** Snapshots are taken at the last sequence number, which does not decrease. *)
Inductive snapshot_step : SnapshotList * list (nat * Z) * Z -> SnapshotList * list (nat * Z) * Z -> Prop :=
  | step_advance l ss last last' : last <= last' -> snapshot_step (l, ss, last) (l, ss, last')
  | step_new l ss last s l' : New last l = (s, l') -> snapshot_step (l, ss, last) (l', ss ++ [(s, last)], last)
  | step_delete l ss s n ss' last : snapshot_step (l, ss ++ (s, n) :: ss', last) (Delete s l, ss ++ ss', last).

Definition snapshots_reachable (l : SnapshotList) (ss : list (nat * Z)) (last : Z) : Prop :=
  rtc snapshot_step (SnapshotList_make, [], 0) (l, ss, last).

Lemma snapshots_reachable_ok l ss last : snapshots_reachable l ss last ->
  snapshots l ss /\ StronglySorted Z.le (map snd ss) /\ Forall (fun n => n <= last) (map snd ss).
Proof.
  unfold snapshots_reachable. intros H.
  cut (match (l, ss, last) with (l, ss, last) => snapshots l ss /\ StronglySorted Z.le (map snd ss) /\ Forall (fun n => n <= last) (map snd ss) end); [done|].
  revert H. apply (rtc_ind_r (fun st => match st with (l, ss, last) => snapshots l ss /\ StronglySorted Z.le (map snd ss) /\ Forall (fun n => n <= last) (map snd ss) end)).
  - split; [apply snapshots_make|]. split; constructor.
  - intros [[l1 ss1] last1] [[l2 ss2] last2] _ Hstep (Hs & Ho & Hl). inversion Hstep; subst.
    + split; [done|]. split; [done|]. eapply Forall_impl; [exact Hl|]. intros n Hn. cbv beta in *. lia.
    + match goal with E : New _ _ = _ |- _ => pose proof (New_spec l1 ss1 last2 Hs) as Hnew; rewrite E in Hnew; destruct Hnew as [_ Hnew] end.
      split; [done|]. rewrite map_app. split.
      * apply StronglySorted_app. cbn [map snd]. split; [|split; [done|repeat constructor]]. intros a b Ha ->%list_elem_of_singleton. rewrite Forall_forall in Hl. by apply Hl.
      * apply Forall_app. split; [done|]. by repeat constructor.
    + rewrite !map_app in *. cbn [map snd] in *. split; [by eapply Delete_spec|]. split.
      * eapply sublist_StronglySorted; [|exact Ho]. apply sublist_app; [done|]. by apply sublist_cons.
      * apply Forall_app in Hl as [H1 H2]. apply Forall_cons in H2 as [_ H2]. by apply Forall_app.
Qed.

(** C15: After any calls of [New] at the last sequence number and of [Delete] on the
    snapshots that are left, the list holds exactly these, with their numbers; the oldest
    is a lower bound of them that is not above the last sequence number, so that no
    reader needs entries hidden below it; and an empty list says so. *)
Theorem snapshot_list (l : SnapshotList) (ss : list (nat * Z)) (last : Z) : snapshots_reachable l ss last ->
  NoDup (map fst ss) /\ (forall a n, (a, n) ∈ ss -> number_ l !! a = Some n) /\
  empty l = bool_decide (ss = []) /\
  match oldest_number l with
  | None => ss = []
  | Some o => exists a, (a, o) ∈ ss /\ o <= last /\ forall b n, (b, n) ∈ ss -> o <= n
  end.
Proof.
  intros H. destruct (snapshots_reachable_ok l ss last H) as (Hs & Ho & Hl). pose proof (sn_nodup _ _ Hs) as Hnd. apply NoDup_cons in Hnd as [_ Hnd].
  split; [done|]. split; [apply Hs|]. rewrite (empty_spec l ss Hs), (oldest_number_spec l ss Hs). destruct ss as [|[a o] ss]; [done|]. split; [done|].
  exists a. split; [left|]. cbn [map snd] in *. apply Forall_cons in Hl as [Hl _]. split; [done|]. inversion Ho as [|? ? _ Ho']; subst. rewrite Forall_forall in Ho'.
  intros b n [[= -> ->]|Hb]%elem_of_cons; [lia|]. apply Ho'. apply list_elem_of_fmap. by exists (b, n).
Qed.

Definition sample_snapshots : SnapshotList := Delete 1 (snd (New 9 (snd (New 7 (snd (New 4 SnapshotList_make)))))).

Lemma snapshot_list_witness : oldest_number sample_snapshots = Some 7 /\ empty sample_snapshots = bool_decide ([(2%nat, 7); (3%nat, 9)] = []).
Proof.
  split; [vm_compute; reflexivity|].
  apply (snapshot_list sample_snapshots [(2%nat, 7); (3%nat, 9)] 9).
  eapply rtc_l; [apply (step_advance _ _ 0 4); lia|]. eapply rtc_l; [by apply (step_new SnapshotList_make [] 4 1)|]. eapply rtc_l; [apply (step_advance _ _ 4 7); lia|].
  eapply rtc_l; [by apply (step_new _ [(1%nat, 4)] 7 2)|]. eapply rtc_l; [apply (step_advance _ _ 7 9); lia|]. eapply rtc_l; [by apply (step_new _ [(1%nat, 4); (2%nat, 7)] 9 3)|].
  eapply rtc_l; [apply (step_delete _ [] 1 4 [(2%nat, 7); (3%nat, 9)])|]. apply rtc_refl.
Defined.
