(* ===== verification/DBImpl.v ===== *)
(** * DBImpl: the state of an open database

    Models [db/builder.cpp] and, of [db/db_impl.cpp], the state of [DBImpl], its options,
    the writing of a memtable to a table, the deletion of files and the scheduling of
    background work.  The environment is one type, which holds the table cache too, with
    the operations that the database uses as classes.  What the mutex protects changes
    as one thread finds and leaves it; messages of the info log are left out. *)

From S2P Require Import Prelude Coding Slice Comparator DbFormat VersionEdit Iterator Env Log FileName Version VersionSet Snapshot.
From S2P Require MemTable TableBuilder Format Table.
Import MemTable(MemTable, MemTableIterator).
Import TableBuilder(Options, Rep, TableBuilder_make, TableBuilder_Add, TableBuilder_Finish, FileSize, NumEntries).
Import Format(SnappyLib).
Import Table(ReadOptions, ReadOptions_make).

(** ** The environment *)

Class EnvDirs (E : Type) := {
  GetChildren : bytes -> bytes -> E -> Status * list bytes;
  FileExists : bytes -> E -> bool;
  CreateDir : bytes -> E -> E;
  DeleteDir : bytes -> E -> E;
  LockFile : bytes -> E -> Status * E;
  UnlockFile : bytes -> E -> E;
  NowMicros : E -> Z * E
}.

(** What the database asks of its table cache besides [Get]: the status of a new
    iterator over a file of a number and a size, and to forget a file. *)
Class TableCacheOps (E : Type) := {
  table_status : ReadOptions -> Z -> Z -> E -> Status * E;
  Evict : Z -> E -> E
}.

(** ** Options *)

Definition kNumNonTableCacheFiles : Z := 10.

Definition ClipToRange (v minvalue maxvalue : Z) : Z :=
  let v := if v >? maxvalue then maxvalue else v in
  if v <? minvalue then minvalue else v.

(** The options that the database itself reads; those of tables are kept together. *)
Record DBOptions : Type := mkDBOptions {
  table_options : Options;
  create_if_missing : bool;
  error_if_exists : bool;
  write_buffer_size : Z;
  max_open_files : Z;
  reuse_logs : bool;
  read_only : bool;
  write_only : bool
}.

(** The fields that [SanitizeOptions] changes; the info log and the block cache it makes
    are not part of the model. *)
Definition SanitizeOptions (src : DBOptions) : DBOptions :=
  let t := table_options src in
  mkDBOptions
    (TableBuilder.mkOptions (InternalKeyComparator (TableBuilder.comparator t)) (ClipToRange (TableBuilder.block_size t) (Z.shiftl 1 10) (Z.shiftl 4 20))
      (TableBuilder.block_restart_interval t) (TableBuilder.compression t) (InternalFilterPolicy <$> TableBuilder.filter_policy t) (TableBuilder.paranoid_checks t))
    (create_if_missing src) (error_if_exists src) (ClipToRange (write_buffer_size src) (Z.shiftl 64 10) (Z.shiftl 1 30))
    (ClipToRange (max_open_files src) (64 + kNumNonTableCacheFiles) 50000) (reuse_logs src) (read_only src) (write_only src).

(** ** The state *)

Record ManualCompaction : Type := mkManual {
  mc_level : Z;
  mc_done : bool;
  mc_begin : option bytes;
  mc_end : option bytes
}.

Record CompactionStats : Type := mkStats { micros : Z; bytes_read : Z; bytes_written : Z }.
Definition CompactionStats_make : CompactionStats := mkStats 0 0 0.
Definition CompactionStats_Add (c s : CompactionStats) : CompactionStats :=
  mkStats (i64 (micros s + micros c)) (i64 (bytes_read s + bytes_read c)) (i64 (bytes_written s + bytes_written c)).

(** [logfile_] is the destination of [log_].  [queued_] counts the calls of [BGWork] that
    the environment has not started; [disk_] has, by name, the table files that this
    database wrote and closed and that are still there: a file that is made again, or
    deleted, is not. *)
Record DBImpl (E W : Type) : Type := mkDBImpl {
  env_ : E;
  shutting_down_ : bool;
  mem_ : option MemTable;
  imm_ : option MemTable;
  log_ : option (Writer W);
  logfile_number_ : Z;
  seed_ : Z;
  snapshots_ : SnapshotList;
  pending_outputs_ : gset Z;
  bg_compaction_scheduled_ : bool;
  queued_ : nat;
  manual_compaction_ : option ManualCompaction;
  versions_ : VersionSet W;
  bg_error_ : Status;
  stats_ : list CompactionStats;
  disk_ : gmap bytes W
}.
Arguments mkDBImpl {E W}.
Arguments env_ {E W}.
Arguments shutting_down_ {E W}.
Arguments mem_ {E W}.
Arguments imm_ {E W}.
Arguments log_ {E W}.
Arguments logfile_number_ {E W}.
Arguments seed_ {E W}.
Arguments snapshots_ {E W}.
Arguments pending_outputs_ {E W}.
Arguments bg_compaction_scheduled_ {E W}.
Arguments queued_ {E W}.
Arguments manual_compaction_ {E W}.
Arguments versions_ {E W}.
Arguments bg_error_ {E W}.
Arguments stats_ {E W}.
Arguments disk_ {E W}.

Section Setters.
Context {E W : Type}.
Implicit Types db : DBImpl E W.

Definition set_env (e : E) db : DBImpl E W :=
  mkDBImpl e (shutting_down_ db) (mem_ db) (imm_ db) (log_ db) (logfile_number_ db) (seed_ db) (snapshots_ db) (pending_outputs_ db)
    (bg_compaction_scheduled_ db) (queued_ db) (manual_compaction_ db) (versions_ db) (bg_error_ db) (stats_ db) (disk_ db).
Definition set_mems (mem imm : option MemTable) db : DBImpl E W :=
  mkDBImpl (env_ db) (shutting_down_ db) mem imm (log_ db) (logfile_number_ db) (seed_ db) (snapshots_ db) (pending_outputs_ db)
    (bg_compaction_scheduled_ db) (queued_ db) (manual_compaction_ db) (versions_ db) (bg_error_ db) (stats_ db) (disk_ db).
Definition set_log (l : option (Writer W)) (number : Z) db : DBImpl E W :=
  mkDBImpl (env_ db) (shutting_down_ db) (mem_ db) (imm_ db) l number (seed_ db) (snapshots_ db) (pending_outputs_ db)
    (bg_compaction_scheduled_ db) (queued_ db) (manual_compaction_ db) (versions_ db) (bg_error_ db) (stats_ db) (disk_ db).
Definition set_seed (s : Z) db : DBImpl E W :=
  mkDBImpl (env_ db) (shutting_down_ db) (mem_ db) (imm_ db) (log_ db) (logfile_number_ db) s (snapshots_ db) (pending_outputs_ db)
    (bg_compaction_scheduled_ db) (queued_ db) (manual_compaction_ db) (versions_ db) (bg_error_ db) (stats_ db) (disk_ db).
Definition set_snapshots (s : SnapshotList) db : DBImpl E W :=
  mkDBImpl (env_ db) (shutting_down_ db) (mem_ db) (imm_ db) (log_ db) (logfile_number_ db) (seed_ db) s (pending_outputs_ db)
    (bg_compaction_scheduled_ db) (queued_ db) (manual_compaction_ db) (versions_ db) (bg_error_ db) (stats_ db) (disk_ db).
Definition set_pending (s : gset Z) db : DBImpl E W :=
  mkDBImpl (env_ db) (shutting_down_ db) (mem_ db) (imm_ db) (log_ db) (logfile_number_ db) (seed_ db) (snapshots_ db) s
    (bg_compaction_scheduled_ db) (queued_ db) (manual_compaction_ db) (versions_ db) (bg_error_ db) (stats_ db) (disk_ db).
Definition set_scheduled (b : bool) (n : nat) db : DBImpl E W :=
  mkDBImpl (env_ db) (shutting_down_ db) (mem_ db) (imm_ db) (log_ db) (logfile_number_ db) (seed_ db) (snapshots_ db) (pending_outputs_ db)
    b n (manual_compaction_ db) (versions_ db) (bg_error_ db) (stats_ db) (disk_ db).
Definition set_manual (m : option ManualCompaction) db : DBImpl E W :=
  mkDBImpl (env_ db) (shutting_down_ db) (mem_ db) (imm_ db) (log_ db) (logfile_number_ db) (seed_ db) (snapshots_ db) (pending_outputs_ db)
    (bg_compaction_scheduled_ db) (queued_ db) m (versions_ db) (bg_error_ db) (stats_ db) (disk_ db).
Definition set_vset (v : VersionSet W) db : DBImpl E W :=
  mkDBImpl (env_ db) (shutting_down_ db) (mem_ db) (imm_ db) (log_ db) (logfile_number_ db) (seed_ db) (snapshots_ db) (pending_outputs_ db)
    (bg_compaction_scheduled_ db) (queued_ db) (manual_compaction_ db) v (bg_error_ db) (stats_ db) (disk_ db).
Definition set_bg_error (s : Status) db : DBImpl E W :=
  mkDBImpl (env_ db) (shutting_down_ db) (mem_ db) (imm_ db) (log_ db) (logfile_number_ db) (seed_ db) (snapshots_ db) (pending_outputs_ db)
    (bg_compaction_scheduled_ db) (queued_ db) (manual_compaction_ db) (versions_ db) s (stats_ db) (disk_ db).
Definition set_stats (l : list CompactionStats) db : DBImpl E W :=
  mkDBImpl (env_ db) (shutting_down_ db) (mem_ db) (imm_ db) (log_ db) (logfile_number_ db) (seed_ db) (snapshots_ db) (pending_outputs_ db)
    (bg_compaction_scheduled_ db) (queued_ db) (manual_compaction_ db) (versions_ db) (bg_error_ db) l (disk_ db).
Definition set_disk (l : gmap bytes W) db : DBImpl E W :=
  mkDBImpl (env_ db) (shutting_down_ db) (mem_ db) (imm_ db) (log_ db) (logfile_number_ db) (seed_ db) (snapshots_ db) (pending_outputs_ db)
    (bg_compaction_scheduled_ db) (queued_ db) (manual_compaction_ db) (versions_ db) (bg_error_ db) (stats_ db) l.

(** The state that the constructor makes. *)
Definition DBImpl_make (dbpath dbname : bytes) (env : E) : DBImpl E W :=
  mkDBImpl env false None None None 0 0 SnapshotList_make ∅ false 0 None (VersionSet_make dbpath dbname) OK
    (replicate (Z.to_nat kNumLevels) CompactionStats_make) ∅.

Definition add_stats (level : Z) (s : CompactionStats) db : DBImpl E W :=
  set_stats (alter (CompactionStats_Add s) (Z.to_nat level) (stats_ db)) db.

(** ** Background work *)

Definition RecordBackgroundError (s : Status) db : DBImpl E W :=
  if ok (bg_error_ db) then set_bg_error s db else db.

Definition has_work db : bool :=
  negb (match imm_ db with None => true | _ => false end && match manual_compaction_ db with None => true | _ => false end && negb (NeedsCompaction (versions_ db))).

Definition MaybeScheduleCompaction db : DBImpl E W :=
  if bg_compaction_scheduled_ db then db
  else if shutting_down_ db then db
  else if negb (ok (bg_error_ db)) then db
  else if negb (has_work db) then db
  else set_scheduled true (S (queued_ db)) db.

Definition MaybeIgnoreError (opts : DBOptions) (s : Status) : Status :=
  if ok s || TableBuilder.paranoid_checks (table_options opts) then s else OK.
End Setters.

(** ** builder.cpp *)

Section BuildTable.
Context {E W R : Type} `{!EnvFiles E W R} `{!TableCacheOps E} `{!WritableFile W} (snappy : option SnappyLib) {I : Type} `{!Iterator I}.

(** At most [fuel] entries; the last key, and the builder. *)
Fixpoint build_loop (fuel : nat) (iter : I) (largest : bytes) (builder : Rep W) : I * bytes * Rep W :=
  match fuel with
  | O => (iter, largest, builder)
  | S fuel =>
      if Valid iter then
        let k := key iter in
        build_loop fuel (Next iter) k (TableBuilder_Add snappy k (value iter) builder)
      else (iter, largest, builder)
  end.

(** [if (s.ok()) s = file->op()]. *)
Definition file_op (op : W -> Status * W) (sf : Status * W) : Status * W := if ok (fst sf) then op (snd sf) else sf.

(** The table is written: its status, the keys and the size, the file. *)
Definition write_table (fuel : nat) (options : Options) (iter : I) (file : W) (number : Z) : Status * FileMetaData * I * W :=
  let smallest := key iter in
  let '(iter, largest, builder) := build_loop fuel iter [] (TableBuilder_make options file) in
  let '(s, builder) := TableBuilder_Finish snappy builder in
  let file_size := if ok s then FileSize builder else 0 in
  let '(s, file) := file_op Close (file_op Sync (s, TableBuilder.file builder)) in
  (s, FileMetaData_make number file_size smallest largest, iter, file).

(** With the tables on the disk, before and after. *)
Definition BuildTable (fuel : nat) (dbpath dbname : bytes) (options : Options) (iter : I) (number : Z) (disk : gmap bytes W) (env : E) : Status * FileMetaData * gmap bytes W * E :=
  let fname := TableFileName dbpath dbname FILENUMBER_LDB in
  let iter := SeekToFirst iter in
  let finish s meta iter disk env :=
    let s := if ok (status iter) then s else status iter in
    if ok s && (file_size meta >? 0) then (s, meta, disk, env)
    else let '(del, env) := EnvDeleteFile fname env in (s, meta, if ok del then delete fname disk else disk, env) in
  let none := FileMetaData_make number 0 [] [] in
  if Valid iter then
    match NewWritableFile fname env with
    | (inl s, env) => (s, none, disk, env)
    | (inr file, env) =>
        let '(s, meta, iter, file) := write_table fuel options iter file number in
        let disk := if ok s then <[fname := file]> disk else delete fname disk in
        let '(s, env) := if ok s then table_status ReadOptions_make number (file_size meta) env else (s, env) in
        finish s meta iter disk env
    end
  else finish OK none iter disk env.
End BuildTable.

(** ** The memtable becomes a table *)

Section MemCompaction.
Context {E W R : Type} `{!EnvFiles E W R} `{!EnvDirs E} `{!TableCacheOps E} `{!WritableFile W}.
Context (snappy : option SnappyLib) (ucmp : Comparator) (opts : DBOptions).
Implicit Types db : DBImpl E W.

Abbreviation dbpath db := (dbpath_ (versions_ db)).
Abbreviation dbname db := (dbname_ (versions_ db)).

(** No more entries than nodes of the skip list. *)
Definition mem_fuel (m : MemTable) : nat := S (size (SkipList.sl_heap (MemTable.table_ m))).

(** [base] is the version that the level is picked for. *)
Definition WriteLevel0Table (mem : MemTable) (edit : VersionEdit) (base : option Version) db : option (Status * VersionEdit * DBImpl E W) :=
  let '(start_micros, env) := NowMicros (env_ db) in
  let number := FILENUMBER_LDB in
  let db := set_pending ({[ number ]} ∪ pending_outputs_ db) (set_env env db) in
  let iter := MemTable.NewIterator mem in
  let '(s, meta, disk, env) := BuildTable (Iterator0 := MemTable.MemTableIterator_Iterator ucmp) snappy (mem_fuel mem) (dbpath db) (dbname db) (table_options opts) iter number (disk_ db) (env_ db) in
  let db := set_disk disk (set_env env db) in
  let db := set_pending (pending_outputs_ db ∖ {[ number ]}) db in
  '(level, edit) ←
    (if ok s && (file_size meta >? 0) then
       level ← match base with
               | Some v => PickLevelForMemTableOutput ucmp v (ExtractUserKey (smallest meta)) (ExtractUserKey (largest meta))
               | None => Some 0
               end;
       Some (level, AddFile level number (file_size meta) (smallest meta) (largest meta) edit)
     else Some (0, edit));
  let '(end_micros, env) := NowMicros (env_ db) in
  Some (s, edit, add_stats level (mkStats (i64 (end_micros - start_micros)) 0 (file_size meta)) (set_env env db)).

(** ** Files that are not needed *)

Definition keep_file (live : gset Z) (number : Z) (t : FileType) db : bool :=
  match t with
  | kLogFile => (vs_log_number_ (versions_ db) <=? number) || (number =? vs_prev_log_number_ (versions_ db))
  | kDescriptorFile => number =? 1
  | kTableFile => true
  | kTempFile => bool_decide (number ∈ live)
  | kCurrentFile | kDBLockFile | kInfoLogFile => true
  end.

Definition delete_obsolete (live : gset Z) db (filename : bytes) : DBImpl E W :=
  match ParseFileName (dbpath db) filename with
  | None => db
  | Some (number, t) =>
      if keep_file live number t db then db
      else
        let env := match t with kTableFile => Evict number (env_ db) | _ => env_ db end in
        set_env (snd (EnvDeleteFile (dbpath db ++ str "/" ++ filename) env)) db
  end.

Definition DeleteObsoleteFiles db : DBImpl E W :=
  if negb (ok (bg_error_ db)) then db
  else
    let live := AddLiveFiles (pending_outputs_ db) (versions_ db) in
    fold_left (delete_obsolete live) (snd (GetChildren (dbpath db) (dbname db) (env_ db))) db.

(** [imm_] is not null. *)
Definition CompactMemTable db : option (DBImpl E W) :=
  imm ← imm_ db;
  let id := current_ (versions_ db) in
  let base := current (versions_ db) in
  let db := set_vset (Version_Ref id (versions_ db)) db in
  '(s, edit, db) ← WriteLevel0Table imm VersionEdit_make (Some base) db;
  let db := set_vset (Version_Unref id (versions_ db)) db in
  let s := if ok s && shutting_down_ db then IOError (str "Deleting DB during memtable compaction") [] else s in
  '(s, db) ←
    (if ok s then
       let edit := SetLogNumber (logfile_number_ db) (SetPrevLogNumber 0 edit) in
       '(s, vs, env) ← LogAndApply ucmp edit (versions_ db) (env_ db);
       Some (s, set_env env (set_vset vs db))
     else Some (s, db));
  Some (if ok s then DeleteObsoleteFiles (set_mems (mem_ db) None db) else RecordBackgroundError s db).
End MemCompaction.

(** ** What is written *)

Section BuildLaws.
Context {E W R : Type} `{!EnvFiles E W R} `{!TableCacheOps E} `{!WritableFile W} `{!WritableFileLaws W} `{!EnvFilesLaws E W R} (snappy : option SnappyLib).
Context {I : Type} `{!Iterator I} (options : Options) `{!ComparatorLaws (TableBuilder.comparator options)} (Hinterval : 1 <= TableBuilder.block_restart_interval options).
Context (c : Comparator) (es : list (bytes * bytes)) (rep : I -> option nat -> Prop) `{!IteratorLaws c es rep}.

Lemma build_loop_spec fuel : forall iter i largest (b : Rep W), (length es - i < fuel)%nat -> (i < length es)%nat -> rep iter (Some i) ->
  exists iter' q, build_loop snappy fuel iter largest b = (iter', default [] (fst <$> last es), TableBuilder.add_all snappy (drop i es) b) /\ rep iter' q.
Proof using IteratorLaws0.
  induction fuel as [|fuel IH]; intros iter i largest b Hf Hi Hr; [lia|]. cbn [build_loop]. rewrite (rep_valid _ _ Hr). change (bool_decide (is_Some (Some i))) with true. cbv iota zeta.
  pose proof (rep_entry _ _ Hr) as He. rewrite (drop_S _ _ _ He). change (TableBuilder.add_all snappy ((key iter, value iter) :: drop (S i) es) b) with
    (TableBuilder.add_all snappy (drop (S i) es) (TableBuilder_Add snappy (key iter) (value iter) b)).
  pose proof (rep_next _ _ Hr) as Hn. unfold next_position in Hn. destruct (Nat.ltb_spec (S i) (length es)) as [Hlt|Hge].
  - by apply (IH (Next iter) (S i)); [lia|..].
  - exists (Next iter), None. split; [|done]. rewrite (drop_ge es) by lia. replace (last es) with (es !! i); [rewrite He|rewrite last_lookup; f_equal; lia].
    destruct fuel as [|fuel]; [done|]. cbn [build_loop]. by rewrite (rep_valid _ _ Hn).
Qed.

Lemma file_op_written op (sf : Status * W) : (forall f s f', op f = (s, f') -> written f' = written f) -> written (snd (file_op op sf)) = written (snd sf).
Proof. intros H. unfold file_op. destruct (ok (fst sf)); [|done]. destruct (op (snd sf)) as [s f'] eqn:E'. by apply (H _ s). Qed.

Lemma file_op_ok op (sf : Status * W) : ok (fst (file_op op sf)) = true -> ok (fst sf) = true.
Proof. unfold file_op. by destruct (ok (fst sf)) eqn:E'; [|rewrite E']. Qed.

(** A file that was synced and closed without an error. *)
Lemma file_op_closed `{!FileStates W} (sf : Status * W) : let '(s, f) := file_op Close (file_op Sync sf) in ok s = true -> is_synced f /\ is_closed f.
Proof.
  unfold file_op at 1. destruct (file_op Sync sf) as [s1 f1] eqn:E1. cbn [fst snd]. destruct (ok s1) eqn:Es1; [|congruence]. destruct (Close f1) as [s2 f2] eqn:E2. intros Hok.
  split; [|by eapply Close_closed]. eapply Close_synced; [exact E2|]. unfold file_op in E1. destruct sf as [s f]. cbn [fst snd] in E1. destruct (ok s) eqn:Es; [by eapply Sync_synced|]. injection E1 as <- <-. congruence.
Qed.

(** A table of all the entries, when it is written without an error. *)
Lemma write_table_spec `{!FileStates W} fuel iter file number : (length es < fuel)%nat -> rep iter (Some O) -> es <> [] -> sorted_entries (TableBuilder.comparator options) es -> written file = [] ->
  let '(s, meta, iter', file') := write_table snappy fuel options iter file number in
  (exists q, rep iter' q) /\ number = VersionEdit.number meta /\ Some (smallest meta) = fst <$> head es /\ Some (largest meta) = fst <$> last es /\
  (ok s = true -> TableBuilder.is_table snappy options es (written file') /\ file_size meta = u64 (size_of (written file')) /\ is_synced file' /\ is_closed file').
Proof using All.
  intros Hf Hr Hne Hs Hw. unfold write_table.
  assert (Hlen : (0 < length es)%nat) by (destruct es; [done|cbn; lia]).
  destruct (build_loop_spec fuel iter 0 [] (TableBuilder_make options file) ltac:(lia) Hlen Hr) as (iter' & q & -> & Hq). rewrite drop_0.
  destruct (TableBuilder_Finish snappy _) as [s b] eqn:EF. pose proof (file_op_closed (s, TableBuilder.file b)) as Hcl. destruct (file_op Close _) as [s' f'] eqn:E2.
  split; [by exists q|]. split; [done|]. cbn [smallest largest FileMetaData_make].
  assert (Hl : is_Some (last es)) by (apply last_is_Some; done). destruct Hl as [[kl vl] Hl]. rewrite Hl.
  pose proof (rep_entry _ _ Hr) as He. split; [by rewrite <- head_lookup in He; rewrite He|]. split; [done|]. intros Hok.
  assert (H1 : ok s = true).
  { apply (f_equal fst) in E2. cbn [fst] in E2. rewrite <- E2 in Hok. apply file_op_ok, file_op_ok in Hok. exact Hok. }
  assert (H2 : written f' = written (TableBuilder.file b)).
  { apply (f_equal snd) in E2. cbn [snd] in E2. rewrite <- E2, !file_op_written; [done| |]; intros f s0 f0 E0; [by eapply Sync_written|by eapply Close_written]. }
  rewrite H1, H2. destruct (TableBuilder.builder_writes snappy options es file s b Hinterval Hs Hw EF H1) as (T1 & T2 & _). split; [done|]. split; [done|by apply Hcl].
Qed.
End BuildLaws.

(** *** Setting a field *)

Section FlushLaws.
Context {E W R : Type} `{!EnvFiles E W R} `{!EnvDirs E} `{!TableCacheOps E} `{!WritableFile W} `{!WritableFileLaws W} `{!FileStates W} `{!EnvFilesLaws E W R}.
Context (snappy : option SnappyLib) (ucmp : Comparator) `{!ComparatorLaws ucmp} (opts : DBOptions).
Implicit Types db : DBImpl E W.

Context (Hcmp : TableBuilder.comparator (table_options opts) = InternalKeyComparator ucmp) (Hinterval : 1 <= TableBuilder.block_restart_interval (table_options opts)).

#[local] Instance mem_iterator : Iterator MemTableIterator := MemTable.MemTableIterator_Iterator ucmp.

Abbreviation MemTable_rep := (MemTable.mem_rep ucmp).

(** The current version has a reference, and room for one more. *)
Definition referenced (vs : VersionSet W) : Prop := Forall (fun n => v_id n = current_ vs -> 1 <= v_refs n < 2 ^ 31 - 1) (VersionSet.versions_ vs).

Lemma Ref_Unref (vs : VersionSet W) : referenced vs -> Version_Unref (current_ vs) (Version_Ref (current_ vs) vs) = vs.
Proof using.
  intros Hr. unfold Version_Unref, Version_Ref. cbn [VersionSet.versions_ set_versions current_]. 
  assert (El : base.filter (fun n => ~ (v_id n = current_ vs /\ v_refs n = 0)) (map (fun n => if (v_id n =? current_ vs)%nat then mkNode (v_id n) (i32 (v_refs n - 1)) (v_version n) else n)
    (map (fun n => if (v_id n =? current_ vs)%nat then mkNode (v_id n) (i32 (v_refs n + 1)) (v_version n) else n) (VersionSet.versions_ vs))) = VersionSet.versions_ vs).
  { unfold referenced in Hr. induction Hr as [|n l Hn Hl IH]; [done|]. cbn [map]. destruct (Nat.eqb_spec (v_id n) (current_ vs)) as [He|He]; cbn [v_id v_refs v_version].
    - specialize (Hn He). rewrite (proj2 (Nat.eqb_eq _ _) He). rewrite (i32_small (v_refs n + 1)), (i32_small (v_refs n + 1 - 1)) by lia. rewrite filter_cons_True by (cbn; lia).
      rewrite IH. f_equal. destruct n; cbn. f_equal. lia.
    - rewrite (proj2 (Nat.eqb_neq _ _) He). rewrite filter_cons_True by tauto. by rewrite IH. }
  rewrite El. by destruct vs.
Qed.

Lemma mem_fuel_enough m es : MemTable_rep m es -> (length es < mem_fuel m)%nat.
Proof using ComparatorLaws0.
  intros [_ (ls & Hwf & Hk)]. unfold mem_fuel. rewrite <- (MemTable.rep_length ucmp m es ls Hwf Hk). pose proof (MemTable.KeyComparator_order ucmp) as Hord. pose proof (SkipList.level_length _ _ _ Hwf 0). lia.
Qed.

(** The table that the entries of a memtable make, in a file that was synced and closed. *)
Definition table_of (es : list MemTable.entry) (meta : FileMetaData) (f : W) : Prop :=
  TableBuilder.is_table snappy (table_options opts) (map MemTable.e_pair es) (written f) /\ file_size meta = u64 (size_of (written f)) /\
  number meta = FILENUMBER_LDB /\ Some (smallest meta) = MemTable.internal_key <$> head es /\ Some (largest meta) = MemTable.internal_key <$> last es /\
  is_synced f /\ is_closed f.

Lemma is_table_nonempty contents kvs : TableBuilder.is_table snappy (table_options opts) kvs contents -> 0 < size_of contents.
Proof using.
  intros (blocks & keys & _ & _ & _ & _ & ->). unfold TableBuilder.table_file. rewrite !size_of_app.
  pose proof (size_of_nonneg (TableBuilder.before_meta snappy (table_options opts) blocks)). pose proof (size_of_nonneg (TableBuilder.disk snappy (table_options opts) (TableBuilder.meta_raw snappy (table_options opts) blocks))).
  pose proof (size_of_nonneg (TableBuilder.disk snappy (table_options opts) (TableBuilder.index_raw snappy (table_options opts) keys blocks))).
  unfold size_of at 4. rewrite Format.length_Footer. unfold Format.kEncodedLength. lia.
Qed.

(** The disk changes under one name at most. *)
Lemma BuildTable_mem m es dbpath dbname disk env : MemTable_rep m es -> let fname := TableFileName dbpath dbname FILENUMBER_LDB in
  let '(s, meta, disk', env') := BuildTable (Iterator0 := MemTable.MemTableIterator_Iterator ucmp) snappy (mem_fuel m) dbpath dbname (table_options opts) (MemTable.NewIterator m) FILENUMBER_LDB disk env in
  (forall name, name <> fname -> disk' !! name = disk !! name) /\
  match es with
  | [] => s = OK /\ file_size meta = 0 /\ (disk' = disk \/ disk' = delete fname disk)
  | _ => ok s = true -> exists f, table_of es meta f /\ (size_of (written f) < 2 ^ 64 -> disk' = <[fname := f]> disk)
  end.
Proof using All.
  intros Hm fname. assert (Hlaws : IteratorLaws (InternalKeyComparator ucmp) (map MemTable.e_pair es) (MemTable.iterator_rep ucmp m es)) by exact (MemTable.MemTableIterator_laws ucmp m es Hm).
  change (MemTable.MemTableIterator_Iterator ucmp) with mem_iterator.
  assert (Hsorted : sorted_entries (TableBuilder.comparator (table_options opts)) (map MemTable.e_pair es)).
  { rewrite Hcmp. unfold sorted_entries. apply StronglySorted_map. exact (MemTable.rep_sorted ucmp m es Hm). }
  pose proof (rep_first _ _ (MemTable.NewIterator_rep ucmp m es Hm)) as Hr. unfold BuildTable. cbv zeta. fold fname.
  pose proof (rep_valid _ _ Hr) as Hv. destruct es as [|e es'].
  - cbn [map first_position] in Hv. rewrite Hv. cbn [is_Some]. change (bool_decide (is_Some (@None nat))) with false. cbv iota.
    pose proof (rep_status _ _ Hr) as Hst. rewrite Hst. cbn [file_size FileMetaData_make]. change (ok OK && (0 >? 0)) with false. cbv iota. destruct (EnvDeleteFile _ env) as [del env'].
    split; [intros name Hn; destruct (ok del); [by rewrite lookup_delete_ne|done]|]. split; [done|]. split; [done|]. destruct (ok del); [by right|by left].
  - change (first_position (map MemTable.e_pair (e :: es'))) with (Some O) in Hr, Hv. rewrite Hv. change (bool_decide (is_Some (Some O))) with true. cbv iota.
    destruct (NewWritableFile _ env) as [[s0|file] env1] eqn:Ef.
    { apply NewWritableFile_error in Ef. split; [done|congruence]. }
    apply NewWritableFile_empty in Ef. rewrite Hcmp in Hsorted.
    assert (Hlaws' : ComparatorLaws (TableBuilder.comparator (table_options opts))) by (rewrite Hcmp; exact _).
    pose proof (write_table_spec snappy (table_options opts) Hinterval (InternalKeyComparator ucmp) (map MemTable.e_pair (e :: es')) (MemTable.iterator_rep ucmp m (e :: es')) (mem_fuel m) (SeekToFirst (MemTable.NewIterator m)) file FILENUMBER_LDB) as Hw.
    rewrite length_map in Hw. specialize (Hw (mem_fuel_enough m _ Hm) Hr ltac:(done) ltac:(by rewrite Hcmp) Ef).
    destruct (write_table snappy (mem_fuel m) (table_options opts) _ file FILENUMBER_LDB) as [[[s meta] iter'] file'].
    destruct Hw as ((q & Hq) & Hnum & Hsm & Hla & Hok). set (disk1 := if ok s then <[fname := file']> disk else _).
    assert (Hd1 : forall name, name <> fname -> disk1 !! name = disk !! name) by (intros name Hn; subst disk1; destruct (ok s); [by rewrite lookup_insert_ne|by rewrite lookup_delete_ne]).
    destruct (if ok s then _ else (s, env1)) as [s2 env2] eqn:E2. assert (Hs2 : ok s2 = true -> ok s = true) by (destruct (ok s) eqn:Eos; [done|]; injection E2 as <- <-; congruence).
    rewrite (rep_status _ _ Hq). cbv iota. change (ok OK) with true. cbv iota.
    assert (Ht : ok s2 = true -> table_of (e :: es') meta file').
    { intros Hs. destruct (Hok (Hs2 Hs)) as (T1 & T2 & T3 & T4). split; [done|]. split; [done|]. split; [done|]. rewrite Hsm, Hla. split; [done|]. split; [|done].
      change (map MemTable.e_pair (e :: es')) with (MemTable.e_pair <$> (e :: es')). rewrite fmap_last. by destruct (last (e :: es')). }
    destruct (ok s2 && (file_size meta >? 0)) eqn:Ek.
    + split; [exact Hd1|]. intros Hs. exists file'. split; [by apply Ht|]. intros _. subst disk1. by rewrite (Hs2 Hs).
    + destruct (EnvDeleteFile _ env2) as [del env3]. split; [intros name Hn; destruct (ok del); [by rewrite lookup_delete_ne, Hd1|by apply Hd1]|].
      intros Hs. exists file'. split; [by apply Ht|]. intros Hsz. exfalso. rewrite Hs in Ek. cbn [andb] in Ek. destruct (Ht Hs) as (T1 & T2 & _). apply is_table_nonempty in T1.
      rewrite T2, u64_small in Ek by lia. destruct (Z.gtb_spec (size_of (written file')) 0); [done|lia].
Qed.

(** Where the table of a memtable goes: no level down to it has a file that shares a
    user key with the table, unless it is level 0. *)
Definition placed (base : option Version) (meta : FileMetaData) (level : Z) : Prop :=
  match base with
  | None => level = 0
  | Some v => 0 <= level <= kMaxMemCompactLevel /\
      (level = 0 \/ forall l, 0 <= l <= level -> untouched ucmp v l (Some (ExtractUserKey (smallest meta))) (Some (ExtractUserKey (largest meta))))
  end.

(** The name of all tables. *)
Definition table_name db : bytes := TableFileName (dbpath_ (versions_ db)) (dbname_ (versions_ db)) FILENUMBER_LDB.

Lemma WriteLevel0Table_spec m es edit base db : MemTable_rep m es -> (forall v, base = Some v -> searchable ucmp v) ->
  exists s edit' db' env stats, WriteLevel0Table snappy ucmp opts m edit base db = Some (s, edit', db') /\ deleted_files_ edit' = deleted_files_ edit /\
    (exists disk, db' = set_stats stats (set_pending (({[ FILENUMBER_LDB ]} ∪ pending_outputs_ db) ∖ {[ FILENUMBER_LDB ]}) (set_disk disk (set_env env db))) /\
     (forall name, name <> table_name db -> disk !! name = disk_ db !! name) /\
     match es with
     | [] => s = OK /\ edit' = edit /\ (disk = disk_ db \/ disk = delete (table_name db) (disk_ db))
     | _ => ok s = true -> exists f meta, table_of es meta f /\
              (size_of (written f) < 2 ^ 64 -> disk = <[table_name db := f]> (disk_ db) /\ exists level, placed base meta level /\ edit' = AddFile level FILENUMBER_LDB (file_size meta) (smallest meta) (largest meta) edit)
     end).
Proof using All.
  intros Hm Hbase. unfold WriteLevel0Table. destruct (NowMicros (env_ db)) as [t1 env1]. cbv zeta.
  pose proof (BuildTable_mem m es (dbpath_ (versions_ db)) (dbname_ (versions_ db)) (disk_ db) env1 Hm) as Hb. cbv zeta in Hb. change (TableFileName _ _ _) with (table_name db) in Hb.
  change (env_ (set_pending _ (set_env env1 db))) with env1. change (versions_ (set_pending _ (set_env env1 db))) with (versions_ db). change (disk_ (set_pending _ (set_env env1 db))) with (disk_ db).
  destruct (BuildTable _ _ _ _ _ _ _ _ env1) as [[[s meta] disk] env2]. destruct Hb as [Hd Hb].
  assert (Hlevel : exists level, match base with Some v => PickLevelForMemTableOutput ucmp v (ExtractUserKey (smallest meta)) (ExtractUserKey (largest meta)) | None => Some 0 end = Some level /\ placed base meta level).
  { destruct base as [v|]; [|by exists 0]. destruct (memtable_output_level ucmp v (ExtractUserKey (smallest meta)) (ExtractUserKey (largest meta)) (Hbase v eq_refl)) as (level & E' & H1 & H2).
    exists level. split; [done|]. by split. }
  destruct Hlevel as (level & El & Hp).
  destruct (ok s && (file_size meta >? 0)) eqn:Ek.
  - rewrite El. cbn [mbind option_bind]. change (env_ (set_pending _ _)) with env2. destruct (NowMicros env2) as [t2 env3].
    eexists _, _, _, env3, _. split; [reflexivity|]. split; [done|]. exists disk. split; [reflexivity|]. split; [exact Hd|]. destruct es as [|e es'].
    + destruct Hb as (_ & Hz & _). apply andb_true_iff in Ek as [_ Ek]. by rewrite Hz in Ek.
    + intros Hs. destruct (Hb Hs) as (f & Ht & E'). exists f, meta. split; [done|]. intros Hsz. split; [by apply E'|]. by exists level.
  - cbn [mbind option_bind]. change (env_ (set_pending _ _)) with env2. destruct (NowMicros env2) as [t2 env3].
    eexists _, _, _, env3, _. split; [reflexivity|]. split; [done|]. exists disk. split; [reflexivity|]. split; [exact Hd|]. destruct es as [|e es'].
    + by destruct Hb as (-> & _ & ?).
    + intros Hs. destruct (Hb Hs) as (f & Ht & E'). exists f, meta. split; [done|]. intros Hsz. exfalso.
      destruct Ht as (T1 & T2 & _). apply is_table_nonempty in T1. rewrite Hs in Ek. cbn [andb] in Ek. rewrite T2, u64_small in Ek by lia. destruct (Z.gtb_spec (size_of (written f)) 0); [done|lia].
Qed.

Lemma DeleteObsoleteFiles_env db : exists env, DeleteObsoleteFiles db = set_env env db.
Proof using.
  unfold DeleteObsoleteFiles. destruct (negb _); [exists (env_ db); by destruct db|]. generalize (AddLiveFiles (pending_outputs_ db) (versions_ db)). intros live.
  generalize (snd (GetChildren (dbpath_ (versions_ db)) (dbname_ (versions_ db)) (env_ db))). intros names. revert db. induction names as [|n names IH]; intros db; [exists (env_ db); by destruct db|].
  cbn [fold_left]. assert (H1 : exists env, delete_obsolete live db n = set_env env db).
  { unfold delete_obsolete. destruct (ParseFileName _ n) as [[num t]|]; [|exists (env_ db); by destruct db]. destruct (keep_file live num t db); [exists (env_ db); by destruct db|]. cbv zeta. eauto. }
  destruct H1 as (env & ->). destruct (IH (set_env env db)) as (env' & ->). by exists env'.
Qed.

(** What the version set relies on to write its manifest. *)
Definition manifest_ok (vs : VersionSet W) : Prop :=
  nodes_below vs /\ referenced vs /\ forall log, descriptor_log_ vs = Some log -> log_ready log.
End FlushLaws.

(** ** Properties *)

(** C14: A compaction of the memtable returns, in a build without assertions.  It drops the
    memtable only when all of its entries, in order, are in a table file that was synced
    and closed without an error, that has taken the place of the file of that name, and
    that the current version has just gained, with its bounds, on a level with no newer
    neighbour; the version then has the number of the current log, before which no log is
    needed.  A memtable without entries adds no table, and its compaction may have deleted
    the file.  Otherwise the memtable stays, the version is as before, and the error is
    kept, which stops further background work. *)
Theorem compact_memtable {E W R : Type} `{!EnvFiles E W R} `{!EnvDirs E} `{!TableCacheOps E} `{!WritableFile W} `{!WritableFileLaws W} `{!FileStates W} `{!EnvFilesLaws E W R}
    (snappy : option SnappyLib) (ucmp : Comparator) `{!ComparatorLaws ucmp} (opts : DBOptions) (db : DBImpl E W) imm es :
  TableBuilder.comparator (table_options opts) = InternalKeyComparator ucmp -> 1 <= TableBuilder.block_restart_interval (table_options opts) ->
  imm_ db = Some imm -> MemTable.mem_rep ucmp imm es -> ok (bg_error_ db) = true -> manifest_ok (versions_ db) -> searchable ucmp (current (versions_ db)) ->
  exists db', CompactMemTable snappy ucmp opts db = Some db' /\ mem_ db' = mem_ db /\ log_ db' = log_ db /\
    match imm_ db' with
    | None => bg_error_ db' = bg_error_ db /\ exists edit, current (versions_ db') = next_version ucmp edit (versions_ db) /\ deleted_files_ edit = [] /\
        vs_log_number_ (versions_ db') = logfile_number_ db /\ vs_prev_log_number_ (versions_ db') = 0 /\
        match es with
        | [] => new_files_ edit = [] /\ (disk_ db' = disk_ db \/ disk_ db' = delete (table_name db) (disk_ db))
        | _ => exists f meta, table_of snappy opts es meta f /\
                 (size_of (written f) < 2 ^ 64 -> disk_ db' = <[table_name db := f]> (disk_ db) /\ exists level, placed ucmp (Some (current (versions_ db))) meta level /\
                   new_files_ edit = [(level, FileMetaData_make FILENUMBER_LDB (file_size meta) (smallest meta) (largest meta))])
        end
    | Some m => m = imm /\ ok (bg_error_ db') = false /\ current (versions_ db') = current (versions_ db)
    end.
Proof.
  intros Hcmp Hi Himm Hm Hbg (Hn & Href & Hlog) Hsearch. unfold CompactMemTable. rewrite Himm. cbn [mbind option_bind].
  set (db0 := set_vset _ db).
  destruct (WriteLevel0Table_spec (R := R) snappy ucmp opts Hcmp Hi imm es VersionEdit_make (Some (current (versions_ db))) db0 Hm) as (s & edit & db1 & env & stats & -> & Hdel & disk & -> & _ & Hw); [intros v [= <-]; done|].
  cbn [mbind option_bind]. cbv zeta. set (db1 := set_stats stats _). change (versions_ db1) with (Version_Ref (current_ (versions_ db)) (versions_ db)). rewrite (Ref_Unref (versions_ db) Href).
  set (db2 := set_vset (versions_ db) db1). change (disk_ db0) with (disk_ db) in Hw. change (table_name db0) with (table_name db) in Hw.
  assert (Hfail : forall (st : Status) (d : DBImpl E W) (P : DBImpl E W -> Prop), ok st = false -> imm_ d = Some imm -> mem_ d = mem_ db -> log_ d = log_ db -> bg_error_ d = bg_error_ db ->
    current (versions_ d) = current (versions_ db) -> exists db', Some (RecordBackgroundError st d) = Some db' /\ mem_ db' = mem_ db /\ log_ db' = log_ db /\
      match imm_ db' with None => P db' | Some m => m = imm /\ ok (bg_error_ db') = false /\ current (versions_ db') = current (versions_ db) end).
  { intros st d P F1 F2 F3 F4 F5 F6. eexists. split; [done|]. unfold RecordBackgroundError. rewrite F5, Hbg. cbn [mem_ log_ imm_ versions_ bg_error_ set_bg_error]. by rewrite F2, F3, F4, F6. }
  destruct (ok s) eqn:Hs.
  2:{ cbn [andb]. rewrite Hs. cbn [mbind option_bind]. rewrite Hs. by apply Hfail. }
  cbn [andb]. change (shutting_down_ db2) with (shutting_down_ db). destruct (shutting_down_ db).
  { change (ok (IOError (str "Deleting DB during memtable compaction") [])) with false. cbv iota. cbn [mbind option_bind]. by apply Hfail. }
  rewrite Hs. set (edit' := SetLogNumber _ _). change (env_ db2) with env. change (versions_ db2) with (versions_ db).
  destruct (LogAndApply_returns (R := R) ucmp edit' (versions_ db) env Hlog) as [[[s' vs'] env'] HL]. rewrite HL. cbn [mbind option_bind].
  destruct (LogAndApply_spec (R := R) ucmp edit' (versions_ db) env s' vs' env' HL Hn) as (_ & _ & _ & Hr). destruct (ok s') eqn:Hs'.
  2:{ apply Hfail; try done. exact (proj1 Hr). }
  destruct Hr as (Hc & Hl & Hp & _). set (db3 := set_mems _ None _). destruct (DeleteObsoleteFiles_env db3) as (env'' & ->).
  eexists. split; [done|]. split; [done|]. split; [done|]. cbn [imm_ set_env]. change (imm_ db3) with (@None MemTable). cbv iota. split; [done|]. exists edit'. split; [exact Hc|].
  assert (Hed : deleted_files_ edit' = deleted_files_ edit /\ new_files_ edit' = new_files_ edit) by done. destruct Hed as [-> Hnew]. rewrite Hnew.
  destruct es as [|e es'].
  - destruct Hw as (_ & -> & Hd). done.
  - destruct (Hw eq_refl) as (f & meta & Ht & Hlev). split; [exact Hdel|]. split; [exact Hl|]. split; [exact Hp|]. exists f, meta. split; [done|]. intros Hsz.
    destruct (Hlev Hsz) as (Hd & level & Hpl & ->). split; [exact Hd|]. by exists level.
Qed.

(** *** An example *)

(** A directory without files, and a table cache that opens any table. *)
#[export] Instance bytes_EnvDirs : EnvDirs bytes := {|
  GetChildren _ _ _ := (OK, []);
  FileExists _ _ := false;
  CreateDir _ env := env;
  DeleteDir _ env := env;
  LockFile _ env := (OK, env);
  UnlockFile _ env := env;
  NowMicros env := (0, env)
|}.
#[export] Instance bytes_TableCacheOps : TableCacheOps bytes := {| table_status _ _ _ env := (OK, env); Evict _ env := env |}.

Definition sample_db_options : DBOptions := mkDBOptions
  (TableBuilder.mkOptions (InternalKeyComparator BytewiseComparator) 4096 16 Format.kNoCompression None false) true false (4 * 1048576) 1000 false false false.
Definition sample_imm : MemTable := default (MemTable.MemTable_make Arena.next_array)
  (MemTable.add_all BytewiseComparator Arena.next_array MemTable.sample_writes (Some (MemTable.MemTable_make Arena.next_array))).

(** The set of the example, with a manifest of which it is known what a crash leaves. *)
Definition on_handles (vs : VersionSet bytes) : VersionSet Handle :=
  mkVersionSet (dbpath_ vs) (dbname_ vs) (vs_next_file_number_ vs) (manifest_file_number_ vs) (vs_last_sequence_ vs) (vs_log_number_ vs) (vs_prev_log_number_ vs)
    ((fun w => mkWriter (mkHandle (dest w) (length (dest w)) true) (block_offset w) (type_crc w)) <$> descriptor_log_ vs) (VersionSet.versions_ vs) (current_ vs) (compact_pointer_ vs) (seeks_ vs) (unused vs).

Lemma current_on_handles vs : current (on_handles vs) = current vs.
Proof. reflexivity. Qed.

#[local] Instance handle_EnvFiles : EnvFiles bytes Handle bytes := {|
  NewWritableFile _ env := (inr (mkHandle [] 0 true), []);
  NewAppendableFile _ env := (inr (mkHandle env 0 true), env);
  NewSequentialFile _ env := (inr env, env);
  GetFileSize _ env := inr (size_of env);
  EnvDeleteFile _ _ := (OK, [])
|}.
#[local] Instance handle_EnvFilesLaws : EnvFilesLaws bytes Handle bytes.
Proof. split; [done|]. cbn. intros name env f env' [= <- _]. done. Qed.

Definition empty_mem : MemTable := MemTable.MemTable_make Arena.next_array.
Definition flushing_db : DBImpl bytes Handle := set_mems (Some empty_mem) (Some sample_imm) (set_vset (on_handles second_set) (DBImpl_make (str "/db/") (str "test") [])).

Lemma sample_set_files n (fs : list FilePtr) : files_ (current second_set) !! n = Some fs -> size_of fs < 2 ^ 31 /\ ((0 < n)%nat -> level_ok BytewiseComparator fs).
Proof.
  assert (H : Forall (fun fs => size_of fs < 2 ^ 31 /\ level_ok BytewiseComparator fs) (files_ (current second_set))).
  { let l := eval vm_compute in (files_ (current second_set)) in replace (files_ (current second_set)) with l by (vm_compute; reflexivity).
    repeat (apply Forall_cons; split); [..|constructor]; (split; [vm_compute; reflexivity|]); (split; [repeat constructor; (eexists; vm_compute; reflexivity) || (vm_compute; done)|repeat constructor]). }
  intros Hn. rewrite Forall_lookup in H. destruct (H _ _ Hn). by split.
Qed.

Lemma sample_set_searchable : searchable BytewiseComparator (current (on_handles second_set)).
Proof.
  rewrite current_on_handles. assert (H : forall l, size_of (level_files (current second_set) l) < 2 ^ 31 /\ (0 < l -> level_ok BytewiseComparator (level_files (current second_set) l))).
  { intros l. unfold level_files. rewrite nth_lookup. destruct (files_ (current second_set) !! Z.to_nat l) as [fs|] eqn:E; cbn [default].
    - destruct (sample_set_files _ _ E) as [H1 H2]. split; [done|]. intros Hl. apply H2. lia.
    - split; [done|]. intros _. split; constructor. }
  split; intros l; apply H.
Qed.

Lemma sample_set_ok : manifest_ok (on_handles second_set).
Proof.
  assert (H : forallb (fun n => (v_id n <? unused (on_handles second_set))%nat && (1 <=? v_refs n) && (v_refs n <? 2 ^ 31 - 1)) (VersionSet.versions_ (on_handles second_set)) = true) by (vm_compute; reflexivity).
  assert (Hlog : forall log, descriptor_log_ (on_handles second_set) = Some log -> log_ready log).
  { destruct (Logged_ok _ _ _ sample_logged) as (_ & (log & Hlog & HW) & _). apply Written_ready in HW. unfold on_handles, descriptor_log_ at 1. rewrite Hlog. intros ? Hl. apply (inj Some) in Hl as <-. exact HW. }
  rewrite forallb_forall in H. split; [|split; [|exact Hlog]]; apply Forall_forall; intros n Hn; specialize (H n (proj1 (list_elem_of_In _ _) Hn));
    rewrite !andb_true_iff, Nat.ltb_lt, Z.leb_le, Z.ltb_lt in H; lia.
Qed.

Lemma compact_memtable_witness : exists es db', es ≡ₚ MemTable.sample_writes /\
  CompactMemTable None BytewiseComparator sample_db_options flushing_db = Some db' /\ imm_ db' = None /\ exists f meta, table_of None sample_db_options es meta f /\ (size_of (written f) < 2 ^ 64 -> disk_ db' = {[ str "/db/test.ldb" := f ]}).
Proof.
  destruct MemTable.sample_writes_ok as (H1 & H2 & H3).
  destruct (MemTable.add_all_rep BytewiseComparator Arena.next_array MemTable.sample_writes [] _ (MemTable.make_rep BytewiseComparator Arena.next_array) H1 H2 H3) as (m & es & E & Hm & Hp).
  assert (Hlen : length es = 3%nat) by (rewrite Hp; reflexivity). assert (Hsample : sample_imm = m) by (unfold sample_imm; by rewrite E). rewrite <- Hsample in Hm.
  destruct (compact_memtable (R := bytes) None BytewiseComparator sample_db_options flushing_db sample_imm es) as (db' & E1 & _ & _ & H).
  - reflexivity.
  - cbn. lia.
  - reflexivity.
  - exact Hm.
  - reflexivity.
  - exact sample_set_ok.
  - exact sample_set_searchable.
  - exists es, db'. split; [by rewrite Hp|]. split; [exact E1|].
    assert (Himm : imm_ <$> CompactMemTable None BytewiseComparator sample_db_options flushing_db = Some None) by (vm_compute; reflexivity).
    rewrite E1 in Himm. cbn [fmap option_fmap option_map] in Himm. apply (inj Some) in Himm. rewrite Himm in H. split; [done|]. destruct H as (_ & edit & _ & _ & _ & _ & H).
    destruct es as [|e es]; [discriminate Hlen|]. destruct H as (f & meta & Ht & Hc). exists f, meta. split; [exact Ht|]. intros Hsz. destruct (Hc Hsz) as (-> & _).
    assert (Hname : table_name flushing_db = str "/db/test.ldb") by (vm_compute; reflexivity). by rewrite Hname.
Defined.

(** A memtable without entries, as a manual compaction makes one, deletes the file of the
    database's tables. *)
Lemma empty_flush_deletes_table :
  let db := set_disk {[ str "/db/test.ldb" := mkHandle (str "a table") 7 false ]} (set_mems (Some empty_mem) (Some empty_mem) flushing_db) in
  (fun db => (imm_ db, bg_error_ db, disk_ db)) <$> CompactMemTable None BytewiseComparator sample_db_options db = Some (None, OK, ∅).
Proof. vm_compute. reflexivity. Qed.
