(* ===== verification/CompactionWork.v ===== *)
(** * CompactionWork: merging tables

    Models the compactions of [db/db_impl.cpp]: the loop that merges the inputs of a
    compaction into new tables and drops what no reader can see, the installation of its
    results and the background call that chooses between compactions.  While the mutex is
    free other threads run: [others n] is what they do to the state before the [n]th
    pass of the loop.  The outer [option] is [None] where a step on which the loop relies
    would not return, and when the fuel is used up. *)

From stdpp Require Import sorting.
From S2P Require Import Prelude Coding Slice Comparator DbFormat VersionEdit Iterator Env Log FileName Version VersionSet Compaction Snapshot DBImpl.
From S2P Require MemTable TableBuilder Format Table.
Import MemTable(entry, e_key, e_seq, e_type, e_value, e_pair, internal_key, fits, cmp, visible, newest, is_newest, distinct).
Import TableBuilder(Options, Rep, TableBuilder_make, TableBuilder_Add, TableBuilder_Finish, Abandon, FileSize, NumEntries).
Import Format(SnappyLib).
Import Table(ReadOptions_make).

(** An output; [o_file] is its file once that is closed. *)
Record Output (W : Type) : Type := mkOutput { o_number : Z; o_file_size : Z; o_smallest : bytes; o_largest : bytes; o_file : option W }.
Arguments mkOutput {W}.
Arguments o_number {W}.
Arguments o_file_size {W}.
Arguments o_smallest {W}.
Arguments o_largest {W}.
Arguments o_file {W}.

(** The builder has the output file. *)
Record CompactionState (W : Type) : Type := mkCompactionState {
  compaction : Compaction;
  smallest_snapshot : Z;
  outputs : list (Output W);
  builder : option (Rep W);
  total_bytes : Z
}.
Arguments mkCompactionState {W}.
Arguments compaction {W}.
Arguments smallest_snapshot {W}.
Arguments outputs {W}.
Arguments builder {W}.
Arguments total_bytes {W}.

Definition CompactionState_make {W} (c : Compaction) : CompactionState W := mkCompactionState c 0 [] None 0.

(** The variables of the loop: [current_user_key] is [None] without
    [has_current_user_key]. *)
Record Locals : Type := mkLocals { current_user_key : option bytes; last_sequence_for_key : Z }.
Definition Locals_make : Locals := mkLocals None kMaxSequenceNumber.

Section Work.
Context {E W R : Type} `{!EnvFiles E W R} `{!EnvDirs E} `{!TableCacheOps E} `{!WritableFile W} {I : Type} `{!Iterator I}.
Context (snappy : option SnappyLib) (ucmp : Comparator) (opts : DBOptions).
Implicit Types db : DBImpl E W.
Implicit Types cs : CompactionState W.

Definition set_compaction (c : Compaction) cs : CompactionState W := mkCompactionState c (smallest_snapshot cs) (outputs cs) (builder cs) (total_bytes cs).
Definition set_smallest (n : Z) cs : CompactionState W := mkCompactionState (compaction cs) n (outputs cs) (builder cs) (total_bytes cs).
Definition set_outputs (l : list (Output W)) (b : option (Rep W)) (total : Z) cs : CompactionState W :=
  mkCompactionState (compaction cs) (smallest_snapshot cs) l b total.

(** A change of [*compact->current_output()]. *)
Definition on_current (f : Output W -> Output W) (l : list (Output W)) : list (Output W) := alter f (pred (length l)) l.
Definition current_number cs : Z := match last (outputs cs) with Some o => o_number o | None => 0 end.

(** *** Output files *)

Definition OpenCompactionOutputFile cs db : Status * CompactionState W * DBImpl E W :=
  let file_number := FILENUMBER_LDB in
  let db := set_pending ({[ file_number ]} ∪ pending_outputs_ db) db in
  let outputs := outputs cs ++ [mkOutput file_number 0 [] [] None] in
  let fname := TableFileName (dbpath_ (versions_ db)) (dbname_ (versions_ db)) file_number in
  match NewWritableFile fname (env_ db) with
  | (inl s, env) => (s, set_outputs outputs (builder cs) (total_bytes cs) cs, set_env env db)
  | (inr file, env) => (OK, set_outputs outputs (Some (TableBuilder_make (table_options opts) file)) (total_bytes cs) cs, set_disk (delete fname (disk_ db)) (set_env env db))
  end.

(** [b] is the builder. *)
Definition FinishCompactionOutputFile (input : I) (b : Rep W) cs db : Status * CompactionState W * DBImpl E W :=
  let output_number := current_number cs in
  let s := status input in
  let current_entries := NumEntries b in
  let '(s, b) := if ok s then TableBuilder_Finish snappy b else (s, Abandon b) in
  let current_bytes := FileSize b in
  let '(s, file) := file_op Close (file_op Sync (s, TableBuilder.file b)) in
  let cs := set_outputs (on_current (fun o => mkOutput (o_number o) current_bytes (o_smallest o) (o_largest o) (Some file)) (outputs cs)) None (u64 (total_bytes cs + current_bytes)) cs in
  let fname := TableFileName (dbpath_ (versions_ db)) (dbname_ (versions_ db)) output_number in
  let db := set_disk (if ok s then <[fname := file]> (disk_ db) else delete fname (disk_ db)) db in
  if ok s && (current_entries >? 0) then
    let '(s, env) := table_status ReadOptions_make output_number current_bytes (env_ db) in (s, cs, set_env env db)
  else (s, cs, db).

Definition finish_builder (input : I) cs db : Status * CompactionState W * DBImpl E W :=
  match builder cs with Some b => FinishCompactionOutputFile input b cs db | None => (OK, cs, db) end.

(** *** Entries *)

(** Whether the entry is dropped. *)
Definition decide_drop (k : bytes) (l : Locals) cs : option (bool * Locals * CompactionState W) :=
  match ParseInternalKey k with
  | None => Some (false, mkLocals None kMaxSequenceNumber, cs)
  | Some ikey =>
      let same := match current_user_key l with Some u => match Compare ucmp (user_key ikey) u with Eq => true | _ => false end | None => false end in
      let l := if same then l else mkLocals (Some (user_key ikey)) kMaxSequenceNumber in
      '(drop, cs) ←
        (if last_sequence_for_key l <=? smallest_snapshot cs then Some (true, cs)
         else if (type ikey =? value_type_code kTypeDeletion) && (sequence ikey <=? smallest_snapshot cs) then
           '(base, c) ← IsBaseLevelForKey ucmp (user_key ikey) (compaction cs);
           Some (base, set_compaction c cs)
         else Some (false, cs));
      Some (drop, mkLocals (current_user_key l) (sequence ikey), cs)
  end.

(** The entry goes into the output. *)
Definition emit (input : I) cs db : Status * CompactionState W * DBImpl E W :=
  let k := key input in
  let '(s, cs, db) := match builder cs with None => OpenCompactionOutputFile cs db | Some _ => (OK, cs, db) end in
  match builder cs with
  | Some b =>
      if ok s then
        let set_keys o := mkOutput (o_number o) (o_file_size o) (if NumEntries b =? 0 then k else o_smallest o) k (o_file o) in
        let b := TableBuilder_Add snappy k (value input) b in
        let cs := set_outputs (on_current set_keys (outputs cs)) (Some b) (total_bytes cs) cs in
        if FileSize b >=? max_output_file_size_ (compaction cs) then FinishCompactionOutputFile input b cs db else (OK, cs, db)
      else (s, cs, db)
  | None => (s, cs, db)
  end.

(** *** The loop *)

Context (others : nat -> DBImpl E W -> DBImpl E W).

Fixpoint compaction_loop (fuel n : nat) (input : I) (l : Locals) cs db : option (Status * I * CompactionState W * DBImpl E W) :=
  match fuel with
  | O => None
  | S fuel =>
      let db := others n db in
      if Valid input && negb (shutting_down_ db) then
        db ← match imm_ db with Some _ => CompactMemTable snappy ucmp opts db | None => Some db end;
        let k := key input in
        let '(stop, c) := ShouldStopBefore ucmp k (compaction cs) in
        let cs := set_compaction c cs in
        let '(s, cs, db) := if stop then finish_builder input cs db else (OK, cs, db) in
        if ok s then
          '(drop, l, cs) ← decide_drop k l cs;
          let '(s, cs, db) := if drop : bool then (OK, cs, db) else emit input cs db in
          if ok s then compaction_loop fuel (S n) (Next input) l cs db
          else Some (s, input, cs, db)
        else Some (s, input, cs, db)
      else Some (OK, input, cs, db)
  end.

Definition input_bytes (c : Compaction) : Z :=
  fold_left (fun n (f : FilePtr) => i64 (n + file_size f)) (fst (inputs_ c) ++ snd (inputs_ c)) 0.
Definition output_bytes cs : Z := fold_left (fun n o => i64 (n + o_file_size o)) (outputs cs) 0.

(** The edit of a compaction with these outputs. *)
Definition add_outputs cs : VersionEdit :=
  let c := compaction cs in
  fold_left (fun edit o => AddFile (level_ c + 1) (o_number o) (o_file_size o) (o_smallest o) (o_largest o) edit) (outputs cs) (AddInputDeletions c (edit_ c)).

Definition InstallCompactionResults cs db : option (Status * DBImpl E W) :=
  '(s, vs, env) ← LogAndApply ucmp (add_outputs cs) (versions_ db) (env_ db);
  Some (s, set_env env (set_vset vs db)).

(** The inputs are read and the last output is finished. *)
Definition merge_inputs (fuel : nat) (input : I) cs db : option (Status * CompactionState W * DBImpl E W) :=
  '(s, input, cs, db) ← compaction_loop fuel 0 (SeekToFirst input) Locals_make cs db;
  let s := if ok s && shutting_down_ db then IOError (str "Deleting DB during compaction") [] else s in
  let '(s, cs, db) := if ok s then finish_builder input cs db else (s, cs, db) in
  Some (if ok s then status input else s, cs, db).

(** [input] is the iterator of [MakeInputIterator]. *)
Definition DoCompactionWork (fuel : nat) (input : I) cs db : option (Status * CompactionState W * DBImpl E W) :=
  let '(start_micros, env) := NowMicros (env_ db) in
  let db := set_env env db in
  let cs := set_smallest (default (vs_last_sequence_ (versions_ db)) (oldest_number (snapshots_ db))) cs in
  '(s, cs, db) ← merge_inputs fuel input cs db;
  let '(end_micros, env) := NowMicros (env_ db) in
  let stats := mkStats (i64 (end_micros - start_micros)) (input_bytes (compaction cs)) (output_bytes cs) in
  let db := add_stats (level_ (compaction cs) + 1) stats (set_env env db) in
  '(s, db) ← (if ok s then InstallCompactionResults cs db else Some (s, db));
  Some (s, cs, if ok s then db else RecordBackgroundError s db).

(** The outputs are no longer pending. *)
Definition CleanupCompaction cs db : DBImpl E W :=
  set_pending (fold_left (fun live o => live ∖ {[ o_number o ]}) (outputs cs) (pending_outputs_ db)) db.

(** *** Background work *)

Context (make_input : Compaction -> DBImpl E W -> I) (fuel : nat).

Definition manual_end (c : option Compaction) : bytes :=
  match c with Some c => match last (fst (inputs_ c)) with Some f => largest f | None => [] end | None => [] end.

(** The edit of a compaction that moves its only file one level down. *)
Definition move_edit (c : Compaction) : VersionEdit :=
  match fst (inputs_ c) with
  | f :: _ => AddFile (level_ c + 1) (number f) (file_size f) (smallest f) (largest f) (DeleteFile (level_ c) (number f) (edit_ c))
  | [] => edit_ c
  end.

(** A compaction that does not move a file, and what remains of it. *)
Definition run_compaction (c : Compaction) db : option (Status * DBImpl E W) :=
  '(s, cs, db) ← DoCompactionWork fuel (make_input c db) (CompactionState_make c) db;
  let db := if ok s then db else RecordBackgroundError s db in
  let db := CleanupCompaction cs db in
  let '(_, vs) := ReleaseInputs (compaction cs) (versions_ db) in
  Some (s, DeleteObsoleteFiles (set_vset vs db)).

(** [delete c] releases the input version too. *)
Definition delete_compaction (c : option Compaction) db : DBImpl E W :=
  match c with Some c => set_vset (snd (ReleaseInputs c (versions_ db))) db | None => db end.

(** The range that is left of a manual compaction after it has compacted [c]. *)
Definition manual_after (m : ManualCompaction) (c : option Compaction) (s : Status) : ManualCompaction :=
  if match c with None => true | Some _ => negb (ok s) end then mkManual (mc_level m) true (mc_begin m) (mc_end m)
  else mkManual (mc_level m) false (Some (manual_end c)) (mc_end m).

(** With the manual compaction, which its caller reads, as it is afterwards. *)
Definition BackgroundCompaction db : option (option ManualCompaction * DBImpl E W) :=
  match imm_ db with
  | Some _ => db' ← CompactMemTable snappy ucmp opts db; Some (manual_compaction_ db, db')
  | None =>
      let m := manual_compaction_ db in
      '(c, vs) ← match m with
                 | Some m => CompactRange ucmp (mc_level m) (mc_begin m) (mc_end m) (versions_ db)
                 | None => PickCompaction ucmp (versions_ db)
                 end;
      let db := set_vset vs db in
      '(s, db) ←
        match c with
        | None => Some (OK, db)
        | Some c =>
            if match m with None => IsTrivialMove c | Some _ => false end then
              '(s, vs, env) ← LogAndApply ucmp (move_edit c) (versions_ db) (env_ db);
              let db := set_env env (set_vset vs db) in
              Some (s, delete_compaction (Some c) (if ok s then db else RecordBackgroundError s db))
            else run_compaction c db
        end;
      Some match m with
           | Some m => (Some (manual_after m c s), set_manual None db)
           | None => (None, db)
           end
  end.

Definition BackgroundCall db : option (option ManualCompaction * DBImpl E W) :=
  let db := set_scheduled (bg_compaction_scheduled_ db) (pred (queued_ db)) db in
  '(m, db) ←
    (if shutting_down_ db then Some (manual_compaction_ db, db)
     else if negb (ok (bg_error_ db)) then Some (manual_compaction_ db, db)
     else BackgroundCompaction db);
  Some (m, MaybeScheduleCompaction (set_scheduled false (queued_ db) db)).
End Work.

(** ** What is dropped *)

Section Drop.
Context (ucmp : Comparator) `{!ComparatorLaws ucmp} (smallest : Z) (base : bytes -> bool).

Definition is_deletion (e : entry) : bool := match e_type e with kTypeDeletion => true | kTypeValue => false end.

(** The deletion marker hides nothing that is left. *)
Definition obsolete (e : entry) : bool := is_deletion e && (e_seq e <=? smallest) && base (e_key e).

(** The entry before, of the same user key, is read at every snapshot. *)
Definition after_visible (prev : option entry) (e : entry) : bool :=
  match prev with Some p => match Compare ucmp (e_key e) (e_key p) with Eq => e_seq p <=? smallest | _ => false end | None => false end.

(** The reference for the loop, for entries in order. *)
Fixpoint survivors (prev : option entry) (es : list entry) : list entry :=
  match es with
  | [] => []
  | e :: es => (if after_visible prev e || obsolete e then [] else [e]) ++ survivors (Some e) es
  end.

Lemma survivors_app prev a b : survivors prev (a ++ b) = survivors prev a ++ survivors (match last a with Some e => Some e | None => prev end) b.
Proof using.
  revert prev. induction a as [|e a IH]; intros prev; [done|]. cbn [app survivors]. rewrite IH, <- app_assoc. do 3 f_equal. destruct a as [|x a]; [done|].
  change (last (e :: x :: a)) with (last (x :: a)). destruct (last (x :: a)) eqn:E; [done|]. by apply last_None in E.
Qed.

Lemma survivors_sublist prev es : sublist (survivors prev es) es.
Proof using.
  revert prev. induction es as [|e es IH]; intros prev; [constructor|]. cbn [survivors]. destruct (_ || _); cbn [app]; [by apply sublist_cons|by apply sublist_skip].
Qed.

(** An entry goes just when a newer one of its key is read at every snapshot, or when it
    is an obsolete marker. *)
Definition superseded (es : list entry) (e : entry) : Prop :=
  exists a, a ∈ es /\ Compare ucmp (e_key a) (e_key e) = Eq /\ e_seq e < e_seq a <= smallest.

Lemma survivors_spec es e : Forall fits es -> StronglySorted (fun a b => cmp ucmp a b = Lt) es -> distinct ucmp es -> e ∈ es ->
  e ∈ survivors None es <-> ~ superseded es e /\ obsolete e = false.
Proof using ComparatorLaws0.
  intros Hfits Hsorted Hdistinct He. apply list_elem_of_lookup in He as [i Hi]. rewrite Forall_lookup in Hfits.
  assert (Hnewer : forall k a, es !! k = Some a -> (k < i)%nat -> Compare ucmp (e_key a) (e_key e) = Eq -> e_seq e < e_seq a).
  { intros k a Ha Hk Hc. assert (Hlt : cmp ucmp a e = Lt) by exact (StronglySorted_lookup _ _ k i a e Hsorted Ha Hi Hk).
    pose proof (MemTable.cmp_seq ucmp a e (Hfits _ _ Ha) (Hfits _ _ Hi) Hc Hlt). destruct (Z.eq_dec (e_seq a) (e_seq e)) as [E|]; [|lia].
    assert (a = e) by (apply Hdistinct; [by eapply list_elem_of_lookup_2|by eapply list_elem_of_lookup_2|done|done]). subst a.
    unfold cmp in Hlt. change (Compare (InternalKeyComparator ucmp) (internal_key e) (internal_key e) = Lt) in Hlt. by rewrite compare_refl in Hlt. }
  assert (Hnd : NoDup es).
  { apply NoDup_alt. intros k l a Ha Hb. destruct (Nat.lt_trichotomy k l) as [H|[H|H]]; [|done|]; exfalso;
      [pose proof (StronglySorted_lookup _ _ k l a a Hsorted Ha Hb H) as Hlt|pose proof (StronglySorted_lookup _ _ l k a a Hsorted Hb Ha H) as Hlt];
      cbv beta in Hlt; unfold cmp in Hlt; change (Compare (InternalKeyComparator ucmp) (internal_key a) (internal_key a) = Lt) in Hlt; by rewrite compare_refl in Hlt. }
  (* the entry before decides *)
  assert (Hprev : after_visible (last (take i es)) e = true <-> superseded es e).
  { unfold after_visible. destruct i as [|i].
    - cbn [take last]. split; [done|]. intros (a & Ha & Hc & Hs). exfalso. apply list_elem_of_lookup in Ha as [k Hk]. destruct (decide (k = O)) as [->|Hne]; [rewrite Hi in Hk; injection Hk as ->; lia|].
      assert (Hlt : cmp ucmp e a = Lt) by exact (StronglySorted_lookup _ _ 0 k e a Hsorted Hi Hk ltac:(lia)). apply compare_eq_sym in Hc.
      pose proof (MemTable.cmp_seq ucmp e a (Hfits _ _ Hi) (Hfits _ _ Hk) Hc Hlt). lia.
    - assert (Hp : is_Some (es !! i)) by (apply lookup_lt_is_Some; apply lookup_lt_Some in Hi; lia). destruct Hp as [p Hp]. rewrite (take_S_r _ _ _ Hp), last_snoc. split.
      + destruct (Compare ucmp (e_key e) (e_key p)) eqn:Hc; [|done|done]. intros Hs%Z.leb_le. apply compare_eq_sym in Hc. exists p. split; [by eapply list_elem_of_lookup_2|]. split; [done|]. split; [|done].
        by apply (Hnewer i); [|lia|].
      + intros (a & Ha & Hc & Hs). apply list_elem_of_lookup in Ha as [k Hk]. destruct (Nat.lt_trichotomy k (S i)) as [Hlt|[->|Hgt]]; [|rewrite Hi in Hk; injection Hk as ->; lia|].
        * assert (Hap : Compare ucmp (e_key a) (e_key p) <> Gt).
          { destruct (decide (k = i)) as [->|]; [rewrite Hp in Hk; injection Hk as ->; by rewrite compare_refl|].
            apply MemTable.cmp_user. exact (StronglySorted_lookup _ _ k i a p Hsorted Hk Hp ltac:(lia)). }
          assert (Hpe : Compare ucmp (e_key p) (e_key e) <> Gt) by (apply MemTable.cmp_user; exact (StronglySorted_lookup _ _ i (S i) p e Hsorted Hp Hi ltac:(lia))).
          assert (Hep : Compare ucmp (e_key e) (e_key p) = Eq).
          { apply compare_eq_sym in Hc. assert (H : Compare ucmp (e_key e) (e_key p) <> Gt) by (apply (compare_le_trans _ (e_key a)); [by rewrite Hc|done]).
            destruct (Compare ucmp (e_key e) (e_key p)) eqn:E; [done| |done]. apply compare_gt_lt in E. congruence. }
          rewrite Hep. apply Z.leb_le. destruct (decide (k = i)) as [->|Hne]; [rewrite Hp in Hk; injection Hk as ->; lia|].
          assert (Hlt' : cmp ucmp a p = Lt) by exact (StronglySorted_lookup _ _ k i a p Hsorted Hk Hp ltac:(lia)).
          assert (Hcap : Compare ucmp (e_key a) (e_key p) = Eq) by (change (key_equiv ucmp (e_key a) (e_key p)); transitivity (e_key e); done).
          pose proof (MemTable.cmp_seq ucmp a p (Hfits _ _ Hk) (Hfits _ _ Hp) Hcap Hlt'). lia.
        * exfalso. assert (Hlt' : cmp ucmp e a = Lt) by exact (StronglySorted_lookup _ _ (S i) k e a Hsorted Hi Hk Hgt). apply compare_eq_sym in Hc.
          pose proof (MemTable.cmp_seq ucmp e a (Hfits _ _ Hi) (Hfits _ _ Hk) Hc Hlt'). lia. }
  rewrite <- Hprev. rewrite <- (take_drop_middle es i e Hi) at 1. rewrite survivors_app. cbn [survivors].
  rewrite <- (take_drop_middle es i e Hi) in Hnd. apply NoDup_app in Hnd as (_ & Hn1 & Hn2). apply NoDup_cons in Hn2 as [Hn2 _].
  assert (H1 : e ∉ survivors None (take i es)) by (intros Hin; apply (Hn1 e (elem_of_sublist _ _ _ Hin (survivors_sublist None (take i es)))); left).
  assert (H2 : e ∉ survivors (Some e) (drop (S i) es)) by (intros Hin; exact (Hn2 (elem_of_sublist _ _ _ Hin (survivors_sublist (Some e) (drop (S i) es))))).
  rewrite !elem_of_app. destruct (last (take i es)) as [p|]; destruct (after_visible _ e); destruct (obsolete e); cbn [orb]; set_solver.
Qed.

(** *** What readers see *)

(** What a read of [u] at [s] gives. *)
Definition read_value (u : bytes) (s : Z) (es : list entry) : option bytes :=
  match newest ucmp u s es with
  | Some e => if is_deletion e then None else Some (e_value e)
  | None => None
  end.

(** The newest entry decides what is read. *)
Lemma read_value_is u s es r : distinct ucmp es -> is_newest ucmp u s es r -> read_value u s es = match r with Some e => if is_deletion e then None else Some (e_value e) | None => None end.
Proof using ComparatorLaws0.
  intros Hd Hr. unfold read_value. by rewrite (MemTable.is_newest_unique ucmp u s es es _ r Hd (reflexivity es) (MemTable.newest_is_newest ucmp u s es) Hr).
Qed.

Lemma distinct_sub (es es' : list entry) : distinct ucmp es -> (forall a, a ∈ es' -> a ∈ es) -> distinct ucmp es'.
Proof using. intros Hd Hsub a b Ha Hb. apply Hd; by apply Hsub. Qed.

Lemma reads_preserved u s above es deep :
  Forall fits es -> StronglySorted (fun a b => cmp ucmp a b = Lt) es -> distinct ucmp (above ++ es ++ deep) ->
  (forall a e, a ∈ above -> e ∈ es -> Compare ucmp (e_key a) (e_key e) = Eq -> e_seq e < e_seq a) ->
  (forall e a, e ∈ es -> base (e_key e) = true -> a ∈ deep -> Compare ucmp (e_key a) (e_key e) <> Eq) ->
  smallest <= s ->
  read_value u s (above ++ survivors None es ++ deep) = read_value u s (above ++ es ++ deep).
Proof using ComparatorLaws0.
  intros Hf Hs Hd Habove Hdeep Hle.
  assert (Hsub : forall a, a ∈ above ++ survivors None es ++ deep -> a ∈ above ++ es ++ deep).
  { intros a. rewrite !elem_of_app. intros [?|[Ha|?]]; [by left| |by right; right]. right. left. exact (elem_of_sublist _ _ _ Ha (survivors_sublist None es)). }
  assert (Hd' : distinct ucmp es) by (eapply distinct_sub; [exact Hd|]; intros a Ha; rewrite !elem_of_app; tauto).
  pose proof (distinct_sub _ _ Hd Hsub) as Hd2. pose proof (MemTable.newest_is_newest ucmp u s (above ++ es ++ deep)) as Hn. unfold read_value at 2.
  destruct (newest ucmp u s (above ++ es ++ deep)) as [e|] eqn:En.
  2:{ apply (read_value_is u s _ None Hd2). intros a Ha. by apply Hn, Hsub. }
  destruct Hn as (He & Hv & Hm).
  assert (Hstay : e ∈ above ++ survivors None es ++ deep -> read_value u s (above ++ survivors None es ++ deep) = if is_deletion e then None else Some (e_value e)).
  { intros Hin. apply (read_value_is u s _ (Some e) Hd2). split; [done|]. split; [done|]. intros a Ha. by apply Hm, Hsub. }
  rewrite !elem_of_app in He. destruct He as [He|[He|He]]; [by apply Hstay; rewrite !elem_of_app; left| |by apply Hstay; rewrite !elem_of_app; right; right].
  apply MemTable.visible_eq in Hv as [Hk Hse].
  assert (Hkey : forall a, Compare ucmp (e_key a) u = Eq -> Compare ucmp (e_key a) (e_key e) = Eq).
  { intros a Ha. change (key_equiv ucmp (e_key a) (e_key e)). transitivity u; [done|by symmetry]. }
  assert (Hnot : ~ superseded es e).
  { intros (a & Ha & Hc & H1 & H2). assert (Hva : visible ucmp u s a = true) by (apply MemTable.visible_eq; split; [change (key_equiv ucmp (e_key a) u); by transitivity (e_key e)|lia]).
    assert (e_seq a <= e_seq e); [|lia]. apply Hm; [rewrite !elem_of_app; tauto|done]. }
  destruct (obsolete e) eqn:Eo.
  2:{ apply Hstay. rewrite !elem_of_app. right. left. by apply (survivors_spec es e Hf Hs Hd' He). }
  (* an obsolete marker: nothing of its key is left *)
  unfold obsolete in Eo. rewrite !andb_true_iff, Z.leb_le in Eo. destruct Eo as [[Hdel Hsm] Hbase]. rewrite Hdel.
  apply (read_value_is u s _ None Hd2). intros a Ha. apply not_true_iff_false. intros Hva. pose proof (Hm a (Hsub a Ha) Hva) as Hae. apply MemTable.visible_eq in Hva as [Hka Hsa].
  rewrite !elem_of_app in Ha. destruct Ha as [Ha|[Ha|Ha]].
  - specialize (Habove a e Ha He (Hkey a Hka)). lia.
  - pose proof (elem_of_sublist _ _ _ Ha (survivors_sublist None es)) as Ha'. apply (survivors_spec es a Hf Hs Hd' Ha') in Ha as [Hns Hno].
    destruct (Z.eq_dec (e_seq a) (e_seq e)) as [Eq|Hne].
    + assert (a = e) by (apply Hd'; [done|done|by apply Hkey|done]). subst a. unfold obsolete in Hno. rewrite Hdel, Hbase, (proj2 (Z.leb_le _ _) Hsm) in Hno. done.
    + apply Hns. exists e. split; [done|]. split; [apply compare_eq_sym; by apply Hkey|]. lia.
  - by apply (Hdeep e a He Hbase Ha), Hkey.
Qed.
End Drop.

(** ** The loop *)

(** Only the answers of a compaction's questions change while it runs. *)
Definition same_inputs (c c' : Compaction) : Prop :=
  level_ c' = level_ c /\ max_output_file_size_ c' = max_output_file_size_ c /\ input_version_ c' = input_version_ c /\ edit_ c' = edit_ c /\ inputs_ c' = inputs_ c.

#[global] Instance same_inputs_trans : Transitive same_inputs.
Proof. intros a b c (A1 & A2 & A3 & A4 & A5) (B1 & B2 & B3 & B4 & B5). repeat split; congruence. Qed.

Section Loop.
Context {E W R : Type} `{!EnvFiles E W R} `{!EnvDirs E} `{!TableCacheOps E} `{!WritableFile W} `{!WritableFileLaws W} `{!FileStates W} `{!EnvFilesLaws E W R} {I : Type} `{!Iterator I}.
Context (snappy : option SnappyLib) (ucmp : Comparator) `{!ComparatorLaws ucmp} (opts : DBOptions).
Implicit Types db : DBImpl E W.
Implicit Types cs : CompactionState W.

Abbreviation topts := (table_options opts).
Context (Hcmp : TableBuilder.comparator topts = InternalKeyComparator ucmp) (Hinterval : 1 <= TableBuilder.block_restart_interval topts).

(** The inputs: entries in order, and the version that the compaction asks. *)
Context (es : list entry) (rep : I -> option nat -> Prop) `{!IteratorLaws (InternalKeyComparator ucmp) (map e_pair es) rep}.
Context (Hfits : Forall fits es) (Hsorted : StronglySorted (fun a b => cmp ucmp a b = Lt) es) (Hsize : size_of es < 2 ^ 64).
Context (id : nat) (v : Version) (c0 : Compaction) (sm : Z).
Context (Hversion : input_version_ c0 = Some (id, v)) (Huser : forall l, level_ c0 + 1 < l -> user_sorted ucmp (level_files v l)) (Hsm : sm < kMaxSequenceNumber).

(** What holds of the rest of the state, whatever other threads and compactions of the
    memtable do. *)
Context (others : nat -> DBImpl E W -> DBImpl E W) (P : DBImpl E W -> Prop).
Context (Pothers : forall n db, P db -> P (others n db)).
Context (Pmem : forall db, P db -> imm_ db <> None -> exists db', CompactMemTable snappy ucmp opts db = Some db' /\ P db').
Context (Pfields : forall db env disk pending stats, P db -> P (set_env env db) /\ P (set_disk disk db) /\ P (set_pending pending db) /\ P (set_stats stats db)).

Abbreviation lvls := (levels_above (level_ c0 + 1)).
Abbreviation base := (base_level ucmp v (level_ c0)).
Abbreviation kept := (survivors ucmp sm base).
Abbreviation icmp := (InternalKeyComparator ucmp).

(** *** Dropping *)

Definition locals_for (prev : option entry) (l : Locals) : Prop :=
  match prev with
  | None => l = Locals_make
  | Some p => exists u, current_user_key l = Some u /\ Compare ucmp u (e_key p) = Eq /\ last_sequence_for_key l = e_seq p
  end.

Lemma IsBase_spec (c : Compaction) k : same_inputs c0 c -> pointers_ok ucmp v lvls k (level_ptrs_ c) ->
  exists ptrs, IsBaseLevelForKey ucmp k c = Some (base k, set_level_ptrs ptrs c) /\ pointers_ok ucmp v lvls k ptrs.
Proof using Hversion Huser ComparatorLaws0.
  intros (Hl & _ & Hv & _) Hp. unfold IsBaseLevelForKey. rewrite Hv, Hversion. cbn [mbind option_bind]. rewrite Hl.
  assert (Hall : Forall (fun l => 0 <= l < kNumLevels /\ user_sorted ucmp (level_files v l)) lvls).
  { apply Forall_forall. intros l [H1 H2]%levels_above_range. split; [done|]. by apply Huser. }
  pose proof (base_level_loop_spec ucmp v lvls k Hall lvls (level_ptrs_ c) (fun l H => H) Hp) as Hb. destruct (base_level_loop _ _ _ _ _) as [r ptrs]. destruct Hb as [Hr Hp'].
  exists ptrs. split; [|done]. do 2 f_equal. unfold base_level. destruct r; symmetry; [apply bool_decide_eq_true; by apply Hr|]. apply bool_decide_eq_false. intros HF. by apply Hr in HF.
Qed.

Lemma decide_drop_spec prev e l cs : fits e -> locals_for prev l -> (forall p, prev = Some p -> Compare ucmp (e_key p) (e_key e) <> Gt) -> smallest_snapshot cs = sm ->
  same_inputs c0 (compaction cs) -> pointers_ok ucmp v lvls (e_key e) (level_ptrs_ (compaction cs)) ->
  exists l' c', decide_drop ucmp (internal_key e) l cs = Some (after_visible ucmp sm prev e || obsolete sm base e, l', set_compaction c' cs) /\
    locals_for (Some e) l' /\ same_inputs c0 c' /\ pointers_ok ucmp v lvls (e_key e) (level_ptrs_ c').
Proof using Hversion Huser Hsm ComparatorLaws0.
  intros Hf Hl Hle Hs Hin Hp. unfold decide_drop. unfold internal_key at 1. rewrite ParseInternalKey_make by apply Hf. cbn [user_key sequence type]. rewrite Hs.
  set (same := match current_user_key l with Some u => _ | None => false end). set (l1 := if same then l else _).
  assert (Hl1 : (exists u, current_user_key l1 = Some u /\ Compare ucmp u (e_key e) = Eq) /\ (last_sequence_for_key l1 <=? sm) = after_visible ucmp sm prev e).
  { subst l1 same. destruct prev as [p|]; cbn [locals_for after_visible] in *.
    - destruct Hl as (u & Hcu & Hu & Hseq). rewrite Hcu. assert (Hsame : Compare ucmp (e_key e) u = Compare ucmp (e_key e) (e_key p)) by (apply Compare_proper; [reflexivity|exact Hu]).
      rewrite Hsame. destruct (Compare ucmp (e_key e) (e_key p)) eqn:Ec.
      + split; [|by rewrite Hseq]. exists u. split; [done|]. apply compare_eq_sym. congruence.
      + split; [exists (e_key e); cbn; by rewrite compare_refl|]. cbn. apply Z.leb_gt. lia.
      + split; [exists (e_key e); cbn; by rewrite compare_refl|]. cbn. apply Z.leb_gt. lia.
    - rewrite Hl. cbn. split; [exists (e_key e); by rewrite compare_refl|]. apply Z.leb_gt. lia. }
  destruct Hl1 as [(u & Hu & Hue) Hvis]. rewrite Hvis.
  assert (Hnext : forall l2, l2 = mkLocals (current_user_key l1) (e_seq e) -> locals_for (Some e) l2) by (intros l2 ->; by exists u).
  assert (Hsame : set_compaction (compaction cs) cs = cs) by (by destruct cs).
  destruct (after_visible ucmp sm prev e).
  { cbn [mbind option_bind orb]. eexists _, (compaction cs). rewrite Hsame. split; [reflexivity|]. split; [by apply Hnext|done]. }
  cbn [orb]. unfold obsolete, is_deletion. replace (value_type_code (e_type e) =? value_type_code kTypeDeletion) with (match e_type e with kTypeDeletion => true | kTypeValue => false end) by (by destruct (e_type e)).
  destruct (match e_type e with kTypeDeletion => true | kTypeValue => false end && (e_seq e <=? sm)) eqn:Ed.
  - destruct (IsBase_spec (compaction cs) (e_key e) Hin Hp) as (ptrs & E' & Hp'). rewrite E'. cbn [mbind option_bind andb]. eexists _, (set_level_ptrs ptrs (compaction cs)).
    split; [reflexivity|]. split; [by apply Hnext|]. split; [|done]. etrans; [exact Hin|]. done.
  - cbn [mbind option_bind andb]. eexists _, (compaction cs). rewrite Hsame. split; [reflexivity|]. split; [by apply Hnext|done].
Qed.

(** *** Outputs *)





#[local] Instance topts_laws : ComparatorLaws (TableBuilder.comparator topts).
Proof using Hcmp ComparatorLaws0. rewrite Hcmp. exact _. Defined.





(** *** The passes of the loop *)











(** *** The whole run *)

End Loop.

(** *** Decisions *)

(** What the code decides for a run of entries, one after the other: those that are kept,
    and the state that is left. *)
Fixpoint decisions {W} (ucmp : Comparator) (es : list entry) (l : Locals) (cs : CompactionState W) : option (list entry * CompactionState W) :=
  match es with
  | [] => Some ([], cs)
  | e :: es =>
      '(drop, l, cs) ← decide_drop ucmp (internal_key e) l cs;
      '(kept, cs) ← decisions ucmp es l cs;
      Some (if drop : bool then kept else e :: kept, cs)
  end.

Section Decisions.
Context {W : Type} (ucmp : Comparator) `{!ComparatorLaws ucmp} (id : nat) (v : Version) (c0 : Compaction) (sm : Z).
Context (Hversion : input_version_ c0 = Some (id, v)) (Huser : forall l, level_ c0 + 1 < l -> user_sorted ucmp (level_files v l)) (Hsm : sm < kMaxSequenceNumber).

Lemma start_pointers k : level_ptrs_ c0 = replicate (Z.to_nat kNumLevels) 0%nat -> pointers_ok ucmp v (levels_above (level_ c0 + 1)) k (level_ptrs_ c0).
Proof using.
  intros ->. split; [done|]. intros l _. rewrite nth_lookup. unfold passed. destruct (replicate _ _ !! _) as [n|] eqn:E'; [apply lookup_replicate in E' as [-> _]|]; constructor.
Qed.

Lemma decisions_spec (es : list entry) : forall prev l (cs : CompactionState W), Forall fits es -> locals_for ucmp prev l ->
  StronglySorted (fun a b => cmp ucmp a b = Lt) (match prev with Some p => p :: es | None => es end) -> smallest_snapshot cs = sm -> same_inputs c0 (compaction cs) ->
  (forall e, head es = Some e -> pointers_ok ucmp v (levels_above (level_ c0 + 1)) (e_key e) (level_ptrs_ (compaction cs))) ->
  exists cs', decisions ucmp es l cs = Some (survivors ucmp sm (base_level ucmp v (level_ c0)) prev es, cs').
Proof using All.
  induction es as [|e es IH]; intros prev l cs Hf Hl Hs Hsmall Hin Hp; cbn [decisions survivors]; [by exists cs|].
  apply Forall_cons in Hf as [Hfe Hf]. assert (Hse : StronglySorted (fun a b => cmp ucmp a b = Lt) (e :: es)) by (destruct prev; [by inversion Hs|done]).
  destruct (decide_drop_spec ucmp id v c0 sm Hversion Huser Hsm prev e l cs Hfe Hl) as (l' & c' & -> & Hl' & Hin' & Hp'); [|done|done|by apply Hp|].
  { intros p ->. apply MemTable.cmp_user. apply StronglySorted_inv in Hs as [_ Hs]. by inversion Hs. }
  cbn [mbind option_bind]. destruct (IH (Some e) l' (set_compaction c' cs) Hf Hl' Hse Hsmall Hin') as (cs' & ->).
  - intros e' He'. destruct es as [|e2 es]; [done|]. injection He' as <-. destruct Hp' as [P1 P2]. split; [done|]. intros lv Hlv. apply (passed_later ucmp _ (e_key e)); [by apply P2|].
    apply MemTable.cmp_user. apply StronglySorted_inv in Hse as [_ Hse]. by inversion Hse.
  - cbn [mbind option_bind]. exists cs'. by destruct (_ || _).
Qed.
End Decisions.

(** A deeper level has a file whose range has the key. *)
Definition in_deeper (ucmp : Comparator) (v : Version) (level : Z) (u : bytes) : Prop :=
  exists l (f : FilePtr), level + 1 < l < kNumLevels /\ f ∈ level_files v l /\ holds_key ucmp u f.

Lemma base_level_deeper ucmp v level u : 0 <= level -> base_level ucmp v level u = true <-> ~ in_deeper ucmp v level u.
Proof.
  intros Hl. unfold base_level. rewrite bool_decide_eq_true, Forall_forall. split.
  - intros H (l & f & Hlv & Hf & Hk). assert (Hin : l ∈ levels_above (level + 1)).
    { unfold levels_above, levels. apply list_elem_of_filter. split; [lia|]. apply list_elem_of_fmap. exists (Z.to_nat l). split; [lia|]. apply elem_of_seq. lia. }
    specialize (H l Hin). rewrite Forall_forall in H. exact (H f Hf Hk).
  - intros H l Hlv. apply Forall_forall. intros f Hf Hk. apply H. apply levels_above_range in Hlv. exists l, f. split; [lia|done].
Qed.

(** ** Properties *)

(** C12: What the code decides to drop, no reader misses.  For the entries of the inputs
    of a compaction, in order, the decisions of its loop keep exactly those that are not
    superseded, that is, without a newer entry of the same user key that the smallest
    snapshot in use sees, and that are not markers of a deletion, seen by that snapshot,
    of a key that no file of the deeper levels holds.  With newer entries [above], and
    with [deep] in the files of the deeper levels, no read at a snapshot from the smallest
    one on tells the kept entries from all of them. *)
Theorem compaction_reads {W : Type} (ucmp : Comparator) `{!ComparatorLaws ucmp} (id : nat) (v : Version) (cs : CompactionState W) (above es deep : list entry) (u : bytes) (s : Z) :
  let level := level_ (compaction cs) in let smallest := smallest_snapshot cs in
  0 <= level -> input_version_ (compaction cs) = Some (id, v) -> level_ptrs_ (compaction cs) = replicate (Z.to_nat kNumLevels) 0%nat ->
  (forall l, level + 1 < l -> user_sorted ucmp (level_files v l)) -> smallest < kMaxSequenceNumber ->
  Forall fits es -> StronglySorted (fun a b => cmp ucmp a b = Lt) es -> distinct ucmp (above ++ es ++ deep) ->
  (forall a e, a ∈ above -> e ∈ es -> Compare ucmp (e_key a) (e_key e) = Eq -> e_seq e < e_seq a) ->
  (forall a e, a ∈ deep -> e ∈ es -> Compare ucmp (e_key a) (e_key e) = Eq -> in_deeper ucmp v level (e_key e)) ->
  smallest <= s ->
  exists kept cs', decisions ucmp es Locals_make cs = Some (kept, cs') /\ sublist kept es /\
  (forall e, e ∈ es -> e ∈ kept <-> ~ superseded ucmp smallest es e /\ ~ (e_type e = kTypeDeletion /\ e_seq e <= smallest /\ ~ in_deeper ucmp v level (e_key e))) /\
  read_value ucmp u s (above ++ kept ++ deep) = read_value ucmp u s (above ++ es ++ deep).
Proof.
  intros level sm Hlevel Hv Hptrs Huser Hsm Hf Hs Hd Ha Hdeep Hle. set (base := base_level ucmp v level).
  destruct (decisions_spec ucmp id v (compaction cs) sm Hv Huser Hsm es None Locals_make cs) as (cs' & ->); try done.
  { intros e _. by apply start_pointers. }
  assert (Hbase : forall e a, e ∈ es -> base (e_key e) = true -> a ∈ deep -> Compare ucmp (e_key a) (e_key e) <> Eq).
  { intros e a He Hb Hin Hc. apply base_level_deeper in Hb; [|done]. by apply Hb, (Hdeep a e). }
  eexists _, cs'. split; [reflexivity|]. split; [apply survivors_sublist|]. split; [|by apply reads_preserved].
  intros e He. rewrite survivors_spec; [|done..|eapply distinct_sub; [exact Hd|]; intros a Hin; rewrite !elem_of_app; tauto|done].
  rewrite <- (base_level_deeper ucmp v level (e_key e)) by done. fold base. unfold obsolete, is_deletion.
  apply and_iff_compat_l. rewrite <- not_true_iff_false, !andb_true_iff, Z.leb_le. by destruct (e_type e); intuition.
Qed.








(** *** An example *)

#[local] Existing Instance MemTable.entry_eq_dec.

Definition sample_run : list entry := [
  MemTable.mkEntry 9 kTypeValue (str "k") (str "3"); MemTable.mkEntry 5 kTypeDeletion (str "k") []; MemTable.mkEntry 3 kTypeValue (str "k") (str "2");
  MemTable.mkEntry 4 kTypeDeletion (str "m") []; MemTable.mkEntry 2 kTypeValue (str "m") (str "0")].
Definition sample_above : list entry := [MemTable.mkEntry 12 kTypeValue (str "k") (str "4")].
Definition sample_below : list entry := [MemTable.mkEntry 1 kTypeValue (str "k") (str "1")].

(** A compaction of level 0, of which level 2 has a file with the key "k", at snapshot 6. *)
Definition deep_version : Version := mkVersion [[]; []; [mkFilePtr 1 (FileMetaData_make 4 100 (InternalKey_make (str "j") 1 kTypeValue) (InternalKey_make (str "l") 1 kTypeValue))]; []; []; []; []] None 0 (double_of_Z (-1)) (-1).
Definition deep_compaction : CompactionState bytes := set_smallest 6 (CompactionState_make (mkCompaction 0 100 (Some (7%nat, deep_version)) VersionEdit_make ([], []) [] 0 false 0 (replicate (Z.to_nat kNumLevels) 0%nat))).

Lemma deep_sorted l : 0 + 1 < l -> user_sorted BytewiseComparator (level_files deep_version l).
Proof.
  intros _. assert (H : Forall (user_sorted BytewiseComparator) (files_ deep_version)) by (repeat (apply Forall_cons; split); [..|constructor]; split; repeat constructor; vm_compute; done).
  unfold level_files. rewrite nth_lookup. destruct (files_ deep_version !! Z.to_nat l) as [fs|] eqn:E; [|split; constructor]. rewrite Forall_lookup in H. by apply (H _ _ E).
Qed.

(** The marker of "k" is kept, for the file below; that of "m" is not. *)
Lemma compaction_reads_witness : exists cs', decisions BytewiseComparator sample_run Locals_make deep_compaction = Some (take 2 sample_run, cs') /\
  read_value BytewiseComparator (str "k") 7 (sample_above ++ take 2 sample_run ++ sample_below) = read_value BytewiseComparator (str "k") 7 (sample_above ++ sample_run ++ sample_below).
Proof.
  destruct (compaction_reads BytewiseComparator 7 deep_version deep_compaction sample_above sample_run sample_below (str "k") 7) as (kept & cs' & E & _ & _ & H).
  - done.
  - reflexivity.
  - reflexivity.
  - exact deep_sorted.
  - vm_compute. reflexivity.
  - repeat constructor; vm_compute; discriminate.
  - repeat constructor; vm_compute; reflexivity.
  - apply MemTable.distinct_decide. vm_compute. reflexivity.
  - intros a e ->%list_elem_of_singleton He _. cbn [e_seq]. assert (Hlt : Forall (fun e => e_seq e < 12) sample_run) by (repeat constructor). rewrite Forall_forall in Hlt. by apply Hlt.
  - intros a e ->%list_elem_of_singleton He Hc. apply compare_eq_sym in Hc. exists 2, (nth 0 (level_files deep_version 2) (mkFilePtr 0 (FileMetaData_make 0 0 [] []))). split; [done|]. split; [left|].
    assert (Hk : Forall (fun e => Compare BytewiseComparator (e_key e) (str "k") = Eq -> e_key e = str "k") sample_run) by (repeat constructor; vm_compute; done).
    rewrite Forall_forall in Hk. rewrite (Hk e He Hc). split; vm_compute; discriminate.
  - done.
  - assert (Hkept : fst <$> decisions BytewiseComparator sample_run Locals_make deep_compaction = Some (take 2 sample_run)) by (vm_compute; reflexivity).
    rewrite E in Hkept. apply (inj Some) in Hkept. cbn [fst] in Hkept. subst kept. by exists cs'.
Defined.

(** The sample compaction of tables of level 0, with a snapshot at 8. *)
Definition merge_run : list entry := [
  MemTable.mkEntry 5 kTypeValue (str "a") (str "1"); MemTable.mkEntry 2 kTypeValue (str "a") (str "0"); MemTable.mkEntry 7 kTypeValue (str "b") (str "new"); MemTable.mkEntry 4 kTypeValue (str "b") (str "old");
  MemTable.mkEntry 8 kTypeDeletion (str "c") []; MemTable.mkEntry 1 kTypeValue (str "c") (str "2"); MemTable.mkEntry 3 kTypeValue (str "d") (str "3")].

#[local] Instance merge_list : Iterator ListIterator := ListIterator_Iterator (InternalKeyComparator BytewiseComparator).
Definition merge_rep (i : ListIterator) (p : option nat) : Prop :=
  li_entries i = map e_pair merge_run /\ li_pos i = p /\ match p with Some n => (n < length (map e_pair merge_run))%nat | None => True end.
#[local] Instance merge_laws : IteratorLaws (InternalKeyComparator BytewiseComparator) (map e_pair merge_run) merge_rep := ListIterator_laws _ _.

Definition chosen_set : VersionSet bytes := match PickCompaction BytewiseComparator sample_vs with Some (_, vs) => vs | None => sample_vs end.
Definition merging_db : DBImpl bytes Handle := set_snapshots (snd (New 8 SnapshotList_make)) (set_vset (on_handles chosen_set) (DBImpl_make (str "/db/") (str "test") [])).


#[local] Existing Instance handle_EnvFiles.
#[local] Existing Instance handle_EnvFilesLaws.



(** The outputs of a compaction have one name: of three, the last is what is left. *)
Definition small_outputs (c : Compaction) : Compaction :=
  mkCompaction (level_ c) 1 (input_version_ c) (edit_ c) (inputs_ c) (grandparents_ c) (grandparent_index_ c) (seen_key_ c) (overlapped_bytes_ c) (level_ptrs_ c).
Definition small_blocks : DBOptions := mkDBOptions (TableBuilder.mkOptions (InternalKeyComparator BytewiseComparator) 1 16 Format.kNoCompression None false) true false (4 * 1048576) 1000 false false false.
Lemma outputs_overwritten : (fun r : Status * CompactionState Handle * DBImpl bytes Handle => let '(s, cs, db) := r in (ok s, map (fun o => ExtractUserKey (o_smallest o)) (outputs cs), map fst (map_to_list (disk_ db)))) <$>
  DoCompactionWork None BytewiseComparator small_blocks (fun _ db => db) 8 (mkListIterator (map e_pair merge_run) None) (CompactionState_make (small_outputs sample_compaction)) merging_db =
  Some (true, [str "a"; str "b"; str "d"], [str "/db/test.ldb"]).
Proof. vm_compute. reflexivity. Qed.
