(* ===== verification/DBRead.v ===== *)
(** * DBRead: reading the database

    Models the reads of [db/db_impl.cpp], [Get], the internal iterator with its children,
    snapshots, samples and approximate sizes, and of [db/version_set.cpp] the iterators
    over a version and over the inputs of a compaction.  The iterator over a table
    and the offset of a key in it, which the table cache gives, are functions of the
    number and the size of the file. *)

From stdpp Require Import sorting.
From S2P Require Import Prelude Coding Slice Comparator DbFormat VersionEdit Iterator Env Log FileName TwoLevel Merger Version VersionSet Compaction DBIter Snapshot DBImpl.
From S2P Require MemTable Table.
Import MemTable(MemTable, MemTableIterator, MemTableIterator_Iterator, entry, e_key, e_seq, e_type, e_value, e_pair, internal_key, fits, cmp, newest, is_newest, distinct, outcome, mem_rep).
Import Table(ReadOptions, mkReadOptions, ReadOptions_make).

(** ** Iterators over files *)

Section Files.
Context {T : Type} `{!Iterator T} (table_iterator : ReadOptions -> Z -> Z -> T) (ucmp : Comparator).

#[local] Instance level_iterator : Iterator LevelFileNumIterator := LevelFileNumIterator_Iterator ucmp.

Definition GetFileIterator (options : ReadOptions) (file_value : bytes) : EmptyIterator + T :=
  if negb (size_of file_value =? 16) then inl (NewErrorIterator (Corruption (str "FileReader invoked with unexpected value") []))
  else inr (table_iterator options (DecodeFixed64 file_value) (DecodeFixed64 (drop 8 file_value))).

(** The iterator over the files of a level; its searches pass over at most [files_fuel]
    files. *)
Definition FileIterator : Type := TwoLevelIterator (I := LevelFileNumIterator) (D := EmptyIterator + T).
Definition NewConcatenatingIterator (files : list FilePtr) : FileIterator := NewTwoLevelIterator (LevelFileNumIterator_make files).

Definition FileIterator_Iterator (options : ReadOptions) (files_fuel : nat) : Iterator FileIterator := TwoLevel_Iterator (GetFileIterator options) files_fuel.

(** *** A version *)

Definition AddIterators (options : ReadOptions) (v : Version) : list (T + FileIterator) :=
  map (fun f : FilePtr => inl (table_iterator options (number f) (file_size f))) (level_files v 0) ++
  concat (map (fun level => match level_files v level with [] => [] | files => [inr (NewConcatenatingIterator files)] end) (tail levels)).
End Files.
Arguments FileIterator : clear implicits.

Section Inputs.
Context {T : Type} `{!Iterator T} (table_iterator : ReadOptions -> Z -> Z -> T) (ucmp : Comparator).

(** The options of the reads of a compaction. *)
Definition input_options (paranoid : bool) : ReadOptions := mkReadOptions paranoid false.

Definition input_iterators (options : ReadOptions) (c : Compaction) (which : Z) (files : list FilePtr) : list (T + FileIterator T) :=
  match files with
  | [] => []
  | _ => if level_ c + which =? 0 then map (fun f : FilePtr => inl (table_iterator options (number f) (file_size f))) files else [inr (NewConcatenatingIterator ucmp files)]
  end.

Definition MakeInputIterator (paranoid : bool) (files_fuel : nat) (c : Compaction) : EmptyIterator + (T + FileIterator T) + MergingIterator (T + FileIterator T) :=
  let options := input_options paranoid in
  let _ := FileIterator_Iterator table_iterator ucmp options files_fuel in
  NewMergingIterator (input_iterators options c 0 (fst (inputs_ c)) ++ input_iterators options c 1 (snd (inputs_ c))).

Definition InputIterator_Iterator (options : ReadOptions) (files_fuel : nat) : Iterator (EmptyIterator + (T + FileIterator T) + MergingIterator (T + FileIterator T)) :=
  let _ := FileIterator_Iterator table_iterator ucmp options files_fuel in
  sum_Iterator (Iterator1 := Merging_Iterator (InternalKeyComparator ucmp)).
End Inputs.

(** ** The internal iterator *)

Abbreviation Child T := (MemTableIterator + (T + FileIterator T))%type.
Abbreviation InternalIterator T := (EmptyIterator + Child T + MergingIterator (Child T))%type.

Section Database.
Context {E W T : Type} `{!Iterator T} (table_iterator : ReadOptions -> Z -> Z -> T) (files_fuel : nat) (ucmp : Comparator).
Implicit Types db : DBImpl E W.

(** The iterators over the children of the internal iterator. *)
Definition Child_Iterator (options : ReadOptions) : Iterator (Child T) :=
  let _ := FileIterator_Iterator table_iterator ucmp options files_fuel in
  let _ := MemTableIterator_Iterator ucmp in
  sum_Iterator.

Definition internal_children (options : ReadOptions) (mem : MemTable) (imm : option MemTable) (v : Version) : list (Child T) :=
  inl (MemTable.NewIterator mem) :: match imm with Some m => [inl (MemTable.NewIterator m)] | None => [] end ++ map inr (AddIterators table_iterator ucmp options v).

(** With the latest snapshot, the seed and the address of the version, on which the
    iterator keeps a reference; [mem_] is not null. *)
Definition NewInternalIterator (options : ReadOptions) db : option (InternalIterator T * Z * Z * nat * DBImpl E W) :=
  let vs := versions_ db in
  let latest_snapshot := vs_last_sequence_ vs in
  mem ← mem_ db;
  let _ := Child_Iterator options in
  let internal_iter := NewMergingIterator (internal_children options mem (imm_ db) (current vs)) in
  let seed := u32 (seed_ db + 1) in
  Some (internal_iter, latest_snapshot, seed, current_ vs, set_seed seed (set_vset (Version_Ref (current_ vs) vs) db)).

(** The iterator that kept a reference on the version is deleted. *)
Definition CleanupIteratorState (version : nat) db : DBImpl E W := set_vset (Version_Unref version (versions_ db)) db.

(** The sequence number of a snapshot. *)
Definition NewIterator (options : ReadOptions) (snapshot : option Z) db : option (DBIter (InternalIterator T) * nat * DBImpl E W) :=
  '(iter, latest_snapshot, seed, version, db) ← NewInternalIterator options db;
  Some (NewDBIterator iter (default latest_snapshot snapshot) seed, version, db).

Definition InternalIterator_Iterator (options : ReadOptions) : Iterator (InternalIterator T) :=
  let _ := Child_Iterator options in
  sum_Iterator (Iterator1 := Merging_Iterator (InternalKeyComparator ucmp)).

(** ** Snapshots and samples *)

Definition GetSnapshot db : nat * DBImpl E W :=
  let '(s, l) := New (vs_last_sequence_ (versions_ db)) (snapshots_ db) in (s, set_snapshots l db).
Definition ReleaseSnapshot (s : nat) db : DBImpl E W := set_snapshots (Snapshot.Delete s (snapshots_ db)) db.

(** A version at an address changes, with the counts of its files. *)
Definition set_version (id : nat) (v : Version) (seeks : Seeks) (vs : VersionSet W) : VersionSet W :=
  set_seeks seeks (unused vs) (set_versions (map (fun n => if (v_id n =? id)%nat then mkNode (v_id n) (v_refs n) v else n) (VersionSet.versions_ vs)) (current_ vs) vs).

Definition version_at (id : nat) (vs : VersionSet W) : Version :=
  match find (fun n => (v_id n =? id)%nat) (VersionSet.versions_ vs) with Some n => v_version n | None => Version_make end.

Definition RecordReadSample (k : bytes) db : DBImpl E W :=
  let vs := versions_ db in
  let '(compact, v, seeks) := Version.RecordReadSample ucmp k (current vs) (seeks_ vs) in
  let db := set_vset (set_version (current_ vs) v seeks vs) db in
  if compact then MaybeScheduleCompaction db else db.

(** ** Get *)

Context `{!TableGetter E}.

(** What is found without the mutex: the status, the value and, when files were read, the
    statistics of the read. *)
Definition lookup_layers (options : ReadOptions) (lkey : LookupKey) (mem : MemTable) (imm : option MemTable) (v : Version) (value : bytes) (env : E) : option (Status * bytes * option GetStats * E) :=
  '(found, value, s) ← MemTable.Get ucmp lkey mem value OK;
  if found : bool then Some (s, value, None, env)
  else
    '(found, value, s) ← match imm with Some m => MemTable.Get ucmp lkey m value s | None => Some (false, value, s) end;
    if found : bool then Some (s, value, None, env)
    else
      let '(s, value, stats, env) := Version.Get ucmp options lkey v value env in
      Some (s, value, Some stats, env).

(** [others] is what other threads do while the mutex is free, after the memtables and the
    files are read; a memtable that is extended meanwhile answers a read at the snapshot as
    before. *)
Definition Get (options : ReadOptions) (snapshot : option Z) (k value : bytes) (others : DBImpl E W -> DBImpl E W) db : option (Status * bytes * DBImpl E W) :=
  let vs := versions_ db in
  let snapshot := default (vs_last_sequence_ vs) snapshot in
  mem ← mem_ db;
  let id := current_ vs in
  let db := set_vset (Version_Ref id vs) db in
  '(s, value, stats, env) ← lookup_layers options (LookupKey_make k snapshot) mem (imm_ db) (current vs) value (env_ db);
  let db := others (set_env env db) in
  let db :=
    match stats with
    | Some stats =>
        let '(compact, v, seeks) := UpdateStats stats (version_at id (versions_ db)) (seeks_ (versions_ db)) in
        let db := set_vset (set_version id v seeks (versions_ db)) db in
        if compact then MaybeScheduleCompaction db else db
    | None => db
    end in
  Some (s, value, set_vset (Version_Unref id (versions_ db)) db).
End Database.

(** ** Approximate sizes *)

Section Sizes.
Context {E W : Type} (table_offset : Z -> Z -> bytes -> E -> Z * E) (ucmp : Comparator).

Definition range_size (v : Version) (range : bytes * bytes) (env : E) : Z * E :=
  let '(start, env) := VersionSet_ApproximateOffsetOf ucmp table_offset v (InternalKey_make (fst range) kMaxSequenceNumber kValueTypeForSeek) env in
  let '(limit, env) := VersionSet_ApproximateOffsetOf ucmp table_offset v (InternalKey_make (snd range) kMaxSequenceNumber kValueTypeForSeek) env in
  (if limit >=? start then u64 (limit - start) else 0, env).

(** The sizes of the ranges in the current version, on which it keeps a reference;
    [table_offset] is the offset of a key in a table, 0 where it cannot be opened. *)
Definition GetApproximateSizes (ranges : list (bytes * bytes)) (db : DBImpl E W) : list Z * DBImpl E W :=
  let id := current_ (versions_ db) in
  let v := current (versions_ db) in
  let db := set_vset (Version_Ref id (versions_ db)) db in
  let '(sizes, env) := fold_left (fun '(sizes, env) range => let '(size, env) := range_size v range env in (sizes ++ [size], env)) ranges ([], env_ db) in
  let db := set_env env db in
  (sizes, set_vset (Version_Unref id (versions_ db)) db).
End Sizes.

(** ** What the iterators of files give *)

(** What the table cache promises of the iterator of a file. *)
Class TableIteratorLaws (T : Type) `{!Iterator T} (ucmp : Comparator) (contents : Z -> Z -> option (list (bytes * bytes)))
    (table_iterator : ReadOptions -> Z -> Z -> T) : Prop := {
  table_cursor ro n size kvs : contents n size = Some kvs -> cursor (InternalKeyComparator ucmp) kvs (table_iterator ro n size) None
}.

Section IteratorLaws.
Context {T : Type} `{!Iterator T} (table_iterator : ReadOptions -> Z -> Z -> T) (files_fuel : nat) (ucmp : Comparator) `{!ComparatorLaws ucmp}.
Context (contents : Z -> Z -> option (list (bytes * bytes))) `{!TableIteratorLaws T ucmp contents table_iterator} (es : FilePtr -> list entry).

Abbreviation icmp := (InternalKeyComparator ucmp).
Abbreviation file_holds := (file_holds ucmp contents es).

(** The number and the size of a file are 64-bit values. *)
Definition encodable (f : FilePtr) : Prop := 0 <= number f < 2 ^ 64 /\ 0 <= file_size f < 2 ^ 64.

Definition value_contents (h : bytes) : list (bytes * bytes) := default [] (contents (DecodeFixed64 h) (DecodeFixed64 (drop 8 h))).

Lemma file_value f : encodable f -> let h := snd (file_entry f) in size_of h = 16 /\ DecodeFixed64 h = number f /\ DecodeFixed64 (drop 8 h) = file_size f.
Proof.
  intros [Hn Hs] h. subst h. unfold file_entry, PutFixed64. cbn [snd app]. split; [|split].
  - by rewrite size_of_app, !size_of_EncodeFixed64.
  - by apply DecodeFixed64_Encode.
  - rewrite drop_app_length' by (by rewrite length_EncodeFixed64). rewrite <- (app_nil_r (EncodeFixed64 (file_size f))). by apply DecodeFixed64_Encode.
Qed.

Lemma file_contents f : encodable f -> file_holds f -> value_contents (snd (file_entry f)) = map e_pair (es f).
Proof. intros He Hf. destruct (file_value f He) as (_ & Hn & Hs). unfold value_contents. by rewrite Hn, Hs, (fh_contents _ _ _ f Hf). Qed.

(** A level whose files do not overlap. *)
Lemma concatenating_cursor ro files : Forall encodable files -> Forall file_holds files -> disjoint_files ucmp files -> size_of files < 2 ^ 31 -> (length files + 1 < files_fuel)%nat ->
  cursor (Iterator0 := FileIterator_Iterator table_iterator ucmp ro files_fuel) icmp (concat (map (fun f => map e_pair (es f)) files)) (NewConcatenatingIterator ucmp files) None.
Proof using All.
  intros Henc Hh Hd Hsz Hfuel. rewrite Forall_lookup in Henc, Hh.
  assert (Hlv : level_ok ucmp files) by (split; [apply Forall_lookup; intros i f Hi; exact (fh_ok _ _ _ f (Hh i f Hi))|done]).
  pose proof (LevelFileNumIterator_laws ucmp files (level_by_largest ucmp files Hlv) Hsz) as Hindex.
  assert (Hat : forall i k h, map file_entry files !! i = Some (k, h) -> exists f : FilePtr, files !! i = Some f /\ k = largest f /\ encodable f /\ file_holds f /\ h = snd (file_entry f) /\ value_contents h = map e_pair (es f)).
  { intros i k h Hi. apply list_lookup_fmap_Some in Hi as (f & E & Hf). exists f. injection E as -> ->.
    pose proof (Henc i f Hf). pose proof (Hh i f Hf). do 5 (split; [done|]). by apply file_contents. }
  assert (Hin : forall i (f : FilePtr) e, files !! i = Some f -> e ∈ map e_pair (es f) -> Compare icmp (smallest f) (fst e) <> Gt /\ Compare icmp (fst e) (largest f) <> Gt).
  { intros i f e Hf He. apply list_elem_of_fmap in He as (a & -> & Ha). apply (fh_bounds _ _ _ f (Hh i f Hf) a Ha). }
  assert (E : concat (map (fun f => map e_pair (es f)) files) = concat (map (fun e => value_contents (snd e)) (map file_entry files))).
  { rewrite map_map. f_equal. apply list_fmap_ext. intros i f Hf. symmetry. by apply file_contents; [eapply Henc|eapply Hh]. }
  rewrite E. eapply (NewTwoLevelIterator_rep (I := LevelFileNumIterator) (Iterator0 := LevelFileNumIterator_Iterator ucmp) (D := EmptyIterator + T) _ _ icmp _ (level_rep files) value_contents (fun h => cursor icmp (value_contents h))).
  - intros h Hh'. split; [apply cursor_laws|]. apply list_elem_of_fmap in Hh' as ([k h'] & -> & Hi). apply list_elem_of_lookup in Hi as (i & Hi).
    destruct (Hat i k h' Hi) as (f & Hf & _ & He & Hho & Eh & Ec). cbn [snd]. rewrite Ec. subst h'. destruct (file_value f He) as (H16 & Hn & Hs). unfold GetFileIterator. rewrite H16. cbn [negb Z.eqb Pos.eqb].
    apply inr_cursor. rewrite Hn, Hs. by apply table_cursor, (fh_contents ucmp contents es).
  - intros i k h e Hi He. destruct (Hat i k h Hi) as (f & Hf & -> & _ & _ & _ & Ec). rewrite Ec in He. by eapply Hin.
  - intros i j k h k' h' e Hi Hj Hij He. destruct (Hat i k h Hi) as (f & Hf & -> & _ & _), (Hat j k' h' Hj) as (g & Hg & _ & _ & _ & _ & Ec). rewrite Ec in He.
    apply (compare_lt_le_trans _ (smallest g)); [|by eapply Hin]. exact (StronglySorted_lookup _ _ _ _ _ _ Hd Hf Hg Hij).
  - by rewrite length_map.
  - split; [done|]. cbn. lia.
Qed.

Lemma level_entries_sorted files : Forall file_holds files -> disjoint_files ucmp files -> StronglySorted (fun a b => cmp ucmp a b = Lt) (concat (map es files)).
Proof using ComparatorLaws0.
  induction files as [|f files IH]; intros Hh Hd; [constructor|]. cbn [map concat]. apply StronglySorted_app. pose proof Hh as [Hf Hfs]%Forall_cons. split; [|split].
  - intros a b Ha Hb. apply list_elem_of_In, in_concat in Hb as (x & (g & <- & Hg)%in_map_iff & Hb). apply list_elem_of_In in Hg. apply list_elem_of_lookup in Hg as (j & Hg).
    apply (level_order ucmp contents es (f :: files) O (S j) f g a b); try done; [lia|by apply list_elem_of_In].
  - by apply (fh_sorted ucmp contents es).
  - apply IH; [done|]. by inversion Hd.
Qed.

(** An iterator goes over entries, which are in order. *)
Definition gives {S : Type} `{IS : Iterator S} (s : S) (l : list entry) : Prop :=
  cursor icmp (map e_pair l) s None /\ StronglySorted (fun a b => cmp ucmp a b = Lt) l.

Lemma table_gives ro f : file_holds f -> gives (table_iterator ro (number f) (file_size f)) (es f).
Proof using TableIteratorLaws0. intros Hf. split; [by apply table_cursor, (fh_contents ucmp contents es)|by apply (fh_sorted ucmp contents es)]. Qed.

#[local] Instance file_iterator ro : Iterator (FileIterator T) := FileIterator_Iterator table_iterator ucmp ro files_fuel.

Lemma inl_gives {A B : Type} `{!Iterator A} `{!Iterator B} (a : A) l : gives a l -> gives (inl a : A + B) l.
Proof. intros [Hc Hs]. split; [by apply inl_cursor|done]. Qed.
Lemma inr_gives {A B : Type} `{!Iterator A} `{!Iterator B} (b : B) l : gives b l -> gives (inr b : A + B) l.
Proof. intros [Hc Hs]. split; [by apply inr_cursor|done]. Qed.

(** The files of a level that can be read as one. *)
Definition readable_level (files : list FilePtr) : Prop :=
  Forall encodable files /\ Forall file_holds files /\ disjoint_files ucmp files /\ size_of files < 2 ^ 31 /\ (length files + 1 < files_fuel)%nat.

Lemma level_gives ro files : readable_level files -> gives (IS := file_iterator ro) (NewConcatenatingIterator ucmp files) (concat (map es files)).
Proof using All.
  intros (He & Hh & Hd & Hs & Hf). split; [|by apply level_entries_sorted].
  rewrite concat_map, map_map. by apply (concatenating_cursor ro).
Qed.

Lemma tables_give ro files : Forall file_holds files ->
  Forall2 (gives (IS := sum_Iterator (Iterator1 := file_iterator ro))) (map (fun f : FilePtr => inl (table_iterator ro (number f) (file_size f))) files) (map es files).
Proof using TableIteratorLaws0. induction 1 as [|f files Hf Hh IH]; constructor; [by apply inl_gives, table_gives|done]. Qed.

(** A version whose files can be read. *)
Definition version_readable (v : Version) : Prop :=
  (forall l, Forall encodable (level_files v l)) /\ (forall l, (length (level_files v l) + 1 < files_fuel)%nat) /\ version_ok ucmp contents es v.

Lemma version_level v l : version_readable v -> 0 < l -> readable_level (level_files v l).
Proof using.
  intros (He & Hf & Hv) Hl. repeat split; [done| |by apply (vo_sorted ucmp contents es v Hv)|by apply (vo_size ucmp contents es v Hv)|done].
  apply Forall_forall. intros f. by apply (vo_files ucmp contents es v Hv).
Qed.

Lemma levels_give ro v ls : version_readable v -> Forall (fun l => 0 < l) ls ->
  exists lss, Forall2 (gives (IS := sum_Iterator (Iterator1 := file_iterator ro)))
    (concat (map (fun level => match level_files v level with [] => [] | files => [inr (NewConcatenatingIterator ucmp files)] end) ls)) lss /\
    concat lss = concat (map (level_entries es v) ls).
Proof using All.
  intros Hv. induction 1 as [|l ls Hl Hls (lss & Hg & E)]; [by exists []|]. cbn [map concat].
  pose proof (version_level v l Hv Hl) as Hlv. unfold level_entries at 1. destruct (level_files v l) as [|f fs]; [by exists lss|].
  exists (concat (map es (f :: fs)) :: lss). split; [constructor; [|done]|by cbn [concat]; rewrite E].
  apply (inr_gives (Iterator2 := file_iterator ro)), level_gives, Hlv.
Qed.

(** The iterators over a version give its entries. *)
Lemma AddIterators_give ro v : version_readable v ->
  exists lss, Forall2 (gives (IS := sum_Iterator (Iterator1 := file_iterator ro))) (AddIterators table_iterator ucmp ro v) lss /\ concat lss = version_entries es v.
Proof using All.
  intros Hv. destruct (levels_give ro v (tail levels) Hv) as (lss & Hg & E); [by repeat constructor|].
  exists (map es (level_files v 0) ++ lss). split.
  - apply Forall2_app; [|done]. apply tables_give, Forall_forall. intros f. by apply (vo_files ucmp contents es v), Hv.
  - by rewrite concat_app, E.
Qed.

(** Iterators that are merged. *)
Lemma merged_gives {S : Type} `{IS : Iterator S} (children : list S) lss l : Forall fits l -> Forall2 gives children lss -> StronglySorted (fun a b => cmp ucmp a b = Lt) l -> l ≡ₚ concat lss ->
  gives (IS := sum_Iterator (Iterator1 := Merging_Iterator icmp)) (NewMergingIterator children) l.
Proof using ComparatorLaws0.
  intros Hf Hg Hs Hp. split; [|done]. apply (NewMergingIterator_cursor icmp children (map (map e_pair) lss)).
  - apply Forall2_fmap_r. eapply Forall2_impl; [exact Hg|]. by intros s x [? _].
  - apply Forall_fmap. apply Forall_forall. intros x Hx. apply list_elem_of_lookup in Hx as (i & Hi). destruct (Forall2_lookup_r _ _ _ _ _ Hg Hi) as (s & _ & _ & Hx). by apply MemTable.sorted_pairs.
  - by apply MemTable.sorted_pairs.
  - rewrite <- concat_map. change (map e_pair l ≡ₚ map e_pair (concat lss)). by rewrite Hp.
  - apply Forall_fmap. eapply Forall_impl; [exact Hf|]. intros e He. change (size_of (internal_key e) < 2 ^ 32). rewrite MemTable.size_internal_key by done. by destruct He as (_ & ? & _).
Qed.

(** The files of an input, which are merged one by one when they are of level 0. *)
Definition input_readable (c : Compaction) (which : Z) (files : list FilePtr) : Prop :=
  if level_ c + which =? 0 then Forall file_holds files else readable_level files.

Lemma input_give ro c which files : input_readable c which files ->
  exists lss, Forall2 (gives (IS := sum_Iterator (Iterator1 := file_iterator ro))) (input_iterators table_iterator ucmp ro c which files) lss /\ concat lss = concat (map es files).
Proof using All.
  unfold input_readable, input_iterators. intros H. destruct files as [|f fs]; [by exists []|]. destruct (level_ c + which =? 0).
  - exists (map es (f :: fs)). split; [by apply tables_give|done].
  - exists [concat (map es (f :: fs))]. split; [|by cbn [concat]; rewrite app_nil_r]. constructor; [|done].
    by apply (inr_gives (Iterator2 := file_iterator ro)), level_gives.
Qed.

Definition input_entries (c : Compaction) : list entry := concat (map es (fst (inputs_ c))) ++ concat (map es (snd (inputs_ c))).

Lemma MakeInputIterator_gives paranoid c l : Forall fits l -> input_readable c 0 (fst (inputs_ c)) -> input_readable c 1 (snd (inputs_ c)) ->
  StronglySorted (fun a b => cmp ucmp a b = Lt) l -> l ≡ₚ input_entries c ->
  cursor (Iterator0 := InputIterator_Iterator table_iterator ucmp (input_options paranoid) files_fuel) icmp (map e_pair l) (MakeInputIterator table_iterator ucmp paranoid files_fuel c) None.
Proof using All.
  intros Hf H0 H1 Hs Hp. destruct (input_give (input_options paranoid) c 0 _ H0) as (l0 & Hg0 & E0), (input_give (input_options paranoid) c 1 _ H1) as (l1 & Hg1 & E1).
  apply (merged_gives (IS := sum_Iterator (Iterator1 := file_iterator (input_options paranoid))) _ (l0 ++ l1) l Hf); [by apply Forall2_app|done|].
  by rewrite concat_app, E0, E1.
Qed.
End IteratorLaws.

(** ** Reads *)

Section DatabaseLaws.
Context {E W : Type} (ucmp : Comparator) `{!ComparatorLaws ucmp} (contents : Z -> Z -> option (list (bytes * bytes))) (es : FilePtr -> list entry).
Implicit Types db : DBImpl E W.

(** The entries of the database: those of the memtable, of the immutable one and of the
    files of the current version. *)
Definition db_entries (ms ims : list entry) db : list entry := ms ++ ims ++ version_entries es (current (versions_ db)).

(** The state of a database that can be read: the entries that the memtables hold, the
    newer ones first, and the version is well formed. *)
Record db_ok (ms ims : list entry) db : Prop := {
  do_mem : exists m, mem_ db = Some m /\ mem_rep ucmp m ms;
  do_imm : match imm_ db with Some m => mem_rep ucmp m ims | None => ims = [] end;
  do_version : version_ok ucmp contents es (current (versions_ db));
  do_newer : newer ucmp ms (ims ++ version_entries es (current (versions_ db)));
  do_newer_imm : newer ucmp ims (version_entries es (current (versions_ db)))
}.

(** A memtable answers as a version does. *)
Lemma outcome_answer r value : match r with
  | None => outcome r value OK = (false, value, OK)
  | Some e => exists s v, outcome r value OK = (true, v, s) /\ answer r value s v
  end.
Proof. destruct r as [e|]; [|done]. unfold outcome, answer. destruct (e_type e); by do 2 eexists. Qed.

Context `{!TableGetter E} (readable : E -> Prop) `{!TableGetterLaws E ucmp readable contents}.

Lemma lookup_layers_spec ro u s ms ims db mem value : db_ok ms ims db -> mem_ db = Some mem -> readable (env_ db) -> size_of u + 8 < 2 ^ 32 -> 0 <= s <= kMaxSequenceNumber ->
  exists st v stats env, lookup_layers ucmp ro (LookupKey_make u s) mem (imm_ db) (current (versions_ db)) value (env_ db) = Some (st, v, stats, env) /\ readable env /\
    (read_failed ucmp contents es st \/ exists r, is_newest ucmp u s (db_entries ms ims db) r /\ answer r value st v).
Proof using All.
  intros [(m & Em & Hm) Hi Hv Hn Hni] Emem Hr Hu Hs. rewrite Em in Emem. injection Emem as <-. unfold lookup_layers, db_entries.
  destruct (MemTable.Get_rep ucmp m ms u s value OK Hm Hu Hs) as (r & -> & Hnr). cbn [mbind option_bind].
  destruct r as [e|].
  { destruct (outcome_answer (Some e) value) as (st & v & -> & Ha). exists st, v, None, (env_ db). split; [done|]. split; [done|]. right. exists (Some e). split; [by apply (newest_older ucmp readable contents)|done]. }
  rewrite (outcome_answer None value).
  assert (Himm : exists r, match imm_ db with Some m => MemTable.Get ucmp (LookupKey_make u s) m value OK | None => Some (false, value, OK) end = Some (outcome r value OK) /\ is_newest ucmp u s ims r).
  { destruct (imm_ db) as [m'|]; [by apply MemTable.Get_rep|]. exists None. split; [done|]. rewrite Hi. intros a Ha. by apply not_elem_of_nil in Ha. }
  destruct Himm as (r & -> & Hir). cbn [mbind option_bind]. destruct r as [e|].
  { destruct (outcome_answer (Some e) value) as (st & v & -> & Ha). exists st, v, None, (env_ db). split; [done|]. split; [done|]. right. exists (Some e).
    split; [by apply (newest_none ucmp readable contents), (newest_older ucmp readable contents)|done]. }
  rewrite (outcome_answer None value).
  destruct (Version_Get_spec ucmp readable contents es ro u s (current (versions_ db)) value (env_ db) Hv Hr Hu Hs) as (st & v & stats & c & -> & Hc & Hres).
  exists st, v, (Some stats), c. split; [done|]. split; [done|]. destruct Hres as [Hf|(r & Hr' & Ha)]; [by left|right]. exists r. split; [by apply (newest_none ucmp readable contents), (newest_none ucmp readable contents)|done].
Qed.

(** The parts that a read of [Get] does not change. *)
Definition same_data db db' : Prop := mem_ db' = mem_ db /\ imm_ db' = imm_ db /\ log_ db' = log_ db /\ snapshots_ db' = snapshots_ db /\ bg_error_ db' = bg_error_ db.

Lemma same_data_schedule db : same_data db (MaybeScheduleCompaction db).
Proof. unfold MaybeScheduleCompaction. by destruct (bg_compaction_scheduled_ db), (shutting_down_ db), (negb (ok (bg_error_ db))), (negb (has_work db)). Qed.

Lemma Get_spec ro snapshot u value (others : DBImpl E W -> DBImpl E W) ms ims db : let s := default (vs_last_sequence_ (versions_ db)) snapshot in
  db_ok ms ims db -> readable (env_ db) -> size_of u + 8 < 2 ^ 32 -> 0 <= s <= kMaxSequenceNumber ->
  exists st v db', Get ucmp ro snapshot u value others db = Some (st, v, db') /\
    (exists env, readable env /\ same_data (others (set_env env (set_vset (Version_Ref (current_ (versions_ db)) (versions_ db)) db))) db') /\
    (read_failed ucmp contents es st \/ exists r, is_newest ucmp u s (db_entries ms ims db) r /\ answer r value st v).
Proof using All.
  intros s Hdb Hr Hu Hs. destruct (do_mem _ _ _ Hdb) as (m & Em & _). unfold Get. rewrite Em. cbn [mbind option_bind]. fold s.
  destruct (lookup_layers_spec ro u s ms ims db m value Hdb Em Hr Hu Hs) as (st & v & stats & env & E1 & Henv & Hres).
  change (imm_ (set_vset ?x db)) with (imm_ db). change (env_ (set_vset ?x db)) with (env_ db). rewrite E1. cbn [mbind option_bind].
  destruct stats as [stats|]; [destruct (UpdateStats _ _ _) as [[[] v'] seeks]|]; do 3 eexists; (split; [reflexivity|]); (split; [|exact Hres]); exists env; (split; [exact Henv|]).
  - match goal with |- same_data _ (set_vset _ (MaybeScheduleCompaction ?d)) => exact (same_data_schedule d) end.
  - done.
  - done.
Qed.
End DatabaseLaws.

(** ** Iterators *)

Section DatabaseIterators.
Context {E W : Type} (ucmp : Comparator) `{!ComparatorLaws ucmp} (contents : Z -> Z -> option (list (bytes * bytes))) (es : FilePtr -> list entry).
Implicit Types db : DBImpl E W.

Abbreviation db_ok := (db_ok ucmp contents es).
Abbreviation db_entries := (db_entries es).

Context {T : Type} `{!Iterator T} (table_iterator : ReadOptions -> Z -> Z -> T) (files_fuel : nat) `{!TableIteratorLaws T ucmp contents table_iterator}.

#[local] Instance internal_iterator ro : Iterator (InternalIterator T) := InternalIterator_Iterator table_iterator files_fuel ucmp ro.

Lemma version_fits v : version_ok ucmp contents es v -> Forall fits (version_entries es v).
Proof using.
  intros Hv. apply Forall_forall. intros e He. apply list_elem_of_In, in_concat in He as (x & (l & <- & _)%in_map_iff & He). apply in_concat in He as (x & (f & <- & Hf)%in_map_iff & He).
  apply list_elem_of_In in Hf, He. pose proof (fh_fits _ _ _ f (vo_files _ _ _ v Hv l f Hf)) as H. rewrite Forall_forall in H. by apply H.
Qed.

Lemma db_fits ms ims db : db_ok ms ims db -> Forall fits (db_entries ms ims db).
Proof using.
  intros [(m & _ & [Hm _]) Hi Hv _ _]. apply Forall_app. split; [done|]. apply Forall_app. split; [|by apply version_fits].
  destruct (imm_ db) as [m'|]; [by destruct Hi|by rewrite Hi].
Qed.

Lemma internal_children_give ro m ms ims db : mem_ db = Some m -> db_ok ms ims db -> version_readable files_fuel ucmp contents es (current (versions_ db)) ->
  exists lss, Forall2 (gives ucmp (IS := Child_Iterator table_iterator files_fuel ucmp ro)) (internal_children table_iterator ucmp ro m (imm_ db) (current (versions_ db))) lss /\
    concat lss = db_entries ms ims db.
Proof using All.
  intros Em [(m' & Em' & Hm) Hi Hv _ _] Hread. rewrite Em in Em'. injection Em' as <-.
  assert (Hmem : forall m l, mem_rep ucmp m l -> gives ucmp (IS := Child_Iterator table_iterator files_fuel ucmp ro) (inl (MemTable.NewIterator m)) l).
  { intros m1 l Hl. apply (inl_gives ucmp (Iterator1 := MemTableIterator_Iterator ucmp)). split; [by apply MemTable.memtable_cursor|by eapply MemTable.rep_sorted]. }
  destruct (AddIterators_give table_iterator files_fuel ucmp contents es ro _ Hread) as (lss & Hg & Ec).
  assert (Hv' : Forall2 (gives ucmp (IS := Child_Iterator table_iterator files_fuel ucmp ro)) (map inr (AddIterators table_iterator ucmp ro (current (versions_ db)))) lss).
  { apply Forall2_fmap_l. eapply Forall2_impl; [exact Hg|]. intros s l Hs. by apply (inr_gives ucmp (Iterator1 := MemTableIterator_Iterator ucmp)). }
  unfold internal_children, db_entries. rewrite <- Ec. destruct (imm_ db) as [m1|].
  - exists (ms :: ims :: lss). split; [|done]. constructor; [by apply Hmem|]. constructor; [by apply Hmem|done].
  - exists (ms :: lss). rewrite Hi. split; [|done]. constructor; [by apply Hmem|done].
Qed.

Lemma NewIterator_spec ro snapshot ms ims db fuel : let s := default (vs_last_sequence_ (versions_ db)) snapshot in
  db_ok ms ims db -> version_readable files_fuel ucmp contents es (current (versions_ db)) ->
  NoDup (db_entries ms ims db) -> distinct ucmp (db_entries ms ims db) -> 0 <= s <= kMaxSequenceNumber -> (2 * length (db_entries ms ims db) + 1 < fuel)%nat ->
  exists view (rep : DBIter (InternalIterator T) -> option nat -> Prop),
    (sorted_entries ucmp view /\ forall u v, (exists u', (u', v) ∈ view /\ Compare ucmp u' u = Eq) <->
       exists e, is_newest ucmp u s (db_entries ms ims db) (Some e) /\ e_type e = kTypeValue /\ e_value e = v) /\
    user_cursor (Iterator0 := DBIter_Iterator (Iterator0 := internal_iterator ro) ucmp fuel) ucmp view (2 ^ 32 - 8) rep /\
    exists iter db', NewIterator table_iterator files_fuel ucmp ro snapshot db = Some (iter, current_ (versions_ db), db') /\ rep iter None /\ same_data db db'.
Proof using All.
  intros s Hdb Hread Hnd Hd Hs Hfuel. pose proof (db_fits ms ims db Hdb) as Hf. destruct (MemTable.sort_entries ucmp _ Hf Hnd Hd) as (l & Hp & Hsorted).
  destruct (do_mem _ _ _ _ _ _ Hdb) as (m & Em & _). destruct (internal_children_give ro m ms ims db Em Hdb Hread) as (lss & Hg & Ec).
  assert (Hfl : Forall fits l) by (by rewrite Hp). assert (Hdl : distinct ucmp l) by (by eapply MemTable.distinct_perm; [symmetry|]).
  destruct (merged_gives ucmp (IS := Child_Iterator table_iterator files_fuel ucmp ro) _ lss l Hfl Hg Hsorted) as [Hcur _]; [by rewrite Ec|].
  destruct (NewDBIterator_view ucmp (Iterator0 := internal_iterator ro) s l (cursor (Iterator0 := internal_iterator ro) (InternalKeyComparator ucmp) (map e_pair l)) fuel Hfl Hsorted Hdl Hs) as ((rep & Huc & Hnew) & Hv1 & Hv2).
  { rewrite Hp. lia. }
  exists (user_view ucmp s l), rep. split; [|split; [exact Huc|]].
  - split; [exact Hv1|]. intros u v. rewrite Hv2. split; intros (e & He & Hv); exists e; (split; [|done]).
    + pose proof (MemTable.newest_is_newest ucmp u s l) as H. rewrite He in H. by eapply MemTable.is_newest_perm.
    + apply (MemTable.is_newest_unique ucmp u s l (db_entries ms ims db)); [done|done|exact (MemTable.newest_is_newest ucmp u s l)|done].
  - unfold NewIterator, NewInternalIterator. rewrite Em. cbn [mbind option_bind]. do 2 eexists. split; [reflexivity|]. split; [|done]. by apply (Hnew _ None).
Qed.
End DatabaseIterators.

(** ** Properties *)

(** C7: [Get] of a database answers, whatever other threads do meanwhile, with the newest
    entry of the key among those of the memtable, the immutable memtable and all the files
    of the current version, that is not above the sequence number of the snapshot (the
    last one when there is none): the value, or [NotFound] for a deletion or no entry; or
    it passes on the error that reading a file gave.  It always returns. *)
Theorem db_get {E W : Type} (ucmp : Comparator) `{!ComparatorLaws ucmp} (contents : Z -> Z -> option (list (bytes * bytes))) (es : FilePtr -> list entry)
    `{!TableGetter E} (readable : E -> Prop) `{!TableGetterLaws E ucmp readable contents}
    ro snapshot u value (others : DBImpl E W -> DBImpl E W) ms ims (db : DBImpl E W) : let s := default (vs_last_sequence_ (versions_ db)) snapshot in
  db_ok ucmp contents es ms ims db -> readable (env_ db) -> size_of u + 8 < 2 ^ 32 -> 0 <= s <= kMaxSequenceNumber ->
  exists st v db', Get ucmp ro snapshot u value others db = Some (st, v, db') /\
    (exists env, readable env /\ same_data (others (set_env env (set_vset (Version_Ref (current_ (versions_ db)) (versions_ db)) db))) db') /\
    (read_failed ucmp contents es st \/ exists r, is_newest ucmp u s (db_entries es ms ims db) r /\ answer r value st v).
Proof. intros. by apply (Get_spec ucmp contents es readable). Qed.

(** C8: an iterator of a database goes, in both directions and with searches, over the
    values that reads at its sequence number give, in the order of their user keys, and
    only over these: the merge of the iterators over the memtables, the files of level 0
    and the files of each other level, on which the shadowed, deleted and later entries
    are passed over, is a cursor on that view. *)
Theorem db_new_iterator {E W T : Type} `{!Iterator T} (ucmp : Comparator) `{!ComparatorLaws ucmp} (contents : Z -> Z -> option (list (bytes * bytes))) (es : FilePtr -> list entry)
    (table_iterator : ReadOptions -> Z -> Z -> T) `{!TableIteratorLaws T ucmp contents table_iterator} (files_fuel fuel : nat) ro snapshot ms ims (db : DBImpl E W) :
  let s := default (vs_last_sequence_ (versions_ db)) snapshot in
  db_ok ucmp contents es ms ims db -> version_readable files_fuel ucmp contents es (current (versions_ db)) ->
  NoDup (db_entries es ms ims db) -> distinct ucmp (db_entries es ms ims db) -> 0 <= s <= kMaxSequenceNumber -> (2 * length (db_entries es ms ims db) + 1 < fuel)%nat ->
  exists view (rep : DBIter (InternalIterator T) -> option nat -> Prop),
    (sorted_entries ucmp view /\ forall u v, (exists u', (u', v) ∈ view /\ Compare ucmp u' u = Eq) <->
       exists e, is_newest ucmp u s (db_entries es ms ims db) (Some e) /\ e_type e = kTypeValue /\ e_value e = v) /\
    user_cursor (Iterator0 := DBIter_Iterator (Iterator0 := InternalIterator_Iterator table_iterator files_fuel ucmp ro) ucmp fuel) ucmp view (2 ^ 32 - 8) rep /\
    exists iter db', NewIterator table_iterator files_fuel ucmp ro snapshot db = Some (iter, current_ (versions_ db), db') /\ rep iter None /\ same_data db db'.
Proof. intros. by eapply NewIterator_spec. Qed.

(** C9: the iterator over the inputs of a compaction is a cursor on the entries of all its
    input files in the order of their internal keys: the files of level 0 are merged one
    by one, those of another level are read one after the other. *)
Theorem make_input_iterator {T : Type} `{!Iterator T} (ucmp : Comparator) `{!ComparatorLaws ucmp} (contents : Z -> Z -> option (list (bytes * bytes))) (es : FilePtr -> list entry)
    (table_iterator : ReadOptions -> Z -> Z -> T) `{!TableIteratorLaws T ucmp contents table_iterator} (files_fuel : nat) paranoid c :
  input_readable files_fuel ucmp contents es c 0 (fst (inputs_ c)) -> input_readable files_fuel ucmp contents es c 1 (snd (inputs_ c)) ->
  Forall fits (input_entries es c) -> NoDup (input_entries es c) -> distinct ucmp (input_entries es c) ->
  exists l, l ≡ₚ input_entries es c /\ sorted_entries (InternalKeyComparator ucmp) (map e_pair l) /\
    cursor (Iterator0 := InputIterator_Iterator table_iterator ucmp (input_options paranoid) files_fuel) (InternalKeyComparator ucmp) (map e_pair l) (MakeInputIterator table_iterator ucmp paranoid files_fuel c) None.
Proof.
  intros H0 H1 Hf Hnd Hd. destruct (MemTable.sort_entries ucmp _ Hf Hnd Hd) as (l & Hp & Hs). exists l. split; [done|]. split; [by apply MemTable.sorted_pairs|].
  eapply MakeInputIterator_gives; try done. by rewrite Hp.
Qed.

(** *** A database of three layers *)

#[local] Instance sample_iterator : Iterator ListIterator := ListIterator_Iterator (InternalKeyComparator BytewiseComparator).
Definition sample_table_iterator (ro : ReadOptions) (n size : Z) : ListIterator := mkListIterator (default [] (sample_contents n size)) None.

#[local] Instance sample_table_laws : TableIteratorLaws ListIterator BytewiseComparator sample_contents sample_table_iterator.
Proof. split. intros ro n size kvs Hk. unfold sample_table_iterator. rewrite Hk. eexists. split; [by apply ListIterator_laws; exact _|]. by repeat split. Qed.

Definition sample_ms : list entry := [MemTable.mkEntry 20 kTypeValue (str "b") (str "mem")].
Definition sample_ims : list entry := [MemTable.mkEntry 12 kTypeDeletion (str "a") []; MemTable.mkEntry 11 kTypeValue (str "e") (str "imm")].
Definition sample_mem (l : list entry) : MemTable := default (MemTable.MemTable_make Arena.next_array) (MemTable.add_all BytewiseComparator Arena.next_array l (Some (MemTable.MemTable_make Arena.next_array))).
Definition sample_db : DBImpl Tables bytes :=
  set_mems (Some (sample_mem sample_ms)) (Some (sample_mem sample_ims)) (set_vset (VersionSet_SetLastSequence 30 sample_vs) (DBImpl_make (str "/db/") (str "test") sample_cache)).

Lemma sample_mem_ok l : Forall fits l -> NoDup l -> distinct BytewiseComparator l -> StronglySorted (fun a b => cmp BytewiseComparator a b = Lt) l -> mem_rep BytewiseComparator (sample_mem l) l.
Proof.
  intros H1 H2 H3 Hs. destruct (MemTable.add_all_rep BytewiseComparator Arena.next_array l [] _ (MemTable.make_rep BytewiseComparator Arena.next_array) H1 H2 H3) as (m & l' & E & Hm & Hp).
  cbn [app] in Hp. unfold sample_mem. rewrite E. cbn [default]. assert (l' = l) as ->; [|done]. eapply (sorting.StronglySorted_unique_strong (fun a b => cmp BytewiseComparator a b = Lt)); [|by eapply MemTable.rep_sorted|done|done].
  intros a b _ _ Hab Hba. change (Compare (InternalKeyComparator BytewiseComparator) (internal_key a) (internal_key b) = Lt) in Hab.
  change (Compare (InternalKeyComparator BytewiseComparator) (internal_key b) (internal_key a) = Lt) in Hba. apply compare_gt_lt in Hba. congruence.
Qed.

Lemma newer_decide ucmp a b : forallb (fun e => forallb (fun e' => match Compare ucmp (e_key e) (e_key e') with Eq => e_seq e' <? e_seq e | _ => true end) b) a = true -> newer ucmp a b.
Proof. intros H e e' He He' Hk. rewrite forallb_forall in H. specialize (H e (proj1 (list_elem_of_In _ _) He)). rewrite forallb_forall in H. specialize (H e' (proj1 (list_elem_of_In _ _) He')). rewrite Hk in H. by apply Z.ltb_lt. Qed.

Lemma sample_db_ok : db_ok BytewiseComparator sample_contents sample_es sample_ms sample_ims sample_db.
Proof.
  split.
  - eexists. split; [reflexivity|]. apply sample_mem_ok; [repeat constructor; vm_compute; discriminate|apply NoDup_singleton|apply MemTable.distinct_decide; vm_compute; reflexivity|repeat constructor].
  - apply sample_mem_ok; [repeat constructor; vm_compute; discriminate| |apply MemTable.distinct_decide; vm_compute; reflexivity|repeat constructor].
    apply NoDup_cons. split; [|apply NoDup_singleton]. intros H%list_elem_of_singleton. done.
  - change (version_ok BytewiseComparator sample_contents sample_es sample_seek). destruct sample_version_ok. by split.
  - apply newer_decide. vm_compute. reflexivity.
  - apply newer_decide. vm_compute. reflexivity.
Qed.

Lemma db_get_witness : exists db', Get BytewiseComparator ReadOptions_make None (str "b") [] (fun db => db) sample_db = Some (OK, str "mem", db') /\
  (exists r, is_newest BytewiseComparator (str "b") 30 (db_entries sample_es sample_ms sample_ims sample_db) r /\ answer r [] OK (str "mem")).
Proof.
  destruct (db_get BytewiseComparator sample_contents sample_es (fun c => c = sample_cache) ReadOptions_make None (str "b") [] (fun db => db) sample_ms sample_ims sample_db sample_db_ok) as (st & v & db' & E & _ & H).
  - reflexivity.
  - by vm_compute.
  - by vm_compute.
  - assert (Hv : fst <$> Get BytewiseComparator ReadOptions_make None (str "b") [] (fun db => db) sample_db = Some (OK, str "mem")) by (vm_compute; reflexivity).
    rewrite E in Hv. cbn [fmap option_fmap option_map fst] in Hv. apply (inj Some) in Hv. injection Hv as -> ->. exists db'. split; [exact E|].
    destruct H as [[H _]|H]; [discriminate|exact H].
Defined.

#[local] Existing Instance MemTable.entry_eq_dec.

Lemma sample_db_entries_ok : NoDup (db_entries sample_es sample_ms sample_ims sample_db) /\ distinct BytewiseComparator (db_entries sample_es sample_ms sample_ims sample_db).
Proof.
  split; [|apply MemTable.distinct_decide; vm_compute; reflexivity].
  apply (bool_decide_unpack (NoDup (db_entries sample_es sample_ms sample_ims sample_db))). vm_compute. reflexivity.
Qed.

Lemma sample_encodable l : Forall encodable (level_files sample_version l).
Proof.
  apply Forall_forall. intros f Hf. apply sample_level in Hf as [[_ [-> | ->]]|[_ ->]]; by vm_compute.
Qed.

Lemma sample_length l : (length (level_files sample_version l) <= 2)%nat.
Proof.
  unfold level_files. generalize (Z.to_nat l). intros n. do 8 (destruct n as [|n]; [vm_compute; lia|]). by destruct n; vm_compute; lia.
Qed.

Lemma sample_readable : version_readable 5 BytewiseComparator sample_contents sample_es (current (versions_ sample_db)).
Proof.
  change (version_readable 5 BytewiseComparator sample_contents sample_es sample_seek). split; [exact sample_encodable|]. split; [|exact (do_version _ _ _ _ _ _ sample_db_ok)].
  intros l. pose proof (sample_length l). change (level_files sample_seek l) with (level_files sample_version l). lia.
Qed.

Lemma db_new_iterator_witness : exists (rep : DBIter (InternalIterator ListIterator) -> option nat -> Prop) view iter db',
  sorted_entries BytewiseComparator view /\ NewIterator sample_table_iterator 5 BytewiseComparator ReadOptions_make (Some 25) sample_db = Some (iter, 2%nat, db') /\ rep iter None.
Proof.
  destruct sample_db_entries_ok as [Hnd Hd].
  destruct (db_new_iterator (T := ListIterator) BytewiseComparator sample_contents sample_es sample_table_iterator 5 40 ReadOptions_make (Some 25) sample_ms sample_ims sample_db sample_db_ok sample_readable Hnd Hd) as (view & rep & [Hv _] & _ & iter & db' & E & Hr & _).
  - by vm_compute.
  - vm_compute. lia.
  - exists rep, view, iter, db'. split; [exact Hv|]. split; [exact E|exact Hr].
Defined.

Lemma make_input_iterator_witness : exists l, l ≡ₚ input_entries sample_es sample_compaction /\ 
  cursor (Iterator0 := InputIterator_Iterator sample_table_iterator BytewiseComparator (input_options true) 5) (InternalKeyComparator BytewiseComparator) (map e_pair l)
    (MakeInputIterator sample_table_iterator BytewiseComparator true 5 sample_compaction) None.
Proof.
  assert (E0 : fst (inputs_ sample_compaction) = level_files sample_version 0) by (vm_compute; reflexivity).
  assert (E1 : snd (inputs_ sample_compaction) = level_files sample_version 1) by (vm_compute; reflexivity).
  destruct (make_input_iterator BytewiseComparator sample_contents sample_es sample_table_iterator 5 true sample_compaction) as (l & Hp & _ & Hc).
  - rewrite E0. change (Forall (file_holds BytewiseComparator sample_contents sample_es) (level_files sample_version 0)). apply Forall_forall. intros f. exact (vo_files _ _ _ _ sample_version_ok 0 f).
  - rewrite E1. unfold input_readable. replace (level_ sample_compaction + 1 =? 0) with false by (vm_compute; reflexivity).
    exact (version_level 5 BytewiseComparator sample_contents sample_es (current (versions_ sample_db)) 1 sample_readable ltac:(lia)).
  - repeat constructor; vm_compute; discriminate.
  - apply (bool_decide_unpack (NoDup (input_entries sample_es sample_compaction))). vm_compute. reflexivity.
  - apply MemTable.distinct_decide. vm_compute. reflexivity.
  - exists l. split; [exact Hp|exact Hc].
Defined.
