(* ===== verification/TableCache.v ===== *)
(** * TableCache: the tables that are open

    Models [db/table_cache.h] and [db/table_cache.cpp] over the cache ([Cache]), the
    tables ([Table]) and an environment that opens files for random access.  The block
    cache that the tables share is part of the state, with what the reads of
    [table/table.cpp] do to it; an iterator sees it as it was when it was made. *)

From S2P Require Import Prelude Coding Slice Comparator FilterPolicy DbFormat Iterator Env Format FileName TwoLevel TableBuilder Table CacheClient Version.
From S2P Require Block Cache MemTable DBImpl DBRead.
Import Block(Block, blk_size, Block_make, Iter_Iterator).
#[local] Existing Instance Iter_Iterator.
Import Cache(ShardedLRUCache, Handle, Value, Sharded_Lookup, Sharded_Insert, Sharded_Release, Sharded_Erase, NewId, NewLRUCache).

(** What the table cache asks of an [Env]. *)
Class OpenFiles (E F : Type) := { NewRandomAccessFile : bytes -> E -> (Status + F) * E }.

Section TableCache.
Context {E F : Type} `{!OpenFiles E F} `{!RandomAccessFile F} (snappy : option SnappyLib) (in_buf : bool).

Record TableAndFile : Type := mkTableAndFile { tf_file : F; tf_table : Table F }.

(** With the files of the environment; [freed_] has the tables that were deleted with
    their files, the last first. *)
Record TableCache : Type := mkTableCache {
  files_ : E;
  dbpath_ : bytes;
  dbname_ : bytes;
  options_ : Options;
  cache_ : ShardedLRUCache TableAndFile;
  block_cache_ : option (ShardedLRUCache Block);
  freed_ : list TableAndFile
}.
Implicit Types tc : TableCache.

Definition TableCache_make (dbpath dbname : bytes) (options : Options) (block_cache : option (ShardedLRUCache Block)) (entries : Z) (env : E) : TableCache :=
  mkTableCache env dbpath dbname options (NewLRUCache entries) block_cache [].

Definition set_files (env : E) tc : TableCache :=
  mkTableCache env (dbpath_ tc) (dbname_ tc) (options_ tc) (cache_ tc) (block_cache_ tc) (freed_ tc).
Definition set_block_cache (bc : option (ShardedLRUCache Block)) tc : TableCache :=
  mkTableCache (files_ tc) (dbpath_ tc) (dbname_ tc) (options_ tc) (cache_ tc) bc (freed_ tc).

(** The cache, and [DeleteEntry] of the values that left it. *)
Definition set_cache (ds : list (bytes * TableAndFile)) (c : ShardedLRUCache TableAndFile) tc : TableCache :=
  mkTableCache (files_ tc) (dbpath_ tc) (dbname_ tc) (options_ tc) c (block_cache_ tc) (rev (map snd ds) ++ freed_ tc).

Definition UnrefEntry (h : Handle) tc : TableCache := let '(ds, c) := Sharded_Release h (cache_ tc) in set_cache ds c tc.

(** [Lookup] and [Value] of the block cache. *)
Definition block_lookup tc : option (bytes -> option Block) :=
  (fun bc k => let '(h, bc) := Sharded_Lookup k bc in h ← h; Value h bc) <$> block_cache_ tc.

(** The id that [Table::Open] asks of the block cache when it makes a table. *)
Definition Table_Open (file : F) (file_size : Z) tc : Status * option (Table F) * TableCache :=
  let new_id := match block_cache_ tc with Some bc => fst (NewId bc) | None => 0 end in
  let '(s, table) := Open snappy in_buf (block_lookup tc) new_id (options_ tc) file file_size in
  let bc := match table with Some _ => (fun bc => snd (NewId bc)) <$> block_cache_ tc | None => block_cache_ tc end in
  (s, table, set_block_cache bc tc).

(** The file of a table: of the name, or of the name that tables had. *)
Definition open_file (file_number : Z) tc : (Status + F) * TableCache :=
  match NewRandomAccessFile (TableFileName (dbpath_ tc) (dbname_ tc) file_number) (files_ tc) with
  | (inr file, env) => (inr file, set_files env tc)
  | (inl s, env) =>
      match NewRandomAccessFile (SSTTableFileName (dbpath_ tc) (dbname_ tc) file_number) env with
      | (inr file, env) => (inr file, set_files env tc)
      | (inl _, env) => (inl s, set_files env tc)
      end
  end.

(** The number that is asked for is not used. *)
Definition FindTable (file_number file_size : Z) tc : Status * option Handle * TableCache :=
  let file_number := FILENUMBER_LDB in
  let key := EncodeFixed64 file_number in
  let '(handle, c) := Sharded_Lookup key (cache_ tc) in
  let tc := set_cache [] c tc in
  match handle with
  | Some _ => (OK, handle, tc)
  | None =>
      let '(r, tc) := open_file file_number tc in
      match r with
      | inl s => (s, None, tc)
      | inr file =>
          let '(s, table, tc) := Table_Open file file_size tc in
          match table with
          | Some table =>
              if ok s then
                let '(handle, ds, c) := Sharded_Insert key (mkTableAndFile file table) 1 (cache_ tc) in (s, handle, set_cache ds c tc)
              else (s, None, tc)
          | None => (s, None, tc)
          end
      end
  end.

(** *** What reads do to the block cache *)

(** The handle of the block that [InternalGet] reads, if it reads one. *)
Definition get_reads (k : bytes) (t : Table F) : option bytes :=
  let iiter := Seek k (Block.NewIterator (comparator (Table.options t)) (index_block t)) in
  if Valid iiter then if filtered t (value iiter) k then None else Some (value iiter) else None.

(** From [Lookup], or [Insert] after it, to [ReleaseBlock]. *)
Definition touch_block (lookup : bytes -> option Block) (opt : ReadOptions) (t : Table F) (index_value : bytes) (bc : ShardedLRUCache Block) : ShardedLRUCache Block :=
  let '(s, _, handle) := BlockHandle_DecodeFrom index_value BlockHandle_make in
  if negb (ok s) then bc
  else
    let '(h, bc) := Sharded_Lookup (cache_key t handle) bc in
    match h with
    | Some h => snd (Sharded_Release h bc)
    | None =>
        match snd (BlockReader snappy in_buf (Some lookup) t opt index_value) with
        | Some (k, block) =>
            let '(h, _, bc) := Sharded_Insert k block (blk_size block) bc in
            match h with Some h => snd (Sharded_Release h bc) | None => bc end
        | None => bc
        end
    end.

Definition touch (opt : ReadOptions) (t : Table F) (k : bytes) tc : TableCache :=
  match get_reads k t, block_cache_ tc, block_lookup tc with
  | Some index_value, Some bc, Some lookup => set_block_cache (Some (touch_block lookup opt t index_value bc)) tc
  | _, _, _ => tc
  end.

(** *** The operations *)

Definition Get {A} (options : ReadOptions) (file_number file_size : Z) (k : bytes) (arg : A) (saver : A -> bytes -> bytes -> A) tc : Status * A * TableCache :=
  let '(s, handle, tc) := FindTable file_number file_size tc in
  match handle with
  | Some h =>
      match Value h (cache_ tc) with
      | Some tf =>
          let t := tf_table tf in
          let '(s, arg) := InternalGet snappy in_buf (block_lookup tc) options k arg saver t in
          (s, arg, UnrefEntry h (touch options t k tc))
      | None => (s, arg, tc)       (* does not happen: the handle is held *)
      end
  | None => (s, arg, tc)
  end.

(** An iterator over a table: the table, the block cache it sees, its options. *)
Record OpenTable : Type := mkOpenTable {
  ot_table : Table F;
  ot_lookup : option (bytes -> option Block);
  ot_options : ReadOptions;
  ot_iter : TableIterator
}.

(** The iterator, and the handle that its cleanup releases. *)
Definition NewIterator (options : ReadOptions) (file_number file_size : Z) tc : (EmptyIterator + OpenTable) * option Handle * TableCache :=
  let '(s, handle, tc) := FindTable file_number file_size tc in
  match handle with
  | Some h =>
      match Value h (cache_ tc) with
      | Some tf => (inr (mkOpenTable (tf_table tf) (block_lookup tc) options (Table_NewIterator (tf_table tf))), Some h, tc)
      | None => (inl (NewErrorIterator s), None, tc)       (* does not happen *)
      end
  | None => (inl (NewErrorIterator s), None, tc)
  end.

Definition Evict (file_number : Z) tc : TableCache :=
  let '(ds, c) := Sharded_Erase (EncodeFixed64 file_number) (cache_ tc) in set_cache ds c tc.

(** The destructor: what is in the cache is deleted. *)
Definition TableCache_destroy tc : list TableAndFile := map snd (concat (map Cache.LRUCache_destroy (Cache.shard_ (cache_ tc)))).

(** *** Iterators *)

Definition on_iter (f : Iterator TableIterator -> TableIterator -> TableIterator) (o : OpenTable) : OpenTable :=
  mkOpenTable (ot_table o) (ot_lookup o) (ot_options o)
    (f (TableIterator_Iterator snappy in_buf (ot_lookup o) (ot_table o) (ot_options o)) (ot_iter o)).
Definition of_iter {A} (f : Iterator TableIterator -> TableIterator -> A) (o : OpenTable) : A :=
  f (TableIterator_Iterator snappy in_buf (ot_lookup o) (ot_table o) (ot_options o)) (ot_iter o).

#[local] Instance OpenTable_Iterator : Iterator OpenTable := {|
  Valid := of_iter (@Valid _);
  key := of_iter (@key _);
  value := of_iter (@value _);
  status := of_iter (@status _);
  SeekToFirst := on_iter (@SeekToFirst _);
  SeekToLast := on_iter (@SeekToLast _);
  Seek k := on_iter (fun i => @Seek _ i k);
  Next := on_iter (@Next _);
  Prev := on_iter (@Prev _)
|}.

(** The status of a new iterator, which is then deleted. *)
Definition iterator_status (options : ReadOptions) (file_number file_size : Z) tc : Status * TableCache :=
  let '(it, h, tc) := NewIterator options file_number file_size tc in
  (status it, match h with Some h => UnrefEntry h tc | None => tc end).
End TableCache.
Arguments TableAndFile : clear implicits.
Arguments TableCache : clear implicits.
Arguments OpenTable : clear implicits.

(** ** The interface of the database *)

Definition TableCache_getter {E F : Type} `{!OpenFiles E F} `{!RandomAccessFile F} snappy in_buf : TableGetter (TableCache E F) :=
  {| Cache_Get A := Get snappy in_buf |}.
Definition TableCache_ops {E F : Type} `{!OpenFiles E F} `{!RandomAccessFile F} snappy in_buf : DBImpl.TableCacheOps (TableCache E F) :=
  {| DBImpl.table_status := iterator_status snappy in_buf; DBImpl.Evict := Evict |}.

(** ** A table cache over one table file *)

Section Laws.
Context {E F : Type} `{!OpenFiles E F} `{!RandomAccessFile F} `{!RandomAccessFileLaws F} (snappy : option SnappyLib) (in_buf : bool).
Context (opt : Options) `{!ComparatorLaws (comparator opt)} `{!ShorteningLaws (comparator opt)}.
Context (keys : list bytes) (blocks : list (list (bytes * bytes))).
Context (Hinterval : 1 <= block_restart_interval opt) (Hsnappy : snappy_ok snappy).
Context (Hnonempty : Forall (fun es => es <> []) blocks) (Hlen : length keys = length blocks) (Hsep : separators opt keys blocks []).
Context (Hsorted : sorted_entries (comparator opt) (concat blocks)) (Hcost : table_cost (concat blocks) + 5 < 2 ^ 31).
Context (Hsize : size_of (table_file snappy opt keys blocks) < 2 ^ 32).
Context (Hname : forall policy, filter_policy opt = Some policy -> size_of (policy_Name policy) + 100 < 2 ^ 32).

(** A file with the table. *)
Definition table_in (fl : F) : Prop := file_contents fl = table_file snappy opt keys blocks /\ Table.readable fl.

Context (dbpath dbname : bytes) (opens : E -> Prop).
Context (Hopens : forall name env r env', opens env -> name = TableFileName dbpath dbname FILENUMBER_LDB \/ name = SSTTableFileName dbpath dbname FILENUMBER_LDB ->
  NewRandomAccessFile name env = (r, env') -> opens env' /\ match r with inl s => ok s = false | inr fl => table_in fl end).
Context (capacity block_capacity : Z) (Hcapacity : 0 <= capacity < 2 ^ 31 - 1) (Hblocks : 0 <= block_capacity < 2 ^ 31 - 1).

(** What the caches hold: the table, whatever its id, and its blocks. *)
Definition some_lookup (bc : option (ShardedLRUCache Block)) : option (bytes -> option Block) := (fun _ _ => None) <$> bc.
Definition holds_table (bc : option (ShardedLRUCache Block)) (tf : TableAndFile F) : Prop :=
  table_in (tf_file tf) /\ exists id, tf_table tf = opened snappy (some_lookup bc) id opt keys blocks (tf_file tf).
Definition block_ok (k : bytes) (b : Block) : Prop := forall id i es fl, blocks !! i = Some es -> table_in fl ->
  k = EncodeFixed64 id ++ EncodeFixed64 (offset_ (block_handle snappy opt blocks i es)) -> b = Block_make (raw_block opt es).

Record tables_ok (n : Z) (tc : TableCache E F) : Prop := {
  to_path : dbpath_ tc = dbpath;
  to_name : dbname_ tc = dbname;
  to_options : options_ tc = opt;
  to_opens : opens (files_ tc);
  to_cache : cached (fun _ => holds_table (block_cache_ tc)) capacity 1 n (cache_ tc);
  to_blocks bc : block_cache_ tc = Some bc -> cached block_ok block_capacity (2 ^ 31) 0 bc
}.

Lemma cost32 : table_cost (concat blocks) + 5 < 2 ^ 32.
Proof using Hcost. clear - Hcost. lia. Qed.

Lemma opened_same bc bc' id (fl : F) : is_Some bc <-> is_Some bc' -> opened snappy bc id opt keys blocks fl = opened snappy bc' id opt keys blocks fl.
Proof. intros H. unfold opened. destruct bc, bc'; try done; [by destruct (proj1 H ltac:(eauto))|by destruct (proj2 H ltac:(eauto))]. Qed.

(** The size of a block, as the cache charges it. *)
Lemma block_charge i es : blocks !! i = Some es -> 1 <= blk_size (Block_make (raw_block opt es)) <= 2 ^ 31.
Proof using All.
  intros Hi. split.
  - pose proof (block_cursor opt Hinterval keys blocks Hlen Hsorted cost32 i es Hi) as (rep & Hl & Hr).
    apply (rep_status _ _) in Hr. unfold Block.NewIterator in Hr. destruct (Z.ltb_spec (blk_size (Block_make (raw_block opt es))) 4); [done|lia].
  - assert (Hsz : size_of (raw_block opt es) <= 2 ^ 31).
    { unfold raw_block. pose proof (Block.build_block_cost (block_restart_interval opt) es). pose proof (block_cost_le keys blocks Hlen i es Hi). unfold table_cost in *.
      pose proof (size_of_nonneg es). lia. }
    unfold Block_make. destruct (Z.ltb_spec (size_of (raw_block opt es)) 4); [cbn; lia|]. destruct (_ >? _); cbn [blk_size]; lia.
Qed.

(** *** The block cache *)

Lemma table_size (fl : F) : table_in fl -> size_of (file_contents fl) < 2 ^ 32.
Proof using Hsize. clear - Hsize. intros [-> _]. done. Qed.

Lemma key_offset id id' i j es es' (fl : F) : blocks !! i = Some es -> blocks !! j = Some es' -> table_in fl ->
  EncodeFixed64 id ++ EncodeFixed64 (offset_ (block_handle snappy opt blocks i es)) = EncodeFixed64 id' ++ EncodeFixed64 (offset_ (block_handle snappy opt blocks j es')) -> i = j.
Proof using All.
  intros Hi Hj Hfl He. apply app_inj_1 in He as [_ He]; [|by rewrite !length_EncodeFixed64].
  assert (Hr : forall i es, blocks !! i = Some es -> forall rest, DecodeFixed64 (EncodeFixed64 (offset_ (block_handle snappy opt blocks i es)) ++ rest) = offset_ (block_handle snappy opt blocks i es)).
  { intros i' es0 Hi' rest. apply DecodeFixed64_Encode. by apply (block_handle_ok snappy opt Hsnappy keys blocks Hlen cost32 i' es0 Hi'). }
  pose proof (Hr i es Hi []) as H1. rewrite He, (Hr j es' Hj []) in H1. pose proof (table_size fl Hfl) as Hs. destruct Hfl as [Hf _].
  symmetry. by apply (block_offset_inj snappy opt Hsnappy keys blocks Hlen cost32 fl Hf Hs j i es' es).
Qed.

(** What the tables find in the block cache. *)
Lemma lookup_cached (tc : TableCache E F) id (fl : F) : (forall bc, block_cache_ tc = Some bc -> cached block_ok block_capacity (2 ^ 31) 0 bc) -> table_in fl ->
  blocks_cached snappy (block_lookup tc) id opt keys blocks fl.
Proof using All.
  intros Hb Hfl Lookup i es block Hl Hi Hk. unfold block_lookup in Hl. destruct (block_cache_ tc) as [bc|] eqn:Ebc; [|done]. injection Hl as <-.
  destruct (cached_lookup _ _ _ 0 bc (cache_key (opened snappy (block_lookup tc) id opt keys blocks fl) (block_handle snappy opt blocks i es)) (Hb bc eq_refl) ltac:(lia))
    as [(c' & Hc & _)|(h & c' & v & Hc & Hv & HP & _)].
  - unfold block_lookup in Hk, Hc. rewrite Ebc in Hk, Hc. rewrite Hc in Hk. done.
  - unfold block_lookup in Hk, Hc, HP. rewrite Ebc in Hk, Hc, HP. rewrite Hc in Hk. cbn [mbind option_bind] in Hk. rewrite Hv in Hk. injection Hk as <-.
    by eapply HP.
Qed.

Lemma touch_block_ok lookup ro id i es (fl : F) bc : blocks !! i = Some es -> table_in fl -> cached block_ok block_capacity (2 ^ 31) 0 bc ->
  (forall k, lookup k = let '(h, bc) := Sharded_Lookup k bc in h ← h; Value h bc) ->
  cached block_ok block_capacity (2 ^ 31) 0 (touch_block snappy in_buf lookup ro (opened snappy (Some lookup) id opt keys blocks fl) (encode_handle (block_handle snappy opt blocks i es)) bc).
Proof using All.
  intros Hi Hfl Hc Hl. pose proof (table_size fl Hfl) as Hs. destruct Hfl as [Hf Hr]. unfold touch_block, BlockReader.
  pose proof (block_handle_decode snappy opt Hsnappy keys blocks Hlen cost32 i es [] Hi) as Hd. rewrite app_nil_r in Hd. rewrite Hd. change (ok OK) with true. cbn [negb].
  set (k := cache_key _ _). destruct (cached_lookup _ _ _ 0 bc k Hc ltac:(lia)) as [(c' & Ec & Hc')|(h & c' & v & Ec & Hv & HP & _ & Hc')]; rewrite Ec; [|done].
  rewrite Hl, Ec. cbn [mbind option_bind]. change (Table.file (opened snappy (Some lookup) id opt keys blocks fl)) with fl.
  destruct (ReadBlock_data snappy in_buf opt Hsnappy keys blocks Hlen cost32 fl Hf Hs Hr i es (verify_checksums ro) Hi) as (c & -> & Ed).
  change (ok OK) with true. cbn iota. destruct (cachable c && fill_cache ro); cbn [snd]; [|done]. rewrite Ed.
  destruct (cached_insert block_ok block_capacity (2 ^ 31) 0 c' k (Block_make (raw_block opt es)) (blk_size (Block_make (raw_block opt es))) Hc' ltac:(lia) Hblocks ltac:(lia)) as (h & ds & c2 & -> & _ & _ & H2).
  - intros id' i' es' fl' Hi' Hfl' Hk. assert (i = i') as <- by (by eapply (key_offset _ _ i i' es es' fl)). congruence.
  - by apply (block_charge i).
  - done.
Qed.

(** *** The tables *)

Lemma set_cache_ok n m ds c (tc : TableCache E F) : tables_ok n tc -> cached (fun _ => holds_table (block_cache_ tc)) capacity 1 m c -> tables_ok m (set_cache ds c tc).
Proof using Type. intros [] Hc. by split. Qed.

(** The file is opened, or both names fail. *)
Lemma open_file_spec n (tc : TableCache E F) : tables_ok n tc -> exists r tc', open_file FILENUMBER_LDB tc = (r, tc') /\ tables_ok n tc' /\ block_cache_ tc' = block_cache_ tc /\ match r with inl s => ok s = false | inr fl => table_in fl end.
Proof using Hopens.
  intros [Hp Hn Ho He Hc Hb]. unfold open_file. rewrite Hp, Hn.
  assert (Hset : forall env, opens env -> tables_ok n (set_files env tc)) by (intros env Henv; by split).
  destruct (NewRandomAccessFile (TableFileName dbpath dbname FILENUMBER_LDB) (files_ tc)) as [[s|fl] env] eqn:E1;
    destruct (Hopens _ _ _ _ He ltac:(by left) E1) as [He1 Hf1]; [|do 2 eexists; split; [reflexivity|]; by auto].
  destruct (NewRandomAccessFile (SSTTableFileName dbpath dbname FILENUMBER_LDB) env) as [[s2|fl] env2] eqn:E2;
    destruct (Hopens _ _ _ _ He1 ltac:(by right) E2) as [He2 Hf2]; do 2 eexists; (split; [reflexivity|]); by auto.
Qed.

Lemma Table_Open_spec n (tc : TableCache E F) (fl : F) : tables_ok n tc -> table_in fl ->
  exists t tc', Table_Open snappy in_buf fl (size_of (file_contents fl)) tc = (OK, Some t, tc') /\ tables_ok n tc' /\ holds_table (block_cache_ tc') (mkTableAndFile fl t).
Proof using All.
  intros [Hp Hn Ho He Hc Hb] Hfl. pose proof (table_size fl Hfl) as Hs. pose proof Hfl as [Hf Hr]. unfold Table_Open. rewrite Ho.
  rewrite (Open_ok snappy in_buf (block_lookup tc) _ opt Hinterval Hsnappy keys blocks Hlen Hsep cost32 fl Hf Hs Hr Hname).
  set (bc' := (fun bc => snd (NewId bc)) <$> block_cache_ tc). do 2 eexists. split; [reflexivity|].
  assert (Hsame : is_Some bc' <-> is_Some (block_cache_ tc)) by (unfold bc'; by rewrite fmap_is_Some).
  assert (Hholds : forall id (fl' : F), opened snappy (some_lookup bc') id opt keys blocks fl' = opened snappy (some_lookup (block_cache_ tc)) id opt keys blocks fl').
  { intros id fl'. apply opened_same. unfold some_lookup. by rewrite !fmap_is_Some. }
  split.
  - split; try done.
    + destruct Hc as (ss & H1 & H2). exists ss. split; [exact H1|]. eapply Forall_impl; [exact H2|]. intros s [G1 G2 G3]. split; [done|done|].
      intros a e Ha. destruct (G3 a e Ha) as [[G4 [id G5]] G6]. split; [|done]. split; [done|]. exists id. cbn [block_cache_ set_block_cache]. by rewrite Hholds.
    + cbn [block_cache_ set_block_cache]. intros bc. unfold bc'. destruct (block_cache_ tc) as [bc0|] eqn:Eb; [|done]. intros [= <-]. by apply cached_id, Hb.
  - split; [done|]. cbn [tf_table block_cache_ set_block_cache]. eexists. rewrite Hholds. apply opened_same. unfold block_lookup, some_lookup. by rewrite !fmap_is_Some.
Qed.

(** [FindTable] gives the table, while its handle is held, or an error of opening. *)
Lemma FindTable_spec n (tc : TableCache E F) number : tables_ok n tc -> n + 1 < 2 ^ 31 ->
  exists s h tc', FindTable snappy in_buf number (size_of (table_file snappy opt keys blocks)) tc = (s, h, tc') /\
    ((h = None /\ ok s = false /\ tables_ok n tc') \/
     (exists hd tf, s = OK /\ h = Some hd /\ Value hd (cache_ tc') = Some tf /\ holds_table (block_cache_ tc') tf /\ tables_ok (n + 1) tc' /\
        cached (fun _ => holds_table (block_cache_ tc')) capacity 1 n (snd (Sharded_Release hd (cache_ tc'))))).
Proof using All.
  intros Htc Hn. unfold FindTable.
  destruct (cached_lookup _ _ _ n (cache_ tc) (EncodeFixed64 FILENUMBER_LDB) (to_cache n tc Htc) Hn) as [(c & -> & Hc)|(h & c & tf & -> & Hv & HP & Hc1 & Hc2)].
  2:{ do 3 eexists. split; [reflexivity|]. right. exists h, tf. split; [done|]. split; [done|]. split; [done|]. split; [done|]. split; [by apply (set_cache_ok n)|done]. }
  destruct (open_file_spec n (set_cache [] c tc) ltac:(by apply (set_cache_ok n))) as (r & tc1 & -> & Htc1 & Eb & Hr).
  destruct r as [s|fl]; [do 3 eexists; split; [reflexivity|]; by left|]. pose proof Hr as Hfl.
  destruct (Table_Open_spec n tc1 fl Htc1 Hfl) as (t & tc2 & Eo & Htc2 & Hh). pose proof Hfl as [Hf _]. rewrite <- Hf, Eo. change (ok OK) with true. cbn iota.
  destruct (cached_insert (fun _ => holds_table (block_cache_ tc2)) capacity 1 n (cache_ tc2) (EncodeFixed64 FILENUMBER_LDB) (mkTableAndFile fl t) 1
    (to_cache n tc2 Htc2) Hn Hcapacity ltac:(lia) Hh ltac:(lia)) as (h & ds & c2 & -> & Hv & Hc1 & Hc2).
  do 3 eexists. split; [reflexivity|]. right. exists h, (mkTableAndFile fl t). split; [done|]. split; [done|]. split; [done|]. split; [done|]. split; [by apply (set_cache_ok n)|done].
Qed.

Lemma get_reads_block id k (fl : F) lookup h : size_of k < 2 ^ 32 -> get_reads k (opened snappy lookup id opt keys blocks fl) = Some h ->
  exists i es, blocks !! i = Some es /\ h = encode_handle (block_handle snappy opt blocks i es).
Proof using All.
  intros Hk. unfold get_reads. pose proof (index_seek snappy lookup id opt keys blocks Hnonempty Hlen Hsep cost32 fl k Hk) as Hc. cbn zeta in Hc.
  set (iiter := Seek k _) in *. rewrite (rep_valid _ _ Hc). destruct (seek_position _ _ k) as [i|]; [|done].
  rewrite bool_decide_eq_true_2 by eauto. destruct (filtered _ _ _); [done|]. intros <-%(inj Some). pose proof (rep_entry _ _ Hc) as He.
  apply index_lookup in He as (es & _ & He & ->). by exists i, es.
Qed.

Lemma touch_ok n (tc : TableCache E F) ro tf k : tables_ok n tc -> holds_table (block_cache_ tc) tf -> size_of k < 2 ^ 32 ->
  let tc' := touch snappy in_buf ro (tf_table tf) k tc in cache_ tc' = cache_ tc /\
  (forall m c ds, cached (fun _ => holds_table (block_cache_ tc)) capacity 1 m c -> tables_ok m (set_cache ds c tc')).
Proof using All.
  intros Htc [Hfl [id Et]] Hk tc'. subst tc'. unfold touch.
  assert (Et' : tf_table tf = opened snappy (block_lookup tc) id opt keys blocks (tf_file tf)).
  { rewrite Et. apply opened_same. unfold block_lookup, some_lookup. by rewrite !fmap_is_Some. }
  rewrite Et'. clear Et Et'.
  assert (Hsame : forall m c ds, cached (fun _ => holds_table (block_cache_ tc)) capacity 1 m c -> tables_ok m (set_cache ds c tc)) by (intros m c ds; by apply (set_cache_ok n)).
  destruct (get_reads k _) as [h|] eqn:Eh; [|done]. destruct (get_reads_block _ _ _ _ _ Hk Eh) as (i & es & Hi & ->). clear Eh.
  unfold block_lookup. destruct (block_cache_ tc) as [bc|] eqn:Eb; [|done]. cbn [fmap option_fmap option_map]. split; [done|].
  pose proof (touch_block_ok _ ro id i es (tf_file tf) bc Hi Hfl (to_blocks n tc Htc bc Eb) (fun k => eq_refl)) as Ht.
  intros m c ds Hc. destruct Htc as [Hp Hn Ho He _ _]. split; try done; cbn [block_cache_ set_cache set_block_cache cache_]. intros bc' <-%(inj Some). exact Ht.
Qed.

Context (max_keys : Z) (Hpolicy : forall policy, filter_policy opt = Some policy -> FilterPolicyLaws policy max_keys) (Hmax : size_of (concat blocks) <= max_keys).

Lemma cache_Get_spec n (tc : TableCache E F) number {A} ro k (arg : A) saver : tables_ok n tc -> n + 1 < 2 ^ 31 -> size_of k < 2 ^ 32 ->
  exists s arg' tc', Get snappy in_buf ro number (size_of (table_file snappy opt keys blocks)) k arg saver tc = (s, arg', tc') /\ tables_ok n tc' /\ (ok s = true ->
    (arg' = arg \/ exists i k' v', seek_position (comparator opt) (concat blocks) k = Some i /\ concat blocks !! i = Some (k', v') /\ arg' = saver arg k' v') /\
    (forall i k' v', seek_position (comparator opt) (concat blocks) k = Some i -> concat blocks !! i = Some (k', v') -> unseparated opt k k' ->
       (forall policy, filter_policy opt = Some policy -> forall f, KeyMayMatch policy k' f = true -> KeyMayMatch policy k f = true) -> arg' = saver arg k' v')).
Proof using All.
  intros Htc Hn Hk. unfold Get.
  destruct (FindTable_spec n tc number Htc Hn) as (s & h & tc1 & -> & [(-> & Hs & Htc1)|(hd & tf & -> & -> & -> & Htf & Htc1 & Hrel)]).
  { do 3 eexists. split; [reflexivity|]. split; [done|]. congruence. }
  pose proof Htf as [Hfl [id Et]]. pose proof (table_size _ Hfl) as Hs. pose proof Hfl as [Hf Hr].
  assert (Et' : tf_table tf = opened snappy (block_lookup tc1) id opt keys blocks (tf_file tf)).
  { rewrite Et. apply opened_same. unfold block_lookup, some_lookup. by rewrite !fmap_is_Some. }
  pose proof (lookup_cached tc1 id (tf_file tf) (to_blocks _ _ Htc1) Hfl) as Hcached.
  destruct (touch_ok _ tc1 ro tf k Htc1 Htf Hk) as [Ec Htouch].
  destruct (InternalGet_ok snappy in_buf (block_lookup tc1) id opt Hinterval Hsnappy keys blocks Hnonempty Hlen Hsep Hsorted cost32
    (tf_file tf) Hf Hs Hr Hcached ro max_keys Hpolicy Hmax k arg saver Hk) as (s & arg' & Eg & _ & H).
  rewrite <- Et' in Eg. cbv zeta. rewrite Eg.
  do 3 eexists. split; [reflexivity|]. split; [|intros _; exact H].
  unfold UnrefEntry. rewrite Ec. destruct (Sharded_Release hd (cache_ tc1)) as [ds c] eqn:Er. by apply Htouch.
Qed.

(** *** Iterators and the rest *)

Lemma open_table_laws c entries t lookup ro (rep : TableIterator -> option nat -> Prop) :
  IteratorLaws (Iterator0 := TableIterator_Iterator snappy in_buf lookup t ro) c entries rep ->
  IteratorLaws (Iterator0 := OpenTable_Iterator snappy in_buf) c entries (fun (o : OpenTable F) p => ot_table o = t /\ ot_lookup o = lookup /\ ot_options o = ro /\ rep (ot_iter o) p).
Proof using Type.
  intros H. split; intros [t' l' r' it] p; cbn [ot_table ot_lookup ot_options ot_iter]; [| | | | |intros target Hk| |]; intros (-> & -> & -> & Hr).
  - by apply (rep_valid it p Hr).
  - by apply (rep_entry it p Hr).
  - by apply (rep_status it p Hr).
  - split; [done|]. split; [done|]. split; [done|]. by apply (rep_first it p).
  - split; [done|]. split; [done|]. split; [done|]. by apply (rep_last it p).
  - split; [done|]. split; [done|]. split; [done|]. by apply (rep_seek it p).
  - split; [done|]. split; [done|]. split; [done|]. by apply (rep_next it p).
  - split; [done|]. split; [done|]. split; [done|]. by apply (rep_prev it p).
Qed.

(** A new iterator is a cursor on the entries of the table, or its status is an error. *)
Lemma cache_NewIterator_spec n (tc : TableCache E F) number ro : tables_ok n tc -> n + 1 < 2 ^ 31 ->
  exists it h tc', NewIterator snappy in_buf ro number (size_of (table_file snappy opt keys blocks)) tc = (it, h, tc') /\
    ((h = None /\ ok (status (Iterator := sum_Iterator (Iterator1 := OpenTable_Iterator snappy in_buf)) it) = false /\ tables_ok n tc') \/
     (exists hd, h = Some hd /\ cursor (Iterator0 := sum_Iterator (Iterator1 := OpenTable_Iterator snappy in_buf)) (comparator opt) (concat blocks) it None /\
        tables_ok (n + 1) tc' /\ tables_ok n (UnrefEntry hd tc'))).
Proof using All.
  intros Htc Hn. unfold NewIterator.
  destruct (FindTable_spec n tc number Htc Hn) as (s & h & tc1 & -> & [(-> & Hs & Htc1)|(hd & tf & -> & -> & -> & Htf & Htc1 & Hrel)]).
  { do 3 eexists. split; [reflexivity|]. by left. }
  do 3 eexists. split; [reflexivity|]. right. exists hd. split; [done|].
  pose proof Htf as [Hfl [id Et]]. pose proof (table_size _ Hfl) as Hs. pose proof Hfl as [Hf Hr].
  assert (Et' : tf_table tf = opened snappy (block_lookup tc1) id opt keys blocks (tf_file tf)).
  { rewrite Et. apply opened_same. unfold block_lookup, some_lookup. by rewrite !fmap_is_Some. }
  pose proof (lookup_cached tc1 id (tf_file tf) (to_blocks _ _ Htc1) Hfl) as Hcached. split; [|split; [done|]].
  - apply inr_cursor. rewrite Et'.
    destruct (NewIterator_cursor snappy in_buf (block_lookup tc1) id opt Hinterval Hsnappy keys blocks Hnonempty Hlen Hsep Hsorted cost32
      (tf_file tf) Hf Hs Hr Hcached ro) as (rep & Hl & Hrep).
    eexists. split; [exact (open_table_laws (comparator opt) (concat blocks) _ _ ro rep Hl)|done].
  - unfold UnrefEntry. destruct (Sharded_Release hd (cache_ tc1)) as [ds c]. by apply (set_cache_ok (n + 1)).
Qed.

Lemma iterator_status_spec n (tc : TableCache E F) number ro : tables_ok n tc -> n + 1 < 2 ^ 31 -> tables_ok n (snd (iterator_status snappy in_buf ro number (size_of (table_file snappy opt keys blocks)) tc)).
Proof using All.
  intros Htc Hn. unfold iterator_status. destruct (cache_NewIterator_spec n tc number ro Htc Hn) as (it & h & tc' & -> & [(-> & _ & H)|(hd & -> & _ & _ & H)]); exact H.
Qed.

Lemma Evict_spec n (tc : TableCache E F) number : tables_ok n tc -> n + 1 < 2 ^ 31 ->
  tables_ok n (Evict number tc) /\ fst (Sharded_Lookup (EncodeFixed64 number) (cache_ (Evict number tc))) = None.
Proof using All.
  intros Htc Hn. unfold Evict. pose proof (cached_erased _ _ _ n (cache_ tc) (EncodeFixed64 number) (to_cache n tc Htc) Hn Hcapacity) as Hgone. pose proof (cached_erase _ _ _ n (cache_ tc) (EncodeFixed64 number) (to_cache n tc Htc) ltac:(lia)) as Hc.
  destruct (Sharded_Erase _ _) as [ds c]. split; [by apply (set_cache_ok n)|exact Hgone].
Qed.
End Laws.

(** ** Internal keys *)

(** No separator comes between a lookup key and an entry of its user key. *)
Lemma internal_unseparated ucmp `{!ComparatorLaws ucmp} opt k k' : comparator opt = InternalKeyComparator ucmp ->
  Compare ucmp (ExtractUserKey k') (ExtractUserKey k) = Eq -> unseparated opt k k'.
Proof.
  intros Hc He a. rewrite Hc. cbn [Compare FindShortestSeparator InternalKeyComparator]. intros Ha. unfold InternalKey_FindShortestSeparator.
  destruct (_ && _) eqn:Es; [|done]. apply andb_prop in Es as [_ Es]. destruct (Compare ucmp (ExtractUserKey a) _) eqn:E1; try done.
  destruct (separator_between (c := ucmp) (ExtractUserKey a) (ExtractUserKey k')) as [E2|[_ E2]]; [by rewrite E2, compare_refl in E1|].
  apply InternalKey_Compare_user_lt. rewrite ExtractUserKey_PutFixed64. by apply (compare_lt_le_trans _ (ExtractUserKey k')); [|rewrite He].
Qed.

(** A table of internal keys, and what keeps its sizes in range. *)
Record stored_table (snappy : option SnappyLib) (ucmp : Comparator) (opt : Options) (max_keys : Z) (keys : list bytes) (blocks : list (list (bytes * bytes))) : Prop := {
  st_comparator : comparator opt = InternalKeyComparator ucmp;
  st_policy policy : filter_policy opt = Some policy -> FilterPolicyLaws policy max_keys /\ size_of (policy_Name policy) + 100 < 2 ^ 32 /\
    forall k k' f, Compare ucmp (ExtractUserKey k') (ExtractUserKey k) = Eq -> KeyMayMatch policy k' f = true -> KeyMayMatch policy k f = true;
  st_interval : 1 <= block_restart_interval opt;
  st_snappy : snappy_ok snappy;
  st_nonempty : Forall (fun es => es <> []) blocks;
  st_keys : length keys = length blocks;
  st_separators : separators opt keys blocks [];
  st_sorted : sorted_entries (InternalKeyComparator ucmp) (concat blocks);
  st_cost : table_cost (concat blocks) + 5 < 2 ^ 31;
  st_size : size_of (table_file snappy opt keys blocks) < 2 ^ 32;
  st_max : size_of (concat blocks) <= max_keys
}.

(** The environment opens the table, under either name, or fails. *)
Definition opens_table {E F : Type} `{!OpenFiles E F} `{!RandomAccessFile F} (snappy : option SnappyLib) (opt : Options) keys blocks dbpath dbname (opens : E -> Prop) : Prop :=
  forall name env r env', opens env -> name = TableFileName dbpath dbname FILENUMBER_LDB \/ name = SSTTableFileName dbpath dbname FILENUMBER_LDB ->
  NewRandomAccessFile name env = (r, env') -> opens env' /\ match r with inl s => ok s = false | inr fl => table_in (F := F) snappy opt keys blocks fl end.

Definition table_contents (snappy : option SnappyLib) (opt : Options) keys blocks (number size : Z) : option (list (bytes * bytes)) :=
  if size =? size_of (table_file snappy opt keys blocks) then Some (concat blocks) else None.

Lemma table_contents_size snappy opt keys blocks number size kvs : table_contents snappy opt keys blocks number size = Some kvs ->
  size = size_of (table_file snappy opt keys blocks) /\ kvs = concat blocks.
Proof. unfold table_contents. destruct (Z.eqb_spec size (size_of (table_file snappy opt keys blocks))) as [->|]; [|done]. by intros <-%(inj Some). Qed.

Lemma table_cache_core {E F : Type} `{!OpenFiles E F} `{!RandomAccessFile F} `{!RandomAccessFileLaws F} (snappy : option SnappyLib) (in_buf : bool)
    (ucmp : Comparator) `{!ComparatorLaws ucmp} `{!ShorteningLaws ucmp} (opt : Options) max_keys keys blocks dbpath dbname (opens : E -> Prop) entries block_entries :
  stored_table snappy ucmp opt max_keys keys blocks -> opens_table (F := F) snappy opt keys blocks dbpath dbname opens ->
  0 <= entries < 2 ^ 31 - 16 -> 0 <= block_entries < 2 ^ 31 - 16 ->
  let good := tables_ok (F := F) snappy opt keys blocks dbpath dbname opens ((entries + 15) / 16) ((block_entries + 15) / 16) in
  let size := size_of (table_file snappy opt keys blocks) in
  (forall env, opens env -> good 0 (TableCache_make dbpath dbname opt (Some (NewLRUCache block_entries)) entries env)) /\
  (forall n, n + 1 < 2 ^ 31 ->
    TableGetterLaws (TableCache E F) (TableGetter0 := TableCache_getter snappy in_buf) ucmp (good n) (table_contents snappy opt keys blocks) /\
    forall tc number ro, good n tc -> (good n (Evict number tc) /\ fst (Sharded_Lookup (EncodeFixed64 number) (cache_ (Evict number tc))) = None) /\ good n (snd (iterator_status snappy in_buf ro number size tc)) /\
      exists it h tc', NewIterator snappy in_buf ro number size tc = (it, h, tc') /\
        ((h = None /\ ok (status (Iterator := sum_Iterator (Iterator1 := OpenTable_Iterator snappy in_buf)) it) = false /\ good n tc') \/
         (exists hd, h = Some hd /\ cursor (Iterator0 := sum_Iterator (Iterator1 := OpenTable_Iterator snappy in_buf)) (InternalKeyComparator ucmp) (concat blocks) it None /\
            good (n + 1) tc' /\ good n (UnrefEntry hd tc')))).
Proof.
  intros [Hc Hp Hi Hsn Hne Hl Hsep Hs Hcost Hsz Hmax] Ho Hent Hbe good size.
  assert (HL : ComparatorLaws (comparator opt)) by (rewrite Hc; apply _). assert (HS : ShorteningLaws (comparator opt)) by (rewrite Hc; apply _). rewrite <- Hc in Hs.
  assert (Hcap : forall x, 0 <= x < 2 ^ 31 - 16 -> 0 <= (x + 15) / 16 < 2 ^ 31 - 1).
  { intros x Hx. split; [apply Z.div_pos; lia|apply Z.div_lt_upper_bound; lia]. }
  assert (Hname : forall policy, filter_policy opt = Some policy -> size_of (policy_Name policy) + 100 < 2 ^ 32) by (intros policy E1; by destruct (Hp policy E1) as (_ & ? & _)).
  assert (Hpol : forall policy, filter_policy opt = Some policy -> FilterPolicyLaws policy max_keys) by (intros policy E1; by destruct (Hp policy E1) as (? & _ & _)).
  split.
  { intros env He. split; try done; [apply cached_new; lia|]. intros bc <-%(inj Some). apply cached_new; lia. }
  intros n Hn. split.
  - split. intros A ro number size' kvs k arg saver tc Htc [-> ->]%table_contents_size Hk.
    destruct (cache_Get_spec snappy in_buf opt keys blocks Hi Hsn Hne Hl Hsep Hs Hcost Hsz Hname dbpath dbname opens Ho _ _ (Hcap _ Hent) (Hcap _ Hbe) max_keys Hpol Hmax n tc number ro k arg saver Htc Hn Hk)
      as (s & arg' & tc' & E1 & Htc' & H). exists s, arg', tc'. split; [exact E1|]. split; [done|]. intros Hok. destruct (H Hok) as [H1 H2]. rewrite Hc in H1, H2. split; [done|].
    intros i k' v' Hi' Hk' Hu. apply (H2 i k' v' Hi' Hk'); [by apply (internal_unseparated ucmp)|]. intros policy E2 f. destruct (Hp policy E2) as (_ & _ & H3). by apply H3.
  - intros tc number ro Htc. split; [|split].
    + apply (Evict_spec snappy in_buf opt keys blocks Hi Hsn Hne Hl Hsep Hs Hcost Hsz Hname dbpath dbname opens Ho _ _ (Hcap _ Hent) (Hcap _ Hbe) max_keys Hpol Hmax n tc number Htc Hn).
    + apply (iterator_status_spec snappy in_buf opt keys blocks Hi Hsn Hne Hl Hsep Hs Hcost Hsz Hname dbpath dbname opens Ho _ _ (Hcap _ Hent) (Hcap _ Hbe) max_keys Hpol Hmax n tc number ro Htc Hn).
    + rewrite <- Hc. apply (cache_NewIterator_spec snappy in_buf opt keys blocks Hi Hsn Hne Hl Hsep Hs Hcost Hsz Hname dbpath dbname opens Ho _ _ (Hcap _ Hent) (Hcap _ Hbe) max_keys Hpol Hmax n tc number ro Htc Hn).
Qed.


(** ** Properties *)


(** A database whose environment is such a table cache reads its table file: [Get]
    answers with the newest entry of the memtables and of the file. *)
Theorem get_from_table {E F W : Type} `{!OpenFiles E F} `{!RandomAccessFile F} `{!RandomAccessFileLaws F} (snappy : option SnappyLib) (in_buf : bool)
    (ucmp : Comparator) `{!ComparatorLaws ucmp} `{!ShorteningLaws ucmp} (opt : Options) max_keys keys blocks dbpath dbname (opens : E -> Prop) entries block_entries n es
    ro snapshot u value others ms ims (db : DBImpl.DBImpl (TableCache E F) W) :
  stored_table snappy ucmp opt max_keys keys blocks -> opens_table (F := F) snappy opt keys blocks dbpath dbname opens ->
  0 <= entries < 2 ^ 31 - 16 -> 0 <= block_entries < 2 ^ 31 - 16 -> n + 1 < 2 ^ 31 ->
  let good := tables_ok (F := F) snappy opt keys blocks dbpath dbname opens ((entries + 15) / 16) ((block_entries + 15) / 16) n in
  let contents := table_contents snappy opt keys blocks in
  let s := default (VersionSet.vs_last_sequence_ (DBImpl.versions_ db)) snapshot in
  DBRead.db_ok ucmp contents es ms ims db -> good (DBImpl.env_ db) -> size_of u + 8 < 2 ^ 32 -> 0 <= s <= kMaxSequenceNumber ->
  exists st v db', DBRead.Get (TableGetter0 := TableCache_getter snappy in_buf) ucmp ro snapshot u value others db = Some (st, v, db') /\
    (read_failed (TableGetter0 := TableCache_getter snappy in_buf) ucmp contents es st \/ exists r, MemTable.is_newest ucmp u s (DBRead.db_entries es ms ims db) r /\ answer r value st v).
Proof.
  intros Hst Ho Hent Hbe Hn good contents s Hdb Hg Hu Hs.
  destruct (DBRead.Get_spec (TableGetter0 := TableCache_getter snappy in_buf) ucmp contents es good (TableGetterLaws0 := proj1 (proj2 (table_cache_core snappy in_buf ucmp opt max_keys keys blocks dbpath dbname opens entries block_entries Hst Ho Hent Hbe) n Hn))
    ro snapshot u value others ms ims db Hdb Hg Hu Hs) as (st & v & db' & E1 & _ & H). exists st, v, db'. split; [exact E1|exact H].
Qed.

(** *** A table of two keys *)

Definition sample_table_options : Options :=
  mkOptions (InternalKeyComparator BytewiseComparator) 4096 2 kNoCompression (Some (InternalFilterPolicy (NewBloomFilterPolicy 10))) false.
Definition sample_internal_entries : list (bytes * bytes) :=
  [(PutFixed64 (str "a") (PackSequenceAndType 5 1), str "new"); (PutFixed64 (str "a") (PackSequenceAndType 2 1), str "old"); (PutFixed64 (str "b") (PackSequenceAndType 3 1), str "b3")].
Definition sample_build := TableBuilder_Finish None (add_all None sample_internal_entries (TableBuilder_make sample_table_options (mkDisk [] 10000))).
Definition sample_table_file : bytes := Eval vm_compute in written (TableBuilder.file (snd sample_build)).

#[local] Instance sample_files : OpenFiles bytes bytes := {| NewRandomAccessFile _ env := (inr env, env) |}.

Definition sample_tables : TableCache bytes bytes := TableCache_make (str "/db") (str "test") sample_table_options (Some (NewLRUCache 1000)) 10 sample_table_file.

(** The newest entry of [a] that is not above 4. *)
Definition sample_get := Get (A := option (bytes * bytes)) None true ReadOptions_make 0 (size_of sample_table_file) (PutFixed64 (str "a") (PackSequenceAndType 4 1)) None (fun _ k v => Some (k, v)) sample_tables.





(** While a table is cached it answers for every number and size, whatever the file has
    become meanwhile. *)
Lemma stale_table_answers : snd (fst (Get (A := option (bytes * bytes)) None true ReadOptions_make 7 123 (PutFixed64 (str "a") (PackSequenceAndType 4 1)) None (fun _ k v => Some (k, v))
    (set_files [] (snd sample_get)))) = Some (PutFixed64 (str "a") (PackSequenceAndType 2 1), str "old").
Proof. vm_compute. reflexivity. Qed.
