(* ===== verification/VirtualFs.v ===== *)
(** * VirtualFs: the file system in memory

    Models [util/PathParser.h] and [util/filesystem/]: the parsing of paths, the numbers of
    open files, a file in a block of [malloc], and the file system with its directories
    and its list of files.  Files are reached by pointers, which may outlive the file: a
    heap maps addresses to files.  [None] is undefined behaviour, an access outside the
    block of a file or through a pointer to a deleted one, or a wait without end. *)

From S2P Require Import Prelude Coding Slice.


(** ** Paths *)

Definition slash : byte := Byte.x2f.
Definition backslash : byte := Byte.x5c.

(** The loop that removes the first of two slashes. *)
Fixpoint squeeze_loop (fuel i : nat) (out : bytes) : bytes :=
  match fuel with
  | O => out
  | S fuel =>
      if (S i <? length out)%nat then
        if bool_decide (out !! i = Some slash) && bool_decide (out !! S i = Some slash)
        then squeeze_loop fuel i (take i out ++ drop (S i) out)
        else squeeze_loop fuel (S i) out
      else out
  end.

(** [None] for [false], which leaves [out] as it is. *)
Definition formatFilePath (inp : bytes) : option bytes :=
  if size_of inp <=? 1 then None
  else
    let out := map (fun c => if bool_decide (c = backslash) then slash else c) inp in
    Some (squeeze_loop (length out) 0 out).

Definition formatDir (inp : bytes) : option bytes :=
  out ← formatFilePath inp;
  Some (if bool_decide (last out = Some slash) then out else out ++ [slash]).

Definition find_last_of (c : byte) (l : bytes) : option nat :=
  (fun p => length l - 1 - p)%nat <$> (fst <$> list_find (fun d => d = c) (reverse l)).

(** [filePath] and [fileName] are output parameters. *)
Definition parseFilePath (fname filePath fileName : bytes) : bool * bytes * bytes :=
  match formatFilePath fname with
  | None => (false, filePath, fileName)
  | Some fileName =>
      match find_last_of slash fileName with
      | None => (false, filePath, fileName)
      | Some lastSep => (true, take (S lastSep) fileName, take (length fname - lastSep) (drop (S lastSep) fileName))
      end
  end.

(** ** Numbers of open files *)

Fixpoint allocFd_loop (fuel : nat) (fd : Z) (pool : gset Z) : Z :=
  match fuel with
  | O => fd
  | S fuel => if bool_decide (fd ∈ pool) then allocFd_loop fuel (fd + 1) pool else fd
  end.

Definition allocFd (pool : gset Z) : Z * gset Z :=
  let fd := allocFd_loop (size pool) 3 pool in (fd, {[ fd ]} ∪ pool).

Definition recycleFd (fd : Z) (pool : gset Z) : gset Z := pool ∖ {[ fd ]}.

(** ** A file *)

(** [_fileContent] is the whole block of memory; [_locked] is the state of [_mutex]. *)
Record VirtualMemFile : Type := mkVFile {
  _filePath : bytes;
  _fileName : bytes;
  _fileContent : bytes;
  _fileLength : Z;
  _fd : Z;
  _filePos : Z;
  _locked : bool
}.

Section File.

(** A new block of memory with whatever it contains; the size of a pointer. *)
Context (malloc : Z -> bytes) (sizeof_pointer : Z).
Implicit Types f : VirtualMemFile.

Definition set_content (block : bytes) (len pos : Z) f : VirtualMemFile :=
  mkVFile (_filePath f) (_fileName f) block len (_fd f) pos (_locked f).
Definition set_pos (pos : Z) f : VirtualMemFile := set_content (_fileContent f) (_fileLength f) pos f.
Definition set_locked (b : bool) f : VirtualMemFile :=
  mkVFile (_filePath f) (_fileName f) (_fileContent f) (_fileLength f) (_fd f) (_filePos f) b.

(** [memcpy] of [src] to an offset of a block. *)
Definition store (off : Z) (src block : bytes) : option bytes :=
  if (0 <=? off) && (off + size_of src <=? size_of block)
  then Some (take (Z.to_nat off) block ++ src ++ drop (Z.to_nat (off + size_of src)) block) else None.
(** The bytes that a slice of a block gives. *)
Definition slice_of (off n : Z) (block : bytes) : option bytes :=
  if (0 <=? off) && (off + n <=? size_of block) then Some (take (Z.to_nat n) (drop (Z.to_nat off) block)) else None.

Definition VirtualMemFile_make (fileName : bytes) (fd : Z) : VirtualMemFile :=
  let '(_, path, name) := parseFilePath fileName [] [] in mkVFile path name (malloc 64) 0 fd 0 false.

Definition rename (newName : bytes) f : VirtualMemFile :=
  let '(_, path, name) := parseFilePath newName (_filePath f) (_fileName f) in
  mkVFile path name (_fileContent f) (_fileLength f) (_fd f) (_filePos f) (_locked f).

(** [newSize] is an [int]. *)
Fixpoint new_size (fuel : nat) (newSize need : Z) : option Z :=
  match fuel with
  | O => None
  | S fuel => if newSize <? need then if newSize * 2 <? 2 ^ 31 then new_size fuel (newSize * 2) need else None else Some newSize
  end.

Definition allocMemory (writeLen : Z) f : option VirtualMemFile :=
  let need := usize (_fileLength f + i32 writeLen) in
  if need <? sizeof_pointer then Some f
  else
    newSize ← new_size 32 (sizeof_pointer * 2) need;
    old ← slice_of 0 (_fileLength f) (_fileContent f);
    block ← store 0 old (malloc newSize);
    Some (set_content block (_fileLength f) (_filePos f) f).

(** [write] at the end. *)
Definition write (data : bytes) f : option VirtualMemFile :=
  f ← allocMemory (size_of data) f;
  block ← store (_fileLength f) data (_fileContent f);
  let len := usize (_fileLength f + size_of data) in
  Some (set_content block len len f).

(** [write] at a position. *)
Definition write_at (pos : Z) (data : bytes) f : option (bool * VirtualMemFile) :=
  if pos >? _fileLength f then Some (false, f)
  else
    f ← (if usize (_filePos f + size_of data) >? sizeof_pointer then allocMemory (size_of data) f else Some f);
    block ← store pos data (_fileContent f);
    let last := usize (pos + size_of data) in
    Some (true, set_content block (if last >? _fileLength f then last else _fileLength f) last f).

(** The slice is that of the block, which later writes change. *)
Definition read_at (pos len : Z) f : option bytes * VirtualMemFile :=
  let len := if usize (pos + len) >? _fileLength f then usize (_fileLength f - pos) else len in
  (slice_of pos len (_fileContent f), set_pos (usize (pos + len)) f).
Definition read (len : Z) f : option bytes * VirtualMemFile := read_at (_filePos f) len f.

Definition skip (n : Z) f : bool * VirtualMemFile :=
  if u64 (_filePos f + n) >=? _fileLength f then (false, f) else (true, set_pos (usize (_filePos f + n)) f).
Definition seek (n : Z) f : bool * VirtualMemFile :=
  if n >=? _fileLength f then (false, f) else (true, set_pos (usize n) f).

Definition close f : VirtualMemFile := set_pos 0 f.

(** [memset] clears as many bytes as a pointer has. *)
Definition clean f : option VirtualMemFile :=
  block ← store 0 (replicate (Z.to_nat sizeof_pointer) Byte.x00) (_fileContent f);
  Some (set_content block 0 0 f).

(** [pthread_mutex_lock] of a mutex that is locked waits for ever in one thread. *)
Definition lockFile f : option (bool * VirtualMemFile) := if _locked f then None else Some (true, set_locked true f).
Definition unlockFile f : bool * VirtualMemFile := (true, set_locked false f).
End File.

(** ** The file system *)

(** [_fdPool] is that of the program's [FdManager]. *)
Record VirtualMemFileSystem : Type := mkFs {
  _dirs : gset bytes;
  _files : list nat;
  heap : gmap nat VirtualMemFile;
  _fdPool : gset Z
}.

Section FileSystem.
Context (malloc : Z -> bytes) (sizeof_pointer : Z).
Implicit Types fs : VirtualMemFileSystem.

Definition VirtualMemFileSystem_make : VirtualMemFileSystem := mkFs ∅ [] ∅ ∅.

Definition set_dirs (dirs : gset bytes) fs : VirtualMemFileSystem := mkFs dirs (_files fs) (heap fs) (_fdPool fs).
Definition clear fs : VirtualMemFileSystem := set_dirs ∅ fs.

(** Where a pointer leads. *)
Definition deref (a : nat) fs : option VirtualMemFile := heap fs !! a.
Definition update (a : nat) (f : VirtualMemFile) fs : VirtualMemFileSystem := mkFs (_dirs fs) (_files fs) (<[a := f]> (heap fs)) (_fdPool fs).

Definition isContainDir (dirName : bytes) fs : bool :=
  match formatDir dirName with Some d => bool_decide (d ∈ _dirs fs) | None => false end.

Definition createDir (dirName : bytes) fs : bool * VirtualMemFileSystem :=
  match formatDir dirName with
  | Some d => if isContainDir d fs then (false, fs) else (true, set_dirs ({[ d ]} ∪ _dirs fs) fs)
  | None => (false, fs)
  end.

Definition file_named (fs : VirtualMemFileSystem) (path name : bytes) (a : nat) : bool :=
  match heap fs !! a with Some f => bool_decide (_filePath f = path) && bool_decide (_fileName f = name) | None => false end.
Definition file_in (fs : VirtualMemFileSystem) (path : bytes) (a : nat) : bool :=
  match heap fs !! a with Some f => bool_decide (_filePath f = path) | None => false end.

(** [delete]: the number of the file is free again. *)
Definition delete_file (a : nat) fs : VirtualMemFileSystem :=
  match heap fs !! a with
  | Some f => mkFs (_dirs fs) (_files fs) (delete a (heap fs)) (recycleFd (_fd f) (_fdPool fs))
  | None => fs
  end.
Definition set_files (files : list nat) fs : VirtualMemFileSystem := mkFs (_dirs fs) files (heap fs) (_fdPool fs).

(** The files are compared with the name as it was given. *)
Definition deleteDir (dirName : bytes) fs : bool * VirtualMemFileSystem :=
  match formatDir dirName with
  | None => (false, fs)
  | Some d =>
      let gone := filter (fun a => file_in fs dirName a = true) (_files fs) in
      let kept := filter (fun a => file_in fs dirName a = false) (_files fs) in
      let fs := set_files kept (fold_left (fun fs a => delete_file a fs) gone fs) in
      if bool_decide (d ∈ _dirs fs) then (true, set_dirs (_dirs fs ∖ {[ d ]}) fs) else (false, fs)
  end.

Definition getChildrenName (dirName : bytes) fs : bool * list bytes :=
  if isContainDir dirName fs then
    match formatDir dirName with
    | Some d => (true, omap (fun a => f ← heap fs !! a; if bool_decide (_filePath f = d) then Some (_fileName f) else None) (_files fs))
    | None => (false, [])
    end
  else (false, []).

Definition renameDir (originDirName newDirName : bytes) fs : VirtualMemFileSystem :=
  match formatDir originDirName with
  | Some d =>
      if bool_decide (d ∈ _dirs fs) then
        let fs := set_dirs (_dirs fs ∖ {[ d ]}) fs in
        match formatDir newDirName with Some d' => set_dirs ({[ d' ]} ∪ _dirs fs) fs | None => fs end
      else fs
  | None => fs
  end.

(** The first file of a name. *)
Definition getFile (fileName : bytes) fs : option nat :=
  let '(found, path, name) := parseFilePath fileName [] [] in
  if found : bool then find (file_named fs path name) (_files fs) else None.
Definition getFile_fd (fd : Z) fs : option nat :=
  find (fun a => match heap fs !! a with Some f => _fd f =? fd | None => false end) (_files fs).
Definition isContainFile (fileName : bytes) fs : bool :=
  let '(found, path, name) := parseFilePath fileName [] [] in
  if found : bool then existsb (file_named fs path name) (_files fs) else false.

(** A file that is there is kept with its contents. *)
Definition createFile (fileName : bytes) fs : option (nat * VirtualMemFileSystem) :=
  if isContainFile fileName fs then
    a ← getFile fileName fs; f ← heap fs !! a;
    Some (a, update a (snd (seek 0 f)) fs)
  else
    let '(fd, pool) := allocFd (_fdPool fs) in
    let f := VirtualMemFile_make malloc fileName fd in
    let a := fresh (dom (heap fs)) in
    Some (a, mkFs ({[ _filePath f ]} ∪ _dirs fs) (_files fs ++ [a]) (<[a := f]> (heap fs)) pool).

Fixpoint erase_first (p : nat -> bool) (l : list nat) : option nat * list nat :=
  match l with
  | [] => (None, [])
  | a :: l => if p a then (Some a, l) else let '(r, l) := erase_first p l in (r, a :: l)
  end.
Definition deleteFile (fileName : bytes) fs : bool * VirtualMemFileSystem :=
  let '(found, path, name) := parseFilePath fileName [] [] in
  if found : bool then
    match erase_first (file_named fs path name) (_files fs) with
    | (Some a, files) => (true, set_files files (delete_file a fs))
    | (None, _) => (false, fs)
    end
  else (false, fs).

Definition closeAll fs : VirtualMemFileSystem :=
  mkFs (_dirs fs) (_files fs) (foldr (fun a h => alter close a h) (heap fs) (_files fs)) (_fdPool fs).
Definition getAllFile fs : list nat := _files fs.
End FileSystem.

(** ** Paths: what the parser promises *)

Definition is_slash (c : byte) : bool := bool_decide (c = slash).

(** No backslash and no two slashes in a row. *)
Fixpoint normal (l : bytes) : bool :=
  match l with
  | [] => true
  | c :: l => negb (bool_decide (c = backslash)) && negb (is_slash c && match l with d :: _ => is_slash d | [] => false end) && normal l
  end.

Fixpoint squeeze (l : bytes) : bytes :=
  match l with
  | [] => []
  | c :: l => if is_slash c && match l with d :: _ => is_slash d | [] => false end then squeeze l else c :: squeeze l
  end.

Lemma squeeze_head l : head (squeeze l) = head l.
Proof.
  induction l as [|c l IH]; [done|]. cbn [squeeze]. destruct (is_slash c && _) eqn:E; [|done]. rewrite IH. destruct l as [|d l]; [by rewrite andb_false_r in E|].
  apply andb_prop in E as [E1%bool_decide_eq_true E2%bool_decide_eq_true]. cbn. congruence.
Qed.

Lemma squeeze_normal l : backslash ∉ l -> normal (squeeze l) = true.
Proof.
  induction l as [|c l IH]; intros H; [done|]. apply not_elem_of_cons in H as [Hc Hl]. cbn [squeeze]. destruct (is_slash c && _) eqn:E; [by apply IH|].
  cbn [normal]. rewrite IH by done. rewrite bool_decide_eq_false_2 by done. cbn [negb andb]. rewrite andb_true_r.
  pose proof (squeeze_head l) as Hh. destruct (squeeze l) as [|d s], l as [|d' l]; try done; [by rewrite andb_false_r|]. cbn in Hh. injection Hh as ->. by rewrite E.
Qed.

Lemma squeeze_id l : normal l = true -> squeeze l = l.
Proof.
  induction l as [|c l IH]; [done|]. cbn [normal squeeze]. intros [[_ H1%negb_true_iff]%andb_prop H2]%andb_prop. rewrite H1. by rewrite IH.
Qed.

(** The loop on an index does what the recursive definition does. *)
Lemma squeeze_loop_spec fuel : forall i out, (i < length out)%nat -> (length out - i <= fuel)%nat -> squeeze_loop fuel i out = take i out ++ squeeze (drop i out).
Proof.
  induction fuel as [|fuel IH]; intros i out Hi Hf; [lia|]. cbn [squeeze_loop]. destruct (lookup_lt_is_Some_2 out i Hi) as [c Hc].
  assert (Ed : drop i out = c :: drop (S i) out) by (by rewrite <- drop_S with (x := c)).
  destruct (Nat.ltb_spec (S i) (length out)) as [Hlt|Hge].
  - destruct (lookup_lt_is_Some_2 out (S i) Hlt) as [d Hd]. assert (Ed' : drop (S i) out = d :: drop (S (S i)) out) by (by rewrite <- drop_S with (x := d)).
    rewrite Ed. cbn [squeeze]. rewrite Ed', Hc, Hd. unfold is_slash.
    replace (bool_decide (Some c = Some slash)) with (bool_decide (c = slash)) by (apply bool_decide_ext; split; congruence).
    replace (bool_decide (Some d = Some slash)) with (bool_decide (d = slash)) by (apply bool_decide_ext; split; congruence).
    destruct (bool_decide (c = slash) && bool_decide (d = slash)).
    + rewrite <- Ed'. rewrite IH; [|rewrite length_app, length_take, length_drop; lia..]. rewrite take_app_le, take_take, Nat.min_id by (rewrite length_take; lia).
      f_equal. rewrite drop_app_ge by (rewrite length_take; lia). by rewrite length_take, Nat.min_l, Nat.sub_diag, drop_0 by lia.
    + rewrite IH by lia. rewrite (take_S_r _ _ c Hc), <- app_assoc. cbn [app]. by rewrite Ed'.
  - assert (E0 : drop i out = [c]) by (rewrite Ed, drop_ge by lia; done). rewrite E0. cbn [squeeze]. rewrite andb_false_r. cbn [squeeze]. rewrite <- E0. by rewrite take_drop.
Qed.

Definition to_slash (c : byte) : byte := if bool_decide (c = backslash) then slash else c.

Lemma formatFilePath_spec inp : 1 < size_of inp -> formatFilePath inp = Some (squeeze (map to_slash inp)).
Proof.
  intros H. unfold formatFilePath. destruct (Z.leb_spec (size_of inp) 1); [lia|]. cbv zeta. fold to_slash.
  rewrite squeeze_loop_spec; [by rewrite drop_0|unfold size_of in H; rewrite length_map; lia|lia].
Qed.

Lemma to_slash_id l : backslash ∉ l -> map to_slash l = l.
Proof. induction l as [|c l IH]; intros H; [done|]. apply not_elem_of_cons in H as [Hc Hl]. cbn. rewrite IH by done. unfold to_slash. by rewrite bool_decide_eq_false_2. Qed.

Lemma to_slash_none l : backslash ∉ map to_slash l.
Proof. intros (c & E & _)%list_elem_of_fmap. unfold to_slash in E. by destruct (bool_decide_reflect (c = backslash)). Qed.

Lemma normal_backslash l : normal l = true -> backslash ∉ l.
Proof.
  induction l as [|c l IH]; [intros _; apply not_elem_of_nil|]. cbn [normal]. intros [[H1%negb_true_iff%bool_decide_eq_false _]%andb_prop H2]%andb_prop. apply not_elem_of_cons. auto.
Qed.

Lemma format_normal p q : formatFilePath p = Some q -> normal q = true.
Proof.
  intros E. assert (1 < size_of p) by (unfold formatFilePath in E; destruct (Z.leb_spec (size_of p) 1); [done|lia]).
  rewrite formatFilePath_spec in E by done. injection E as <-. apply squeeze_normal, to_slash_none.
Qed.

Lemma format_id q : normal q = true -> 1 < size_of q -> formatFilePath q = Some q.
Proof. intros Hn Hs. rewrite formatFilePath_spec by done. rewrite to_slash_id by (by apply normal_backslash). by rewrite squeeze_id. Qed.

Lemma find_last_of_spec c l : match find_last_of c l with
  | Some i => exists l1 l2, l = l1 ++ c :: l2 /\ length l1 = i /\ c ∉ l2
  | None => c ∉ l end.
Proof.
  unfold find_last_of. destruct (list_find _ (reverse l)) as [[p d]|] eqn:E; cbn.
  - apply list_find_Some in E as (Hp & -> & Hb). pose proof (lookup_lt_Some _ _ _ Hp) as Hl. rewrite length_reverse in Hl. rewrite reverse_lookup in Hp by done.
    replace (length l - S p)%nat with (length l - 1 - p)%nat in Hp by lia. exists (take (length l - 1 - p) l), (drop (S (length l - 1 - p)) l).
    split; [by rewrite take_drop_middle|]. split; [rewrite length_take; lia|]. intros (j & Hj)%list_elem_of_lookup. rewrite lookup_drop in Hj.
    pose proof (lookup_lt_Some _ _ _ Hj) as Hlj. apply (Hb (length l - S (S (length l - 1 - p) + j))%nat c); [|lia|done].
    rewrite reverse_lookup by lia. rewrite <- Hj. f_equal. lia.
  - intros Hin. apply list_find_None in E. rewrite Forall_forall in E. specialize (E c). cbn in E. apply E; [|done]. by apply elem_of_reverse.
Qed.

Lemma find_last_of_app c l1 l2 : c ∉ l2 -> find_last_of c (l1 ++ c :: l2) = Some (length l1).
Proof.
  intros H. pose proof (find_last_of_spec c (l1 ++ c :: l2)) as Hs. destruct (find_last_of c (l1 ++ c :: l2)) as [i|]; [|exfalso; apply Hs; set_solver].
  destruct Hs as (k1 & k2 & E & <- & Hk). f_equal. destruct (app_eq_inv _ _ _ _ E) as [(k & E1 & E2)|(k & E1 & E2)].
  - destruct k as [|x k]; [rewrite E1, app_nil_r; done|]. cbn in E2. injection E2 as -> E2. exfalso. apply Hk. rewrite E2. set_solver.
  - destruct k as [|x k]; [rewrite E1, app_nil_r; done|]. cbn in E2. injection E2 as -> E2. exfalso. apply H. rewrite E2. set_solver.
Qed.

(** A directory that ends in a slash, and a name without one. *)
Definition directory (d : bytes) : Prop := exists d', d = d' ++ [slash].

Lemma parse_normal d n path name : directory d -> slash ∉ n -> normal (d ++ n) = true -> 1 < size_of (d ++ n) -> parseFilePath (d ++ n) path name = (true, d, n).
Proof.
  intros [d' ->] Hn Hnorm Hs. unfold parseFilePath. rewrite format_id by done. rewrite <- app_assoc. cbn [app]. rewrite find_last_of_app by done.
  rewrite take_app_ge by lia. replace (S (length d') - length d')%nat with 1%nat by lia. rewrite drop_app_ge by lia. replace (S (length d') - length d')%nat with 1%nat by lia.
  cbn [take drop]. rewrite drop_0. rewrite take_0. f_equal. apply take_ge. rewrite length_app. cbn. lia.
Qed.

Lemma parse_parts p path name d n : parseFilePath p path name = (true, d, n) ->
  directory d /\ slash ∉ n /\ formatFilePath p = Some (d ++ n).
Proof.
  unfold parseFilePath. destruct (formatFilePath p) as [q|] eqn:Ef; [|done]. pose proof (find_last_of_spec slash q) as Hs.
  destruct (find_last_of slash q) as [i|]; [|done]. destruct Hs as (l1 & l2 & -> & <- & Hl). intros [= <- <-].
  assert (Hlen : (length (l1 ++ slash :: l2) <= length p)%nat).
  { assert (1 < size_of p) by (unfold formatFilePath in Ef; destruct (Z.leb_spec (size_of p) 1); [done|lia]). rewrite formatFilePath_spec in Ef by done. injection Ef as <-.
    rewrite <- (length_map to_slash p). generalize (map to_slash p). clear. induction l as [|c l IH]; [done|]. cbn [squeeze]. destruct (_ && _); cbn [length]; lia. }
  rewrite length_app in Hlen. cbn [length] in Hlen.
  assert (E1 : take (S (length l1)) (l1 ++ slash :: l2) = l1 ++ [slash]).
  { rewrite take_app_ge by lia. by replace (S (length l1) - length l1)%nat with 1%nat by lia. }
  assert (E2 : drop (S (length l1)) (l1 ++ slash :: l2) = l2).
  { rewrite drop_app_ge by lia. replace (S (length l1) - length l1)%nat with 1%nat by lia. by rewrite skipn_cons, drop_0. }
  rewrite E1, E2, take_ge by lia. split; [by exists l1|]. split; [done|]. by rewrite <- app_assoc.
Qed.

Lemma formatDir_directory p d : formatDir p = Some d -> directory d /\ normal d = true.
Proof.
  unfold formatDir. destruct (formatFilePath p) as [q|] eqn:Ef; [|done]. cbn [mbind option_bind]. intros [= <-]. pose proof (format_normal _ _ Ef) as Hn.
  destruct (bool_decide_reflect (last q = Some slash)) as [Hl|Hl].
  - split; [|done]. apply last_Some in Hl as [q' ->]. by exists q'.
  - split; [by exists q|]. clear Ef. induction q as [|c q IH]; [done|]. cbn [normal app] in *. apply andb_prop in Hn as [Hn Hq]. apply andb_prop in Hn as [H1 H2].
    destruct q as [|d q]; cbn [app] in *.
    + rewrite H1. cbn. rewrite andb_true_r. apply negb_true_iff. unfold is_slash at 1. rewrite bool_decide_eq_false_2; [done|]. intros ->. by apply Hl.
    + rewrite H1, H2. cbn [andb]. apply IH; [done|]. by rewrite last_cons_cons in Hl.
Qed.

(** ** A file: what its operations do *)

Lemma store_spec off src block : 0 <= off -> off + size_of src <= size_of block ->
  exists block', store off src block = Some block' /\ size_of block' = size_of block /\
    forall n, take (Z.to_nat (off + n)) block' = take (Z.to_nat off) block ++ take (Z.to_nat n) src \/ ~ 0 <= n <= size_of src.
Proof.
  intros H1 H2. unfold store. rewrite (proj2 (Z.leb_le _ _) H1), (proj2 (Z.leb_le _ _) H2). cbn [andb]. unfold size_of in *. eexists. split; [reflexivity|]. split.
  - rewrite !length_app, length_take, length_drop. lia.
  - intros n. destruct (decide (0 <= n <= Z.of_nat (length src))) as [Hn|]; [left|by right].
    rewrite take_app_ge by (rewrite length_take; lia). rewrite length_take, Nat.min_l by lia. f_equal.
    replace (Z.to_nat (off + n) - Z.to_nat off)%nat with (Z.to_nat n) by lia. by rewrite take_app_le by lia.
Qed.

Section FileLaws.
Context (malloc : Z -> bytes) (sizeof_pointer : Z) (Hmalloc : forall n, 0 <= n -> size_of (malloc n) = n) (Hsizeof : sizeof_pointer = 4 \/ sizeof_pointer = 8).
Implicit Types f : VirtualMemFile.

(** What the file has, and that its block is large enough. *)
Definition contents f : bytes := take (Z.to_nat (_fileLength f)) (_fileContent f).

Record file_ok f : Prop := {
  fo_length : 0 <= _fileLength f < 2 ^ 30;
  fo_fits : _fileLength f <= size_of (_fileContent f);
  fo_block : 2 * sizeof_pointer <= size_of (_fileContent f);
  fo_pos : 0 <= _filePos f <= _fileLength f
}.

(** The same file: its name, number and mutex. *)
Definition same_file f f' : Prop := _filePath f' = _filePath f /\ _fileName f' = _fileName f /\ _fd f' = _fd f /\ _locked f' = _locked f.

Lemma contents_size f : file_ok f -> size_of (contents f) = _fileLength f.
Proof. intros [H1 H2 _ _]. unfold contents, size_of in *. rewrite length_take. lia. Qed.

Lemma new_size_spec fuel : forall n need, 0 < n -> n < 2 ^ 31 -> need <= 2 ^ 30 -> 2 ^ 30 <= n * 2 ^ Z.of_nat fuel -> exists m, new_size (S fuel) n need = Some m /\ n <= m < 2 ^ 31 /\ need <= m.
Proof.
  induction fuel as [|fuel IH]; intros n need H0 H1 H2 H3.
  - cbn [new_size]. destruct (Z.ltb_spec n need); [lia|]. by exists n.
  - change (new_size (S (S fuel)) n need) with (if n <? need then if n * 2 <? 2 ^ 31 then new_size (S fuel) (n * 2) need else None else Some n).
    destruct (Z.ltb_spec n need); [|by exists n]. destruct (Z.ltb_spec (n * 2) (2 ^ 31)); [|lia].
    destruct (IH (n * 2) need) as (m & -> & Hm & Hn); [lia..| |exists m; split; [done|lia]]. rewrite Nat2Z.inj_succ, Z.pow_succ_r in H3 by lia. lia.
Qed.

(** The block has room for what is to be written at the end. *)
Lemma allocMemory_spec n f : file_ok f -> 0 <= n -> _fileLength f + n < 2 ^ 30 ->
  exists f', allocMemory malloc sizeof_pointer n f = Some f' /\ file_ok f' /\ same_file f f' /\ _fileLength f' = _fileLength f /\ _filePos f' = _filePos f /\
    contents f' = contents f /\ _fileLength f + n <= size_of (_fileContent f').
Proof using Hmalloc Hsizeof.
  intros [H1 H2 H3 H4] Hn Hl. unfold allocMemory. rewrite i32_small by lia. rewrite usize_small by lia.
  destruct (Z.ltb_spec (_fileLength f + n) sizeof_pointer) as [Hlt|Hge].
  { exists f. split; [done|]. split; [by split|]. repeat split; try done. lia. }
  assert (Hfuel : 2 ^ 30 <= sizeof_pointer * 2 * 2 ^ Z.of_nat 31) by (destruct Hsizeof as [-> | ->]; lia).
  destruct (new_size_spec 31 (sizeof_pointer * 2) (_fileLength f + n) ltac:(lia) ltac:(lia) ltac:(lia) Hfuel) as (m & -> & Hm1 & Hm2). cbn [mbind option_bind].
  unfold slice_of. rewrite (proj2 (Z.leb_le 0 0)), (proj2 (Z.leb_le (0 + _fileLength f) _)) by lia. cbn [andb mbind option_bind]. change (drop (Z.to_nat 0) (_fileContent f)) with (_fileContent f).
  destruct (store_spec 0 (contents f) (malloc m)) as (block & Eb & Hsz & Hb); [lia|rewrite Hmalloc, contents_size by (lia || by split); lia|].
  fold (contents f). rewrite Eb. cbn [mbind option_bind]. rewrite Hmalloc in Hsz by lia. eexists. split; [reflexivity|].
  split; [split; cbn; lia|]. split; [by repeat split|]. split; [done|]. split; [done|]. split; [|cbn; lia].
  unfold contents at 1. cbn [_fileLength _fileContent set_content]. destruct (Hb (_fileLength f)) as [Ht|Ht]; [|rewrite contents_size in Ht by (by split); lia].
  rewrite Z.add_0_l in Ht. rewrite Ht. cbn. apply take_ge. unfold contents. rewrite length_take. lia.
Qed.

(** [write] adds the data at the end and stays inside the block. *)
Lemma write_spec data f : file_ok f -> _fileLength f + size_of data < 2 ^ 30 ->
  exists f', write malloc sizeof_pointer data f = Some f' /\ file_ok f' /\ same_file f f' /\ contents f' = contents f ++ data /\ _filePos f' = _fileLength f'.
Proof using Hmalloc Hsizeof.
  intros Hf Hl. unfold write. pose proof (size_of_nonneg data) as H0.
  destruct (allocMemory_spec (size_of data) f Hf H0 Hl) as (g & -> & Hg & Hsame & El & _ & Ec & Hcap). cbn [mbind option_bind].
  destruct (store_spec (_fileLength g) data (_fileContent g)) as (block & -> & Hsz & Hb); [apply Hg|lia|]. cbn [mbind option_bind].
  rewrite usize_small by (destruct (fo_length g Hg); lia). eexists. split; [reflexivity|]. destruct Hg as [G1 G2 G3 G4].
  split; [split; cbn; lia|]. split; [destruct Hsame as (? & ? & ? & ?); by repeat split|]. split; [|done].
  unfold contents at 1. cbn [_fileLength _fileContent set_content]. destruct (Hb (size_of data)) as [Ht|Ht]; [|lia]. rewrite Ht. f_equal; [exact Ec|].
  apply take_ge. unfold size_of. lia.
Qed.

(** [read] gives what is left, up to [n] bytes. *)
Lemma read_spec n f : file_ok f -> 0 <= n < 2 ^ 31 ->
  exists d, read n f = (Some d, set_pos (_filePos f + size_of d) f) /\ d = take (Z.to_nat n) (drop (Z.to_nat (_filePos f)) (contents f)) /\ file_ok (set_pos (_filePos f + size_of d) f).
Proof using Hsizeof.
  intros [H1 H2 H3 H4] Hn. unfold read, read_at. rewrite !usize_small by lia.
  set (m := if _filePos f + n >? _fileLength f then _fileLength f - _filePos f else n).
  assert (Hm : 0 <= m <= n /\ _filePos f + m <= _fileLength f /\ (m = n \/ _filePos f + m = _fileLength f)) by (unfold m; destruct (Z.gtb_spec (_filePos f + n) (_fileLength f)); lia).
  rewrite usize_small by lia. unfold slice_of. rewrite (proj2 (Z.leb_le 0 _)), (proj2 (Z.leb_le (_filePos f + m) _)) by lia. cbn [andb].
  set (d := take (Z.to_nat m) (drop (Z.to_nat (_filePos f)) (_fileContent f))).
  assert (Hd : size_of d = m) by (unfold d, size_of in *; rewrite length_take, length_drop; lia).
  exists d. rewrite Hd. split; [done|]. split; [|split; cbn; lia].
  unfold d, contents. rewrite skipn_firstn_comm, take_take. f_equal. lia.
Qed.

(** [read] at a position inside the file is in bounds too; beyond it is not. *)
Lemma read_at_spec pos n f : file_ok f -> 0 <= pos <= _fileLength f -> 0 <= n < 2 ^ 31 ->
  exists d, read_at pos n f = (Some d, set_pos (pos + size_of d) f) /\ d = take (Z.to_nat n) (drop (Z.to_nat pos) (contents f)) /\ file_ok (set_pos (pos + size_of d) f).
Proof using Hsizeof.
  intros Hf Hp Hn. assert (Hf' : file_ok (set_pos pos f)) by (destruct Hf; by split).
  destruct (read_spec n (set_pos pos f) Hf' Hn) as (d & E & Ed & Hok). exists d. by split.
Qed.

Lemma clean_spec f : file_ok f -> exists f', clean sizeof_pointer f = Some f' /\ file_ok f' /\ same_file f f' /\ contents f' = [] /\ _filePos f' = 0.
Proof using Hsizeof.
  intros [H1 H2 H3 H4]. unfold clean.
  destruct (store_spec 0 (replicate (Z.to_nat sizeof_pointer) Byte.x00) (_fileContent f)) as (block & -> & Hsz & _); [lia|unfold size_of at 1; rewrite length_replicate; lia|].
  cbn [mbind option_bind]. eexists. split; [reflexivity|]. split; [split; cbn; lia|]. by repeat split.
Qed.

Lemma file_close_spec f : file_ok f -> file_ok (close f) /\ same_file f (close f) /\ contents (close f) = contents f /\ _filePos (close f) = 0.
Proof using Type. intros []. split; [split; cbn; try done; lia|]. by repeat split. Qed.

Lemma seek_spec n f : file_ok f -> 0 <= n -> let '(b, f') := seek n f in
  file_ok f' /\ same_file f f' /\ contents f' = contents f /\ (if b then _filePos f' = n else f' = f /\ _fileLength f <= n).
Proof using Hsizeof.
  intros [H1 H2 H3 H4] Hn. unfold seek. destruct (Z.geb_spec n (_fileLength f)); [split; [by split|]; split; [by repeat split|]; split; [done|]; split; [done|lia]|]. rewrite usize_small by lia.
  split; [split; cbn; lia|]. by repeat split.
Qed.

Lemma make_spec name fd : let f := VirtualMemFile_make malloc name fd in file_ok f /\ contents f = [] /\ _fd f = fd /\ _filePos f = 0 /\ _locked f = false /\
  (fst (fst (parseFilePath name [] [])), _filePath f, _fileName f) = parseFilePath name [] [].
Proof using Hmalloc Hsizeof.
  unfold VirtualMemFile_make. destruct (parseFilePath name [] []) as [[b p] n]. cbv zeta. split; [|by repeat split]. pose proof (Hmalloc 64 ltac:(lia)). split; cbn [_fileLength _fileContent _filePos]; lia.
Qed.
End FileLaws.

(** ** The file system: what it keeps *)

Lemma allocFd_loop_spec (pool : gset Z) fuel : forall fd (below : gset Z), (forall x, x ∈ below -> x ∈ pool /\ x < fd) -> (size pool <= size below + fuel)%nat ->
  let r := allocFd_loop fuel fd pool in r ∉ pool /\ fd <= r /\ forall x, fd <= x < r -> x ∈ pool.
Proof.
  induction fuel as [|fuel IH]; intros fd below Hb Hs.
  - cbn. split; [|split; [lia|intros x Hx; lia]]. intros Hin. assert (Hsub : {[ fd ]} ∪ below ⊆ pool) by (intros x [->%elem_of_singleton|Hx]%elem_of_union; [done|by apply Hb]).
    apply subseteq_size in Hsub. rewrite size_union, size_singleton in Hsub; [lia|]. apply disjoint_singleton_l. intros H%Hb. lia.
  - cbn. destruct (bool_decide_reflect (fd ∈ pool)) as [Hin|Hin]; [|split; [done|split; [lia|intros x Hx; lia]]].
    destruct (IH (fd + 1) ({[ fd ]} ∪ below)) as (H1 & H2 & H3).
    + intros x [->%elem_of_singleton|[H1 H2]%Hb]%elem_of_union; [split; [done|lia]|split; [done|lia]].
    + rewrite size_union, size_singleton; [lia|]. apply disjoint_singleton_l. intros H%Hb. lia.
    + split; [done|]. split; [lia|]. intros x Hx. destruct (decide (x = fd)) as [->|]; [done|]. apply H3. lia.
Qed.

(** The number is the first one that is free. *)
Lemma allocFd_spec pool : let '(fd, pool') := allocFd pool in fd ∉ pool /\ 3 <= fd /\ pool' = {[ fd ]} ∪ pool /\ forall x, 3 <= x < fd -> x ∈ pool.
Proof.
  unfold allocFd. destruct (allocFd_loop_spec pool (size pool) 3 ∅) as (H1 & H2 & H3); [set_solver|rewrite size_empty; lia|]. done.
Qed.

Section SystemLaws.
Context (malloc : Z -> bytes) (sizeof_pointer : Z) (Hmalloc : forall n, 0 <= n -> size_of (malloc n) = n) (Hsizeof : sizeof_pointer = 4 \/ sizeof_pointer = 8).
Implicit Types (f : VirtualMemFile) (fs : VirtualMemFileSystem).

Abbreviation file_ok := (file_ok sizeof_pointer).

(** The files of the list are those in memory; their numbers and, where they have a
    directory, their names differ. *)
Record fs_ok fs : Prop := {
  fk_files : NoDup (_files fs);
  fk_heap a : a ∈ _files fs <-> is_Some (heap fs !! a);
  fk_ok a f : heap fs !! a = Some f -> file_ok f;
  fk_fds a b f g : heap fs !! a = Some f -> heap fs !! b = Some g -> _fd f = _fd g -> a = b;
  fk_pool a f : heap fs !! a = Some f -> _fd f ∈ _fdPool fs;
  fk_names a b f g : heap fs !! a = Some f -> heap fs !! b = Some g -> _filePath f <> [] -> _filePath f = _filePath g -> _fileName f = _fileName g -> a = b
}.

(** The file of a directory and a name. *)
Definition named fs d n (a : nat) f : Prop := heap fs !! a = Some f /\ _filePath f = d /\ _fileName f = n.
Definition file_at fs (d n : bytes) : option VirtualMemFile := a ← find (file_named fs d n) (_files fs); heap fs !! a.

Lemma file_named_true fs d n a : file_named fs d n a = true <-> exists f, named fs d n a f.
Proof using Type.
  unfold file_named, named. destruct (heap fs !! a) as [f|]; [|split; [done|by intros (? & ? & _)]]. rewrite andb_true_iff, !bool_decide_eq_true. split.
  - intros [<- <-]. by exists f.
  - by intros (f' & [= <-] & <- & <-).
Qed.

Lemma find_file fs d n : fs_ok fs -> d <> [] -> match find (file_named fs d n) (_files fs) with
  | Some a => exists f, named fs d n a f /\ file_at fs d n = Some f
  | None => file_at fs d n = None /\ forall a f, ~ named fs d n a f end.
Proof using Type.
  intros Hok Hd. unfold file_at. destruct (find _ _) as [a|] eqn:Ef.
  - apply find_some in Ef as [_ (f & Hf)%file_named_true]. exists f. split; [done|]. cbn. apply Hf.
  - split; [done|]. intros a f Hf. assert (Hin : a ∈ _files fs) by (apply (fk_heap fs Hok); destruct Hf as [-> _]; eauto).
    apply list_elem_of_In in Hin. pose proof (find_none _ _ Ef a Hin) as H. rewrite (proj2 (file_named_true fs d n a)) in H; [done|by exists f].
Qed.

Lemma find_named fs d n a f : fs_ok fs -> d <> [] -> named fs d n a f -> find (file_named fs d n) (_files fs) = Some a /\ file_at fs d n = Some f.
Proof using Type.
  intros Hok Hd Hf. pose proof (find_file fs d n Hok Hd) as H. destruct (find _ _) as [b|]; [|by destruct H as [_ H]; destruct (H a f)].
  destruct H as (g & (Hg & Hp & Hn) & E). destruct Hf as (Hf & Hp' & Hn'). assert (b = a) as -> by (apply (fk_names fs Hok b a g f Hg Hf); congruence). split; [done|]. congruence.
Qed.

Lemma existsb_find {A} (p : A -> bool) l : existsb p l = bool_decide (is_Some (find p l)).
Proof using Type. induction l as [|x l IH]; cbn; [done|]. destruct (p x); [by rewrite bool_decide_eq_true_2 by eauto|]. done. Qed.

(** Two systems with the same named files agree on the file of a name. *)
Lemma file_at_ext fs fs' d n : fs_ok fs -> fs_ok fs' -> d <> [] -> (forall f, (exists a, named fs' d n a f) <-> (exists a, named fs d n a f)) -> file_at fs' d n = file_at fs d n.
Proof using Type.
  intros H1 H2 Hd H. pose proof (find_file fs d n H1 Hd) as F1. pose proof (find_file fs' d n H2 Hd) as F2.
  destruct (find (file_named fs d n) _) as [a|], (find (file_named fs' d n) _) as [a'|].
  - destruct F1 as (f & Hf & ->), F2 as (f' & Hf' & ->). destruct (proj1 (H f')) as [b Hb]; [eauto|]. f_equal.
    pose proof (find_named fs d n a f H1 Hd Hf) as [_ E1]. pose proof (find_named fs d n b f' H1 Hd Hb) as [_ E2]. congruence.
  - destruct F1 as (f & Hf & _), F2 as (_ & F2). destruct (proj2 (H f)) as [b Hb]; [eauto|]. by destruct (F2 b f).
  - destruct F2 as (f & Hf & _), F1 as (_ & F1). destruct (proj1 (H f)) as [b Hb]; [eauto|]. by destruct (F1 b f).
  - destruct F1 as [-> _], F2 as [-> _]. done.
Qed.

(** A file changes, but not its name. *)
Lemma update_spec fs a f f' : fs_ok fs -> heap fs !! a = Some f -> file_ok f' -> same_file f f' ->
  fs_ok (update a f' fs) /\ (_filePath f <> [] -> file_at (update a f' fs) (_filePath f) (_fileName f) = Some f') /\
  forall d n, d <> [] -> (d, n) <> (_filePath f, _fileName f) -> file_at (update a f' fs) d n = file_at fs d n.
Proof using Type.
  intros Hok Hf Hf' (Hp & Hn & Hfd & Hl).
  assert (Hheap : forall b g, heap (update a f' fs) !! b = Some g -> exists g0, heap fs !! b = Some g0 /\ same_file g0 g /\ (b <> a -> g0 = g) /\ file_ok g).
  { intros b g. cbn. intros [[<- <-]|[Hne Hg]]%lookup_insert_Some; [exists f; split; [done|]; split; [by repeat split|done]|]. exists g. split; [done|]. split; [by repeat split|]. split; [done|by apply (fk_ok fs Hok b)]. }
  assert (Hok' : fs_ok (update a f' fs)).
  { destruct Hok as [K1 K2 K3 K4 K5 K6]. split; cbn [_files _fdPool update].
    - done.
    - intros b. rewrite K2. cbn. destruct (decide (b = a)) as [->|Hne]; [rewrite lookup_insert_eq, Hf; split; eauto|by rewrite lookup_insert_ne].
    - intros b g Hg. by destruct (Hheap b g Hg) as (_ & _ & _ & _ & ?).
    - intros b c g h Hg Hh E. destruct (Hheap b g Hg) as (g0 & Hg0 & (_ & _ & F1 & _) & _), (Hheap c h Hh) as (h0 & Hh0 & (_ & _ & F2 & _) & _). apply (K4 b c g0 h0); [done|done|congruence].
    - intros b g Hg. destruct (Hheap b g Hg) as (g0 & Hg0 & (_ & _ & F1 & _) & _). rewrite F1. by apply (K5 b).
    - intros b c g h Hg Hh. destruct (Hheap b g Hg) as (g0 & Hg0 & (P1 & N1 & _ & _) & _), (Hheap c h Hh) as (h0 & Hh0 & (P2 & N2 & _ & _) & _). rewrite P1, P2, N1, N2. by apply (K6 b c). }
  split; [done|]. split.
  - intros Hd. apply (find_named _ _ _ a f' Hok' Hd). split; [|done]. cbn. apply lookup_insert_eq.
  - intros d n Hd Hne. apply file_at_ext; [done|done|done|]. intros g. split; intros (b & Hb & Hbp & Hbn).
    + exists b. split; [|done]. cbn in Hb. apply lookup_insert_Some in Hb as [[<- <-]|[_ Hb]]; [|done]. exfalso. apply Hne. congruence.
    + exists b. split; [|done]. cbn. rewrite lookup_insert_ne; [done|]. intros <-. apply Hne. congruence.
Qed.

Lemma directory_nonempty d : directory d -> d <> [].
Proof using Type. intros [d' ->]. by destruct d'. Qed.

(** [createFile] gives the file of the name, or an empty one; the others stay. *)
Lemma createFile_spec p d n fs : fs_ok fs -> parseFilePath p [] [] = (true, d, n) ->
  exists a f fs', createFile malloc p fs = Some (a, fs') /\ fs_ok fs' /\ named fs' d n a f /\ file_at fs' d n = Some f /\
    contents f = default [] (contents <$> file_at fs d n) /\ (0 < _fileLength f -> _filePos f = 0) /\ _locked f = default false (_locked <$> file_at fs d n) /\
    (forall d' n', d' <> [] -> (d', n') <> (d, n) -> file_at fs' d' n' = file_at fs d' n').
Proof using Hmalloc Hsizeof.
  intros Hok Hp. destruct (parse_parts _ _ _ _ _ Hp) as (Hd%directory_nonempty & _ & _). unfold createFile, isContainFile, getFile. rewrite Hp, existsb_find.
  pose proof (find_file fs d n Hok Hd) as Hfind. destruct (find (file_named fs d n) (_files fs)) as [a|] eqn:Ef.
  - rewrite bool_decide_eq_true_2 by eauto. destruct Hfind as (f & (Hf & <- & <-) & E). cbn [mbind option_bind]. rewrite Hf. cbn [mbind option_bind]. rewrite E.
    pose proof (seek_spec sizeof_pointer Hsizeof 0 f (fk_ok fs Hok a f Hf) ltac:(lia)) as Hs. destruct (seek 0 f) as [b g]. cbn [snd]. destruct Hs as (S1 & S2 & S3 & S4).
    destruct (update_spec fs a f g Hok Hf S1 S2) as (U1 & U2 & U3). destruct S2 as (P1 & P2 & P3 & P4).
    do 3 eexists. split; [reflexivity|]. split; [exact U1|]. split; [split; [apply lookup_insert_eq|done]|]. split; [by apply U2|]. split; [exact S3|].
    split; [destruct b; [done|destruct S4 as [-> S4]; lia]|]. split; [exact P4|]. exact U3.
  - rewrite bool_decide_eq_false_2 by (by intros [? ?]). destruct Hfind as [E Hnone]. rewrite E. cbn [fmap option_fmap option_map default].
    pose proof (allocFd_spec (_fdPool fs)) as Ha. destruct (allocFd (_fdPool fs)) as [fd pool]. destruct Ha as (A1 & A2 & -> & A3).
    destruct (make_spec malloc sizeof_pointer Hmalloc Hsizeof p fd) as (M1 & M2 & M3 & M4 & M5 & M6). rewrite Hp in M6. injection M6 as Mp Mn.
    set (f := VirtualMemFile_make malloc p fd) in *. set (a := fresh (dom (heap fs))). assert (Ha : heap fs !! a = None) by (apply not_elem_of_dom, is_fresh).
    match goal with |- context [Some (a, ?x)] => set (fs' := x) end.
    assert (Hok' : fs_ok fs').
    { destruct Hok as [K1 K2 K3 K4 K5 K6]. split; cbn [_files _fdPool heap fs'].
      - apply NoDup_app. split; [done|]. split; [|apply NoDup_singleton]. intros x Hx ->%list_elem_of_singleton. apply K2 in Hx as [? Hx]. congruence.
      - intros b. rewrite elem_of_app, list_elem_of_singleton, K2. destruct (decide (b = a)) as [->|Hne]; [rewrite lookup_insert_eq; split; eauto|rewrite lookup_insert_ne by done; naive_solver].
      - intros b g [[<- <-]|[_ Hg]]%lookup_insert_Some; [done|by apply (K3 b)].
      - intros b c g h [[<- <-]|[_ Hg]]%lookup_insert_Some [[<- <-]|[_ Hh]]%lookup_insert_Some Efd; [done| | |by apply (K4 b c g h)]; exfalso; apply A1; rewrite <- M3; [rewrite Efd; by apply (K5 c)|rewrite <- Efd; by apply (K5 b)].
      - intros b g [[<- <-]|[_ Hg]]%lookup_insert_Some; [rewrite M3; set_solver|]. apply elem_of_union_r. by apply (K5 b).
      - intros b c g h [[<- <-]|[_ Hg]]%lookup_insert_Some [[<- <-]|[_ Hh]]%lookup_insert_Some Hne Ep En; [done| | |by apply (K6 b c g h)]; exfalso; [apply (Hnone c h)|apply (Hnone b g)]; (split; [done|]); split; congruence. }
    assert (Hnamed : named fs' d n a f) by (split; [apply lookup_insert_eq|done]).
    exists a, f, fs'. split; [reflexivity|]. split; [exact Hok'|]. split; [exact Hnamed|]. split; [by apply (find_named fs' d n a f Hok' Hd)|]. split; [exact M2|]. split; [by intros _|]. split; [done|].
    intros d' n' Hd' Hne. apply file_at_ext; [done|done|done|]. intros g. split; intros (b & Hb & Hbp & Hbn); exists b.
    + split; [|done]. cbn in Hb. apply lookup_insert_Some in Hb as [[<- <-]|[_ Hb]]; [|done]. exfalso. apply Hne. congruence.
    + split; [|done]. cbn. rewrite lookup_insert_ne; [done|]. intros <-. congruence.
Qed.

Lemma erase_first_spec p l : match find p l with
  | Some a => exists l1 l2, l = l1 ++ a :: l2 /\ erase_first p l = (Some a, l1 ++ l2)
  | None => fst (erase_first p l) = None end.
Proof using Type.
  induction l as [|a l IH]; cbn; [done|]. destruct (p a); [by exists [], l|]. destruct (find p l) as [b|].
  - destruct IH as (l1 & l2 & -> & ->). by exists (a :: l1), l2.
  - by destruct (erase_first p l).
Qed.

(** [deleteFile] deletes the file of the name and answers whether there was one. *)
Lemma deleteFile_spec p d n fs : fs_ok fs -> parseFilePath p [] [] = (true, d, n) -> let '(b, fs') := deleteFile p fs in
  b = bool_decide (is_Some (file_at fs d n)) /\ fs_ok fs' /\ file_at fs' d n = None /\ forall d' n', d' <> [] -> (d', n') <> (d, n) -> file_at fs' d' n' = file_at fs d' n'.
Proof using Hsizeof.
  intros Hok Hp. destruct (parse_parts _ _ _ _ _ Hp) as (Hd%directory_nonempty & _ & _). unfold deleteFile. rewrite Hp.
  pose proof (find_file fs d n Hok Hd) as Hfind. pose proof (erase_first_spec (file_named fs d n) (_files fs)) as He. destruct (find (file_named fs d n) (_files fs)) as [a|].
  - destruct Hfind as (f & (Hf & Hfp & Hfn) & E). destruct He as (l1 & l2 & El & ->). rewrite E, bool_decide_eq_true_2 by eauto. unfold delete_file. rewrite Hf.
    match goal with |- _ /\ fs_ok ?x /\ _ => set (fs' := x) end. pose proof Hok as [K1 K2 K3 K4 K5 K6].
    assert (Hla : forall b, b ∈ l1 ++ l2 <-> b ∈ _files fs /\ b <> a).
    { rewrite El in *. apply NoDup_app in K1 as (N1 & N2 & [N3 N4]%NoDup_cons). intros b. rewrite !elem_of_app, elem_of_cons. split; [|naive_solver].
      intros [Hb|Hb]; (split; [naive_solver|]); intros ->; [apply (N2 a Hb); left|done]. }
    assert (Hok' : fs_ok fs').
    { split; cbn [_files _fdPool heap fs' set_files].
      - rewrite El in K1. apply NoDup_app in K1 as (N1 & N2 & [N3 N4]%NoDup_cons). apply NoDup_app. split; [done|]. split; [|done]. intros x Hx Hx'. apply (N2 x Hx). by right.
      - intros b. rewrite Hla, K2. rewrite lookup_delete_is_Some. naive_solver.
      - intros b g [_ Hg]%lookup_delete_Some. by apply (K3 b).
      - intros b c g h [_ Hg]%lookup_delete_Some [_ Hh]%lookup_delete_Some. by apply K4.
      - intros b g [Hne Hg]%lookup_delete_Some. unfold recycleFd. apply elem_of_difference. split; [by apply (K5 b)|]. intros Efd%elem_of_singleton. apply Hne. by apply (K4 a b f g).
      - intros b c g h [_ Hg]%lookup_delete_Some [_ Hh]%lookup_delete_Some. by apply K6. }
    split; [done|]. split; [exact Hok'|]. split.
    + pose proof (find_file fs' d n Hok' Hd) as H. destruct (find _ _) as [b|]; [|apply H]. destruct H as (g & (Hb & Hbp & Hbn) & _). exfalso.
      change (delete a (heap fs) !! b = Some g) in Hb. apply lookup_delete_Some in Hb as [Hne Hb]. apply Hne. apply (K6 a b f g Hf Hb); congruence.
    + intros d' n' Hd' Hne. apply file_at_ext; [done|done|done|]. intros g. split; intros (b & Hb & Hbp & Hbn); exists b.
      * change (delete a (heap fs) !! b = Some g) in Hb. by apply lookup_delete_Some in Hb as [_ Hb].
      * split; [|done]. change (delete a (heap fs) !! b = Some g). rewrite lookup_delete_ne; [done|]. intros <-. apply Hne. congruence.
  - destruct Hfind as [E _]. destruct (erase_first _ _) as [r l]. cbn in He. subst r. rewrite E. split; [by rewrite bool_decide_eq_false_2 by (by intros [? ?])|]. done.
Qed.
End SystemLaws.
