(* ===== verification/PosixEnv.v ===== *)
(** * PosixEnv: the environment

    Models of [util/env_posix.cpp] the environment over the file system in memory, which
    the build with [BUILD_HADOOP] uses, with the table of locked files, and what both
    builds share: the limit on mapped files and the thread that runs background work.
    A file of the database is a pointer into the file system, so that all the handles of
    a file share its position.  The other build calls the operating system. *)

From S2P Require Import Prelude Coding Slice VirtualFs.

(** ** Files *)

Record PosixEnv : Type := mkEnv { fileSystem : VirtualMemFileSystem; locked_files_ : gset bytes }.

Section Files.
Context (malloc : Z -> bytes) (sizeof_pointer : Z).
Implicit Types e : PosixEnv.

Definition PosixEnv_make : PosixEnv := mkEnv VirtualMemFileSystem_make ∅.

Definition set_fs fs e : PosixEnv := mkEnv fs (locked_files_ e).

(** A change of the file that a pointer leads to. *)
Definition on_file {A} (a : nat) (op : VirtualMemFile -> option (A * VirtualMemFile)) e : option (A * PosixEnv) :=
  f ← deref a (fileSystem e); '(r, f) ← op f; Some (r, set_fs (update a f (fileSystem e)) e).

Definition open (fname : bytes) (op : VirtualMemFile -> option VirtualMemFile) e : option (Status * nat * PosixEnv) :=
  '(a, fs) ← createFile malloc fname (fileSystem e);
  '(_, e) ← on_file a (fun f => f ← op f; Some (tt, f)) (set_fs fs e);
  Some (OK, a, e).

(** A file that is not there is made. *)
Definition NewSequentialFile (fname : bytes) e : option (Status * nat * PosixEnv) := open fname (fun f => Some (snd (seek 0 f))) e.
Definition NewRandomAccessFile (fname : bytes) e : option (Status * nat * PosixEnv) := open fname Some e.
Definition NewWritableFile (fname : bytes) e : option (Status * nat * PosixEnv) := open fname (clean sizeof_pointer) e.
Definition NewAppendableFile (fname : bytes) e : option (Status * nat * PosixEnv) := open fname (fun f => Some (snd (seek (_fileLength f) f))) e.

(** [PosixSequentialFile]. *)
Definition Read (n : Z) (a : nat) e : option (Status * bytes * PosixEnv) :=
  '(d, e) ← on_file a (fun f => let '(d, f) := read n f in d ← d; Some (d, f)) e; Some (OK, d, e).
Definition Skip (n : Z) (a : nat) e : option (Status * PosixEnv) :=
  on_file a (fun f => let '(b, f') := skip n f in Some (if b : bool then IOError (_fileName f) (_fileName f ++ str "skip error") else OK, f')) e.

(** [PosixRandomAccessFile]. *)
Definition ReadAt (offset n : Z) (a : nat) e : option (Status * bytes * PosixEnv) :=
  '(d, e) ← on_file a (fun f => let '(d, f) := read_at (usize offset) n f in d ← d; Some (d, f)) e; Some (OK, d, e).

(** [PosixWritableFile]; deleting any of the three closes the file too. *)
Definition Append (data : bytes) (a : nat) e : option (Status * PosixEnv) :=
  on_file a (fun f => f ← write malloc sizeof_pointer data f; Some (OK, f)) e.
Definition Close (a : nat) e : option (Status * PosixEnv) := on_file a (fun f => Some (OK, close f)) e.
Definition Flush (a : nat) e : option (Status * PosixEnv) := on_file a (fun f => Some (OK, f)) e.
Definition Sync (a : nat) e : option (Status * PosixEnv) := Some (OK, e).

Definition FileExists (fname : bytes) e : bool := isContainFile fname (fileSystem e).

Definition GetChildren (dir dbname : bytes) e : Status * list bytes :=
  let '(b, names) := getChildrenName dir (fileSystem e) in
  (if b then OK else IOError dir (dir ++ str "get child error"), names).

Definition DeleteFile (fname : bytes) e : Status * PosixEnv :=
  let '(b, fs) := deleteFile fname (fileSystem e) in (if b then OK else IOError fname (fname ++ str "delete error"), set_fs fs e).
Definition CreateDir (name : bytes) e : Status * PosixEnv :=
  let '(b, fs) := createDir name (fileSystem e) in (if b then OK else IOError name (name ++ str "create dir error"), set_fs fs e).
Definition DeleteDir (name : bytes) e : Status * PosixEnv :=
  let '(b, fs) := deleteDir name (fileSystem e) in (if b then OK else IOError name (name ++ str "delete dir error"), set_fs fs e).

Definition GetFileSize (fname : bytes) e : Status + Z :=
  match a ← getFile fname (fileSystem e); deref a (fileSystem e) with
  | Some f => inr (_fileLength f)
  | None => inl (IOError fname (fname ++ str "get file size error"))
  end.

Definition RenameFile (src target : bytes) e : option (Status * PosixEnv) :=
  match getFile src (fileSystem e) with
  | Some a => on_file a (fun f => Some (OK, rename target f)) e
  | None => Some (IOError src (src ++ str "rename error"), e)
  end.

(** *** Locks *)

(** [locks_]. *)
Definition Insert (fname : bytes) e : bool * PosixEnv :=
  if bool_decide (fname ∈ locked_files_ e) then (false, e) else (true, mkEnv (fileSystem e) ({[ fname ]} ∪ locked_files_ e)).
Definition Remove (fname : bytes) e : PosixEnv := mkEnv (fileSystem e) (locked_files_ e ∖ {[ fname ]}).

(** [true]: the answer is 0. *)
Definition LockOrUnlock (fd : Z) (lock : bool) e : option (bool * PosixEnv) :=
  match getFile_fd fd (fileSystem e) with
  | None => Some (false, e)
  | Some a => on_file a (fun f => if lock then lockFile f else Some (unlockFile f)) e
  end.

Definition LockFile (fname : bytes) e : option (Status * option (Z * bytes) * PosixEnv) :=
  '(a, e) ← (match getFile fname (fileSystem e) with
             | Some a => Some (a, e)
             | None => '(a, fs) ← createFile malloc fname (fileSystem e); Some (a, set_fs fs e)
             end);
  f ← deref a (fileSystem e);
  let '(inserted, e) := Insert fname e in
  if negb inserted then Some (IOError (str "lock " ++ fname) (str "already held by process"), None, e)
  else
    '(locked, e) ← LockOrUnlock (_fd f) true e;
    if locked : bool then Some (OK, Some (_fd f, fname), e)
    else Some (IOError (str "lock " ++ fname) (fname ++ str "lock file error"), None, Remove fname e).

Definition UnlockFile (lock : Z * bytes) e : option (Status * PosixEnv) :=
  '(unlocked, e) ← LockOrUnlock (fst lock) false e;
  Some (if unlocked : bool then OK else IOError (str "unlock") (str "unlock file error"), Remove (snd lock) e).

Definition CloseAllFile e : PosixEnv := set_fs (closeAll (fileSystem e)) e.
End Files.

(** ** The limit on mapped files *)

Definition MmapLimiter_make (sizeof_pointer : Z) : Z := if sizeof_pointer >=? 8 then 1000 else 0.
Definition Acquire (allowed : Z) : bool * Z := if allowed <=? 0 then (false, allowed) else (true, allowed - 1).
Definition Release (allowed : Z) : Z := allowed + 1.

(** [PosixMmapReadableFile], on the bytes of the mapping. *)
Definition MmapRead (filename : bytes) (strerror : Z -> bytes) (EINVAL : Z) (region : bytes) (offset n : Z) : Status * bytes :=
  if u64 (offset + n) >? size_of region then (IOError filename (strerror EINVAL), [])
  else (OK, take (Z.to_nat n) (drop (Z.to_nat offset) region)).

(** The files that are mapped and unmapped; [true] is [Acquire], and a file has the slot
    that it got. *)
Fixpoint limiter_run (calls : list bool) (allowed held : Z) : Z * Z :=
  match calls with
  | [] => (allowed, held)
  | true :: calls => let '(got, allowed) := Acquire allowed in limiter_run calls allowed (if got : bool then held + 1 else held)
  | false :: calls => if 0 <? held then limiter_run calls (Release allowed) (held - 1) else limiter_run calls allowed held
  end.

(** No more files are mapped at a time than the limit allows. *)
Lemma limiter_bound calls : forall allowed held, 0 <= allowed -> 0 <= held ->
  let '(allowed', held') := limiter_run calls allowed held in 0 <= held' <= allowed + held /\ allowed' + held' = allowed + held.
Proof.
  induction calls as [|[] calls IH]; intros allowed held Ha Hh; cbn [limiter_run]; [lia| |].
  - unfold Acquire. destruct (Z.leb_spec allowed 0); [by apply IH|]. specialize (IH (allowed - 1) (held + 1) ltac:(lia) ltac:(lia)). destruct (limiter_run _ _ _). lia.
  - destruct (Z.ltb_spec 0 held); [|by apply IH]. unfold Release. specialize (IH (allowed + 1) (held - 1) ltac:(lia) ltac:(lia)). destruct (limiter_run _ _ _). lia.
Qed.

(** ** Background work *)

Section Background.
Context {Item : Type}.

(** The thread is about to take the mutex, waits for the signal, or runs a function. *)
Variant Phase : Type := Ready | Waiting | Running (i : Item).

Record Background : Type := mkBackground { started_bgthread_ : bool; queue_ : list Item; phase_ : Phase }.

Definition Background_make : Background := mkBackground false [] Ready.

(** [Schedule] holds the mutex; it signals when the queue is empty. *)
Definition Schedule (i : Item) (b : Background) : Background :=
  mkBackground true (queue_ b ++ [i])
    (match queue_ b, phase_ b with [], Waiting => Ready | _, p => p end).

(** What the thread does from the time it gets the mutex to the time it lets it go. *)
Definition BGThread (b : Background) : Background :=
  match phase_ b, queue_ b with
  | Ready, [] => mkBackground (started_bgthread_ b) [] Waiting
  | Ready, i :: q => mkBackground (started_bgthread_ b) q (Running i)
  | _, _ => b
  end.

(** The function that runs. *)
Definition called (b : Background) : list Item := match phase_ b with Running i => [i] | _ => [] end.

(** The calls of [Schedule] and the steps of the thread; [done] has the functions that the
    thread has called, in order. *)
Inductive bg_step : Background * list Item * list Item -> Background * list Item * list Item -> Prop :=
| bg_schedule b i scheduled done : bg_step (b, scheduled, done) (Schedule i b, scheduled ++ [i], done)
| bg_take b scheduled done : started_bgthread_ b = true -> phase_ b = Ready ->
    bg_step (b, scheduled, done) (BGThread b, scheduled, done ++ called (BGThread b))
| bg_wake b scheduled done : phase_ b = Waiting -> bg_step (b, scheduled, done) (mkBackground (started_bgthread_ b) (queue_ b) Ready, scheduled, done)
| bg_return b i scheduled done : phase_ b = Running i -> bg_step (b, scheduled, done) (mkBackground (started_bgthread_ b) (queue_ b) Ready, scheduled, done).
End Background.
Arguments Background : clear implicits.

(** ** The files of the environment as a map *)

Section FileLaws.
Context (malloc : Z -> bytes) (sizeof_pointer : Z) (Hmalloc : forall n, 0 <= n -> size_of (malloc n) = n) (Hsizeof : sizeof_pointer = 4 \/ sizeof_pointer = 8).
Implicit Types e : PosixEnv.

Definition env_ok e : Prop := fs_ok sizeof_pointer (fileSystem e).

(** What the file of a directory and a name has. *)
Definition data e (d n : bytes) : option bytes := contents <$> file_at (fileSystem e) d n.

(** A pointer to that file, with its position. *)
Definition handle e (a : nat) (d n : bytes) (pos : Z) (c : bytes) : Prop :=
  exists f, named (fileSystem e) d n a f /\ _filePos f = pos /\ contents f = c.

(** Only the file of the name changes. *)
Definition frame e e' (d n : bytes) : Prop := forall d' n', d' <> [] -> (d', n') <> (d, n) -> data e' d' n' = data e d' n'.

Lemma frame_trans e1 e2 e3 d n : frame e1 e2 d n -> frame e2 e3 d n -> frame e1 e3 d n.
Proof using Type. intros H1 H2 d' n' Hd Hn. by rewrite H2, H1. Qed.

Lemma handle_data e a d n pos c : env_ok e -> d <> [] -> handle e a d n pos c -> data e d n = Some c.
Proof using Type. intros Hok Hd (f & Hf & _ & Hc). unfold data. destruct (find_named sizeof_pointer _ _ _ _ _ Hok Hd Hf) as [_ ->]. cbn. by rewrite Hc. Qed.

Lemma on_file_spec {A} a (op : VirtualMemFile -> option (A * VirtualMemFile)) e d n f r f' : env_ok e -> d <> [] -> named (fileSystem e) d n a f -> op f = Some (r, f') ->
  file_ok sizeof_pointer f' -> same_file f f' -> exists e', on_file a op e = Some (r, e') /\ env_ok e' /\ handle e' a d n (_filePos f') (contents f') /\ frame e e' d n.
Proof using Type.
  intros Hok Hd (Hf & <- & <-) Hop Hf' Hs. unfold on_file, deref. rewrite Hf. cbn [mbind option_bind]. rewrite Hop. cbn [mbind option_bind].
  destruct (update_spec sizeof_pointer _ a f f' Hok Hf Hf' Hs) as (U1 & U2 & U3). destruct Hs as (P1 & P2 & _ & _).
  eexists. split; [reflexivity|]. split; [exact U1|]. split.
  - exists f'. split; [|done]. split; [apply lookup_insert_eq|]. done.
  - intros d' n' Hd' Hne. unfold data. cbn [fileSystem set_fs]. by rewrite U3.
Qed.

Lemma open_spec p d n op e g : env_ok e -> parseFilePath p [] [] = (true, d, n) ->
  (forall f, file_ok sizeof_pointer f -> contents f = default [] (data e d n) -> (0 < _fileLength f -> _filePos f = 0) -> exists f', op f = Some f' /\ file_ok sizeof_pointer f' /\ same_file f f' /\ g (_filePos f') (contents f')) ->
  exists a e' pos c, open malloc p op e = Some (OK, a, e') /\ env_ok e' /\ handle e' a d n pos c /\ g pos c /\ frame e e' d n.
Proof using Hmalloc Hsizeof.
  intros Hok Hp Hop. destruct (parse_parts _ _ _ _ _ Hp) as (Hd%directory_nonempty & _ & _). unfold open.
  destruct (createFile_spec malloc sizeof_pointer Hmalloc Hsizeof p d n (fileSystem e) Hok Hp) as (a & f & fs' & -> & Hok' & Hnamed & Hat & Hc & Hpos & _ & Hframe). cbn [mbind option_bind].
  destruct (Hop f) as (f' & E1 & Hf' & Hs & Hg); [by eapply (fk_ok _ _ Hok'), Hnamed|exact Hc|exact Hpos|].
  destruct (on_file_spec a (fun f => f ← op f; Some (tt, f)) (set_fs fs' e) d n f tt f' Hok' Hd Hnamed) as (e' & E2 & Hok2 & Hh & Hfr); [by rewrite E1|done|done|].
  rewrite E2. cbn [mbind option_bind]. do 4 eexists. split; [reflexivity|]. split; [exact Hok2|]. split; [exact Hh|]. split; [exact Hg|].
  eapply frame_trans; [|exact Hfr]. intros d' n' Hd' Hne. unfold data. cbn [fileSystem set_fs]. by rewrite Hframe.
Qed.

Lemma zero_pos f : file_ok sizeof_pointer f -> (0 < _fileLength f -> _filePos f = 0) -> _filePos f = 0.
Proof using Type. intros [H1 H2 H3 H4] H. destruct (decide (0 < _fileLength f)); [by apply H|lia]. Qed.

Lemma NewWritableFile_spec p d n e : env_ok e -> parseFilePath p [] [] = (true, d, n) ->
  exists a e', NewWritableFile malloc sizeof_pointer p e = Some (OK, a, e') /\ env_ok e' /\ handle e' a d n 0 [] /\ frame e e' d n.
Proof using Hmalloc Hsizeof.
  intros Hok Hp. destruct (open_spec p d n (clean sizeof_pointer) e (fun pos c => pos = 0 /\ c = []) Hok Hp) as (a & e' & pos & c & E1 & Hok' & Hh & [-> ->] & Hfr).
  - intros f Hf _ _. destruct (clean_spec sizeof_pointer Hsizeof f Hf) as (f' & E & C1 & C2 & C3 & C4). by exists f'.
  - by exists a, e'.
Qed.

Lemma NewSequentialFile_spec p d n e : env_ok e -> parseFilePath p [] [] = (true, d, n) ->
  exists a e', NewSequentialFile malloc p e = Some (OK, a, e') /\ env_ok e' /\ handle e' a d n 0 (default [] (data e d n)) /\ frame e e' d n.
Proof using Hmalloc Hsizeof.
  intros Hok Hp. destruct (open_spec p d n (fun f => Some (snd (seek 0 f))) e (fun pos c => pos = 0 /\ c = default [] (data e d n)) Hok Hp) as (a & e' & pos & c & E1 & Hok' & Hh & [-> ->] & Hfr).
  - intros f Hf Hc Hpos. pose proof (seek_spec sizeof_pointer Hsizeof 0 f Hf ltac:(lia)) as Hs. destruct (seek 0 f) as [b f']. destruct Hs as (S1 & S2 & S3 & S4). exists f'. split; [done|].
    split; [done|]. split; [done|]. split; [|congruence]. destruct b; [done|]. destruct S4 as [-> _]. by apply zero_pos.
  - by exists a, e'.
Qed.

Lemma NewAppendableFile_spec p d n e : env_ok e -> parseFilePath p [] [] = (true, d, n) ->
  exists a e' pos, NewAppendableFile malloc p e = Some (OK, a, e') /\ env_ok e' /\ handle e' a d n pos (default [] (data e d n)) /\ frame e e' d n.
Proof using Hmalloc Hsizeof.
  intros Hok Hp. destruct (open_spec p d n (fun f => Some (snd (seek (_fileLength f) f))) e (fun pos c => c = default [] (data e d n)) Hok Hp) as (a & e' & pos & c & E1 & Hok' & Hh & -> & Hfr).
  - intros f Hf Hc Hpos. pose proof (seek_spec sizeof_pointer Hsizeof (_fileLength f) f Hf ltac:(destruct Hf; lia)) as Hs. destruct (seek _ f) as [b f']. destruct Hs as (S1 & S2 & S3 & _).
    exists f'. split; [done|]. split; [done|]. split; [done|congruence].
  - by exists a, e', pos.
Qed.

Lemma Append_spec x a e d n pos c : env_ok e -> d <> [] -> handle e a d n pos c -> size_of c + size_of x < 2 ^ 30 ->
  exists e', Append malloc sizeof_pointer x a e = Some (OK, e') /\ env_ok e' /\ handle e' a d n (size_of (c ++ x)) (c ++ x) /\ frame e e' d n.
Proof using Hmalloc Hsizeof.
  intros Hok Hd (f & Hf & <- & <-) Hsz. assert (Hfo : file_ok sizeof_pointer f) by (eapply (fk_ok _ _ Hok), Hf). rewrite (contents_size sizeof_pointer f Hfo) in Hsz.
  destruct (write_spec malloc sizeof_pointer Hmalloc Hsizeof x f Hfo Hsz) as (f' & E1 & Hf' & Hs & Hc & Hp).
  destruct (on_file_spec a (fun f => f ← write malloc sizeof_pointer x f; Some (OK, f)) e d n f OK f' Hok Hd Hf) as (e' & E2 & Hok2 & Hh & Hfr); [by rewrite E1|done|done|].
  exists e'. split; [exact E2|]. split; [done|]. split; [|done]. rewrite Hp, <- (contents_size sizeof_pointer f' Hf'), Hc in Hh. exact Hh.
Qed.

Lemma Close_spec a e d n pos c : env_ok e -> d <> [] -> handle e a d n pos c ->
  exists e', Close a e = Some (OK, e') /\ env_ok e' /\ handle e' a d n 0 c /\ frame e e' d n.
Proof using Hsizeof.
  intros Hok Hd (f & Hf & <- & <-). assert (Hfo : file_ok sizeof_pointer f) by (eapply (fk_ok _ _ Hok), Hf). destruct (file_close_spec sizeof_pointer f Hfo) as (C1 & C2 & C3 & C4).
  destruct (on_file_spec a (fun f => Some (OK, close f)) e d n f OK (close f) Hok Hd Hf eq_refl C1 C2) as (e' & E2 & Hok2 & Hh & Hfr). exists e'. split; [exact E2|]. split; [done|]. by rewrite C3, C4 in Hh.
Qed.

Lemma Read_spec k a e d n pos c : env_ok e -> d <> [] -> handle e a d n pos c -> 0 <= k < 2 ^ 31 -> let x := take (Z.to_nat k) (drop (Z.to_nat pos) c) in
  0 <= pos /\ exists e', Read k a e = Some (OK, x, e') /\ env_ok e' /\ handle e' a d n (pos + size_of x) c /\ frame e e' d n.
Proof using Hsizeof.
  intros Hok Hd (f & Hf & <- & <-) Hk x. assert (Hfo : file_ok sizeof_pointer f) by (eapply (fk_ok _ _ Hok), Hf). split; [destruct Hfo; lia|].
  destruct (read_spec sizeof_pointer Hsizeof k f Hfo Hk) as (x' & E1 & -> & Hf'). fold x in E1, Hf'.
  destruct (on_file_spec a (fun f => let '(d, f) := read k f in d ← d; Some (d, f)) e d n f x (set_pos (_filePos f + size_of x) f) Hok Hd Hf) as (e' & E2 & Hok2 & Hh & Hfr);
    [by rewrite E1|done|by repeat split|].
  exists e'. unfold Read. rewrite E2. split; [done|]. split; [done|]. by split.
Qed.

Lemma DeleteFile_spec p d n e : env_ok e -> parseFilePath p [] [] = (true, d, n) -> let '(s, e') := DeleteFile p e in
  ok s = bool_decide (is_Some (data e d n)) /\ env_ok e' /\ data e' d n = None /\ frame e e' d n.
Proof using Hsizeof.
  intros Hok Hp. unfold DeleteFile. pose proof (deleteFile_spec sizeof_pointer Hsizeof p d n (fileSystem e) Hok Hp) as H. destruct (deleteFile p (fileSystem e)) as [b fs'].
  destruct H as (H1 & H2 & H3 & H4). split; [|split; [exact H2|split]].
  - rewrite H1. unfold data. destruct (file_at (fileSystem e) d n); [|done]. by rewrite !bool_decide_eq_true_2 by (cbn; eauto).
  - unfold data. cbn [fileSystem set_fs]. by rewrite H3.
  - intros d' n' Hd' Hne. unfold data. cbn [fileSystem set_fs]. by rewrite H4.
Qed.

Lemma queries_spec p d n e : env_ok e -> parseFilePath p [] [] = (true, d, n) ->
  FileExists p e = bool_decide (is_Some (data e d n)) /\
  match data e d n with Some c => GetFileSize p e = inr (size_of c) | None => exists s, GetFileSize p e = inl s /\ ok s = false end.
Proof using Type.
  intros Hok Hp. destruct (parse_parts _ _ _ _ _ Hp) as (Hd%directory_nonempty & _ & _). unfold FileExists, GetFileSize, isContainFile, getFile, data. rewrite Hp, existsb_find.
  pose proof (find_file sizeof_pointer (fileSystem e) d n Hok Hd) as H. destruct (find _ _) as [a|].
  - destruct H as (f & Hf & E1). rewrite E1. cbn [fmap option_fmap option_map mbind option_bind]. destruct Hf as [Hf _]. unfold deref. rewrite Hf. split; [by rewrite !bool_decide_eq_true_2 by eauto|].
    rewrite (contents_size sizeof_pointer f); [done|]. by eapply (fk_ok _ _ Hok).
  - destruct H as [-> _]. cbn. split; [done|]. by eexists.
Qed.
End FileLaws.

(** *** Writing and reading *)

Fixpoint write_all (malloc : Z -> bytes) (sizeof_pointer : Z) (ds : list bytes) (a : nat) (e : PosixEnv) : option PosixEnv :=
  match ds with
  | [] => Some e
  | x :: ds => '(s, e) ← Append malloc sizeof_pointer x a e; if ok s then write_all malloc sizeof_pointer ds a e else None
  end.

(** Reads of up to [k] bytes for each [k] of the list. *)
Fixpoint read_pieces (ks : list Z) (a : nat) (e : PosixEnv) : option (list bytes * PosixEnv) :=
  match ks with
  | [] => Some ([], e)
  | k :: ks => '(_, x, e) ← Read k a e; '(xs, e) ← read_pieces ks a e; Some (x :: xs, e)
  end.

Section RoundTrip.
Context (malloc : Z -> bytes) (sizeof_pointer : Z) (Hmalloc : forall n, 0 <= n -> size_of (malloc n) = n) (Hsizeof : sizeof_pointer = 4 \/ sizeof_pointer = 8).
Implicit Types e : PosixEnv.

Abbreviation env_ok := (env_ok sizeof_pointer).

Lemma write_all_spec ds : forall a e d n pos c, env_ok e -> d <> [] -> handle e a d n pos c -> size_of c + size_of (concat ds) < 2 ^ 30 ->
  exists e' pos', write_all malloc sizeof_pointer ds a e = Some e' /\ env_ok e' /\ handle e' a d n pos' (c ++ concat ds) /\ frame e e' d n.
Proof using Hmalloc Hsizeof.
  induction ds as [|x ds IH]; intros a e d n pos c Hok Hd Hh Hsz; cbn [write_all concat] in *.
  - exists e, pos. rewrite app_nil_r. split; [done|]. split; [done|]. split; [done|]. intros d' n' _ _. reflexivity.
  - rewrite size_of_app in Hsz. pose proof (size_of_nonneg (concat ds)).
    destruct (Append_spec malloc sizeof_pointer Hmalloc Hsizeof x a e d n pos c Hok Hd Hh ltac:(lia)) as (e1 & -> & Hok1 & Hh1 & Hfr1). cbn [mbind option_bind ok].
    destruct (IH a e1 d n _ _ Hok1 Hd Hh1) as (e2 & pos' & E2 & Hok2 & Hh2 & Hfr2); [rewrite size_of_app; lia|]. exists e2, pos'. split; [exact E2|]. split; [done|].
    split; [by rewrite app_assoc|by eapply frame_trans].
Qed.

Lemma read_pieces_spec ks : forall a e d n pos c, env_ok e -> d <> [] -> handle e a d n pos c -> Forall (fun k => 0 <= k < 2 ^ 31) ks ->
  exists xs e', read_pieces ks a e = Some (xs, e') /\ env_ok e' /\ frame e e' d n /\ data e' d n = Some c /\
    concat xs = take (Z.to_nat (foldr Z.add 0 ks)) (drop (Z.to_nat pos) c).
Proof using Hsizeof.
  induction ks as [|k ks IH]; intros a e d n pos c Hok Hd Hh Hks; cbn [read_pieces foldr].
  - exists [], e. split; [done|]. split; [done|]. split; [by intros d' n' _ _|]. split; [by eapply handle_data|done].
  - apply Forall_cons in Hks as [Hk Hks]. destruct (Read_spec sizeof_pointer Hsizeof k a e d n pos c Hok Hd Hh Hk) as (Hpos & e1 & -> & Hok1 & Hh1 & Hfr1). cbn [mbind option_bind].
    destruct (IH a e1 d n _ _ Hok1 Hd Hh1 Hks) as (xs & e2 & -> & Hok2 & Hfr2 & Hd2 & E). cbn [mbind option_bind].
    do 2 eexists. split; [reflexivity|]. split; [done|]. split; [by eapply frame_trans|]. split; [done|]. cbn [concat]. rewrite E.
    set (l := drop (Z.to_nat pos) c). assert (H0 : 0 <= foldr Z.add 0 ks) by (clear - Hks; induction Hks; cbn; lia).
    assert (E2 : drop (Z.to_nat (pos + size_of (take (Z.to_nat k) l))) c = drop (Z.to_nat k) l).
    { unfold l. rewrite drop_drop. destruct (decide (Z.to_nat k <= length (drop (Z.to_nat pos) c))%nat) as [Hle|Hgt].
      - f_equal. unfold size_of. rewrite length_take. lia.
      - rewrite !drop_ge; [done| |]; rewrite length_drop in Hgt; [lia|unfold size_of; rewrite length_take, length_drop; lia]. }
    rewrite E2, Z2Nat.inj_add by lia. symmetry. rewrite <- (take_drop (Z.to_nat k) (take (Z.to_nat k + _) l)). rewrite take_take, Nat.min_l by lia. f_equal.
    rewrite skipn_firstn_comm. f_equal. lia.
Qed.
End RoundTrip.

(** ** The background thread *)

Section BackgroundLaws.
Context {Item : Type}.
Implicit Types b : Background Item.

Definition bg_reachable (s : Background Item * list Item * list Item) : Prop := rtc bg_step (Background_make, [], []) s.

(** What was scheduled was started, or waits in order; the thread waits for the signal only
    while the queue is empty. *)
Definition bg_ok (s : Background Item * list Item * list Item) : Prop :=
  let '(b, scheduled, done) := s in
  scheduled = done ++ queue_ b /\ (phase_ b = Waiting -> queue_ b = []) /\ (started_bgthread_ b = false -> scheduled = [] /\ phase_ b = Ready).

Lemma bg_step_ok s s' : bg_step s s' -> bg_ok s -> bg_ok s'.
Proof using Type.
  intros H. destruct H as [b i scheduled done|b scheduled done Hs Hp|b scheduled done Hp|b i scheduled done Hp]; intros (H1 & H2 & H3); unfold bg_ok.
  - subst scheduled. split; [symmetry; apply app_assoc|]. split; [|done]. unfold Schedule. cbn. destruct (queue_ b) as [|x q], (phase_ b); try done. intros _. by specialize (H2 eq_refl).
  - subst scheduled. unfold BGThread, called. rewrite Hp. destruct (queue_ b) as [|x q]; cbn; (split; [first [by rewrite app_nil_r | by rewrite <- app_assoc]|]); (split; [done|by rewrite Hs]).
  - split; [done|]. split; [done|]. intros E. cbn in E. by destruct (H3 E).
  - split; [done|]. split; [done|]. intros E. cbn in E. by destruct (H3 E).
Qed.

Lemma bg_reachable_ok s : bg_reachable s -> bg_ok s.
Proof using Type.
  intros H. refine (rtc_ind_r bg_ok _ _ _ _ H); [done|]. intros x y _ Hstep Hx. by eapply bg_step_ok.
Qed.

(** What waits is started, as the functions return. *)
Lemma bg_drain q : forall b scheduled done, queue_ b = q -> started_bgthread_ b = true -> bg_ok (b, scheduled, done) -> exists b', rtc bg_step (b, scheduled, done) (b', scheduled, scheduled).
Proof using Type.
  induction q as [|i q IH]; intros b scheduled done Hq Hst Hok.
  - destruct Hok as (-> & _). rewrite Hq, app_nil_r. by exists b.
  - assert (Hready : exists b1, rtc bg_step (b, scheduled, done) (b1, scheduled, done) /\ queue_ b1 = i :: q /\ started_bgthread_ b1 = true /\ phase_ b1 = Ready /\ bg_ok (b1, scheduled, done)).
    { destruct (phase_ b) as [| |j] eqn:Ep.
      - by exists b.
      - destruct Hok as (_ & H & _). specialize (H Ep). congruence.
      - pose proof (bg_return b j scheduled done Ep) as Hs. eexists. split; [by apply rtc_once|]. split; [done|]. split; [done|]. split; [done|]. by eapply bg_step_ok. }
    destruct Hready as (b1 & Hr & Hq1 & Hst1 & Hp1 & Hok1). pose proof (bg_take b1 scheduled done Hst1 Hp1) as Hs. pose proof (bg_step_ok _ _ Hs Hok1) as Hok2.
    unfold BGThread, called in Hs, Hok2. rewrite Hp1, Hq1 in Hs, Hok2. cbn [phase_] in Hs, Hok2. destruct (IH (mkBackground (started_bgthread_ b1) q (Running i)) _ _ eq_refl Hst1 Hok2) as [b' Hb']. exists b'. etransitivity; [exact Hr|]. by eapply rtc_l.
Qed.
End BackgroundLaws.

(** ** Properties *)

(** C2: Files in memory keep what is written.  A file that is opened for writing by any
    spelling of its path, whatever it was, gets the data that are appended to it, all
    inside its block of memory, and no other file changes; as long as no one changes it
    again, a reader that opens it, under any spelling of the path, reads these data from
    the start, in pieces of any sizes. *)
Theorem files_roundtrip (malloc : Z -> bytes) (sizeof_pointer : Z) p q d n ds e :
  (forall n, 0 <= n -> size_of (malloc n) = n) -> sizeof_pointer = 4 \/ sizeof_pointer = 8 ->
  env_ok sizeof_pointer e -> parseFilePath p [] [] = (true, d, n) -> parseFilePath q [] [] = (true, d, n) -> size_of (concat ds) < 2 ^ 30 ->
  exists a e1 e2 e3, NewWritableFile malloc sizeof_pointer p e = Some (OK, a, e1) /\ write_all malloc sizeof_pointer ds a e1 = Some e2 /\ Close a e2 = Some (OK, e3) /\
    env_ok sizeof_pointer e3 /\ frame e e3 d n /\ data e3 d n = Some (concat ds) /\
    forall e4, env_ok sizeof_pointer e4 -> data e4 d n = data e3 d n -> exists b e5, NewSequentialFile malloc q e4 = Some (OK, b, e5) /\ frame e4 e5 d n /\
      forall ks, Forall (fun k => 0 <= k < 2 ^ 31) ks -> exists xs e6, read_pieces ks b e5 = Some (xs, e6) /\ env_ok sizeof_pointer e6 /\ frame e5 e6 d n /\
        data e6 d n = Some (concat ds) /\ concat xs = take (Z.to_nat (foldr Z.add 0 ks)) (concat ds).
Proof.
  intros Hm Hsz Hok Hp Hq Hl. destruct (parse_parts _ _ _ _ _ Hp) as (Hd%directory_nonempty & _ & _).
  destruct (NewWritableFile_spec malloc sizeof_pointer Hm Hsz p d n e Hok Hp) as (a & e1 & E1 & Hok1 & Hh1 & Hfr1).
  destruct (write_all_spec malloc sizeof_pointer Hm Hsz ds a e1 d n 0 [] Hok1 Hd Hh1 Hl) as (e2 & pos & E2 & Hok2 & Hh2 & Hfr2).
  destruct (Close_spec sizeof_pointer Hsz a e2 d n pos _ Hok2 Hd Hh2) as (e3 & E3 & Hok3 & Hh3 & Hfr3). pose proof (handle_data sizeof_pointer _ _ _ _ _ _ Hok3 Hd Hh3) as Hdata.
  exists a, e1, e2, e3. split; [exact E1|]. split; [exact E2|]. split; [exact E3|]. split; [exact Hok3|]. split; [exact (frame_trans _ _ _ _ _ (frame_trans _ _ _ _ _ Hfr1 Hfr2) Hfr3)|]. split; [exact Hdata|].
  intros e4 Hok4 Hd4. destruct (NewSequentialFile_spec malloc sizeof_pointer Hm Hsz q d n e4 Hok4 Hq) as (b & e5 & E5 & Hok5 & Hh5 & Hfr5). rewrite Hd4, Hdata in Hh5.
  exists b, e5. split; [exact E5|]. split; [exact Hfr5|]. intros ks Hks. destruct (read_pieces_spec sizeof_pointer Hsz ks b e5 d n 0 _ Hok5 Hd Hh5 Hks) as (xs & e6 & E6 & Hok6 & Hfr6 & Hd6 & E).
  by exists xs, e6.
Qed.

(** C3: Background work is done in order.  The functions that the thread calls are those
    that were scheduled, in order and each once; the thread does not wait for the signal while
    a function waits in the queue; and every function that was scheduled is started, if
    those before it return. *)
Theorem background_thread {Item : Type} (b : Background Item) scheduled done : bg_reachable (b, scheduled, done) ->
  scheduled = done ++ queue_ b /\ (queue_ b <> [] -> phase_ b <> Waiting) /\ exists b', rtc bg_step (b, scheduled, done) (b', scheduled, scheduled).
Proof.
  intros H%bg_reachable_ok. pose proof H as (H1 & H2 & H3). split; [done|]. split; [intros Hq Hw; by apply Hq, H2|].
  destruct (started_bgthread_ b) eqn:Es; [by apply (bg_drain (queue_ b))|].
  destruct (H3 eq_refl) as [E0 _]. rewrite E0 in H1. symmetry in H1. apply app_eq_nil in H1 as [-> _]. subst scheduled. by exists b.
Qed.

(** *** Witnesses *)

Definition zeros (n : Z) : bytes := replicate (Z.to_nat n) Byte.x00.

Lemma zeros_size n : 0 <= n -> size_of (zeros n) = n.
Proof. intros H. unfold size_of, zeros. rewrite length_replicate. lia. Qed.

Lemma empty_env_ok sizeof_pointer : env_ok sizeof_pointer PosixEnv_make.
Proof. split; cbn; try (intros *; rewrite ?lookup_empty; try done); [apply NoDup_nil_2|]. split; [by intros ?%elem_of_nil|by intros [? ?]]. Qed.

Lemma files_roundtrip_witness :
  let p := str "/db/000001.log" in let q := str "\db//000001.log" in let ds := [str "hello "; str "world"] in
  exists a e1 e2 e3, NewWritableFile zeros 4 p PosixEnv_make = Some (OK, a, e1) /\ write_all zeros 4 ds a e1 = Some e2 /\ Close a e2 = Some (OK, e3) /\
    data e3 (str "/db/") (str "000001.log") = Some (str "hello world") /\
    exists b e5 xs e6, NewSequentialFile zeros q e3 = Some (OK, b, e5) /\ read_pieces [3; 100] b e5 = Some (xs, e6) /\ concat xs = str "hello world".
Proof.
  intros p q ds.
  destruct (files_roundtrip zeros 4 p q (str "/db/") (str "000001.log") ds PosixEnv_make zeros_size (or_introl eq_refl) (empty_env_ok 4) eq_refl eq_refl eq_refl)
    as (a & e1 & e2 & e3 & E1 & E2 & E3 & Hok & _ & Hd & H).
  exists a, e1, e2, e3. split; [exact E1|]. split; [exact E2|]. split; [exact E3|]. split; [exact Hd|].
  destruct (H e3 Hok eq_refl) as (b & e5 & E5 & _ & Hr). destruct (Hr [3; 100]) as (xs & e6 & E6 & _ & _ & _ & E).
  { repeat constructor; lia. }
  exists b, e5, xs, e6. split; [exact E5|]. split; [exact E6|exact E].
Defined.

(** Two functions are scheduled; the thread has started the first. *)
Lemma background_thread_witness :
  let b := mkBackground true [2%nat] (Running 1%nat) in
  bg_reachable (b, [1; 2]%nat, [1%nat]) /\ queue_ b = [2%nat] /\ exists b', rtc bg_step (b, [1; 2]%nat, [1%nat]) (b', [1; 2]%nat, [1; 2]%nat).
Proof.
  intros b. assert (Hr : bg_reachable (b, [1; 2]%nat, [1%nat])).
  { eapply rtc_l; [apply (bg_schedule _ 1%nat)|]. eapply rtc_l; [by apply bg_take|]. apply rtc_once. apply (bg_schedule (mkBackground true [] (Running 1%nat)) 2%nat [1%nat] [1%nat]). }
  split; [exact Hr|]. destruct (background_thread b _ _ Hr) as (_ & _ & H). split; [reflexivity|exact H].
Defined.

(** ** What the environment does besides *)

(** A file with a name that ends in no slash is not found again: each call makes another. *)
Lemma bare_name_made_again : let p := str "LOCK" in
  exists a e1 e2, NewRandomAccessFile zeros p PosixEnv_make = Some (OK, a, e1) /\ FileExists p e1 = false /\
    NewRandomAccessFile zeros p e1 = Some (OK, S a, e2).
Proof. do 3 eexists. split; [vm_compute; reflexivity|]. by split; vm_compute. Qed.


(** [Skip] answers an error when it skips, and [OK] when it does not. *)
Lemma skip_inverted sizeof_pointer k a e d n pos c : sizeof_pointer = 4 \/ sizeof_pointer = 8 -> env_ok sizeof_pointer e -> d <> [] -> handle e a d n pos c -> 0 <= pos -> 0 <= k < 2 ^ 31 -> pos + k < 2 ^ 31 ->
  exists s e', Skip k a e = Some (s, e') /\ ok s = negb (pos + k <? size_of c) /\ handle e' a d n (if pos + k <? size_of c then pos + k else pos) c.
Proof.
  intros Hsz Hok Hd (f & Hf & <- & <-) Hp Hk Hpk. assert (Hfo : file_ok sizeof_pointer f) by (eapply (fk_ok _ _ Hok), Hf). rewrite (contents_size sizeof_pointer f Hfo).
  assert (Eu : u64 (_filePos f + k) = _filePos f + k) by (unfold u64; apply Z.mod_small; lia). assert (Es : usize (_filePos f + k) = _filePos f + k) by (apply usize_small; lia).
  unfold Skip, on_file, deref. rewrite (proj1 Hf). cbn [mbind option_bind]. unfold skip. rewrite Eu, Es.
  destruct (Z.geb_spec (_filePos f + k) (_fileLength f)); destruct (Z.ltb_spec (_filePos f + k) (_fileLength f)); try lia; cbn [mbind option_bind].
  all: do 2 eexists; (split; [reflexivity|]); (split; [reflexivity|]); eexists; (split; [split; [apply lookup_insert_eq|exact (proj2 Hf)]|done]).
Qed.

(** The check of [write] at a position is about the position the file has, so that the data
    may be written outside the block: here 4 bytes at 5 of a block of 8. *)
Lemma write_at_overflows : exists f, write zeros 4 (str "hello") (VirtualMemFile_make zeros (str "/d/f") 3) = Some f /\ size_of (_fileContent f) = 8 /\ write_at zeros 4 5 (str "1234") (close f) = None.
Proof. eexists. split; [vm_compute; reflexivity|]. by split; vm_compute. Qed.

(** A file that gets the name of another does not replace it: the first one is read. *)
Lemma rename_keeps_both : exists e, (
    '(_, a, e) ← NewWritableFile zeros 4 (str "/d/CURRENT") PosixEnv_make; '(_, e) ← Append zeros 4 (str "old") a e;
    '(_, b, e) ← NewWritableFile zeros 4 (str "/d/1.tmp") e; '(_, e) ← Append zeros 4 (str "new") b e;
    '(s, e) ← RenameFile (str "/d/1.tmp") (str "/d/CURRENT") e; if ok s then Some e else None) = Some e /\
  data e (str "/d/") (str "CURRENT") = Some (str "old") /\ snd (GetChildren (str "/d") (str "/d") e) = [str "CURRENT"; str "CURRENT"].
Proof. eexists. split; [vm_compute; reflexivity|]. by split; vm_compute. Qed.

(** The table of locks has the names as they are given: a second call for the same name is
    refused, one for another spelling of the path waits for ever. *)
Lemma lock_spellings : exists l e, LockFile zeros (str "/d/LOCK") PosixEnv_make = Some (OK, Some l, e) /\
  LockFile zeros (str "/d/LOCK") e = Some (IOError (str "lock /d/LOCK") (str "already held by process"), None, e) /\ LockFile zeros (str "/d//LOCK") e = None.
Proof. do 2 eexists. split; [vm_compute; reflexivity|]. by split; vm_compute. Qed.

(** A file that is not there is made when it is opened for reading. *)
Lemma missing_file_made : exists a e, FileExists (str "/d/f") PosixEnv_make = false /\ NewSequentialFile zeros (str "/d/f") PosixEnv_make = Some (OK, a, e) /\ FileExists (str "/d/f") e = true.
Proof. do 2 eexists. split; [done|]. split; vm_compute; reflexivity. Qed.
