(* ===== verification/BTree.v ===== *)
(** * BTree: the indexes of tables in memory

    Models the two class templates of [KvDB/SMDIndexSegment.h], [SMDIndex] and
    [SMDIndexBp], as far as they work in memory: a B-tree and a B+ tree from keys to
    offsets.  The second template repeats the text of the first but for what is tested
    here on [bplus].  Nodes live in a heap of addresses and point to their children and to
    their parent; an insertion splits nodes from a leaf upwards and deletes the nodes it
    has split.  [None] is the use of a pointer that leads nowhere, or fuel used up; the
    theorems exclude both. *)

From S2P Require Import Prelude.

Definition SMD_INVALIDINDEX_RETURN : Z := 4294967295.

Section Tree.
(** [operator<] of the keys; which of the templates. *)
Context {K : Type} (ltb : K -> K -> bool) (bplus : bool).

(** In a B+ tree a key has no [nOffset]; [nLSubTreeOffset] is the data of a key in a leaf. *)
Record BT_Key_t : Type := mkKey { key : K; nOffset : Z; pLeftSubTree : option nat; nLSubTreeOffset : Z }.

Record BT_Node_t : Type := mkNode {
  vecKey : list BT_Key_t;
  node_offset : Z;
  bLeaf : bool;
  pParent : option nat;
  pRightSubTree : option nat;
  nRSubTreeOffset : Z
}.

Record SMDIndex : Type := mkIndex {
  m_nMaxKey : Z;
  m_pBtreeRoot : option nat;
  m_vecAllNodeP : list nat;
  heap : gmap nat BT_Node_t
}.

Definition BT_Key_t_make (k : K) (offset : Z) : BT_Key_t :=
  if bplus then mkKey k SMD_INVALIDINDEX_RETURN None offset else mkKey k offset None 0.
Definition data_offset (k : BT_Key_t) : Z := if bplus then nLSubTreeOffset k else nOffset k.

Definition BT_Node_t_make : BT_Node_t := mkNode [] SMD_INVALIDINDEX_RETURN true None None SMD_INVALIDINDEX_RETURN.

(** The constructors: the number of keys that fit in a page. *)
Definition SMDIndex_make (nPageSize : Z) : SMDIndex :=
  let nRealPageSize := u32 (nPageSize - 16) in
  mkIndex ((if bplus then u32 (nRealPageSize - 5) / 8 else u32 (nRealPageSize - 4) / 12) mod 2 ^ 16) None [] ∅.

Definition set_left (p : option nat) (k : BT_Key_t) : BT_Key_t := mkKey (key k) (nOffset k) p (nLSubTreeOffset k).
Definition set_keys (ks : list BT_Key_t) (n : BT_Node_t) : BT_Node_t := mkNode ks (node_offset n) (bLeaf n) (pParent n) (pRightSubTree n) (nRSubTreeOffset n).
Definition set_parent (p : option nat) (n : BT_Node_t) : BT_Node_t := mkNode (vecKey n) (node_offset n) (bLeaf n) p (pRightSubTree n) (nRSubTreeOffset n).
Definition set_right (p : option nat) (n : BT_Node_t) : BT_Node_t := mkNode (vecKey n) (node_offset n) (bLeaf n) (pParent n) p (nRSubTreeOffset n).
Definition set_heap (h : gmap nat BT_Node_t) (s : SMDIndex) : SMDIndex := mkIndex (m_nMaxKey s) (m_pBtreeRoot s) (m_vecAllNodeP s) h.

(** [std::equal_range] on keys in order, as positions. *)
Fixpoint lower_bound (k : K) (l : list BT_Key_t) : nat :=
  match l with
  | [] => O
  | x :: l => if ltb (key x) k then S (lower_bound k l) else O
  end.
Fixpoint upper_bound (k : K) (l : list BT_Key_t) : nat :=
  match l with
  | [] => O
  | x :: l => if ltb k (key x) then O else S (upper_bound k l)
  end.
Definition equal_range (k : K) (l : list BT_Key_t) : nat * nat := (lower_bound k l, upper_bound k l).

(** [std::sort]. *)
Fixpoint insert_key (x : BT_Key_t) (l : list BT_Key_t) : list BT_Key_t :=
  match l with
  | [] => [x]
  | y :: l' => if ltb (key x) (key y) then x :: l else y :: insert_key x l'
  end.
Definition sort (l : list BT_Key_t) : list BT_Key_t := fold_left (fun l x => insert_key x l) l [].

(** The subtree left of a position, the right one at the end. *)
Definition child_at (n : BT_Node_t) (i : nat) : option nat :=
  match vecKey n !! i with Some x => pLeftSubTree x | None => pRightSubTree n end.

(** Of the B-tree only: that of the B+ tree makes a node of an iterator, which is no C++. *)
Fixpoint SearchKey (fuel : nat) (h : gmap nat BT_Node_t) (a : nat) (k : K) : option Z :=
  match fuel with
  | O => None
  | S fuel =>
      n ← h !! a;
      let '(first, second) := equal_range k (vecKey n) in
      if (second =? first + 1)%nat then x ← vecKey n !! first; Some (nOffset x)
      else if (first =? second)%nat then
        match child_at n first with Some c => SearchKey fuel h c k | None => Some SMD_INVALIDINDEX_RETURN end
      else Some SMD_INVALIDINDEX_RETURN
  end.

(** [Some None] when there is such a key. *)
Fixpoint FindInsertNode (fuel : nat) (h : gmap nat BT_Node_t) (a : nat) (k : K) : option (option nat) :=
  match fuel with
  | O => None
  | S fuel =>
      n ← h !! a;
      let '(first, second) := equal_range k (vecKey n) in
      if (first =? second)%nat then
        if bLeaf n then Some (Some a) else c ← child_at n first; FindInsertNode fuel h c k
      else Some None
  end.

(** The first key with the subtree [a] gets [r]. *)
Fixpoint connect_keys (a r : nat) (l : list BT_Key_t) : option (list BT_Key_t) :=
  match l with
  | [] => None
  | x :: l => if bool_decide (pLeftSubTree x = Some a) then Some (set_left (Some r) x :: l) else l ← connect_keys a r l; Some (x :: l)
  end.
Definition ConnectRightNode (a r : nat) (h : gmap nat BT_Node_t) : option (bool * gmap nat BT_Node_t) :=
  n ← h !! a; p ← pParent n; np ← h !! p;
  if bool_decide (pRightSubTree np = Some a) || bool_decide (pRightSubTree np = None)
  then Some (true, <[p := set_right (Some r) np]> h)
  else match connect_keys a r (vecKey np) with
       | Some ks => Some (true, <[p := set_keys ks np]> h)
       | None => Some (false, h)
       end.

(** [pParent] of a subtree. *)
Definition reparent_one (p : nat) (c : option nat) (h : gmap nat BT_Node_t) : option (gmap nat BT_Node_t) :=
  c ← c; n ← h !! c; Some (<[c := set_parent (Some p) n]> h).
Fixpoint reparent (p : nat) (ks : list BT_Key_t) (h : gmap nat BT_Node_t) : option (gmap nat BT_Node_t) :=
  match ks with
  | [] => Some h
  | k :: ks => h ← reparent_one p (pLeftSubTree k) h; reparent p ks h
  end.

Definition new_node (n : BT_Node_t) (h : gmap nat BT_Node_t) : nat * gmap nat BT_Node_t := let a := fresh (dom h) in (a, <[a := n]> h).

(** A root that is full gets a parent. *)
Definition new_root (a : nat) (s : SMDIndex) : option SMDIndex :=
  n ← heap s !! a;
  match pParent n with
  | Some _ => Some s
  | None =>
      let '(r, h) := new_node (mkNode [] SMD_INVALIDINDEX_RETURN false None None SMD_INVALIDINDEX_RETURN) (heap s) in
      Some (mkIndex (m_nMaxKey s) (Some r) (m_vecAllNodeP s ++ [r]) (<[a := set_parent (Some r) n]> h))
  end.

(** The two halves of a node, which are new nodes; its subtrees get them for parents. *)
Definition halves (n : BT_Node_t) (mid : BT_Key_t) (h : gmap nat BT_Node_t) : option (nat * nat * gmap nat BT_Node_t) :=
  let ks := vecKey n in
  let nMid := (length ks / 2)%nat in
  let '(l, h) := new_node (mkNode (take nMid ks) SMD_INVALIDINDEX_RETURN (bLeaf n) (pParent n) None SMD_INVALIDINDEX_RETURN) h in
  h ← (if bLeaf n then Some h else reparent l (take nMid ks) h);
  let nCopyFrom := if bplus && bLeaf n then nMid else S nMid in
  let '(r, h) := new_node (mkNode (drop nCopyFrom ks) SMD_INVALIDINDEX_RETURN (bLeaf n) (pParent n) None SMD_INVALIDINDEX_RETURN) h in
  h ← (if bLeaf n then Some h else reparent r (drop nCopyFrom ks) h);
  h ← (if bLeaf n then Some h
       else
         nl ← h !! l; let h := <[l := set_right (pLeftSubTree mid) nl]> h in
         h ← reparent_one l (pLeftSubTree mid) h;
         nr ← h !! r; let h := <[r := set_right (pRightSubTree n) nr]> h in
         reparent_one r (pRightSubTree n) h);
  Some (l, r, h).

(** The key between the halves gets the left one for its subtree; the right half takes the
    place of the node. *)
Definition split (a : nat) (h : gmap nat BT_Node_t) : option (bool * nat * nat * BT_Key_t * gmap nat BT_Node_t) :=
  n ← h !! a; mid ← vecKey n !! (length (vecKey n) / 2)%nat;
  '(l, r, h) ← halves n mid h;
  '(connected, h) ← ConnectRightNode a r h;
  Some (connected, l, r, set_left (Some l) mid, h).

Definition EraseCleaningNode (a : nat) (l : list nat) : list nat := match list_find (fun x => x = a) l with Some (i, _) => delete i l | None => l end.

Definition IsOverflow (n : BT_Node_t) (s : SMDIndex) : bool := size_of (vecKey n) >? m_nMaxKey s.

Fixpoint InsertAt (fuel : nat) (a : nat) (k : BT_Key_t) (s : SMDIndex) : option (bool * SMDIndex) :=
  match fuel with
  | O => None
  | S fuel =>
      n ← heap s !! a;
      let n := set_keys (sort (vecKey n ++ [k])) n in
      let s := set_heap (<[a := n]> (heap s)) s in
      if IsOverflow n s then
        s ← new_root a s;
        '(connected, l, r, mid, h) ← split a (heap s);
        if connected : bool then
          n ← h !! a; p ← pParent n;
          '(_, s) ← InsertAt fuel p mid (set_heap h s);
          Some (true, mkIndex (m_nMaxKey s) (m_pBtreeRoot s) (EraseCleaningNode a (m_vecAllNodeP s) ++ [l; r]) (delete a (heap s)))
        else Some (false, set_heap (delete l (delete r h)) s)
      else Some (true, s)
  end.

Definition tree_fuel (s : SMDIndex) : nat := S (size (heap s)).

Definition InsertNode (k : BT_Key_t) (s : SMDIndex) : option (bool * SMDIndex) :=
  match m_pBtreeRoot s with
  | None =>
      let '(a, h) := new_node (set_keys [k] BT_Node_t_make) (heap s) in
      Some (true, mkIndex (m_nMaxKey s) (Some a) (m_vecAllNodeP s ++ [a]) h)
  | Some root =>
      place ← FindInsertNode (tree_fuel s) (heap s) root (key k);
      match place with Some a => InsertAt (tree_fuel s) a k s | None => Some (false, s) end
  end.

Definition insertKeyOffset (k : K) (offset : Z) (s : SMDIndex) : option (bool * SMDIndex) := InsertNode (BT_Key_t_make k offset) s.
Definition searchFromMem (k : K) (s : SMDIndex) : option Z := root ← m_pBtreeRoot s; SearchKey (tree_fuel s) (heap s) root k.

(** The destructor; [None] for a node that is deleted twice. *)
Fixpoint clearBtreeNode (l : list nat) (h : gmap nat BT_Node_t) : option (gmap nat BT_Node_t) :=
  match l with
  | [] => Some h
  | a :: l => _ ← h !! a; clearBtreeNode l (delete a h)
  end.
End Tree.
Arguments BT_Key_t : clear implicits.
Arguments BT_Node_t : clear implicits.
Arguments SMDIndex : clear implicits.

(** ** The order of keys *)

(** For keys that are intervals the order is partial: the keys of a tree are apart from
    each other, and a probe that touches a key is found there. *)
Class KeyLaws {K : Type} (ltb : K -> K -> bool) : Prop := {
  ltb_irrefl k : ltb k k = false;
  ltb_trans a b c : ltb a b = true -> ltb b c = true -> ltb a c = true
}.

Lemma ltb_asym {K : Type} (ltb : K -> K -> bool) `{!KeyLaws ltb} a b : ltb a b = true -> ltb b a = false.
Proof. intros H. destruct (ltb b a) eqn:E; [|done]. pose proof (ltb_trans _ _ _ H E) as H0. by rewrite ltb_irrefl in H0. Qed.

Section Walk.
Context {K : Type} (ltb : K -> K -> bool) `{Hlaws : !KeyLaws ltb} (bplus : bool).
Abbreviation Key := (BT_Key_t K).
Abbreviation Node := (BT_Node_t K).
Implicit Types (h : gmap nat Node) (ks : list Key) (n : Node).

(** What a walk through a tree meets: the entries of the tree in order, and, in a B+ tree,
    the keys of inner nodes, which have no data. *)
Definition item : Type := K * option Z.
Definition leaf_item (k : Key) : item := (key k, Some (data_offset bplus k)).
Definition inner_item (k : Key) : item := (key k, if bplus then None else Some (nOffset k)).

Definition opt_walk (f : nat -> list item) (c : option nat) : list item := match c with Some c => f c | None => [] end.
Definition keys_walk (f : nat -> list item) (ks : list Key) : list item := concat (map (fun k => opt_walk f (pLeftSubTree k) ++ [inner_item k]) ks).

Fixpoint walk (h : gmap nat Node) (height : nat) (a : nat) : list item :=
  match h !! a with
  | None => []
  | Some n =>
      match height with
      | O => map leaf_item (vecKey n)
      | S height => keys_walk (walk h height) (vecKey n) ++ opt_walk (walk h height) (pRightSubTree n)
      end
  end.

(** The key of an inner node of a B+ tree is that of the entry after it. *)
Definition item_lt (x y : item) : Prop := ltb (fst x) (fst y) = true \/ (snd x = None /\ is_Some (snd y) /\ fst x = fst y).

#[local] Instance item_lt_trans : Transitive item_lt.
Proof using Hlaws.
  intros [x u] [y v] [z w] [H1|(E1 & [o Eo] & E)] [H2|(E2 & _ & E')]; cbn in *; subst; try discriminate; left; cbn; [by eapply ltb_trans|done|done].
Qed.

Lemma keys_walk_app f ks1 ks2 : keys_walk f (ks1 ++ ks2) = keys_walk f ks1 ++ keys_walk f ks2.
Proof using Type. unfold keys_walk. by rewrite map_app, concat_app. Qed.
Lemma keys_walk_cons f k ks : keys_walk f (k :: ks) = opt_walk f (pLeftSubTree k) ++ inner_item k :: keys_walk f ks.
Proof using Type. unfold keys_walk. cbn. by rewrite <- app_assoc. Qed.

(** *** Sorted lists *)

Lemma sorted_app {A} (R : relation A) l1 l2 : StronglySorted R (l1 ++ l2) <-> StronglySorted R l1 /\ StronglySorted R l2 /\ (forall x y, x ∈ l1 -> y ∈ l2 -> R x y).
Proof using Type.
  induction l1 as [|x l1 IH]; cbn.
  - split; [intros H; split; [constructor|]; split; [done|]; by intros ? ? ?%elem_of_nil|by intros (_ & ? & _)].
  - split.
    + intros H. apply StronglySorted_inv in H as [H Hx]. apply IH in H as (H1 & H2 & H3). rewrite Forall_forall in Hx. split; [constructor; [done|apply Forall_forall; intros y Hy; apply Hx, elem_of_app; by left]|].
      split; [done|]. intros y z Hy Hz. apply elem_of_cons in Hy as [->|Hy]; [apply Hx, elem_of_app; by right|by apply H3].
    + intros (H1 & H2 & H3). apply StronglySorted_inv in H1 as [H1 Hx]. constructor; [apply IH; split; [done|]; split; [done|]; intros y z Hy Hz; apply H3; [by right|done]|].
      apply Forall_forall. intros y Hy. apply elem_of_app in Hy as [Hy|Hy]; [by rewrite Forall_forall in Hx; apply Hx|apply H3; [by left|done]].
Qed.

Lemma sorted_sublist {A} (R : relation A) l1 l2 : sublist l1 l2 -> StronglySorted R l2 -> StronglySorted R l1.
Proof using Type.
  intros H. induction H as [|x l1 l2 H IH|x l1 l2 H IH]; [done|..]; intros Hs; apply StronglySorted_inv in Hs as [Hs Hx].
  - constructor; [by apply IH|]. apply Forall_forall. rewrite Forall_forall in Hx. intros y Hy. apply Hx. by eapply elem_of_sublist.
  - by apply IH.
Qed.

Definition key_lt (x y : Key) : Prop := ltb (key x) (key y) = true.

Lemma keys_sorted_leaf ks : StronglySorted item_lt (map leaf_item ks) -> StronglySorted key_lt ks.
Proof using Type.
  induction ks as [|k ks IH]; cbn; intros H; [constructor|]. apply StronglySorted_inv in H as [H Hk]. constructor; [by apply IH|]. apply Forall_forall. rewrite Forall_forall in Hk.
  intros x Hx. destruct (Hk (leaf_item x)) as [?|(? & _)]; [by apply list_elem_of_fmap_2|done|done].
Qed.

Lemma keys_sorted_inner f ks : StronglySorted item_lt (keys_walk f ks) -> StronglySorted key_lt ks.
Proof using Type.
  intros H. assert (H0 : StronglySorted item_lt (map inner_item ks)).
  { eapply sorted_sublist; [|exact H]. clear H. induction ks as [|k ks IH]; [done|]. rewrite keys_walk_cons. cbn [map]. apply sublist_inserts_l. by apply sublist_skip. }
  clear H. induction ks as [|k ks IH]; cbn in H0; [constructor|]. apply StronglySorted_inv in H0 as [H Hk]. constructor; [by apply IH|]. apply Forall_forall. rewrite Forall_forall in Hk.
  intros x Hx. destruct (Hk (inner_item x)) as [?|(E1 & [? E2] & _)]; [by apply list_elem_of_fmap_2|done|]. unfold inner_item in E1, E2. cbn in E1, E2. by destruct bplus.
Qed.

(** [sort] puts a new key into its place. *)
Lemma insert_key_at m l1 l2 : (forall x, x ∈ l1 -> ltb (key x) (key m) = true) -> (forall x, x ∈ l2 -> ltb (key m) (key x) = true) -> insert_key ltb m (l1 ++ l2) = l1 ++ m :: l2.
Proof using Hlaws.
  intros H1 H2. induction l1 as [|y l1 IH]; cbn.
  - destruct l2 as [|z l2]; [done|]. cbn. by rewrite H2 by left.
  - rewrite (ltb_asym ltb) by (apply H1; left). f_equal. apply IH. intros x Hx. apply H1. by right.
Qed.

Lemma sort_app l x : sort ltb (l ++ [x]) = insert_key ltb x (sort ltb l).
Proof using Type. unfold sort. by rewrite fold_left_app. Qed.

Lemma sort_id l : StronglySorted key_lt l -> sort ltb l = l.
Proof using Hlaws.
  induction l as [|x l IH] using rev_ind; [done|]. intros H. rewrite sort_app. apply sorted_app in H as (H1 & _ & H3). rewrite (IH H1). rewrite <- (app_nil_r l) at 1. apply insert_key_at; [|by intros ? ?%elem_of_nil].
  intros y Hy. apply H3; [done|left].
Qed.

Lemma sort_insert m l1 l2 : StronglySorted key_lt (l1 ++ l2) -> (forall x, x ∈ l1 -> ltb (key x) (key m) = true) -> (forall x, x ∈ l2 -> ltb (key m) (key x) = true) ->
  sort ltb ((l1 ++ l2) ++ [m]) = l1 ++ m :: l2.
Proof using Hlaws. intros H H1 H2. rewrite sort_app, (sort_id _ H). by apply insert_key_at. Qed.

(** *** The keys that a split adds to the walk of a B+ tree *)

Definition grow1 (w w' : list item) : Prop :=
  exists w1 w2 k' o' k o, w = (w1 ++ [(k', Some o')]) ++ (k, Some o) :: w2 /\ w' = (w1 ++ [(k', Some o')]) ++ (k, None) :: (k, Some o) :: w2.
Definition grow : relation (list item) := rtc grow1.

Lemma grow_app w1 w1' w2 w2' : grow w1 w1' -> grow w2 w2' -> grow (w1 ++ w2) (w1' ++ w2').
Proof using Type.
  intros H1 H2. transitivity (w1' ++ w2).
  - apply (rtc_congruence (R := grow1) (fun w => w ++ w2)); [|exact H1]. intros u u' (v1 & v2 & k' & o' & k & o & -> & ->). exists v1, (v2 ++ w2), k', o', k, o. by rewrite <- !app_assoc.
  - apply (rtc_congruence (R := grow1) (fun w => w1' ++ w)); [|exact H2]. intros u u' (v1 & v2 & k' & o' & k & o & -> & ->). exists (w1' ++ v1), v2, k', o', k, o. by rewrite <- !app_assoc.
Qed.

Lemma grow_keys f f' ks : (forall c k, k ∈ ks -> pLeftSubTree k = Some c -> grow (f c) (f' c)) -> grow (keys_walk f ks) (keys_walk f' ks).
Proof using Type.
  intros H. induction ks as [|k ks IH]; [by apply rtc_refl|]. rewrite !keys_walk_cons. apply grow_app.
  - destruct (pLeftSubTree k) as [c|] eqn:E; [|apply rtc_refl]. cbn. eapply H; [left|done].
  - apply (grow_app [inner_item k] [inner_item k]); [apply rtc_refl|]. apply IH. intros c k' Hk. apply H. by right.
Qed.

Lemma grow_invariant (P : list item -> Prop) w w' : (forall w w', grow1 w w' -> P w -> P w') -> grow w w' -> P w -> P w'.
Proof using Type. intros Hstep H. induction H as [|w w1 w2 H1 _ IH]; [done|]. intros Hw. apply IH. by eapply Hstep. Qed.

Lemma grow_sorted w w' : grow w w' -> StronglySorted item_lt w -> StronglySorted item_lt w'.
Proof using Hlaws.
  apply grow_invariant. clear w w'. intros w w' (w1 & w2 & k' & o' & k & o & -> & ->) H. apply sorted_app in H as (H1 & H2 & H3). pose proof (StronglySorted_inv H2) as HH2. destruct HH2 as [_ Hk]. rewrite Forall_forall in Hk.
  assert (Hsame : item_lt (k, None) (k, Some o)) by (right; cbn; eauto).
  assert (Hbefore : forall x, x ∈ w1 ++ [(k', Some o')] -> ltb (fst x) k = true).
  { intros x Hx. assert (Hlast : ltb k' k = true) by (destruct (H3 (k', Some o') (k, Some o)) as [?|(? & _)]; [apply elem_of_app; right; left|left|done|done]).
    apply elem_of_app in Hx as [Hx|Hx]; [|by apply list_elem_of_singleton in Hx as ->]. apply sorted_app in H1 as (_ & _ & H1). destruct (H1 x (k', Some o') Hx ltac:(left)) as [H|(_ & _ & ->)]; [by eapply ltb_trans|done]. }
  apply sorted_app. split; [done|]. split.
  - constructor; [done|]. apply Forall_forall. intros y [->|Hy]%elem_of_cons; [done|]. etransitivity; [exact Hsame|]. by apply Hk.
  - intros x y Hx [->|Hy]%elem_of_cons; [|by apply H3]. left. by apply Hbefore.
Qed.

(** The entries. *)
Definition entries (w : list item) : list (K * Z) := omap (fun x => o ← snd x; Some (fst x, o)) w.

Lemma grow_entries w w' : grow w w' -> entries w' = entries w.
Proof using Type.
  intros H. induction H as [|w w1 w2 (v1 & v2 & k' & o' & k & o & -> & ->) _ IH]; [done|]. rewrite IH. unfold entries. by rewrite !omap_app.
Qed.

(** Each key of an inner node is the key of an entry. *)
Definition keys_have_data (w : list item) : Prop := forall k, (k, None) ∈ w -> exists o, (k, Some o) ∈ w.

Lemma grow_data w w' : grow w w' -> keys_have_data w -> keys_have_data w'.
Proof using Type.
  apply grow_invariant. clear w w'. intros w w' (w1 & w2 & k' & o' & k & o & -> & ->) H x Hx.
  assert (Hx' : x = k \/ (x, None) ∈ (w1 ++ [(k', Some o')]) ++ (k, Some o) :: w2).
  { rewrite !elem_of_app in Hx |- *. repeat rewrite elem_of_cons in Hx. repeat rewrite elem_of_cons. naive_solver. }
  destruct Hx' as [->|Hx']; [exists o|destruct (H x Hx') as [ox Hox]; exists ox; revert Hox]; rewrite !elem_of_app; repeat rewrite elem_of_cons; naive_solver.
Qed.
End Walk.

Ltac walk_step := cbn [walk].

(** ** Trees in the heap *)

Section Trees.
Context {K : Type} (ltb : K -> K -> bool) `{Hlaws : !KeyLaws ltb} (bplus : bool).
Abbreviation Key := (BT_Key_t K).
Abbreviation Node := (BT_Node_t K).
Abbreviation walk := (walk bplus).
Abbreviation keys_walk := (keys_walk bplus).
Implicit Types (h : gmap nat Node) (ks : list Key) (n : Node) (D : gset nat) (ht : nat -> nat).

Definition children n : list nat := omap pLeftSubTree (vecKey n) ++ option_list (pRightSubTree n).

(** The nodes [D] are a tree; [ht] is their height. *)
Definition shape_ok D ht a n : Prop :=
  if bLeaf n then ht a = O /\ Forall (fun k => pLeftSubTree k = None) (vecKey n) /\ pRightSubTree n = None
  else Forall (fun k => is_Some (pLeftSubTree k)) (vecKey n) /\ is_Some (pRightSubTree n) /\ NoDup (children n) /\
       (exists m, ht a = S m /\ forall c, c ∈ children n -> c ∈ D /\ ht c = m).

Record tree_ok h D ht (root : nat) : Prop := {
  tk_node a : a ∈ D -> exists n, h !! a = Some n /\ shape_ok D ht a n /\
    match pParent n with Some p => p ∈ D /\ exists np, h !! p = Some np /\ a ∈ children np | None => a = root end;
  tk_child a n c : a ∈ D -> h !! a = Some n -> c ∈ children n -> exists nc, h !! c = Some nc /\ pParent nc = Some a;
  tk_root : root ∈ D /\ exists n, h !! root = Some n /\ pParent n = None;
  tk_height a : a ∈ D -> (ht a <= ht root)%nat
}.

Lemma tree_agree h h' D ht root : (forall a, a ∈ D -> h' !! a = h !! a) -> tree_ok h D ht root -> tree_ok h' D ht root.
Proof using Type.
  intros E [H1 H2 H3 H4].
  assert (Hin : forall a n c, a ∈ D -> h !! a = Some n -> c ∈ children n -> c ∈ D).
  { intros a n c Ha Hn Hc. destruct (H1 a Ha) as (n' & Hn' & Hs & _). assert (n' = n) as -> by congruence. unfold shape_ok in Hs. destruct (bLeaf n).
    - destruct Hs as (_ & Hl & Hr). unfold children in Hc. rewrite Hr in Hc. cbn in Hc. rewrite app_nil_r in Hc. apply list_elem_of_omap in Hc as (k & Hk & Ek). rewrite Forall_forall in Hl. rewrite Hl in Ek by done. done.
    - destruct Hs as (_ & _ & _ & m & _ & Hm). by apply Hm. }
  split.
  - intros a Ha. destruct (H1 a Ha) as (n & Hn & Hs & Hp). exists n. rewrite E by done. split; [done|]. split; [done|]. destruct (pParent n) as [p|]; [|done]. destruct Hp as (Hp & np & Hnp & Hc).
    split; [done|]. exists np. by rewrite E.
  - intros a n c Ha Hn Hc. rewrite E in Hn by done. destruct (H2 a n c Ha Hn Hc) as (nc & Hnc & Hp). exists nc. rewrite E; [done|]. by eapply Hin.
  - destruct H3 as (H3 & n & Hn & Hp). split; [done|]. exists n. by rewrite E.
  - done.
Qed.

Lemma tree_node h D ht root a n : tree_ok h D ht root -> a ∈ D -> h !! a = Some n -> shape_ok D ht a n.
Proof using Type. intros H Ha Hn. destruct (tk_node _ _ _ _ H a Ha) as (n' & Hn' & Hs & _). by assert (n' = n) as -> by congruence. Qed.

Lemma leaf_children D ht a n : shape_ok D ht a n -> bLeaf n = true -> children n = [].
Proof using Type.
  unfold shape_ok. intros H E. rewrite E in H. destruct H as (_ & Hl & Hr). unfold children. rewrite Hr, app_nil_r. induction Hl as [|k ks Hk _ IH]; [done|]. cbn. by rewrite Hk.
Qed.

Lemma tree_child h D ht root a n c : tree_ok h D ht root -> a ∈ D -> h !! a = Some n -> c ∈ children n ->
  c ∈ D /\ S (ht c) = ht a /\ bLeaf n = false /\ exists nc, h !! c = Some nc /\ pParent nc = Some a.
Proof using Type.
  intros H Ha Hn Hc. pose proof (tree_node _ _ _ _ _ _ H Ha Hn) as Hs. destruct (bLeaf n) eqn:El; [by rewrite (leaf_children _ _ _ _ Hs El) in Hc; apply elem_of_nil in Hc|].
  unfold shape_ok in Hs. rewrite El in Hs. destruct Hs as (_ & _ & _ & m & E & Hm). destruct (Hm c Hc) as [H1 H2]. split; [done|]. split; [congruence|]. split; [done|]. by eapply tk_child.
Qed.

Lemma tree_parent h D ht root a n p : tree_ok h D ht root -> a ∈ D -> h !! a = Some n -> pParent n = Some p ->
  p ∈ D /\ ht p = S (ht a) /\ exists np, h !! p = Some np /\ bLeaf np = false /\ a ∈ children np.
Proof using Type.
  intros H Ha Hn Hp. destruct (tk_node _ _ _ _ H a Ha) as (n' & Hn' & _ & Hpar). assert (n' = n) as -> by congruence. rewrite Hp in Hpar. destruct Hpar as (HpD & np & Hnp & Hc).
  destruct (tree_child _ _ _ _ _ _ _ H HpD Hnp Hc) as (_ & E & El & _). split; [done|]. split; [done|]. by exists np.
Qed.

Lemma tree_orphan h D ht root a n : tree_ok h D ht root -> a ∈ D -> h !! a = Some n -> (pParent n = None <-> a = root).
Proof using Type.
  intros H Ha Hn. destruct (tk_node _ _ _ _ H a Ha) as (n' & Hn' & _ & Hpar). assert (n' = n) as -> by congruence. split; [intros E; by rewrite E in Hpar|].
  intros ->. destruct (tk_root _ _ _ _ H) as (_ & n' & Hr & Ep). congruence.
Qed.

(** A leaf is a tree of height 0. *)
Lemma leaf_height D ht a n : shape_ok D ht a n -> bLeaf n = true <-> ht a = O.
Proof using Type. unfold shape_ok. destruct (bLeaf n); [by intros (? & _)|]. intros (_ & _ & _ & m & -> & _). split; [done|lia]. Qed.

(** *** Walks of subtrees *)

Lemma walk_node h a n : h !! a = Some n -> forall D ht, shape_ok D ht a n ->
  walk h (ht a) a = if bLeaf n then map (leaf_item bplus) (vecKey n) else keys_walk (walk h (pred (ht a))) (vecKey n) ++ opt_walk (walk h (pred (ht a))) (pRightSubTree n).
Proof using Type. intros Hn D ht Hs. unfold shape_ok in Hs. destruct (bLeaf n); [destruct Hs as (-> & _)|destruct Hs as (_ & _ & _ & m & -> & _)]; cbn; by rewrite Hn. Qed.

Lemma left_child n i x c : vecKey n !! i = Some x -> pLeftSubTree x = Some c -> c ∈ children n.
Proof using Type. intros Hx Hc. apply elem_of_app. left. apply list_elem_of_omap. exists x. split; [by eapply list_elem_of_lookup_2|done]. Qed.
Lemma right_child n c : pRightSubTree n = Some c -> c ∈ children n.
Proof using Type. intros Hc. apply elem_of_app. right. rewrite Hc. by left. Qed.

Lemma keys_walk_ext f g ks : (forall k c, k ∈ ks -> pLeftSubTree k = Some c -> f c = g c) -> keys_walk f ks = keys_walk g ks.
Proof using Type.
  intros H. induction ks as [|k ks IH]; [done|]. rewrite !keys_walk_cons. rewrite IH by (intros; eapply H; [by right|done]). f_equal. destruct (pLeftSubTree k) as [c|] eqn:E; [|done]. cbn. eapply H; [left|done].
Qed.

Lemma walk_agree h h' D ht root : tree_ok h D ht root -> (forall a, a ∈ D -> h' !! a = h !! a) -> forall m a, a ∈ D -> ht a = m -> walk h' m a = walk h m a.
Proof using Type.
  intros H E. induction m as [|m IH]; intros a Ha Hm; cbn; rewrite E by done; destruct (h !! a) as [n|] eqn:Hn; [done..| |done].
  assert (Hc : forall c, c ∈ children n -> walk h' m c = walk h m c).
  { intros c Hc. destruct (tree_child _ _ _ _ _ _ _ H Ha Hn Hc) as (Hc' & Hh & _). apply IH; [done|lia]. }
  f_equal.
  - apply keys_walk_ext. intros k c Hk Ek. apply Hc, elem_of_app. left. apply list_elem_of_omap. by exists k.
  - destruct (pRightSubTree n) as [c|] eqn:Ec; [|done]. cbn. by apply Hc, right_child.
Qed.

Lemma keys_walk_child f ks k c : k ∈ ks -> pLeftSubTree k = Some c -> sublist (f c) (keys_walk f ks).
Proof using Type.
  intros Hk Hc. apply list_elem_of_split in Hk as (l1 & l2 & ->). rewrite keys_walk_app, keys_walk_cons, Hc. cbn. apply sublist_inserts_l. by apply sublist_inserts_r.
Qed.

Lemma walk_child h D ht root a n c : tree_ok h D ht root -> a ∈ D -> h !! a = Some n -> c ∈ children n -> sublist (walk h (ht c) c) (walk h (ht a) a).
Proof using Type.
  intros H Ha Hn Hc. destruct (tree_child _ _ _ _ _ _ _ H Ha Hn Hc) as (_ & Hh & El & _). rewrite (walk_node h a n Hn D ht) by (by eapply tree_node). rewrite El, <- Hh. cbn [pred].
  apply elem_of_app in Hc as [Hc|Hc].
  - apply list_elem_of_omap in Hc as (k & Hk & Ek). apply sublist_inserts_r. by eapply keys_walk_child.
  - destruct (pRightSubTree n) as [c'|]; cbn in Hc; [|by apply elem_of_nil in Hc]. apply list_elem_of_singleton in Hc as ->. by apply sublist_inserts_l.
Qed.

Lemma walk_root h D ht root : tree_ok h D ht root -> forall m a, (ht root - ht a <= m)%nat -> a ∈ D -> sublist (walk h (ht a) a) (walk h (ht root) root).
Proof using Type.
  intros H. induction m as [|m IH]; intros a Hm Ha.
  all: destruct (tk_node _ _ _ _ H a Ha) as (n & Hn & _ & Hp); destruct (pParent n) as [p|] eqn:Ep; [|by subst].
  all: destruct (tree_parent _ _ _ _ _ _ _ H Ha Hn Ep) as (HpD & Hh & np & Hnp & _ & Hc); pose proof (tk_height _ _ _ _ H p HpD).
  - lia.
  - etransitivity; [by eapply walk_child|]. apply IH; [lia|done].
Qed.

Lemma walk_sorted h D ht root a : tree_ok h D ht root -> StronglySorted (item_lt ltb) (walk h (ht root) root) -> a ∈ D -> StronglySorted (item_lt ltb) (walk h (ht a) a).
Proof using Type. intros H Hs Ha. eapply sorted_sublist; [|exact Hs]. by eapply walk_root. Qed.

Lemma node_keys_sorted h D ht root a n : tree_ok h D ht root -> a ∈ D -> h !! a = Some n -> StronglySorted (item_lt ltb) (walk h (ht a) a) -> StronglySorted (key_lt ltb) (vecKey n).
Proof using Type.
  intros H Ha Hn Hs. rewrite (walk_node h a n Hn D ht) in Hs by (by eapply tree_node). destruct (bLeaf n); [by eapply keys_sorted_leaf|]. apply sorted_app in Hs as (Hs & _). by eapply keys_sorted_inner.
Qed.

(** Each height up to that of the root is that of some node. *)
Lemma height_size h D ht root : tree_ok h D ht root -> (ht root < size D)%nat.
Proof using Type.
  intros H. assert (Hall : forall i, (i <= ht root)%nat -> exists a, a ∈ D /\ ht a = (ht root - i)%nat).
  { induction i as [|i IH]; intros Hi; [exists root; split; [apply (tk_root _ _ _ _ H)|lia]|]. destruct IH as (a & Ha & E); [lia|].
    destruct (tk_node _ _ _ _ H a Ha) as (n & Hn & Hs & _). pose proof Hs as Hs'. unfold shape_ok in Hs. destruct (bLeaf n) eqn:El; [destruct Hs as (E' & _); lia|].
    destruct Hs as (_ & [c Hc] & _). destruct (tree_child _ _ _ _ _ _ _ H Ha Hn (right_child _ _ Hc)) as (Hc' & Hh & _). exists c. split; [done|lia]. }
  assert (Hsub : seq 0 (S (ht root)) ⊆+ (ht <$> elements D)).
  { apply NoDup_submseteq; [apply NoDup_seq|]. intros i Hi. apply elem_of_seq in Hi. destruct (Hall (ht root - i)%nat) as (a & Ha & E); [lia|].
    apply list_elem_of_fmap. exists a. split; [lia|by apply elem_of_elements]. }
  apply submseteq_length in Hsub. rewrite length_seq, length_fmap in Hsub. exact Hsub.
Qed.
End Trees.

(** ** Splitting a node *)

Section Split.
Context {K : Type} (ltb : K -> K -> bool) `{Hlaws : !KeyLaws ltb} (bplus : bool).
Abbreviation Key := (BT_Key_t K).
Abbreviation Node := (BT_Node_t K).
Abbreviation walk := (walk bplus).
Abbreviation keys_walk := (keys_walk bplus).
Implicit Types (h : gmap nat Node) (ks : list Key) (n : Node) (D : gset nat) (ht : nat -> nat).

Abbreviation lefts := (omap (pLeftSubTree (K := K))).

Lemma reparent_one_spec p c n h : h !! c = Some n -> reparent_one p (Some c) h = Some (<[c := set_parent (Some p) n]> h).
Proof using Type. intros H. unfold reparent_one. cbn. by rewrite H. Qed.

(** What a change of the parents of [cs] does. *)
Definition adopted (p : nat) (cs : list nat) h h' : Prop := forall b, h' !! b = if decide (b ∈ cs) then set_parent (Some p) <$> h !! b else h !! b.

Lemma adopted_nil p h : adopted p [] h h.
Proof using Type. intros b. rewrite decide_False; [done|by apply not_elem_of_nil]. Qed.

Lemma adopted_app p cs1 cs2 h h1 h2 : adopted p cs1 h h1 -> adopted p cs2 h1 h2 -> adopted p (cs1 ++ cs2) h h2.
Proof using Type.
  intros H1 H2 b. rewrite H2, H1. destruct (decide (b ∈ cs1 ++ cs2)) as [Hb|Hb]; rewrite elem_of_app in Hb; repeat case_decide; try tauto. by destruct (h !! b).
Qed.

Lemma adopted_one p c n h : h !! c = Some n -> adopted p [c] h (<[c := set_parent (Some p) n]> h).
Proof using Type.
  intros H b. destruct (decide (b = c)) as [->|Hne].
  - rewrite lookup_insert_eq, decide_True by (by left). by rewrite H.
  - rewrite lookup_insert_ne by done. by rewrite decide_False by (by intros ?%list_elem_of_singleton).
Qed.

Lemma reparent_spec p ks : forall h, Forall (fun k => exists c, pLeftSubTree k = Some c /\ is_Some (h !! c)) ks -> exists h', reparent p ks h = Some h' /\ adopted p (lefts ks) h h'.
Proof using Type.
  induction ks as [|k ks IH]; intros h H; cbn [reparent]; [exists h; split; [done|apply adopted_nil]|].
  apply Forall_cons in H as [(c & Ec & [n Hn]) H]. rewrite Ec, (reparent_one_spec p c n h Hn). cbn [mbind option_bind].
  destruct (IH (<[c := set_parent (Some p) n]> h)) as (h' & E & Ha).
  { eapply Forall_impl; [exact H|]. cbn. intros k' (c' & Ec' & Hc'). exists c'. split; [done|]. rewrite lookup_insert_is_Some. destruct (decide (c = c')); auto. }
  exists h'. split; [exact E|]. cbn. rewrite Ec. eapply (adopted_app p [c] (lefts ks)); [by apply adopted_one|exact Ha].
Qed.

Lemma adopted_dom p cs h h' : adopted p cs h h' -> dom h' = dom h.
Proof using Type. intros H. apply set_eq. intros b. rewrite !elem_of_dom, H. destruct (decide _); [by rewrite fmap_is_Some|done]. Qed.

(** The parent after [ConnectRightNode]. *)
Definition connected (a r : nat) (np np' : Node) : Prop :=
  (pRightSubTree np = Some a /\ np' = set_right (Some r) np) \/ (pRightSubTree np <> Some a /\ exists ks, connect_keys a r (vecKey np) = Some ks /\ np' = set_keys ks np).

(** A new root has no subtrees yet: the node that is split is as good as its right one. *)
Definition stands_for (a : nat) (np npv : Node) : Prop := npv = np \/ (pRightSubTree np = None /\ npv = set_right (Some a) np).

Lemma ConnectRightNode_spec a r h n p np npv : h !! a = Some n -> pParent n = Some p -> h !! p = Some np -> stands_for a np npv -> is_Some (pRightSubTree npv) -> a ∈ children npv ->
  exists np', ConnectRightNode a r h = Some (true, <[p := np']> h) /\ connected a r npv np'.
Proof using Type.
  intros Hn Hp Hnp Hv Hr Hc. unfold ConnectRightNode. rewrite Hn. cbn [mbind option_bind]. rewrite Hp. cbn [mbind option_bind]. rewrite Hnp. cbn [mbind option_bind].
  destruct Hv as [->|[E ->]].
  - rewrite (bool_decide_eq_false_2 (pRightSubTree np = None)), orb_false_r by (intros E; rewrite E in Hr; by destruct Hr). case_bool_decide as E; [by eexists; split; [reflexivity|left]|].
    assert (Hk : a ∈ lefts (vecKey np)).
    { apply elem_of_app in Hc as [Hc|Hc]; [done|]. destruct (pRightSubTree np) as [c|]; cbn in Hc; [|by apply elem_of_nil in Hc]. apply list_elem_of_singleton in Hc. congruence. }
    assert (Hck : exists ks, connect_keys a r (vecKey np) = Some ks).
    { clear - Hk. induction (vecKey np) as [|x l IH]; [by apply elem_of_nil in Hk|]. cbn [connect_keys]. case_bool_decide as E; [eauto|]. destruct IH as [ks ->]; [|cbn; eauto].
      cbn in Hk. destruct (pLeftSubTree x) as [c|]; [|done]. apply elem_of_cons in Hk as [->|Hk]; [done|exact Hk]. }
    destruct Hck as [ks Hck]. rewrite Hck. eexists. split; [reflexivity|]. right. split; [done|]. by exists ks.
  - rewrite (bool_decide_eq_true_2 (pRightSubTree np = None)), orb_true_r by done. eexists. split; [reflexivity|]. left. by split.
Qed.

Lemma connect_keys_split a r l ks : connect_keys a r l = Some ks -> exists l1 x l3, l = l1 ++ x :: l3 /\ pLeftSubTree x = Some a /\ ks = l1 ++ set_left (Some r) x :: l3.
Proof using Type.
  revert ks. induction l as [|x l IH]; intros ks; cbn [connect_keys]; [done|]. case_bool_decide as E; [intros [= <-]; by exists [], x, l|].
  destruct (connect_keys a r l) as [ks'|]; [|done]. cbn. intros [= <-]. destruct (IH ks' eq_refl) as (l1 & y & l3 & -> & Hy & ->). by exists (x :: l1), y, l3.
Qed.

(** The parent before and after, around the place of the node. *)
Lemma connected_parts a r np np' : connected a r np np' -> exists l1 l2 l2', vecKey np = l1 ++ l2 /\ vecKey np' = l1 ++ l2' /\ bLeaf np' = bLeaf np /\ pParent np' = pParent np /\
  ((l2 = [] /\ l2' = [] /\ pRightSubTree np = Some a /\ pRightSubTree np' = Some r) \/
   (exists x l3, l2 = x :: l3 /\ l2' = set_left (Some r) x :: l3 /\ pLeftSubTree x = Some a /\ pRightSubTree np' = pRightSubTree np)).
Proof using Type.
  intros [[E ->]|(E & ks & Hk & ->)].
  - exists (vecKey np), [], []. rewrite app_nil_r. cbn. split; [done|]. split; [done|]. split; [done|]. split; [done|]. by left.
  - destruct (connect_keys_split _ _ _ _ Hk) as (l1 & x & l3 & E1 & Ex & ->). exists l1, (x :: l3), (set_left (Some r) x :: l3). cbn. split; [done|]. split; [done|]. split; [done|]. split; [done|].
    right. by exists x, l3.
Qed.

Definition half ks (n : Node) (right : option nat) : Node := mkNode ks SMD_INVALIDINDEX_RETURN (bLeaf n) (pParent n) right SMD_INVALIDINDEX_RETURN.
Definition middle n : nat := (length (vecKey n) / 2)%nat.
Definition left_half n (mid : Key) : Node := half (take (middle n) (vecKey n)) n (if bLeaf n then None else pLeftSubTree mid).
Definition right_half n : Node := half (drop (if bplus && bLeaf n then middle n else S (middle n)) (vecKey n)) n (if bLeaf n then None else pRightSubTree n).

Lemma middle_key n : (0 < length (vecKey n))%nat -> exists mid, vecKey n !! middle n = Some mid.
Proof using Type. intros H. apply lookup_lt_is_Some_2. unfold middle. apply Nat.div_lt; lia. Qed.

Lemma split_children n mid : bLeaf n = false -> vecKey n !! middle n = Some mid -> is_Some (pLeftSubTree mid) -> children n = children (left_half n mid) ++ children (right_half n).
Proof using Type.
  intros El Hmid [c Hc]. unfold left_half, right_half, half, children. cbn [vecKey pRightSubTree]. rewrite El, andb_false_r. rewrite Hc.
  rewrite <- (take_drop_middle _ _ _ Hmid) at 1. rewrite omap_app. cbn. rewrite Hc. by rewrite <- !app_assoc.
Qed.

Lemma all_in_take {A} (l : list A) i : Forall (fun k => k ∈ l) (take i l).
Proof using Type. apply Forall_forall. intros k Hk. apply list_elem_of_lookup in Hk as [j Hj]. apply lookup_take_Some in Hj as [Hj _]. by eapply list_elem_of_lookup_2. Qed.
Lemma all_in_drop {A} (l : list A) i : Forall (fun k => k ∈ l) (drop i l).
Proof using Type. apply Forall_forall. intros k Hk. apply list_elem_of_lookup in Hk as [j Hj]. rewrite lookup_drop in Hj. by eapply list_elem_of_lookup_2. Qed.


Section Halves.
Context {D ht root h} {a p : nat} {n np npv : Node} {mid : Key} (Hn : h !! a = Some n) (Hp : pParent n = Some p) (Hnp : h !! p = Some np) (Hv : stands_for a np npv)
  (Hok : tree_ok (<[p := npv]> h) D ht root) (Ha : a ∈ D) (Hmid : vecKey n !! middle n = Some mid).

Lemma split_ne : a <> p.
Proof using Hn Hp Hnp Hv Hok Ha.
  intros ->. assert (E : <[p := npv]> h !! p = Some npv) by apply lookup_insert_eq. assert (Ep : pParent npv = Some p) by (destruct Hv as [->|[_ ->]]; cbn; congruence).
  destruct (tree_parent _ _ _ _ _ _ _ Hok Ha E Ep) as (_ & Hh & _). lia.
Qed.

Lemma split_node : <[p := npv]> h !! a = Some n.
Proof using Hn Hp Hnp Hv Hok Ha. pose proof split_ne. by rewrite lookup_insert_ne. Qed.

Lemma split_parent : p ∈ D /\ ht p = S (ht a) /\ bLeaf npv = false /\ a ∈ children npv /\ is_Some (pRightSubTree npv).
Proof using Hn Hp Hnp Hv Hok Ha.
  destruct (tree_parent _ _ _ _ _ _ _ Hok Ha split_node Hp) as (HpD & Hhp & npv' & Hnpv' & Elp & Hac). rewrite lookup_insert_eq in Hnpv'. injection Hnpv' as <-.
  pose proof (tree_node _ _ _ _ _ _ Hok HpD (lookup_insert_eq _ _ _)) as Hs. unfold shape_ok in Hs. rewrite Elp in Hs. tauto.
Qed.

Lemma split_shape : shape_ok D ht a n.
Proof using Hn Hp Hnp Hv Hok Ha. exact (tree_node _ _ _ _ _ _ Hok Ha split_node). Qed.

(** The subtrees of the node are other nodes. *)
Lemma split_subtree c : c ∈ children n -> c <> p /\ c <> a /\ is_Some (h !! c).
Proof using Hn Hp Hnp Hv Hok Ha.
  intros Hc. destruct (tree_child _ _ _ _ _ _ _ Hok Ha split_node Hc) as (_ & Hh & _ & nc & Hnc & _). destruct split_parent as (_ & Hhp & _).
  assert (c <> p) by (intros ->; lia). assert (c <> a) by (intros ->; lia). rewrite lookup_insert_ne in Hnc by done. eauto.
Qed.

(** What the halves and the subtrees are in the end. *)
Definition halved (l r : nat) (h' : gmap nat Node) : Prop :=
  l ∉ dom h /\ r ∉ dom h /\ l <> r /\ h' !! l = Some (left_half n mid) /\ h' !! r = Some (right_half n) /\
  (forall b, b <> l -> b <> r -> h' !! b = if decide (b ∈ children (left_half n mid)) then set_parent (Some l) <$> h !! b
                                 else if decide (b ∈ children (right_half n)) then set_parent (Some r) <$> h !! b else h !! b).

Lemma halves_leaf : bLeaf n = true -> exists l r h', halves bplus n mid h = Some (l, r, h') /\ halved l r h'.
Proof using Hn Hp Hnp Hv Hok Ha Hmid Hlaws.
  intros El. unfold halves. fold (middle n). unfold new_node. rewrite El. cbn [mbind option_bind].
  set (l := fresh (dom h)). assert (Hl : l ∉ dom h) by apply is_fresh. set (h1 := <[l := _]> h). set (r := fresh (dom h1)). assert (Hr : r ∉ dom h1) by apply is_fresh.
  assert (Hr' : r ∉ dom h /\ r <> l). { unfold h1 in Hr. rewrite dom_insert in Hr. set_solver. } destruct Hr' as [Hrh Hrl].
  set (h2 := <[r := _]> h1).
  assert (Hempty : forall ks, Forall (fun k => k ∈ vecKey n) ks -> children (half ks n None) = []).
  { intros ks Hks. pose proof split_shape as Hshape. unfold shape_ok in Hshape. rewrite El in Hshape. destruct Hshape as (_ & Hnone & _). rewrite Forall_forall in Hnone. unfold half, children. cbn. rewrite app_nil_r.
    induction Hks as [|k ks Hk _ IH]; [done|]. cbn. by rewrite Hnone. }
  exists l, r, h2. split; [done|]. split; [done|]. split; [done|]. split; [done|].
  split; [unfold left_half, half; rewrite El; unfold h2, h1; by rewrite lookup_insert_ne, lookup_insert_eq by done|].
  split; [unfold right_half, half; rewrite El; unfold h2; by rewrite lookup_insert_eq by done|].
  intros b Hbl Hbr. unfold left_half, right_half. rewrite El. rewrite (Hempty _ (all_in_take _ _)), (Hempty _ (all_in_drop _ _)). rewrite !decide_False by (by intros ?%elem_of_nil).
  unfold h2, h1. by rewrite !lookup_insert_ne.
Qed.

Lemma halves_inner : bLeaf n = false -> exists l r h', halves bplus n mid h = Some (l, r, h') /\ halved l r h'.
Proof using Hn Hp Hnp Hv Hok Ha Hmid Hlaws.
  intros El. pose proof split_shape as Hshape. pose proof split_subtree as Hcs. unfold halved, halves. fold (middle n). unfold new_node. rewrite El. cbn [mbind option_bind].
  set (l := fresh (dom h)). assert (Hl : l ∉ dom h) by apply is_fresh.
  assert (Hdom : forall b, is_Some (h !! b) -> b <> l) by (intros b Hb ->; by apply Hl, elem_of_dom).
  unfold shape_ok in Hshape. rewrite El in Hshape. destruct Hshape as (Hleft & [cr Hcr] & Hnodup & _).
  assert (Hm : is_Some (pLeftSubTree mid)) by (rewrite Forall_forall in Hleft; by eapply Hleft, list_elem_of_lookup_2). destruct Hm as [cm Hcm].
  rewrite (split_children n mid El Hmid (ex_intro _ cm Hcm)) in Hnodup, Hcs. unfold left_half, right_half, half, children in Hnodup, Hcs |- *. cbn [vecKey pRightSubTree] in Hnodup, Hcs |- *.
  rewrite El, andb_false_r, ?Hcm, ?Hcr in Hnodup, Hcs |- *. cbn [option_list] in Hnodup, Hcs |- *.
  set (ksl := take (middle n) (vecKey n)) in *. set (ksr := drop (S (middle n)) (vecKey n)) in *.
  assert (Hsub : forall ks : list Key, Forall (fun k => k ∈ vecKey n) ks -> forall g, (forall c, c ∈ lefts ks -> is_Some (g !! c)) -> Forall (fun k => exists c, pLeftSubTree k = Some c /\ is_Some ((g : gmap nat Node) !! c)) ks).
  { intros ks Hks g Hg. rewrite Forall_forall in Hks, Hleft |- *. intros k Hk. destruct (Hleft k (Hks k Hk)) as [c Hc]. exists c. split; [done|]. apply Hg, list_elem_of_omap. by exists k. }
  pose proof (all_in_take (vecKey n) (middle n) : Forall _ ksl) as Hl1. pose proof (all_in_drop (vecKey n) (S (middle n)) : Forall _ ksr) as Hr1.
  set (h1 := <[l := _]> h). destruct (reparent_spec l ksl h1) as (h2 & E2 & Ha2).
  { apply (Hsub _ Hl1). intros c Hc. unfold h1. rewrite lookup_insert_is_Some. destruct (decide (l = c)); [by left|right; split; [done|]]. apply Hcs. rewrite !elem_of_app. tauto. }
  rewrite E2. cbn [mbind option_bind]. pose proof (adopted_dom _ _ _ _ Ha2) as Hd2. set (r := fresh (dom h2)). assert (Hr : r ∉ dom h2) by apply is_fresh.
  assert (Hr' : r ∉ dom h /\ r <> l). { rewrite Hd2 in Hr. unfold h1 in Hr. rewrite dom_insert in Hr. set_solver. } destruct Hr' as [Hrh Hrl].
  assert (Hdomr : forall b, is_Some (h !! b) -> b <> r) by (intros b Hb ->; by apply Hrh, elem_of_dom).
  set (h3 := <[r := _]> h2). destruct (reparent_spec r ksr h3) as (h4 & E4 & Ha4).
  { apply (Hsub _ Hr1). intros c Hc. unfold h3. rewrite lookup_insert_is_Some. destruct (decide (r = c)); [by left|right; split; [done|]]. apply elem_of_dom. rewrite Hd2. unfold h1. rewrite dom_insert. apply elem_of_union_r, elem_of_dom, Hcs.
    rewrite !elem_of_app. tauto. }
  rewrite E4. cbn [mbind option_bind].
  assert (Hfresh : forall c, c ∈ (lefts ksl ++ [cm]) ++ lefts ksr ++ [cr] -> c <> l /\ c <> r).
  { intros c Hc. destruct (Hcs c Hc) as (_ & _ & Hs). split; [by apply Hdom|by apply Hdomr]. }
  assert (Hdisj : forall c, c ∈ lefts ksl ++ [cm] -> c ∈ lefts ksr ++ [cr] -> False) by (apply NoDup_app in Hnodup as (_ & H0 & _); exact H0).
  assert (Hcm0 : cm ∈ lefts ksl ++ [cm]) by (apply elem_of_app; right; left). assert (Hcr0 : cr ∈ lefts ksr ++ [cr]) by (apply elem_of_app; right; left).
  assert (Hout : forall b, b = l \/ b = r -> b ∉ lefts ksl ++ [cm] /\ b ∉ lefts ksr ++ [cr]).
  { intros b Hb. split; intros Hc; (destruct (Hfresh b) as [? ?]; [apply elem_of_app; tauto|]); destruct Hb; done. }
  destruct (Hout l ltac:(by left)) as [Hl3 Hl4]. destruct (Hout r ltac:(by right)) as [Hr3 Hr4]. rewrite !not_elem_of_app, !not_elem_of_cons in Hl3, Hl4, Hr3, Hr4.
  assert (Hlook4 : forall b, h4 !! b = if decide (b ∈ lefts ksr) then set_parent (Some r) <$> h3 !! b else h3 !! b) by exact Ha4.
  assert (E4l : h4 !! l = Some (mkNode ksl SMD_INVALIDINDEX_RETURN false (pParent n) None SMD_INVALIDINDEX_RETURN)).
  { rewrite Ha4, decide_False by tauto. unfold h3. rewrite lookup_insert_ne by done. rewrite Ha2, decide_False by tauto. unfold h1. by rewrite lookup_insert_eq. }
  rewrite E4l. cbn [mbind option_bind]. set (h5 := <[l := _]> h4).
  assert (Hdom4 : forall b, is_Some (h !! b) -> is_Some (h4 !! b)).
  { intros b Hb. apply elem_of_dom. rewrite (adopted_dom _ _ _ _ Ha4). unfold h3. rewrite dom_insert, Hd2. unfold h1. rewrite dom_insert. do 2 apply elem_of_union_r. by apply elem_of_dom. }
  assert (Hcm5 : is_Some (h5 !! cm)).
  { unfold h5. rewrite lookup_insert_is_Some. destruct (decide (l = cm)); [by left|right; split; [done|]]. apply Hdom4, Hcs, elem_of_app. by left. }
  destruct Hcm5 as [ncm Hncm]. rewrite (reparent_one_spec l cm ncm h5 Hncm). cbn [mbind option_bind]. pose proof (adopted_one l cm ncm h5 Hncm) as Ha6. set (h6 := <[cm := _]> h5) in *.
  assert (E6r : h6 !! r = Some (mkNode ksr SMD_INVALIDINDEX_RETURN false (pParent n) None SMD_INVALIDINDEX_RETURN)).
  { rewrite Ha6, decide_False by (rewrite list_elem_of_singleton; tauto). unfold h5. rewrite lookup_insert_ne by done. rewrite Ha4, decide_False by tauto. unfold h3. by rewrite lookup_insert_eq. }
  rewrite E6r. cbn [mbind option_bind]. set (h7 := <[r := _]> h6).
  assert (Hcr7 : is_Some (h7 !! cr)).
  { unfold h7. rewrite lookup_insert_is_Some. destruct (decide (r = cr)); [by left|right; split; [done|]]. apply elem_of_dom. rewrite (adopted_dom _ _ _ _ Ha6). apply elem_of_dom. unfold h5. rewrite lookup_insert_is_Some.
    destruct (decide (l = cr)); [by left|right; split; [done|]]. apply Hdom4, Hcs, elem_of_app. by right. }
  destruct Hcr7 as [ncr Hncr]. rewrite (reparent_one_spec r cr ncr h7 Hncr). cbn [mbind option_bind]. pose proof (adopted_one r cr ncr h7 Hncr) as Ha8. set (h8 := <[cr := _]> h7) in *.
  (* what the heap has in the end *)
  assert (Hlook : forall b, b <> l -> b <> r -> h8 !! b = if decide (b ∈ lefts ksl ++ [cm]) then set_parent (Some l) <$> h !! b else if decide (b ∈ lefts ksr ++ [cr]) then set_parent (Some r) <$> h !! b else h !! b).
  { intros b Hbl Hbr. rewrite Ha8. unfold h7. rewrite lookup_insert_ne by done. rewrite Ha6. unfold h5. rewrite lookup_insert_ne by done. rewrite Ha4. unfold h3. rewrite lookup_insert_ne by done. rewrite Ha2. unfold h1. rewrite lookup_insert_ne by done.
    specialize (Hdisj b). rewrite !elem_of_app, !list_elem_of_singleton in Hdisj. clear - Hdisj. repeat case_decide; rewrite ?elem_of_app, ?list_elem_of_singleton in *; try tauto; try done; by destruct (h !! b). }
  exists l, r, h8. split; [done|]. split; [done|]. split; [done|]. split; [done|].
  split; [rewrite Ha8, decide_False by (rewrite list_elem_of_singleton; tauto); unfold h7; rewrite lookup_insert_ne by done; rewrite Ha6, decide_False by (rewrite list_elem_of_singleton; tauto); unfold h5; by rewrite lookup_insert_eq|].
  split; [rewrite Ha8, decide_False by (rewrite list_elem_of_singleton; tauto); unfold h7; by rewrite lookup_insert_eq|exact Hlook].
Qed.

Lemma split_heap : exists l r np' h', split bplus a h = Some (true, l, r, set_left (Some l) mid, <[p := np']> h') /\ halved l r h' /\ connected a r npv np'.
Proof using Hn Hp Hnp Hv Hok Ha Hmid Hlaws.
  unfold split. rewrite Hn. cbn [mbind option_bind]. fold (middle n). rewrite Hmid. cbn [mbind option_bind].
  assert (Hh : exists l r h', halves bplus n mid h = Some (l, r, h') /\ halved l r h') by (destruct (bLeaf n) eqn:El; [by apply halves_leaf|by apply halves_inner]).
  destruct Hh as (l & r & h' & -> & Hh). cbn [mbind option_bind]. pose proof Hh as (Hl & Hr & Hlr & _ & _ & Hlook). destruct split_parent as (_ & _ & _ & Hac & Hrp).
  assert (Hsame : forall b, is_Some (h !! b) -> b ∉ children n -> h' !! b = h !! b).
  { intros b Hb Hc. rewrite Hlook by (by intros ->; apply elem_of_dom in Hb). destruct (bLeaf n) eqn:El.
    - unfold left_half, right_half, half, children. cbn. rewrite El. cbn. rewrite !app_nil_r. pose proof split_shape as Hs. unfold shape_ok in Hs. rewrite El in Hs. destruct Hs as (_ & Hnone & _). rewrite Forall_forall in Hnone.
      rewrite !decide_False; [done|..]; intros (k & Hk & Ek)%list_elem_of_omap; rewrite Hnone in Ek; try done; [exact (proj1 (Forall_forall _ _) (all_in_drop _ _) k Hk)|exact (proj1 (Forall_forall _ _) (all_in_take _ _) k Hk)].
    - assert (Hm : is_Some (pLeftSubTree mid)). { pose proof split_shape as Hs. unfold shape_ok in Hs. rewrite El in Hs. destruct Hs as (Hleft & _). rewrite Forall_forall in Hleft. by eapply Hleft, list_elem_of_lookup_2. }
      rewrite (split_children n mid El Hmid Hm), not_elem_of_app in Hc. by rewrite !decide_False by tauto. }
  destruct (ConnectRightNode_spec a r h' n p np npv) as (np' & -> & Hcon); [rewrite Hsame; [done|eauto|]|done|rewrite Hsame; [done|eauto|]|done|done|done|].
  - intros Hc. by destruct (split_subtree a Hc) as (_ & ? & _).
  - intros Hc. by destruct (split_subtree p Hc) as (? & _).
  - cbn [mbind option_bind]. exists l, r, np', h'. done.
Qed.

(** *** The tree after a split *)

Abbreviation hv := (<[p := npv]> h).
Context {l r : nat} {np' : Node} {h' : gmap nat Node} (Hh : halved l r h') (Hcon : connected a r npv np') (Hlen : (2 <= length (vecKey n))%nat)
  (Hsorted : StronglySorted (item_lt ltb) (walk hv (ht root) root)).

Definition mid' : Key := set_left (Some l) mid.
Definition np1 : Node := set_keys (sort ltb (vecKey np' ++ [mid'])) np'.
Definition h1 : gmap nat Node := <[p := np1]> h'.

Lemma mid_pos : (0 < middle n)%nat.
Proof using Hlen. unfold middle. apply Nat.div_str_pos. lia. Qed.

Lemma walk_a_sorted : StronglySorted (item_lt ltb) (walk hv (ht a) a).
Proof using Hok Ha Hsorted. by eapply walk_sorted. Qed.

Lemma after_inner x : (forall y, y ∈ walk hv (ht a) a -> item_lt ltb (inner_item bplus x) y) -> ltb (key x) (key mid) = true.
Proof using All.
  pose proof walk_a_sorted as Hs. rewrite (walk_node bplus hv a n split_node D ht split_shape) in Hs |- *. intros H. destruct (bLeaf n).
  - pose proof mid_pos as Hm0. pose proof Hlen as Hlen'. pose proof Hmid as Hmid0. destruct (vecKey n) as [|k0 ks] eqn:Ek; [cbn in Hlen'; lia|]. assert (Hk : mid ∈ ks).
    { revert Hmid0. destruct (middle n) as [|m]; [lia|]. cbn. intros. by eapply list_elem_of_lookup_2. }
    assert (H0 : ltb (key k0) (key mid) = true).
    { cbn in Hs. apply StronglySorted_inv in Hs as [_ Hs]. rewrite Forall_forall in Hs. destruct (Hs (leaf_item bplus mid)) as [?|(? & _)]; [by apply list_elem_of_fmap_2|done|done]. }
    destruct (H (leaf_item bplus k0)) as [H1|(_ & _ & E)]; [by left|by eapply ltb_trans|]. cbn in E. by rewrite E.
  - destruct (H (inner_item bplus mid)) as [H1|(E1 & [o E2] & _)]; [|done|unfold inner_item in E1, E2; cbn in E1, E2; by destruct bplus].
    apply elem_of_app. left. apply list_elem_of_lookup_2, list_elem_of_split in Hmid as (k1 & k2 & ->). rewrite keys_walk_app, keys_walk_cons, !elem_of_app. right. right. left.
Qed.

Lemma before_inner x : (forall y, y ∈ walk hv (ht a) a -> item_lt ltb y (inner_item bplus x)) -> ltb (key mid) (key x) = true.
Proof using All.
  rewrite (walk_node bplus hv a n split_node D ht split_shape). intros H. destruct (bLeaf n).
  - destruct (H (leaf_item bplus mid)) as [H1|(E1 & _)]; [|done|done]. apply list_elem_of_fmap_2. by eapply list_elem_of_lookup_2.
  - destruct (H (inner_item bplus mid)) as [H1|(E1 & [o E2] & _)]; [|done|unfold inner_item in E1, E2; cbn in E1, E2; by destruct bplus].
    apply elem_of_app. left. apply list_elem_of_lookup_2, list_elem_of_split in Hmid as (k1 & k2 & ->). rewrite keys_walk_app, keys_walk_cons, !elem_of_app. right. right. left.
Qed.

Lemma set_left_sorted (l1 l3 : list Key) x c : StronglySorted (key_lt ltb) (l1 ++ x :: l3) -> StronglySorted (key_lt ltb) (l1 ++ set_left c x :: l3).
Proof using Type.
  intros H. apply sorted_app in H as (H1 & H2 & H3). apply StronglySorted_inv in H2 as [H2 Hx]. apply sorted_app. split; [done|]. split; [by constructor|].
  intros y z Hy [->|Hz]%elem_of_cons; [exact (H3 y x Hy ltac:(left))|apply H3; [done|by right]].
Qed.

Lemma inner_elem f ks (x : Key) : x ∈ ks -> inner_item bplus x ∈ keys_walk f ks.
Proof using Type. intros Hx. apply list_elem_of_split in Hx as (k1 & k2 & ->). rewrite keys_walk_app, keys_walk_cons, !elem_of_app. right. right. left. Qed.

(** The parent has the middle key in its place, with the halves left and right of it. *)
Lemma parent_parts : exists l1 l2 l2', vecKey npv = l1 ++ l2 /\ vecKey np1 = l1 ++ mid' :: l2' /\ bLeaf np1 = false /\ pParent np1 = pParent npv /\ pRightSubTree np1 = pRightSubTree np' /\
  ((l2 = [] /\ l2' = [] /\ pRightSubTree npv = Some a /\ pRightSubTree np' = Some r) \/
   (exists x l3, l2 = x :: l3 /\ l2' = set_left (Some r) x :: l3 /\ pLeftSubTree x = Some a /\ pRightSubTree np' = pRightSubTree npv)).
Proof using All.
  destruct (connected_parts a r npv np' Hcon) as (l1 & l2 & l2' & E1 & E2 & E3 & E4 & Hcases). destruct split_parent as (HpD & Hhp & Elp & _). exists l1, l2, l2'. split; [exact E1|].
  split; [|split; [cbn; congruence|split; [exact E4|split; [done|exact Hcases]]]].
  unfold np1. cbn [vecKey set_keys]. rewrite E2.
  pose proof (walk_sorted ltb bplus _ _ _ _ p Hok Hsorted HpD) as Hsp. pose proof (node_keys_sorted ltb bplus _ _ _ _ p npv Hok HpD (lookup_insert_eq _ _ _) Hsp) as Hks.
  rewrite (walk_node bplus hv p npv (lookup_insert_eq _ _ _) D ht), Elp, Hhp in Hsp by (by eapply tree_node, lookup_insert_eq). cbn [pred] in Hsp. rewrite E1 in Hsp, Hks. rewrite keys_walk_app in Hsp.
  destruct Hcases as [(-> & -> & Er & _)|(x & l3 & -> & -> & Ex & _)].
  - rewrite Er in Hsp. cbn in Hsp. rewrite !app_nil_r in *. rewrite <- (app_nil_r l1) at 1. apply (sort_insert ltb mid' l1 []); [by rewrite app_nil_r| |by intros ? ?%elem_of_nil].
    intros y Hy. apply after_inner. intros z Hz. apply sorted_app in Hsp as (_ & _ & Hs). apply Hs; [by apply inner_elem|done].
  - rewrite keys_walk_cons, Ex in Hsp. cbn [opt_walk] in Hsp. rewrite <- !app_assoc in Hsp. apply sorted_app in Hsp as (_ & Hs2 & Hs1). apply sorted_app in Hs2 as (_ & _ & Hs2). apply (sort_insert ltb mid' l1 (set_left (Some r) x :: l3)); [by apply set_left_sorted| |].
    + intros y Hy. apply after_inner. intros z Hz. apply Hs1; [by apply inner_elem|]. apply elem_of_app. by left.
    + assert (Hx : forall y, y ∈ x :: l3 -> ltb (key mid) (key y) = true).
      { intros y Hy. apply before_inner. intros z Hz. apply Hs2; [done|]. apply (elem_of_app (inner_item bplus x :: keys_walk _ l3)). left. apply elem_of_cons in Hy as [->|Hy]; [left|right; by apply inner_elem]. }
      intros y [->|Hy]%elem_of_cons; [exact (Hx x ltac:(left))|apply Hx; by right].
Qed.

Lemma parent_children : exists c1 c2, children npv = c1 ++ a :: c2 /\ children np1 = c1 ++ l :: r :: c2.
Proof using All.
  destruct parent_parts as (l1 & l2 & l2' & E1 & E2 & _ & _ & E3 & [(-> & -> & Er & Er')|(x & l3 & -> & -> & Ex & Er)]); unfold children; rewrite E1, E2, E3, !omap_app; cbn.
  - rewrite Er, Er', app_nil_r. cbn. exists (lefts l1), []. by rewrite <- !app_assoc.
  - rewrite Ex, Er. cbn. exists (lefts l1), (lefts l3 ++ option_list (pRightSubTree npv)). by rewrite <- !app_assoc.
Qed.

Lemma parent_walk f g : (forall c, c ∈ children npv -> c <> a -> grow (f c) (g c)) -> grow (f a) (g l ++ inner_item bplus mid :: g r) ->
  grow (keys_walk f (vecKey npv) ++ opt_walk f (pRightSubTree npv)) (keys_walk g (vecKey np1) ++ opt_walk g (pRightSubTree np1)).
Proof using All.
  intros Hf Ha0. destruct split_parent as (HpD & _ & Elp & _). pose proof (tree_node _ _ _ _ _ _ Hok HpD (lookup_insert_eq _ _ _)) as Hs. unfold shape_ok in Hs. rewrite Elp in Hs. destruct Hs as (_ & _ & Hnd & _).
  destruct parent_parts as (l1 & l2 & l2' & E1 & E2 & _ & _ & E3 & Hcases). unfold children in Hf, Hnd. rewrite E1 in Hf, Hnd |- *. rewrite E2, E3. rewrite omap_app in Hnd, Hf. rewrite !keys_walk_app, keys_walk_cons. cbn [opt_walk set_left pLeftSubTree mid'].
  destruct Hcases as [(-> & -> & Er & Er')|(x & l3 & -> & -> & Ex & Er)].
  - rewrite Er, Er'. rewrite Er in Hf, Hnd. cbn in Hf, Hnd |- *. rewrite !app_nil_r in *. rewrite <- !app_assoc. apply NoDup_app in Hnd as (_ & Hnd & _). apply grow_app; [|exact Ha0].
    apply grow_keys. intros c k Hk Ec. assert (Hc : c ∈ lefts l1) by (apply list_elem_of_omap; eauto). apply Hf; [apply elem_of_app; by left|]. intros ->. apply (Hnd a Hc). left.
  - rewrite Er. rewrite !keys_walk_cons. cbn [opt_walk set_left pLeftSubTree]. rewrite Ex. cbn [omap list_omap] in Hf, Hnd. rewrite Ex in Hf, Hnd. rewrite <- !app_assoc in Hf, Hnd |- *. apply NoDup_app in Hnd as (_ & Hnd1 & Hnd2). cbn [app] in Hnd1, Hnd2. apply NoDup_cons in Hnd2 as [Hnd2 _].
    enough (H : grow (keys_walk f l1 ++ f a ++ [inner_item bplus x] ++ keys_walk f l3 ++ opt_walk f (pRightSubTree npv))
                     (keys_walk g l1 ++ (g l ++ inner_item bplus mid :: g r) ++ [inner_item bplus x] ++ keys_walk g l3 ++ opt_walk g (pRightSubTree npv))).
    { revert H. cbn [app]. repeat (rewrite <- app_assoc; cbn [app]). exact id. }
    apply grow_app; [|apply grow_app; [exact Ha0|apply grow_app; [apply rtc_refl|apply grow_app]]].
    + apply grow_keys. intros c k Hk Ec. assert (Hc : c ∈ lefts l1) by (apply list_elem_of_omap; eauto). apply Hf; [apply elem_of_app; by left|]. intros ->. apply (Hnd1 a Hc). left.
    + apply grow_keys. intros c k Hk Ec. assert (Hc : c ∈ lefts l3) by (apply list_elem_of_omap; eauto). apply Hf; [rewrite !elem_of_app, elem_of_cons; tauto|]. intros ->. apply Hnd2, elem_of_app. by left.
    + destruct (pRightSubTree npv) as [c|]; [|apply rtc_refl]. assert (Hc : c ∈ option_list (Some c)) by left. apply Hf; [rewrite !elem_of_app; tauto|]. intros ->. apply Hnd2, elem_of_app. right. left.
Qed.

Abbreviation CL := (children (left_half n mid)).
Abbreviation CR := (children (right_half n)).

Lemma leaf_keys_none ks x : bLeaf n = true -> Forall (fun k => k ∈ vecKey n) ks -> x ∈ lefts ks -> False.
Proof using All.
  intros El Hks (k & Hk & Ek)%list_elem_of_omap. pose proof split_shape as Hs. unfold shape_ok in Hs. rewrite El in Hs. destruct Hs as (_ & Hnone & _). rewrite Forall_forall in Hnone, Hks. rewrite Hnone in Ek; [done|by apply Hks].
Qed.

Lemma mid_left : bLeaf n = false -> is_Some (pLeftSubTree mid).
Proof using All.
  intros El. pose proof split_shape as Hs. unfold shape_ok in Hs. rewrite El in Hs. destruct Hs as (Hleft & _). rewrite Forall_forall in Hleft. by eapply Hleft, list_elem_of_lookup_2.
Qed.

Lemma halves_children : children n = CL ++ CR.
Proof using All.
  destruct (bLeaf n) eqn:El; [|by apply split_children, mid_left].
  assert (Hnil : forall xs : list nat, (forall x, x ∈ xs -> False) -> xs = []) by (intros [|x xs] Hx; [done|by destruct (Hx x ltac:(left))]).
  rewrite (leaf_children _ _ _ _ split_shape El). symmetry. apply Hnil. intros x. unfold left_half, right_half, half, children. rewrite El. cbn [vecKey pRightSubTree option_list]. rewrite !app_nil_r, elem_of_app.
  intros [Hx|Hx]; eapply (leaf_keys_none _ x El); [apply all_in_take|exact Hx|apply all_in_drop|exact Hx].
Qed.

Lemma D_in_heap b : b ∈ D -> exists nb, h !! b = Some nb.
Proof using All.
  intros Hb. destruct (decide (b = p)) as [->|Hne]; [eauto|]. destruct (tk_node _ _ _ _ Hok b Hb) as (nb & Hnb & _). rewrite lookup_insert_ne in Hnb by done. eauto.
Qed.

Lemma D_fresh b : b ∈ D -> b <> l /\ b <> r.
Proof using All. intros Hb. destruct (D_in_heap b Hb) as [nb Hnb]. destruct Hh as (Hl & Hr & _). split; intros ->; [apply Hl|apply Hr]; by apply elem_of_dom. Qed.

Lemma p_fresh : p <> l /\ p <> r /\ p <> a.
Proof using All. destruct split_parent as (HpD & _). destruct (D_fresh p HpD). pose proof split_ne. done. Qed.

Lemma subtree_in c : c ∈ children n -> c ∈ D /\ S (ht c) = ht a /\ c <> a /\ c <> p /\ bLeaf n = false.
Proof using All. intros Hc. destruct (tree_child _ _ _ _ _ _ _ Hok Ha split_node Hc) as (H1 & H2 & H3 & _). destruct (split_subtree c Hc) as (? & ? & _). done. Qed.

Lemma h1_l : h1 !! l = Some (left_half n mid).
Proof using All. destruct p_fresh as (? & _). destruct Hh as (_ & _ & _ & Hx & _). unfold h1. by rewrite lookup_insert_ne. Qed.
Lemma h1_r : h1 !! r = Some (right_half n).
Proof using All. destruct p_fresh as (_ & ? & _). destruct Hh as (_ & _ & _ & _ & Hx & _). unfold h1. by rewrite lookup_insert_ne. Qed.
Lemma h1_p : h1 !! p = Some np1.
Proof using Type. apply lookup_insert_eq. Qed.

Definition new_parent (b : nat) (q : option nat) : option nat := if decide (b ∈ CL) then Some l else if decide (b ∈ CR) then Some r else q.

Lemma h1_other b nb : b ∈ D -> b <> p -> hv !! b = Some nb -> h1 !! b = Some (set_parent (new_parent b (pParent nb)) nb).
Proof using All.
  intros Hb Hbp Hnb. rewrite lookup_insert_ne in Hnb by done. destruct (D_fresh b Hb) as [Hbl Hbr]. destruct Hh as (_ & _ & _ & _ & _ & Hlook). unfold h1, new_parent. rewrite lookup_insert_ne by done. rewrite Hlook by done.
  rewrite Hnb. repeat case_decide; [done..|]. by destruct nb.
Qed.

(** *** Its walks *)

Lemma halves_walk : (forall c, c ∈ children n -> grow (walk hv (ht c) c) (walk h1 (ht c) c)) -> grow (walk hv (ht a) a) (walk h1 (ht a) l ++ inner_item bplus mid :: walk h1 (ht a) r).
Proof using All.
  intros IH. pose proof split_shape as Hs. pose proof Hmid as Hmid0. unfold shape_ok in Hs. destruct (bLeaf n) eqn:El.
  - destruct Hs as (Eh & _). rewrite Eh. walk_step. rewrite split_node, h1_l, h1_r. unfold left_half, right_half, half. rewrite El. cbn [vecKey]. rewrite andb_true_r.
    rewrite <- (take_drop_middle _ _ _ Hmid0) at 1. rewrite map_app. cbn [map]. destruct bplus eqn:Eb.
    + rewrite (drop_S _ _ _ Hmid0). cbn [map]. assert (Hne : take (middle n) (vecKey n) <> []).
      { intros E%(f_equal length). rewrite length_take in E. change (length []) with 0%nat in E. pose proof mid_pos. apply lookup_lt_Some in Hmid0. lia. }
      destruct (exists_last Hne) as (ks & k & ->). rewrite map_app. cbn [map]. apply rtc_once.
      exists (map (leaf_item true) ks), (map (leaf_item true) (drop (S (middle n)) (vecKey n))), (key k), (data_offset true k), (key mid), (data_offset true mid). done.
    + apply rtc_refl.
  - destruct Hs as (Hleft & [cr Hcr] & _ & m & Eh & Hch). destruct (mid_left El) as [cm Hcm]. rewrite Eh. walk_step. rewrite split_node, h1_l, h1_r. unfold left_half, right_half, half. rewrite El, Hcm, Hcr. cbn [vecKey pRightSubTree]. rewrite andb_false_r.
    rewrite <- (take_drop_middle _ _ _ Hmid0) at 1. rewrite keys_walk_app, keys_walk_cons, Hcm. cbn [opt_walk].
    assert (IH' : forall c, c ∈ children n -> grow (walk hv m c) (walk h1 m c)) by (intros c Hc; destruct (Hch c Hc) as [_ <-]; by apply IH).
    assert (Hkeys : forall ks, Forall (fun k => k ∈ vecKey n) ks -> grow (keys_walk (walk hv m) ks) (keys_walk (walk h1 m) ks)).
    { intros ks Hks. apply grow_keys. intros c k Hk Ec. rewrite Forall_forall in Hks. destruct (list_elem_of_lookup_1 _ _ (Hks k Hk)) as [i Hi]. apply IH'. by eapply left_child. }
    enough (H : grow (keys_walk (walk hv m) (take (middle n) (vecKey n)) ++ walk hv m cm ++ [inner_item bplus mid] ++ keys_walk (walk hv m) (drop (S (middle n)) (vecKey n)) ++ walk hv m cr)
                     (keys_walk (walk h1 m) (take (middle n) (vecKey n)) ++ walk h1 m cm ++ [inner_item bplus mid] ++ keys_walk (walk h1 m) (drop (S (middle n)) (vecKey n)) ++ walk h1 m cr)).
    { revert H. cbn [app]. repeat (rewrite <- app_assoc; cbn [app]). exact id. }
    apply grow_app; [apply Hkeys, all_in_take|]. apply grow_app; [apply IH'; by eapply left_child|]. apply grow_app; [apply rtc_refl|]. apply grow_app; [apply Hkeys, all_in_drop|apply IH'; by apply right_child].
Qed.

Lemma split_walk m : forall b, b ∈ D -> b <> a -> ht b = m -> grow (walk hv m b) (walk h1 m b).
Proof using All.
  induction m as [m IH] using lt_wf_ind. intros b Hb Hba Hm. destruct (decide (b = p)) as [->|Hbp].
  - destruct split_parent as (_ & Hhp & Elp & _). rewrite Hhp in Hm. subst m. walk_step. rewrite lookup_insert_eq, h1_p. apply parent_walk.
    + intros c Hc Hca. destruct (tree_child _ _ _ _ _ _ _ Hok Hb (lookup_insert_eq _ _ _) Hc) as (HcD & Hhc & _). apply IH; [lia|done|done|lia].
    + apply halves_walk. intros c Hc. destruct (subtree_in c Hc) as (HcD & Hhc & Hca & _). apply IH; [lia|done|done|done].
  - destruct (tk_node _ _ _ _ Hok b Hb) as (nb & Hnb & Hsb & _). pose proof (h1_other b nb Hb Hbp Hnb) as Hnb1. destruct m as [|m]; walk_step; rewrite Hnb, Hnb1; cbn [vecKey pRightSubTree set_parent]; [apply rtc_refl|].
    assert (Hc : forall c, c ∈ children nb -> grow (walk hv m c) (walk h1 m c)).
    { intros c Hc. destruct (tree_child _ _ _ _ _ _ _ Hok Hb Hnb Hc) as (HcD & Hhc & _ & nc & Hnc & Hpc). apply IH; [lia|done| |lia]. intros ->. rewrite split_node in Hnc. injection Hnc as <-. congruence. }
    apply grow_app; [apply grow_keys; intros c k Hk Ec; destruct (list_elem_of_lookup_1 _ _ Hk) as [i Hi]; apply Hc; by eapply left_child|].
    destruct (pRightSubTree nb) as [c|] eqn:Ec; [|apply rtc_refl]. by apply Hc, right_child.
Qed.

(** *** It is a tree *)

Definition D1 : gset nat := D ∖ {[a]} ∪ {[l; r]}.
Definition ht1 (b : nat) : nat := if decide (b = l \/ b = r) then ht a else ht b.

Lemma ht1_same b : b ∈ D -> ht1 b = ht b.
Proof using All. intros Hb. destruct (D_fresh b Hb). unfold ht1. by rewrite decide_False by tauto. Qed.
Lemma in_D1 b : b ∈ D1 <-> (b ∈ D /\ b <> a) \/ b = l \/ b = r.
Proof using Type. unfold D1. rewrite elem_of_union, elem_of_difference, elem_of_union, !elem_of_singleton. tauto. Qed.
Lemma subtree_D1 c : c ∈ D -> c <> a -> c ∈ D1 /\ ht1 c = ht c.
Proof using All. intros Hc Hca. split; [apply in_D1; tauto|by apply ht1_same]. Qed.

Lemma half_shape x ks right : Forall (fun k => k ∈ vecKey n) ks -> ht1 x = ht a -> (bLeaf n = true -> right = None) -> (bLeaf n = false -> is_Some right) ->
  NoDup (children (half ks n right)) -> (forall c, c ∈ children (half ks n right) -> c ∈ children n) -> shape_ok D1 ht1 x (half ks n right).
Proof using All.
  intros Hks Ex Hr1 Hr2 Hnd Hsub. pose proof split_shape as Hs. rewrite Forall_forall in Hks. unfold shape_ok in Hs |- *. cbn [half bLeaf vecKey pRightSubTree]. destruct (bLeaf n) eqn:El.
  - destruct Hs as (Eh & Hnone & _). rewrite Forall_forall in Hnone. split; [congruence|]. split; [apply Forall_forall; intros k Hk; by apply Hnone, Hks|by apply Hr1].
  - destruct Hs as (Hleft & _ & _ & m & Eh & Hch). rewrite Forall_forall in Hleft. split; [apply Forall_forall; intros k Hk; by apply Hleft, Hks|]. split; [by apply Hr2|]. split; [exact Hnd|].
    exists m. split; [congruence|]. intros c Hc. destruct (Hch c (Hsub c Hc)) as [HcD Hhc]. destruct (subtree_in c (Hsub c Hc)) as (_ & _ & Hca & _). destruct (subtree_D1 c HcD Hca). split; [done|congruence].
Qed.

Lemma halves_nodup : NoDup (CL ++ CR).
Proof using All.
  rewrite <- halves_children. pose proof split_shape as Hs. unfold shape_ok in Hs. destruct (bLeaf n) eqn:El; [|tauto]. rewrite (leaf_children _ _ _ _ split_shape El). constructor.
Qed.

Lemma left_shape : shape_ok D1 ht1 l (left_half n mid).
Proof using All.
  pose proof halves_nodup as Hnd. apply NoDup_app in Hnd as (Hnd & _). apply half_shape; [apply all_in_take|unfold ht1; by rewrite decide_True by tauto|by intros ->|intros El; rewrite El; by apply mid_left|exact Hnd|].
  intros c Hc. rewrite halves_children. apply elem_of_app. by left.
Qed.
Lemma right_shape : shape_ok D1 ht1 r (right_half n).
Proof using All.
  pose proof halves_nodup as Hnd. apply NoDup_app in Hnd as (_ & _ & Hnd). apply half_shape; [apply all_in_drop|unfold ht1; by rewrite decide_True by tauto|by intros ->| |exact Hnd|].
  - intros El. rewrite El. pose proof split_shape as Hs. unfold shape_ok in Hs. rewrite El in Hs. tauto.
  - intros c Hc. rewrite halves_children. apply elem_of_app. by right.
Qed.

Lemma parent_in c : c ∈ children np1 <-> (c ∈ children npv /\ c <> a) \/ c = l \/ c = r.
Proof using All.
  destruct split_parent as (HpD & _ & Elp & _). pose proof (tree_node _ _ _ _ _ _ Hok HpD (lookup_insert_eq _ _ _)) as Hs. unfold shape_ok in Hs. rewrite Elp in Hs. destruct Hs as (_ & _ & Hnd & _).
  destruct parent_children as (c1 & c2 & E1 & E2). rewrite E1 in Hnd |- *. rewrite E2. apply NoDup_app in Hnd as (_ & Hnd1 & Hnd2). apply NoDup_cons in Hnd2 as [Hnd2 _].
  rewrite !elem_of_app. repeat rewrite elem_of_cons. assert (H1 : c ∈ c1 -> c <> a) by (intros Hc ->; apply (Hnd1 a Hc); left). assert (H2 : c ∈ c2 -> c <> a) by (intros Hc ->; done). tauto.
Qed.

Lemma parent_shape : shape_ok D1 ht1 p np1.
Proof using All.
  destruct split_parent as (HpD & Hhp & Elp & _). pose proof (tree_node _ _ _ _ _ _ Hok HpD (lookup_insert_eq _ _ _)) as Hs. unfold shape_ok in Hs. rewrite Elp in Hs. destruct Hs as (Hleft & Hr & Hnd & _).
  destruct parent_parts as (l1 & l2 & l2' & E1 & E2 & El1 & _ & E3 & Hcases). unfold shape_ok. rewrite El1.
  rewrite E1 in Hleft. apply Forall_app in Hleft as [Hl1 Hl2]. split; [rewrite E2; apply Forall_app; split; [done|]; constructor; [by eexists|]; destruct Hcases as [(_ & -> & _)|(x & l3 & -> & -> & _)]; [done|apply Forall_cons in Hl2 as [_ Hl2]; constructor; [by eexists|done]]|].
  split; [rewrite E3; destruct Hcases as [(_ & _ & _ & ->)|(x & l3 & _ & _ & _ & ->)]; [by eexists|done]|].
  destruct parent_children as (c1 & c2 & F1 & F2). split.
  - assert (Hfresh : forall c, c ∈ c1 ++ a :: c2 -> c <> l /\ c <> r).
    { intros c Hc. rewrite <- F1 in Hc. destruct (tree_child _ _ _ _ _ _ _ Hok HpD (lookup_insert_eq _ _ _) Hc) as (HcD & _). by apply D_fresh. }
    assert (Hout : forall x, x = l \/ x = r -> x ∉ c1 /\ x ∉ c2).
    { intros x Hx. split; intros Hc; destruct (Hfresh x); try (destruct Hx; done); apply elem_of_app; [by left|right; by right]. }
    destruct (Hout l) as [Hol1 Hol2]; [by left|]. destruct (Hout r) as [Hor1 Hor2]; [by right|]. destruct Hh as (_ & _ & Hlr & _).
    rewrite F1 in Hnd. rewrite F2. apply NoDup_app in Hnd as (N1 & N2 & N3). apply NoDup_cons in N3 as [_ N3]. apply NoDup_app. split; [done|]. split.
    + intros x Hx [->|[->|Hx2]%elem_of_cons]%elem_of_cons; [done|done|]. apply (N2 x Hx). by right.
    + constructor; [rewrite elem_of_cons; tauto|by constructor].
  - exists (ht a). split; [rewrite ht1_same by done; done|]. intros c Hc. apply parent_in in Hc as [[Hc Hca]|Hc].
    + destruct (tree_child _ _ _ _ _ _ _ Hok HpD (lookup_insert_eq _ _ _) Hc) as (HcD & Hhc & _). destruct (subtree_D1 c HcD Hca) as [? E]. split; [done|]. rewrite E. lia.
    + split; [apply in_D1; tauto|]. unfold ht1. by rewrite decide_True.
Qed.

Lemma other_shape b nb : b ∈ D -> b <> a -> hv !! b = Some nb -> shape_ok D ht b nb -> b <> p -> shape_ok D1 ht1 b (set_parent (new_parent b (pParent nb)) nb).
Proof using All.
  intros Hb Hba Hnb Hs Hbp. unfold shape_ok in Hs |- *. cbn [set_parent bLeaf vecKey pRightSubTree]. rewrite ht1_same by done. destruct (bLeaf nb) eqn:El; [done|]. destruct Hs as (H1 & H2 & H3 & m & E & H4). split; [done|]. split; [done|]. split; [exact H3|].
  exists m. split; [done|]. intros c Hc. destruct (H4 c Hc) as [HcD Hhc]. destruct (tree_child _ _ _ _ _ _ _ Hok Hb Hnb Hc) as (_ & _ & _ & nc & Hnc & Hpc).
  assert (Hca : c <> a) by (intros ->; rewrite split_node in Hnc; congruence). destruct (subtree_D1 c HcD Hca) as [? ->]. done.
Qed.

Lemma halves_other b : b ∈ CL \/ b ∈ CR -> b ∈ D /\ b <> a /\ b <> p /\ exists nb, hv !! b = Some nb /\ pParent nb = Some a.
Proof using All.
  intros Hb. assert (Hc : b ∈ children n) by (rewrite halves_children; by apply elem_of_app). destruct (subtree_in b Hc) as (? & _ & ? & ? & _). destruct (tree_child _ _ _ _ _ _ _ Hok Ha split_node Hc) as (_ & _ & _ & nc & ? & ?). eauto 10.
Qed.

Lemma not_halves b nb q : b ∈ D -> hv !! b = Some nb -> pParent nb = q -> q <> Some a -> new_parent b q = q.
Proof using All.
  intros Hb Hnb Hq Hqa. unfold new_parent. assert (Hno : ~ (b ∈ CL \/ b ∈ CR)) by (intros Hc; destruct (halves_other b Hc) as (_ & _ & _ & nb' & Hnb' & Hp'); congruence). by rewrite !decide_False by tauto.
Qed.

Lemma root_other : root ∈ D /\ root <> a /\ ht1 root = ht root.
Proof using All.
  destruct (tk_root _ _ _ _ Hok) as (Hr & nr & Hnr & Ep). split; [done|]. split; [|by apply ht1_same]. intros E. rewrite E, split_node in Hnr. congruence.
Qed.

(** Each node of the new tree, and where it comes from. *)
Lemma D1_cases (P : nat -> Node -> Prop) : P l (left_half n mid) -> P r (right_half n) -> P p np1 ->
  (forall b nb, b ∈ D -> b <> a -> b <> p -> hv !! b = Some nb -> P b (set_parent (new_parent b (pParent nb)) nb)) -> forall b, b ∈ D1 -> exists nb, h1 !! b = Some nb /\ P b nb.
Proof using All.
  intros Pl Pr Pp Po b [[Hb Hba]|[->| ->]]%in_D1; [|exists (left_half n mid); by split; [apply h1_l|]|exists (right_half n); by split; [apply h1_r|]].
  destruct (decide (b = p)) as [->|Hbp]; [exists np1; by split; [apply h1_p|]|]. destruct (tk_node _ _ _ _ Hok b Hb) as (nb & Hnb & _). exists (set_parent (new_parent b (pParent nb)) nb). split; [by apply h1_other|by apply Po].
Qed.

Lemma split_nodes b : b ∈ D1 -> exists nb, h1 !! b = Some nb /\ shape_ok D1 ht1 b nb /\
  match pParent nb with Some q => q ∈ D1 /\ exists nq, h1 !! q = Some nq /\ b ∈ children nq | None => b = root end.
Proof using All.
  destruct split_parent as (HpD & _ & _ & Hac & _). destruct p_fresh as (Hpl & Hpr & Hpa). assert (HpD1 : p ∈ D1) by (apply in_D1; tauto).
  (* a parent that is still there *)
  assert (Hpar : forall c nc q, c ∈ D -> c <> a -> hv !! c = Some nc -> pParent nc = Some q -> q <> a -> q ∈ D1 /\ exists nq, h1 !! q = Some nq /\ c ∈ children nq).
  { intros c nc q Hc Hca Hnc Hq Hqa. destruct (tree_parent _ _ _ _ _ _ _ Hok Hc Hnc Hq) as (HqD & _ & nq & Hnq & _ & Hcq). split; [apply in_D1; tauto|]. destruct (decide (q = p)) as [->|Hqp].
    - exists np1. split; [apply h1_p|]. apply parent_in. rewrite lookup_insert_eq in Hnq. injection Hnq as <-. tauto.
    - exists (set_parent (new_parent q (pParent nq)) nq). split; [by apply h1_other|exact Hcq]. }
  revert b. apply (D1_cases (fun b nb => shape_ok D1 ht1 b nb /\ match pParent nb with Some q => q ∈ D1 /\ exists nq, h1 !! q = Some nq /\ b ∈ children nq | None => b = root end)).
  - split; [apply left_shape|]. cbn [left_half half pParent]. rewrite Hp. split; [done|]. exists np1. split; [apply h1_p|]. apply parent_in. tauto.
  - split; [apply right_shape|]. cbn [right_half half pParent]. rewrite Hp. split; [done|]. exists np1. split; [apply h1_p|]. apply parent_in. tauto.
  - split; [apply parent_shape|]. destruct parent_parts as (_ & _ & _ & _ & _ & _ & Ep & _). rewrite Ep. destruct (tk_node _ _ _ _ Hok p HpD) as (npv' & Hnpv & _ & Hm). rewrite lookup_insert_eq in Hnpv. injection Hnpv as <-.
    destruct (pParent npv) as [q|] eqn:Eq; [|done]. eapply Hpar; [exact HpD|done|apply lookup_insert_eq|exact Eq|]. intros ->.
    destruct (tree_parent _ _ _ _ _ _ _ Hok HpD (lookup_insert_eq _ _ _) Eq) as (_ & Hht & _). destruct split_parent as (_ & Hhp & _). lia.
  - intros b nb Hb Hba Hbp Hnb. split; [apply other_shape; try done; by eapply tree_node|]. cbn [set_parent pParent]. destruct (tk_node _ _ _ _ Hok b Hb) as (nb' & Hnb' & _ & Hm). assert (nb' = nb) as -> by congruence.
    unfold new_parent. destruct (decide (b ∈ CL)) as [Hl|Hl]; [split; [apply in_D1; tauto|exists (left_half n mid); by split; [apply h1_l|]]|].
    destruct (decide (b ∈ CR)) as [Hr|Hr]; [split; [apply in_D1; tauto|exists (right_half n); by split; [apply h1_r|]]|].
    destruct (pParent nb) as [q|] eqn:Eq; [|done]. eapply Hpar; [exact Hb|done|exact Hnb|exact Eq|]. intros ->. destruct (tree_parent _ _ _ _ _ _ _ Hok Hb Hnb Eq) as (_ & _ & n' & Hn' & _ & Hc).
    rewrite split_node in Hn'. injection Hn' as <-. rewrite halves_children, elem_of_app in Hc. tauto.
Qed.

Lemma split_children_ok b nb c : b ∈ D1 -> h1 !! b = Some nb -> c ∈ children nb -> exists nc, h1 !! c = Some nc /\ pParent nc = Some b.
Proof using All.
  destruct split_parent as (HpD & _ & _ & Hac & _). destruct p_fresh as (Hpl & Hpr & Hpa). intros Hb Hnb. revert c.
  destruct (D1_cases (fun b nb => forall c, c ∈ children nb -> exists nc, h1 !! c = Some nc /\ pParent nc = Some b)) with (b := b) as (nb' & Hnb' & H); [..|exact Hb|by assert (nb' = nb) as -> by congruence].
  - intros c Hc. destruct (halves_other c (or_introl Hc)) as (HcD & Hca & Hcp & nc & Hnc & Epc). eexists. split; [by apply h1_other|]. cbn. unfold new_parent. by rewrite decide_True.
  - intros c Hc. destruct (halves_other c (or_intror Hc)) as (HcD & Hca & Hcp & nc & Hnc & Epc). eexists. split; [by apply h1_other|]. cbn. unfold new_parent.
    pose proof halves_nodup as Hnd. apply NoDup_app in Hnd as (_ & Hnd & _). rewrite decide_False by (intros Hc'; by apply (Hnd c Hc')). by rewrite decide_True.
  - intros c [[Hc Hca]|[->| ->]]%parent_in.
    + destruct (tree_child _ _ _ _ _ _ _ Hok HpD (lookup_insert_eq _ _ _) Hc) as (HcD & Hhc & _ & nc & Hnc & Epc). assert (Hcp : c <> p) by (intros ->; lia). eexists. split; [by apply h1_other|]. cbn. rewrite Epc.
      eapply not_halves; [exact HcD|exact Hnc|exact Epc|congruence].
    + exists (left_half n mid). split; [apply h1_l|exact Hp].
    + exists (right_half n). split; [apply h1_r|exact Hp].
  - intros b' nb0 Hb' Hba Hbp Hnb0 c Hc. destruct (tree_child _ _ _ _ _ _ _ Hok Hb' Hnb0 Hc) as (HcD & Hhc & _ & nc & Hnc & Epc).
    destruct (decide (c = p)) as [->|Hcp].
    + exists np1. split; [apply h1_p|]. destruct parent_parts as (_ & _ & _ & _ & _ & _ & Ep & _). rewrite Ep. rewrite lookup_insert_eq in Hnc. congruence.
    + eexists. split; [by apply h1_other|]. cbn. rewrite Epc. eapply not_halves; [exact HcD|exact Hnc|exact Epc|congruence].
Qed.

Lemma split_tree : tree_ok h1 D1 ht1 root /\ grow (walk hv (ht root) root) (walk h1 (ht1 root) root).
Proof using All.
  destruct root_other as (Hr & Hra & Ehr). split; [split|rewrite Ehr; by apply split_walk].
  - exact split_nodes.
  - exact split_children_ok.
  - split; [apply in_D1; tauto|]. destruct (tk_root _ _ _ _ Hok) as (_ & nr & Hnr & Ep). destruct (decide (root = p)) as [E|Hrp].
    + exists np1. split; [rewrite E; apply h1_p|]. destruct parent_parts as (_ & _ & _ & _ & _ & _ & -> & _). rewrite E, lookup_insert_eq in Hnr. congruence.
    + eexists. split; [by apply h1_other|]. cbn. rewrite Ep. by eapply not_halves.
  - intros b [[Hb Hba]|Hb]%in_D1; rewrite Ehr; [rewrite ht1_same by done; by apply (tk_height _ _ _ _ Hok)|]. unfold ht1. rewrite decide_True by done. by apply (tk_height _ _ _ _ Hok).
Qed.

(** *** What is left for the insertion into the parent *)

Abbreviation h3 := (<[p := np']> h').

Lemma h3_h1 : <[p := np1]> h3 = h1.
Proof using Type. unfold h1. by rewrite insert_insert_eq. Qed.

Lemma h3_a : h3 !! a = Some n.
Proof using All.
  destruct p_fresh as (_ & _ & Hpa). destruct (D_fresh a Ha) as [Hal Har]. rewrite lookup_insert_ne by done. destruct Hh as (_ & _ & _ & _ & _ & Hlook). rewrite Hlook by done.
  assert (Hno : ~ (a ∈ CL \/ a ∈ CR)) by (intros Hc; by destruct (halves_other a Hc) as (_ & ? & _)). by rewrite !decide_False by tauto.
Qed.

Lemma np'_length : length (vecKey np') = length (vecKey np).
Proof using All.
  assert (E : vecKey npv = vecKey np) by (by destruct Hv as [->|[_ ->]]). destruct (connected_parts _ _ _ _ Hcon) as (l1 & l2 & l2' & E1 & E2 & _ & _ & Hcases). rewrite <- E, E1, E2, !length_app.
  destruct Hcases as [(-> & -> & _)|(x & l3 & -> & -> & _)]; done.
Qed.

Lemma h3_dom : dom h3 = dom h ∪ {[l; r]}.
Proof using All.
  apply set_eq. intros b. rewrite dom_insert_L, !elem_of_union, !elem_of_singleton, !elem_of_dom. destruct Hh as (Hl & Hr & Hlr & El & Er & Hlook).
  destruct (decide (b = l)) as [->|Hbl]; [rewrite El; naive_solver|]. destruct (decide (b = r)) as [->|Hbr]; [rewrite Er; naive_solver|]. rewrite Hlook by done.
  assert (Hp0 : is_Some (h !! p)) by eauto. repeat case_decide; rewrite ?fmap_is_Some; naive_solver.
Qed.

Lemma h3_known b : b ∈ D1 -> (ht1 p <= ht1 b)%nat -> b ∈ D /\ (ht a <= ht b)%nat.
Proof using All.
  destruct split_parent as (HpD & Hhp & _). rewrite (ht1_same p HpD). intros [[Hb Hba]|Hb]%in_D1; [rewrite ht1_same by done; split; [done|lia]|]. unfold ht1. rewrite decide_True by done. lia.
Qed.

Lemma h3_keys b nb : b ∈ D1 -> h3 !! b = Some nb ->
  length (vecKey nb) = length (take (middle n) (vecKey n)) \/ (exists i, (i = middle n \/ i = S (middle n)) /\ length (vecKey nb) = length (drop i (vecKey n))) \/
  exists nb', b ∈ D /\ h !! b = Some nb' /\ length (vecKey nb) = length (vecKey nb').
Proof using All.
  destruct Hh as (Hl & Hr & Hlr & El & Er & Hlook). destruct p_fresh as (Hpl & Hpr & _). intros [[Hb Hba]|Hb]%in_D1 Hnb.
  - right. right. destruct (decide (b = p)) as [->|Hbp]; [rewrite lookup_insert_eq in Hnb; injection Hnb as <-; exists np; split; [done|]; split; [done|apply np'_length]|].
    rewrite lookup_insert_ne in Hnb by done. destruct (D_fresh b Hb) as [Hbl Hbr]. rewrite Hlook in Hnb by done. destruct (D_in_heap b Hb) as [nb' Hnb']. rewrite Hnb' in Hnb. exists nb'. split; [done|]. split; [done|].
    repeat case_decide; cbn in Hnb; by injection Hnb as <-.
  - destruct Hb as [->| ->]; rewrite lookup_insert_ne in Hnb by done; rewrite ?El, ?Er in Hnb; injection Hnb as <-; [by left|right; left]. eexists. split; [|reflexivity]. destruct (bplus && bLeaf n); auto.
Qed.

Lemma D1_list : a :: elements D1 ≡ₚ elements D ++ [l; r].
Proof using All.
  destruct (D_fresh a Ha) as [Hal Har]. destruct Hh as (Hl & Hr & Hlr & _). assert (HlD : l ∉ D) by (intros H; by destruct (D_fresh l H)). assert (HrD : r ∉ D) by (intros H; by destruct (D_fresh r H)).
  apply NoDup_Permutation.
  - constructor; [rewrite elem_of_elements, in_D1; naive_solver|apply NoDup_elements].
  - apply NoDup_app. split; [apply NoDup_elements|]. split; [intros x Hx; rewrite elem_of_elements in Hx; repeat rewrite elem_of_cons; rewrite elem_of_nil; naive_solver|].
    constructor; [by rewrite list_elem_of_singleton|apply NoDup_singleton].
  - intros x. rewrite elem_of_app, elem_of_cons, !elem_of_elements, in_D1. repeat rewrite elem_of_cons. rewrite elem_of_nil. destruct (decide (x = a)) as [->|]; naive_solver.
Qed.
End Halves.
End Split.

(** ** Insertion *)

Ltac insert_step := cbn [InsertAt].

Section Insert.
Context {K : Type} (ltb : K -> K -> bool) `{Hlaws : !KeyLaws ltb} (bplus : bool).
Abbreviation Key := (BT_Key_t K).
Abbreviation Node := (BT_Node_t K).
Abbreviation walk := (walk bplus).
Abbreviation InsertAt := (InsertAt ltb bplus).
Implicit Types (s : SMDIndex K) (h : gmap nat Node) (n : Node) (D : gset nat) (ht : nat -> nat).

Definition fits s D : Prop := forall b nb, b ∈ D -> heap s !! b = Some nb -> size_of (vecKey nb) <= m_nMaxKey s.

Lemma erase_perm a l : a ∈ l -> l ≡ₚ a :: EraseCleaningNode a l.
Proof using Type.
  intros H. unfold EraseCleaningNode. destruct (list_find_elem_of (fun x => x = a) l a H eq_refl) as [[i x] E]. rewrite E. apply list_find_Some in E as (E & -> & _). by apply delete_Permutation.
Qed.

Lemma walk_same h h' D ht root : tree_ok h D ht root -> (forall b nb, b ∈ D -> h !! b = Some nb -> exists nb', h' !! b = Some nb' /\ vecKey nb' = vecKey nb /\ pRightSubTree nb' = pRightSubTree nb) ->
  forall m a, a ∈ D -> ht a = m -> walk h' m a = walk h m a.
Proof using Type.
  intros H E. induction m as [|m IH]; intros a Ha Hm; destruct (tk_node _ _ _ _ H a Ha) as (n & Hn & _); destruct (E a n Ha Hn) as (n' & Hn' & Ek & Er); walk_step; rewrite Hn, Hn', Ek; [done|].
  assert (Hc : forall c, c ∈ children n -> walk h' m c = walk h m c).
  { intros c Hc. destruct (tree_child _ _ _ _ _ _ _ H Ha Hn Hc) as (Hc' & Hh & _). apply IH; [done|lia]. }
  rewrite Er. f_equal.
  - apply keys_walk_ext. intros k c Hk Ec. destruct (list_elem_of_lookup_1 _ _ Hk) as [i Hi]. apply Hc. by eapply left_child.
  - destruct (pRightSubTree n) as [c|] eqn:Ec; [|done]. cbn. by apply Hc, right_child.
Qed.

(** The node that is split has a parent then. *)
Record ready s (a : nat) D ht root s2 p np npv D2 ht2 root2 n2 : Prop := {
  rd_node : heap s2 !! a = Some n2;
  rd_same : vecKey n2 = default [] (vecKey <$> heap s !! a);
  rd_parent : pParent n2 = Some p;
  rd_np : heap s2 !! p = Some np;
  rd_stands : stands_for a np npv;
  rd_tree : tree_ok (<[p := npv]> (heap s2)) D2 ht2 root2;
  rd_walk : walk (<[p := npv]> (heap s2)) (ht2 root2) root2 = walk (heap s) (ht root) root;
  rd_root : m_pBtreeRoot s2 = Some root2;
  rd_max : m_nMaxKey s2 = m_nMaxKey s;
  rd_height : ht2 a = ht a;
  rd_D : D ⊆ D2;
  rd_new b : b ∈ D2 -> b ∈ D \/ b ∉ dom (heap s);
  rd_dom : dom (heap s2) = dom (heap s) ∪ D2;
  rd_keys b nb : b ∈ D2 -> heap s2 !! b = Some nb -> (exists nb', b ∈ D /\ heap s !! b = Some nb' /\ vecKey nb = vecKey nb') \/ vecKey nb = [];
  rd_list : elements D2 ++ m_vecAllNodeP s ≡ₚ elements D ++ m_vecAllNodeP s2;
  rd_known : (forall b, b ∈ D -> (ht a <= ht b)%nat -> b ∈ m_vecAllNodeP s) -> forall b, b ∈ D2 -> (ht2 a <= ht2 b)%nat -> b ∈ m_vecAllNodeP s2;
  rd_fuel : (ht2 root2 - ht2 p < ht root - ht a)%nat \/ vecKey np = []
}.

Lemma new_root_parent s a D ht root n p : tree_ok (heap s) D ht root -> a ∈ D -> heap s !! a = Some n -> pParent n = Some p -> m_pBtreeRoot s = Some root ->
  exists np, new_root a s = Some s /\ ready s a D ht root s p np np D ht root n.
Proof using All.
  intros Hok Ha Hn Hp Hroot. destruct (tree_parent _ _ _ _ _ _ _ Hok Ha Hn Hp) as (HpD & Hhp & np & Hnp & _). exists np. split; [unfold new_root; rewrite Hn; cbn; by rewrite Hp|].
  pose proof (tk_height _ _ _ _ Hok p HpD). assert (Hdom : D ⊆ dom (heap s)) by (intros b Hb; destruct (tk_node _ _ _ _ Hok b Hb) as (nb & Hnb & _); by apply elem_of_dom).
  split; rewrite ?insert_id by done; try done; [by rewrite Hn|by left|by left|set_solver| |left; lia]. intros b nb Hb Hnb. left. eauto.
Qed.

Lemma elements_add (x : nat) D : x ∉ D -> elements (D ∪ {[x]}) ≡ₚ x :: elements D.
Proof using Type. intros H. rewrite (comm_L (∪)). by apply elements_union_singleton. Qed.

Lemma new_root_fresh s a D ht n : tree_ok (heap s) D ht a -> heap s !! a = Some n -> pParent n = None ->
  exists s2 r np n2, new_root a s = Some s2 /\ ready s a D ht a s2 r np (set_right (Some a) np) (D ∪ {[r]}) (fun b => if decide (b = r) then S (ht a) else ht b) r n2.
Proof using All.
  intros Hok Hn Hp. unfold new_root. rewrite Hn. cbn [mbind option_bind]. rewrite Hp. unfold new_node. set (r := fresh (dom (heap s))). assert (Hr : r ∉ dom (heap s)) by apply is_fresh.
  set (np := mkNode [] _ _ _ _ _). set (n2 := set_parent (Some r) n). destruct (tk_root _ _ _ _ Hok) as (Ha & _).
  assert (Hdom : forall b, b ∈ D -> is_Some (heap s !! b)) by (intros b Hb; destruct (tk_node _ _ _ _ Hok b Hb) as (nb & Hnb & _); eauto).
  assert (HrD : forall b, b ∈ D -> b <> r) by (intros b Hb ->; by apply Hr, elem_of_dom, Hdom).
  eexists _, r, np, n2. split; [reflexivity|]. cbn [heap m_pBtreeRoot m_nMaxKey m_vecAllNodeP].
  set (ht2 := fun b => if decide (b = r) then S (ht a) else ht b). assert (Hht : forall b, b ∈ D -> ht2 b = ht b) by (intros b Hb; unfold ht2; by rewrite decide_False by (by apply HrD)). assert (Hhr : ht2 r = S (ht a)) by (unfold ht2; by rewrite decide_True).
  assert (Har : a <> r) by (by apply HrD).
  assert (Hlook : forall b, b <> r -> b <> a -> <[r := set_right (Some a) np]> (<[a := n2]> (<[r := np]> (heap s))) !! b = heap s !! b) by (intros b H1 H2; by rewrite !lookup_insert_ne).
  assert (Hla : <[r := set_right (Some a) np]> (<[a := n2]> (<[r := np]> (heap s))) !! a = Some n2) by (by rewrite lookup_insert_ne, lookup_insert_eq).
  set (hv := <[r := set_right (Some a) np]> _) in *.
  assert (Hcases : forall b nb, b ∈ D -> heap s !! b = Some nb -> exists nb', hv !! b = Some nb' /\ vecKey nb' = vecKey nb /\ pRightSubTree nb' = pRightSubTree nb /\ bLeaf nb' = bLeaf nb /\ pParent nb' = if decide (b = a) then Some r else pParent nb).
  { intros b nb Hb Hnb. destruct (decide (b = a)) as [->|Hba]; [exists n2; assert (nb = n) as -> by congruence; by repeat split|exists nb; by rewrite Hlook by (try apply HrD; done)]. }
  assert (Hchild : forall nb nb' : Node, vecKey nb' = vecKey nb -> pRightSubTree nb' = pRightSubTree nb -> children nb' = children nb) by (intros nb nb' E1 E2; unfold children; congruence).
  assert (Htree : tree_ok hv (D ∪ {[r]}) ht2 r).
  { split.
    - intros b [Hb|Hb]%elem_of_union.
      + destruct (tk_node _ _ _ _ Hok b Hb) as (nb & Hnb & Hs & Hm). destruct (Hcases b nb Hb Hnb) as (nb' & Hnb' & Ek & Er & El & Ep). exists nb'. split; [done|]. split.
        * unfold shape_ok in Hs |- *. rewrite El, Ek, Er, Hht, (Hchild nb nb') by done. destruct (bLeaf nb); [done|]. destruct Hs as (H1 & H2 & H3 & m & Eh & H4). split; [done|]. split; [done|]. split; [done|]. exists m. split; [done|].
          intros c Hc. destruct (H4 c Hc) as [Hc1 Hc2]. rewrite Hht by done. split; [by apply elem_of_union_l|done].
        * rewrite Ep. destruct (decide (b = a)) as [->|Hba].
          -- split; [by apply elem_of_union_r, elem_of_singleton|]. exists (set_right (Some a) np). split; [apply lookup_insert_eq|]. unfold children. cbn. left.
          -- destruct (pParent nb) as [q|]; [|done]. destruct Hm as (Hq & nq & Hnq & Hc). split; [by apply elem_of_union_l|]. destruct (Hcases q nq Hq Hnq) as (nq' & Hnq' & Eqk & Eqr & _). exists nq'. split; [done|]. by rewrite (Hchild nq nq').
      + apply elem_of_singleton in Hb as ->. exists (set_right (Some a) np). split; [apply lookup_insert_eq|]. split; [|done]. unfold shape_ok. cbn. split; [done|]. split; [by eexists|]. split; [apply NoDup_singleton|].
        exists (ht a). split; [done|]. intros c Hc. apply list_elem_of_singleton in Hc as ->. rewrite Hht by done. split; [by apply elem_of_union_l|done].
    - intros b nb c Hb Hnb Hc. apply elem_of_union in Hb as [Hb|Hb].
      + destruct (Hdom b Hb) as [nb0 Hnb0]. destruct (Hcases b nb0 Hb Hnb0) as (nb' & Hnb' & Ek & Er & _). assert (nb' = nb) as -> by congruence. rewrite (Hchild nb0 nb) in Hc by done.
        destruct (tree_child _ _ _ _ _ _ _ Hok Hb Hnb0 Hc) as (HcD & Hhc & _ & nc & Hnc & Epc). destruct (Hcases c nc HcD Hnc) as (nc' & Hnc' & _ & _ & _ & Ep). exists nc'. split; [done|]. rewrite Ep. rewrite decide_False; [done|].
        intros ->. congruence.
      + apply elem_of_singleton in Hb as ->. unfold hv in Hnb. rewrite lookup_insert_eq in Hnb. injection Hnb as <-. unfold children in Hc. cbn in Hc. apply list_elem_of_singleton in Hc as ->. by exists n2.
    - split; [by apply elem_of_union_r, elem_of_singleton|]. exists (set_right (Some a) np). split; [apply lookup_insert_eq|done].
    - intros b [Hb|Hb]%elem_of_union; [|apply elem_of_singleton in Hb as ->; lia]. rewrite Hht, Hhr by done. pose proof (tk_height _ _ _ _ Hok b Hb). lia. }
  assert (HrD' : r ∉ D) by (intros Hb; by apply (HrD r)).
  split; cbn [heap m_pBtreeRoot m_nMaxKey m_vecAllNodeP]; fold hv; try done.
  - by rewrite lookup_insert_eq.
  - by rewrite Hn.
  - by rewrite lookup_insert_ne, lookup_insert_eq.
  - by right.
  - rewrite Hhr. walk_step. unfold hv at 1. rewrite lookup_insert_eq. cbn [vecKey set_right np pRightSubTree opt_walk]. unfold keys_walk. cbn [map concat app].
    apply (walk_same (heap s) hv D ht a Hok); [|done|done]. intros b nb Hb Hnb. destruct (Hcases b nb Hb Hnb) as (nb' & Hnb' & Ek & Er & _). by exists nb'.
  - by apply Hht.
  - set_solver.
  - intros b [Hb|Hb]%elem_of_union; [by left|apply elem_of_singleton in Hb as ->; by right].
  - assert (Ha0 : a ∈ dom (heap s)) by (apply elem_of_dom; eauto). rewrite !dom_insert_L. apply set_eq. intros b. rewrite !elem_of_union, !elem_of_singleton. assert (b ∈ D -> b ∈ dom (heap s)) by (intros Hb; by apply elem_of_dom, Hdom). clear -Ha0 H. naive_solver.
  - intros b nb [Hb|Hb]%elem_of_union Hnb.
    + left. destruct (Hdom b Hb) as [nb0 Hnb0]. exists nb0. split; [done|]. split; [done|]. destruct (decide (a = b)) as [->|Hab].
      * rewrite lookup_insert_eq in Hnb. injection Hnb as <-. assert (nb0 = n) as -> by congruence. done.
      * rewrite !lookup_insert_ne in Hnb by (try done; apply not_eq_sym, HrD; done). congruence.
    + right. apply elem_of_singleton in Hb as ->. rewrite lookup_insert_ne, lookup_insert_eq in Hnb by done. by injection Hnb as <-.
  - rewrite (elements_add r D HrD'), app_assoc. cbn [app]. apply Permutation_cons_append.
  - intros H b [Hb|Hb]%elem_of_union Hle; apply elem_of_app; [left|right; by apply elem_of_singleton in Hb as ->; left]. rewrite !Hht in Hle by done. by apply H.
  - by right.
Qed.

(** What an insertion leaves. *)
Record inserted s D (w : list (item (K := K))) s' D' ht' root' : Prop := {
  is_tree : tree_ok (heap s') D' ht' root';
  is_walk : grow w (walk (heap s') (ht' root') root');
  is_root : m_pBtreeRoot s' = Some root';
  is_max : m_nMaxKey s' = m_nMaxKey s;
  is_fits : fits s' D';
  is_new b : b ∈ D' -> b ∈ D \/ b ∉ dom (heap s);
  is_dom : dom (heap s') = D' ∪ (dom (heap s) ∖ D);
  is_list : elements D' ++ m_vecAllNodeP s ≡ₚ elements D ++ m_vecAllNodeP s'
}.

Lemma sort_length (l : list Key) : length (sort ltb l) = length l.
Proof using Type.
  induction l as [|x l IH] using rev_ind; [done|]. unfold sort in *. rewrite fold_left_app. cbn. rewrite length_app. cbn.
  assert (H : forall y ks, length (insert_key ltb y ks) = S (length ks)) by (intros y ks; induction ks as [|z ks IHk]; [done|]; cbn; destruct (ltb _ _); cbn; congruence). rewrite H, IH. lia.
Qed.

Lemma size_take_drop (l : list Key) m i : (2 <= length l)%nat -> size_of l <= m + 1 -> 1 <= m -> (i = length l / 2 \/ i = S (length l / 2))%nat -> size_of (take (length l / 2) l) <= m /\ size_of (drop i l) <= m.
Proof using Type.
  intros H1 H2 H3 Hi. unfold size_of in *. rewrite length_take, length_drop. pose proof (Nat.div_mod_eq (length l) 2). pose proof (Nat.mod_upper_bound (length l) 2). lia.
Qed.

Lemma perm_step (elD elD2 elD1 elD' : list nat) (ls ls2 ls4 le : list nat) (a l r : nat) :
  elD2 ++ ls ≡ₚ elD ++ ls2 -> a :: elD1 ≡ₚ elD2 ++ [l; r] -> elD' ++ ls2 ≡ₚ elD1 ++ ls4 -> ls4 ≡ₚ a :: le -> elD' ++ ls ≡ₚ elD ++ le ++ [l; r].
Proof using Type.
  rewrite !(Permutation_count_occ Nat.eq_dec). intros H1 H2 H3 H4 x. specialize (H1 x). specialize (H2 x). specialize (H3 x). specialize (H4 x).
  change (a :: elD1) with ([a] ++ elD1) in H2. change (a :: le) with ([a] ++ le) in H4. rewrite !count_occ_app in *. lia.
Qed.


Lemma InsertAt_overflow a s D ht root n1 : heap s !! a = Some n1 -> a ∈ D -> tree_ok (heap s) D ht root -> StronglySorted (item_lt ltb) (walk (heap s) (ht root) root) ->
  1 <= m_nMaxKey s -> m_nMaxKey s < size_of (vecKey n1) <= m_nMaxKey s + 1 -> (forall b nb, b ∈ D -> b <> a -> heap s !! b = Some nb -> size_of (vecKey nb) <= m_nMaxKey s) ->
  forall s2 p np npv D2 ht2 root2 n2, ready s a D ht root s2 p np npv D2 ht2 root2 n2 ->
  exists l r mid h' np' D3 ht3, split bplus a (heap s2) = Some (true, l, r, mid, h') /\ h' !! a = Some n2 /\ h' !! p = Some np' /\ p ∈ D3 /\ a ∉ D3 /\ length (vecKey np') = length (vecKey np) /\
    tree_ok (<[p := set_keys (sort ltb (vecKey np' ++ [mid])) np']> h') D3 ht3 root2 /\
    grow (walk (heap s) (ht root) root) (walk (<[p := set_keys (sort ltb (vecKey np' ++ [mid])) np']> h') (ht3 root2) root2) /\
    fits (set_heap h' s2) D3 /\ dom h' = dom (heap s2) ∪ {[l; r]} /\ (forall b, b ∈ D3 -> (b ∈ D2 /\ b <> a) \/ b ∉ dom (heap s2)) /\ (forall b, b ∈ D2 -> b <> a -> b ∈ D3) /\ (l ∈ D3 /\ l ∉ dom (heap s2)) /\ (r ∈ D3 /\ r ∉ dom (heap s2)) /\
    (forall b, b ∈ D3 -> (ht3 p <= ht3 b)%nat -> b ∈ D2 /\ (ht2 a <= ht2 b)%nat) /\ (ht3 root2 - ht3 p = ht2 root2 - ht2 p)%nat /\ a :: elements D3 ≡ₚ elements D2 ++ [l; r].
Proof using All.
  intros Hn1 Ha Hok Hsorted Hmax Hsize Hfits s2 p np npv D2 ht2 root2 n2 R0.
  assert (Hkeys : vecKey n2 = vecKey n1) by (rewrite (rd_same _ _ _ _ _ _ _ _ _ _ _ _ _ R0), Hn1; done).
  assert (Ha2 : a ∈ D2) by (by apply (rd_D _ _ _ _ _ _ _ _ _ _ _ _ _ R0)). assert (Hlen : (2 <= length (vecKey n2))%nat) by (rewrite Hkeys; unfold size_of in Hsize; lia).
  destruct (middle_key n2 ltac:(lia)) as [mid Hmid]. pose proof (rd_node _ _ _ _ _ _ _ _ _ _ _ _ _ R0) as Q1. pose proof (rd_parent _ _ _ _ _ _ _ _ _ _ _ _ _ R0) as Q2. pose proof (rd_np _ _ _ _ _ _ _ _ _ _ _ _ _ R0) as Q3.
  pose proof (rd_stands _ _ _ _ _ _ _ _ _ _ _ _ _ R0) as Q4. pose proof (rd_tree _ _ _ _ _ _ _ _ _ _ _ _ _ R0) as Q5. pose proof (rd_walk _ _ _ _ _ _ _ _ _ _ _ _ _ R0) as Q6. pose proof Hsorted as Q7. rewrite <- Q6 in Q7.
  destruct (split_heap ltb bplus Q1 Q2 Q3 Q4 Q5 Ha2 Hmid) as (l & r & np' & h' & Esplit & Hh & Hcon).
  destruct (split_tree ltb bplus Q1 Q2 Q3 Q4 Q5 Ha2 Hmid Hh Hcon Hlen Q7) as [Htree Hgrow]. rewrite Q6 in Hgrow. rewrite <- h3_h1 in Htree, Hgrow.
  exists l, r, (set_left (Some l) mid), (<[p := np']> h'), np', (D1 (D := D2) (a := a) (l := l) (r := r)), (ht1 (ht := ht2) (a := a) (l := l) (r := r)).
  destruct (split_parent Q1 Q2 Q3 Q4 Q5 Ha2) as (HpD & Hhp & _). pose proof (split_ne Q1 Q2 Q3 Q4 Q5 Ha2) as Hap.
  assert (Hl : l ∉ dom (heap s2) /\ r ∉ dom (heap s2)) by (destruct Hh as (? & ? & _); done). destruct Hl as [Hl Hr]. assert (Ha3 : a ∈ dom (heap s2)) by (by apply elem_of_dom).
  split; [exact Esplit|]. split; [exact (h3_a ltb bplus Q1 Q2 Q3 Q4 Q5 Ha2 Hmid Hh Hcon Hlen Q7)|]. split; [apply lookup_insert_eq|]. split; [apply in_D1; left; done|].
  split; [rewrite in_D1; intros [[_ ?]|[->| ->]]; done|]. split; [exact (np'_length ltb bplus Q1 Q2 Q3 Q4 Q5 Ha2 Hmid Hh Hcon Hlen Q7)|]. split; [exact Htree|]. split; [exact Hgrow|]. split.
  { intros b nb Hb Hnb. cbn in Hnb |- *. rewrite (rd_max _ _ _ _ _ _ _ _ _ _ _ _ _ R0).
    destruct (h3_keys ltb bplus Q1 Q2 Q3 Q4 Q5 Ha2 Hmid Hh Hcon Hlen Q7 b nb Hb Hnb) as [E|[(i & Hi & E)|(nb' & HbD & Hnb' & E)]]; unfold size_of; rewrite E.
    - rewrite Hkeys in Hlen |- *. unfold middle in *. rewrite Hkeys. apply (size_take_drop (vecKey n1) (m_nMaxKey s) (length (vecKey n1) / 2)); [exact Hlen|lia|done|by left].
    - rewrite Hkeys in Hlen |- *. unfold middle in *. rewrite Hkeys in Hi. apply (size_take_drop (vecKey n1) (m_nMaxKey s) i); [exact Hlen|lia|done|exact Hi].
    - assert (Hba : b <> a) by (intros ->; apply in_D1 in Hb as [[_ ?]|[E0|E0]]; [done|by rewrite E0 in Ha3..]).
      destruct (rd_keys _ _ _ _ _ _ _ _ _ _ _ _ _ R0 b nb' HbD Hnb') as [(nb'' & HbD' & Hnb'' & ->)| ->]; [by apply (Hfits b)|cbn; lia]. }
  split; [exact (h3_dom ltb bplus Q1 Q2 Q3 Q4 Q5 Ha2 Hmid Hh Hcon Hlen Q7)|]. split; [intros b [?|[->| ->]]%in_D1; auto|]. split; [intros b ? ?; apply in_D1; auto|]. split; [split; [apply in_D1; auto|done]|]. split; [split; [apply in_D1; auto|done]|].
  split; [exact (h3_known ltb bplus Q1 Q2 Q3 Q4 Q5 Ha2 Hmid Hh Hcon Hlen Q7)|]. split; [|exact (D1_list ltb bplus Q1 Q2 Q3 Q4 Q5 Ha2 Hmid Hh Hcon Hlen Q7)].
  destruct (root_other ltb bplus Q1 Q2 Q3 Q4 Q5 Ha2 Hmid Hh Hcon Hlen Q7) as (_ & _ & ->). by rewrite (ht1_same ltb bplus Q1 Q2 Q3 Q4 Q5 Ha2 Hmid Hh Hcon Hlen Q7 p HpD).
Qed.
Lemma InsertAt_spec fuel : forall a k s D ht root n, heap s !! a = Some n -> a ∈ D -> let h1 := <[a := set_keys (sort ltb (vecKey n ++ [k])) n]> (heap s) in
  tree_ok h1 D ht root -> StronglySorted (item_lt ltb) (walk h1 (ht root) root) -> m_pBtreeRoot s = Some root -> 1 <= m_nMaxKey s -> fits s D ->
  (forall b, b ∈ D -> (ht a <= ht b)%nat -> b ∈ m_vecAllNodeP s) -> (ht root - ht a + 2 <= fuel)%nat \/ (1 <= fuel)%nat /\ vecKey n = [] ->
  exists s' D' ht' root', InsertAt fuel a k s = Some (true, s') /\ inserted s D (walk h1 (ht root) root) s' D' ht' root'.
Proof using All.
  induction fuel as [|fuel IH]; intros a k s D ht root n Hn Ha h1 Hok Hsorted Hroot Hmax Hfits Hknown Hfuel; [lia|]. insert_step. rewrite Hn. cbn [mbind option_bind].
  set (n1 := set_keys (sort ltb (vecKey n ++ [k])) n) in *. fold h1. set (s1 := set_heap h1 s).
  assert (Hdom1 : dom h1 = dom (heap s)) by (unfold h1; rewrite dom_insert_lookup_L; eauto).
  assert (Hlen1 : size_of (vecKey n1) = size_of (vecKey n) + 1) by (unfold n1, size_of; cbn [set_keys vecKey]; rewrite sort_length, length_app; cbn; lia).
  unfold IsOverflow. cbn [m_nMaxKey set_heap s1]. destruct (Z.gtb_spec (size_of (vecKey n1)) (m_nMaxKey s)) as [Hover|Hfit].
  2: { exists s1, D, ht, root. split; [done|].
    assert (HD : D ⊆ dom (heap s)) by (intros b Hb; destruct (tk_node _ _ _ _ Hok b Hb) as (nb & Hnb & _); rewrite <- Hdom1; by apply elem_of_dom).
    split; [exact Hok|apply rtc_refl|exact Hroot|done| |by left| |done].
    - intros b nb Hb Hnb. cbn in Hnb |- *. destruct (decide (b = a)) as [->|Hba]; [unfold h1 in Hnb; rewrite lookup_insert_eq in Hnb; injection Hnb as <-; exact Hfit|unfold h1 in Hnb; rewrite lookup_insert_ne in Hnb by done; by apply (Hfits b)].
    - cbn. rewrite Hdom1. by apply union_difference_L. }
  assert (Hn1 : h1 !! a = Some n1) by apply lookup_insert_eq.
  assert (Hready : exists s2 p np npv D2 ht2 root2 n2, new_root a s1 = Some s2 /\ ready s1 a D ht root s2 p np npv D2 ht2 root2 n2).
  { destruct (pParent n1) as [p|] eqn:Ep.
    - destruct (new_root_parent s1 a D ht root n1 p Hok Ha Hn1 Ep Hroot) as (np & E & Hr). by exists s1, p, np, np, D, ht, root, n1.
    - assert (root = a) as -> by (symmetry; by apply (tree_orphan _ _ _ _ _ _ Hok Ha Hn1)). destruct (new_root_fresh s1 a D ht n1 Hok Hn1 Ep) as (s2 & r & np & n2 & E & Hr).
      by eexists s2, r, np, _, _, _, r, n2. }
  destruct Hready as (s2 & p & np & npv & D2 & ht2 & root2 & n2 & -> & R0). cbn [mbind option_bind].
  assert (Hsize1 : m_nMaxKey s1 < size_of (vecKey n1) <= m_nMaxKey s1 + 1) by (change (m_nMaxKey s1) with (m_nMaxKey s); pose proof (Hfits a n Ha Hn); lia).
  assert (Hfits1 : forall b nb, b ∈ D -> b <> a -> heap s1 !! b = Some nb -> size_of (vecKey nb) <= m_nMaxKey s1).
  { intros b nb Hb Hba Hnb. cbn in Hnb. unfold h1 in Hnb. rewrite lookup_insert_ne in Hnb by done. by apply (Hfits b). }
  destruct (InsertAt_overflow a s1 D ht root n1 Hn1 Ha Hok Hsorted Hmax Hsize1 Hfits1 s2 p np npv D2 ht2 root2 n2 R0)
    as (l & r & mid & h' & np' & D3 & ht3 & -> & Ha' & Hp' & HpD3 & HaD3 & Hnp' & Htree & Hgrow & Hfits' & Hdom' & Hnew & Hold & [HlD3 Hlf] & [HrD3 Hrf] & Hknown' & Hht & Hlist).
  cbn [mbind option_bind]. rewrite Ha'. cbn [mbind option_bind]. rewrite (rd_parent _ _ _ _ _ _ _ _ _ _ _ _ _ R0). cbn [mbind option_bind].
  assert (Emax : m_nMaxKey s2 = m_nMaxKey s) by exact (rd_max _ _ _ _ _ _ _ _ _ _ _ _ _ R0).
  destruct (IH p mid (set_heap h' s2) D3 ht3 root2 np') as (s4 & D4 & ht4 & root4 & -> & I4).
  - exact Hp'.
  - exact HpD3.
  - exact Htree.
  - exact (grow_sorted ltb _ _ Hgrow Hsorted).
  - exact (rd_root _ _ _ _ _ _ _ _ _ _ _ _ _ R0).
  - cbn. lia.
  - exact Hfits'.
  - intros b Hb Hle. destruct (Hknown' b Hb Hle) as [HbD2 Hle2]. exact (rd_known _ _ _ _ _ _ _ _ _ _ _ _ _ R0 Hknown b HbD2 Hle2).
  - destruct (rd_fuel _ _ _ _ _ _ _ _ _ _ _ _ _ R0) as [Hf|Hf].
    + left. destruct Hfuel as [Hfuel|[_ En]]; [lia|]. rewrite En in Hlen1. change (size_of (@nil Key)) with 0 in Hlen1. lia.
    + right. split; [|rewrite Hf in Hnp'; by apply length_zero_iff_nil]. destruct Hfuel as [Hfuel|[_ En]]; [lia|]. rewrite En in Hlen1. change (size_of (@nil Key)) with 0 in Hlen1. lia.
  - cbn [mbind option_bind]. eexists _, D4, ht4, root4. split; [reflexivity|].
    assert (Hadom : a ∈ dom h') by (apply elem_of_dom; eauto).
    assert (HaD4 : a ∉ D4) by (intros H; by destruct (is_new _ _ _ _ _ _ _ I4 a H)).
    assert (Hagree : forall b, b ∈ D4 -> delete a (heap s4) !! b = heap s4 !! b) by (intros b Hb; apply lookup_delete_ne; by intros ->).
    split; cbn [heap m_pBtreeRoot m_nMaxKey m_vecAllNodeP].
    + exact (tree_agree _ _ _ _ _ Hagree (is_tree _ _ _ _ _ _ _ I4)).
    + rewrite (walk_agree bplus _ _ _ _ _ (is_tree _ _ _ _ _ _ _ I4) Hagree _ _ (proj1 (tk_root _ _ _ _ (is_tree _ _ _ _ _ _ _ I4))) eq_refl). etransitivity; [exact Hgrow|exact (is_walk _ _ _ _ _ _ _ I4)].
    + exact (is_root _ _ _ _ _ _ _ I4).
    + pose proof (is_max _ _ _ _ _ _ _ I4) as E. cbn in E. congruence.
    + intros b nb Hb Hnb. cbn in Hnb |- *. rewrite Hagree in Hnb by done. exact (is_fits _ _ _ _ _ _ _ I4 b nb Hb Hnb).
    + intros b Hb. destruct (is_new _ _ _ _ _ _ _ I4 b Hb) as [Hb3|Hb3]; [|right; intros Hbd; apply Hb3; cbn; rewrite Hdom', (rd_dom _ _ _ _ _ _ _ _ _ _ _ _ _ R0); do 2 apply elem_of_union_l; cbn; by rewrite Hdom1].
      destruct (Hnew b Hb3) as [[HbD2 _]|Hb2]; [destruct (rd_new _ _ _ _ _ _ _ _ _ _ _ _ _ R0 b HbD2) as [?|H0]; [by left|right; cbn in H0; by rewrite <- Hdom1]|].
      right. intros Hbd. apply Hb2. rewrite (rd_dom _ _ _ _ _ _ _ _ _ _ _ _ _ R0). apply elem_of_union_l. cbn. by rewrite Hdom1.
    + rewrite dom_delete_L, (is_dom _ _ _ _ _ _ _ I4). cbn [heap set_heap]. rewrite Hdom', (rd_dom _ _ _ _ _ _ _ _ _ _ _ _ _ R0). cbn [heap set_heap s1]. rewrite Hdom1.
      assert (Hds2 : forall b, b ∉ dom (heap s2) <-> b ∉ dom (heap s) /\ b ∉ D2) by (intros b; rewrite (rd_dom _ _ _ _ _ _ _ _ _ _ _ _ _ R0), not_elem_of_union; cbn; by rewrite Hdom1).
      pose proof (rd_D _ _ _ _ _ _ _ _ _ _ _ _ _ R0) as HDD2. pose proof (rd_new _ _ _ _ _ _ _ _ _ _ _ _ _ R0) as HnewD. cbn in HnewD. rewrite Hdom1 in HnewD. rewrite Hds2 in Hlf, Hrf.
      apply set_eq. intros b. specialize (Hnew b). specialize (Hold b). specialize (HnewD b). specialize (HDD2 b). rewrite Hds2 in Hnew. rewrite !elem_of_difference, !elem_of_union, !elem_of_difference, !elem_of_union, !elem_of_singleton.
      clear - Hnew Hold HnewD HDD2 HaD4 HaD3 HlD3 HrD3 Hlf Hrf Ha. destruct (decide (b = a)) as [->|]; [tauto|]. destruct (decide (b = l)) as [->|]; [tauto|]. destruct (decide (b = r)) as [->|]; [tauto|].
      destruct (decide (b ∈ D3)), (decide (b ∈ D2)), (decide (b ∈ D)), (decide (b ∈ dom (heap s))), (decide (b ∈ D4)); tauto.
    + pose proof (is_list _ _ _ _ _ _ _ I4) as Hl4. cbn in Hl4. eapply perm_step; [exact (rd_list _ _ _ _ _ _ _ _ _ _ _ _ _ R0)|exact Hlist|exact Hl4|]. apply erase_perm.
      assert (Ha2 : a ∈ m_vecAllNodeP s2) by (apply (rd_known _ _ _ _ _ _ _ _ _ _ _ _ _ R0 Hknown); [by apply (rd_D _ _ _ _ _ _ _ _ _ _ _ _ _ R0)|lia]).
      assert (Ha4 : a ∈ elements D3 ++ m_vecAllNodeP s4) by (rewrite <- Hl4; apply elem_of_app; by right). apply elem_of_app in Ha4 as [Ha4|Ha4]; [by apply elem_of_elements in Ha4|done].
Qed.
End Insert.

(** ** Searching *)

Ltac search_step := cbn [SearchKey FindInsertNode].

Section Search.
Context {K : Type} (ltb : K -> K -> bool) `{Hlaws : !KeyLaws ltb} (bplus : bool).
Abbreviation Key := (BT_Key_t K).
Abbreviation Node := (BT_Node_t K).
Abbreviation walk := (walk bplus).
Abbreviation keys_walk := (keys_walk bplus).
Implicit Types (h : gmap nat Node) (ks : list Key) (n : Node) (D : gset nat) (ht : nat -> nat) (k : K) (w : list (item (K := K))).

(** Neither is before the other. *)
Definition touches k (x : K) : bool := negb (ltb x k) && negb (ltb k x).

Lemma lower_upper k ks : (lower_bound ltb k ks <= upper_bound ltb k ks)%nat.
Proof using Hlaws.
  induction ks as [|x ks IH]; cbn; [done|]. destruct (ltb (key x) k) eqn:E; [|lia]. rewrite (ltb_asym ltb _ _ E). lia.
Qed.

Lemma lower_spec k ks : Forall (fun x => ltb (key x) k = true) (take (lower_bound ltb k ks) ks) /\ forall x, ks !! lower_bound ltb k ks = Some x -> ltb (key x) k = false.
Proof using Type.
  induction ks as [|x ks IH]; cbn; [done|]. destruct (ltb (key x) k) eqn:E; cbn; [by split; [constructor; [|apply IH]|apply IH]|]. split; [constructor|]. by intros y [= <-].
Qed.

Lemma upper_spec k ks : Forall (fun x => ltb k (key x) = false) (take (upper_bound ltb k ks) ks) /\ forall x, ks !! upper_bound ltb k ks = Some x -> ltb k (key x) = true.
Proof using Type.
  induction ks as [|x ks IH]; cbn; [done|]. destruct (ltb k (key x)) eqn:E; cbn; [split; [constructor|]; by intros y [= <-]|]. by split; [constructor; [|apply IH]|apply IH].
Qed.

(** All that is in a walk up to keys below the probe is below it, all after a key above it
    is above it. *)
Lemma keys_walk_below f ks k : StronglySorted (item_lt ltb) (keys_walk f ks) -> Forall (fun x => ltb (key x) k = true) ks -> forall y, y ∈ keys_walk f ks -> ltb (fst y) k = true.
Proof using Hlaws.
  intros Hs Hks. induction Hks as [|x ks Hx _ IH]; intros y Hy; [by apply elem_of_nil in Hy|]. rewrite keys_walk_cons in Hs, Hy. apply sorted_app in Hs as (_ & Hs & Hlt). apply StronglySorted_inv in Hs as [Hs _].
  apply elem_of_app in Hy as [Hy|[->|Hy]%elem_of_cons]; [|done|by apply IH].
  destruct (Hlt y (inner_item bplus x) Hy ltac:(left)) as [H|(_ & _ & ->)]; [by eapply ltb_trans|done].
Qed.

Lemma after_key (x : Key) w k : StronglySorted (item_lt ltb) (inner_item bplus x :: w) -> ltb k (key x) = true -> forall y, y ∈ inner_item bplus x :: w -> ltb k (fst y) = true.
Proof using Hlaws.
  intros [_ Hs]%StronglySorted_inv Hx y [->|Hy]%elem_of_cons; [done|]. rewrite Forall_forall in Hs. destruct (Hs y Hy) as [H|(_ & _ & E)]; [by eapply ltb_trans|]. cbn in E. by rewrite <- E.
Qed.

(** The walk of a node around the subtree in which the probe has its place. *)
Lemma walk_around f n k : StronglySorted (item_lt ltb) (keys_walk f (vecKey n) ++ opt_walk f (pRightSubTree n)) -> lower_bound ltb k (vecKey n) = upper_bound ltb k (vecKey n) ->
  exists l1 l2, keys_walk f (vecKey n) ++ opt_walk f (pRightSubTree n) = l1 ++ opt_walk f (child_at n (lower_bound ltb k (vecKey n))) ++ l2 /\
    (forall y, y ∈ l1 -> ltb (fst y) k = true) /\ (forall y, y ∈ l2 -> ltb k (fst y) = true) /\
    forall g c, child_at n (lower_bound ltb k (vecKey n)) = Some c -> NoDup (children n) -> (forall c', c' ∈ children n -> c' <> c -> g c' = f c') ->
      keys_walk g (vecKey n) ++ opt_walk g (pRightSubTree n) = l1 ++ g c ++ l2.
Proof using Hlaws.
  intros Hs Heq. set (i := lower_bound ltb k (vecKey n)) in *. destruct (lower_spec k (vecKey n)) as [Hlow _]. destruct (upper_spec k (vecKey n)) as [_ Hup]. fold i in Hlow. rewrite <- Heq in Hup. unfold child_at.
  destruct (vecKey n !! i) as [x|] eqn:Ex.
  - pose proof (take_drop_middle _ _ _ Ex) as E. exists (keys_walk f (take i (vecKey n))), (inner_item bplus x :: keys_walk f (drop (S i) (vecKey n)) ++ opt_walk f (pRightSubTree n)).
    assert (Ew : forall g, keys_walk g (vecKey n) ++ opt_walk g (pRightSubTree n) = keys_walk g (take i (vecKey n)) ++ opt_walk g (pLeftSubTree x) ++ inner_item bplus x :: keys_walk g (drop (S i) (vecKey n)) ++ opt_walk g (pRightSubTree n)).
    { intros g. rewrite <- E at 1. rewrite keys_walk_app, keys_walk_cons, <- !app_assoc. reflexivity. }
    split; [apply Ew|]. rewrite Ew in Hs. apply sorted_app in Hs as (Hs1 & Hs2 & _). apply sorted_app in Hs2 as (_ & Hs2 & _). split; [by apply keys_walk_below|]. split; [by apply after_key; [|apply Hup]|].
    intros g c Hc Hnd Hg. rewrite Ew, Hc. cbn [opt_walk]. unfold children in Hnd, Hg. rewrite <- E, omap_app in Hnd, Hg. cbn [omap list_omap] in Hnd, Hg. rewrite Hc in Hnd, Hg. rewrite <- !app_assoc in Hnd, Hg. cbn [app] in Hnd, Hg.
    apply NoDup_app in Hnd as (_ & Hnd1 & Hnd2). apply NoDup_cons in Hnd2 as [Hnd2 _]. f_equal; [|f_equal; f_equal; f_equal].
    + apply keys_walk_ext. intros y c' Hy Ec. assert (Hc' : c' ∈ omap pLeftSubTree (take i (vecKey n))) by (apply list_elem_of_omap; eauto). apply Hg; [apply elem_of_app; by left|]. intros ->. apply (Hnd1 c Hc'). left.
    + apply keys_walk_ext. intros y c' Hy Ec. assert (Hc' : c' ∈ omap pLeftSubTree (drop (S i) (vecKey n))) by (apply list_elem_of_omap; eauto). apply Hg; [rewrite elem_of_app, elem_of_cons, elem_of_app; tauto|]. intros ->. apply Hnd2, elem_of_app. by left.
    + destruct (pRightSubTree n) as [c'|]; [|done]. cbn. assert (Hc' : c' ∈ option_list (Some c')) by left. apply Hg; [rewrite elem_of_app, elem_of_cons, elem_of_app; tauto|]. intros ->. apply Hnd2, elem_of_app. by right.
  - exists (keys_walk f (vecKey n)), []. rewrite app_nil_r. split; [done|]. apply lookup_ge_None in Ex. rewrite take_ge in Hlow by done. apply sorted_app in Hs as (Hs1 & _). split; [by apply keys_walk_below|]. split; [by intros y ?%elem_of_nil|].
    intros g c Hc Hnd Hg. rewrite Hc, app_nil_r. cbn [opt_walk]. unfold children in Hnd, Hg. rewrite Hc in Hnd, Hg. cbn [option_list] in Hnd, Hg. apply NoDup_app in Hnd as (_ & Hnd & _). f_equal.
    apply keys_walk_ext. intros y c' Hy Ec. assert (Hc' : c' ∈ omap pLeftSubTree (vecKey n)) by (apply list_elem_of_omap; eauto). apply Hg; [apply elem_of_app; by left|]. intros ->. apply (Hnd c Hc'). left.
Qed.

(** *** The leaf for a new key *)

Fixpoint ancestor h (m : nat) (b : nat) : option nat :=
  match m with
  | O => Some b
  | S m => a ← ancestor h m b; n ← h !! a; pParent n
  end.

(** A change of a leaf is seen by its ancestors only. *)
Lemma walk_frame h D ht root b nb : tree_ok h D ht root -> b ∈ D -> ht b = O ->
  forall m c, c ∈ D -> ht c = m -> ancestor h m b <> Some c -> walk (<[b := nb]> h) m c = walk h m c.
Proof using Type.
  intros H Hb Hb0. induction m as [|m IH]; intros c Hc Hm Hanc.
  - walk_step. rewrite lookup_insert_ne; [done|]. intros ->. by apply Hanc.
  - destruct (tk_node _ _ _ _ H c Hc) as (n & Hn & _). walk_step. rewrite lookup_insert_ne by (intros ->; lia). rewrite Hn.
    assert (Hch : forall x, x ∈ children n -> walk (<[b := nb]> h) m x = walk h m x).
    { intros x Hx. destruct (tree_child _ _ _ _ _ _ _ H Hc Hn Hx) as (HxD & Hh & _ & nx & Hnx & Hp). apply IH; [done|lia|]. intros E. apply Hanc. cbn. rewrite E. cbn. by rewrite Hnx. }
    f_equal; [apply keys_walk_ext; intros x d Hx Ed; apply Hch, elem_of_app; left; apply list_elem_of_omap; eauto|].
    destruct (pRightSubTree n) as [d|] eqn:Ed; [|done]. cbn. by apply Hch, right_child.
Qed.

Lemma after_keys k ks : StronglySorted (key_lt ltb) ks -> (forall x, ks !! O = Some x -> ltb k (key x) = true) -> forall x, x ∈ ks -> ltb k (key x) = true.
Proof using Hlaws.
  intros Hs Hk x Hx. destruct ks as [|y ks]; [by apply elem_of_nil in Hx|]. specialize (Hk y eq_refl). apply StronglySorted_inv in Hs as [_ Hs]. rewrite Forall_forall in Hs.
  apply elem_of_cons in Hx as [->|Hx]; [done|]. eapply ltb_trans; [exact Hk|by apply Hs].
Qed.

Lemma found_touches k ks : lower_bound ltb k ks <> upper_bound ltb k ks -> exists x, x ∈ ks /\ ks !! lower_bound ltb k ks = Some x /\ touches k (key x) = true.
Proof using Hlaws.
  intros H. pose proof (lower_upper k ks) as Hle. destruct (lower_spec k ks) as [_ Hl]. destruct (upper_spec k ks) as [Hu _].
  assert (Hlen : (upper_bound ltb k ks <= length ks)%nat) by (clear; induction ks as [|x ks IH]; cbn; [done|]; destruct (ltb _ _); lia).
  destruct (lookup_lt_is_Some_2 ks (lower_bound ltb k ks)) as [x Hx]; [lia|]. exists x. split; [by eapply list_elem_of_lookup_2|]. split; [done|]. unfold touches. rewrite (Hl x Hx). rewrite Forall_forall in Hu.
  rewrite (Hu x); [done|]. apply list_elem_of_lookup. exists (lower_bound ltb k ks). by rewrite lookup_take_lt by lia.
Qed.

(** Where a key has its place, and what putting it there makes of the walk. *)
Definition place_ok h D ht m a k (place : option nat) : Prop :=
  match place with
  | None => exists y, y ∈ walk h m a /\ touches k (fst y) = true
  | Some b => b ∈ D /\ ht b = O /\ ancestor h m b = Some a /\ exists nb w1 w2, h !! b = Some nb /\ walk h m a = w1 ++ w2 /\
      (forall y, y ∈ w1 -> ltb (fst y) k = true) /\ (forall y, y ∈ w2 -> ltb k (fst y) = true) /\
      forall x, key x = k -> walk (<[b := set_keys (sort ltb (vecKey nb ++ [x])) nb]> h) m a = w1 ++ leaf_item bplus x :: w2
  end.

Lemma place_leaf h D ht a n k : a ∈ D -> ht a = O -> h !! a = Some n -> StronglySorted (key_lt ltb) (vecKey n) -> lower_bound ltb k (vecKey n) = upper_bound ltb k (vecKey n) -> place_ok h D ht 0 a k (Some a).
Proof using Hlaws.
  intros Ha H0 Hn Hs Heq. split; [done|]. split; [done|]. split; [done|]. set (i := lower_bound ltb k (vecKey n)) in *. exists n, (map (leaf_item bplus) (take i (vecKey n))), (map (leaf_item bplus) (drop i (vecKey n))).
  destruct (lower_spec k (vecKey n)) as [Hlow _]. destruct (upper_spec k (vecKey n)) as [_ Hup]. fold i in Hlow. rewrite <- Heq in Hup. rewrite Forall_forall in Hlow.
  assert (Hdrop : forall x, x ∈ drop i (vecKey n) -> ltb k (key x) = true).
  { apply after_keys; [|intros x Hx; rewrite lookup_drop, Nat.add_0_r in Hx; by apply Hup]. rewrite <- (take_drop i (vecKey n)) in Hs. by apply sorted_app in Hs as (_ & ? & _). }
  split; [done|]. split; [walk_step; rewrite Hn; by rewrite <- map_app, take_drop|].
  split; [intros y (x & -> & Hx)%list_elem_of_fmap; by apply Hlow|]. split; [intros y (x & -> & Hx)%list_elem_of_fmap; by apply Hdrop|].
  intros x <-. walk_step. rewrite lookup_insert_eq. cbn [set_keys vecKey]. pose proof (sort_insert ltb x (take i (vecKey n)) (drop i (vecKey n))) as E. rewrite take_drop in E. rewrite E; [by rewrite map_app|exact Hs|exact Hlow|exact Hdrop].
Qed.

Lemma FindInsertNode_spec h D ht root k : tree_ok h D ht root -> forall m a, a ∈ D -> ht a = m -> StronglySorted (item_lt ltb) (walk h m a) -> forall fuel, (m < fuel)%nat ->
  exists place, FindInsertNode ltb fuel h a k = Some place /\ place_ok h D ht m a k place.
Proof using Hlaws.
  intros H. induction m as [|m IH]; intros a Ha Hm Hs fuel Hfuel; (destruct fuel as [|fuel]; [lia|]); search_step; destruct (tk_node _ _ _ _ H a Ha) as (n & Hn & Hshape & _); rewrite Hn; cbn [mbind option_bind];
    pose proof (node_keys_sorted ltb bplus _ _ _ _ _ _ H Ha Hn ltac:(by rewrite Hm)) as Hks; unfold equal_range;
    pose proof (walk_node bplus _ _ _ Hn _ _ Hshape) as Hw; rewrite Hm in Hw; pose proof (leaf_height _ _ _ _ Hshape) as Hleaf; rewrite Hm in Hleaf;
    destruct (Nat.eqb_spec (lower_bound ltb k (vecKey n)) (upper_bound ltb k (vecKey n))) as [Heq|Hne].
  - rewrite (proj2 Hleaf eq_refl). eexists. split; [done|]. by eapply place_leaf.
  - eexists. split; [done|]. destruct (found_touches _ _ Hne) as (x & Hx & _ & Ht). exists (leaf_item bplus x). split; [|done]. rewrite Hw, (proj2 Hleaf eq_refl). by apply list_elem_of_fmap_2.
  - assert (El : bLeaf n = false) by (destruct (bLeaf n); [by discriminate (proj1 Hleaf eq_refl)|done]). rewrite El in Hw |- *. cbn [pred] in Hw.
    destruct (child_at n (lower_bound ltb k (vecKey n))) as [c|] eqn:Ec.
    2: { exfalso. unfold shape_ok in Hshape. rewrite El in Hshape. destruct Hshape as (Hl & [r Hr] & _). unfold child_at in Ec. destruct (vecKey n !! _) as [x|] eqn:Ex; [|congruence]. rewrite Forall_forall in Hl.
         destruct (Hl x) as [? ?]; [by eapply list_elem_of_lookup_2|]. congruence. }
    cbn [mbind option_bind].
    assert (Hc : c ∈ children n) by (unfold child_at in Ec; destruct (vecKey n !! _) as [x|] eqn:Ex; [by eapply left_child|by apply right_child]).
    destruct (tree_child _ _ _ _ _ _ _ H Ha Hn Hc) as (HcD & Hh & _ & nc & Hnc & Hpc). assert (Hcm : ht c = m) by lia.
    rewrite Hw in Hs. destruct (walk_around _ _ _ Hs Heq) as (l1 & l2 & Ew & Hl1 & Hl2 & Hrep). rewrite Ec in Ew, Hrep. cbn [opt_walk] in Ew.
    destruct (IH c HcD Hcm) with (fuel := fuel) as (place & -> & Hp); [rewrite Ew in Hs; apply sorted_app in Hs as (_ & Hs & _); by apply sorted_app in Hs as (? & _)|lia|]. exists place. split; [done|].
    destruct place as [b|]; [|destruct Hp as (y & Hy & Ht); exists y; split; [|done]; rewrite Hw, Ew; apply elem_of_app; right; apply elem_of_app; by left].
    destruct Hp as (HbD & Hb0 & Hanc & nb & w1 & w2 & Hnb & Ewc & Hw1 & Hw2 & Hx). split; [done|]. split; [done|]. split; [cbn; rewrite Hanc; cbn; by rewrite Hnc|].
    exists nb, (l1 ++ w1), (w2 ++ l2). split; [done|]. split; [rewrite Hw, Ew, Ewc; by rewrite <- !app_assoc|].
    split; [intros y [?|?]%elem_of_app; auto|]. split; [intros y [?|?]%elem_of_app; auto|]. intros x Ekx. set (g := walk (<[b := set_keys (sort ltb (vecKey nb ++ [x])) nb]> h) m).
    walk_step. rewrite lookup_insert_ne by (intros ->; lia). rewrite Hn. rewrite <- app_assoc. change (keys_walk g (vecKey n) ++ opt_walk g (pRightSubTree n) = l1 ++ w1 ++ leaf_item bplus x :: w2 ++ l2). unfold shape_ok in Hshape. rewrite El in Hshape. destruct Hshape as (_ & _ & Hnd & _).
    rewrite (Hrep g c eq_refl Hnd); [unfold g; rewrite (Hx x Ekx); by rewrite <- app_assoc|]. intros c' Hc' Hne. destruct (tree_child _ _ _ _ _ _ _ H Ha Hn Hc') as (HcD' & Hh' & _).
    apply (walk_frame h D ht root b _ H HbD Hb0 m c' HcD'); [lia|]. rewrite Hanc. congruence.
  - eexists. split; [done|]. destruct (found_touches _ _ Hne) as (x & Hx & _ & Ht). exists (inner_item bplus x). split; [|done].
    assert (El : bLeaf n = false) by (destruct (bLeaf n); [by discriminate (proj1 Hleaf eq_refl)|done]). rewrite Hw, El. apply elem_of_app. left. by apply inner_elem.
Qed.
End Search.

(** ** The index as a sorted list *)

Section Contents.
Context {K : Type} (ltb : K -> K -> bool) `{Hlaws : !KeyLaws ltb}.
Implicit Types (k : K) (w : list (item (K := K))) (e : list (K * Z)).

(** The entries that a probe touches. *)
Definition matches {B} k (e : list (K * B)) : list (K * B) := List.filter (fun y => touches ltb k (fst y)) e.

(** What a search may answer.  Where a probe is apart from all keys but one the answer is
    exact; where it touches many it is invalid, or one of theirs. *)
Definition spec_search k e (r : Z) : Prop :=
  match matches k e with
  | [] => r = SMD_INVALIDINDEX_RETURN
  | [(_, o)] => r = o
  | ms => r = SMD_INVALIDINDEX_RETURN \/ exists y, (y, r) ∈ ms
  end.

(** An entry goes before the first that it is below. *)
Fixpoint spec_place k (o : Z) e : list (K * Z) :=
  match e with
  | [] => [(k, o)]
  | y :: e' => if ltb k (fst y) then (k, o) :: e else y :: spec_place k o e'
  end.
Definition spec_insert k (o : Z) e : bool * list (K * Z) := if existsb (fun y => touches ltb k (fst y)) e then (false, e) else (true, spec_place k o e).

Fixpoint spec_inserts (ops : list (K * Z)) e : list bool * list (K * Z) :=
  match ops with
  | [] => ([], e)
  | (k, o) :: ops => let '(b, e) := spec_insert k o e in let '(bs, e) := spec_inserts ops e in (b :: bs, e)
  end.
Fixpoint inserts (bplus : bool) (ops : list (K * Z)) (s : SMDIndex K) : option (list bool * SMDIndex K) :=
  match ops with
  | [] => Some ([], s)
  | (k, o) :: ops => '(b, s) ← insertKeyOffset ltb bplus k o s; '(bs, s) ← inserts bplus ops s; Some (b :: bs, s)
  end.

Lemma entries_app w1 w2 : entries (w1 ++ w2) = entries w1 ++ entries w2.
Proof using Type. apply omap_app. Qed.

Lemma in_entries k o w : (k, o) ∈ entries w <-> (k, Some o) ∈ w.
Proof using Type.
  unfold entries. rewrite list_elem_of_omap. split; [intros ([k' [o'|]] & Hy & E); cbn in E; [by injection E as -> ->|done]|]. intros H. by exists (k, Some o).
Qed.

Lemma spec_place_at k o e1 e2 : (forall y, y ∈ e1 -> ltb (fst y) k = true) -> (forall y, y ∈ e2 -> ltb k (fst y) = true) -> spec_place k o (e1 ++ e2) = e1 ++ (k, o) :: e2.
Proof using Hlaws.
  intros H1 H2. induction e1 as [|y e1 IH]; cbn.
  - destruct e2 as [|y e2]; [done|]. cbn. by rewrite (H2 y) by left.
  - rewrite (ltb_asym ltb) by (apply H1; left). f_equal. apply IH. intros x Hx. apply H1. by right.
Qed.

Lemma apart k y : ltb (fst y) k = true \/ ltb k (fst y) = true -> touches ltb k (fst (y : K * Z)) = false.
Proof using Type. unfold touches. intros [-> | ->]; [done|by rewrite andb_false_r]. Qed.

Lemma matches_apart {B} k (e : list (K * B)) : (forall y, y ∈ e -> ltb (fst y) k = true \/ ltb k (fst y) = true) -> matches k e = [].
Proof using Type.
  induction e as [|y e IH]; intros H; [done|]. unfold matches in *. cbn. unfold touches. destruct (H y ltac:(left)) as [-> | ->]; cbn; [|rewrite andb_false_r]; apply IH; intros z Hz; apply H; by right.
Qed.

Lemma matches_in {B} k (e : list (K * B)) y : y ∈ matches k e <-> y ∈ e /\ touches ltb k (fst y) = true.
Proof using Type. unfold matches. rewrite !list_elem_of_In. apply filter_In. Qed.

Lemma matches_app {B} k (e1 e2 : list (K * B)) : matches k (e1 ++ e2) = matches k e1 ++ matches k e2.
Proof using Type. apply List.filter_app. Qed.

(** *** Searching the B-tree *)

Lemma singleton_sublist {A} (x : A) l : x ∈ l -> sublist [x] l.
Proof using Type. intros (l1 & l2 & ->)%list_elem_of_split. apply sublist_inserts_l, sublist_skip, sublist_nil_l. Qed.

Lemma second_touches k (ks : list (BT_Key_t K)) : (S (lower_bound ltb k ks) < upper_bound ltb k ks)%nat -> StronglySorted (key_lt ltb) ks -> exists x, ks !! S (lower_bound ltb k ks) = Some x /\ touches ltb k (key x) = true.
Proof using Hlaws.
  intros H Hs. destruct (lower_spec ltb k ks) as [_ Hl]. destruct (upper_spec ltb k ks) as [Hu _]. set (i := lower_bound ltb k ks) in *.
  assert (Hlen : (upper_bound ltb k ks <= length ks)%nat) by (clear; induction ks as [|x ks IH]; cbn; [done|]; destruct (ltb _ _); lia).
  destruct (lookup_lt_is_Some_2 ks i) as [x Hx]; [lia|]. destruct (lookup_lt_is_Some_2 ks (S i)) as [y Hy]; [lia|]. exists y. split; [done|]. rewrite Forall_forall in Hu. unfold touches.
  rewrite (Hu y) by (apply list_elem_of_lookup; exists (S i); by rewrite lookup_take_lt by lia). rewrite andb_true_r. specialize (Hl x Hx). destruct (ltb (key y) k) eqn:E; [|done]. exfalso.
  rewrite <- (take_drop_middle _ _ _ Hx) in Hs. apply sorted_app in Hs as (_ & Hs & _). apply StronglySorted_inv in Hs as [_ Hs]. rewrite Forall_forall in Hs.
  assert (Hxy : ltb (key x) (key y) = true) by (apply Hs, list_elem_of_lookup; exists O; by rewrite lookup_drop, Nat.add_0_r). by rewrite (ltb_trans _ _ _ Hxy E) in Hl.
Qed.

Lemma search_two k (x1 x2 : K * Z) e : sublist [x1; x2] e -> touches ltb k (fst x1) = true -> touches ltb k (fst x2) = true -> spec_search k e SMD_INVALIDINDEX_RETURN.
Proof using Type.
  intros Hs H1 H2. assert (Hm : sublist [x1; x2] (matches k e)).
  { assert (Hf : forall l1 l2 : list (K * Z), sublist l1 l2 -> sublist (matches k l1) (matches k l2)).
    { intros l1 l2 H. induction H as [|x l1 l2 H IH|x l1 l2 H IH]; [done|..]; unfold matches in *; cbn; destruct (touches ltb k (fst x)); [by apply sublist_skip|done|by apply sublist_cons|done]. }
    specialize (Hf _ _ Hs). revert Hf. unfold matches at 1. cbn [List.filter]. by rewrite H1, H2. }
  unfold spec_search. apply sublist_length in Hm. cbn in Hm. destruct (matches k e) as [|[? ?] [|? ?]]; cbn in Hm; [lia..|]. by left.
Qed.

Lemma search_one k x o e : (x, o) ∈ e -> touches ltb k x = true -> spec_search k e o.
Proof using Type.
  intros Hx Ht. assert (Hm : (x, o) ∈ matches k e) by (by apply matches_in). unfold spec_search. destruct (matches k e) as [|[y oy] [|z ms]]; [by apply elem_of_nil in Hm| |].
  - apply list_elem_of_singleton in Hm. by injection Hm as _ ->.
  - right. by exists x.
Qed.

Lemma search_around k e1 e e2 r : (forall y, y ∈ e1 -> ltb (fst y) k = true) -> (forall y, y ∈ e2 -> ltb k (fst y) = true) -> spec_search k e r -> spec_search k (e1 ++ e ++ e2) r.
Proof using Type.
  intros H1 H2. unfold spec_search. rewrite !matches_app, (matches_apart k e1), (matches_apart k e2), app_nil_r; auto.
Qed.

Lemma tree_entries_below w k : (forall y, y ∈ w -> ltb (fst y) k = true) -> forall y, y ∈ entries w -> ltb (fst y) k = true.
Proof using Type. intros H [y o] Hy%in_entries. by apply (H _ Hy). Qed.
Lemma tree_entries_above w k : (forall y, y ∈ w -> ltb k (fst y) = true) -> forall y, y ∈ entries w -> ltb k (fst y) = true.
Proof using Type. intros H [y o] Hy%in_entries. by apply (H _ Hy). Qed.

Lemma entries_keys f (ks : list (BT_Key_t K)) : sublist (map (fun x => (key x, nOffset x)) ks) (entries (keys_walk false f ks)).
Proof using Type.
  induction ks as [|x ks IH]; [done|]. rewrite keys_walk_cons, entries_app. apply sublist_inserts_l. cbn. by apply sublist_skip.
Qed.

Lemma node_walk (h : gmap nat (BT_Node_t K)) D ht root a n : tree_ok h D ht root -> a ∈ D -> h !! a = Some n ->
  walk false h (ht a) a = keys_walk false (walk false h (pred (ht a))) (vecKey n) ++ opt_walk (walk false h (pred (ht a))) (pRightSubTree n).
Proof using Type.
  intros H Ha Hn. pose proof (tree_node _ _ _ _ _ _ H Ha Hn) as Hs. rewrite (walk_node false _ _ _ Hn _ _ Hs). destruct (bLeaf n) eqn:El; [|done]. unfold shape_ok in Hs. rewrite El in Hs. destruct Hs as (_ & Hk & ->).
  cbn [opt_walk]. rewrite app_nil_r. induction Hk as [|x ks Hx _ IH]; [done|]. rewrite keys_walk_cons, Hx. cbn. by rewrite IH.
Qed.

Lemma SearchKey_spec (h : gmap nat (BT_Node_t K)) D ht root k : tree_ok h D ht root -> forall m a, a ∈ D -> ht a = m -> StronglySorted (item_lt ltb) (walk false h m a) -> forall fuel, (m < fuel)%nat ->
  exists r, SearchKey ltb fuel h a k = Some r /\ spec_search k (entries (walk false h m a)) r.
Proof using Hlaws.
  intros H m. induction (lt_wf m) as [m _ IH]. intros a Ha Hm Hs fuel Hfuel. destruct fuel as [|fuel]; [lia|]. search_step. destruct (tk_node _ _ _ _ H a Ha) as (n & Hn & _). rewrite Hn. cbn [mbind option_bind].
  pose proof (node_walk _ _ _ _ _ _ H Ha Hn) as Hw. rewrite Hm in Hw. unfold equal_range. rewrite Hw in Hs |- *. set (f := walk false h (pred m)) in *. pose proof (lower_upper ltb k (vecKey n)) as Hle.
  destruct (Nat.eq_dec (lower_bound ltb k (vecKey n)) (upper_bound ltb k (vecKey n))) as [Heq|Hne].
  - rewrite <- Heq, Nat.eqb_refl. rewrite (proj2 (Nat.eqb_neq _ _)) by lia. destruct (walk_around ltb false f n k Hs Heq) as (l1 & l2 & Ew & Hl1 & Hl2 & _). rewrite Ew in Hs |- *. rewrite !entries_app.
    apply sorted_app in Hs as (_ & Hs & _). apply sorted_app in Hs as (Hs & _). pose proof (tree_entries_below _ _ Hl1) as He1. pose proof (tree_entries_above _ _ Hl2) as He2.
    destruct (child_at n (lower_bound ltb k (vecKey n))) as [c|] eqn:Ec; cbn [opt_walk] in *; [|eexists; split; [done|]; by apply search_around].
    assert (Hc : c ∈ children n) by (unfold child_at in Ec; destruct (vecKey n !! _) as [x|] eqn:Ex; [by eapply left_child|by apply right_child]).
    destruct (tree_child _ _ _ _ _ _ _ H Ha Hn Hc) as (HcD & Hh & _). destruct (IH (pred m) ltac:(lia) c HcD ltac:(lia) Hs fuel ltac:(lia)) as (r & -> & Hr). exists r. split; [done|]. by apply search_around.
  - destruct (found_touches ltb k _ Hne) as (x & Hx & Ex & Ht). rewrite entries_app. pose proof (entries_keys f (vecKey n)) as Hsub. rewrite (proj2 (Nat.eqb_neq (lower_bound ltb k (vecKey n)) (upper_bound ltb k (vecKey n)))) by done.
    destruct (Nat.eqb_spec (upper_bound ltb k (vecKey n)) (lower_bound ltb k (vecKey n) + 1)) as [E1|E1].
    + rewrite Ex. cbn [mbind option_bind]. eexists. split; [done|]. apply (search_one _ (key x)); [|done]. apply elem_of_app. left. eapply elem_of_sublist; [|exact Hsub]. apply list_elem_of_fmap. by exists x.
    + eexists. split; [done|]. destruct (second_touches k (vecKey n) ltac:(lia) ltac:(apply sorted_app in Hs as (Hs & _); by eapply keys_sorted_inner)) as (x2 & Ex2 & Ht2). apply (search_two k (key x, nOffset x) (key x2, nOffset x2)); [|done|done].
      apply sublist_inserts_r. etransitivity; [|exact Hsub]. rewrite <- (take_drop_middle _ _ _ Ex), map_app. apply sublist_inserts_l. cbn. apply sublist_skip. apply singleton_sublist.
      apply (list_elem_of_fmap_2 (fun x => (key x, nOffset x))), list_elem_of_lookup. exists O. by rewrite lookup_drop, Nat.add_0_r.
Qed.
End Contents.

(** ** The index *)

Section Index.
Context {K : Type} (ltb : K -> K -> bool) `{Hlaws : !KeyLaws ltb} (bplus : bool).
Implicit Types (k : K) (s : SMDIndex K) (e : list (K * Z)).

(** An index is a tree of all the nodes there are, which are those of its list; [e] are the
    entries in it. *)
Definition stored s e : Prop :=
  1 <= m_nMaxKey s /\
  match m_pBtreeRoot s with
  | None => m_vecAllNodeP s = [] /\ heap s = ∅ /\ e = []
  | Some root =>
      exists ht, tree_ok (heap s) (dom (heap s)) ht root /\ fits s (dom (heap s)) /\ m_vecAllNodeP s ≡ₚ elements (dom (heap s)) /\
        StronglySorted (item_lt ltb) (walk bplus (heap s) (ht root) root) /\ keys_have_data (walk bplus (heap s) (ht root) root) /\
        e = entries (walk bplus (heap s) (ht root) root)
  end.

Lemma insert_key_in (x y : BT_Key_t K) ks : y ∈ insert_key ltb x ks <-> y = x \/ y ∈ ks.
Proof using Type.
  induction ks as [|z ks IH]; cbn; [by rewrite list_elem_of_singleton, elem_of_nil; tauto|]. destruct (ltb _ _); rewrite !elem_of_cons; [done|]. rewrite IH. tauto.
Qed.
Lemma sort_in (y : BT_Key_t K) ks : y ∈ sort ltb ks <-> y ∈ ks.
Proof using Type.
  induction ks as [|x ks IH] using rev_ind; [done|]. rewrite (sort_app ltb), insert_key_in, IH, elem_of_app, list_elem_of_singleton. tauto.
Qed.

Lemma leaf_put (h : gmap nat (BT_Node_t K)) D ht root b nb x : tree_ok h D ht root -> b ∈ D -> h !! b = Some nb -> ht b = O -> pLeftSubTree x = None ->
  tree_ok (<[b := set_keys (sort ltb (vecKey nb ++ [x])) nb]> h) D ht root.
Proof using Type.
  intros H Hb Hnb H0 Hx. pose proof (tree_node _ _ _ _ _ _ H Hb Hnb) as Hs. pose proof (proj2 (leaf_height _ _ _ _ Hs) H0) as El. pose proof (leaf_children _ _ _ _ Hs El) as Hch. set (n' := set_keys _ nb).
  assert (Hs' : shape_ok D ht b n').
  { unfold shape_ok in Hs |- *. cbn. rewrite El in *. destruct Hs as (? & Hk & ?). split; [done|]. split; [|done]. rewrite Forall_forall in Hk |- *. intros y Hy. rewrite sort_in in Hy. apply elem_of_app in Hy as [Hy|Hy]; [by apply Hk|]. by apply list_elem_of_singleton in Hy as ->. }
  pose proof (leaf_children _ _ _ _ Hs' El) as Hch'.
  assert (Hc : forall a n, a ∈ D -> h !! a = Some n -> exists m, <[b := n']> h !! a = Some m /\ shape_ok D ht a m /\ pParent m = pParent n /\ children m = children n).
  { intros a n Ha Hn. destruct (decide (a = b)) as [->|Hab]; [exists n'; rewrite lookup_insert_eq; assert (n = nb) as -> by congruence; repeat split; [done|congruence]|].
    exists n. rewrite lookup_insert_ne by done. split; [done|]. split; [by eapply tree_node|done]. }
  split.
  - intros a Ha. destruct (tk_node _ _ _ _ H a Ha) as (n & Hn & _ & Hp). destruct (Hc a n Ha Hn) as (m & Hm & Hsm & Ep & _). exists m. split; [done|]. split; [done|]. rewrite Ep. destruct (pParent n) as [p|]; [|done].
    destruct Hp as (HpD & np & Hnp & Hin). split; [done|]. destruct (Hc p np HpD Hnp) as (m' & Hm' & _ & _ & Ec). exists m'. by rewrite Ec.
  - intros a n c Ha Hn Hin. destruct (tk_node _ _ _ _ H a Ha) as (n0 & Hn0 & _). destruct (Hc a n0 Ha Hn0) as (m & Hm & _ & _ & Ec). assert (m = n) as -> by congruence. rewrite Ec in Hin.
    destruct (tree_child _ _ _ _ _ _ _ H Ha Hn0 Hin) as (HcD & _ & _ & nc & Hnc & Hp). destruct (Hc c nc HcD Hnc) as (m' & Hm' & _ & Ep & _). exists m'. by rewrite Ep.
  - destruct (tk_root _ _ _ _ H) as (Hr & n & Hn & Hp). split; [done|]. destruct (Hc root n Hr Hn) as (m & Hm & _ & Ep & _). exists m. by rewrite Ep.
  - apply (tk_height _ _ _ _ H).
Qed.

Lemma made_data k o : data_offset bplus (BT_Key_t_make bplus k o) = o /\ key (BT_Key_t_make bplus k o) = k.
Proof using Type. unfold data_offset, BT_Key_t_make. by destruct bplus. Qed.

Lemma insert_first k o s e : stored s e -> m_pBtreeRoot s = None ->
  exists s', insertKeyOffset ltb bplus k o s = Some (true, s') /\ stored s' [(k, o)] /\ e = [].
Proof using Type.
  intros [Hmax Hs] Hr. rewrite Hr in Hs. destruct Hs as (Hl & Hh & ->). destruct (made_data k o) as [Ed Ek]. unfold insertKeyOffset, InsertNode, new_node. rewrite Hr, Hl, Hh.
  eexists. split; [reflexivity|]. split; [|done]. split; [done|]. cbn [m_pBtreeRoot heap m_vecAllNodeP]. set (a := fresh _). set (x := BT_Key_t_make bplus k o) in *. exists (fun _ => O). rewrite insert_empty, dom_singleton_L.
  assert (Ew : walk bplus {[a := set_keys [x] BT_Node_t_make]} 0 a = [(k, Some o)]) by (walk_step; rewrite lookup_singleton_eq; cbn; unfold leaf_item; by rewrite Ed, Ek).
  assert (Hn : forall b, b ∈ ({[a]} : gset nat) -> ({[a := set_keys [x] BT_Node_t_make]} : gmap nat (BT_Node_t K)) !! b = Some (set_keys [x] BT_Node_t_make)) by (intros b ->%elem_of_singleton; by rewrite lookup_singleton_eq).
  assert (Hshape : shape_ok {[a]} (fun _ => O) a (set_keys [x] BT_Node_t_make)) by (cbn; split; [done|]; split; [|done]; constructor; [|done]; unfold x, BT_Key_t_make; by destruct bplus).
  split; [split|].
  - intros b Hb. exists (set_keys [x] BT_Node_t_make). split; [by apply Hn|]. by apply elem_of_singleton in Hb as ->.
  - intros b n c Hb Hnb Hc. rewrite (Hn b Hb) in Hnb. injection Hnb as <-. apply elem_of_singleton in Hb as ->. rewrite (leaf_children _ _ _ _ Hshape) in Hc by done. by apply elem_of_nil in Hc.
  - split; [by apply elem_of_singleton|]. exists (set_keys [x] BT_Node_t_make). split; [|done]. by rewrite lookup_singleton_eq.
  - done.
  - rewrite Ew. split; [intros b n Hb Hnb; cbn in Hnb; rewrite (Hn b Hb) in Hnb; injection Hnb as <-; by cbn|]. split; [by rewrite elements_singleton|]. split; [by repeat constructor|]. split; [|done].
    intros y Hy. apply list_elem_of_singleton in Hy. discriminate.
Qed.

Lemma no_touch k w1 w2 : (forall y, y ∈ w1 -> ltb (fst y) k = true) -> (forall y, y ∈ w2 -> ltb k (fst y) = true) -> existsb (fun y => touches ltb k (fst y)) (entries (w1 ++ w2)) = false.
Proof using Hlaws.
  intros H1 H2. apply not_true_is_false. intros (y & Hy & Ht)%existsb_exists. apply list_elem_of_In in Hy. rewrite entries_app in Hy. apply elem_of_app in Hy as [Hy|Hy]; rewrite (apart ltb) in Ht; try done;
    [left; by eapply tree_entries_below|right; by eapply tree_entries_above].
Qed.

Lemma put_sorted (w1 w2 : list (item (K := K))) k o : StronglySorted (item_lt ltb) (w1 ++ w2) -> (forall y, y ∈ w1 -> ltb (fst y) k = true) -> (forall y, y ∈ w2 -> ltb k (fst y) = true) ->
  StronglySorted (item_lt ltb) (w1 ++ (k, Some o) :: w2).
Proof using Hlaws.
  intros H H1 H2. apply sorted_app in H as (Hs1 & Hs2 & H3). apply sorted_app. split; [done|]. split.
  - constructor; [done|]. apply Forall_forall. intros y Hy. left. by apply H2.
  - intros y z Hy [->|Hz]%elem_of_cons; [left; by apply H1|by apply H3].
Qed.

Lemma put_data (w1 w2 : list (item (K := K))) k o : keys_have_data (w1 ++ w2) -> keys_have_data (w1 ++ (k, Some o) :: w2).
Proof using Type.
  intros H x Hx. assert (Hx' : (x, None) ∈ w1 ++ w2) by (revert Hx; rewrite !elem_of_app, !elem_of_cons; naive_solver).
  destruct (H x Hx') as [ox Hox]. exists ox. revert Hox. rewrite !elem_of_app, !elem_of_cons. naive_solver.
Qed.

Lemma insert_more k o s e root : stored s e -> m_pBtreeRoot s = Some root ->
  exists s', insertKeyOffset ltb bplus k o s = Some (fst (spec_insert ltb k o e), s') /\ stored s' (snd (spec_insert ltb k o e)).
Proof using Hlaws.
  intros [Hmax Hs] Hr. pose proof Hs as Hs0. rewrite Hr in Hs. destruct Hs as (ht & Hok & Hfits & Hlist & Hsorted & Hdata & ->). destruct (made_data k o) as [Ed Ek]. unfold insertKeyOffset, InsertNode. rewrite Hr, Ek.
  pose proof (height_size _ _ _ _ Hok) as Hsize. rewrite size_dom in Hsize.
  destruct (FindInsertNode_spec ltb bplus _ _ _ _ k Hok (ht root) root (proj1 (tk_root _ _ _ _ Hok)) eq_refl Hsorted (tree_fuel s)) as (place & -> & Hp); [unfold tree_fuel; lia|]. cbn [mbind option_bind]. unfold spec_insert.
  destruct place as [b|].
  2: { destruct Hp as ([y oy] & Hy & Ht). rewrite (proj2 (existsb_exists _ _)); [exists s; by split|]. assert (Hd : exists o', (y, Some o') ∈ walk bplus (heap s) (ht root) root) by (destruct oy as [oy|]; [by exists oy|by apply Hdata]).
       destruct Hd as [o' Ho']. exists (y, o'). split; [|done]. apply list_elem_of_In. by apply in_entries. }
  destruct Hp as (Hb & Hb0 & Hanc & nb & w1 & w2 & Hnb & Ew & Hw1 & Hw2 & Hput). rewrite Ew, (no_touch _ _ _ Hw1 Hw2). set (x := BT_Key_t_make bplus k o) in *. specialize (Hput x Ek).
  unfold leaf_item in Hput. rewrite Ek, Ed in Hput. rewrite Ew in Hsorted, Hdata.
  destruct (InsertAt_spec ltb bplus (tree_fuel s) b x s (dom (heap s)) ht root nb Hnb Hb) as (s' & D' & ht' & root' & -> & I).
  - apply leaf_put; [exact Hok|exact Hb|exact Hnb|exact Hb0|]. unfold x, BT_Key_t_make. by destruct bplus.
  - rewrite Hput. by apply put_sorted.
  - done.
  - done.
  - done.
  - intros c Hc _. rewrite Hlist. by apply elem_of_elements.
  - left. unfold tree_fuel. lia.
  - exists s'. split; [done|]. pose proof (is_dom _ _ _ _ _ _ _ _ I) as Hdom. rewrite difference_diag_L, union_empty_r_L in Hdom. cbn [fst snd]. split; [rewrite (is_max _ _ _ _ _ _ _ _ I); done|]. rewrite (is_root _ _ _ _ _ _ _ _ I). exists ht'. rewrite Hdom.
    pose proof (is_walk _ _ _ _ _ _ _ _ I) as Hg. rewrite Hput in Hg. split; [exact (is_tree _ _ _ _ _ _ _ _ I)|]. split; [exact (is_fits _ _ _ _ _ _ _ _ I)|].
    split; [pose proof (is_list _ _ _ _ _ _ _ _ I) as Hl; rewrite Hlist, (Permutation_app_comm (elements D')) in Hl; by apply Permutation_app_inv_l in Hl|].
    split; [apply (grow_sorted ltb _ _ Hg); by apply put_sorted|]. split; [apply (grow_data _ _ Hg); by apply put_data|].
    rewrite (grow_entries _ _ Hg), !entries_app. cbn. apply (spec_place_at ltb); [by eapply tree_entries_below|by eapply tree_entries_above].
Qed.

Lemma insertKeyOffset_spec k o s e : stored s e ->
  exists s', insertKeyOffset ltb bplus k o s = Some (fst (spec_insert ltb k o e), s') /\ stored s' (snd (spec_insert ltb k o e)).
Proof using Hlaws.
  intros H. destruct (m_pBtreeRoot s) as [root|] eqn:Hr; [by eapply insert_more|]. destruct (insert_first k o s e H Hr) as (s' & E & H' & ->). by exists s'.
Qed.

Lemma inserts_spec ops : forall s e, stored s e -> exists s', inserts ltb bplus ops s = Some (fst (spec_inserts ltb ops e), s') /\ stored s' (snd (spec_inserts ltb ops e)).
Proof using Hlaws.
  induction ops as [|[k o] ops IH]; intros s e H; cbn; [by exists s|]. destruct (insertKeyOffset_spec k o s e H) as (s1 & -> & H1). cbn. destruct (spec_insert ltb k o e) as [b e1]. cbn in H1 |- *.
  destruct (IH s1 e1 H1) as (s2 & -> & H2). cbn. destruct (spec_inserts ltb ops e1) as [bs e2]. by exists s2.
Qed.

Lemma spec_place_some k o e : spec_place ltb k o e <> [].
Proof using Type. destruct e as [|y e]; cbn; [done|]. by destruct (ltb k (fst y)). Qed.
Lemma spec_inserts_keep ops : forall e, e <> [] -> snd (spec_inserts ltb ops e) <> [].
Proof using Type.
  induction ops as [|[k o] ops IH]; intros e He; cbn; [done|]. unfold spec_insert. destruct (existsb _ e).
  - specialize (IH e He). by destruct (spec_inserts ltb ops e).
  - specialize (IH _ (spec_place_some k o e)). by destruct (spec_inserts ltb ops (spec_place ltb k o e)).
Qed.
Lemma spec_inserts_some ops : ops <> [] -> snd (spec_inserts ltb ops []) <> [].
Proof using Type.
  destruct ops as [|[k o] ops]; [done|]. intros _. cbn. pose proof (spec_inserts_keep ops [(k, o)]) as H. destruct (spec_inserts ltb ops [(k, o)]). by apply H.
Qed.

(** The destructor deletes each node once, and leaves none. *)
Lemma clear_all l : forall h : gmap nat (BT_Node_t K), l ≡ₚ elements (dom h) -> clearBtreeNode l h = Some ∅.
Proof using Type.
  induction l as [|a l IH]; intros h Hl; cbn.
  - symmetry in Hl. apply Permutation_nil_r in Hl. apply elements_empty_inv in Hl. f_equal. by apply dom_empty_inv.
  - assert (Ha : a ∈ dom h) by (apply elem_of_elements; rewrite <- Hl; left). destruct (proj1 (elem_of_dom _ _) Ha) as [n ->]. cbn. apply IH. rewrite dom_delete_L.
    apply (Permutation_cons_inv (a := a)). rewrite Hl, <- elements_union_singleton by (apply not_elem_of_difference; right; by apply elem_of_singleton). by rewrite <- union_difference_singleton_L.
Qed.

Lemma stored_clear s e : stored s e -> clearBtreeNode (m_vecAllNodeP s) (heap s) = Some ∅.
Proof using Type.
  intros [_ H]. apply clear_all. destruct (m_pBtreeRoot s); [by destruct H as (ht & _ & _ & H & _)|]. destruct H as (-> & -> & _). by rewrite dom_empty_L, elements_empty.
Qed.
End Index.

Lemma searchFromMem_spec {K} (ltb : K -> K -> bool) `{!KeyLaws ltb} s e k : stored ltb false s e -> e <> [] -> exists r, searchFromMem ltb k s = Some r /\ spec_search ltb k e r.
Proof.
  intros [_ H] He. unfold searchFromMem. destruct (m_pBtreeRoot s) as [root|]; [|by destruct H as (_ & _ & ?)]. destruct H as (ht & Hok & _ & _ & Hs & _ & ->). cbn [mbind option_bind].
  pose proof (height_size _ _ _ _ Hok) as Hsize. rewrite size_dom in Hsize. apply (SearchKey_spec ltb _ _ _ _ k Hok (ht root)); [exact (proj1 (tk_root _ _ _ _ Hok))|done|exact Hs|unfold tree_fuel; lia].
Qed.

(** *** Entries in order *)

Lemma stored_sorted {K} (ltb : K -> K -> bool) bplus s e : stored ltb bplus s e -> StronglySorted (fun x y => ltb (fst x) (fst y) = true) e.
Proof.
  intros [_ H]. destruct (m_pBtreeRoot s) as [root|]; [|destruct H as (_ & _ & ->); constructor]. destruct H as (ht & _ & _ & _ & Hs & _ & ->). induction Hs as [|[k [o|]] w _ IH Hk]; [constructor| |done].
  cbn. constructor; [done|]. apply Forall_forall. intros [k' o'] Hx%in_entries. rewrite Forall_forall in Hk. destruct (Hk _ Hx) as [?|(? & _)]; done.
Qed.

(** A key that was put in is found. *)
Lemma search_stored {K} (ltb : K -> K -> bool) `{!KeyLaws ltb} bplus s e k o r : stored ltb bplus s e -> (k, o) ∈ e -> spec_search ltb k e r -> r = o.
Proof.
  intros Hs%stored_sorted (e1 & e2 & ->)%list_elem_of_split. apply sorted_app in Hs as (_ & Hs & Hlt). apply StronglySorted_inv in Hs as [_ Hgt]. rewrite Forall_forall in Hgt.
  unfold spec_search. rewrite matches_app, (matches_apart ltb k e1) by (intros y Hy; left; apply (Hlt y (k, o) Hy); left). cbn [app]. unfold matches. cbn [List.filter fst]. unfold touches at 1. rewrite !(ltb_irrefl (ltb := ltb)). cbn [negb andb].
  fold (matches ltb k e2). rewrite (matches_apart ltb k e2) by (intros y Hy; right; by apply Hgt). done.
Qed.

(** ** Keys of the program *)

Record PairKey_t : Type := mkPair { nKeyS : Z; nKeyE : Z }.
Definition PairKey_ltb (a b : PairKey_t) : bool := (nKeyS a <? nKeyS b) && (nKeyE a <? nKeyE b).

#[export] Instance Z_KeyLaws : KeyLaws Z.ltb.
Proof. split; intros; lia. Qed.
#[export] Instance PairKey_KeyLaws : KeyLaws PairKey_ltb.
Proof. unfold PairKey_ltb. split; intros; lia. Qed.

Lemma SMDIndex_make_stored {K} (ltb : K -> K -> bool) bplus nPageSize : 1 <= m_nMaxKey (SMDIndex_make (K := K) bplus nPageSize) -> stored ltb bplus (SMDIndex_make bplus nPageSize) [].
Proof. by split. Qed.

(** C1: an index of table rows in memory, a B-tree or a B+ tree with pages of a size that
    holds a key, is its abstract specification: whichever keys are put in, each insertion
    returns, splitting nodes up to the root where needed; it answers false, and changes
    nothing, for a key that touches one in the index, and adds the entry in order
    otherwise; the tree is then well-formed and balanced, with no node above its number of
    keys.  A search of the B-tree finds each key that was put in, answers
    [SMD_INVALIDINDEX_RETURN] for a probe apart from all keys, and the offset of the only
    key that an interval touches.  The destructor deletes each node once and leaves none. *)
Theorem btree_index {K} (ltb : K -> K -> bool) `{!KeyLaws ltb} bplus nPageSize ops : 1 <= m_nMaxKey (SMDIndex_make (K := K) bplus nPageSize) ->
  let '(bs, e) := spec_inserts ltb ops [] in
  exists s, inserts ltb bplus ops (SMDIndex_make bplus nPageSize) = Some (bs, s) /\ stored ltb bplus s e /\
    (bplus = false -> ops <> [] -> forall k, exists r, searchFromMem ltb k s = Some r /\ spec_search ltb k e r /\ forall o, (k, o) ∈ e -> r = o) /\
    clearBtreeNode (m_vecAllNodeP s) (heap s) = Some ∅.
Proof.
  intros Hmax. destruct (inserts_spec ltb bplus ops _ _ (SMDIndex_make_stored ltb bplus nPageSize Hmax)) as (s & E & Hs).
  assert (Hne : ops <> [] -> snd (spec_inserts ltb ops []) <> []) by apply spec_inserts_some.
  destruct (spec_inserts ltb ops []) as [bs e]. exists s. split; [done|]. split; [done|]. split; [|by eapply stored_clear]. intros -> Hops k. destruct (searchFromMem_spec ltb s e k Hs (Hne Hops)) as (r & Er & Hr). exists r.
  split; [done|]. split; [done|]. intros o Ho. by eapply search_stored.
Qed.

Definition example_keys : list (PairKey_t * Z) := map (fun i => (mkPair (10 * i) (10 * i + 5), i)) [5; 1; 9; 3; 7; 2; 8; 4; 6; 1].

Lemma btree_index_witness : fst (spec_inserts PairKey_ltb example_keys []) = [true; true; true; true; true; true; true; true; true; false] /\
  exists s, inserts PairKey_ltb false example_keys (SMDIndex_make false 44) = Some ([true; true; true; true; true; true; true; true; true; false], s) /\
    searchFromMem PairKey_ltb (mkPair 73 73) s = Some 7 /\ searchFromMem PairKey_ltb (mkPair 78 78) s = Some SMD_INVALIDINDEX_RETURN.
Proof.
  split; [vm_compute; reflexivity|]. pose proof (btree_index PairKey_ltb false 44 example_keys ltac:(vm_compute; discriminate)) as H.
  destruct (spec_inserts PairKey_ltb example_keys []) as [bs e] eqn:E. vm_compute in E. injection E as <- <-. destruct H as (s & Es & _ & Hsearch & _). exists s. split; [exact Es|]. split.
  - destruct (Hsearch eq_refl ltac:(discriminate) (mkPair 73 73)) as (r & -> & Hr & _). vm_compute in Hr. by subst.
  - destruct (Hsearch eq_refl ltac:(discriminate) (mkPair 78 78)) as (r & -> & Hr & _). vm_compute in Hr. by subst.
Defined.

(** ** The segment: indexes by the names of their tables *)

Inductive SMD_INDEX_INDEXTYPE : Type := SMD_INDEX_INDEXTYPE_NULL | SMD_INDEX_INDEXTYPE_BTREE | SMD_INDEX_INDEXTYPE_BPTREE | SMD_INDEX_INDEXTYPE_HASH.
Inductive SMD_INDEX_KEYTYPE : Type := SMD_INDEX_KEYTYPE_NULL | SMD_INDEX_KEYTYPE_INT | SMD_INDEX_KEYTYPE_UINT | SMD_INDEX_KEYTYPE_DOUBLE | SMD_INDEX_KEYTYPE_STRING | SMD_INDEX_KEYTYPE_PAIR.
#[export] Instance SMD_INDEX_INDEXTYPE_eq_dec : EqDecision SMD_INDEX_INDEXTYPE.
Proof. solve_decision. Defined.

Section Segment.
Context {K : Type} (ltb : K -> K -> bool).

Record tIndexTableInfo : Type := mkInfo { pIndexBase : option (SMDIndex K); nOffset_ : Z; enumIndexType : SMD_INDEX_INDEXTYPE; enumKeyType : SMD_INDEX_KEYTYPE }.
Definition tIndexTableInfo_make : tIndexTableInfo := mkInfo None SMD_INVALIDINDEX_RETURN SMD_INDEX_INDEXTYPE_NULL SMD_INDEX_KEYTYPE_NULL.
Definition tree_type (bplus : bool) : SMD_INDEX_INDEXTYPE := if bplus then SMD_INDEX_INDEXTYPE_BPTREE else SMD_INDEX_INDEXTYPE_BTREE.
Implicit Types (m : gmap string tIndexTableInfo).

(** [None] for a table whose index is of the other type, which the source would cast, or
    is in the file only. *)
Definition insertKeyOffsetTree (bplus : bool) (sName : string) (k : K) (nOffset : Z) m : option (bool * gmap string tIndexTableInfo) :=
  match m !! sName with
  | None =>
      '(b, s) ← insertKeyOffset ltb bplus k nOffset (SMDIndex_make bplus 4096);
      Some (b, <[sName := mkInfo (Some s) (nOffset_ tIndexTableInfo_make) (tree_type bplus) (enumKeyType tIndexTableInfo_make)]> m)
  | Some info =>
      if decide (enumIndexType info = tree_type bplus) then
        s ← pIndexBase info;
        '(b, s) ← insertKeyOffset ltb bplus k nOffset s;
        Some (b, <[sName := mkInfo (Some s) (nOffset_ info) (enumIndexType info) (enumKeyType info)]> m)
      else None
  end.

Definition segment_insert (sName : string) (k : K) (nOffset : Z) (enumIndexType : SMD_INDEX_INDEXTYPE) m : option (bool * gmap string tIndexTableInfo) :=
  match enumIndexType with
  | SMD_INDEX_INDEXTYPE_BTREE => insertKeyOffsetTree false sName k nOffset m
  | SMD_INDEX_INDEXTYPE_BPTREE => insertKeyOffsetTree true sName k nOffset m
  | SMD_INDEX_INDEXTYPE_HASH => Some (false, m)
  | SMD_INDEX_INDEXTYPE_NULL => Some (true, m)
  end.

(** [None] for a B+ tree, whose [SearchKey] is no C++. *)
Definition segment_search (sName : string) (k : K) m : option Z :=
  match m !! sName with
  | None => Some SMD_INVALIDINDEX_RETURN
  | Some info =>
      match enumIndexType info with
      | SMD_INDEX_INDEXTYPE_BTREE => s ← pIndexBase info; searchFromMem ltb k s
      | SMD_INDEX_INDEXTYPE_BPTREE => None
      | _ => Some SMD_INVALIDINDEX_RETURN
      end
  end.

Context `{Hlaws : !KeyLaws ltb}.

(** The tables of a segment, each with its type of tree and its entries. *)
Definition segment_ok m (tables : gmap string (bool * list (K * Z))) : Prop :=
  forall sName, match m !! sName, tables !! sName with
  | None, None => True
  | Some info, Some (bplus, e) => e <> [] /\ enumIndexType info = tree_type bplus /\ exists s, pIndexBase info = Some s /\ stored ltb bplus s e
  | _, _ => False
  end.

(** An insertion changes its table only. *)
Lemma segment_insert_ok m tables sName k o bplus e : segment_ok m tables -> default (bplus, []) (tables !! sName) = (bplus, e) ->
  exists m', segment_insert sName k o (tree_type bplus) m = Some (fst (spec_insert ltb k o e), m') /\ segment_ok m' (<[sName := (bplus, snd (spec_insert ltb k o e))]> tables).
Proof using Hlaws.
  intros H He. assert (Hput : forall info s, enumIndexType info = tree_type bplus -> pIndexBase info = Some s -> stored ltb bplus s (snd (spec_insert ltb k o e)) -> snd (spec_insert ltb k o e) <> [] ->
    segment_ok (<[sName := info]> m) (<[sName := (bplus, snd (spec_insert ltb k o e))]> tables)).
  { intros info s E1 E2 Hs Hne n. destruct (decide (n = sName)) as [->|Hn]; [rewrite !lookup_insert_eq; eauto|]. rewrite !lookup_insert_ne by done. apply H. }
  assert (E : segment_insert sName k o (tree_type bplus) m = insertKeyOffsetTree bplus sName k o m) by (by destruct bplus). rewrite E. clear E. unfold insertKeyOffsetTree. specialize (H sName) as Hn.
  destruct (m !! sName) as [info|], (tables !! sName) as [[bp e']|]; try done; cbn in He; simplify_eq.
  - destruct Hn as (Hne & Et & s & Es & Hs). rewrite decide_True by done. rewrite Es. cbn. destruct (insertKeyOffset_spec ltb bplus k o s e Hs) as (s' & -> & Hs'). cbn. eexists. split; [done|]. eapply Hput; [done|done|done|].
    unfold spec_insert. destruct (existsb _ _); [done|]. apply spec_place_some.
  - destruct (insertKeyOffset_spec ltb bplus k o _ _ (SMDIndex_make_stored ltb bplus 4096 ltac:(by destruct bplus))) as (s' & -> & Hs'). cbn [mbind option_bind]. eexists. split; [done|]. eapply Hput; [done|done|done|]. apply spec_place_some.
Qed.

Lemma segment_search_ok m tables sName k : segment_ok m tables -> match tables !! sName with Some (bplus, _) => bplus = false | None => True end ->
  exists r, segment_search sName k m = Some r /\ match tables !! sName with Some (_, e) => spec_search ltb k e r | None => r = SMD_INVALIDINDEX_RETURN end.
Proof using Hlaws.
  intros H. unfold segment_search. specialize (H sName). destruct (m !! sName) as [info|], (tables !! sName) as [[bplus e]|]; try done; [|by eexists]. intros ->. destruct H as (Hne & -> & s & -> & Hs). cbn. by apply searchFromMem_spec.
Qed.
End Segment.
Arguments tIndexTableInfo : clear implicits.

(** ** The second template *)

Module SMDIndexBp.
Section Ops.
Context {K : Type} (ltb : K -> K -> bool).
Definition BT_Key_t_make : K -> Z -> BT_Key_t K := BT_Key_t_make true.
Definition SMDIndex_make : Z -> SMDIndex K := SMDIndex_make true.
Definition EraseCleaningNode : nat -> list nat -> list nat := EraseCleaningNode.
Definition FindInsertNode : nat -> gmap nat (BT_Node_t K) -> nat -> K -> option (option nat) := FindInsertNode ltb.
Definition ConnectRightNode : nat -> nat -> gmap nat (BT_Node_t K) -> option (bool * gmap nat (BT_Node_t K)) := ConnectRightNode.
Definition InsertAt : nat -> nat -> BT_Key_t K -> SMDIndex K -> option (bool * SMDIndex K) := InsertAt ltb true.
Definition InsertNode : BT_Key_t K -> SMDIndex K -> option (bool * SMDIndex K) := InsertNode ltb true.
Definition insertKeyOffset : K -> Z -> SMDIndex K -> option (bool * SMDIndex K) := insertKeyOffset ltb true.
Definition clearBPtreeNode : list nat -> gmap nat (BT_Node_t K) -> option (gmap nat (BT_Node_t K)) := clearBtreeNode.
End Ops.
End SMDIndexBp.
