(* ===== verification/WriteQueue.v ===== *)
(** * WriteQueue: writes to the database

    Models [DBImpl::Write] of [db/db_impl.cpp], with [BuildBatchGroup] and
    [MakeRoomForWrite]: the threads that write queue up, and the one at the front writes
    for as many of those behind it as fit in a group.  The state is what the mutex
    protects; a step is what one thread does from the time it gets the mutex to the time
    it releases it or, without the mutex, one access to the log or to the memtable, which
    only the thread at the front touches.  A thread that waits on its condition variable
    is asleep until it is signalled, and may also wake up by itself. *)

From S2P Require Import Prelude Coding Slice Comparator DbFormat WriteBatch Env Log FileName Version VersionSet DBImpl.
From S2P Require MemTable.
Import MemTable(MemTable, MemTable_make, ApproximateMemoryUsage).

(** [DBImpl::Writer]; its condition variable is in the [Phase] of its thread. *)
Record Waiter : Type := mkWaiter { w_status : Status; w_batch : option WriteBatch; w_sync : bool; w_done : bool }.

(** Where [MakeRoomForWrite] leaves the mutex: it returns, or it sleeps or waits and then
    goes on with these. *)
Inductive Room : Type := RoomReturns (s : Status) | RoomAgain (force allow_delay : bool).

(** What a thread does next: it waits for a signal; it looks at the queue; it is in
    [MakeRoomForWrite]; it writes the group that ends with [last_writer] to the log, to the
    memtable, and gets the mutex back; it has returned.  [own] holds when the group is
    its own batch. *)
Inductive Phase : Type :=
| Asleep
| Awake
| InRoom (force allow_delay : bool)
| Logging (own : bool) (last_sequence : Z) (last_writer : nat)
| Inserting (own : bool) (last_sequence : Z) (last_writer : nat) (status : Status) (sync_error : bool)
| Finishing (own : bool) (last_sequence : Z) (last_writer : nat) (status : Status) (sync_error : bool)
| Returned (s : Status).

(** A thread makes one call. *)
Record WriteState (E W : Type) : Type := mkState {
  db_ : DBImpl E W;
  writers_ : list nat;
  tmp_batch_ : WriteBatch;
  threads_ : gmap nat (Waiter * Phase)
}.
Arguments mkState {E W}.
Arguments db_ {E W}.
Arguments writers_ {E W}.
Arguments tmp_batch_ {E W}.
Arguments threads_ {E W}.

(** What history keeps of a group: its writers, whether its leader asked for a sync, the
    batch that was written, if any, and the status. *)
Record Group : Type := mkGroup { g_members : list nat; g_sync : bool; g_batch : option WriteBatch; g_status : Status }.

Section Queue.
Context {E W R : Type} `{!EnvFiles E W R} `{!WritableFile W}.
Context (new_array : list (Z * Z) -> Z -> Z) (ucmp : Comparator) (opts : DBOptions).
Implicit Types db : DBImpl E W.
Implicit Types st : WriteState E W.

(** *** Room *)

(** At most [fuel] passes of the loop; [mem_] is not null. *)
Fixpoint MakeRoomForWrite (fuel : nat) (force allow_delay : bool) db : option (Room * DBImpl E W) :=
  match fuel with
  | O => None
  | S fuel =>
      let vs := versions_ db in
      if negb (ok (bg_error_ db)) then Some (RoomReturns (bg_error_ db), db)
      else if allow_delay && (kL0_SlowdownWritesTrigger <=? NumLevelFiles 0 vs) then Some (RoomAgain force false, db)
      else
        mem ← mem_ db;
        if negb force && (ApproximateMemoryUsage mem <=? write_buffer_size opts) then Some (RoomReturns OK, db)
        else
          match imm_ db with
          | Some _ => Some (RoomAgain force allow_delay, db)
          | None =>
              if kL0_StopWritesTrigger <=? NumLevelFiles 0 vs then Some (RoomAgain force allow_delay, db)
              else
                let '(new_log_number, vs) := NewFileNumber vs in
                let switch log db :=
                  let db := set_mems (Some (MemTable.Ref (MemTable_make new_array))) (Some mem) (set_log log new_log_number db) in
                  MakeRoomForWrite fuel false allow_delay (MaybeScheduleCompaction db) in
                if read_only opts then switch None (set_vset vs db)
                else
                  match NewWritableFile (LogFileName (dbpath_ vs) (dbname_ vs) new_log_number) (env_ db) with
                  | (inl s, env) => Some (RoomReturns s, set_env env (set_vset (ReuseFileNumber new_log_number vs) db))
                  | (inr lfile, env) => switch (Some (Writer_make lfile)) (set_env env (set_vset vs db))
                  end
          end
  end.

(** *** Groups *)

Definition batch_of (t : nat) st : option WriteBatch := threads_ st !! t ≫= fun wp => w_batch (fst wp).
Definition sync_of (t : nat) st : bool := match threads_ st !! t with Some (w, _) => w_sync w | None => false end.

(** The loop over the writers behind the first one, whose batch and [sync] are given;
    [result] is the group so far, [None] while it is the batch of the first writer. *)
Fixpoint group_loop (first : WriteBatch) (sync : bool) (max_size size : Z) (result : option WriteBatch) (last : nat) (ws : list nat) st : option WriteBatch * nat :=
  match ws with
  | [] => (result, last)
  | t :: ws =>
      if sync_of t st && negb sync then (result, last)
      else
        match batch_of t st with
        | None => group_loop first sync max_size size result t ws st
        | Some b =>
            let size := usize (size + ByteSize b) in
            if size >? max_size then (result, last)
            else
              let r := match result with None => WriteBatch.Append (tmp_batch_ st) first | Some r => r end in
              group_loop first sync max_size size (Some (WriteBatch.Append r b)) t ws st
        end
  end.

(** With the last writer. *)
Definition BuildBatchGroup (first : nat) (b : WriteBatch) st : option WriteBatch * nat :=
  let size := ByteSize b in
  let max_size := if size <=? Z.shiftl 128 10 then usize (size + Z.shiftl 128 10) else Z.shiftl 1 20 in
  group_loop b (sync_of first st) max_size size None first (tail (writers_ st)) st.

(** *** Threads *)

Definition on_thread (f : Waiter * Phase -> Waiter * Phase) (t : nat) st : WriteState E W :=
  mkState (db_ st) (writers_ st) (tmp_batch_ st) (alter f t (threads_ st)).
Definition set_phase (p : Phase) : nat -> WriteState E W -> WriteState E W := on_thread (fun wp => (fst wp, p)).
Definition set_db db st : WriteState E W := mkState db (writers_ st) (tmp_batch_ st) (threads_ st).

(** [cv.Signal()]. *)
Definition signal (wp : Waiter * Phase) : Waiter * Phase := (fst wp, match snd wp with Asleep => Awake | p => p end).

(** [ready] is done. *)
Definition complete (s : Status) (wp : Waiter * Phase) : Waiter * Phase :=
  signal (mkWaiter s (w_batch (fst wp)) (w_sync (fst wp)) true, snd wp).

Fixpoint pop_writers (t last : nat) (s : Status) (ws : list nat) (threads : gmap nat (Waiter * Phase)) : list nat * gmap nat (Waiter * Phase) :=
  match ws with
  | [] => ([], threads)
  | ready :: ws =>
      let threads := if (ready =? t)%nat then threads else alter (complete s) ready threads in
      if (ready =? last)%nat then (ws, threads) else pop_writers t last s ws threads
  end.

(** The writers up to [last] leave the queue, and the next is told. *)
Definition leave (t last : nat) (s : Status) st : WriteState E W :=
  let '(ws, threads) := pop_writers t last s (writers_ st) (threads_ st) in
  let threads := match ws with next :: _ => alter signal next threads | [] => threads end in
  set_phase (Returned s) t (mkState (db_ st) ws (tmp_batch_ st) threads).

(** The writers that leave with [last]. *)
Fixpoint upto (last : nat) (ws : list nat) : list nat :=
  match ws with [] => [] | t :: ws => t :: (if (t =? last)%nat then [] else upto last ws) end.

(** *** Write *)

(** The group that is written. *)
Definition updates_of (own : bool) (t : nat) st : WriteBatch := if own then default [] (batch_of t st) else tmp_batch_ st.

(** [MakeRoomForWrite] has returned [s]. *)
Definition lead (t : nat) (s : Status) st : WriteState E W * list Group :=
  match batch_of t st with
  | Some b =>
      if ok s then
        let last_sequence := vs_last_sequence_ (versions_ (db_ st)) in
        let '(result, last) := BuildBatchGroup t b st in
        let own := match result with None => true | Some _ => false end in
        let updates := SetSequence (default b result) (u64 (last_sequence + 1)) in
        let st :=
          if own then on_thread (fun wp => (mkWaiter (w_status (fst wp)) (Some updates) (w_sync (fst wp)) (w_done (fst wp)), snd wp)) t st
          else mkState (db_ st) (writers_ st) updates (threads_ st) in
        (set_phase (Logging own (u64 (last_sequence + Count updates)) last) t st, [])
      else (leave t t s st, [mkGroup [t] (sync_of t st) None s])
  | None => (leave t t s st, [mkGroup [t] (sync_of t st) None s])
  end.

Definition room (t : nat) (force allow_delay : bool) st : option (WriteState E W * list Group) :=
  '(r, db) ← MakeRoomForWrite 2 force allow_delay (db_ st);
  let st := set_db db st in
  Some match r with
       | RoomReturns s => lead t s st
       | RoomAgain force allow_delay => (set_phase (InRoom force allow_delay) t st, [])
       end.

(** The loop on the condition variable, with the mutex. *)
Definition look (t : nat) st : option (WriteState E W * list Group) :=
  '(w, _) ← threads_ st !! t;
  if w_done w then Some (set_phase (Returned (w_status w)) t st, [])
  else if bool_decide (head (writers_ st) <> Some t) then Some (set_phase Asleep t st, [])
  else
    let force := match w_batch w with None => true | Some _ => false end in
    room t force (negb force) st.

(** The call of [Write]. *)
Definition enter (t : nat) (sync : bool) (b : option WriteBatch) st : option (WriteState E W * list Group) :=
  let add p ws := mkState (db_ st) ws (tmp_batch_ st) (<[t := (mkWaiter OK b sync false, p)]> (threads_ st)) in
  if read_only opts then Some (add (Returned (NotSupported (str "read only mode, can not wirte") [])) (writers_ st), [])
  else look t (add Awake (writers_ st ++ [t])).

(** The record is added to the log, which is synced if the writer asks for it. *)
Definition log_step (t : nat) (own : bool) (last_sequence : Z) (last : nat) st : option (WriteState E W) :=
  log ← log_ (db_ st);
  '(s, log) ← AddRecord (Contents (updates_of own t st)) log;
  let '(s, sync_error, log) :=
    if ok s && sync_of t st then
      let '(s, f) := Sync (dest log) in (s, negb (ok s), mkWriter f (block_offset log) (type_crc log))
    else (s, false, log) in
  Some (set_phase (Inserting own last_sequence last s sync_error) t (set_db (set_log (Some log) (logfile_number_ (db_ st)) (db_ st)) st)).

Definition insert_step (t : nat) (own : bool) (last_sequence : Z) (last : nat) (s : Status) (sync_error : bool) st : option (WriteState E W) :=
  if ok s then
    let '(mem, s) := InsertInto (fun s ty k v m => m ≫= MemTable.Add new_array ucmp s ty k v) (updates_of own t st) (mem_ (db_ st)) in
    mem ← mem;
    Some (set_phase (Finishing own last_sequence last s sync_error) t (set_db (set_mems (Some mem) (imm_ (db_ st)) (db_ st)) st))
  else Some (set_phase (Finishing own last_sequence last s sync_error) t st).

Definition finish_step (t : nat) (own : bool) (last_sequence : Z) (last : nat) (s : Status) (sync_error : bool) st : WriteState E W * list Group :=
  let db := if sync_error then RecordBackgroundError s (db_ st) else db_ st in
  let g := mkGroup (upto last (writers_ st)) (sync_of t st) (Some (updates_of own t st)) s in
  let tmp := if own then tmp_batch_ st else Clear in
  let db := set_vset (VersionSet_SetLastSequence last_sequence (versions_ db)) db in
  (leave t last s (mkState db (writers_ st) tmp (threads_ st)), [g]).
End Queue.

(** *** Steps *)

Section Steps.
Context {E W R : Type} `{!EnvFiles E W R} `{!WritableFile W}.
Context (new_array : list (Z * Z) -> Z -> Z) (ucmp : Comparator) (opts : DBOptions).
Context (others : DBImpl E W -> DBImpl E W -> Prop) (calls : nat -> bool * option WriteBatch).
Implicit Types st : WriteState E W.

Definition phase_of (t : nat) st : option Phase := snd <$> threads_ st !! t.

(** A step of a thread that is in [Write]; the groups that leave the queue with it. *)
Inductive move : WriteState E W -> list Group -> WriteState E W -> Prop :=
| move_look t st st' gs : phase_of t st = Some Awake -> look (R := R) new_array opts t st = Some (st', gs) -> move st gs st'
| move_room t force allow_delay st st' gs : phase_of t st = Some (InRoom force allow_delay) ->
    room (R := R) new_array opts t force allow_delay st = Some (st', gs) -> move st gs st'
| move_log t own ls last st st' : phase_of t st = Some (Logging own ls last) -> log_step t own ls last st = Some st' -> move st [] st'
| move_insert t own ls last s se st st' : phase_of t st = Some (Inserting own ls last s se) -> insert_step new_array ucmp t own ls last s se st = Some st' -> move st [] st'
| move_finish t own ls last s se st st' gs : phase_of t st = Some (Finishing own ls last s se) -> finish_step t own ls last s se st = (st', gs) -> move st gs st'.

(** Or a thread calls [Write], or wakes up by itself, or another one changes the
    database.  With the thread that enters the queue. *)
Inductive step : WriteState E W -> list nat -> list Group -> WriteState E W -> Prop :=
| step_move st gs st' : move st gs st' -> step st [] gs st'
| step_enter t st st' gs : threads_ st !! t = None -> enter (R := R) new_array opts t (fst (calls t)) (snd (calls t)) st = Some (st', gs) ->
    step st (if read_only opts then [] else [t]) gs st'
| step_wake t st : phase_of t st = Some Asleep -> step st [] [] (set_phase Awake t st)
| step_other db st : others (db_ st) db -> step st [] [] (set_db db st).

(** From the states [start], with the threads that have entered the queue and the groups
    that have left it. *)
Inductive reach (start : WriteState E W -> Prop) : list nat -> list Group -> WriteState E W -> Prop :=
| reach_start st : start st -> reach start [] [] st
| reach_step arr gs st a g st' : reach start arr gs st -> step st a g st' -> reach start (arr ++ a) (gs ++ g) st'.
End Steps.

(** What other threads may do to the database: the memtable, its log and the last
    sequence number belong to the writers; [imm_] may go, and an error stays. *)
Definition others_may {E W} (db db' : DBImpl E W) : Prop :=
  mem_ db' = mem_ db /\ log_ db' = log_ db /\ vs_last_sequence_ (versions_ db') = vs_last_sequence_ (versions_ db) /\
  (imm_ db' = imm_ db \/ imm_ db' = None) /\ (bg_error_ db' = bg_error_ db \/ ok (bg_error_ db) = true).

(** *** The queue *)

Section Threads.
Context {E W : Type}.
Implicit Types st : WriteState E W.

Lemma upto_prefix last ws : exists rest, ws = upto last ws ++ rest /\ (last ∈ ws -> last ∈ upto last ws).
Proof.
  induction ws as [|t ws IH]; [by exists []|]. cbn [upto]. destruct (Nat.eqb_spec t last) as [->|Hne].
  - exists ws. split; [done|]. intros _. constructor.
  - destruct IH as (rest & E1 & E2). exists rest. cbn [app]. split; [by f_equal|]. intros [Hc|Hin]%elem_of_cons; [congruence|]. constructor. by apply E2.
Qed.

Lemma List_last_cons {A} (x d : A) l : List.last (x :: l) d = List.last l x.
Proof. revert x d. induction l as [|y l IH]; intros x d; [done|]. change (List.last (x :: y :: l) d) with (List.last (y :: l) d). by rewrite !IH. Qed.

Lemma List_last_in {A} (x : A) l : List.last l x ∈ x :: l.
Proof. revert x. induction l as [|y l IH]; intros x; [constructor|]. rewrite List_last_cons. constructor. apply IH. Qed.

Lemma upto_last t ms rest : NoDup (t :: ms ++ rest) -> upto (List.last ms t) (t :: ms ++ rest) = t :: ms.
Proof.
  revert t. induction ms as [|x ms IH]; intros t Hnd; cbn [upto]; [by cbn; rewrite Nat.eqb_refl|]. rewrite List_last_cons.
  apply NoDup_cons in Hnd as [Ht Hnd]. destruct (Nat.eqb_spec t (List.last ms x)) as [Et|_]; [|cbn [app]; f_equal; by apply IH].
  exfalso. apply Ht. rewrite Et. pose proof (List_last_in x ms). cbn [app]. set_solver.
Qed.

Lemma if_decide_ext {A} (P Q : Prop) `{!Decision P, !Decision Q} (a b : A) : (P <-> Q) -> (if bool_decide P then a else b) = (if bool_decide Q then a else b).
Proof. intros H. by rewrite (bool_decide_ext P Q H). Qed.

(** What is behind [last]. *)
Definition behind (last : nat) (ws : list nat) : list nat := drop (length (upto last ws)) ws.

Lemma upto_behind last ws : ws = upto last ws ++ behind last ws.
Proof. unfold behind. destruct (upto_prefix last ws) as (rest & E1 & _). revert E1. generalize (upto last ws). intros l ->. by rewrite drop_app_length. Qed.

Lemma pop_writers_spec t last s ws : NoDup ws -> forall threads, exists threads', pop_writers t last s ws threads = (behind last ws, threads') /\
  forall x, threads' !! x = if bool_decide (x ∈ upto last ws /\ x <> t) then complete s <$> threads !! x else threads !! x.
Proof.
  unfold behind. induction 1 as [|r ws Hr Hnd IH]; intros threads.
  - exists threads. split; [done|]. intros x. rewrite bool_decide_eq_false_2; [done|]. intros [Hx _]. by apply elem_of_nil in Hx.
  - cbn [pop_writers upto]. set (th1 := if (r =? t)%nat then threads else alter (complete s) r threads).
    assert (H1 : forall x, th1 !! x = if bool_decide (x = r /\ x <> t) then complete s <$> threads !! x else threads !! x).
    { intros x. unfold th1. destruct (Nat.eqb_spec r t) as [->|Hrt].
      - rewrite bool_decide_eq_false_2; [done|]. intros [-> Hc]. done.
      - destruct (decide (x = r)) as [->|Hx]; [rewrite lookup_alter_eq, bool_decide_eq_true_2 by done; done|].
        rewrite lookup_alter_ne, bool_decide_eq_false_2 by tauto || done; done. }
    destruct (Nat.eqb_spec r last) as [->|Hl].
    + exists th1. split; [done|]. intros x. rewrite H1. cbn [upto]. rewrite (bool_decide_ext (x ∈ [last] /\ x <> t) (x = last /\ x <> t)); [done|]. by rewrite list_elem_of_singleton.
    + destruct (IH th1) as (th' & E1 & E2). exists th'. split; [exact E1|]. intros x. rewrite E2, !H1. destruct (decide (x = r)) as [->|Hx].
      * rewrite (bool_decide_eq_false_2 (r ∈ upto last ws /\ _)); [apply if_decide_ext; set_solver|].
        intros [Hc _]. destruct (upto_prefix last ws) as (rest & Ews & _). apply Hr. rewrite Ews. set_solver.
      * rewrite (bool_decide_eq_false_2 (x = r /\ _)) by tauto. apply if_decide_ext. set_solver.
Qed.

Lemma signal_signal wp : signal (signal wp) = signal wp.
Proof. by destruct wp as [w []]. Qed.

(** A thread that leaves the queue with the one at its front [t], or that stays. *)
Definition left_thread (t last : nat) (s : Status) (ws : list nat) (x : nat) (wp : Waiter * Phase) : Waiter * Phase :=
  if decide (x = t) then (fst wp, Returned s)
  else if decide (x ∈ upto last ws) then complete s wp
  else if decide (head (behind last ws) = Some x) then signal wp else wp.

Lemma leave_spec t last s st : NoDup (writers_ st) -> exists threads', leave t last s st = mkState (db_ st) (behind last (writers_ st)) (tmp_batch_ st) threads' /\
  forall x, threads' !! x = left_thread t last s (writers_ st) x <$> threads_ st !! x.
Proof.
  intros Hnd. unfold leave. destruct (pop_writers_spec t last s _ Hnd (threads_ st)) as (th & -> & Hth).
  set (th2 := match behind last (writers_ st) with next :: _ => alter signal next th | [] => th end).
  assert (H2 : forall x, th2 !! x = if decide (head (behind last (writers_ st)) = Some x) then signal <$> th !! x else th !! x).
  { intros x. unfold th2. destruct (behind last (writers_ st)) as [|n l]; [done|]. cbn [head]. destruct (decide (n = x)) as [->|Hx].
    - rewrite lookup_alter_eq. by rewrite decide_True.
    - rewrite lookup_alter_ne by done. rewrite decide_False by congruence. done. }
  eexists. split; [reflexivity|]. cbn [threads_]. intros x. destruct (decide (x = t)) as [->|Hx].
  - rewrite lookup_alter_eq, H2, Hth, bool_decide_eq_false_2 by tauto.
    destruct (threads_ st !! t) as [wp|]; [|by destruct (decide (head _ = _))]. unfold left_thread. cbn. destruct (decide (t = t)); [|done]. by destruct (decide (head _ = _)).
  - rewrite lookup_alter_ne by done. rewrite H2, Hth. destruct (threads_ st !! x) as [wp|]; [|by repeat case_match]. unfold left_thread. cbn. destruct (decide (x = t)); [done|].
    destruct (decide (x ∈ upto last (writers_ st))) as [Hin|Hin].
    + rewrite bool_decide_eq_true_2 by done. destruct (decide _); [|done]. cbn. unfold complete. by rewrite signal_signal.
    + rewrite bool_decide_eq_false_2 by tauto. by destruct (decide (head _ = _)).
Qed.
End Threads.

(** *** Requests *)

Section Requests.
(** What the call of each thread asks for. *)
Context (request : nat -> bool * option (Z * list BatchOp)).

Definition ops_of (t : nat) : list BatchOp := match snd (request t) with Some (_, ops) => ops | None => [] end.
Definition group_ops (ts : list nat) : list BatchOp := concat (map ops_of ts).
Definition request_batch (t : nat) : option WriteBatch := (fun r => batch_rep (fst r) (snd r)) <$> snd (request t).

(** A batch that its operations can have built. *)
Definition request_ok (t : nat) : Prop :=
  Forall op_fits (ops_of t) /\ Forall (fun op => size_of (MemTable.op_key op) + 8 < 2 ^ 32) (ops_of t) /\
  forall b, request_batch t = Some b -> size_of b < 2 ^ 31.

Definition waits {E W} (st : WriteState E W) (t : nat) (wp : Waiter * Phase) : Prop :=
  threads_ st !! t = Some wp /\ w_done (fst wp) = false /\ w_sync (fst wp) = fst (request t) /\
  exists seq, w_batch (fst wp) = (fun r => batch_rep seq (snd r)) <$> snd (request t).

Lemma group_ops_app a b : group_ops (a ++ b) = group_ops a ++ group_ops b.
Proof. unfold group_ops. by rewrite map_app, concat_app. Qed.

Lemma size_batch_rep seq ops : size_of (batch_rep seq ops) = 12 + size_of (concat (map encode_op ops)).
Proof. unfold batch_rep. rewrite !size_of_app. unfold size_of at 1 2. len. Qed.

Lemma size_ops seq ops : size_of ops + 12 <= size_of (batch_rep seq ops).
Proof.
  rewrite size_batch_rep. assert (size_of ops <= size_of (concat (map encode_op ops))); [|lia]. induction ops as [|op ops IH]; [done|].
  cbn [map concat]. rewrite size_of_cons, size_of_app. assert (1 <= size_of (encode_op op)); [|lia]. destruct op; cbn [encode_op]; rewrite size_of_cons; match goal with |- context [1 + size_of ?l] => pose proof (size_of_nonneg l); lia end.
Qed.

Lemma request_size t seq b : request_ok t -> (fun r : Z * list BatchOp => batch_rep seq (snd r)) <$> snd (request t) = Some b ->
  size_of (ops_of t) + 12 <= size_of b < 2 ^ 31.
Proof.
  intros (_ & _ & Hr). unfold request_batch, ops_of in *. destruct (snd (request t)) as [[s ops]|]; [|done]. cbn in *. intros [= <-].
  specialize (Hr _ eq_refl). pose proof (size_ops seq ops). rewrite size_batch_rep in *. lia.
Qed.

Section GroupLoop.
Context {E W : Type} (st : WriteState E W) (Hok : forall t, request_ok t) (Htmp : tmp_batch_ st = Clear).

Lemma group_loop_spec sync max_size first sq fops : first = batch_rep sq fops -> max_size < 2 ^ 31 -> size_of fops < 2 ^ 31 ->
  forall ws ms last size result, (forall t, t ∈ ws -> exists wp, waits st t wp) -> 0 <= size < 2 ^ 31 -> size_of (group_ops ms) <= size ->
  match result with None => group_ops ms = fops | Some r => r = batch_rep 0 (group_ops ms) end ->
  exists ms' rest result', ws = ms' ++ rest /\ group_loop first sync max_size size result last ws st = (result', List.last ms' last) /\
    Forall (fun t => fst (request t) = true -> sync = true) ms' /\ size_of (group_ops (ms ++ ms')) < 2 ^ 31 /\
    match result' with None => group_ops (ms ++ ms') = fops | Some r => r = batch_rep 0 (group_ops (ms ++ ms')) end.
Proof using Hok Htmp.
  intros Hfirst Hmax Hfops. induction ws as [|t ws IH]; intros ms last size result Hw Hs Hms Hr.
  { exists [], [], result. rewrite (app_nil_r ms). split; [done|]. split; [done|]. split; [constructor|]. split; [lia|done]. }
  assert (Hstop : exists ms' rest result', t :: ws = ms' ++ rest /\ (result, last) = (result', List.last ms' last) /\ Forall (fun t => fst (request t) = true -> sync = true) ms' /\
    size_of (group_ops (ms ++ ms')) < 2 ^ 31 /\ match result' with None => group_ops (ms ++ ms') = fops | Some r => r = batch_rep 0 (group_ops (ms ++ ms')) end).
  { exists [], (t :: ws), result. rewrite (app_nil_r ms). split; [done|]. split; [done|]. split; [constructor|]. split; [lia|done]. }
  assert (Hgo : forall size' r', 0 <= size' < 2 ^ 31 -> size_of (group_ops (ms ++ [t])) <= size' -> (fst (request t) = true -> sync = true) ->
    match r' with None => group_ops (ms ++ [t]) = fops | Some r => r = batch_rep 0 (group_ops (ms ++ [t])) end ->
    exists ms' rest result', t :: ws = ms' ++ rest /\ group_loop first sync max_size size' r' t ws st = (result', List.last ms' last) /\
    Forall (fun t => fst (request t) = true -> sync = true) ms' /\ size_of (group_ops (ms ++ ms')) < 2 ^ 31 /\
    match result' with None => group_ops (ms ++ ms') = fops | Some r => r = batch_rep 0 (group_ops (ms ++ ms')) end).
  { intros size' r' H1 H2 H3 H4. destruct (IH (ms ++ [t]) t size' r') as (ms' & rest & res & -> & -> & F1 & F2 & F3); try done.
    { intros x Hx. apply Hw. by constructor. }
    exists (t :: ms'), rest, res. rewrite <- app_assoc in F2, F3. cbn [app] in F2, F3. split; [done|]. split; [by rewrite List_last_cons|]. split; [by constructor|]. done. }
  destruct (Hw t ltac:(constructor)) as ([w p] & Ht & _ & Hsync & seq & Hbatch). cbn [fst] in *. cbn [group_loop]. unfold sync_of, batch_of. rewrite Ht. cbn [mbind option_bind fst]. rewrite Hsync, Hbatch.
  destruct (fst (request t) && negb sync) eqn:Esync; [exact Hstop|].
  assert (Hsy : fst (request t) = true -> sync = true) by (intros Hq; rewrite Hq in Esync; by destruct sync).
  pose proof (request_size t seq) as Hsz. unfold ops_of in *. destruct (snd (request t)) as [[s ops]|] eqn:Ereq; cbn [fmap option_fmap option_map snd] in *.
  - specialize (Hsz _ (Hok t) eq_refl). unfold ByteSize. pose proof (size_of_nonneg ops). rewrite (usize_small (size + _)) by lia.
    destruct (Z.gtb_spec (size + size_of (batch_rep seq ops)) max_size); [exact Hstop|].
    assert (Eops : group_ops (ms ++ [t]) = group_ops ms ++ ops) by (rewrite group_ops_app; unfold group_ops at 2; cbn; unfold ops_of; by rewrite Ereq, app_nil_r).
    apply Hgo; [lia|rewrite Eops, size_of_app; lia|done|]. rewrite Eops. destruct result as [r|].
    + subst r. apply Append_rep; lia.
    + rewrite Htmp, Hfirst, Clear_rep, Append_rep, Hr by done. apply Append_rep; [done|lia].
  - assert (Eops : group_ops (ms ++ [t]) = group_ops ms) by (rewrite group_ops_app; unfold group_ops at 2; cbn; unfold ops_of; by rewrite Ereq, !app_nil_r).
    apply Hgo; try done; by rewrite Eops.
Qed.
End GroupLoop.

(** *** The invariant of the queue *)

Definition g_ops (g : Group) : list BatchOp := match g_batch g with Some _ => group_ops (g_members g) | None => [] end.
Definition total (gs : list Group) : Z := foldr (fun g n => size_of (g_ops g) + n) 0 gs.

(** A group after [seq] sequence numbers: a batch of the operations of its members, or,
    for a writer without a batch or one that found an error, none. *)
Definition group_ok (seq : Z) (g : Group) : Prop :=
  g_members g <> [] /\ Forall (fun t => fst (request t) = true -> g_sync g = true) (g_members g) /\
  match g_batch g with
  | Some b => b = batch_rep (seq + 1) (group_ops (g_members g))
  | None => ok (g_status g) = true -> Forall (fun t => snd (request t) = None) (g_members g)
  end.

Fixpoint groups_ok (seq : Z) (gs : list Group) : Prop :=
  match gs with [] => True | g :: gs => group_ok seq g /\ groups_ok (seq + size_of (g_ops g)) gs end.

Lemma total_cons g gs : total (g :: gs) = size_of (g_ops g) + total gs.
Proof. done. Qed.

Lemma total_app a b : total (a ++ b) = total a + total b.
Proof. induction a as [|g a IH]; [done|]. cbn [app]. rewrite !total_cons, IH. lia. Qed.

Lemma groups_ok_app seq a b : groups_ok seq (a ++ b) <-> groups_ok seq a /\ groups_ok (seq + total a) b.
Proof.
  revert seq. induction a as [|g a IH]; intros seq; cbn [app groups_ok]; [cbn; rewrite Z.add_0_r; tauto|]. rewrite IH, total_cons, Z.add_assoc. tauto.
Qed.

Lemma total_bound gs : 0 <= total gs <= size_of (group_ops (concat (map g_members gs))).
Proof.
  induction gs as [|g gs IH]; [done|]. cbn [map concat]. rewrite group_ops_app, size_of_app, total_cons. pose proof (size_of_nonneg (g_ops g)).
  assert (size_of (g_ops g) <= size_of (group_ops (g_members g))); [|lia]. unfold g_ops. destruct (g_batch g); [done|]. apply size_of_nonneg.
Qed.

Section Invariant.
Context {E W : Type}.
Implicit Types st : WriteState E W.

Definition leader st : option (nat * Phase) := t ← head (writers_ st); p ← phase_of t st; Some (t, p).
Definition group_phase (p : Phase) : option (bool * Z * nat) :=
  match p with Logging own ls last | Inserting own ls last _ _ | Finishing own ls last _ _ => Some (own, ls, last) | _ => None end.
Definition last_seq st : Z := vs_last_sequence_ (versions_ (db_ st)).

(** The group that [t] writes. *)
Definition ready st (t : nat) (own : bool) (ls : Z) (last : nat) : Prop :=
  let ops := group_ops (upto last (writers_ st)) in
  last ∈ writers_ st /\ is_Some (snd (request t)) /\ updates_of own t st = batch_rep (last_seq st + 1) ops /\ ls = last_seq st + size_of ops /\ size_of ops < 2 ^ 31 /\
  Forall (fun x => fst (request x) = true -> fst (request t) = true) (upto last (writers_ st)) /\ (own = true -> tmp_batch_ st = Clear).

Definition leading_ok st : Prop :=
  match leader st ≫= fun tp => '(own, ls, last) ← group_phase (snd tp); Some (fst tp, own, ls, last) with
  | Some (t, own, ls, last) => ready st t own ls last
  | None => tmp_batch_ st = Clear
  end.

(** A waiting thread is asleep only behind the first one; only the first one works. *)
Definition place st (t : nat) (p : Phase) : Prop :=
  match p with Returned _ => False | Awake => True | Asleep => head (writers_ st) <> Some t | _ => head (writers_ st) = Some t end.

Record queue_inv (seq0 : Z) (arr : list nat) (gs : list Group) st : Prop := {
  qi_order : arr = concat (map g_members gs) ++ writers_ st;
  qi_nodup : NoDup arr;
  qi_waiting : forall t, t ∈ writers_ st -> exists w p, waits st t (w, p) /\ place st t p;
  qi_left : forall g t, g ∈ gs -> t ∈ g_members g -> exists w p, threads_ st !! t = Some (w, p) /\ (p = Returned (g_status g) \/ (p = Awake /\ w_done w = true /\ w_status w = g_status g));
  qi_known : forall t w p, threads_ st !! t = Some (w, p) -> t ∈ arr;
  qi_leader : leading_ok st;
  qi_groups : groups_ok seq0 gs;
  qi_seq : last_seq st = seq0 + total gs
}.

Lemma queue_db seq0 arr gs st db : queue_inv seq0 arr gs st -> vs_last_sequence_ (versions_ db) = last_seq st -> queue_inv seq0 arr gs (set_db db st).
Proof.
  intros [] Hl. split; try done.
  - unfold leading_ok, ready, last_seq in *. cbn [set_db db_ leader writers_ threads_]. rewrite Hl. exact qi_leader0.
  - unfold last_seq in *. cbn. by rewrite Hl.
Qed.

Lemma leader_head st t p : head (writers_ st) = Some t -> phase_of t st = Some p -> leader st = Some (t, p).
Proof. unfold leader. intros -> H. cbn. by rewrite H. Qed.

Lemma qi_nodup_writers seq0 arr gs st : queue_inv seq0 arr gs st -> NoDup (writers_ st).
Proof. intros [? H]. subst. by apply NoDup_app in H as (_ & _ & ?). Qed.

Lemma on_thread_lookup f t st x : threads_ (on_thread f t st) !! x = if decide (x = t) then f <$> threads_ st !! x else threads_ st !! x.
Proof. cbn. destruct (decide (x = t)) as [->|]; [by rewrite lookup_alter_eq|by rewrite lookup_alter_ne]. Qed.

Lemma set_phase_lookup p t st x : threads_ (set_phase p t st) !! x = if decide (x = t) then (fun wp => (fst wp, p)) <$> threads_ st !! x else threads_ st !! x.
Proof. apply on_thread_lookup. Qed.

(** The record of a thread in the queue changes. *)
Lemma queue_update seq0 arr gs st st' t w p : queue_inv seq0 arr gs st -> t ∈ writers_ st -> writers_ st' = writers_ st -> last_seq st' = last_seq st ->
  (forall x, x <> t -> threads_ st' !! x = threads_ st !! x) -> waits st' t (w, p) -> place st' t p -> leading_ok st' -> queue_inv seq0 arr gs st'.
Proof.
  intros H Ht Hws Hls Hother Hw Hp Hlead. destruct H. split; try done.
  - by rewrite Hws.
  - rewrite Hws. intros x Hx. destruct (decide (x = t)) as [->|Hne]; [by exists w, p|]. destruct (qi_waiting0 x Hx) as (w' & q & H1 & H2). exists w', q. unfold waits, place in *. rewrite Hws, Hother by done. done.
  - intros g x Hg Hx. rewrite Hother; [by apply (qi_left0 g)|]. intros ->. subst arr. apply NoDup_app in qi_nodup0 as (_ & Hd & _). apply (Hd t); [|done].
    apply list_elem_of_In, in_concat. exists (g_members g). split; [apply in_map|]; by apply list_elem_of_In.
  - intros x w' q Hx. destruct (decide (x = t)) as [->|Hne]; [subst arr; set_solver|]. rewrite Hother in Hx by done. by eapply qi_known0.
  - by rewrite Hls.
Qed.

(** It changes its phase. *)
Lemma queue_phase seq0 arr gs st t p : queue_inv seq0 arr gs st -> t ∈ writers_ st -> place st t p -> leading_ok (set_phase p t st) -> queue_inv seq0 arr gs (set_phase p t st).
Proof.
  intros H Ht Hp Hlead. destruct (qi_waiting _ _ _ _ H t Ht) as (w & q & (H1 & H2) & _). apply (queue_update seq0 arr gs st _ t w p); try done.
  - intros x Hx. by rewrite set_phase_lookup, decide_False.
  - unfold waits. rewrite set_phase_lookup, decide_True, H1 by done. done.
Qed.

(** A thread that is not at the front of the queue. *)
Lemma not_leading seq0 arr gs st t x : queue_inv seq0 arr gs st -> head (writers_ st) = Some t -> x ∈ writers_ st -> x <> t ->
  exists w p, waits st x (w, p) /\ signal (w, p) = (w, Awake) /\ (p = Asleep \/ p = Awake).
Proof.
  intros H Ht Hx Hne. destruct (qi_waiting _ _ _ _ H x Hx) as (w & p & H1 & H2). exists w, p. split; [done|]. destruct p; cbn in H2; try (exfalso; congruence); auto.
Qed.

(** The group at the front leaves the queue. *)
Lemma queue_leave seq0 arr gs st t last s g db : queue_inv seq0 arr gs st -> head (writers_ st) = Some t -> last ∈ writers_ st ->
  g_members g = upto last (writers_ st) -> g_status g = s -> group_ok (last_seq st) g -> vs_last_sequence_ (versions_ db) = last_seq st + size_of (g_ops g) ->
  queue_inv seq0 arr (gs ++ [g]) (leave t last s (mkState db (writers_ st) Clear (threads_ st))).
Proof.
  intros H Ht Hlast Hm Hs Hg Hdb. pose proof (qi_nodup_writers _ _ _ _ H) as Hnd.
  destruct (leave_spec t last s (mkState db (writers_ st) Clear (threads_ st)) Hnd) as (th & -> & Hth). cbn [writers_ threads_ db_ tmp_batch_] in *.
  pose proof (upto_behind last (writers_ st)) as Hsplit. rewrite Hsplit in Hnd. apply NoDup_app in Hnd as (_ & Hdisj & Hnd).
  assert (Htin : t ∈ upto last (writers_ st)) by (destruct (writers_ st) as [|t' ws]; [done|]; injection Ht as ->; cbn [upto]; constructor).
  assert (Hold : forall x, x ∉ writers_ st -> th !! x = threads_ st !! x).
  { intros x Hx. rewrite Hth. destruct (threads_ st !! x) as [wp|]; [|done]. cbn. unfold left_thread. rewrite Hsplit in Hx. apply not_elem_of_app in Hx as [Hx1 Hx2].
    rewrite !decide_False; [done| |done|congruence]. intros Hh. apply Hx2. destruct (behind _ _); [done|]. injection Hh as ->. constructor. }
  assert (Hbehind : forall x, x ∈ behind last (writers_ st) -> exists w p, waits st x (w, p) /\ th !! x = Some (if decide (head (behind last (writers_ st)) = Some x) then (w, Awake) else (w, p)) /\ (p = Asleep \/ p = Awake)).
  { intros x Hx. destruct (not_leading _ _ _ _ t x H Ht) as (w & p & H1 & H2 & H3); [rewrite Hsplit; set_solver|intros ->; by apply (Hdisj t)|].
    exists w, p. split; [done|]. split; [|done]. rewrite Hth. destruct H1 as [-> _]. cbn. unfold left_thread. rewrite (decide_False (P := x = t)) by (intros ->; by apply (Hdisj t)).
    rewrite (decide_False (P := x ∈ upto _ _)) by (intros Hc; by apply (Hdisj x)). by rewrite H2. }
  pose proof H as []. split.
  - rewrite map_app, concat_app. cbn [map concat writers_]. by rewrite app_nil_r, Hm, <- app_assoc, <- Hsplit.
  - done.
  - intros x Hx. destruct (Hbehind x Hx) as (w & p & (H1 & H2) & H3 & H4). destruct (decide (head (behind last (writers_ st)) = Some x)) as [Hh|Hh].
    + by exists w, Awake.
    + exists w, p. split; [done|]. by destruct H4 as [-> | ->].
  - intros g' x [Hg'|Hg']%elem_of_app Hx; cbn [threads_].
    + destruct (qi_left0 g' x Hg' Hx) as (w & p & H1 & H2). exists w, p. split; [|done]. rewrite Hold; [done|]. subst arr. apply NoDup_app in qi_nodup0 as (_ & Hd & _). apply Hd.
      apply list_elem_of_In, in_concat. exists (g_members g'). split; [apply in_map|]; by apply list_elem_of_In.
    + apply list_elem_of_singleton in Hg' as ->. rewrite Hm in Hx. rewrite Hs. setoid_rewrite Hth. destruct (decide (x = t)) as [->|Hne].
      * destruct (qi_waiting0 t) as (w & p & (Hl & _) & _); [rewrite Hsplit; set_solver|]. exists w, (Returned s). rewrite Hl. cbn. unfold left_thread. rewrite decide_True by done. auto.
      * destruct (not_leading _ _ _ _ t x H Ht) as (w & p & (Hl & _) & _ & Hp); [rewrite Hsplit; set_solver|done|].
        exists (mkWaiter s (w_batch w) (w_sync w) true), Awake. rewrite Hl. cbn. unfold left_thread. rewrite (decide_False (P := x = t)), (decide_True (P := x ∈ _)) by done. split; [by destruct Hp as [-> | ->]|]. right. done.
  - intros x w p Hx. cbn [threads_] in Hx. destruct (decide (x ∈ writers_ st)) as [Hin|Hin]; [subst arr; set_solver|]. rewrite Hold in Hx by done. by eapply qi_known0.
  - unfold leading_ok, leader, phase_of. cbn [writers_ threads_]. destruct (head (behind last (writers_ st))) as [x|] eqn:Hh; [|done]. cbn [mbind option_bind].
    destruct (Hbehind x) as (w & p & _ & -> & _); [destruct (behind _ _); [done|]; injection Hh as ->; constructor|]. by rewrite decide_True.
  - rewrite groups_ok_app. split; [done|]. rewrite <- qi_seq0. done.
  - unfold last_seq in *. cbn [db_]. rewrite Hdb, qi_seq0, total_app, total_cons. cbn [total foldr]. lia.
Qed.
Lemma upto_app last ws ws' : last ∈ ws -> upto last (ws ++ ws') = upto last ws.
Proof.
  induction ws as [|x ws IH]; intros Hl; [by apply elem_of_nil in Hl|]. cbn [app upto]. f_equal. destruct (Nat.eqb_spec x last); [done|]. apply IH. apply elem_of_cons in Hl as [->|]; done.
Qed.

Lemma phase_lookup t st w p : threads_ st !! t = Some (w, p) -> phase_of t st = Some p.
Proof. unfold phase_of. by intros ->. Qed.

Lemma phase_inv t st p : phase_of t st = Some p -> exists w, threads_ st !! t = Some (w, p).
Proof. unfold phase_of. destruct (threads_ st !! t) as [[w q]|]; [|done]. cbn. intros [= ->]. by exists w. Qed.

(** A thread that has not left the queue, by its phase. *)
Lemma in_queue seq0 arr gs st t p : queue_inv seq0 arr gs st -> phase_of t st = Some p -> (forall s, p <> Returned s) ->
  t ∈ writers_ st \/ (p = Awake /\ exists w g, threads_ st !! t = Some (w, p) /\ w_done w = true /\ g ∈ gs /\ t ∈ g_members g /\ w_status w = g_status g).
Proof.
  intros H Hp Hr. apply phase_inv in Hp as (w & Hw). pose proof (qi_known _ _ _ _ H t w p Hw) as Hin.
  rewrite (qi_order _ _ _ _ H) in Hin. apply elem_of_app in Hin as [Hin|Hin]; [right|by left]. apply list_elem_of_In, in_concat in Hin as (ms & H1 & H2).
  apply in_map_iff in H1 as (g & <- & Hg). apply list_elem_of_In in Hg, H2. destruct (qi_left _ _ _ _ H g t Hg H2) as (w' & p' & Hw' & Hcase).
  rewrite Hw in Hw'. injection Hw' as <- <-. destruct Hcase as [->|(-> & Hd & Hs)]; [by destruct (Hr (g_status g))|]. split; [done|]. by exists w, g.
Qed.

Lemma working_head seq0 arr gs st t p : queue_inv seq0 arr gs st -> phase_of t st = Some p -> p <> Awake -> p <> Asleep -> (forall s, p <> Returned s) -> head (writers_ st) = Some t.
Proof.
  intros H Hp H1 H2 H3. destruct (in_queue _ _ _ _ t p H Hp H3) as [Hin|[-> _]]; [|done]. destruct (qi_waiting _ _ _ _ H t Hin) as (w & q & (Hw & _) & Hpl).
  apply phase_lookup in Hw. rewrite Hp in Hw. injection Hw as <-. by destruct p.
Qed.

(** The front writer that is not writing a group finds the temporary batch empty. *)
Lemma idle_tmp seq0 arr gs st t p : queue_inv seq0 arr gs st -> head (writers_ st) = Some t -> phase_of t st = Some p -> group_phase p = None -> tmp_batch_ st = Clear.
Proof. intros H Ht Hp Hg. pose proof (qi_leader _ _ _ _ H) as Hl. unfold leading_ok in Hl. rewrite (leader_head st t p Ht Hp) in Hl. cbn in Hl. by rewrite Hg in Hl. Qed.

Lemma leading_group st t p own ls last : head (writers_ st) = Some t -> phase_of t st = Some p -> group_phase p = Some (own, ls, last) -> leading_ok st <-> ready st t own ls last.
Proof. intros Ht Hp Hg. unfold leading_ok. rewrite (leader_head st t p Ht Hp). cbn. by rewrite Hg. Qed.

Lemma leading_idle st t p : head (writers_ st) = Some t -> phase_of t st = Some p -> group_phase p = None -> leading_ok st <-> tmp_batch_ st = Clear.
Proof. intros Ht Hp Hg. unfold leading_ok. rewrite (leader_head st t p Ht Hp). cbn. by rewrite Hg. Qed.

(** A phase of another thread than the first one does not matter. *)
Lemma leader_other st t p : head (writers_ st) <> Some t -> leader (set_phase p t st) = leader st.
Proof.
  intros Ht. unfold leader. cbn [set_phase on_thread writers_]. destruct (head (writers_ st)) as [x|]; [|done]. cbn [mbind option_bind]. unfold phase_of. fold (set_phase p t st).
  rewrite set_phase_lookup, decide_False by congruence. done.
Qed.

Lemma leading_other st t p : head (writers_ st) <> Some t -> leading_ok st -> leading_ok (set_phase p t st).
Proof.
  intros Ht Hl. unfold leading_ok in *. rewrite (leader_other st t p Ht). destruct (leader st ≫= _) as [[[[x own] ls] la]|] eqn:Ex; [|done].
  assert (Hx : x <> t). { unfold leader in Ex. destruct (head (writers_ st)) as [y|]; [|done]. cbn in Ex. destruct (phase_of y st); [|done]. cbn in Ex. destruct (group_phase _) as [[[? ?] ?]|]; [|done]. cbn in Ex. congruence. }
  destruct Hl as (H1 & H2 & H3 & H4). split; [done|]. split; [done|]. split; [|done]. unfold updates_of, batch_of. rewrite set_phase_lookup, decide_False by done. exact H3.
Qed.
End Invariant.

(** *** Groups and room *)

Section Write.
Context {E W R : Type} `{!EnvFiles E W R} `{!WritableFile W}.
Context (new_array : list (Z * Z) -> Z -> Z) (ucmp : Comparator) (opts : DBOptions) (Hok : forall t, request_ok t).
Implicit Types st : WriteState E W.
Implicit Types db : DBImpl E W.

(** The first writer collects a group. *)
Lemma build_group seq0 arr gs st t b : queue_inv seq0 arr gs st -> head (writers_ st) = Some t -> tmp_batch_ st = Clear -> batch_of t st = Some b ->
  exists result last seq, BuildBatchGroup t b st = (result, last) /\ let ops := group_ops (upto last (writers_ st)) in
    last ∈ writers_ st /\ is_Some (snd (request t)) /\ default b result = batch_rep seq ops /\ size_of ops < 2 ^ 31 /\
    Forall (fun x => fst (request x) = true -> fst (request t) = true) (upto last (writers_ st)).
Proof using Hok.
  intros H Ht Htmp Hb. destruct (writers_ st) as [|t' ws] eqn:Ews; [done|]. injection Ht as ->.
  destruct (qi_waiting _ _ _ _ H t) as (w & p & (Hw & _ & Hsync & seq & Hbatch) & _); [rewrite Ews; constructor|]. cbn [fst] in *.
  unfold batch_of in Hb. rewrite Hw in Hb. cbn in Hb. rewrite Hb in Hbatch. pose proof (request_size t seq b (Hok t) ltac:(by symmetry)) as Hsz.
  destruct (snd (request t)) as [[s ops]|] eqn:Ereq; [|done]. cbn in Hbatch. injection Hbatch as Hbr.
  unfold BuildBatchGroup. rewrite Ews. cbn [tail]. unfold sync_of. rewrite Hw, Hsync. unfold ByteSize.
  set (max := if _ <=? _ then _ else _). assert (Hmax : max < 2 ^ 31).
  { subst max. pose proof (size_of_nonneg (ops_of t)). destruct (Z.leb_spec (size_of b) (Z.shiftl 128 10)); [|done]. change (Z.shiftl 128 10) with 131072 in *. rewrite usize_small; lia. }
  assert (Eops : ops_of t = ops) by (unfold ops_of; by rewrite Ereq). rewrite Eops in Hsz. pose proof (size_of_nonneg ops).
  assert (Eg : group_ops [t] = ops) by (unfold group_ops; cbn; by rewrite app_nil_r).
  destruct (group_loop_spec st Hok Htmp (fst (request t)) max b seq ops Hbr Hmax ltac:(lia) ws [t] t (size_of b) None) as (ms & rest & result & Hws & -> & F1 & F2 & F3).
  { intros x Hx. destruct (qi_waiting _ _ _ _ H x) as (wx & px & Hwx & _); [rewrite Ews; by constructor|]. by exists (wx, px). }
  { lia. }
  { rewrite Eg. lia. }
  { exact Eg. }
  pose proof (qi_nodup_writers _ _ _ _ H) as Hnd. rewrite Ews, Hws in Hnd.
  exists result, (List.last ms t), (match result with None => seq | Some _ => 0 end). split; [done|]. cbv zeta. rewrite Hws, (upto_last t ms rest Hnd). split; [|split; [by eexists|split; [|split; [exact F2|]]]].
  - pose proof (List_last_in t ms). set_solver.
  - destruct result as [r|]; cbn [default]; [exact F3|]. rewrite Hbr. by rewrite <- F3.
  - constructor; [done|exact F1].
Qed.

(** What [MakeRoomForWrite] does to the database: nothing that matters here, or the
    memtable and the log are new, which takes that there was no error. *)
Definition switched db db' : Prop :=
  ok (bg_error_ db) = true /\ imm_ db = None /\ is_Some (mem_ db) /\ imm_ db' = mem_ db /\ mem_ db' = Some (MemTable.Ref (MemTable_make new_array)) /\
  exists f, log_ db' = Some (Writer_make f) /\ written f = [].
Definition made_room db db' : Prop :=
  vs_last_sequence_ (versions_ db') = vs_last_sequence_ (versions_ db) /\ bg_error_ db' = bg_error_ db /\
  ((mem_ db' = mem_ db /\ imm_ db' = imm_ db /\ log_ db' = log_ db) \/ switched db db').

Lemma MaybeSchedule_fields db : exists b n, MaybeScheduleCompaction db = set_scheduled b n db.
Proof.
  unfold MaybeScheduleCompaction. assert (H : exists b n, db = set_scheduled b n db) by (exists (bg_compaction_scheduled_ db), (queued_ db); by destruct db).
  repeat case_match; [exact H..|by exists true, (S (queued_ db))].
Qed.

Lemma MakeRoom_spec `{!EnvFilesLaws E W R} fuel : read_only opts = false -> forall force allow_delay db r db', MakeRoomForWrite (R := R) new_array opts fuel force allow_delay db = Some (r, db') ->
  made_room db db' /\ forall s, r = RoomReturns s -> ok s = true -> ok (bg_error_ db) = true.
Proof.
  intros Hro. induction fuel as [|fuel IH]; intros force allow_delay db r db'; [done|]. cbn [MakeRoomForWrite].
  assert (Hsame : made_room db db) by (split; [done|]; split; [done|]; by left).
  destruct (ok (bg_error_ db)) eqn:Ebg; cbn [negb].
  2:{ intros [= <- <-]. split; [done|]. intros s [= <-] Hs. congruence. }
  destruct (allow_delay && _); [intros [= <- <-]; by split|].
  destruct (mem_ db) as [mem|] eqn:Emem; [cbn [mbind option_bind]|done].
  destruct (negb force && _); [intros [= <- <-]; by split|].
  destruct (imm_ db) as [im|] eqn:Eimm; [intros [= <- <-]; by split|].
  destruct (kL0_StopWritesTrigger <=? _); [intros [= <- <-]; by split|].
  cbn [NewFileNumber]. rewrite Hro. destruct (NewWritableFile _ (env_ db)) as [[s|f] env] eqn:Ef.
  - intros [= <- <-]. split; [|done]. unfold made_room, ReuseFileNumber. cbn. split; [by case_match|]. auto.
  - intros Hm. match type of Hm with context [MaybeScheduleCompaction ?d] => destruct (MaybeSchedule_fields d) as (b & n & Es) end. rewrite Es in Hm.
    apply IH in Hm as [(M1 & M2 & M3) Hr]. clear Es. cbn in M1, M2, M3, Hr. split; [|done].
    split; [exact M1|]. split; [exact M2|]. right. destruct M3 as [(A1 & A2 & A3)|(_ & Hc & _)]; [|done].
    split; [done|]. split; [done|]. rewrite Emem. split; [by eexists|]. split; [done|]. split; [done|]. exists f. split; [done|]. by apply NewWritableFile_empty in Ef.
Qed.

(** Two passes are enough: the memtable is switched at most once. *)
Lemma MakeRoom_returns force allow_delay db : is_Some (mem_ db) -> exists r db', MakeRoomForWrite (R := R) new_array opts 2 force allow_delay db = Some (r, db').
Proof.
  assert (Hnext : forall d, is_Some (mem_ d) -> is_Some (imm_ d) -> exists r db', MakeRoomForWrite (R := R) new_array opts 1 false allow_delay d = Some (r, db')).
  { intros d [m Em] [im Ei]. cbn [MakeRoomForWrite]. destruct (negb (ok _)); [by eauto|]. destruct (allow_delay && _); [by eauto|]. rewrite Em, Ei. cbn [mbind option_bind]. destruct (_ && _); by eauto. }
  revert Hnext. generalize 1%nat. intros n Hnext [mem Emem]. cbn [MakeRoomForWrite]. destruct (negb (ok _)); [by eauto|]. destruct (allow_delay && _); [by eauto|].
  rewrite Emem. cbn [mbind option_bind]. destruct (negb force && _); [by eauto|]. destruct (imm_ db) as [im|]; [by eauto|]. destruct (kL0_StopWritesTrigger <=? _); [by eauto|].
  cbn [NewFileNumber]. assert (Hsched : forall d, mem_ (MaybeScheduleCompaction d) = mem_ d /\ imm_ (MaybeScheduleCompaction d) = imm_ d) by (intros d; destruct (MaybeSchedule_fields d) as (b & k & ->); done).
  destruct (read_only opts); [|destruct (NewWritableFile _ _) as [[s|f] env]; [by eauto|]]; apply Hnext;
    match goal with |- is_Some (_ (MaybeScheduleCompaction ?d)) => destruct (Hsched d) as [E1 E2] end; rewrite ?E1, ?E2; by eexists.
Qed.

(** *** Every step keeps the invariant *)

Context (seq0 : Z) (Hseq0 : 0 <= seq0) (Hro : read_only opts = false) `{!EnvFilesLaws E W R}.

(** The operations of the calls so far have sequence numbers. *)
Definition bounded (arr : list nat) : Prop := seq0 + size_of (group_ops arr) < kMaxSequenceNumber.

Lemma seq_room arr gs st last : queue_inv seq0 arr gs st -> bounded arr -> 0 <= last_seq st /\ last_seq st + size_of (group_ops (upto last (writers_ st))) < kMaxSequenceNumber.
Proof using Hseq0.
  intros H Hb. unfold bounded in Hb. rewrite (qi_order _ _ _ _ H), group_ops_app, size_of_app in Hb. rewrite (upto_behind last (writers_ st)), group_ops_app, size_of_app in Hb.
  rewrite (qi_seq _ _ _ _ H). pose proof (total_bound gs). pose proof (size_of_nonneg (group_ops (behind last (writers_ st)))). lia.
Qed.

Lemma lead_inv arr gs st t s p st' gs' : queue_inv seq0 arr gs st -> bounded arr -> head (writers_ st) = Some t -> phase_of t st = Some p -> group_phase p = None ->
  lead t s st = (st', gs') -> queue_inv seq0 arr (gs ++ gs') st'.
Proof using Hok Hseq0.
  intros H Hb Ht Hp Hg. pose proof (idle_tmp _ _ _ _ _ _ H Ht Hp Hg) as Htmp. assert (Hin : t ∈ writers_ st) by (destruct (writers_ st); [done|]; injection Ht as ->; constructor).
  destruct (qi_waiting _ _ _ _ H t Hin) as (w & q & (Hw & Hd & Hsy & seq & Hba) & _). cbn [fst] in *.
  assert (Hleave : (batch_of t st = None \/ ok s = false) -> queue_inv seq0 arr (gs ++ [mkGroup [t] (sync_of t st) None s]) (leave t t s st)).
  { intros Hc. replace st with (mkState (db_ st) (writers_ st) Clear (threads_ st)) at 2 by (destruct st; cbn in *; by subst).
    apply queue_leave; try done.
    - destruct (writers_ st) as [|x ws]; [done|]. injection Ht as ->. cbn. by rewrite Nat.eqb_refl.
    - split; [done|]. cbn. unfold sync_of. rewrite Hw, Hsy. split; [by repeat constructor|]. intros Hs. destruct Hc as [Hc|Hc]; [|congruence].
      unfold batch_of in Hc. rewrite Hw in Hc. cbn in Hc. rewrite Hba in Hc. constructor; [|constructor]. by destruct (snd (request t)).
    - unfold last_seq. cbn [g_ops g_batch]. change (size_of (@nil BatchOp)) with 0. lia. }
  unfold lead. change (vs_last_sequence_ (versions_ (db_ st))) with (last_seq st). destruct (batch_of t st) as [b|] eqn:Eb; [|intros [= <- <-]; apply Hleave; by left]. destruct (ok s) eqn:Es; [|intros [= <- <-]; apply Hleave; by right].
  destruct (build_group _ _ _ _ _ _ H Ht Htmp Eb) as (result & last & bseq & -> & B1 & B2 & B3 & B4 & B5). rewrite B3, SetSequence_rep. rewrite Count_rep by done.
  destruct (seq_room arr gs st last H Hb) as [R1 R2]. unfold kMaxSequenceNumber in R2. change (Z.shiftl 1 56 - 1) with (2 ^ 56 - 1) in R2.
  pose proof (size_of_nonneg (group_ops (upto last (writers_ st)))). rewrite (u64_small (last_seq st + 1)), (u64_small (last_seq st + size_of _)) by lia.
  assert (Hbq : b = batch_rep seq (ops_of t) /\ (fun r : Z * list BatchOp => batch_rep (last_seq st + 1) (snd r)) <$> snd (request t) = Some (batch_rep (last_seq st + 1) (ops_of t))).
  { unfold batch_of in Eb. rewrite Hw in Eb. cbn in Eb. rewrite Eb in Hba. unfold ops_of. destruct (snd (request t)) as [[? ?]|]; [|done]. cbn in *. by injection Hba as ->. }
  destruct Hbq as [Hbq Hreq].
  intros [= <- <-]. rewrite app_nil_r. destruct result as [r|]; cbn [default] in B3.
  - set (st1 := mkState _ _ _ _). apply (queue_update seq0 arr gs st _ t w (Logging false (last_seq st + size_of (group_ops (upto last (writers_ st)))) last)); try done.
    + intros x Hx. by rewrite set_phase_lookup, decide_False.
    + unfold waits. rewrite set_phase_lookup, decide_True by done. cbn [st1 threads_]. rewrite Hw. cbn. split; [done|]. split; [done|]. split; [done|]. by exists seq.
    + eapply leading_group; [exact Ht|unfold phase_of; rewrite set_phase_lookup, decide_True by done; cbn [st1 threads_]; by rewrite Hw|done|]. done.
  - assert (Hops : batch_rep (last_seq st + 1) (group_ops (upto last (writers_ st))) = batch_rep (last_seq st + 1) (ops_of t)).
    { rewrite <- (SetSequence_rep bseq (group_ops (upto last (writers_ st)))), <- B3, Hbq. by rewrite SetSequence_rep. }
    set (st1 := on_thread _ t st). assert (Hst1 : threads_ st1 !! t = Some (mkWaiter (w_status w) (Some (batch_rep (last_seq st + 1) (group_ops (upto last (writers_ st))))) (w_sync w) (w_done w), q)).
    { subst st1. rewrite on_thread_lookup, decide_True, Hw by done. done. }
    eapply (queue_update seq0 arr gs st _ t _ (Logging true (last_seq st + size_of (group_ops (upto last (writers_ st)))) last)); try done.
    + intros x Hx. rewrite set_phase_lookup, decide_False by done. subst st1. by rewrite on_thread_lookup, decide_False.
    + unfold waits. rewrite set_phase_lookup, decide_True, Hst1 by done. cbn. split; [reflexivity|]. cbn. split; [done|]. split; [done|]. exists (last_seq st + 1). by rewrite Hreq, Hops.
    + eapply leading_group; [exact Ht|unfold phase_of; rewrite set_phase_lookup, decide_True, Hst1 by done; done|done|].
      split; [done|]. split; [done|]. split; [|done]. unfold updates_of, batch_of. rewrite set_phase_lookup, decide_True, Hst1 by done. done.
Qed.

Lemma head_in (ws : list nat) t : head ws = Some t -> t ∈ ws.
Proof. destruct ws; [done|]. intros [= ->]. constructor. Qed.

Lemma room_inv arr gs st t force allow p st' gs' : queue_inv seq0 arr gs st -> bounded arr -> head (writers_ st) = Some t -> phase_of t st = Some p -> group_phase p = None ->
  room (R := R) new_array opts t force allow st = Some (st', gs') -> queue_inv seq0 arr (gs ++ gs') st'.
Proof using Hok Hseq0 Hro EnvFilesLaws0.
  intros H Hb Ht Hp Hg. unfold room. destruct (MakeRoomForWrite _ _ _ _ _ _) as [[r db]|] eqn:Er; [|done]. cbn [mbind option_bind].
  destruct (MakeRoom_spec 2 Hro _ _ _ _ _ Er) as [(M1 & _) _]. assert (H' : queue_inv seq0 arr gs (set_db db st)) by by apply queue_db. destruct r as [s|f a].
  - intros [= Hl]. by apply (lead_inv arr gs (set_db db st) t s p).
  - intros [= <- <-]. rewrite app_nil_r. apply queue_phase; [done|by apply head_in|done|].
    apply (leading_idle _ t (InRoom f a)); [exact Ht| |reflexivity|exact (idle_tmp _ _ _ _ _ _ H Ht Hp Hg)].
    unfold phase_of in *. rewrite set_phase_lookup, decide_True by done. cbn [set_db threads_]. by destruct (threads_ st !! t).
Qed.

Lemma look_inv arr gs st t st' gs' : queue_inv seq0 arr gs st -> bounded arr -> phase_of t st = Some Awake -> look (R := R) new_array opts t st = Some (st', gs') -> queue_inv seq0 arr (gs ++ gs') st'.
Proof using Hok Hseq0 Hro EnvFilesLaws0.
  intros H Hb Hp. unfold look. destruct (phase_inv _ _ _ Hp) as (w & Hw). rewrite Hw. cbn [mbind option_bind].
  destruct (in_queue _ _ _ _ t Awake H Hp ltac:(done)) as [Hin|(_ & w' & g & Hw' & Hd & Hg & Hm & Hs)].
  - destruct (qi_waiting _ _ _ _ H t Hin) as (w' & q & (Hw' & Hd & Hsy & seq & Hba) & Hpl). rewrite Hw in Hw'. injection Hw' as <- <-. cbn [fst] in *. rewrite Hd.
    case_bool_decide as Hh.
    + intros [= <- <-]. rewrite app_nil_r. apply queue_phase; try done. apply leading_other; [done|]. by destruct H.
    + destruct (decide (head (writers_ st) = Some t)) as [Ht|]; [|done]. by apply (room_inv arr gs st t _ _ Awake).
  - rewrite Hw in Hw'. injection Hw' as <-. rewrite Hd. intros [= <- <-]. rewrite app_nil_r.
    assert (Hout : t ∉ writers_ st). { pose proof (qi_nodup _ _ _ _ H) as Hnd. rewrite (qi_order _ _ _ _ H) in Hnd. apply NoDup_app in Hnd as (_ & Hdis & _). apply Hdis.
      apply list_elem_of_In, in_concat. exists (g_members g). split; [apply in_map|]; by apply list_elem_of_In. }
    assert (Hhead : head (writers_ st) <> Some t) by (intros Hh; by apply Hout, head_in).
    pose proof (leading_other st t (Returned (w_status w)) Hhead (qi_leader _ _ _ _ H)) as Hlead. destruct H. split; try done.
    + intros x Hx. destruct (qi_waiting0 x Hx) as (w' & q & (H1 & H2) & H3). exists w', q. unfold waits. rewrite set_phase_lookup, decide_False by (intros ->; done). done.
    + intros g' x Hg' Hx. destruct (qi_left0 g' x Hg' Hx) as (w' & q & H1 & H2). rewrite set_phase_lookup. destruct (decide (x = t)) as [->|]; [|by exists w', q].
      exists w, (Returned (w_status w)). rewrite Hw. split; [done|]. left. rewrite Hw in H1. injection H1 as <- <-. by destruct H2 as [?|(_ & _ & ->)].
    + intros x w' q. rewrite set_phase_lookup. destruct (decide (x = t)) as [->|]; [|by apply qi_known0]. intros _. by apply (qi_known0 t w Awake).
Qed.

Lemma ready_phase st db t own ls last p : last_seq (set_db db st) = last_seq st -> ready st t own ls last -> ready (set_phase p t (set_db db st)) t own ls last.
Proof.
  unfold ready. change (last_seq (set_phase p t (set_db db st))) with (last_seq (set_db db st)). intros ->. cbn [writers_ set_phase on_thread set_db tmp_batch_]. intros (H1 & H2 & H3 & H4). split; [done|]. split; [done|].
  split; [|done]. rewrite <- H3. unfold updates_of, batch_of. fold (set_phase p t (set_db db st)). rewrite set_phase_lookup, decide_True by done. cbn [set_db threads_ tmp_batch_]. by destruct (threads_ st !! t).
Qed.

(** A thread that writes its group goes on to the next phase. *)
Lemma group_inv arr gs st t p p' own ls last db : queue_inv seq0 arr gs st -> phase_of t st = Some p -> group_phase p = Some (own, ls, last) -> group_phase p' = Some (own, ls, last) ->
  last_seq (set_db db st) = last_seq st -> queue_inv seq0 arr gs (set_phase p' t (set_db db st)).
Proof.
  intros H Hp Hg Hg' Hls. assert (Ht : head (writers_ st) = Some t) by (eapply working_head; [done..| | |]; intros; by destruct p).
  pose proof (proj1 (leading_group st t p own ls last Ht Hp Hg) (qi_leader _ _ _ _ H)) as Hr.
  apply queue_phase; [by apply queue_db|by apply head_in|by destruct p'|]. apply (leading_group _ t p' own ls last); [exact Ht| |exact Hg'|by apply ready_phase].
  unfold phase_of in *. rewrite set_phase_lookup, decide_True by done. cbn [set_db threads_]. by destruct (threads_ st !! t).
Qed.

Lemma finish_inv arr gs st t own ls last s se st' gs' : queue_inv seq0 arr gs st -> phase_of t st = Some (Finishing own ls last s se) -> finish_step t own ls last s se st = (st', gs') ->
  queue_inv seq0 arr (gs ++ gs') st'.
Proof.
  intros H Hp. assert (Ht : head (writers_ st) = Some t) by (by eapply working_head).
  destruct (proj1 (leading_group st t _ own ls last Ht Hp eq_refl) (qi_leader _ _ _ _ H)) as (R1 & R2 & R3 & R4 & R5 & R6 & R7).
  unfold finish_step. intros [= <- <-]. replace (if own then tmp_batch_ st else Clear) with Clear by (destruct own; [by rewrite R7|done]).
  apply queue_leave; try done.
  - split; [|split].
    + cbn. destruct (writers_ st); [done|]. cbn. done.
    + cbn. destruct (qi_waiting _ _ _ _ H t (head_in _ _ Ht)) as (w & q & (Hw & _ & Hsy & _) & _). unfold sync_of. rewrite Hw. cbn [fst] in Hsy. by rewrite Hsy.
    + cbn [g_batch g_members]. exact R3.
Qed.

Definition calls_of (t : nat) : bool * option WriteBatch := (fst (request t), request_batch t).

Lemma enter_add arr gs st t : queue_inv seq0 arr gs st -> threads_ st !! t = None ->
  queue_inv seq0 (arr ++ [t]) gs (mkState (db_ st) (writers_ st ++ [t]) (tmp_batch_ st) (<[t := (mkWaiter OK (request_batch t) (fst (request t)) false, Awake)]> (threads_ st))).
Proof using opts Hok Hseq0 Hro EnvFilesLaws0.
  intros H Hnone. set (st1 := mkState _ _ _ _).
  assert (Hold : forall x, is_Some (threads_ st !! x) -> threads_ st1 !! x = threads_ st !! x /\ x <> t).
  { intros x [wp Hx]. assert (x <> t) by congruence. cbn. by rewrite lookup_insert_ne. }
  assert (Hmem : forall g x, g ∈ gs -> x ∈ g_members g -> is_Some (threads_ st !! x)).
  { intros g x Hg Hx. destruct (qi_left _ _ _ _ H g x Hg Hx) as (w & p & -> & _). by eexists. }
  assert (Hwr : forall x, x ∈ writers_ st -> is_Some (threads_ st !! x)).
  { intros x Hx. destruct (qi_waiting _ _ _ _ H x Hx) as (w & p & (-> & _) & _). by eexists. }
  assert (Harr : t ∉ arr).
  { rewrite (qi_order _ _ _ _ H). intros [Hin|Hin]%elem_of_app; [|by destruct (Hold _ (Hwr _ Hin))]. apply list_elem_of_In, in_concat in Hin as (ms & H1 & H2). apply in_map_iff in H1 as (g & <- & Hg).
    apply list_elem_of_In in Hg, H2. by destruct (Hold _ (Hmem _ _ Hg H2)). }
  assert (Hhead : forall x, head (writers_ st) = Some x -> head (writers_ st1) = Some x) by (intros x Hx; cbn; by destruct (writers_ st)).
  pose proof H as []. split.
  - cbn. by rewrite app_assoc, <- qi_order0.
  - apply NoDup_app. split; [done|]. split; [|apply NoDup_singleton]. intros x Hx Hc. apply list_elem_of_singleton in Hc as ->. done.
  - intros x [Hx|Hx]%elem_of_app.
    + destruct (qi_waiting0 x Hx) as (w & p & (H1 & H2) & H3). exists w, p. unfold waits. destruct (Hold x (Hwr x Hx)) as [-> Hne]. split; [done|]. unfold place in *. cbn [st1 writers_].
      destruct p; try done; try by apply Hhead. intros Hc. apply H3. destruct (writers_ st); [by apply elem_of_nil in Hx|done].
    + apply list_elem_of_singleton in Hx as ->. exists (mkWaiter OK (request_batch t) (fst (request t)) false), Awake. split; [|done]. split; [cbn; by rewrite lookup_insert_eq|]. split; [done|]. split; [done|].
      cbn. unfold request_batch. destruct (snd (request t)) as [[s ops]|]; [by exists s|by exists 0].
  - intros g x Hg Hx. destruct (Hold x (Hmem g x Hg Hx)) as [-> _]. by apply (qi_left0 g).
  - intros x w p Hx. destruct (decide (x = t)) as [->|Hne]; [set_solver|]. cbn in Hx. rewrite lookup_insert_ne in Hx by done. pose proof (qi_known0 x w p Hx). set_solver.
  - destruct (head (writers_ st)) as [x|] eqn:Ex.
    + pose proof (head_in _ _ Ex) as Hx. destruct (qi_waiting0 x Hx) as (w & p & (H1 & _) & _). pose proof (phase_lookup _ _ _ _ H1) as Hp.
      assert (Hp' : phase_of x st1 = Some p). { unfold phase_of. destruct (Hold x (Hwr x Hx)) as [-> _]. exact Hp. }
      destruct (group_phase p) as [[[own ls] last]|] eqn:Eg.
      * apply (leading_group st1 x p own ls last); [by apply Hhead|done|done|]. apply (leading_group st x p own ls last) in qi_leader0; [|done..].
        destruct qi_leader0 as (R1 & R2 & R3 & R4). unfold ready. change (last_seq st1) with (last_seq st). cbn [st1 writers_]. rewrite upto_app by done. split; [set_solver|]. split; [done|]. split; [|done]. rewrite <- R3.
        unfold updates_of, batch_of. destruct (Hold x (Hwr x Hx)) as [-> _]. done.
      * apply (leading_idle st1 x p); [by apply Hhead|done|done|]. by apply (leading_idle st x p) in qi_leader0.
    + unfold leading_ok, leader in qi_leader0. rewrite Ex in qi_leader0. apply (leading_idle st1 t Awake); [cbn; by destruct (writers_ st)|cbn; unfold phase_of; cbn; by rewrite lookup_insert_eq|done|]. exact qi_leader0.
  - done.
  - done.
Qed.

Lemma bounded_mono arr a : bounded (arr ++ a) -> bounded arr.
Proof. unfold bounded. rewrite group_ops_app, size_of_app. pose proof (size_of_nonneg (group_ops a)). lia. Qed.

Lemma move_inv arr gs st g st' : queue_inv seq0 arr gs st -> bounded arr -> move (R := R) new_array ucmp opts st g st' -> queue_inv seq0 arr (gs ++ g) st'.
Proof using Hok Hseq0 Hro EnvFilesLaws0.
  intros H Hb Hm. destruct Hm as [t st st' gs' Hp Hl|t f a st st' gs' Hp Hl|t own ls last st st' Hp Hl|t own ls last s se st st' Hp Hl|t own ls last s se st st' gs' Hp Hl].
  - by eapply look_inv.
  - eapply room_inv; [done|done| |done|done|done]. by eapply working_head.
  - unfold log_step in Hl. destruct (log_ (db_ st)) as [log|]; [|done]. cbn [mbind option_bind] in Hl. destruct (AddRecord _ _) as [[s log']|]; [|done]. cbn [mbind option_bind] in Hl.
    rewrite app_nil_r. repeat case_match; injection Hl as <-; by eapply group_inv.
  - unfold insert_step in Hl. rewrite app_nil_r. destruct (ok s).
    + destruct (InsertInto _ _ _) as [[mem|] s']; [|done]. injection Hl as <-. by eapply group_inv.
    + injection Hl as <-. replace st with (set_db (db_ st) st) at 1 by by destruct st. by eapply group_inv.
  - by eapply finish_inv.
Qed.

Lemma step_inv others arr gs st a g st' : queue_inv seq0 arr gs st -> bounded (arr ++ a) -> (forall db db', others db db' -> others_may db db') ->
  step (R := R) new_array ucmp opts others calls_of st a g st' -> queue_inv seq0 (arr ++ a) (gs ++ g) st'.
Proof using Hok Hseq0 Hro EnvFilesLaws0.
  intros H Hb Hothers Hs. destruct Hs as [st g st' Hm|t st st' g Hn He|t st Hp|db st Ho].
  - rewrite app_nil_r in *. by eapply move_inv.
  - unfold enter in He. rewrite Hro in *. eapply (look_inv (arr ++ [t])); [by apply enter_add|done| |exact He]. unfold phase_of. cbn. by rewrite lookup_insert_eq.
  - rewrite !app_nil_r. destruct (in_queue _ _ _ _ t Asleep H Hp ltac:(done)) as [Hin|[? _]]; [|done]. apply queue_phase; [done|done|done|]. apply leading_other; [|by destruct H].
    destruct (qi_waiting _ _ _ _ H t Hin) as (w & q & (Hw & _) & Hpl). apply phase_lookup in Hw. rewrite Hp in Hw. by injection Hw as <-.
  - rewrite !app_nil_r. apply queue_db; [done|]. by apply Hothers in Ho as (_ & _ & -> & _).
Qed.
End Write.

(** *** What the memtable and the log hold *)

(** The entries that the groups write, after [seq] sequence numbers. *)
Fixpoint entries_of (seq : Z) (gs : list Group) : list MemTable.entry :=
  match gs with
  | [] => []
  | g :: gs => (if ok (g_status g) then MemTable.batch (seq + 1) (g_ops g) else []) ++ entries_of (seq + size_of (g_ops g)) gs
  end.

Lemma entries_of_app seq a b : entries_of seq (a ++ b) = entries_of seq a ++ entries_of (seq + total a) b.
Proof.
  revert seq. induction a as [|g a IH]; intros seq; cbn [app entries_of]; [by rewrite Z.add_0_r|]. by rewrite IH, total_cons, Z.add_assoc, app_assoc.
Qed.

(** What the front writer is about. *)
Inductive Stage : Type := SIdle | SLog | SInsert (s : Status) (sync_error : bool) (es : list MemTable.entry) | SFinish (s : Status) (sync_error : bool) (es : list MemTable.entry).

Section Memory.
Context {E W : Type} `{!WritableFile W} `{!WritableFileLaws W} (new_array : list (Z * Z) -> Z -> Z) (ucmp : Comparator) `{!ComparatorLaws ucmp}.
Context (seq0 : Z) (es0 : list MemTable.entry).
Implicit Types db : DBImpl E W.

Definition holds (m : option MemTable) (es : list MemTable.entry) : Prop := exists m0 es', m = Some m0 /\ MemTable.mem_rep ucmp m0 es' /\ es' ≡ₚ es.

Definition batches (logged : list (Z * list BatchOp)) : list MemTable.entry := concat (map (fun b => MemTable.batch (fst b) (snd b)) logged).
Definition records (logged : list (Z * list BatchOp)) : list bytes := map (fun b => batch_rep (fst b) (snd b)) logged.

(** How far the log, which has [x] more than the memtable, may be ahead. *)
Definition ahead db (stage : Stage) (x : list MemTable.entry) : Prop :=
  match stage with
  | SIdle => x = [] \/ ok (bg_error_ db) = false
  | SLog => x = []
  | SInsert s se es => if ok s then x = es else se = true
  | SFinish s se es => if ok s then x = [] else se = true
  end.

(** A log that can be added to; it has the entries of the memtable when its file can be
    relied on. *)
Definition log_holds db (stage : Stage) (es : list MemTable.entry) : Prop :=
  exists log, log_ db = Some log /\ type_crc log = InitTypeCrc /\ 0 <= block_offset log <= kBlockSize /\
    (ReliableFile W -> exists logged x, Written (records logged) log /\ batches logged = es ++ x /\ ahead db stage x).

(** The entries that are written are, in order, in tables, in [imm_] and in [mem_]. *)
Definition mem_inv (gs : list Group) db (stage : Stage) : Prop :=
  exists flushed imm_es mem_es,
    es0 ++ entries_of seq0 gs ++ (match stage with SFinish s _ es => if ok s then es else [] | _ => [] end) = flushed ++ imm_es ++ mem_es /\
    holds (mem_ db) mem_es /\ (match imm_ db with Some m => holds (Some m) imm_es | None => imm_es = [] end) /\ log_holds db stage mem_es.

Lemma mem_others gs db db' stage : mem_inv gs db stage -> others_may db db' -> mem_inv gs db' stage.
Proof.
  intros (fl & im & me & H1 & H2 & H3 & log & L1 & L2 & L3 & L4) (O1 & O2 & _ & O3 & O4).
  assert (Hlog : log_holds db' stage me).
  { exists log. rewrite O2. split; [done|]. split; [done|]. split; [done|]. intros HR. destruct (L4 HR) as (lg & x & X1 & X2 & X3). exists lg, x. split; [done|]. split; [done|].
    destruct stage; try done. cbn in *. destruct O4 as [-> |Hb]; [done|]. left. by destruct X3 as [|X3]; [|rewrite Hb in X3]. }
  destruct O3 as [Ei|Ei].
  - exists fl, im, me. rewrite O1, Ei. done.
  - exists (fl ++ im), [], me. rewrite O1, Ei. split; [by rewrite <- app_assoc|]. done.
Qed.

Lemma mem_room gs db db' : mem_inv gs db SIdle -> made_room new_array db db' -> mem_inv gs db' SIdle.
Proof.
  intros (fl & im & me & H1 & H2 & H3 & log & L1 & L2 & L3 & L4) (_ & Hbg & [(Em & Ei & Elog)|(S1 & S2 & S3 & S4 & S5 & f & S6 & S7)]).
  - exists fl, im, me. rewrite Em, Ei. split; [done|]. split; [done|]. split; [done|]. exists log. rewrite Elog. split; [done|]. split; [done|]. split; [done|].
    intros HR. destruct (L4 HR) as (lg & x & X1 & X2 & X3). exists lg, x. cbn in *. by rewrite Hbg.
  - rewrite S2 in H3. subst im. exists fl, me, []. rewrite S4, S5. split; [by rewrite (app_nil_r me)|]. split; [|split].
    + eexists _, []. split; [done|]. split; [|done]. exact (MemTable.make_rep ucmp new_array).
    + destruct S3 as [m ES]. by rewrite ES in *.
    + exists (Writer_make f). split; [done|]. split; [done|]. split; [unfold kBlockSize; cbn; lia|]. intros HR. exists [], []. split; [by constructor|]. split; [done|]. by left.
Qed.

Lemma mem_lead gs db : mem_inv gs db SIdle -> ok (bg_error_ db) = true -> mem_inv gs db SLog.
Proof.
  intros (fl & im & me & H1 & H2 & H3 & log & L1 & L2 & L3 & L4) Hb. exists fl, im, me. split; [done|]. split; [done|]. split; [done|]. exists log. split; [done|]. split; [done|]. split; [done|].
  intros HR. destruct (L4 HR) as (lg & x & X1 & X2 & [X3|X3]); [by exists lg, x|congruence].
Qed.

Lemma mem_leave gs g db : mem_inv gs db SIdle -> g_ops g = [] -> mem_inv (gs ++ [g]) db SIdle.
Proof.
  intros (fl & im & me & H1 & H2) Hg. exists fl, im, me. split; [|done]. rewrite entries_of_app. cbn [entries_of]. rewrite Hg. rewrite <- H1. change (MemTable.batch (seq0 + total gs + 1) []) with (@nil MemTable.entry).
  destruct (ok (g_status g)); cbn; by rewrite !app_nil_r.
Qed.

Lemma mem_finish gs g db db' s se es : mem_inv gs db (SFinish s se es) -> g_status g = s -> es = MemTable.batch (seq0 + total gs + 1) (g_ops g) ->
  mem_ db' = mem_ db -> imm_ db' = imm_ db -> log_ db' = log_ db -> (ok s = false -> se = true -> ok (bg_error_ db') = false) -> mem_inv (gs ++ [g]) db' SIdle.
Proof.
  intros (fl & im & me & H1 & H2 & H3 & log & L1 & L2 & L3 & L4) Hs -> Em Ei El Hb. exists fl, im, me. rewrite Em, Ei. split; [|split; [done|split; [done|]]].
  - rewrite <- H1, entries_of_app. cbn [entries_of]. rewrite Hs. destruct (ok s); by rewrite !app_nil_r.
  - exists log. rewrite El. split; [done|]. split; [done|]. split; [done|]. intros HR. destruct (L4 HR) as (lg & x & X1 & X2 & X3). exists lg, x. split; [done|]. split; [done|]. cbn in *. destruct (ok s); [by left|right; by apply Hb].
Qed.

Lemma entries_ok gs : forall seq es, NoDup es -> MemTable.distinct ucmp es -> Forall (fun e => MemTable.e_seq e <= seq) es ->
  NoDup (es ++ entries_of seq gs) /\ MemTable.distinct ucmp (es ++ entries_of seq gs) /\ Forall (fun e => MemTable.e_seq e <= seq + total gs) (es ++ entries_of seq gs).
Proof.
  induction gs as [|g gs IH]; intros seq es Hn Hd Hle; cbn [entries_of]; [rewrite app_nil_r, Z.add_0_r; done|]. rewrite total_cons, Z.add_assoc. pose proof (size_of_nonneg (g_ops g)).
  destruct (ok (g_status g)).
  - rewrite app_assoc. destruct (MemTable.batch_apart ucmp es (seq + 1) (g_ops g) Hn Hd) as [Hn' Hd']; [eapply Forall_impl; [exact Hle|]; cbn; lia|].
    apply IH; [done|done|]. apply Forall_app. split; [eapply Forall_impl; [exact Hle|]; cbn; lia|]. apply Forall_forall. intros e He. apply MemTable.batch_seq in He. lia.
  - apply IH; [done|done|]. eapply Forall_impl; [exact Hle|]; cbn; lia.
Qed.

Context (Hnd : NoDup es0) (Hdis : MemTable.distinct ucmp es0) (Hle : Forall (fun e => MemTable.e_seq e <= seq0) es0).

(** The record is logged. *)
Lemma mem_log gs db n ops sync num : mem_inv gs db SLog -> exists log s log1, log_ db = Some log /\ AddRecord (batch_rep n ops) log = Some (s, log1) /\
  let '(s2, se, log2) := if ok s && sync then let '(s', f) := Sync (dest log1) in (s', negb (ok s'), mkWriter f (block_offset log1) (type_crc log1)) else (s, false, log1) in
  mem_inv gs (set_log (Some log2) num db) (SInsert s2 se (MemTable.batch n ops)).
Proof using WritableFileLaws0.
  intros (fl & im & me & H1 & H2 & H3 & log & L1 & L2 & L3 & L4). destruct (AddRecord_total (batch_rep n ops) log L2 L3) as (s & log1 & E1 & E2 & E3). exists log, s, log1. split; [done|]. split; [done|].
  assert (Hrel : ReliableFile W -> exists logged, Written (records (logged ++ [(n, ops)])) log1 /\ batches (logged ++ [(n, ops)]) = me ++ MemTable.batch n ops /\ ok s = true).
  { intros HR. destruct (L4 HR) as (lg & x & X1 & X2 & X3). cbn in X3. subst x. exists lg. unfold records, batches in *. rewrite !map_app, concat_app, X2, !app_nil_r. cbn [map concat fst snd]. rewrite app_nil_r. split; [|split; [done|]].
    - eapply Written_add; [exact X1|exact E1].
    - destruct (AddRecord_spec (batch_rep n ops) log L2 L3) as (s' & w' & ? & ? & E' & Hs & _). congruence. }
  assert (Hgo : forall s2 se log2, type_crc log2 = InitTypeCrc -> 0 <= block_offset log2 <= kBlockSize -> (ReliableFile W -> forall lg, Written (records lg) log1 -> Written (records lg) log2) ->
    (ok s2 = false -> ok s = true -> se = true) -> mem_inv gs (set_log (Some log2) num db) (SInsert s2 se (MemTable.batch n ops))).
  { intros s2 se log2 G1 G2 G3 G4. exists fl, im, me. split; [done|]. split; [done|]. split; [done|]. exists log2. split; [done|]. split; [done|]. split; [done|].
    intros HR. destruct (Hrel HR) as (lg & W1 & W2 & W3). exists (lg ++ [(n, ops)]), (MemTable.batch n ops). split; [by apply G3|]. split; [done|]. cbn. destruct (ok s2); [done|]. by apply G4. }
  destruct (ok s && sync) eqn:Es; [|apply Hgo; try done; intros; congruence].
  destruct (Sync (dest log1)) as [s' f] eqn:ES. apply Hgo; [done|done| |].
  - intros HR lg HW. apply Written_sync; [done|]. by apply Sync_written in ES.
  - by intros -> _.
Qed.

(** The batch goes into the memtable. *)
Lemma mem_insert gs db s se ops : mem_inv gs db (SInsert s se (MemTable.batch (seq0 + total gs + 1) ops)) -> ok s = true -> 0 <= seq0 ->
  Forall op_fits ops -> Forall (fun op => size_of (MemTable.op_key op) + 8 < 2 ^ 32) ops -> size_of ops < 2 ^ 31 -> seq0 + total gs + size_of ops < kMaxSequenceNumber ->
  exists mem, InsertInto (fun s ty k v m => m ≫= MemTable.Add new_array ucmp s ty k v) (batch_rep (seq0 + total gs + 1) ops) (mem_ db) = (Some mem, OK) /\
    mem_inv gs (set_mems (Some mem) (imm_ db) db) (SFinish OK se (MemTable.batch (seq0 + total gs + 1) ops)).
Proof using Hnd Hdis Hle ComparatorLaws0.
  intros (fl & im & me & H1 & (m0 & es' & Em & Hm & Hp) & H3 & log & L1 & L2 & L3 & L4) Hs Hseq Hf Hk Hsz Hmax. pose proof (total_bound gs).
  rewrite Em, (MemTable.InsertInto_batch ucmp new_array) by (done || lia). destruct (entries_ok gs seq0 es0 Hnd Hdis Hle) as (Hn & Hd & Hl).
  destruct (MemTable.batch_apart ucmp _ (seq0 + total gs + 1) ops Hn Hd) as [Hn' Hd']; [eapply Forall_impl; [exact Hl|]; cbn; lia|].
  rewrite app_nil_r in H1. rewrite H1 in Hn', Hd'.
  assert (Hsub : forall a, a ∈ me ++ MemTable.batch (seq0 + total gs + 1) ops -> a ∈ (fl ++ im ++ me) ++ MemTable.batch (seq0 + total gs + 1) ops) by (intros a; rewrite !elem_of_app; tauto).
  destruct (MemTable.add_all_rep ucmp new_array (MemTable.batch (seq0 + total gs + 1) ops) es' m0 Hm) as (m' & es2 & Ea & Hm' & Hp').
  - by apply MemTable.batch_fits; [lia|lia|..].
  - rewrite Hp. rewrite <- !app_assoc in Hn'. apply NoDup_app in Hn' as (_ & _ & Hn'). by apply NoDup_app in Hn' as (_ & _ & Hn').
  - eapply MemTable.distinct_perm; [by rewrite Hp|]. intros a b Ha Hb. apply Hd'; by apply Hsub.
  - exists m'. rewrite Ea. split; [done|]. exists fl, im, (me ++ MemTable.batch (seq0 + total gs + 1) ops). split; [|split; [|split; [done|]]].
    + cbn [ok]. change (ok OK) with true. cbv iota. by rewrite app_assoc, H1, <- !app_assoc.
    + exists m', es2. split; [done|]. split; [done|]. by rewrite Hp', Hp.
    + exists log. split; [done|]. split; [done|]. split; [done|]. intros HR. destruct (L4 HR) as (lg & x & X1 & X2 & X3). cbn in X3. rewrite Hs in X3. subst x. exists lg, []. split; [done|]. by rewrite app_nil_r.
Qed.
End Memory.

(** *** Both *)

Section Both.
Context {E W R : Type} `{!EnvFiles E W R} `{!WritableFile W} `{!WritableFileLaws W} `{!EnvFilesLaws E W R}.
Context (new_array : list (Z * Z) -> Z -> Z) (ucmp : Comparator) `{!ComparatorLaws ucmp} (opts : DBOptions) (Hok : forall t, request_ok t).
Context (seq0 : Z) (es0 : list MemTable.entry) (Hseq0 : 0 <= seq0) (Hro : read_only opts = false).
Context (Hnd : NoDup es0) (Hdis : MemTable.distinct ucmp es0) (Hle : Forall (fun e => MemTable.e_seq e <= seq0) es0).
Implicit Types st : WriteState E W.

Definition group_entries st (last : nat) : list MemTable.entry := MemTable.batch (last_seq st + 1) (group_ops (upto last (writers_ st))).
Definition stage_of st (p : Phase) : Stage :=
  match p with
  | Logging _ _ _ => SLog
  | Inserting _ _ last s se => SInsert s se (group_entries st last)
  | Finishing _ _ last s se => SFinish s se (group_entries st last)
  | _ => SIdle
  end.
Definition stage st : Stage := match leader st with Some (_, p) => stage_of st p | None => SIdle end.

Definition write_inv (arr : list nat) (gs : list Group) st : Prop := queue_inv seq0 arr gs st /\ mem_inv ucmp seq0 es0 gs (db_ st) (stage st).

Lemma stage_head st t p : head (writers_ st) = Some t -> phase_of t st = Some p -> stage st = stage_of st p.
Proof. intros Ht Hp. unfold stage. by rewrite (leader_head st t p Ht Hp). Qed.

Lemma stage_set st t p p' db : head (writers_ st) = Some t -> phase_of t st = Some p -> last_seq (set_db db st) = last_seq st ->
  stage (set_phase p' t (set_db db st)) = stage_of st p'.
Proof.
  intros Ht Hp Hls. rewrite (stage_head _ t p'); [|exact Ht|].
  - destruct p'; try done; unfold stage_of, group_entries; change (last_seq (set_phase _ t (set_db db st))) with (last_seq (set_db db st)); by rewrite Hls.
  - unfold phase_of in *. rewrite set_phase_lookup, decide_True by done. cbn [set_db threads_]. by destruct (threads_ st !! t).
Qed.

Lemma leave_stage arr gs st t last s db tmp : queue_inv seq0 arr gs st -> head (writers_ st) = Some t -> last ∈ writers_ st ->
  stage (leave t last s (mkState db (writers_ st) tmp (threads_ st))) = SIdle.
Proof.
  intros H Ht Hlast. pose proof (qi_nodup_writers _ _ _ _ H) as Hn.
  destruct (leave_spec t last s (mkState db (writers_ st) tmp (threads_ st)) Hn) as (th & -> & Hth). cbn [writers_ threads_ db_ tmp_batch_] in *.
  unfold stage, leader. cbn [writers_]. destruct (head (behind last (writers_ st))) as [x|] eqn:Hh; [|done]. cbn [mbind option_bind]. unfold phase_of. cbn [threads_].
  pose proof (head_in _ _ Hh) as Hx. pose proof (upto_behind last (writers_ st)) as Hsplit. rewrite Hsplit in Hn. apply NoDup_app in Hn as (_ & Hd & _).
  assert (Hxt : x <> t) by (intros ->; apply (Hd t); [destruct (writers_ st); [done|]; injection Ht as ->; constructor|done]).
  destruct (not_leading _ _ _ _ t x H Ht) as (w & p & (Hl & _) & Hs & _); [rewrite Hsplit; set_solver|done|].
  rewrite Hth, Hl. cbn. unfold left_thread. rewrite (decide_False (P := x = t)), (decide_False (P := x ∈ upto _ _)), decide_True by (done || intros Hc; by apply (Hd x)). by rewrite Hs.
Qed.

Lemma leave_db t last s st : NoDup (writers_ st) -> db_ (leave t last s st) = db_ st.
Proof. intros Hn. by destruct (leave_spec t last s st Hn) as (th & -> & _). Qed.

Lemma mem_lead_step arr gs st t s p st' gs' : queue_inv seq0 arr gs st -> head (writers_ st) = Some t -> phase_of t st = Some p -> (ok s = true -> ok (bg_error_ (db_ st)) = true) ->
  mem_inv ucmp seq0 es0 gs (db_ st) SIdle -> lead t s st = (st', gs') -> mem_inv ucmp seq0 es0 (gs ++ gs') (db_ st') (stage st').
Proof.
  intros H Ht Hp Hbg Hm. assert (Hleave : mem_inv ucmp seq0 es0 (gs ++ [mkGroup [t] (sync_of t st) None s]) (db_ (leave t t s st)) (stage (leave t t s st))).
  { rewrite leave_db by exact (qi_nodup_writers _ _ _ _ H). replace (stage (leave t t s st)) with SIdle; [by apply mem_leave|]. symmetry. pose proof (leave_stage arr gs st t t s (db_ st) (tmp_batch_ st) H Ht (head_in _ _ Ht)) as Hl. by destruct st. }
  unfold lead. destruct (batch_of t st) as [b|]; [|by intros [= <- <-]]. destruct (ok s) eqn:Es; [|by intros [= <- <-]].
  destruct (BuildBatchGroup t b st) as [result last]. intros [= <- <-]. rewrite app_nil_r. set (st1 := if match result with Some _ => false | None => true end then _ else _).
  assert (Hst1 : db_ st1 = db_ st /\ writers_ st1 = writers_ st /\ is_Some (threads_ st1 !! t)).
  { apply phase_inv in Hp as (w & Hw). subst st1. destruct result; [cbn [threads_]; rewrite Hw; by split_and!; [..|eexists]|]. split; [done|]. split; [done|]. rewrite on_thread_lookup, decide_True, Hw by done. by eexists. }
  destruct Hst1 as (D1 & D2 & [wp D3]). cbn [set_phase on_thread db_]. rewrite D1. erewrite (stage_head _ t); [|cbn; by rewrite D2|unfold phase_of; fold (set_phase (Logging (match result with Some _ => false | None => true end)
    (u64 (vs_last_sequence_ (versions_ (db_ st)) + Count (SetSequence (default b result) (u64 (vs_last_sequence_ (versions_ (db_ st)) + 1))))) last) t st1); rewrite set_phase_lookup, decide_True, D3 by done; reflexivity].
  apply mem_lead; [done|by apply Hbg].
Qed.

Lemma stage_other st t p : head (writers_ st) <> Some t -> stage (set_phase p t st) = stage st.
Proof. intros Ht. unfold stage. rewrite (leader_other st t p Ht). destruct (leader st) as [[x []]|]; done. Qed.

Lemma group_ops_ok ts : Forall op_fits (group_ops ts) /\ Forall (fun op => size_of (MemTable.op_key op) + 8 < 2 ^ 32) (group_ops ts).
Proof using Hok.
  induction ts as [|t ts [IH1 IH2]]; [by split|]. change (group_ops (t :: ts)) with (ops_of t ++ group_ops ts). destruct (Hok t) as (H1 & H2 & _). split; apply Forall_app; by split.
Qed.

Lemma room_mem arr gs st t force allow p st' gs' : queue_inv seq0 arr gs st -> head (writers_ st) = Some t -> phase_of t st = Some p -> stage_of st p = SIdle ->
  mem_inv ucmp seq0 es0 gs (db_ st) SIdle -> room (R := R) new_array opts t force allow st = Some (st', gs') -> mem_inv ucmp seq0 es0 (gs ++ gs') (db_ st') (stage st').
Proof using All.
  intros H Ht Hp Hst Hm. unfold room. destruct (MakeRoomForWrite _ _ _ _ _ _) as [[r db]|] eqn:Er; [|done]. cbn [mbind option_bind].
  destruct (MakeRoom_spec new_array opts 2 Hro _ _ _ _ _ Er) as [M Hr]. pose proof (mem_room _ _ _ _ _ _ _ Hm M) as Hm'. destruct M as (M1 & M2 & _). destruct r as [s|f a].
  - intros [= Hl]. apply (mem_lead_step arr gs (set_db db st) t s p st' gs'); try done; [by apply queue_db|]. intros Hs. cbn. rewrite M2. by apply (Hr s).
  - intros [= <- <-]. rewrite app_nil_r, (stage_set st t p) by done. exact Hm'.
Qed.

Lemma look_mem arr gs st t st' gs' : queue_inv seq0 arr gs st -> phase_of t st = Some Awake -> mem_inv ucmp seq0 es0 gs (db_ st) (stage st) ->
  look (R := R) new_array opts t st = Some (st', gs') -> mem_inv ucmp seq0 es0 (gs ++ gs') (db_ st') (stage st').
Proof using All.
  intros H Hp Hm. unfold look. destruct (phase_inv _ _ _ Hp) as (w & Hw). rewrite Hw. cbn [mbind option_bind].
  destruct (w_done w) eqn:Ed.
  - intros [= <- <-]. rewrite app_nil_r. destruct (decide (head (writers_ st) = Some t)) as [Hh|Hh]; [|by rewrite stage_other].
    destruct (qi_waiting _ _ _ _ H t (head_in _ _ Hh)) as (w' & q & (Hw' & Hd & _) & _). rewrite Hw in Hw'. injection Hw' as <- <-. cbn in Hd. congruence.
  - case_bool_decide as Hh.
    + intros [= <- <-]. by rewrite app_nil_r, stage_other.
    + destruct (decide (head (writers_ st) = Some t)) as [Ht|]; [|done]. rewrite (stage_head st t Awake Ht Hp) in Hm. by apply (room_mem arr gs st t _ _ Awake).
Qed.

Lemma move_mem arr gs st g st' : queue_inv seq0 arr gs st -> bounded seq0 arr -> mem_inv ucmp seq0 es0 gs (db_ st) (stage st) ->
  move (R := R) new_array ucmp opts st g st' -> mem_inv ucmp seq0 es0 (gs ++ g) (db_ st') (stage st').
Proof using All.
  intros H Hb Hm Hmove. destruct Hmove as [t st st' gs' Hp Hl|t f a st st' gs' Hp Hl|t own ls last st st' Hp Hl|t own ls last s se st st' Hp Hl|t own ls last s se st st' gs' Hp Hl].
  - by eapply look_mem.
  - assert (Ht : head (writers_ st) = Some t) by (by eapply working_head). rewrite (stage_head st t _ Ht Hp) in Hm. by eapply room_mem.
  - assert (Ht : head (writers_ st) = Some t) by (by eapply working_head). rewrite (stage_head st t _ Ht Hp) in Hm. rewrite app_nil_r.
    destruct (proj1 (leading_group st t _ own ls last Ht Hp eq_refl) (qi_leader _ _ _ _ H)) as (R1 & R2 & R3 & _).
    destruct (mem_log ucmp seq0 es0 gs (db_ st) (last_seq st + 1) (group_ops (upto last (writers_ st))) (sync_of t st) (logfile_number_ (db_ st)) Hm) as (log & s & log1 & E1 & E2 & Hm').
    unfold log_step, Contents in Hl. rewrite E1 in Hl. cbn [mbind option_bind] in Hl. rewrite R3, E2 in Hl. cbn [mbind option_bind] in Hl.
    destruct (if ok s && sync_of t st then _ else _) as [[s2 se] log2]. injection Hl as <-. by rewrite (stage_set st t _ _ _ Ht Hp).
  - assert (Ht : head (writers_ st) = Some t) by (by eapply working_head). rewrite (stage_head st t _ Ht Hp) in Hm. rewrite app_nil_r. cbn [stage_of] in Hm.
    destruct (proj1 (leading_group st t _ own ls last Ht Hp eq_refl) (qi_leader _ _ _ _ H)) as (R1 & R2 & R3 & R4 & R5 & _).
    unfold insert_step in Hl. destruct (ok s) eqn:Es.
    + destruct (seq_room seq0 Hseq0 arr gs st last H Hb) as [_ Hmax]. destruct (group_ops_ok (upto last (writers_ st))) as [O1 O2]. unfold group_entries in Hm. rewrite (qi_seq _ _ _ _ H) in Hm, Hmax.
      destruct (mem_insert new_array ucmp seq0 es0 Hnd Hdis Hle gs (db_ st) s se _ Hm Es Hseq0 O1 O2 R5 Hmax) as (mem & E1 & Hm'). rewrite R3, (qi_seq _ _ _ _ H), E1 in Hl. injection Hl as <-.
      rewrite (stage_set st t _ _ _ Ht Hp) by done. cbn [stage_of]. unfold group_entries. by rewrite (qi_seq _ _ _ _ H).
    + injection Hl as <-. pose proof (stage_set st t _ (Finishing own ls last s se) (db_ st) Ht Hp eq_refl) as Hs. replace (set_db (db_ st) st) with st in Hs by by destruct st. rewrite Hs. cbn [stage_of].
      destruct Hm as (fl & im & me & H1 & H2 & H3 & log & L1 & L2 & L3 & L4). exists fl, im, me. rewrite Es. split; [done|]. split; [done|]. split; [done|]. exists log. split; [done|]. split; [done|]. split; [done|].
      intros HR. destruct (L4 HR) as (lg & x & X). exists lg, x. unfold ahead in *. by rewrite Es in X |- *.
  - assert (Ht : head (writers_ st) = Some t) by (by eapply working_head). rewrite (stage_head st t _ Ht Hp) in Hm. cbn [stage_of] in Hm.
    destruct (proj1 (leading_group st t _ own ls last Ht Hp eq_refl) (qi_leader _ _ _ _ H)) as (R1 & R2 & R3 & _).
    unfold finish_step in Hl. injection Hl as <- <-. rewrite (leave_stage arr gs st t last s) by done. rewrite leave_db by exact (qi_nodup_writers _ _ _ _ H). cbn [db_].
    eapply mem_finish; [exact Hm|done| | | | |].
    + unfold group_entries, g_ops. cbn [g_batch g_members]. by rewrite (qi_seq _ _ _ _ H).
    + destruct se; [unfold RecordBackgroundError; by destruct (ok (bg_error_ (db_ st)))|done].
    + destruct se; [unfold RecordBackgroundError; by destruct (ok (bg_error_ (db_ st)))|done].
    + destruct se; [unfold RecordBackgroundError; by destruct (ok (bg_error_ (db_ st)))|done].
    + intros Hs ->. cbn. unfold RecordBackgroundError. by destruct (ok (bg_error_ (db_ st))) eqn:Eb.
Qed.

Lemma step_both others arr gs st a g st' : write_inv arr gs st -> bounded seq0 (arr ++ a) -> (forall db db', others db db' -> others_may db db') ->
  step (R := R) new_array ucmp opts others calls_of st a g st' -> write_inv (arr ++ a) (gs ++ g) st'.
Proof using All.
  intros [H Hm] Hb Hothers Hs. split; [by eapply step_inv|]. destruct Hs as [st g st' Hmv|t st st' g Hn He|t st Hp|db st Ho].
  - rewrite app_nil_r in *. by eapply move_mem.
  - unfold enter in He. rewrite Hro in *. pose proof (enter_add opts Hok seq0 Hseq0 Hro arr gs st t H Hn) as Hadd. eapply (look_mem (arr ++ [t])); [exact Hadd| |  |exact He]; [unfold phase_of; cbn; by rewrite lookup_insert_eq|].
    cbn [db_]. destruct (head (writers_ st)) as [x|] eqn:Ex.
    + destruct (qi_waiting _ _ _ _ H x (head_in _ _ Ex)) as (w & p & (Hw & _) & _). rewrite (stage_head st x p Ex (phase_lookup _ _ _ _ Hw)) in Hm.
      assert (Hxt : x <> t) by congruence. erewrite (stage_head _ x p); [|cbn; by destruct (writers_ st)|unfold phase_of; cbn; by rewrite lookup_insert_ne, Hw].
      assert (Hup : forall own ls last, group_phase p = Some (own, ls, last) -> last ∈ writers_ st).
      { intros own ls last Hg. pose proof (proj1 (leading_group st x p own ls last Ex (phase_lookup _ _ _ _ Hw) Hg) (qi_leader _ _ _ _ H)) as (R1 & _). exact R1. }
      destruct p; try exact Hm; cbn [stage_of] in *; unfold group_entries in *; cbn [writers_]; (rewrite upto_app by (eapply Hup; reflexivity)); exact Hm.
    + erewrite (stage_head _ t Awake); [|cbn; by destruct (writers_ st)|unfold phase_of; cbn; by rewrite lookup_insert_eq]. unfold stage, leader in Hm. by rewrite Ex in Hm.
  - rewrite app_nil_r. destruct (in_queue _ _ _ _ t Asleep H Hp ltac:(done)) as [Hin|[? _]]; [|done]. rewrite stage_other; [exact Hm|].
    destruct (qi_waiting _ _ _ _ H t Hin) as (w & q & (Hw & _) & Hpl). apply phase_lookup in Hw. rewrite Hp in Hw. by injection Hw as <-.
  - rewrite app_nil_r. apply Hothers in Ho. replace (stage (set_db db st)) with (stage st); [by apply (mem_others _ _ _ _ (db_ st))|].
    unfold stage. change (leader (set_db db st)) with (leader st). destruct (leader st) as [[x p]|]; [|done]. destruct Ho as (_ & _ & Hls & _).
    destruct p; try done; unfold stage_of, group_entries, last_seq; cbn [set_db db_ writers_]; by rewrite Hls.
Qed.

(** *** An opened database *)

Definition opened st : Prop :=
  writers_ st = [] /\ threads_ st = ∅ /\ tmp_batch_ st = Clear /\ last_seq st = seq0 /\ holds ucmp (mem_ (db_ st)) es0 /\ imm_ (db_ st) = None /\
  exists log logged, log_ (db_ st) = Some log /\ type_crc log = InitTypeCrc /\ 0 <= block_offset log <= kBlockSize /\ Written (records logged) log /\ batches logged = es0.

Lemma opened_inv st : opened st -> write_inv [] [] st.
Proof using.
  intros (O1 & O2 & O3 & O4 & O5 & O6 & log & logged & L1 & L2 & L3 & L4 & L5). split.
  - split.
    + by rewrite O1.
    + constructor.
    + rewrite O1. intros t Ht. by apply elem_of_nil in Ht.
    + intros g t Hg. by apply elem_of_nil in Hg.
    + intros t w p. rewrite O2. by rewrite lookup_empty.
    + unfold leading_ok, leader. by rewrite O1.
    + done.
    + rewrite O4. cbn. lia.
  - unfold stage, leader. rewrite O1. cbn. exists [], [], es0. rewrite O6. split; [by rewrite !app_nil_r|]. split; [done|]. split; [done|]. exists log. split; [done|]. split; [done|]. split; [done|].
    intros _. exists logged, []. rewrite app_nil_r. split; [done|]. split; [done|]. by left.
Qed.

Lemma reach_inv others arr gs st : (forall db db', others db db' -> others_may db db') -> reach (R := R) new_array ucmp opts others calls_of opened arr gs st -> bounded seq0 arr -> write_inv arr gs st.
Proof using All.
  intros Ho Hr. induction Hr as [st Hs|arr gs st a g st' Hr IH Hs]; intros Hb; [by apply opened_inv|]. eapply step_both; [apply IH; by eapply bounded_mono|done|exact Ho|exact Hs].
Qed.

Lemma returned_group arr gs st t s : queue_inv seq0 arr gs st -> phase_of t st = Some (Returned s) -> exists g, g ∈ gs /\ t ∈ g_members g /\ g_status g = s.
Proof using.
  intros H Hp. destruct (phase_inv _ _ _ Hp) as (w & Hw). pose proof (qi_known _ _ _ _ H t w _ Hw) as Hin. rewrite (qi_order _ _ _ _ H) in Hin. apply elem_of_app in Hin as [Hin|Hin].
  - apply list_elem_of_In, in_concat in Hin as (ms & H1 & H2). apply in_map_iff in H1 as (g & <- & Hg). apply list_elem_of_In in Hg, H2.
    destruct (qi_left _ _ _ _ H g t Hg H2) as (w' & p' & Hw' & Hcase). rewrite Hw in Hw'. injection Hw' as <- <-. exists g. split; [done|]. split; [done|]. destruct Hcase as [[= ->]|(? & _)]; done.
  - destruct (qi_waiting _ _ _ _ H t Hin) as (w' & q & (Hw' & _) & Hpl). rewrite Hw in Hw'. by injection Hw' as <- <-.
Qed.

(** *** Progress *)

Definition weight (p : Phase) : nat :=
  match p with Awake => 6 | InRoom _ true => 5 | InRoom _ false => 4 | Logging _ _ _ => 3 | Inserting _ _ _ _ _ => 2 | Finishing _ _ _ _ _ => 1 | Asleep | Returned _ => 0 end.
Definition weight_of st (t : nat) : nat := match phase_of t st with Some p => weight p | None => 0 end.
Definition weights st (arr : list nat) : nat := sum_list_with (weight_of st) arr.
Definition measure (arr : list nat) st : nat := length (writers_ st) * (6 * length arr + 1) + weights st arr.

(** The front writer waits for the background. *)
Definition no_room (db : DBImpl E W) : Prop := imm_ db <> None \/ kL0_StopWritesTrigger <= NumLevelFiles 0 (versions_ db).
Definition waits_for_room st st' : Prop :=
  exists t f a f', phase_of t st = Some (InRoom f a) /\ phase_of t st' = Some (InRoom f' a) /\ no_room (db_ st').

Lemma weights_bound st arr : (weights st arr <= 6 * length arr)%nat.
Proof using. unfold weights. induction arr as [|t arr IH]; [done|]. cbn [sum_list_with length]. assert (weight_of st t <= 6)%nat by (unfold weight_of; destruct (phase_of t st) as [[| |? []| | | |]|]; cbn; lia). lia. Qed.

Lemma weights_less st st' arr t : NoDup arr -> t ∈ arr -> (forall x, x <> t -> phase_of x st' = phase_of x st) -> (weight_of st' t < weight_of st t)%nat -> (weights st' arr < weights st arr)%nat.
Proof using.
  intros Hn Hin Hsame Hlt. unfold weights. induction Hn as [|x arr Hx Hn IH]; [by apply elem_of_nil in Hin|]. cbn [sum_list_with]. destruct (decide (x = t)) as [->|Hne].
  - assert (Heq : sum_list_with (weight_of st') arr = sum_list_with (weight_of st) arr); [|lia]. clear -Hx Hsame. induction arr as [|y arr IH]; [done|]. cbn [sum_list_with].
    rewrite IH by set_solver. unfold weight_of. rewrite Hsame by set_solver. done.
  - assert (weight_of st' x = weight_of st x) by (unfold weight_of; by rewrite Hsame). apply elem_of_cons in Hin as [->|Hin]; [done|]. specialize (IH Hin). lia.
Qed.

(** A step to a lower phase of one thread. *)
Lemma measure_phase arr gs st st' t p p' : queue_inv seq0 arr gs st -> writers_ st' = writers_ st -> phase_of t st = Some p -> phase_of t st' = Some p' -> (weight p' < weight p)%nat ->
  (forall x, x <> t -> phase_of x st' = phase_of x st) -> (measure arr st' < measure arr st)%nat.
Proof using.
  intros H Hw Hp Hp' Hlt Hsame. unfold measure. rewrite Hw. assert (weights st' arr < weights st arr)%nat; [|lia]. apply (weights_less st st' arr t); [by apply H| |done|unfold weight_of; by rewrite Hp, Hp'].
  destruct (phase_inv _ _ _ Hp) as (w & Hl). by eapply qi_known.
Qed.

(** The group at the front leaves. *)
Lemma measure_leave arr gs st t last s db tmp : queue_inv seq0 arr gs st -> head (writers_ st) = Some t ->
  (measure arr (leave t last s (mkState db (writers_ st) tmp (threads_ st))) < measure arr st)%nat.
Proof using.
  intros H Ht. pose proof (qi_nodup_writers _ _ _ _ H) as Hn. destruct (leave_spec t last s (mkState db (writers_ st) tmp (threads_ st)) Hn) as (th & -> & _). cbn [writers_ threads_ db_ tmp_batch_].
  unfold measure. cbn [writers_]. set (st1 := mkState _ _ _ _). pose proof (weights_bound st1 arr). assert (length (behind last (writers_ st)) < length (writers_ st))%nat; [|nia].
  unfold behind. rewrite length_drop. destruct (writers_ st) as [|x ws]; [done|]. cbn [upto length]. lia.
Qed.

Lemma phase_set p t st x : phase_of x (set_phase p t st) = if decide (x = t) then (fun _ => p) <$> phase_of x st else phase_of x st.
Proof using. unfold phase_of. rewrite set_phase_lookup. destruct (decide (x = t)); [|done]. by destruct (threads_ st !! x). Qed.

(** A thread goes to a lower phase, whatever happens to the database. *)
Lemma measure_set arr gs st t p p' db : queue_inv seq0 arr gs st -> phase_of t st = Some p -> (weight p' < weight p)%nat -> (measure arr (set_phase p' t (set_db db st)) < measure arr st)%nat.
Proof using.
  intros H Hp Hlt. apply (measure_phase arr gs st _ t p p'); [done|done|done| |done|].
  - rewrite phase_set, decide_True by done. change (phase_of t (set_db db st)) with (phase_of t st). by rewrite Hp.
  - intros x Hx. by rewrite phase_set, decide_False.
Qed.

Lemma measure_lead arr gs st t s p st' gs' : queue_inv seq0 arr gs st -> head (writers_ st) = Some t -> phase_of t st = Some p -> (3 < weight p)%nat -> lead t s st = (st', gs') -> (measure arr st' < measure arr st)%nat.
Proof using.
  intros H Ht Hp Hlt. assert (Hleave : (measure arr (leave t t s st) < measure arr st)%nat).
  { pose proof (measure_leave arr gs st t t s (db_ st) (tmp_batch_ st) H Ht). by destruct st. }
  unfold lead. destruct (batch_of t st) as [b|]; [|by intros [= <- <-]]. destruct (ok s); [|by intros [= <- <-]]. destruct (BuildBatchGroup t b st) as [result last]. intros [= <- <-].
  set (p' := Logging _ _ _). match goal with |- context [set_phase p' t ?x] => set (st1 := x) end. assert (H1 : writers_ st1 = writers_ st /\ forall x, phase_of x st1 = phase_of x st).
  { subst st1. destruct result; [done|]. split; [done|]. intros x. unfold phase_of. rewrite on_thread_lookup. destruct (decide (x = t)); [|done]. by destruct (threads_ st !! x). }
  destruct H1 as [W1 P1]. apply (measure_phase arr gs st _ t p p'); [done|done|done| |done|].
  - rewrite phase_set, decide_True, P1, Hp by done. done.
  - intros x Hx. by rewrite phase_set, decide_False, P1.
Qed.

Lemma MakeRoom_again fuel : forall f a (db : DBImpl E W) f' a' db', MakeRoomForWrite (R := R) new_array opts fuel f a db = Some (RoomAgain f' a', db') ->
  (a = true /\ a' = false) \/ (a' = a /\ no_room db').
Proof using Hro.
  induction fuel as [|fuel IH]; intros f a db f' a' db'; [done|]. cbn [MakeRoomForWrite]. destruct (negb (ok _)); [done|].
  destruct (a && _) eqn:Ea; [intros [= <- <- <-]; left; by apply andb_true_iff in Ea as [-> _]|]. destruct (mem_ db) as [mem|]; [cbn [mbind option_bind]|done]. destruct (negb f && _); [done|].
  destruct (imm_ db) as [im|] eqn:Ei; [intros [= <- <- <-]; right; split; [done|]; left; congruence|].
  destruct (Z.leb_spec kL0_StopWritesTrigger (NumLevelFiles 0 (versions_ db))) as [Hl|Hl]; [intros [= <- <- <-]; right; split; [done|]; by right|].
  cbn [NewFileNumber]. destruct (read_only opts); [by intros ?%IH|]. destruct (NewWritableFile _ _) as [[s|file] env]; [done|]. by intros ?%IH.
Qed.

(** With room, the front writer does not wait for it. *)
Lemma MakeRoom_free f a (db : DBImpl E W) : imm_ db = None -> NumLevelFiles 0 (versions_ db) < kL0_StopWritesTrigger -> 4100 <= write_buffer_size opts -> is_Some (mem_ db) ->
  exists r db', MakeRoomForWrite (R := R) new_array opts 2 f a db = Some (r, db') /\ forall f' a', r = RoomAgain f' a' -> a = true /\ a' = false.
Proof using Hro.
  intros Himm Hl0 Hbuf [mem Em]. 
  assert (Hnext : forall d m, mem_ d = Some m -> ApproximateMemoryUsage m = 4100 -> exists r db', MakeRoomForWrite (R := R) new_array opts 1 false a d = Some (r, db') /\ forall f' a', r = RoomAgain f' a' -> a = true /\ a' = false).
  { intros d m Emd Eu. cbn [MakeRoomForWrite]. destruct (negb (ok _)); [by do 2 eexists|]. destruct (a && _) eqn:Ea.
    - do 2 eexists. split; [reflexivity|]. intros f' a' [= <- <-]. by apply andb_true_iff in Ea as [-> _].
    - rewrite Emd. cbn [mbind option_bind negb andb]. rewrite Eu. destruct (Z.leb_spec 4100 (write_buffer_size opts)); [by do 2 eexists|lia]. }
  revert Hnext. generalize 1%nat. intros n Hnext. cbn [MakeRoomForWrite]. destruct (negb (ok _)); [by do 2 eexists|]. destruct (a && _) eqn:Ea.
  { do 2 eexists. split; [reflexivity|]. intros f' a' [= <- <-]. by apply andb_true_iff in Ea as [-> _]. }
  rewrite Em. cbn [mbind option_bind]. destruct (negb f && _); [by do 2 eexists|]. rewrite Himm. destruct (Z.leb_spec kL0_StopWritesTrigger (NumLevelFiles 0 (versions_ db))); [lia|].
  cbn [NewFileNumber]. rewrite Hro. destruct (NewWritableFile _ _) as [[s|file] env]; [by do 2 eexists|].
  match goal with |- context [MaybeScheduleCompaction ?d] => destruct (MaybeSchedule_fields d) as (b & k & ->) end. eapply Hnext; reflexivity.
Qed.

Lemma room_ends arr gs st t f a r db p : queue_inv seq0 arr gs st -> head (writers_ st) = Some t -> phase_of t st = Some p -> (3 < weight p)%nat ->
  MakeRoomForWrite (R := R) new_array opts 2 f a (db_ st) = Some (r, db) -> (forall f' a', r = RoomAgain f' a' -> (weight (InRoom f' a') < weight p)%nat) ->
  exists gs' st', room (R := R) new_array opts t f a st = Some (st', gs') /\ (measure arr st' < measure arr st)%nat.
Proof using Hro EnvFilesLaws0.
  intros H Ht Hp Hlt Er Hr. unfold room. rewrite Er. cbn [mbind option_bind]. destruct (MakeRoom_spec new_array opts 2 Hro _ _ _ _ _ Er) as [(M1 & _) _]. destruct r as [s|f' a'].
  - destruct (lead t s (set_db db st)) as [st' gs'] eqn:El. exists gs', st'. split; [done|].
    exact (measure_lead arr gs (set_db db st) t s p st' gs' (queue_db _ _ _ _ db H M1) Ht Hp Hlt El).
  - exists [], (set_phase (InRoom f' a') t (set_db db st)). split; [done|]. apply (measure_set arr gs st t p); [done|done|by apply Hr].
Qed.

(** The thread at the front, by its phase, and its step. *)
Lemma front_moves arr gs st : write_inv arr gs st -> bounded seq0 arr -> writers_ st <> [] ->
  exists t p, head (writers_ st) = Some t /\ phase_of t st = Some p /\ ((exists f a, p = InRoom f a) \/
    exists gs' st', move (R := R) new_array ucmp opts st gs' st' /\ (measure arr st' < measure arr st)%nat).
Proof using All.
  intros [H Hm] Hb Hne. destruct (head (writers_ st)) as [t|] eqn:Ht; [|by destruct (writers_ st)]. destruct (qi_waiting _ _ _ _ H t (head_in _ _ Ht)) as (w & p & (Hw & Hd & Hsy & Hba) & Hpl).
  pose proof (phase_lookup _ _ _ _ Hw) as Hp. exists t, p. split; [done|]. split; [done|]. cbn [fst] in *. rewrite (stage_head st t p Ht Hp) in Hm.
  destruct p as [| |f a|own ls last|own ls last s se|own ls last s se|s]; cbn in Hpl; [done| |by left; eauto| | | |done]; right; cbn [stage_of] in Hm.
  - destruct Hm as (fl & im & me & H1 & (m0 & es' & Em & _) & _). set (force := match w_batch w with None => true | Some _ => false end).
    destruct (MakeRoom_returns new_array opts force (negb force) (db_ st)) as (r & db & Er); [by eexists|].
    destruct (room_ends arr gs st t force (negb force) r db Awake H Ht Hp ltac:(cbn; lia) Er) as (gs' & st' & E1 & E2); [intros f' [] _; cbn; lia|].
    exists gs', st'. split; [|done]. apply (move_look _ _ _ t); [done|]. unfold look. rewrite Hw. cbn [mbind option_bind]. rewrite Hd, bool_decide_eq_false_2 by tauto. exact E1.
  - destruct (proj1 (leading_group st t _ own ls last Ht Hp eq_refl) (qi_leader _ _ _ _ H)) as (R1 & R2 & R3 & _).
    destruct (mem_log ucmp seq0 es0 gs (db_ st) (last_seq st + 1) (group_ops (upto last (writers_ st))) (sync_of t st) (logfile_number_ (db_ st)) Hm) as (log & s & log1 & E1 & E2 & _).
    destruct (log_step t own ls last st) as [st'|] eqn:El.
    + exists [], st'. split; [by eapply move_log|]. unfold log_step, Contents in El. rewrite E1 in El. cbn [mbind option_bind] in El. rewrite R3, E2 in El. cbn [mbind option_bind] in El.
      destruct (if ok s && sync_of t st then _ else _) as [[s2 se] log2]. injection El as <-. apply (measure_set arr gs st t _ _ _ H Hp). cbn. lia.
    + exfalso. unfold log_step, Contents in El. rewrite E1 in El. cbn [mbind option_bind] in El. rewrite R3, E2 in El. cbn [mbind option_bind] in El. by destruct (if ok s && sync_of t st then _ else _) as [[s2 se] log2].
  - destruct (proj1 (leading_group st t _ own ls last Ht Hp eq_refl) (qi_leader _ _ _ _ H)) as (R1 & R2 & R3 & R4 & R5 & _). destruct (insert_step new_array ucmp t own ls last s se st) as [st'|] eqn:El.
    + exists [], st'. split; [by eapply move_insert|]. unfold insert_step in El. destruct (ok s).
      * destruct (InsertInto _ _ _) as [[mem|] s']; [|done]. injection El as <-. apply (measure_set arr gs st t _ _ _ H Hp). cbn. lia.
      * injection El as <-. pose proof (measure_set arr gs st t _ (Finishing own ls last s se) (db_ st) H Hp ltac:(cbn; lia)) as Hlt. by destruct st.
    + exfalso. unfold insert_step in El. destruct (ok s) eqn:Es; [|done].
      destruct (seq_room seq0 Hseq0 arr gs st last H Hb) as [_ Hmax]. destruct (group_ops_ok (upto last (writers_ st))) as [O1 O2]. unfold group_entries in Hm. rewrite (qi_seq _ _ _ _ H) in Hm, Hmax.
      destruct (mem_insert new_array ucmp seq0 es0 Hnd Hdis Hle gs (db_ st) s se _ Hm Es Hseq0 O1 O2 R5 Hmax) as (mem & E1 & Hm'). rewrite R3, (qi_seq _ _ _ _ H), E1 in El. done.
  - destruct (finish_step t own ls last s se st) as [st' gs'] eqn:El. exists gs', st'. split; [by eapply move_finish|]. unfold finish_step in El. injection El as <- <-. by apply (measure_leave arr gs).
Qed.

Definition returned st (t : nat) : Prop := exists s, phase_of t st = Some (Returned s).

#[local] Instance returned_dec st t : Decision (returned st t).
Proof using. unfold returned. destruct (phase_of t st) as [[]|]; try (right; by intros [? ?]). left. by eexists. Defined.

(** A thread whose group has left only has to see it. *)
Lemma left_moves arr gs st t : write_inv arr gs st -> t ∈ arr -> t ∉ writers_ st -> returned st t \/
  exists st', move (R := R) new_array ucmp opts st [] st' /\ (measure arr st' < measure arr st)%nat.
Proof using.
  intros [H _] Hin Hout. rewrite (qi_order _ _ _ _ H) in Hin. apply elem_of_app in Hin as [Hin|Hin]; [|done]. apply list_elem_of_In, in_concat in Hin as (ms & H1 & H2). apply in_map_iff in H1 as (g & <- & Hg). apply list_elem_of_In in Hg, H2.
  destruct (qi_left _ _ _ _ H g t Hg H2) as (w & p & Hw & Hcase). pose proof (phase_lookup _ _ _ _ Hw) as Hp. destruct Hcase as [->|(-> & Hd & _)]; [left; by eexists|]. right.
  exists (set_phase (Returned (w_status w)) t (set_db (db_ st) st)). split.
  - apply (move_look _ _ _ t); [done|]. unfold look. rewrite Hw. cbn [mbind option_bind]. rewrite Hd. by destruct st.
  - apply (measure_set arr gs st t Awake); [done|done|cbn; lia].
Qed.

(** [MakeRoomForWrite] is left for good, or not. *)
Lemma room_measure arr gs st t f a p st' gs' : queue_inv seq0 arr gs st -> head (writers_ st) = Some t -> phase_of t st = Some p -> (3 < weight p)%nat ->
  (p = Awake \/ exists f', p = InRoom f' a) -> room (R := R) new_array opts t f a st = Some (st', gs') -> (measure arr st' < measure arr st)%nat \/ waits_for_room st st'.
Proof using Hro EnvFilesLaws0.
  intros H Ht Hp Hlt Hcase Hl. destruct (MakeRoomForWrite (R := R) new_array opts 2 f a (db_ st)) as [[r db]|] eqn:Er; [|unfold room in Hl; by rewrite Er in Hl].
  assert (Hr : (forall f' a', r = RoomAgain f' a' -> (weight (InRoom f' a') < weight p)%nat) \/ exists f' f0, r = RoomAgain f' a /\ p = InRoom f0 a /\ no_room db).
  { destruct r as [s|f' a']; [by left|]. destruct (MakeRoom_again 2 f a (db_ st) f' a' db Er) as [[-> ->]|[-> Hn]].
    - left. intros ? ? [= <- <-]. destruct Hcase as [->|[f0 ->]]; cbn; lia.
    - destruct Hcase as [->|[f0 ->]]; [left; intros ? ? [= <- <-]; destruct a; cbn; lia|right; by exists f', f0]. }
  destruct Hr as [Hr|(f' & f0 & -> & -> & Hn)].
  - left. destruct (room_ends arr gs st t f a r db p H Ht Hp Hlt Er Hr) as (gs2 & st2 & E1 & E2). rewrite E1 in Hl. by injection Hl as <- <-.
  - right. unfold room in Hl. rewrite Er in Hl. cbn [mbind option_bind] in Hl. injection Hl as <- <-. exists t, f0, a, f'. split; [done|]. split; [|done].
    rewrite phase_set, decide_True by done. change (phase_of t (set_db db st)) with (phase_of t st). by rewrite Hp.
Qed.

(** A step of a thread brings the end nearer, unless it waits for the background. *)
Lemma move_measure arr gs st g st' : write_inv arr gs st -> move (R := R) new_array ucmp opts st g st' -> (measure arr st' < measure arr st)%nat \/ waits_for_room st st'.
Proof using Hro EnvFilesLaws0.
  intros [H _] Hmove.
  destruct Hmove as [t st st' gs' Hp Hl|t f a st st' gs' Hp Hl|t own ls last st st' Hp Hl|t own ls last s se st st' Hp Hl|t own ls last s se st st' gs' Hp Hl].
  - unfold look in Hl. destruct (phase_inv _ _ _ Hp) as (w & Hw). rewrite Hw in Hl. cbn [mbind option_bind] in Hl.
    assert (Hset : forall p', (weight p' < 6)%nat -> (measure arr (set_phase p' t st) < measure arr st)%nat).
    { intros p' Hlt. pose proof (measure_set arr gs st t Awake p' (db_ st) H Hp Hlt) as Hs. by destruct st. }
    destruct (w_done w); [injection Hl as <- <-; left; apply Hset; cbn; lia|]. case_bool_decide as Hh; [injection Hl as <- <-; left; apply Hset; cbn; lia|].
    destruct (decide (head (writers_ st) = Some t)) as [Ht|]; [|done]. eapply room_measure; [exact H|exact Ht|exact Hp|cbn; lia|by left|exact Hl].
  - eapply room_measure; [exact H|by eapply working_head|exact Hp|destruct a; cbn; lia|right; by eexists|exact Hl].
  - left. unfold log_step in Hl. destruct (log_ (db_ st)) as [log|]; [|done]. cbn [mbind option_bind] in Hl. destruct (AddRecord _ _) as [[s log']|]; [|done]. cbn [mbind option_bind] in Hl.
    repeat case_match; injection Hl as <-; apply (measure_set arr gs st t _ _ _ H Hp); cbn; lia.
  - left. unfold insert_step in Hl. destruct (ok s).
    + destruct (InsertInto _ _ _) as [[mem|] s']; [|done]. injection Hl as <-. apply (measure_set arr gs st t _ _ _ H Hp). cbn. lia.
    + injection Hl as <-. pose proof (measure_set arr gs st t _ (Finishing own ls last s se) (db_ st) H Hp ltac:(cbn; lia)) as Hlt. by destruct st.
  - left. unfold finish_step in Hl. injection Hl as <- <-. apply (measure_leave arr gs); [done|]. by eapply working_head.
Qed.

(** No thread waits for ever for another writer. *)
Lemma not_stuck arr gs st t : write_inv arr gs st -> bounded seq0 arr -> t ∈ arr -> ~ returned st t -> exists g st', move (R := R) new_array ucmp opts st g st'.
Proof using All.
  intros H Hb Hin Hr. destruct (decide (writers_ st = [])) as [Hw|Hw].
  - destruct (left_moves arr gs st t H Hin) as [?|(st' & Hm & _)]; [rewrite Hw; apply not_elem_of_nil|done|by exists [], st'].
  - destruct (front_moves arr gs st H Hb Hw) as (x & p & Hx & Hp & [(f & a & ->)|(gs' & st' & Hm & _)]); [|by exists gs', st'].
    destruct H as [H Hm]. rewrite (stage_head st x _ Hx Hp) in Hm. destruct Hm as (fl & im & me & H1 & (m0 & es' & Em & _) & _).
    destruct (MakeRoom_returns new_array opts f a (db_ st)) as (r & db & Er); [by eexists|].
    assert (Hroom : exists st' gs', room (R := R) new_array opts x f a st = Some (st', gs')).
    { unfold room. rewrite Er. cbn [mbind option_bind]. destruct r as [s|f' a']; [|eauto]. destruct (lead x s (set_db db st)) as [st' gs']. eauto. }
    destruct Hroom as (st' & gs' & E'). exists gs', st'. by eapply move_room.
Qed.

(** Where the background can make room, all the calls can return. *)
Lemma all_return others : (forall db db', others db db' -> others_may db db') -> 4100 <= write_buffer_size opts ->
  (forall db, exists db', others db db' /\ ~ no_room db') ->
  forall n arr gs st, reach (R := R) new_array ucmp opts others calls_of opened arr gs st -> bounded seq0 arr -> (measure arr st < n)%nat ->
  exists gs' st', reach (R := R) new_array ucmp opts others calls_of opened arr (gs ++ gs') st' /\ forall t, t ∈ arr -> returned st' t.
Proof using All.
  intros Hoth Hbuf Hroom. induction n as [|n IH]; intros arr gs st Hr Hb Hlt; [lia|]. pose proof (reach_inv others arr gs st Hoth Hr Hb) as Hinv.
  assert (Hgo : forall gs' st', reach (R := R) new_array ucmp opts others calls_of opened arr (gs ++ gs') st' -> (measure arr st' < measure arr st)%nat ->
    exists gs' st', reach (R := R) new_array ucmp opts others calls_of opened arr (gs ++ gs') st' /\ forall t, t ∈ arr -> returned st' t).
  { intros gs' st' Hr' Hm'. destruct (IH arr (gs ++ gs') st' Hr' Hb ltac:(lia)) as (gs2 & st2 & Hr2 & Hall). rewrite <- app_assoc in Hr2. by exists (gs' ++ gs2), st2. }
  assert (Hmove : forall g st', move (R := R) new_array ucmp opts st g st' -> reach (R := R) new_array ucmp opts others calls_of opened arr (gs ++ g) st').
  { intros g st' Hm. rewrite <- (app_nil_r arr). eapply reach_step; [exact Hr|by constructor]. }
  destruct (decide (writers_ st = [])) as [Hw|Hw].
  - destruct (decide (Forall (returned st) arr)) as [Hall|Hnot].
    + exists [], st. rewrite app_nil_r. split; [done|]. by apply Forall_forall.
    + apply (not_Forall_Exists _) in Hnot. apply Exists_exists in Hnot as (t & Ht & Hn).
      destruct (left_moves arr gs st t Hinv Ht) as [Hs|(st' & Hm & Hlt')]; [rewrite Hw; apply not_elem_of_nil|done|]. apply (Hgo [] st'); [by apply Hmove|done].
  - destruct (front_moves arr gs st Hinv Hb Hw) as (x & p & Hx & Hp & [(f & a & ->)|(gs' & st' & Hm & Hlt')]); [|apply (Hgo gs' st'); [by apply Hmove|done]].
    destruct (Hroom (db_ st)) as (db & Ho & Hfree). assert (Hr1 : reach (R := R) new_array ucmp opts others calls_of opened arr gs (set_db db st)).
    { rewrite <- (app_nil_r arr), <- (app_nil_r gs). eapply reach_step; [exact Hr|by constructor]. }
    pose proof (reach_inv others arr gs _ Hoth Hr1 Hb) as [H1 Hm1]. rewrite (stage_head (set_db db st) x (InRoom f a) Hx Hp) in Hm1. destruct Hm1 as (fl & im & me & _ & (m0 & es' & Em & _) & _).
    assert (Hni : imm_ db = None) by (destruct (imm_ db) eqn:Ei; [|done]; exfalso; apply Hfree; left; congruence).
    destruct (MakeRoom_free f a db) as (r & db2 & Er & Hra); [done|destruct (Z.lt_ge_cases (NumLevelFiles 0 (versions_ db)) kL0_StopWritesTrigger); [done|]; exfalso; apply Hfree; by right|done|by eexists|].
    destruct (room_ends arr gs (set_db db st) x f a r db2 (InRoom f a) H1 Hx Hp) as (gs' & st' & E1 & E2); [destruct a; cbn; lia|done|intros f' a' Era; destruct (Hra f' a' Era) as [-> ->]; cbn; lia|].
    apply (Hgo gs' st'); [|exact E2]. rewrite <- (app_nil_r arr). eapply reach_step; [exact Hr1|]. constructor. by eapply move_room.
Qed.
End Both.
End Requests.

(** ** Properties *)

(** C10: The writers share the log in order.  In every state that calls of [Write] and
    other threads can reach, the calls that entered the queue are, in order, those of the
    groups that have left it and then those that wait; a call returns the status of its
    one group; a group that was written has the operations of its calls, in order and with
    the sequence numbers that follow those of the group before, and a call that asks for a
    sync is in a group that was synced.  The entries of the groups that succeeded are, in
    order, in the tables, in the memtable that is compacted and in the current one, the
    last of which the log repeats, ahead of it only by the group that is being written or
    by one that could not be synced, after which nothing more is written. *)
Theorem write_queue {E W R : Type} `{!EnvFiles E W R} `{!WritableFile W} `{!WritableFileLaws W} `{!EnvFilesLaws E W R}
    (request : nat -> bool * option (Z * list BatchOp)) (new_array : list (Z * Z) -> Z -> Z) (ucmp : Comparator) `{!ComparatorLaws ucmp} (opts : DBOptions)
    (seq0 : Z) (es0 : list MemTable.entry) (others : DBImpl E W -> DBImpl E W -> Prop) arr gs (st : WriteState E W) :
  (forall t, request_ok request t) -> 0 <= seq0 -> read_only opts = false ->
  NoDup es0 -> MemTable.distinct ucmp es0 -> Forall (fun e => MemTable.e_seq e <= seq0) es0 -> (forall db db', others db db' -> others_may db db') ->
  reach (R := R) new_array ucmp opts others (calls_of request) (opened ucmp seq0 es0) arr gs st -> bounded request seq0 arr ->
  arr = concat (map g_members gs) ++ writers_ st /\ NoDup arr /\
  (forall t s, phase_of t st = Some (Returned s) -> exists g, g ∈ gs /\ t ∈ g_members g /\ g_status g = s) /\
  groups_ok request seq0 gs /\ vs_last_sequence_ (versions_ (db_ st)) = seq0 + total request gs /\
  mem_inv request ucmp seq0 es0 gs (db_ st) (stage request st).
Proof.
  intros Hok Hs Hro Hn Hd Hle Ho Hr Hb. destruct (reach_inv request new_array ucmp opts Hok seq0 es0 Hs Hro Hn Hd Hle others arr gs st Ho Hr Hb) as [H Hm].
  split; [apply H|]. split; [apply H|]. split; [intros t s; by apply (returned_group request seq0 arr)|]. split; [apply H|]. split; [apply H|exact Hm].
Qed.

(** C11: No writer waits for ever.  As long as a call has not returned some thread can take
    a step; every step of a thread lowers a measure, unless the front writer waits for
    room; and where other threads can always make room, all the calls can return. *)
Theorem write_queue_live {E W R : Type} `{!EnvFiles E W R} `{!WritableFile W} `{!WritableFileLaws W} `{!EnvFilesLaws E W R}
    (request : nat -> bool * option (Z * list BatchOp)) (new_array : list (Z * Z) -> Z -> Z) (ucmp : Comparator) `{!ComparatorLaws ucmp} (opts : DBOptions)
    (seq0 : Z) (es0 : list MemTable.entry) (others : DBImpl E W -> DBImpl E W -> Prop) arr gs (st : WriteState E W) :
  (forall t, request_ok request t) -> 0 <= seq0 -> read_only opts = false -> 4100 <= write_buffer_size opts ->
  NoDup es0 -> MemTable.distinct ucmp es0 -> Forall (fun e => MemTable.e_seq e <= seq0) es0 -> (forall db db', others db db' -> others_may db db') ->
  reach (R := R) new_array ucmp opts others (calls_of request) (opened ucmp seq0 es0) arr gs st -> bounded request seq0 arr ->
  (forall t, t ∈ arr -> ~ returned st t -> exists g st', move (R := R) new_array ucmp opts st g st') /\
  (forall g st', move (R := R) new_array ucmp opts st g st' -> (measure arr st' < measure arr st)%nat \/ waits_for_room st st') /\
  ((forall db, exists db', others db db' /\ ~ no_room db') ->
   exists gs' st', reach (R := R) new_array ucmp opts others (calls_of request) (opened ucmp seq0 es0) arr (gs ++ gs') st' /\ forall t, t ∈ arr -> returned st' t).
Proof.
  intros Hok Hs Hro Hbuf Hn Hd Hle Ho Hr Hb. pose proof (reach_inv request new_array ucmp opts Hok seq0 es0 Hs Hro Hn Hd Hle others arr gs st Ho Hr Hb) as Hinv. split; [|split].
  - intros t Ht Hnr. by apply (not_stuck request new_array ucmp opts Hok seq0 es0 Hs Hro Hn Hd Hle arr gs st t).
  - intros g st' Hm. by apply (move_measure request new_array ucmp opts seq0 es0 Hro arr gs st g).
  - intros Hroom. by apply (all_return request new_array ucmp opts Hok seq0 es0 Hs Hro Hn Hd Hle others Ho Hbuf Hroom (S (measure arr st)) arr gs st Hr Hb); lia.
Qed.

(** *** An example *)

Section Run.
Context {E W R : Type} `{!EnvFiles E W R} `{!WritableFile W}.
Context (new_array : list (Z * Z) -> Z -> Z) (ucmp : Comparator) (opts : DBOptions) (calls : nat -> bool * option WriteBatch).
Implicit Types st : WriteState E W.

(** The step of a thread that calls [Write] or is in it. *)
Definition thread_step (t : nat) st : option (list nat * list Group * WriteState E W) :=
  match phase_of t st with
  | None =>
      match threads_ st !! t with
      | Some _ => None
      | None => '(st', gs) ← enter (R := R) new_array opts t (fst (calls t)) (snd (calls t)) st; Some (if read_only opts then [] else [t], gs, st')
      end
  | Some Awake => '(st', gs) ← look (R := R) new_array opts t st; Some ([], gs, st')
  | Some (InRoom f a) => '(st', gs) ← room (R := R) new_array opts t f a st; Some ([], gs, st')
  | Some (Logging own ls last) => st' ← log_step t own ls last st; Some ([], [], st')
  | Some (Inserting own ls last s se) => st' ← insert_step new_array ucmp t own ls last s se st; Some ([], [], st')
  | Some (Finishing own ls last s se) => let '(st', gs) := finish_step t own ls last s se st in Some ([], gs, st')
  | Some Asleep => Some ([], [], set_phase Awake t st)
  | Some (Returned _) => None
  end.

Fixpoint run (schedule : list nat) (arr : list nat) (gs : list Group) st : option (list nat * list Group * WriteState E W) :=
  match schedule with
  | [] => Some (arr, gs, st)
  | t :: schedule => '(a, g, st') ← thread_step t st; run schedule (arr ++ a) (gs ++ g) st'
  end.

Lemma run_reach others start schedule : forall arr gs st r, reach (R := R) new_array ucmp opts others calls start arr gs st -> run schedule arr gs st = Some r ->
  reach (R := R) new_array ucmp opts others calls start (fst (fst r)) (snd (fst r)) (snd r).
Proof.
  induction schedule as [|t schedule IH]; intros arr gs st r Hr; cbn [run]; [by intros [= <-]|]. destruct (thread_step t st) as [[[a g] st']|] eqn:Es; [|done]. cbn [mbind option_bind].
  apply IH. eapply reach_step; [exact Hr|]. unfold thread_step in Es. destruct (phase_of t st) as [p|] eqn:Ep.
  - destruct p; try done.
    + injection Es as <- <- <-. by apply step_wake.
    + destruct (look _ _ _ _) as [[st2 g2]|] eqn:El; [|done]. injection Es as <- <- <-. apply step_move. by eapply move_look.
    + destruct (room _ _ _ _ _ _) as [[st2 g2]|] eqn:El; [|done]. injection Es as <- <- <-. apply step_move. by eapply move_room.
    + destruct (log_step _ _ _ _ _) as [st2|] eqn:El; [|done]. injection Es as <- <- <-. apply step_move. by eapply move_log.
    + destruct (insert_step _ _ _ _ _ _ _ _ _) as [st2|] eqn:El; [|done]. injection Es as <- <- <-. apply step_move. by eapply move_insert.
    + destruct (finish_step _ _ _ _ _ _ _) as [st2 g2] eqn:El. injection Es as <- <- <-. apply step_move. by eapply move_finish.
  - destruct (threads_ st !! t) eqn:Et; [done|]. destruct (enter _ _ _ _ _ _) as [[st2 g2]|] eqn:El; [|done]. injection Es as <- <- <-. by apply step_enter.
Qed.
End Run.

(** Five calls: the third asks for a sync, the fourth has no batch. *)
Definition sample_request (t : nat) : bool * option (Z * list BatchOp) :=
  match t with
  | 0%nat => (false, Some (0, [OpPut (str "a") (str "1")]))
  | 1%nat => (false, Some (0, [OpPut (str "b") (str "2"); OpDelete (str "a")]))
  | 2%nat => (true, Some (0, [OpPut (str "c") (str "3")]))
  | 3%nat => (false, None)
  | _ => (false, Some (0, [OpPut (str "a") (str "4")]))
  end.

Definition writing_db : DBImpl bytes bytes := set_log (Some (Writer_make [])) 4
  (set_mems (Some (MemTable_make Arena.next_array)) None (set_vset second_set (DBImpl_make (str "/db/") (str "test") []))).
Definition sample_start : WriteState bytes bytes := mkState writing_db [] Clear ∅.

(** The first call leads alone while the others queue up. *)
Definition sample_schedule : list nat := ([0; 1; 4; 2; 3; 0; 0; 0; 1; 1; 1; 1; 2; 2; 2]%nat).
Definition sample_run : list nat * list Group * WriteState bytes bytes :=
  default ([], [], sample_start) (run (R := bytes) Arena.next_array BytewiseComparator sample_db_options (calls_of sample_request) sample_schedule [] [] sample_start).

(** Other threads that have flushed everything. *)
Definition flush_all (db db' : DBImpl bytes bytes) : Prop :=
  db' = set_mems (mem_ db) None (set_vset (VersionSet_SetLastSequence (vs_last_sequence_ (versions_ db)) new_set) db).

Lemma sample_requests_ok t : request_ok sample_request t.
Proof.
  unfold request_ok, ops_of, request_batch. destruct t as [|[|[|[|t]]]]; cbn [sample_request fst snd fmap option_fmap option_map]; (split; [repeat constructor; cbn; lia|]); (split; [repeat constructor; cbn; lia|]);
    intros b Hb; try discriminate Hb; apply (inj Some) in Hb; rewrite <- Hb; vm_compute; reflexivity.
Qed.

Lemma sample_start_opened : opened BytewiseComparator 0 [] sample_start.
Proof.
  split; [done|]. split; [done|]. split; [done|]. split; [vm_compute; reflexivity|]. split.
  - eexists _, []. split; [reflexivity|]. split; [|done]. apply MemTable.make_rep.
  - split; [done|]. exists (Writer_make []), []. split; [done|]. split; [done|]. split; [unfold kBlockSize; cbn; lia|]. split; [by constructor|done].
Qed.

Lemma flush_all_may db db' : flush_all db db' -> others_may db db'.
Proof. intros ->. unfold others_may. cbn. auto 10. Qed.

Lemma sample_run_reach : reach (R := bytes) Arena.next_array BytewiseComparator sample_db_options flush_all (calls_of sample_request) (opened BytewiseComparator 0 []) (fst (fst sample_run)) (snd (fst sample_run)) (snd sample_run).
Proof.
  apply (run_reach Arena.next_array BytewiseComparator sample_db_options (calls_of sample_request) flush_all _ sample_schedule [] [] sample_start).
  - apply reach_start, sample_start_opened.
  - assert (H : match run (R := bytes) Arena.next_array BytewiseComparator sample_db_options (calls_of sample_request) sample_schedule [] [] sample_start with Some _ => true | None => false end = true) by (vm_compute; reflexivity).
    unfold sample_run. by destruct (run _ _ _ _ _ _ _ _).
Qed.

Lemma write_queue_witness :
  (fst (fst sample_run) = [0; 1; 4; 2; 3]%nat /\ map g_members (snd (fst sample_run)) = [[0]; [1; 4]]%nat /\ writers_ (snd sample_run) = [2; 3]%nat) /\
  groups_ok sample_request 0 (snd (fst sample_run)) /\ mem_inv sample_request BytewiseComparator 0 [] (snd (fst sample_run)) (db_ (snd sample_run)) (stage sample_request (snd sample_run)).
Proof.
  split; [vm_compute; auto|].
  destruct (write_queue (R := bytes) sample_request Arena.next_array BytewiseComparator sample_db_options 0 [] flush_all (fst (fst sample_run)) (snd (fst sample_run)) (snd sample_run)) as (_ & _ & _ & H1 & _ & H2).
  - exact sample_requests_ok.
  - lia.
  - reflexivity.
  - constructor.
  - intros a b Ha. by apply elem_of_nil in Ha.
  - constructor.
  - exact flush_all_may.
  - exact sample_run_reach.
  - unfold bounded. vm_compute. reflexivity.
  - by split.
Defined.

Lemma write_queue_live_witness : exists gs st, map g_members (take 2 gs) = [[0]; [1; 4]]%nat /\ forall t, t ∈ [0; 1; 4; 2; 3]%nat -> returned (E := bytes) (W := bytes) st t.
Proof.
  destruct (write_queue_live (R := bytes) sample_request Arena.next_array BytewiseComparator sample_db_options 0 [] flush_all (fst (fst sample_run)) (snd (fst sample_run)) (snd sample_run)) as (_ & _ & H).
  - exact sample_requests_ok.
  - lia.
  - reflexivity.
  - cbn. lia.
  - constructor.
  - intros a b Ha. by apply elem_of_nil in Ha.
  - constructor.
  - exact flush_all_may.
  - exact sample_run_reach.
  - unfold bounded. vm_compute. reflexivity.
  - destruct H as (gs & st & _ & H).
    { intros db. eexists. split; [reflexivity|]. intros [Hc|Hc]; [done|]. cbn in Hc. revert Hc. vm_compute. done. }
    exists (snd (fst sample_run) ++ gs), st. assert (Harr : fst (fst sample_run) = [0; 1; 4; 2; 3]%nat) by (vm_compute; reflexivity). rewrite Harr in H. split; [|exact H]. clear H Harr.
    assert (Hm : map g_members (snd (fst sample_run)) = [[0]; [1; 4]]%nat) by (vm_compute; reflexivity).
    assert (Hl : length (snd (fst sample_run)) = 2%nat) by (by rewrite <- (length_map g_members), Hm). by rewrite take_app_le, take_ge by lia.
Defined.
