(* ===== verification/Recovery.v ===== *)
(** * Recovery: opening, closing and destroying a database

    Models of [db/db_impl.cpp] the making of a new database, the recovery of the manifest
    and of the logs, [DB::Open], the destructor and [DestroyDB].  The lock is held when the
    flag that is passed along is set. *)

From stdpp Require Import sorting.
From S2P Require Import Prelude Coding Slice Logging Comparator DbFormat WriteBatch VersionEdit Iterator Env Log FileName Version VersionSet DBImpl WriteQueue.
From S2P Require MemTable TableBuilder.
Import MemTable(MemTable, MemTable_make, ApproximateMemoryUsage).
Import Format(SnappyLib).

Section Recovery.
Context {E W R : Type} `{!EnvFiles E W R} `{!EnvDirs E} `{!TableCacheOps E} `{!WritableFile W} `{!SequentialFile R}.
Context (snappy : option SnappyLib) (new_array : list (Z * Z) -> Z -> Z) (ucmp : Comparator) (opts : DBOptions).
Implicit Types db : DBImpl E W.

Abbreviation dbpath db := (dbpath_ (versions_ db)).
Abbreviation dbname db := (dbname_ (versions_ db)).
Definition paranoid_checks : bool := TableBuilder.paranoid_checks (table_options opts).

(** ** A new database *)

Definition new_db_edit : VersionEdit :=
  SetLastSequence 0 (SetNextFile 2 (SetLogNumber 0 (SetComparatorName (Name ucmp) VersionEdit_make))).

(** [None] does not happen: [AddRecord] returns. *)
Definition NewDB db : option (Status * DBImpl E W) :=
  let manifest := DescriptorFileName (dbpath db) (dbname db) 1 in
  match NewWritableFile manifest (env_ db) with
  | (inl s, env) => Some (s, set_env env db)
  | (inr file, env) =>
      '(s, log) ← AddRecord (EncodeTo new_db_edit []) (Writer_make file);
      let '(s, file) := if ok s then Close (dest log) else (s, dest log) in
      let db := set_env env db in
      if ok s then Some (SetCurrentFile (dbpath db) (dbname db) 1, db)
      else Some (s, set_env (snd (EnvDeleteFile manifest (env_ db))) db)
  end.

(** ** The logs *)

(** What changes while a log is read: the status, the memtable, the compactions of it,
    [*save_manifest], [*edit], [*max_sequence] and the database. *)
Record LogState : Type := mkLogState {
  l_status : Status;
  l_mem : option MemTable;
  l_compactions : Z;
  l_save_manifest : bool;
  l_edit : VersionEdit;
  l_max_sequence : Z;
  l_db : DBImpl E W
}.

Definition set_l_status (s : Status) (l : LogState) : LogState :=
  mkLogState s (l_mem l) (l_compactions l) (l_save_manifest l) (l_edit l) (l_max_sequence l) (l_db l).

(** [reporter.Corruption], for the reports that the reader has made since. *)
Definition note_reports (old : nat) (reports : list (Z * Status)) (l : LogState) : LogState :=
  if paranoid_checks then set_l_status (with_reports (l_status l) old reports) l else l.
Definition report_small (l : LogState) : LogState :=
  if paranoid_checks && ok (l_status l) then set_l_status (Corruption (str "log record too small") []) l else l.

(** The memtable is written to a table. *)
Definition flush (mem : MemTable) (l : LogState) : option LogState :=
  '(s, edit, db) ← WriteLevel0Table snappy ucmp opts mem (l_edit l) None (l_db l);
  Some (mkLogState s None (l_compactions l) true edit (l_max_sequence l) db).

(** The body of the loop from [SetContents] on, and whether it is left by [break]. *)
Definition recover_batch (record : bytes) (l : LogState) : option (bool * LogState) :=
  let batch := SetContents WriteBatch.Clear record in
  let mem := match l_mem l with Some mem => mem | None => MemTable.Ref (MemTable_make new_array) end in
  let '(mem, s) := InsertInto (fun s t k v m => m ≫= MemTable.Add new_array ucmp s t k v) batch (Some mem) in
  mem ← mem;
  let s := MaybeIgnoreError opts s in
  if negb (ok s) then Some (true, mkLogState s (Some mem) (l_compactions l) (l_save_manifest l) (l_edit l) (l_max_sequence l) (l_db l))
  else
    let last_seq := u64 (Sequence batch + WriteBatch.Count batch - 1) in
    let max_sequence := if last_seq >? l_max_sequence l then last_seq else l_max_sequence l in
    let l := mkLogState s (Some mem) (l_compactions l) (l_save_manifest l) (l_edit l) max_sequence (l_db l) in
    if ApproximateMemoryUsage mem >? write_buffer_size opts then
      l ← flush mem l;
      let l := mkLogState (l_status l) (l_mem l) (i32 (l_compactions l + 1)) (l_save_manifest l) (l_edit l) (l_max_sequence l) (l_db l) in
      Some (negb (ok (l_status l)), l)
    else Some (false, l).

Fixpoint log_loop (fuel : nat) (reader : Reader R) (l : LogState) : option LogState :=
  match fuel with
  | O => None
  | S fuel =>
      '(record, reader') ← ReadRecord reader;
      let l := note_reports (length (reports reader)) (reports reader') l in
      match record with
      | Some record =>
          if ok (l_status l) then
            if size_of record <? 12 then log_loop fuel reader' (report_small l)
            else
              '(stop, l) ← recover_batch record l;
              if stop : bool then Some l else log_loop fuel reader' l
          else Some l
      | None => Some l
      end
  end.

(** The last log file is kept and added to, if it can be. *)
Definition reuse_log (fname : bytes) (last_log : bool) (l : LogState) : LogState :=
  if ok (l_status l) && reuse_logs opts && last_log && (l_compactions l =? 0) then
    let db := l_db l in
    match GetFileSize fname (env_ db) with
    | inl _ => l
    | inr lfile_size =>
        match NewAppendableFile fname (env_ db) with
        | (inl _, env) => mkLogState (l_status l) (l_mem l) (l_compactions l) (l_save_manifest l) (l_edit l) (l_max_sequence l) (set_env env db)
        | (inr file, env) =>
            let mem := match l_mem l with Some mem => mem | None => MemTable.Ref (MemTable_make new_array) end in
            let db := set_log (Some (Writer_reopen file lfile_size)) 1 (set_env env db) in
            mkLogState (l_status l) None (l_compactions l) (l_save_manifest l) (l_edit l) (l_max_sequence l) (set_mems (Some mem) (imm_ db) db)
        end
    end
  else l.

(** The file is read to its end: each record takes a byte or more of it.  The status,
    [*save_manifest], [*edit], [*max_sequence] and the database. *)
Definition RecoverLogFile (log_name : bytes) (last_log save_manifest : bool) (edit : VersionEdit) (max_sequence : Z) db : option LogState :=
  let fname := dbpath db ++ str "/" ++ log_name in
  match NewSequentialFile fname (env_ db) with
  | (inl s, env) => Some (mkLogState (MaybeIgnoreError opts s) None 0 save_manifest edit max_sequence (set_env env db))
  | (inr file, env) =>
      l ← log_loop (S (length (unread file))) (Reader_make file true true 0) (mkLogState OK None 0 save_manifest edit max_sequence (set_env env db));
      let l := reuse_log fname last_log l in
      match l_mem l with
      | Some mem => if ok (l_status l) then flush mem l else Some l
      | None => Some l
      end
  end.

(** ** Recover *)

(** The loop over the names of the directory: the file numbers that are still expected,
    and the logs. *)
Definition scan_name (path : bytes) (min_log prev_log : Z) (el : gset Z * list bytes) (filename : bytes) : gset Z * list bytes :=
  match ParseFileName path filename with
  | None => el
  | Some (number, type) =>
      (fst el ∖ {[ number ]},
       match type with
       | kLogFile => if (min_log <=? number) || (number =? prev_log) then snd el ++ [filename] else snd el
       | _ => snd el
       end)
  end.
Definition scan_names (path : bytes) (min_log prev_log : Z) (filenames : list bytes) : gset Z * list bytes :=
  fold_left (scan_name path min_log prev_log) filenames ({[ FILENUMBER_LDB; FILENUMBER_MANIFEST ]}, []).

(** [std::sort] of strings. *)
Definition name_le (a b : bytes) : Prop := compare a b <> Gt.
#[local] Instance name_le_dec a b : Decision (name_le a b).
Proof. unfold name_le. apply _. Defined.
Definition sort_names (l : list bytes) : list bytes := merge_sort name_le l.

Fixpoint recover_logs (logs : list bytes) (l : LogState) : option LogState :=
  match logs with
  | [] => Some l
  | log :: logs =>
      l ← RecoverLogFile log (match logs with [] => true | _ => false end) (l_save_manifest l) (l_edit l) (l_max_sequence l) (l_db l);
      if negb (ok (l_status l)) then Some l
      else
        let db := l_db l in
        let l := mkLogState (l_status l) None 0 (l_save_manifest l) (l_edit l) (l_max_sequence l) (set_vset (MarkFileNumberUsed 1 (versions_ db)) db) in
        recover_logs logs l
  end.

(** The database exists when its manifest does. *)
Definition create_or_check db : option (Status * DBImpl E W) :=
  if negb (FileExists (DescriptorFileName (dbpath db) (dbname db) 1) (env_ db)) then
    if create_if_missing opts then NewDB db
    else Some (InvalidArgument (dbpath db) (str "does not exist (create_if_missing is false)"), db)
  else if error_if_exists opts then Some (InvalidArgument (dbpath db) (str "exists (error_if_exists is true)"), db)
  else Some (OK, db).

(** From the reading of the manifest on; [edit] is empty and [*save_manifest] false. *)
Definition recover_files db : option LogState :=
  '(s, save_manifest, vs, env) ← VersionSet.Recover (R := R) ucmp (reuse_logs opts) (versions_ db) (env_ db);
  let db := set_env env (set_vset vs db) in
  let l := mkLogState s None 0 save_manifest VersionEdit_make 0 db in
  if negb (ok s) then Some l
  else
    let '(s, filenames) := GetChildren (dbpath db) (dbname db) (env_ db) in
    if negb (ok s) then Some (set_l_status s l)
    else
      let '(expected, logs) := scan_names (dbpath db) (vs_log_number_ vs) (vs_prev_log_number_ vs) filenames in
      if negb (bool_decide (expected = ∅)) then
        Some (set_l_status (Corruption (take 49 (print_d (i32 (Z.of_nat (size expected))) ++ str " missing files; e.g.")) (TableFileName (dbpath db) (dbname db) FILENUMBER_LDB)) l)
      else
        l ← recover_logs (sort_names logs) l;
        if negb (ok (l_status l)) then Some l
        else
          let db := l_db l in
          let vs := versions_ db in
          let vs := if vs_last_sequence_ vs <? l_max_sequence l then VersionSet_SetLastSequence (l_max_sequence l) vs else vs in
          Some (mkLogState OK None 0 (l_save_manifest l) (l_edit l) (l_max_sequence l) (set_vset vs db)).

(** With the flag that the lock is held. *)
Definition Recover db : option (bool * LogState) :=
  let db := set_env (CreateDir (dbpath db) (env_ db)) db in
  let '(s, env) := LockFile (LockFileName (dbpath db) (dbname db)) (env_ db) in
  let db := set_env env db in
  if negb (ok s) then Some (false, mkLogState s None 0 false VersionEdit_make 0 db)
  else
    '(s, db) ← create_or_check db;
    if negb (ok s) then Some (true, mkLogState s None 0 false VersionEdit_make 0 db)
    else l ← recover_files db; Some (true, l).
End Recovery.

(** ** Closing *)

Section Close.
Context {E W R : Type} `{!EnvFiles E W R} `{!EnvDirs E}.
Implicit Types db : DBImpl E W.

Definition set_shutting_down db : DBImpl E W :=
  mkDBImpl (env_ db) true (mem_ db) (imm_ db) (log_ db) (logfile_number_ db) (seed_ db) (snapshots_ db) (pending_outputs_ db)
    (bg_compaction_scheduled_ db) (queued_ db) (manual_compaction_ db) (versions_ db) (bg_error_ db) (stats_ db) (disk_ db).

Definition delete_closed db (filename : bytes) : DBImpl E W :=
  let path := dbpath_ (versions_ db) in
  match ParseFileName path filename with
  | Some (_, kInfoLogFile) | Some (_, kDBLockFile) => set_env (snd (EnvDeleteFile (path ++ str "/" ++ filename) (env_ db))) db
  | _ => db
  end.

(** The destructor until it waits for the background work. *)
Definition begin_close (opts : DBOptions) db : DBImpl E W :=
  let filenames := snd (GetChildren (dbpath_ (versions_ db)) (dbname_ (versions_ db)) (env_ db)) in
  set_shutting_down (if read_only opts then fold_left delete_closed filenames db else db).

(** The rest, when no background work is scheduled: what is left is the environment. *)
Definition end_close (locked : bool) db : option E :=
  if bg_compaction_scheduled_ db then None
  else Some (if locked then UnlockFile (LockFileName (dbpath_ (versions_ db)) (dbname_ (versions_ db))) (env_ db) else env_ db).

(** *** DestroyDB *)

Definition destroy_file (dbpath dbname : bytes) (re : Status * E) (filename : bytes) : Status * E :=
  let '(result, env) := re in
  match ParseFileName dbpath filename with
  | None | Some (_, kDBLockFile) => re
  | Some _ =>
      let '(del, env) := EnvDeleteFile (dbname ++ str "/" ++ filename) env in
      (if ok result && negb (ok del) then del else result, env)
  end.

Definition DestroyDB (dbpath dbname : bytes) (env : E) : Status * E :=
  match snd (GetChildren dbpath dbname env) with
  | [] => (OK, env)
  | filenames =>
      let lockname := LockFileName dbpath dbname in
      let '(result, env) := LockFile lockname env in
      if ok result then
        let '(result, env) := fold_left (destroy_file dbpath dbname) filenames (result, env) in
        let env := UnlockFile lockname env in
        let env := snd (EnvDeleteFile lockname env) in
        (result, DeleteDir dbname env)
      else (result, env)
  end.
End Close.

(** ** Opening *)

Section Open.
Context {E W R : Type} `{!EnvFiles E W R} `{!EnvDirs E} `{!TableCacheOps E} `{!WritableFile W} `{!SequentialFile R}.
Context (snappy : option SnappyLib) (new_array : list (Z * Z) -> Z -> Z) (options : DBOptions).
Implicit Types db : DBImpl E W.

(** The database has its own copy of the options. *)
Definition user_comparator : Comparator := TableBuilder.comparator (table_options options).
Definition impl_options : DBOptions := SanitizeOptions options.

(** A new log and its memtable, when no log was kept. *)
Definition new_log (edit : VersionEdit) db : Status * VersionEdit * DBImpl E W :=
  let '(new_log_number, vs) := NewFileNumber (versions_ db) in
  let db := set_vset vs db in
  let install log db :=
    (OK, SetLogNumber new_log_number edit, set_mems (Some (MemTable.Ref (MemTable_make new_array))) (imm_ db) (set_log log new_log_number db)) in
  if read_only options then install None db
  else
    match NewWritableFile (LogFileName (dbpath_ vs) (dbname_ vs) new_log_number) (env_ db) with
    | (inl s, env) => (s, edit, set_env env db)
    | (inr lfile, env) => install (Some (Writer_make lfile)) (set_env env db)
    end.

(** [Recover] and what follows it, up to the end of the constructor's critical section. *)
Definition open_impl db : option (bool * Status * DBImpl E W) :=
  '(locked, l) ← Recover (R := R) snappy new_array user_comparator impl_options db;
  let s := l_status l in
  let '(s, edit, db) :=
    match mem_ (l_db l) with
    | None => if ok s then new_log (l_edit l) (l_db l) else (s, l_edit l, l_db l)
    | Some _ => (s, l_edit l, l_db l)
    end in
  '(s, db) ←
    (if ok s && l_save_manifest l then
       '(s, vs, env) ← LogAndApply user_comparator (SetLogNumber (logfile_number_ db) (SetPrevLogNumber 0 edit)) (versions_ db) (env_ db);
       Some (s, set_env env (set_vset vs db))
     else Some (s, db));
  Some (locked, s, if ok s then MaybeScheduleCompaction (DeleteObsoleteFiles db) else db).

(** The database, or what is left of the environment when it is deleted. *)
Definition Open (dbpath dbname : bytes) (env : E) : option (Status * (DBImpl E W + E)) :=
  if read_only options && write_only options then Some (InvalidArgument (str "can not read_only mode both write_only mode") [], inr env)
  else
    '(locked, s, db) ← open_impl (DBImpl_make dbpath dbname env);
    if ok s then Some (s, inl db)
    else env ← end_close locked (begin_close impl_options db); Some (s, inr env).
End Open.

(** ** What recovery rebuilds *)

Section RecoverLaws.
Context {E W R : Type} `{!EnvFiles E W R} `{!EnvDirs E} `{!TableCacheOps E} `{!WritableFile W} `{!WritableFileLaws W} `{!FileStates W} `{!EnvFilesLaws E W R}
  `{!SequentialFile R}.
Context (snappy : option SnappyLib) (new_array : list (Z * Z) -> Z -> Z) (ucmp : Comparator) `{!ComparatorLaws ucmp} (opts : DBOptions).
Context (Hcmp : TableBuilder.comparator (table_options opts) = InternalKeyComparator ucmp) (Hinterval : 1 <= TableBuilder.block_restart_interval (table_options opts)).
Implicit Types db : DBImpl E W.
Implicit Types l : LogState (E := E) (W := W).

(** A batch that [Write] makes, with an operation; its first sequence number is not 0. *)
Definition batch_ok (b : Z * list BatchOp) : Prop :=
  snd b <> [] /\ 1 <= fst b /\ fst b + size_of (snd b) <= kMaxSequenceNumber /\ size_of (snd b) < 2 ^ 31 /\ Forall op_fits (snd b) /\
  Forall (fun op => size_of (MemTable.op_key op) + 8 < 2 ^ 32) (snd b).

Definition last_of (b : Z * list BatchOp) : Z := fst b + size_of (snd b) - 1.
Definition max_seq (logged : list (Z * list BatchOp)) (m : Z) : Z := fold_left (fun m b => Z.max m (last_of b)) logged m.

(** The memtable, if there is one, has the entries. *)
Definition held (m : option MemTable) (es : list MemTable.entry) : Prop :=
  match m with Some m => exists es', MemTable.mem_rep ucmp m es' /\ es' ≡ₚ es | None => es = [] end.

(** Flushes leave the database as it is, but for the file of the tables. *)
Definition flushed_from db db' : Prop :=
  mem_ db' = mem_ db /\ imm_ db' = imm_ db /\ log_ db' = log_ db /\ versions_ db' = versions_ db /\ bg_error_ db' = bg_error_ db /\ snapshots_ db' = snapshots_ db /\
  logfile_number_ db' = logfile_number_ db /\ forall name, name <> table_name db -> disk_ db' !! name = disk_ db !! name.

Lemma flushed_refl db : flushed_from db db.
Proof. by repeat split. Qed.
Lemma flushed_trans db1 db2 db3 : flushed_from db1 db2 -> flushed_from db2 db3 -> flushed_from db1 db3.
Proof.
  intros (A1 & A2 & A3 & A4 & A5 & A6 & A7 & A8) (B1 & B2 & B3 & B4 & B5 & B6 & B7 & B8). repeat split; try congruence.
  intros name Hn. rewrite B8 by (unfold table_name in *; by rewrite A4). by apply A8.
Qed.

(** The entries are a table, in a file that was synced and closed. *)
Definition table_with (es : list MemTable.entry) (t : FileMetaData * W) : Prop := exists es', es' ≡ₚ es /\ table_of snappy opts es' (fst t) (snd t).
Definition file_fits (t : FileMetaData * W) : Prop := size_of (written (snd t)) < 2 ^ 64.

(** All tables have the name [name]: the last one is on the disk. *)
Definition with_last (name : bytes) (ts : list (FileMetaData * W)) (disk : gmap bytes W) : gmap bytes W :=
  match last ts with Some t => <[name := snd t]> disk | None => disk end.

Lemma with_last_snoc name ts t disk : with_last name (ts ++ [t]) disk = <[name := snd t]> (with_last name ts disk).
Proof. unfold with_last. rewrite last_snoc. destruct (last ts) as [t'|]; [by rewrite insert_insert_eq|done]. Qed.

(** The edit adds the tables to level 0. *)
Definition add_tables (metas : list FileMetaData) (edit : VersionEdit) : VersionEdit :=
  fold_left (fun edit m => AddFile 0 FILENUMBER_LDB (file_size m) (smallest m) (largest m) edit) metas edit.

(** A memtable without entries would delete the file. *)
Lemma flush_spec mem es l : MemTable.mem_rep ucmp mem es -> es <> [] -> exists l', flush snappy ucmp opts mem l = Some l' /\
  l_mem l' = None /\ l_compactions l' = l_compactions l /\ l_save_manifest l' = true /\ l_max_sequence l' = l_max_sequence l /\ flushed_from (l_db l) (l_db l') /\
  (ok (l_status l') = true -> exists t, table_with es t /\
     (file_fits t -> l_edit l' = add_tables [fst t] (l_edit l) /\ disk_ (l_db l') = <[table_name (l_db l) := snd t]> (disk_ (l_db l)))).
Proof using All.
  intros Hm Hne. unfold flush.
  destruct (WriteLevel0Table_spec (R := R) snappy ucmp opts Hcmp Hinterval mem es (l_edit l) None (l_db l) Hm) as (s & edit & db' & env & stats & -> & _ & disk & -> & Hd & Hw); [done|].
  cbn [mbind option_bind]. eexists. split; [reflexivity|]. do 4 (split; [done|]). split; [by repeat split|]. cbn [l_status l_edit l_db]. intros Hs.
  destruct es as [|e es]; [done|]. destruct (Hw Hs) as (f & meta & Ht & He). exists (meta, f). split; [by exists (e :: es)|]. intros Hfit.
  destruct (He Hfit) as (Hdisk & level & Hl & ->). cbn in Hl. by rewrite Hl.
Qed.

(** *** The records *)

(** What the loop has after the batches [done]: those of its memtables that were written
    to tables, and the rest. *)
Record log_rep (l0 : LogState) (done : list (Z * list BatchOp)) (flushed : list (list MemTable.entry)) (rest : list MemTable.entry) (l : LogState) : Prop := {
  lr_entries : batches done = concat flushed ++ rest;
  lr_mem : held (l_mem l) rest;
  lr_rest : is_Some (l_mem l) -> rest <> [];
  lr_tables : exists ts, Forall2 table_with flushed ts /\
    (Forall file_fits ts -> l_edit l = add_tables (map fst ts) (l_edit l0) /\ disk_ (l_db l) = with_last (table_name (l_db l0)) ts (disk_ (l_db l0)));
  lr_compactions : 0 <= l_compactions l <= size_of done + 1;
  lr_none : l_compactions l = 0 -> flushed = [] /\ l_edit l = l_edit l0;
  lr_save : l_save_manifest l = l_save_manifest l0 || negb (l_compactions l =? 0);
  lr_max : l_max_sequence l = max_seq done (l_max_sequence l0);
  lr_db : flushed_from (l_db l0) (l_db l)
}.

Lemma log_rep_start l0 : l_mem l0 = None -> l_compactions l0 = 0 -> log_rep l0 [] [] [] l0.
Proof.
  intros Hm Hc. split; try done.
  - by rewrite Hm.
  - rewrite Hm. by intros [].
  - by exists [].
  - rewrite Hc. change (size_of (@nil (Z * list BatchOp))) with 0. lia.
  - by rewrite Hc, orb_false_r.
Qed.

Lemma max_seq_snoc logged b m : max_seq (logged ++ [b]) m = Z.max (max_seq logged m) (last_of b).
Proof. unfold max_seq. by rewrite fold_left_app. Qed.
Lemma batches_snoc logged b : batches (logged ++ [b]) = batches logged ++ MemTable.batch (fst b) (snd b).
Proof. unfold batches. rewrite map_app, concat_app. cbn [map concat]. by rewrite app_nil_r. Qed.

(** The batch goes to the memtable. *)
Lemma insert_batch l rest b : held (l_mem l) rest -> batch_ok b -> NoDup (rest ++ MemTable.batch (fst b) (snd b)) -> MemTable.distinct ucmp (rest ++ MemTable.batch (fst b) (snd b)) ->
  exists mem es, InsertInto (fun s t k v m => m ≫= MemTable.Add new_array ucmp s t k v) (SetContents WriteBatch.Clear (batch_rep (fst b) (snd b)))
      (Some (match l_mem l with Some mem => mem | None => MemTable.Ref (MemTable_make new_array) end)) = (Some mem, OK) /\
    MemTable.mem_rep ucmp mem es /\ es ≡ₚ rest ++ MemTable.batch (fst b) (snd b).
Proof using ComparatorLaws0.
  intros Hh (_ & H1 & H2 & H3 & H4 & H5) Hn Hd. pose proof (size_of_nonneg (snd b)).
  assert (Hm : exists es, MemTable.mem_rep ucmp (match l_mem l with Some mem => mem | None => MemTable.Ref (MemTable_make new_array) end) es /\ es ≡ₚ rest).
  { destruct (l_mem l) as [mem|]; [exact Hh|]. exists []. split; [exact (MemTable.make_rep ucmp new_array)|by rewrite Hh]. }
  destruct Hm as (es & Hm & Hp). change (SetContents _ _) with (batch_rep (fst b) (snd b)).
  rewrite (MemTable.InsertInto_batch ucmp new_array) by (done || lia).
  destruct (MemTable.add_all_rep ucmp new_array (MemTable.batch (fst b) (snd b)) es _ Hm) as (m' & es' & -> & Hm' & Hp').
  - apply MemTable.batch_fits; [lia|lia|done|done].
  - by rewrite Hp.
  - eapply MemTable.distinct_perm; [|exact Hd]. by rewrite Hp.
  - exists m', es'. split; [done|]. split; [done|]. by rewrite Hp', Hp.
Qed.

Lemma last_seq_batch b : batch_ok b ->
  u64 (Sequence (SetContents WriteBatch.Clear (batch_rep (fst b) (snd b))) + WriteBatch.Count (SetContents WriteBatch.Clear (batch_rep (fst b) (snd b))) - 1) = last_of b.
Proof using.
  intros (_ & B1 & B2 & B3 & _). pose proof (size_of_nonneg (snd b)). change (SetContents _ _) with (batch_rep (fst b) (snd b)). unfold kMaxSequenceNumber in B2. change (Z.shiftl 1 56 - 1) with (2 ^ 56 - 1) in B2.
  rewrite Sequence_rep, Count_rep by (done || lia). unfold last_of. by rewrite u64_small by lia.
Qed.

(** Without a flush the database is as it was. *)
Definition unflushed (l0 l : LogState (E := E) (W := W)) : Prop := l_compactions l = 0 -> l_db l = l_db l0.

(** The memtable goes to a table. *)
Definition recount (c : Z) (l : LogState) : LogState (E := E) (W := W) :=
  mkLogState (l_status l) (l_mem l) c (l_save_manifest l) (l_edit l) (l_max_sequence l) (l_db l).

Lemma flush_rep l0 done flushed rest l mem c : log_rep l0 done flushed rest l -> l_mem l = Some mem -> 1 <= c <= size_of done + 1 ->
  exists l', flush snappy ucmp opts mem l = Some l' /\ l_mem l' = None /\ l_compactions l' = l_compactions l /\ flushed_from (l_db l) (l_db l') /\
    (ok (l_status l') = true -> exists flushed', log_rep l0 done flushed' [] (recount c l')).
Proof using All.
  intros [He Hm Hrest (ts & Ht & Hed) _ _ _ Hmax Hdb] Em Hc. rewrite Em in Hm, Hrest. specialize (Hrest ltac:(eauto)). destruct Hm as (mes & Hmem & Hp).
  assert (Hne : mes <> []) by (intros ->; apply Permutation_nil_l in Hp; congruence).
  destruct (flush_spec mem mes l Hmem Hne) as (l2 & -> & F1 & F2 & F3 & F4 & F5 & F6). exists l2. do 4 (split; [done|]). intros Hok. destruct (F6 Hok) as (t & (x & X1 & X2) & Fe).
  exists (flushed ++ [rest]). split; cbn [recount l_mem l_db l_edit l_compactions l_save_manifest l_max_sequence]; try done; try lia.
  - rewrite concat_app. cbn [concat]. by rewrite !app_nil_r.
  - by rewrite F1.
  - rewrite F1. by intros [].
  - exists (ts ++ [t]). split.
    + apply Forall2_app; [done|]. constructor; [|constructor]. exists x. split; [by rewrite X1|done].
    + intros [Hf Hft]%Forall_app. destruct (Hed Hf) as [E1 E2]. destruct (Fe ltac:(by inversion Hft)) as [-> ->]. rewrite map_app. unfold add_tables. rewrite fold_left_app, E1. split; [done|].
      rewrite with_last_snoc, E2. unfold table_name. by destruct Hdb as (_ & _ & _ & -> & _).
  - rewrite F3. destruct (Z.eqb_spec c 0); [lia|]. by rewrite orb_true_r.
  - by eapply flushed_trans.
Qed.

Lemma recover_batch_spec l0 done flushed rest l b : log_rep l0 done flushed rest l -> unflushed l0 l -> ok (l_status l) = true -> batch_ok b -> size_of done < 2 ^ 31 - 2 ->
  NoDup (batches (done ++ [b])) -> MemTable.distinct ucmp (batches (done ++ [b])) ->
  exists stop l', recover_batch snappy new_array ucmp opts (batch_rep (fst b) (snd b)) l = Some (stop, l') /\ stop = negb (ok (l_status l')) /\
    (ok (l_status l') = true -> exists flushed' rest', log_rep l0 (done ++ [b]) flushed' rest' l' /\ unflushed l0 l').
Proof using All.
  intros [He Hm _ Ht Hc Hno Hsave Hmax Hdb] Hun Hok Hb Hsz Hn Hd. rewrite batches_snoc, He, <- app_assoc in Hn, Hd.
  set (es := MemTable.batch (fst b) (snd b)) in *. apply NoDup_app in Hn as (_ & _ & Hn).
  assert (Hd' : MemTable.distinct ucmp (rest ++ es)) by (intros x y Hx Hy; apply Hd; apply elem_of_app; by right).
  destruct (insert_batch l rest b Hm Hb Hn Hd') as (mem & mes & EI & Hmem & Hp). fold es in Hp. unfold recover_batch. rewrite EI. cbn [mbind option_bind].
  assert (Hi : MaybeIgnoreError opts OK = OK) by (unfold MaybeIgnoreError; by destruct (_ || _)). rewrite Hi. change (ok OK) with true. cbn [negb].
  rewrite (last_seq_batch b Hb). set (l1 := mkLogState OK (Some mem) _ _ _ _ _).
  assert (Hdone : size_of (done ++ [b]) = size_of done + 1) by (by rewrite size_of_app).
  assert (Hrep : log_rep l0 (done ++ [b]) flushed (rest ++ es) l1).
  { split; try done.
    - by rewrite batches_snoc, He, <- app_assoc.
    - by exists mes.
    - intros _ [_ Hx]%app_nil. destruct Hb as (Hb & _). apply Hb. unfold es in Hx. clear -Hx. destruct b as [n [|[] ops]]; [done|discriminate Hx..].
    - cbn [l_compactions l1]. lia.
    - rewrite max_seq_snoc, <- Hmax. cbn [l_max_sequence l1]. destruct (Z.gtb_spec (last_of b) (l_max_sequence l)); lia. }
  destruct (ApproximateMemoryUsage mem >? write_buffer_size opts).
  - assert (Hcc : 1 <= l_compactions l + 1 <= size_of (done ++ [b]) + 1) by lia. destruct (flush_rep l0 _ _ _ l1 mem (l_compactions l + 1) Hrep eq_refl Hcc) as (l2 & -> & F1 & F2 & F3 & F4). cbn [mbind option_bind].
    do 2 eexists. split; [reflexivity|]. split; [done|]. intros Hok2. destruct (F4 Hok2) as (fl & Hfl). exists fl, []. rewrite F2. change (l_compactions l1) with (l_compactions l).
    rewrite (i32_small (l_compactions l + 1)) by lia. split; [exact Hfl|]. unfold unflushed. cbn [l_compactions]. lia.
  - do 2 eexists. split; [reflexivity|]. split; [done|]. intros _. by exists flushed, (rest ++ es).
Qed.

(** The loop, over a log whose records are batches. *)
Lemma log_loop_spec todo : forall fuel l0 done flushed rest l (reader : Reader R), clean_reads reader (records todo) -> log_rep l0 done flushed rest l -> unflushed l0 l -> ok (l_status l) = true ->
  Forall batch_ok todo -> size_of (done ++ todo) < 2 ^ 31 - 1 -> NoDup (batches (done ++ todo)) -> MemTable.distinct ucmp (batches (done ++ todo)) -> (length todo < fuel)%nat ->
  exists l', log_loop snappy new_array ucmp opts fuel reader l = Some l' /\ (ok (l_status l') = true -> exists flushed' rest', log_rep l0 (done ++ todo) flushed' rest' l' /\ unflushed l0 l').
Proof using All.
  induction todo as [|b todo IH]; intros [|fuel] l0 done flushed rest l reader Hr Hrep Hun Hok Hb Hsz Hn Hd Hf; cbn [length] in Hf; try lia; inversion Hr as [? r' Er Erep|? ? r' ? Er Erep Hr']; subst; cbn [log_loop]; rewrite Er; cbn [mbind option_bind].
  - exists l. unfold note_reports. rewrite Erep, with_reports_same. destruct l; cbn in *. split; [by destruct (paranoid_checks opts)|]. intros _. rewrite app_nil_r. by exists flushed, rest.
  - assert (Hnote : note_reports opts (length (reports reader)) (reports r') l = l) by (unfold note_reports; rewrite Erep, with_reports_same; destruct l; by destruct (paranoid_checks opts)).
    rewrite Hnote, Hok. assert (H12 : size_of (batch_rep (fst b) (snd b)) <? 12 = false) by (apply Z.ltb_ge; pose proof (length_batch_rep (fst b) (snd b)); unfold size_of; lia). rewrite H12.
    apply Forall_cons in Hb as [Hb Hbs]. rewrite cons_middle, app_assoc in Hsz, Hn, Hd |- *.
    assert (Hpre : batches ((done ++ [b]) ++ todo) = batches (done ++ [b]) ++ batches todo) by (unfold batches; by rewrite map_app, concat_app).
    destruct (recover_batch_spec l0 done flushed rest l b Hrep Hun Hok Hb) as (stop & l1 & -> & -> & H1).
    + rewrite !size_of_app in Hsz. change (size_of [b]) with 1 in Hsz. pose proof (size_of_nonneg todo). lia.
    + rewrite Hpre in Hn. by apply NoDup_app in Hn as (Hn & _).
    + intros x y Hx Hy. apply Hd; rewrite Hpre; apply elem_of_app; by left.
    + cbn [mbind option_bind]. destruct (ok (l_status l1)) eqn:Eok; cbn [negb]; [|exists l1; split; [done|congruence]].
      destruct (H1 eq_refl) as (fl & rs & Hrep1 & Hun1). apply (IH fuel l0 _ fl rs l1 r'); try done. lia.
Qed.

(** *** The file *)

(** Nothing but the environment and the files that were closed. *)
Lemma flushed_set_env env db : flushed_from db (set_env env db).
Proof. by repeat split. Qed.

(** The log file is kept: the memtable becomes the database's and the log is added to. *)
Definition kept_log (fname : bytes) (rest : list MemTable.entry) db db' : Prop :=
  exists mem size file env', held (Some mem) rest /\ GetFileSize fname (env_ db) = inr size /\ NewAppendableFile fname (env_ db) = (inr file, env') /\
    db' = set_mems (Some mem) (imm_ db) (set_log (Some (Writer_reopen file size)) 1 (set_env env' db)).

Lemma reuse_log_spec fname last_log l0 done flushed rest l : log_rep l0 done flushed rest l -> unflushed l0 l ->
  let l' := reuse_log new_array opts fname last_log l in
  (flushed = [] /\ last_log = true /\ reuse_logs opts = true /\ l_mem l' = None /\ l_status l' = l_status l /\ l_edit l' = l_edit l0 /\ l_max_sequence l' = l_max_sequence l /\
     l_save_manifest l' = l_save_manifest l0 /\ kept_log fname rest (l_db l0) (l_db l')) \/
  (log_rep l0 done flushed rest l' /\ l_status l' = l_status l).
Proof using ComparatorLaws0.
  intros H Hun. unfold reuse_log. destruct (ok (l_status l) && reuse_logs opts && last_log && (l_compactions l =? 0)) eqn:Ec; [|by right].
  rewrite !andb_true_iff, Z.eqb_eq in Ec. destruct Ec as [[[_ Hr] Hl] Hc].
  destruct (GetFileSize fname (env_ (l_db l))) as [s|size] eqn:Es; [by right|]. destruct (NewAppendableFile fname (env_ (l_db l))) as [[s|file] env'] eqn:Ef.
  - right. split; [|done]. destruct H. split; try done.
  - left. destruct H. destruct (lr_none0 Hc) as [Hfl Hed]. do 6 (split; [done|]). split; [done|]. split; [by rewrite lr_save0, Hc, orb_false_r|].
    cbn [l_db]. rewrite (Hun Hc) in Es, Ef |- *. set (mem := match l_mem l with Some mem => mem | None => _ end). exists mem, size, file, env'. split.
    { subst mem. destruct (l_mem l) as [m|]; [done|]. exists []. split; [exact (MemTable.make_rep ucmp new_array)|]. by rewrite lr_mem0. }
    by split.
Qed.

(** The entries are, in order, in tables that the edit adds and of which the last is left. *)
Definition in_tables (es : list MemTable.entry) (edit : VersionEdit) (disk : gmap bytes W) (name : bytes) (edit' : VersionEdit) (disk' : gmap bytes W) : Prop :=
  exists flushed ts, es = concat flushed /\ Forall2 table_with flushed ts /\ (Forall file_fits ts -> edit' = add_tables (map fst ts) edit /\ disk' = with_last name ts disk).

Lemma tables_only l0 logged flushed l : log_rep l0 logged flushed [] l ->
  flushed_from (l_db l0) (l_db l) /\ in_tables (batches logged) (l_edit l0) (disk_ (l_db l0)) (table_name (l_db l0)) (l_edit l) (disk_ (l_db l)).
Proof using. intros H. destruct (lr_tables _ _ _ _ _ H) as (ts & Ht & He). split; [apply H|]. exists flushed, ts. split; [|done]. by rewrite (lr_entries _ _ _ _ _ H), app_nil_r. Qed.

Lemma RecoverLogFile_spec log_name last_log save edit max db file env logged : let fname := dbpath_ (versions_ db) ++ str "/" ++ log_name in
  NewSequentialFile fname (env_ db) = (inr file, env) -> clean_reads (Reader_make file true true 0) (records logged) -> (length logged <= length (unread file))%nat ->
  Forall batch_ok logged -> size_of logged < 2 ^ 31 - 1 -> NoDup (batches logged) -> MemTable.distinct ucmp (batches logged) ->
  exists l, RecoverLogFile snappy new_array ucmp opts log_name last_log save edit max db = Some l /\ (ok (l_status l) = true ->
    l_mem l = None /\ l_max_sequence l = max_seq logged max /\ (save = true -> l_save_manifest l = true) /\
    ((last_log = true /\ reuse_logs opts = true /\ l_edit l = edit /\ l_save_manifest l = save /\ kept_log fname (batches logged) (set_env env db) (l_db l)) \/
     (flushed_from db (l_db l) /\ in_tables (batches logged) edit (disk_ db) (table_name db) (l_edit l) (disk_ (l_db l))))).
Proof using All.
  intros fname Ef Hr Hlen Hb Hsz Hn Hd. unfold RecoverLogFile. fold fname. rewrite Ef. set (l0 := mkLogState OK None 0 save edit max (set_env env db)).
  destruct (log_loop_spec logged (S (length (unread file))) l0 [] [] [] l0 (Reader_make file true true 0) Hr (log_rep_start l0 eq_refl eq_refl) (fun _ => eq_refl) eq_refl Hb Hsz Hn Hd ltac:(lia)) as (l1 & -> & H1).
  cbn [mbind option_bind app]. set (l2 := reuse_log new_array opts fname last_log l1).
  destruct (ok (l_status l1)) eqn:Eok.
  2:{ assert (l2 = l1) as -> by (unfold l2, reuse_log; by rewrite Eok). rewrite Eok. destruct (l_mem l1); exists l1; (split; [done|congruence]). }
  destruct (H1 eq_refl) as (flushed & rest & Hrep & Hun). cbn [app] in Hrep.
  pose proof (reuse_log_spec fname last_log l0 logged flushed rest l1 Hrep Hun) as Hcase. cbv zeta in Hcase. fold l2 in Hcase. clearbody l2. destruct Hcase as [(-> & Hl & Hre & Hm & Hs & He & Hmax & Hsave & Hk)|[Hrep2 Hs]].
  - rewrite Hm. exists l2. split; [done|]. intros _. split; [done|]. split; [by rewrite Hmax; apply Hrep|]. split; [by rewrite Hsave|]. left.
    assert (Hre0 : rest = batches logged) by (by rewrite (lr_entries _ _ _ _ _ Hrep)). rewrite Hre0 in Hk. do 3 (split; [done|]). split; [done|exact Hk].
  - pose proof (lr_mem _ _ _ _ _ Hrep2) as Hm. destruct (l_mem l2) as [mem|] eqn:Em.
    + rewrite Hs, Eok. destruct (flush_rep l0 _ _ _ l2 mem 1 Hrep2 Em) as (l3 & -> & F1 & _ & F3 & F4); [pose proof (size_of_nonneg logged); lia|].
      exists l3. split; [done|]. intros Hok. destruct (F4 Hok) as (fl & Hfl). split; [done|]. split; [apply Hfl|]. split; [intros ->; exact (lr_save _ _ _ _ _ Hfl)|]. right. by apply (tables_only l0 logged fl (recount 1 l3)).
    + exists l2. split; [done|]. intros _. split; [done|]. split; [apply Hrep2|]. split; [intros ->; exact (lr_save _ _ _ _ _ Hrep2)|]. right. cbn in Hm. subst rest. by apply (tables_only l0 logged flushed l2).
Qed.
End RecoverLaws.

(** *** Crashes *)


(** What a reader may find after a crash: the file as it was written, or a part of the
    record that was being added. *)
Definition crash_image {W : Type} `{!WritableFile W} (w : Writer W) (found : bytes) : Prop :=
  found = written (dest w) \/ exists record s w' n, AddRecord record w = Some (s, w') /\
    size_of (written (dest w)) <= n < size_of (written (dest w')) /\ found = take (Z.to_nat n) (written (dest w')).

Lemma crash_image_reads {W R : Type} `{!WritableFile W} `{!WritableFileLaws W} `{!ReliableFile W} `{!SequentialFile R} `{!SequentialFileLaws R} `{!ReliableReads R}
    (recs : list bytes) (w : Writer W) (f : R) : Written recs w -> crash_image w (unread f) ->
  clean_reads (Reader_make f true true 0) recs /\ (length recs <= length (unread f))%nat.
Proof.
  intros HW Hc. destruct (Written_clean recs w true true f HW) as (Hl & Hall & Hcut). destruct Hc as [E|(record & s & w' & n & E & Hn & Ec)].
  - split; [by apply Hall|by rewrite E].
  - split; [by eapply Hcut|]. rewrite Ec, length_take. unfold size_of in Hn. lia.
Qed.


(** ** A database that is opened again *)

(** What the recovery relies on of the files of the environment: [file_of] is the contents
    of a file. *)
Section Stored.
Context {E W R : Type} `{!EnvFiles E W R} `{!EnvDirs E} `{!WritableFile W} `{!SequentialFile R} (file_of : bytes -> E -> option bytes).

Definition same_files (env env' : E) : Prop := (forall name, file_of name env' = file_of name env) /\ (forall path name, GetChildren path name env' = GetChildren path name env).

Class StoreLaws : Prop := {
  store_read name env c : file_of name env = Some c -> exists f env', NewSequentialFile name env = (inr f, env') /\ unread f = c /\ same_files env env';
  store_size name env n : GetFileSize name env = inr n -> exists c, file_of name env = Some c /\ n = size_of c;
  store_append name env f env' : NewAppendableFile name env = (inr f, env') -> forall c, file_of name env = Some c -> written f = c;
  store_exists name env : FileExists name env = bool_decide (is_Some (file_of name env))
}.
End Stored.

Section Reopen.
Context {E W R : Type} `{!EnvFiles E W R} `{!EnvDirs E} `{!TableCacheOps E} `{!WritableFile W} `{!WritableFileLaws W} `{!FileStates W} `{!ReliableFile W} `{!EnvFilesLaws E W R}
  `{!SequentialFile R} `{!SequentialFileLaws R} `{!ReliableReads R}.
Context (file_of : bytes -> E -> option bytes) `{!StoreLaws file_of}.
Context (snappy : option SnappyLib) (new_array : list (Z * Z) -> Z -> Z) (options : DBOptions).

Abbreviation ucmp := (user_comparator options).
Abbreviation opts := (impl_options options).
Context `{!ComparatorLaws ucmp} (Hinterval : 1 <= TableBuilder.block_restart_interval (table_options options)).
Context (dbpath dbname : bytes).

Abbreviation manifest := (DescriptorFileName dbpath dbname 1).

(** A database in the directory: a manifest with the edits [es] and one log with the
    batches [logged].  The name of the manifest with the path in front, twice, is not that
    of a file. *)
Record stored (es : list VersionEdit) (logged : list (Z * list BatchOp)) (w : Writer W) (log_name : bytes) (env : E) : Prop := {
  st_edits : exists es0 e (log : Writer W), es = es0 ++ [e] /\ has_log_number_ e = true /\ has_prev_log_number_ e = true /\ has_next_file_number_ e = true /\ has_last_sequence_ e = true /\
    Written (map encoded es) log /\ file_of manifest env = Some (written (dest log)) /\
    exists names, GetChildren dbpath dbname env = (OK, names) /\ scan_names dbpath (log_number_ e) (prev_log_number_ e) names = (∅, [log_name]);
  st_recordable : Forall (recordable ucmp) es;
  st_fresh : fresh ucmp es;
  st_twice : file_of (dbpath ++ manifest) env = None;
  st_log : file_of (dbpath ++ str "/" ++ log_name) env = Some (written (dest w));
  st_written : Written (records logged) w;
  st_batches : Forall batch_ok logged /\ size_of logged < 2 ^ 31 - 1 /\ NoDup (batches logged) /\ MemTable.distinct ucmp (batches logged)
}.

Definition last_edit_sequence (es : list VersionEdit) : Z := match last es with Some e => last_sequence_ e | None => 0 end.
(** The next number after the manifest, and after the number 1 of a log. *)
Definition number_after (es : list VersionEdit) : Z := Z.max 2 (u64 (match last es with Some e => next_file_number_ e | None => 0 end + 1)).

Lemma no_size name env : file_of name env = None -> exists s, GetFileSize name env = inl s.
Proof using StoreLaws0. intros H. destruct (GetFileSize name env) as [s|n] eqn:En; [by exists s|]. apply (store_size file_of) in En as (c & Hc & _). congruence. Qed.

Lemma Marked vs : let vs' := MarkFileNumberUsed (W := W) 1 vs in
  current vs' = current vs /\ vs_last_sequence_ vs' = vs_last_sequence_ vs /\ descriptor_log_ vs' = descriptor_log_ vs /\ (nodes_below vs -> nodes_below vs') /\
  vs_next_file_number_ vs' = Z.max 2 (vs_next_file_number_ vs) /\ dbpath_ vs' = dbpath_ vs /\ dbname_ vs' = dbname_ vs.
Proof. unfold MarkFileNumberUsed. cbv zeta. destruct (Z.leb_spec (vs_next_file_number_ vs) 1); split_and!; try done; cbn; rewrite ?u64_small by lia; lia. Qed.

(** What the recovery of the logs leaves: the log is kept, or the entries are in tables. *)
Definition recovered (es : list VersionEdit) (logged : list (Z * list BatchOp)) (l : LogState (E := E) (W := W)) : Prop :=
  let db := l_db l in let vs := versions_ db in
  l_mem l = None /\ imm_ db = None /\ tracks ucmp es (current vs) /\ nodes_below vs /\ descriptor_log_ vs = None /\
  vs_last_sequence_ vs = Z.max (last_edit_sequence es) (max_seq logged 0) /\ vs_next_file_number_ vs = number_after es /\ l_save_manifest l = true /\
  ((reuse_logs options = true /\ logfile_number_ db = 1 /\ l_edit l = VersionEdit_make /\ holds ucmp (mem_ db) (batches logged) /\ exists log, log_ db = Some log /\ Written (records logged) log) \/
   (mem_ db = None /\ in_tables snappy opts (batches logged) VersionEdit_make ∅ (TableFileName dbpath dbname FILENUMBER_LDB) (l_edit l) (disk_ db))).

Lemma recover_files_spec es logged w log_name env : stored es logged w log_name env ->
  exists l, recover_files snappy new_array ucmp opts (set_env env (DBImpl_make dbpath dbname env)) = Some l /\ (ok (l_status l) = true -> recovered es logged l).
Proof using All.
  intros [(es0 & e & log & -> & H1 & H2 & H3 & H4 & HW & Hman & names & Hnames & Hscan) Hrec Hfr Htw Hlog Hw (B1 & B2 & B3 & B4)]. unfold recover_files.
  set (db0 := set_env env (DBImpl_make dbpath dbname env)). change (versions_ db0) with (VersionSet_make (W := W) dbpath dbname). change (env_ db0) with env. change (reuse_logs opts) with (reuse_logs options).
  destruct (store_read file_of manifest env _ Hman) as (f & env1 & Ef & Hu & Hs1 & Hs2).
  destruct (Recover_spec ucmp (reuse_logs options) es0 e (VersionSet_make dbpath dbname) env f env1 log Hrec Hfr H1 H2 H3 H4 HW eq_refl ltac:(by repeat constructor) Ef Hu)
    as (save & vs & env2 & -> & T & N1 & N2 & N3 & N4 & Hbelow & P1 & P2 & Htwice).
  change (dbpath_ (VersionSet_make dbpath dbname)) with dbpath in *. change (dbname_ (VersionSet_make dbpath dbname)) with dbname in *.
  destruct (no_size (dbpath ++ manifest) env1) as (s & Hs); [by rewrite Hs1|]. destruct (Htwice s Hs) as (-> & -> & Hdesc). clear Htwice Hs. cbn [mbind option_bind].
  change (ok OK) with true. cbn [negb]. set (db1 := set_env env1 (set_vset vs db0)). change (versions_ db1) with vs. change (env_ db1) with env1. rewrite P1, P2, Hs2, Hnames. change (ok OK) with true. cbn [negb].
  rewrite N3, N4, Hscan. rewrite bool_decide_eq_true_2 by done. cbn [negb]. change (sort_names [log_name]) with [log_name]. cbn [recover_logs l_save_manifest l_edit l_max_sequence l_db].
  destruct (store_read file_of (dbpath ++ str "/" ++ log_name) env1 (written (dest w))) as (fl & env2 & Efl & Hul & Hs3 & _); [by rewrite Hs1|].
  destruct (crash_image_reads (records logged) w fl Hw ltac:(left; exact Hul)) as [Hclean Hlen]. unfold records in Hlen. rewrite length_map in Hlen.
  destruct (RecoverLogFile_spec snappy new_array ucmp opts eq_refl Hinterval log_name true true VersionEdit_make 0 db1 fl env2 logged) as (l & -> & Hl); try done.
  { change (versions_ db1) with vs. rewrite P1. exact Efl. }
  cbn [mbind option_bind]. destruct (ok (l_status l)) eqn:Eok; cbn [negb l_status]; [|cbn [mbind option_bind]; rewrite Eok; exists l; rewrite Eok; split; [done|congruence]].
  cbn [mbind option_bind l_status]. rewrite Eok. cbn [negb l_db l_max_sequence l_save_manifest l_edit]. eexists. split; [reflexivity|]. intros _. destruct (Hl eq_refl) as (Lm & Lx & Lsave & Lc). clear Hl.
  assert (Hvs : versions_ (l_db l) = vs) by (destruct Lc as [(_ & _ & _ & _ & m & sz & f1 & e1 & _ & _ & _ & ->)|((_ & _ & _ & -> & _) & _)]; done).
  assert (Himm : imm_ (l_db l) = None) by (destruct Lc as [(_ & _ & _ & _ & m & sz & f1 & e1 & _ & _ & _ & ->)|((_ & -> & _) & _)]; done).
  unfold recovered. cbn [l_db l_mem l_save_manifest l_edit set_vset versions_ imm_ mem_ log_ disk_ logfile_number_].
  rewrite Hvs, Lx. destruct (Marked vs) as (M1 & M2 & M3 & M4 & M7 & M5 & M6). set (vs1 := MarkFileNumberUsed 1 vs) in *.
  set (vs2 := if vs_last_sequence_ vs1 <? _ then _ else vs1).
  assert (Hvs2 : current vs2 = current vs /\ (nodes_below vs -> nodes_below vs2) /\ descriptor_log_ vs2 = descriptor_log_ vs /\ vs_last_sequence_ vs2 = Z.max (vs_last_sequence_ vs) (max_seq logged 0) /\ vs_next_file_number_ vs2 = Z.max 2 (vs_next_file_number_ vs) /\ dbpath_ vs2 = dbpath_ vs /\ dbname_ vs2 = dbname_ vs).
  { subst vs2. rewrite M2. destruct (Z.ltb_spec (vs_last_sequence_ vs) (max_seq logged 0)); cbn [VersionSet_SetLastSequence set_numbers descriptor_log_ vs_last_sequence_]; (split_and!; [exact M1|exact M4|exact M3|lia|exact M7|exact M5|exact M6]). }
  destruct Hvs2 as (V1 & V2 & V3 & V4 & V7 & V5 & V6). split_and!; try done; [by rewrite V1|by apply V2|by rewrite V3|by rewrite V4, N2; unfold last_edit_sequence; rewrite last_snoc|by rewrite V7, N1; unfold number_after; rewrite last_snoc|by apply Lsave|].
  destruct Lc as [(_ & Lr & Le & _ & m & sz & f1 & e1 & (mes & Hm1 & Hm2) & Hsz & Hap & ->)|(Hfl & Htabs)].
  - left. split; [exact Lr|]. split; [done|]. split; [exact Le|]. split; [by exists m, mes|]. change (env_ (set_env env2 db1)) with env2 in Hsz, Hap. change (versions_ db1) with vs in Hsz, Hap. rewrite P1 in Hsz, Hap.
    apply (store_size file_of) in Hsz as (c & Hc & ->). pose proof (store_append file_of _ _ _ _ Hap c Hc) as Hwr. rewrite Hs3, Hs1, Hlog in Hc. injection Hc as <-.
    exists (Writer_reopen f1 (size_of (written (dest w)))). split; [done|]. rewrite <- Hwr. by apply (Written_reopen _ w).
  - right. split; [by destruct Hfl as (-> & _)|]. unfold table_name in Htabs. change (versions_ db1) with vs in Htabs. rewrite P1, P2 in Htabs. exact Htabs.
Qed.
End Reopen.

(** *** No background work *)

Section Quiet.
Context {E W R : Type} `{!EnvFiles E W R} `{!EnvDirs E} `{!TableCacheOps E} `{!WritableFile W} `{!SequentialFile R}.
Context (snappy : option SnappyLib) (new_array : list (Z * Z) -> Z -> Z) (ucmp : Comparator) (opts : DBOptions).
Implicit Types db : DBImpl E W.

(** Recovery schedules no background work. *)
Abbreviation scheduled db := (bg_compaction_scheduled_ db).

Lemma flush_quiet mem l l' : flush snappy ucmp opts mem l = Some l' -> scheduled (l_db l') = scheduled (l_db l).
Proof.
  unfold flush, WriteLevel0Table. destruct (NowMicros (env_ (l_db l))) as [t env]. cbv zeta. destruct (BuildTable _ _ _ _ _ _ _ _) as [[[s meta] file] env1].
  cbn [mbind option_bind]. destruct (NowMicros _) as [t2 env2]. destruct (ok s && _); cbn [mbind option_bind]; by intros [= <-].
Qed.

Lemma recover_batch_quiet record l stop l' : recover_batch snappy new_array ucmp opts record l = Some (stop, l') -> scheduled (l_db l') = scheduled (l_db l).
Proof.
  unfold recover_batch. destruct (InsertInto _ _ _) as [[mem|] s]; [|done]. cbn [mbind option_bind]. destruct (negb _); [by intros [= <- <-]|].
  destruct (_ >? write_buffer_size opts); [|by intros [= <- <-]]. destruct (flush _ _ _ _ _) as [l1|] eqn:Ef; [|done]. apply flush_quiet in Ef. cbn [mbind option_bind]. by intros [= <- <-].
Qed.

Lemma log_loop_quiet fuel : forall (reader : Reader R) l l', log_loop snappy new_array ucmp opts fuel reader l = Some l' -> scheduled (l_db l') = scheduled (l_db l).
Proof.
  induction fuel as [|fuel IH]; intros reader l l'; [done|]. cbn [log_loop]. destruct (ReadRecord reader) as [[record r']|]; [|done]. cbn [mbind option_bind].
  set (l1 := note_reports _ _ _ _). assert (H1 : l_db l1 = l_db l) by (unfold l1, note_reports; by destruct (paranoid_checks opts)). rewrite <- H1. clearbody l1.
  destruct record as [record|]; [|by intros [= <-]]. destruct (ok (l_status l1)); [|by intros [= <-]]. destruct (size_of record <? 12).
  - intros H%IH. rewrite H. unfold report_small. by destruct (_ && _).
  - destruct (recover_batch _ _ _ _ _ _) as [[stop l2]|] eqn:Eb; [|done]. apply recover_batch_quiet in Eb. cbn [mbind option_bind]. destruct stop; [intros [= <-]; done|]. intros H%IH. by rewrite H.
Qed.

Lemma RecoverLogFile_quiet log_name last_log save edit max db l : RecoverLogFile snappy new_array ucmp opts log_name last_log save edit max db = Some l -> scheduled (l_db l) = scheduled db.
Proof.
  unfold RecoverLogFile. destruct (NewSequentialFile _ _) as [[s|file] env]; [by intros [= <-]|]. destruct (log_loop _ _ _ _ _ _ _) as [l1|] eqn:El; [|done]. apply log_loop_quiet in El. cbn [mbind option_bind].
  set (l2 := reuse_log _ _ _ _ _). assert (H2 : scheduled (l_db l2) = scheduled (l_db l1)).
  { unfold l2, reuse_log. destruct (_ && _); [|done]. destruct (GetFileSize _ _); [done|]. by destruct (NewAppendableFile _ _) as [[?|?] ?]. }
  clearbody l2. destruct (l_mem l2) as [mem|]; [|intros [= <-]; by rewrite H2, El]. destruct (ok (l_status l2)); [|intros [= <-]; by rewrite H2, El].
  intros H%flush_quiet. by rewrite H, H2, El.
Qed.

Lemma recover_logs_quiet logs : forall l l', recover_logs snappy new_array ucmp opts logs l = Some l' -> scheduled (l_db l') = scheduled (l_db l).
Proof.
  induction logs as [|log logs IH]; intros l l'; [by intros [= <-]|]. cbn [recover_logs]. destruct (RecoverLogFile _ _ _ _ _ _ _ _ _ _) as [l1|] eqn:El; [|done]. apply RecoverLogFile_quiet in El.
  cbn [mbind option_bind]. destruct (negb _); [by intros [= <-]|]. intros H%IH. by rewrite H.
Qed.

Lemma recover_files_quiet db l : recover_files snappy new_array ucmp opts db = Some l -> scheduled (l_db l) = scheduled db.
Proof.
  unfold recover_files. destruct (VersionSet.Recover _ _ _ _) as [[[[s save] vs] env]|]; [|done]. cbn [mbind option_bind]. destruct (negb (ok s)); [by intros [= <-]|].
  destruct (GetChildren _ _ _) as [s' names]. destruct (negb (ok s')); [by intros [= <-]|]. destruct (scan_names _ _ _ _) as [expected logs]. destruct (negb (bool_decide _)); [by intros [= <-]|].
  destruct (recover_logs _ _ _ _ _ _) as [l1|] eqn:El; [|done]. apply recover_logs_quiet in El. cbn [mbind option_bind]. destruct (negb _); intros [= <-]; exact El.
Qed.
End Quiet.

(** *** Opening *)

Section Opening.
Context {E W R : Type} `{!EnvFiles E W R} `{!EnvDirs E} `{!TableCacheOps E} `{!WritableFile W} `{!WritableFileLaws W} `{!FileStates W} `{!ReliableFile W} `{!EnvFilesLaws E W R}
  `{!SequentialFile R} `{!SequentialFileLaws R} `{!ReliableReads R}.
Context (file_of : bytes -> E -> option bytes) `{!StoreLaws file_of}.
Context (snappy : option SnappyLib) (new_array : list (Z * Z) -> Z -> Z) (options : DBOptions).

Abbreviation ucmp := (user_comparator options).
Abbreviation opts := (impl_options options).
Context `{!ComparatorLaws ucmp} (Hinterval : 1 <= TableBuilder.block_restart_interval (table_options options)).
Context (dbpath dbname : bytes).
Implicit Types db : DBImpl E W.

(** Adding nothing and deleting nothing. *)
Definition no_files (e : VersionEdit) : Prop := new_files_ e = [] /\ deleted_files_ e = [].

Lemma no_files_level n e fs : no_files e -> edit_level n e fs = fs.
Proof.
  intros [Hn Hd]. unfold edit_level, edit_gone, edit_deleted, edit_new, keep. rewrite Hn, Hd. cbn. rewrite app_nil_r.
  induction fs as [|f fs IH]; [done|]. rewrite filter_cons_True; [by rewrite IH|]. set_solver.
Qed.

Lemma no_files_fresh es e : no_files e -> fresh ucmp es -> fresh ucmp (es ++ [e]).
Proof.
  intros [Hn _] Hf n. destruct (Hf n) as [H1 H2]. assert (En : edit_new n e = []) by (unfold edit_new; by rewrite Hn). rewrite added_snoc, no_return_app. cbn [no_return]. rewrite En.
  cbn [map]. rewrite app_nil_r. split; [done|]. split; [done|]. split; [|done]. change (list_to_set (@nil Z)) with (∅ : gset Z). apply disjoint_empty_r.
Qed.

Lemma no_files_tracks es e v : no_files e -> tracks ucmp (es ++ [e]) v -> tracks ucmp es v.
Proof. intros Hn [H1 H2]. split; [done|]. intros n fs Hfs. destruct (H2 n fs Hfs) as [O P]. split; [done|]. by rewrite files_after_snoc, no_files_level in P. Qed.

(** The edit that is recorded when the logs were recovered. *)
Lemma record_spec es edit db : tracks ucmp es (current (versions_ db)) -> nodes_below (versions_ db) -> descriptor_log_ (versions_ db) = None ->
  exists s vs env, LogAndApply ucmp edit (versions_ db) (env_ db) = Some (s, vs, env) /\ vs_last_sequence_ vs = vs_last_sequence_ (versions_ db) /\
    (ok s = true -> fresh ucmp (es ++ [complete_edit edit (versions_ db)]) -> tracks ucmp (es ++ [complete_edit edit (versions_ db)]) (current vs)).
Proof using All.
  intros Ht Hn Hd. destruct (LogAndApply_returns ucmp edit (versions_ db) (env_ db)) as [[[s vs] env] HL]; [by rewrite Hd|]. exists s, vs, env. split; [exact HL|].
  destruct (LogAndApply_spec ucmp edit (versions_ db) (env_ db) s vs env HL Hn) as (_ & _ & H1 & H2). split; [exact H1|]. intros Hok Hf. rewrite Hok in H2. destruct H2 as (-> & _).
  by apply (tracks_step ucmp es (current (versions_ db)) (complete_edit edit (versions_ db)) (versions_ db)).
Qed.

(** What follows the recovery changes only the environment and what is scheduled. *)
Lemma settle_spec db : exists env b n, MaybeScheduleCompaction (DeleteObsoleteFiles db) = set_scheduled b n (set_env env db).
Proof using.
  destruct (DeleteObsoleteFiles_env (R := R) db) as (env & ->). exists env. unfold MaybeScheduleCompaction. set (d := set_env env db).
  assert (Hd : d = set_scheduled (bg_compaction_scheduled_ d) (queued_ d) d) by (by destruct d).
  destruct (bg_compaction_scheduled_ d) eqn:Eb; [by eexists _, _|]. destruct (shutting_down_ d); [by eexists _, _|]. destruct (negb (ok (bg_error_ d))); [by eexists _, _|].
  destruct (negb (has_work d)); by eexists _, _.
Qed.

Lemma add_tables_files metas e : new_files_ (add_tables metas e) = new_files_ e ++ map (fun m => (0, FileMetaData_make FILENUMBER_LDB (file_size m) (smallest m) (largest m))) metas /\ deleted_files_ (add_tables metas e) = deleted_files_ e.
Proof using.
  revert e. induction metas as [|m metas IH]; intros e; [by rewrite app_nil_r|]. unfold add_tables in *. cbn [fold_left map]. destruct (IH (AddFile 0 FILENUMBER_LDB (file_size m) (smallest m) (largest m) e)) as [-> ->].
  cbn [AddFile new_files_ deleted_files_]. split; [by rewrite <- app_assoc|done].
Qed.

Lemma Open_impl l env0 env : LockFile (LockFileName dbpath dbname) (CreateDir dbpath env0) = (OK, env) -> FileExists (DescriptorFileName dbpath dbname 1) env = true -> error_if_exists options = false ->
  recover_files snappy new_array ucmp opts (set_env env (DBImpl_make dbpath dbname env)) = Some l ->
  Recover snappy new_array ucmp opts (DBImpl_make dbpath dbname env0) = Some (true, l).
Proof using.
  intros Hlock Hex Herr Hrec. unfold Recover. cbv zeta. set (db0 := DBImpl_make dbpath dbname env0). change (LockFile _ _) with (LockFile (LockFileName dbpath dbname) (CreateDir dbpath env0)). rewrite Hlock.
  change (ok OK) with true. cbn [negb]. change (set_env env _) with (set_env env (DBImpl_make (W := W) dbpath dbname env)). set (db1 := set_env env (DBImpl_make dbpath dbname env)) in *.
  unfold create_or_check. change (FileExists _ (env_ db1)) with (FileExists (DescriptorFileName dbpath dbname 1) env).
  rewrite Hex. cbn [negb]. change (error_if_exists opts) with (error_if_exists options). rewrite Herr. cbn [mbind option_bind]. change (ok OK) with true. cbn [negb]. by rewrite Hrec.
Qed.

(** A database that is ready for [Write]. *)
Definition ready (last : Z) (es : list MemTable.entry) db : Prop := opened ucmp last es (mkState db [] WriteBatch.Clear ∅).

Lemma ready_intro last es db log logged : vs_last_sequence_ (versions_ db) = last -> holds ucmp (mem_ db) es -> imm_ db = None -> log_ db = Some log -> Written (records logged) log -> batches logged = es ->
  ready last es db.
Proof using WritableFileLaws0 ReliableFile0.
  intros H1 H2 H3 H4 H5 H6. destruct (Written_layout _ _ H5) as (L1 & L2 & _). do 6 (split; [done|]). by exists log, logged.
Qed.

(** What [Open] promises of the database: the log was kept, with number 1, or it is new and
    the entries of the old one are in tables that the edit [e] adds. *)
Definition reopened (es : list VersionEdit) (logged : list (Z * list BatchOp)) db : Prop :=
  let last := Z.max (last_edit_sequence es) (max_seq logged 0) in
  (reuse_logs options = true /\ logfile_number_ db = 1 /\ tracks ucmp es (current (versions_ db)) /\ ready last (batches logged) db) \/
  (logfile_number_ db = number_after es /\ ready last [] db /\ exists e edit, new_files_ e = new_files_ edit /\ deleted_files_ e = deleted_files_ edit /\
     in_tables snappy opts (batches logged) VersionEdit_make ∅ (TableFileName dbpath dbname FILENUMBER_LDB) edit (disk_ db) /\
     (fresh ucmp (es ++ [e]) -> tracks ucmp (es ++ [e]) (current (versions_ db)))).

Lemma reopened_settle es logged db : reopened es logged db -> reopened es logged (MaybeScheduleCompaction (DeleteObsoleteFiles db)).
Proof using. destruct (settle_spec db) as (env & b & n & ->). exact (fun H => H). Qed.

(** The database that [Recover] left, with a memtable, and its edit recorded. *)
Lemma open_kept es logged l : recovered snappy options dbpath dbname es logged l -> fresh ucmp es -> reuse_logs options = true -> logfile_number_ (l_db l) = 1 ->
  l_edit l = VersionEdit_make -> holds ucmp (mem_ (l_db l)) (batches logged) -> (exists log, log_ (l_db l) = Some log /\ Written (records logged) log) ->
  exists s vs env, LogAndApply ucmp (SetLogNumber (logfile_number_ (l_db l)) (SetPrevLogNumber 0 (l_edit l))) (versions_ (l_db l)) (env_ (l_db l)) = Some (s, vs, env) /\
    (ok s = true -> reopened es logged (set_env env (set_vset vs (l_db l)))).
Proof using All.
  intros (Lm & Li & Lt & Ln & Ld & Ls & _) Hfr Hreuse H1 Le Hm (log & Hlog & Hw). destruct (record_spec es (SetLogNumber (logfile_number_ (l_db l)) (SetPrevLogNumber 0 (l_edit l))) (l_db l) Lt Ln Ld) as (s & vs & env & E1 & Hlast & Htr).
  exists s, vs, env. split; [exact E1|]. intros Hok. left. specialize (Htr Hok). set (e := complete_edit _ _) in *.
  assert (He : no_files e) by (unfold e; rewrite Le; by split). split; [done|]. split; [done|]. split.
  - apply (no_files_tracks es e); [done|]. apply Htr. by apply no_files_fresh.
  - apply (ready_intro _ _ _ log logged); try done. cbn. by rewrite Hlast.
Qed.

Lemma open_new es logged l : recovered snappy options dbpath dbname es logged l -> mem_ (l_db l) = None -> read_only options = false ->
  in_tables snappy opts (batches logged) VersionEdit_make ∅ (TableFileName dbpath dbname FILENUMBER_LDB) (l_edit l) (disk_ (l_db l)) ->
  let '(s, edit, db) := new_log new_array options (l_edit l) (l_db l) in
  ok s = true -> exists s vs env, LogAndApply ucmp (SetLogNumber (logfile_number_ db) (SetPrevLogNumber 0 edit)) (versions_ db) (env_ db) = Some (s, vs, env) /\ (ok s = true -> reopened es logged (set_env env (set_vset vs db))).
Proof using All.
  intros (Lm & Li & Lt & Ln & Ld & Ls & Lnext & _) Hm Hro Htabs. unfold new_log. rewrite Hro.
  destruct (NewFileNumber (versions_ (l_db l))) as [num vs1] eqn:En. unfold NewFileNumber in En. injection En as <- <-. cbv zeta.
  destruct (NewWritableFile _ _) as [[s|file] env1] eqn:Ef; [apply NewWritableFile_error in Ef; congruence|]. apply NewWritableFile_empty in Ef. intros _.
  set (db1 := set_mems _ _ _). set (edit := SetLogNumber _ (SetPrevLogNumber 0 _)).
  destruct (record_spec es edit db1) as (s & vs & env & E1 & Hlast & Htr); [exact Lt|exact Ln|exact Ld|]. exists s, vs, env. split; [exact E1|]. intros Hok. right. split; [exact Lnext|]. split.
  - apply (ready_intro _ _ _ (Writer_make file) []); try done; [cbn; by rewrite Hlast| |by constructor].
    eexists _, []. split; [reflexivity|]. split; [exact (MemTable.make_rep ucmp new_array)|done].
  - exists (complete_edit edit (versions_ db1)), (l_edit l). split; [done|]. split; [done|]. split; [exact Htabs|exact (Htr Hok)].
Qed.

(** A database that could not be opened is deleted. *)
Lemma close_spec locked db : bg_compaction_scheduled_ db = false -> read_only options = false -> is_Some (end_close locked (begin_close opts db)).
Proof using. intros Hb Hro. unfold begin_close. change (read_only opts) with (read_only options). rewrite Hro. unfold end_close. change (bg_compaction_scheduled_ (set_shutting_down db)) with (bg_compaction_scheduled_ db). rewrite Hb. eauto. Qed.

(** The end of [Open], from the edit on. *)
Lemma open_end es logged locked s db (vs : VersionSet W) env : bg_compaction_scheduled_ db = false -> read_only options = false -> (ok s = true -> reopened es logged (set_env env (set_vset vs db))) ->
  exists s' r, (let db := set_env env (set_vset vs db) in let db := if ok s then MaybeScheduleCompaction (DeleteObsoleteFiles db) else db in
     if ok s then Some (s, inl db) else env ← end_close locked (begin_close opts db); Some (s, inr env)) = Some (s', r) /\
    (ok s' = true -> exists db, r = inl db /\ reopened es logged db).
Proof using.
  intros Hb Hro H. cbv zeta. destruct (ok s) eqn:Es.
  - do 2 eexists. split; [reflexivity|]. intros _. eexists. split; [reflexivity|]. apply reopened_settle. by apply H.
  - destruct (close_spec locked (set_env env (set_vset vs db)) Hb Hro) as [env' ->]. cbn [mbind option_bind]. do 2 eexists. split; [reflexivity|]. congruence.
Qed.

Lemma Open_spec es logged w log_name env0 env : LockFile (LockFileName dbpath dbname) (CreateDir dbpath env0) = (OK, env) -> stored file_of options dbpath dbname es logged w log_name env ->
  read_only options = false -> error_if_exists options = false ->
  exists s r, Open snappy new_array options dbpath dbname env0 = Some (s, r) /\ (ok s = true -> exists db, r = inl db /\ reopened es logged db).
Proof using All.
  intros Hlock Hst Hro Herr. destruct (recover_files_spec file_of snappy new_array options Hinterval dbpath dbname es logged w log_name env Hst) as (l & Hl & Hrec).
  assert (Hex : FileExists (DescriptorFileName dbpath dbname 1) env = true).
  { rewrite (store_exists file_of). apply bool_decide_eq_true. destruct Hst as [(es0 & e & log & _ & _ & _ & _ & _ & _ & Hman & _) _ _ _ _ _ _]. by rewrite Hman. }
  pose proof (Open_impl l env0 env Hlock Hex Herr Hl) as HR. apply recover_files_quiet in Hl. unfold Open, open_impl. rewrite Hro, HR. cbn [andb mbind option_bind].
  change (bg_compaction_scheduled_ (set_env env (DBImpl_make (W := W) dbpath dbname env))) with false in Hl.
  destruct (ok (l_status l)) eqn:Es.
  2:{ destruct (close_spec true (l_db l) Hl Hro) as [env' Hc]. exists (l_status l), (inr env'). rewrite Es. split; [|done].
      destruct (mem_ (l_db l)); rewrite ?Es; cbn [andb mbind option_bind]; by rewrite Es, Hc. }
  specialize (Hrec eq_refl). pose proof Hrec as (Lm & Li & Lt & Ln & Ld & Ls & Lnext & Lsave & [(Lr & L1 & Le & Hm & Hlog)|(Hm & Htabs)]).
  - destruct (open_kept es logged l Hrec (st_fresh _ _ _ _ _ _ _ _ _ Hst) Lr L1 Le Hm Hlog) as (s & vs & env2 & E1 & Hre). destruct Hm as (m & es' & Em & _). rewrite Em, Es, Lsave. cbn [andb].
    rewrite E1. cbn [mbind option_bind]. by apply (open_end es logged true s (l_db l) vs env2).
  - pose proof (open_new es logged l Hrec Hm Hro Htabs) as Hnew. rewrite Hm.
    assert (Hq : bg_compaction_scheduled_ (snd (new_log new_array options (l_edit l) (l_db l))) = false).
    { unfold new_log. destruct (NewFileNumber _) as [num vs1]. rewrite Hro. cbv zeta. by destruct (NewWritableFile _ _) as [[?|?] ?]. }
    destruct (new_log new_array options (l_edit l) (l_db l)) as [[s edit] db]. cbn [snd] in Hq. destruct (ok s) eqn:Eos.
    + destruct (Hnew eq_refl) as (s2 & vs & env2 & E1 & Hre). rewrite Lsave. cbn [andb]. rewrite E1. cbn [mbind option_bind]. by apply (open_end es logged true s2 db vs env2).
    + cbn [andb mbind option_bind]. rewrite Eos. destruct (close_spec true db Hq Hro) as [env' ->]. cbn [mbind option_bind]. do 2 eexists. split; [reflexivity|]. congruence.
Qed.
End Opening.

(** ** Properties *)

(** C6: The log recovers what was written.  When a crash leaves the log of batches, none of
    them empty, whole or cut inside the record that was being added, [RecoverLogFile]
    returns, and when it succeeds either the last log is reused and all the entries of the
    batches, and no others, are in the memtable, whose log is the one that was read; or the
    entries are, in order, in tables, each synced and closed, that the edit adds to level 0.
    Only the last of these tables is left on the disk, in place of any table that was
    there: all have the same name.  So no entry is lost when there is one table, and the
    entries of all tables but the last are when there are more.  The highest sequence
    number is that of the batches. *)
Theorem recover_log {E W R : Type} `{!EnvFiles E W R} `{!EnvDirs E} `{!TableCacheOps E} `{!WritableFile W} `{!WritableFileLaws W} `{!FileStates W} `{!ReliableFile W} `{!EnvFilesLaws E W R}
    `{!SequentialFile R} `{!SequentialFileLaws R} `{!ReliableReads R}
    (snappy : option SnappyLib) (new_array : list (Z * Z) -> Z -> Z) (ucmp : Comparator) `{!ComparatorLaws ucmp} (opts : DBOptions)
    log_name last_log save edit max (db : DBImpl E W) file env logged (w : Writer W) : let fname := dbpath_ (versions_ db) ++ str "/" ++ log_name in
  TableBuilder.comparator (table_options opts) = InternalKeyComparator ucmp -> 1 <= TableBuilder.block_restart_interval (table_options opts) ->
  Written (records logged) w -> NewSequentialFile fname (env_ db) = (inr file, env) -> crash_image w (unread file) ->
  Forall batch_ok logged -> size_of logged < 2 ^ 31 - 1 -> NoDup (batches logged) -> MemTable.distinct ucmp (batches logged) ->
  exists l, RecoverLogFile snappy new_array ucmp opts log_name last_log save edit max db = Some l /\ (ok (l_status l) = true ->
    l_max_sequence l = max_seq logged max /\
    ((last_log = true /\ reuse_logs opts = true /\ l_edit l = edit /\ l_save_manifest l = save /\ kept_log ucmp fname (batches logged) (set_env env db) (l_db l)) \/
     (flushed_from db (l_db l) /\ in_tables snappy opts (batches logged) edit (disk_ db) (table_name db) (l_edit l) (disk_ (l_db l))))).
Proof.
  intros fname Hc Hi HW Ef Himg Hb Hsz Hn Hd. destruct (crash_image_reads _ w file HW Himg) as [Hr Hl]. unfold records in Hl. rewrite length_map in Hl.
  destruct (RecoverLogFile_spec snappy new_array ucmp opts Hc Hi log_name last_log save edit max db file env logged Ef Hr Hl Hb Hsz Hn Hd) as (l & E1 & H).
  exists l. split; [exact E1|]. intros Hok. destruct (H Hok) as (_ & H1 & _ & H2). by split.
Qed.

(** C5: A database that is opened again, in a build without assertions, has what was
    written.  The directory holds the manifest of a database, in which the files that were
    added to a level are apart and none has a number that was deleted from it, and one log,
    the one that [Write] was adding to, whose batches are not empty.  [Open] returns, and
    when it succeeds there are two cases.  With [reuse_logs] the log may have been kept:
    the database has the recorded files, the entries of the log in its memtable, and the
    log ready to be added to, so that [Write] goes on as from the start; it has then the
    number 1, against an assertion that the number of a log does not fall.  Otherwise the
    memtable and the log are new, with the next number, the entries of the log are, in
    order, in tables of level 0, of which the last is on the disk, and the new version has
    them when they too are apart and have numbers that were not deleted.  The last sequence
    number is the highest one that the manifest or the log has. *)
Theorem open_recovers {E W R : Type} `{!EnvFiles E W R} `{!EnvDirs E} `{!TableCacheOps E} `{!WritableFile W} `{!WritableFileLaws W} `{!FileStates W} `{!ReliableFile W} `{!EnvFilesLaws E W R}
    `{!SequentialFile R} `{!SequentialFileLaws R} `{!ReliableReads R} (file_of : bytes -> E -> option bytes) `{!StoreLaws file_of}
    (snappy : option SnappyLib) (new_array : list (Z * Z) -> Z -> Z) (options : DBOptions) `{!ComparatorLaws (user_comparator options)} dbpath dbname
    es logged (w : Writer W) log_name env0 env :
  1 <= TableBuilder.block_restart_interval (table_options options) ->
  LockFile (LockFileName dbpath dbname) (CreateDir dbpath env0) = (OK, env) -> stored file_of options dbpath dbname es logged w log_name env ->
  read_only options = false -> error_if_exists options = false ->
  exists s r, Open snappy new_array options dbpath dbname env0 = Some (s, r) /\ (ok s = true -> exists db, r = inl db /\ reopened snappy options dbpath dbname es logged db).
Proof. intros Hi. by apply (Open_spec file_of). Qed.

(** *** An example *)

(** A directory: the files with their names, and the names that are listed. *)
Record Directory : Type := mkDirectory { dir_files : list (bytes * bytes); dir_names : list bytes }.
Definition dir_file (name : bytes) (d : Directory) : option bytes := snd <$> find (fun f => bool_decide (fst f = name)) (dir_files d).

#[local] Instance dir_EnvFiles : EnvFiles Directory bytes bytes := {|
  NewWritableFile _ d := (inr [], d);
  NewAppendableFile name d := (inr (default [] (dir_file name d)), d);
  NewSequentialFile name d := (match dir_file name d with Some c => inr c | None => inl (IOError name []) end, d);
  GetFileSize name d := match dir_file name d with Some c => inr (size_of c) | None => inl (IOError name []) end;
  EnvDeleteFile _ d := (OK, d)
|}.
#[local] Instance dir_EnvFilesLaws : EnvFilesLaws Directory bytes bytes.
Proof. split; [done|]. cbn. intros name env f env' [= <- _]. done. Qed.
#[local] Instance dir_EnvDirs : EnvDirs Directory := {|
  GetChildren _ _ d := (OK, dir_names d);
  FileExists name d := bool_decide (is_Some (dir_file name d));
  CreateDir _ d := d;
  DeleteDir _ d := d;
  LockFile _ d := (OK, d);
  UnlockFile _ d := d;
  NowMicros d := (0, d)
|}.
(** Files in memory: what is written is there at once, and nothing is to be closed. *)
#[local] Instance bytes_FileStates : FileStates bytes.
Proof. by refine {| is_synced _ := True; is_closed _ := True |}. Defined.
#[local] Instance dir_TableCacheOps : TableCacheOps Directory := {| table_status _ _ _ d := (OK, d); Evict _ d := d |}.
#[local] Instance dir_StoreLaws : StoreLaws (E := Directory) (W := bytes) (R := bytes) dir_file.
Proof.
  split.
  - intros name d c Hc. exists c, d. cbn. rewrite Hc. by repeat split.
  - intros name d n. cbn. destruct (dir_file name d) as [c|]; [intros [= <-]; by exists c|done].
  - intros name d f d' [= <- _] c Hc. by rewrite Hc.
  - done.
Qed.

Definition sample_logged_batches : list (Z * list BatchOp) := [(21, [OpPut (str "a") (str "1"); OpDelete (str "b")]); (23, [OpPut (str "c") (str "2")])].
Definition sample_log_writer : Writer bytes := sample_writer (records sample_logged_batches).
Definition options_with (buffer : Z) (reuse : bool) : DBOptions := mkDBOptions
  (TableBuilder.mkOptions BytewiseComparator 4096 16 Format.kNoCompression None false) true false buffer 1000 reuse false false.
Definition sample_options (reuse : bool) : DBOptions := options_with (4 * 1048576) reuse.
Definition sample_open_options : DBOptions := sample_options true.
Definition sample_directory : Directory :=
  mkDirectory [(str "/db/test.manifest", written (dest sample_manifest)); (str "/db//test.000005.log", written (dest sample_log_writer))]
    [str "test.lock"; str "test.ldb"; str "test.manifest"; str "test.000005.log"].

Lemma sample_log_written : Written (records sample_logged_batches) sample_log_writer.
Proof.
  change (records sample_logged_batches) with (([] ++ [batch_rep 21 [OpPut (str "a") (str "1"); OpDelete (str "b")]]) ++ [batch_rep 23 [OpPut (str "c") (str "2")]]).
  eapply (Written_add _ (sample_writer [batch_rep 21 [OpPut (str "a") (str "1"); OpDelete (str "b")]])); [|vm_compute; reflexivity].
  eapply (Written_add _ (Writer_make [])); [by constructor|vm_compute; reflexivity].
Qed.

#[local] Existing Instance MemTable.entry_eq_dec.
Lemma sample_batches_ok : Forall batch_ok sample_logged_batches /\ size_of sample_logged_batches < 2 ^ 31 - 1 /\ NoDup (batches sample_logged_batches) /\
  MemTable.distinct BytewiseComparator (batches sample_logged_batches).
Proof.
  split; [|split; [reflexivity|split]].
  - repeat constructor; vm_compute; congruence.
  - apply (bool_decide_unpack (NoDup (batches sample_logged_batches))). vm_compute. reflexivity.
  - apply MemTable.distinct_decide. vm_compute. reflexivity.
Qed.

Lemma recover_log_witness : exists l, RecoverLogFile (R := bytes) None Arena.next_array BytewiseComparator (impl_options sample_open_options) (str "test.000005.log") true false VersionEdit_make 0
    (DBImpl_make (W := bytes) (str "/db/") (str "test") sample_directory) = Some l /\ l_max_sequence l = 23 /\ l_edit l = VersionEdit_make.
Proof.
  destruct sample_batches_ok as (B1 & B2 & B3 & B4).
  destruct (recover_log (R := bytes) None Arena.next_array BytewiseComparator (impl_options sample_open_options) (str "test.000005.log") true false VersionEdit_make 0
    (DBImpl_make (W := bytes) (str "/db/") (str "test") sample_directory) (written (dest sample_log_writer)) sample_directory sample_logged_batches sample_log_writer) as (l & E1 & H).
  - reflexivity.
  - vm_compute. discriminate.
  - exact sample_log_written.
  - vm_compute. reflexivity.
  - left. reflexivity.
  - exact B1.
  - exact B2.
  - exact B3.
  - exact B4.
  - assert (Hok : (fun l => (ok (l_status l), l_compactions l, l_edit l)) <$> RecoverLogFile (R := bytes) None Arena.next_array BytewiseComparator (impl_options sample_open_options) (str "test.000005.log") true false VersionEdit_make 0
      (DBImpl_make (W := bytes) (str "/db/") (str "test") sample_directory) = Some (true, 0, VersionEdit_make)) by (vm_compute; reflexivity).
    rewrite E1 in Hok. cbn [fmap option_fmap option_map] in Hok. apply (inj Some) in Hok. injection Hok as Hok _ He. exists l. split; [exact E1|]. destruct (H Hok) as [Hm _]. split; [rewrite Hm; reflexivity|exact He].
Defined.

Lemma sample_stored reuse : stored dir_file (sample_options reuse) (str "/db/") (str "test") sample_log sample_logged_batches sample_log_writer (str "test.000005.log") sample_directory.
Proof.
  destruct (Logged_ok BytewiseComparator _ _ sample_logged) as (_ & (log & Hlog & HW) & _ & es0 & e & E1 & H1 & H2 & H3 & H4 & _).
  split; [|exact sample_recordable|exact sample_fresh|vm_compute; reflexivity|vm_compute; reflexivity|exact sample_log_written|exact sample_batches_ok].
  exists es0, e, log. split; [exact E1|]. split; [exact H1|]. split; [exact H2|]. split; [exact H3|]. split; [exact H4|]. split; [exact HW|]. split.
  - assert (Hm : sample_manifest = log) by (unfold sample_manifest; rewrite Hlog; reflexivity). rewrite <- Hm. vm_compute. reflexivity.
  - exists (dir_names sample_directory). split; [reflexivity|]. apply (app_inj_tail (take 2 sample_log)) in E1 as [_ <-]. 
    apply injective_projections; [|vm_compute; reflexivity]. apply (bool_decide_unpack (_ = _)). vm_compute. reflexivity.
Qed.

(** With the log kept, and, without [reuse_logs], with its entries in a table on the disk. *)
Lemma open_recovers_witness : (exists db, Open (R := bytes) None Arena.next_array (sample_options true) (str "/db/") (str "test") sample_directory = Some (OK, inl db) /\
    logfile_number_ db = 1 /\ reopened None (sample_options true) (str "/db/") (str "test") sample_log sample_logged_batches db) /\
  exists db, Open (R := bytes) None Arena.next_array (sample_options false) (str "/db/") (str "test") sample_directory = Some (OK, inl db) /\
    logfile_number_ db = 4 /\ reopened None (sample_options false) (str "/db/") (str "test") sample_log sample_logged_batches db.
Proof.
  pose proof (fun reuse => open_recovers (R := bytes) dir_file None Arena.next_array (sample_options reuse) (str "/db/") (str "test") sample_log sample_logged_batches sample_log_writer (str "test.000005.log")
    sample_directory sample_directory ltac:(vm_compute; discriminate) eq_refl (sample_stored reuse) eq_refl eq_refl) as Hopen.
  assert (Hok : forall reuse, (fun x => (ok (fst x), match snd x with inl db => logfile_number_ db | inr _ => 0 end)) <$> Open (R := bytes) None Arena.next_array (sample_options reuse) (str "/db/") (str "test") sample_directory =
    Some (true, if reuse then 1 else 4)) by (intros []; vm_compute; reflexivity).
  assert (H : forall reuse, exists db, Open (R := bytes) None Arena.next_array (sample_options reuse) (str "/db/") (str "test") sample_directory = Some (OK, inl db) /\
    logfile_number_ db = (if reuse then 1 else 4) /\ reopened None (sample_options reuse) (str "/db/") (str "test") sample_log sample_logged_batches db).
  { intros reuse. destruct (Hopen reuse) as (s & r & E1 & H). specialize (Hok reuse). rewrite E1 in Hok. cbn [fmap option_fmap option_map fst snd] in Hok. apply (inj Some), pair_equal_spec in Hok as [Hs Hn].
    destruct (H Hs) as (db & -> & Hdb). exists db. split; [rewrite E1; destruct s; [discriminate Hs|reflexivity]|]. split; [exact Hn|exact Hdb]. }
  exact (conj (H true) (H false)).
Defined.

(** *** Consequences *)

(** Recovery looks for the table with number 0, but the number of the lock file is 0 too. *)
Lemma missing_table_unnoticed path min_log prev_log names lock : lock ∈ names -> ParseFileName path lock = Some (0, kDBLockFile) -> FILENUMBER_LDB ∉ fst (scan_names path min_log prev_log names).
Proof.
  intros Hin Hlock. unfold scan_names. generalize ({[FILENUMBER_LDB; FILENUMBER_MANIFEST]} : gset Z, @nil bytes).
  assert (Hkeep : forall names el, FILENUMBER_LDB ∉ fst el -> FILENUMBER_LDB ∉ fst (fold_left (scan_name path min_log prev_log) names el)).
  { clear. induction names as [|n names IH]; intros el H; [done|]. apply IH. unfold scan_name. destruct (ParseFileName path n) as [[num t]|]; [|done]. set_solver. }
  induction names as [|n names IH]; intros el; [by apply not_elem_of_nil in Hin|]. cbn [fold_left]. apply elem_of_cons in Hin as [<-|Hin]; [|by apply IH].
  apply Hkeep. unfold scan_name. rewrite Hlock. unfold FILENUMBER_LDB. set_solver.
Qed.

(** A log that ends inside a record is kept as it is: a record that is added after the
    torn one is not read back. *)
Definition torn_then_added : option (Status * list bytes) :=
  let torn := take 20 (written (dest (sample_writer [str "hello"; str "world"]))) in
  '(s, w) ← AddRecord (str "again") (Writer_reopen torn (size_of torn));
  '(records, _) ← ReadAll (Reader_make (written (dest w)) true true 0);
  Some (s, records).
Lemma torn_log_kept : torn_then_added = Some (OK, [str "hello"]).
Proof. vm_compute. reflexivity. Qed.

(** The log that is kept has the number 1, where the manifest has recorded the number 3: the
    edit that [Open] applies breaks an assertion of [LogAndApply]. *)
Lemma kept_log_assertion : (fun l => let db := l_db l in (logfile_number_ db, vs_log_number_ (versions_ db),
    LogAndApply_asserts (SetLogNumber (logfile_number_ db) (SetPrevLogNumber 0 (l_edit l))) (versions_ db))) <$>
  recover_files (R := bytes) None Arena.next_array BytewiseComparator (impl_options (sample_options true)) (set_env sample_directory (DBImpl_make (W := bytes) (str "/db/") (str "test") sample_directory)) =
  Some (1, 3, false).
Proof. vm_compute. reflexivity. Qed.

(** A log with these batches in the directory of the example, and a table on the disk.  The
    write buffer is small, to keep the example short. *)
Definition recover_tables (logged : list (Z * list BatchOp)) : option (bool * list bytes * list bytes) :=
  let dir := mkDirectory [(str "/db//test.000005.log", written (dest (sample_writer (records logged))))] [] in
  l ← RecoverLogFile (R := bytes) None Arena.next_array BytewiseComparator (mkDBOptions (table_options (impl_options (sample_options false))) true false 1 1000 false false false) (str "test.000005.log") true false VersionEdit_make 0
    (set_disk {[ str "/db/test.ldb" := str "a table" ]} (DBImpl_make (W := bytes) (str "/db/") (str "test") dir));
  Some (ok (l_status l), map (fun nf => ExtractUserKey (smallest (snd nf))) (new_files_ (l_edit l)), map fst (map_to_list (disk_ (l_db l)))).

(** Two memtables make two tables of the edit, and one file. *)
Lemma first_table_lost : recover_tables sample_logged_batches = Some (true, [str "a"; str "c"], [str "/db/test.ldb"]).
Proof. vm_compute. reflexivity. Qed.

(** A batch without operations makes no table, and deletes the one that is there. *)
Lemma empty_batch_deletes_table : recover_tables [(21, [])] = Some (true, [], []).
Proof. vm_compute. reflexivity. Qed.
